(* ===== verification/_CoqProject ===== *)
-Q . S2P
Prelude.v
Context.v
ContextLinks.v
ContextInv.v
ContextRefine.v
ContextSpec.v
ContextRep.v
CDStructs.v
MemoryManager.v
ContextTheorems.v
CDTheorems.v
Integer.v
IntegerTheorems.v
Node.v
TypeRules.v
Semantics.v
BvArith.v
TypeSound.v
TypeTheorems.v
BitVectorUtil.v
BvElim.v
BvTerms.v
BvElimArith.v
BvElimSound.v
TheoryRewriter.v
BvConst.v
BvConstSound.v
BvCore.v
BvCoreSound.v
BvSimplify.v
BvAssoc.v
BvSimplifySound.v
BvSimplifyArith.v
BvSimplifyArithSound.v
BvRuleTheorems.v
BvNormalize.v
BvNormalizeBits.v
BvNormalizeSound.v
BvProductSound.v
BvCountSound.v
BvNormalizeTheorems.v
BvRewriter.v
BvRewriterSound.v
BoolTerms.v
BoolRewriter.v
BoolRewriterSound.v
BoolNnf.v
BoolTheorems.v
BoolWeight.v
UfRewriter.v
UfRewriterSound.v
Rewriter.v
RewriterSound.v
RewriterTheorems.v
Evaluator.v
EvaluatorSound.v
EvaluatorTheorems.v
Substitutions.v
SubstitutionsSound.v
CircuitPropagator.v
PropagatorRules.v
PropagatorSound.v
PropagatorTheorems.v
AssertionPipeline.v
PipelineSound.v
BVToBool.v
BVToBoolSound.v
BoolToBV.v
BoolToBVSound.v
Bitblast.v
BitblastCircuits.v
BitblastShift.v
BitblastLogic.v
BitblastStrategies.v
BitblastSound.v
CircuitTheorems.v
CnfStream.v
CnfSpec.v
CnfSound.v
CnfTheorems.v
