(* ===== verification/Prelude.v ===== *)
(** * The bit-vector core of the solver

    ava6 is an SMT solver.  A query runs through its parts like this: terms are
    typed ([expr], the type rules of each theory), rewritten, preprocessed and,
    for the theory of fixed-size bit-vectors, bit-blasted to Boolean formulas
    ([theory/bv/bitblast]); the Boolean skeleton is turned into clauses
    ([prop/cnf_stream.cpp]) for a SAT solver, and everything that is asserted
    after a [push] is undone by the matching [pop] through the backtracking
    context ([context]).  This development models that path for Booleans and
    bit-vectors and proves it correct, from constants to clauses.

    ** Files

    - This file: the option and state monads the code is written in ([assert] is
      the code's [Assert]: a failed one is [None]), outcomes that tell a failure from
      a loop that is cut off, loops with an invariant.
    - [Context]: [context/context.h] and [context.cpp].  The state is a heap of
      objects with the pointers of the class ([d_pContextObjNext],
      [d_ppContextObjPrev], [d_pContextObjRestore]), the list of scopes and the
      memory regions (the debugging variant of [context_mm.h]).  [ContextData]
      is the interface a subclass implements ([save], [restore]), [ContextLaws]
      (in [ContextInv]) what it promises.  [ContextLinks] is about the doubly
      linked lists, [ContextInv] has the abstract context (a stack of snapshots)
      and the chains of saved versions, [ContextRefine] and
      [ContextSpec] show that each operation keeps the invariant and acts on
      the snapshots, [ContextRep] packages this as a simulation.
    - [CDStructs]: [cdo.h], [cdmaybe.h], [cdlist.h], [cdqueue.h],
      [cdinsert_hashmap.h], [cdhashset.h], one module per class, each an instance
      of [ContextLaws].
    - [MemoryManager]: [context_mm.cpp], the chunk allocator of the contexts.
    - [ContextTheorems], [CDTheorems]: the theorems about [Context] and
      [CDStructs].
    - [Integer]: [util/integer_gmp_imp.cpp] over GMP, which is the class [Gmp] with
      the laws its manual states, [GmpLaws]; [ZGmp] shows that they can be met.
      [IntegerTheorems] has the theorems.
    - [Node], [TypeRules]: terms of the Boolean and bit-vector kinds, and the type
      rules of [theory/bv], [theory/booleans] and equality.  [Semantics] gives the
      values of terms (SMT-LIB's, with total division), the reference for all
      that follows.  [BvArith] is modular arithmetic, [TypeSound] type soundness,
      [TypeTheorems] its theorems.
    - [BitVectorUtil]: [util/bitvector.cpp], the constants.
    - [BvElim]: [theory/bv/theory_bv_utils.cpp] and the operator elimination rules;
      [BvTerms], [BvElimArith], [BvElimSound] their correctness.
    - [BvConst]: the constant evaluation rules; [BvConstSound] their correctness.
    - [BvCore]: the core rules; [BvCoreSound] their correctness.  [NodeIds] is the
      numbering of nodes, a parameter.
    - [BvSimplify], [BvSimplifyArith]: the simplification rules.  [BvAssoc] has the
      values of operators with any number of operands; [BvSimplifySound],
      [BvSimplifyArithSound] the correctness of
      the rules, [BvRuleTheorems] the theorems.
    - [BvNormalize], [BvNormalizeBits]: the normalization rules.  The order in which
      an [unordered_map] is traversed is the parameter [HashOrder], a permutation.
      [BvNormalizeSound] (flattening), [BvProductSound] (products and
      like terms), and [BvCountSound] (absorption, complements and
      slicing) show the rules correct, [BvNormalizeTheorems] has the
      theorems.
    - [BvRewriter]: [theory_bv_rewriter.cpp], the strategies and the table of the
      bit-vector rewriter over all these rules; [BvRewriterSound] its correctness.
    - [TheoryRewriter]: [theory/theory_rewriter.h], the interface of the theories'
      rewriters and what an answer promises.
    - [BoolRewriter]: [theory/booleans/theory_bool_rewriter.cpp]; [BoolTerms] is
      about typed Boolean terms, [BoolRewriterSound] and [BoolNnf] show the
      rewriter and the negation normal form correct, [BoolTheorems] has the
      theorems.
    - [UfRewriter]: [theory/uf/theory_uf_rewriter.cpp] on equality, [DISTINCT] and the
      conversions between integers and bit-vectors; [UfRewriterSound] its
      correctness.
    - [Rewriter]: [theory/rewriter.cpp] and [rewriter_attributes.h], the driver: a
      machine with an explicit stack and two caches, over any theories.
      [RewriterSound] shows that it keeps the meaning of terms if the theories do
      (the class [TheoryRewriters]), and that it ends if their answers
      descend in a reduction order (the class [ReductionOrder]).  [BoolWeight] is
      such an order for the Boolean rewriter; [RewriterTheorems] puts the driver
      and the theories together.
    - [Evaluator]: [theory/evaluator.cpp], the evaluation of a term under a
      substitution, with its two maps, an optional rewriter and the final assertion
      of assertion builds; [EvaluatorSound] shows the operators and the traversal
      correct, [EvaluatorTheorems] has the theorems.
    - [Substitutions]: [theory/substitutions.cpp], a context-dependent substitution
      with a cache; [SubstitutionsSound] follows the equations that are in force
      through its operations, and shows it correct.
    - [CircuitPropagator]: [theory/booleans/circuit_propagator.cpp], which the
      preprocessor runs on the Boolean structure of the assertions.  The state is
      the members of the class, those in its context with the values saved by
      [push].  [PropagatorRules] shows that each rule assigns what follows,
      [PropagatorSound] has the invariant of the circuit and the loops,
      [PropagatorTheorems] the theorems.
    - [AssertionPipeline]: [preprocessing/assertion_pipeline.cpp], the assertions
      that the preprocessing passes modify; [PipelineSound] shows that it is their
      conjunction when it is pushed to, replaced in and rewritten, and says what a pass promises.
    - [BVToBool], [BoolToBV]: the passes [preprocessing/passes/bv_to_bool.cpp] and
      [bool_to_bv.cpp] on the pipeline, each with its two caches, which stay from one
      call to the next.  [BoolTerms] relates
      a one-bit term and the formula it stands for; [BVToBoolSound] and
      [BoolToBVSound] show the passes correct.
    - [Bitblast]: [bitblast_utils.h], [bitblast_strategies_template.h],
      [bitblaster.h] and [node_bitblaster.cpp]; the state is the class's two
      caches.  [BitblastCircuits] and [BitblastShift] verify the circuits,
      [BitblastLogic] is a small program logic for the stateful part,
      [BitblastStrategies] verifies each strategy, [BitblastSound] the bit-blaster
      and [CircuitTheorems] restates the circuits.
    - [CnfStream]: [prop/cnf_stream.cpp] with the literals of
      [sat_solver_types.h].  The SAT solver is the class [SatClauseSink]
      ([sat_clause_sink.h]) and the registrar a parameter that may re-enter.
      [CnfSpec] has the invariant and the Tseitin encodings, [CnfSound] the
      traversal, [CnfTheorems] the theorems.

    ** What the theorems show

    Context: refinement of the stack of snapshots, restoration on [pop],
    termination of [popto], the order of notifications, the error at level 0.
    Allocator: disjoint allocations inside the chunks held, regions restored.
    Containers: each class against what it stands for (list, queue, map), and its
    backtracking.  Types: soundness, well-formedness, and widths that do not wrap
    around in the 64-bit and 32-bit arithmetic of the rules.  Rewriting:
    every elimination, evaluation, core and normalization rule and all but one of
    the simplification rules keep type and value (some under a condition that is
    stated); [MultSltMult] does not.  The rewriter: [preRewrite], [postRewrite] and
    [expandDefinition] answer with a term of the same type and value, and so does
    the rewriter of functions and the Boolean rewriter, whose finished answers are
    stable; the negation normal
    form is one and has the value of the formula.  The driver over these theories
    returns a term of the same type and value, and on propositional formulas it
    always returns.  The evaluator returns a term with the value of the given one
    under the substitution, a constant when it supports all of its operators; its
    final assertion holds when the rewriter evaluates the substituted term.
    Substitutions: the term computed has the value of the given one where the
    equations in force hold, after any sequence of operations, and no assertion of
    the loop fails; for acyclic equations on variables the loop ends, and no
    substituted variable is left.
    Circuit propagation: what is learned follows from the assertions, a conflict
    means that they are unsatisfiable, and without one the values of the leaves
    satisfy them.  Preprocessing: the pipeline holds the conjunction of what was
    pushed, and the passes [bv-to-bool] and [bool-to-bv] return, keep that
    conjunction and report a conflict only if it cannot be satisfied.
    Bit-blasting: the bits of a term or atom over the supported kinds have its value
    in every valuation.  CNF: the clauses are equisatisfiable with the formulas
    (without double negations), and literals have the value of their formulas.

    ** The rewriter as a parameter

    The evaluator, the substitution map, the pipeline, the two passes and the
    bit-blaster call the rewriter of all theories, of which the development has only
    the Boolean, the bit-vector and part of the other theories; [MultSltMult] shows
    that it does not keep the value of every term.  It is a parameter there, and
    the theorems ask for nothing but that it keeps the type and value of the terms
    it is given in the run at hand: the formulas a pass has lifted or lowered (what
    these are does not depend on the rewriter), the conjuncts that are pushed, the
    atom and its circuit, the terms that can stand for a subterm in a run of the
    evaluator.  The substitution map needs nothing of it.

    ** Loops and fuel

    Loops over a container are structural recursion.  Some are bounded by fuel
    that the theorems show is enough: the list of a scope and the versions of an
    object, bounded by the size of the heap ([restoreList], [destroyLoop]; a
    duplicate-free list of allocated addresses is not longer than the heap);
    [popto], bounded by the number of scopes; [bbTerm], bounded by the number of
    symbols of the term; and the traversal of [toCNF], bounded by twice that
    number, as every symbol is pushed once and visited twice at most; [flattenNode]
    of the Boolean rewriter, bounded by the number of symbols, and
    [computeNnfNorm], by four times that number (each subterm is visited twice,
    under either polarity); the queue of [evalInternal], bounded by twice the
    number of symbols (a node is visited once for its children and once for
    itself); [computeBackEdges], bounded by the number of symbols, and the queue of
    the circuit propagator, by the number of nodes seen, as a node enters it once;
    the conjuncts of [push_back] and the recursion of [bv-to-bool], bounded by the
    number of symbols, and the traversals of [bool-to-bv], by twice that number.
    A substitution and a run of the driver take any fuel (cyclic equations are
    followed forever) and distinguish running out ([OutOfFuel]) from failing.
    [substitution_terminates] shows that for acyclic equations some fuel, and every
    larger one, is enough, and [rewriter_terminates] the same of the driver on
    propositional formulas.

    ** Integers

    Sizes and positions are 32-bit: where the code adds them in [uint32_t] the
    model wraps ([u32]), where it casts to [uint64_t] first (the type rules) it wraps
    there ([u64]), and the theorems show, or state the bounds under which, this does
    not show.  Literals are 64-bit.  A term has at most [MAX_CHILDREN] children.
    Natural numbers stand for the level of a context (the number of scopes), the
    threshold of the shift circuits (a power of two up to the width) and the
    logarithm in the cardinality test of [DISTINCT], which the code keeps in
    [uint32_t], [int] and [double]; they agree for fewer than 2^31 scopes and bits and
    at most [MAX_CHILDREN] operands.  An [Assert] in the guard of a rule
    ([MultDistribConst]) is part of the guard, as a guard is a Boolean.

    ** Not modelled

    Reference counting and hash consing of nodes (a node is its structure), traces
    and statistics, iterators, printing and string conversion, exceptions of the
    allocator.  The remainder [INTS_MODULUS] by zero, a function that the solver
    leaves open, has the value of the total remainder in [Semantics]; no theorem needs
    it.  [rewriteViaRule] and [getBvInvertSolve], which reconstruct proofs, rewriting
    with a proof generator, and the rule [SolveEq], which the rewriter does not
    use, are left out.  Proofs are disabled throughout.  Outside this development
    are: the bit-vector solver and the propositional engine, which join the
    bit-blaster and the clauses to a SAT solver that is not part of the repository;
    the containers [CDHashMap], [CDTrailQueue] and the like; the equality engine,
    which works on indices into its own memory with callbacks to the theories; the
    other preprocessing passes; the theories of arithmetic (over rationals and
    algebraic numbers of external libraries), arrays, datatypes, sets, strings and
    floating-point numbers; quantifiers; proofs and their printers; the parser,
    options and the API.  The first three are what would be modelled next. *)
From stdpp Require Import base option list gmap fin_maps numbers.

(** [Assert(b)]: [None] is the failed assertion. *)
Definition assert (b : bool) : option unit := if b then Some tt else None.

Lemma assert_Some b x : assert b = Some x ↔ b = true.
Proof. destruct b, x; done. Qed.

(** ** Stateful computations that may fail *)

Definition StateM (S A : Type) : Type := S → option (A * S).

#[global] Instance StateM_ret S : MRet (StateM S) := λ A a s, Some (a, s).
#[global] Instance StateM_bind S : MBind (StateM S) := λ A B f m s,
  match m s with Some (a, s') => f a s' | None => None end.

Section state.
Context {S : Type}.

Definition lift {A} (o : option A) : StateM S A := λ s, match o with Some a => Some (a, s) | None => None end.
Definition getState : StateM S S := λ s, Some (s, s).
Definition putState (s' : S) : StateM S unit := λ _, Some ((), s').

Lemma bind_eq {A B} (f : A → StateM S B) m s a s' : m s = Some (a, s') → (m ≫= f) s = f a s'.
Proof. intros E. unfold mbind, StateM_bind. by rewrite E. Qed.

Lemma bind_inv {A B} (f : A → StateM S B) m s r :
  (m ≫= f) s = Some r → ∃ a s', m s = Some (a, s') ∧ f a s' = Some r.
Proof. unfold mbind, StateM_bind. destruct (m s) as [[a s']|] eqn:E; [eauto|done]. Qed.

Lemma lift_eq {A} (o : option A) a s : o = Some a → lift o s = Some (a, s).
Proof. by intros ->. Qed.

Lemma lift_bind {A B} (f : A → StateM S B) o s a : o = Some a → (lift o ≫= f) s = f a s.
Proof. by intros ->. Qed.

End state.

(** ** Outcomes *)

(** A run returns, fails (an assertion or an exception), or is cut off. *)
Inductive Outcome (A : Type) := Returns (a : A) | Fails | OutOfFuel.
Arguments Returns {A} a.
Arguments Fails {A}.
Arguments OutOfFuel {A}.

#[global] Instance Outcome_bind : MBind Outcome := λ A B f m,
  match m with Returns a => f a | Fails => Fails | OutOfFuel => OutOfFuel end.

Definition attempt {A} (o : option A) : Outcome A := match o with Some a => Returns a | None => Fails end.

Lemma bind_Returns {A B} (f : A → Outcome B) m b : m ≫= f = Returns b ↔ ∃ a, m = Returns a ∧ f a = Returns b.
Proof. destruct m; cbn; naive_solver. Qed.
Lemma attempt_Returns {A} (o : option A) a : attempt o = Returns a ↔ o = Some a.
Proof. destruct o; naive_solver. Qed.

(** ** Counting loops *)

(** [for (i = from; n more times; ++i) s = f(i, s)]. *)
Fixpoint for_up {T} (n i : nat) (f : nat → T → option T) (s : T) : option T :=
  match n with
  | O => Some s
  | S n => s' ← f i s; for_up n (i + 1) f s'
  end.

(** [for (i = from; n more times; --i) s = f(i, s)]. *)
Fixpoint for_down {T} (n i : nat) (f : nat → T → option T) (s : T) : option T :=
  match n with
  | O => Some s
  | S n => s' ← f i s; for_down n (i - 1) f s'
  end.

(** The rule for a loop with an invariant. *)
Lemma for_up_inv {T} (P : nat → T → Prop) f n : ∀ i s,
  P i s → (∀ j s, i ≤ j < i + n → P j s → ∃ s', f j s = Some s' ∧ P (j + 1) s') →
  ∃ s', for_up n i f s = Some s' ∧ P (i + n) s'.
Proof.
  induction n as [|n IH]; intros i s HP Hf; cbn [for_up]; [exists s; by rewrite Nat.add_0_r|].
  destruct (Hf i s) as (s1&->&H1); [lia|done|]. cbn [mbind option_bind].
  destruct (IH (i + 1) s1) as (s2&->&H2); [done|intros; apply Hf; [lia|done]|].
  exists s2. split; [done|]. by replace (i + S n) with (i + 1 + n) by lia.
Qed.
