(* ===== verification/Context.v ===== *)
(** The backtracking context of the solver: [src/src/context/context.h] and
    [src/src/context/context.cpp], at the level of the pointers the code
    manipulates. *)
From stdpp Require Import base option list gmap fin_maps numbers relations.
From S2P Require Import Prelude.

(** * Data *)

(** Addresses of [ContextObj] objects. *)
Abbreviation loc := positive.

(** A [ContextObj**] points either to the head field of a scope
    ([&scope->d_pContextObjList], the scope being named by its position in
    [d_scopeList]) or to the [next] field of an object. *)
Inductive cell := CHead (level : nat) | CNext (o : loc).

#[global] Instance cell_eq_dec : EqDecision cell.
Proof. solve_decision. Defined.

(** The virtual methods a subclass of [ContextObj] implements on its own
    fields: [save] returns the new state of [this] together with the saved
    copy; [restore this saved] returns the new state of [this], and [None]
    when an assertion of the subclass fails. *)
Class ContextData (T : Type) := {
  save : T → T * T;
  restore : T → T → option T;
}.

Record Scope := mkScope {
  d_level : nat;
  d_pContextObjList : option loc;
  d_garbage : list loc;
}.

(** The fields of the base class, and [payload], the fields of the subclass. *)
Record ContextObj (T : Type) := mkObj {
  d_pScope : option nat;
  d_pContextObjRestore : option loc;
  d_pContextObjNext : option loc;
  d_ppContextObjPrev : option cell;
  payload : T;
}.
Arguments mkObj {T}.
Arguments d_pScope {T}.
Arguments d_pContextObjRestore {T}.
Arguments d_pContextObjNext {T}.
Arguments d_ppContextObjPrev {T}.
Arguments payload {T}.

(** What the pointer surgery reads and writes: the live scopes and the heap of
    context objects. *)
Record Store (T : Type) := mkStore {
  d_scopeList : list Scope;
  heap : gmap loc (ContextObj T);
}.
Arguments mkStore {T}.
Arguments d_scopeList {T}.
Arguments heap {T}.

(** [d_allocations] holds, region by region, what the context memory manager
    has handed out; [notified] logs the calls of [contextNotifyPop] (the
    notified object and the level it observes), most recent first. *)
Record Context (T : Type) := mkContext {
  store : Store T;
  d_allocations : list (list loc);
  nextAddr : loc;
  d_pCNOpre : list nat;
  d_pCNOpost : list nat;
  notified : list (nat * nat);
}.
Arguments mkContext {T}.
Arguments store {T}.
Arguments d_allocations {T}.
Arguments nextAddr {T}.
Arguments d_pCNOpre {T}.
Arguments d_pCNOpost {T}.
Arguments notified {T}.

Section operations.
Context {T : Type} `{!ContextData T}.
Implicit Types (σ : Store T) (c : Context T) (ob : ContextObj T).

(** ** Field writes *)

Definition set_next (v : option loc) ob : ContextObj T :=
  mkObj (d_pScope ob) (d_pContextObjRestore ob) v (d_ppContextObjPrev ob) (payload ob).
Definition set_prev (v : option cell) ob : ContextObj T :=
  mkObj (d_pScope ob) (d_pContextObjRestore ob) (d_pContextObjNext ob) v (payload ob).
Definition set_scope (v : option nat) ob : ContextObj T :=
  mkObj v (d_pContextObjRestore ob) (d_pContextObjNext ob) (d_ppContextObjPrev ob) (payload ob).
Definition set_restore (v : option loc) ob : ContextObj T :=
  mkObj (d_pScope ob) v (d_pContextObjNext ob) (d_ppContextObjPrev ob) (payload ob).
Definition set_payload (v : T) ob : ContextObj T :=
  mkObj (d_pScope ob) (d_pContextObjRestore ob) (d_pContextObjNext ob) (d_ppContextObjPrev ob) v.
Definition set_head (v : option loc) (sc : Scope) : Scope :=
  mkScope (d_level sc) v (d_garbage sc).
Definition add_garbage (o : loc) (sc : Scope) : Scope :=
  mkScope (d_level sc) (d_pContextObjList sc) (d_garbage sc ++ [o]).

(** Writing through a pointer to an object that does not exist is undefined
    behaviour, [None]. *)
Definition wr_obj σ (x : loc) (f : ContextObj T → ContextObj T) : option (Store T) :=
  ob ← heap σ !! x;
  Some (mkStore (d_scopeList σ) (<[x := f ob]> (heap σ))).

Definition wr_scope σ (l : nat) (f : Scope → Scope) : option (Store T) :=
  sc ← d_scopeList σ !! l;
  Some (mkStore (<[l := f sc]> (d_scopeList σ)) (heap σ)).

(** [*p = v] for [p : ContextObj**]. *)
Definition wr_cell σ (p : cell) (v : option loc) : option (Store T) :=
  match p with
  | CHead l => wr_scope σ l (set_head v)
  | CNext x => wr_obj σ x (set_next v)
  end.

(** [if (p != nullptr) p->prev() = v]. *)
Definition wr_prev_opt σ (p : option loc) (v : option cell) : option (Store T) :=
  match p with
  | Some y => wr_obj σ y (set_prev v)
  | None => Some σ
  end.

Definition with_store c σ : Context T :=
  mkContext σ (d_allocations c) (nextAddr c) (d_pCNOpre c) (d_pCNOpost c) (notified c).

(** ** Scope::addToChain *)
Definition addToChain σ (l : nat) (o : loc) : option (Store T) :=
  sc ← d_scopeList σ !! l;
  σ1 ← wr_prev_opt σ (d_pContextObjList sc) (Some (CNext o));
  σ2 ← wr_obj σ1 o (set_next (d_pContextObjList sc));
  σ3 ← wr_obj σ2 o (set_prev (Some (CHead l)));
  wr_cell σ3 (CHead l) (Some o).

(** ** ContextObj::restoreAndContinue *)
Definition restoreAndContinue σ (o : loc) : option (Store T * option loc) :=
  ob ← heap σ !! o;
  match d_pContextObjRestore ob with
  | None =>
      σ1 ← wr_obj σ o (set_scope None);
      Some (σ1, d_pContextObjNext ob)
  | Some x =>
      sv ← heap σ !! x;
      p ← restore (payload ob) (payload sv);
      σ1 ← wr_obj σ o (set_payload p);
      σ2 ← wr_obj σ1 o (set_scope (d_pScope sv));
      σ3 ← wr_obj σ2 o (set_next (d_pContextObjNext sv));
      σ4 ← wr_obj σ3 o (set_prev (d_ppContextObjPrev sv));
      σ5 ← wr_obj σ4 o (set_restore (d_pContextObjRestore sv));
      σ6 ← wr_prev_opt σ5 (d_pContextObjNext sv) (Some (CNext o));
      pc ← d_ppContextObjPrev sv;
      σ7 ← wr_cell σ6 pc (Some o);
      Some (σ7, d_pContextObjNext ob)
  end.

(** ** Scope::~Scope, first loop: restore every object of the list *)
Fixpoint restoreList (fuel : nat) σ (hd : option loc) : option (Store T) :=
  match hd with
  | None => Some σ
  | Some o =>
      match fuel with
      | O => None
      | S fuel =>
          r ← restoreAndContinue σ o;
          restoreList fuel r.1 r.2
      end
  end.

(** ** ContextObj::destroy *)
Fixpoint destroyLoop (fuel : nat) σ (o : loc) : option (Store T) :=
  match fuel with
  | O => None
  | S fuel =>
      ob ← heap σ !! o;
      σ1 ← wr_prev_opt σ (d_pContextObjNext ob) (d_ppContextObjPrev ob);
      pc ← d_ppContextObjPrev ob;
      σ2 ← wr_cell σ1 pc (d_pContextObjNext ob);
      match d_pContextObjRestore ob with
      | None => Some σ2
      | Some _ =>
          r ← restoreAndContinue σ2 o;
          destroyLoop fuel r.1 o
      end
  end.

Definition destroy σ (o : loc) : option (Store T) :=
  ob ← heap σ !! o;
  _ ← d_pScope ob;
  destroyLoop (S (size (heap σ))) σ o.

(** ** ContextObj::deleteSelf: the destructor calls [destroy], then the memory
    is released. *)
Definition deleteSelf σ (o : loc) : option (Store T) :=
  σ1 ← destroy σ o;
  Some (mkStore (d_scopeList σ1) (delete o (heap σ1))).

(** Scope::~Scope, second loop *)
Fixpoint collectGarbage σ (os : list loc) : option (Store T) :=
  match os with
  | [] => Some σ
  | o :: os => σ1 ← deleteSelf σ o; collectGarbage σ1 os
  end.

(** ** ContextMemoryManager, seen by its clients: regions of allocations *)
Definition cmm_push c : Context T :=
  mkContext (store c) (d_allocations c ++ [[]]) (nextAddr c)
    (d_pCNOpre c) (d_pCNOpost c) (notified c).

Definition cmm_newData c (ob : ContextObj T) : option (loc * Context T) :=
  back ← last (d_allocations c);
  let x := nextAddr c in
  Some (x, mkContext (mkStore (d_scopeList (store c)) (<[x := ob]> (heap (store c))))
             (<[pred (length (d_allocations c)) := back ++ [x]]> (d_allocations c))
             (Pos.succ x) (d_pCNOpre c) (d_pCNOpost c) (notified c)).

Definition free_all (h : gmap loc (ContextObj T)) (xs : list loc) : gmap loc (ContextObj T) :=
  foldr delete h xs.

Definition cmm_pop c : option (Context T) :=
  back ← last (d_allocations c);
  Some (mkContext (mkStore (d_scopeList (store c)) (free_all (heap (store c)) back))
          (removelast (d_allocations c)) (nextAddr c)
          (d_pCNOpre c) (d_pCNOpost c) (notified c)).

(** ** Context *)
Definition newContext : Context T :=
  mkContext (mkStore [mkScope 0 None []] ∅) [[]] 1%positive [] [] [].

Definition getLevel c : nat := pred (length (d_scopeList (store c))).

Definition push c : Context T :=
  let c1 := cmm_push c in
  with_store c1
    (mkStore (d_scopeList (store c1) ++ [mkScope (getLevel c1 + 1) None []])
             (heap (store c1))).

(** [contextNotifyPop] of each object of a notification list. *)
Definition notifyAll c (os : list nat) : Context T :=
  mkContext (store c) (d_allocations c) (nextAddr c) (d_pCNOpre c) (d_pCNOpost c)
    (rev (map (λ n, (n, getLevel c)) os) ++ notified c).

Definition pop c : option (Context T) :=
  _ ← assert (bool_decide (0 < getLevel c));
  let c1 := notifyAll c (d_pCNOpre c) in
  pScope ← last (d_scopeList (store c1));
  let σ1 := mkStore (removelast (d_scopeList (store c1))) (heap (store c1)) in
  σ2 ← restoreList (S (size (heap σ1))) σ1 (d_pContextObjList pScope);
  σ3 ← collectGarbage σ2 (d_garbage pScope);
  c2 ← cmm_pop (with_store c1 σ3);
  Some (notifyAll c2 (d_pCNOpost c2)).

Fixpoint popto_loop (fuel : nat) c (toLevel : nat) : option (Context T) :=
  if decide (toLevel < getLevel c) then
    match fuel with
    | O => None
    | S fuel => c1 ← pop c; popto_loop fuel c1 toLevel
    end
  else Some c.

Definition popto c (toLevel : nat) : option (Context T) :=
  popto_loop (length (d_scopeList (store c))) c toLevel.

Definition addNotifyObjPre c (n : nat) : Context T :=
  mkContext (store c) (d_allocations c) (nextAddr c) (n :: d_pCNOpre c) (d_pCNOpost c) (notified c).
Definition addNotifyObjPost c (n : nat) : Context T :=
  mkContext (store c) (d_allocations c) (nextAddr c) (d_pCNOpre c) (n :: d_pCNOpost c) (notified c).

(** ** ContextObj::ContextObj(Context* ), the object being allocated on the
    C++ heap with subclass fields [t] *)
Definition newContextObj c (t : T) : option (loc * Context T) :=
  let o := nextAddr c in
  let σ1 := mkStore (d_scopeList (store c))
              (<[o := mkObj (Some 0) None None None t]> (heap (store c))) in
  σ2 ← addToChain σ1 0 o;
  Some (o, mkContext σ2 (d_allocations c) (Pos.succ o) (d_pCNOpre c) (d_pCNOpost c) (notified c)).

(** ** ContextObj::update *)
Definition update c (o : loc) : option (Context T) :=
  ob ← heap (store c) !! o;
  _ ← d_pScope ob;
  let '(this, saved) := save (payload ob) in
  '(x, c1) ← cmm_newData c (set_payload saved ob);
  σ1 ← wr_obj (store c1) o (set_payload this);
  σ2 ← wr_prev_opt σ1 (d_pContextObjNext ob) (Some (CNext x));
  pc ← d_ppContextObjPrev ob;
  σ3 ← wr_cell σ2 pc (Some x);
  let top := pred (length (d_scopeList σ3)) in
  σ4 ← wr_obj σ3 o (set_scope (Some top));
  σ5 ← wr_obj σ4 o (set_restore (Some x));
  σ6 ← addToChain σ5 top o;
  Some (with_store c1 σ6).

(** ** ContextObj::makeCurrent *)
Definition makeCurrent c (o : loc) : option (Context T) :=
  ob ← heap (store c) !! o;
  l ← d_pScope ob;
  if decide (l = getLevel c) then Some c else update c o.

(** The shape of every mutator of a subclass: [makeCurrent()] and then a change
    [f] of the subclass fields. *)
Definition modify c (o : loc) (f : T → option T) : option (Context T) :=
  c1 ← makeCurrent c o;
  ob ← heap (store c1) !! o;
  t ← f (payload ob);
  σ1 ← wr_obj (store c1) o (set_payload t);
  Some (with_store c1 σ1).

(** ** ContextObj::enqueueToGarbageCollect *)
Definition enqueueToGarbageCollect c (o : loc) : option (Context T) :=
  ob ← heap (store c) !! o;
  l ← d_pScope ob;
  σ1 ← wr_scope (store c) l (add_garbage o);
  Some (with_store c σ1).

Definition deleteObj c (o : loc) : option (Context T) :=
  σ1 ← deleteSelf (store c) o;
  Some (with_store c σ1).

(** What a client reads from an object. *)
Definition getObj c (o : loc) : option T := payload <$> heap (store c) !! o.

End operations.
