(* ===== verification/ContextLinks.v ===== *)
(** The doubly-linked lists threaded through the context objects: views of the
    store, the list predicate [dll], and the effect of the four pieces of
    pointer surgery of [context.cpp] on it (insertion at the front, replacement
    of a node by its copy, removal of a node, reading the list forward). *)
From stdpp Require Import base option list gmap fin_maps numbers relations.
From S2P Require Import Prelude Context.

Section views.
Context {T : Type}.
Implicit Types (σ : Store T) (ob : ContextObj T) (p q : cell) (x y z : loc) (L : list loc).

(** The value stored in a cell, the [prev] field of an object, and the fields
    that record its history; [None] when there is no such object or scope. *)
Definition cellv σ p : option (option loc) :=
  match p with
  | CHead l => d_pContextObjList <$> d_scopeList σ !! l
  | CNext x => d_pContextObjNext <$> heap σ !! x
  end.
Definition prevv σ x : option (option cell) := d_ppContextObjPrev <$> heap σ !! x.
Definition hist σ x : option (option nat * option loc * T) :=
  (λ ob, (d_pScope ob, d_pContextObjRestore ob, payload ob)) <$> heap σ !! x.
(** Levels and garbage lists of the live scopes. *)
Definition meta σ : list (nat * list loc) :=
  (λ sc, (d_level sc, d_garbage sc)) <$> d_scopeList σ.

(** [links σ σ'] says how the link fields change: the cells and the [prev]
    fields given by the two partial maps are overwritten, everything else is
    kept. *)
Record wrote σ σ' (cs : cell → option (option loc)) (ps : loc → option (option cell)) := {
  wrote_cell p : cellv σ' p = match cs p with
                              | Some v => const v <$> cellv σ p
                              | None => cellv σ p end;
  wrote_prev x : prevv σ' x = match ps x with
                              | Some v => const v <$> prevv σ x
                              | None => prevv σ x end;
  wrote_hist x : hist σ' x = hist σ x;
  wrote_meta : meta σ' = meta σ;
}.

Lemma cellv_next_Some σ x : is_Some (cellv σ (CNext x)) ↔ is_Some (heap σ !! x).
Proof. simpl. by rewrite fmap_is_Some. Qed.
Lemma prevv_Some σ x : is_Some (prevv σ x) ↔ is_Some (heap σ !! x).
Proof. unfold prevv. by rewrite fmap_is_Some. Qed.
Lemma hist_Some σ x : is_Some (hist σ x) ↔ is_Some (heap σ !! x).
Proof. unfold hist. by rewrite fmap_is_Some. Qed.
Lemma length_meta σ : length (meta σ) = length (d_scopeList σ).
Proof. apply length_fmap. Qed.

Lemma wrote_refl σ : wrote σ σ (λ _, None) (λ _, None).
Proof. by split. Qed.

Lemma wrote_trans σ1 σ2 σ3 cs1 ps1 cs2 ps2 :
  wrote σ1 σ2 cs1 ps1 → wrote σ2 σ3 cs2 ps2 →
  wrote σ1 σ3 (λ p, match cs2 p with Some v => Some v | None => cs1 p end)
              (λ x, match ps2 x with Some v => Some v | None => ps1 x end).
Proof.
  intros [C1 P1 H1 M1] [C2 P2 H2 M2]. split.
  - intros p. rewrite C2, C1. destruct (cs2 p), (cs1 p), (cellv σ1 p); done.
  - intros x. rewrite P2, P1. destruct (ps2 x), (ps1 x), (prevv σ1 x); done.
  - intros x. by rewrite H2.
  - by rewrite M2.
Qed.

Definition one_cell p (v : option loc) : cell → option (option loc) :=
  λ q, if decide (q = p) then Some v else None.
Definition one_prev x (v : option cell) : loc → option (option cell) :=
  λ y, if decide (y = x) then Some v else None.

(** Field writes succeed exactly on what exists. *)
Lemma wr_cell_spec σ p v :
  is_Some (cellv σ p) → ∃ σ', wr_cell σ p v = Some σ' ∧
    wrote σ σ' (one_cell p v) (λ _, None).
Proof.
  destruct p as [l|x]; cbn [cellv wr_cell]; rewrite fmap_is_Some; intros [a Ha];
    unfold wr_scope, wr_obj; rewrite Ha; cbn -[decide]; eexists; (split; [done|]); split;
    unfold one_cell.
  - intros q. destruct (decide (q = CHead l)) as [->|Hne]; cbn -[decide].
    + rewrite list_lookup_insert_eq by eauto using lookup_lt_Some. by rewrite Ha.
    + destruct q; [|done]. cbn. rewrite list_lookup_insert_ne; congruence.
  - done.
  - done.
  - unfold meta; simpl. apply list_eq; intros i. rewrite !list_lookup_fmap.
    destruct (decide (i = l)) as [->|]; [|by rewrite list_lookup_insert_ne].
    rewrite list_lookup_insert_eq by eauto using lookup_lt_Some. by rewrite Ha.
  - intros q. destruct (decide (q = CNext x)) as [->|Hne]; cbn -[decide].
    + by rewrite lookup_insert_eq, Ha.
    + destruct q; [done|]. cbn. rewrite lookup_insert_ne; congruence.
  - intros y. unfold prevv; simpl. destruct (decide (y = x)) as [->|].
    + by rewrite lookup_insert_eq, Ha.
    + by rewrite lookup_insert_ne.
  - intros y. unfold hist; simpl. destruct (decide (y = x)) as [->|].
    + by rewrite lookup_insert_eq, Ha.
    + by rewrite lookup_insert_ne.
  - done.
Qed.

Lemma wr_prev_spec σ x v :
  is_Some (heap σ !! x) → ∃ σ', wr_obj σ x (set_prev v) = Some σ' ∧
    wrote σ σ' (λ _, None) (one_prev x v).
Proof.
  intros [a Ha]. unfold wr_obj; rewrite Ha; simpl; eexists; (split; [done|]); split;
    unfold one_prev.
  - intros [l|y]; simpl; [done|]. destruct (decide (y = x)) as [->|].
    + by rewrite lookup_insert_eq, Ha.
    + by rewrite lookup_insert_ne.
  - intros y. unfold prevv; simpl. destruct (decide (y = x)) as [->|].
    + by rewrite lookup_insert_eq, Ha.
    + by rewrite lookup_insert_ne.
  - intros y. unfold hist; simpl. destruct (decide (y = x)) as [->|].
    + by rewrite lookup_insert_eq, Ha.
    + by rewrite lookup_insert_ne.
  - done.
Qed.

Definition opt_prev (n : option loc) (v : option cell) : loc → option (option cell) :=
  match n with Some y => one_prev y v | None => λ _, None end.

Lemma wr_prev_opt_spec σ n v :
  (∀ y, n = Some y → is_Some (heap σ !! y)) → ∃ σ', wr_prev_opt σ n v = Some σ' ∧
    wrote σ σ' (λ _, None) (opt_prev n v).
Proof.
  destruct n as [y|]; simpl; intros H; [by apply wr_prev_spec, H|].
  eexists; split; [done|]. apply wrote_refl.
Qed.

Global Arguments cellv : simpl never.

(** A change of an object's history fields leaves every link in place. *)
Record rehist σ σ' x (v : option nat * option loc * T) := {
  rehist_cell p : cellv σ' p = cellv σ p;
  rehist_prev y : prevv σ' y = prevv σ y;
  rehist_hist y : hist σ' y = if decide (y = x) then Some v else hist σ y;
  rehist_meta : meta σ' = meta σ;
}.

(** * The list predicate *)

Fixpoint dll σ p L : Prop :=
  match L with
  | [] => cellv σ p = Some None
  | x :: L => cellv σ p = Some (Some x) ∧ prevv σ x = Some (Some p) ∧ dll σ (CNext x) L
  end.

(** A segment: like [dll], but what follows the last node is not described. *)
Fixpoint dseg σ p L : Prop :=
  match L with
  | [] => True
  | x :: L => cellv σ p = Some (Some x) ∧ prevv σ x = Some (Some p) ∧ dseg σ (CNext x) L
  end.

Definition lastc p L : cell := default p (CNext <$> last L).

Lemma lastc_cons p x L : lastc p (x :: L) = lastc (CNext x) L.
Proof. unfold lastc. rewrite last_cons. by destruct (last L). Qed.

Lemma dll_app σ p L1 L2 : dll σ p (L1 ++ L2) ↔ dseg σ p L1 ∧ dll σ (lastc p L1) L2.
Proof.
  revert p. induction L1 as [|x L1 IH]; intros p; simpl; [naive_solver|].
  rewrite IH, lastc_cons. naive_solver.
Qed.

(** The cells a segment or list starting at [p] owns. *)
Definition owned p L q : Prop := q = p ∨ ∃ x, x ∈ L ∧ q = CNext x.

Lemma owned_cons p x L q : owned p (x :: L) q ↔ q = p ∨ owned (CNext x) L q.
Proof. unfold owned. set_solver. Qed.

Lemma dll_frame σ σ' p L :
  (∀ q, owned p L q → cellv σ' q = cellv σ q) →
  (∀ x, x ∈ L → prevv σ' x = prevv σ x) →
  dll σ p L → dll σ' p L.
Proof.
  revert p. induction L as [|x L IH]; intros p HC HP; simpl.
  - rewrite HC; [done|by left].
  - rewrite HC by (by left). rewrite HP by set_solver.
    intros (?&?&?); split_and!; [done..|]. apply IH; [|set_solver|done].
    intros q Hq. apply HC. rewrite owned_cons. auto.
Qed.

(** A segment does not read the cell that follows its last node. *)
Lemma dseg_frame σ σ' p L :
  NoDup L → (∀ x, x ∈ L → p ≠ CNext x) →
  (∀ q, owned p L q → q ≠ lastc p L → cellv σ' q = cellv σ q) →
  (∀ x, x ∈ L → prevv σ' x = prevv σ x) →
  dseg σ p L → dseg σ' p L.
Proof.
  revert p. induction L as [|x L IH]; intros p HN Hp HC HP; simpl; [done|].
  apply NoDup_cons in HN as [Hx HN].
  intros (?&?&?). rewrite HC, HP; [|set_solver|by left|].
  - split_and!; [done..|]. apply IH; [done|set_solver| |set_solver|done].
    intros q Hq Hl. apply HC; [rewrite owned_cons; auto|by rewrite lastc_cons].
  - rewrite lastc_cons. unfold lastc. destruct (last L) as [y|] eqn:E; simpl.
    + apply last_Some_elem_of in E. apply Hp. set_solver.
    + apply Hp. set_solver.
Qed.

Lemma lastc_in p L : lastc p L = p ∨ ∃ x, x ∈ L ∧ lastc p L = CNext x.
Proof.
  unfold lastc. destruct (last L) as [y|] eqn:E; simpl; [right|by left].
  eauto using last_Some_elem_of.
Qed.

Lemma dll_prev_at σ p L1 x L2 :
  dll σ p (L1 ++ x :: L2) → prevv σ x = Some (Some (lastc p L1)).
Proof. rewrite dll_app. simpl. naive_solver. Qed.

Lemma dll_next_at σ p L1 x L2 :
  dll σ p (L1 ++ x :: L2) → cellv σ (CNext x) = Some (head L2).
Proof. rewrite dll_app. simpl. destruct L2; simpl; naive_solver. Qed.

Lemma dll_cell σ p L : dll σ p L → cellv σ p = Some (head L).
Proof. destruct L; simpl; naive_solver. Qed.

Lemma dll_lookup σ p L x : dll σ p L → x ∈ L → is_Some (heap σ !! x).
Proof.
  revert p. induction L as [|y L IH]; intros p; simpl; [set_solver|].
  intros (?&Hp&?) [->|?]%elem_of_cons; [|eauto].
  rewrite <- prevv_Some. rewrite Hp. eauto.
Qed.

(** ** Replacing a node [x] by [y], which carries the same links *)
Lemma dll_replace σ σ' p L1 x y L2 :
  dll σ p (L1 ++ x :: L2) →
  NoDup (L1 ++ x :: L2) → y ∉ L1 ++ L2 → (∀ z, z ∈ y :: L1 ++ L2 → p ≠ CNext z) →
  cellv σ (CNext y) = Some (head L2) → prevv σ y = Some (Some (lastc p L1)) →
  wrote σ σ' (one_cell (lastc p L1) (Some y)) (opt_prev (head L2) (Some (CNext y))) →
  dll σ' p (L1 ++ y :: L2).
Proof.
  rewrite !dll_app. simpl. intros (Hs&Hc&Hx&Hd) HN Hy Hp Hcy Hpy [WC WP _ _].
  apply NoDup_app in HN as (HN1&Hdisj&[Hx2 HN2]%NoDup_cons).
  assert (Hlast : ∀ z, z ∈ y :: L2 → lastc p L1 ≠ CNext z).
  { intros z Hz Heq. destruct (lastc_in p L1) as [E|(w&Hw&E)].
    - apply (Hp z); [set_solver|congruence].
    - rewrite E in Heq. simplify_eq. set_solver. }
  assert (Hh : ∀ z, z ∉ L2 → opt_prev (head L2) (Some (CNext y)) z = None).
  { intros z Hz. destruct L2; simpl; [done|]. unfold one_prev.
    rewrite decide_False; set_solver. }
  split_and!.
  - eapply dseg_frame; [done| | | |exact Hs].
    + intros z ?. apply Hp. set_solver.
    + intros q _ Hq. rewrite WC. unfold one_cell. by rewrite decide_False.
    + intros z Hz. rewrite WP, Hh; [done|set_solver].
  - rewrite WC. unfold one_cell. rewrite decide_True by done. by rewrite Hc.
  - rewrite WP, Hh by set_solver. done.
  - destruct L2 as [|v L2]; simpl in *.
    { rewrite WC. unfold one_cell. rewrite decide_False; [done|].
      apply not_eq_sym, Hlast. set_solver. }
    destruct Hd as (Hxv&Hpv&Hd). apply NoDup_cons in HN2 as [Hv HN2]. split_and!.
    + rewrite WC. unfold one_cell. rewrite decide_False; [done|].
      apply not_eq_sym, Hlast. set_solver.
    + rewrite WP. unfold one_prev. rewrite decide_True by done. by rewrite Hpv.
    + eapply dll_frame; [| |exact Hd].
      * intros q [->|(w&Hw&->)]; rewrite WC; unfold one_cell; (rewrite decide_False; [done|]);
          apply not_eq_sym, Hlast; set_solver.
      * intros w Hw. rewrite WP. unfold one_prev. rewrite decide_False; set_solver.
Qed.

(** ** Unlinking a node *)
Lemma dll_remove σ σ' p L1 x L2 :
  dll σ p (L1 ++ x :: L2) →
  NoDup (L1 ++ x :: L2) → (∀ z, z ∈ L1 ++ x :: L2 → p ≠ CNext z) →
  wrote σ σ' (one_cell (lastc p L1) (head L2)) (opt_prev (head L2) (Some (lastc p L1))) →
  dll σ' p (L1 ++ L2).
Proof.
  rewrite !dll_app. simpl. intros (Hs&Hc&Hx&Hd) HN Hp [WC WP _ _].
  apply NoDup_app in HN as (HN1&Hdisj&[Hx2 HN2]%NoDup_cons).
  assert (Hlast : ∀ z, z ∈ L2 → lastc p L1 ≠ CNext z).
  { intros z Hz Heq. destruct (lastc_in p L1) as [E|(w&Hw&E)].
    - apply (Hp z); [set_solver|congruence].
    - rewrite E in Heq. simplify_eq. set_solver. }
  split.
  - eapply dseg_frame; [done| | | |exact Hs].
    + intros z ?. apply Hp. set_solver.
    + intros q _ Hq. rewrite WC. unfold one_cell. by rewrite decide_False.
    + intros z Hz. rewrite WP. destruct L2; simpl; [done|].
      unfold one_prev. rewrite decide_False; set_solver.
  - destruct L2 as [|v L2]; simpl in *.
    { rewrite WC. unfold one_cell. rewrite decide_True by done. by rewrite Hc. }
    destruct Hd as (Hxv&Hpv&Hd). apply NoDup_cons in HN2 as [Hv HN2]. split_and!.
    + rewrite WC. unfold one_cell. rewrite decide_True by done. by rewrite Hc.
    + rewrite WP. unfold one_prev. rewrite decide_True by done. by rewrite Hpv.
    + eapply dll_frame; [| |exact Hd].
      * intros q [->|(w&Hw&->)]; rewrite WC; unfold one_cell; (rewrite decide_False; [done|]);
          apply not_eq_sym, Hlast; set_solver.
      * intros w Hw. rewrite WP. unfold one_prev. rewrite decide_False; set_solver.
Qed.

(** ** Insertion at the front *)
Lemma dll_push σ σ' p L x :
  dll σ p L → x ∉ L → NoDup L → (∀ z, z ∈ x :: L → p ≠ CNext z) →
  is_Some (heap σ !! x) →
  (∀ q, owned p L q → q ≠ p → cellv σ' q = cellv σ q) →
  cellv σ' p = Some (Some x) → cellv σ' (CNext x) = Some (head L) →
  prevv σ' x = Some (Some p) →
  (∀ z, z ∈ L → prevv σ' z = match opt_prev (head L) (Some (CNext x)) z with
                             | Some v => Some v | None => prevv σ z end) →
  dll σ' p (x :: L).
Proof.
  intros Hd Hx HN Hp Hsome HC Hcp Hcx Hpx HP. simpl. split_and!; [done..|].
  destruct L as [|v L]; simpl in *; [done|].
  destruct Hd as (Hc&Hpv&Hd). apply NoDup_cons in HN as [Hv HN]. split_and!; [done| |].
  - rewrite HP by set_solver. unfold one_prev. by rewrite decide_True.
  - eapply dll_frame; [| |exact Hd].
    + intros q [->|(w&Hw&->)]; apply HC; try (by right; eexists; split; [|done]; set_solver);
        apply not_eq_sym, Hp; set_solver.
    + intros w Hw. rewrite HP by set_solver. unfold one_prev. rewrite decide_False; set_solver.
Qed.

(** A list is untouched by writes to cells and [prev] fields it does not own. *)
Lemma dll_wrote σ σ' cs ps p L :
  wrote σ σ' cs ps → (∀ q, owned p L q → cs q = None) → (∀ x, x ∈ L → ps x = None) →
  dll σ p L → dll σ' p L.
Proof.
  intros [WC WP _ _] Hcs Hps. apply dll_frame.
  - intros q Hq. by rewrite WC, Hcs.
  - intros x Hx. by rewrite WP, Hps.
Qed.

Lemma dll_rehist σ σ' x v p L : rehist σ σ' x v → dll σ p L → dll σ' p L.
Proof. intros [HC HP _ _]. apply dll_frame; auto. Qed.

End views.
