(* ===== verification/ContextInv.v ===== *)
(** The invariant of a context, and the contract it offers to its clients. *)
From stdpp Require Import base option list gmap fin_maps numbers relations sorting.
From S2P Require Import Prelude Context ContextLinks.

(** What a subclass of [ContextObj] promises: between a [save] and the matching
    [restore] its fields only evolve along [mods], and then [restore] brings
    back exactly the fields that were saved. *)
Class ContextLaws (T : Type) `{!ContextData T} := {
  mods : T → T → Prop;
  wf : T → Prop;
  wf_save t : wf t → wf (save t).1;
  wf_mods t t' : wf t → mods t t' → wf t';
  restore_save t t' : wf t → rtc mods (save t).1 t' → restore t' (save t).2 = Some t;
}.

(** * The abstract context: a stack of snapshots *)

(** [snap] maps every live object to its fields as of this level, [cur] holds
    the objects already saved at this level, [garb] those to delete when the
    level is popped. *)
Record Level (T : Type) := mkLevel {
  snap : gmap loc T;
  cur : gset loc;
  garb : list loc;
}.
Arguments mkLevel {T}.
Arguments snap {T}.
Arguments cur {T}.
Arguments garb {T}.

Section abstract.
Context {T : Type} `{!ContextData T}.
Implicit Types (A : list (Level T)) (lv : Level T).

(** The head of the list is the current level. *)
Definition a_new : list (Level T) := [mkLevel ∅ ∅ []].

Definition a_level A : nat := pred (length A).

Definition a_push A : list (Level T) :=
  match A with
  | [] => []
  | lv :: _ => mkLevel (snap lv) ∅ [] :: A
  end.

Definition a_create (o : loc) (t : T) A : list (Level T) :=
  (λ lv, mkLevel (<[o := t]> (snap lv)) (cur lv) (garb lv)) <$> A.

Definition a_delete (o : loc) A : list (Level T) :=
  (λ lv, mkLevel (delete o (snap lv)) (cur lv ∖ {[o]}) (garb lv)) <$> A.

Definition a_makeCurrent (o : loc) A : list (Level T) :=
  match A with
  | lv :: (_ :: _) =>
      if decide (o ∈ cur lv) then A
      else match snap lv !! o with
           | Some t => mkLevel (<[o := (save t).1]> (snap lv)) ({[o]} ∪ cur lv) (garb lv) :: tail A
           | None => A
           end
  | _ => A
  end.

Definition a_set (o : loc) (t : T) A : list (Level T) :=
  match A with
  | lv :: A' => mkLevel (<[o := t]> (snap lv)) (cur lv) (garb lv) :: A'
  | [] => []
  end.

(** Garbage waits at the level of the current version of the object. *)
Fixpoint a_enqueue (o : loc) A : list (Level T) :=
  match A with
  | [] => []
  | lv :: A' =>
      match A' with
      | [] => [mkLevel (snap lv) (cur lv) (garb lv ++ [o])]
      | _ :: _ =>
          if decide (o ∈ cur lv) then mkLevel (snap lv) (cur lv) (garb lv ++ [o]) :: A'
          else lv :: a_enqueue o A'
      end
  end.

Definition a_get (o : loc) A : option T := head A ≫= λ lv, snap lv !! o.

Definition a_pop A : list (Level T) :=
  match A with
  | lv :: A' => foldl (λ A o, a_delete o A) A' (garb lv)
  | [] => []
  end.

(** One object goes back to its fields in the level below the one where it was
    last saved. *)
Fixpoint undo (o : loc) A : list (Level T) :=
  match A with
  | [] => []
  | lv :: A' =>
      match A' with
      | [] => [lv]
      | lv' :: _ =>
          if decide (o ∈ cur lv) then
            mkLevel (partial_alter (λ _, snap lv' !! o) o (snap lv)) (cur lv ∖ {[o]}) (garb lv) :: A'
          else
            let A'' := undo o A' in
            mkLevel (partial_alter (λ _, a_get o A'') o (snap lv)) (cur lv) (garb lv) :: A''
      end
  end.

Lemma undo_cons o lv lv' A :
  undo o (lv :: lv' :: A) =
  if decide (o ∈ cur lv) then
    mkLevel (partial_alter (λ _, snap lv' !! o) o (snap lv)) (cur lv ∖ {[o]}) (garb lv) :: lv' :: A
  else
    mkLevel (partial_alter (λ _, a_get o (undo o (lv' :: A))) o (snap lv)) (cur lv) (garb lv)
    :: undo o (lv' :: A).
Proof. done. Qed.

Lemma length_undo o A : length (undo o A) = length A.
Proof.
  induction A as [|lv A IH]; [done|]. destruct A as [|lv' A]; [done|].
  rewrite undo_cons. case_decide; [done|]. simpl in *. by rewrite IH.
Qed.

Lemma a_delete_undo o A : a_delete o (undo o A) = a_delete o A.
Proof.
  induction A as [|lv A IH]; [done|]. destruct A as [|lv' A]; [done|].
  rewrite undo_cons. case_decide; cbn -[undo].
  - f_equal. f_equal; [|set_solver].
    apply map_eq; intros i. destruct (decide (i = o)) as [->|];
      [by rewrite !lookup_delete_eq|by rewrite !lookup_delete_ne, lookup_partial_alter_ne].
  - f_equal; [|exact IH]. f_equal.
    apply map_eq; intros i. destruct (decide (i = o)) as [->|];
      [by rewrite !lookup_delete_eq|by rewrite !lookup_delete_ne, lookup_partial_alter_ne].
Qed.

(** Two stacks that agree on one object. *)
Definition same_at (o : loc) lv lv' : Prop :=
  snap lv' !! o = snap lv !! o ∧ (o ∈ cur lv' ↔ o ∈ cur lv).

Lemma same_at_refl o A : Forall2 (same_at o) A A.
Proof. induction A; constructor; done. Qed.

Lemma undo_same_at o o' A : o ≠ o' → Forall2 (same_at o') A (undo o A).
Proof.
  intros Hne. induction A as [|lv A IH]; [constructor|]. destruct A as [|lv' A].
  { constructor; [done|constructor]. }
  rewrite undo_cons. case_decide; constructor.
  - split; simpl; [by rewrite lookup_partial_alter_ne|set_solver].
  - apply same_at_refl.
  - split; simpl; [by rewrite lookup_partial_alter_ne|done].
  - exact IH.
Qed.

Lemma garb_undo o A : garb <$> undo o A = garb <$> A.
Proof.
  induction A as [|lv A IH]; [done|]. destruct A as [|lv' A]; [done|].
  rewrite undo_cons. case_decide; [done|]. rewrite !fmap_cons, IH. done.
Qed.

Lemma same_at_in o A A' lv' :
  Forall2 (same_at o) A A' → lv' ∈ A' → ∃ lv, lv ∈ A ∧ same_at o lv lv'.
Proof.
  induction 1; [set_solver|]. intros [->|?]%elem_of_cons; [set_solver|].
  destruct IHForall2 as (?&?&?); [done|]. set_solver.
Qed.

End abstract.

Section invariant.
Context {T : Type} `{!ContextData T, !ContextLaws T}.
Implicit Types (σ : Store T) (A : list (Level T)) (lv : Level T) (x y o s : loc)
  (regs : list (list loc)) (ch : list (loc * nat))
  (hs : loc → option (option nat * option loc * T)).

(** * Versions *)

(** [ver hs regs o A x t p ch]: address [x] holds the version of object [o] as
    of the stack [A]; its abstract value is [t], the stored fields are [p], and
    [ch] lists the addresses and levels of this version and of the older ones
    reachable through the restore pointers. *)
Inductive ver hs regs o : list (Level T) → loc → T → T → list (loc * nat) → Prop :=
| ver_bottom lv x t p :
    snap lv !! o = Some t → wf t → hs x = Some (Some 0, None, p) →
    ver hs regs o [lv] x t p [(x, 0)]
| ver_saved lv A x t p s t' R ch :
    o ∈ cur lv → snap lv !! o = Some t → wf t →
    hs x = Some (Some (length A), Some s, p) →
    regs !! length A = Some R → s ∈ R →
    ver hs regs o A s t' (save t').2 ch → rtc mods (save t').1 t →
    ver hs regs o (lv :: A) x t p ((x, length A) :: ch)
| ver_same lv A x t p ch :
    o ∉ cur lv → snap lv !! o = Some t →
    ver hs regs o A x t p ch →
    ver hs regs o (lv :: A) x t p ch.

Lemma ver_pos hs regs o A x t p ch : ver hs regs o A x t p ch → 0 < length A.
Proof. destruct 1; simpl; lia. Qed.

Lemma ver_get hs regs o A x t p ch : ver hs regs o A x t p ch → a_get o A = Some t.
Proof. unfold a_get. by destruct 1. Qed.

Lemma ver_wf hs regs o A x t p ch : ver hs regs o A x t p ch → wf t.
Proof. by induction 1. Qed.

Lemma ver_head hs regs o A x t p ch :
  ver hs regs o A x t p ch → ∃ l r ch', ch = (x, l) :: ch' ∧ l < length A ∧ hs x = Some (Some l, r, p) ∧
    (∀ y l', (y, l') ∈ ch' → l' < l) ∧ r = fst <$> head ch'.
Proof.
  induction 1 as [lv x t p Hsn Hw Hh
    |lv A x t p s t' R ch Hc Hsn Hw Hh Hi Hs Hv IH Hr
    |lv A x t p ch Hc Hsn Hv IH].
  - eexists _, _, _; split_and!; [done|simpl; lia|done|set_solver|done].
  - destruct IH as (l&r&ch'&->&Hl&?&Hlt&?). eexists _, _, _; split_and!; [done|simpl; lia|done| |done].
    intros y l' [?|Hin]%elem_of_cons; [by simplify_eq|]. apply Hlt in Hin. lia.
  - destruct IH as (l&r&ch'&->&Hl&?&Hlt&?). eexists _, _, _; split_and!; [done|simpl; lia|done..].
Qed.

(** Levels strictly decrease along the chain of versions. *)
Lemma ver_sorted hs regs o A x t p ch :
  ver hs regs o A x t p ch → StronglySorted (λ a b, b.2 < a.2) ch.
Proof.
  induction 1 as [lv x t p Hsn Hw Hh
    |lv A x t p s t' R ch Hc Hsn Hw Hh Hi Hs Hv IH Hr
    |lv A x t p ch Hc Hsn Hv IH]; [by repeat constructor| |done].
  constructor; [done|]. apply Forall_forall. intros [y l] Hin. simpl.
  apply ver_head in Hv as (l'&?&ch'&->&?&_&Hlt&_).
  apply elem_of_cons in Hin as [?|Hin]; [by simplify_eq|]. apply Hlt in Hin. lia.
Qed.

Lemma ver_elem hs regs o A x t p ch y l :
  ver hs regs o A x t p ch → (y, l) ∈ ch → l < length A ∧ ∃ r p', hs y = Some (Some l, r, p').
Proof.
  induction 1 as [lv x t p Hsn Hw Hh
    |lv A x t p s t' R ch Hc Hsn Hw Hh Hi Hs Hv IH Hr
    |lv A x t p ch Hc Hsn Hv IH].
  - intros ?%list_elem_of_singleton. simplify_eq. simpl. split; [lia|eauto].
  - intros [?|Hin]%elem_of_cons; [simplify_eq/=; split; [lia|eauto]|].
    destruct (IH Hin). simpl. split; [lia|eauto].
  - intros Hin. destruct (IH Hin). simpl. split; [lia|eauto].
Qed.

(** Every version but the newest lives in a region of the memory manager. *)
Lemma ver_regs hs regs o A x t p ch y l :
  ver hs regs o A x t p ch → (y, l) ∈ tail ch → ∃ i R, i < length A ∧ regs !! i = Some R ∧ y ∈ R.
Proof.
  induction 1 as [lv x t p Hsn Hw Hh
    |lv A x t p s t' R ch Hc Hsn Hw Hh Hi Hs Hv IH Hr
    |lv A x t p ch Hc Hsn Hv IH]; simpl.
  - set_solver.
  - intros Hin. destruct ch as [|[s' l'] ch]; [set_solver|].
    apply ver_head in Hv as (?&?&?&?&_); simplify_eq.
    apply elem_of_cons in Hin as [?|Hin]; simplify_eq.
    + exists (length A), R. split_and!; [lia|done..].
    + destruct (IH Hin) as (i&R'&?&?&?). exists i, R'. split_and!; [lia|done..].
  - intros Hin. destruct (IH Hin) as (i&R'&?&?&?). exists i, R'. split_and!; [lia|done..].
Qed.

Definition regs_le (n : nat) regs regs' : Prop :=
  ∀ i R, i < n → regs !! i = Some R → ∃ R', regs' !! i = Some R' ∧ ∀ x, x ∈ R → x ∈ R'.

Lemma regs_le_refl n regs : regs_le n regs regs.
Proof. intros i R ??. eauto. Qed.

(** A version depends only on the history fields of its own addresses. *)
Lemma ver_frame hs hs' regs regs' o A A' x t p ch :
  ver hs regs o A x t p ch →
  (∀ y l, (y, l) ∈ ch → hs' y = hs y) →
  regs_le (length A) regs regs' → Forall2 (same_at o) A A' →
  ver hs' regs' o A' x t p ch.
Proof.
  intros Hv. revert A'. induction Hv as [lv x t p Hsn Hw Hh
    |lv A x t p s t' R ch Hc Hsn Hw Hh Hi Hs Hv IH Hr
    |lv A x t p ch Hc Hsn Hv IH];
    intros A' Hhs Hreg HF.
  - apply Forall2_cons_inv_l in HF as (lv'&?&[Hsn' _]&?%Forall2_nil_inv_l&->). subst.
    constructor; [congruence|done|]. rewrite (Hhs x 0) by set_solver. done.
  - pose proof (Forall2_length _ _ _ HF) as Hlen.
    apply Forall2_cons_inv_l in HF as (lv'&A''&[Hsn' Hc']&HF&->). injection Hlen as Hlen.
    destruct (Hreg (length A) R) as (R'&?&?); [simpl; lia|done|].
    rewrite Hlen. eapply ver_saved; [by apply Hc'|congruence|done| | | | |done]; rewrite <- ?Hlen.
    + rewrite (Hhs x (length A)) by set_solver. by rewrite Hh.
    + done.
    + naive_solver.
    + apply IH; [set_solver| |done]. intros i R0 ?. apply Hreg. simpl; lia.
  - apply Forall2_cons_inv_l in HF as (lv'&A''&[Hsn' Hc']&HF&->).
    apply ver_same; [naive_solver|congruence|]. apply IH; [done| |done].
    intros i R0 ?. apply Hreg. simpl; lia.
Qed.

(** The newest version can be moved to another address. *)
Lemma ver_move hs hs' regs o A x t p l ch x' p' sc r :
  ver hs regs o A x t p ((x, l) :: ch) →
  hs x = Some (sc, r, p) → hs' x' = Some (sc, r, p') →
  (∀ y l, (y, l) ∈ ch → hs' y = hs y) →
  ver hs' regs o A x' t p' ((x', l) :: ch).
Proof.
  intros Hv. remember ((x, l) :: ch) as ch0 eqn:E. revert E.
  induction Hv as [lv x t p Hsn Hw Hh
    |lv A x t p s t' R ch' Hc Hsn Hw Hh Hi Hs Hv IH Hr
    |lv A x t p ch' Hc Hsn Hv IH];
    intros E Hx Hx' Hf; simplify_eq.
  - constructor; congruence.
  - apply (ver_saved _ _ _ _ _ _ _ _ s t' R); [done..| |done].
    eapply ver_frame; [done|done|apply regs_le_refl|].
    apply same_at_refl.
  - apply ver_same; [done..|]. by eapply IH.
Qed.

(** Going back one version. *)
Lemma ver_undo hs regs o A x t p l0 s l1 ch :
  ver hs regs o A x t p ((x, l0) :: (s, l1) :: ch) →
  ∃ t' r, hs s = Some (Some l1, r, (save t').2) ∧ wf t' ∧ rtc mods (save t').1 t ∧
    ∀ hs', hs' x = Some (Some l1, r, t') → (∀ y l, (y, l) ∈ ch → hs' y = hs y) →
      ver hs' regs o (undo o A) x t' t' ((x, l1) :: ch).
Proof.
  intros Hv. remember ((x, l0) :: (s, l1) :: ch) as ch0 eqn:E. revert E.
  induction Hv as [| lv A x t p s' t' R ch' Hc Hsn Hw Hh Hi Hs Hv IH Hr |lv A x t p ch' Hc Hsn Hv IH];
    intros E; simplify_eq.
  - pose proof (ver_head _ _ _ _ _ _ _ _ Hv) as (l&r&ch''&?&?&Hh'&_&_). simplify_eq.
    exists t', r. split_and!; [done|by eapply ver_wf|done|]. intros hs' Hx Hf.
    pose proof (ver_get _ _ _ _ _ _ _ _ Hv) as Hg.
    destruct A as [|lv' A]; [by inversion Hv|]. rewrite undo_cons.
    rewrite decide_True by done. simpl in Hg. apply ver_same; simpl.
    + set_solver.
    + by rewrite lookup_partial_alter_eq.
    + by eapply ver_move.
  - destruct (IH eq_refl) as (t'&r&?&?&?&Hnew). exists t', r. split_and!; [done..|].
    intros hs' Hx Hf. specialize (Hnew hs' Hx Hf).
    destruct A as [|lv' A]; [by inversion Hv|]. rewrite undo_cons.
    rewrite decide_False by done. apply ver_same; simpl; [done| |exact Hnew].
    rewrite lookup_partial_alter_eq. by eapply ver_get.
Qed.

End invariant.
