(* ===== verification/ContextRefine.v ===== *)
(** Every operation of a context refines the operation of the same name on the
    stack of snapshots. *)
From stdpp Require Import base option list gmap fin_maps numbers relations sorting.
From S2P Require Import Prelude Context ContextLinks ContextInv.

Section refine.
Context {T : Type} `{!ContextData T, !ContextLaws T}.
Implicit Types (σ : Store T) (A : list (Level T)) (lv : Level T) (x y o s : loc)
  (regs : list (list loc)) (ch : list (loc * nat)) (L : list loc) (ls : list (list loc))
  (chs : gmap loc (list (loc * nat))).

(** [member chs x l]: address [x] holds a version of some object, last modified
    at level [l]. *)
Definition member chs x (l : nat) : Prop := ∃ o ch, chs !! o = Some ch ∧ (x, l) ∈ ch.

(** The invariant. [chs] gives the versions of every live object, [ls] the
    contents of the list of every scope. [ex] is the address of an object that
    has just been unlinked from the list of its scope. *)
Record Inv (ex : option loc) σ regs (nxt : loc) A chs ls : Prop := {
  inv_ls : length ls = length A;
  inv_regs : length regs = length A;
  inv_chain o ch : chs !! o = Some ch → ∃ t, ver (hist σ) regs o A o t t ch;
  inv_dom lv o : lv ∈ A → is_Some (snap lv !! o) → is_Some (chs !! o);
  inv_cur lv o : lv ∈ A → o ∈ cur lv → is_Some (chs !! o);
  inv_uniq o o' ch ch' x l l' :
    chs !! o = Some ch → chs !! o' = Some ch' → (x, l) ∈ ch → (x, l') ∈ ch' → o = o';
  inv_nodup l L : ls !! l = Some L → NoDup L;
  inv_mem l L x : ls !! l = Some L → x ∈ L ↔ ex ≠ Some x ∧ member chs x l;
  inv_dll l L : ls !! l = Some L → l < length (d_scopeList σ) → dll σ (CHead l) L;
  inv_main o ch R : chs !! o = Some ch → R ∈ regs → o ∉ R;
  inv_regs_nodup : NoDup (concat regs);
  inv_regs_fresh R x : R ∈ regs → x ∈ R → (x < nxt)%positive;
  inv_heap_fresh x : is_Some (heap σ !! x) → (x < nxt)%positive;
  inv_meta l g : reverse (garb <$> A) !! l = Some g → l < length (d_scopeList σ) →
    meta σ !! l = Some (l, g);
}.

Lemma inv_member_hist ex σ regs nxt A chs ls x l :
  Inv ex σ regs nxt A chs ls → member chs x l → l < length A ∧ ∃ r p, hist σ x = Some (Some l, r, p).
Proof.
  intros HI (o&ch&Ho&Hin). destruct (inv_chain _ _ _ _ _ _ _ HI o ch Ho) as [t Hv].
  by eapply ver_elem.
Qed.

Lemma inv_member_fun ex σ regs nxt A chs ls x l l' :
  Inv ex σ regs nxt A chs ls → member chs x l → member chs x l' → l = l'.
Proof.
  intros HI H1 H2.
  destruct (inv_member_hist _ _ _ _ _ _ _ _ _ HI H1) as (_&?&?&?).
  destruct (inv_member_hist _ _ _ _ _ _ _ _ _ HI H2) as (_&?&?&?). congruence.
Qed.

Lemma inv_in_list ex σ regs nxt A chs ls x l L :
  Inv ex σ regs nxt A chs ls → ls !! l = Some L → x ∈ L → member chs x l.
Proof. intros HI Hl Hx. by eapply inv_mem in Hx as [_ ?]. Qed.

(** Lists of different scopes own different cells. *)
Lemma inv_lists_disjoint ex σ regs nxt A chs ls l l' L L' x :
  Inv ex σ regs nxt A chs ls → ls !! l = Some L → ls !! l' = Some L' → l ≠ l' →
  x ∈ L → x ∈ L' → False.
Proof.
  intros HI Hl Hl' Hne Hx Hx'. apply Hne.
  eapply inv_member_fun; [done|by eapply inv_in_list..].
Qed.

(** The newest version of an object is at its own address, older versions never
    are the address of an object. *)
Lemma inv_chain_shape ex σ regs nxt A chs ls o ch :
  Inv ex σ regs nxt A chs ls → chs !! o = Some ch →
  ∃ l ch', ch = (o, l) :: ch' ∧
    (∀ y l', (y, l') ∈ ch' → l' < l ∧ is_Some (chs !! y) → False) ∧
    (∀ y l', (y, l') ∈ ch' → l' < l ∧ ∃ R, R ∈ regs ∧ y ∈ R).
Proof.
  intros HI Ho. destruct (inv_chain _ _ _ _ _ _ _ HI o ch Ho) as [t Hv].
  pose proof (ver_head _ _ _ _ _ _ _ _ Hv) as (l&r&ch'&->&_&_&Hlt&_).
  assert (∀ y l', (y, l') ∈ ch' → l' < l ∧ ∃ R, R ∈ regs ∧ y ∈ R) as HR.
  { intros y l' Hin. split; [by eapply Hlt|].
    destruct (ver_regs _ _ _ _ _ _ _ _ y l' Hv) as (i&R&?&?&?); [done|].
    exists R. split; [by eapply list_elem_of_lookup_2|done]. }
  exists l, ch'. split_and!; [done| |done].
  intros y l' Hin [? [chy ?]]. destruct (HR _ _ Hin) as (_&R&?&?).
  by eapply inv_main.
Qed.

(** ** Overwriting or allocating one object *)
Definition put σ x (ob : ContextObj T) : Store T :=
  mkStore (d_scopeList σ) (<[x := ob]> (heap σ)).

Lemma wr_obj_put σ x f ob : heap σ !! x = Some ob → wr_obj σ x f = Some (put σ x (f ob)).
Proof. intros H. unfold wr_obj. by rewrite H. Qed.

Lemma wr_obj_put_put σ x ob f : wr_obj (put σ x ob) x f = Some (put σ x (f ob)).
Proof. unfold wr_obj, put; simpl. rewrite lookup_insert_eq; simpl. by rewrite insert_insert_eq. Qed.

Lemma put_cellv σ x ob q :
  cellv (put σ x ob) q = if decide (q = CNext x) then Some (d_pContextObjNext ob) else cellv σ q.
Proof.
  unfold cellv, put. destruct q as [l|y]; simpl; [done|].
  destruct (decide (CNext y = CNext x)) as [E|]; [simplify_eq|].
  - by rewrite lookup_insert_eq.
  - rewrite lookup_insert_ne; congruence.
Qed.

Lemma put_prevv σ x ob y :
  prevv (put σ x ob) y = if decide (y = x) then Some (d_ppContextObjPrev ob) else prevv σ y.
Proof.
  unfold prevv, put; simpl. case_decide; [subst; by rewrite lookup_insert_eq|].
  by rewrite lookup_insert_ne.
Qed.

Lemma put_hist σ x ob y :
  hist (put σ x ob) y =
  if decide (y = x) then Some (d_pScope ob, d_pContextObjRestore ob, payload ob) else hist σ y.
Proof.
  unfold hist, put; simpl. case_decide; [subst; by rewrite lookup_insert_eq|].
  by rewrite lookup_insert_ne.
Qed.

Lemma dll_put σ x ob p L : dll σ p L → x ∉ L → p ≠ CNext x → dll (put σ x ob) p L.
Proof.
  intros Hd Hx Hp. eapply dll_frame; [| |exact Hd].
  - intros q [->|(w&?&->)]; rewrite put_cellv, decide_False; try done. set_solver.
  - intros w Hw. rewrite put_prevv, decide_False; [done|set_solver].
Qed.

Lemma wrote_dom σ σ' cs ps x :
  wrote σ σ' cs ps → is_Some (heap σ' !! x) ↔ is_Some (heap σ !! x).
Proof. intros W. rewrite <- !hist_Some. by rewrite (wrote_hist _ _ _ _ W). Qed.

Lemma wrote_length σ σ' cs ps :
  wrote σ σ' cs ps → length (d_scopeList σ') = length (d_scopeList σ).
Proof. intros W. rewrite <- !length_meta. by rewrite (wrote_meta _ _ _ _ W). Qed.

(** How the links look after [restoreAndContinue]: [o] takes the place of its
    saved version [s] in the list [L1 ++ s :: L2] of scope [l1]. *)
Lemma restoreAndContinue_links σ o s p' L1 L2 l1 ob sv :
  heap σ !! o = Some ob → heap σ !! s = Some sv →
  d_pContextObjRestore ob = Some s →
  restore (payload ob) (payload sv) = Some p' →
  dll σ (CHead l1) (L1 ++ s :: L2) → NoDup (L1 ++ s :: L2) → o ∉ L1 ++ s :: L2 →
  ∃ σ', restoreAndContinue σ o = Some (σ', d_pContextObjNext ob) ∧
    dll σ' (CHead l1) (L1 ++ o :: L2) ∧
    wrote (put σ o (mkObj (d_pScope sv) (d_pContextObjRestore sv) (d_pContextObjNext sv)
                          (d_ppContextObjPrev sv) p')) σ'
      (one_cell (lastc (CHead l1) L1) (Some o)) (opt_prev (head L2) (Some (CNext o))).
Proof.
  intros Ho Hs Hr Hp Hd HN Hno.
  set (ob' := mkObj (d_pScope sv) (d_pContextObjRestore sv) (d_pContextObjNext sv)
                          (d_ppContextObjPrev sv) p').
  assert (d_pContextObjNext sv = head L2) as Hnx.
  { apply dll_next_at in Hd. unfold cellv in Hd. rewrite Hs in Hd. naive_solver. }
  assert (d_ppContextObjPrev sv = Some (lastc (CHead l1) L1)) as Hpv.
  { apply dll_prev_at in Hd. unfold prevv in Hd. rewrite Hs in Hd. naive_solver. }
  assert (dll (put σ o ob') (CHead l1) (L1 ++ s :: L2)) as Hd' by (by apply dll_put).
  destruct (wr_prev_opt_spec (put σ o ob') (head L2) (Some (CNext o))) as (σ6&E6&W6).
  { intros y Hy. eapply dll_lookup; [exact Hd'|]. destruct L2; set_solver. }
  destruct (wr_cell_spec σ6 (lastc (CHead l1) L1) (Some o)) as (σ7&E7&W7).
  { rewrite (wrote_cell _ _ _ _ W6). apply dll_app in Hd' as [_ Hd']. apply dll_cell in Hd'.
    by rewrite Hd'. }
  pose proof (wrote_trans _ _ _ _ _ _ _ W6 W7) as W.
  assert (wrote (put σ o ob') σ7 (one_cell (lastc (CHead l1) L1) (Some o))
            (opt_prev (head L2) (Some (CNext o)))) as W'.
  { destruct W as [WC WP WH WM]. split; [|done..].
    intros q. rewrite WC. unfold one_cell. by case_decide. }
  exists σ7. split_and!; [| |done].
  - unfold restoreAndContinue. rewrite Ho. simpl. rewrite Hr. rewrite Hs. simpl. rewrite Hp. simpl.
    rewrite (wr_obj_put _ _ _ ob) by done. simpl. rewrite !wr_obj_put_put. simpl.
    rewrite !wr_obj_put_put. simpl. rewrite !wr_obj_put_put. simpl. rewrite !wr_obj_put_put. simpl.
    unfold set_restore, set_prev, set_next, set_scope, set_payload; simpl. fold ob'.
    rewrite Hnx, E6. simpl. rewrite Hpv. simpl. by rewrite E7.
  - eapply dll_replace; [exact Hd'|done|set_solver|set_solver| | |exact W'].
    + rewrite put_cellv, decide_True by done. by rewrite <- Hnx.
    + rewrite put_prevv, decide_True by done. by rewrite <- Hpv.
Qed.

(** ** Going back one version preserves the invariant *)

Lemma hist_lookup σ x sc r p :
  hist σ x = Some (sc, r, p) → ∃ ob, heap σ !! x = Some ob ∧
    d_pScope ob = sc ∧ d_pContextObjRestore ob = r ∧ payload ob = p.
Proof.
  unfold hist. destruct (heap σ !! x) as [ob|]; simpl; [|done]. intros ?; simplify_eq. eauto.
Qed.

(** The addresses that hold versions after [o] went back from [s]. *)
Lemma member_undo ex σ regs nxt A chs ls o l0 s l1 ch x l :
  Inv ex σ regs nxt A chs ls → chs !! o = Some ((o, l0) :: (s, l1) :: ch) →
  member (<[o := (o, l1) :: ch]> chs) x l ↔
  (x = o ∧ l = l1) ∨ (x ≠ o ∧ x ≠ s ∧ member chs x l).
Proof.
  intros HI Ho. destruct (inv_chain_shape _ _ _ _ _ _ _ _ _ HI Ho) as (?&?&?&Hnm&HR). simplify_eq.
  assert (∀ y l', (y, l') ∈ ch → y ≠ o ∧ y ≠ s) as Hch.
  { intros y l' Hin. split.
    - intros ->. destruct (HR o l') as (_&R&?&?); [set_solver|]. by eapply inv_main.
    - intros ->. assert (l' = l1) as ->.
      { eapply (inv_member_fun _ _ _ _ _ _ _ s); [done| |];
          exists o; eexists; (split; [done|set_solver]). }
      destruct (inv_chain _ _ _ _ _ _ _ HI _ _ Ho) as [t Hv].
      apply ver_sorted in Hv. inversion_clear Hv as [|?? Hsort _].
      inversion_clear Hsort as [|?? _ Hall]. rewrite Forall_forall in Hall.
      apply Hall in Hin. simpl in Hin. lia. }
  split.
  - intros (o'&ch'&Hl&Hin). destruct (decide (o' = o)) as [->|Hne].
    + rewrite lookup_insert_eq in Hl. simplify_eq.
      apply elem_of_cons in Hin as [?|Hin]; [left; by simplify_eq|right].
      destruct (Hch _ _ Hin). split_and!; [done..|]. exists o. eexists; split; [done|set_solver].
    + rewrite lookup_insert_ne in Hl by done. right. split_and!; [| |by exists o', ch'].
      * intros ->. apply Hne. eapply (inv_uniq _ _ _ _ _ _ _ HI o' o); [done|done|done|left].
      * intros ->. apply Hne. eapply (inv_uniq _ _ _ _ _ _ _ HI o' o); [done|done|done|right; left].
  - intros [[-> ->]|(Hx&Hs&o'&ch'&Hl&Hin)].
    + exists o. eexists. split; [by rewrite lookup_insert_eq|set_solver].
    + destruct (decide (o' = o)) as [->|Hne]; simplify_eq.
      * exists o. eexists. split; [by rewrite lookup_insert_eq|]. set_solver.
      * exists o', ch'. split; [by rewrite lookup_insert_ne|done].
Qed.

Lemma restoreAndContinue_inv σ regs nxt A chs ls o l0 s l1 ch :
  Inv (Some o) σ regs nxt A chs ls → chs !! o = Some ((o, l0) :: (s, l1) :: ch) →
  l1 < length (d_scopeList σ) →
  ∃ σ' nx L1 L2, restoreAndContinue σ o = Some (σ', nx) ∧
    cellv σ (CNext o) = Some nx ∧ ls !! l1 = Some (L1 ++ s :: L2) ∧
    Inv None σ' regs nxt (undo o A) (<[o := (o, l1) :: ch]> chs) (<[l1 := L1 ++ o :: L2]> ls) ∧
    (∀ z, z ∉ o :: L1 → cellv σ' (CNext z) = cellv σ (CNext z)) ∧
    length (d_scopeList σ') = length (d_scopeList σ) ∧
    (∀ z, is_Some (heap σ' !! z) ↔ is_Some (heap σ !! z)).
Proof.
  intros HI Ho Hl1. pose proof (λ x l, member_undo _ _ _ _ _ _ _ _ _ _ _ _ x l HI Ho) as Hmem.
  destruct (inv_chain _ _ _ _ _ _ _ HI _ _ Ho) as [t Hv].
  pose proof (ver_head _ _ _ _ _ _ _ _ Hv) as (?&r0&?&?&_&Hho&_&Hr0). simplify_eq/=.
  pose proof (ver_undo _ _ _ _ _ _ _ _ _ _ _ Hv) as (t'&r&Hhs&Hwf&Hrtc&Hnew).
  pose proof (ver_wf _ _ _ _ _ _ _ _ Hv) as Hwt.
  apply hist_lookup in Hho as (ob&Hob&_&Hobr&Hobp).
  apply hist_lookup in Hhs as (sv&Hsv&Hsc&Hsr&Hsp).
  assert (member chs s l1) as Hms by (exists o; eexists; split; [done|set_solver]).
  assert (o ≠ s) as Hos.
  { intros <-. destruct (inv_chain_shape _ _ _ _ _ _ _ _ _ HI Ho) as (?&?&?&Hnm&_). simplify_eq.
    eapply (Hnm o l1); [set_solver|]. split; [|eauto].
    apply ver_sorted in Hv. inversion_clear Hv as [|?? _ Hall].
    rewrite Forall_cons in Hall. by destruct Hall. }
  destruct (lookup_lt_is_Some_2 ls l1) as [L HL].
  { rewrite (inv_ls _ _ _ _ _ _ _ HI). by eapply inv_member_hist. }
  assert (s ∈ L) as HsL by (eapply inv_mem; [done..|split; [congruence|done]]).
  apply list_elem_of_split in HsL as (L1&L2&->).
  pose proof (inv_nodup _ _ _ _ _ _ _ HI _ _ HL) as HN.
  assert (o ∉ L1 ++ s :: L2) as HoL by (intros ?%(inv_mem _ _ _ _ _ _ _ HI l1 _ o HL); naive_solver).
  destruct (restoreAndContinue_links σ o s t' L1 L2 l1 ob sv) as (σ'&E&Hd&W); [done..| | |done|done|].
  { rewrite Hobp, Hsp. by apply restore_save. }
  { by eapply inv_dll. }
  set (σa := put σ o _) in W.
  assert (∀ y, hist σ' y = if decide (y = o) then Some (Some l1, r, t') else hist σ y) as Hhist.
  { intros y. rewrite (wrote_hist _ _ _ _ W). unfold σa. rewrite put_hist. simpl.
    case_decide; [|done]. by rewrite Hsc, Hsr. }
  assert (length (d_scopeList σ') = length (d_scopeList σ)) as Hlen by (by apply wrote_length in W).
  assert (∀ z, is_Some (heap σ' !! z) ↔ is_Some (heap σ !! z)) as Hdom.
  { intros z. rewrite (wrote_dom _ _ _ _ _ W). unfold σa, put; simpl.
    destruct (decide (z = o)) as [->|]; [rewrite lookup_insert_eq, Hob; split; eauto|].
    by rewrite lookup_insert_ne. }
  exists σ', (d_pContextObjNext ob), L1, L2. split_and!; [done| |done| | |done|done].
  - unfold cellv. by rewrite Hob.
  - split; rewrite ?Hlen, ?length_undo, ?length_insert.
    + apply HI.
    + apply HI.
    + intros o' ch' Hl. destruct (decide (o' = o)) as [->|Hne].
      * rewrite lookup_insert_eq in Hl. simplify_eq. exists t'. apply Hnew.
        { rewrite Hhist. by rewrite decide_True. }
        intros y l Hin. rewrite Hhist, decide_False; [done|]. intros ->.
        assert (member (<[o := (o, l1) :: ch]> chs) o l) as Hm.
        { exists o. eexists. split; [by rewrite lookup_insert_eq|set_solver]. }
        destruct (inv_chain_shape _ _ _ _ _ _ _ _ _ HI Ho) as (?&?&?&Hnm&HR). simplify_eq.
        destruct (HR o l) as (_&R&?&?); [set_solver|]. by eapply (inv_main _ _ _ _ _ _ _ HI o).
      * rewrite lookup_insert_ne in Hl by done.
        destruct (inv_chain _ _ _ _ _ _ _ HI _ _ Hl) as [t2 Hv2]. exists t2.
        eapply ver_frame; [done| |apply regs_le_refl|by apply undo_same_at].
        intros y l Hin. rewrite Hhist, decide_False; [done|]. intros ->. apply Hne.
        eapply (inv_uniq _ _ _ _ _ _ _ HI o' o); [done..|left].
    + intros lv o' Hin Hsn. destruct (decide (o' = o)) as [->|Hne]; [by rewrite lookup_insert_eq|].
      rewrite lookup_insert_ne by done.
      destruct (same_at_in o' A (undo o A) lv) as (lv0&?&[Heq _]); [by apply undo_same_at|done|].
      eapply inv_dom; [done..|]. by rewrite <- Heq.
    + intros lv o' Hin Hsn. destruct (decide (o' = o)) as [->|Hne]; [by rewrite lookup_insert_eq|].
      rewrite lookup_insert_ne by done.
      destruct (same_at_in o' A (undo o A) lv) as (lv0&?&[_ Heq]); [by apply undo_same_at|done|].
      eapply inv_cur; [done..|]. by apply Heq.
    + assert (∀ o1 ch1 z l, <[o := (o, l1) :: ch]> chs !! o1 = Some ch1 → (z, l) ∈ ch1 →
        ∃ ch0 l', chs !! o1 = Some ch0 ∧ (z, l') ∈ ch0) as Hold.
      { intros o1 ch1 z l Hl Hin. destruct (decide (o1 = o)) as [->|].
        - rewrite lookup_insert_eq in Hl. simplify_eq.
          apply elem_of_cons in Hin as [?|Hin]; simplify_eq; eexists _, _; (split; [done|]);
            [left|by right; right].
        - rewrite lookup_insert_ne in Hl by done. eauto. }
      intros o1 o2 ch1 ch2 z l l' H1 H2 Hin1 Hin2.
      destruct (Hold _ _ _ _ H1 Hin1) as (?&?&?&?). destruct (Hold _ _ _ _ H2 Hin2) as (?&?&?&?).
      by eapply (inv_uniq _ _ _ _ _ _ _ HI o1 o2).
    + intros l L Hl. apply list_lookup_insert_Some in Hl as [(->&<-&_)|[_ Hl]]; [|by eapply inv_nodup].
      rewrite !NoDup_app, !NoDup_cons in *. set_solver.
    + intros l L z Hl. rewrite Hmem. apply list_lookup_insert_Some in Hl as [(->&<-&_)|[Hll Hl]].
      * pose proof (inv_mem _ _ _ _ _ _ _ HI l _ z HL) as Hz.
        rewrite !elem_of_app, !elem_of_cons in *.
        assert (z = s → z ∈ L1 ∨ z ∈ L2 → False) as Hzs.
        { intros ->. rewrite NoDup_app, NoDup_cons in HN. set_solver. }
        destruct (decide (z = o)) as [->|]; [naive_solver|]. split.
        -- intros Hin. split; [done|right]. split_and!; [done|naive_solver|].
           apply Hz. naive_solver.
        -- intros [_ [[? _]|(_&?&?)]]; [done|]. assert (z ∈ L1 ∨ z = s ∨ z ∈ L2) by (apply Hz; naive_solver).
           naive_solver.
      * rewrite (inv_mem _ _ _ _ _ _ _ HI l _ z Hl). split.
        -- intros [? Hm]. split; [done|right]. split_and!; [naive_solver| |done]. intros ->.
           apply Hll. by eapply inv_member_fun.
        -- naive_solver.
    + intros l L Hl Hlt. apply list_lookup_insert_Some in Hl as [(->&<-&_)|[Hll Hl]]; [done|].
      assert (∀ z, z ∈ L → z ∉ L1 ++ s :: L2) as Hdisj.
      { intros z ??. eapply (inv_lists_disjoint _ _ _ _ _ _ _ l l1); [done..|set_solver|done]. }
      eapply dll_wrote; [exact W| | |].
      * intros q Hq. unfold one_cell. rewrite decide_False; [done|]. intros ->.
        destruct (lastc_in (CHead l1) L1) as [Heq|(w&?&Heq)], Hq as [Hq|(w'&?&Hq)];
          rewrite Heq in Hq; simplify_eq. set_solver.
      * intros z Hz. destruct L2 as [|v L2]; simpl; [done|]. unfold one_prev.
        rewrite decide_False; [done|]. set_solver.
      * apply dll_put; [by eapply inv_dll| |done].
        intros Hin%(inv_mem _ _ _ _ _ _ _ HI l _ o Hl). naive_solver.
    + intros o' ch' R Hl. destruct (decide (o' = o)) as [->|];
        [|rewrite lookup_insert_ne in Hl by done]; by eapply inv_main.
    + apply HI.
    + apply HI.
    + intros z Hz. eapply inv_heap_fresh; [done|]. by apply Hdom.
    + intros l g. rewrite garb_undo, (wrote_meta _ _ _ _ W). apply HI.
  - intros z Hz. rewrite (wrote_cell _ _ _ _ W). unfold one_cell. rewrite decide_False.
    + unfold σa. rewrite put_cellv, decide_False; [done|set_solver].
    + destruct (lastc_in (CHead l1) L1) as [->|(w&?&->)]; [done|]. set_solver.
Qed.

(** ** Unlinking the newest version of an object *)

Lemma Inv_unlink σ σ' regs nxt A chs ls l o L1 L2 :
  Inv None σ regs nxt A chs ls → ls !! l = Some (L1 ++ o :: L2) →
  (∀ x, hist σ' x = hist σ x) → meta σ' = meta σ →
  (l < length (d_scopeList σ) → dll σ' (CHead l) (L1 ++ L2)) →
  (∀ l' L', l' ≠ l → ls !! l' = Some L' → l' < length (d_scopeList σ) → dll σ' (CHead l') L') →
  Inv (Some o) σ' regs nxt A chs (<[l := L1 ++ L2]> ls).
Proof.
  intros HI Hl Hh Hm Hdl Hdo.
  assert (length (d_scopeList σ') = length (d_scopeList σ)) as Hlen
    by (by rewrite <- !length_meta, Hm).
  pose proof (inv_nodup _ _ _ _ _ _ _ HI _ _ Hl) as HN.
  assert (member chs o l) as Hmo by (eapply inv_in_list; [done..|set_solver]).
  split; rewrite ?Hlen, ?length_insert; try apply HI.
  - intros o' ch' Ho'. destruct (inv_chain _ _ _ _ _ _ _ HI _ _ Ho') as [t Hv]. exists t.
    eapply ver_frame; [done|naive_solver|apply regs_le_refl|apply same_at_refl].
  - intros l' L' Hl'. apply list_lookup_insert_Some in Hl' as [(->&<-&_)|[_ ?]]; [|by eapply inv_nodup].
    rewrite !NoDup_app, !NoDup_cons in *. set_solver.
  - intros l' L' z Hl'. apply list_lookup_insert_Some in Hl' as [(->&<-&_)|[Hne Hl']].
    + pose proof (inv_mem _ _ _ _ _ _ _ HI l' _ z Hl) as Hz.
      rewrite !NoDup_app, !NoDup_cons in HN. rewrite !elem_of_app, !elem_of_cons in *.
      destruct HN as (_&Hd1&Hd2&_). split.
      * intros Hin. split; [|by apply Hz; destruct Hin; auto].
        intros ?; simplify_eq. destruct Hin as [Hin|Hin]; [|done]. apply (Hd1 _ Hin). left.
      * intros [Hne Hzm]. destruct Hz as [_ Hz]. destruct Hz as [?|[->|?]]; [done|auto|done|auto].
    + rewrite (inv_mem _ _ _ _ _ _ _ HI l' _ z Hl'). split.
      * intros [_ ?]. split; [|done]. intros ?; simplify_eq. apply Hne. by eapply inv_member_fun.
      * naive_solver.
  - intros l' L' Hl'. apply list_lookup_insert_Some in Hl' as [(->&<-&_)|[Hne Hl']]; [done|].
    by apply Hdo.
  - intros z Hz. eapply inv_heap_fresh; [done|]. rewrite <- hist_Some, <- Hh, hist_Some. done.
  - rewrite Hm. apply HI.
Qed.

(** ** Reading a list forward, as [Scope::~Scope] does *)
Fixpoint sll σ (hd : option loc) L : Prop :=
  match L with
  | [] => hd = None
  | x :: L => hd = Some x ∧ ∃ nx, cellv σ (CNext x) = Some nx ∧ sll σ nx L
  end.

Lemma sll_frame σ σ' hd L :
  (∀ x, x ∈ L → cellv σ' (CNext x) = cellv σ (CNext x)) → sll σ hd L → sll σ' hd L.
Proof.
  revert hd. induction L as [|x L IH]; intros hd HC; simpl; [done|].
  intros (->&nx&?&?). split; [done|]. exists nx. split; [by rewrite HC by set_solver|].
  apply IH; [set_solver|done].
Qed.

Lemma dll_sll σ p L : dll σ p L → sll σ (head L) L.
Proof.
  revert p. induction L as [|x L IH]; intros p; simpl; [done|].
  intros (_&_&Hd). split; [done|]. exists (head L). split; [by eapply dll_cell|by eapply IH].
Qed.

(** An object whose newest version belongs to the top level. *)
Lemma top_member ex σ regs nxt lv A chs ls x :
  Inv ex σ regs nxt (lv :: A) chs ls → A ≠ [] → member chs x (length A) →
  x ∈ cur lv ∧ ∃ s l1 ch, chs !! x = Some ((x, length A) :: (s, l1) :: ch) ∧ l1 < length A.
Proof.
  intros HI HA (o&ch&Ho&Hin). destruct (inv_chain _ _ _ _ _ _ _ HI _ _ Ho) as [t Hv].
  inversion Hv as [| ???? p s t' R ch' Hc Hsn Hw Hh Hi Hs Hv' Hr |?????? Hc Hsn Hv']; simplify_eq.
  - pose proof (ver_head _ _ _ _ _ _ _ _ Hv') as (l1&?&ch2&->&?&_&Hlt&_).
    assert (x = o) as ->.
    { apply elem_of_cons in Hin as [?|Hin]; [by simplify_eq|]. exfalso.
      destruct (ver_elem _ _ _ _ _ _ _ _ _ _ Hv' Hin). lia. }
    split; [done|]. eauto 10.
  - destruct (ver_elem _ _ _ _ _ _ _ _ _ _ Hv' Hin). lia.
Qed.

(** Restoring the list of the popped scope takes every object back to the level
    below. *)
Lemma restoreList_inv L : ∀ fuel σ regs nxt lv A chs ls hd,
  length L ≤ fuel → Inv None σ regs nxt (lv :: A) chs ls → A ≠ [] →
  length (d_scopeList σ) = length A → ls !! length A = Some L → sll σ hd L →
  ∃ σ' lv' chs' ls', restoreList fuel σ hd = Some σ' ∧
    Inv None σ' regs nxt (lv' :: A) chs' ls' ∧ ls' !! length A = Some [] ∧
    garb lv' = garb lv ∧ (∀ o, is_Some (chs' !! o) ↔ is_Some (chs !! o)) ∧
    length (d_scopeList σ') = length A ∧ (∀ z, is_Some (heap σ' !! z) ↔ is_Some (heap σ !! z)).
Proof.
  induction L as [|x L IH]; intros fuel σ regs nxt lv A chs ls hd Hf HI HA Hlen HL Hsll; simpl in Hsll.
  { subst hd. exists σ, lv, chs, ls. destruct fuel; split_and!; done. }
  destruct Hsll as (->&nx&Hnx&Hsll). destruct fuel as [|fuel]; simpl in Hf; [lia|].
  assert (member chs x (length A)) as Hm by (eapply inv_in_list; [done..|set_solver]).
  destruct (top_member _ _ _ _ _ _ _ _ _ HI HA Hm) as (Hcur&s&l1&ch&Hx&Hl1).
  assert (Inv (Some x) σ regs nxt (lv :: A) chs (<[length A := L]> ls)) as HI1.
  { apply (Inv_unlink σ σ _ _ _ _ _ _ _ [] L HI); [done..|lia|].
    intros l' L' _ ? ?. by eapply inv_dll. }
  destruct (restoreAndContinue_inv _ _ _ _ _ _ _ _ _ _ _ HI1 Hx) as
    (σ'&nx'&L1&L2&E&Hnx'&Hls&HI2&HC&Hlen'&Hdom'); [lia|].
  rewrite Hnx in Hnx'; simplify_eq.
  rewrite list_lookup_insert_ne in Hls by lia.
  destruct A as [|lv0 A]; [done|]. rewrite undo_cons, decide_True in HI2 by done.
  edestruct (IH fuel σ' regs nxt) as (σ2&lv2&chs2&ls2&E2&HI3&?&Hg&Hch&?&Hd2);
    [lia|exact HI2|done|lia| |eapply sll_frame; [|exact Hsll]| ].
  - rewrite list_lookup_insert_ne by lia.
    apply list_lookup_insert_eq. apply lookup_lt_Some in HL. done.
  - intros z Hz. apply HC. intros [->|HzL1]%elem_of_cons.
    + pose proof (inv_nodup _ _ _ _ _ _ _ HI _ _ HL) as HN. apply NoDup_cons in HN. naive_solver.
    + eapply (inv_lists_disjoint _ _ _ _ _ _ _ (length (lv0 :: A)) l1); [exact HI|done|done|lia| |].
      * by right.
      * set_solver.
  - exists σ2, lv2, chs2, ls2. cbn -[length]. rewrite E. cbn -[length]. split_and!; [done..|by rewrite Hg| |done|].
    + intros o. rewrite Hch. destruct (decide (o = x)) as [->|].
      * rewrite lookup_insert_eq, Hx. split; eauto.
      * by rewrite lookup_insert_ne.
    + intros z. by rewrite Hd2, Hdom'.
Qed.

End refine.
