(* ===== verification/ContextSpec.v ===== *)
(** The contract of a context: every operation runs without failing on a
    well-formed context and acts on the stack of snapshots as its abstract
    counterpart. *)
From stdpp Require Import base option list gmap fin_maps numbers relations sorting.
From S2P Require Import Prelude Context ContextLinks ContextInv ContextRefine.

Section spec.
Context {T : Type} `{!ContextData T, !ContextLaws T}.
Implicit Types (σ : Store T) (A : list (Level T)) (lv : Level T) (x y o s : loc)
  (regs : list (list loc)) (ch : list (loc * nat)) (L : list loc) (ls : list (list loc))
  (chs : gmap loc (list (loc * nat))) (c : Context T).

(** ** Releasing addresses that hold no version *)

Lemma free_all_lookup (h : gmap loc (ContextObj T)) (xs : list loc) y :
  free_all h xs !! y = if decide (y ∈ xs) then None else h !! y.
Proof.
  induction xs as [|x xs IH]; simpl; [done|].
  destruct (decide (y = x)) as [->|Hne].
  - rewrite lookup_delete_eq, decide_True by set_solver. done.
  - rewrite lookup_delete_ne by done. rewrite IH.
    destruct (decide (y ∈ xs)); [rewrite decide_True by set_solver|rewrite decide_False by set_solver]; done.
Qed.

Lemma Inv_free σ regs nxt A chs ls (xs : list loc) :
  Inv None σ regs nxt A chs ls →
  (∀ x l, x ∈ xs → member chs x l → False) →
  Inv None (mkStore (d_scopeList σ) (free_all (heap σ) xs)) regs nxt A chs ls.
Proof.
  intros HI Hx. set (σ' := mkStore _ _).
  assert (∀ y, y ∉ xs → heap σ' !! y = heap σ !! y) as Hh.
  { intros y Hy. unfold σ'; simpl. by rewrite free_all_lookup, decide_False. }
  split; try apply HI.
  - intros o ch Ho. destruct (inv_chain _ _ _ _ _ _ _ HI _ _ Ho) as [t Hv]. exists t.
    eapply ver_frame; [done| |apply regs_le_refl|apply same_at_refl].
    intros y l Hin. unfold hist. rewrite Hh; [done|]. intros ?. eapply Hx; [done|]. by exists o, ch.
  - intros l L Hl Hlt. eapply dll_frame; [| |by eapply inv_dll].
    + intros q [->|(w&Hw&->)]; [done|]. unfold cellv. rewrite Hh; [done|]. intros ?.
      eapply Hx; [done|]. by eapply inv_in_list.
    + intros w Hw. unfold prevv. rewrite Hh; [done|]. intros ?. eapply Hx; [done|]. by eapply inv_in_list.
  - intros z. unfold σ'; simpl. rewrite free_all_lookup. case_decide; [by intros []|].
    by eapply inv_heap_fresh.
Qed.

Lemma delete_free (h : gmap loc (ContextObj T)) o : delete o h = free_all h [o].
Proof. done. Qed.

(** ** Destroying an object *)

Lemma a_delete_same_at o o' A : o ≠ o' → Forall2 (same_at o') A (a_delete o A).
Proof.
  intros Hne. unfold a_delete. induction A; constructor; [|done].
  split; simpl; [by rewrite lookup_delete_ne|set_solver].
Qed.

Lemma length_a_delete o A : length (a_delete o A) = length A.
Proof. apply length_fmap. Qed.

Lemma garb_delete o A : garb <$> a_delete o A = garb <$> A.
Proof. unfold a_delete. rewrite <- list_fmap_compose. by apply list_fmap_ext. Qed.

(** An unlinked object with a single version can be forgotten. *)
Lemma Inv_forget σ regs nxt A chs ls o l :
  Inv (Some o) σ regs nxt A chs ls → chs !! o = Some [(o, l)] →
  Inv None σ regs nxt (a_delete o A) (delete o chs) ls.
Proof.
  intros HI Ho. split; rewrite ?length_a_delete; try apply HI.
  - intros o' ch' Hl. apply lookup_delete_Some in Hl as [Hne Hl].
    destruct (inv_chain _ _ _ _ _ _ _ HI _ _ Hl) as [t Hv]. exists t.
    eapply ver_frame; [done|done|apply regs_le_refl|by apply a_delete_same_at].
  - intros lv o' Hin Hsn. assert (o ≠ o') as Hne.
    { intros <-. apply list_elem_of_fmap in Hin as (lv0&->&_). simpl in Hsn.
      rewrite lookup_delete_eq in Hsn. by destruct Hsn. }
    rewrite lookup_delete_ne by done.
    destruct (same_at_in o' A (a_delete o A) lv) as (lv0&?&[Heq _]); [by apply a_delete_same_at|done|].
    eapply inv_dom; [done..|]. by rewrite <- Heq.
  - intros lv o' Hin Hsn. assert (o ≠ o') as Hne.
    { intros <-. apply list_elem_of_fmap in Hin as (lv0&->&_). simpl in Hsn. set_solver. }
    rewrite lookup_delete_ne by done.
    destruct (same_at_in o' A (a_delete o A) lv) as (lv0&?&[_ Heq]); [by apply a_delete_same_at|done|].
    eapply inv_cur; [done..|]. by apply Heq.
  - intros o1 o2 ch1 ch2 z l1 l2 [_ H1]%lookup_delete_Some [_ H2]%lookup_delete_Some. by eapply inv_uniq.
  - intros l' L' z Hl'. rewrite (inv_mem _ _ _ _ _ _ _ HI l' _ z Hl'). split.
    + intros [Hne (o'&ch'&Ho'&Hin)]. split; [done|]. exists o', ch'. split; [|done].
      rewrite lookup_delete_ne; [done|]. intros <-. simplify_eq. set_solver.
    + intros [_ (o'&ch'&[Hne Ho']%lookup_delete_Some&Hin)]. split; [|by exists o', ch'].
      intros ?; simplify_eq. apply Hne. eapply (inv_uniq _ _ _ _ _ _ _ HI); [exact Ho|exact Ho'|left|done].
  - intros o' ch' R [_ Hl]%lookup_delete_Some. by eapply inv_main.
  - rewrite garb_delete. apply HI.
Qed.

(** [next()->prev() = prev(); *prev() = next();] *)
Lemma unlink_inv σ regs nxt A chs ls o l ch :
  Inv None σ regs nxt A chs ls → chs !! o = Some ((o, l) :: ch) → l < length (d_scopeList σ) →
  ∃ ob pc σ1 σ2 ls', heap σ !! o = Some ob ∧ d_ppContextObjPrev ob = Some pc ∧
    d_pContextObjRestore ob = fst <$> head ch ∧
    wr_prev_opt σ (d_pContextObjNext ob) (Some pc) = Some σ1 ∧
    wr_cell σ1 pc (d_pContextObjNext ob) = Some σ2 ∧
    Inv (Some o) σ2 regs nxt A chs ls' ∧
    length (d_scopeList σ2) = length (d_scopeList σ) ∧
    (∀ z, is_Some (heap σ2 !! z) ↔ is_Some (heap σ !! z)).
Proof.
  intros HI Ho Hl. destruct (inv_chain _ _ _ _ _ _ _ HI _ _ Ho) as [t Hv].
  pose proof (ver_head _ _ _ _ _ _ _ _ Hv) as (?&r&?&?&Hlt&Hh&_&Hr). simplify_eq.
  apply hist_lookup in Hh as (ob&Hob&_&Hobr&_).
  assert (member chs o x) as Hm by (exists o; eexists; split; [done|left]).
  destruct (lookup_lt_is_Some_2 ls x) as [L HL]; [by rewrite (inv_ls _ _ _ _ _ _ _ HI)|].
  assert (o ∈ L) as HoL by (by eapply inv_mem).
  apply list_elem_of_split in HoL as (L1&L2&->).
  pose proof (inv_dll _ _ _ _ _ _ _ HI _ _ HL Hl) as Hd.
  pose proof (inv_nodup _ _ _ _ _ _ _ HI _ _ HL) as HN.
  assert (d_pContextObjNext ob = head L2) as Hnx.
  { pose proof (dll_next_at _ _ _ _ _ Hd) as E. unfold cellv in E. rewrite Hob in E. naive_solver. }
  assert (d_ppContextObjPrev ob = Some (lastc (CHead x) L1)) as Hpv.
  { pose proof (dll_prev_at _ _ _ _ _ Hd) as E. unfold prevv in E. rewrite Hob in E. naive_solver. }
  destruct (wr_prev_opt_spec σ (head L2) (Some (lastc (CHead x) L1))) as (σ1&E1&W1).
  { intros y Hy. eapply dll_lookup; [exact Hd|]. destruct L2; set_solver. }
  destruct (wr_cell_spec σ1 (lastc (CHead x) L1) (head L2)) as (σ2&E2&W2).
  { rewrite (wrote_cell _ _ _ _ W1). apply dll_app in Hd as [_ Hd]. apply dll_cell in Hd. by rewrite Hd. }
  pose proof (wrote_trans _ _ _ _ _ _ _ W1 W2) as W.
  assert (wrote σ σ2 (one_cell (lastc (CHead x) L1) (head L2))
            (opt_prev (head L2) (Some (lastc (CHead x) L1)))) as W'.
  { destruct W as [WC WP WH WM]. split; [|done..].
    intros q. rewrite WC. unfold one_cell. by case_decide. }
  exists ob, (lastc (CHead x) L1), σ1, σ2, (<[x := L1 ++ L2]> ls).
  rewrite Hnx. split_and!; [done..| | |].
  - eapply Inv_unlink; [done|done|apply W'|apply W'| |].
    + intros _. eapply dll_remove; [done..| |exact W']. done.
    + intros l' L' Hne Hl' Hlt'.
      assert (∀ z, z ∈ L' → z ∉ L1 ++ o :: L2) as Hdisj.
      { intros z ??. eapply (inv_lists_disjoint _ _ _ _ _ _ _ l' x); [done..|set_solver|done]. }
      eapply dll_wrote; [exact W'| | |by eapply inv_dll].
      * intros q Hq. unfold one_cell. rewrite decide_False; [done|]. intros ->.
        destruct (lastc_in (CHead x) L1) as [Heq|(w&?&Heq)], Hq as [Hq|(w'&?&Hq)];
          rewrite Heq in Hq; simplify_eq. set_solver.
      * intros z Hz. destruct L2 as [|v L2]; simpl; [done|]. unfold one_prev.
        rewrite decide_False; [done|]. set_solver.
  - by eapply wrote_length.
  - intros z. by eapply wrote_dom.
Qed.

Lemma destroyLoop_inv ch : ∀ fuel σ regs nxt A chs ls o l,
  length ch < fuel → Inv None σ regs nxt A chs ls → chs !! o = Some ((o, l) :: ch) →
  length (d_scopeList σ) = length A →
  ∃ σ' ls', destroyLoop fuel σ o = Some σ' ∧
    Inv None σ' regs nxt (a_delete o A) (delete o chs) ls' ∧
    length (d_scopeList σ') = length A ∧ (∀ z, is_Some (heap σ' !! z) ↔ is_Some (heap σ !! z)).
Proof.
  induction ch as [|[s l1] ch IH]; intros fuel σ regs nxt A chs ls o l Hf HI Ho Hlen;
    (destruct fuel as [|fuel]; simpl in Hf; [lia|]);
    (assert (l < length A) as HlA by
       (eapply inv_member_hist; [done|exists o; eexists; split; [done|left]]));
    destruct (unlink_inv _ _ _ _ _ _ _ _ _ HI Ho) as
      (ob&pc&σ1&σ2&ls'&Hob&Hpv&Hr&E1&E2&HI2&Hlen2&Hd2); try lia;
    cbn [destroyLoop]; rewrite Hob; simpl; rewrite Hpv, E1; simpl; rewrite E2; simpl; rewrite Hr; simpl.
  - exists σ2, ls'. split_and!; [done|by eapply Inv_forget|lia|done].
  - assert (l1 < length A) as Hl1.
    { eapply (inv_member_hist _ _ _ _ _ _ _ s); [done|exists o; eexists; split; [done|right; left]]. }
    destruct (restoreAndContinue_inv _ _ _ _ _ _ _ _ _ _ _ HI2 Ho) as
      (σ3&nx&L1&L2&E3&_&_&HI3&_&Hlen3&Hd3); [lia|].
    rewrite E3. simpl.
    destruct (IH fuel σ3 regs nxt (undo o A) _ _ o l1 ltac:(lia) HI3) as (σ4&ls4&E4&HI4&Hlen4&Hd4).
    + by rewrite lookup_insert_eq.
    + rewrite length_undo. lia.
    + exists σ4, ls4. rewrite a_delete_undo, length_undo, delete_insert_eq in *.
      split_and!; [done|done|lia|]. intros z. by rewrite Hd4, Hd3, Hd2.
Qed.

(** A duplicate-free list of allocated addresses is no longer than the heap. *)
Lemma nodup_le_heap (h : gmap loc (ContextObj T)) (xs : list loc) :
  NoDup xs → (∀ x, x ∈ xs → is_Some (h !! x)) → length xs ≤ size h.
Proof.
  intros HN Hx. rewrite <- size_dom. rewrite <- (size_list_to_set (C := gset loc)) by done.
  apply subseteq_size. intros x. rewrite elem_of_list_to_set, elem_of_dom. apply Hx.
Qed.

Lemma chain_nodup ex σ regs nxt A chs ls o ch :
  Inv ex σ regs nxt A chs ls → chs !! o = Some ch → NoDup (fst <$> ch).
Proof.
  intros HI Ho. destruct (inv_chain _ _ _ _ _ _ _ HI _ _ Ho) as [t Hv].
  pose proof (ver_sorted _ _ _ _ _ _ _ _ Hv) as Hs.
  assert (∀ x l l', (x, l) ∈ ch → (x, l') ∈ ch → l = l') as Hf.
  { intros x l l' H1 H2. eapply inv_member_fun; [done|by exists o, ch..]. }
  clear -Hs Hf. induction Hs as [|[x l] ch Hs IH Hall]; constructor.
  - intros ([y l']&Heq&Hin)%list_elem_of_fmap. simpl in Heq. subst y.
    rewrite Forall_forall in Hall. pose proof (Hall _ Hin). simpl in *.
    assert (l = l') by (apply (Hf x); [left|by right]). lia.
  - apply IH. intros y l1 l2 ??. apply (Hf y); by right.
Qed.

Lemma deleteSelf_inv σ regs nxt A chs ls o :
  Inv None σ regs nxt A chs ls → is_Some (chs !! o) → length (d_scopeList σ) = length A →
  ∃ σ' ls', deleteSelf σ o = Some σ' ∧
    Inv None σ' regs nxt (a_delete o A) (delete o chs) ls' ∧ length (d_scopeList σ') = length A.
Proof.
  intros HI [ch Ho] Hlen. destruct (inv_chain_shape _ _ _ _ _ _ _ _ _ HI Ho) as (l&ch'&->&_&_).
  destruct (inv_chain _ _ _ _ _ _ _ HI _ _ Ho) as [t Hv].
  pose proof (ver_head _ _ _ _ _ _ _ _ Hv) as (l2&r&ch2&Heq&Hlt&Hh&_&Hr). injection Heq as <- <-.
  apply hist_lookup in Hh as (ob&Hob&Hsc&_).
  assert (length ch' < S (size (heap σ))) as Hfuel.
  { pose proof (chain_nodup _ _ _ _ _ _ _ _ _ HI Ho) as HN.
    apply (nodup_le_heap (heap σ)) in HN; [rewrite length_fmap in HN; simpl in HN; lia|].
    intros z ([z' lz]&->&Hin)%list_elem_of_fmap. simpl.
    destruct (ver_elem _ _ _ _ _ _ _ _ _ _ Hv Hin) as (_&?&?&Hz).
    rewrite <- hist_Some, Hz. eauto. }
  destruct (destroyLoop_inv _ _ _ _ _ _ _ _ _ _ Hfuel HI Ho Hlen) as (σ'&ls'&E&HI'&Hlen'&_).
  exists (mkStore (d_scopeList σ') (delete o (heap σ'))), ls'. split_and!; [| |done].
  - unfold deleteSelf, destroy. rewrite Hob. cbn -[destroyLoop]. rewrite Hsc. cbn -[destroyLoop].
    by rewrite E.
  - rewrite delete_free. apply Inv_free; [done|].
    intros y lm ->%list_elem_of_singleton (o'&ch2&[Hne Ho']%lookup_delete_Some&Hin). apply Hne.
    eapply (inv_uniq _ _ _ _ _ _ _ HI); [exact Ho|exact Ho'|left|done].
Qed.

Lemma collectGarbage_inv os : ∀ σ regs nxt A chs ls,
  Inv None σ regs nxt A chs ls → NoDup os → (∀ o, o ∈ os → is_Some (chs !! o)) →
  length (d_scopeList σ) = length A →
  ∃ σ' ls', collectGarbage σ os = Some σ' ∧
    Inv None σ' regs nxt (foldl (λ A o, a_delete o A) A os) (foldl (λ m o, delete o m) chs os) ls' ∧
    length (d_scopeList σ') = length A.
Proof.
  induction os as [|o os IH]; intros σ regs nxt A chs ls HI HN Hos Hlen; simpl.
  { exists σ, ls. done. }
  apply NoDup_cons in HN as [Ho HN].
  destruct (deleteSelf_inv _ _ _ _ _ _ o HI) as (σ1&ls1&E1&HI1&Hlen1); [apply Hos; left|done|].
  rewrite E1; simpl.
  destruct (IH _ _ _ _ _ _ HI1 HN) as (σ2&ls2&E2&HI2&Hlen2).
  - intros o' Ho'. rewrite lookup_delete_ne by set_solver. apply Hos. by right.
  - by rewrite length_a_delete.
  - exists σ2, ls2. rewrite length_a_delete in Hlen2. done.
Qed.

(** ** Popping a level *)

(** The scope leaves [d_scopeList]; its objects are still at its level. *)
Lemma Inv_drop_scope σ regs nxt A chs ls :
  Inv None σ regs nxt A chs ls →
  Inv None (mkStore (removelast (d_scopeList σ)) (heap σ)) regs nxt A chs ls.
Proof.
  intros HI. set (σ' := mkStore _ _).
  assert (∀ l, l < length (d_scopeList σ') → d_scopeList σ' !! l = d_scopeList σ !! l) as Hl.
  { intros l. unfold σ'; simpl. destruct (d_scopeList σ) as [|? ? _] using rev_ind; [done|].
    rewrite removelast_last. intros ?. by rewrite lookup_app_l. }
  assert (length (d_scopeList σ') ≤ length (d_scopeList σ)) as Hle.
  { unfold σ'; simpl. destruct (d_scopeList σ) as [|? ? _] using rev_ind; [done|].
    rewrite removelast_last, length_app. lia. }
  split; try apply HI.
  - intros l L HL Hlt. eapply dll_frame; [| |eapply inv_dll; [done..|lia]].
    + intros q [->|(w&?&->)]; [|done]. unfold cellv. by rewrite Hl.
    + done.
  - intros l g Hg Hlt. unfold meta. rewrite list_lookup_fmap, Hl by done.
    rewrite <- list_lookup_fmap. eapply inv_meta; [done..|lia].
Qed.

Lemma reverse_cons_lookup {B} (a : B) (l : list B) i :
  i < length l → reverse (a :: l) !! i = reverse l !! i.
Proof. intros. rewrite reverse_cons, lookup_app_l; [done|]. by rewrite length_reverse. Qed.

(** A level in which nothing is saved any more can be dropped, together with its
    memory region. *)
Lemma Inv_strip σ regs nxt lv A chs ls :
  Inv None σ regs nxt (lv :: A) chs ls → A ≠ [] → ls !! length A = Some [] →
  length (d_scopeList σ) = length A →
  ∃ R, regs = take (length A) regs ++ [R] ∧
    Inv None σ (take (length A) regs) nxt A chs (take (length A) ls) ∧
    (∀ x l, x ∈ R → member chs x l → False).
Proof.
  intros HI HA HL Hlen.
  destruct (lookup_lt_is_Some_2 regs (length A)) as [R HR].
  { rewrite (inv_regs _ _ _ _ _ _ _ HI). simpl; lia. }
  pose proof (inv_regs _ _ _ _ _ _ _ HI) as Hlr. simpl in Hlr.
  assert (regs = take (length A) regs ++ [R]) as Hregs.
  { rewrite <- (take_drop (length A) regs) at 1. f_equal.
    rewrite (drop_S _ _ _ HR), drop_ge by lia. done. }
  assert (∀ o ch, chs !! o = Some ch → ∃ t, ver (hist σ) regs o A o t t ch) as Hver.
  { intros o ch Ho. destruct (inv_chain _ _ _ _ _ _ _ HI _ _ Ho) as [t Hv].
    inversion Hv as [| ????????? |?]; simplify_eq; [|by eauto].
    exfalso. apply (not_elem_of_nil o). eapply inv_mem; [done..|]. split; [done|].
    exists o; eexists; split; [done|left]. }
  assert (∀ x l, x ∈ R → member chs x l → False) as HRm.
  { intros x l Hx (o&ch&Ho&Hin). destruct (Hver _ _ Ho) as [t Hv].
    destruct (inv_chain_shape _ _ _ _ _ _ _ _ _ HI Ho) as (l'&ch'&->&_&_).
    apply elem_of_cons in Hin as [?|Hin]; simplify_eq.
    - eapply inv_main; [done|exact Ho|by eapply list_elem_of_lookup_2|done].
    - destruct (ver_regs _ _ _ _ _ _ _ _ x l Hv) as (i&R'&Hi&HR'&Hx'); [done|].
      pose proof (inv_regs_nodup _ _ _ _ _ _ _ HI) as HN. rewrite Hregs, concat_app in HN.
      apply NoDup_app in HN as (_&HN&_). apply (HN x); [|simpl; set_solver].
      apply list_elem_of_In, in_concat. exists R'. split; [|by apply list_elem_of_In].
      apply list_elem_of_In. apply list_elem_of_lookup_2 with i. by rewrite lookup_take_lt. }
  exists R. split_and!; [done| |done].
  assert (∀ {B} (l : list B) i b, take (length A) l !! i = Some b → l !! i = Some b) as Htk.
  { intros B l i b Hi. apply lookup_take_Some in Hi. naive_solver. }
  assert (∀ R', R' ∈ take (length A) regs → R' ∈ regs) as Hin.
  { intros R' [i Hi]%list_elem_of_lookup. eapply list_elem_of_lookup_2. by apply Htk. }
  split; try apply HI.
  - rewrite length_take, (inv_ls _ _ _ _ _ _ _ HI). simpl; lia.
  - rewrite length_take. lia.
  - intros o ch Ho. destruct (Hver _ _ Ho) as [t Hv]. exists t.
    eapply ver_frame; [done|done| |apply same_at_refl].
    intros i R' Hi HR'. exists R'. split; [by rewrite lookup_take_lt|done].
  - intros lv' o ?. eapply inv_dom; [done|by right].
  - intros lv' o ?. eapply inv_cur; [done|by right].
  - intros l L Hl%Htk. by eapply inv_nodup.
  - intros l L x Hl%Htk. by eapply inv_mem.
  - intros l L Hl%Htk. by eapply inv_dll.
  - intros o ch R' Ho HR'%Hin. by eapply inv_main.
  - pose proof (inv_regs_nodup _ _ _ _ _ _ _ HI) as HN. rewrite Hregs, concat_app in HN.
    by apply NoDup_app in HN as [? _].
  - intros R' x HR'%Hin. by eapply inv_regs_fresh.
  - intros l g Hg Hlt. eapply inv_meta; [done| |done].
    rewrite fmap_cons, reverse_cons_lookup; [done|]. rewrite length_fmap. lia.
Qed.

(** ** Linking an object at the front of the list of a scope *)

Definition chain_cells (l : nat) o L : cell → option (option loc) :=
  λ q, if decide (q = CHead l) then Some (Some o)
       else if decide (q = CNext o) then Some (head L) else None.
Definition chain_prevs (l : nat) o L : loc → option (option cell) :=
  λ y, if decide (y = o) then Some (Some (CHead l)) else opt_prev (head L) (Some (CNext o)) y.

Lemma addToChain_links σ l o L :
  l < length (d_scopeList σ) → dll σ (CHead l) L → NoDup L → o ∉ L → is_Some (heap σ !! o) →
  ∃ σ', addToChain σ l o = Some σ' ∧ dll σ' (CHead l) (o :: L) ∧
    wrote σ σ' (chain_cells l o L) (chain_prevs l o L).
Proof.
  intros [sc Hsc]%lookup_lt_is_Some_2 Hd HN Ho Hso.
  assert (d_pContextObjList sc = head L) as Hhd.
  { apply dll_cell in Hd. unfold cellv in Hd. rewrite Hsc in Hd. naive_solver. }
  destruct (wr_prev_opt_spec σ (head L) (Some (CNext o))) as (σ1&E1&W1).
  { intros y Hy. eapply dll_lookup; [exact Hd|]. destruct L; set_solver. }
  destruct (wr_cell_spec σ1 (CNext o) (head L)) as (σ2&E2&W2).
  { rewrite cellv_next_Some. by rewrite (wrote_dom _ _ _ _ _ W1). }
  destruct (wr_prev_spec σ2 o (Some (CHead l))) as (σ3&E3&W3).
  { by rewrite (wrote_dom _ _ _ _ _ W2), (wrote_dom _ _ _ _ _ W1). }
  pose proof (wrote_trans _ _ _ _ _ _ _ W1 (wrote_trans _ _ _ _ _ _ _ W2 W3)) as W13.
  destruct (wr_cell_spec σ3 (CHead l) (Some o)) as (σ4&E4&W4).
  { rewrite (wrote_cell _ _ _ _ W13). unfold one_cell. rewrite decide_False by done.
    unfold cellv. by rewrite Hsc. }
  pose proof (wrote_trans _ _ _ _ _ _ _ W13 W4) as W.
  assert (wrote σ σ4 (chain_cells l o L) (chain_prevs l o L)) as W'.
  { destruct W as [WC WP WH WM]. split; [| |done..].
    - intros q. rewrite WC. unfold chain_cells, one_cell. repeat case_decide; done.
    - intros y. rewrite WP. unfold chain_prevs, one_prev. repeat case_decide; done. }
  exists σ4. split_and!; [| |done].
  - unfold addToChain. rewrite Hsc. simpl. rewrite Hhd, E1. simpl. simpl in E2. rewrite E2. simpl.
    rewrite E3. simpl. done.
  - destruct W' as [WC WP _ _]. eapply dll_push; [exact Hd|done|done|done|done| | | | |].
    + intros q [->|(w&?&->)] Hq; [done|]. rewrite WC. unfold chain_cells.
      rewrite !decide_False; [done|set_solver|done].
    + rewrite WC. unfold chain_cells. rewrite decide_True by done.
      unfold cellv. by rewrite Hsc.
    + rewrite WC. unfold chain_cells. rewrite decide_False, decide_True by done.
      apply cellv_next_Some in Hso as [? ->]. done.
    + rewrite WP. unfold chain_prevs. rewrite decide_True by done.
      apply prevv_Some in Hso as [? ->]. done.
    + intros z Hz. rewrite WP. unfold chain_prevs. rewrite decide_False by set_solver.
      destruct L as [|v L]; simpl; [done|]. unfold one_prev. case_decide; [|done].
      assert (is_Some (prevv σ z)) as [? ->]; [|done].
      apply prevv_Some. by eapply dll_lookup.
Qed.

(** Other lists are untouched. *)
Lemma addToChain_others σ σ' l o L p L' :
  wrote σ σ' (chain_cells l o L) (chain_prevs l o L) →
  dll σ p L' → p ≠ CHead l → p ≠ CNext o → o ∉ L' → (∀ x, x ∈ L' → x ∉ L) → dll σ' p L'.
Proof.
  intros W Hd Hp Hp' Ho Hdisj. eapply dll_wrote; [exact W| | |done].
  - intros q [->|(w&?&->)]; unfold chain_cells; rewrite !decide_False; set_solver.
  - intros z Hz. unfold chain_prevs. rewrite decide_False by set_solver.
    destruct L as [|v L]; simpl; [done|]. unfold one_prev. rewrite decide_False; set_solver.
Qed.

Lemma member_fresh σ regs nxt A chs ls l : Inv None σ regs nxt A chs ls → member chs nxt l → False.
Proof.
  intros HI Hm. destruct (inv_member_hist _ _ _ _ _ _ _ _ _ HI Hm) as (_&?&?&Hh).
  assert (is_Some (heap σ !! nxt)) as Hs by (rewrite <- hist_Some, Hh; eauto).
  apply (inv_heap_fresh _ _ _ _ _ _ _ HI) in Hs. lia.
Qed.

Lemma chs_heap σ regs nxt A chs ls o :
  Inv None σ regs nxt A chs ls → is_Some (chs !! o) → (o < nxt)%positive ∧ is_Some (heap σ !! o).
Proof.
  intros HI [ch Ho]. destruct (inv_chain_shape _ _ _ _ _ _ _ _ _ HI Ho) as (l'&ch'&->&_&_).
  assert (member chs o l') as Hm by (exists o; eexists; split; [done|left]).
  destruct (inv_member_hist _ _ _ _ _ _ _ _ _ HI Hm) as (_&?&?&Hh).
  assert (is_Some (heap σ !! o)) as Hs by (rewrite <- hist_Some, Hh; eauto).
  split; [by eapply inv_heap_fresh|done].
Qed.

Lemma a_create_same_at o t o' A : o ≠ o' → Forall2 (same_at o') A (a_create o t A).
Proof.
  intros Hne. unfold a_create. induction A; constructor; [|done].
  split; simpl; [by rewrite lookup_insert_ne|done].
Qed.

(** A fresh object has the same fields at every level. *)
Lemma ver_fresh hs regs o t A :
  A ≠ [] → wf t → (∀ lv, lv ∈ A → o ∉ cur lv) → hs o = Some (Some 0, None, t) →
  ver hs regs o (a_create o t A) o t t [(o, 0)].
Proof.
  intros HA Hw Hcur Hh. induction A as [|lv A IH]; [done|]. destruct A as [|lv' A]; simpl in *.
  - constructor; simpl; [by rewrite lookup_insert_eq|done..].
  - apply ver_same; simpl; [apply Hcur; left|by rewrite lookup_insert_eq|].
    apply IH; [done|]. intros lv0 ?. apply Hcur. by right.
Qed.

Lemma newContextObj_inv σ regs nxt A chs ls t :
  Inv None σ regs nxt A chs ls → A ≠ [] → length (d_scopeList σ) = length A → wf t →
  ∃ σ' ls', addToChain (put σ nxt (mkObj (Some 0) None None None t)) 0 nxt = Some σ' ∧
    Inv None σ' regs (Pos.succ nxt) (a_create nxt t A) (<[nxt := [(nxt, 0)]]> chs) ls' ∧
    length (d_scopeList σ') = length A.
Proof.
  intros HI HA Hlen Hw. set (ob := mkObj _ _ _ _ _). set (σ1 := put σ nxt ob).
  assert (0 < length A) as Hpos by (destruct A; simpl; [done|lia]).
  assert (∀ l, member chs nxt l → False) as Hfm by (intros; by eapply member_fresh).
  assert (chs !! nxt = None) as Hfc.
  { destruct (chs !! nxt) as [ch|] eqn:E; [|done]. exfalso.
    destruct (chs_heap _ _ _ _ _ _ nxt HI) as [? _]; [by eexists|lia]. }
  destruct (lookup_lt_is_Some_2 ls 0) as [L HL]; [by rewrite (inv_ls _ _ _ _ _ _ _ HI)|].
  assert (∀ l L', ls !! l = Some L' → nxt ∉ L') as HnL.
  { intros l L' Hl Hin. eapply Hfm. by eapply inv_in_list. }
  assert (∀ l L', ls !! l = Some L' → l < length A → dll σ1 (CHead l) L') as Hd1.
  { intros l L' Hl Hlt. apply dll_put; [eapply inv_dll; [done..|lia]|by eapply HnL|done]. }
  destruct (addToChain_links σ1 0 nxt L) as (σ'&E&Hd&W);
    [simpl; lia|by apply Hd1|by eapply inv_nodup|by eapply HnL| |].
  { unfold σ1, put; simpl. rewrite lookup_insert_eq. eauto. }
  assert (length (d_scopeList σ') = length A) as Hlen'.
  { apply wrote_length in W. rewrite W. done. }
  exists σ', (<[0 := nxt :: L]> ls). split_and!; [done| |done].
  assert (∀ y, hist σ' y = if decide (y = nxt) then Some (Some 0, None, t) else hist σ y) as Hh.
  { intros y. rewrite (wrote_hist _ _ _ _ W). unfold σ1. by rewrite put_hist. }
  assert (∀ x l, member (<[nxt := [(nxt, 0)]]> chs) x l ↔ (x = nxt ∧ l = 0) ∨ member chs x l) as Hmem.
  { intros x l. split.
    - intros (o&ch&Ho&Hin). apply lookup_insert_Some in Ho as [[<- <-]|[? Ho]]; [|right; by exists o, ch].
      left. apply list_elem_of_singleton in Hin. by simplify_eq.
    - intros [[-> ->]|(o&ch&Ho&Hin)].
      + exists nxt, [(nxt, 0)]. split; [by rewrite lookup_insert_eq|left].
      + exists o, ch. split; [|done]. rewrite lookup_insert_ne; [done|]. intros <-. congruence. }
  split; unfold a_create; rewrite ?length_fmap, ?length_insert; try apply HI; fold (a_create nxt t A).
  - intros o ch Ho. apply lookup_insert_Some in Ho as [[<- <-]|[Hne Ho]].
    + exists t. apply ver_fresh; [done|done| |by rewrite Hh, decide_True].
      intros lv Hlv Hin. apply (inv_cur _ _ _ _ _ _ _ HI _ _ Hlv) in Hin. rewrite Hfc in Hin. by destruct Hin.
    + destruct (inv_chain _ _ _ _ _ _ _ HI _ _ Ho) as [t' Hv]. exists t'.
      eapply ver_frame; [done| |apply regs_le_refl|by apply a_create_same_at].
      intros y l Hin. rewrite Hh, decide_False; [done|]. intros ->. eapply Hfm. by exists o, ch.
  - intros lv o (lv0&->&?)%list_elem_of_fmap. simpl. destruct (decide (o = nxt)) as [->|];
      [by rewrite !lookup_insert_eq|]. rewrite !lookup_insert_ne by done. by eapply inv_dom.
  - intros lv o (lv0&->&?)%list_elem_of_fmap. simpl. destruct (decide (o = nxt)) as [->|];
      [by rewrite !lookup_insert_eq|]. rewrite !lookup_insert_ne by done. by eapply inv_cur.
  - intros o1 o2 ch1 ch2 z l l' H1 H2 Hin1 Hin2.
    apply lookup_insert_Some in H1 as [[<- <-]|[? H1]], H2 as [[<- <-]|[? H2]]; [done| | |by eapply inv_uniq].
    + apply list_elem_of_singleton in Hin1. simplify_eq. exfalso. eapply Hfm. by exists o2, ch2.
    + apply list_elem_of_singleton in Hin2. simplify_eq. exfalso. eapply Hfm. by exists o1, ch1.
  - intros l L' Hl. apply list_lookup_insert_Some in Hl as [(<-&<-&_)|[_ Hl]]; [|by eapply inv_nodup].
    constructor; [by eapply HnL|by eapply inv_nodup].
  - intros l L' x Hl. rewrite Hmem. apply list_lookup_insert_Some in Hl as [(<-&<-&_)|[Hne Hl]].
    + rewrite elem_of_cons, (inv_mem _ _ _ _ _ _ _ HI 0 L x HL). naive_solver.
    + rewrite (inv_mem _ _ _ _ _ _ _ HI l L' x Hl). naive_solver.
  - intros l L' Hl Hlt. apply list_lookup_insert_Some in Hl as [(<-&<-&_)|[Hne Hl]]; [done|].
    eapply addToChain_others; [exact W|apply Hd1; [done|lia]|congruence|done|by eapply HnL|].
    intros x ??. by eapply (inv_lists_disjoint _ _ _ _ _ _ _ l 0).
  - intros o ch R Ho HR. apply lookup_insert_Some in Ho as [[<- _]|[? ?]]; [|by eapply inv_main].
    intros Hin. apply (inv_regs_fresh _ _ _ _ _ _ _ HI _ _ HR) in Hin. lia.
  - intros R x HR Hx. apply (inv_regs_fresh _ _ _ _ _ _ _ HI _ _ HR) in Hx. lia.
  - intros x. rewrite (wrote_dom _ _ _ _ _ W). unfold σ1, put; simpl.
    destruct (decide (x = nxt)) as [->|]; [lia|]. rewrite lookup_insert_ne by done.
    intros Hx%(inv_heap_fresh _ _ _ _ _ _ _ HI). lia.
  - intros l g Hg Hlt. rewrite (wrote_meta _ _ _ _ W). change (meta σ1) with (meta σ). eapply inv_meta; [done| |lia].
    rewrite <- Hg. f_equal. f_equal. unfold a_create. rewrite <- list_fmap_compose. by apply list_fmap_ext.
Qed.

End spec.

(** * [ContextObj::update]: the first modification of an object at a level saves
    its previous version. *)

Section update.
Context {T : Type} `{!ContextData T, !ContextLaws T}.
Implicit Types (σ : Store T) (A : list (Level T)) (lv : Level T) (x y o s : loc)
  (regs : list (list loc)) (ch : list (loc * nat)) (L : list loc) (ls : list (list loc))
  (chs : gmap loc (list (loc * nat))) (c : Context T).

(** The writes of [update] after the allocation of the saved copy at [x]. *)
Definition update_writes σ o x (ob : ContextObj T) (this : T) : option (Store T) :=
  σ1 ← wr_obj σ o (set_payload this);
  σ2 ← wr_prev_opt σ1 (d_pContextObjNext ob) (Some (CNext x));
  pc ← d_ppContextObjPrev ob;
  σ3 ← wr_cell σ2 pc (Some x);
  let top := pred (length (d_scopeList σ3)) in
  σ4 ← wr_obj σ3 o (set_scope (Some top));
  σ5 ← wr_obj σ4 o (set_restore (Some x));
  addToChain σ5 top o.

(** Their effect on the lists: the copy replaces [o] in the list of the old
    scope [l1], and [o] is linked at the front of the list [Lt] of the top
    scope. *)
Lemma update_links σ o x ob this saved L1 L2 l1 Lt :
  heap σ !! o = Some ob → heap σ !! x = None →
  l1 < pred (length (d_scopeList σ)) →
  dll σ (CHead l1) (L1 ++ o :: L2) → NoDup (L1 ++ o :: L2) → x ∉ L1 ++ o :: L2 →
  dll σ (CHead (pred (length (d_scopeList σ)))) Lt → NoDup Lt → x ∉ Lt →
  (∀ z, z ∈ Lt → z ∉ L1 ++ o :: L2) →
  ∃ σ', update_writes (put σ x (set_payload saved ob)) o x ob this = Some σ' ∧
    dll σ' (CHead l1) (L1 ++ x :: L2) ∧
    dll σ' (CHead (pred (length (d_scopeList σ)))) (o :: Lt) ∧
    (∀ l L, l ≠ l1 → l ≠ pred (length (d_scopeList σ)) → dll σ (CHead l) L →
      (∀ z, z ∈ x :: Lt ++ L1 ++ o :: L2 → z ∉ L) → dll σ' (CHead l) L) ∧
    (∀ y, hist σ' y =
       if decide (y = o) then Some (Some (pred (length (d_scopeList σ))), Some x, this)
       else if decide (y = x) then Some (d_pScope ob, d_pContextObjRestore ob, saved)
       else hist σ y) ∧
    meta σ' = meta σ.
Proof.
  intros Ho Hx Hl1 Hd HN Hxl Hdt HNt Hxt Hdisj.
  set (top := pred (length (d_scopeList σ))) in *. set (sv := set_payload saved ob).
  assert (o ≠ x) as Hox by congruence.
  assert (d_pContextObjNext ob = head L2) as Hnx.
  { pose proof (dll_next_at _ _ _ _ _ Hd) as E. unfold cellv in E. rewrite Ho in E. naive_solver. }
  assert (d_ppContextObjPrev ob = Some (lastc (CHead l1) L1)) as Hpv.
  { pose proof (dll_prev_at _ _ _ _ _ Hd) as E. unfold prevv in E. rewrite Ho in E. naive_solver. }
  assert (heap (put σ x sv) !! o = Some ob) as Ho' by (unfold put; simpl; by rewrite lookup_insert_ne).
  set (σ1 := put (put σ x sv) o (set_payload this ob)).
  assert (∀ q, q ≠ CNext x → cellv σ1 q = cellv σ q) as HC1.
  { intros q Hq. unfold σ1. rewrite !put_cellv. rewrite (decide_False (P := q = CNext x)) by done.
    case_decide; [subst|done]. simpl. unfold cellv. by rewrite Ho. }
  assert (∀ y, y ≠ x → prevv σ1 y = prevv σ y) as HP1.
  { intros y Hq. unfold σ1. rewrite !put_prevv. rewrite (decide_False (P := y = x)) by done.
    case_decide; [subst|done]. simpl. unfold prevv. by rewrite Ho. }
  assert (∀ l L, dll σ (CHead l) L → x ∉ L → dll σ1 (CHead l) L) as Hd1.
  { intros l L HL HxL. eapply dll_frame; [| |exact HL].
    - intros q [->|(w&?&->)]; apply HC1; [done|set_solver].
    - intros w Hw. apply HP1. set_solver. }
  destruct (wr_prev_opt_spec σ1 (head L2) (Some (CNext x))) as (σ2&E2&W2).
  { intros y Hy. eapply dll_lookup; [apply Hd1; [exact Hd|done]|]. destruct L2; set_solver. }
  destruct (wr_cell_spec σ2 (lastc (CHead l1) L1) (Some x)) as (σ3&E3&W3).
  { rewrite (wrote_cell _ _ _ _ W2). apply Hd1 in Hd; [|done].
    apply dll_app in Hd as [_ Hd]. apply dll_cell in Hd. by rewrite Hd. }
  pose proof (wrote_trans _ _ _ _ _ _ _ W2 W3) as W.
  assert (wrote σ1 σ3 (one_cell (lastc (CHead l1) L1) (Some x))
            (opt_prev (head L2) (Some (CNext x)))) as W'.
  { destruct W as [WC WP WH WM]. split; [|done..].
    intros q. rewrite WC. unfold one_cell. by case_decide. }
  assert (length (d_scopeList σ3) = length (d_scopeList σ)) as Hlen.
  { apply wrote_length in W'. by rewrite W'. }
  assert (dll σ3 (CHead l1) (L1 ++ x :: L2)) as Hd3.
  { eapply dll_replace; [apply Hd1; [exact Hd|done]|done|set_solver|done| | |exact W'].
    - unfold σ1. rewrite !put_cellv. rewrite decide_False by congruence. rewrite decide_True by done.
      simpl. by rewrite Hnx.
    - unfold σ1. rewrite !put_prevv. rewrite decide_False by done. rewrite decide_True by done.
      simpl. by rewrite Hpv. }
  assert (∀ l L, l ≠ l1 → dll σ (CHead l) L → (∀ z, z ∈ x :: L1 ++ o :: L2 → z ∉ L) →
    dll σ3 (CHead l) L) as Hd3o.
  { intros l L Hne HL Hdj. eapply dll_wrote; [exact W'| | |apply Hd1; [exact HL|set_solver]].
    - intros q Hq. unfold one_cell. rewrite decide_False; [done|]. intros ->.
      destruct (lastc_in (CHead l1) L1) as [Heq|(w&?&Heq)], Hq as [Hq|(w'&?&Hq)];
        rewrite Heq in Hq; simplify_eq. set_solver.
    - intros z Hz. destruct L2 as [|v L2]; simpl; [done|]. unfold one_prev.
      rewrite decide_False; [done|]. set_solver. }
  assert (is_Some (heap σ3 !! o)) as [ob3 Hob3].
  { rewrite (wrote_dom _ _ _ _ _ W'). unfold σ1, put; simpl. rewrite lookup_insert_eq. eauto. }
  assert (payload ob3 = this) as Hpay.
  { pose proof (wrote_hist _ _ _ _ W' o) as E. unfold hist in E at 1. rewrite Hob3 in E. simpl in E.
    unfold σ1 in E. rewrite put_hist, decide_True in E by done. by simplify_eq. }
  set (σ5 := put σ3 o (set_restore (Some x) (set_scope (Some top) ob3))).
  rewrite NoDup_app, NoDup_cons in HN.
  destruct (addToChain_links σ5 top o Lt) as (σ6&E6&Hd6&W6).
  { simpl. rewrite Hlen. unfold top. lia. }
  { apply dll_put; [|set_solver|done]. apply Hd3o; [lia|done|set_solver]. }
  { done. }
  { set_solver. }
  { unfold σ5, put; simpl. rewrite lookup_insert_eq. eauto. }
  exists σ6. split_and!.
  - unfold update_writes. rewrite (wr_obj_put _ _ _ ob) by done. simpl. fold σ1.
    rewrite Hnx, E2. simpl. rewrite Hpv. simpl. rewrite E3. simpl. rewrite Hlen. fold top.
    rewrite (wr_obj_put _ _ _ ob3) by done. simpl. rewrite wr_obj_put_put. simpl. exact E6.
  - assert (l1 ≠ top) by lia. eapply addToChain_others; [exact W6| |congruence|done| |].
    + apply dll_put; [done| |done]. set_solver.
    + set_solver.
    + set_solver.
  - done.
  - intros l L Hne1 Hne2 HL Hdj. eapply addToChain_others; [exact W6| |congruence|done| |].
    + apply dll_put; [|set_solver|done]. apply Hd3o; [done|done|set_solver].
    + set_solver.
    + set_solver.
  - intros y. rewrite (wrote_hist _ _ _ _ W6). unfold σ5. rewrite put_hist. case_decide; simpl.
    { by rewrite Hpay. }
    rewrite (wrote_hist _ _ _ _ W'). unfold σ1. rewrite !put_hist. by rewrite decide_False.
  - rewrite (wrote_meta _ _ _ _ W6). change (meta σ5) with (meta σ3). by rewrite (wrote_meta _ _ _ _ W').
Qed.

(** The addresses that hold versions afterwards. *)
Lemma member_save ex σ regs nxt A chs ls o l1 ch (n : nat) x y l :
  Inv ex σ regs nxt A chs ls → chs !! o = Some ((o, l1) :: ch) → (∀ l, member chs x l → False) →
  member (<[o := (o, n) :: (x, l1) :: ch]> chs) y l ↔
  (y = o ∧ l = n) ∨ (y = x ∧ l = l1) ∨ (y ≠ o ∧ member chs y l).
Proof.
  intros HI Ho Hx. split.
  - intros (o'&ch'&Ho'&Hin). apply lookup_insert_Some in Ho' as [[<- <-]|[Hne Ho']].
    + apply elem_of_cons in Hin as [?|Hin]; [left; by simplify_eq|].
      apply elem_of_cons in Hin as [?|Hin]; [right; left; by simplify_eq|].
      right; right. split; [|exists o; eexists; split; [done|by right]]. intros ->.
      destruct (inv_chain_shape _ _ _ _ _ _ _ _ _ HI Ho) as (?&?&?&Hnm&HR). simplify_eq.
      eapply Hnm; [done|]. split; [by eapply HR|eauto].
    + right; right. split; [|by exists o', ch']. intros ->. apply Hne.
      eapply (inv_uniq _ _ _ _ _ _ _ HI o o'); [done|done|left|done].
  - intros [[-> ->]|[[-> ->]|[Hne (o'&ch'&Ho'&Hin)]]].
    + exists o; eexists; split; [by rewrite lookup_insert_eq|left].
    + exists o; eexists; split; [by rewrite lookup_insert_eq|right; left].
    + destruct (decide (o' = o)) as [->|].
      * simplify_eq. apply elem_of_cons in Hin as [?|Hin]; [by simplify_eq|].
        exists o; eexists; split; [by rewrite lookup_insert_eq|by right; right].
      * exists o', ch'. split; [by rewrite lookup_insert_ne|done].
Qed.

(** The newest version of an object that was not saved at the top level belongs
    to a lower level. *)
Lemma not_current ex σ regs nxt lv A chs ls o l1 ch :
  Inv ex σ regs nxt (lv :: A) chs ls → A ≠ [] → chs !! o = Some ((o, l1) :: ch) → o ∉ cur lv →
  ∃ t, snap lv !! o = Some t ∧ ver (hist σ) regs o A o t t ((o, l1) :: ch) ∧ l1 < length A.
Proof.
  intros HI HA Ho Hc. destruct (inv_chain _ _ _ _ _ _ _ HI _ _ Ho) as [t Hv].
  inversion Hv as [| ????????? |??????? Hsn Hv']; simplify_eq. exists t. split_and!; [done..|].
  eapply ver_elem; [done|left].
Qed.

Lemma concat_insert_snoc (xss : list (list loc)) i xs x :
  xss !! i = Some xs → concat (<[i := xs ++ [x]]> xss) ≡ₚ x :: concat xss.
Proof.
  revert i. induction xss as [|ys xss IH]; intros [|i] Hi; simplify_eq/=.
  - rewrite <- app_assoc. simpl. by rewrite <- Permutation_middle.
  - rewrite (IH i Hi). by rewrite <- Permutation_middle.
Qed.

Lemma update_inv σ regs nxt lv A chs ls o t R :
  Inv None σ regs nxt (lv :: A) chs ls → A ≠ [] → length (d_scopeList σ) = S (length A) →
  is_Some (chs !! o) → snap lv !! o = Some t → o ∉ cur lv → regs !! length A = Some R →
  ∃ ob σ' ls', heap σ !! o = Some ob ∧ is_Some (d_pScope ob) ∧ payload ob = t ∧
    update_writes (put σ nxt (set_payload (save t).2 ob)) o nxt ob (save t).1 = Some σ' ∧
    Inv None σ' (<[length A := R ++ [nxt]]> regs) (Pos.succ nxt)
      (mkLevel (<[o := (save t).1]> (snap lv)) ({[o]} ∪ cur lv) (garb lv) :: A)
      (<[o := (o, length A) :: (nxt, default 0 (snd <$> (chs !! o ≫= head))) ::
              default [] (tail <$> chs !! o)]> chs) ls' ∧
    length (d_scopeList σ') = S (length A).
Proof.
  intros HI HA Hlen [ch0 Ho] Hsn Hc HR.
  destruct (inv_chain_shape _ _ _ _ _ _ _ _ _ HI Ho) as (l1&ch&->&_&_). rewrite Ho. simpl.
  destruct (not_current _ _ _ _ _ _ _ _ _ _ _ HI HA Ho Hc) as (t0&?&Hv&Hl1). simplify_eq.
  pose proof (ver_head _ _ _ _ _ _ _ _ Hv) as (?&r&?&Heq&_&Hh&_&Hr). injection Heq as <- <-.
  pose proof (ver_wf _ _ _ _ _ _ _ _ Hv) as Hw.
  pose proof (hist_lookup _ _ _ _ _ Hh) as (ob&Hob&Hsc&Hobr&Hobp).
  assert (∀ l, member chs nxt l → False) as Hfm by (intros; by eapply member_fresh).
  assert (∀ l L', ls !! l = Some L' → nxt ∉ L') as HnL.
  { intros l L' Hl Hin. eapply Hfm. by eapply inv_in_list. }
  assert (heap σ !! nxt = None) as Hnone.
  { destruct (heap σ !! nxt) eqn:E; [|done]. exfalso.
    assert (nxt < nxt)%positive; [|lia]. eapply inv_heap_fresh; [done|]. by rewrite E. }
  assert (o ≠ nxt) as Hon by congruence.
  pose proof (inv_ls _ _ _ _ _ _ _ HI) as Hlls. simpl in Hlls.
  destruct (lookup_lt_is_Some_2 ls l1) as [L HL]; [lia|].
  destruct (lookup_lt_is_Some_2 ls (length A)) as [Lt HLt]; [lia|].
  assert (o ∈ L) as HoL by (eapply inv_mem; [done..|split; [done|exists o; eexists; split; [done|left]]]).
  apply list_elem_of_split in HoL as (L1&L2&->).
  pose proof (inv_nodup _ _ _ _ _ _ _ HI _ _ HL) as HN.
  assert (∀ z, z ∈ Lt → z ∉ L1 ++ o :: L2) as Hdt.
  { intros z ??. eapply (inv_lists_disjoint _ _ _ _ _ _ _ (length A) l1); [done..|lia|done|done]. }
  assert (pred (length (d_scopeList σ)) = length A) as Htop by lia.
  destruct (update_links σ o nxt ob (save t).1 (save t).2 L1 L2 l1 Lt)
    as (σ'&E&Hd1&Hdt'&Hdo&Hhist&Hmeta); rewrite ?Htop; [done|done|lia| |done|by eapply HnL| | |by eapply HnL|done|].
  { eapply inv_dll; [done..|lia]. }
  { eapply inv_dll; [done..|lia]. }
  { by eapply inv_nodup. }
  rewrite Htop in *.
  assert (length (d_scopeList σ') = S (length A)) as Hlen' by (by rewrite <- length_meta, Hmeta, length_meta).
  pose proof (λ y l, member_save _ _ _ _ _ _ _ _ _ _ (length A) nxt y l HI Ho Hfm) as Hmem.
  exists ob, σ', (<[length A := o :: Lt]> (<[l1 := L1 ++ nxt :: L2]> ls)).
  split_and!; [done|by rewrite Hsc|done|done| |done].
  assert (∀ R', R' ∈ regs → nxt ∉ R') as HnR.
  { intros R' ? Hin. assert (nxt < nxt)%positive; [by eapply inv_regs_fresh|lia]. }
  assert (∀ R', R' ∈ <[length A := R ++ [nxt]]> regs → R' = R ++ [nxt] ∨ R' ∈ regs) as HR'.
  { intros R' [i Hi]%list_elem_of_lookup. apply list_lookup_insert_Some in Hi as [(_&<-&_)|[_ ?]]; [by left|].
    right. by eapply list_elem_of_lookup_2. }
  assert (regs_le (length (lv :: A)) regs (<[length A := R ++ [nxt]]> regs)) as Hle.
  { intros i R' _ Hi. destruct (decide (i = length A)) as [->|].
    - exists (R ++ [nxt]). rewrite list_lookup_insert_eq by eauto using lookup_lt_Some. set_solver.
    - exists R'. by rewrite list_lookup_insert_ne. }
  assert (∀ o' ch' y l, o' ≠ o → chs !! o' = Some ch' → (y, l) ∈ ch' → hist σ' y = hist σ y) as Hho.
  { intros o' ch' y l Hne Ho' Hin. rewrite Hhist, !decide_False; [done| |].
    - intros ->. eapply Hfm. by exists o', ch'.
    - intros ->. apply Hne. eapply (inv_uniq _ _ _ _ _ _ _ HI o' o); [done..|left]. }
  split; rewrite ?length_insert; try apply HI.
  - intros o' ch' Ho'. apply lookup_insert_Some in Ho' as [[<- <-]|[Hne Ho']].
    + exists (save t).1. eapply ver_saved; simpl.
      * set_solver.
      * by rewrite lookup_insert_eq.
      * by apply wf_save.
      * by rewrite Hhist, decide_True.
      * rewrite list_lookup_insert_eq; [done|by eauto using lookup_lt_Some].
      * set_solver.
      * apply (ver_frame (hist σ') _ regs _ o A A);
          [|done|intros i R0 ?; apply Hle; simpl; lia|apply same_at_refl].
        eapply ver_move; [done|done| |].
        -- rewrite Hhist, decide_False, decide_True by done. by rewrite Hsc, Hobr.
        -- intros y l Hin. rewrite Hhist, !decide_False; [done| |].
           ++ intros ->. eapply Hfm. exists o; eexists; split; [done|by right].
           ++ intros ->. destruct (inv_chain_shape _ _ _ _ _ _ _ _ _ HI Ho) as (?&?&?&Hnm&HRR).
              simplify_eq. eapply Hnm; [done|]. split; [by eapply HRR|eauto].
      * done.
    + destruct (inv_chain _ _ _ _ _ _ _ HI _ _ Ho') as [t' Hv']. exists t'.
      eapply ver_frame; [done|intros y l Hin; by eapply Hho|done|].
      constructor; [|apply same_at_refl]. split; simpl; [by rewrite lookup_insert_ne|set_solver].
  - intros lv' o' Hin Hs. destruct (decide (o' = o)) as [->|]; [by rewrite lookup_insert_eq|].
    rewrite lookup_insert_ne by done. apply elem_of_cons in Hin as [->|?]; simpl in *.
    + rewrite lookup_insert_ne in Hs by done. eapply inv_dom; [done|left|done].
    + eapply inv_dom; [done|by right|done].
  - intros lv' o' Hin Hs. destruct (decide (o' = o)) as [->|]; [by rewrite lookup_insert_eq|].
    rewrite lookup_insert_ne by done. apply elem_of_cons in Hin as [->|?]; simpl in *.
    + eapply inv_cur; [done|left|set_solver].
    + eapply inv_cur; [done|by right|done].
  - assert (∀ o1 ch1 z l, <[o := (o, length A) :: (nxt, l1) :: ch]> chs !! o1 = Some ch1 → (z, l) ∈ ch1 →
      (z = nxt ∧ o1 = o) ∨ (z ≠ nxt ∧ ∃ ch0 l', chs !! o1 = Some ch0 ∧ (z, l') ∈ ch0)) as Hold.
    { intros o1 ch1 z l H1 Hin. destruct (decide (z = nxt)) as [->|Hz]; [left; split; [done|]|right; split; [done|]].
      - apply lookup_insert_Some in H1 as [[<- <-]|[_ H1]]; [done|]. exfalso. eapply Hfm. by exists o1, ch1.
      - apply lookup_insert_Some in H1 as [[<- <-]|[_ H1]]; [|eauto].
        apply elem_of_cons in Hin as [?|Hin]; simplify_eq; [eexists _, _; split; [done|left]|].
        apply elem_of_cons in Hin as [?|Hin]; simplify_eq. eexists _, _; split; [done|by right]. }
    intros o1 o2 ch1 ch2 z l l' H1 H2 Hin1 Hin2.
    destruct (Hold _ _ _ _ H1 Hin1) as [[-> ->]|(?&?&?&?&?)], (Hold _ _ _ _ H2 Hin2) as [[? ->]|(?&?&?&?&?)];
      [done|done|done|]. by eapply (inv_uniq _ _ _ _ _ _ _ HI o1 o2).
  - intros l L' Hl. apply list_lookup_insert_Some in Hl as [(<-&<-&_)|[_ Hl]].
    { constructor; [|by eapply inv_nodup]. set_solver. }
    apply list_lookup_insert_Some in Hl as [(<-&<-&_)|[_ Hl]]; [|by eapply inv_nodup].
    apply HnL in HL. rewrite !NoDup_app, !NoDup_cons in *. set_solver.
  - intros l L' z Hl. rewrite Hmem. apply list_lookup_insert_Some in Hl as [(<-&<-&_)|[Hne1 Hl]].
    { rewrite elem_of_cons, (inv_mem _ _ _ _ _ _ _ HI _ _ z HLt). split.
      - intros [->|[_ Hm]]; [by auto|]. split; [done|]. destruct (decide (z = o)) as [->|]; auto.
      - intros [_ [[-> _]|[[_ ?]|[? ?]]]]; [by left|lia|by right]. }
    apply list_lookup_insert_Some in Hl as [(<-&<-&_)|[Hne2 Hl]].
    { pose proof (inv_mem _ _ _ _ _ _ _ HI _ _ z HL) as Hz.
      rewrite NoDup_app, NoDup_cons in HN. destruct HN as (_&HN1&HN2&_).
      rewrite !elem_of_app, !elem_of_cons in *. split.
      - intros Hin. split; [done|]. destruct Hin as [Hin|[->|Hin]]; [|by auto|].
        + right; right. split; [intros ->; apply (HN1 _ Hin); left|]. apply Hz. auto.
        + right; right. split; [by intros ->|]. apply Hz. auto.
      - intros [_ [[_ ?]|[[-> _]|[? ?]]]]; [lia|by auto|].
        destruct Hz as [_ [?|[?|?]]]; [done|auto|done|auto]. }
    rewrite (inv_mem _ _ _ _ _ _ _ HI _ _ z Hl). split.
    + intros [_ Hm]. split; [done|]. right; right. split; [|done]. intros ->. apply Hne2.
      eapply inv_member_fun; [done|exists o; eexists; split; [done|left]|done].
    + intros [_ [[_ ?]|[[_ ?]|[? ?]]]]; [lia|lia|done].
  - intros l L' Hl Hlt. apply list_lookup_insert_Some in Hl as [(<-&<-&_)|[Hne1 Hl]]; [done|].
    apply list_lookup_insert_Some in Hl as [(<-&<-&_)|[Hne2 Hl]]; [done|].
    apply Hdo; [done|done|eapply inv_dll; [done..|lia]|].
    intros z Hz HzL. apply elem_of_cons in Hz as [->|Hz]; [by eapply HnL|].
    apply elem_of_app in Hz as [Hz|Hz].
    + by eapply (inv_lists_disjoint _ _ _ _ _ _ _ (length A) l).
    + by eapply (inv_lists_disjoint _ _ _ _ _ _ _ l1 l).
  - intros o' ch' R' Ho' [->|HRi]%HR'.
    + assert (is_Some (chs !! o')) as Hs.
      { apply lookup_insert_Some in Ho' as [[<- _]|[_ ?]]; eauto. }
      destruct Hs as [? Hs]. rewrite elem_of_app, list_elem_of_singleton. intros [?| ->].
      * eapply inv_main; [done..|by eapply list_elem_of_lookup_2|done].
      * destruct (chs_heap _ _ _ _ _ _ nxt HI); [eauto|lia].
    + apply lookup_insert_Some in Ho' as [[<- _]|[_ ?]]; by eapply inv_main.
  - rewrite concat_insert_snoc by done. constructor; [|apply HI].
    rewrite list_elem_of_In, in_concat. intros (R'&Hin1&Hin2).
    rewrite <- list_elem_of_In in Hin1. apply (HnR _ Hin1). by rewrite list_elem_of_In.
  - intros R' y [->|HRi]%HR' Hy.
    + apply elem_of_app in Hy as [Hy| ->%list_elem_of_singleton]; [|lia].
      assert (y < nxt)%positive; [|lia]. eapply inv_regs_fresh; [done|by eapply list_elem_of_lookup_2|done].
    + assert (y < nxt)%positive; [|lia]. by eapply inv_regs_fresh.
  - intros y. rewrite <- hist_Some, Hhist. intros Hy. destruct (decide (y = nxt)) as [->|]; [lia|].
    assert (y < nxt)%positive; [|lia]. eapply inv_heap_fresh; [done|].
    case_decide; [subst; rewrite Hob; eauto|]. by rewrite <- hist_Some.
  - intros l g Hg Hlt. rewrite Hmeta. eapply inv_meta; [done|done|lia].
Qed.

End update.
