(* ===== verification/ContextRep.v ===== *)
(** What a client of a context may rely on: the refinement theorems, and the
    contract "[pop] restores the state saved by the matching [push]". *)
From stdpp Require Import base option list gmap fin_maps numbers relations sorting.
From S2P Require Import Prelude Context ContextLinks ContextInv ContextRefine ContextSpec.

Section rep.
Context {T : Type} `{!ContextData T, !ContextLaws T}.
Implicit Types (σ : Store T) (A : list (Level T)) (lv : Level T) (x y o s : loc)
  (chs : gmap loc (list (loc * nat))) (c : Context T) (t : T).

(** Objects waiting for collection are alive and wait only once. *)
Definition garbage_ok chs A : Prop :=
  NoDup (concat (garb <$> A)) ∧ ∀ o, o ∈ concat (garb <$> A) → is_Some (chs !! o).

(** [Rep c A]: the context [c] represents the stack of snapshots [A]. *)
Definition Rep c A : Prop := ∃ chs ls,
  Inv None (store c) (d_allocations c) (nextAddr c) A chs ls ∧
  length (d_scopeList (store c)) = length A ∧ A ≠ [] ∧ garbage_ok chs A.

Lemma Rep_getLevel c A : Rep c A → getLevel c = a_level A.
Proof. intros (chs&ls&_&Hlen&_). unfold getLevel, a_level. by rewrite Hlen. Qed.

Lemma Inv_get σ regs nxt lv A chs ls o :
  Inv None σ regs nxt (lv :: A) chs ls → is_Some (chs !! o) →
  ∃ t, snap lv !! o = Some t ∧ payload <$> heap σ !! o = Some t.
Proof.
  intros HI [ch Ho]. destruct (inv_chain _ _ _ _ _ _ _ HI _ _ Ho) as [t Hv]. exists t.
  pose proof (ver_get _ _ _ _ _ _ _ _ Hv) as Hg. split; [exact Hg|].
  pose proof (ver_head _ _ _ _ _ _ _ _ Hv) as (?&?&?&?&_&Hh&_&_).
  apply hist_lookup in Hh as (ob&Hob&_&_&Hp). by rewrite Hob, <- Hp.
Qed.

Lemma chs_snap σ regs nxt lv A chs ls o :
  Inv None σ regs nxt (lv :: A) chs ls → is_Some (snap lv !! o) ↔ is_Some (chs !! o).
Proof.
  intros HI. split; [intros; eapply inv_dom; [done|left|done]|].
  intros Hs. destruct (Inv_get _ _ _ _ _ _ _ _ HI Hs) as (t&Hsn&_). rewrite Hsn. eauto.
Qed.

Lemma Rep_getObj c A o t : Rep c A → a_get o A = Some t → getObj c o = Some t.
Proof.
  intros (chs&ls&HI&_&HA&_) Hg. destruct A as [|lv A]; [done|]. simpl in Hg.
  destruct (Inv_get _ _ _ _ _ _ _ o HI) as (t'&Hs&Hp).
  { eapply chs_snap; [done|]. unfold a_get in Hg; simpl in Hg. rewrite Hg. eauto. }
  unfold a_get in Hg; simpl in Hg. unfold getObj. congruence.
Qed.

Lemma Rep_newContext : Rep newContext a_new.
Proof.
  exists ∅, [[]]. split_and!; [|done..|split; simpl; [constructor|set_solver]].
  split; simpl; try done.
  - intros lv o ->%list_elem_of_singleton. simpl. rewrite lookup_empty. by intros [].
  - intros lv o ->%list_elem_of_singleton. simpl. set_solver.
  - intros [|l] L; simpl; [|done]. intros [= <-]. constructor.
  - intros [|l] L x; simpl; [|done]. intros [= <-]. split; [set_solver|].
    intros [_ (?&?&Hm&_)]. by rewrite lookup_empty in Hm.
  - intros [|l] L; simpl; [|done]. by intros [= <-] _.
  - constructor.
  - intros R x ->%list_elem_of_singleton ?%not_elem_of_nil. done.
  - intros x [? Hx]. done.
  - intros [|l] g; simpl; [|done]. by intros [= <-] _.
Qed.

Lemma reverse_lookup_last {B} (a : B) (l : list B) : reverse (a :: l) !! length l = Some a.
Proof.
  rewrite reverse_cons, lookup_app_r by (by rewrite length_reverse).
  by rewrite length_reverse, Nat.sub_diag.
Qed.

Lemma Rep_push c A : Rep c A → Rep (push c) (a_push A).
Proof.
  intros (chs&ls&HI&Hlen&HA&Hg). destruct A as [|lv A]; [done|].
  pose proof (inv_ls _ _ _ _ _ _ _ HI) as Hls. pose proof (inv_regs _ _ _ _ _ _ _ HI) as Hregs.
  exists chs, (ls ++ [[]]). split_and!; [| |done|done].
  2: { simpl in *. rewrite length_app. simpl. lia. }
  set (σ := store c) in *. set (sc := mkScope (getLevel c + 1) None []).
  change (store (push c)) with (mkStore (d_scopeList σ ++ [sc]) (heap σ)).
  assert (∀ l, l < length (lv :: A) → (d_scopeList σ ++ [sc]) !! l = d_scopeList σ !! l) as Hsl.
  { intros l ?. apply lookup_app_l. lia. }
  assert (length (d_scopeList σ ++ [sc]) = S (length (lv :: A))) as Hlen' by (rewrite length_app; simpl in *; lia).
  assert (∀ i L, (ls ++ [[]]) !! i = Some L →
    (i = length (lv :: A) ∧ L = []) ∨ (i < length (lv :: A) ∧ ls !! i = Some L)) as Hlk.
  { intros i L Hi. apply lookup_app_Some in Hi as [Hi|[Hle Hi]].
    - right. split; [|done]. apply lookup_lt_Some in Hi. lia.
    - left. apply list_lookup_singleton_Some in Hi as [? <-]. split; [lia|done]. }
  split; cbn [store d_allocations nextAddr push with_store cmm_push a_push d_scopeList heap];
    rewrite ?length_app, ?Hlen'; simpl; try apply HI; try (simpl in *; lia).
  - intros o ch Ho. destruct (inv_chain _ _ _ _ _ _ _ HI _ _ Ho) as [t Hv]. exists t.
    apply ver_same; [set_solver|by apply ver_get in Hv|].
    eapply ver_frame; [done|done| |apply same_at_refl].
    intros i R Hi HR. exists R. split; [|done]. rewrite lookup_app_l; [done|].
    by eapply lookup_lt_Some.
  - intros lv' o [->|?]%elem_of_cons; simpl; [eapply inv_dom; [done|left]|by eapply inv_dom].
  - intros lv' o [->|?]%elem_of_cons; simpl; [set_solver|by eapply inv_cur].
  - intros l L [[_ ->]|[_ ?]]%Hlk; [constructor|by eapply inv_nodup].
  - intros l L x [[-> ->]|[_ ?]]%Hlk; [|by eapply inv_mem].
    split; [set_solver|]. intros [_ Hm]. exfalso.
    destruct (inv_member_hist _ _ _ _ _ _ _ _ _ HI Hm). lia.
  - intros l L [[-> ->]|[Hlt Hl]]%Hlk Hlt'.
    + cbn [dll]. unfold cellv. cbn [d_scopeList]. rewrite lookup_app_r by lia.
      by rewrite Hlen, Nat.sub_diag.
    + eapply dll_frame; [| |eapply inv_dll; [done|done|]].
      * intros q [->|(w&?&->)]; [|done]. unfold cellv. cbn [d_scopeList]. by rewrite Hsl.
      * done.
      * fold σ. lia.
  - intros o ch R Ho [?| ->%list_elem_of_singleton]%elem_of_app; [by eapply inv_main|].
    apply not_elem_of_nil.
  - rewrite concat_app. simpl. rewrite app_nil_r. apply HI.
  - intros R x [?| ->%list_elem_of_singleton]%elem_of_app; [by eapply inv_regs_fresh|].
    by intros ?%not_elem_of_nil.
  - intros l g. rewrite reverse_cons.
    intros [Hl|[Hle Hl]]%lookup_app_Some Hlt; unfold meta; cbn [d_scopeList]; rewrite list_lookup_fmap.
    + assert (l < length (lv :: A)) as Hl'.
      { apply lookup_lt_Some in Hl. rewrite length_reverse in Hl. simpl in *. rewrite length_fmap in Hl. lia. }
      rewrite Hsl by done. rewrite <- list_lookup_fmap. eapply inv_meta; [done|done|fold σ; lia].
    + apply list_lookup_singleton_Some in Hl as [Hl <-]. rewrite length_reverse in *. simpl in *.
      rewrite length_fmap in *. rewrite lookup_app_r by lia.
      replace (l - length (d_scopeList σ)) with 0 by lia. simpl. unfold getLevel. fold σ. do 2 f_equal. lia.
Qed.

(** ** Pop *)

Lemma garb_foldl_delete os A : garb <$> foldl (λ A o, a_delete o A) A os = garb <$> A.
Proof. revert A. induction os as [|o os IH]; intros A; simpl; [done|]. by rewrite IH, garb_delete. Qed.

Lemma length_foldl_delete os A : length (foldl (λ A o, a_delete o A) A os) = length A.
Proof. revert A. induction os as [|o os IH]; intros A; simpl; [done|]. by rewrite IH, length_a_delete. Qed.

Lemma lookup_foldl_delete chs os o :
  foldl (λ m o, delete o m) chs os !! o = if decide (o ∈ os) then None else chs !! o.
Proof.
  revert chs. induction os as [|o' os IH]; intros chs; simpl; [done|]. rewrite IH.
  destruct (decide (o = o')) as [->|].
  - rewrite lookup_delete_eq. rewrite (decide_True (P := o' ∈ o' :: os)) by left. by case_decide.
  - rewrite lookup_delete_ne by done.
    destruct (decide (o ∈ os)); [rewrite decide_True by (by right)|rewrite decide_False by set_solver]; done.
Qed.

Lemma garbage_ok_delete chs A gs :
  NoDup (gs ++ concat (garb <$> A)) → (∀ o, o ∈ concat (garb <$> A) → is_Some (chs !! o)) →
  garbage_ok (foldl (λ m o, delete o m) chs gs) (foldl (λ A o, a_delete o A) A gs).
Proof.
  intros (_&Hdj&HN)%NoDup_app Hg. split; rewrite garb_foldl_delete; [done|].
  intros o Ho. rewrite lookup_foldl_delete, decide_False; [by apply Hg|]. intros ?. by eapply Hdj.
Qed.

(** The scope at the top of [d_scopeList]. *)
Lemma top_scope σ regs nxt lv A chs ls :
  Inv None σ regs nxt (lv :: A) chs ls → length (d_scopeList σ) = S (length A) →
  ∃ sc L, last (d_scopeList σ) = Some sc ∧ d_garbage sc = garb lv ∧
    ls !! length A = Some L ∧ d_pContextObjList sc = head L ∧ sll σ (head L) L ∧
    length L ≤ size (heap σ).
Proof.
  intros HI Hlen.
  destruct (lookup_lt_is_Some_2 ls (length A)) as [L HL].
  { rewrite (inv_ls _ _ _ _ _ _ _ HI). simpl; lia. }
  destruct (lookup_lt_is_Some_2 (d_scopeList σ) (length A)) as [sc Hsc]; [lia|].
  pose proof (inv_dll _ _ _ _ _ _ _ HI _ _ HL ltac:(lia)) as Hd.
  exists sc, L. split_and!; [| |done| |by eapply dll_sll|].
  - rewrite last_lookup, Hlen. done.
  - assert (meta σ !! length A = Some (length A, garb lv)) as Hm.
    { eapply inv_meta; [done| |lia]. rewrite fmap_cons. rewrite <- (length_fmap garb A).
      apply reverse_lookup_last. }
    unfold meta in Hm. rewrite list_lookup_fmap, Hsc in Hm. by simplify_eq/=.
  - apply dll_cell in Hd. unfold cellv in Hd. rewrite Hsc in Hd. by simplify_eq/=.
  - apply nodup_le_heap; [by eapply inv_nodup|]. intros x Hx. by eapply dll_lookup.
Qed.

(** What [pop] does to the store, up to the release of the memory region. *)
Lemma pop_store σ regs nxt lv A chs ls sc :
  Inv None σ regs nxt (lv :: A) chs ls → A ≠ [] → length (d_scopeList σ) = S (length A) →
  garbage_ok chs (lv :: A) → last (d_scopeList σ) = Some sc →
  ∃ σ2 σ3 R chs' ls',
    restoreList (S (size (heap σ))) (mkStore (removelast (d_scopeList σ)) (heap σ)) (d_pContextObjList sc) = Some σ2 ∧
    collectGarbage σ2 (d_garbage sc) = Some σ3 ∧
    regs = removelast regs ++ [R] ∧
    Inv None (mkStore (d_scopeList σ3) (free_all (heap σ3) R)) (removelast regs) nxt (a_pop (lv :: A)) chs' ls' ∧
    length (d_scopeList σ3) = length A ∧ garbage_ok chs' (a_pop (lv :: A)).
Proof.
  intros HI HA Hlen [HgN Hg] Hlast.
  destruct (top_scope _ _ _ _ _ _ _ HI Hlen) as (sc'&L&Hl'&Hgsc&HL&Hhd&Hsll&HfuelL). simplify_eq.
  rewrite fmap_cons in *. simpl in HgN, Hg.
  destruct (restoreList_inv L (S (size (heap σ))) _ _ _ _ _ _ _ (head L)
    ltac:(lia) (Inv_drop_scope _ _ _ _ _ _ HI) HA) as (σ2&lv'&chs'&ls'&E2&HI2&HL2&Hg2&Hch&Hlen2&Hd2).
  { simpl. destruct (d_scopeList σ) as [|? ? _] using rev_ind; [done|].
    rewrite removelast_last. rewrite length_app in Hlen. simpl in Hlen. lia. }
  { done. }
  { eapply sll_frame; [|exact Hsll]. done. }
  destruct (Inv_strip _ _ _ _ _ _ _ HI2 HA HL2 Hlen2) as (R&Hregs&HI3&HRm).
  assert (removelast regs = take (length A) regs) as Hrl by (rewrite Hregs at 1; by rewrite removelast_last).
  destruct (collectGarbage_inv (garb lv) _ _ _ _ _ _ HI3) as (σ3&ls3&E3&HI4&Hlen3).
  { by apply NoDup_app in HgN as [? _]. }
  { intros o Ho. apply Hch, Hg. set_solver. }
  { done. }
  exists σ2, σ3, R, (foldl (λ m o, delete o m) chs' (garb lv)), ls3.
  rewrite Hhd, Hgsc, Hrl. split_and!; [done|done|done| |done|].
  - apply Inv_free; [done|]. intros x l Hx (o&ch&Ho&Hin). eapply HRm; [done|].
    rewrite lookup_foldl_delete in Ho. case_decide; [done|]. by exists o, ch.
  - apply garbage_ok_delete; [done|]. intros o Ho. apply Hch, Hg. set_solver.
Qed.

Lemma Rep_pop c lv A :
  Rep c (lv :: A) → A ≠ [] → ∃ c', pop c = Some c' ∧ Rep c' (a_pop (lv :: A)) ∧
    notified c' = rev (map (λ n, (n, pred (length A))) (d_pCNOpost c)) ++
                  rev (map (λ n, (n, length A)) (d_pCNOpre c)) ++ notified c.
Proof.
  intros (chs&ls&HI&Hlen&_&Hg) HA. simpl in Hlen.
  destruct (top_scope _ _ _ _ _ _ _ HI Hlen) as (sc&_&Hlast&_).
  destruct (pop_store _ _ _ _ _ _ _ _ HI HA Hlen Hg Hlast) as
    (σ2&σ3&R&chs'&ls'&E2&E3&Hregs&HI'&Hlen'&Hg').
  assert (length A ≠ 0) by (by destruct A).
  eexists. split_and!.
  - unfold pop. rewrite bool_decide_true by (unfold getLevel; lia). cbn [assert mbind option_bind].
    cbn [notifyAll store d_scopeList heap]. rewrite Hlast. cbn [mbind option_bind].
    rewrite E2. cbn [mbind option_bind]. rewrite E3. cbn [mbind option_bind].
    unfold cmm_pop, with_store. cbn [d_allocations notifyAll]. rewrite Hregs at 1. rewrite last_snoc.
    cbn [mbind option_bind]. done.
  - exists chs', ls'. split_and!; [exact HI'| | |done].
    + cbn [store notifyAll d_scopeList]. rewrite Hlen'. simpl. by rewrite length_foldl_delete.
    + simpl. intros E. apply (f_equal length) in E. by rewrite length_foldl_delete in E.
  - unfold notifyAll, getLevel. cbn [notified store d_scopeList d_pCNOpost d_pCNOpre].
    rewrite Hlen', Hlen. done.
Qed.

(** ** Creation, modification, deletion *)

Lemma garb_create o t A : garb <$> a_create o t A = garb <$> A.
Proof. unfold a_create. rewrite <- list_fmap_compose. by apply list_fmap_ext. Qed.

Lemma Rep_newContextObj c A t :
  Rep c A → wf t → ∃ o c', newContextObj c t = Some (o, c') ∧ a_get o A = None ∧
    Rep c' (a_create o t A).
Proof.
  intros (chs&ls&HI&Hlen&HA&HgN&Hg) Hw.
  destruct (newContextObj_inv _ _ _ _ _ _ _ HI HA Hlen Hw) as (σ'&ls'&E&HI'&Hlen').
  eexists _, _. split_and!.
  - unfold newContextObj. unfold put in E. rewrite E. simpl. done.
  - destruct A as [|lv A]; [done|]. unfold a_get; simpl. destruct (snap lv !! nextAddr c) eqn:Es; [|done].
    destruct (chs_heap _ _ _ _ _ _ (nextAddr c) HI) as [? _]; [|lia].
    eapply chs_snap; [done|]. by rewrite Es.
  - exists (<[nextAddr c := [(nextAddr c, 0)]]> chs), ls'. split_and!; [exact HI'| | |].
    + cbn [store]. unfold a_create. by rewrite length_fmap.
    + by destruct A.
    + split; rewrite garb_create; [done|]. intros o Ho.
      destruct (decide (o = nextAddr c)) as [->|]; [by rewrite lookup_insert_eq|].
      rewrite lookup_insert_ne by done. by apply Hg.
Qed.

Lemma update_unfold c o ob t R l :
  heap (store c) !! o = Some ob → d_pScope ob = Some l → payload ob = t →
  last (d_allocations c) = Some R →
  update c o = σ' ← update_writes (put (store c) (nextAddr c) (set_payload (save t).2 ob)) o (nextAddr c) ob (save t).1;
    Some (mkContext σ' (<[pred (length (d_allocations c)) := R ++ [nextAddr c]]> (d_allocations c))
            (Pos.succ (nextAddr c)) (d_pCNOpre c) (d_pCNOpost c) (notified c)).
Proof.
  intros Hob Hsc Hp HR. unfold update. rewrite Hob. cbn [mbind option_bind]. rewrite Hsc.
  cbn [mbind option_bind]. rewrite Hp. destruct (save t) as [this saved].
  unfold cmm_newData. rewrite HR. cbn [mbind option_bind fst snd store]. fold (put (store c) (nextAddr c) (set_payload saved ob)).
  unfold update_writes. destruct (wr_obj _ _ _); [|done]. cbn [mbind option_bind].
  destruct (wr_prev_opt _ _ _); [|done]. cbn [mbind option_bind].
  destruct (d_ppContextObjPrev ob); [|done]. cbn [mbind option_bind].
  destruct (wr_cell _ _ _); [|done]. cbn [mbind option_bind].
  destruct (wr_obj _ _ _); [|done]. cbn [mbind option_bind].
  destruct (wr_obj _ _ _); [|done]. cbn [mbind option_bind].
  destruct (addToChain _ _ _); done.
Qed.

(** The current version of an object is at the level of the first snapshot that
    saved it. *)
Lemma current_level σ regs nxt lv A chs ls o :
  Inv None σ regs nxt (lv :: A) chs ls → is_Some (chs !! o) →
  ∃ ob l, heap σ !! o = Some ob ∧ d_pScope ob = Some l ∧ (l = length A ↔ (A = [] ∨ o ∈ cur lv)) ∧
    snap lv !! o = Some (payload ob).
Proof.
  intros HI [ch Ho]. destruct (inv_chain _ _ _ _ _ _ _ HI _ _ Ho) as [t Hv].
  pose proof (ver_head _ _ _ _ _ _ _ _ Hv) as (l&?&ch'&->&_&Hh&_&_).
  apply hist_lookup in Hh as (ob&Hob&Hsc&_&Hp). exists ob, l.
  pose proof (ver_get _ _ _ _ _ _ _ _ Hv) as Hg. split_and!; [done|done| |by rewrite Hp].
  inversion Hv as [| ????????? |??????? ? Hv']; simplify_eq; [by split; auto..|].
  destruct (ver_elem _ _ _ _ _ _ _ _ o l Hv') as [? _]; [left|].
  split; [lia|]. intros [->|?]; [by inversion Hv'|done].
Qed.

Lemma Rep_makeCurrent c A o t :
  Rep c A → a_get o A = Some t → ∃ c', makeCurrent c o = Some c' ∧ Rep c' (a_makeCurrent o A) ∧
    (∀ lv A', a_makeCurrent o A = lv :: A' → A' = [] ∨ o ∈ cur lv).
Proof.
  intros (chs&ls&HI&Hlen&HA&HgN&Hg) Hget. destruct A as [|lv A]; [done|]. unfold a_get in Hget; simpl in Hget.
  assert (is_Some (chs !! o)) as Ho by (eapply chs_snap; [done|]; rewrite Hget; eauto).
  destruct (current_level _ _ _ _ _ _ _ o HI Ho) as (ob&l&Hob&Hsc&Hl&Hp).
  unfold makeCurrent. rewrite Hob. cbn [mbind option_bind]. rewrite Hsc. cbn [mbind option_bind].
  unfold getLevel. rewrite Hlen. cbn [length pred].
  destruct (decide (l = length A)) as [Hcur|Hcur].
  - exists c. apply Hl in Hcur. assert (a_makeCurrent o (lv :: A) = lv :: A) as ->.
    { simpl. destruct A; [done|]. destruct Hcur; [done|]. by rewrite decide_True. }
    split_and!; [done|by exists chs, ls|]. intros ?? [= <- <-]. done.
  - assert (A ≠ []) as HAn by naive_solver. assert (o ∉ cur lv) as Hoc by naive_solver.
    destruct (lookup_lt_is_Some_2 (d_allocations c) (length A)) as [R HR].
    { rewrite (inv_regs _ _ _ _ _ _ _ HI). simpl; lia. }
    destruct (update_inv _ _ _ _ _ _ _ _ _ _ HI HAn Hlen Ho Hget Hoc HR) as
      (ob1&σ'&ls'&Hob1&_&Hp'&E&HI'&Hlen'). rewrite Hob in Hob1; injection Hob1 as <-. subst t.
    rewrite (update_unfold _ _ ob (payload ob) R l); [|done|done|done|].
    2: { rewrite last_lookup, (inv_regs _ _ _ _ _ _ _ HI). done. }
    rewrite E. cbn [mbind option_bind]. eexists. split; [done|].
    assert (a_makeCurrent o (lv :: A) =
      mkLevel (<[o := (save (payload ob)).1]> (snap lv)) ({[o]} ∪ cur lv) (garb lv) :: A) as ->.
    { simpl. destruct A; [done|]. rewrite decide_False by done. by rewrite Hget. }
    split.
    + eexists _, ls'. split_and!; [|done|done|].
      * cbn [store d_allocations nextAddr]. rewrite (inv_regs _ _ _ _ _ _ _ HI). exact HI'.
      * split; [done|]. intros o' Ho'. destruct (decide (o' = o)) as [->|]; [by rewrite lookup_insert_eq|].
        rewrite lookup_insert_ne by done. by apply Hg.
    + intros ?? [= <- <-]. right. simpl. set_solver.
Qed.

Lemma Inv_set σ regs nxt lv A chs ls o ob t t' :
  Inv None σ regs nxt (lv :: A) chs ls → is_Some (chs !! o) → heap σ !! o = Some ob →
  A = [] ∨ o ∈ cur lv → snap lv !! o = Some t → mods t t' →
  Inv None (put σ o (set_payload t' ob)) regs nxt
    (mkLevel (<[o := t']> (snap lv)) (cur lv) (garb lv) :: A) chs ls.
Proof.
  intros HI Hso Hob Hcur Hsn Hm. set (σ' := put _ _ _).
  assert (∀ y, y ≠ o → hist σ' y = hist σ y) as Hh.
  { intros y ?. unfold σ'. by rewrite put_hist, decide_False. }
  assert (∀ q, cellv σ' q = cellv σ q) as HC.
  { intros q. unfold σ'. rewrite put_cellv. case_decide; [subst|done]. unfold cellv. by rewrite Hob. }
  assert (∀ y, prevv σ' y = prevv σ y) as HP.
  { intros q. unfold σ'. rewrite put_prevv. case_decide; [subst|done]. unfold prevv. by rewrite Hob. }
  split; try apply HI.
  - intros o' ch Ho. destruct (inv_chain _ _ _ _ _ _ _ HI _ _ Ho) as [t0 Hv].
    destruct (decide (o' = o)) as [->|Hne].
    + assert (∀ sc r p, hist σ o = Some (sc, r, p) → hist σ' o = Some (sc, r, t')) as Hho.
      { intros sc r p Hho. unfold σ'. rewrite put_hist, decide_True by done.
        unfold hist in Hho. rewrite Hob in Hho. by simplify_eq/=. }
      exists t'. pose proof (ver_wf _ _ _ _ _ _ _ _ Hv) as Hw.
      destruct (inv_chain_shape _ _ _ _ _ _ _ _ _ HI Ho) as (l&ch'&->&Hnm&Htl).
      inversion Hv as [| ?????? t1 R ? Hc ? ? Hhx ? ? Hv' |?????? Hc ? Hv']; simplify_eq.
      * constructor; simpl; [by rewrite lookup_insert_eq|by eapply wf_mods|by eapply Hho].
      * eapply ver_saved; simpl; [done|by rewrite lookup_insert_eq|by eapply wf_mods|by eapply Hho|done|done| |].
        -- eapply ver_frame; [exact Hv'| |apply regs_le_refl|apply same_at_refl].
           intros y l Hin. apply Hh. intros ->. eapply Hnm; [done|]. split; [by eapply Htl|done].
        -- by eapply rtc_r.
      * destruct Hcur as [->|?]; [by inversion Hv'|done].
    + exists t0. eapply ver_frame; [done| |apply regs_le_refl|].
      * intros y l Hin. apply Hh. intros ->. destruct Hso as [ch0 Hch0].
        apply Hne. destruct (inv_chain_shape _ _ _ _ _ _ _ _ _ HI Hch0) as (?&?&->&_).
        eapply (inv_uniq _ _ _ _ _ _ _ HI o' o); [done..|left].
      * constructor; [|apply same_at_refl]. split; simpl; [by rewrite lookup_insert_ne|done].
  - intros lv' o' [->|?]%elem_of_cons; simpl.
    + destruct (decide (o' = o)) as [->|]; [done|]. rewrite lookup_insert_ne by done.
      eapply inv_dom; [done|left].
    + eapply inv_dom; [done|by right].
  - intros lv' o' [->|?]%elem_of_cons; simpl; (eapply inv_cur; [done|]); [left|by right].
  - intros l L Hl Hlt. eapply dll_frame; [| |by eapply inv_dll]; done.
  - intros x. unfold σ', put; simpl. destruct (decide (x = o)) as [->|].
    + intros _. eapply inv_heap_fresh; [done|]. by rewrite Hob.
    + rewrite lookup_insert_ne by done. by eapply inv_heap_fresh.
Qed.

Lemma Rep_modify c A o t f t' :
  Rep c A → a_get o (a_makeCurrent o A) = Some t → f t = Some t' → mods t t' →
  ∃ c', modify c o f = Some c' ∧ Rep c' (a_set o t' (a_makeCurrent o A)).
Proof.
  intros HR Hg Hf Hm.
  assert (is_Some (a_get o A)) as [t0 Hg0].
  { destruct A as [|lv [|lv' A]]; simpl in *; [done|eauto|]. revert Hg. case_decide; [eauto|].
    unfold a_get; simpl. destruct (snap lv !! o) eqn:E; [eauto|]. simpl. by rewrite E. }
  destruct (Rep_makeCurrent _ _ _ _ HR Hg0) as (c1&E1&HR1&Hcur).
  unfold modify. rewrite E1. cbn [mbind option_bind].
  destruct HR1 as (chs&ls&HI&Hlen&HA&Hgb). destruct (a_makeCurrent o A) as [|lv A'] eqn:EA; [done|].
  unfold a_get in Hg; simpl in Hg.
  assert (is_Some (chs !! o)) as Ho by (eapply chs_snap; [done|]; rewrite Hg; eauto).
  destruct (current_level _ _ _ _ _ _ _ o HI Ho) as (ob&l&Hob&_&_&Hp).
  rewrite Hob. cbn [mbind option_bind]. assert (payload ob = t) as -> by congruence.
  rewrite Hf. cbn [mbind option_bind]. rewrite (wr_obj_put _ _ _ _ Hob). cbn [mbind option_bind].
  eexists. split; [done|]. exists chs, ls. split_and!; [|done|done|done].
  eapply (Inv_set _ _ _ _ _ _ _ _ _ t); [done..|by apply Hcur|done|done].
Qed.

Lemma Rep_deleteObj c A o :
  Rep c A → is_Some (a_get o A) → o ∉ concat (garb <$> A) →
  ∃ c', deleteObj c o = Some c' ∧ Rep c' (a_delete o A).
Proof.
  intros (chs&ls&HI&Hlen&HA&HgN&Hg) Hget Hng. destruct A as [|lv A]; [done|].
  assert (is_Some (chs !! o)) as Ho by (eapply chs_snap; [done|exact Hget]).
  destruct (deleteSelf_inv _ _ _ _ _ _ o HI Ho Hlen) as (σ'&ls'&E&HI'&Hlen').
  unfold deleteObj. rewrite E. cbn [mbind option_bind]. eexists; split; [done|].
  exists (delete o chs), ls'. split_and!; [exact HI'| |done|].
  - cbn [store with_store]. by rewrite length_a_delete.
  - split; rewrite garb_delete; [done|]. intros o' Ho'. rewrite lookup_delete_ne; [by apply Hg|congruence].
Qed.

(** ** Garbage *)

Lemma a_enqueue_cons o lv lv' A :
  a_enqueue o (lv :: lv' :: A) =
  if decide (o ∈ cur lv) then mkLevel (snap lv) (cur lv) (garb lv ++ [o]) :: lv' :: A
  else lv :: a_enqueue o (lv' :: A).
Proof. done. Qed.

Lemma a_enqueue_same_at o o' A : Forall2 (same_at o') A (a_enqueue o A).
Proof.
  induction A as [|lv A IH]; [constructor|]. destruct A as [|lv' A].
  { constructor; [done|constructor]. }
  rewrite a_enqueue_cons. case_decide; constructor; [done|apply same_at_refl|done|done].
Qed.

Lemma length_a_enqueue o A : length (a_enqueue o A) = length A.
Proof. symmetry. eapply Forall2_length, (a_enqueue_same_at o o). Qed.

Lemma a_enqueue_garb hs regs o A x t p l ch :
  ver hs regs o A x t p ((x, l) :: ch) →
  reverse (garb <$> a_enqueue o A) = alter (.++ [o]) l (reverse (garb <$> A)).
Proof.
  intros Hv. remember ((x, l) :: ch) as ch0 eqn:E. revert E.
  induction Hv as [|lv A x t p s t' R ch' Hc _ _ _ _ _ Hv _ _|lv A x t p ch' Hc _ Hv IH]; intros; simplify_eq.
  - done.
  - destruct A as [|lv' A]; [by inversion Hv|]. rewrite a_enqueue_cons, decide_True by done.
    rewrite (fmap_cons _ (mkLevel _ _ _)), (fmap_cons _ lv). cbn [garb].
    rewrite !reverse_cons, alter_app_r_alt; rewrite length_reverse, length_fmap; [|done].
    by rewrite Nat.sub_diag.
  - destruct A as [|lv' A]; [by inversion Hv|]. rewrite a_enqueue_cons, decide_False by done.
    rewrite !(fmap_cons _ lv), !reverse_cons, IH by done.
    rewrite alter_app_l; [done|]. rewrite length_reverse, length_fmap.
    eapply (ver_elem _ _ _ _ _ _ _ _ x); [done|left].
Qed.

Lemma a_enqueue_concat o A :
  A ≠ [] → concat (garb <$> a_enqueue o A) ≡ₚ o :: concat (garb <$> A).
Proof.
  induction A as [|lv A IH]; [done|]. intros _. destruct A as [|lv' A].
  { simpl. rewrite !app_nil_r. by rewrite Permutation_app_comm. }
  rewrite a_enqueue_cons. case_decide; rewrite !fmap_cons; simpl.
  - rewrite <- app_assoc. simpl. by rewrite <- Permutation_middle.
  - rewrite IH by done. by rewrite <- Permutation_middle.
Qed.

Lemma Rep_enqueueToGarbageCollect c A o :
  Rep c A → is_Some (a_get o A) → o ∉ concat (garb <$> A) →
  ∃ c', enqueueToGarbageCollect c o = Some c' ∧ Rep c' (a_enqueue o A).
Proof.
  intros (chs&ls&HI&Hlen&HA&HgN&Hg) Hget Hng.
  assert (is_Some (chs !! o)) as Ho by (destruct A; [done|]; by eapply chs_snap).
  destruct Ho as [ch Hch]. destruct (inv_chain _ _ _ _ _ _ _ HI _ _ Hch) as [t Hv].
  pose proof (ver_head _ _ _ _ _ _ _ _ Hv) as (l&?&ch'&->&Hl&Hh&_&_).
  apply hist_lookup in Hh as (ob&Hob&Hsc&_).
  destruct (lookup_lt_is_Some_2 (d_scopeList (store c)) l) as [sc Hscl]; [lia|].
  unfold enqueueToGarbageCollect. rewrite Hob. cbn [mbind option_bind]. rewrite Hsc. cbn [mbind option_bind].
  unfold wr_scope. rewrite Hscl. cbn [mbind option_bind]. eexists; split; [done|].
  set (σ := store c) in *. set (σ' := mkStore _ _).
  assert (∀ q, cellv σ' q = cellv σ q) as HC.
  { intros [l'|y]; unfold cellv, σ'; simpl; [|done]. destruct (decide (l' = l)) as [->|].
    - rewrite list_lookup_insert_eq by lia. by rewrite Hscl.
    - by rewrite list_lookup_insert_ne. }
  exists chs, ls. split_and!.
  - split; cbn [store with_store d_allocations nextAddr]; rewrite ?length_a_enqueue; try apply HI.
    + intros o' ch Ho. destruct (inv_chain _ _ _ _ _ _ _ HI _ _ Ho) as [t' Hv']. exists t'.
      eapply ver_frame; [done|done|apply regs_le_refl|apply a_enqueue_same_at].
    + intros lv o' Hin Hs. destruct (same_at_in o' A _ lv (a_enqueue_same_at o o' A) Hin) as (lv0&?&[Heq _]).
      eapply inv_dom; [done..|]. by rewrite <- Heq.
    + intros lv o' Hin Hs. destruct (same_at_in o' A _ lv (a_enqueue_same_at o o' A) Hin) as (lv0&?&[_ Heq]).
      eapply inv_cur; [done..|]. by apply Heq.
    + intros l' L Hl' Hlt. simpl in Hlt. rewrite length_insert in Hlt.
      eapply dll_frame; [| |by eapply inv_dll]; [intros; apply HC|done].
    + intros l' g Hl' Hlt. simpl in Hlt. rewrite length_insert in Hlt.
      rewrite (a_enqueue_garb _ _ _ _ _ _ _ _ _ Hv) in Hl'. unfold meta, σ'. simpl. rewrite list_lookup_fmap.
      destruct (decide (l' = l)) as [->|Hne].
      * rewrite list_lookup_alter_eq in Hl'.
        destruct (reverse (garb <$> A) !! l) as [g0|] eqn:Eg; [|done]. simplify_eq/=.
        rewrite list_lookup_insert_eq by lia. simpl.
        pose proof (inv_meta _ _ _ _ _ _ _ HI l g0 Eg ltac:(fold σ; lia)) as Hm. fold σ in Hm.
        unfold meta in Hm. rewrite list_lookup_fmap, Hscl in Hm. by simplify_eq/=.
      * rewrite list_lookup_alter_ne in Hl' by done. rewrite list_lookup_insert_ne by done.
        rewrite <- list_lookup_fmap. by eapply inv_meta.
  - unfold σ'; simpl. by rewrite length_insert, length_a_enqueue.
  - intros E. apply (f_equal length) in E. rewrite length_a_enqueue in E. by destruct A.
  - split; [rewrite a_enqueue_concat by done; by constructor|].
    intros o'. rewrite a_enqueue_concat by done. intros [->|?]%elem_of_cons; [eauto|by apply Hg].
Qed.

(** * Executions *)

Inductive op :=
| OPush
| OPop
| ONew (t : T)
| OModify (o : loc) (f : T → option T)
| ODelete (o : loc)
| OGarbage (o : loc).

Definition exec c (i : op) : option (Context T) :=
  match i with
  | OPush => Some (push c)
  | OPop => pop c
  | ONew t => snd <$> newContextObj c t
  | OModify o f => modify c o f
  | ODelete o => deleteObj c o
  | OGarbage o => enqueueToGarbageCollect c o
  end.

(** The transitions of the stack of snapshots, with the conditions under which a
    client may call each operation. *)
Inductive a_step : list (Level T) → op → list (Level T) → Prop :=
| as_push A : A ≠ [] → a_step A OPush (a_push A)
| as_pop lv A : A ≠ [] → a_step (lv :: A) OPop (a_pop (lv :: A))
| as_new A o t : wf t → a_get o A = None → a_step A (ONew t) (a_create o t A)
| as_modify A o f t t' :
    a_get o (a_makeCurrent o A) = Some t → f t = Some t' → mods t t' →
    a_step A (OModify o f) (a_set o t' (a_makeCurrent o A))
| as_delete A o :
    is_Some (a_get o A) → o ∉ concat (garb <$> A) → a_step A (ODelete o) (a_delete o A)
| as_garbage A o :
    is_Some (a_get o A) → o ∉ concat (garb <$> A) → a_step A (OGarbage o) (a_enqueue o A).

(** Simulation with progress: an operation that is allowed on the snapshots runs
    on the context without failing, and the result again represents the
    snapshots. *)
Lemma exec_step c A i B :
  Rep c A → a_step A i B → ∃ c' A', exec c i = Some c' ∧ a_step A i A' ∧ Rep c' A'.
Proof.
  intros HR Hs. destruct Hs as [A HA|lv A HA|A o t Hw Hf|A o f t t' Hg Hf Hm|A o Hg Hn|A o Hg Hn]; simpl.
  - eexists _, _. split_and!; [done|by constructor|by apply Rep_push].
  - destruct (Rep_pop _ _ _ HR HA) as (c'&E&HR'&_). eexists _, _. split_and!; [done|by constructor|done].
  - destruct (Rep_newContextObj _ _ _ HR Hw) as (o'&c'&E&Hfr&HR').
    exists c', (a_create o' t A). rewrite E. split_and!; [done|by constructor|done].
  - destruct (Rep_modify _ _ _ _ _ _ HR Hg Hf Hm) as (c'&E&HR').
    eexists _, _. split_and!; [done|by econstructor|done].
  - destruct (Rep_deleteObj _ _ _ HR Hg Hn) as (c'&E&HR'). eexists _, _. split_and!; [done|by constructor|done].
  - destruct (Rep_enqueueToGarbageCollect _ _ _ HR Hg Hn) as (c'&E&HR').
    eexists _, _. split_and!; [done|by constructor|done].
Qed.

(** [run n c A ops c' A']: the operations [ops] lead from [c] to [c'] without
    ever popping one of the [n] oldest levels. *)
Inductive run (n : nat) : Context T → list (Level T) → list op → Context T → list (Level T) → Prop :=
| run_nil c A : run n c A [] c A
| run_cons c A i c1 A1 ops c2 A2 :
    exec c i = Some c1 → a_step A i A1 → Rep c1 A1 → n < length A1 →
    run n c1 A1 ops c2 A2 → run n c A (i :: ops) c2 A2.

(** The fields of an object in the [n] oldest snapshots. *)
Definition views o (n : nat) A : list (option T) := (λ lv, snap lv !! o) <$> drop (length A - n) A.

(** The levels above them do not collect the object. *)
Definition uncollected o (n : nat) A : Prop := Forall (λ lv, o ∉ garb lv) (take (length A - n) A).

Lemma views_ext o n A A' :
  Forall2 (λ lv lv', snap lv' !! o = snap lv !! o) A A' → views o n A' = views o n A.
Proof.
  intros HF. unfold views. rewrite (Forall2_length _ _ _ HF). generalize (length A' - n); intros k.
  apply (Forall2_drop _ _ _ k) in HF. induction HF; [done|]. rewrite !fmap_cons. by f_equal.
Qed.

Lemma uncollected_ext o n A A' :
  Forall2 (λ lv lv', o ∉ garb lv → o ∉ garb lv') A A' → uncollected o n A → uncollected o n A'.
Proof.
  intros HF. unfold uncollected. rewrite (Forall2_length _ _ _ HF). generalize (length A' - n); intros k.
  apply (Forall2_take _ _ _ k) in HF. induction HF; [done|]. rewrite !Forall_cons. naive_solver.
Qed.

Lemma views_cons o n lv A : n ≤ length A → views o n (lv :: A) = views o n A.
Proof. intros. unfold views. simpl length. by rewrite Nat.sub_succ_l. Qed.

Lemma uncollected_cons o n lv A :
  n ≤ length A → uncollected o n (lv :: A) ↔ ((o ∉ garb lv) ∧ uncollected o n A).
Proof. intros. unfold uncollected. simpl length. rewrite Nat.sub_succ_l by done. simpl. by rewrite Forall_cons. Qed.

Lemma ver_dom hs regs o A x t p ch lv :
  ver hs regs o A x t p ch → lv ∈ A → is_Some (snap lv !! o).
Proof.
  induction 1; intros [->|Hin]%elem_of_cons;
    first [by eexists|by apply not_elem_of_nil in Hin|by apply IHver].
Qed.

Lemma Rep_dom c A o lv lv' :
  Rep c A → lv ∈ A → lv' ∈ A → is_Some (snap lv !! o) → is_Some (snap lv' !! o).
Proof.
  intros (chs&ls&HI&_) Hin Hin' Hs. apply (inv_dom _ _ _ _ _ _ _ HI _ _ Hin) in Hs as [ch Ho].
  destruct (inv_chain _ _ _ _ _ _ _ HI _ _ Ho) as [t Hv]. by eapply ver_dom.
Qed.

Lemma foldl_delete_same o os A :
  o ∉ os → Forall2 (λ lv lv', snap lv' !! o = snap lv !! o) A (foldl (λ A o, a_delete o A) A os).
Proof.
  revert A. induction os as [|o' os IH]; intros A Hn; simpl.
  { induction A; constructor; done. }
  apply not_elem_of_cons in Hn as [Hne Hn]. 
  specialize (IH (a_delete o' A) Hn). revert IH. generalize (foldl (λ A o, a_delete o A) (a_delete o' A) os).
  assert (Forall2 (same_at o) A (a_delete o' A)) as HF by (by apply a_delete_same_at).
  induction HF as [|lv1 lv2 A1 A2 [Heq _] HF IH2]; intros A3 HF3; inversion HF3; subst; constructor;
    [congruence|by apply IH2].
Qed.

Lemma Forall2_refl_garb o A : Forall2 (λ lv lv' : Level T, o ∉ garb lv → o ∉ garb lv') A A.
Proof. induction A; constructor; done. Qed.

Lemma garb_same_Forall2 o A A' :
  garb <$> A' = garb <$> A → Forall2 (λ lv lv', o ∉ garb lv → o ∉ garb lv') A A'.
Proof.
  revert A'. induction A as [|lv A IH]; intros [|lv' A'] Heq; simplify_eq/=; constructor; [congruence|].
  by apply IH.
Qed.

Lemma a_makeCurrent_top o A : tail (a_makeCurrent o A) = tail A ∧ length (a_makeCurrent o A) = length A ∧
  garb <$> a_makeCurrent o A = garb <$> A.
Proof.
  destruct A as [|lv [|lv' A]]; [done..|]. simpl. case_decide; [done|]. by destruct (snap lv !! o).
Qed.

(** Operations that respect the older levels keep what they remember of an
    object that is not deleted. *)
Lemma step_views A i A1 o n c :
  Rep c A → a_step A i A1 → i ≠ ODelete o → i ≠ OGarbage o → is_Some (a_get o A) →
  n < length A → n < length A1 → uncollected o n A →
  views o n A1 = views o n A ∧ uncollected o n A1.
Proof.
  intros HR Hs Hnd Hng Hal Hn Hn1 Hu.
  destruct Hs as [A HA|lv A HA|A o' t Hw Hf|A o' f t t' Hg Hf Hm|A o' Hg Hn'|A o' Hg Hn'].
  - destruct A as [|lv A]; [done|]. simpl in *. rewrite (views_cons _ _ _ (lv :: A)) by (simpl; lia).
    rewrite (uncollected_cons _ _ _ (lv :: A)) by (simpl; lia). split; [done|]. split; [simpl; set_solver|done].
  - simpl in Hn1. rewrite length_foldl_delete in Hn1. rewrite uncollected_cons in Hu by lia.
    destruct Hu as [Hng' Hu]. rewrite views_cons by lia. simpl. split.
    + by apply views_ext, foldl_delete_same.
    + eapply uncollected_ext; [|exact Hu]. apply garb_same_Forall2, garb_foldl_delete.
  - assert (o ≠ o') as Hne by (intros ->; rewrite Hf in Hal; by destruct Hal). split.
    + apply views_ext. eapply Forall2_impl; [by apply (a_create_same_at o' t o)|]. by intros ?? [? _].
    + eapply uncollected_ext; [|exact Hu]. apply garb_same_Forall2, garb_create.
  - destruct (a_makeCurrent_top o' A) as (Htl&Hlen&Hgb).
    destruct (a_makeCurrent o' A) as [|lv1 A'] eqn:E; [done|]. destruct A as [|lv A]; [done|].
    simpl in Htl. subst A'. rewrite !fmap_cons in Hgb. injection Hgb as Hgb. simpl in Hn. simpl. split.
    + by rewrite !views_cons by lia.
    + rewrite uncollected_cons in * by lia. simpl. rewrite Hgb. done.
  - split.
    + apply views_ext. eapply Forall2_impl; [apply (a_delete_same_at o' o); congruence|]. by intros ?? [? _].
    + eapply uncollected_ext; [|exact Hu]. apply garb_same_Forall2, garb_delete.
  - split.
    + apply views_ext. eapply Forall2_impl; [apply (a_enqueue_same_at o' o)|]. by intros ?? [? _].
    + eapply uncollected_ext; [|exact Hu]. assert (o ≠ o') as Hne by congruence. clear -Hne.
      induction A as [|lv A IH]; [constructor|]. destruct A as [|lv' A].
      { constructor; [simpl; set_solver|constructor]. }
      rewrite a_enqueue_cons. case_decide; constructor; [simpl; set_solver|apply Forall2_refl_garb|done|done].
Qed.

Lemma run_views n c A ops c1 A1 o t vs :
  run n c A ops c1 A1 → Rep c A → n < length A →
  Forall (λ i, i ≠ ODelete o ∧ i ≠ OGarbage o) ops →
  views o n A = Some t :: vs → uncollected o n A →
  Rep c1 A1 ∧ views o n A1 = Some t :: vs ∧ uncollected o n A1.
Proof.
  induction 1 as [|c A i c1 A1 ops c2 A2 He Hs HR1 Hn1 Hrun IH]; intros HR Hn His Hv Hu; [done|].
  apply Forall_cons in His as [[? ?] His].
  assert (is_Some (a_get o A)) as Hal.
  { destruct A as [|lv A]; [done|]. unfold views in Hv.
    destruct (drop (length (lv :: A) - n) (lv :: A)) as [|lv' A'] eqn:E; [done|]. simplify_eq/=.
    eapply (Rep_dom _ _ _ lv' lv); [done| |left|by rewrite H1].
    rewrite <- (take_drop (length (lv :: A) - n) (lv :: A)). simpl length. rewrite E.
    apply elem_of_app. right. left. }
  destruct (step_views _ _ _ o n _ HR Hs) as [Hv' Hu']; [done..|].
  apply IH; [done..|congruence|done].
Qed.

(** A call of [push] followed by operations that neither pop this level for good
    nor delete the object, and by [pop], brings the object back to the fields it
    had at the call of [push]. *)
Lemma pop_restores c A ops c1 A1 o t :
  Rep c A → a_get o A = Some t →
  Forall (λ i, i ≠ ODelete o ∧ i ≠ OGarbage o) ops →
  run (length A) (push c) (a_push A) ops c1 A1 → length A1 = S (length A) →
  ∃ c2, pop c1 = Some c2 ∧ getObj c2 o = Some t.
Proof.
  intros HR Hg His Hrun Hlen. destruct A as [|lv A]; [done|]. unfold a_get in Hg; simpl in Hg.
  destruct (run_views _ _ _ _ _ _ o t ((λ lv, snap lv !! o) <$> A) Hrun) as (HR1&Hv1&Hu1).
  { by apply Rep_push. }
  { simpl; lia. }
  { done. }
  { simpl. rewrite views_cons by (simpl; lia). unfold views. rewrite Nat.sub_diag. simpl. by rewrite Hg. }
  { simpl. rewrite uncollected_cons by (simpl; lia). split; [apply not_elem_of_nil|].
    unfold uncollected. rewrite Nat.sub_diag. constructor. }
  destruct A1 as [|lv1 A1]; [done|]. assert (length A1 = length (lv :: A)) as Hl by (simpl in *; lia).
  rewrite <- Hl in Hv1, Hu1.
  rewrite views_cons in Hv1 by done. rewrite uncollected_cons in Hu1 by done.
  assert (A1 ≠ []) as HA1 by (by destruct A1).
  destruct (Rep_pop _ _ _ HR1 HA1) as (c2&E&HR2&_). exists c2. split; [done|].
  eapply Rep_getObj; [done|]. simpl.
  assert (views o (length A1) (foldl (λ A o, a_delete o A) A1 (garb lv1)) = views o (length A1) A1) as Hv2.
  { apply views_ext, foldl_delete_same, Hu1. }
  rewrite Hv1 in Hv2. unfold views in Hv2. rewrite length_foldl_delete, Nat.sub_diag in Hv2. simpl in Hv2.
  destruct (foldl _ _ _); [done|]. by simplify_eq/=.
Qed.

End rep.
