(* ===== verification/CDStructs.v ===== *)
(** The context-dependent containers of [src/src/context]: [CDO], [CDMaybe],
    [CDList], [CDQueue], [InsertHashMap], [CDInsertHashMap] and [CDHashSet].
    Each Module gives the fields of a container, its operations, its [save] and
    [restore], and shows that the latter keep the promise of [ContextLaws]. *)
From stdpp Require Import base option list gmap fin_maps numbers relations.
From S2P Require Import Prelude Context ContextInv.

(** [CDO<T>], a single value. *)
Module CDO.
Section cdo.
Context {V : Type}.

Record CDO := mkCDO { d_data : V }.

(** [save] copies, [restore] assigns the saved value back. *)
#[global] Instance cdo_data : ContextData CDO := {
  save this := (this, this);
  restore _ saved := Some (mkCDO (d_data saved));
}.

Definition get (this : CDO) : V := d_data this.
Definition set (v : V) (this : CDO) : option CDO := Some (mkCDO v).

#[global] Program Instance cdo_laws : ContextLaws CDO := {
  mods _ _ := True;
  wf _ := True;
}.
Next Obligation. done. Qed.
Next Obligation. done. Qed.
Next Obligation. intros [v] t' _ _. done. Qed.

End cdo.
Arguments CDO : clear implicits.
End CDO.

(** [CDMaybe<T>], a value that can be set once. *)
Module CDMaybe.
Section cdmaybe.
Context {V : Type}.

Definition isSet (this : CDO.CDO (bool * V)) : bool := (CDO.get this).1.

Definition set (d : V) (this : CDO.CDO (bool * V)) : option (CDO.CDO (bool * V)) :=
  _ ← assert (negb (isSet this));
  CDO.set (true, d) this.

Definition get (this : CDO.CDO (bool * V)) : option V :=
  _ ← assert (isSet this);
  Some (CDO.get this).2.

End cdmaybe.
End CDMaybe.

(** [CDList<T>], a vector that only grows between a [push] and its [pop]. *)
Module CDList.
Section cdlist.
Context {V : Type}.

Record CDList := mkCDList {
  d_list : list V;
  d_size : nat;
  d_callCleanup : bool;
}.

Definition new (callCleanup : bool) : CDList := mkCDList [] 0 callCleanup.

Definition size (this : CDList) : nat := length (d_list this).

Definition empty (this : CDList) : bool := bool_decide (d_list this = []).

Definition push_back (data : V) (this : CDList) : option CDList :=
  Some (mkCDList (d_list this ++ [data]) (S (d_size this)) (d_callCleanup this)).

Definition get (i : nat) (this : CDList) : option V :=
  _ ← assert (bool_decide (i < d_size this));
  d_list this !! i.

Definition back (this : CDList) : option V :=
  _ ← assert (bool_decide (0 < d_size this));
  d_list this !! (d_size this - 1).

(** [while (d_size != size) { --d_size; d_cleanUp(d_list[d_size]); }]: the new
    [d_size] and the elements handed to the cleanup functor, in order. *)
Fixpoint cleanLoop (l : list V) (dsize size : nat) (cleaned : list V) : option (nat * list V) :=
  if decide (dsize = size) then Some (dsize, cleaned)
  else match dsize with
       | O => None
       | S dsize => elem ← l !! dsize; cleanLoop l dsize size (cleaned ++ [elem])
       end.

Definition truncateList (size : nat) (this : CDList) : option (CDList * list V) :=
  _ ← assert (bool_decide (size ≤ d_size this));
  '(dsize, cleaned) ← (if d_callCleanup this
                       then cleanLoop (d_list this) (d_size this) size []
                       else Some (size, []));
  Some (mkCDList (take dsize (d_list this)) dsize (d_callCleanup this), cleaned).

(** The copy constructor used by [save] leaves the elements behind. *)
Definition copy (this : CDList) : CDList := mkCDList [] (d_size this) false.

#[global] Instance cdlist_data : ContextData CDList := {
  save this := (this, copy this);
  restore this data := fst <$> truncateList (d_size data) this;
}.

Definition wf (this : CDList) : Prop := d_size this = length (d_list this).

Lemma cleanLoop_spec l size : ∀ dsize cleaned,
  size ≤ dsize → dsize ≤ length l →
  cleanLoop l dsize size cleaned = Some (size, cleaned ++ reverse (drop size (take dsize l))).
Proof.
  induction dsize as [|dsize IH]; intros cleaned H1 H2; cbn [cleanLoop].
  - rewrite decide_True by lia. assert (size = 0) as -> by lia. by rewrite app_nil_r.
  - case_decide as Heq.
    + subst size. rewrite drop_ge by (rewrite length_take; lia). by rewrite app_nil_r.
    + destruct (lookup_lt_is_Some_2 l dsize) as [e He]; [lia|]. rewrite He. cbn [mbind option_bind].
      rewrite IH by lia. rewrite (take_S_r _ _ _ He). rewrite drop_app_le by (rewrite length_take; lia).
      rewrite reverse_app. simpl. by rewrite <- app_assoc.
Qed.

(** [truncateList] keeps the first [size] elements and cleans up the others from
    the last to the first. *)
Lemma truncateList_spec size this :
  wf this → size ≤ d_size this →
  truncateList size this =
    Some (mkCDList (take size (d_list this)) size (d_callCleanup this),
          if d_callCleanup this then reverse (drop size (d_list this)) else []).
Proof.
  unfold wf. intros Hwf Hle. unfold truncateList. rewrite bool_decide_true by done.
  cbn [assert mbind option_bind]. destruct (d_callCleanup this); [|done].
  rewrite cleanLoop_spec by lia. cbn [mbind option_bind]. simpl. by rewrite (take_ge _ (d_size this)) by lia.
Qed.

Definition grows (this this' : CDList) : Prop := ∃ data, push_back data this = Some this'.

Lemma grows_rtc this this' :
  rtc grows this this' → wf this →
  wf this' ∧ d_callCleanup this' = d_callCleanup this ∧ d_list this `prefix_of` d_list this'.
Proof.
  unfold wf. induction 1 as [|x y z [data Hd] _ IH]; intros Hw; [done|].
  unfold push_back in Hd. simplify_eq/=. rewrite length_app in IH. simpl in IH.
  destruct IH as (?&?&?); [lia|]. split_and!; [done..|]. etrans; [|done]. by apply prefix_app_r.
Qed.

#[global] Program Instance cdlist_laws : ContextLaws CDList := {
  mods := grows;
  ContextInv.wf := wf;
}.
Next Obligation. done. Qed.
Next Obligation. intros t t' Hw Hg. by apply (grows_rtc t t' (rtc_once _ _ Hg)). Qed.
Next Obligation.
  intros t t' Hw Hr. cbn [save fst snd cdlist_data] in *.
  destruct (grows_rtc t t' Hr Hw) as (Hw'&Hc&[k Hk]). unfold wf in *.
  cbn [restore cdlist_data copy d_size]. rewrite truncateList_spec; [|done|].
  - simpl. rewrite Hk, take_app_le, take_ge by lia. destruct t as [l n b]. simpl in *. by rewrite Hc.
  - rewrite Hw', Hk, length_app. lia.
Qed.

End cdlist.
Arguments CDList : clear implicits.
End CDList.

(** [CDQueue<T>], a FIFO queue stored in a [CDList]: elements enqueued and
    dequeued at the same level are dropped as soon as the queue is empty. *)
Module CDQueue.
Section cdqueue.
Context {V : Type}.

Record CDQueue := mkCDQueue {
  parent : CDList.CDList V;
  d_iter : nat;
  d_lastsave : nat;
}.

Definition new (callCleanup : bool) : CDQueue := mkCDQueue (CDList.new callCleanup) 0 0.

(** [save] records the size of the list in [this]; the copy keeps the old
    value. *)
#[global] Instance cdqueue_data : ContextData CDQueue := {
  save this := (mkCDQueue (parent this) (d_iter this) (CDList.d_size (parent this)),
                mkCDQueue (CDList.copy (parent this)) (d_iter this) (d_lastsave this));
  restore this qdata :=
    p ← restore (parent this) (parent qdata);
    Some (mkCDQueue p (d_iter qdata) (d_lastsave qdata));
}.

Definition empty (this : CDQueue) : option bool :=
  _ ← assert (bool_decide (d_iter this ≤ CDList.d_size (parent this)));
  Some (bool_decide (d_iter this = CDList.d_size (parent this))).

Definition size (this : CDQueue) : nat := CDList.d_size (parent this) - d_iter this.

Definition push (data : V) (this : CDQueue) : option CDQueue :=
  p ← CDList.push_back data (parent this);
  Some (mkCDQueue p (d_iter this) (d_lastsave this)).

Definition pop (this : CDQueue) : option CDQueue :=
  e ← empty this;
  _ ← assert (negb e);
  let this1 := mkCDQueue (parent this) (d_iter this + 1) (d_lastsave this) in
  e1 ← empty this1;
  if e1 && negb (bool_decide (d_lastsave this1 = CDList.d_size (parent this1))) then
    '(p, _) ← CDList.truncateList (d_lastsave this1) (parent this1);
    _ ← assert (bool_decide (CDList.d_size p = d_lastsave this1));
    Some (mkCDQueue p (d_lastsave this1) (d_lastsave this1))
  else Some this1.

Definition front (this : CDQueue) : option V :=
  e ← empty this;
  _ ← assert (negb e);
  CDList.d_list (parent this) !! d_iter this.

Definition back (this : CDQueue) : option V :=
  e ← empty this;
  _ ← assert (negb e);
  CDList.d_list (parent this) !! (CDList.d_size (parent this) - 1).

(** The elements that have not been dequeued, oldest first. *)
Definition contents (this : CDQueue) : list V := drop (d_iter this) (CDList.d_list (parent this)).

Definition wf (this : CDQueue) : Prop :=
  CDList.wf (parent this) ∧ d_iter this ≤ CDList.d_size (parent this) ∧
  d_lastsave this ≤ CDList.d_size (parent this).

Definition moves (this this' : CDQueue) : Prop :=
  (∃ data, push data this = Some this') ∨ pop this = Some this'.

(** Everything [pop] can do on a well-formed non-empty queue. *)
Lemma pop_spec this x q :
  wf this → contents this = x :: q →
  ∃ this', pop this = Some this' ∧ wf this' ∧ contents this' = q ∧
    d_lastsave this' = d_lastsave this ∧
    CDList.d_callCleanup (parent this') = CDList.d_callCleanup (parent this) ∧
    take (d_lastsave this) (CDList.d_list (parent this')) =
    take (d_lastsave this) (CDList.d_list (parent this)).
Proof.
  destruct this as [[l n b] it ls]. unfold wf, contents, CDList.wf. simpl. intros (->&Hit&Hls) Hc.
  assert (it < length l) as Hlt.
  { apply (f_equal length) in Hc. rewrite length_drop in Hc. simpl in Hc. lia. }
  assert (drop (S it) l = q) as Hq by (by rewrite <- Nat.add_1_r, <- drop_drop, Hc).
  unfold pop, empty. simpl. rewrite (bool_decide_true (it ≤ length l)), (bool_decide_false (it = length l)) by lia.
  cbn [assert mbind option_bind negb]. rewrite (bool_decide_true (it + 1 ≤ length l)) by lia.
  cbn [assert mbind option_bind].
  destruct (decide (it + 1 = length l)) as [Heq|Hne].
  - rewrite (bool_decide_true (it + 1 = length l)) by done. rewrite drop_ge in Hq by lia. subst q.
    destruct (decide (ls = length l)) as [->|Hne'].
    + rewrite bool_decide_true by done. simpl. eexists. split; [done|]. simpl.
      rewrite drop_ge by lia. split_and!; [lia..|done|done|done|done].
    + rewrite bool_decide_false by done. simpl.
      rewrite CDList.truncateList_spec by (unfold CDList.wf; simpl; lia).
      simpl. rewrite bool_decide_true by done. simpl. eexists. split; [done|]. simpl.
      rewrite length_take, drop_ge by (rewrite length_take; lia). rewrite take_take, Nat.min_id.
      split_and!; [lia..|done|done|done|done].
  - rewrite (bool_decide_false (it + 1 = length l)) by done. simpl. eexists. split; [done|]. simpl.
    replace (it + 1) with (S it) by lia. split_and!; [lia..|done|done|done|done].
Qed.

Lemma moves_spec this this' :
  wf this → moves this this' → wf this' ∧ d_lastsave this' = d_lastsave this ∧
    CDList.d_callCleanup (parent this') = CDList.d_callCleanup (parent this) ∧
    take (d_lastsave this) (CDList.d_list (parent this')) =
    take (d_lastsave this) (CDList.d_list (parent this)).
Proof.
  intros Hw [[data Hp]|Hp].
  - destruct this as [[l n b] it ls]. unfold wf, CDList.wf, push in *. simplify_eq/=.
    rewrite length_app, take_app_le by (simpl; lia). simpl. split_and!; try done; lia.
  - destruct (contents this) as [|x q] eqn:Hc.
    + exfalso. destruct this as [[l n b] it ls]. unfold wf, CDList.wf, contents, pop, empty in *. simpl in *.
      destruct Hw as (->&?&?). apply (f_equal length) in Hc. rewrite length_drop in Hc. simpl in Hc.
      rewrite (bool_decide_true (it ≤ length l)), (bool_decide_true (it = length l)) in Hp by lia. simpl in Hp. done.
    + destruct (pop_spec this x q Hw Hc) as (this1&Hp1&?&_&?&?&?). simplify_eq. done.
Qed.

Lemma moves_rtc this this' :
  rtc moves this this' → wf this → wf this' ∧ d_lastsave this' = d_lastsave this ∧
    CDList.d_callCleanup (parent this') = CDList.d_callCleanup (parent this) ∧
    take (d_lastsave this) (CDList.d_list (parent this')) =
    take (d_lastsave this) (CDList.d_list (parent this)).
Proof.
  induction 1 as [|x y z Hm _ IH]; intros Hw; [done|].
  destruct (moves_spec x y Hw Hm) as (Hw'&Hl&Hc&Ht). destruct (IH Hw') as (?&?&?&?).
  split_and!; [done|congruence|congruence|]. rewrite <- Ht, <- Hl. done.
Qed.

#[global] Program Instance cdqueue_laws : ContextLaws CDQueue := {
  mods := moves;
  ContextInv.wf := wf;
}.
Next Obligation. unfold wf. intros t (?&?&?). simpl. split_and!; [done|done|lia]. Qed.
Next Obligation. intros t t' Hw Hm. by eapply moves_spec. Qed.
Next Obligation.
  intros t t' Hw Hr. cbn [save fst snd cdqueue_data] in *.
  apply moves_rtc in Hr as (Hw'&Hl&Hc&Ht).
  2: { destruct Hw as (?&?&?). split_and!; simpl; [done|done|lia]. }
  simpl in *. destruct Hw as (Hw1&_&_), Hw' as (Hw2&_&Hle). unfold CDList.wf in *.
  rewrite CDList.truncateList_spec; [|done|by rewrite <- Hl].
  cbn [fmap option_fmap option_map fst mbind option_bind]. rewrite Ht, Hc, take_ge by lia.
  destruct t as [[l n b] it ls]. simpl in *. by subst n.
Qed.

End cdqueue.
Arguments CDQueue : clear implicits.
End CDQueue.

(** [InsertHashMap], a hash map that also keeps its keys in a deque. *)
Module InsertHashMap.
Section ihm.
Context {K V : Type} `{Countable K}.

Record InsertHashMap := mkIHM {
  d_keys : list K;
  d_hashMap : gmap K V;
}.

Definition new : InsertHashMap := mkIHM [] ∅.

Definition empty (m : InsertHashMap) : bool := bool_decide (d_keys m = []).
Definition size (m : InsertHashMap) : nat := length (d_keys m).
Definition find (k : K) (m : InsertHashMap) : option V := d_hashMap m !! k.
Definition contains (k : K) (m : InsertHashMap) : bool := bool_decide (is_Some (find k m)).

(** [operator[]]: the key must be mapped. *)
Definition get (k : K) (m : InsertHashMap) : option V := find k m.

Definition push_front (k : K) (d : V) (m : InsertHashMap) : option InsertHashMap :=
  _ ← assert (negb (contains k m));
  Some (mkIHM (k :: d_keys m) (<[k := d]> (d_hashMap m))).

Definition push_back (k : K) (d : V) (m : InsertHashMap) : option InsertHashMap :=
  _ ← assert (negb (contains k m));
  Some (mkIHM (d_keys m ++ [k]) (<[k := d]> (d_hashMap m))).

Definition pop_front (m : InsertHashMap) : option InsertHashMap :=
  _ ← assert (negb (empty m));
  front ← head (d_keys m);
  Some (mkIHM (tail (d_keys m)) (delete front (d_hashMap m))).

Definition pop_back (m : InsertHashMap) : option InsertHashMap :=
  _ ← assert (negb (empty m));
  back ← last (d_keys m);
  Some (mkIHM (removelast (d_keys m)) (delete back (d_hashMap m))).

(** [while (size() > s) pop_back();] *)
Fixpoint pop_to_size_loop (fuel s : nat) (m : InsertHashMap) : option InsertHashMap :=
  if decide (s < size m) then
    match fuel with
    | O => None
    | S fuel => m1 ← pop_back m; pop_to_size_loop fuel s m1
    end
  else Some m.

Definition pop_to_size (s : nat) (m : InsertHashMap) : option InsertHashMap :=
  pop_to_size_loop (size m) s m.

(** The deque lists exactly the keys of the map, each once. *)
Definition wf (m : InsertHashMap) : Prop :=
  NoDup (d_keys m) ∧ ∀ k, k ∈ d_keys m ↔ is_Some (d_hashMap m !! k).

Lemma ihm_wf_new : wf new.
Proof.
  split; simpl; [constructor|]. intros k. rewrite lookup_empty. split; [by intros ?%not_elem_of_nil|by intros []].
Qed.

Lemma push_back_spec k d m :
  wf m → find k m = None → ∃ m', push_back k d m = Some m' ∧ wf m' ∧
    pop_back m' = Some m ∧ size m' = S (size m) ∧
    (∀ k', find k' m' = if decide (k' = k) then Some d else find k' m).
Proof.
  intros [HN Hk] Hf. unfold push_back, contains. rewrite Hf, bool_decide_false by (by intros []).
  cbn [negb assert mbind option_bind]. eexists. split_and!; [done| | | |].
  - split; simpl.
    + apply NoDup_app. split_and!; [done| |apply NoDup_singleton]. intros x Hx ->%list_elem_of_singleton.
      apply Hk in Hx. unfold find in Hf. rewrite Hf in Hx. by destruct Hx.
    + intros k'. rewrite elem_of_app, list_elem_of_singleton, Hk, lookup_insert.
      case_decide as E; [subst; split; [eauto|auto]|]. split; [by intros [?| ->]|auto].
  - unfold pop_back, empty. simpl. rewrite bool_decide_false by (by destruct (d_keys m)).
    cbn [negb assert mbind option_bind]. rewrite last_snoc. cbn [mbind option_bind].
    rewrite removelast_last, delete_insert_eq, delete_id by done. by destruct m.
  - unfold size. simpl. rewrite length_app. simpl. lia.
  - intros k'. unfold find. simpl. rewrite lookup_insert. repeat case_decide; congruence.
Qed.

Lemma pop_to_size_S fuel s m m' :
  s < size m → pop_back m = Some m' →
  pop_to_size_loop (S fuel) s m = pop_to_size_loop fuel s m'.
Proof. intros Hs Hp. cbn [pop_to_size_loop]. rewrite decide_True by done. by rewrite Hp. Qed.

End ihm.
Arguments InsertHashMap K V {_ _}.
End InsertHashMap.

(** [CDInsertHashMap], an insert-only map backed by an [InsertHashMap] that is
    shared by all versions; a saved copy carries no map. *)
Module CDInsertHashMap.
Section cdihm.
Context {K V : Type} `{Countable K}.
Abbreviation IHM := (InsertHashMap.InsertHashMap K V).

Record CDInsertHashMap := mkCDIHM {
  d_insertMap : option IHM;
  d_size : nat;
}.

Definition new : CDInsertHashMap := mkCDIHM (Some InsertHashMap.new) 0.

#[global] Instance cdihm_data : ContextData CDInsertHashMap := {
  save this := (this, mkCDIHM None (d_size this));
  restore this data :=
    m ← d_insertMap this;
    m1 ← InsertHashMap.pop_to_size (d_size data) m;
    _ ← assert (bool_decide (InsertHashMap.size m1 = d_size data));
    Some (mkCDIHM (Some m1) (d_size data));
}.

Definition empty (this : CDInsertHashMap) : bool := bool_decide (d_size this = 0).
Definition size (this : CDInsertHashMap) : nat := d_size this.

Definition insert (k : K) (d : V) (this : CDInsertHashMap) : option CDInsertHashMap :=
  m ← d_insertMap this;
  m1 ← InsertHashMap.push_back k d m;
  _ ← assert (bool_decide (InsertHashMap.size m1 = S (d_size this)));
  Some (mkCDIHM (Some m1) (S (d_size this))).

Definition contains (k : K) (this : CDInsertHashMap) : option bool :=
  InsertHashMap.contains k <$> d_insertMap this.

Definition get (k : K) (this : CDInsertHashMap) : option V :=
  m ← d_insertMap this; InsertHashMap.get k m.

(** The new state and whether the element was inserted. *)
Definition insert_safe (k : K) (d : V) (this : CDInsertHashMap) : option (CDInsertHashMap * bool) :=
  c ← contains k this;
  if (c : bool) then Some (this, false)
  else this1 ← insert k d this; Some (this1, true).

Definition wf (this : CDInsertHashMap) : Prop :=
  ∃ m, d_insertMap this = Some m ∧ InsertHashMap.wf m ∧ InsertHashMap.size m = d_size this.

Definition grows (this this' : CDInsertHashMap) : Prop := ∃ k d, insert k d this = Some this'.

Lemma insert_spec k d this :
  wf this → contains k this = Some false →
  ∃ m m', d_insertMap this = Some m ∧ InsertHashMap.push_back k d m = Some m' ∧
    insert k d this = Some (mkCDIHM (Some m') (S (d_size this))) ∧
    InsertHashMap.pop_back m' = Some m ∧ wf (mkCDIHM (Some m') (S (d_size this))) ∧
    (∀ k', get k' (mkCDIHM (Some m') (S (d_size this))) = if decide (k' = k) then Some d else get k' this).
Proof.
  intros (m&Hm&Hw&Hs) Hc. unfold contains in Hc. rewrite Hm in Hc. simpl in Hc.
  assert (InsertHashMap.find k m = None) as Hf.
  { injection Hc as Hc. unfold InsertHashMap.contains in Hc. apply bool_decide_eq_false in Hc.
    by apply eq_None_not_Some. }
  destruct (InsertHashMap.push_back_spec k d m Hw Hf) as (m'&Hp&Hw'&Hpop&Hs'&Hg).
  exists m, m'. split_and!; [done|done| |done| |].
  - unfold insert. rewrite Hm. cbn [mbind option_bind]. rewrite Hp. cbn [mbind option_bind].
    by rewrite bool_decide_true by lia.
  - exists m'. split_and!; [done|done|simpl; lia].
  - intros k'. unfold get. rewrite Hm. simpl. apply Hg.
Qed.

Lemma insert_inv k d this this' : wf this → insert k d this = Some this' → contains k this = Some false.
Proof.
  intros (m&Hm&_&_) Hi. unfold insert, contains in *. rewrite Hm in *. simpl in *.
  unfold InsertHashMap.push_back in Hi. by destruct (InsertHashMap.contains k m).
Qed.

(** After any number of insertions, popping back to the old size gives the old
    map. *)
Lemma grows_pop_rtc this this' :
  rtc grows this this' → wf this → wf this' ∧ d_size this ≤ d_size this' ∧
    ∀ m m', d_insertMap this = Some m → d_insertMap this' = Some m' →
      ∀ fuel, d_size this' - d_size this ≤ fuel →
      InsertHashMap.pop_to_size_loop fuel (d_size this) m' = Some m.
Proof.
  intros Hr Hw. revert this' Hr. apply rtc_ind_r; [|intros y z Hr [k [d Hi]] IH].
  - split_and!; [done|lia|]. intros m m' Hm Hm'. simplify_eq. intros fuel _.
    destruct Hw as (?&?&_&Hs). simplify_eq. destruct fuel; cbn [InsertHashMap.pop_to_size_loop];
      rewrite decide_False by lia; done.
  - destruct IH as (Hwy&Hle&Hpop).
    destruct (insert_spec k d y Hwy) as (my&mz&Hmy&_&Hi'&Hpb&Hwz&_); [by eapply insert_inv|].
    assert (z = mkCDIHM (Some mz) (S (d_size y))) as -> by congruence.
    split_and!; [done|simpl; lia|]. intros m m' Hm [= <-] fuel Hf. cbn [d_size] in Hf.
    destruct fuel as [|fuel]; [lia|]. destruct Hwz as (m0&[= <-]&_&Hs). cbn [d_size] in Hs.
    rewrite (InsertHashMap.pop_to_size_S _ _ _ my) by (done || lia). apply Hpop; [done..|lia].
Qed.

#[global] Program Instance cdihm_laws : ContextLaws CDInsertHashMap := {
  mods := grows;
  ContextInv.wf := wf;
}.
Next Obligation. done. Qed.
Next Obligation. intros t t' Hw Hg. by apply (grows_pop_rtc t t' (rtc_once _ _ Hg)). Qed.
Next Obligation.
  intros t t' Hw Hr. cbn [save fst snd cdihm_data] in *.
  destruct (grows_pop_rtc t t' Hr Hw) as ((m'&Hm'&_&Hs')&Hle&Hpop). destruct Hw as (m&Hm&_&Hs).
  simpl. rewrite Hm'. cbn [mbind option_bind]. unfold InsertHashMap.pop_to_size.
  rewrite (Hpop m m') by (done || lia). cbn [mbind option_bind].
  rewrite bool_decide_true by done. simpl. destruct t. simpl in *. by subst.
Qed.

End cdihm.
Arguments CDInsertHashMap K V {_ _}.
End CDInsertHashMap.

(** [CDHashSet<V>], a [CDInsertHashMap] to [bool]. *)
Module CDHashSet.
Section cdhashset.
Context {V : Type} `{Countable V}.
Abbreviation CDHashSet := (CDInsertHashMap.CDInsertHashMap V bool).

Definition size (this : CDHashSet) : nat := CDInsertHashMap.size this.
Definition empty (this : CDHashSet) : bool := CDInsertHashMap.empty this.
Definition insert (v : V) (this : CDHashSet) : option (CDHashSet * bool) :=
  CDInsertHashMap.insert_safe v true this.
Definition contains (v : V) (this : CDHashSet) : option bool := CDInsertHashMap.contains v this.

End cdhashset.
End CDHashSet.

(** Objects of different classes share a context. *)
#[global] Instance sum_data {A B} `{!ContextData A, !ContextData B} : ContextData (A + B) := {
  save t := match t with
            | inl a => (inl (save a).1, inl (save a).2)
            | inr b => (inr (save b).1, inr (save b).2)
            end;
  restore t s := match t, s with
                 | inl a, inl a' => inl <$> restore a a'
                 | inr b, inr b' => inr <$> restore b b'
                 | _, _ => None
                 end;
}.

Definition sum_mods {A B} `{!ContextData A, !ContextData B, !ContextLaws A, !ContextLaws B}
    (t t' : A + B) : Prop :=
  match t, t' with
  | inl a, inl a' => mods a a'
  | inr b, inr b' => mods b b'
  | _, _ => False
  end.

Lemma sum_mods_rtc {A B} `{!ContextData A, !ContextData B, !ContextLaws A, !ContextLaws B} (t t' : A + B) :
  rtc sum_mods t t' →
  match t, t' with
  | inl a, inl a' => rtc mods a a'
  | inr b, inr b' => rtc mods b b'
  | _, _ => False
  end.
Proof.
  induction 1 as [[a|b]|[a|b] [a'|b'] z Hm _ IH]; try done; destruct z; try done; by eapply rtc_l.
Qed.

#[global] Program Instance sum_laws {A B}
    `{!ContextData A, !ContextData B, !ContextLaws A, !ContextLaws B} : ContextLaws (A + B) := {
  mods := sum_mods;
  wf t := match t with inl a => wf a | inr b => wf b end;
}.
Next Obligation. intros A B ???? [a|b]; simpl; apply wf_save. Qed.
Next Obligation. intros A B ???? [a|b] [a'|b']; simpl; try done; apply wf_mods. Qed.
Next Obligation.
  intros A B ???? [a|b] t' Hw Hr%sum_mods_rtc; destruct t'; simpl in *; try done;
    by rewrite restore_save.
Qed.
