(* ===== verification/MemoryManager.v ===== *)
(** [context/context_mm.h] and [context_mm.cpp]: the region-based memory manager
    of the contexts, which carves allocations out of chunks.  A pointer is a
    chunk, named by the order in which [malloc] returned them, and an offset.
    The heap is the next chunk [malloc] returns ([nextChunk]; [malloc] does not
    fail here) and the chunks given to [free], the last one first ([freed]).
    Every stack has its top first. *)
From stdpp Require Import base option list numbers sorting.
From S2P Require Import Prelude.
Open Scope Z_scope.

Module CMM.

Definition chunkSizeBytes : Z := 16384.
Definition maxFreeChunks : nat := 100.

Record ptr := mkPtr { chunk : positive; offset : Z }.

Record ContextMemoryManager := mkCMM {
  d_chunkList : list positive;
  d_freeChunks : list positive;
  d_nextFree : ptr;
  d_endChunk : ptr;
  d_indexChunkList : nat;
  d_nextFreeStack : list ptr;
  d_endChunkStack : list ptr;
  d_indexChunkListStack : list nat;
  nextChunk : positive;
  freed : list positive;
}.

(** [p > q], for pointers into one chunk. *)
Definition ptr_gt (p q : ptr) : option bool :=
  if decide (chunk p = chunk q) then Some (bool_decide (offset p > offset q)) else None.

Definition advance (p : ptr) (size : Z) : ptr := mkPtr (chunk p) (offset p + size).

Definition new : ContextMemoryManager :=
  mkCMM [1%positive] [] (mkPtr 1 0) (mkPtr 1 chunkSizeBytes) 0 [] [] [] 2 [].

Definition newChunk (m : ContextMemoryManager) : option ContextMemoryManager :=
  let index := S (d_indexChunkList m) in
  _ ← assert (bool_decide (length (d_chunkList m) = index));
  let '(c, free, next) :=
    match last (d_freeChunks m) with
    | None => (nextChunk m, d_freeChunks m, Pos.succ (nextChunk m))
    | Some c => (c, removelast (d_freeChunks m), nextChunk m)
    end in
  Some (mkCMM (d_chunkList m ++ [c]) free (mkPtr c 0) (mkPtr c chunkSizeBytes) index
          (d_nextFreeStack m) (d_endChunkStack m) (d_indexChunkListStack m) next (freed m)).

Definition with_nextFree (p : ptr) (m : ContextMemoryManager) : ContextMemoryManager :=
  mkCMM (d_chunkList m) (d_freeChunks m) p (d_endChunk m) (d_indexChunkList m)
    (d_nextFreeStack m) (d_endChunkStack m) (d_indexChunkListStack m) (nextChunk m) (freed m).

Definition newData (size : Z) (m : ContextMemoryManager) : option (ptr * ContextMemoryManager) :=
  let res := d_nextFree m in
  let m1 := with_nextFree (advance res size) m in
  tooBig ← ptr_gt (d_nextFree m1) (d_endChunk m1);
  if (tooBig : bool) then
    m2 ← newChunk m1;
    let res := d_nextFree m2 in
    let m3 := with_nextFree (advance res size) m2 in
    gt ← ptr_gt (d_nextFree m3) (d_endChunk m3);
    _ ← assert (negb gt);
    Some (res, m3)
  else Some (res, m1).

Definition push (m : ContextMemoryManager) : ContextMemoryManager :=
  mkCMM (d_chunkList m) (d_freeChunks m) (d_nextFree m) (d_endChunk m) (d_indexChunkList m)
    (d_nextFree m :: d_nextFreeStack m) (d_endChunk m :: d_endChunkStack m)
    (d_indexChunkList m :: d_indexChunkListStack m) (nextChunk m) (freed m).

(** [while (d_indexChunkList > d_indexChunkListStack.back())]: the chunks move
    to the free list. *)
Fixpoint releaseLoop (index target : nat) (chunks free : list positive) : option (nat * list positive * list positive) :=
  if decide (target < index)%nat then
    match index with
    | O => None
    | S index => c ← last chunks; releaseLoop index target (removelast chunks) (free ++ [c])
    end
  else Some (index, chunks, free).

(** [while (d_freeChunks.size() > maxFreeChunks)]. *)
Fixpoint trimLoop (free freed : list positive) : list positive * list positive :=
  match free with
  | [] => ([], freed)
  | c :: free' => if decide (maxFreeChunks < length free)%nat then trimLoop free' (c :: freed) else (free, freed)
  end.

Definition pop (m : ContextMemoryManager) : option ContextMemoryManager :=
  _ ← assert (bool_decide (0 < length (d_nextFreeStack m))%nat && bool_decide (0 < length (d_endChunkStack m))%nat);
  nextFree ← head (d_nextFreeStack m);
  endChunk ← head (d_endChunkStack m);
  target ← head (d_indexChunkListStack m);
  '(index, chunks, free) ← releaseLoop (d_indexChunkList m) target (d_chunkList m) (d_freeChunks m);
  let '(free, freed) := trimLoop free (freed m) in
  Some (mkCMM chunks free nextFree endChunk index
          (tail (d_nextFreeStack m)) (tail (d_endChunkStack m)) (tail (d_indexChunkListStack m)) (nextChunk m) freed).

(** [while (!l.empty()) { free(l.back()); l.pop_back(); }] *)
Definition freeLoop (l freed : list positive) : list positive := foldr (λ c freed, c :: freed) freed l.

(** The destructor: the chunks that have been freed when it returns. *)
Definition destroy (m : ContextMemoryManager) : list positive :=
  freeLoop (d_freeChunks m) (freeLoop (d_chunkList m) (freed m)).

(** ** Regions of allocations *)

Record alloc := mkAlloc { at_ : ptr; size : Z }.

Definition disjoint (a b : alloc) : Prop :=
  chunk (at_ a) ≠ chunk (at_ b) ∨ offset (at_ a) + size a ≤ offset (at_ b) ∨ offset (at_ b) + size b ≤ offset (at_ a).

(** A position: an index in [d_chunkList] and an offset in that chunk. *)
Definition mark : Type := nat * Z.

Definition mark_le (p q : mark) : Prop := (p.1 < q.1)%nat ∨ (p.1 = q.1 ∧ p.2 ≤ q.2).

(** An allocation inside a chunk of the list, ending at or before a position. *)
Definition below (chunks : list positive) (k : mark) (a : alloc) : Prop :=
  0 ≤ offset (at_ a) ∧ 0 ≤ size a ∧ offset (at_ a) + size a ≤ chunkSizeBytes ∧
  ∃ i, chunks !! i = Some (chunk (at_ a)) ∧ mark_le (i, offset (at_ a) + size a) k.

(** A saved state of the current chunk. *)
Definition valid (chunks : list positive) (k : mark) (p e : ptr) : Prop :=
  chunks !! k.1 = Some (chunk p) ∧ offset p = k.2 ∧ 0 ≤ k.2 ≤ chunkSizeBytes ∧ e = mkPtr (chunk p) chunkSizeBytes.

(** The chunks [malloc] returned: held, on the free list or given back. *)
Definition allChunks (m : ContextMemoryManager) : list positive := d_chunkList m ++ d_freeChunks m ++ freed m.

(** The invariant: [regs] are the allocations of the live regions, the current
    one first, [ks] the position of the current region and the saved ones. *)
Record Inv (m : ContextMemoryManager) (regs : list (list alloc)) (ks : list mark) : Prop := {
  inv_index : length (d_chunkList m) = S (d_indexChunkList m);
  inv_nodup : NoDup (allChunks m);
  inv_fresh : Forall (λ c, (c < nextChunk m)%positive) (allChunks m);
  inv_count : S (length (allChunks m)) = Pos.to_nat (nextChunk m);
  inv_free : (length (d_freeChunks m) ≤ maxFreeChunks)%nat;
  inv_marks : ks.*1 = d_indexChunkList m :: d_indexChunkListStack m;
  inv_valid : Forall2 (λ k pe, valid (d_chunkList m) k pe.1 pe.2) ks
                (zip (d_nextFree m :: d_nextFreeStack m) (d_endChunk m :: d_endChunkStack m));
  inv_stacks : length (d_nextFreeStack m) = length (d_endChunkStack m);
  inv_sorted : StronglySorted (flip mark_le) ks;
  inv_below : Forall2 (λ r k, Forall (below (d_chunkList m) k) r) regs ks;
  inv_disjoint : ForallOrdPairs disjoint (concat regs);
}.

(** ** Positions *)

Lemma mark_le_trans p q r : mark_le p q → mark_le q r → mark_le p r.
Proof. unfold mark_le. destruct p, q, r; simpl. lia. Qed.

Lemma below_mono chunks k k' a : mark_le k k' → below chunks k a → below chunks k' a.
Proof. intros Hk (H1&H2&H3&i&Hi&Hm). split_and!; [done..|]. exists i. split; [done|]. by eapply mark_le_trans. Qed.

Lemma below_app chunks l k a : below chunks k a → below (chunks ++ l) k a.
Proof. intros (H1&H2&H3&i&Hi&Hm). split_and!; [done..|]. exists i. split; [|done]. by apply lookup_app_l_Some. Qed.

Lemma below_take chunks n k a : below chunks k a → (k.1 < n)%nat → below (take n chunks) k a.
Proof.
  intros (H1&H2&H3&i&Hi&Hm) Hn. split_and!; [done..|]. exists i. split; [|done].
  rewrite lookup_take_lt; [done|]. destruct Hm as [Hm|[Hm _]]; simpl in Hm; lia.
Qed.

(** Every live allocation ends before the current position. *)
Lemma all_below m regs k0 ks :
  Inv m regs (k0 :: ks) → Forall (below (d_chunkList m) k0) (concat regs).
Proof.
  intros HI. pose proof (inv_sorted _ _ _ HI) as Hs. pose proof (inv_below _ _ _ HI) as HF.
  apply StronglySorted_cons in Hs as [Hle _].
  assert (Forall (λ k, mark_le k k0) (k0 :: ks)) as Hall.
  { constructor; [right; done|]. eapply list.Forall_impl; [exact Hle|done]. }
  clear - HF Hall. revert Hall. revert HF. generalize (k0 :: ks). intros ls HF.
  induction HF as [|r k rs ls Hr HF IH]; intros Hall; [constructor|]. inversion Hall; subst. cbn [concat].
  apply Forall_app. split; [|by apply IH]. eapply list.Forall_impl; [exact Hr|]. intros a. by apply below_mono.
Qed.

Lemma current m regs k0 ks :
  Inv m regs (k0 :: ks) →
  k0 = (d_indexChunkList m, offset (d_nextFree m)) ∧ valid (d_chunkList m) k0 (d_nextFree m) (d_endChunk m).
Proof.
  intros HI. pose proof (inv_marks _ _ _ HI) as Hm. pose proof (inv_valid _ _ _ HI) as HF. simpl in HF.
  inversion HF as [|? ? ? ? Hv _]; subst. simpl in Hm. injection Hm as Hi _. split; [|done].
  destruct k0 as [i n], Hv as (_&Ho&_). simpl in *. by subst.
Qed.

(** The current position moves over a new allocation in the current chunk. *)
Lemma bump_inv m r rs k0 ks size :
  Inv m (r :: rs) (k0 :: ks) → 0 ≤ size → offset (d_nextFree m) + size ≤ chunkSizeBytes →
  Inv (with_nextFree (advance (d_nextFree m) size) m) ((mkAlloc (d_nextFree m) size :: r) :: rs)
    ((k0.1, k0.2 + size) :: ks).
Proof.
  intros HI Hs Hb. destruct (current _ _ _ _ HI) as (->&Hc&_&Hn&He). cbn [fst snd] in *.
  assert (mark_le (d_indexChunkList m, offset (d_nextFree m)) (d_indexChunkList m, offset (d_nextFree m) + size))
    as Hle by (right; simpl; lia).
  split; cbn [d_chunkList d_freeChunks d_indexChunkList d_nextFree d_endChunk d_nextFreeStack d_endChunkStack
    d_indexChunkListStack nextChunk freed allChunks with_nextFree]; try apply HI.
  - pose proof (inv_valid _ _ _ HI) as HF. simpl in HF |- *. inversion HF as [|? ? ? ? Hv HF']; subst.
    constructor; [|done]. cbn [fst snd advance chunk offset] in *. split_and!; try done; simpl; try lia.
  - pose proof (inv_sorted _ _ _ HI) as HS. apply StronglySorted_cons in HS as [HF HS]. constructor; [done|].
    eapply list.Forall_impl; [exact HF|]. intros k Hk. by eapply mark_le_trans.
  - pose proof (inv_below _ _ _ HI) as HF. inversion HF as [|? ? ? ? Hr HF']; subst. constructor; [|done]. constructor.
    + split_and!; cbn; [lia..|]. exists (d_indexChunkList m). split; [done|]. right. simpl. lia.
    + eapply list.Forall_impl; [exact Hr|]. intros a. by apply below_mono.
  - cbn [concat app]. constructor; [|apply (inv_disjoint _ _ _ HI)].
    eapply list.Forall_impl; [apply (all_below _ _ _ _ HI)|]. intros a (_&_&_&i&Hi&Hm). unfold disjoint. cbn [at_].
    destruct (decide (chunk (d_nextFree m) = chunk (at_ a))) as [E|]; [|by left]. right. right.
    pose proof (inv_nodup _ _ _ HI) as HND. unfold allChunks in HND. rewrite <- E in Hi. assert (i = d_indexChunkList m) as ->.
    { eapply NoDup_lookup; [|exact Hi|exact Hc]. by apply (proj1 (NoDup_app _ _)) in HND as [? _]. }
    destruct Hm as [Hm|[_ Hm]]; simpl in Hm; lia.
Qed.

Lemma valid_app chunks l k p e : valid chunks k p e → valid (chunks ++ l) k p e.
Proof. intros (H1&?&?&?). split_and!; try done; try lia. by apply lookup_app_l_Some. Qed.

(** A fresh chunk for the current region. *)
Lemma newChunk_inv m regs k0 ks :
  Inv m regs (k0 :: ks) →
  ∃ m' c, newChunk m = Some m' ∧ d_nextFree m' = mkPtr c 0 ∧ d_endChunk m' = mkPtr c chunkSizeBytes ∧
    Inv m' regs ((S (d_indexChunkList m), 0) :: ks).
Proof.
  intros HI. unfold newChunk. rewrite bool_decide_true by apply (inv_index _ _ _ HI). cbn [assert mbind option_bind].
  assert (∀ c free next, let l := (d_chunkList m ++ [c]) ++ free ++ freed m in
    NoDup l → Forall (λ c, (c < next)%positive) l → S (length l) = Pos.to_nat next →
    (length free ≤ maxFreeChunks)%nat →
    Inv (mkCMM (d_chunkList m ++ [c]) free (mkPtr c 0) (mkPtr c chunkSizeBytes) (S (d_indexChunkList m))
          (d_nextFreeStack m) (d_endChunkStack m) (d_indexChunkListStack m) next (freed m)) regs
        ((S (d_indexChunkList m), 0) :: ks)) as Hgen.
  { intros c free next l HN HF HC Hl. split; cbn [d_chunkList d_freeChunks d_indexChunkList d_nextFree d_endChunk
      d_nextFreeStack d_endChunkStack d_indexChunkListStack nextChunk freed]; try done.
    - rewrite length_app, (inv_index _ _ _ HI). simpl. lia.
    - pose proof (inv_marks _ _ _ HI) as Hm. rewrite fmap_cons in Hm |- *. injection Hm as _ Hm. by rewrite Hm.
    - pose proof (inv_valid _ _ _ HI) as HV. simpl in HV |- *. inversion HV as [|? ? ? ? _ HV']; subst. constructor.
      + cbn. split_and!; try done. apply list_lookup_middle. symmetry. apply (inv_index _ _ _ HI).
      + eapply Forall2_impl; [exact HV'|]. intros k [p e]. apply valid_app.
    - apply (inv_stacks _ _ _ HI).
    - pose proof (inv_sorted _ _ _ HI) as HS. apply StronglySorted_cons in HS as [HS1 HS2]. constructor; [done|].
      eapply list.Forall_impl; [exact HS1|]. intros k Hk. eapply mark_le_trans; [exact Hk|].
      destruct (current _ _ _ _ HI) as [-> _]. left. simpl. lia.
    - pose proof (inv_below _ _ _ HI) as HB. inversion HB as [|r ? rs ? Hr HB']; subst. constructor.
      + eapply list.Forall_impl; [exact Hr|]. intros a Ha. apply below_app. eapply below_mono; [|exact Ha].
        destruct (current _ _ _ _ HI) as [-> _]. left. simpl. lia.
      + eapply Forall2_impl; [exact HB'|]. intros r' k Hr'. eapply list.Forall_impl; [exact Hr'|]. intros a. apply below_app.
    - apply (inv_disjoint _ _ _ HI). }
  pose proof (inv_nodup _ _ _ HI) as HN. pose proof (inv_fresh _ _ _ HI) as HF. pose proof (inv_count _ _ _ HI) as HC.
  pose proof (inv_free _ _ _ HI) as Hl. unfold allChunks in HN, HF, HC.
  destruct (last (d_freeChunks m)) as [c|] eqn:E.
  - apply last_Some in E as [free E]. rewrite E in *. rewrite removelast_last. eexists _, c. split_and!; [done..|].
    assert ((d_chunkList m ++ [c]) ++ free ++ freed m ≡ₚ d_chunkList m ++ (free ++ [c]) ++ freed m) as HP by solve_Permutation.
    apply Hgen; rewrite ?HP; [done..|]. rewrite length_app in Hl. simpl in Hl. lia.
  - apply last_None in E. rewrite E in *. eexists _, _. split_and!; [done..|].
    assert ((d_chunkList m ++ [nextChunk m]) ++ [] ++ freed m ≡ₚ nextChunk m :: d_chunkList m ++ [] ++ freed m) as HP
      by solve_Permutation.
    apply Hgen; rewrite ?HP; [| | |simpl; lia].
    + constructor; [|done]. intros Hx. rewrite list.Forall_forall in HF. specialize (HF _ Hx). simpl in HF. lia.
    + constructor; [lia|]. eapply list.Forall_impl; [exact HF|]. simpl. lia.
    + cbn [length]. lia.
Qed.

(** ** The operations *)

Ltac cmm_simpl :=
  cbn [d_chunkList d_freeChunks d_indexChunkList d_nextFree d_endChunk d_nextFreeStack d_endChunkStack
    d_indexChunkListStack nextChunk freed allChunks with_nextFree push].

Lemma ptr_gt_advance p size o :
  ptr_gt (advance p size) (mkPtr (chunk p) o) = Some (bool_decide (offset p + size > o)).
Proof. unfold ptr_gt. by rewrite decide_True. Qed.

Lemma newData_inv m r rs k0 ks size :
  Inv m (r :: rs) (k0 :: ks) → 0 ≤ size ≤ chunkSizeBytes →
  ∃ res m' k, newData size m = Some (res, m') ∧ Inv m' ((mkAlloc res size :: r) :: rs) (k :: ks).
Proof.
  intros HI Hs. destruct (current _ _ _ _ HI) as (_&_&_&_&He). unfold newData. cmm_simpl.
  rewrite He. rewrite ptr_gt_advance. cbn [mbind option_bind].
  case_bool_decide as Hgt.
  - destruct (newChunk_inv _ _ _ _ HI) as (m2&c&H2&Hn&He2&HI2).
    change (newChunk (with_nextFree _ m)) with (newChunk m). rewrite H2. cbn [mbind option_bind]. cmm_simpl.
    rewrite Hn, He2. rewrite (ptr_gt_advance (mkPtr c 0)), bool_decide_false by (simpl; lia).
    cbn [mbind option_bind assert negb]. eexists _, _, _. split; [reflexivity|].
    pose proof (bump_inv _ _ _ _ _ size HI2) as Hb. rewrite Hn in Hb. apply Hb; simpl; lia.
  - eexists _, _, _. split; [reflexivity|]. apply (bump_inv _ _ _ _ _ _ HI); lia.
Qed.

(** An oversized request fails whatever the state. *)
Lemma newData_oversized m regs k0 ks size :
  Inv m regs (k0 :: ks) → chunkSizeBytes < size → newData size m = None.
Proof.
  intros HI Hs. destruct (current _ _ _ _ HI) as (->&Hc&_&Hn&He). cbn [fst snd] in *. unfold newData. cmm_simpl.
  rewrite He. rewrite ptr_gt_advance, bool_decide_true by lia. cbn [mbind option_bind].
  destruct (newChunk_inv _ _ _ _ HI) as (m2&c&H2&Hn2&He2&_).
  change (newChunk (with_nextFree _ m)) with (newChunk m). rewrite H2. cbn [mbind option_bind]. cmm_simpl.
  rewrite Hn2, He2. by rewrite (ptr_gt_advance (mkPtr c 0)), bool_decide_true by (simpl; lia).
Qed.

Lemma push_inv m regs k0 ks : Inv m regs (k0 :: ks) → Inv (push m) ([] :: regs) (k0 :: k0 :: ks).
Proof.
  intros HI. destruct (current _ _ _ _ HI) as [Hk0 Hv]. split; cmm_simpl; try apply HI.
  - rewrite fmap_cons, (inv_marks _ _ _ HI), Hk0. done.
  - cbn [zip zip_with]. constructor; [done|]. apply (inv_valid _ _ _ HI).
  - simpl. by rewrite (inv_stacks _ _ _ HI).
  - pose proof (inv_sorted _ _ _ HI) as HS. constructor; [done|]. apply StronglySorted_cons in HS as [HF _].
    constructor; [right; done|done].
  - constructor; [constructor|apply (inv_below _ _ _ HI)].
Qed.

Lemma releaseLoop_spec index target chunks free :
  (target ≤ index)%nat → length chunks = S index →
  releaseLoop index target chunks free =
    Some (target, take (S target) chunks, free ++ reverse (drop (S target) chunks)).
Proof.
  revert chunks free. induction index as [|index IH]; intros chunks free Ht Hl; cbn [releaseLoop].
  - rewrite decide_False by lia. assert (target = O) as -> by lia.
    by rewrite take_ge, drop_ge, reverse_nil, app_nil_r by lia.
  - case_decide.
    + destruct chunks as [|c chunks _] using rev_ind; [done|]. rewrite length_app in Hl. simpl in Hl.
      rewrite last_snoc, removelast_last. cbn [mbind option_bind]. rewrite IH by lia.
      rewrite take_app_le, drop_app_le by lia. by rewrite reverse_app, reverse_singleton, <- (assoc_L (++)).
    + assert (target = S index) as -> by lia. by rewrite take_ge, drop_ge, reverse_nil, app_nil_r by lia.
Qed.

Lemma trimLoop_spec free freed :
  trimLoop free freed =
    (drop (length free - maxFreeChunks) free, reverse (take (length free - maxFreeChunks) free) ++ freed).
Proof.
  revert freed. induction free as [|c free IH]; intros freed; [done|]. cbn [trimLoop]. case_decide as Hd.
  - rewrite IH. cbn [length] in *.
    replace (S (length free) - maxFreeChunks)%nat with (S (length free - maxFreeChunks)) by lia.
    cbn [drop take]. by rewrite reverse_cons, <- (assoc_L (++)).
  - by replace (length (c :: free) - maxFreeChunks)%nat with O by lia.
Qed.

(** A release moves chunks from list to list. *)
Lemma release_chunks n (chunks free freed : list positive) (k : nat) :
  let l := free ++ reverse (drop n chunks) in
  take n chunks ++ drop k l ++ reverse (take k l) ++ freed ≡ₚ chunks ++ free ++ freed.
Proof.
  intros l. trans (take n chunks ++ l ++ freed).
  { rewrite <- (take_drop k l) at 3. rewrite reverse_Permutation. solve_Permutation. }
  unfold l. rewrite <- (take_drop n chunks) at 3. rewrite reverse_Permutation. solve_Permutation.
Qed.

Lemma Forall2_weaken {A B} (P : A → Prop) (R R' : A → B → Prop) l k :
  Forall2 R l k → Forall P l → (∀ x y, P x → R x y → R' x y) → Forall2 R' l k.
Proof. intros HF HP HR. induction HF; inversion HP; subst; constructor; auto. Qed.

Lemma valid_take chunks n k p e : valid chunks k p e → (k.1 < n)%nat → valid (take n chunks) k p e.
Proof. intros (?&?&?&?) Hn. split_and!; try done; try lia. by rewrite lookup_take_lt. Qed.

Lemma pop_inv m r rs k0 k1 ks :
  Inv m (r :: rs) (k0 :: k1 :: ks) → ∃ m', pop m = Some m' ∧ Inv m' rs (k1 :: ks).
Proof.
  intros HI. pose proof (inv_marks _ _ _ HI) as Hm. pose proof (inv_valid _ _ _ HI) as HV.
  pose proof (inv_sorted _ _ _ HI) as HS. pose proof (inv_stacks _ _ _ HI) as Hst.
  pose proof (inv_below _ _ _ HI) as HB. pose proof (inv_index _ _ _ HI) as Hi.
  rewrite !fmap_cons in Hm. injection Hm as Hm0 Hm.
  apply StronglySorted_cons in HS as [HS1 HS2]. inversion HS1 as [|? ? Hle _]; subst.
  apply StronglySorted_cons in HS2 as [HS2 HS3]. inversion HB as [|? ? ? ? _ HB']; subst.
  assert (Forall (λ k : mark, (k.1 < S k1.1)%nat) (k1 :: ks)) as Hlt.
  { constructor; [lia|]. eapply list.Forall_impl; [exact HS2|]. intros k [?|[??]]; simpl in *; lia. }
  destruct (d_nextFreeStack m) as [|p ps] eqn:Ep, (d_endChunkStack m) as [|e es] eqn:Ee; simplify_eq/=;
    [inversion HV as [|? ? ? ? _ HV']; inversion HV'|].
  inversion HV as [|? ? ? ? _ HV']; subst. unfold pop. rewrite Ep, Ee, <- Hm.
  cbn [length assert mbind option_bind head tail fmap list_fmap].
  assert (k1.1 ≤ k0.1)%nat as Hk by (destruct Hle as [?|[??]]; simpl in *; lia).
  rewrite releaseLoop_spec by lia. cbn [mbind option_bind]. rewrite trimLoop_spec. eexists. split; [reflexivity|].
  pose proof (release_chunks (S k1.1) (d_chunkList m) (d_freeChunks m)) as Hsub.
  specialize (Hsub (freed m)). split; unfold allChunks; cmm_simpl; try done.
  - rewrite length_take. lia.
  - rewrite Hsub. apply HI.
  - rewrite Hsub. apply HI.
  - rewrite Hsub. apply HI.
  - rewrite length_drop. lia.
  - eapply Forall2_weaken; [exact HV'|exact Hlt|]. intros k [p' e'] Hk' Hv. by apply valid_take.
  - by apply StronglySorted_cons.
  - apply Forall2_flip in HB'. apply Forall2_flip. eapply Forall2_weaken; [exact HB'|exact Hlt|]. intros k r' Hk' Hr'.
    eapply list.Forall_impl; [exact Hr'|]. intros a Ha. by apply below_take.
  - pose proof (inv_disjoint _ _ _ HI) as HD. cbn [concat] in HD. clear - HD. induction r as [|a r IH]; [done|].
    apply IH. cbn [app] in HD. by inversion HD.
Qed.

Lemma new_inv : Inv new [[]] [(0%nat, 0)].
Proof.
  split; simpl; try done; try lia.
  - apply NoDup_singleton.
  - repeat constructor.
  - constructor; [|constructor]. by split_and!.
  - repeat constructor.
  - repeat constructor.
  - constructor.
Qed.

(** ** Sequences of requests

    The ghost state is a stack of regions, each the allocations made in it. *)

Inductive request := NewData (size : Z) | Push | Pop.

Definition serve (q : request) (s : ContextMemoryManager * list (list alloc)) :
    option (ContextMemoryManager * list (list alloc)) :=
  let '(m, regs) := s in
  match q, regs with
  | NewData size, r :: rs => '(res, m') ← newData size m; Some (m', (mkAlloc res size :: r) :: rs)
  | Push, _ => Some (push m, [] :: regs)
  | Pop, _ :: rs => m' ← pop m; Some (m', rs)
  | _, [] => None
  end.

Fixpoint serveAll (qs : list request) (s : ContextMemoryManager * list (list alloc)) :
    option (ContextMemoryManager * list (list alloc)) :=
  match qs with
  | [] => Some s
  | q :: qs => s' ← serve q s; serveAll qs s'
  end.

(** No request is oversized, no pop is without its push, and [depth] regions
    are left open at the end above the [d] open at the start. *)
Fixpoint well_bracketed (d : nat) (qs : list request) : option nat :=
  match qs with
  | [] => Some d
  | NewData size :: qs => if bool_decide (0 ≤ size ≤ chunkSizeBytes) then well_bracketed d qs else None
  | Push :: qs => well_bracketed (S d) qs
  | Pop :: qs => match d with O => None | S d => well_bracketed d qs end
  end.

Definition served (s : ContextMemoryManager * list (list alloc)) : Prop := ∃ ks, Inv s.1 s.2 ks.

(** The memory [m0] had when a region was opened, still there [d] regions up. *)
Record Kept (m0 m : ContextMemoryManager) (d : nat) : Prop := {
  kept_chunks : take (length (d_chunkList m0)) (d_chunkList m) = d_chunkList m0;
  kept_nextFree : drop d (d_nextFreeStack m) = d_nextFree m0 :: d_nextFreeStack m0;
  kept_endChunk : drop d (d_endChunkStack m) = d_endChunk m0 :: d_endChunkStack m0;
  kept_index : drop d (d_indexChunkListStack m) = d_indexChunkList m0 :: d_indexChunkListStack m0;
}.

Lemma take_prefix {A} (l0 l l' : list A) : take (length l0) l = l0 → take (length l0) (l ++ l') = l0.
Proof.
  intros E. rewrite take_app_le; [done|]. rewrite <- E at 1. rewrite length_take. lia.
Qed.

Lemma newData_kept m0 m d size res m' : newData size m = Some (res, m') → Kept m0 m d → Kept m0 m' d.
Proof.
  intros E [K1 K2 K3 K4]. unfold newData in E. apply bind_Some in E as (b&_&E). destruct b.
  - apply bind_Some in E as (m2&E2&E). apply bind_Some in E as (b&_&E). apply bind_Some in E as (?&_&E). simplify_eq.
    unfold newChunk in E2. apply bind_Some in E2 as (?&_&E2).
    destruct (match last _ with Some _ => _ | None => _ end) as [[c free] next]. simplify_eq/=.
    split; cmm_simpl; [by apply take_prefix|done..].
  - simplify_eq. by split.
Qed.

Lemma push_kept m0 m d : Kept m0 m d → Kept m0 (push m) (S d).
Proof. intros [K1 K2 K3 K4]. by split. Qed.

Lemma drop_S_tail {A} d (l : list A) : drop d (tail l) = drop (S d) l.
Proof. destruct l; [by destruct d|done]. Qed.

(** The index saved [d] regions down is at most the one on top. *)
Lemma index_sorted m regs ks d j i :
  Inv m regs ks → d_indexChunkListStack m !! O = Some j → d_indexChunkListStack m !! d = Some i → (i ≤ j)%nat.
Proof.
  intros HI H0 Hd. pose proof (inv_marks _ _ _ HI) as Hm. pose proof (inv_sorted _ _ _ HI) as HS.
  destruct ks as [|k0 ks]; [done|]. rewrite fmap_cons in Hm. injection Hm as _ Hm.
  apply StronglySorted_cons in HS as [_ HS]. rewrite <- Hm in H0, Hd.
  apply list_lookup_fmap_Some in H0 as (k&->&H0). apply list_lookup_fmap_Some in Hd as (k'&->&Hd).
  destruct ks as [|k1 ks]; [done|]. simplify_eq/=. apply StronglySorted_cons in HS as [HS _].
  destruct d as [|d]; simplify_eq/=; [lia|]. eapply list.Forall_lookup_1 in HS; [|exact Hd].
  destruct HS as [?|[??]]; lia.
Qed.

(** What a successful pop does, field by field. *)
Lemma pop_fields m regs ks m' :
  Inv m regs ks → pop m = Some m' →
  ∃ t, d_indexChunkListStack m !! O = Some t ∧ d_chunkList m' = take (S t) (d_chunkList m) ∧
    d_indexChunkList m' = t ∧ head (d_nextFreeStack m) = Some (d_nextFree m') ∧
    head (d_endChunkStack m) = Some (d_endChunk m') ∧ d_nextFreeStack m' = tail (d_nextFreeStack m) ∧
    d_endChunkStack m' = tail (d_endChunkStack m) ∧ d_indexChunkListStack m' = tail (d_indexChunkListStack m).
Proof.
  intros HI E. unfold pop in E. apply bind_Some in E as (?&_&E).
  apply bind_Some in E as (p&Hp&E). apply bind_Some in E as (e&He&E). apply bind_Some in E as (t&Ht&E).
  rewrite head_lookup in Ht. pose proof (inv_marks _ _ _ HI) as Hm. pose proof (inv_sorted _ _ _ HI) as HS.
  destruct ks as [|k0 ks]; [done|]. rewrite fmap_cons in Hm. injection Hm as Hk Hm.
  assert (t ≤ d_indexChunkList m)%nat as Hti.
  { rewrite <- Hm in Ht. apply list_lookup_fmap_Some in Ht as (k&->&Hk').
    apply StronglySorted_cons in HS as [HS _]. eapply list.Forall_lookup_1 in HS; [|exact Hk'].
    destruct HS as [?|[??]]; lia. }
  rewrite releaseLoop_spec in E by (rewrite ?(inv_index _ _ _ HI); lia). cbn [mbind option_bind] in E. rewrite trimLoop_spec in E. simplify_eq/=. by exists t.
Qed.

Lemma pop_kept m0 m regs ks d m' :
  Inv m regs ks → length (d_chunkList m0) = S (d_indexChunkList m0) →
  pop m = Some m' → Kept m0 m (S d) → Kept m0 m' d.
Proof.
  intros HI Hl0 E [K1 K2 K3 K4]. destruct (pop_fields _ _ _ _ HI E) as (t&Ht&Ec&_&_&_&En&Ee&Ei).
  assert (d_indexChunkListStack m !! S d = Some (d_indexChunkList m0)) as Hd.
  { rewrite <- (Nat.add_0_r (S d)), <- lookup_drop, K4. done. }
  pose proof (index_sorted _ _ _ _ _ _ HI Ht Hd) as Hle.
  split; rewrite ?En, ?Ee, ?Ei, ?drop_S_tail; try done. rewrite Ec, take_take, Nat.min_l by lia. done.
Qed.

(** One request: [b] regions were open before the sequence of requests started. *)
Lemma serve_served q b d qs n s :
  served s → length s.2 = S (b + d) → well_bracketed d (q :: qs) = Some n →
  ∃ s' d', serve q s = Some s' ∧ served s' ∧ length s'.2 = S (b + d') ∧ well_bracketed d' qs = Some n ∧
    drop (S d') s'.2 = drop (S d) s.2 ∧
    (∀ m0, length (d_chunkList m0) = S (d_indexChunkList m0) → Kept m0 s.1 d → Kept m0 s'.1 d').
Proof.
  destruct s as [m [|r rs]]; [done|]. intros [ks HI] Hl Hw. simpl in HI, Hl.
  pose proof (inv_below _ _ _ HI) as HB. destruct ks as [|k0 ks]; [inversion HB|].
  destruct q as [size| |]; cbn [well_bracketed serve] in *.
  - case_bool_decide; [|done]. destruct (newData_inv _ _ _ _ _ size HI) as (res&m'&k&E&HI'); [done|].
    rewrite E. eexists _, d. split_and!; [done|by eexists|simpl; lia|done|done|]. intros m0 _. by eapply newData_kept.
  - eexists _, (S d). split_and!; [done|eexists; by apply push_inv|simpl; lia|done|done|]. intros m0 _. apply push_kept.
  - destruct d as [|d]; [done|]. destruct ks as [|k1 ks].
    { apply Forall2_length in HB. simpl in *. lia. }
    destruct (pop_inv _ _ _ _ _ _ HI) as (m'&E&HI'). rewrite E.
    eexists _, d. split_and!; [done|by eexists|simpl; lia|done|done|]. intros m0 Hm0. by eapply pop_kept.
Qed.

Lemma serveAll_app qs qs' s : serveAll (qs ++ qs') s = s' ← serveAll qs s; serveAll qs' s'.
Proof. revert s. induction qs as [|q qs IH]; intros s; [done|]. simpl. destruct (serve q s); [apply IH|done]. Qed.

Lemma serveAll_served qs b d n s :
  served s → length s.2 = S (b + d) → well_bracketed d qs = Some n →
  ∃ s', serveAll qs s = Some s' ∧ served s' ∧ length s'.2 = S (b + n) ∧
    drop (S n) s'.2 = drop (S d) s.2 ∧
    (∀ m0, length (d_chunkList m0) = S (d_indexChunkList m0) → Kept m0 s.1 d → Kept m0 s'.1 n).
Proof.
  revert d s. induction qs as [|q qs IH]; intros d s Hs Hl Hw; [simpl in Hw; simplify_eq; by exists s|].
  destruct (serve_served _ b _ _ _ _ Hs Hl Hw) as (s1&d1&E1&Hs1&Hl1&Hw1&Hd1&HK1).
  destruct (IH _ _ Hs1 Hl1 Hw1) as (s'&E&Hs'&Hl'&Hd'&HK). exists s'. cbn [serveAll]. rewrite E1.
  split_and!; [done..|congruence|]. auto.
Qed.

Lemma destroy_chunks m : destroy m ≡ₚ allChunks m.
Proof.
  assert (∀ l freed, freeLoop l freed = l ++ freed) as E by (intros l freed; induction l; [done|]; by f_equal/=).
  unfold destroy, allChunks. rewrite !E. solve_Permutation.
Qed.

(** C31: For every sequence of allocations of at most a chunk, pushes and pops in
    which no pop lacks its push, starting from a new memory manager, every
    request is served, and afterwards the allocations of the regions still open
    are pairwise disjoint, each lies inside a chunk that is held, at most
    [maxFreeChunks] chunks wait on the free list, no chunk is at once held,
    waiting or given back to [free], and once the destructor has run every
    chunk [malloc] returned was freed exactly once. *)
Theorem memory_manager_serves qs n :
  well_bracketed 0 qs = Some n →
  ∃ m regs, serveAll qs (new, [[]]) = Some (m, regs) ∧ length regs = S n ∧
    ForallOrdPairs disjoint (concat regs) ∧
    Forall (λ a, chunk (at_ a) ∈ d_chunkList m ∧ 0 ≤ offset (at_ a) ∧ offset (at_ a) + size a ≤ chunkSizeBytes)
      (concat regs) ∧
    NoDup (allChunks m) ∧ (length (d_freeChunks m) ≤ maxFreeChunks)%nat ∧
    destroy m ≡ₚ allChunks m ∧ S (length (allChunks m)) = Pos.to_nat (nextChunk m).
Proof.
  intros Hw. destruct (serveAll_served qs 0 0 n (new, [[]])) as ([m regs]&E&[ks HI]&Hl&_); [|done..|].
  { eexists. apply new_inv. }
  exists m, regs. simpl in HI, Hl. split_and!; try done; try apply HI; [|apply destroy_chunks].
  destruct ks as [|k0 ks]; [by pose proof (inv_marks _ _ _ HI)|].
  eapply list.Forall_impl; [apply (all_below _ _ _ _ HI)|]. intros a (?&?&?&i&Hi&_). split_and!; [|done..].
  by eapply list_elem_of_lookup_2.
Qed.

(** C32: Whatever a region does between its push and the matching pop (any
    well-bracketed sequence of requests), the pop restores the free pointer, the
    end of the current chunk, the held chunks and the saved regions to what
    they were before the push, and the allocations made before it are still
    the live ones. *)
Theorem memory_region_restored qs0 n m regs qs :
  well_bracketed 0 qs0 = Some n → serveAll qs0 (new, [[]]) = Some (m, regs) →
  well_bracketed 0 qs = Some 0%nat →
  ∃ m', serveAll (Push :: qs ++ [Pop]) (m, regs) = Some (m', regs) ∧
    d_nextFree m' = d_nextFree m ∧ d_endChunk m' = d_endChunk m ∧ d_chunkList m' = d_chunkList m ∧
    d_indexChunkList m' = d_indexChunkList m ∧ d_nextFreeStack m' = d_nextFreeStack m ∧
    d_endChunkStack m' = d_endChunkStack m ∧ d_indexChunkListStack m' = d_indexChunkListStack m.
Proof.
  intros Hw0 E0 Hw. destruct (serveAll_served qs0 0 0 n (new, [[]])) as (s0&E0'&Hs0&Hl0&_);
    [eexists; apply new_inv|done..|]. rewrite E0 in E0'. simplify_eq. destruct Hs0 as [[|k0 ks] HI]; simpl in HI, Hl0.
  { by pose proof (inv_marks _ _ _ HI). }
  destruct (serveAll_served qs (length regs) 0 0 (push m, [] :: regs)) as ([m1 regs1]&E1&[ks1 HI1]&Hl1&Hd1&HK1);
    [eexists; by apply push_inv|simpl; lia|done|]. cbn [fst snd] in *. specialize (HK1 m (inv_index _ _ _ HI)).
  destruct regs1 as [|r1 rs1]; [simpl in Hl1; lia|]. simpl in Hd1. rewrite !drop_0 in Hd1. subst rs1.
  pose proof (Forall2_length _ _ _ (inv_below _ _ _ HI1)) as Hlk. simpl in Hlk.
  destruct ks1 as [|k1 [|k2 ks1]]; [simpl in Hlk; lia..|].
  destruct (pop_inv _ _ _ _ _ _ HI1) as (m'&E'&_). exists m'.
  destruct (pop_fields _ _ _ _ HI1 E') as (t&Ht&Ec&Et&Hn&He&En&Ee&Ei).
  destruct (HK1 ltac:(by split; [apply firstn_all|..])) as [K1 K2 K3 K4].
  rewrite drop_0 in K2. rewrite drop_0 in K3. rewrite drop_0 in K4. rewrite K2 in Hn, En. rewrite K3 in He, Ee. rewrite K4 in Ht, Ei. simplify_eq/=.
  split_and!; try congruence.
  - rewrite serveAll_app. rewrite E1. simpl. by rewrite E'.
  - rewrite Ec, <- Ht, <- (inv_index _ _ _ HI). done.
Qed.

(** In every state the memory manager reaches, a request for more than a
    chunk fails (the assertion of [newData]) and a pop without its push fails
    (the assertion of [pop]). *)
Theorem memory_manager_errors qs n m regs :
  well_bracketed 0 qs = Some n → serveAll qs (new, [[]]) = Some (m, regs) →
  (∀ size, chunkSizeBytes < size → newData size m = None) ∧ (n = 0%nat ↔ pop m = None).
Proof.
  intros Hw E. destruct (serveAll_served qs 0 0 n (new, [[]])) as (s'&E'&[ks HI]&Hl&_);
    [eexists; apply new_inv|done..|]. rewrite E in E'. simplify_eq. simpl in HI, Hl.
  destruct ks as [|k0 ks]; [by pose proof (inv_marks _ _ _ HI)|]. split.
  { intros size. by eapply newData_oversized. }
  pose proof (Forall2_length _ _ _ (inv_below _ _ _ HI)) as Hlk. simpl in Hlk. split.
  - intros ->. destruct ks; [|simpl in Hlk; lia]. pose proof (inv_valid _ _ _ HI) as HV. pose proof (inv_stacks _ _ _ HI) as Hst.
    unfold pop. destruct (d_nextFreeStack m); [done|]. destruct (d_endChunkStack m); [done|].
    simpl in HV. inversion HV as [|? ? ? ? _ HV']. inversion HV'.
  - intros Hp. destruct n; [done|]. destruct ks as [|k1 ks]; [simpl in Hlk; lia|].
    destruct regs as [|r rs]; [done|]. destruct (pop_inv _ _ _ _ _ _ HI) as (m'&E'&_). congruence.
Qed.

(** ** Witnesses *)

Lemma memory_manager_serves_witness :
  ∃ m regs, serveAll [NewData 100; Push; NewData 16384; NewData 8; Pop; NewData 5] (new, [[]]) = Some (m, regs) ∧
    length regs = 1%nat ∧ d_freeChunks m = [3; 2]%positive.
Proof.
  destruct (memory_manager_serves [NewData 100; Push; NewData 16384; NewData 8; Pop; NewData 5] 0)
    as (m&regs&E&Hl&_); [reflexivity|]. exists m, regs. split_and!; [done..|].
  vm_compute in E. injection E as <- _. reflexivity.
Defined.

Lemma memory_region_restored_witness :
  ∃ m', serveAll (Push :: [NewData 16000; NewData 16000; Push; NewData 1; Pop] ++ [Pop]) (new, [[]]) = Some (m', [[]]) ∧
    d_nextFree m' = mkPtr 1 0.
Proof.
  destruct (memory_region_restored [] 0 new [[]] [NewData 16000; NewData 16000; Push; NewData 1; Pop])
    as (m'&E&Hn&_); [reflexivity..|]. by exists m'.
Defined.

Lemma memory_manager_errors_witness : newData 16385 new = None ∧ pop new = None.
Proof.
  destruct (memory_manager_errors [] 0 new [[]]) as [He Hp]; [reflexivity..|].
  split; [apply He; reflexivity|by apply Hp].
Defined.

End CMM.
