(* ===== verification/ContextTheorems.v ===== *)
(** What a client of the backtracking context may rely on: the theorems about
    [Context], [ContextObj] and [Scope] for any class of context-dependent
    objects, and the theorems about the classes built on them. *)
From stdpp Require Import base option list gmap fin_maps numbers relations.
From S2P Require Import Prelude Context ContextLinks ContextInv ContextRefine ContextSpec ContextRep CDStructs.

Section theorems.
Context {T : Type} `{!ContextData T, !ContextLaws T}.
Implicit Types (A : list (Level T)) (c : Context T) (o : loc).

Lemma length_a_pop lv A : length (a_pop (lv :: A)) = length A.
Proof. apply length_foldl_delete. Qed.

Lemma Rep_not_nil c A : Rep c A → A ≠ [].
Proof. by intros (?&?&_&_&?&_). Qed.

(** [n] pops of a context that has more than [n] levels. *)
Lemma popto_loop_spec n : ∀ fuel c A, n ≤ fuel → Rep c A → n < length A →
  ∃ c', popto_loop fuel c (length A - S n) = Some c' ∧ Rep c' (Nat.iter n a_pop A).
Proof.
  induction n as [|n IH]; intros fuel c A Hf HR Hn;
    pose proof (Rep_getLevel _ _ HR) as Hlv; unfold a_level in Hlv; rewrite <- Nat.sub_1_r in Hlv.
  - exists c. destruct fuel; cbn [popto_loop]; rewrite decide_False by lia; done.
  - destruct fuel as [|fuel]; [lia|]. cbn [popto_loop]. rewrite decide_True by lia.
    destruct A as [|lv A]; [simpl in Hn; lia|]. simpl in Hn.
    destruct (Rep_pop _ _ _ HR) as (c1&E&HR1&_); [destruct A; simpl in *; [lia|done]|].
    rewrite E. cbn [mbind option_bind]. destruct (IH fuel c1 _ ltac:(lia) HR1) as (c'&E'&HR').
    { rewrite length_a_pop. lia. }
    exists c'. rewrite length_a_pop in E'. replace (length (lv :: A) - S (S n)) with (length A - S n) by (simpl; lia).
    split; [done|]. by rewrite Nat.iter_succ_r.
Qed.

Lemma length_iter_pop n A : n < length A → length (Nat.iter n a_pop A) = length A - n.
Proof.
  revert A. induction n as [|n IH]; intros A Hn; [simpl; lia|]. rewrite Nat.iter_succ_r.
  destruct A as [|lv A]; simpl in Hn; [lia|]. rewrite IH; rewrite length_a_pop; simpl; lia.
Qed.

(** C18: refinement.  The linked lists, saved copies and memory regions of a
    context implement a stack of snapshots: an operation (push, pop, creation,
    modification, deletion, delayed deletion of an object) the snapshots allow
    runs without a failing assertion or a dangling pointer, leads to a context
    that again represents the snapshots after the operation, and the level and
    the fields a client reads are those of the top snapshot. *)
Theorem context_refines_snapshots c A i B :
  Rep c A → a_step A i B →
  ∃ c' A', exec c i = Some c' ∧ a_step A i A' ∧ Rep c' A' ∧ getLevel c' = a_level A' ∧
    ∀ o t, a_get o A' = Some t → getObj c' o = Some t.
Proof.
  intros HR Hs. destruct (exec_step _ _ _ _ HR Hs) as (c'&A'&He&Hs'&HR').
  exists c', A'. split_and!; [done..|by apply Rep_getLevel|]. intros o t. by apply Rep_getObj.
Qed.

(** C19: backtracking.  After [push], any operations that keep the level (with
    inner pushes and pops of their own) and do not delete the object, and [pop],
    an object has the fields it had at the call of [push]. *)
Theorem context_pop_restores c A ops c1 A1 o t :
  Rep c A → a_get o A = Some t →
  Forall (λ i, i ≠ ODelete o ∧ i ≠ OGarbage o) ops →
  run (length A) (push c) (a_push A) ops c1 A1 → length A1 = S (length A) →
  ∃ c2, pop c1 = Some c2 ∧ getObj c2 o = Some t.
Proof. apply pop_restores. Qed.

(** C27: [popto] terminates and never pops too much: it stops at [toLevel], or at
    once when the level is not above [toLevel], having popped exactly the levels
    in between. *)
Theorem popto_reaches_level c A toLevel :
  Rep c A →
  ∃ c', popto c toLevel = Some c' ∧ getLevel c' = Nat.min toLevel (getLevel c) ∧
    Rep c' (Nat.iter (length A - S toLevel) a_pop A).
Proof.
  intros HR. pose proof (Rep_getLevel _ _ HR) as Hlv. unfold a_level in Hlv.
  pose proof (Rep_not_nil _ _ HR) as HA. assert (0 < length A) by (destruct A; [done|simpl; lia]).
  assert (length (d_scopeList (store c)) = length A) as Hsc by (by destruct HR as (?&?&_&->&_)).
  destruct (decide (toLevel < length A)) as [Hl|Hl].
  - destruct (popto_loop_spec (length A - S toLevel) (length (d_scopeList (store c))) c A)
      as (c'&E&HR'); [lia|done|lia|].
    exists c'. replace (length A - S (length A - S toLevel)) with toLevel in E by lia.
    split_and!; [done| |done]. rewrite (Rep_getLevel _ _ HR'). unfold a_level.
    rewrite length_iter_pop by lia. lia.
  - exists c. replace (length A - S toLevel) with 0 by lia. split_and!; [|lia|done].
    unfold popto. destruct (length (d_scopeList (store c))); cbn [popto_loop];
      by rewrite decide_False by lia.
Qed.

(** [pop] fails, on its assertion, exactly at level 0. *)
Theorem pop_fails_iff c A : Rep c A → pop c = None ↔ getLevel c = 0.
Proof.
  intros HR. rewrite (Rep_getLevel _ _ HR). split.
  - intros Hp. pose proof (Rep_not_nil _ _ HR) as HA. destruct A as [|lv [|lv' A]]; [done..|].
    destruct (Rep_pop _ _ _ HR) as (?&?&_); [done|congruence].
  - intros Hl. unfold pop. rewrite (Rep_getLevel _ _ HR), Hl. done.
Qed.

(** Notification.  One call of [pop] notifies every object registered for
    pre-notification while the level is still the old one, then every object
    registered for post-notification when the level is the new one, each once
    and in the order of its list. *)
Theorem pop_notifies c A :
  Rep c A → 1 < length A →
  ∃ c', pop c = Some c' ∧
    rev (notified c') = rev (notified c) ++ map (λ n, (n, getLevel c)) (d_pCNOpre c) ++
                        map (λ n, (n, getLevel c')) (d_pCNOpost c).
Proof.
  intros HR Hl. destruct A as [|lv A]; [simpl in Hl; lia|].
  destruct (Rep_pop _ _ _ HR) as (c'&E&HR'&Hn); [destruct A; simpl in Hl; [lia|done]|].
  exists c'. split; [done|]. rewrite Hn, (Rep_getLevel _ _ HR), (Rep_getLevel _ _ HR').
  unfold a_level. rewrite length_a_pop. rewrite !rev_app_distr, !rev_involutive, <- app_assoc. done.
Qed.

End theorems.

(** ** Instances: a context of context-dependent lists *)

Abbreviation L := (CDList.CDList nat).

Definition list1 : L := CDList.mkCDList [7] 1 false.

(** A new context with one object, a list holding [7]. *)
Lemma list_context : ∃ o (c : Context L),
  newContextObj newContext list1 = Some (o, c) ∧ Rep c (a_create o list1 a_new).
Proof.
  destruct (Rep_newContextObj (newContext : Context L) a_new list1 Rep_newContext) as (o&c&E&_&HR); [done|].
  by exists o, c.
Qed.

Lemma context_refines_snapshots_witness : ∃ c' A',
  exec (newContext : Context L) OPush = Some c' ∧ a_step a_new OPush A' ∧ Rep c' A' ∧
  getLevel c' = a_level A' ∧ ∀ o t, a_get o A' = Some t → getObj c' o = Some t.
Proof. eapply context_refines_snapshots; [apply Rep_newContext|by apply as_push]. Defined.

(** [push], [push_back(9)], [push], [push_back(8)], [pop], and the [pop] that
    brings the list [7] back. *)
Lemma context_pop_restores_witness : ∃ (c1 c2 : Context L) o,
  pop c1 = Some c2 ∧ getObj c1 o = Some (CDList.mkCDList [7; 9] 2 false) ∧ getObj c2 o = Some list1.
Proof.
  destruct list_context as (o&c&E&HR). pose proof (Rep_push _ _ HR) as HR1.
  destruct (Rep_modify _ _ o list1 (CDList.push_back 9) (CDList.mkCDList [7; 9] 2 false) HR1) as (c1&E1&HR2);
    [|done|by exists 9|].
  { cbn. rewrite decide_False by set_solver. rewrite lookup_insert_eq. cbn. by rewrite lookup_insert_eq. }
  assert (a_get o (a_create o list1 a_new) = Some list1) as Hg by (cbn; by rewrite lookup_insert_eq).
  destruct (context_pop_restores c _ [OModify o (CDList.push_back 9)] c1
              (a_set o (CDList.mkCDList [7; 9] 2 false) (a_makeCurrent o (a_push (a_create o list1 a_new))))
              o list1 HR Hg) as (c2&Ep&Eg).
  - repeat constructor; done.
  - econstructor; [exact E1| |exact HR2| |constructor].
    + apply (as_modify _ o (CDList.push_back 9) list1); [|done|by exists 9]. cbn. rewrite decide_False by set_solver. rewrite lookup_insert_eq. cbn. by rewrite lookup_insert_eq.
    + cbn. rewrite decide_False by set_solver. rewrite lookup_insert_eq. simpl. lia.
  - cbn. rewrite decide_False by set_solver. by rewrite lookup_insert_eq.
  - exists c1, c2, o. split_and!; [done| |done]. eapply Rep_getObj; [done|].
    cbn. rewrite decide_False by set_solver. rewrite lookup_insert_eq. cbn. by rewrite lookup_insert_eq.
Defined.

Lemma popto_reaches_level_witness : ∃ c',
  popto (push (push (newContext : Context L))) 1 = Some c' ∧ getLevel c' = 1.
Proof.
  destruct (popto_reaches_level (push (push (newContext : Context L))) _ 1
              (Rep_push _ _ (Rep_push _ _ Rep_newContext))) as (c'&E&Hl&_).
  by exists c'.
Defined.

Lemma pop_fails_iff_witness : pop (newContext : Context L) = None ∧ is_Some (pop (push (newContext : Context L))).
Proof.
  split; [by apply (pop_fails_iff _ _ Rep_newContext)|]. apply not_eq_None_Some.
  by rewrite (pop_fails_iff _ _ (Rep_push _ _ Rep_newContext)).
Defined.

Lemma pop_notifies_witness : ∃ c',
  pop (addNotifyObjPost (addNotifyObjPre (push (newContext : Context L)) 3) 4) = Some c' ∧
  rev (notified c') = [(3, 1); (4, 0)].
Proof.
  destruct (pop_notifies (addNotifyObjPost (addNotifyObjPre (push (newContext : Context L)) 3) 4)
              (a_push a_new)) as (c'&E&Hn); [apply (Rep_push _ _ Rep_newContext)|simpl; lia|].
  exists c'. split; [done|]. rewrite Hn. cbn. revert E. vm_compute. by intros [= <-].
Defined.
