(* ===== verification/CDTheorems.v ===== *)
(** The classes built on [ContextObj] against what they stand for: a list that
    only grows, a queue, a map without overwriting. *)
From stdpp Require Import base option list gmap fin_maps numbers relations.
From S2P Require Import Prelude Context ContextInv CDStructs.

(** Backtracking of a [CDList].  However many elements are added after a
    save, [truncateList] to the saved size gives the list back and calls
    [CleanUp] on exactly the elements added since, the latest first. *)
Theorem cdlist_backtracks {V} (this this' : CDList.CDList V) :
  CDList.wf this → rtc CDList.grows this this' →
  CDList.truncateList (CDList.size this) this' =
    Some (this, if CDList.d_callCleanup this
                then reverse (drop (CDList.size this) (CDList.d_list this')) else []).
Proof.
  intros Hw Hr. destruct (CDList.grows_rtc _ _ Hr Hw) as (Hw'&Hc&Hp).
  unfold CDList.size. rewrite CDList.truncateList_spec; [|done|].
  - rewrite Hc. do 2 f_equal. destruct Hp as [k ->]. rewrite take_app_length.
    destruct this as [l n b]. unfold CDList.wf in Hw. simpl in *. by subst.
  - unfold CDList.wf in Hw'. rewrite Hw'. by apply prefix_length.
Qed.

Lemma cdlist_backtracks_witness :
  CDList.truncateList 1 (CDList.mkCDList [5; 6; 7] 3 true) = Some (CDList.mkCDList [5] 1 true, [7; 6]).
Proof.
  apply (cdlist_backtracks (CDList.mkCDList [5] 1 true) (CDList.mkCDList [5; 6; 7] 3 true)); [done|].
  eapply rtc_l; [by exists 6|]. eapply rtc_l; [by exists 7|]. constructor.
Defined.

(** C28: a [CDQueue] is a first-in first-out queue of its undequeued elements:
    [push] adds at the back, [pop] removes the front and fails on the empty
    queue, and [front], [back], [size] and [empty] read the oldest and the newest
    element (both fail on the empty queue), the number of elements and whether
    there is none.  The truncation of the dequeued prefix
    that [pop] does is invisible. *)
Theorem cdqueue_fifo {V} (q : CDQueue.CDQueue V) (x : V) :
  CDQueue.wf q →
  (∃ q', CDQueue.push x q = Some q' ∧ CDQueue.wf q' ∧ CDQueue.contents q' = CDQueue.contents q ++ [x]) ∧
  CDQueue.front q = head (CDQueue.contents q) ∧
  CDQueue.back q = last (CDQueue.contents q) ∧
  CDQueue.size q = length (CDQueue.contents q) ∧
  CDQueue.empty q = Some (bool_decide (CDQueue.contents q = [])) ∧
  match CDQueue.contents q with
  | [] => CDQueue.pop q = None
  | _ :: l => ∃ q', CDQueue.pop q = Some q' ∧ CDQueue.wf q' ∧ CDQueue.contents q' = l
  end.
Proof.
  intros Hw. assert (CDQueue.empty q = Some (bool_decide (CDQueue.contents q = []))) as He.
  { destruct q as [[l n b] it ls]. unfold CDQueue.wf, CDList.wf, CDQueue.empty, CDQueue.contents in *.
    simpl in *. destruct Hw as (->&?&?). rewrite (bool_decide_true (it ≤ length l)) by lia. cbn [assert mbind option_bind].
    f_equal. apply bool_decide_ext. split.
    - intros ->. by rewrite drop_all.
    - intros E. apply (f_equal length) in E. rewrite length_drop in E. simpl in E. lia. }
  split_and!.
  - destruct q as [[l n b] it ls]. unfold CDQueue.wf, CDList.wf, CDQueue.contents in *. simpl in *.
    eexists. split; [done|]. simpl. rewrite length_app. simpl. destruct Hw as (->&?&?).
    split; [lia|]. by rewrite drop_app_le.
  - unfold CDQueue.front. rewrite He. cbn [mbind option_bind].
    destruct (CDQueue.contents q) as [|y l] eqn:E; [done|]. cbn [bool_decide].
    rewrite bool_decide_false by done. cbn [negb assert mbind option_bind head].
    unfold CDQueue.contents in E. rewrite <- (Nat.add_0_r (CDQueue.d_iter q)), <- lookup_drop, E. done.
  - unfold CDQueue.back. rewrite He. cbn [mbind option_bind].
    destruct (CDQueue.contents q) as [|y l] eqn:E; [done|]. rewrite bool_decide_false by done. cbn [negb assert mbind option_bind].
    rewrite last_lookup, <- E. destruct q as [[l' n b] it ls]. unfold CDQueue.wf, CDList.wf, CDQueue.contents in *. simpl in *.
    destruct Hw as (->&?&?). apply (f_equal length) in E. rewrite length_drop in E. simpl in E. rewrite lookup_drop, length_drop. f_equal. lia.
  - destruct q as [[l n b] it ls]. unfold CDQueue.wf, CDList.wf, CDQueue.size, CDQueue.contents in *.
    simpl in *. rewrite length_drop. lia.
  - done.
  - destruct (CDQueue.contents q) as [|y l] eqn:E.
    + unfold CDQueue.pop. by rewrite He.
    + destruct (CDQueue.pop_spec _ _ _ Hw E) as (q'&Hp&Hw'&Hc&_). by exists q'.
Qed.

Definition queue3 : CDQueue.CDQueue nat := CDQueue.mkCDQueue (CDList.mkCDList [5; 6; 7] 3 false) 1 0.

Lemma cdqueue_fifo_witness : CDQueue.front queue3 = Some 6 ∧
  ∃ q', CDQueue.pop queue3 = Some q' ∧ CDQueue.wf q' ∧ CDQueue.contents q' = [7].
Proof.
  assert (CDQueue.wf queue3) as Hw by (repeat split; simpl; lia).
  destruct (cdqueue_fifo queue3 8 Hw) as (_&Hf&_&_&_&Hp). split; [exact Hf|exact Hp].
Defined.

(** Backtracking of a [CDQueue]: after any pushes and pops, also ones that
    truncated the dequeued elements, [restore] gives the queue that was saved. *)
Theorem cdqueue_backtracks {V} (q q' : CDQueue.CDQueue V) :
  CDQueue.wf q → rtc CDQueue.moves (save q).1 q' → restore q' (save q).2 = Some q.
Proof. intros Hw Hr. by apply (@restore_save _ _ CDQueue.cdqueue_laws q q' Hw). Qed.

Lemma cdqueue_backtracks_witness :
  restore (CDQueue.mkCDQueue (CDList.mkCDList [5; 6; 7] 3 false) 3 3) (save queue3).2 = Some queue3.
Proof.
  apply cdqueue_backtracks; [repeat split; simpl; lia|].
  eapply rtc_l; [by right|]. eapply rtc_l; [by right|]. constructor.
Defined.

(** C29: a [CDInsertHashMap] never overwrites: [insert] of a new key makes the key
    map to the data and changes nothing else, [insert] of a present key fails,
    and [insert_safe] reports which of the two it was. *)
Theorem cdinserthashmap_insert `{Countable K} {V} (k : K) (d : V) m :
  CDInsertHashMap.wf m →
  match CDInsertHashMap.get k m with
  | Some _ => CDInsertHashMap.insert k d m = None ∧ CDInsertHashMap.insert_safe k d m = Some (m, false)
  | None => ∃ m', CDInsertHashMap.insert k d m = Some m' ∧ CDInsertHashMap.insert_safe k d m = Some (m', true) ∧
      CDInsertHashMap.wf m' ∧ CDInsertHashMap.size m' = S (CDInsertHashMap.size m) ∧
      ∀ k', CDInsertHashMap.get k' m' = if decide (k' = k) then Some d else CDInsertHashMap.get k' m
  end.
Proof.
  intros Hw. assert (CDInsertHashMap.contains k m = Some (bool_decide (is_Some (CDInsertHashMap.get k m)))) as Hc.
  { destruct Hw as (h&Hh&_). unfold CDInsertHashMap.contains, CDInsertHashMap.get. by rewrite Hh. }
  destruct (CDInsertHashMap.get k m) as [v|] eqn:E; simpl in Hc.
  - split; [|unfold CDInsertHashMap.insert_safe; by rewrite Hc].
    destruct (CDInsertHashMap.insert k d m) eqn:Ei; [|done].
    apply CDInsertHashMap.insert_inv in Ei; [|done]. by rewrite Hc in Ei.
  - destruct (CDInsertHashMap.insert_spec k d m Hw) as (h&h'&_&_&Hi&_&Hw'&Hg).
    { by rewrite Hc. }
    eexists. split_and!; [exact Hi| |done|done|exact Hg].
    unfold CDInsertHashMap.insert_safe. rewrite Hc. cbn [mbind option_bind]. by rewrite Hi.
Qed.

Definition map0 : CDInsertHashMap.CDInsertHashMap nat nat := CDInsertHashMap.new.

Lemma map0_wf : CDInsertHashMap.wf map0.
Proof. exists InsertHashMap.new. split_and!; [done|apply InsertHashMap.ihm_wf_new|done]. Qed.

Lemma cdinserthashmap_insert_witness : ∃ m', CDInsertHashMap.insert 3 4 map0 = Some m' ∧
  CDInsertHashMap.get 3 m' = Some 4 ∧ CDInsertHashMap.get 5 m' = None.
Proof.
  destruct (cdinserthashmap_insert 3 4 map0 map0_wf) as (m'&Hi&_&_&_&Hg).
  exists m'. rewrite !Hg. done.
Defined.

(** Backtracking of a [CDInsertHashMap]: [restore] removes exactly the keys
    inserted since the save. *)
Theorem cdinserthashmap_backtracks `{Countable K} {V} (m m' : CDInsertHashMap.CDInsertHashMap K V) :
  CDInsertHashMap.wf m → rtc CDInsertHashMap.grows (save m).1 m' → restore m' (save m).2 = Some m.
Proof. intros Hw Hr. by apply (@restore_save _ _ CDInsertHashMap.cdihm_laws m m' Hw). Qed.

Lemma cdinserthashmap_backtracks_witness : ∃ m1 m2,
  CDInsertHashMap.insert 3 4 map0 = Some m1 ∧ CDInsertHashMap.insert 5 6 m1 = Some m2 ∧
  restore m2 (save map0).2 = Some map0.
Proof.
  eexists _, _. split; [by vm_compute|]. split; [by vm_compute|].
  apply cdinserthashmap_backtracks; [apply map0_wf|].
  eapply rtc_l; [exists 3, 4; by vm_compute|]. eapply rtc_l; [exists 5, 6; by vm_compute|]. constructor.
Defined.

(** a [CDMaybe] is set at most once between backtrackings: [set] on an unset
    one makes [get] return the data, [set] on a set one and [get] on an unset
    one fail. *)
Theorem cdmaybe_set_once {V} (d : V) (this : CDO.CDO (bool * V)) :
  if CDMaybe.isSet this then CDMaybe.set d this = None
  else CDMaybe.get this = None ∧
       ∃ this', CDMaybe.set d this = Some this' ∧ CDMaybe.isSet this' = true ∧ CDMaybe.get this' = Some d.
Proof.
  destruct this as [[[] v]]; unfold CDMaybe.set, CDMaybe.get, CDMaybe.isSet; simpl; [done|].
  split; [done|]. eexists. done.
Qed.
