(* ===== verification/Integer.v ===== *)
(** [util/integer_gmp_imp.cpp]: arbitrary-precision integers on top of the GMP
    library.  GMP is not part of the program: its functions are the operations
    of the class [Gmp], what its manual says of them the class [GmpLaws].  An
    [mpz_class] value is an integer, with the operators [+], [-], [*] and the
    comparisons of integers. *)
From stdpp Require Import base option list numbers.
From S2P Require Import Prelude.
Open Scope Z_scope.

(** Unsigned 32-bit arithmetic. *)
Definition u32 (z : Z) : Z := z mod 2 ^ 32.

Lemma u32_small z : 0 ≤ z < 2 ^ 32 → u32 z = z.
Proof. apply Z.mod_small. Qed.

(** Unsigned 64-bit arithmetic. *)
Definition u64 (z : Z) : Z := z mod 2 ^ 64.

Lemma u64_small z : 0 ≤ z < 2 ^ 64 → u64 z = z.
Proof. apply Z.mod_small. Qed.

(** The GMP functions the class calls. *)
Class Gmp := {
  mpz_ior : Z → Z → Z;
  mpz_and : Z → Z → Z;
  mpz_xor : Z → Z → Z;
  mpz_com : Z → Z;
  mpz_mul_2exp : Z → Z → Z;
  mpz_setbit : Z → Z → Z;
  mpz_clrbit : Z → Z → Z;
  mpz_tstbit : Z → Z → bool;
  mpz_get_ui : Z → Z;
  mpz_fdiv_q_2exp : Z → Z → Z;
  mpz_fdiv_r_2exp : Z → Z → Z;
  mpz_fdiv_q : Z → Z → Z;
  mpz_fdiv_r : Z → Z → Z;
  mpz_fdiv_qr : Z → Z → Z * Z;
  mpz_cdiv_q : Z → Z → Z;
  mpz_cdiv_r : Z → Z → Z;
  mpz_divexact : Z → Z → Z;
  mpz_sgn : Z → Z;
  mpz_pow_ui : Z → Z → Z;
  mpz_gcd : Z → Z → Z;
  mpz_lcm : Z → Z → Z;
  mpz_mod : Z → Z → Z;
  mpz_divisible_p : Z → Z → bool;
  mpz_popcount : Z → Z;
  mpz_scan1 : Z → Z → Z;
  mpz_sizeinbase2 : Z → Z;
}.

(** The number of ones in the binary representation. *)
Fixpoint ones (p : positive) : Z :=
  match p with xH => 1 | xO p => ones p | xI p => 1 + ones p end.

(** What the manual says of them. *)
Class GmpLaws `{!Gmp} : Prop := {
  mpz_ior_spec a b : mpz_ior a b = Z.lor a b;
  mpz_and_spec a b : mpz_and a b = Z.land a b;
  mpz_xor_spec a b : mpz_xor a b = Z.lxor a b;
  mpz_com_spec a : mpz_com a = Z.lnot a;
  mpz_mul_2exp_spec a n : 0 ≤ n → mpz_mul_2exp a n = a * 2 ^ n;
  mpz_setbit_spec a i : 0 ≤ i → mpz_setbit a i = Z.setbit a i;
  mpz_clrbit_spec a i : 0 ≤ i → mpz_clrbit a i = Z.clearbit a i;
  mpz_tstbit_spec a i : 0 ≤ i → mpz_tstbit a i = Z.testbit a i;
  mpz_get_ui_spec a : 0 ≤ a < 2 ^ 64 → mpz_get_ui a = a;
  mpz_fdiv_q_2exp_spec a n : 0 ≤ n → mpz_fdiv_q_2exp a n = a / 2 ^ n;
  mpz_fdiv_r_2exp_spec a n : 0 ≤ n → mpz_fdiv_r_2exp a n = a mod 2 ^ n;
  mpz_fdiv_q_spec a d : d ≠ 0 → mpz_fdiv_q a d = a / d;
  mpz_fdiv_r_spec a d : d ≠ 0 → mpz_fdiv_r a d = a mod d;
  mpz_fdiv_qr_spec a d : d ≠ 0 → mpz_fdiv_qr a d = (a / d, a mod d);
  mpz_cdiv_q_spec a d : d ≠ 0 → mpz_cdiv_q a d = - (- a / d);
  mpz_cdiv_r_spec a d : d ≠ 0 → mpz_cdiv_r a d = a + d * (- a / d);
  mpz_divexact_spec a d : d ≠ 0 → (d | a) → mpz_divexact a d = a / d;
  mpz_sgn_spec a : mpz_sgn a = Z.sgn a;
  mpz_pow_ui_spec a n : 0 ≤ n → mpz_pow_ui a n = a ^ n;
  mpz_gcd_spec a b : mpz_gcd a b = Z.gcd a b;
  mpz_lcm_spec a b : mpz_lcm a b = Z.lcm a b;
  mpz_mod_spec a d : d ≠ 0 → mpz_mod a d = a mod Z.abs d;
  mpz_divisible_p_spec a d : mpz_divisible_p a d = true ↔ (d | a);
  mpz_popcount_spec p : mpz_popcount (Zpos p) = ones p;
  mpz_scan1_spec a i : 0 < a → 0 ≤ i → (∃ j, i ≤ j ∧ Z.testbit a j = true) →
    i ≤ mpz_scan1 a i ∧ Z.testbit a (mpz_scan1 a i) = true ∧
    ∀ j, i ≤ j < mpz_scan1 a i → Z.testbit a j = false;
  mpz_sizeinbase2_spec a : a ≠ 0 → mpz_sizeinbase2 a = Z.log2 (Z.abs a) + 1;
}.

(** GMP on the integers of the kernel, to run the model. *)
Module ZGmp.

Definition scan1 (a i : Z) : Z :=
  (fix go (n : nat) (j : Z) :=
     match n with O => j | S n => if Z.testbit a j then j else go n (j + 1) end)
    (Z.to_nat (Z.log2 a + 1 - i)) i.

#[global] Instance z_gmp : Gmp := {
  mpz_ior := Z.lor; mpz_and := Z.land; mpz_xor := Z.lxor; mpz_com := Z.lnot;
  mpz_mul_2exp a n := a * 2 ^ n; mpz_setbit := Z.setbit; mpz_clrbit := Z.clearbit;
  mpz_tstbit := Z.testbit; mpz_get_ui a := a mod 2 ^ 64;
  mpz_fdiv_q_2exp a n := a / 2 ^ n; mpz_fdiv_r_2exp a n := a mod 2 ^ n;
  mpz_fdiv_q := Z.div; mpz_fdiv_r := Z.modulo; mpz_fdiv_qr a d := (a / d, a mod d);
  mpz_cdiv_q a d := - (- a / d); mpz_cdiv_r a d := a + d * (- a / d);
  mpz_divexact := Z.div; mpz_sgn := Z.sgn; mpz_pow_ui := Z.pow; mpz_gcd := Z.gcd; mpz_lcm := Z.lcm;
  mpz_mod a d := a mod Z.abs d; mpz_divisible_p a d := if decide (d = 0) then bool_decide (a = 0) else bool_decide (a mod d = 0);
  mpz_popcount a := match a with Zpos p => ones p | _ => 0 end;
  mpz_scan1 := scan1; mpz_sizeinbase2 a := Z.log2 (Z.abs a) + 1;
}.

Lemma scan1_spec a i :
  0 < a → 0 ≤ i → (∃ j, i ≤ j ∧ Z.testbit a j = true) →
  i ≤ scan1 a i ∧ Z.testbit a (scan1 a i) = true ∧ ∀ j, i ≤ j < scan1 a i → Z.testbit a j = false.
Proof.
  intros Ha Hi (j&Hij&Hj). unfold scan1.
  assert (j ≤ Z.log2 a).
  { destruct (decide (j ≤ Z.log2 a)); [done|]. rewrite Z.bits_above_log2 in Hj by lia. done. }
  assert (j < i + Z.of_nat (Z.to_nat (Z.log2 a + 1 - i))) as Hn by lia.
  revert Hij Hn Hi. generalize (Z.to_nat (Z.log2 a + 1 - i)). intros n. revert i.
  induction n as [|n IH]; intros i Hij Hn Hi; [lia|]. destruct (Z.testbit a i) eqn:E; [by split_and!; [lia|done|lia]|].
  destruct (IH (i + 1)) as (H1&H2&H3); [|lia|lia|].
  { destruct (decide (j = i)); [congruence|lia]. }
  split_and!; [lia|done|]. intros j' Hj'. destruct (decide (j' = i)); [by subst|]. apply H3. lia.
Qed.

#[global] Instance z_gmp_laws : GmpLaws.
Proof.
  split; try done.
  - intros a Ha. by apply Z.mod_small.
  - intros a d. simpl. case_decide as Hd; rewrite bool_decide_eq_true.
    + subst. split; [intros ->; apply Z.divide_0_r|apply Z.divide_0_l].
    + by apply Z.mod_divide.
  - intros. by apply scan1_spec.
Qed.

End ZGmp.

Module Integer.
Section integer.
Context `{!Gmp}.

Definition bitwiseOr (this y : Z) : Z := mpz_ior this y.
Definition bitwiseAnd (this y : Z) : Z := mpz_and this y.
Definition bitwiseXor (this y : Z) : Z := mpz_xor this y.
Definition bitwiseNot (this : Z) : Z := mpz_com this.
Definition multiplyByPow2 (this pow : Z) : Z := mpz_mul_2exp this pow.

Definition setBit (i : Z) (value : bool) (this : Z) : Z :=
  if value then mpz_setbit this i else mpz_clrbit this i.

Definition sgn (this : Z) : Z := mpz_sgn this.
Definition strictlyPositive (this : Z) : bool := bool_decide (sgn this > 0).
Definition strictlyNegative (this : Z) : bool := bool_decide (sgn this < 0).
Definition isZero (this : Z) : bool := bool_decide (sgn this = 0).

(** [high] and [high + 1] are computed modulo [2 ^ 32]. *)
Definition extractBitRange (this bitCount low : Z) : Z :=
  let high := u32 (low + bitCount - 1) in
  let rem := mpz_fdiv_r_2exp this (u32 (high + 1)) in
  mpz_fdiv_q_2exp rem low.

Definition isBitSet (this i : Z) : bool := negb (isZero (extractBitRange this 1 i)).

(** [for (i = size; i < size + amount; ++i) mpz_setbit(res, i);] *)
Fixpoint oneExtendLoop (n : nat) (i res : Z) : Z :=
  match n with O => res | S n => oneExtendLoop n (i + 1) (mpz_setbit res i) end.

Definition oneExtend (this size amount : Z) : option Z :=
  _ ← assert (bool_decide (this < multiplyByPow2 1 size));
  Some (oneExtendLoop (Z.to_nat (u32 (size + amount) - size)) size this).

Definition toUnsignedInt (this : Z) : Z := u32 (mpz_get_ui this).

Definition floorDivideQuotient (this y : Z) : Z := mpz_fdiv_q this y.
Definition floorDivideRemainder (this y : Z) : Z := mpz_fdiv_r this y.
Definition floorQR (x y : Z) : Z * Z := mpz_fdiv_qr x y.
Definition ceilingDivideQuotient (this y : Z) : Z := mpz_cdiv_q this y.
Definition ceilingDivideRemainder (this y : Z) : Z := mpz_cdiv_r this y.

Definition euclidianQR (x y : Z) : Z * Z :=
  let '(q, r) := floorQR x y in
  if strictlyNegative r then
    if bool_decide (sgn r >= 0) then (q - 1, r + y) else (q + 1, r - y)
  else (q, r).

Definition euclidianDivideQuotient (this y : Z) : Z := fst (euclidianQR this y).
Definition euclidianDivideRemainder (this y : Z) : Z := snd (euclidianQR this y).

Definition divides (this y : Z) : bool := mpz_divisible_p y this.

Definition exactQuotient (this y : Z) : option Z :=
  _ ← assert (divides y this);
  Some (mpz_divexact this y).

Definition modByPow2 (this exp : Z) : Z := mpz_fdiv_r_2exp this exp.
Definition divByPow2 (this exp : Z) : Z := mpz_fdiv_q_2exp this exp.
Definition pow (this exp : Z) : Z := mpz_pow_ui this exp.
Definition gcd (this y : Z) : Z := mpz_gcd this y.
Definition lcm (this y : Z) : Z := mpz_lcm this y.
Definition modAdd (this y m : Z) : Z := mpz_mod (this + y) m.
Definition modMultiply (this y m : Z) : Z := mpz_mod (this * y) m.
Definition abs (this : Z) : Z := if decide (this >= 0) then this else - this.
Definition testBit (this n : Z) : bool := mpz_tstbit this n.

Definition isPow2 (this : Z) : Z :=
  if decide (this ≤ 0) then 0
  else if decide (mpz_popcount this = 1) then mpz_scan1 this 0 + 1 else 0.

Definition length (this : Z) : Z := if decide (sgn this = 0) then 1 else mpz_sizeinbase2 this.

Section laws.
Context `{!GmpLaws}.

Lemma extractBitRange_spec v cnt low :
  0 ≤ low → 0 ≤ cnt → low + cnt < 2 ^ 32 →
  extractBitRange v cnt low = v mod 2 ^ (low + cnt) / 2 ^ low.
Proof.
  intros Hl Hc Hb. unfold extractBitRange.
  assert (u32 (u32 (low + cnt - 1) + 1) = low + cnt) as ->.
  { unfold u32. rewrite Zplus_mod_idemp_l. replace (low + cnt - 1 + 1) with (low + cnt) by lia. apply Z.mod_small; lia. }
  by rewrite mpz_fdiv_r_2exp_spec, mpz_fdiv_q_2exp_spec by lia.
Qed.

(** The bits [low], ..., [low + cnt - 1]. *)
Lemma extractBitRange_bits v cnt low :
  0 ≤ low → 0 ≤ cnt → low + cnt < 2 ^ 32 → extractBitRange v cnt low = (v / 2 ^ low) mod 2 ^ cnt.
Proof.
  intros Hl Hc Hb. rewrite extractBitRange_spec by done.
  assert (0 < 2 ^ low) by (apply Z.pow_pos_nonneg; lia).
  assert (0 < 2 ^ cnt) by (apply Z.pow_pos_nonneg; lia).
  rewrite Z.add_comm, Z.pow_add_r by lia. rewrite Z.mul_comm, Z.rem_mul_r by lia.
  rewrite Z.mul_comm, Z.div_add by lia. rewrite (Z.div_small (v mod 2 ^ low)); [lia|]. apply Z.mod_pos_bound. lia.
Qed.

Lemma isBitSet_spec v i : 0 ≤ i → i + 1 < 2 ^ 32 → isBitSet v i = Z.testbit v i.
Proof.
  intros Hi Hb. unfold isBitSet, isZero, sgn. rewrite extractBitRange_bits by lia.
  rewrite mpz_sgn_spec, Z.testbit_eqb by lia. change (2 ^ 1) with 2.
  pose proof (Z.mod_pos_bound (v / 2 ^ i) 2). destruct (Z.eqb_spec ((v / 2 ^ i) mod 2) 1) as [->|]; [done|].
  replace ((v / 2 ^ i) mod 2) with 0 by lia. done.
Qed.

Lemma oneExtendLoop_spec n : ∀ i res,
  0 ≤ i → 0 ≤ res < 2 ^ i → oneExtendLoop n i res = res + (2 ^ (i + Z.of_nat n) - 2 ^ i).
Proof.
  induction n as [|n IH]; intros i res Hi Hr; cbn [oneExtendLoop]; [rewrite Z.add_0_r; lia|].
  assert (mpz_setbit res i = res + 2 ^ i) as ->.
  { rewrite mpz_setbit_spec, Z.setbit_spec' by done. symmetry. apply Z.add_nocarry_lor.
    apply Z.bits_inj'. intros j Hj. rewrite Z.land_spec, Z.bits_0, Z.pow2_bits_eqb by done.
    destruct (Z.eqb_spec i j) as [<-|]; [|by rewrite andb_false_r].
    rewrite <- (Z.mod_small res (2 ^ i)), Z.mod_pow2_bits_high by lia. done. }
  rewrite IH; [|lia|].
  - replace (i + Z.of_nat (S n)) with (i + 1 + Z.of_nat n) by lia. rewrite (Z.pow_add_r 2 i 1) by lia. lia.
  - rewrite Z.pow_add_r by lia. lia.
Qed.

Lemma oneExtend_spec v size amount :
  0 ≤ size → 0 ≤ amount → size + amount < 2 ^ 32 → 0 ≤ v < 2 ^ size →
  oneExtend v size amount = Some (v + (2 ^ (size + amount) - 2 ^ size)).
Proof.
  intros Hs Ha Hb Hv. unfold oneExtend, multiplyByPow2. rewrite mpz_mul_2exp_spec by done.
  rewrite bool_decide_true by lia. cbn [assert mbind option_bind]. rewrite u32_small by lia.
  rewrite oneExtendLoop_spec by lia. do 2 f_equal. f_equal. f_equal. lia.
Qed.

Lemma toUnsignedInt_spec v : 0 ≤ v < 2 ^ 32 → toUnsignedInt v = v.
Proof. intros Hv. unfold toUnsignedInt. rewrite mpz_get_ui_spec by lia. by apply u32_small. Qed.

(** Euclidean division: the remainder is never negative, whatever the signs. *)
Lemma euclidianQR_spec x y :
  y ≠ 0 → ∃ q r, euclidianQR x y = (q, r) ∧ x = y * q + r ∧ 0 ≤ r < Z.abs y.
Proof.
  intros Hy. unfold euclidianQR, floorQR, strictlyNegative, sgn. rewrite mpz_fdiv_qr_spec by done.
  rewrite mpz_sgn_spec. pose proof (Z.div_mod x y Hy) as Hdm.
  case_bool_decide as Hs.
  - rewrite bool_decide_false by lia. eexists _, _. split; [done|].
    pose proof (Z.mod_neg_bound x y). pose proof (Z.mod_pos_bound x y). lia.
  - eexists _, _. split; [done|].
    destruct (decide (0 < y)); [pose proof (Z.mod_pos_bound x y); lia|].
    pose proof (Z.mod_neg_bound x y). lia.
Qed.

Lemma ones_1 p : ones p = 1 ↔ ∃ k, 0 ≤ k ∧ Zpos p = 2 ^ k.
Proof.
  assert (∀ p, 1 ≤ ones p) as Hpos by (clear; induction p; simpl; lia).
  induction p as [p IH|p IH|]; cbn [ones].
  - split; [pose proof (Hpos p); lia|]. intros (k&Hk&E). destruct (decide (k = 0)) as [->|]; [lia|].
    replace k with (1 + (k - 1)) in E by lia. rewrite Z.pow_add_r in E by lia. lia.
  - rewrite IH. split.
    + intros (k&Hk&E). exists (1 + k). rewrite Z.pow_add_r by lia. lia.
    + intros (k&Hk&E). destruct (decide (k = 0)) as [->|]; [lia|]. exists (k - 1).
      replace k with (1 + (k - 1)) in E by lia. rewrite Z.pow_add_r in E by lia. lia.
  - split; [|done]. intros _. by exists 0.
Qed.

(** [isPow2] is one more than the exponent, or zero. *)
Lemma isPow2_spec v :
  (∀ k, 0 ≤ k → v = 2 ^ k → isPow2 v = k + 1) ∧ ((∀ k, 0 ≤ k → v ≠ 2 ^ k) → isPow2 v = 0).
Proof.
  unfold isPow2. destruct v as [|p|p].
  - rewrite decide_True by lia. split; [|done]. intros k Hk E. pose proof (Z.pow_pos_nonneg 2 k). lia.
  - rewrite decide_False by lia. rewrite mpz_popcount_spec. split.
    + intros k Hk E. rewrite decide_True by (apply ones_1; eauto). f_equal.
      destruct (mpz_scan1_spec (Zpos p) 0) as (H1&H2&H3); [lia|lia| |].
      { exists k. split; [done|]. rewrite E. by apply Z.pow2_bits_true. }
      rewrite E in H2 at 1. rewrite Z.pow2_bits_eqb in H2 by lia. by apply Z.eqb_eq in H2.
    + intros Hn. rewrite decide_False; [done|]. rewrite ones_1. intros (k&Hk&E). by eapply Hn.
  - rewrite decide_True by lia. split; [|done]. intros k Hk E. pose proof (Z.pow_pos_nonneg 2 k). lia.
Qed.

End laws.
End integer.
End Integer.
