(* ===== verification/IntegerTheorems.v ===== *)
(** Division, bit ranges and powers of two of [Integer], with the widths at which
    the 32-bit arithmetic on positions is exact. *)
From stdpp Require Import base option list numbers.
From S2P Require Import Prelude Integer.
Open Scope Z_scope.

Section theorems.
Context `{!Gmp, !GmpLaws}.

(** [euclidianQR] is Euclidean division for every sign of the operands: the
    remainder is never negative and smaller than the divisor, which makes
    quotient and remainder unique. *)
Theorem euclidean_division x y :
  y ≠ 0 → ∃ q r, Integer.euclidianQR x y = (q, r) ∧ x = y * q + r ∧ 0 ≤ r < Z.abs y ∧
    Integer.euclidianDivideQuotient x y = q ∧ Integer.euclidianDivideRemainder x y = r ∧
    ∀ q' r', x = y * q' + r' → 0 ≤ r' < Z.abs y → q' = q ∧ r' = r.
Proof.
  intros Hy. destruct (Integer.euclidianQR_spec x y Hy) as (q&r&E&Hx&Hr). exists q, r.
  unfold Integer.euclidianDivideQuotient, Integer.euclidianDivideRemainder. rewrite E.
  split_and!; try done; try lia. intros q' r' Hx' Hr'. assert (y * (q' - q) = r - r') as Hd by lia.
  assert (q' - q = 0) as Hq; [|lia]. destruct (Z.abs_spec y) as [[? Ha]|[? Ha]]; rewrite Ha in *; nia.
Qed.

(** [isPow2] answers the exponent plus one on a power of two, and zero on
    every other integer. *)
Theorem isPow2_exact v :
  (∀ k, 0 ≤ k → v = 2 ^ k → Integer.isPow2 v = k + 1) ∧
  ((∀ k, 0 ≤ k → v ≠ 2 ^ k) → Integer.isPow2 v = 0).
Proof. apply Integer.isPow2_spec. Qed.

(** Bounds of [extractBitRange].  The bits are exact as long as the range ends
    below position 2^32; a range ending exactly there is lost, because [high + 1]
    wraps to zero. *)
Theorem extractBitRange_range v bitCount low :
  0 ≤ low → 0 < bitCount →
  (low + bitCount < 2 ^ 32 → Integer.extractBitRange v bitCount low = (v / 2 ^ low) mod 2 ^ bitCount) ∧
  (low + bitCount = 2 ^ 32 → Integer.extractBitRange v bitCount low = 0).
Proof.
  intros Hl Hc. split; [intros Hb; apply Integer.extractBitRange_bits; lia|]. intros E.
  unfold Integer.extractBitRange. rewrite E. assert (u32 (u32 (2 ^ 32 - 1) + 1) = 0) as -> by done.
  rewrite mpz_fdiv_r_2exp_spec, Z.pow_0_r, Z.mod_1_r by lia. rewrite mpz_fdiv_q_2exp_spec by lia. by rewrite Z.div_0_l by (apply Z.pow_nonzero; lia).
Qed.

End theorems.

Lemma euclidean_division_witness : ∃ q r, Integer.euclidianQR (-7) (-2) = (q, r) ∧ -7 = -2 * q + r ∧ 0 ≤ r < 2.
Proof. destruct (euclidean_division (-7) (-2)) as (q&r&E&Hx&Hr&_); [lia|]. exists q, r. split_and!; (done || lia). Defined.

Lemma isPow2_exact_witness : Integer.isPow2 8 = 4.
Proof. apply (proj1 (isPow2_exact 8) 3); [lia|done]. Defined.

Lemma extractBitRange_range_witness : Integer.extractBitRange 179 4 2 = 12.
Proof. apply (proj1 (extractBitRange_range 179 4 2 ltac:(lia) ltac:(lia))). lia. Defined.
