(* ===== verification/Node.v ===== *)
(** Terms: types, kinds and nodes.

    [TypeNode] has the sorts that the Boolean and bit-vector theories use (with
    the abstract sorts of the type checker), [Kind] the operators of
    [theory/booleans/kinds.toml], [theory/bv/kinds.toml], equality, the
    comparisons of integers and the conversions from bit-vectors to them, each
    parameterized kind carrying the payload of its operator node, and [Node] the
    terms built from them.  A node is identified with its structure, as hash
    consing does. *)
From stdpp Require Import base option list gmap countable numbers.
From S2P Require Import Prelude.
Open Scope Z_scope.

(** The kinds a type can be abstracted from: [?] and [?BitVec]. *)
Inductive AbstractedKind := AK_ABSTRACT_TYPE | AK_BITVECTOR_TYPE.

Inductive TypeNode :=
  | BOOLEAN_TYPE
  | INTEGER_TYPE
  | BITVECTOR_TYPE (d_size : Z)
  | ABSTRACT_TYPE (k : AbstractedKind).

(** [util/bitvector.h]: a size and the unsigned value. *)
Record BitVector := mkBitVector { d_size : Z; d_value : Z }.

Inductive Kind :=
  (* builtin and Boolean *)
  | EQUAL | DISTINCT | NOT | AND | OR | XOR | IMPLIES | ITE
  (* integers *)
  | LT | LEQ | GT | GEQ | SUB | INTS_MODULUS | INTS_MODULUS_TOTAL | INT_TO_BITVECTOR (d_size : Z)
  (* bit-vectors *)
  | BITVECTOR_FROM_BOOLS | BITVECTOR_SIZE | CONST_BITVECTOR_SYMBOLIC
  | BITVECTOR_CONCAT
  | BITVECTOR_AND | BITVECTOR_COMP | BITVECTOR_OR | BITVECTOR_XOR | BITVECTOR_NOT
  | BITVECTOR_NAND | BITVECTOR_NOR | BITVECTOR_XNOR
  | BITVECTOR_MULT | BITVECTOR_NEG | BITVECTOR_ADD | BITVECTOR_SUB
  | BITVECTOR_UDIV | BITVECTOR_UREM | BITVECTOR_SDIV | BITVECTOR_SMOD | BITVECTOR_SREM
  | BITVECTOR_ASHR | BITVECTOR_LSHR | BITVECTOR_SHL
  | BITVECTOR_ULE | BITVECTOR_ULT | BITVECTOR_UGE | BITVECTOR_UGT
  | BITVECTOR_SLE | BITVECTOR_SLT | BITVECTOR_SGE | BITVECTOR_SGT
  | BITVECTOR_ULTBV | BITVECTOR_SLTBV
  | BITVECTOR_REDAND | BITVECTOR_REDOR
  | BITVECTOR_NEGO | BITVECTOR_UADDO | BITVECTOR_SADDO | BITVECTOR_UMULO | BITVECTOR_SMULO
  | BITVECTOR_USUBO | BITVECTOR_SSUBO | BITVECTOR_SDIVO
  | BITVECTOR_ITE | BITVECTOR_EAGER_ATOM
  | BITVECTOR_UBV_TO_INT | BITVECTOR_SBV_TO_INT
  (* parameterized: the payload of the operator *)
  | BITVECTOR_BIT (d_bitIndex : Z)
  | BITVECTOR_EXTRACT (d_high d_low : Z)
  | BITVECTOR_REPEAT (d_repeatAmount : Z)
  | BITVECTOR_ROTATE_LEFT (d_rotateLeftAmount : Z)
  | BITVECTOR_ROTATE_RIGHT (d_rotateRightAmount : Z)
  | BITVECTOR_SIGN_EXTEND (d_signExtendAmount : Z)
  | BITVECTOR_ZERO_EXTEND (d_zeroExtendAmount : Z).

Inductive Node :=
  | mkVar (id : positive) (ty : TypeNode)
  | mkConstBool (b : bool)
  | mkConstInt (z : Z)
  | mkConstBV (bv : BitVector)
  | mkNode (k : Kind) (children : list Node).

(** Induction with the hypothesis for every child. *)
Section node_ind.
Variable P : Node → Prop.
Hypothesis P_var : ∀ id ty, P (mkVar id ty).
Hypothesis P_bool : ∀ b, P (mkConstBool b).
Hypothesis P_int : ∀ z, P (mkConstInt z).
Hypothesis P_bv : ∀ bv, P (mkConstBV bv).
Hypothesis P_node : ∀ k cs, Forall P cs → P (mkNode k cs).

Fixpoint Node_ind' (n : Node) : P n :=
  match n with
  | mkVar id ty => P_var id ty
  | mkConstBool b => P_bool b
  | mkConstInt z => P_int z
  | mkConstBV bv => P_bv bv
  | mkNode k cs =>
      P_node k cs ((fix go l := match l return Forall P l with
                                | [] => List.Forall_nil P
                                | c :: l => List.Forall_cons P c l (Node_ind' c) (go l)
                                end) cs)
  end.
End node_ind.

(** ** Accessors *)

Definition getNumChildren (n : Node) : nat :=
  match n with mkNode _ cs => length cs | _ => 0%nat end.

Definition children (n : Node) : list Node :=
  match n with mkNode _ cs => cs | _ => [] end.

(** [n[i]]; out of range is an assertion failure. *)
Definition child (n : Node) (i : nat) : option Node := children n !! i.

Definition isVar (n : Node) : bool := match n with mkVar _ _ => true | _ => false end.

Definition isConst (n : Node) : bool :=
  match n with mkConstBool _ | mkConstInt _ | mkConstBV _ => true | _ => false end.

(** [getConst<BitVector>()], [getConst<bool>()]. *)
Definition getConstBV (n : Node) : option BitVector :=
  match n with mkConstBV bv => Some bv | _ => None end.

Definition getConstBool (n : Node) : option bool :=
  match n with mkConstBool b => Some b | _ => None end.

Definition notNode (n : Node) : Node := mkNode NOT [n].

(** [NodeTemplate::negate]. *)
Definition negate (n : Node) : Node :=
  match n with mkNode NOT [c] => c | _ => mkNode NOT [n] end.

(** The number of symbols of a term. *)
Fixpoint nsize (n : Node) : nat :=
  match n with
  | mkNode _ cs => S ((fix go l := match l with [] => 0%nat | c :: l => (nsize c + go l)%nat end) cs)
  | _ => 1%nat
  end.

Lemma nsize_node k cs : nsize (mkNode k cs) = S (sum_list_with nsize cs).
Proof. simpl. f_equal. Qed.

Lemma nsize_pos n : (0 < nsize n)%nat.
Proof. destruct n; simpl; lia. Qed.

Lemma sum_list_with_elem {A} (f : A → nat) x l : x ∈ l → (f x ≤ sum_list_with f l)%nat.
Proof. induction 1; simpl; lia. Qed.

Lemma nsize_child k cs c : c ∈ cs → (nsize c < nsize (mkNode k cs))%nat.
Proof. intros Hc. rewrite nsize_node. apply (sum_list_with_elem nsize) in Hc. lia. Qed.

(** ** Decidable equality and countability *)

#[global] Instance AbstractedKind_eq_dec : EqDecision AbstractedKind.
Proof. solve_decision. Defined.
#[global] Instance TypeNode_eq_dec : EqDecision TypeNode.
Proof. solve_decision. Defined.
#[global] Instance BitVector_eq_dec : EqDecision BitVector.
Proof. solve_decision. Defined.

Definition TypeNode_code (t : TypeNode) : Z * Z :=
  match t with
  | BOOLEAN_TYPE => (0, 0) | INTEGER_TYPE => (1, 0) | BITVECTOR_TYPE w => (2, w)
  | ABSTRACT_TYPE AK_ABSTRACT_TYPE => (3, 0) | ABSTRACT_TYPE AK_BITVECTOR_TYPE => (4, 0)
  end.
Definition TypeNode_decode (c : Z * Z) : TypeNode :=
  match c with
  | (0, _) => BOOLEAN_TYPE | (1, _) => INTEGER_TYPE | (2, w) => BITVECTOR_TYPE w
  | (3, _) => ABSTRACT_TYPE AK_ABSTRACT_TYPE | _ => ABSTRACT_TYPE AK_BITVECTOR_TYPE
  end.
#[global] Program Instance TypeNode_countable : Countable TypeNode :=
  inj_countable' TypeNode_code TypeNode_decode _.
Next Obligation. intros [| | |[]]; reflexivity. Qed.

#[global] Program Instance BitVector_countable : Countable BitVector :=
  inj_countable' (λ bv, (d_size bv, d_value bv)) (λ p, mkBitVector p.1 p.2) _.
Next Obligation. by intros []. Qed.

Definition Kind_code (k : Kind) : Z * Z * Z :=
  match k with
  | EQUAL => (0, 0, 0) | NOT => (1, 0, 0) | AND => (2, 0, 0) | OR => (3, 0, 0)
  | XOR => (4, 0, 0) | IMPLIES => (5, 0, 0) | ITE => (6, 0, 0)
  | BITVECTOR_FROM_BOOLS => (7, 0, 0) | BITVECTOR_SIZE => (8, 0, 0)
  | CONST_BITVECTOR_SYMBOLIC => (9, 0, 0) | BITVECTOR_CONCAT => (10, 0, 0)
  | BITVECTOR_AND => (11, 0, 0) | BITVECTOR_COMP => (12, 0, 0) | BITVECTOR_OR => (13, 0, 0)
  | BITVECTOR_XOR => (14, 0, 0) | BITVECTOR_NOT => (15, 0, 0) | BITVECTOR_NAND => (16, 0, 0)
  | BITVECTOR_NOR => (17, 0, 0) | BITVECTOR_XNOR => (18, 0, 0) | BITVECTOR_MULT => (19, 0, 0)
  | BITVECTOR_NEG => (20, 0, 0) | BITVECTOR_ADD => (21, 0, 0) | BITVECTOR_SUB => (22, 0, 0)
  | BITVECTOR_UDIV => (23, 0, 0) | BITVECTOR_UREM => (24, 0, 0) | BITVECTOR_SDIV => (25, 0, 0)
  | BITVECTOR_SMOD => (26, 0, 0) | BITVECTOR_SREM => (27, 0, 0) | BITVECTOR_ASHR => (28, 0, 0)
  | BITVECTOR_LSHR => (29, 0, 0) | BITVECTOR_SHL => (30, 0, 0) | BITVECTOR_ULE => (31, 0, 0)
  | BITVECTOR_ULT => (32, 0, 0) | BITVECTOR_UGE => (33, 0, 0) | BITVECTOR_UGT => (34, 0, 0)
  | BITVECTOR_SLE => (35, 0, 0) | BITVECTOR_SLT => (36, 0, 0) | BITVECTOR_SGE => (37, 0, 0)
  | BITVECTOR_SGT => (38, 0, 0) | BITVECTOR_ULTBV => (39, 0, 0) | BITVECTOR_SLTBV => (40, 0, 0)
  | BITVECTOR_REDAND => (41, 0, 0) | BITVECTOR_REDOR => (42, 0, 0) | BITVECTOR_NEGO => (43, 0, 0)
  | BITVECTOR_UADDO => (44, 0, 0) | BITVECTOR_SADDO => (45, 0, 0) | BITVECTOR_UMULO => (46, 0, 0)
  | BITVECTOR_SMULO => (47, 0, 0) | BITVECTOR_USUBO => (48, 0, 0) | BITVECTOR_SSUBO => (49, 0, 0)
  | BITVECTOR_SDIVO => (50, 0, 0) | BITVECTOR_ITE => (51, 0, 0) | BITVECTOR_EAGER_ATOM => (52, 0, 0)
  | BITVECTOR_BIT i => (53, i, 0) | BITVECTOR_EXTRACT h l => (54, h, l)
  | BITVECTOR_REPEAT n => (55, n, 0) | BITVECTOR_ROTATE_LEFT n => (56, n, 0)
  | BITVECTOR_ROTATE_RIGHT n => (57, n, 0) | BITVECTOR_SIGN_EXTEND n => (58, n, 0)
  | BITVECTOR_ZERO_EXTEND n => (59, n, 0) | DISTINCT => (60, 0, 0)
  | LT => (61, 0, 0) | LEQ => (62, 0, 0) | GT => (63, 0, 0) | GEQ => (64, 0, 0)
  | BITVECTOR_UBV_TO_INT => (65, 0, 0) | BITVECTOR_SBV_TO_INT => (66, 0, 0)
  | SUB => (67, 0, 0) | INTS_MODULUS_TOTAL => (68, 0, 0) | INT_TO_BITVECTOR w => (69, w, 0)
  | INTS_MODULUS => (70, 0, 0)
  end.

Definition Kind_decode (c : Z * Z * Z) : Kind :=
  match c with
  | (0, _, _) => EQUAL | (1, _, _) => NOT | (2, _, _) => AND | (3, _, _) => OR
  | (4, _, _) => XOR | (5, _, _) => IMPLIES | (6, _, _) => ITE
  | (7, _, _) => BITVECTOR_FROM_BOOLS | (8, _, _) => BITVECTOR_SIZE
  | (9, _, _) => CONST_BITVECTOR_SYMBOLIC | (10, _, _) => BITVECTOR_CONCAT
  | (11, _, _) => BITVECTOR_AND | (12, _, _) => BITVECTOR_COMP | (13, _, _) => BITVECTOR_OR
  | (14, _, _) => BITVECTOR_XOR | (15, _, _) => BITVECTOR_NOT | (16, _, _) => BITVECTOR_NAND
  | (17, _, _) => BITVECTOR_NOR | (18, _, _) => BITVECTOR_XNOR | (19, _, _) => BITVECTOR_MULT
  | (20, _, _) => BITVECTOR_NEG | (21, _, _) => BITVECTOR_ADD | (22, _, _) => BITVECTOR_SUB
  | (23, _, _) => BITVECTOR_UDIV | (24, _, _) => BITVECTOR_UREM | (25, _, _) => BITVECTOR_SDIV
  | (26, _, _) => BITVECTOR_SMOD | (27, _, _) => BITVECTOR_SREM | (28, _, _) => BITVECTOR_ASHR
  | (29, _, _) => BITVECTOR_LSHR | (30, _, _) => BITVECTOR_SHL | (31, _, _) => BITVECTOR_ULE
  | (32, _, _) => BITVECTOR_ULT | (33, _, _) => BITVECTOR_UGE | (34, _, _) => BITVECTOR_UGT
  | (35, _, _) => BITVECTOR_SLE | (36, _, _) => BITVECTOR_SLT | (37, _, _) => BITVECTOR_SGE
  | (38, _, _) => BITVECTOR_SGT | (39, _, _) => BITVECTOR_ULTBV | (40, _, _) => BITVECTOR_SLTBV
  | (41, _, _) => BITVECTOR_REDAND | (42, _, _) => BITVECTOR_REDOR | (43, _, _) => BITVECTOR_NEGO
  | (44, _, _) => BITVECTOR_UADDO | (45, _, _) => BITVECTOR_SADDO | (46, _, _) => BITVECTOR_UMULO
  | (47, _, _) => BITVECTOR_SMULO | (48, _, _) => BITVECTOR_USUBO | (49, _, _) => BITVECTOR_SSUBO
  | (50, _, _) => BITVECTOR_SDIVO | (51, _, _) => BITVECTOR_ITE | (52, _, _) => BITVECTOR_EAGER_ATOM
  | (53, i, _) => BITVECTOR_BIT i | (54, h, l) => BITVECTOR_EXTRACT h l
  | (55, n, _) => BITVECTOR_REPEAT n | (56, n, _) => BITVECTOR_ROTATE_LEFT n
  | (57, n, _) => BITVECTOR_ROTATE_RIGHT n | (58, n, _) => BITVECTOR_SIGN_EXTEND n
  | (59, n, _) => BITVECTOR_ZERO_EXTEND n | (60, _, _) => DISTINCT
  | (61, _, _) => LT | (62, _, _) => LEQ | (63, _, _) => GT | (64, _, _) => GEQ
  | (65, _, _) => BITVECTOR_UBV_TO_INT | (66, _, _) => BITVECTOR_SBV_TO_INT
  | (67, _, _) => SUB | (68, _, _) => INTS_MODULUS_TOTAL | (70, _, _) => INTS_MODULUS | (_, w, _) => INT_TO_BITVECTOR w
  end.

Lemma Kind_decode_code k : Kind_decode (Kind_code k) = k.
Proof. destruct k; reflexivity. Qed.

#[global] Instance Kind_eq_dec : EqDecision Kind.
Proof.
  intros k1 k2. destruct (decide (Kind_code k1 = Kind_code k2)) as [E|E].
  - left. by rewrite <- (Kind_decode_code k1), <- (Kind_decode_code k2), E.
  - right. by intros ->.
Defined.
#[global] Instance Kind_countable : Countable Kind :=
  inj_countable' Kind_code Kind_decode Kind_decode_code.

(** Nodes as generic trees. *)
Definition Leaf : Type := positive * TypeNode + bool + Z + BitVector + Kind.

Fixpoint Node_tree (n : Node) : gen_tree Leaf :=
  match n with
  | mkVar id ty => GenLeaf (inl (inl (inl (inl (id, ty)))))
  | mkConstBool b => GenLeaf (inl (inl (inl (inr b))))
  | mkConstInt z => GenLeaf (inl (inl (inr z)))
  | mkConstBV bv => GenLeaf (inl (inr bv))
  | mkNode k cs => GenNode 0 (GenLeaf (inr k) :: (Node_tree <$> cs))
  end.

Fixpoint tree_Node (t : gen_tree Leaf) : Node :=
  match t with
  | GenLeaf (inl (inl (inl (inl (id, ty))))) => mkVar id ty
  | GenLeaf (inl (inl (inl (inr b)))) => mkConstBool b
  | GenLeaf (inl (inl (inr z))) => mkConstInt z
  | GenLeaf (inl (inr bv)) => mkConstBV bv
  | GenNode _ (GenLeaf (inr k) :: ts) => mkNode k (tree_Node <$> ts)
  | _ => mkConstBool false
  end.

Lemma tree_Node_tree n : tree_Node (Node_tree n) = n.
Proof.
  induction n as [| | | |k cs IH] using Node_ind'; try done. simpl. f_equal.
  rewrite <- list_fmap_compose. induction IH as [|c cs Hc _ IHcs]; simpl; by f_equal.
Qed.

#[global] Instance Node_eq_dec : EqDecision Node.
Proof.
  intros n1 n2. destruct (decide (Node_tree n1 = Node_tree n2)) as [E|E].
  - left. by rewrite <- (tree_Node_tree n1), <- (tree_Node_tree n2), E.
  - right. by intros ->.
Defined.
#[global] Instance Node_countable : Countable Node :=
  inj_countable' Node_tree tree_Node tree_Node_tree.
