(* ===== verification/TypeRules.v ===== *)
(** The type rules: [expr/type_node.cpp] (unification of types),
    [theory/bv/theory_bv_type_rules.cpp], [theory/booleans/theory_bool_type_rules.cpp]
    and equality.  [None] is the null type a rule returns on an ill-typed term.
    Every rule is modelled as it runs with [check] set. *)
From stdpp Require Import base option list numbers.
From S2P Require Import Prelude Integer Node.
Open Scope Z_scope.

(** ** [TypeNode] *)

Definition isAbstract (t : TypeNode) : bool :=
  match t with ABSTRACT_TYPE _ => true | _ => false end.

Definition isFullyAbstract (t : TypeNode) : bool :=
  match t with ABSTRACT_TYPE AK_ABSTRACT_TYPE => true | _ => false end.

Definition isBoolean (t : TypeNode) : bool :=
  match t with BOOLEAN_TYPE => true | _ => false end.

Definition isInteger (t : TypeNode) : bool :=
  match t with INTEGER_TYPE => true | _ => false end.

Definition isBitVector (t : TypeNode) : bool :=
  match t with BITVECTOR_TYPE _ => true | _ => false end.

Definition getBitVectorSize (t : TypeNode) : option Z :=
  match t with BITVECTOR_TYPE w => Some w | _ => None end.

(** [isMaybeKind(Kind::BITVECTOR_TYPE)]. *)
Definition isMaybeBitVector (t : TypeNode) : bool :=
  match t with BITVECTOR_TYPE _ | ABSTRACT_TYPE _ => true | _ => false end.

(** Types without component types: what is left of the source's recursion on
    the components is the null type. *)
Definition unifyInternal (this t : TypeNode) (isLub : bool) : option TypeNode :=
  if decide (this = t) then Some t
  else match t, this with
       | ABSTRACT_TYPE AK_ABSTRACT_TYPE, _ => Some (if isLub then this else t)
       | ABSTRACT_TYPE AK_BITVECTOR_TYPE, BITVECTOR_TYPE _ => Some (if isLub then this else t)
       | _, ABSTRACT_TYPE AK_ABSTRACT_TYPE => Some (if isLub then t else this)
       | BITVECTOR_TYPE _, ABSTRACT_TYPE AK_BITVECTOR_TYPE => Some (if isLub then t else this)
       | _, _ => None
       end.

Definition leastUpperBound (this t : TypeNode) : option TypeNode := unifyInternal this t true.

Definition isComparableTo (this t : TypeNode) : bool :=
  match unifyInternal this t true with Some _ => true | None => false end.

(** ** Bit-vector type rules *)

Definition max_uint32 : Z := 4294967295.

Definition checkBvResultSize (size : Z) : bool := negb (bool_decide (size > max_uint32)).

Definition isMaybeBoolean (t : TypeNode) : bool := isBoolean t || isFullyAbstract t.

Definition checkMaybeBitVector (t : TypeNode) : bool := isMaybeBitVector t.

Definition ensureBv (t : TypeNode) : TypeNode :=
  match t with ABSTRACT_TYPE AK_ABSTRACT_TYPE => ABSTRACT_TYPE AK_BITVECTOR_TYPE | _ => t end.

Definition BitVectorConstantTypeRule (bv : BitVector) : option TypeNode :=
  if decide (d_size bv = 0) then None else Some (BITVECTOR_TYPE (d_size bv)).

Definition BitVectorConstantSymbolicTypeRule (cs : list Node) (ts : list TypeNode) : option TypeNode :=
  _ ← assert (forallb (λ tn, isInteger tn || isFullyAbstract tn) ts);
  n1 ← cs !! 1%nat;
  match n1 with
  | mkConstInt r => if decide (0 < r ∧ r ≤ max_uint32) then Some (BITVECTOR_TYPE r)
                    else Some (ABSTRACT_TYPE AK_BITVECTOR_TYPE)
  | _ => Some (ABSTRACT_TYPE AK_BITVECTOR_TYPE)
  end.

(** The loop over the children after the first. *)
Fixpoint fixedWidthLoop (t : TypeNode) (ts : list TypeNode) : option TypeNode :=
  match ts with
  | [] => Some t
  | tc :: ts =>
      _ ← assert (checkMaybeBitVector tc);
      t' ← leastUpperBound t tc;
      fixedWidthLoop t' ts
  end.

Definition BitVectorFixedWidthTypeRule (ts : list TypeNode) : option TypeNode :=
  match ts with
  | [] => None
  | tc :: ts => _ ← assert (checkMaybeBitVector tc); ensureBv <$> fixedWidthLoop tc ts
  end.

Definition BitVectorPredicateTypeRule (ts : list TypeNode) : option TypeNode :=
  lhsType ← ts !! 0%nat;
  _ ← assert (checkMaybeBitVector lhsType);
  match ts !! 1%nat with
  | Some rhsType => _ ← assert (isComparableTo lhsType rhsType); Some BOOLEAN_TYPE
  | None => Some BOOLEAN_TYPE
  end.

Definition BitVectorRedTypeRule (ts : list TypeNode) : option TypeNode :=
  type ← ts !! 0%nat;
  _ ← assert (checkMaybeBitVector type);
  Some (BITVECTOR_TYPE 1).

Definition BitVectorBVPredTypeRule (ts : list TypeNode) : option TypeNode :=
  lhs ← ts !! 0%nat;
  rhs ← ts !! 1%nat;
  _ ← assert (checkMaybeBitVector lhs && checkMaybeBitVector rhs && isComparableTo lhs rhs);
  Some (BITVECTOR_TYPE 1).

Definition BitVectorSizeTypeRule (ts : list TypeNode) : option TypeNode :=
  t ← ts !! 0%nat;
  _ ← assert (checkMaybeBitVector t);
  Some INTEGER_TYPE.

(** Sizes are [uint32_t], sums and products of sizes [uint64_t]. *)

(** The loop over the children, with the running [size] and [isAbstract]. *)
Fixpoint concatLoop (size : Z) (abs : bool) (ts : list TypeNode) : option (Z * bool) :=
  match ts with
  | [] => Some (size, abs)
  | t :: ts =>
      _ ← assert (checkMaybeBitVector t);
      if (abs : bool) then concatLoop size abs ts
      else if isAbstract t then concatLoop size true ts
      else s ← getBitVectorSize t;
           let nextSize := u64 (u64 size + s) in
           _ ← assert (checkBvResultSize nextSize);
           concatLoop (u32 nextSize) abs ts
  end.

Definition BitVectorConcatTypeRule (ts : list TypeNode) : option TypeNode :=
  '(size, abs) ← concatLoop 0 false ts;
  Some (if (abs : bool) then ABSTRACT_TYPE AK_BITVECTOR_TYPE else BITVECTOR_TYPE size).

Definition BitVectorToBVTypeRule (ts : list TypeNode) : option TypeNode :=
  _ ← assert (forallb isMaybeBoolean ts);
  Some (BITVECTOR_TYPE (Z.of_nat (length ts))).

Definition BitVectorITETypeRule (ts : list TypeNode) : option TypeNode :=
  cond ← ts !! 0%nat;
  thenpart ← ts !! 1%nat;
  elsepart ← ts !! 2%nat;
  _ ← assert (isComparableTo (BITVECTOR_TYPE 1) cond);
  leastUpperBound thenpart elsepart.

Definition BitVectorBitTypeRule (d_bitIndex : Z) (ts : list TypeNode) : option TypeNode :=
  t ← ts !! 0%nat;
  _ ← assert (checkMaybeBitVector t);
  match t with
  | BITVECTOR_TYPE size => if decide (d_bitIndex >= size) then None else Some BOOLEAN_TYPE
  | _ => Some BOOLEAN_TYPE
  end.

Definition BitVectorExtractTypeRule (d_high d_low : Z) (ts : list TypeNode) : option TypeNode :=
  if decide (d_high < d_low) then None
  else t ← ts !! 0%nat;
       _ ← assert (checkMaybeBitVector t);
       _ ← assert (match t with BITVECTOR_TYPE size => bool_decide (d_high < size) | _ => true end);
       let size := u64 (u64 (u64 d_high - d_low) + 1) in
       _ ← assert (checkBvResultSize size);
       Some (BITVECTOR_TYPE (u32 size)).

Definition BitVectorRepeatTypeRule (repeatAmount : Z) (ts : list TypeNode) : option TypeNode :=
  t ← ts !! 0%nat;
  _ ← assert (checkMaybeBitVector t);
  if decide (repeatAmount = 0) then None
  else if isAbstract t then Some (ensureBv t)
  else s ← getBitVectorSize t;
       let size := u64 (u64 repeatAmount * s) in
       _ ← assert (checkBvResultSize size);
       Some (BITVECTOR_TYPE (u32 size)).

Definition BitVectorExtendTypeRule (extendAmount : Z) (ts : list TypeNode) : option TypeNode :=
  t ← ts !! 0%nat;
  _ ← assert (checkMaybeBitVector t);
  if isAbstract t then Some (ensureBv t)
  else s ← getBitVectorSize t;
       let size := u64 (u64 extendAmount + s) in
       _ ← assert (checkBvResultSize size);
       Some (BITVECTOR_TYPE (u32 size)).

Definition BitVectorEagerAtomTypeRule (ts : list TypeNode) : option TypeNode :=
  lhsType ← ts !! 0%nat;
  _ ← assert (isBoolean lhsType);
  Some BOOLEAN_TYPE.

(** ** Boolean and builtin type rules *)

(** [ArithRelationTypeRule] and [BitVectorConversionTypeRule]. *)
Definition isMaybeRealOrInt (t : TypeNode) : bool := isInteger t || isFullyAbstract t.

Definition ArithRelationTypeRule (ts : list TypeNode) : option TypeNode :=
  _ ← assert (forallb isMaybeRealOrInt ts); Some BOOLEAN_TYPE.

(** [ArithOperatorTypeRule] for the operators on integers. *)
Definition ArithOperatorTypeRule (ts : list TypeNode) : option TypeNode :=
  _ ← assert (forallb isMaybeRealOrInt ts);
  Some (if existsb isAbstract ts then ABSTRACT_TYPE AK_ABSTRACT_TYPE else INTEGER_TYPE).

(** [SimpleTypeRule<RInteger, AInteger, AInteger>]. *)
Definition checkInteger (t : TypeNode) : bool := isInteger t || isFullyAbstract t.
Definition IntegerBinaryTypeRule (ts : list TypeNode) : option TypeNode :=
  t0 ← ts !! 0%nat; t1 ← ts !! 1%nat; _ ← assert (checkInteger t0); _ ← assert (checkInteger t1); Some INTEGER_TYPE.

(** The case [INT_TO_BITVECTOR] of [BitVectorConversionTypeRule], with
    [IntToBitVectorOpTypeRule] of its operator. *)
Definition IntToBitVectorTypeRule (bvSize : Z) (ts : list TypeNode) : option TypeNode :=
  _ ← assert (negb (bool_decide (bvSize = 0)));
  tn ← ts !! 0%nat; _ ← assert (isInteger tn || isFullyAbstract tn); Some (BITVECTOR_TYPE bvSize).

Definition BitVectorConversionTypeRule (ts : list TypeNode) : option TypeNode :=
  t ← ts !! 0%nat; _ ← assert (isMaybeBitVector t); Some INTEGER_TYPE.

Definition BooleanTypeRule (ts : list TypeNode) : option TypeNode :=
  _ ← assert (forallb isMaybeBoolean ts); Some BOOLEAN_TYPE.

Definition IteTypeRule (ts : list TypeNode) : option TypeNode :=
  condType ← ts !! 0%nat;
  thenType ← ts !! 1%nat;
  elseType ← ts !! 2%nat;
  resType ← leastUpperBound thenType elseType;
  _ ← assert (isMaybeBoolean condType);
  Some resType.

Definition EqualityTypeRule (ts : list TypeNode) : option TypeNode :=
  lhsType ← ts !! 0%nat;
  rhsType ← ts !! 1%nat;
  _ ← assert (isComparableTo lhsType rhsType);
  Some BOOLEAN_TYPE.

(** [theory/uf/theory_uf_type_rules.cpp]: [DistinctTypeRule]. *)
Fixpoint distinctLoop (joinType : TypeNode) (ts : list TypeNode) : option TypeNode :=
  match ts with
  | [] => Some joinType
  | currentType :: ts => joinType' ← leastUpperBound joinType currentType; distinctLoop joinType' ts
  end.

Definition DistinctTypeRule (ts : list TypeNode) : option TypeNode :=
  match ts with
  | [] => None
  | joinType :: ts => _ ← distinctLoop joinType ts; Some BOOLEAN_TYPE
  end.

(** ** The type of a term *)

(** [NodeValue::MAX_CHILDREN]. *)
Definition MAX_CHILDREN : Z := 67108863.

Definition atLeast (lo n : nat) : bool := bool_decide ((lo ≤ n)%nat ∧ Z.of_nat n ≤ MAX_CHILDREN).

(** The numbers of children the kind files allow. *)
Definition arity_ok (k : Kind) (n : nat) : bool :=
  match k with
  | NOT | BITVECTOR_NOT | BITVECTOR_NEG | BITVECTOR_REDAND | BITVECTOR_REDOR | BITVECTOR_NEGO
  | BITVECTOR_UBV_TO_INT | BITVECTOR_SBV_TO_INT
  | BITVECTOR_EAGER_ATOM | BITVECTOR_BIT _ | BITVECTOR_EXTRACT _ _ | BITVECTOR_REPEAT _
  | BITVECTOR_ROTATE_LEFT _ | BITVECTOR_ROTATE_RIGHT _ | BITVECTOR_SIGN_EXTEND _
  | BITVECTOR_ZERO_EXTEND _ | INT_TO_BITVECTOR _ => bool_decide (n = 1%nat)
  | BITVECTOR_FROM_BOOLS | BITVECTOR_SIZE => atLeast 1 n
  | DISTINCT | AND | OR | BITVECTOR_CONCAT | BITVECTOR_AND | BITVECTOR_OR | BITVECTOR_XOR
  | BITVECTOR_MULT | BITVECTOR_ADD => atLeast 2 n
  | ITE | BITVECTOR_ITE => bool_decide (n = 3%nat)
  | _ => bool_decide (n = 2%nat)
  end.

(** The payload of an operator is an unsigned 32-bit integer. *)
Definition uint32 (z : Z) : bool := bool_decide (0 ≤ z ≤ max_uint32).

Definition payload_ok (k : Kind) : bool :=
  match k with
  | BITVECTOR_EXTRACT h l => uint32 h && uint32 l
  | BITVECTOR_BIT i | BITVECTOR_REPEAT i | BITVECTOR_ROTATE_LEFT i | BITVECTOR_ROTATE_RIGHT i
  | BITVECTOR_SIGN_EXTEND i | BITVECTOR_ZERO_EXTEND i | INT_TO_BITVECTOR i => uint32 i
  | _ => true
  end.

(** The invariant of the class [BitVector]: a 32-bit size and a value reduced
    modulo two to the size. *)
Definition bv_ok (bv : BitVector) : bool :=
  uint32 (d_size bv) && bool_decide (0 ≤ d_value bv < 2 ^ d_size bv).

(** A bit-vector type has a positive 32-bit size. *)
Definition type_ok (t : TypeNode) : bool :=
  match t with BITVECTOR_TYPE w => bool_decide (0 < w ≤ max_uint32) | _ => true end.

Definition computeType (k : Kind) (cs : list Node) (ts : list TypeNode) : option TypeNode :=
  match k with
  | EQUAL => EqualityTypeRule ts
  | DISTINCT => DistinctTypeRule ts
  | NOT | AND | OR | XOR | IMPLIES => BooleanTypeRule ts
  | LT | LEQ | GT | GEQ => ArithRelationTypeRule ts
  | SUB => ArithOperatorTypeRule ts
  | INTS_MODULUS | INTS_MODULUS_TOTAL => IntegerBinaryTypeRule ts
  | INT_TO_BITVECTOR w => IntToBitVectorTypeRule w ts
  | BITVECTOR_UBV_TO_INT | BITVECTOR_SBV_TO_INT => BitVectorConversionTypeRule ts
  | ITE => IteTypeRule ts
  | BITVECTOR_FROM_BOOLS => BitVectorToBVTypeRule ts
  | BITVECTOR_SIZE => BitVectorSizeTypeRule ts
  | CONST_BITVECTOR_SYMBOLIC => BitVectorConstantSymbolicTypeRule cs ts
  | BITVECTOR_CONCAT => BitVectorConcatTypeRule ts
  | BITVECTOR_AND | BITVECTOR_OR | BITVECTOR_XOR | BITVECTOR_NOT | BITVECTOR_NAND
  | BITVECTOR_NOR | BITVECTOR_XNOR | BITVECTOR_MULT | BITVECTOR_NEG | BITVECTOR_ADD
  | BITVECTOR_SUB | BITVECTOR_UDIV | BITVECTOR_UREM | BITVECTOR_SDIV | BITVECTOR_SMOD
  | BITVECTOR_SREM | BITVECTOR_ASHR | BITVECTOR_LSHR | BITVECTOR_SHL
  | BITVECTOR_ROTATE_LEFT _ | BITVECTOR_ROTATE_RIGHT _ => BitVectorFixedWidthTypeRule ts
  | BITVECTOR_ULE | BITVECTOR_ULT | BITVECTOR_UGE | BITVECTOR_UGT | BITVECTOR_SLE
  | BITVECTOR_SLT | BITVECTOR_SGE | BITVECTOR_SGT | BITVECTOR_NEGO | BITVECTOR_UADDO
  | BITVECTOR_SADDO | BITVECTOR_UMULO | BITVECTOR_SMULO | BITVECTOR_USUBO | BITVECTOR_SSUBO
  | BITVECTOR_SDIVO => BitVectorPredicateTypeRule ts
  | BITVECTOR_COMP | BITVECTOR_ULTBV | BITVECTOR_SLTBV => BitVectorBVPredTypeRule ts
  | BITVECTOR_REDAND | BITVECTOR_REDOR => BitVectorRedTypeRule ts
  | BITVECTOR_ITE => BitVectorITETypeRule ts
  | BITVECTOR_EAGER_ATOM => BitVectorEagerAtomTypeRule ts
  | BITVECTOR_BIT i => BitVectorBitTypeRule i ts
  | BITVECTOR_EXTRACT h l => BitVectorExtractTypeRule h l ts
  | BITVECTOR_REPEAT n => BitVectorRepeatTypeRule n ts
  | BITVECTOR_SIGN_EXTEND n | BITVECTOR_ZERO_EXTEND n => BitVectorExtendTypeRule n ts
  end.

Fixpoint typeOf (n : Node) : option TypeNode :=
  match n with
  | mkVar _ ty => _ ← assert (type_ok ty); Some ty
  | mkConstBool _ => Some BOOLEAN_TYPE
  | mkConstInt _ => Some INTEGER_TYPE
  | mkConstBV bv => _ ← assert (bv_ok bv); BitVectorConstantTypeRule bv
  | mkNode k cs =>
      _ ← assert (arity_ok k (length cs) && payload_ok k);
      ts ← mapM typeOf cs;
      computeType k cs ts
  end.

(** [utils::getSize]. *)
Definition getSize (n : Node) : option Z := t ← typeOf n; getBitVectorSize t.

(** ** Sizes in range are exact *)

Lemma checkBvResultSize_le z : checkBvResultSize z = true → z ≤ max_uint32.
Proof. unfold checkBvResultSize. intros Hz%negb_true_iff%bool_decide_eq_false. lia. Qed.

Lemma type_ok_bv w : type_ok (BITVECTOR_TYPE w) = true → 0 < w ≤ max_uint32.
Proof. apply bool_decide_eq_true. Qed.

Lemma u32_size z : 0 ≤ z ≤ max_uint32 → u32 z = z.
Proof. unfold max_uint32. intros. apply u32_small. lia. Qed.

Lemma u64_size z : 0 ≤ z ≤ max_uint32 * max_uint32 → u64 z = z.
Proof. unfold max_uint32. intros. apply u64_small. lia. Qed.

Lemma next_size a b : 0 ≤ a ≤ max_uint32 → 0 ≤ b ≤ max_uint32 → u64 (u64 a + b) = a + b.
Proof. intros Ha Hb. rewrite (u64_size a), u64_size; unfold max_uint32 in *; lia. Qed.

Lemma repeat_size a b : 0 ≤ a ≤ max_uint32 → 0 ≤ b ≤ max_uint32 → u64 (u64 a * b) = a * b.
Proof. intros Ha Hb. rewrite (u64_size a), u64_size; unfold max_uint32 in *; [done|nia|lia]. Qed.

Lemma extract_size h l : 0 ≤ l ≤ h → h ≤ max_uint32 → u64 (u64 (u64 h - l) + 1) = h - l + 1.
Proof. intros Hl Hh. rewrite (u64_size h), (u64_size (h - l)), u64_size; unfold max_uint32 in *; lia. Qed.

(** The rules on bit-vectors of a known width. *)
Lemma accept_size {A} z (k : option A) : (_ ← assert (checkBvResultSize z); k) = if decide (z ≤ max_uint32) then k else None.
Proof. unfold checkBvResultSize. case_decide; [by rewrite bool_decide_false by lia|by rewrite bool_decide_true by lia]. Qed.

Lemma concatLoop_bv s w ts : 0 ≤ s ≤ max_uint32 → 0 ≤ w ≤ max_uint32 →
  concatLoop s false (BITVECTOR_TYPE w :: ts) = if decide (s + w ≤ max_uint32) then concatLoop (s + w) false ts else None.
Proof.
  intros Hs Hw.
  change (concatLoop s false (BITVECTOR_TYPE w :: ts)) with
    (_ ← assert (checkBvResultSize (u64 (u64 s + w))); concatLoop (u32 (u64 (u64 s + w))) false ts).
  rewrite next_size, accept_size by lia. case_decide; [by rewrite u32_size by lia|done].
Qed.

Lemma extract_rule h l w : 0 ≤ l → w ≤ max_uint32 →
  BitVectorExtractTypeRule h l [BITVECTOR_TYPE w] = if decide (l ≤ h < w) then Some (BITVECTOR_TYPE (h - l + 1)) else None.
Proof.
  intros Hl Hw. unfold BitVectorExtractTypeRule. destruct (decide (h < l)); [by rewrite decide_False by lia|]. cbn.
  destruct (decide (h < w)); [|by rewrite bool_decide_false, decide_False by lia]. rewrite bool_decide_true by lia. cbn.
  rewrite extract_size, accept_size by lia. rewrite !decide_True, u32_size by lia. done.
Qed.

Lemma repeat_rule m w : 0 < m ≤ max_uint32 → 0 ≤ w ≤ max_uint32 →
  BitVectorRepeatTypeRule m [BITVECTOR_TYPE w] = if decide (m * w ≤ max_uint32) then Some (BITVECTOR_TYPE (m * w)) else None.
Proof.
  intros Hm Hw. unfold BitVectorRepeatTypeRule. cbn. rewrite decide_False, repeat_size, accept_size by lia.
  case_decide; [by rewrite u32_size by nia|done].
Qed.

Lemma extend_rule m w : 0 ≤ m ≤ max_uint32 → 0 ≤ w ≤ max_uint32 →
  BitVectorExtendTypeRule m [BITVECTOR_TYPE w] = if decide (m + w ≤ max_uint32) then Some (BITVECTOR_TYPE (m + w)) else None.
Proof.
  intros Hm Hw. unfold BitVectorExtendTypeRule. cbn. rewrite next_size, accept_size by lia.
  case_decide; [by rewrite u32_size by lia|done].
Qed.

(** No subterm has an abstract type. *)
Fixpoint concrete (n : Node) : bool :=
  match typeOf n with Some t => negb (isAbstract t) | None => false end &&
  match n with
  | mkNode _ cs => forallb concrete cs
  | _ => true
  end.
