(* ===== verification/Semantics.v ===== *)
(** The meaning of terms: the SMT-LIB theories of the core and of fixed-size
    bit-vectors, over unbounded integers and independent of the code.  The
    rewriter, the bit-blaster and the CNF conversion are judged against it. *)
From stdpp Require Import base option list numbers.
From S2P Require Import Prelude Node TypeRules.
Open Scope Z_scope.

(** A bit-vector value is its width and its unsigned value. *)
Inductive value := VBool (b : bool) | VInt (z : Z) | VBV (w z : Z).

#[global] Instance value_eq_dec : EqDecision value.
Proof. solve_decision. Defined.

Definition sort_of (v : value) : TypeNode :=
  match v with VBool _ => BOOLEAN_TYPE | VInt _ => INTEGER_TYPE | VBV w _ => BITVECTOR_TYPE w end.

Definition value_ok (v : value) : Prop :=
  match v with VBV w z => 0 < w ∧ 0 ≤ z < 2 ^ w | _ => True end.

#[global] Instance value_ok_dec v : Decision (value_ok v).
Proof. destruct v; simpl; apply _. Defined.

(** The value modulo two to the width, and the two's complement reading. *)
Definition wrap (w z : Z) : Z := z mod 2 ^ w.
Definition signed (w z : Z) : Z := if decide (z < 2 ^ (w - 1)) then z else z - 2 ^ w.
Definition in_srange (w z : Z) : bool := bool_decide (- 2 ^ (w - 1) ≤ z < 2 ^ (w - 1)).

Definition b2z (b : bool) : Z := if b then 1 else 0.

(** ** Operators by shape *)

Definition bv_un (f : Z → Z → Z) (vs : list value) : option value :=
  match vs with [VBV w a] => Some (VBV w (f w a)) | _ => None end.

Definition bv_bin (f : Z → Z → Z → Z) (vs : list value) : option value :=
  match vs with
  | [VBV w a; VBV w' b] => if decide (w = w') then Some (VBV w (f w a b)) else None
  | _ => None
  end.

Definition bv_pred (p : Z → Z → Z → bool) (vs : list value) : option value :=
  match vs with
  | [VBV w a; VBV w' b] => if decide (w = w') then Some (VBool (p w a b)) else None
  | _ => None
  end.

Definition bv_pred1 (p : Z → Z → bool) (vs : list value) : option value :=
  match vs with [VBV w a] => Some (VBool (p w a)) | _ => None end.

Definition int_pred (p : Z → Z → bool) (vs : list value) : option value :=
  match vs with [VInt a; VInt b] => Some (VBool (p a b)) | _ => None end.

Definition int_bin (f : Z → Z → Z) (vs : list value) : option value :=
  match vs with [VInt a; VInt b] => Some (VInt (f a b)) | _ => None end.

(** The Euclidean remainder; the remainder by zero is the dividend.  This is what
    [INTS_MODULUS_TOTAL] means; for [INTS_MODULUS], whose remainder by zero is not
    specified, it is one of the meanings allowed. *)
Definition modulus (a b : Z) : Z := if decide (b = 0) then a else a mod Z.abs b.

Definition bv_to_int (f : Z → Z → Z) (vs : list value) : option value :=
  match vs with [VBV w a] => Some (VInt (f w a)) | _ => None end.

(** A predicate whose result is a bit-vector of width one. *)
Definition as_bit (v : option value) : option value :=
  match v with Some (VBool b) => Some (VBV 1 (b2z b)) | _ => None end.

Fixpoint bv_fold (f : Z → Z → Z) (w acc : Z) (vs : list value) : option value :=
  match vs with
  | [] => Some (VBV w acc)
  | VBV w' b :: vs => if decide (w = w') then bv_fold f w (f acc b) vs else None
  | _ => None
  end.

Definition bv_nary (f : Z → Z → Z → Z) (vs : list value) : option value :=
  match vs with VBV w a :: v :: vs => bv_fold (f w) w a (v :: vs) | _ => None end.

Fixpoint concat_fold (w acc : Z) (vs : list value) : option value :=
  match vs with
  | [] => Some (VBV w acc)
  | VBV w' b :: vs => concat_fold (w + w') (acc * 2 ^ w' + b) vs
  | _ => None
  end.

Definition bv_concat (vs : list value) : option value :=
  match vs with VBV w a :: v :: vs => concat_fold w a (v :: vs) | _ => None end.

Fixpoint as_bools (vs : list value) : option (list bool) :=
  match vs with
  | [] => Some []
  | VBool b :: vs => (b ::.) <$> as_bools vs
  | _ => None
  end.

(** The number whose bits are the list, least significant first. *)
Fixpoint bools_value (bs : list bool) : Z :=
  match bs with [] => 0 | b :: bs => b2z b + 2 * bools_value bs end.

(** [n] copies of the [w] bits of [a]. *)
Fixpoint repeat_value (n : nat) (w a : Z) : Z :=
  match n with O => 0 | S n => a + 2 ^ w * repeat_value n w a end.

(** ** Division, with the total semantics of division by zero *)

Definition udiv (w a b : Z) : Z := if decide (b = 0) then 2 ^ w - 1 else a / b.
Definition urem (w a b : Z) : Z := if decide (b = 0) then a else a mod b.

(** Signed division truncates; dividing by zero gives 1 or -1. *)
Definition sdiv (w a b : Z) : Z :=
  wrap w (if decide (b = 0) then (if decide (signed w a < 0) then 1 else -1)
          else Z.quot (signed w a) (signed w b)).
(** The remainder with the sign of the dividend. *)
Definition srem (w a b : Z) : Z :=
  wrap w (if decide (b = 0) then signed w a else Z.rem (signed w a) (signed w b)).
(** The remainder with the sign of the divisor. *)
Definition smod (w a b : Z) : Z :=
  wrap w (if decide (b = 0) then signed w a else signed w a mod signed w b).

(** ** Shifts and rotations *)

Definition shl (w a b : Z) : Z := if decide (b < w) then wrap w (a * 2 ^ b) else 0.
Definition lshr (w a b : Z) : Z := if decide (b < w) then a / 2 ^ b else 0.
Definition ashr (w a b : Z) : Z :=
  wrap w (if decide (b < w) then signed w a / 2 ^ b else (if decide (signed w a < 0) then -1 else 0)).

(** The low [w - n mod w] bits move up, the others come down. *)
Definition rotl (n w a : Z) : Z :=
  let m := n mod w in wrap w (a * 2 ^ m) + a / 2 ^ (w - m).
Definition rotr (n w a : Z) : Z :=
  let m := n mod w in a / 2 ^ m + wrap w (a * 2 ^ (w - m)).

(** ** The meaning of a kind *)

Definition kind_eval (k : Kind) (vs : list value) : option value :=
  match k with
  | EQUAL => match vs with
             | [v1; v2] => if decide (sort_of v1 = sort_of v2) then Some (VBool (bool_decide (v1 = v2))) else None
             | _ => None
             end
  | DISTINCT => match vs with
                | v1 :: v2 :: _ => if forallb (λ v, bool_decide (sort_of v1 = sort_of v)) vs
                                   then Some (VBool (bool_decide (NoDup vs))) else None
                | _ => None
                end
  | NOT => match vs with [VBool b] => Some (VBool (negb b)) | _ => None end
  | AND => VBool ∘ forallb id <$> as_bools vs
  | OR => VBool ∘ existsb id <$> as_bools vs
  | XOR => match vs with [VBool a; VBool b] => Some (VBool (xorb a b)) | _ => None end
  | IMPLIES => match vs with [VBool a; VBool b] => Some (VBool (implb a b)) | _ => None end
  | ITE => match vs with
           | [VBool c; v1; v2] =>
               if decide (sort_of v1 = sort_of v2) then Some (if c then v1 else v2) else None
           | _ => None
           end
  | LT => int_pred Z.ltb vs
  | LEQ => int_pred Z.leb vs
  | GT => int_pred Z.gtb vs
  | GEQ => int_pred Z.geb vs
  | SUB => int_bin Z.sub vs
  | INTS_MODULUS | INTS_MODULUS_TOTAL => int_bin modulus vs
  | INT_TO_BITVECTOR w => match vs with [VInt a] => Some (VBV w (wrap w a)) | _ => None end
  | BITVECTOR_UBV_TO_INT => bv_to_int (λ _ a, a) vs
  | BITVECTOR_SBV_TO_INT => bv_to_int signed vs
  | BITVECTOR_FROM_BOOLS => bs ← as_bools vs; Some (VBV (Z.of_nat (length bs)) (bools_value bs))
  | BITVECTOR_SIZE => match vs with VBV w _ :: _ => Some (VInt w) | _ => None end
  | CONST_BITVECTOR_SYMBOLIC =>
      match vs with
      | [VInt a; VInt w] => if decide (0 < w) then Some (VBV w (wrap w a)) else None
      | _ => None
      end
  | BITVECTOR_CONCAT => bv_concat vs
  | BITVECTOR_AND => bv_nary (λ _, Z.land) vs
  | BITVECTOR_OR => bv_nary (λ _, Z.lor) vs
  | BITVECTOR_XOR => bv_nary (λ _, Z.lxor) vs
  | BITVECTOR_NOT => bv_un (λ w a, 2 ^ w - 1 - a) vs
  | BITVECTOR_NAND => bv_bin (λ w a b, 2 ^ w - 1 - Z.land a b) vs
  | BITVECTOR_NOR => bv_bin (λ w a b, 2 ^ w - 1 - Z.lor a b) vs
  | BITVECTOR_XNOR => bv_bin (λ w a b, 2 ^ w - 1 - Z.lxor a b) vs
  | BITVECTOR_MULT => bv_nary (λ w a b, wrap w (a * b)) vs
  | BITVECTOR_NEG => bv_un (λ w a, wrap w (- a)) vs
  | BITVECTOR_ADD => bv_nary (λ w a b, wrap w (a + b)) vs
  | BITVECTOR_SUB => bv_bin (λ w a b, wrap w (a - b)) vs
  | BITVECTOR_UDIV => bv_bin udiv vs
  | BITVECTOR_UREM => bv_bin urem vs
  | BITVECTOR_SDIV => bv_bin sdiv vs
  | BITVECTOR_SMOD => bv_bin smod vs
  | BITVECTOR_SREM => bv_bin srem vs
  | BITVECTOR_ASHR => bv_bin ashr vs
  | BITVECTOR_LSHR => bv_bin lshr vs
  | BITVECTOR_SHL => bv_bin shl vs
  | BITVECTOR_ULE => bv_pred (λ _ a b, bool_decide (a ≤ b)) vs
  | BITVECTOR_ULT => bv_pred (λ _ a b, bool_decide (a < b)) vs
  | BITVECTOR_UGE => bv_pred (λ _ a b, bool_decide (b ≤ a)) vs
  | BITVECTOR_UGT => bv_pred (λ _ a b, bool_decide (b < a)) vs
  | BITVECTOR_SLE => bv_pred (λ w a b, bool_decide (signed w a ≤ signed w b)) vs
  | BITVECTOR_SLT => bv_pred (λ w a b, bool_decide (signed w a < signed w b)) vs
  | BITVECTOR_SGE => bv_pred (λ w a b, bool_decide (signed w b ≤ signed w a)) vs
  | BITVECTOR_SGT => bv_pred (λ w a b, bool_decide (signed w b < signed w a)) vs
  | BITVECTOR_COMP => as_bit (bv_pred (λ _ a b, bool_decide (a = b)) vs)
  | BITVECTOR_ULTBV => as_bit (bv_pred (λ _ a b, bool_decide (a < b)) vs)
  | BITVECTOR_SLTBV => as_bit (bv_pred (λ w a b, bool_decide (signed w a < signed w b)) vs)
  | BITVECTOR_REDAND => as_bit (bv_pred1 (λ w a, bool_decide (a = 2 ^ w - 1)) vs)
  | BITVECTOR_REDOR => as_bit (bv_pred1 (λ w a, negb (bool_decide (a = 0))) vs)
  | BITVECTOR_NEGO => bv_pred1 (λ w a, negb (in_srange w (- signed w a))) vs
  | BITVECTOR_UADDO => bv_pred (λ w a b, bool_decide (2 ^ w ≤ a + b)) vs
  | BITVECTOR_SADDO => bv_pred (λ w a b, negb (in_srange w (signed w a + signed w b))) vs
  | BITVECTOR_UMULO => bv_pred (λ w a b, bool_decide (2 ^ w ≤ a * b)) vs
  | BITVECTOR_SMULO => bv_pred (λ w a b, negb (in_srange w (signed w a * signed w b))) vs
  | BITVECTOR_USUBO => bv_pred (λ _ a b, bool_decide (a - b < 0)) vs
  | BITVECTOR_SSUBO => bv_pred (λ w a b, negb (in_srange w (signed w a - signed w b))) vs
  | BITVECTOR_SDIVO =>
      bv_pred (λ w a b, negb (bool_decide (b = 0))
                        && negb (in_srange w (Z.quot (signed w a) (signed w b)))) vs
  | BITVECTOR_ITE =>
      match vs with
      | [VBV 1 c; v1; v2] =>
          if decide (sort_of v1 = sort_of v2) then Some (if decide (c = 1) then v1 else v2) else None
      | _ => None
      end
  | BITVECTOR_EAGER_ATOM => match vs with [VBool b] => Some (VBool b) | _ => None end
  | BITVECTOR_BIT i =>
      match vs with
      | [VBV w a] => if decide (0 ≤ i < w) then Some (VBool (Z.testbit a i)) else None
      | _ => None
      end
  | BITVECTOR_EXTRACT h l =>
      match vs with
      | [VBV w a] => if decide (0 ≤ l ≤ h ∧ h < w) then Some (VBV (h - l + 1) (wrap (h - l + 1) (a / 2 ^ l))) else None
      | _ => None
      end
  | BITVECTOR_REPEAT n =>
      match vs with
      | [VBV w a] => if decide (0 < n) then Some (VBV (n * w) (repeat_value (Z.to_nat n) w a)) else None
      | _ => None
      end
  | BITVECTOR_ROTATE_LEFT n => bv_un (rotl n) vs
  | BITVECTOR_ROTATE_RIGHT n => bv_un (rotr n) vs
  | BITVECTOR_SIGN_EXTEND n =>
      match vs with
      | [VBV w a] => if decide (0 ≤ n) then Some (VBV (n + w) (wrap (n + w) (signed w a))) else None
      | _ => None
      end
  | BITVECTOR_ZERO_EXTEND n =>
      match vs with
      | [VBV w a] => if decide (0 ≤ n) then Some (VBV (n + w) a) else None
      | _ => None
      end
  end.

(** ** The meaning of a term *)

(** A valuation of the variables; it is asked at the type of the variable. *)
Definition Env : Type := positive → TypeNode → value.

Definition env_ok (env : Env) : Prop :=
  ∀ id ty, type_ok ty = true → isAbstract ty = false → sort_of (env id ty) = ty ∧ value_ok (env id ty).

Fixpoint eval (env : Env) (n : Node) : option value :=
  match n with
  | mkVar id ty =>
      if decide (sort_of (env id ty) = ty ∧ value_ok (env id ty)) then Some (env id ty) else None
  | mkConstBool b => Some (VBool b)
  | mkConstInt z => Some (VInt z)
  | mkConstBV bv => Some (VBV (d_size bv) (d_value bv))
  | mkNode k cs => vs ← mapM (eval env) cs; kind_eval k vs
  end.

(** The valuation that is false and zero everywhere. *)
Definition env0 : Env := λ _ ty,
  match ty with BOOLEAN_TYPE => VBool false | BITVECTOR_TYPE w => VBV w 0 | _ => VInt 0 end.

Lemma env0_ok : env_ok env0.
Proof.
  intros id [| |w|a] Hok Ha; simpl in *; try done. apply bool_decide_eq_true in Hok.
  split; [done|]. split; [lia|]. split; [done|]. apply Z.pow_pos_nonneg; lia.
Qed.
