(* ===== verification/BvArith.v ===== *)
(** Arithmetic of fixed-width values: bounds of the operators of [Semantics],
    their bits, and the two's complement reading. *)
From stdpp Require Import base option list numbers.
From S2P Require Import Prelude Node TypeRules Semantics.
Open Scope Z_scope.

(** ** Powers of two *)

Lemma pow2_pos w : 0 ≤ w → 0 < 2 ^ w.
Proof. intros. apply Z.pow_pos_nonneg; lia. Qed.

Lemma pow2_split w : 0 < w → 2 ^ w = 2 * 2 ^ (w - 1).
Proof. intros. rewrite <- Z.pow_succ_r by lia. f_equal. lia. Qed.

Lemma pow2_add a b : 0 ≤ a → 0 ≤ b → 2 ^ (a + b) = 2 ^ a * 2 ^ b.
Proof. apply Z.pow_add_r. Qed.

Lemma pow2_le a b : 0 ≤ a ≤ b → 2 ^ a ≤ 2 ^ b.
Proof. intros. apply Z.pow_le_mono_r; lia. Qed.

Lemma pow2_gt w : 0 ≤ w → w < 2 ^ w.
Proof. intros. apply Z.pow_gt_lin_r; lia. Qed.

(** ** [wrap] *)

Lemma wrap_bound w z : 0 ≤ w → 0 ≤ wrap w z < 2 ^ w.
Proof. intros. apply Z.mod_pos_bound. by apply pow2_pos. Qed.

Lemma wrap_small w z : 0 ≤ z < 2 ^ w → wrap w z = z.
Proof. intros. by apply Z.mod_small. Qed.

(** Reading a wrapped value: what it differs by is a multiple of [2 ^ w]. *)
Lemma wrap_eq w z r k : 0 ≤ r < 2 ^ w → z = r + k * 2 ^ w → wrap w z = r.
Proof. intros Hr ->. unfold wrap. rewrite Z.mod_add by lia. by apply Z.mod_small. Qed.

Lemma wrap_ex w z : 0 ≤ w → ∃ k, wrap w z = z + k * 2 ^ w.
Proof.
  intros Hw. exists (- (z / 2 ^ w)). unfold wrap. pose proof (pow2_pos w Hw).
  rewrite Z.mod_eq by lia. lia.
Qed.

Lemma wrap_congr w a b k : 0 ≤ w → a = b + k * 2 ^ w → wrap w a = wrap w b.
Proof. intros Hw ->. unfold wrap. apply Z.mod_add. pose proof (pow2_pos w Hw). lia. Qed.

Lemma wrap_bits w z i : 0 ≤ w → 0 ≤ i → Z.testbit (wrap w z) i = bool_decide (i < w) && Z.testbit z i.
Proof.
  intros Hw Hi. unfold wrap. case_bool_decide.
  - by rewrite Z.mod_pow2_bits_low by lia.
  - by rewrite Z.mod_pow2_bits_high by lia.
Qed.

(** ** Bits and bounds *)

Lemma bits_high w x i : 0 ≤ x < 2 ^ w → 0 ≤ w → w ≤ i → Z.testbit x i = false.
Proof.
  intros Hx Hw Hi. rewrite <- (Z.mod_small x (2 ^ w)) by lia. apply Z.mod_pow2_bits_high. lia.
Qed.

Lemma bits_bound w x : 0 ≤ w → 0 ≤ x → (∀ i, w ≤ i → Z.testbit x i = false) → x < 2 ^ w.
Proof.
  intros Hw Hx Hb. assert (x mod 2 ^ w = x) as <-.
  { apply Z.bits_inj'. intros i Hi. destruct (decide (i < w)).
    - apply Z.mod_pow2_bits_low. lia.
    - rewrite Z.mod_pow2_bits_high by lia. symmetry. apply Hb. lia. }
  apply Z.mod_pos_bound. by apply pow2_pos.
Qed.

(** Two values of the same width are equal when their bits are. *)
Lemma bits_eq w x y :
  0 ≤ x < 2 ^ w → 0 ≤ y < 2 ^ w → 0 ≤ w →
  (∀ i, 0 ≤ i < w → Z.testbit x i = Z.testbit y i) → x = y.
Proof.
  intros Hx Hy Hw Hb. apply Z.bits_inj'. intros i Hi. destruct (decide (i < w)); [apply Hb; lia|].
  by rewrite !(bits_high w) by lia.
Qed.

Lemma land_bound w a b : 0 ≤ w → 0 ≤ a < 2 ^ w → 0 ≤ b < 2 ^ w → 0 ≤ Z.land a b < 2 ^ w.
Proof.
  intros Hw Ha Hb. assert (0 ≤ Z.land a b) by (apply Z.land_nonneg; lia). split; [done|].
  apply bits_bound; [done..|]. intros i Hi. by rewrite Z.land_spec, (bits_high w a) by lia.
Qed.

Lemma lor_bound w a b : 0 ≤ w → 0 ≤ a < 2 ^ w → 0 ≤ b < 2 ^ w → 0 ≤ Z.lor a b < 2 ^ w.
Proof.
  intros Hw Ha Hb. assert (0 ≤ Z.lor a b) by (apply Z.lor_nonneg; lia). split; [done|].
  apply bits_bound; [done..|]. intros i Hi. by rewrite Z.lor_spec, (bits_high w a), (bits_high w b) by lia.
Qed.

Lemma lxor_bound w a b : 0 ≤ w → 0 ≤ a < 2 ^ w → 0 ≤ b < 2 ^ w → 0 ≤ Z.lxor a b < 2 ^ w.
Proof.
  intros Hw Ha Hb. assert (0 ≤ Z.lxor a b) by (apply Z.lxor_nonneg; lia). split; [done|].
  apply bits_bound; [done..|]. intros i Hi. by rewrite Z.lxor_spec, (bits_high w a), (bits_high w b) by lia.
Qed.

(** Complement. *)
Lemma not_bits w a i : 0 ≤ a < 2 ^ w → 0 ≤ i < w → Z.testbit (2 ^ w - 1 - a) i = negb (Z.testbit a i).
Proof.
  intros Ha Hi. rewrite <- (Z.mod_pow2_bits_low _ w i) by lia.
  assert ((2 ^ w - 1 - a) mod 2 ^ w = Z.lnot a mod 2 ^ w) as ->.
  { unfold Z.lnot. replace (2 ^ w - 1 - a) with (Z.pred (- a) + 1 * 2 ^ w) by lia.
    apply Z.mod_add. lia. }
  rewrite Z.mod_pow2_bits_low by lia. apply Z.lnot_spec. lia.
Qed.

Lemma ones_bits w i : 0 ≤ i < w → Z.testbit (2 ^ w - 1) i = true.
Proof. intros Hi. pose proof (pow2_pos w). rewrite <- (Z.sub_0_r (2 ^ w - 1)), not_bits by lia. by rewrite Z.bits_0. Qed.

(** The top bit decides the half of the range. *)
Lemma msb_spec w a : 0 < w → 0 ≤ a < 2 ^ w → Z.testbit a (w - 1) = bool_decide (2 ^ (w - 1) ≤ a).
Proof.
  intros Hw Ha. pose proof (pow2_split w Hw). pose proof (pow2_pos (w - 1)).
  rewrite Z.testbit_eqb by lia. case_bool_decide.
  - by rewrite <- (Z.div_unique a (2 ^ (w - 1)) 1 (a - 2 ^ (w - 1))) by lia.
  - by rewrite Z.div_small by lia.
Qed.

(** ** Two's complement *)

Lemma signed_range w a : 0 < w → 0 ≤ a < 2 ^ w → - 2 ^ (w - 1) ≤ signed w a < 2 ^ (w - 1).
Proof. intros Hw Ha. pose proof (pow2_split w Hw). unfold signed. case_decide; lia. Qed.

Lemma wrap_signed w a : 0 < w → 0 ≤ a < 2 ^ w → wrap w (signed w a) = a.
Proof.
  intros Hw Ha. unfold signed. case_decide; [by apply wrap_small|].
  apply (wrap_eq _ _ _ (-1)); lia.
Qed.

Lemma signed_wrap w z : 0 < w → - 2 ^ (w - 1) ≤ z < 2 ^ (w - 1) → signed w (wrap w z) = z.
Proof.
  intros Hw Hz. pose proof (pow2_split w Hw). destruct (decide (0 ≤ z)).
  - rewrite wrap_small by lia. unfold signed. by rewrite decide_True by lia.
  - rewrite (wrap_eq _ _ (z + 2 ^ w) (-1)) by lia. unfold signed. rewrite decide_False by lia. lia.
Qed.

Lemma signed_inj w a b :
  0 < w → 0 ≤ a < 2 ^ w → 0 ≤ b < 2 ^ w → signed w a = signed w b → a = b.
Proof. intros Hw Ha Hb E. by rewrite <- (wrap_signed w a), <- (wrap_signed w b), E. Qed.

Lemma signed_neg w a : 0 < w → 0 ≤ a < 2 ^ w → (signed w a < 0 ↔ 2 ^ (w - 1) ≤ a).
Proof. intros Hw Ha. pose proof (pow2_split w Hw). unfold signed. case_decide; lia. Qed.

(** ** Bounds of division, shifts and rotations *)

Lemma udiv_bound w a b : 0 ≤ w → 0 ≤ a < 2 ^ w → 0 ≤ b → 0 ≤ udiv w a b < 2 ^ w.
Proof.
  intros Hw Ha Hb. unfold udiv. case_decide; [pose proof (pow2_pos w); lia|].
  split; [apply Z.div_pos; lia|]. apply Z.div_lt_upper_bound; [lia|]. nia.
Qed.

Lemma urem_bound w a b : 0 ≤ w → 0 ≤ a < 2 ^ w → 0 ≤ b < 2 ^ w → 0 ≤ urem w a b < 2 ^ w.
Proof.
  intros Hw Ha Hb. unfold urem. case_decide; [done|]. pose proof (Z.mod_pos_bound a b). lia.
Qed.

Lemma shl_bound w a b : 0 ≤ w → 0 ≤ shl w a b < 2 ^ w.
Proof.
  intros Hw. unfold shl. case_decide; [by apply wrap_bound|]. pose proof (pow2_pos w). lia.
Qed.

Lemma lshr_bound w a b : 0 ≤ w → 0 ≤ a < 2 ^ w → 0 ≤ b → 0 ≤ lshr w a b < 2 ^ w.
Proof.
  intros Hw Ha Hb. unfold lshr. case_decide; [|pose proof (pow2_pos w); lia].
  pose proof (pow2_pos b). split; [apply Z.div_pos; lia|]. apply Z.div_lt_upper_bound; [lia|]. nia.
Qed.

(** A rotation splits the value in a high part of [w - m] and a low part of [m]
    bits, or the other way round. *)
Lemma split_mul_wrap w m a : 0 ≤ m ≤ w → wrap w (a * 2 ^ m) = wrap (w - m) a * 2 ^ m.
Proof.
  intros Hm. unfold wrap. replace (2 ^ w) with (2 ^ (w - m) * 2 ^ m).
  - pose proof (pow2_pos m). pose proof (pow2_pos (w - m)). rewrite Z.mul_mod_distr_r by lia. done.
  - rewrite <- pow2_add by lia. f_equal. lia.
Qed.

Lemma rot_bound w m a :
  0 ≤ m ≤ w → 0 ≤ a < 2 ^ w → 0 ≤ wrap w (a * 2 ^ m) + a / 2 ^ (w - m) < 2 ^ w.
Proof.
  intros Hm Ha. rewrite split_mul_wrap by done. pose proof (wrap_bound (w - m) a).
  pose proof (pow2_pos m). pose proof (pow2_pos (w - m)).
  assert (2 ^ w = 2 ^ (w - m) * 2 ^ m) as E by (rewrite <- pow2_add by lia; f_equal; lia).
  assert (0 ≤ a / 2 ^ (w - m) < 2 ^ m).
  { split; [apply Z.div_pos; lia|]. apply Z.div_lt_upper_bound; [lia|]. lia. }
  rewrite E. nia.
Qed.

Lemma rotl_bound n w a : 0 < w → 0 ≤ a < 2 ^ w → 0 ≤ rotl n w a < 2 ^ w.
Proof. intros Hw Ha. apply rot_bound; [|done]. pose proof (Z.mod_pos_bound n w). lia. Qed.

Lemma rotr_bound n w a : 0 < w → 0 ≤ a < 2 ^ w → 0 ≤ rotr n w a < 2 ^ w.
Proof.
  intros Hw Ha. unfold rotr. rewrite Z.add_comm. pose proof (Z.mod_pos_bound n w).
  replace (2 ^ (n mod w)) with (2 ^ (w - (w - n mod w))) by (f_equal; lia). apply rot_bound; [lia|done].
Qed.

Lemma concat_bound w w' a b :
  0 ≤ w → 0 ≤ w' → 0 ≤ a < 2 ^ w → 0 ≤ b < 2 ^ w' → 0 ≤ a * 2 ^ w' + b < 2 ^ (w + w').
Proof. intros Hw Hw' Ha Hb. rewrite pow2_add by done. pose proof (pow2_pos w'). nia. Qed.

Lemma bools_value_bound bs : 0 ≤ bools_value bs < 2 ^ Z.of_nat (length bs).
Proof.
  induction bs as [|b bs IH]; [simpl; lia|]. cbn [bools_value length]. rewrite Nat2Z.inj_succ, Z.pow_succ_r by lia.
  destruct b; simpl; lia.
Qed.

Lemma bools_value_bits bs i :
  Z.testbit (bools_value bs) (Z.of_nat i) = default false (bs !! i).
Proof.
  revert i. induction bs as [|b bs IH]; intros i; [by rewrite Z.bits_0|].
  cbn [bools_value]. destruct i as [|i].
  - rewrite Z.add_comm. destruct b; simpl b2z; [by rewrite Z.testbit_odd_0|].
    rewrite Z.add_0_r. by rewrite Z.testbit_even_0.
  - rewrite Nat2Z.inj_succ, Z.add_comm. destruct b; simpl b2z.
    + rewrite Z.testbit_odd_succ by lia. apply IH.
    + rewrite Z.add_0_r, Z.testbit_even_succ by lia. apply IH.
Qed.

Lemma repeat_value_bound n w a : 0 ≤ w → 0 ≤ a < 2 ^ w → 0 ≤ repeat_value n w a < 2 ^ (Z.of_nat n * w).
Proof.
  intros Hw Ha. induction n as [|n IH]; [simpl; lia|]. cbn [repeat_value].
  replace (Z.of_nat (S n) * w) with (w + Z.of_nat n * w) by lia. rewrite pow2_add by lia. nia.
Qed.

(** ** Automation: the bounds of every operator. *)
Create HintDb bvbound.
#[export] Hint Resolve wrap_bound land_bound lor_bound lxor_bound udiv_bound urem_bound
  shl_bound lshr_bound rotl_bound rotr_bound concat_bound : bvbound.
#[export] Hint Extern 3 (_ < _) => lia : bvbound.
#[export] Hint Extern 3 (_ ≤ _) => lia : bvbound.
