(* ===== verification/TypeSound.v ===== *)
(** Type soundness: a term the type rules accept has a value, of its type. *)
From stdpp Require Import base option list numbers.
From S2P Require Import Prelude Node TypeRules Semantics BvArith.
Open Scope Z_scope.

Definition has_type (v : value) (t : TypeNode) : Prop := sort_of v = t ∧ value_ok v.

(** A bit-vector of width [w]. *)
Definition is_bv (w : Z) (v : value) : Prop := ∃ z, v = VBV w z ∧ 0 ≤ z < 2 ^ w.

Lemma has_type_bv v w : has_type v (BITVECTOR_TYPE w) ↔ 0 < w ∧ is_bv w v.
Proof.
  split.
  - intros [Hs Hok]. destruct v; simplify_eq/=. split; [lia|]. eexists; split; [done|lia].
  - intros (Hw&z&->&Hz). by split.
Qed.

Lemma has_type_bool v : has_type v BOOLEAN_TYPE ↔ ∃ b, v = VBool b.
Proof. split; [intros [Hs _]; destruct v; simplify_eq/=; eauto|by intros [b ->]]. Qed.

(** Types of values are not abstract. *)
Lemma has_type_concrete v t : has_type v t → isAbstract t = false.
Proof. intros [<- _]. by destruct v. Qed.

Lemma checkMaybe_bv v t : has_type v t → checkMaybeBitVector t = true → ∃ w, t = BITVECTOR_TYPE w ∧ 0 < w ∧ is_bv w v.
Proof.
  intros Hv Hc. pose proof (has_type_concrete v t Hv). destruct t; simplify_eq/=.
  exists d_size. split; [done|]. by apply has_type_bv.
Qed.

Lemma unify_concrete v1 v2 t1 t2 b t :
  has_type v1 t1 → has_type v2 t2 → unifyInternal t1 t2 b = Some t → t1 = t2 ∧ t = t1.
Proof.
  intros H1%has_type_concrete H2%has_type_concrete. unfold unifyInternal. case_decide; [by intros; simplify_eq|].
  destruct t1 as [| | |[]], t2 as [| | |[]]; simplify_eq/=; done.
Qed.

Lemma comparable_concrete v1 v2 t1 t2 :
  has_type v1 t1 → has_type v2 t2 → isComparableTo t1 t2 = true → t1 = t2.
Proof.
  unfold isComparableTo. intros H1 H2 Hc. destruct (unifyInternal t1 t2 true) as [t|] eqn:E; [|done].
  by eapply unify_concrete in E as [? _].
Qed.

(** ** Children of one width *)

Lemma fixedWidthLoop_sound w vs ts τ :
  0 < w → Forall2 has_type vs ts → fixedWidthLoop (BITVECTOR_TYPE w) ts = Some τ →
  τ = BITVECTOR_TYPE w ∧ Forall (is_bv w) vs.
Proof.
  intros Hw HF. induction HF as [|v t vs ts Hv _ IH]; intros Hl; [by simplify_eq/=|].
  cbn [fixedWidthLoop] in Hl. apply bind_Some in Hl as ([]&Hc%assert_Some&Hl).
  apply bind_Some in Hl as (t'&Hu&Hl). destruct (checkMaybe_bv v t Hv Hc) as (w'&->&Hw'&Hbv).
  assert (has_type (VBV w 0) (BITVECTOR_TYPE w)) as H0.
  { apply has_type_bv. split; [done|]. exists 0. pose proof (pow2_pos w). split; [done|lia]. }
  destruct (unify_concrete _ _ _ _ _ _ H0 Hv Hu) as [[= <-] ->]. destruct (IH Hl) as [-> HF']. by split; [|constructor].
Qed.

Lemma fixedWidth_sound vs ts τ :
  Forall2 has_type vs ts → BitVectorFixedWidthTypeRule ts = Some τ →
  ∃ w, τ = BITVECTOR_TYPE w ∧ 0 < w ∧ Forall (is_bv w) vs.
Proof.
  intros HF Ht. destruct HF as [|v t vs ts Hv HF]; [done|]. cbn [BitVectorFixedWidthTypeRule] in Ht.
  apply bind_Some in Ht as ([]&Hc%assert_Some&Ht). apply fmap_Some in Ht as (τ'&Hl&->).
  destruct (checkMaybe_bv v t Hv Hc) as (w&->&Hw&Hbv).
  destruct (fixedWidthLoop_sound w vs ts τ' Hw HF Hl) as [-> HF']. exists w. by split_and!; [|done|constructor].
Qed.

Lemma bv_fold_sound f w vs acc :
  (∀ a b, 0 ≤ a < 2 ^ w → 0 ≤ b < 2 ^ w → 0 ≤ f a b < 2 ^ w) →
  Forall (is_bv w) vs → 0 ≤ acc < 2 ^ w → ∃ z, bv_fold f w acc vs = Some (VBV w z) ∧ 0 ≤ z < 2 ^ w.
Proof.
  intros Hf HF. revert acc. induction HF as [|v vs (b&->&Hb) _ IH]; intros acc Ha; [eauto|].
  cbn [bv_fold]. rewrite decide_True by done. apply IH. by apply Hf.
Qed.

Definition sound_at (k : Kind) (vs : list value) (τ : TypeNode) : Prop :=
  ∃ v, kind_eval k vs = Some v ∧ has_type v τ.

Lemma bv_nary_sound f w vs :
  0 < w → (∀ a b, 0 ≤ a < 2 ^ w → 0 ≤ b < 2 ^ w → 0 ≤ f w a b < 2 ^ w) →
  Forall (is_bv w) vs → (2 ≤ length vs)%nat → ∃ v, bv_nary f vs = Some v ∧ has_type v (BITVECTOR_TYPE w).
Proof.
  intros Hw Hf HF Hl. destruct HF as [|v vs (a&->&Ha) HF]; [simpl in Hl; lia|].
  destruct vs as [|v' vs]; [simpl in Hl; lia|]. cbn [bv_nary].
  destruct (bv_fold_sound (f w) w (v' :: vs) a Hf HF Ha) as (z&->&Hz). eexists. split; [done|].
  apply has_type_bv. split; [done|]. by exists z.
Qed.

Lemma bv_bin_sound f w vs :
  0 < w → (∀ a b, 0 ≤ a < 2 ^ w → 0 ≤ b < 2 ^ w → 0 ≤ f w a b < 2 ^ w) →
  Forall (is_bv w) vs → length vs = 2%nat → ∃ v, bv_bin f vs = Some v ∧ has_type v (BITVECTOR_TYPE w).
Proof.
  intros Hw Hf HF Hl. destruct HF as [|v vs (a&->&Ha) [|v' vs' (b&->&Hb) [|]]]; try done. simpl.
  rewrite decide_True by done. eexists. split; [done|]. split; [done|]. split; [done|]. by apply Hf.
Qed.

Lemma bv_un_sound f w vs :
  0 < w → (∀ a, 0 ≤ a < 2 ^ w → 0 ≤ f w a < 2 ^ w) →
  Forall (is_bv w) vs → length vs = 1%nat → ∃ v, bv_un f vs = Some v ∧ has_type v (BITVECTOR_TYPE w).
Proof.
  intros Hw Hf HF Hl. destruct HF as [|v vs (a&->&Ha) [|]]; try done. simpl.
  eexists. split; [done|]. split; [done|]. split; [done|]. by apply Hf.
Qed.

(** ** Predicates *)

Lemma pred_children vs ts :
  Forall2 has_type vs ts → length vs = 2%nat → BitVectorPredicateTypeRule ts = Some BOOLEAN_TYPE →
  ∃ w a b, vs = [VBV w a; VBV w b] ∧ 0 < w ∧ 0 ≤ a < 2 ^ w ∧ 0 ≤ b < 2 ^ w.
Proof.
  intros HF Hl Ht. destruct HF as [|v1 t1 ? ? Hv1 [|v2 t2 ? ? Hv2 [|]]]; try done.
  unfold BitVectorPredicateTypeRule in Ht. simpl in Ht. apply bind_Some in Ht as ([]&Hc%assert_Some&Ht).
  apply bind_Some in Ht as ([]&Hu%assert_Some&_).
  destruct (checkMaybe_bv _ _ Hv1 Hc) as (w&->&Hw&a&->&Ha).
  rewrite <- (comparable_concrete _ _ _ _ Hv1 Hv2 Hu) in Hv2.
  apply has_type_bv in Hv2 as (_&b&->&Hb). by exists w, a, b.
Qed.

Lemma pred1_child vs ts :
  Forall2 has_type vs ts → length vs = 1%nat → BitVectorPredicateTypeRule ts = Some BOOLEAN_TYPE →
  ∃ w a, vs = [VBV w a] ∧ 0 < w ∧ 0 ≤ a < 2 ^ w.
Proof.
  intros HF Hl Ht. destruct HF as [|v1 t1 ? ? Hv1 [|]]; try done.
  unfold BitVectorPredicateTypeRule in Ht. simpl in Ht. apply bind_Some in Ht as ([]&Hc%assert_Some&_).
  destruct (checkMaybe_bv _ _ Hv1 Hc) as (w&->&Hw&a&->&Ha). by exists w, a.
Qed.

Lemma pred_type ts τ : BitVectorPredicateTypeRule ts = Some τ → τ = BOOLEAN_TYPE.
Proof.
  unfold BitVectorPredicateTypeRule. intros H. destruct (ts !! 0%nat) as [t|]; [|done]. simpl in H.
  apply bind_Some in H as ([]&_&H). destruct (ts !! 1%nat); [|congruence].
  apply bind_Some in H as ([]&_&H). congruence.
Qed.

Lemma bit_type v b : v = VBV 1 (b2z b) → has_type v (BITVECTOR_TYPE 1).
Proof. intros ->. apply has_type_bv. split; [lia|]. eexists. split; [done|]. destruct b; simpl; lia. Qed.

(** ** Booleans *)

Lemma bools_children vs ts :
  Forall2 has_type vs ts → forallb isMaybeBoolean ts = true →
  ∃ bs, vs = VBool <$> bs ∧ as_bools vs = Some bs ∧ length bs = length vs.
Proof.
  induction 1 as [|v t vs ts Hv _ IH]; intros Hb; [by exists []|].
  simpl in Hb. apply andb_true_iff in Hb as [Hb1 Hb2]. destruct (IH Hb2) as (bs&->&Hbs&_).
  pose proof (has_type_concrete v t Hv). destruct t as [| | |[]]; try done.
  apply has_type_bool in Hv as [b ->]. exists (b :: bs). simpl. rewrite Hbs. split; [done|]. split; [done|]. by rewrite length_fmap.
Qed.

(** ** Concatenation *)

Lemma concatLoop_sound vs : ∀ ts s w acc size abs,
  Forall2 has_type vs ts → Forall (λ t, type_ok t = true) ts → 0 ≤ s ≤ max_uint32 → concatLoop s false ts = Some (size, abs) →
  abs = false ∧ (0 < w → 0 ≤ acc < 2 ^ w →
    ∃ z, concat_fold w acc vs = Some (VBV (w + (size - s)) z) ∧ s ≤ size ∧ 0 ≤ z < 2 ^ (w + (size - s))).
Proof.
  induction vs as [|v vs IH]; intros ts s w acc size abs HF Hok Hs0 Hl.
  - inversion HF; subst. simplify_eq/=. split; [done|]. intros Hw Ha. exists acc.
    rewrite Z.sub_diag, Z.add_0_r. split_and!; [done|lia|lia|lia].
  - inversion HF as [|? t ? ts' Hv HF']; subst. cbn [concatLoop] in Hl.
    apply bind_Some in Hl as ([]&Hc%assert_Some&Hl). destruct (checkMaybe_bv _ _ Hv Hc) as (w'&->&Hw'&b&->&Hb).
    apply list.Forall_cons in Hok as [Hw'' Hok]. apply type_ok_bv in Hw''.
    cbn [isAbstract getBitVectorSize mbind option_bind] in Hl. rewrite next_size in Hl by lia. apply bind_Some in Hl as ([]&Hsz%assert_Some%checkBvResultSize_le&Hl).
    rewrite u32_size in Hl by lia. destruct (IH _ (s + w') (w + w') (acc * 2 ^ w' + b) _ _ HF' Hok ltac:(lia) Hl) as [-> IH']. split; [done|]. intros Hw Ha.
    destruct IH' as (z&Hz&Hs&Hb'); [lia|apply concat_bound; lia|]. exists z. cbn [concat_fold]. rewrite Hz.
    replace (w + w' + (size - (s + w'))) with (w + (size - s)) in * by lia. split_and!; [done|lia|lia|lia].
Qed.

Lemma concat_sound vs ts τ :
  Forall2 has_type vs ts → Forall (λ t, type_ok t = true) ts → (2 ≤ length vs)%nat → BitVectorConcatTypeRule ts = Some τ → sound_at BITVECTOR_CONCAT vs τ.
Proof.
  intros HF Hok Hl Ht. unfold BitVectorConcatTypeRule in Ht. apply bind_Some in Ht as ([size abs]&Hc&Ht).
  destruct vs as [|v1 [|v2 vs]]; [simpl in Hl; lia..|]. inversion HF as [|? t ? ts' Hv HF']; subst.
  cbn [concatLoop] in Hc. apply bind_Some in Hc as ([]&Hm%assert_Some&Hc).
  destruct (checkMaybe_bv _ _ Hv Hm) as (w&->&Hw&a&->&Ha).
  apply list.Forall_cons in Hok as [Hw' Hok]. apply type_ok_bv in Hw'.
  cbn [isAbstract getBitVectorSize mbind option_bind] in Hc. rewrite next_size in Hc by (unfold max_uint32 in *; lia). apply bind_Some in Hc as ([]&Hsz%assert_Some%checkBvResultSize_le&Hc).
  rewrite u32_size in Hc by lia. destruct (concatLoop_sound _ _ (0 + w) w a _ _ HF' Hok ltac:(lia) Hc) as [-> (z&Hz&Hs&Hb)]; [done..|]. simplify_eq/=.
  exists (VBV (w + (size - (0 + w))) z). split; [done|]. replace (w + (size - (0 + w))) with size in * by lia.
  apply has_type_bv. split; [lia|]. by exists z.
Qed.

(** ** Every kind *)

Ltac nofail :=
  repeat match goal with
  | H : bool_decide _ = true |- _ => apply bool_decide_eq_true in H
  | H : _ && _ = true |- _ => apply andb_true_iff in H as [? ?]
  | H : (_ ← _; _) = Some _ |- _ => apply bind_Some in H as (?&?&?)
  | H : assert _ = Some _ |- _ => apply assert_Some in H
  | H : forallb _ (_ :: _) = true |- _ => cbn [forallb] in H
  end.

(** Kinds of one child: its value. *)
Lemma one_bv vs ts t :
  Forall2 has_type vs ts → length vs = 1%nat → ts !! 0%nat = Some t → checkMaybeBitVector t = true →
  ∃ w a, vs = [VBV w a] ∧ t = BITVECTOR_TYPE w ∧ 0 < w ∧ 0 ≤ a < 2 ^ w.
Proof.
  intros HF Hl Ht Hc. destruct HF as [|v t' ? ? Hv [|]]; simplify_eq/=.
  destruct (checkMaybe_bv _ _ Hv Hc) as (w&->&Hw&a&->&Ha). by exists w, a.
Qed.

(** Kinds of two children with a one-bit result. *)
Lemma bvpred_children vs ts τ :
  Forall2 has_type vs ts → length vs = 2%nat → BitVectorBVPredTypeRule ts = Some τ →
  τ = BITVECTOR_TYPE 1 ∧ ∃ w a b, vs = [VBV w a; VBV w b].
Proof.
  intros HF Hl Ht. destruct HF as [|v1 t1 ? ? Hv1 [|v2 t2 ? ? Hv2 [|]]]; try done.
  unfold BitVectorBVPredTypeRule in Ht. simpl in Ht. nofail. simplify_eq. split; [done|].
  destruct (checkMaybe_bv v1 t1) as (w&->&Hw&a&->&Ha); [done..|].
  destruct (checkMaybe_bv v2 t2) as (w'&->&Hw'&b&->&Hb); [done..|].
  match goal with H : isComparableTo _ _ = true |- _ => apply (comparable_concrete _ _ _ _ Hv1 Hv2) in H end.
  simplify_eq. by exists w', a, b.
Qed.

Lemma bool_sound k ts vs τ :
  match k with NOT | AND | OR | XOR | IMPLIES => True | _ => False end →
  arity_ok k (length vs) = true → Forall2 has_type vs ts → BooleanTypeRule ts = Some τ → sound_at k vs τ.
Proof.
  intros Hk Har HF Ht. unfold BooleanTypeRule in Ht. nofail. simplify_eq.
  destruct (bools_children vs ts HF) as (bs&->&Hbs&_); [done|].
  destruct k; try done; unfold sound_at; cbn [arity_ok kind_eval] in *; nofail; rewrite ?Hbs;
    [destruct bs as [|? []]; try done|..|destruct bs as [|? [|? []]]; try done|destruct bs as [|? [|? []]]; try done];
    simpl; eexists; by split.
Qed.

Lemma ite_sound vs ts τ :
  length vs = 3%nat → Forall2 has_type vs ts → IteTypeRule ts = Some τ → sound_at ITE vs τ.
Proof.
  intros Har HF Ht. destruct HF as [|v1 t1 ? ? Hv1 [|v2 t2 ? ? Hv2 [|v3 t3 ? ? Hv3 [|]]]]; try done.
  unfold IteTypeRule in Ht. simpl in Ht. nofail. simplify_eq.
  match goal with H : leastUpperBound _ _ = _ |- _ => destruct (unify_concrete _ _ _ _ _ _ Hv2 Hv3 H) as [<- ->] end.
  destruct (bools_children [v1] [t1]) as ([|b []]&?&?&?); simplify_eq/=; [by constructor|by apply andb_true_iff|].
  exists (if b then v2 else v3). simpl. destruct Hv2 as [Hs2 ?], Hv3 as [Hs3 ?].
  rewrite Hs2, Hs3, decide_True by done. split; [done|]. by destruct b.
Qed.

Lemma bvite_sound vs ts τ :
  length vs = 3%nat → Forall2 has_type vs ts → BitVectorITETypeRule ts = Some τ → sound_at BITVECTOR_ITE vs τ.
Proof.
  intros Har HF Ht. destruct HF as [|v1 t1 ? ? Hv1 [|v2 t2 ? ? Hv2 [|v3 t3 ? ? Hv3 [|]]]]; try done.
  unfold BitVectorITETypeRule in Ht. simpl in Ht. nofail.
  match goal with H : leastUpperBound _ _ = _ |- _ => destruct (unify_concrete _ _ _ _ _ _ Hv2 Hv3 H) as [<- ->] end.
  match goal with H : isComparableTo _ _ = true |- _ =>
    apply (comparable_concrete (VBV 1 0) v1) in H; [|by apply (bit_type _ false)|done] end.
  subst t1. apply has_type_bv in Hv1 as (_&c&->&Hc). exists (if decide (c = 1) then v2 else v3). simpl.
  destruct Hv2 as [Hs2 ?], Hv3 as [Hs3 ?]. rewrite Hs2, Hs3, decide_True by done.
  split; [done|]. by case_decide.
Qed.

Lemma equal_sound vs ts τ :
  length vs = 2%nat → Forall2 has_type vs ts → EqualityTypeRule ts = Some τ → sound_at EQUAL vs τ.
Proof.
  intros Har HF Ht. destruct HF as [|v1 t1 ? ? Hv1 [|v2 t2 ? ? Hv2 [|]]]; try done.
  unfold EqualityTypeRule in Ht. simpl in Ht. nofail. simplify_eq.
  match goal with H : isComparableTo _ _ = true |- _ => apply (comparable_concrete _ _ _ _ Hv1 Hv2) in H as -> end.
  eexists. simpl. destruct Hv1 as [-> ?], Hv2 as [-> ?]. rewrite decide_True by done. by split.
Qed.

Lemma distinctLoop_sound v t vs ts τ :
  has_type v t → Forall2 has_type vs ts → distinctLoop t ts = Some τ → Forall (λ v', sort_of v = sort_of v') vs.
Proof.
  intros Hv HF. revert t Hv. induction HF as [|v' t' vs ts Hv' HF IH]; intros t Hv Hl; [constructor|].
  cbn [distinctLoop] in Hl. apply bind_Some in Hl as (t1&Hu&Hl).
  destruct (unify_concrete _ _ _ _ _ _ Hv Hv' Hu) as [<- ->]. constructor; [|by eapply IH].
  destruct Hv as [-> _], Hv' as [-> _]. done.
Qed.

Lemma distinct_sound vs ts τ :
  (2 ≤ length vs)%nat → Forall2 has_type vs ts → DistinctTypeRule ts = Some τ → sound_at DISTINCT vs τ.
Proof.
  intros Har HF Ht. destruct HF as [|v1 t1 vs ts Hv1 HF]; [simpl in Har; lia|]. cbn [DistinctTypeRule] in Ht.
  apply bind_Some in Ht as (t&Hl&[= <-]). pose proof (distinctLoop_sound _ _ _ _ _ Hv1 HF Hl) as Hs.
  destruct vs as [|v2 vs]; [simpl in Har; lia|]. eexists. cbn [kind_eval].
  replace (forallb _ _) with true; [by split|]. symmetry. apply forallb_forall. intros x Hx. apply bool_decide_eq_true.
  destruct Hx as [<-|Hx]; [done|]. rewrite list.Forall_forall in Hs. by apply Hs, list_elem_of_In.
Qed.

Lemma symbolic_sound cs vs ts τ :
  length vs = 2%nat → Forall2 has_type vs ts → BitVectorConstantSymbolicTypeRule cs ts = Some τ →
  isAbstract τ = false → (∀ i z, cs !! i = Some (mkConstInt z) → vs !! i = Some (VInt z)) →
  sound_at CONST_BITVECTOR_SYMBOLIC vs τ.
Proof.
  intros Har HF Ht Habs Hint. destruct HF as [|v1 t1 ? ? Hv1 [|v2 t2 ? ? Hv2 [|]]]; try done.
  unfold BitVectorConstantSymbolicTypeRule in Ht. nofail. pose proof (has_type_concrete _ _ Hv1).
  destruct t1 as [| | |[]]; try done. destruct Hv1 as [Hs1 _]. destruct v1; simplify_eq/=.
  match goal with H : cs !! _ = Some ?x |- _ => destruct x as [| |r| |]; try (by simplify_eq/=); pose proof (Hint _ _ H) end.
  simplify_eq/=. case_decide; [|by simplify_eq/=]. simplify_eq. eexists. simpl. rewrite decide_True by lia.
  split; [done|]. apply has_type_bv. split; [lia|]. eexists. split; [done|]. apply wrap_bound. lia.
Qed.

Lemma red_sound k ts vs τ :
  match k with BITVECTOR_REDAND | BITVECTOR_REDOR => True | _ => False end →
  length vs = 1%nat → Forall2 has_type vs ts → BitVectorRedTypeRule ts = Some τ → sound_at k vs τ.
Proof.
  intros Hk Hl HF Ht. unfold BitVectorRedTypeRule in Ht. nofail. simplify_eq.
  destruct (one_bv vs ts x) as (w&a&->&->&Hw&Ha); [done..|].
  destruct k; try done; eexists; (split; [done|]); by eapply bit_type.
Qed.

Lemma bit_sound i ts vs τ :
  length vs = 1%nat → uint32 i = true → Forall2 has_type vs ts → BitVectorBitTypeRule i ts = Some τ →
  sound_at (BITVECTOR_BIT i) vs τ.
Proof.
  intros Hl Hp HF Ht. unfold BitVectorBitTypeRule, uint32 in *. nofail.
  destruct (one_bv vs ts x) as (w&a&->&->&Hw&Ha); [done..|]. case_decide; simplify_eq.
  eexists. split; [|by apply has_type_bool; eexists]. cbn [kind_eval]. by rewrite decide_True by lia.
Qed.

Lemma extract_sound h l ts vs τ :
  length vs = 1%nat → uint32 h && uint32 l = true → Forall2 has_type vs ts →
  BitVectorExtractTypeRule h l ts = Some τ → sound_at (BITVECTOR_EXTRACT h l) vs τ.
Proof.
  intros Hl Hp HF Ht. unfold BitVectorExtractTypeRule, uint32 in *. case_decide; [done|]. nofail. rewrite extract_size in * by lia.
  match goal with H : checkBvResultSize _ = true |- _ => apply checkBvResultSize_le in H end. rewrite u32_size in * by lia.
  destruct (one_bv vs ts x) as (w&a&->&->&Hw&Ha); [done..|]. nofail. simplify_eq.
  eexists. cbn [kind_eval]. rewrite decide_True by lia. split; [done|].
  apply has_type_bv. split; [lia|]. eexists. split; [done|]. apply wrap_bound. lia.
Qed.

Lemma repeat_sound n ts vs τ :
  length vs = 1%nat → uint32 n = true → Forall2 has_type vs ts → Forall (λ t, type_ok t = true) ts → BitVectorRepeatTypeRule n ts = Some τ →
  sound_at (BITVECTOR_REPEAT n) vs τ.
Proof.
  intros Hl Hp HF Hok Ht. unfold BitVectorRepeatTypeRule, uint32 in *. nofail.
  match goal with H : ts !! 0%nat = Some _ |- _ => pose proof (Forall_lookup_1 _ _ _ _ Hok H) as Hw'; cbn beta in Hw' end.
  destruct (one_bv vs ts x) as (w&a&->&->&Hw&Ha); [done..|]. apply type_ok_bv in Hw'. case_decide; [done|]. cbn [isAbstract getBitVectorSize mbind option_bind] in *. rewrite repeat_size in * by lia. nofail.
  match goal with H : checkBvResultSize _ = true |- _ => apply checkBvResultSize_le in H end. rewrite u32_size in * by nia. simplify_eq.
  eexists. cbn [kind_eval]. rewrite decide_True by lia. split; [done|].
  apply has_type_bv. split; [nia|]. eexists. split; [done|].
  pose proof (repeat_value_bound (Z.to_nat n) w a). rewrite Z2Nat.id in * by lia. lia.
Qed.

Lemma extend_sound k n ts vs τ :
  k = BITVECTOR_SIGN_EXTEND n ∨ k = BITVECTOR_ZERO_EXTEND n →
  length vs = 1%nat → uint32 n = true → Forall2 has_type vs ts → Forall (λ t, type_ok t = true) ts → BitVectorExtendTypeRule n ts = Some τ →
  sound_at k vs τ.
Proof.
  intros Hk Hl Hp HF Hok Ht. unfold BitVectorExtendTypeRule, uint32 in *. nofail.
  match goal with H : ts !! 0%nat = Some _ |- _ => pose proof (Forall_lookup_1 _ _ _ _ Hok H) as Hw'; cbn beta in Hw' end.
  destruct (one_bv vs ts x) as (w&a&->&->&Hw&Ha); [done..|]. apply type_ok_bv in Hw'. cbn [isAbstract getBitVectorSize mbind option_bind] in *. rewrite next_size in * by lia. nofail.
  match goal with H : checkBvResultSize _ = true |- _ => apply checkBvResultSize_le in H end. rewrite u32_size in * by lia. simplify_eq.
  destruct Hk as [-> | ->]; eexists; cbn [kind_eval]; rewrite decide_True by lia; (split; [done|]);
    (apply has_type_bv; split; [lia|]; eexists; split; [done|]).
  - apply wrap_bound. lia.
  - pose proof (pow2_le w (n + w)). lia.
Qed.

(** Operands of the operators on integers. *)
Lemma int_value v t : has_type v t → isMaybeRealOrInt t = true → ∃ z, v = VInt z ∧ t = INTEGER_TYPE.
Proof. intros [<- _] Hm. destruct v; try done. eauto. Qed.

Lemma operator_sound k f vs ts τ :
  (∀ vs, kind_eval k vs = int_bin f vs) → length vs = 2%nat → Forall2 has_type vs ts → ArithOperatorTypeRule ts = Some τ → sound_at k vs τ.
Proof.
  intros Hk Hl HF Ht. unfold ArithOperatorTypeRule in Ht. nofail. destruct HF as [|v1 t1 ? ? H1 [|v2 t2 ? ? H2 [|]]]; try done. simpl in *. nofail.
  destruct (int_value v1 t1) as (z1&->&->); [done..|]. destruct (int_value v2 t2) as (z2&->&->); [done..|]. simpl in *. simplify_eq. unfold sound_at. rewrite Hk. by eexists.
Qed.

Lemma integers_sound k f vs ts τ :
  (∀ vs, kind_eval k vs = int_bin f vs) → length vs = 2%nat → Forall2 has_type vs ts → IntegerBinaryTypeRule ts = Some τ → sound_at k vs τ.
Proof.
  intros Hk Hl HF Ht. unfold IntegerBinaryTypeRule in Ht. destruct HF as [|v1 t1 ? ? H1 [|v2 t2 ? ? H2 [|]]]; try done. simpl in *. nofail.
  destruct (int_value v1 t1) as (z1&->&->); [done..|]. destruct (int_value v2 t2) as (z2&->&->); [done..|]. simplify_eq. unfold sound_at. rewrite Hk. by eexists.
Qed.

Lemma int_to_bv_sound w vs ts τ :
  uint32 w = true → length vs = 1%nat → Forall2 has_type vs ts → IntToBitVectorTypeRule w ts = Some τ → sound_at (INT_TO_BITVECTOR w) vs τ.
Proof.
  intros Hw Hl HF Ht. unfold IntToBitVectorTypeRule, uint32 in *. destruct HF as [|v1 t1 ? ? H1 [|]]; try done. simpl in *. nofail. simplify_eq.
  destruct (int_value v1 t1) as (z1&->&->); [done..|]. assert (w ≠ 0) by (by apply negb_true_iff, bool_decide_eq_false in H). eexists. split; [done|]. apply has_type_bv. split; [lia|]. eexists. split; [done|]. apply wrap_bound. lia.
Qed.

Lemma relation_sound k p vs ts τ :
  (∀ vs, kind_eval k vs = int_pred p vs) → length vs = 2%nat → Forall2 has_type vs ts → ArithRelationTypeRule ts = Some τ → sound_at k vs τ.
Proof.
  intros Hk Hl HF Ht. unfold ArithRelationTypeRule in Ht. nofail. simplify_eq. destruct HF as [|v1 t1 ? ? H1 [|v2 t2 ? ? H2 [|]]]; try done. simpl in *. nofail.
  destruct (int_value v1 t1) as (z1&->&_); [done..|]. destruct (int_value v2 t2) as (z2&->&_); [done..|]. unfold sound_at. rewrite Hk. by eexists.
Qed.

Lemma conversion_sound k f vs ts τ :
  (∀ vs, kind_eval k vs = bv_to_int f vs) → length vs = 1%nat → Forall2 has_type vs ts → BitVectorConversionTypeRule ts = Some τ → sound_at k vs τ.
Proof.
  intros Hk Hl HF Ht. unfold BitVectorConversionTypeRule in Ht. destruct HF as [|v1 t1 ? ? H1 [|]]; try done. simpl in *. nofail. simplify_eq.
  destruct (checkMaybe_bv v1 t1) as (w&->&_&z&->&_); [done..|]. unfold sound_at. rewrite Hk. by eexists.
Qed.

Lemma kind_sound k cs ts vs τ :
  arity_ok k (length vs) = true → payload_ok k = true →
  Forall2 has_type vs ts → Forall (λ t, type_ok t = true) ts → computeType k cs ts = Some τ → isAbstract τ = false →
  (∀ i z, cs !! i = Some (mkConstInt z) → vs !! i = Some (VInt z)) →
  sound_at k vs τ.
Proof.
  intros Har Hpl HF Hok Ht Habs Hint.
  destruct k; cbn [computeType] in Ht;
    lazymatch type of Ht with
    | BooleanTypeRule _ = _ => by eapply bool_sound
    | _ => cbn [arity_ok] in Har; apply bool_decide_eq_true in Har;
      lazymatch type of Har with _ ∧ _ => destruct Har as [Har _] | _ => idtac end
    end;
    lazymatch type of Ht with
    | BitVectorConcatTypeRule _ = _ => by eapply concat_sound
    | IteTypeRule _ = _ => by eapply ite_sound
    | BitVectorITETypeRule _ = _ => by eapply bvite_sound
    | EqualityTypeRule _ = _ => by eapply equal_sound
    | DistinctTypeRule _ = _ => by eapply distinct_sound
    | ArithRelationTypeRule _ = _ => by eapply relation_sound
    | ArithOperatorTypeRule _ = _ => by eapply operator_sound
    | IntegerBinaryTypeRule _ = _ => by eapply integers_sound
    | IntToBitVectorTypeRule _ _ = _ => by eapply int_to_bv_sound
    | BitVectorConversionTypeRule _ = _ => by eapply conversion_sound
    | BitVectorConstantSymbolicTypeRule _ _ = _ => by eapply symbolic_sound
    | BitVectorRedTypeRule _ = _ => by eapply red_sound
    | BitVectorBitTypeRule _ _ = _ => by eapply bit_sound
    | BitVectorExtractTypeRule _ _ _ = _ => by eapply extract_sound
    | BitVectorRepeatTypeRule _ _ = _ => by eapply repeat_sound
    | BitVectorExtendTypeRule _ _ = _ => by eapply extend_sound; eauto
    | BitVectorFixedWidthTypeRule _ = _ =>
        destruct (fixedWidth_sound _ _ _ HF Ht) as (w&->&Hw&HF'); unfold sound_at; cbn [kind_eval];
        first [ apply bv_nary_sound; [done| |done|done]
              | apply bv_bin_sound; [done| |done|done]
              | apply bv_un_sound; [done| |done|done] ]; intros;
        first [ solve [eauto with bvbound lia] | pose proof (pow2_pos w); lia
              | pose proof (land_bound w a b); pose proof (lor_bound w a b); pose proof (lxor_bound w a b); lia ]
    | BitVectorPredicateTypeRule _ = _ =>
        pose proof (pred_type _ _ Ht) as ->; unfold sound_at; cbn [kind_eval];
        first [ destruct (pred_children _ _ HF Har Ht) as (w&a&b&->&Hw&Ha&Hb); cbn [bv_pred]; rewrite decide_True by done
              | destruct (pred1_child _ _ HF Har Ht) as (w&a&->&Hw&Ha); cbn [bv_pred1] ]; eexists; by split
    | BitVectorBVPredTypeRule _ = _ =>
        destruct (bvpred_children _ _ _ HF Har Ht) as (->&w&a&b&->); unfold sound_at; cbn [kind_eval bv_pred as_bit];
        rewrite decide_True by done; eexists; (split; [done|]); by eapply bit_type
    | _ => unfold sound_at; cbn [kind_eval]
    end.
  - unfold BitVectorToBVTypeRule in Ht. nofail. simplify_eq.
    destruct (bools_children vs ts HF) as (bs&->&Hbs&_); [done|]. rewrite Hbs. eexists. split; [done|].
    apply Forall2_length in HF. rewrite length_fmap in *. rewrite <- HF. apply has_type_bv. split; [lia|].
    eexists. split; [done|]. apply bools_value_bound.
  - destruct HF as [|v t ? ? Hv HF]; [simpl in Har; lia|]. unfold BitVectorSizeTypeRule in Ht. simpl in Ht. nofail.
    simplify_eq. destruct (checkMaybe_bv v t) as (w&->&Hw&a&->&Ha); [done..|]. by eexists.
  - unfold BitVectorEagerAtomTypeRule in Ht. destruct HF as [|v t ? ? Hv [|]]; try done. simpl in Ht. nofail.
    simplify_eq. destruct t; try done. apply has_type_bool in Hv as [b ->]. by eexists.
Qed.

(** ** The types the rules return are well-formed *)

Lemma lub_ok t1 t2 t : leastUpperBound t1 t2 = Some t → type_ok t1 = true → type_ok t2 = true → type_ok t = true.
Proof.
  unfold leastUpperBound, unifyInternal. intros E H1 H2. case_decide; [by simplify_eq|].
  destruct t1 as [| | |[]], t2 as [| | |[]]; simplify_eq/=; done.
Qed.

Lemma fixedWidthLoop_ok ts : ∀ t τ,
  fixedWidthLoop t ts = Some τ → type_ok t = true → Forall (λ t, type_ok t = true) ts → type_ok τ = true.
Proof.
  induction ts as [|tc ts IH]; intros t τ E Ht HF; cbn [fixedWidthLoop] in E; [by simplify_eq|].
  inversion HF; subst. nofail. eapply IH; [done| |done]. by eapply lub_ok.
Qed.

Lemma concatLoop_ok ts : ∀ s abs size abs',
  concatLoop s abs ts = Some (size, abs') → 0 ≤ s ≤ max_uint32 → Forall (λ t, type_ok t = true) ts →
  s ≤ size ≤ max_uint32 ∧ (abs' = false → ts ≠ [] → 0 < size).
Proof.
  induction ts as [|t ts IH]; intros s abs size abs' E Hs HF; cbn [concatLoop] in E; [simplify_eq; split; [lia|done]|].
  inversion HF; subst. apply bind_Some in E as ([]&Hm&E). destruct abs; [|destruct (isAbstract t) eqn:Ea].
  1,2: destruct (IH _ _ _ _ E Hs) as [Hsz _]; [done|]; split; [done|]; intros -> _; exfalso; clear - E; revert s E;
    induction ts as [|t' ts IH']; intros s E; cbn [concatLoop] in E; [by simplify_eq|apply bind_Some in E as ([]&_&E); eauto].
  nofail. destruct t as [| |w|]; simplify_eq/=. nofail. unfold checkBvResultSize in *.
  match goal with H : negb _ = true |- _ => apply negb_true_iff, bool_decide_eq_false in H end.
  rewrite next_size in * by (unfold max_uint32 in *; lia). rewrite u32_size in * by lia. destruct (IH _ _ _ _ ltac:(done)) as [Hsz _]; [lia|done|]. split; [lia|]. intros. lia.
Qed.

Lemma computeType_ok k cs ts τ :
  arity_ok k (length ts) = true → payload_ok k = true → computeType k cs ts = Some τ →
  Forall (λ t, type_ok t = true) ts → type_ok τ = true.
Proof.
  intros Har Hp Ht HF.
  destruct k; cbn [computeType] in Ht; cbn [arity_ok payload_ok] in Har, Hp; unfold uint32, atLeast in *; nofail;
    lazymatch type of Ht with
    | BitVectorFixedWidthTypeRule _ = _ =>
        destruct HF as [|t ts Ht1 HF]; [done|]; cbn [BitVectorFixedWidthTypeRule] in Ht; nofail;
        match goal with H : _ <$> _ = Some _ |- _ => apply fmap_Some in H as (t'&H&->) end;
        assert (type_ok t' = true) as Hok by (by eapply fixedWidthLoop_ok); by destruct t' as [| | |[]]
    | _ => idtac
    end;
    unfold EqualityTypeRule, DistinctTypeRule, ArithRelationTypeRule, ArithOperatorTypeRule, IntegerBinaryTypeRule, IntToBitVectorTypeRule, BitVectorConversionTypeRule, BooleanTypeRule, IteTypeRule, BitVectorToBVTypeRule, BitVectorSizeTypeRule,
      BitVectorConstantSymbolicTypeRule, BitVectorConcatTypeRule, BitVectorPredicateTypeRule, BitVectorBVPredTypeRule,
      BitVectorRedTypeRule, BitVectorITETypeRule, BitVectorEagerAtomTypeRule, BitVectorBitTypeRule,
      BitVectorExtractTypeRule, BitVectorRepeatTypeRule, BitVectorExtendTypeRule, checkBvResultSize in Ht;
    repeat (nofail; simplify_eq; (done || case_match || case_decide)); nofail; simplify_eq; try done;
    try match goal with H : ts !! 0%nat = Some ?t |- _ => pose proof (Forall_lookup_1 _ _ _ _ HF H) as Hok0; cbn beta in Hok0 end;
    try match goal with H : negb _ = true |- _ => apply negb_true_iff, bool_decide_eq_false in H end;
    try match goal with H : getBitVectorSize ?x = Some _ |- _ => destruct x; simplify_eq/=; nofail end;
    try (first [rewrite extract_size in * by lia|rewrite repeat_size in * by lia|rewrite next_size in * by lia]; rewrite u32_size by nia);
    first
      [ match goal with H : leastUpperBound _ _ = _ |- _ => by eapply lub_ok; [exact H|eapply (Forall_lookup_1 _ _ _ _ HF)..] end
      | match goal with |- type_ok (ensureBv ?x) = true => by destruct x as [| | |[]] end
      | apply bool_decide_eq_true; unfold MAX_CHILDREN, max_uint32 in *; nia
      | idtac ].
  destruct (concatLoop_ok _ _ _ _ _ ltac:(done)) as [Hsz Hpos]; [unfold max_uint32; lia|done|].
  apply bool_decide_eq_true. split; [|lia]. apply Hpos; [done|]. intros ->. simpl in *. lia.
Qed.

(** The type of a typable term is well-formed: the width of a bit-vector is a
    positive 32-bit integer. *)
Lemma typeOf_ok_gen n : ∀ τ, typeOf n = Some τ → type_ok τ = true.
Proof.
  induction n as [id ty|b|z|bv|k cs IH] using Node_ind'; intros τ Ht; cbn [typeOf] in Ht; nofail; simplify_eq; try done.
  - unfold BitVectorConstantTypeRule in *. case_decide; simplify_eq. unfold bv_ok, uint32 in *. nofail.
    apply bool_decide_eq_true. lia.
  - match goal with H : mapM _ _ = Some _ |- _ => rename H into HM end. pose proof (length_mapM _ _ _ HM) as Hl.
    eapply computeType_ok; [by rewrite <- Hl|done|done|]. apply mapM_Some in HM. clear - IH HM.
    induction HM as [|c t cs ts Hc _ IHl]; [constructor|]. inversion IH; subst. constructor; auto.
Qed.

(** ** Terms *)

Lemma eval_const_int env cs vs i z :
  mapM (eval env) cs = Some vs → cs !! i = Some (mkConstInt z) → vs !! i = Some (VInt z).
Proof.
  intros HM Hi. apply mapM_Some in HM. destruct (Forall2_lookup_l _ _ _ _ _ HM Hi) as (v&Hv&Hev). simpl in Hev. congruence.
Qed.

Lemma concrete_node k cs :
  concrete (mkNode k cs) = true →
  forallb concrete cs = true ∧ ∀ τ, typeOf (mkNode k cs) = Some τ → isAbstract τ = false.
Proof.
  cbn [concrete]. intros [H1 H2]%andb_true_iff. split; [done|]. intros τ Ht. rewrite Ht in H1.
  by apply negb_true_iff.
Qed.

(** What is needed of the variables of a term: their values exist. *)
Lemma type_sound_gen env n : ∀ τ,
  typeOf n = Some τ → concrete n = true → env_ok env → ∃ v, eval env n = Some v ∧ has_type v τ.
Proof.
  induction n as [id ty|b|z|bv|k cs IH] using Node_ind'; intros τ Ht Hc Hok.
  - cbn [typeOf concrete] in *. rewrite Ht, andb_true_r in Hc. apply negb_true_iff in Hc. nofail. simplify_eq.
    destruct (Hok id τ) as [Hs Hv]; [done..|]. cbn [eval]. rewrite decide_True by done. by eexists.
  - simplify_eq/=. by eexists.
  - simplify_eq/=. by eexists.
  - simpl in Ht. unfold BitVectorConstantTypeRule in Ht. nofail. case_decide; [done|]. simplify_eq.
    unfold bv_ok, uint32 in *. nofail. eexists. split; [done|]. apply has_type_bv. split; [lia|]. by eexists.
  - apply concrete_node in Hc as [Hcs Habs]. pose proof (Habs _ Ht). cbn [typeOf] in Ht. nofail.
    assert (∃ vs, mapM (eval env) cs = Some vs ∧ Forall2 has_type vs x0) as (vs&Hvs&HF).
    { match goal with H : mapM _ _ = Some _ |- _ => revert H Hcs end. clear - IH Hok.
      revert x0. induction IH as [|c cs Hc _ IHcs]; intros ts HM HC;
        [injection HM as <-; exists []; by split|].
      simpl in HM. nofail. destruct (Hc x) as (v&Hv&Hvt); [done..|].
      destruct (IHcs x0) as (vs&Hvs&HF); [done..|]. exists (v :: vs). simpl. rewrite Hv. simpl. rewrite Hvs. simpl.
      split; [done|]. match goal with H : mret _ = Some ts |- _ => injection H as <- end. by constructor. }
    assert (length vs = length cs) as Hlen by (symmetry; by eapply length_mapM).
    destruct (kind_sound k cs x0 vs τ) as (v&Hv&Hvt); [by rewrite Hlen|done|done| |done..| |].
    + apply list.Forall_forall. intros t [i Hi]%list_elem_of_lookup. match goal with H : mapM _ _ = Some x0 |- _ => apply mapM_Some in H as HM end.
      destruct (Forall2_lookup_r _ _ _ _ _ HM Hi) as (c&_&Hc). by eapply typeOf_ok_gen.
    + intros i z. by eapply eval_const_int.
    + exists v. simpl. rewrite Hvs. by split.
Qed.

