(* ===== verification/TypeTheorems.v ===== *)
(** Type checking: well-typed terms have values of their type, types of terms
    are well-formed, and the widths the type rules compute are exact and never
    exceed 32 bits. *)
From stdpp Require Import base option list numbers.
From S2P Require Import Prelude Integer Node TypeRules Semantics TypeSound.
Open Scope Z_scope.

(** C24: type soundness.  A term the type rules accept, without abstract types,
    has a value in every well-typed valuation, and the value is one of the type
    the rules computed. *)
Theorem type_soundness env n τ :
  typeOf n = Some τ → concrete n = true → env_ok env → ∃ v, eval env n = Some v ∧ has_type v τ.
Proof. apply type_sound_gen. Qed.

Definition bv8 (i : positive) : Node := mkVar i (BITVECTOR_TYPE 8).

Lemma type_soundness_witness : ∃ v,
  eval env0 (mkNode BITVECTOR_CONCAT [bv8 1; mkNode BITVECTOR_UDIV [bv8 2; bv8 3]]) = Some v ∧
  has_type v (BITVECTOR_TYPE 16).
Proof. apply type_soundness; [by vm_compute|by vm_compute|apply env0_ok]. Defined.

(** C25: the type of a term is well-formed: a bit-vector type has a width between
    1 and 2^32 - 1, whatever the widths of the subterms. *)
Theorem typeOf_well_formed n τ : typeOf n = Some τ → type_ok τ = true.
Proof. apply typeOf_ok_gen. Qed.

Lemma typeOf_well_formed_witness : type_ok (BITVECTOR_TYPE 12) = true.
Proof. apply (typeOf_well_formed (mkNode (BITVECTOR_ZERO_EXTEND 4) [bv8 1])). by vm_compute. Defined.

(** ** Widths *)

Definition sum (ws : list Z) : Z := foldr Z.add 0 ws.

Lemma concatLoop_exact ws : ∀ s, 0 ≤ s ≤ max_uint32 → Forall (λ w, 0 < w ≤ max_uint32) ws →
  concatLoop s false (BITVECTOR_TYPE <$> ws) = if decide (s + sum ws ≤ max_uint32) then Some (s + sum ws, false) else None.
Proof.
  induction ws as [|w ws IH]; intros s Hs Hp.
  - cbn. rewrite Z.add_0_r, decide_True by lia. done.
  - apply list.Forall_cons in Hp as [Hw Hp]. change (sum (w :: ws)) with (w + sum ws).
    change (BITVECTOR_TYPE <$> w :: ws) with (BITVECTOR_TYPE w :: (BITVECTOR_TYPE <$> ws)).
    assert (0 ≤ sum ws) by (clear -Hp; unfold sum; induction Hp; cbn in *; lia). rewrite concatLoop_bv by lia.
    case_decide; [rewrite IH by (done || lia); by rewrite Z.add_assoc|by rewrite decide_False by lia].
Qed.

(** C26: bounds.  The widths are computed in 64-bit arithmetic and stored in 32
    bits.  On operands of known width the rules for concatenation, repetition and
    the extensions give the exact mathematical width when it fits 32 bits and
    reject the term otherwise; neither the 64-bit sums and products nor the
    conversion to 32 bits wrap around.  The rule for extraction gives the number of
    bits from the low to the high one. *)
Theorem result_widths_exact ws w n h l :
  Forall (λ w, 0 < w ≤ max_uint32) (w :: ws) → 0 < n ≤ max_uint32 → 0 ≤ l ≤ h → h < w →
  let sized z := if decide (z ≤ max_uint32) then Some (BITVECTOR_TYPE z) else None in
  BitVectorConcatTypeRule (BITVECTOR_TYPE <$> ws) = sized (sum ws) ∧
  BitVectorRepeatTypeRule n [BITVECTOR_TYPE w] = sized (n * w) ∧
  BitVectorExtendTypeRule n [BITVECTOR_TYPE w] = sized (n + w) ∧
  BitVectorExtractTypeRule h l [BITVECTOR_TYPE w] = Some (BITVECTOR_TYPE (h - l + 1)).
Proof.
  intros [Hw Hws]%list.Forall_cons Hn Hl Hh. cbv zeta. split_and!.
  - unfold BitVectorConcatTypeRule. rewrite concatLoop_exact; [|unfold max_uint32; lia|done].
    rewrite Z.add_0_l. by case_decide.
  - apply repeat_rule; lia.
  - apply extend_rule; lia.
  - by rewrite extract_rule, decide_True by lia.
Qed.

Lemma result_widths_exact_witness :
  BitVectorConcatTypeRule [BITVECTOR_TYPE 4294967295; BITVECTOR_TYPE 1] = None ∧
  BitVectorRepeatTypeRule 4 [BITVECTOR_TYPE 8] = Some (BITVECTOR_TYPE 32).
Proof.
  destruct (result_widths_exact [4294967295; 1] 8 4 7 0) as (H1&H2&_).
  - repeat constructor; unfold max_uint32; lia.
  - unfold max_uint32; lia.
  - lia.
  - lia.
  - split; [exact H1|exact H2].
Defined.
