(* ===== verification/BitVectorUtil.v ===== *)
(** [util/bitvector.cpp]: constant bit-vectors.  An [Assert] that fails is
    [None]; sizes are unsigned 32-bit integers.  Every operation is shown to be
    the operator of [Semantics] it implements. *)
From stdpp Require Import base option list numbers.
From S2P Require Import Prelude Integer Node TypeRules Semantics BvArith.
Open Scope Z_scope.

Module BV.
Section bitvector.
Context `{!Gmp}.

(** [BitVector(size, val)] and [BitVector(size)]. *)
Definition new (size val : Z) : BitVector := mkBitVector size (Integer.modByPow2 val size).
Definition new0 (size : Z) : BitVector := mkBitVector size 0.

Definition getSize (this : BitVector) : Z := d_size this.
Definition getValue (this : BitVector) : Z := d_value this.

Definition toSignedInteger (this : BitVector) : Z :=
  let size := d_size this in
  let sign_bit := Integer.extractBitRange (d_value this) 1 (size - 1) in
  let val := Integer.extractBitRange (d_value this) (size - 1) 0 in
  -1 * Integer.multiplyByPow2 sign_bit (size - 1) + val.

Definition setBit (i : Z) (value : bool) (this : BitVector) : option BitVector :=
  _ ← assert (bool_decide (i < d_size this));
  Some (mkBitVector (d_size this) (Integer.setBit i value (d_value this))).

Definition isBitSet (i : Z) (this : BitVector) : option bool :=
  _ ← assert (bool_decide (i < d_size this));
  Some (Integer.isBitSet (d_value this) i).

Definition isPow2 (this : BitVector) : Z := Integer.isPow2 (d_value this).
Definition is_one (this : BitVector) : bool := bool_decide (d_value this = 1).

Definition concat (this other : BitVector) : BitVector :=
  new (u32 (d_size this + d_size other))
      (Integer.multiplyByPow2 (d_value this) (d_size other) + d_value other).

Definition extract (high low : Z) (this : BitVector) : option BitVector :=
  _ ← assert (bool_decide (high < d_size this));
  _ ← assert (bool_decide (low ≤ high));
  Some (new (high - low + 1) (Integer.extractBitRange (d_value this) (high - low + 1) low)).

Definition eq (a b : BitVector) : bool :=
  if decide (getSize a ≠ getSize b) then false else bool_decide (getValue a = getValue b).

(** The arguments of the ordered comparisons are unsigned values of one size. *)
Definition checkArgs (this y : BitVector) : option unit :=
  _ ← assert (bool_decide (d_size this = d_size y));
  _ ← assert (bool_decide (d_value this >= 0));
  assert (bool_decide (d_value y >= 0)).

Definition unsignedLessThan (this y : BitVector) : option bool :=
  _ ← checkArgs this y; Some (bool_decide (d_value this < d_value y)).

Definition unsignedLessThanEq (this y : BitVector) : option bool :=
  _ ← checkArgs this y; Some (bool_decide (d_value this ≤ d_value y)).

Definition signedLessThan (this y : BitVector) : option bool :=
  _ ← checkArgs this y; Some (bool_decide (toSignedInteger this < toSignedInteger y)).

Definition signedLessThanEq (this y : BitVector) : option bool :=
  _ ← checkArgs this y; Some (bool_decide (toSignedInteger this ≤ toSignedInteger y)).

Definition same_size (a b : BitVector) : option unit := assert (bool_decide (getSize a = getSize b)).

Definition xor (a b : BitVector) : option BitVector :=
  _ ← same_size a b; Some (new (getSize a) (Integer.bitwiseXor (getValue a) (getValue b))).
Definition or (a b : BitVector) : option BitVector :=
  _ ← same_size a b; Some (new (getSize a) (Integer.bitwiseOr (getValue a) (getValue b))).
Definition and (a b : BitVector) : option BitVector :=
  _ ← same_size a b; Some (new (getSize a) (Integer.bitwiseAnd (getValue a) (getValue b))).
Definition not (a : BitVector) : BitVector := new (getSize a) (Integer.bitwiseNot (getValue a)).

Definition add (a b : BitVector) : option BitVector :=
  _ ← same_size a b; Some (new (getSize a) (getValue a + getValue b)).

(** [a + ~b + one]. *)
Definition sub (a b : BitVector) : option BitVector :=
  _ ← same_size a b;
  let one := new (getSize a) 1 in
  s ← add a (not b); add s one.

(** [~a + one]. *)
Definition neg (a : BitVector) : option BitVector :=
  let one := new (getSize a) 1 in add (not a) one.

Definition mul (a b : BitVector) : option BitVector :=
  _ ← same_size a b; Some (new (getSize a) (getValue a * getValue b)).

Definition unsignedDivTotal (this y : BitVector) : option BitVector :=
  _ ← assert (bool_decide (d_size this = d_size y));
  if decide (d_value y = 0) then
    v ← Integer.oneExtend 1 1 (d_size this - 1);
    Some (new (d_size this) v)
  else
    _ ← assert (bool_decide (d_value this >= 0));
    _ ← assert (bool_decide (d_value y > 0));
    Some (new (d_size this) (Integer.floorDivideQuotient (d_value this) (d_value y))).

Definition unsignedRemTotal (this y : BitVector) : option BitVector :=
  _ ← assert (bool_decide (d_size this = d_size y));
  if decide (d_value y = 0) then Some (new (d_size this) (d_value this))
  else
    _ ← assert (bool_decide (d_value this >= 0));
    _ ← assert (bool_decide (d_value y > 0));
    Some (new (d_size this) (Integer.floorDivideRemainder (d_value this) (d_value y))).

Definition zeroExtend (n : Z) (this : BitVector) : BitVector :=
  new (u32 (d_size this + n)) (d_value this).

Definition signExtend (n : Z) (this : BitVector) : option BitVector :=
  let sign_bit := Integer.extractBitRange (d_value this) 1 (d_size this - 1) in
  if decide (sign_bit = 0) then Some (new (u32 (d_size this + n)) (d_value this))
  else val ← Integer.oneExtend (d_value this) (d_size this) n;
       Some (new (u32 (d_size this + n)) val).

(** [Assert(y.d_value < Integer(1).multiplyByPow2(32))]. *)
Definition checkAmount (y : BitVector) : option unit :=
  assert (bool_decide (d_value y < Integer.multiplyByPow2 1 32)).

Definition leftShift (this y : BitVector) : option BitVector :=
  if decide (d_value y > d_size this) then Some (new (d_size this) 0)
  else if decide (d_value y = 0) then Some this
  else _ ← checkAmount y;
       let amount := Integer.toUnsignedInt (d_value y) in
       Some (new (d_size this) (Integer.multiplyByPow2 (d_value this) amount)).

Definition logicalRightShift (this y : BitVector) : option BitVector :=
  if decide (d_value y > d_size this) then Some (new (d_size this) 0)
  else _ ← checkAmount y;
       let amount := Integer.toUnsignedInt (d_value y) in
       Some (new (d_size this) (Integer.divByPow2 (d_value this) amount)).

Definition arithRightShift (this y : BitVector) : option BitVector :=
  let sign_bit := Integer.extractBitRange (d_value this) 1 (d_size this - 1) in
  if decide (d_value y > d_size this) then
    if decide (sign_bit = 0) then Some (new (d_size this) 0)
    else Some (new (d_size this) (Integer.multiplyByPow2 (d_size this) (d_size this) - 1))
  else if decide (d_value y = 0) then Some this
  else _ ← checkAmount y;
       let amount := Integer.toUnsignedInt (d_value y) in
       let rest := Integer.divByPow2 (d_value this) amount in
       if decide (sign_bit = 0) then Some (new (d_size this) rest)
       else res ← Integer.oneExtend rest (d_size this - amount) amount;
            Some (new (d_size this) res).

Definition mkZero (size : Z) : option BitVector :=
  _ ← assert (bool_decide (size > 0)); Some (new0 size).
Definition mkOne (size : Z) : option BitVector :=
  _ ← assert (bool_decide (size > 0)); Some (new size 1).
Definition mkOnes (size : Z) : option BitVector :=
  _ ← assert (bool_decide (size > 0)); signExtend (size - 1) (new 1 1).
Definition mkMinSigned (size : Z) : option BitVector :=
  _ ← assert (bool_decide (size > 0)); setBit (size - 1) true (new0 size).
Definition mkMaxSigned (size : Z) : option BitVector :=
  _ ← assert (bool_decide (size > 0)); m ← mkMinSigned size; Some (not m).

End bitvector.
End BV.

(** ** The operations implement the operators *)
Section specs.
Context `{!Gmp, !GmpLaws}.
Implicit Types a b : BitVector.

(** A constant of a positive 32-bit size with a reduced value. *)
Definition wf_bv (a : BitVector) : Prop := 0 < d_size a ≤ max_uint32 ∧ 0 ≤ d_value a < 2 ^ d_size a.

Lemma new_eq w v : 0 ≤ w → BV.new w v = mkBitVector w (wrap w v).
Proof. intros Hw. unfold BV.new, Integer.modByPow2. by rewrite mpz_fdiv_r_2exp_spec. Qed.

Lemma new_small w v : 0 ≤ v < 2 ^ w → 0 ≤ w → BV.new w v = mkBitVector w v.
Proof. intros Hv Hw. by rewrite new_eq, wrap_small. Qed.

(** The sign bit as the code reads it. *)
Lemma sign_bit_spec a :
  wf_bv a → Integer.extractBitRange (d_value a) 1 (d_size a - 1) = b2z (bool_decide (2 ^ (d_size a - 1) ≤ d_value a)).
Proof.
  intros [[Hw Hm] Hv]. unfold max_uint32 in Hm. rewrite Integer.extractBitRange_bits by lia.
  pose proof (pow2_split (d_size a) Hw). pose proof (pow2_pos (d_size a - 1)). change (2 ^ 1) with 2.
  case_bool_decide; simpl.
  - rewrite <- (Z.div_unique (d_value a) (2 ^ (d_size a - 1)) 1 (d_value a - 2 ^ (d_size a - 1))) by lia. done.
  - by rewrite Z.div_small by lia.
Qed.

Lemma toSignedInteger_spec a : wf_bv a → BV.toSignedInteger a = signed (d_size a) (d_value a).
Proof.
  intros Ha. pose proof Ha as [[Hw Hm] Hv]. unfold max_uint32 in Hm. unfold BV.toSignedInteger.
  rewrite sign_bit_spec by done. rewrite Integer.extractBitRange_bits by lia. rewrite Z.pow_0_r, Z.div_1_r.
  unfold Integer.multiplyByPow2. rewrite mpz_mul_2exp_spec by lia. pose proof (pow2_split (d_size a) Hw).
  unfold signed. case_bool_decide; case_decide; try lia; simpl b2z.
  - rewrite <- (Z.mod_unique (d_value a) (2 ^ (d_size a - 1)) 1 (d_value a - 2 ^ (d_size a - 1))) by lia. lia.
  - rewrite Z.mod_small by lia. lia.
Qed.

Lemma extract_spec h l a :
  wf_bv a → 0 ≤ l ≤ h → h < d_size a →
  BV.extract h l a = Some (mkBitVector (h - l + 1) (wrap (h - l + 1) (d_value a / 2 ^ l))).
Proof.
  intros [[Hw Hm] Hv] Hl Hh. unfold max_uint32 in Hm. unfold BV.extract. rewrite !bool_decide_true by lia.
  cbn [assert mbind option_bind]. f_equal. rewrite Integer.extractBitRange_bits by lia.
  rewrite new_small; [done|apply wrap_bound; lia|lia].
Qed.

Lemma concat_spec a b :
  wf_bv a → wf_bv b → d_size a + d_size b ≤ max_uint32 →
  BV.concat a b = mkBitVector (d_size a + d_size b) (d_value a * 2 ^ d_size b + d_value b).
Proof.
  intros [[Hw Hm] Hv] [[Hw' Hm'] Hv'] Hs. unfold max_uint32 in *. unfold BV.concat, Integer.multiplyByPow2.
  rewrite mpz_mul_2exp_spec, u32_small by lia. apply new_small; [|lia]. apply concat_bound; lia.
Qed.

Lemma not_spec a : wf_bv a → BV.not a = mkBitVector (d_size a) (2 ^ d_size a - 1 - d_value a).
Proof.
  intros [[Hw Hm] Hv]. unfold BV.not, Integer.bitwiseNot, BV.getSize, BV.getValue. rewrite mpz_com_spec, new_eq by lia.
  f_equal. unfold Z.lnot. apply (wrap_eq _ _ _ (-1)); lia.
Qed.

(** Operations on two constants of one size. *)
Section bin.
Context (a b : BitVector) (Ha : wf_bv a) (Hb : wf_bv b) (Hs : d_size a = d_size b).

Lemma same_size_ok : BV.same_size a b = Some ().
Proof. unfold BV.same_size, BV.getSize. by rewrite bool_decide_true. Qed.

Lemma checkArgs_ok : BV.checkArgs a b = Some ().
Proof. destruct Ha, Hb. unfold BV.checkArgs. by rewrite !bool_decide_true by lia. Qed.

Lemma and_spec : BV.and a b = Some (mkBitVector (d_size a) (Z.land (d_value a) (d_value b))).
Proof using All.
  destruct Ha as [[??]?], Hb as [[??]?]. unfold BV.and. rewrite same_size_ok. simpl. f_equal.
  unfold Integer.bitwiseAnd. rewrite mpz_and_spec. apply new_small; [|unfold BV.getSize; lia].
  apply land_bound; unfold BV.getSize, BV.getValue; [lia|done|congruence].
Qed.

Lemma or_spec : BV.or a b = Some (mkBitVector (d_size a) (Z.lor (d_value a) (d_value b))).
Proof using All.
  destruct Ha as [[??]?], Hb as [[??]?]. unfold BV.or. rewrite same_size_ok. simpl. f_equal.
  unfold Integer.bitwiseOr. rewrite mpz_ior_spec. apply new_small; [|unfold BV.getSize; lia].
  apply lor_bound; unfold BV.getSize, BV.getValue; [lia|done|congruence].
Qed.

Lemma xor_spec : BV.xor a b = Some (mkBitVector (d_size a) (Z.lxor (d_value a) (d_value b))).
Proof using All.
  destruct Ha as [[??]?], Hb as [[??]?]. unfold BV.xor. rewrite same_size_ok. simpl. f_equal.
  unfold Integer.bitwiseXor. rewrite mpz_xor_spec. apply new_small; [|unfold BV.getSize; lia].
  apply lxor_bound; unfold BV.getSize, BV.getValue; [lia|done|congruence].
Qed.

Lemma add_spec : BV.add a b = Some (mkBitVector (d_size a) (wrap (d_size a) (d_value a + d_value b))).
Proof using All.
  destruct Ha as [[??]?]. unfold BV.add. rewrite same_size_ok. simpl. f_equal. apply new_eq. unfold BV.getSize. lia.
Qed.

Lemma mul_spec : BV.mul a b = Some (mkBitVector (d_size a) (wrap (d_size a) (d_value a * d_value b))).
Proof using All.
  destruct Ha as [[??]?]. unfold BV.mul. rewrite same_size_ok. simpl. f_equal. apply new_eq. unfold BV.getSize. lia.
Qed.

Lemma ult_spec : BV.unsignedLessThan a b = Some (bool_decide (d_value a < d_value b)).
Proof using All. unfold BV.unsignedLessThan. by rewrite checkArgs_ok. Qed.
Lemma ule_spec : BV.unsignedLessThanEq a b = Some (bool_decide (d_value a ≤ d_value b)).
Proof using All. unfold BV.unsignedLessThanEq. by rewrite checkArgs_ok. Qed.
Lemma slt_spec :
  BV.signedLessThan a b = Some (bool_decide (signed (d_size a) (d_value a) < signed (d_size a) (d_value b))).
Proof using All. unfold BV.signedLessThan. rewrite checkArgs_ok. simpl. rewrite !toSignedInteger_spec by done. by rewrite Hs. Qed.
Lemma sle_spec :
  BV.signedLessThanEq a b = Some (bool_decide (signed (d_size a) (d_value a) ≤ signed (d_size a) (d_value b))).
Proof using All. unfold BV.signedLessThanEq. rewrite checkArgs_ok. simpl. rewrite !toSignedInteger_spec by done. by rewrite Hs. Qed.

Lemma eq_spec : BV.eq a b = bool_decide (d_value a = d_value b).
Proof using All. unfold BV.eq, BV.getSize. by rewrite decide_False by (intros []; done). Qed.

End bin.

Lemma wf_new w v : 0 < w ≤ max_uint32 → wf_bv (BV.new w v).
Proof. intros Hw. rewrite new_eq by lia. split; [done|]. apply wrap_bound. simpl. lia. Qed.

Lemma wf_not a : wf_bv a → wf_bv (BV.not a).
Proof. intros [Hw Hv]. rewrite not_spec by done. split; [done|]. simpl. lia. Qed.

Lemma neg_spec a : wf_bv a → BV.neg a = Some (mkBitVector (d_size a) (wrap (d_size a) (- d_value a))).
Proof.
  intros Ha. pose proof Ha as [Hw Hv]. unfold BV.neg, BV.getSize. pose proof (pow2_gt (d_size a)).
  rewrite add_spec; [|by apply wf_not|by apply wf_new|by rewrite not_spec, new_eq by (done || lia)].
  rewrite not_spec by done. rewrite new_small by lia. cbn [d_size d_value]. do 2 f_equal.
  apply (wrap_congr _ _ _ 1); lia.
Qed.

Lemma sub_spec a b :
  wf_bv a → wf_bv b → d_size a = d_size b →
  BV.sub a b = Some (mkBitVector (d_size a) (wrap (d_size a) (d_value a - d_value b))).
Proof.
  intros Ha Hb Hs. pose proof Ha as [Hw Hv]. pose proof Hb as [Hw' Hv']. unfold BV.sub.
  rewrite same_size_ok by done. cbn [mbind option_bind]. unfold BV.getSize. pose proof (pow2_gt (d_size a)).
  rewrite add_spec; [|done|by apply wf_not|by rewrite not_spec]. rewrite not_spec by done. cbn [mbind option_bind d_size d_value].
  rewrite add_spec; [|split; [done|apply wrap_bound; simpl; lia]|by apply wf_new|by rewrite new_eq by lia].
  rewrite new_small by lia. cbn [d_size d_value]. do 2 f_equal. unfold wrap. rewrite Zplus_mod_idemp_l.
  rewrite <- Hs. apply (wrap_congr _ _ _ 1); lia.
Qed.

Lemma udiv_spec a b :
  wf_bv a → wf_bv b → d_size a = d_size b →
  BV.unsignedDivTotal a b = Some (mkBitVector (d_size a) (udiv (d_size a) (d_value a) (d_value b))).
Proof.
  intros [Hw Hv] [Hw' Hv'] Hs. unfold max_uint32 in *. unfold BV.unsignedDivTotal.
  rewrite (bool_decide_true (d_size a = d_size b)) by done.
  cbn [assert mbind option_bind]. pose proof (udiv_bound (d_size a) (d_value a) (d_value b)). unfold udiv in *. case_decide.
  - rewrite Integer.oneExtend_spec by lia. cbn [mbind option_bind]. f_equal.
    replace (1 + (d_size a - 1)) with (d_size a) by lia. rewrite new_small by lia. f_equal. lia.
  - rewrite !bool_decide_true by lia. cbn [assert mbind option_bind]. f_equal. unfold Integer.floorDivideQuotient.
    rewrite mpz_fdiv_q_spec by done. apply new_small; lia.
Qed.

Lemma urem_spec a b :
  wf_bv a → wf_bv b → d_size a = d_size b →
  BV.unsignedRemTotal a b = Some (mkBitVector (d_size a) (urem (d_size a) (d_value a) (d_value b))).
Proof.
  intros [Hw Hv] [Hw' Hv'] Hs. unfold BV.unsignedRemTotal.
  rewrite (bool_decide_true (d_size a = d_size b)) by done.
  cbn [assert mbind option_bind]. pose proof (urem_bound (d_size a) (d_value a) (d_value b)). rewrite <- Hs in Hv'.
  unfold urem in *. case_decide.
  - f_equal. apply new_small; lia.
  - rewrite !bool_decide_true by lia. cbn [assert mbind option_bind]. f_equal. unfold Integer.floorDivideRemainder.
    rewrite mpz_fdiv_r_spec by done. apply new_small; lia.
Qed.

Lemma signExtend_spec n a :
  wf_bv a → 0 ≤ n → d_size a + n ≤ max_uint32 →
  BV.signExtend n a = Some (mkBitVector (d_size a + n) (wrap (d_size a + n) (signed (d_size a) (d_value a)))).
Proof.
  intros Ha Hn Hb. pose proof Ha as [Hw Hv]. unfold max_uint32 in *. unfold BV.signExtend. rewrite sign_bit_spec by done.
  rewrite u32_small by lia. pose proof (pow2_le (d_size a) (d_size a + n)). pose proof (pow2_split (d_size a)).
  unfold signed. case_bool_decide; simpl; case_decide; try lia.
  - rewrite Integer.oneExtend_spec by lia. cbn [mbind option_bind]. f_equal. rewrite new_eq by lia. f_equal.
    apply (wrap_congr _ _ _ 1); lia.
  - f_equal. apply new_eq. lia.
Qed.

Lemma zeroExtend_spec n a :
  wf_bv a → 0 ≤ n → d_size a + n ≤ max_uint32 → BV.zeroExtend n a = mkBitVector (d_size a + n) (d_value a).
Proof.
  intros [Hw Hv] Hn Hb. unfold max_uint32 in *. unfold BV.zeroExtend. rewrite u32_small by lia.
  pose proof (pow2_le (d_size a) (d_size a + n)). apply new_small; lia.
Qed.

(** ** Shifts *)

Lemma checkAmount_ok a b : wf_bv a → wf_bv b → d_value b ≤ d_size a → BV.checkAmount b = Some ().
Proof.
  intros [Hw _] _ Hle. unfold max_uint32 in *. unfold BV.checkAmount, Integer.multiplyByPow2.
  rewrite mpz_mul_2exp_spec by lia. by rewrite bool_decide_true by lia.
Qed.

Lemma leftShift_spec a b :
  wf_bv a → wf_bv b → d_size a = d_size b →
  BV.leftShift a b = Some (mkBitVector (d_size a) (shl (d_size a) (d_value a) (d_value b))).
Proof.
  intros Ha Hb Hs. pose proof Ha as [Hw Hv]. pose proof Hb as [Hw' Hv']. unfold BV.leftShift, shl.
  pose proof (pow2_pos (d_size a)). case_decide; [rewrite decide_False by lia; f_equal; apply new_small; lia|].
  case_decide as Hz.
  - rewrite Hz, decide_True, Z.pow_0_r, Z.mul_1_r, wrap_small by lia. by destruct a.
  - rewrite (checkAmount_ok a) by (done || lia). cbn [mbind option_bind]. unfold max_uint32 in *.
    rewrite Integer.toUnsignedInt_spec by lia. unfold Integer.multiplyByPow2. rewrite mpz_mul_2exp_spec, new_eq by lia.
    case_decide; [done|]. do 2 f_equal. replace (d_value b) with (d_size a) by lia. apply (wrap_eq _ _ _ (d_value a)); lia.
Qed.

Lemma logicalRightShift_spec a b :
  wf_bv a → wf_bv b → d_size a = d_size b →
  BV.logicalRightShift a b = Some (mkBitVector (d_size a) (lshr (d_size a) (d_value a) (d_value b))).
Proof.
  intros Ha Hb Hs. pose proof Ha as [Hw Hv]. pose proof Hb as [Hw' Hv']. unfold BV.logicalRightShift.
  pose proof (lshr_bound (d_size a) (d_value a) (d_value b)) as Hl. unfold lshr in *.
  pose proof (pow2_pos (d_size a)).
  destruct (decide (d_value b > d_size a)); [rewrite decide_False by lia; f_equal; apply new_small; lia|].
  rewrite (checkAmount_ok a) by (done || lia). cbn [mbind option_bind]. unfold max_uint32 in *.
  rewrite Integer.toUnsignedInt_spec by lia. unfold Integer.divByPow2. rewrite mpz_fdiv_q_2exp_spec by lia.
  f_equal. case_decide; [apply new_small; lia|].
  replace (d_value b) with (d_size a) by lia. rewrite Z.div_small by lia. apply new_small; lia.
Qed.

Lemma div_pow2_bound w n v : 0 ≤ n ≤ w → 0 ≤ v < 2 ^ w → 0 ≤ v / 2 ^ n < 2 ^ (w - n).
Proof.
  intros Hn Hv. pose proof (pow2_pos n). split; [apply Z.div_pos; lia|]. apply Z.div_lt_upper_bound; [lia|].
  rewrite <- pow2_add by lia. replace (n + (w - n)) with w by lia. lia.
Qed.

(** An arithmetic shift by at most the width, as the code computes it. *)
Lemma ashr_code w n v :
  0 < w → 0 < n ≤ w → 0 ≤ v < 2 ^ w →
  wrap w (if decide (n < w) then (if decide (v < 2 ^ (w - 1)) then v else v - 2 ^ w) / 2 ^ n
          else if decide ((if decide (v < 2 ^ (w - 1)) then v else v - 2 ^ w) < 0) then -1 else 0)
  = wrap w (v / 2 ^ n + (if bool_decide (2 ^ (w - 1) ≤ v) then 2 ^ w - 2 ^ (w - n) else 0)).
Proof.
  intros Hw Hn Hv. pose proof (pow2_split w). pose proof (pow2_pos n). pose proof (pow2_pos (w - n)).
  assert (2 ^ w = 2 ^ (w - n) * 2 ^ n) as E by (rewrite <- pow2_add by lia; f_equal; lia).
  destruct (decide (v < 2 ^ (w - 1))).
  - rewrite bool_decide_false, Z.add_0_r by lia. case_decide; [done|]. rewrite decide_False by lia.
    replace n with w by lia. by rewrite Z.div_small by lia.
  - rewrite bool_decide_true by lia. case_decide.
    + replace (v - 2 ^ w) with (v + - 2 ^ (w - n) * 2 ^ n) by lia. rewrite Z.div_add by lia.
      apply (wrap_congr _ _ _ (-1)); lia.
    + rewrite decide_True by lia. replace n with w by lia. rewrite Z.div_small, Z.sub_diag by lia.
      apply (wrap_congr _ _ _ (-1)); lia.
Qed.

Lemma arithRightShift_spec a b :
  wf_bv a → wf_bv b → d_size a = d_size b →
  BV.arithRightShift a b = Some (mkBitVector (d_size a) (ashr (d_size a) (d_value a) (d_value b))).
Proof.
  intros Ha Hb Hs. pose proof Ha as [Hw Hv]. pose proof Hb as [Hw' Hv']. unfold BV.arithRightShift, ashr.
  set (w := d_size a) in *. rewrite sign_bit_spec by done. fold w.
  pose proof (pow2_pos w). pose proof (pow2_split w). unfold signed.
  case_decide as Hgt.
  - rewrite (decide_False (P := d_value b < w)) by lia. case_bool_decide; simpl.
    + unfold Integer.multiplyByPow2. rewrite mpz_mul_2exp_spec, new_eq by lia.
      rewrite (decide_False (P := d_value a < _)), decide_True by lia. do 2 f_equal. apply (wrap_congr _ _ _ w); lia.
    + rewrite (decide_True (P := d_value a < _)), decide_False by lia. do 2 f_equal. apply new_eq. lia.
  - case_decide as Hz.
    + rewrite Hz, (decide_True (P := 0 < w)), Z.pow_0_r, Z.div_1_r by lia. fold (signed w (d_value a)).
      rewrite wrap_signed by lia. by destruct a.
    + rewrite (checkAmount_ok a) by (done || (fold w; lia)). cbn [mbind option_bind]. unfold max_uint32 in *.
      rewrite Integer.toUnsignedInt_spec by (fold w in Hgt; lia). unfold Integer.divByPow2.
      rewrite mpz_fdiv_q_2exp_spec by lia. rewrite ashr_code by (done || lia). case_bool_decide; simpl;
        [|by rewrite Z.add_0_r, new_eq by lia].
      pose proof (pow2_pos (w - d_value b)). pose proof (div_pow2_bound w (d_value b) (d_value a)).
      rewrite Integer.oneExtend_spec by lia. cbn [mbind option_bind]. rewrite new_eq by lia. do 3 f_equal.
      replace (w - d_value b + d_value b) with w by lia. lia.
Qed.

Lemma mkOnes_spec w : 0 < w ≤ max_uint32 → BV.mkOnes w = Some (mkBitVector w (2 ^ w - 1)).
Proof.
  intros Hw. unfold BV.mkOnes. rewrite bool_decide_true by lia. cbn [assert mbind option_bind].
  assert (BV.new 1 1 = mkBitVector 1 1) as -> by (apply new_small; lia). unfold max_uint32 in *.
  rewrite signExtend_spec; [|split; simpl; unfold max_uint32; lia|lia|simpl; unfold max_uint32; lia]. cbn [d_size d_value].
  replace (1 + (w - 1)) with w by lia. do 2 f_equal. apply (wrap_eq _ _ _ (-1)); [pose proof (pow2_pos w); lia|].
  unfold signed. simpl. lia.
Qed.

Lemma mkMinSigned_spec w : 0 < w ≤ max_uint32 → BV.mkMinSigned w = Some (mkBitVector w (2 ^ (w - 1))).
Proof.
  intros Hw. unfold BV.mkMinSigned, BV.setBit. simpl. rewrite !bool_decide_true by lia. cbn [assert mbind option_bind].
  unfold Integer.setBit. rewrite mpz_setbit_spec by lia. by rewrite Z.setbit_spec', Z.lor_0_l.
Qed.

Lemma mkMaxSigned_spec w : 0 < w ≤ max_uint32 → BV.mkMaxSigned w = Some (mkBitVector w (2 ^ (w - 1) - 1)).
Proof.
  intros Hw. unfold BV.mkMaxSigned. rewrite bool_decide_true by lia. cbn [assert mbind option_bind].
  rewrite mkMinSigned_spec by done. cbn [mbind option_bind]. pose proof (pow2_split w). pose proof (pow2_pos (w - 1)).
  rewrite not_spec by (split; simpl; lia). simpl. do 2 f_equal. lia.
Qed.

End specs.
