(* ===== verification/BvElim.v ===== *)
(** [theory/bv/theory_bv_utils.cpp] (building nodes) and
    [theory/bv/theory_bv_rewrite_rules_operator_elimination.h]: the rules that
    express derived bit-vector operators by the basic ones.  [apply] is [None]
    where the code runs into a failed assertion. *)
From stdpp Require Import base option list numbers.
From S2P Require Import Prelude Integer Node TypeRules BitVectorUtil.
Open Scope Z_scope.

(** [RewriteRule<rule>]. *)
Record RewriteRule := mkRule {
  applies : Node → bool;
  apply : Node → option Node;
}.

(** [node.getKind() == k]. *)
Definition isKind (k : Kind) (n : Node) : bool :=
  match n with mkNode k' _ => bool_decide (k' = k) | _ => false end.

Abbreviation mkNode1 k a := (mkNode k [a]).
Abbreviation mkNode2 k a b := (mkNode k [a; b]).
Abbreviation mkNode3 k a b c := (mkNode k [a; b; c]).

(** ** [theory_bv_utils.cpp] *)
Module utils.
Section utils.
Context `{!Gmp}.

Definition mkTrue : Node := mkConstBool true.
Definition mkFalse : Node := mkConstBool false.

(** The overloads of [mkConst]: from a size and a value, and from a constant. *)
Definition mkConst (size value : Z) : Node := mkConstBV (BV.new size value).
Definition mkConstOf (value : BitVector) : Node := mkConstBV value.

Definition mkZero (size : Z) : option Node := _ ← assert (bool_decide (size > 0)); Some (mkConst size 0).
Definition mkOne (size : Z) : option Node := _ ← assert (bool_decide (size > 0)); Some (mkConst size 1).
Definition mkOnes (size : Z) : option Node :=
  _ ← assert (bool_decide (size > 0)); mkConstBV <$> BV.mkOnes size.
Definition mkMinSigned (size : Z) : option Node :=
  _ ← assert (bool_decide (size > 0)); mkConstBV <$> BV.mkMinSigned size.
Definition mkMaxSigned (size : Z) : option Node :=
  _ ← assert (bool_decide (size > 0)); mkConstBV <$> BV.mkMaxSigned size.

Definition mkSignExtend (node : Node) (amount : Z) : Node := mkNode1 (BITVECTOR_SIGN_EXTEND amount) node.
Definition mkExtract (node : Node) (high low : Z) : Node := mkNode1 (BITVECTOR_EXTRACT high low) node.
Definition mkBit (node : Node) (index : Z) : Node := mkNode1 (BITVECTOR_BIT index) node.
Definition mkConcat (t1 t2 : Node) : Node := mkNode2 BITVECTOR_CONCAT t1 t2.

Definition mkConcatList (children : list Node) : option Node :=
  if decide (1 < length children)%nat then Some (mkNode BITVECTOR_CONCAT children) else children !! 0%nat.

Definition mkConcatRepeat (node : Node) (repeat : Z) : option Node :=
  _ ← assert (bool_decide (repeat ≠ 0));
  if decide (repeat = 1) then Some node
  else Some (mkNode BITVECTOR_CONCAT (replicate (Z.to_nat repeat) node)).

Definition mkInc (t : Node) : option Node :=
  s ← getSize t; one ← mkOne s; Some (mkNode2 BITVECTOR_ADD t one).
Definition mkDec (t : Node) : option Node :=
  s ← getSize t; one ← mkOne s; Some (mkNode2 BITVECTOR_SUB t one).

(** [isZero], [isOne], [isOnes]: a constant compared with the one built. *)
Definition isZero (node : Node) : option bool :=
  if negb (isConst node) then Some false
  else s ← getSize node; z ← mkZero s; Some (bool_decide (node = z)).
Definition isOne (node : Node) : option bool :=
  if negb (isConst node) then Some false
  else s ← getSize node; z ← mkOne s; Some (bool_decide (node = z)).
Definition isOnes (node : Node) : option bool :=
  if negb (isConst node) then Some false
  else s ← getSize node; z ← mkOnes s; Some (bool_decide (node = z)).

Definition isBvConstTerm (node : Node) : bool :=
  if decide (getNumChildren node = 0%nat) then isConst node else forallb isConst (children node).

End utils.
End utils.

(** [eqNode], [iteNode], [andNode] of [NodeTemplate]. *)
Definition eqNode (a b : Node) : Node := mkNode2 EQUAL a b.
Definition iteNode (c a b : Node) : Node := mkNode3 ITE c a b.
Definition andNode (a b : Node) : Node := mkNode2 AND a b.

(** ** The rules *)
Section rules.
Context `{!Gmp}.

Definition SizeEliminate : RewriteRule := {|
  applies node :=
    isKind BITVECTOR_SIZE node &&
    match child node 0 with
    | Some a => match typeOf a with Some t => isBitVector t | None => false end
    | None => false
    end;
  apply node := a ← child node 0; s ← getSize a; Some (mkConstInt s);
|}.

(** A binary predicate with its arguments swapped. *)
Definition UgtEliminate : RewriteRule := {|
  applies := isKind BITVECTOR_UGT;
  apply node := a ← child node 0; b ← child node 1; Some (mkNode2 BITVECTOR_ULT b a);
|}.
Definition UgeEliminate : RewriteRule := {|
  applies := isKind BITVECTOR_UGE;
  apply node := a ← child node 0; b ← child node 1; Some (mkNode2 BITVECTOR_ULE b a);
|}.
Definition SgtEliminate : RewriteRule := {|
  applies := isKind BITVECTOR_SGT;
  apply node := a ← child node 0; b ← child node 1; Some (mkNode2 BITVECTOR_SLT b a);
|}.
Definition SgeEliminate : RewriteRule := {|
  applies := isKind BITVECTOR_SGE;
  apply node := a ← child node 0; b ← child node 1; Some (mkNode2 BITVECTOR_SLE b a);
|}.
Definition SleEliminate : RewriteRule := {|
  applies := isKind BITVECTOR_SLE;
  apply node :=
    a ← child node 0; b ← child node 1;
    let b_slt_a := mkNode2 BITVECTOR_SLT b a in
    Some (mkNode1 NOT b_slt_a);
|}.
Definition UleEliminate : RewriteRule := {|
  applies := isKind BITVECTOR_ULE;
  apply node :=
    a ← child node 0; b ← child node 1;
    let b_ult_a := mkNode2 BITVECTOR_ULT b a in
    Some (mkNode1 NOT b_ult_a);
|}.

Definition SubEliminate : RewriteRule := {|
  applies := isKind BITVECTOR_SUB;
  apply node :=
    b ← child node 1;
    let negb := mkNode1 BITVECTOR_NEG b in
    a ← child node 0;
    Some (mkNode2 BITVECTOR_ADD a negb);
|}.

Definition RepeatEliminate : RewriteRule := {|
  applies node := match node with mkNode (BITVECTOR_REPEAT _) _ => true | _ => false end;
  apply node :=
    a ← child node 0;
    amount ← (match node with mkNode (BITVECTOR_REPEAT n) _ => Some n | _ => None end);
    _ ← assert (bool_decide (amount >= 1));
    if decide (amount = 1) then Some a
    else Some (mkNode BITVECTOR_CONCAT (replicate (Z.to_nat amount) a));
|}.

Definition RotateLeftEliminate : RewriteRule := {|
  applies node := match node with mkNode (BITVECTOR_ROTATE_LEFT _) _ => true | _ => false end;
  apply node :=
    a ← child node 0;
    amount ← (match node with mkNode (BITVECTOR_ROTATE_LEFT n) _ => Some n | _ => None end);
    aSize ← getSize a;
    let amount := amount mod aSize in
    if decide (amount = 0) then Some a
    else
      let left := utils.mkExtract a (aSize - 1 - amount) 0 in
      let right := utils.mkExtract a (aSize - 1) (aSize - amount) in
      Some (utils.mkConcat left right);
|}.

Definition RotateRightEliminate : RewriteRule := {|
  applies node := match node with mkNode (BITVECTOR_ROTATE_RIGHT _) _ => true | _ => false end;
  apply node :=
    a ← child node 0;
    amount ← (match node with mkNode (BITVECTOR_ROTATE_RIGHT n) _ => Some n | _ => None end);
    aSize ← getSize a;
    let amount := amount mod aSize in
    if decide (amount = 0) then Some a
    else
      let left := utils.mkExtract a (amount - 1) 0 in
      let right := utils.mkExtract a (aSize - 1) amount in
      Some (utils.mkConcat left right);
|}.

Definition NandEliminate : RewriteRule := {|
  applies node := isKind BITVECTOR_NAND node && bool_decide (getNumChildren node = 2%nat);
  apply node :=
    a ← child node 0; b ← child node 1;
    let andNode := mkNode2 BITVECTOR_AND a b in
    Some (mkNode1 BITVECTOR_NOT andNode);
|}.
Definition NorEliminate : RewriteRule := {|
  applies node := isKind BITVECTOR_NOR node && bool_decide (getNumChildren node = 2%nat);
  apply node :=
    a ← child node 0; b ← child node 1;
    let orNode := mkNode2 BITVECTOR_OR a b in
    Some (mkNode1 BITVECTOR_NOT orNode);
|}.
Definition XnorEliminate : RewriteRule := {|
  applies node := isKind BITVECTOR_XNOR node && bool_decide (getNumChildren node = 2%nat);
  apply node :=
    a ← child node 0; b ← child node 1;
    let xorNode := mkNode2 BITVECTOR_XOR a b in
    Some (mkNode1 BITVECTOR_NOT xorNode);
|}.

Definition SdivEliminate : RewriteRule := {|
  applies := isKind BITVECTOR_SDIV;
  apply node :=
    a ← child node 0; b ← child node 1;
    size ← getSize a;
    let one := utils.mkConst 1 1 in
    let a_lt_0 := mkNode2 EQUAL (utils.mkExtract a (size - 1) (size - 1)) one in
    let b_lt_0 := mkNode2 EQUAL (utils.mkExtract b (size - 1) (size - 1)) one in
    let abs_a := mkNode3 ITE a_lt_0 (mkNode1 BITVECTOR_NEG a) a in
    let abs_b := mkNode3 ITE b_lt_0 (mkNode1 BITVECTOR_NEG b) b in
    let a_udiv_b := mkNode2 BITVECTOR_UDIV abs_a abs_b in
    let neg_result := mkNode1 BITVECTOR_NEG a_udiv_b in
    let condition := mkNode2 XOR a_lt_0 b_lt_0 in
    Some (mkNode3 ITE condition neg_result a_udiv_b);
|}.

Definition SremEliminate : RewriteRule := {|
  applies := isKind BITVECTOR_SREM;
  apply node :=
    a ← child node 0; b ← child node 1;
    size ← getSize a;
    let one := utils.mkConst 1 1 in
    let a_lt_0 := mkNode2 EQUAL (utils.mkExtract a (size - 1) (size - 1)) one in
    let b_lt_0 := mkNode2 EQUAL (utils.mkExtract b (size - 1) (size - 1)) one in
    let abs_a := mkNode3 ITE a_lt_0 (mkNode1 BITVECTOR_NEG a) a in
    let abs_b := mkNode3 ITE b_lt_0 (mkNode1 BITVECTOR_NEG b) b in
    let a_urem_b := mkNode2 BITVECTOR_UREM abs_a abs_b in
    let neg_result := mkNode1 BITVECTOR_NEG a_urem_b in
    Some (mkNode3 ITE a_lt_0 neg_result a_urem_b);
|}.

Definition SmodEliminate : RewriteRule := {|
  applies := isKind BITVECTOR_SMOD;
  apply node :=
    s ← child node 0; t ← child node 1;
    size ← getSize s;
    let msb_s := utils.mkExtract s (size - 1) (size - 1) in
    let msb_t := utils.mkExtract t (size - 1) (size - 1) in
    let bit1 := utils.mkConst 1 1 in
    let bit0 := utils.mkConst 1 0 in
    let abs_s := iteNode (eqNode msb_s bit0) s (mkNode1 BITVECTOR_NEG s) in
    let abs_t := iteNode (eqNode msb_t bit0) t (mkNode1 BITVECTOR_NEG t) in
    let u := mkNode2 BITVECTOR_UREM abs_s abs_t in
    let neg_u := mkNode1 BITVECTOR_NEG u in
    let cond0 := eqNode u (utils.mkConst size 0) in
    let cond1 := andNode (eqNode msb_s bit0) (eqNode msb_t bit0) in
    let cond2 := andNode (eqNode msb_s bit1) (eqNode msb_t bit0) in
    let cond3 := andNode (eqNode msb_s bit0) (eqNode msb_t bit1) in
    Some (iteNode cond0 u
           (iteNode cond1 u
             (iteNode cond2 (mkNode2 BITVECTOR_ADD neg_u t)
               (iteNode cond3 (mkNode2 BITVECTOR_ADD u t) neg_u))));
|}.

Definition ZeroExtendEliminate : RewriteRule := {|
  applies node := match node with mkNode (BITVECTOR_ZERO_EXTEND _) _ => true | _ => false end;
  apply node :=
    bv ← child node 0;
    amount ← (match node with mkNode (BITVECTOR_ZERO_EXTEND n) _ => Some n | _ => None end);
    if decide (amount = 0) then Some bv
    else Some (utils.mkConcat (utils.mkConst amount 0) bv);
|}.

Definition RedorEliminate : RewriteRule := {|
  applies := isKind BITVECTOR_REDOR;
  apply node :=
    a ← child node 0; size ← getSize a;
    Some (mkNode1 BITVECTOR_NOT (mkNode2 BITVECTOR_COMP a (utils.mkConst size 0)));
|}.

Definition RedandEliminate : RewriteRule := {|
  applies := isKind BITVECTOR_REDAND;
  apply node :=
    a ← child node 0; size ← getSize a;
    ones ← utils.mkOnes size;
    Some (mkNode2 BITVECTOR_COMP a ones);
|}.

Definition NegoEliminate : RewriteRule := {|
  applies := isKind BITVECTOR_NEGO;
  apply node :=
    a ← child node 0; size ← getSize a;
    m ← utils.mkMinSigned size;
    Some (mkNode2 EQUAL a m);
|}.

Definition UaddoEliminate : RewriteRule := {|
  applies := isKind BITVECTOR_UADDO;
  apply node :=
    bvZero ← utils.mkZero 1; bvOne ← utils.mkOne 1;
    a ← child node 0; b ← child node 1;
    let add := mkNode2 BITVECTOR_ADD (utils.mkConcat bvZero a) (utils.mkConcat bvZero b) in
    size ← getSize add;
    Some (mkNode2 EQUAL (utils.mkExtract add (size - 1) (size - 1)) bvOne);
|}.

Definition SaddoEliminate : RewriteRule := {|
  applies := isKind BITVECTOR_SADDO;
  apply node :=
    a ← child node 0; b ← child node 1; size ← getSize a;
    zero ← utils.mkZero 1; one ← utils.mkOne 1;
    let extOp := λ n, mkNode1 (BITVECTOR_EXTRACT (size - 1) (size - 1)) n in
    let sign0 := extOp a in
    let sign1 := extOp b in
    let add := mkNode2 BITVECTOR_ADD a b in
    let signa := extOp add in
    let both_neg := mkNode2 AND (mkNode2 EQUAL sign0 one) (mkNode2 EQUAL sign1 one) in
    let both_pos := mkNode2 AND (mkNode2 EQUAL sign0 zero) (mkNode2 EQUAL sign1 zero) in
    let result_neg := mkNode2 EQUAL signa one in
    let result_pos := mkNode2 EQUAL signa zero in
    Some (mkNode2 OR (mkNode2 AND both_neg result_pos) (mkNode2 AND both_pos result_neg));
|}.

(** The loop of [UmuloEliminate]: [n] iterations from index [i], with [tmp] and
    [uppc]. *)
Fixpoint umuloLoop (a b : Node) (size : Z) (n : nat) (i : Z) (tmp : list Node) (uppc : Node)
    : list Node * Node :=
  match n with
  | O => (tmp, uppc)
  | S n =>
      let tmp := tmp ++ [mkNode2 BITVECTOR_AND (utils.mkExtract b i i) uppc] in
      let uppc := mkNode2 BITVECTOR_OR (utils.mkExtract a (size - 1 - i) (size - 1 - i)) uppc in
      umuloLoop a b size n (i + 1) tmp uppc
  end.

Definition UmuloEliminate : RewriteRule := {|
  applies := isKind BITVECTOR_UMULO;
  apply node :=
    a ← child node 0; b ← child node 1; size ← getSize a;
    if decide (size = 1) then Some utils.mkFalse
    else
      let uppc := utils.mkExtract a (size - 1) (size - 1) in
      let '(tmp, _) := umuloLoop a b size (Z.to_nat (size - 1)) 1 [] uppc in
      bvZero ← utils.mkZero 1;
      let zext_t1 := utils.mkConcat bvZero a in
      let zext_t2 := utils.mkConcat bvZero b in
      let mul := mkNode2 BITVECTOR_MULT zext_t1 zext_t2 in
      let tmp := tmp ++ [utils.mkExtract mul size size] in
      one ← utils.mkOne 1;
      Some (mkNode2 EQUAL (mkNode BITVECTOR_OR tmp) one);
|}.

(** The loop of [SmuloEliminate]. *)
Fixpoint smuloLoop (xor0 xor1 : Node) (size : Z) (n : nat) (i : Z) (ppc res : Node) : Node :=
  match n with
  | O => res
  | S n =>
      let ppc := mkNode2 BITVECTOR_OR ppc (utils.mkExtract xor0 (size - 2 - i) (size - 2 - i)) in
      let res := mkNode2 BITVECTOR_OR res
                   (mkNode2 BITVECTOR_AND (utils.mkExtract xor1 (i + 1) (i + 1)) ppc) in
      smuloLoop xor0 xor1 size n (i + 1) ppc res
  end.

Definition SmuloEliminate : RewriteRule := {|
  applies := isKind BITVECTOR_SMULO;
  apply node :=
    a ← child node 0; b ← child node 1; size ← getSize a;
    one ← utils.mkOne 1;
    if decide (size = 1) then Some (mkNode2 EQUAL (mkNode2 BITVECTOR_AND a b) one)
    else
      let sextOp1 := λ n, mkNode1 (BITVECTOR_SIGN_EXTEND 1) n in
      let mul := mkNode2 BITVECTOR_MULT (sextOp1 a) (sextOp1 b) in
      let diff := mkNode2 BITVECTOR_XOR (utils.mkExtract mul size size)
                    (utils.mkExtract mul (size - 1) (size - 1)) in
      if decide (size = 2) then Some (mkNode2 EQUAL diff one)
      else
        let sextOpN := λ n, mkNode1 (BITVECTOR_SIGN_EXTEND (size - 1)) n in
        let sign0 := utils.mkExtract a (size - 1) (size - 1) in
        let sign1 := utils.mkExtract b (size - 1) (size - 1) in
        let xor0 := mkNode2 BITVECTOR_XOR a (sextOpN sign0) in
        let xor1 := mkNode2 BITVECTOR_XOR b (sextOpN sign1) in
        let ppc := utils.mkExtract xor0 (size - 2) (size - 2) in
        let res := mkNode2 BITVECTOR_AND (utils.mkExtract xor1 1 1) ppc in
        let res := smuloLoop xor0 xor1 size (Z.to_nat (size - 3)) 1 ppc res in
        Some (mkNode2 EQUAL (mkNode2 BITVECTOR_OR res diff) one);
|}.

Definition UsuboEliminate : RewriteRule := {|
  applies := isKind BITVECTOR_USUBO;
  apply node :=
    one ← utils.mkOne 1;
    a ← child node 0; b ← child node 1;
    let zextOp := λ n, mkNode1 (BITVECTOR_ZERO_EXTEND 1) n in
    let sub := mkNode2 BITVECTOR_SUB (zextOp a) (zextOp b) in
    size ← getSize sub;
    let extOp := λ n, mkNode1 (BITVECTOR_EXTRACT (size - 1) (size - 1)) n in
    Some (mkNode2 EQUAL (extOp sub) one);
|}.

Definition SsuboEliminate : RewriteRule := {|
  applies := isKind BITVECTOR_SSUBO;
  apply node :=
    a ← child node 0; b ← child node 1; size ← getSize a;
    one ← utils.mkOne 1; zero ← utils.mkZero 1;
    let extOp := λ n, mkNode1 (BITVECTOR_EXTRACT (size - 1) (size - 1)) n in
    let sign0 := extOp a in
    let sign1 := extOp b in
    let sub := mkNode2 BITVECTOR_SUB a b in
    let signs := extOp sub in
    let neg_pos := mkNode2 AND (mkNode2 EQUAL sign0 one) (mkNode2 EQUAL sign1 zero) in
    let pos_neg := mkNode2 AND (mkNode2 EQUAL sign0 zero) (mkNode2 EQUAL sign1 one) in
    let result_neg := mkNode2 EQUAL signs one in
    let result_pos := mkNode2 EQUAL signs zero in
    Some (mkNode2 OR (mkNode2 AND neg_pos result_pos) (mkNode2 AND pos_neg result_neg));
|}.

Definition SdivoEliminate : RewriteRule := {|
  applies := isKind BITVECTOR_SDIVO;
  apply node :=
    a ← child node 0; b ← child node 1; size ← getSize a;
    m ← utils.mkMinSigned size; ones ← utils.mkOnes size;
    Some (mkNode2 AND (mkNode2 EQUAL a m) (mkNode2 EQUAL b ones));
|}.

Definition operator_elimination : list RewriteRule :=
  [ SizeEliminate; UgtEliminate; UgeEliminate; SgtEliminate; SgeEliminate; SleEliminate;
    UleEliminate; SubEliminate; RepeatEliminate; RotateLeftEliminate; RotateRightEliminate;
    NandEliminate; NorEliminate; XnorEliminate; SdivEliminate; SremEliminate; SmodEliminate;
    ZeroExtendEliminate; RedorEliminate; RedandEliminate; NegoEliminate; UaddoEliminate;
    SaddoEliminate; UmuloEliminate; SmuloEliminate; UsuboEliminate; SsuboEliminate;
    SdivoEliminate ].

End rules.
