(* ===== verification/BvTerms.v ===== *)
(** Reasoning about typed terms.  [bvterm n w f] says that [n] has the type of
    bit-vectors of width [w] and the value [f env] in every valuation; there is
    a lemma for every operator, so that the type and the value of a term follow
    its construction. *)
From stdpp Require Import base option list numbers.
From S2P Require Import Prelude Integer Node TypeRules Semantics BvArith TypeSound BitVectorUtil BvElim.
Open Scope Z_scope.

(** Typed, with no subterm of an abstract type. *)
Definition wt (n : Node) (τ : TypeNode) : Prop := typeOf n = Some τ ∧ concrete n = true.

Definition bvterm (n : Node) (w : Z) (f : Env → Z) : Prop :=
  wt n (BITVECTOR_TYPE w) ∧ 0 < w ≤ max_uint32 ∧
  ∀ env, env_ok env → eval env n = Some (VBV w (f env)) ∧ 0 ≤ f env < 2 ^ w.

Definition boolterm (n : Node) (f : Env → bool) : Prop :=
  wt n BOOLEAN_TYPE ∧ ∀ env, env_ok env → eval env n = Some (VBool (f env)).

(** [n'] can stand for [n]: it has the same type, is as concrete, and has the
    same value. *)
Definition equiv (n n' : Node) : Prop :=
  typeOf n' = typeOf n ∧ concrete n' = true ∧ ∀ env, env_ok env → eval env n' = eval env n.

Lemma equiv_bv n n' w f f' :
  bvterm n w f → bvterm n' w f' → (∀ env, env_ok env → 0 ≤ f env < 2 ^ w → f' env = f env) → equiv n n'.
Proof.
  intros ([Ht _]&Hw&He) ([Ht' Hc']&_&He') Hf. split_and!; [congruence|done|]. intros env Hok.
  destruct (He env Hok) as [-> ?], (He' env Hok) as [-> _]. by rewrite Hf.
Qed.

Lemma equiv_bool n n' f f' :
  boolterm n f → boolterm n' f' → (∀ env, env_ok env → f' env = f env) → equiv n n'.
Proof.
  intros ([Ht _]&He) ([Ht' Hc']&He') Hf. split_and!; [congruence|done|]. intros env Hok. by rewrite He, He', Hf.
Qed.

(** ** Terms the type rules accept *)

Definition bv_of (n : Node) (env : Env) : Z := match eval env n with Some (VBV _ z) => z | _ => 0 end.
Definition bool_of (n : Node) (env : Env) : bool := match eval env n with Some (VBool b) => b | _ => false end.

Lemma typed_bvterm n w :
  typeOf n = Some (BITVECTOR_TYPE w) → concrete n = true → w ≤ max_uint32 → bvterm n w (bv_of n).
Proof.
  intros Ht Hc Hm. split; [by split|].
  destruct (type_sound_gen env0 n _ Ht Hc env0_ok) as (v0&_&[Hw _]%has_type_bv).
  split; [lia|]. intros env Hok. destruct (type_sound_gen env n _ Ht Hc Hok) as (v&Hv&(_&z&->&Hz)%has_type_bv).
  unfold bv_of. by rewrite Hv.
Qed.

Lemma typed_boolterm n : typeOf n = Some BOOLEAN_TYPE → concrete n = true → boolterm n (bool_of n).
Proof.
  intros Ht Hc. split; [by split|]. intros env Hok.
  destruct (type_sound_gen env n _ Ht Hc Hok) as (v&Hv&(b&->)%has_type_bool). unfold bool_of. by rewrite Hv.
Qed.

(** The children of a typed term. *)
Lemma node_inv k cs τ :
  typeOf (mkNode k cs) = Some τ → concrete (mkNode k cs) = true →
  arity_ok k (length cs) = true ∧ payload_ok k = true ∧ isAbstract τ = false ∧ forallb concrete cs = true ∧
  ∃ ts, mapM typeOf cs = Some ts ∧ computeType k cs ts = Some τ ∧
    ∃ vs, Forall2 has_type vs ts ∧ length vs = length cs.
Proof.
  intros Ht Hc. apply concrete_node in Hc as [Hcs Ha]. pose proof (Ha _ Ht). cbn [typeOf] in Ht. nofail.
  split_and!; [done..|]. exists x0. split_and!; [done..|].
  match goal with H : mapM _ _ = Some _ |- _ => rename H into HM end.
  clear - HM Hcs. revert x0 HM Hcs. induction cs as [|c cs IH]; intros ts HM Hcs; simpl in HM.
  - injection HM as <-. by exists [].
  - apply bind_Some in HM as (t&Ht&HM). apply bind_Some in HM as (ts'&HM&Hts). injection Hts as <-.
    cbn [forallb] in Hcs. apply andb_true_iff in Hcs as [Hc Hcs].
    destruct (type_sound_gen env0 c t) as (v&_&Hv); [done..|apply env0_ok|].
    destruct (IH ts') as (vs&HF&Hl); [done..|]. exists (v :: vs). simpl. split; [by constructor|lia].
Qed.

(** Binary operators of one width. *)
Lemma fixed2_inv k cs τ :
  (∀ n, arity_ok k n = bool_decide (n = 2%nat)) → (∀ ts, computeType k cs ts = BitVectorFixedWidthTypeRule ts) →
  typeOf (mkNode k cs) = Some τ → concrete (mkNode k cs) = true →
  ∃ a b w, cs = [a; b] ∧ τ = BITVECTOR_TYPE w ∧ 0 < w ∧
    typeOf a = Some (BITVECTOR_TYPE w) ∧ typeOf b = Some (BITVECTOR_TYPE w) ∧ concrete a = true ∧ concrete b = true.
Proof.
  intros Hk Hr Ht Hc. destruct (node_inv k cs τ Ht Hc) as (Har&_&_&Hcs&ts&HM&Hτ&vs&HF&Hl).
  rewrite Hk in Har. nofail. rewrite Hr in Hτ. destruct (fixedWidth_sound _ _ _ HF Hτ) as (w&->&Hw&Hbv).
  destruct cs as [|a [|b []]]; try done. destruct (typeOf a) as [ta|] eqn:Ea, (typeOf b) as [tb|] eqn:Eb; simpl in HM;
    rewrite ?Ea, ?Eb in HM; simpl in HM; try done. injection HM as <-.
  inversion HF as [|va ? vs1 ? Hva HF1]; subst. inversion HF1 as [|vb ? ? ? Hvb HF2]; subst. inversion HF2; subst.
  inversion Hbv as [|? ? (za&->&_) Hbv1]; subst. inversion Hbv1 as [|? ? (zb&->&_) _]; subst.
  simpl in Hcs. nofail. destruct Hva as [<- _], Hvb as [<- _]. by exists a, b, w.
Qed.

Lemma fixed1_inv k cs τ :
  (∀ n, arity_ok k n = bool_decide (n = 1%nat)) → (∀ ts, computeType k cs ts = BitVectorFixedWidthTypeRule ts) →
  typeOf (mkNode k cs) = Some τ → concrete (mkNode k cs) = true →
  ∃ a w, cs = [a] ∧ τ = BITVECTOR_TYPE w ∧ 0 < w ∧ typeOf a = Some (BITVECTOR_TYPE w) ∧ concrete a = true.
Proof.
  intros Hk Hr Ht Hc. destruct (node_inv k cs τ Ht Hc) as (Har&_&_&Hcs&ts&HM&Hτ&vs&HF&Hl).
  rewrite Hk in Har. nofail. rewrite Hr in Hτ. destruct (fixedWidth_sound _ _ _ HF Hτ) as (w&->&Hw&Hbv).
  destruct cs as [|a []]; try done. simpl in HM. destruct (typeOf a) as [ta|] eqn:Ea; simpl in HM; try done. injection HM as <-.
  inversion HF as [|va ? vs1 ? Hva HF1]; subst. inversion HF1; subst. inversion Hbv as [|? ? (za&->&_) _]; subst.
  simpl in Hcs. nofail. destruct Hva as [<- _]. by exists a, w.
Qed.

(** Binary predicates. *)
Lemma pred2_inv k cs τ :
  (∀ n, arity_ok k n = bool_decide (n = 2%nat)) → (∀ ts, computeType k cs ts = BitVectorPredicateTypeRule ts) →
  typeOf (mkNode k cs) = Some τ → concrete (mkNode k cs) = true →
  ∃ a b w, cs = [a; b] ∧ τ = BOOLEAN_TYPE ∧ 0 < w ∧
    typeOf a = Some (BITVECTOR_TYPE w) ∧ typeOf b = Some (BITVECTOR_TYPE w) ∧ concrete a = true ∧ concrete b = true.
Proof.
  intros Hk Hr Ht Hc. destruct (node_inv k cs τ Ht Hc) as (Har&_&_&Hcs&ts&HM&Hτ&vs&HF&Hl).
  rewrite Hk in Har. nofail. rewrite Hr in Hτ. pose proof (pred_type _ _ Hτ) as ->.
  destruct (pred_children _ _ HF ltac:(lia) Hτ) as (w&x&y&->&Hw&_&_).
  destruct cs as [|a [|b []]]; try done. destruct (typeOf a) as [ta|] eqn:Ea, (typeOf b) as [tb|] eqn:Eb; simpl in HM;
    rewrite ?Ea, ?Eb in HM; simpl in HM; try done. injection HM as <-.
  inversion HF as [|va ? vs1 ? [Hva _] HF1]; subst. inversion HF1 as [|vb ? ? ? [Hvb _] HF2]; subst.
  simpl in Hcs. nofail. by exists a, b, w.
Qed.

(** One bit-vector child. *)
Lemma one_inv k cs τ :
  (∀ n, arity_ok k n = bool_decide (n = 1%nat)) →
  (∀ ts, computeType k cs ts = Some τ → ∃ t, ts !! 0%nat = Some t ∧ checkMaybeBitVector t = true) →
  typeOf (mkNode k cs) = Some τ → concrete (mkNode k cs) = true →
  ∃ a w, cs = [a] ∧ 0 < w ∧ typeOf a = Some (BITVECTOR_TYPE w) ∧ concrete a = true ∧ payload_ok k = true ∧
    computeType k cs [BITVECTOR_TYPE w] = Some τ.
Proof.
  intros Hk Hr Ht Hc. destruct (node_inv k cs τ Ht Hc) as (Har&Hp&_&Hcs&ts&HM&Hτ&vs&HF&Hl).
  rewrite Hk in Har. nofail. destruct (Hr _ Hτ) as (t&Ht0&Hm).
  destruct (one_bv vs ts t HF ltac:(lia) Ht0 Hm) as (w&x&->&->&Hw&_).
  destruct cs as [|a []]; try done. simpl in HM. destruct (typeOf a) as [ta|] eqn:Ea; simpl in HM; try done. injection HM as <-.
  simplify_eq/=. nofail. by exists a, w.
Qed.

(** ** Building terms: types *)

Ltac step_type :=
  match goal with
  | H : typeOf ?c = Some _ |- context [typeOf ?c] => rewrite H
  end.

Lemma unify_refl t b : unifyInternal t t b = Some t.
Proof. unfold unifyInternal. by rewrite decide_True. Qed.
Lemma comparable_refl t : isComparableTo t t = true.
Proof. unfold isComparableTo. by rewrite unify_refl. Qed.

(** An application of [k] to typed children. *)
Lemma wt_node k cs ts τ :
  Forall2 wt cs ts → arity_ok k (length cs) = true → payload_ok k = true → isAbstract τ = false →
  computeType k cs ts = Some τ → wt (mkNode k cs) τ.
Proof.
  intros HF Hk Hp Ha Ht. assert (typeOf (mkNode k cs) = Some τ) as E.
  { cbn [typeOf]. rewrite Hk, Hp. cbn [andb assert mbind option_bind].
    assert (mapM typeOf cs = Some ts) as ->; [|done]. apply mapM_Some. eapply Forall2_impl; [|exact HF]. by intros ? ? [? _]. }
  split; [done|]. cbn [concrete]. rewrite E, Ha. apply forallb_forall. intros c Hc%list_elem_of_In.
  apply list_elem_of_lookup in Hc as [i Hi]. by destruct (Forall2_lookup_l _ _ _ _ _ HF Hi) as (t&_&[_ ?]).
Qed.

Section types.
Context (a b : Node) (w : Z).

Lemma wt_node1 k ta τ : wt a ta → arity_ok k 1 = true → payload_ok k = true → isAbstract τ = false →
  computeType k [a] [ta] = Some τ → wt (mkNode1 k a) τ.
Proof. intros Ha. apply (wt_node k [a] [ta]). repeat (constructor; [done|]); constructor. Qed.

Lemma wt_node2 k ta tb τ : wt a ta → wt b tb → arity_ok k 2 = true → payload_ok k = true → isAbstract τ = false →
  computeType k [a; b] [ta; tb] = Some τ → wt (mkNode2 k a b) τ.
Proof. intros Ha Hb. apply (wt_node k [a; b] [ta; tb]). repeat (constructor; [done|]); constructor. Qed.

Lemma wt_node3 k c ta tb tc τ :
  wt a ta → wt b tb → wt c tc → arity_ok k 3 = true → payload_ok k = true → isAbstract τ = false →
  computeType k [a; b; c] [ta; tb; tc] = Some τ → wt (mkNode3 k a b c) τ.
Proof. intros Ha Hb Hc. apply (wt_node k [a; b; c] [ta; tb; tc]). repeat (constructor; [done|]); constructor. Qed.

Lemma fixed2_type : BitVectorFixedWidthTypeRule [BITVECTOR_TYPE w; BITVECTOR_TYPE w] = Some (BITVECTOR_TYPE w).
Proof. cbn. unfold leastUpperBound. by rewrite unify_refl. Qed.

Lemma pred2_type : BitVectorPredicateTypeRule [BITVECTOR_TYPE w; BITVECTOR_TYPE w] = Some BOOLEAN_TYPE.
Proof. unfold BitVectorPredicateTypeRule. cbn. by rewrite comparable_refl. Qed.

Lemma equal_type t : EqualityTypeRule [t; t] = Some BOOLEAN_TYPE.
Proof. unfold EqualityTypeRule. cbn. by rewrite comparable_refl. Qed.

End types.

(** ** Building terms: values *)

Lemma eval_node1 env k a va : eval env a = Some va → eval env (mkNode1 k a) = kind_eval k [va].
Proof. intros E. cbn. by rewrite E. Qed.
Lemma eval_node2 env k a b va vb :
  eval env a = Some va → eval env b = Some vb → eval env (mkNode2 k a b) = kind_eval k [va; vb].
Proof. intros E E'. cbn. rewrite E. cbn. by rewrite E'. Qed.
Lemma eval_node3 env k a b c va vb vc :
  eval env a = Some va → eval env b = Some vb → eval env c = Some vc →
  eval env (mkNode3 k a b c) = kind_eval k [va; vb; vc].
Proof. intros E E' E''. cbn. rewrite E. cbn. rewrite E'. cbn. by rewrite E''. Qed.

(** A binary operator of one width; [f] is its meaning. *)
Lemma bvterm_bin k f a b w fa fb :
  arity_ok k 2 = true → payload_ok k = true →
  (∀ cs ts, computeType k cs ts = BitVectorFixedWidthTypeRule ts) →
  (∀ x y, kind_eval k [VBV w x; VBV w y] = Some (VBV w (f x y))) →
  (∀ x y, 0 ≤ w → 0 ≤ x < 2 ^ w → 0 ≤ y < 2 ^ w → 0 ≤ f x y < 2 ^ w) →
  bvterm a w fa → bvterm b w fb → bvterm (mkNode2 k a b) w (λ env, f (fa env) (fb env)).
Proof.
  intros Har Hp Hr Hk Hf (Hta&Hw&Ha) (Htb&_&Hb). split_and!; [|lia..|].
  - apply (wt_node2 _ _ _ _ _ _ Hta Htb); [done..|]. by rewrite Hr, fixed2_type.
  - intros env Hok. destruct (Ha env Hok) as [Ea ?], (Hb env Hok) as [Eb ?].
    rewrite (eval_node2 _ _ _ _ _ _ Ea Eb), Hk. split; [done|]. apply Hf; lia.
Qed.

Lemma bvterm_un k f a w fa :
  arity_ok k 1 = true → payload_ok k = true →
  (∀ cs ts, computeType k cs ts = BitVectorFixedWidthTypeRule ts) →
  (∀ x, kind_eval k [VBV w x] = Some (VBV w (f x))) →
  (∀ x, 0 ≤ w → 0 ≤ x < 2 ^ w → 0 ≤ f x < 2 ^ w) →
  bvterm a w fa → bvterm (mkNode1 k a) w (λ env, f (fa env)).
Proof.
  intros Har Hp Hr Hk Hf (Hta&Hw&Ha). split_and!; [|lia..|].
  - apply (wt_node1 _ _ _ _ Hta); [done..|]. by rewrite Hr.
  - intros env Hok. destruct (Ha env Hok) as [Ea ?].
    rewrite (eval_node1 _ _ _ _ Ea), Hk. split; [done|]. apply Hf; lia.
Qed.

Lemma boolterm_pred k p a b w fa fb :
  arity_ok k 2 = true → payload_ok k = true →
  (∀ cs ts, computeType k cs ts = BitVectorPredicateTypeRule ts) →
  (∀ x y, kind_eval k [VBV w x; VBV w y] = Some (VBool (p x y))) →
  bvterm a w fa → bvterm b w fb → boolterm (mkNode2 k a b) (λ env, p (fa env) (fb env)).
Proof.
  intros Har Hp Hr Hk (Hta&Hw&Ha) (Htb&_&Hb). split.
  - apply (wt_node2 _ _ _ _ _ _ Hta Htb); [done..|]. by rewrite Hr, pred2_type.
  - intros env Hok. destruct (Ha env Hok) as [Ea ?], (Hb env Hok) as [Eb ?].
    by rewrite (eval_node2 _ _ _ _ _ _ Ea Eb), Hk.
Qed.

(** The instances for each kind. *)
Section instances.
Context (a b : Node) (w : Z) (fa fb : Env → Z).
Hypothesis Ha : bvterm a w fa.
Hypothesis Hb : bvterm b w fb.

Ltac bin := try done; intros; cbn [kind_eval bv_bin bv_nary bv_fold];
  rewrite ?decide_True by done; try done; eauto with bvbound.

Lemma bv_and : bvterm (mkNode2 BITVECTOR_AND a b) w (λ env, Z.land (fa env) (fb env)).
Proof using Ha Hb. apply (bvterm_bin _ Z.land); bin. Qed.
Lemma bv_or : bvterm (mkNode2 BITVECTOR_OR a b) w (λ env, Z.lor (fa env) (fb env)).
Proof using Ha Hb. apply (bvterm_bin _ Z.lor); bin. Qed.
Lemma bv_xor : bvterm (mkNode2 BITVECTOR_XOR a b) w (λ env, Z.lxor (fa env) (fb env)).
Proof using Ha Hb. apply (bvterm_bin _ Z.lxor); bin. Qed.
Lemma bv_add : bvterm (mkNode2 BITVECTOR_ADD a b) w (λ env, wrap w (fa env + fb env)).
Proof using Ha Hb. apply (bvterm_bin _ (λ x y, wrap w (x + y))); bin. Qed.
Lemma bv_mult : bvterm (mkNode2 BITVECTOR_MULT a b) w (λ env, wrap w (fa env * fb env)).
Proof using Ha Hb. apply (bvterm_bin _ (λ x y, wrap w (x * y))); bin. Qed.
Lemma bv_sub : bvterm (mkNode2 BITVECTOR_SUB a b) w (λ env, wrap w (fa env - fb env)).
Proof using Ha Hb. apply (bvterm_bin _ (λ x y, wrap w (x - y))); bin. Qed.
Lemma bv_udiv : bvterm (mkNode2 BITVECTOR_UDIV a b) w (λ env, udiv w (fa env) (fb env)).
Proof using Ha Hb. apply (bvterm_bin _ (udiv w)); bin. Qed.
Lemma bv_urem : bvterm (mkNode2 BITVECTOR_UREM a b) w (λ env, urem w (fa env) (fb env)).
Proof using Ha Hb. apply (bvterm_bin _ (urem w)); bin. Qed.
Lemma bv_sdiv : bvterm (mkNode2 BITVECTOR_SDIV a b) w (λ env, sdiv w (fa env) (fb env)).
Proof using Ha Hb. apply (bvterm_bin _ (sdiv w)); bin. Qed.
Lemma bv_srem : bvterm (mkNode2 BITVECTOR_SREM a b) w (λ env, srem w (fa env) (fb env)).
Proof using Ha Hb. apply (bvterm_bin _ (srem w)); bin. Qed.
Lemma bv_smod : bvterm (mkNode2 BITVECTOR_SMOD a b) w (λ env, smod w (fa env) (fb env)).
Proof using Ha Hb. apply (bvterm_bin _ (smod w)); bin. Qed.
Lemma bv_shl : bvterm (mkNode2 BITVECTOR_SHL a b) w (λ env, shl w (fa env) (fb env)).
Proof using Ha Hb. apply (bvterm_bin _ (shl w)); bin. Qed.
Lemma bv_lshr : bvterm (mkNode2 BITVECTOR_LSHR a b) w (λ env, lshr w (fa env) (fb env)).
Proof using Ha Hb. apply (bvterm_bin _ (lshr w)); bin. Qed.
Lemma bv_ashr : bvterm (mkNode2 BITVECTOR_ASHR a b) w (λ env, ashr w (fa env) (fb env)).
Proof using Ha Hb. apply (bvterm_bin _ (ashr w)); bin. Qed.
Lemma bv_nand : bvterm (mkNode2 BITVECTOR_NAND a b) w (λ env, 2 ^ w - 1 - Z.land (fa env) (fb env)).
Proof using Ha Hb. apply (bvterm_bin _ (λ x y, 2 ^ w - 1 - Z.land x y)); bin. pose proof (land_bound w x y). lia. Qed.
Lemma bv_nor : bvterm (mkNode2 BITVECTOR_NOR a b) w (λ env, 2 ^ w - 1 - Z.lor (fa env) (fb env)).
Proof using Ha Hb. apply (bvterm_bin _ (λ x y, 2 ^ w - 1 - Z.lor x y)); bin. pose proof (lor_bound w x y). lia. Qed.
Lemma bv_xnor : bvterm (mkNode2 BITVECTOR_XNOR a b) w (λ env, 2 ^ w - 1 - Z.lxor (fa env) (fb env)).
Proof using Ha Hb. apply (bvterm_bin _ (λ x y, 2 ^ w - 1 - Z.lxor x y)); bin. pose proof (lxor_bound w x y). lia. Qed.
Lemma bv_not : bvterm (mkNode1 BITVECTOR_NOT a) w (λ env, 2 ^ w - 1 - fa env).
Proof using Ha. apply (bvterm_un _ (λ x, 2 ^ w - 1 - x)); try done. intros. lia. Qed.
Lemma bv_neg : bvterm (mkNode1 BITVECTOR_NEG a) w (λ env, wrap w (- fa env)).
Proof using Ha. apply (bvterm_un _ (λ x, wrap w (- x))); try done. intros. by apply wrap_bound. Qed.
Lemma bv_rotl n : uint32 n = true → bvterm (mkNode1 (BITVECTOR_ROTATE_LEFT n) a) w (λ env, rotl n w (fa env)).
Proof using Ha. intros Hn. destruct Ha as (_&Hw&_). apply (bvterm_un _ (rotl n w)); try done. intros. apply rotl_bound; lia. Qed.
Lemma bv_rotr n : uint32 n = true → bvterm (mkNode1 (BITVECTOR_ROTATE_RIGHT n) a) w (λ env, rotr n w (fa env)).
Proof using Ha. intros Hn. destruct Ha as (_&Hw&_). apply (bvterm_un _ (rotr n w)); try done. intros. apply rotr_bound; lia. Qed.

Lemma bool_pred k p :
  arity_ok k 2 = true → payload_ok k = true → (∀ cs ts, computeType k cs ts = BitVectorPredicateTypeRule ts) →
  (∀ vs, kind_eval k vs = bv_pred p vs) → boolterm (mkNode2 k a b) (λ env, p w (fa env) (fb env)).
Proof using Ha Hb.
  intros Har Hp Hr Hk. apply (boolterm_pred _ (p w) _ _ w); try done. intros x y. rewrite Hk. cbn [bv_pred].
  by rewrite decide_True.
Qed.

Lemma bool_eq_bv : boolterm (mkNode2 EQUAL a b) (λ env, bool_decide (fa env = fb env)).
Proof using Ha Hb.
  destruct Ha as (Hta&Hw&Ea), Hb as (Htb&_&Eb). split.
  - apply (wt_node2 _ _ _ _ _ _ Hta Htb); [done..|]. apply equal_type.
  - intros env Hok. destruct (Ea env Hok) as [Ea' _], (Eb env Hok) as [Eb' _]. rewrite (eval_node2 _ _ _ _ _ _ Ea' Eb').
    cbn [kind_eval sort_of]. rewrite decide_True by done. do 2 f_equal. apply bool_decide_ext. split; congruence.
Qed.

Lemma bv_comp : bvterm (mkNode2 BITVECTOR_COMP a b) 1 (λ env, b2z (bool_decide (fa env = fb env))).
Proof using Ha Hb.
  destruct Ha as (Hta&Hw&Ea), Hb as (Htb&_&Eb). split_and!; [|done..|].
  - apply (wt_node2 _ _ _ _ _ _ Hta Htb); [done..|]. unfold computeType, BitVectorBVPredTypeRule. cbn. by rewrite comparable_refl.
  - intros env Hok. destruct (Ea env Hok) as [Ea' _], (Eb env Hok) as [Eb' _]. rewrite (eval_node2 _ _ _ _ _ _ Ea' Eb').
    cbn [kind_eval bv_pred]. rewrite decide_True by done. split; [done|]. case_bool_decide; simpl; lia.
Qed.

Lemma bv_ite c fc : boolterm c fc → bvterm (mkNode3 ITE c a b) w (λ env, if fc env then fa env else fb env).
Proof using Ha Hb.
  intros [Htc Ec]. destruct Ha as (Hta&Hw&Ea), Hb as (Htb&_&Eb). split_and!; [|lia..|].
  - apply (wt_node3 _ _ _ _ _ _ _ _ Htc Hta Htb); [done..|]. unfold computeType, IteTypeRule. cbn.
    unfold leastUpperBound. by rewrite unify_refl.
  - intros env Hok. destruct (Ea env Hok) as [Ea' ?], (Eb env Hok) as [Eb' ?].
    rewrite (eval_node3 _ _ _ _ _ _ _ _ (Ec env Hok) Ea' Eb'). cbn [kind_eval sort_of]. rewrite decide_True by done.
    by destruct (fc env).
Qed.

Lemma bv_extract h l :
  0 ≤ l ≤ h → h < w → bvterm (utils.mkExtract a h l) (h - l + 1) (λ env, wrap (h - l + 1) (fa env / 2 ^ l)).
Proof using Ha.
  intros Hl Hh. destruct Ha as (Hta&Hw&Ea). split_and!; [|lia..|].
  - unfold utils.mkExtract. apply (wt_node1 _ _ _ _ Hta); [done|cbn; unfold uint32; rewrite !bool_decide_true by lia; done|done|].
    cbn [computeType]. by rewrite extract_rule, decide_True by lia.
  - intros env Hok. destruct (Ea env Hok) as [Ea' ?]. unfold utils.mkExtract. rewrite (eval_node1 _ _ _ _ Ea').
    cbn [kind_eval]. rewrite decide_True by lia. split; [done|]. apply wrap_bound. lia.
Qed.

End instances.

Lemma bv_concat2 a b w w' fa fb :
  bvterm a w fa → bvterm b w' fb → w + w' ≤ max_uint32 →
  bvterm (utils.mkConcat a b) (w + w') (λ env, fa env * 2 ^ w' + fb env).
Proof.
  intros (Hta&Hw&Ea) (Htb&Hw'&Eb) Hm. unfold utils.mkConcat. split_and!; [|lia..|].
  - apply (wt_node2 _ _ _ _ _ _ Hta Htb); [done..|]. unfold computeType, BitVectorConcatTypeRule.
    rewrite concatLoop_bv by lia. rewrite decide_True, concatLoop_bv by lia. rewrite decide_True by lia. cbn. by rewrite Z.add_0_l.
  - intros env Hok. destruct (Ea env Hok) as [Ea' ?], (Eb env Hok) as [Eb' ?]. rewrite (eval_node2 _ _ _ _ _ _ Ea' Eb').
    cbn. split; [done|]. apply concat_bound; lia.
Qed.

(** A reduction to one bit. *)
Lemma bv_red k a w fa p :
  bvterm a w fa → arity_ok k 1 = true → payload_ok k = true →
  (∀ cs ts, computeType k cs ts = BitVectorRedTypeRule ts) → (∀ vs, kind_eval k vs = as_bit (bv_pred1 p vs)) →
  bvterm (mkNode1 k a) 1 (λ env, b2z (p w (fa env))).
Proof.
  intros (Hta&Hw&Ea) Har Hp Hr Hk. split_and!; [|done..|].
  - apply (wt_node1 _ _ _ _ Hta); [done..|]. by rewrite Hr.
  - intros env Hok. destruct (Ea env Hok) as [E _]. rewrite (eval_node1 _ _ _ _ E), Hk. split; [done|].
    destruct (p w (fa env)); simpl; lia.
Qed.

Lemma bv_zext n a w fa :
  bvterm a w fa → 0 ≤ n → n + w ≤ max_uint32 → bvterm (mkNode1 (BITVECTOR_ZERO_EXTEND n) a) (n + w) fa.
Proof.
  intros (Hta&Hw&Ea) Hn Hm. split_and!; [|lia..|].
  - apply (wt_node1 _ _ _ _ Hta); [done|cbn; unfold uint32; rewrite bool_decide_true by lia; done|done|].
    cbn [computeType]. by rewrite extend_rule, decide_True by lia.
  - intros env Hok. destruct (Ea env Hok) as [Ea' ?]. rewrite (eval_node1 _ _ _ _ Ea'). cbn [kind_eval].
    rewrite decide_True by done. split; [done|]. pose proof (pow2_le w (n + w)). lia.
Qed.

Lemma bv_sext n a w fa :
  bvterm a w fa → 0 ≤ n → n + w ≤ max_uint32 →
  bvterm (mkNode1 (BITVECTOR_SIGN_EXTEND n) a) (n + w) (λ env, wrap (n + w) (signed w (fa env))).
Proof.
  intros (Hta&Hw&Ea) Hn Hm. split_and!; [|lia..|].
  - apply (wt_node1 _ _ _ _ Hta); [done|cbn; unfold uint32; rewrite bool_decide_true by lia; done|done|].
    cbn [computeType]. by rewrite extend_rule, decide_True by lia.
  - intros env Hok. destruct (Ea env Hok) as [Ea' ?]. rewrite (eval_node1 _ _ _ _ Ea'). cbn [kind_eval].
    rewrite decide_True by done. split; [done|]. apply wrap_bound. lia.
Qed.

(** ** Booleans *)

Lemma bool_const b : boolterm (mkConstBool b) (λ _, b).
Proof. done. Qed.

Lemma bool_not a fa : boolterm a fa → boolterm (mkNode1 NOT a) (λ env, negb (fa env)).
Proof.
  intros [Hta Ea]. split; [by apply (wt_node1 _ _ _ _ Hta)|]. intros env Hok. by rewrite (eval_node1 _ _ _ _ (Ea env Hok)).
Qed.

Lemma bool_bin k f a b fa fb :
  arity_ok k 2 = true → payload_ok k = true → (∀ cs ts, computeType k cs ts = BooleanTypeRule ts) →
  (∀ x y, kind_eval k [VBool x; VBool y] = Some (VBool (f x y))) →
  boolterm a fa → boolterm b fb → boolterm (mkNode2 k a b) (λ env, f (fa env) (fb env)).
Proof.
  intros Har Hp Hr Hk [Hta Ea] [Htb Eb]. split; [apply (wt_node2 _ _ _ _ _ _ Hta Htb); [done..|]; by rewrite Hr|].
  intros env Hok. by rewrite (eval_node2 _ _ _ _ _ _ (Ea env Hok) (Eb env Hok)), Hk.
Qed.

Lemma bool_and a b fa fb : boolterm a fa → boolterm b fb → boolterm (mkNode2 AND a b) (λ env, fa env && fb env).
Proof. apply bool_bin; try done. intros [] []; done. Qed.
Lemma bool_or a b fa fb : boolterm a fa → boolterm b fb → boolterm (mkNode2 OR a b) (λ env, fa env || fb env).
Proof. apply bool_bin; try done. intros [] []; done. Qed.
Lemma bool_xor a b fa fb : boolterm a fa → boolterm b fb → boolterm (mkNode2 XOR a b) (λ env, xorb (fa env) (fb env)).
Proof. by apply bool_bin. Qed.

(** ** Constants *)
Section consts.
Context `{!Gmp, !GmpLaws}.

Lemma bv_constBV w v : 0 < w ≤ max_uint32 → 0 ≤ v < 2 ^ w → bvterm (mkConstBV (mkBitVector w v)) w (λ _, v).
Proof.
  intros Hw Hv. split_and!; [|lia..|by intros].
  assert (typeOf (mkConstBV (mkBitVector w v)) = Some (BITVECTOR_TYPE w)) as E.
  { cbn [typeOf]. unfold bv_ok, uint32. cbn [d_size d_value]. rewrite !bool_decide_true by lia. cbn.
    unfold BitVectorConstantTypeRule. cbn. by rewrite decide_False by lia. }
  split; [done|]. cbn [concrete]. by rewrite E.
Qed.

Lemma bv_const w v : 0 < w ≤ max_uint32 → 0 ≤ v < 2 ^ w → bvterm (utils.mkConst w v) w (λ _, v).
Proof. intros Hw Hv. unfold utils.mkConst. rewrite new_small by lia. by apply bv_constBV. Qed.

Lemma mkZero_ok w : 0 < w → utils.mkZero w = Some (utils.mkConst w 0).
Proof. intros Hw. unfold utils.mkZero. by rewrite bool_decide_true by lia. Qed.
Lemma mkOne_ok w : 0 < w → utils.mkOne w = Some (utils.mkConst w 1).
Proof. intros Hw. unfold utils.mkOne. by rewrite bool_decide_true by lia. Qed.

Lemma mkOnes_ok w : 0 < w ≤ max_uint32 → ∃ n, utils.mkOnes w = Some n ∧ bvterm n w (λ _, 2 ^ w - 1).
Proof.
  intros Hw. unfold utils.mkOnes. rewrite bool_decide_true by lia. cbn [assert mbind option_bind].
  rewrite mkOnes_spec by done. eexists. split; [done|]. apply bv_constBV; [done|]. pose proof (pow2_pos w). lia.
Qed.

Lemma mkMinSigned_ok w : 0 < w ≤ max_uint32 → ∃ n, utils.mkMinSigned w = Some n ∧ bvterm n w (λ _, 2 ^ (w - 1)).
Proof.
  intros Hw. unfold utils.mkMinSigned. rewrite bool_decide_true by lia. cbn [assert mbind option_bind].
  rewrite mkMinSigned_spec by done. eexists. split; [done|]. apply bv_constBV; [done|].
  pose proof (pow2_pos (w - 1)). pose proof (pow2_split w). lia.
Qed.

End consts.

Lemma bvterm_ext n w w' f g :
  bvterm n w f → w' = w → (∀ env, g env = f env) → bvterm n w' g.
Proof. intros (Ht&Hw&He) -> E. split_and!; [done|lia..|]. intros env Hok. rewrite E. by apply He. Qed.

(** ** Operators with any number of operands *)

Definition widthTerms (w : Z) : list Node → list (Env → Z) → Prop := Forall2 (λ n f, bvterm n w f).

Lemma mapM_eval_terms w ns fs env :
  widthTerms w ns fs → env_ok env → mapM (eval env) ns = Some ((λ f : Env → Z, VBV w (f env)) <$> fs).
Proof.
  intros HF Hok. induction HF as [|n f ns fs (_&_&Hn) _ IH]; [done|]. simpl.
  destruct (Hn env Hok) as [-> _]. simpl. by rewrite IH.
Qed.

Lemma fixedWidthLoop_same w k :
  fixedWidthLoop (BITVECTOR_TYPE w) (replicate k (BITVECTOR_TYPE w)) = Some (BITVECTOR_TYPE w).
Proof. induction k as [|k IH]; [done|]. cbn. unfold leastUpperBound. by rewrite unify_refl. Qed.

Lemma bv_fold_terms g w fs env : ∀ acc,
  bv_fold g w acc ((λ f : Env → Z, VBV w (f env)) <$> fs) = Some (VBV w (fold_left (λ x f, g x (f env)) fs acc)).
Proof.
  induction fs as [|f fs IH]; intros acc; cbn [fmap list_fmap bv_fold fold_left]; [done|]. rewrite decide_True by done. apply IH.
Qed.

(** The value of an operator applied from left to right. *)
Definition nary (g : Z → Z → Z) (fs : list (Env → Z)) (env : Env) : Z :=
  match fs with [] => 0 | f :: fs => fold_left (λ x f, g x (f env)) fs (f env) end.

Lemma bv_naryTerm k g w ns fs :
  (∀ n, arity_ok k n = atLeast 2 n) → payload_ok k = true →
  (∀ cs ts, computeType k cs ts = BitVectorFixedWidthTypeRule ts) → (∀ vs, kind_eval k vs = bv_nary g vs) →
  (∀ x y, 0 ≤ w → 0 ≤ x < 2 ^ w → 0 ≤ y < 2 ^ w → 0 ≤ g w x y < 2 ^ w) →
  widthTerms w ns fs → (2 ≤ length ns)%nat → Z.of_nat (length ns) ≤ MAX_CHILDREN →
  bvterm (mkNode k ns) w (nary (g w) fs).
Proof.
  intros Har Hp Hr Hk Hg HF Hl Hm.
  assert (Forall2 wt ns (replicate (length ns) (BITVECTOR_TYPE w))) as HT.
  { clear Hl Hm. induction HF as [|n f ns fs (Hn&_) _ IH]; cbn [length replicate]; by constructor. }
  assert (0 < w ≤ max_uint32) as Hw by (destruct HF as [|? ? ? ? (_&?&_)]; [simpl in Hl; lia|done]).
  split_and!; [|lia..|].
  - eapply wt_node; [exact HT| |done|done|]; [rewrite Har; unfold atLeast; by rewrite bool_decide_true by lia|].
    rewrite Hr. destruct ns as [|n ns]; [simpl in Hl; lia|]. cbn [length replicate BitVectorFixedWidthTypeRule].
    cbn [checkMaybeBitVector isMaybeBitVector assert mbind option_bind]. by rewrite fixedWidthLoop_same.
  - intros env Hok. cbn [eval]. rewrite (mapM_eval_terms w ns fs env HF Hok). cbn [mbind option_bind]. rewrite Hk.
    inversion HF as [|n f ns' fs' Hn HF']; subst; [simpl in Hl; lia|]. inversion HF' as [|n2 f2 ns2 fs2 Hn2 HF2]; subst; [simpl in Hl; lia|].
    cbn [fmap list_fmap bv_nary]. split; [exact (bv_fold_terms (g w) w (f2 :: fs2) env (f env))|].
    cbn [nary]. destruct Hn as (_&_&Hn). destruct (Hn env Hok) as [_ Hb].
    clear - HF' Hok Hb Hg Hw. revert Hb. generalize (f env) as x. clear f. induction HF' as [|n3 f3 ns3 fs3 (_&_&Hn) _ IH]; intros x Hb; [done|].
    cbn [fold_left]. apply IH. destruct (Hn env Hok) as [_ ?]. apply Hg; lia.
Qed.

(** The operands of a typed application. *)
Lemma nary_terms k cs τ :
  (∀ n, arity_ok k n = atLeast 2 n) → (∀ ts, computeType k cs ts = BitVectorFixedWidthTypeRule ts) →
  wt (mkNode k cs) τ →
  ∃ w fs, τ = BITVECTOR_TYPE w ∧ widthTerms w cs fs ∧ (2 ≤ length cs)%nat ∧ Z.of_nat (length cs) ≤ MAX_CHILDREN.
Proof.
  intros Hk Hr [Ht Hc]. pose proof (typeOf_ok_gen _ _ Ht) as Hτok.
  destruct (node_inv k cs τ Ht Hc) as (Har&_&_&Hcs&ts&HM&Hτ&vs&HF&Hl).
  rewrite Hk in Har. unfold atLeast in Har. nofail. rewrite Hr in Hτ.
  destruct (fixedWidth_sound _ _ _ HF Hτ) as (w&->&Hw&Hbv). apply bool_decide_eq_true in Hτok.
  exists w, (bv_of <$> cs). split_and!; [done| |lia..].
  apply mapM_Some in HM. clear - HM HF Hbv Hcs Hτok. revert vs HF Hbv. induction HM as [|c t cs ts Hct HM IH]; intros vs HF Hbv; [constructor|].
  inversion HF as [|v ? vs' ? [Hv _] HF']; subst. inversion Hbv as [|? ? (z&->&_) Hbv']; subst.
  cbn [forallb] in Hcs. apply andb_true_iff in Hcs as [Hcc Hcs]. cbn [fmap list_fmap].
  constructor; [|by eapply IH]. apply typed_bvterm; [done..|lia].
Qed.

(** ** Concatenations *)

(** A term with its width and value. *)
Record part := mkPart { pnode : Node; pwidth : Z; pval : Env → Z }.
Definition part_ok (p : part) : Prop := bvterm (pnode p) (pwidth p) (pval p).

Fixpoint cat_width (ps : list part) : Z := match ps with [] => 0 | p :: ps => pwidth p + cat_width ps end.
Fixpoint cat_val (ps : list part) (env : Env) : Z :=
  match ps with [] => 0 | p :: ps => pval p env * 2 ^ cat_width ps + cat_val ps env end.

Lemma cat_width_ge ps : Forall part_ok ps → Z.of_nat (length ps) ≤ cat_width ps.
Proof. induction 1 as [|p ps (_&Hw&_) _ IH]; cbn [length cat_width]; lia. Qed.

Lemma cat_width_app ps qs : cat_width (ps ++ qs) = cat_width ps + cat_width qs.
Proof. induction ps as [|p ps IH]; cbn [app cat_width]; lia. Qed.

Lemma cat_val_app ps qs env : Forall part_ok ps → Forall part_ok qs →
  cat_val (ps ++ qs) env = cat_val ps env * 2 ^ cat_width qs + cat_val qs env.
Proof.
  intros Hps Hqs. pose proof (cat_width_ge qs Hqs). induction Hps as [|p ps Hp Hps IH]; [done|]. cbn [app cat_val].
  pose proof (cat_width_ge ps Hps). rewrite IH, cat_width_app, pow2_add by lia. ring.
Qed.

Lemma cat_val_bound ps env : Forall part_ok ps → env_ok env → 0 ≤ cat_val ps env < 2 ^ cat_width ps.
Proof.
  intros Hps Hok. induction Hps as [|p ps (_&Hw&He) Hps IH]; [done|]. cbn [cat_val cat_width].
  pose proof (cat_width_ge ps Hps). destruct (He env Hok) as [_ Hb]. rewrite pow2_add by lia. nia.
Qed.

Lemma concatLoop_parts ps : ∀ s,
  Forall part_ok ps → 0 ≤ s → s + cat_width ps ≤ max_uint32 →
  concatLoop s false ((λ p, BITVECTOR_TYPE (pwidth p)) <$> ps) = Some (s + cat_width ps, false).
Proof.
  induction ps as [|p ps IH]; intros s HF Hs Hm; cbn [fmap list_fmap cat_width]; [cbn; do 2 f_equal; lia|].
  inversion HF as [|? ? Hp HF']; subst. cbn [cat_width] in Hm. pose proof (cat_width_ge ps HF'). pose proof Hp as (_&?&_).
  rewrite concatLoop_bv, decide_True by lia. rewrite IH by (done || lia). do 2 f_equal. lia.
Qed.

Lemma concat_fold_parts ps env : ∀ w acc, Forall part_ok ps → 
  concat_fold w acc ((λ p, VBV (pwidth p) (pval p env)) <$> ps) =
    Some (VBV (w + cat_width ps) (acc * 2 ^ cat_width ps + cat_val ps env)).
Proof.
  induction ps as [|p ps IH]; intros w acc HF; cbn [fmap list_fmap concat_fold cat_width cat_val].
  - do 2 f_equal; [lia|]. change (2 ^ 0) with 1. lia.
  - inversion HF as [|? ? (_&Hw&_) HF']; subst. rewrite IH by done. pose proof (cat_width_ge ps HF').
    rewrite pow2_add by lia. f_equal. f_equal; [lia|ring].
Qed.

Lemma bv_concatN ps :
  Forall part_ok ps → (2 ≤ length ps)%nat → Z.of_nat (length ps) ≤ MAX_CHILDREN → cat_width ps ≤ max_uint32 →
  bvterm (mkNode BITVECTOR_CONCAT (pnode <$> ps)) (cat_width ps) (cat_val ps).
Proof.
  intros HF Hl Hm Hw. pose proof (cat_width_ge ps HF). split_and!; [|lia..|].
  - apply (wt_node _ _ ((λ p, BITVECTOR_TYPE (pwidth p)) <$> ps)); [|rewrite length_fmap|done|done|].
    + clear - HF. induction HF as [|p ps (Hp&_) _ IH]; cbn [fmap list_fmap]; by constructor.
    + cbn [arity_ok]. unfold atLeast. by rewrite bool_decide_true by lia.
    + cbn [computeType]. unfold BitVectorConcatTypeRule. rewrite concatLoop_parts by (done || lia). cbn. by rewrite Z.add_0_l.
  - intros env Hok. split; [|by apply cat_val_bound]. cbn [eval].
    assert (mapM (eval env) (pnode <$> ps) = Some ((λ p, VBV (pwidth p) (pval p env)) <$> ps)) as ->.
    { clear - HF Hok. induction HF as [|p ps (_&_&Hp) _ IH]; [done|]. cbn [fmap list_fmap mapM].
      destruct (Hp env Hok) as [-> _]. cbn [mbind option_bind]. by rewrite IH. }
    cbn [mbind option_bind kind_eval]. destruct ps as [|p [|q ps]]; [simpl in Hl; lia..|]. cbn [fmap list_fmap bv_concat].
    inversion HF; subst. exact (concat_fold_parts (q :: ps) env _ _ ltac:(done)).
Qed.

Lemma concat_parts cs : ∀ ts s r,
  mapM typeOf cs = Some ts → forallb concrete cs = true → (∃ vs, Forall2 has_type vs ts) →
  concatLoop s false ts = Some r → 0 ≤ s ≤ max_uint32 →
  ∃ ps, cs = pnode <$> ps ∧ Forall part_ok ps ∧ r = (s + cat_width ps, false) ∧ s + cat_width ps ≤ max_uint32.
Proof.
  induction cs as [|c cs IH]; intros ts s r HM Hcs [vs HF] Hl Hs.
  - simpl in HM. injection HM as <-. simpl in Hl. injection Hl as <-. exists []. split_and!; [done|constructor|cbn; f_equal; lia|cbn; lia].
  - cbn [mapM] in HM. apply bind_Some in HM as (t&Ht&HM). apply bind_Some in HM as (ts'&HM&Hts). injection Hts as <-.
    cbn [forallb] in Hcs. apply andb_true_iff in Hcs as [Hc Hcs]. inversion HF as [|v ? vs' ? Hv HF']; subst.
    assert (checkMaybeBitVector t = true) as Hm by (cbn [concatLoop] in Hl; by apply bind_Some in Hl as ([]&Hm%assert_Some&_)).
    destruct (checkMaybe_bv v t Hv Hm) as (w&->&Hw&_). pose proof (type_ok_bv _ (typeOf_ok_gen _ _ Ht)).
    rewrite concatLoop_bv in Hl by lia. case_decide; [|done].
    destruct (IH ts' (s + w) r HM Hcs ltac:(by eexists) Hl) as (ps&->&HP&->&Hsum); [lia|].
    exists (mkPart c w (bv_of c) :: ps). split_and!; [done| |cbn; f_equal; lia|cbn; lia].
    constructor; [|done]. apply typed_bvterm; [done..|]. pose proof (cat_width_ge ps HP). cbn [pwidth]. lia.
Qed.

Lemma concat_terms cs τ :
  wt (mkNode BITVECTOR_CONCAT cs) τ →
  ∃ ps, cs = pnode <$> ps ∧ Forall part_ok ps ∧ τ = BITVECTOR_TYPE (cat_width ps) ∧
    (2 ≤ length ps)%nat ∧ Z.of_nat (length ps) ≤ MAX_CHILDREN ∧ cat_width ps ≤ max_uint32.
Proof.
  intros [Ht Hc]. destruct (node_inv _ cs τ Ht Hc) as (Har&_&_&Hcs&ts&HM&Hτ&vs&HF&_). cbn [arity_ok] in Har.
  unfold atLeast in Har. nofail. cbn [computeType] in Hτ. unfold BitVectorConcatTypeRule in Hτ.
  apply bind_Some in Hτ as (r&Hl&Hτ). destruct (concat_parts cs ts 0 r) as (ps&->&HP&->&Hsum); try done; [by eexists|].
  rewrite length_fmap in *. cbn in Hτ. exists ps. split_and!; try done; [|lia..]. by injection Hτ as <-.
Qed.

(** [utils::mkConcat] of a list. *)
Lemma mkConcatList_term ps :
  Forall part_ok ps → (1 ≤ length ps)%nat → Z.of_nat (length ps) ≤ MAX_CHILDREN → cat_width ps ≤ max_uint32 →
  ∃ n, utils.mkConcatList (pnode <$> ps) = Some n ∧ bvterm n (cat_width ps) (cat_val ps).
Proof.
  intros HF Hl Hm Hw. unfold utils.mkConcatList. rewrite length_fmap. case_decide.
  - eexists. split; [done|]. by apply bv_concatN.
  - destruct ps as [|p []]; [simpl in Hl; lia| |simpl in *; lia]. exists (pnode p). split; [done|].
    inversion HF as [|? ? Hp]; subst. eapply bvterm_ext; [exact Hp|cbn; lia|]. intros env. cbn. change (2 ^ 0) with 1. lia.
Qed.

(** ** Repetition *)

Lemma repeat_value_S k w x : 0 ≤ w → x + 2 ^ w * repeat_value k w x = x * 2 ^ (Z.of_nat k * w) + repeat_value k w x.
Proof.
  intros Hw. induction k as [|k IH]; cbn [repeat_value]; [change (Z.of_nat 0 * w) with 0; rewrite Z.pow_0_r; lia|].
  replace (Z.of_nat (S k) * w) with (w + Z.of_nat k * w) by lia. rewrite pow2_add by lia.
  trans (x + 2 ^ w * (x * 2 ^ (Z.of_nat k * w) + repeat_value k w x)); [by rewrite <- IH|ring].
Qed.

Lemma cat_replicate a w fa k env :
  0 ≤ w → cat_width (replicate k (mkPart a w fa)) = Z.of_nat k * w ∧
  cat_val (replicate k (mkPart a w fa)) env = repeat_value k w (fa env).
Proof.
  intros Hw. induction k as [|k [IHw IHv]]; [done|]. cbn [replicate cat_width cat_val pwidth pval repeat_value].
  rewrite IHw, IHv, repeat_value_S by done. split; [lia|done].
Qed.

Lemma bv_repeat m a w fa :
  bvterm a w fa → 0 < m → m * w ≤ max_uint32 →
  bvterm (mkNode1 (BITVECTOR_REPEAT m) a) (m * w) (λ env, repeat_value (Z.to_nat m) w (fa env)).
Proof.
  intros (Hta&Hw&Ea) Hm Hb. assert (m ≤ max_uint32) by nia. split_and!; [|nia..|].
  - apply (wt_node1 _ _ _ _ Hta); [done|cbn; unfold uint32; rewrite bool_decide_true by lia; done|done|].
    cbn [computeType]. by rewrite repeat_rule, decide_True by lia.
  - intros env Hok. destruct (Ea env Hok) as [Ea' ?]. rewrite (eval_node1 _ _ _ _ Ea'). cbn [kind_eval].
    rewrite decide_True by done. split; [done|]. pose proof (repeat_value_bound (Z.to_nat m) w (fa env)) as Hr.
    rewrite Z2Nat.id in Hr by lia. apply Hr; lia.
Qed.

(** A single bit of a term, as a bit-vector of width one. *)
Lemma bv_bit a w fa i :
  bvterm a w fa → 0 ≤ i < w → bvterm (utils.mkExtract a i i) 1 (λ env, b2z (Z.testbit (fa env) i)).
Proof.
  intros Ha Hi. eapply bvterm_ext; [by apply (bv_extract _ _ _ Ha i i); lia|lia|]. intros env. cbv beta.
  replace (i - i + 1) with 1 by lia. unfold wrap. rewrite Z.testbit_eqb by lia. change (2 ^ 1) with 2.
  pose proof (Z.mod_pos_bound (fa env / 2 ^ i) 2). destruct (Z.eqb_spec ((fa env / 2 ^ i) mod 2) 1); simpl; lia.
Qed.

(** The sign test [extract(size-1,size-1) = 1] (or [= 0]) of the code. *)
Section sign.
Context `{!Gmp, !GmpLaws}.

Lemma b2z_eq_1 b : bool_decide (b2z b = 1) = b.
Proof. by destruct b. Qed.
Lemma b2z_eq_0 b : bool_decide (b2z b = 0) = negb b.
Proof. by destruct b. Qed.

Lemma bool_sign a w fa :
  bvterm a w fa →
  boolterm (mkNode2 EQUAL (utils.mkExtract a (w - 1) (w - 1)) (utils.mkConst 1 1)) (λ env, Z.testbit (fa env) (w - 1)).
Proof.
  intros Ha. pose proof Ha as (_&Hw&_). pose proof (bv_bit a w fa (w - 1) Ha ltac:(lia)) as Hb.
  destruct (bool_eq_bv _ _ _ _ _ Hb (bv_const 1 1 ltac:(done) ltac:(done))) as [Ht He]. split; [done|].
  intros env Hok. by rewrite He, b2z_eq_1.
Qed.

Lemma bool_nosign a w fa :
  bvterm a w fa →
  boolterm (mkNode2 EQUAL (utils.mkExtract a (w - 1) (w - 1)) (utils.mkConst 1 0)) (λ env, negb (Z.testbit (fa env) (w - 1))).
Proof.
  intros Ha. pose proof Ha as (_&Hw&_). pose proof (bv_bit a w fa (w - 1) Ha ltac:(lia)) as Hb.
  destruct (bool_eq_bv _ _ _ _ _ Hb (bv_const 1 0 ltac:(done) ltac:(done))) as [Ht He]. split; [done|].
  intros env Hok. by rewrite He, b2z_eq_0.
Qed.

End sign.

(** ** The operands of typed terms *)

Lemma wt_bvterm n w : wt n (BITVECTOR_TYPE w) → bvterm n w (bv_of n).
Proof.
  intros [Ht Hc]. pose proof (typeOf_ok_gen _ _ Ht) as Hok. apply bool_decide_eq_true in Hok.
  apply typed_bvterm; [done..|lia].
Qed.

(** The width and the value of a term are unique. *)
Lemma bvterm_det n w f w' f' : bvterm n w f → bvterm n w' f' → w = w' ∧ ∀ env, env_ok env → f env = f' env.
Proof.
  intros ([Ht _]&_&He) ([Ht' _]&_&He'). split; [congruence|]. intros env Hok.
  destruct (He env Hok) as [E _], (He' env Hok) as [E' _]. congruence.
Qed.

Lemma getSize_term n w f : bvterm n w f → getSize n = Some w.
Proof. intros ([Ht _]&_). unfold getSize. by rewrite Ht. Qed.

Lemma fixed2_terms k cs τ :
  (∀ n, arity_ok k n = bool_decide (n = 2%nat)) → (∀ ts, computeType k cs ts = BitVectorFixedWidthTypeRule ts) →
  wt (mkNode k cs) τ → ∃ a b w, cs = [a; b] ∧ τ = BITVECTOR_TYPE w ∧ bvterm a w (bv_of a) ∧ bvterm b w (bv_of b).
Proof.
  intros Hk Hr [Ht Hc]. destruct (fixed2_inv k cs τ Hk Hr Ht Hc) as (a&b&w&->&->&_&Hta&Htb&Hca&Hcb).
  exists a, b, w. split_and!; [done..| |]; by apply wt_bvterm.
Qed.

Lemma fixed1_terms k cs τ :
  (∀ n, arity_ok k n = bool_decide (n = 1%nat)) → (∀ ts, computeType k cs ts = BitVectorFixedWidthTypeRule ts) →
  wt (mkNode k cs) τ → ∃ a w, cs = [a] ∧ τ = BITVECTOR_TYPE w ∧ bvterm a w (bv_of a).
Proof.
  intros Hk Hr [Ht Hc]. destruct (fixed1_inv k cs τ Hk Hr Ht Hc) as (a&w&->&->&_&Hta&Hca).
  exists a, w. split_and!; [done..|]. by apply wt_bvterm.
Qed.

Lemma pred2_terms k cs τ :
  (∀ n, arity_ok k n = bool_decide (n = 2%nat)) → (∀ ts, computeType k cs ts = BitVectorPredicateTypeRule ts) →
  wt (mkNode k cs) τ → ∃ a b w, cs = [a; b] ∧ τ = BOOLEAN_TYPE ∧ bvterm a w (bv_of a) ∧ bvterm b w (bv_of b).
Proof.
  intros Hk Hr [Ht Hc]. destruct (pred2_inv k cs τ Hk Hr Ht Hc) as (a&b&w&->&->&_&Hta&Htb&Hca&Hcb).
  exists a, b, w. split_and!; [done..| |]; by apply wt_bvterm.
Qed.

Lemma extract_terms h l cs τ :
  wt (mkNode (BITVECTOR_EXTRACT h l) cs) τ →
  ∃ a w, cs = [a] ∧ bvterm a w (bv_of a) ∧ 0 ≤ l ≤ h ∧ h < w ∧ τ = BITVECTOR_TYPE (h - l + 1).
Proof.
  intros [Ht Hc]. destruct (one_inv (BITVECTOR_EXTRACT h l) cs τ) as (a&w&->&Hw&Hta&Hca&Hp&Hτ); [done| |done|done|].
  { intros ts. cbn [computeType]. unfold BitVectorExtractTypeRule. case_decide; [done|]. intros E. nofail. eauto. }
  exists a, w. cbn [payload_ok computeType] in Hp, Hτ. unfold uint32 in Hp. nofail. pose proof (type_ok_bv _ (typeOf_ok_gen _ _ Hta)).
  rewrite extract_rule in Hτ by lia. case_decide; [|done]. split_and!; try done; try lia; try congruence. by apply wt_bvterm.
Qed.

Lemma extend_terms k n cs τ :
  k = BITVECTOR_SIGN_EXTEND n ∨ k = BITVECTOR_ZERO_EXTEND n → wt (mkNode k cs) τ →
  ∃ a w, cs = [a] ∧ bvterm a w (bv_of a) ∧ 0 ≤ n ∧ n + w ≤ max_uint32 ∧ τ = BITVECTOR_TYPE (n + w).
Proof.
  intros Hk [Ht Hc]. assert (∀ ts, computeType k cs ts = BitVectorExtendTypeRule n ts) as Hr by (by destruct Hk as [->| ->]).
  destruct (one_inv k cs τ) as (a&w&->&Hw&Hta&Hca&Hp&Hτ); [by destruct Hk as [->| ->]| |done|done|].
  { intros ts. rewrite Hr. unfold BitVectorExtendTypeRule. intros E. nofail. eauto. }
  assert (uint32 n = true) as Hn by (by destruct Hk as [->| ->]). rewrite Hr in Hτ. unfold uint32 in Hn. nofail.
  pose proof (type_ok_bv _ (typeOf_ok_gen _ _ Hta)). rewrite extend_rule in Hτ by lia. case_decide; [|done].
  exists a, w. split_and!; try done; try lia; [by apply wt_bvterm|]. simplify_eq. f_equal; lia.
Qed.

(** Equality of two terms of one type. *)
Lemma equal_terms cs τ :
  wt (mkNode EQUAL cs) τ → ∃ a b t, cs = [a; b] ∧ τ = BOOLEAN_TYPE ∧ wt a t ∧ wt b t.
Proof.
  intros [Ht Hc]. destruct (node_inv _ cs τ Ht Hc) as (Har&_&_&Hcs&ts&HM&Hτ&vs&HF&Hl). cbn [arity_ok] in Har. nofail.
  destruct cs as [|a [|b []]]; try done. cbn in HM.
  destruct (typeOf a) as [ta|] eqn:Ea; [|done]. destruct (typeOf b) as [tb|] eqn:Eb; [|done]. cbn in HM. injection HM as <-.
  inversion HF as [|va ? ? ? Hva HF1]; subst. inversion HF1 as [|vb ? ? ? Hvb _]; subst.
  cbn [computeType EqualityTypeRule lookup list_lookup mbind option_bind] in Hτ. nofail.
  match goal with H : isComparableTo _ _ = true |- _ => apply (comparable_concrete va vb) in H; [|done..] end.
  simplify_eq. exists a, b, tb. by split_and!.
Qed.

(** The value of a typed term. *)
Lemma wt_eval n τ env : wt n τ → env_ok env → ∃ v, eval env n = Some v ∧ sort_of v = τ.
Proof. intros [Ht Hc] Hok. destruct (type_sound_gen env n τ Ht Hc Hok) as (v&Hv&Hs&_). by exists v. Qed.

Lemma wt_equal a b t : wt a t → wt b t → wt (mkNode2 EQUAL a b) BOOLEAN_TYPE.
Proof. intros Ha Hb. apply (wt_node2 _ _ _ _ _ _ Ha Hb); [done..|]. apply equal_type. Qed.

Lemma eval_equal env a b va vb :
  eval env a = Some va → eval env b = Some vb → sort_of va = sort_of vb →
  eval env (mkNode2 EQUAL a b) = Some (VBool (bool_decide (va = vb))).
Proof. intros Ea Eb Hs. rewrite (eval_node2 _ _ _ _ _ _ Ea Eb). cbn [kind_eval]. by rewrite decide_True. Qed.

(** ** Rules *)

(** A bit-vector of this type can be split into bits that are the children of
    one node. *)
Definition tsmall (τ : TypeNode) : Prop := match τ with BITVECTOR_TYPE w => w ≤ MAX_CHILDREN | _ => True end.

(** A rule that applies to a typed term returns, and what it returns can stand
    for the term. *)
Definition rule_ok (r : RewriteRule) : Prop :=
  ∀ n τ, wt n τ → tsmall τ → applies r n = true → ∃ n', apply r n = Some n' ∧ equiv n n'.

Lemma isKind_eq k n : isKind k n = true → ∃ cs, n = mkNode k cs.
Proof. destruct n; try done. simpl. intros ->%bool_decide_eq_true. by eexists. Qed.

Lemma equiv_refl n τ : wt n τ → equiv n n.
Proof. intros [_ Hc]. by split_and!. Qed.

Lemma equiv_trans n n' n'' : equiv n n' → equiv n' n'' → equiv n n''.
Proof.
  intros (Ht&Hc&He) (Ht'&Hc'&He'). split_and!; [congruence|done|]. intros env Hok. by rewrite He', He.
Qed.

Lemma equiv_wt n n' τ : wt n τ → equiv n n' → wt n' τ.
Proof. intros [Ht _] (Ht'&Hc'&_). split; [congruence|done]. Qed.

Lemma children_wt cs ts : mapM typeOf cs = Some ts → forallb concrete cs = true → Forall2 wt cs ts.
Proof.
  intros HM%mapM_Some Hc. rewrite forallb_forall in Hc. induction HM as [|c t cs ts Ht _ IH]; constructor.
  - split; [done|]. apply Hc. by left.
  - apply IH. intros x Hx. apply Hc. by right.
Qed.

(** ** Integers *)

Definition int_of (n : Node) (env : Env) : Z := match eval env n with Some (VInt z) => z | _ => 0 end.
Definition intterm (n : Node) (f : Env → Z) : Prop := wt n INTEGER_TYPE ∧ ∀ env, env_ok env → eval env n = Some (VInt (f env)).

Lemma wt_intterm n : wt n INTEGER_TYPE → intterm n (int_of n).
Proof. intros Hn. split; [done|]. intros env Hok. unfold int_of. destruct (wt_eval n _ env Hn Hok) as (v&->&Hs). by destruct v. Qed.

Lemma equiv_int n n' f f' : intterm n f → intterm n' f' → (∀ env, env_ok env → f' env = f env) → equiv n n'.
Proof. intros ([Ht _]&He) ([Ht' Hc']&He') Hf. split_and!; [congruence|done|]. intros env Hok. by rewrite He, He', Hf. Qed.

Lemma int_const z : intterm (mkConstInt z) (λ _, z).
Proof. done. Qed.

Lemma int_ubv a w f : bvterm a w f → intterm (mkNode1 BITVECTOR_UBV_TO_INT a) f.
Proof.
  intros (Ht&_&He). split; [by apply (wt_node1 _ _ _ _ Ht)|]. intros env Hok. destruct (He env Hok) as [E _]. by rewrite (eval_node1 _ _ _ _ E).
Qed.

Lemma int_sbv a w f : bvterm a w f → intterm (mkNode1 BITVECTOR_SBV_TO_INT a) (λ env, signed w (f env)).
Proof.
  intros (Ht&_&He). split; [by apply (wt_node1 _ _ _ _ Ht)|]. intros env Hok. destruct (He env Hok) as [E _]. by rewrite (eval_node1 _ _ _ _ E).
Qed.

Lemma int_binary k g a b fa fb : arity_ok k 2 = true → payload_ok k = true → computeType k [a; b] [INTEGER_TYPE; INTEGER_TYPE] = Some INTEGER_TYPE →
  (∀ vs, kind_eval k vs = int_bin g vs) → intterm a fa → intterm b fb → intterm (mkNode2 k a b) (λ env, g (fa env) (fb env)).
Proof.
  intros Har Hp Ht Hk [Ha Hae] [Hb Hbe]. split; [by apply (wt_node2 _ _ _ _ _ _ Ha Hb)|]. intros env Hok.
  by rewrite (eval_node2 _ _ _ _ _ _ (Hae env Hok) (Hbe env Hok)), Hk.
Qed.

Lemma bv_of_int w a f : 0 < w ≤ max_uint32 → intterm a f → bvterm (mkNode1 (INT_TO_BITVECTOR w) a) w (λ env, wrap w (f env)).
Proof.
  intros Hw [Ht He]. split_and!; [|lia..|].
  - apply (wt_node1 _ _ _ _ Ht); [done|cbn; unfold uint32; by rewrite bool_decide_true by lia|done|].
    cbn [computeType]. unfold IntToBitVectorTypeRule. by rewrite bool_decide_false by lia.
  - intros env Hok. rewrite (eval_node1 _ _ _ _ (He env Hok)). split; [done|]. apply wrap_bound. lia.
Qed.

Lemma int_to_bv_operand w cs τ : wt (mkNode (INT_TO_BITVECTOR w) cs) τ → ∃ a, cs = [a] ∧ τ = BITVECTOR_TYPE w ∧ 0 < w ≤ max_uint32 ∧ wt a INTEGER_TYPE.
Proof.
  intros [Ht Hc]. destruct (node_inv _ cs τ Ht Hc) as (Hl%bool_decide_eq_true&Hp&_&Hcs&ts&HM&Hτ&vs&HF&_). apply children_wt in HM; [|done]. cbn in Hp. unfold uint32 in Hp. apply bool_decide_eq_true in Hp.
  destruct cs as [|a []]; try done. inversion HM as [|? t ? ? Hat HM']; subst. inversion HM'; subst. inversion HF as [|v ? ? ? Hv HF']; subst.
  cbn [computeType] in Hτ. unfold IntToBitVectorTypeRule in Hτ. apply bind_Some in Hτ as (_&Hz%assert_Some&Hτ). apply negb_true_iff, bool_decide_eq_false in Hz.
  cbn in Hτ. apply bind_Some in Hτ as (_&Hb%assert_Some&[= <-]). destruct (int_value v t Hv Hb) as (_&_&->). exists a. split_and!; try done; lia.
Qed.
