(* ===== verification/BvElimArith.v ===== *)
(** The arithmetic behind the elimination rules: signed division and remainders
    by unsigned ones, rotations by extraction, and overflow detection. *)
From stdpp Require Import base option list numbers.
From S2P Require Import Prelude Node TypeRules Semantics BvArith.
Open Scope Z_scope.

Lemma sign_spec w a : 0 < w → 0 ≤ a < 2 ^ w → Z.testbit a (w - 1) = bool_decide (signed w a < 0).
Proof.
  intros Hw Ha. rewrite msb_spec by done. apply bool_decide_ext. symmetry. by apply signed_neg.
Qed.

(** [ite (sign a) (bvneg a) a]. *)
Lemma abs_spec w a :
  0 < w → 0 ≤ a < 2 ^ w → (if Z.testbit a (w - 1) then wrap w (- a) else a) = Z.abs (signed w a).
Proof.
  intros Hw Ha. rewrite msb_spec by done. pose proof (pow2_split w Hw). pose proof (pow2_pos (w - 1)).
  unfold signed. case_bool_decide; case_decide; try lia. rewrite (wrap_eq _ _ (2 ^ w - a) (-1)); lia.
Qed.

Lemma signed_abs_bound w a : 0 < w → 0 ≤ a < 2 ^ w → 0 ≤ Z.abs (signed w a) ≤ 2 ^ (w - 1).
Proof. intros Hw Ha. pose proof (signed_range w a Hw Ha). lia. Qed.

Lemma signed_0 w a : 0 < w → 0 ≤ a < 2 ^ w → (signed w a = 0 ↔ a = 0).
Proof.
  intros Hw Ha. pose proof (pow2_pos (w - 1)). unfold signed. case_decide; lia.
Qed.

Lemma rem_abs_r s t : t ≠ 0 → Z.rem s (Z.abs t) = Z.rem s t.
Proof. intros Ht. destruct (Z.abs_eq_or_opp t) as [-> | ->]; [done|]. by rewrite Z.rem_opp_r. Qed.

Section divmod.
Context (w a b : Z) (Hw : 0 < w) (Ha : 0 ≤ a < 2 ^ w) (Hb : 0 ≤ b < 2 ^ w).
Let s := signed w a.
Let t := signed w b.

Lemma sdiv_code :
  (if xorb (Z.testbit a (w - 1)) (Z.testbit b (w - 1)) then wrap w (- udiv w (Z.abs s) (Z.abs t))
   else udiv w (Z.abs s) (Z.abs t)) = sdiv w a b.
Proof using All.
  unfold sdiv. rewrite !sign_spec by done. fold s t.
  pose proof (signed_0 w b Hw Hb) as Ht0. fold t in Ht0. pose proof (pow2_pos w).
  pose proof (udiv_bound w (Z.abs s) (Z.abs t)). pose proof (signed_abs_bound w a Hw Ha). fold s in H1.
  pose proof (pow2_split w Hw). unfold udiv in *. destruct (decide (b = 0)) as [Hb0|Hb0].
  - rewrite decide_True by lia. rewrite (bool_decide_false (t < 0)) by lia. rewrite xorb_false_r.
    case_bool_decide.
    + rewrite decide_True by lia. apply (wrap_congr _ _ _ (-1)); lia.
    + rewrite decide_False by lia. symmetry. apply (wrap_eq _ _ _ (-1)); lia.
  - rewrite decide_False in * by lia.
    assert (Z.quot s t = if xorb (bool_decide (s < 0)) (bool_decide (t < 0)) then - (Z.abs s / Z.abs t) else Z.abs s / Z.abs t) as ->.
    { rewrite <- Z.quot_div_nonneg by lia. repeat case_bool_decide; simpl.
      - rewrite !Z.abs_neq by lia. by rewrite Z.quot_opp_opp by lia.
      - rewrite (Z.abs_neq s), (Z.abs_eq t), Z.quot_opp_l by lia. lia.
      - rewrite (Z.abs_eq s), (Z.abs_neq t), Z.quot_opp_r by lia. lia.
      - by rewrite !Z.abs_eq by lia. }
    destruct (xorb _ _); [done|]. symmetry. apply wrap_small. lia.
Qed.

Lemma srem_code :
  (if Z.testbit a (w - 1) then wrap w (- urem w (Z.abs s) (Z.abs t)) else urem w (Z.abs s) (Z.abs t)) = srem w a b.
Proof using All.
  unfold srem. rewrite !sign_spec by done. fold s t.
  pose proof (signed_0 w b Hw Hb) as Ht0. fold t in Ht0. pose proof (pow2_pos w).
  pose proof (signed_abs_bound w a Hw Ha) as Hs. fold s in Hs. pose proof (pow2_split w Hw). unfold urem.
  destruct (decide (b = 0)) as [Hb0|Hb0].
  - rewrite decide_True by lia. case_bool_decide; [f_equal; lia|]. rewrite wrap_small; lia.
  - rewrite decide_False by lia. pose proof (Z.mod_pos_bound (Z.abs s) (Z.abs t)).
    assert (Z.abs s mod Z.abs t ≤ Z.abs s) by (apply Z.mod_le; lia).
    rewrite <- Z.rem_mod_nonneg in * by lia. case_bool_decide.
    + f_equal. rewrite (Z.abs_neq s), Z.rem_opp_l, Z.opp_involutive, rem_abs_r by lia. done.
    + rewrite (Z.abs_eq s), rem_abs_r in * by lia. symmetry. apply wrap_small. lia.
Qed.

(** The cascade of conditions of [SmodEliminate]. *)
Lemma smod_code :
  let u := urem w (Z.abs s) (Z.abs t) in
  (if bool_decide (u = 0) then u
   else if negb (Z.testbit a (w - 1)) && negb (Z.testbit b (w - 1)) then u
   else if Z.testbit a (w - 1) && negb (Z.testbit b (w - 1)) then wrap w (wrap w (- u) + b)
   else if negb (Z.testbit a (w - 1)) && Z.testbit b (w - 1) then wrap w (u + b)
   else wrap w (- u)) = smod w a b.
Proof using All.
  unfold smod. rewrite !sign_spec by done. fold s t.
  pose proof (signed_0 w b Hw Hb) as Ht0. fold t in Ht0. pose proof (pow2_pos w).
  pose proof (signed_abs_bound w a Hw Ha) as Hs. fold s in Hs.
  pose proof (signed_abs_bound w b Hw Hb) as Ht. fold t in Ht. pose proof (pow2_split w Hw). unfold urem.
  assert (b = t ∨ b = t + 2 ^ w) as Hbt by (unfold t, signed; case_decide; lia).
  clearbody s t.
  assert (∀ x, wrap w (x + b) = wrap w (x + t)) as Hx.
  { intros x. destruct Hbt as [-> | ->]; [done|]. apply (wrap_congr _ _ _ 1); lia. }
  assert (∀ x, wrap w (wrap w x + b) = wrap w (x + t)) as Hx'.
  { intros x. rewrite Hx. unfold wrap. by rewrite Zplus_mod_idemp_l. }
  destruct (decide (b = 0)) as [Hb0|Hb0].
  - rewrite (decide_True (P := Z.abs t = 0)) by lia. rewrite Hx', Hx. assert (t = 0) as -> by lia. rewrite !Z.add_0_r.
    rewrite (bool_decide_false (0 < 0)) by lia. repeat case_bool_decide; simpl; try lia.
    + replace s with 0 by lia. replace (Z.abs 0) with 0 by lia. symmetry. apply wrap_small. lia.
    + f_equal. lia.
    + rewrite Z.abs_eq by lia. symmetry. apply wrap_small. lia.
  - rewrite (decide_False (P := Z.abs t = 0)) by lia. rewrite Hx', Hx.
    pose proof (Z.mod_pos_bound (Z.abs s) (Z.abs t)). pose proof (Z.div_mod (Z.abs s) (Z.abs t)) as Hdm.
    set (u := Z.abs s mod Z.abs t) in *. set (q := Z.abs s / Z.abs t) in *.
    assert (∀ r k, s = t * k + r → (0 ≤ r < t ∨ t < r ≤ 0) → s mod t = r) as Hmod.
    { intros r k E Hr. symmetry. apply (Z.mod_unique s t k r); lia. }
    case_bool_decide as Hu.
    { assert (s mod t = 0) as ->; [|by rewrite wrap_small by lia].
      apply Z.mod_divide; [lia|]. rewrite <- Z.divide_abs_l, <- Z.divide_abs_r. exists q. lia. }
    clearbody u q. destruct (Z.abs_spec s) as [[Hs' Es]|[Hs' Es]], (Z.abs_spec t) as [[Ht' Et]|[Ht' Et]];
      rewrite Es, Et in *; repeat case_bool_decide; try lia; simpl.
    + rewrite (Hmod u q) by lia. rewrite wrap_small by lia. done.
    + by rewrite (Hmod (u + t) (- q - 1)) by lia.
    + by rewrite (Hmod (- u + t) (- q - 1)) by lia.
    + by rewrite (Hmod (- u) q) by lia.
Qed.

End divmod.

(** ** Rotations *)

Lemma rotl_code w n a :
  0 < w → 0 ≤ a < 2 ^ w → 0 < n mod w →
  rotl n w a = wrap (w - n mod w) (a / 2 ^ 0) * 2 ^ (n mod w) + wrap (n mod w) (a / 2 ^ (w - n mod w)).
Proof.
  intros Hw Ha Hn. pose proof (Z.mod_pos_bound n w Hw). unfold rotl. rewrite split_mul_wrap by lia.
  rewrite Z.pow_0_r, Z.div_1_r. f_equal. symmetry. apply wrap_small. pose proof (pow2_pos (w - n mod w)).
  split; [apply Z.div_pos; lia|]. apply Z.div_lt_upper_bound; [lia|]. rewrite <- pow2_add by lia.
  replace (w - n mod w + n mod w) with w by lia. lia.
Qed.

Lemma rotr_code w n a :
  0 < w → 0 ≤ a < 2 ^ w → 0 < n mod w →
  rotr n w a = wrap (n mod w) (a / 2 ^ 0) * 2 ^ (w - n mod w) + wrap (w - n mod w) (a / 2 ^ (n mod w)).
Proof.
  intros Hw Ha Hn. pose proof (Z.mod_pos_bound n w Hw). unfold rotr. rewrite split_mul_wrap by lia.
  replace (w - (w - n mod w)) with (n mod w) by lia. rewrite Z.pow_0_r, Z.div_1_r, Z.add_comm. f_equal.
  symmetry. apply wrap_small. pose proof (pow2_pos (n mod w)).
  split; [apply Z.div_pos; lia|]. apply Z.div_lt_upper_bound; [lia|]. rewrite <- pow2_add by lia.
  replace (n mod w + (w - n mod w)) with w by lia. lia.
Qed.

Lemma rot_0 w n a : 0 < w → 0 ≤ a < 2 ^ w → n mod w = 0 → rotl n w a = a ∧ rotr n w a = a.
Proof.
  intros Hw Ha Hn. unfold rotl, rotr. rewrite Hn, Z.sub_0_r, Z.pow_0_r, Z.mul_1_r, Z.div_1_r.
  rewrite (Z.div_small a), (wrap_small w a), (wrap_eq w (a * 2 ^ w) 0 a) by lia. lia.
Qed.

(** ** Overflow *)

Lemma wrap_range w z : 0 ≤ w → - 2 ^ w ≤ z < 2 ^ w → wrap w z = if decide (z < 0) then z + 2 ^ w else z.
Proof.
  intros Hw Hz. case_decide; [|apply wrap_small; lia]. apply (wrap_eq _ _ _ (-1)); lia.
Qed.

Lemma wrap_signed_add w a b : 0 < w → wrap w (a + b) = wrap w (signed w a + signed w b).
Proof.
  intros Hw. unfold signed. repeat case_decide.
  - done.
  - apply (wrap_congr _ _ _ 1); lia.
  - apply (wrap_congr _ _ _ 1); lia.
  - apply (wrap_congr _ _ _ 2); lia.
Qed.

Lemma wrap_signed_sub w a b : 0 < w → wrap w (a - b) = wrap w (signed w a - signed w b).
Proof.
  intros Hw. unfold signed. repeat case_decide.
  - done.
  - apply (wrap_congr _ _ _ (-1)); lia.
  - apply (wrap_congr _ _ _ 1); lia.
  - apply (wrap_congr _ _ _ 0); lia.
Qed.

Section overflow.
Context (w a b : Z) (Hw : 0 < w) (Ha : 0 ≤ a < 2 ^ w) (Hb : 0 ≤ b < 2 ^ w).
Let s := signed w a.
Let t := signed w b.

Lemma uaddo_code : Z.testbit (wrap (1 + w) (a + b)) w = bool_decide (2 ^ w ≤ a + b).
Proof using All.
  rewrite wrap_small by (rewrite pow2_add by lia; lia).
  replace w with (1 + w - 1) at 1 by lia. rewrite msb_spec by (rewrite ?pow2_add by lia; lia).
  by replace (1 + w - 1) with w by lia.
Qed.

Lemma usubo_code : Z.testbit (wrap (1 + w) (a - b)) w = bool_decide (a - b < 0).
Proof using All.
  pose proof (pow2_add 1 w). replace w with (1 + w - 1) at 2 by lia. rewrite msb_spec by (lia || apply wrap_bound; lia).
  replace (1 + w - 1) with w by lia. rewrite wrap_range by lia. apply bool_decide_ext. case_decide; lia.
Qed.

Lemma saddo_code :
  (Z.testbit a (w - 1) && Z.testbit b (w - 1) && negb (Z.testbit (wrap w (a + b)) (w - 1)))
  || (negb (Z.testbit a (w - 1)) && negb (Z.testbit b (w - 1)) && Z.testbit (wrap w (a + b)) (w - 1))
  = negb (in_srange w (s + t)).
Proof using All.
  rewrite !(sign_spec _ a), !(sign_spec _ b), msb_spec by (lia || apply wrap_bound; lia). rewrite wrap_signed_add by done. fold s t.
  pose proof (signed_range w a Hw Ha) as Hs. pose proof (signed_range w b Hw Hb) as Ht. fold s in Hs. fold t in Ht.
  pose proof (pow2_split w Hw). rewrite wrap_range by lia. unfold in_srange. clearbody s t.
  case_decide; repeat case_bool_decide; simpl; (done || lia).
Qed.

Lemma ssubo_code :
  (Z.testbit a (w - 1) && negb (Z.testbit b (w - 1)) && negb (Z.testbit (wrap w (a - b)) (w - 1)))
  || (negb (Z.testbit a (w - 1)) && Z.testbit b (w - 1) && Z.testbit (wrap w (a - b)) (w - 1))
  = negb (in_srange w (s - t)).
Proof using All.
  rewrite !(sign_spec _ a), !(sign_spec _ b), msb_spec by (lia || apply wrap_bound; lia). rewrite wrap_signed_sub by done. fold s t.
  pose proof (signed_range w a Hw Ha) as Hs. pose proof (signed_range w b Hw Hb) as Ht. fold s in Hs. fold t in Ht.
  pose proof (pow2_split w Hw). rewrite wrap_range by lia. unfold in_srange. clearbody s t.
  case_decide; repeat case_bool_decide; simpl; (done || lia).
Qed.

Lemma nego_code : bool_decide (a = 2 ^ (w - 1)) = negb (in_srange w (- s)).
Proof using Ha Hw.
  clear t Hb b. pose proof (pow2_split w Hw). unfold in_srange, s, signed. case_decide; repeat case_bool_decide; simpl; (done || lia).
Qed.

Lemma sdivo_code :
  bool_decide (a = 2 ^ (w - 1)) && bool_decide (b = 2 ^ w - 1)
  = negb (bool_decide (b = 0)) && negb (in_srange w (Z.quot s t)).
Proof using All.
  pose proof (pow2_split w Hw). pose proof (pow2_pos (w - 1)).
  pose proof (signed_range w a Hw Ha) as Hs. pose proof (signed_range w b Hw Hb) as Ht. fold s in Hs. fold t in Ht.
  rewrite (bool_decide_ext (a = 2 ^ (w - 1)) (s = - 2 ^ (w - 1))) by (unfold s, signed; case_decide; lia).
  rewrite (bool_decide_ext (b = 2 ^ w - 1) (t = -1)) by (unfold t, signed; case_decide; lia).
  rewrite (bool_decide_ext (b = 0) (t = 0)) by (symmetry; by apply signed_0).
  clearbody s t. unfold in_srange. destruct (decide (t = 0)) as [->|Ht0].
  { rewrite (bool_decide_false (0 = -1)), (bool_decide_true (0 = 0)) by lia. by rewrite andb_false_r. }
  rewrite (bool_decide_false (t = 0)) by done. simpl. destruct (decide (t = -1)) as [->|Ht1].
  { rewrite (bool_decide_true (-1 = -1)), andb_true_r by done. 
    assert (Z.quot s (-1) = - s) as -> by (change (-1) with (Z.opp 1); rewrite Z.quot_opp_r, Z.quot_1_r; lia).
    repeat case_bool_decide; simpl; (done || lia). }
  rewrite (bool_decide_false (t = -1)), andb_false_r by done. rewrite bool_decide_true; [done|].
  destruct (decide (t = 1)) as [->|]; [rewrite Z.quot_1_r; lia|].
  assert (Z.abs (Z.quot s t) < 2 ^ (w - 1)); [|lia]. rewrite <- Z.quot_abs by lia.
  rewrite Z.quot_div_nonneg by lia. apply Z.div_lt_upper_bound; [lia|]. nia.
Qed.

End overflow.

(** ** Multiplication overflow *)

Lemma testbit_le a j : 0 ≤ a → 0 ≤ j → Z.testbit a j = true → 2 ^ j ≤ a.
Proof.
  intros Ha Hj Hb. destruct (decide (2 ^ j ≤ a)); [done|]. rewrite (bits_high j) in Hb by lia. done.
Qed.

Lemma existsb_seqZ (p : Z → bool) m n :
  existsb p (seqZ m n) = true ↔ ∃ j, m ≤ j < m + n ∧ p j = true.
Proof.
  rewrite existsb_exists. split; intros (j&H1&H2); exists j; rewrite <- list_elem_of_In, elem_of_seqZ in *; done.
Qed.

(** Some bit of [b] whose product with the top of [a] reaches [2 ^ W]. *)
Definition reaches (W n a b : Z) : bool :=
  existsb (λ j, Z.testbit b j && bool_decide (2 ^ (W - j) ≤ a)) (seqZ 1 n).

Lemma reaches_true W n a b : n ≤ W → 0 ≤ a → 0 ≤ b → reaches W n a b = true → 2 ^ W ≤ a * b.
Proof.
  intros Hn Ha Hb. unfold reaches. rewrite existsb_seqZ. intros (j&Hj&[H1 H2]%andb_true_iff).
  apply bool_decide_eq_true in H2. apply testbit_le in H1; [|lia..].
  replace (2 ^ W) with (2 ^ (W - j) * 2 ^ j) by (rewrite <- pow2_add by lia; f_equal; lia).
  apply Z.mul_le_mono_nonneg; try lia; apply Z.pow_nonneg; lia.
Qed.

(** Otherwise the product of the successors stays below twice that. *)
Lemma reaches_false W n a b :
  0 < W → 0 ≤ a < 2 ^ W → 0 ≤ b < 2 ^ (n + 1) → n ≤ W → 0 ≤ n → reaches W n a b = false →
  (a + 1) * (b + 1) ≤ 2 ^ (W + 1).
Proof.
  intros HW Ha Hb Hn Hn0 Hr. rewrite pow2_add by lia. destruct (decide (b = 0)) as [->|]; [lia|].
  pose proof (Z.log2_spec b) as Hl. pose proof (Z.log2_nonneg b). destruct (decide (Z.log2 b = 0)) as [El|].
  { rewrite El in Hl. assert (b = 1) as -> by lia. lia. }
  assert (Z.log2 b < n + 1) by (apply Z.log2_lt_pow2; lia).
  assert (a < 2 ^ (W - Z.log2 b)) as Ha'.
  { apply Z.nle_gt. intros Hle. apply not_true_iff_false in Hr. apply Hr. unfold reaches. apply existsb_seqZ.
    exists (Z.log2 b). split; [lia|]. apply andb_true_iff. split; [apply Z.bit_log2; lia|]. by apply bool_decide_eq_true. }
  trans (2 ^ (W - Z.log2 b) * 2 ^ (Z.log2 b + 1)).
  - apply Z.mul_le_mono_nonneg; [lia..|]. rewrite Z.add_1_r. lia.
  - rewrite <- pow2_add by lia. replace (W - Z.log2 b + (Z.log2 b + 1)) with (W + 1) by lia. rewrite pow2_add by lia. lia.
Qed.

Lemma umulo_code w a b :
  1 < w → 0 ≤ a < 2 ^ w → 0 ≤ b < 2 ^ w →
  reaches w (w - 1) a b || Z.testbit (wrap (1 + w) (a * b)) w = bool_decide (2 ^ w ≤ a * b).
Proof.
  intros Hw Ha Hb. destruct (reaches w (w - 1) a b) eqn:E.
  - apply reaches_true in E; [|lia..]. by rewrite bool_decide_true by lia.
  - apply reaches_false in E; [|lia|lia|replace (w - 1 + 1) with w by lia; lia|lia|lia]. simpl.
    replace (w + 1) with (1 + w) in E by lia. rewrite wrap_small by nia.
    replace w with (1 + w - 1) at 1 by lia. rewrite msb_spec by nia. by replace (1 + w - 1) with w by lia.
Qed.

(** The two top bits of a product one bit wider. *)
Lemma top_bits_differ w z :
  0 < w → - 2 ^ w ≤ z ≤ 2 ^ w →
  xorb (Z.testbit (wrap (1 + w) z) w) (Z.testbit (wrap (1 + w) z) (w - 1)) = negb (in_srange w z).
Proof.
  intros Hw Hz. pose proof (pow2_split w Hw). pose proof (pow2_pos (w - 1)). pose proof (pow2_add 1 w).
  assert (Z.testbit (wrap (1 + w) z) (w - 1) = Z.testbit (wrap w z) (w - 1)) as ->.
  { rewrite !wrap_bits by lia. by rewrite !bool_decide_true by lia. }
  replace w with (1 + w - 1) at 2 by lia. rewrite !msb_spec by (lia || apply wrap_bound; lia).
  replace (1 + w - 1) with w by lia. unfold in_srange. rewrite (wrap_range (1 + w)) by lia.
  destruct (decide (z = 2 ^ w)) as [->|].
  - rewrite (wrap_eq w (2 ^ w) 0 1) by lia. rewrite decide_False by lia. repeat case_bool_decide; simpl; (done || lia).
  - rewrite (wrap_range w) by lia. case_decide; repeat case_bool_decide; simpl; (done || lia).
Qed.

(** The value or its complement: the magnitude bits of a signed value. *)
Definition magnitude (w a : Z) : Z := if Z.testbit a (w - 1) then 2 ^ w - 1 - a else a.

Lemma magnitude_spec w a :
  0 < w → 0 ≤ a < 2 ^ w → 0 ≤ magnitude w a < 2 ^ (w - 1) ∧
    signed w a = if Z.testbit a (w - 1) then - magnitude w a - 1 else magnitude w a.
Proof.
  intros Hw Ha. pose proof (pow2_split w Hw). unfold magnitude. rewrite msb_spec by done. unfold signed.
  case_bool_decide; case_decide; lia.
Qed.

Lemma smulo_code w a b :
  2 ≤ w → 0 ≤ a < 2 ^ w → 0 ≤ b < 2 ^ w →
  let P := wrap (1 + w) (signed w a * signed w b) in
  reaches (w - 1) (w - 2) (magnitude w a) (magnitude w b) || xorb (Z.testbit P w) (Z.testbit P (w - 1))
  = negb (in_srange w (signed w a * signed w b)).
Proof.
  intros Hw Ha Hb P. subst P. destruct (magnitude_spec w a ltac:(lia) Ha) as [HX Es].
  destruct (magnitude_spec w b ltac:(lia) Hb) as [HY Et].
  set (X := magnitude w a) in *. set (Y := magnitude w b) in *.
  pose proof (pow2_split w ltac:(lia)). destruct (reaches (w - 1) (w - 2) X Y) eqn:E.
  - apply reaches_true in E; [|lia..]. simpl. unfold in_srange. rewrite bool_decide_false; [done|]. rewrite Es, Et.
    destruct (Z.testbit a _), (Z.testbit b _); nia.
  - apply reaches_false in E; [|lia|lia|replace (w - 2 + 1) with (w - 1) by lia; lia|lia|lia].
    replace (w - 1 + 1) with w in E by lia. simpl. apply top_bits_differ; [lia|]. rewrite Es, Et.
    destruct (Z.testbit a _), (Z.testbit b _); nia.
Qed.

(** Widths one and two. *)
Lemma smulo_code_2 a b :
  0 ≤ a < 2 ^ 2 → 0 ≤ b < 2 ^ 2 → let P := wrap (1 + 2) (signed 2 a * signed 2 b) in
  xorb (Z.testbit P 2) (Z.testbit P (2 - 1)) = negb (in_srange 2 (signed 2 a * signed 2 b)).
Proof.
  intros Ha Hb P. subst P. apply top_bits_differ; [lia|]. pose proof (signed_range 2 a). pose proof (signed_range 2 b).
  simpl in *. nia.
Qed.

Lemma smulo_code_1 a b :
  0 ≤ a < 2 ^ 1 → 0 ≤ b < 2 ^ 1 → bool_decide (Z.land a b = 1) = negb (in_srange 1 (signed 1 a * signed 1 b)).
Proof.
  intros Ha Hb. assert (a = 0 ∨ a = 1) as [-> | ->] by lia; assert (b = 0 ∨ b = 1) as [-> | ->] by lia; reflexivity.
Qed.
