(* ===== verification/BvElimSound.v ===== *)
(** Soundness of the operator elimination rules: on a typed term they return a
    term of the same type and the same value. *)
From stdpp Require Import base option list numbers.
From S2P Require Import Prelude Integer Node TypeRules Semantics BvArith TypeSound BitVectorUtil BvElim BvTerms BvElimArith.
Open Scope Z_scope.

(** A node can hold a child for every bit of the operands and for every copy
    of a repetition; a rule may then also extend an operand by a bit. *)
Definition small (n : Node) : Prop :=
  (∀ c w, c ∈ children n → typeOf c = Some (BITVECTOR_TYPE w) → w ≤ MAX_CHILDREN) ∧
  match n with mkNode (BITVECTOR_REPEAT m) _ => m ≤ MAX_CHILDREN | _ => True end.

(** A rule that applies to a typed term returns, and what it returns has the
    type and the value of the term. *)
Definition sound (r : RewriteRule) : Prop :=
  ∀ n τ, typeOf n = Some τ → concrete n = true → small n → applies r n = true →
    ∃ n', apply r n = Some n' ∧ equiv n n'.

Lemma small_width n c w :
  small n → c ∈ children n → typeOf c = Some (BITVECTOR_TYPE w) → w ≤ MAX_CHILDREN ∧ w < max_uint32.
Proof. intros [Hs _] Hc Ht. pose proof (Hs c w Hc Ht). split; [done|]. unfold MAX_CHILDREN, max_uint32 in *. lia. Qed.

Create HintDb rules.
#[export] Hint Unfold SizeEliminate UgtEliminate UgeEliminate SgtEliminate SgeEliminate SleEliminate
  UleEliminate SubEliminate RepeatEliminate RotateLeftEliminate RotateRightEliminate NandEliminate
  NorEliminate XnorEliminate SdivEliminate SremEliminate SmodEliminate ZeroExtendEliminate
  RedorEliminate RedandEliminate NegoEliminate UaddoEliminate SaddoEliminate UmuloEliminate
  SmuloEliminate UsuboEliminate SsuboEliminate SdivoEliminate : rules.

Section sound.
Context `{!Gmp, !GmpLaws}.

(** ** Opening a rule *)

Lemma isKind_node k n : isKind k n = true → ∃ cs, n = mkNode k cs.
Proof. destruct n; try done. simpl. intros ->%bool_decide_eq_true. by eexists. Qed.

(** The two children of a binary operator or predicate, as terms. *)
Lemma open_fixed2 k cs τ :
  (∀ n, arity_ok k n = bool_decide (n = 2%nat)) → (∀ ts, computeType k cs ts = BitVectorFixedWidthTypeRule ts) →
  typeOf (mkNode k cs) = Some τ → concrete (mkNode k cs) = true → small (mkNode k cs) →
  ∃ a b w fa fb, cs = [a; b] ∧ bvterm a w fa ∧ bvterm b w fb ∧ (w ≤ MAX_CHILDREN ∧ w < max_uint32).
Proof.
  intros Hk Hr Ht Hc Hs. destruct (fixed2_inv k cs τ Hk Hr Ht Hc) as (a&b&w&->&->&Hw&Hta&Htb&Hca&Hcb).
  assert (w ≤ MAX_CHILDREN ∧ w < max_uint32) by (apply (small_width _ a _ Hs); [left|done]).
  exists a, b, w, (bv_of a), (bv_of b). split_and!; [done|apply typed_bvterm; (done || lia)..|lia|lia].
Qed.

Lemma open_pred2 k cs τ :
  (∀ n, arity_ok k n = bool_decide (n = 2%nat)) → (∀ ts, computeType k cs ts = BitVectorPredicateTypeRule ts) →
  typeOf (mkNode k cs) = Some τ → concrete (mkNode k cs) = true → small (mkNode k cs) →
  ∃ a b w fa fb, cs = [a; b] ∧ bvterm a w fa ∧ bvterm b w fb ∧ (w ≤ MAX_CHILDREN ∧ w < max_uint32).
Proof.
  intros Hk Hr Ht Hc Hs. destruct (pred2_inv k cs τ Hk Hr Ht Hc) as (a&b&w&->&->&Hw&Hta&Htb&Hca&Hcb).
  assert (w ≤ MAX_CHILDREN ∧ w < max_uint32) by (apply (small_width _ a _ Hs); [left|done]).
  exists a, b, w, (bv_of a), (bv_of b). split_and!; [done|apply typed_bvterm; (done || lia)..|lia|lia].
Qed.

Lemma open_one k cs τ :
  (∀ n, arity_ok k n = bool_decide (n = 1%nat)) →
  (∀ ts, computeType k cs ts = Some τ → ∃ t, ts !! 0%nat = Some t ∧ checkMaybeBitVector t = true) →
  typeOf (mkNode k cs) = Some τ → concrete (mkNode k cs) = true → small (mkNode k cs) →
  ∃ a w fa, cs = [a] ∧ bvterm a w fa ∧ (w ≤ MAX_CHILDREN ∧ w < max_uint32) ∧ payload_ok k = true ∧
    computeType k cs [BITVECTOR_TYPE w] = Some τ.
Proof.
  intros Hk Hr Ht Hc Hs. destruct (one_inv k cs τ Hk Hr Ht Hc) as (a&w&->&Hw&Hta&Hca&Hp&Hτ).
  assert (w ≤ MAX_CHILDREN ∧ w < max_uint32) by (apply (small_width _ a _ Hs); [left|done]).
  exists a, w, (bv_of a). split_and!; [done|apply typed_bvterm; (done || lia)|(done || lia)..].
Qed.

Lemma getSize_bv a w f : bvterm a w f → getSize a = Some w.
Proof. intros ([Ht _]&_). unfold getSize. by rewrite Ht. Qed.

(** Unfold a rule on a node with two bit-vector children. *)
Tactic Notation "open2" uconstr(H) "as" ident(a) ident(b) ident(w) ident(fa) ident(fb)
    ident(Ha) ident(Hb) ident(Hw) ident(Hm) :=
  let n := fresh "n" in let τ := fresh "τ" in let Ht := fresh "Ht" in
  let Hc := fresh "Hc" in let Hs := fresh "Hs" in let Hap := fresh "Hap" in let cs := fresh "cs" in
  intros n τ Ht Hc Hs Hap; simpl in Hap; nofail;
  match goal with Hi : isKind _ n = true |- _ => apply isKind_node in Hi as [cs ->] end;
  match type of Ht with typeOf (mkNode ?k ?cs) = Some ?τ =>
    destruct (H k cs τ (λ _, eq_refl) (λ _, eq_refl) Ht Hc Hs) as (a&b&w&fa&fb&->&Ha&Hb&Hm) end;
  pose proof Ha as (_&Hw&_);
  autounfold with rules; cbn [apply child children lookup list_lookup mbind option_bind];
  rewrite ?(getSize_bv _ _ _ Ha), ?mkZero_ok, ?mkOne_ok by lia; cbn [mbind option_bind].

(** ** Comparisons *)

Ltac swap_pred Ha Hb k p k' p' :=
  eexists; (split; [done|]);
  eapply equiv_bool; [by apply (bool_pred _ _ _ _ _ Ha Hb k p)|by apply (bool_pred _ _ _ _ _ Hb Ha k' p')|done].

Lemma ugt_sound : sound UgtEliminate.
Proof.
  open2 open_pred2 as a b w fa fb Ha Hb Hw Hm.
  swap_pred Ha Hb BITVECTOR_UGT (λ _ a b : Z, bool_decide (b < a)) BITVECTOR_ULT (λ _ a b : Z, bool_decide (a < b)).
Qed.
Lemma uge_sound : sound UgeEliminate.
Proof.
  open2 open_pred2 as a b w fa fb Ha Hb Hw Hm.
  swap_pred Ha Hb BITVECTOR_UGE (λ _ a b : Z, bool_decide (b ≤ a)) BITVECTOR_ULE (λ _ a b : Z, bool_decide (a ≤ b)).
Qed.
Lemma sgt_sound : sound SgtEliminate.
Proof.
  open2 open_pred2 as a b w fa fb Ha Hb Hw Hm.
  swap_pred Ha Hb BITVECTOR_SGT (λ w a b, bool_decide (signed w b < signed w a))
             BITVECTOR_SLT (λ w a b, bool_decide (signed w a < signed w b)).
Qed.
Lemma sge_sound : sound SgeEliminate.
Proof.
  open2 open_pred2 as a b w fa fb Ha Hb Hw Hm.
  swap_pred Ha Hb BITVECTOR_SGE (λ w a b, bool_decide (signed w b ≤ signed w a))
             BITVECTOR_SLE (λ w a b, bool_decide (signed w a ≤ signed w b)).
Qed.

Lemma sle_sound : sound SleEliminate.
Proof.
  open2 open_pred2 as a b w fa fb Ha Hb Hw Hm. eexists. split; [done|].
  eapply equiv_bool; [by apply (bool_pred _ _ _ _ _ Ha Hb BITVECTOR_SLE (λ w a b, bool_decide (signed w a ≤ signed w b)))| |].
  - apply bool_not. by apply (bool_pred _ _ _ _ _ Hb Ha BITVECTOR_SLT (λ w a b, bool_decide (signed w a < signed w b))).
  - intros env _. cbv beta. repeat case_bool_decide; (done || lia).
Qed.

Lemma ule_sound : sound UleEliminate.
Proof.
  open2 open_pred2 as a b w fa fb Ha Hb Hw Hm. eexists. split; [done|].
  eapply equiv_bool; [by apply (bool_pred _ _ _ _ _ Ha Hb BITVECTOR_ULE (λ _ a b, bool_decide (a ≤ b)))| |].
  - apply bool_not. by apply (bool_pred _ _ _ _ _ Hb Ha BITVECTOR_ULT (λ _ a b, bool_decide (a < b))).
  - intros env _. cbv beta. repeat case_bool_decide; (done || lia).
Qed.

(** ** Arithmetic and bitwise operators *)

Lemma sub_sound : sound SubEliminate.
Proof.
  open2 open_fixed2 as a b w fa fb Ha Hb Hw Hm. eexists. split; [done|].
  eapply equiv_bv; [by apply (bv_sub _ _ _ _ _ Ha Hb)|apply (bv_add _ _ _ _ _ Ha (bv_neg _ _ _ Hb))|].
  intros env _ _. cbv beta. unfold wrap. rewrite Zplus_mod_idemp_r. f_equal.
Qed.

Lemma nand_sound : sound NandEliminate.
Proof.
  open2 open_fixed2 as a b w fa fb Ha Hb Hw Hm. eexists. split; [done|].
  by eapply equiv_bv; [by apply (bv_nand _ _ _ _ _ Ha Hb)|apply bv_not, (bv_and _ _ _ _ _ Ha Hb)|].
Qed.
Lemma nor_sound : sound NorEliminate.
Proof.
  open2 open_fixed2 as a b w fa fb Ha Hb Hw Hm. eexists. split; [done|].
  by eapply equiv_bv; [by apply (bv_nor _ _ _ _ _ Ha Hb)|apply bv_not, (bv_or _ _ _ _ _ Ha Hb)|].
Qed.
Lemma xnor_sound : sound XnorEliminate.
Proof.
  open2 open_fixed2 as a b w fa fb Ha Hb Hw Hm. eexists. split; [done|].
  by eapply equiv_bv; [by apply (bv_xnor _ _ _ _ _ Ha Hb)|apply bv_not, (bv_xor _ _ _ _ _ Ha Hb)|].
Qed.

(** ** Signed division and remainders *)

(** [ite (sign a) (bvneg a) a]. *)
Lemma bv_abs a w fa :
  bvterm a w fa →
  bvterm (mkNode3 ITE (mkNode2 EQUAL (utils.mkExtract a (w - 1) (w - 1)) (utils.mkConst 1 1)) (mkNode1 BITVECTOR_NEG a) a)
    w (λ env, if Z.testbit (fa env) (w - 1) then wrap w (- fa env) else fa env).
Proof. intros Ha. exact (bv_ite _ _ _ _ _ (bv_neg _ _ _ Ha) Ha _ _ (bool_sign _ _ _ Ha)). Qed.

(** The value of a term of width [w] is in range. *)
Lemma bv_range a w f env : bvterm a w f → env_ok env → 0 ≤ f env < 2 ^ w.
Proof. intros (_&_&He) Hok. by apply He. Qed.

Lemma sdiv_sound : sound SdivEliminate.
Proof.
  open2 open_fixed2 as a b w fa fb Ha Hb Hw Hm. eexists. split; [done|].
  pose proof (bv_udiv _ _ _ _ _ (bv_abs _ _ _ Ha) (bv_abs _ _ _ Hb)) as Hq.
  eapply equiv_bv; [by apply (bv_sdiv _ _ _ _ _ Ha Hb)| |].
  - exact (bv_ite _ _ _ _ _ (bv_neg _ _ _ Hq) Hq _ _ (bool_xor _ _ _ _ (bool_sign _ _ _ Ha) (bool_sign _ _ _ Hb))).
  - intros env Hok _. pose proof (bv_range _ _ _ _ Ha Hok). pose proof (bv_range _ _ _ _ Hb Hok). cbv beta.
    rewrite !abs_spec by lia. apply sdiv_code; lia.
Qed.

Lemma srem_sound : sound SremEliminate.
Proof.
  open2 open_fixed2 as a b w fa fb Ha Hb Hw Hm. eexists. split; [done|].
  pose proof (bv_urem _ _ _ _ _ (bv_abs _ _ _ Ha) (bv_abs _ _ _ Hb)) as Hq.
  eapply equiv_bv; [by apply (bv_srem _ _ _ _ _ Ha Hb)| |].
  - exact (bv_ite _ _ _ _ _ (bv_neg _ _ _ Hq) Hq _ _ (bool_sign _ _ _ Ha)).
  - intros env Hok _. pose proof (bv_range _ _ _ _ Ha Hok). pose proof (bv_range _ _ _ _ Hb Hok). cbv beta.
    rewrite !abs_spec by lia. apply srem_code; lia.
Qed.

Lemma smod_sound : sound SmodEliminate.
Proof.
  open2 open_fixed2 as a b w fa fb Ha Hb Hw Hm. eexists. split; [done|].
  unfold iteNode, eqNode, andNode.
  pose proof (bv_ite _ _ _ _ _ Ha (bv_neg _ _ _ Ha) _ _ (bool_nosign _ _ _ Ha)) as Habs_a.
  pose proof (bv_ite _ _ _ _ _ Hb (bv_neg _ _ _ Hb) _ _ (bool_nosign _ _ _ Hb)) as Habs_b.
  pose proof (bv_urem _ _ _ _ _ Habs_a Habs_b) as Hu. pose proof (bv_neg _ _ _ Hu) as Hnu.
  pose proof (bool_nosign _ _ _ Ha) as Pa. pose proof (bool_nosign _ _ _ Hb) as Pb.
  pose proof (bool_sign _ _ _ Ha) as Na. pose proof (bool_sign _ _ _ Hb) as Nb.
  pose proof (bv_const w 0 ltac:(lia) ltac:(pose proof (pow2_pos w); lia)) as H0'.
  pose proof (bv_ite _ _ _ _ _ (bv_add _ _ _ _ _ Hu Hb) Hnu _ _ (bool_and _ _ _ _ Pa Nb)) as H3.
  pose proof (bv_ite _ _ _ _ _ (bv_add _ _ _ _ _ Hnu Hb) H3 _ _ (bool_and _ _ _ _ Na Pb)) as H2.
  pose proof (bv_ite _ _ _ _ _ Hu H2 _ _ (bool_and _ _ _ _ Pa Pb)) as H1.
  eapply equiv_bv; [by apply (bv_smod _ _ _ _ _ Ha Hb)|exact (bv_ite _ _ _ _ _ Hu H1 _ _ (bool_eq_bv _ _ _ _ _ Hu H0'))|].
  intros env Hok _. pose proof (bv_range _ _ _ _ Ha Hok). pose proof (bv_range _ _ _ _ Hb Hok). cbv beta.
  assert (∀ (c : bool) (x y : Z), (if negb c then x else y) = if c then y else x) as Hneg by (by intros []).
  rewrite !Hneg, !abs_spec by lia. rewrite <- smod_code by lia. done.
Qed.

(** ** Overflow predicates *)

Ltac overflow_goal :=
  let env := fresh "env" in let Hok := fresh "Hok" in intros env Hok; cbv beta;
  repeat match goal with H : bvterm _ _ _ |- _ => apply (bv_range _ _ _ env) in H; [|exact Hok] end.

Lemma uaddo_sound : sound UaddoEliminate.
Proof.
  open2 open_pred2 as a b w fa fb Ha Hb Hw Hm.
  pose proof (bv_const 1 0 ltac:(done) ltac:(done)) as Hz. pose proof (bv_const 1 1 ltac:(done) ltac:(done)) as Ho.
  pose proof (bv_concat2 _ _ _ _ _ _ Hz Ha ltac:(lia)) as Ha'. pose proof (bv_concat2 _ _ _ _ _ _ Hz Hb ltac:(lia)) as Hb'.
  pose proof (bv_add _ _ _ _ _ Ha' Hb') as Hadd. rewrite (getSize_bv _ _ _ Hadd). cbn [mbind option_bind].
  eexists. split; [done|].
  eapply equiv_bool; [by apply (bool_pred _ _ _ _ _ Ha Hb BITVECTOR_UADDO (λ w a b, bool_decide (2 ^ w ≤ a + b)))| |].
  - exact (bool_eq_bv _ _ _ _ _ (bv_bit _ _ _ (1 + w - 1) Hadd ltac:(lia)) Ho).
  - overflow_goal. rewrite b2z_eq_1, !Z.mul_0_l, !Z.add_0_l. replace (1 + w - 1) with w by lia. apply uaddo_code; lia.
Qed.

Lemma usubo_sound : sound UsuboEliminate.
Proof.
  open2 open_pred2 as a b w fa fb Ha Hb Hw Hm.
  pose proof (bv_const 1 1 ltac:(done) ltac:(done)) as Ho.
  pose proof (bv_sub _ _ _ _ _ (bv_zext 1 _ _ _ Ha ltac:(lia) ltac:(lia)) (bv_zext 1 _ _ _ Hb ltac:(lia) ltac:(lia))) as Hsub.
  rewrite (getSize_bv _ _ _ Hsub). cbn [mbind option_bind]. eexists. split; [done|].
  eapply equiv_bool; [by apply (bool_pred _ _ _ _ _ Ha Hb BITVECTOR_USUBO (λ _ a b, bool_decide (a - b < 0)))| |].
  - exact (bool_eq_bv _ _ _ _ _ (bv_bit _ _ _ (1 + w - 1) Hsub ltac:(lia)) Ho).
  - overflow_goal. rewrite b2z_eq_1. replace (1 + w - 1) with w by lia. apply usubo_code; lia.
Qed.

Lemma saddo_sound : sound SaddoEliminate.
Proof.
  open2 open_pred2 as a b w fa fb Ha Hb Hw Hm. eexists. split; [done|].
  pose proof (bv_add _ _ _ _ _ Ha Hb) as Hadd.
  eapply equiv_bool; [by apply (bool_pred _ _ _ _ _ Ha Hb BITVECTOR_SADDO (λ w a b, negb (in_srange w (signed w a + signed w b))))| |].
  - exact (bool_or _ _ _ _
      (bool_and _ _ _ _ (bool_and _ _ _ _ (bool_sign _ _ _ Ha) (bool_sign _ _ _ Hb)) (bool_nosign _ _ _ Hadd))
      (bool_and _ _ _ _ (bool_and _ _ _ _ (bool_nosign _ _ _ Ha) (bool_nosign _ _ _ Hb)) (bool_sign _ _ _ Hadd))).
  - overflow_goal. apply saddo_code; lia.
Qed.

Lemma ssubo_sound : sound SsuboEliminate.
Proof.
  open2 open_pred2 as a b w fa fb Ha Hb Hw Hm. eexists. split; [done|].
  pose proof (bv_sub _ _ _ _ _ Ha Hb) as Hsub.
  eapply equiv_bool; [by apply (bool_pred _ _ _ _ _ Ha Hb BITVECTOR_SSUBO (λ w a b, negb (in_srange w (signed w a - signed w b))))| |].
  - exact (bool_or _ _ _ _
      (bool_and _ _ _ _ (bool_and _ _ _ _ (bool_sign _ _ _ Ha) (bool_nosign _ _ _ Hb)) (bool_nosign _ _ _ Hsub))
      (bool_and _ _ _ _ (bool_and _ _ _ _ (bool_nosign _ _ _ Ha) (bool_sign _ _ _ Hb)) (bool_sign _ _ _ Hsub))).
  - overflow_goal. apply ssubo_code; lia.
Qed.

Lemma sdivo_sound : sound SdivoEliminate.
Proof.
  open2 open_pred2 as a b w fa fb Ha Hb Hw Hm.
  destruct (mkMinSigned_ok w) as (m&->&Hmin); [lia|]. destruct (mkOnes_ok w) as (o&->&Hones); [lia|].
  cbn [mbind option_bind]. eexists. split; [done|].
  eapply equiv_bool; [by apply (bool_pred _ _ _ _ _ Ha Hb BITVECTOR_SDIVO
    (λ w a b, negb (bool_decide (b = 0)) && negb (in_srange w (Z.quot (signed w a) (signed w b)))))| |].
  - exact (bool_and _ _ _ _ (bool_eq_bv _ _ _ _ _ Ha Hmin) (bool_eq_bv _ _ _ _ _ Hb Hones)).
  - overflow_goal. apply sdivo_code; lia.
Qed.

(** ** One child *)

Lemma fixed1_open k cs τ :
  (∀ n, arity_ok k n = bool_decide (n = 1%nat)) → (∀ ts, computeType k cs ts = BitVectorFixedWidthTypeRule ts) →
  typeOf (mkNode k cs) = Some τ → concrete (mkNode k cs) = true → small (mkNode k cs) →
  ∃ a w fa, cs = [a] ∧ bvterm a w fa ∧ (w ≤ MAX_CHILDREN ∧ w < max_uint32) ∧ payload_ok k = true.
Proof.
  intros Hk Hr Ht Hc Hs. destruct (fixed1_inv k cs τ Hk Hr Ht Hc) as (a&w&->&->&Hw&Hta&Hca).
  destruct (node_inv _ _ _ Ht Hc) as (_&Hp&_).
  assert (w ≤ MAX_CHILDREN ∧ w < max_uint32) by (apply (small_width _ a _ Hs); [left|done]).
  exists a, w, (bv_of a). split_and!; [done|apply typed_bvterm; (done || lia)|(done || lia)..].
Qed.

Lemma rotl_sound : sound RotateLeftEliminate.
Proof.
  intros n τ Ht Hc Hs Hap. destruct n as [| | | |k cs]; try done. destruct k; try done.
  destruct (fixed1_open (BITVECTOR_ROTATE_LEFT _) cs τ (λ _, eq_refl) (λ _, eq_refl) Ht Hc Hs)
    as (a&w&fa&->&Ha&Hm&Hp). pose proof Ha as (_&Hw&_).
  autounfold with rules. cbn [apply child children lookup list_lookup mbind option_bind]. rewrite (getSize_bv _ _ _ Ha).
  cbn [mbind option_bind]. pose proof (bv_rotl _ _ _ Ha _ Hp) as Hr. set (m := d_rotateLeftAmount) in *.
  pose proof (Z.mod_pos_bound m w). case_decide as Hz.
  - eexists. split; [done|]. eapply equiv_bv; [exact Hr|exact Ha|]. intros env Hok _. cbv beta.
    pose proof (bv_range _ _ _ _ Ha Hok). by rewrite (proj1 (rot_0 w m (fa env) ltac:(lia) ltac:(lia) Hz)).
  - eexists. split; [done|].
    pose proof (bv_extract _ _ _ Ha (w - 1 - m mod w) 0 ltac:(lia) ltac:(lia)) as Hl.
    pose proof (bv_extract _ _ _ Ha (w - 1) (w - m mod w) ltac:(lia) ltac:(lia)) as Hr'.
    eapply equiv_bv; [exact Hr| |].
    + eapply bvterm_ext; [exact (bv_concat2 _ _ _ _ _ _ Hl Hr' ltac:(lia))|lia|by intros].
    + intros env Hok _. cbv beta. pose proof (bv_range _ _ _ _ Ha Hok). rewrite rotl_code by lia.
      replace (w - 1 - m mod w - 0 + 1) with (w - m mod w) by lia.
      by replace (w - 1 - (w - m mod w) + 1) with (m mod w) by lia.
Qed.

Lemma rotr_sound : sound RotateRightEliminate.
Proof.
  intros n τ Ht Hc Hs Hap. destruct n as [| | | |k cs]; try done. destruct k; try done.
  destruct (fixed1_open (BITVECTOR_ROTATE_RIGHT _) cs τ (λ _, eq_refl) (λ _, eq_refl) Ht Hc Hs)
    as (a&w&fa&->&Ha&Hm&Hp). pose proof Ha as (_&Hw&_).
  autounfold with rules. cbn [apply child children lookup list_lookup mbind option_bind]. rewrite (getSize_bv _ _ _ Ha).
  cbn [mbind option_bind]. pose proof (bv_rotr _ _ _ Ha _ Hp) as Hr. set (m := d_rotateRightAmount) in *.
  pose proof (Z.mod_pos_bound m w). case_decide as Hz.
  - eexists. split; [done|]. eapply equiv_bv; [exact Hr|exact Ha|]. intros env Hok _. cbv beta.
    pose proof (bv_range _ _ _ _ Ha Hok). by rewrite (proj2 (rot_0 w m (fa env) ltac:(lia) ltac:(lia) Hz)).
  - eexists. split; [done|].
    pose proof (bv_extract _ _ _ Ha (m mod w - 1) 0 ltac:(lia) ltac:(lia)) as Hl.
    pose proof (bv_extract _ _ _ Ha (w - 1) (m mod w) ltac:(lia) ltac:(lia)) as Hr'.
    eapply equiv_bv; [exact Hr| |].
    + eapply bvterm_ext; [exact (bv_concat2 _ _ _ _ _ _ Hl Hr' ltac:(lia))|lia|by intros].
    + intros env Hok _. cbv beta. pose proof (bv_range _ _ _ _ Ha Hok). rewrite rotr_code by lia.
      replace (m mod w - 1 - 0 + 1) with (m mod w) by lia.
      by replace (w - 1 - m mod w + 1) with (w - m mod w) by lia.
Qed.

(** Rules whose type rule asks for one bit-vector. *)
Lemma one_rule_bv k cs τ ts :
  match k with
  | BITVECTOR_REPEAT _ | BITVECTOR_ZERO_EXTEND _ | BITVECTOR_REDOR | BITVECTOR_REDAND | BITVECTOR_NEGO => True
  | _ => False
  end →
  computeType k cs ts = Some τ → ∃ t, ts !! 0%nat = Some t ∧ checkMaybeBitVector t = true.
Proof.
  intros Hk Ht. destruct k; try done; cbn [computeType] in Ht;
    unfold BitVectorRepeatTypeRule, BitVectorExtendTypeRule, BitVectorRedTypeRule, BitVectorPredicateTypeRule in Ht;
    nofail; eauto.
Qed.

Lemma open1 k cs τ :
  match k with
  | BITVECTOR_REPEAT _ | BITVECTOR_ZERO_EXTEND _ | BITVECTOR_REDOR | BITVECTOR_REDAND | BITVECTOR_NEGO => True
  | _ => False
  end →
  typeOf (mkNode k cs) = Some τ → concrete (mkNode k cs) = true → small (mkNode k cs) →
  ∃ a w fa, cs = [a] ∧ bvterm a w fa ∧ 0 < w < max_uint32 ∧ payload_ok k = true ∧
    computeType k cs [BITVECTOR_TYPE w] = Some τ.
Proof.
  intros Hk Ht Hc Hs. destruct (open_one k cs τ) as (a&w&fa&->&Ha&Hm&Hp&Hτ); [|by intros; eapply one_rule_bv|done..|].
  - intros n. by destruct k.
  - pose proof Ha as (_&Hw&_). exists a, w, fa. split_and!; try done; lia.
Qed.

Lemma zext_sound : sound ZeroExtendEliminate.
Proof.
  intros n τ Ht Hc Hs Hap. destruct n as [| | | |k cs]; try done. destruct k; try done.
  rename d_zeroExtendAmount into m.
  destruct (open1 (BITVECTOR_ZERO_EXTEND m) cs τ I Ht Hc Hs) as (a&w&fa&->&Ha&Hw&Hp&Hτ). cbn in Hp. unfold uint32 in Hp. nofail.
  cbn [computeType] in Hτ. rewrite extend_rule in Hτ by lia. case_decide; [|done]. simplify_eq.
  autounfold with rules. cbn [apply child children lookup list_lookup mbind option_bind].
  pose proof (bv_zext m _ _ _ Ha ltac:(lia) ltac:(lia)) as Hz. case_decide.
  - subst m. eexists. split; [done|]. by eapply equiv_bv; [exact Hz|exact Ha|].
  - eexists. split; [done|]. pose proof (bv_const m 0 ltac:(lia) ltac:(pose proof (pow2_pos m); lia)) as H0'.
    eapply equiv_bv; [exact Hz|exact (bv_concat2 _ _ _ _ _ _ H0' Ha ltac:(lia))|]. intros env _ _. cbv beta. lia.
Qed.

Lemma redor_sound : sound RedorEliminate.
Proof.
  intros n τ Ht Hc Hs Hap. apply isKind_node in Hap as [cs ->].
  destruct (open1 BITVECTOR_REDOR cs τ I Ht Hc Hs) as (a&w&fa&->&Ha&Hw&_&Hτ).
  autounfold with rules. cbn [apply child children lookup list_lookup mbind option_bind].
  rewrite (getSize_bv _ _ _ Ha). cbn [mbind option_bind]. eexists. split; [done|].
  pose proof (bv_const w 0 ltac:(lia) ltac:(pose proof (pow2_pos w); lia)) as H0'.
  eapply equiv_bv; [by apply (bv_red _ _ _ _ (λ w a, negb (bool_decide (a = 0))) Ha)
                  |exact (bv_not _ _ _ (bv_comp _ _ _ _ _ Ha H0'))|].
  intros env _ _. cbv beta. by case_bool_decide.
Qed.

Lemma redand_sound : sound RedandEliminate.
Proof.
  intros n τ Ht Hc Hs Hap. apply isKind_node in Hap as [cs ->].
  destruct (open1 BITVECTOR_REDAND cs τ I Ht Hc Hs) as (a&w&fa&->&Ha&Hw&_&Hτ).
  autounfold with rules. cbn [apply child children lookup list_lookup mbind option_bind].
  rewrite (getSize_bv _ _ _ Ha). cbn [mbind option_bind]. destruct (mkOnes_ok w) as (o&->&Ho); [lia|].
  eexists. split; [done|].
  by eapply equiv_bv; [by apply (bv_red _ _ _ _ (λ w a, bool_decide (a = 2 ^ w - 1)) Ha)|exact (bv_comp _ _ _ _ _ Ha Ho)|].
Qed.

Lemma nego_sound : sound NegoEliminate.
Proof.
  intros n τ Ht Hc Hs Hap. apply isKind_node in Hap as [cs ->].
  destruct (open1 BITVECTOR_NEGO cs τ I Ht Hc Hs) as (a&w&fa&->&Ha&Hw&_&Hτ).
  autounfold with rules. cbn [apply child children lookup list_lookup mbind option_bind].
  rewrite (getSize_bv _ _ _ Ha). cbn [mbind option_bind]. destruct (mkMinSigned_ok w) as (m&->&Hmin); [lia|].
  eexists. split; [done|].
  assert (boolterm (mkNode BITVECTOR_NEGO [a]) (λ env, negb (in_srange w (- signed w (fa env))))) as Hn.
  { destruct Ha as (Hta&_&Ea). split; [by apply (wt_node1 _ _ _ _ Hta)|]. intros env Hok.
    destruct (Ea env Hok) as [E _]. by rewrite (eval_node1 _ _ _ _ E). }
  eapply equiv_bool; [exact Hn|exact (bool_eq_bv _ _ _ _ _ Ha Hmin)|]. overflow_goal. apply nego_code; lia.
Qed.

Lemma size_sound : sound SizeEliminate.
Proof.
  intros n τ Ht Hc Hs Hap. cbn [applies SizeEliminate] in Hap. nofail.
  match goal with H : isKind _ n = true |- _ => apply isKind_node in H as [cs ->] end.
  destruct cs as [|a cs]; [done|]. cbn [child children lookup list_lookup] in *.
  destruct (typeOf a) as [t|] eqn:Ea; [|done]. destruct t as [| |w|]; try done.
  destruct (node_inv _ _ _ Ht Hc) as (_&_&_&Hcs&ts&HM&Hτ&vs&HF&Hl). cbn [forallb] in Hcs. nofail.
  assert (w ≤ MAX_CHILDREN ∧ w < max_uint32) by (apply (small_width _ a _ Hs); [left|done]).
  pose proof (typed_bvterm a w Ea ltac:(done) ltac:(lia)) as Ha. exists (mkConstInt w). split.
  - autounfold with rules. cbn [apply child children lookup list_lookup mbind option_bind]. by rewrite (getSize_bv _ _ _ Ha).
  - split_and!; [|done|].
    + rewrite Ht. cbn [computeType] in Hτ. unfold BitVectorSizeTypeRule in Hτ. nofail. by simplify_eq.
    + intros env Hok. destruct (type_sound_gen env _ _ Ht Hc Hok) as (v&Hv&_). rewrite Hv.
      destruct Ha as (_&_&He). destruct (He env Hok) as [E _].
      cbn [eval] in Hv |- *. apply bind_Some in Hv as (vs'&HMv&Hk). simpl in HMv. rewrite E in HMv. simpl in HMv.
      apply bind_Some in HMv as (vs2&_&[= <-]). simpl in Hk. congruence.
Qed.

(** ** Repetition *)

Lemma repeat_elim_sound : sound RepeatEliminate.
Proof.
  intros n τ Ht Hc Hs Hap. destruct n as [| | | |k cs]; try done. destruct k; try done. rename d_repeatAmount into m.
  destruct (open1 (BITVECTOR_REPEAT m) cs τ I Ht Hc Hs) as (a&w&fa&->&Ha&Hw&Hp&Hτ). cbn in Hp. unfold uint32 in Hp. nofail.
  cbn [computeType] in Hτ. assert (m ≠ 0) by (intros ->; by cbn in Hτ). rewrite repeat_rule in Hτ by lia. case_decide; [|done]. simplify_eq.
  autounfold with rules. cbn [apply child children lookup list_lookup mbind option_bind].
  rewrite bool_decide_true by lia. cbn [assert mbind option_bind].
  destruct Hs as [_ Hs]. pose proof (bv_repeat m a w fa Ha ltac:(lia) ltac:(lia)) as Hr.
  case_decide as Hm1; (eexists; split; [done|]); (eapply equiv_bv; [exact Hr| |]).
  - subst m. eapply bvterm_ext; [exact Ha|lia|done].
  - intros env _ _. subst m. change (Z.to_nat 1) with 1%nat. cbn [repeat_value]. lia.
  - pose proof (cat_replicate a w fa (Z.to_nat m) env0 ltac:(lia)) as [Hcw _]. rewrite Z2Nat.id in Hcw by lia.
    rewrite <- Hcw. replace (replicate (Z.to_nat m) a) with (pnode <$> replicate (Z.to_nat m) (mkPart a w fa))
      by (by rewrite fmap_replicate).
    apply bv_concatN; rewrite ?length_replicate; [by apply Forall_replicate|lia..].
  - intros env _ _. by destruct (cat_replicate a w fa (Z.to_nat m) env ltac:(lia)) as [_ ->].
Qed.

(** ** Multiplication overflow *)

(** A disjunction of single bits. *)
Definition bit_term (n : Node) (f : Env → bool) : Prop := bvterm n 1 (λ env, b2z (f env)).

Lemma b2z_lor x y : Z.lor (b2z x) (b2z y) = b2z (x || y).
Proof. by destruct x, y. Qed.
Lemma b2z_land x y : Z.land (b2z x) (b2z y) = b2z (x && y).
Proof. by destruct x, y. Qed.
Lemma b2z_lxor x y : Z.lxor (b2z x) (b2z y) = b2z (xorb x y).
Proof. by destruct x, y. Qed.

Lemma bit_or a b f g : bit_term a f → bit_term b g → bit_term (mkNode2 BITVECTOR_OR a b) (λ env, f env || g env).
Proof. intros Ha Hb. eapply bvterm_ext; [exact (bv_or _ _ _ _ _ Ha Hb)|done|]. intros env. cbv beta. by rewrite b2z_lor. Qed.
Lemma bit_and a b f g : bit_term a f → bit_term b g → bit_term (mkNode2 BITVECTOR_AND a b) (λ env, f env && g env).
Proof. intros Ha Hb. eapply bvterm_ext; [exact (bv_and _ _ _ _ _ Ha Hb)|done|]. intros env. cbv beta. by rewrite b2z_land. Qed.
Lemma bit_xor a b f g : bit_term a f → bit_term b g → bit_term (mkNode2 BITVECTOR_XOR a b) (λ env, xorb (f env) (g env)).
Proof. intros Ha Hb. eapply bvterm_ext; [exact (bv_xor _ _ _ _ _ Ha Hb)|done|]. intros env. cbv beta. by rewrite b2z_lxor. Qed.

Lemma bit_term_ext n f g : bit_term n f → (∀ env, env_ok env → g env = f env) → bit_term n g.
Proof.
  intros (Ht&Hw&He) E. split_and!; [done|lia..|]. intros env Hok. cbv beta. rewrite E by done. by apply He.
Qed.

Lemma bit_eq_one n f : bit_term n f → boolterm (mkNode2 EQUAL n (utils.mkConst 1 1)) f.
Proof.
  intros Hn. destruct (bool_eq_bv _ _ _ _ _ Hn (bv_const 1 1 ltac:(done) ltac:(done))) as [Ht He]. split; [done|].
  intros env Hok. by rewrite He, b2z_eq_1.
Qed.

Lemma bit_or_list ns fs :
  Forall2 bit_term ns fs → (2 ≤ length ns)%nat ∧ Z.of_nat (length ns) ≤ MAX_CHILDREN → bit_term (mkNode BITVECTOR_OR ns) (λ env, existsb (λ f, f env) fs).
Proof.
  intros HF Hl. eapply bvterm_ext;
    [apply (bv_naryTerm BITVECTOR_OR (λ _, Z.lor) 1 ns ((λ (f : Env → bool) env, b2z (f env)) <$> fs)); try done|done|].
  - intros. by apply lor_bound.
  - clear Hl. induction HF; cbn [fmap list_fmap]; by constructor.
  - lia.
  - lia.
  - intros env. cbv beta. destruct fs as [|f fs]; [inversion HF; subst; simpl in Hl; lia|]. cbn [fmap list_fmap nary existsb].
    clear. generalize (f env) as acc. induction fs as [|g fs IH]; intros acc; cbn [fmap list_fmap fold_left existsb]; [by rewrite orb_false_r|].
    rewrite b2z_lor. rewrite <- IH. by rewrite orb_assoc.
Qed.

(** One more bit of the top of [x]. *)
Lemma top_step k x : 0 ≤ k → 0 ≤ x → Z.testbit x k || bool_decide (2 ^ (k + 1) ≤ x) = bool_decide (2 ^ k ≤ x).
Proof.
  intros Hk Hx. pose proof (pow2_add k 1). pose proof (pow2_pos k). case_bool_decide as Hle.
  - rewrite orb_true_r. by rewrite bool_decide_true by lia.
  - rewrite orb_false_r. replace k with (k + 1 - 1) at 1 by lia. rewrite msb_spec by lia. by replace (k + 1 - 1) with k by lia.
Qed.

Section mulo.
Context (a b : Node) (w : Z) (fa fb : Env → Z).
Hypothesis Ha : bvterm a w fa.
Hypothesis Hb : bvterm b w fb.

Lemma bit_step x X i u c :
  bvterm x w X → 0 ≤ i < w → bit_term u (λ env, bool_decide (2 ^ (i + 1) ≤ X env)) →
  c = mkNode2 BITVECTOR_OR (utils.mkExtract x i i) u ∨ c = mkNode2 BITVECTOR_OR u (utils.mkExtract x i i) →
  bit_term c (λ env, bool_decide (2 ^ i ≤ X env)).
Proof using Type.
  intros Hx Hi Hu Hc. pose proof (bv_bit x w X i Hx Hi) as Hbit.
  assert (∀ env, env_ok env → bool_decide (2 ^ i ≤ X env) = Z.testbit (X env) i || bool_decide (2 ^ (i + 1) ≤ X env)) as E.
  { intros env Hok. symmetry. apply top_step; [lia|]. pose proof (bv_range _ _ _ _ Hx Hok). lia. }
  destruct Hc as [-> | ->]; eapply bit_term_ext.
  - exact (bit_or _ _ _ _ Hbit Hu).
  - exact E.
  - exact (bit_or _ _ _ _ Hu Hbit).
  - intros env Hok. rewrite E by done. cbv beta. apply orb_comm.
Qed.

Lemma umuloLoop_terms n : ∀ i tmp fs uppc,
  1 ≤ i → i + Z.of_nat n ≤ w → Forall2 bit_term tmp fs →
  bit_term uppc (λ env, bool_decide (2 ^ (w - i) ≤ fa env)) →
  Forall2 bit_term (umuloLoop a b w n i tmp uppc).1
    (fs ++ ((λ j env, Z.testbit (fb env) j && bool_decide (2 ^ (w - j) ≤ fa env)) <$> seqZ i (Z.of_nat n))).
Proof using Ha Hb.
  induction n as [|n IH]; intros i tmp fs uppc Hi Hn HF Hu; cbn [umuloLoop].
  - by rewrite app_nil_r.
  - rewrite (seqZ_cons i) by lia. replace (Z.pred (Z.of_nat (S n))) with (Z.of_nat n) by lia.
    replace (Z.succ i) with (i + 1) by lia. rewrite fmap_cons, (cons_middle _ fs (_ <$> _)), (app_assoc fs).
    apply IH; [lia|lia| |].
    + apply Forall2_app; [done|]. constructor; [|constructor].
      exact (bit_and _ _ _ _ (bv_bit _ _ _ i Hb ltac:(lia)) Hu).
    + eapply (bit_step a fa (w - (i + 1)) uppc); [done|lia| |left; by replace (w - (i + 1)) with (w - 1 - i) by lia].
      by replace (w - (i + 1) + 1) with (w - i) by lia.
Qed.

Lemma smuloLoop_term X Y n : ∀ i x y ppc res,
  bvterm x w X → bvterm y w Y → 1 ≤ i → i + Z.of_nat n ≤ w - 2 →
  bit_term ppc (λ env, bool_decide (2 ^ (w - 1 - i) ≤ X env)) →
  bit_term res (λ env, reaches (w - 1) i (X env) (Y env)) →
  bit_term (smuloLoop x y w n i ppc res) (λ env, reaches (w - 1) (i + Z.of_nat n) (X env) (Y env)).
Proof using Type.
  induction n as [|n IH]; intros i x y ppc res Hx Hy Hi Hn Hp Hr; cbn [smuloLoop].
  - eapply bit_term_ext; [exact Hr|]. intros env _. by rewrite Z.add_0_r.
  - replace (i + Z.of_nat (S n)) with (i + 1 + Z.of_nat n) by lia.
    assert (bit_term (mkNode2 BITVECTOR_OR ppc (utils.mkExtract x (w - 2 - i) (w - 2 - i)))
      (λ env, bool_decide (2 ^ (w - 2 - i) ≤ X env))) as Hp'.
    { eapply (bit_step x X); [done|lia| |by right]. by replace (w - 2 - i + 1) with (w - 1 - i) by lia. }
    apply IH; [done|done|lia|lia|by replace (w - 1 - (i + 1)) with (w - 2 - i) by lia|].
    eapply bit_term_ext; [exact (bit_or _ _ _ _ Hr (bit_and _ _ _ _ (bv_bit _ _ _ (i + 1) Hy ltac:(lia)) Hp'))|].
    intros env Hok. cbv beta. unfold reaches. rewrite seqZ_app, existsb_app by lia. f_equal.
    replace (1 + i) with (i + 1) by lia. assert (seqZ (i + 1) 1 = [i + 1]) as -> by (by rewrite seqZ_cons by lia).
    simpl. rewrite orb_false_r.
    by replace (w - 1 - (i + 1)) with (w - 2 - i) by lia.
Qed.

End mulo.

Lemma umulo_sound : sound UmuloEliminate.
Proof.
  open2 open_pred2 as a b w fa fb Ha Hb Hw Hm.
  pose proof (bool_pred _ _ _ _ _ Ha Hb BITVECTOR_UMULO (λ w a b, bool_decide (2 ^ w ≤ a * b)) eq_refl eq_refl
    (λ _ _, eq_refl) (λ _, eq_refl)) as Hn.
  case_decide as Hw1.
  - eexists. split; [done|]. eapply equiv_bool; [exact Hn|exact (bool_const false)|]. overflow_goal. subst w.
    rewrite bool_decide_false by nia. done.
  - pose proof (bv_bit _ _ _ (w - 1) Ha ltac:(lia)) as Hu0.
    assert (bit_term (utils.mkExtract a (w - 1) (w - 1)) (λ env, bool_decide (2 ^ (w - 1) ≤ fa env))) as Hu.
    { eapply bit_term_ext; [exact Hu0|]. overflow_goal. by rewrite msb_spec by lia. }
    pose proof (umuloLoop_terms a b w fa fb Ha Hb (Z.to_nat (w - 1)) 1 [] [] _ ltac:(lia) ltac:(lia) (Forall2_nil _) Hu) as HF.
    destruct (umuloLoop a b w (Z.to_nat (w - 1)) 1 [] (utils.mkExtract a (w - 1) (w - 1))) as [tmp u'] eqn:El.
    pose proof (bv_const 1 0 ltac:(done) ltac:(done)) as Hz.
    pose proof (bv_mult _ _ _ _ _ (bv_concat2 _ _ _ _ _ _ Hz Ha ltac:(lia)) (bv_concat2 _ _ _ _ _ _ Hz Hb ltac:(lia))) as Hmul.
    pose proof (bv_bit _ _ _ w Hmul ltac:(lia)) as Hbit. cbn [fst] in HF. rewrite app_nil_l in HF.
    eexists. split; [done|]. eapply equiv_bool; [exact Hn| |].
    + apply bit_eq_one. eapply bit_or_list.
      * apply Forall2_app; [exact HF|]. constructor; [exact Hbit|constructor].
      * apply Forall2_length in HF. rewrite length_fmap, length_seqZ in HF. rewrite length_app, HF. simpl. lia.
    + overflow_goal. rewrite existsb_app. simpl. rewrite orb_false_r, !Z.mul_0_l, !Z.add_0_l.
      rewrite <- umulo_code by lia. f_equal. unfold reaches. rewrite Z2Nat.id by lia.
      clear. induction (seqZ 1 (w - 1)) as [|j l IH]; [done|]. cbn [fmap list_fmap existsb]. by rewrite <- IH.
Qed.

(** The xor with the sign extension of the sign. *)
Lemma bv_magnitude a w fa :
  bvterm a w fa → 1 < w →
  bvterm (mkNode2 BITVECTOR_XOR a (mkNode1 (BITVECTOR_SIGN_EXTEND (w - 1)) (utils.mkExtract a (w - 1) (w - 1))))
    w (λ env, magnitude w (fa env)).
Proof.
  intros Ha Hw1. pose proof Ha as (_&Hw&_). pose proof (bv_bit _ _ _ (w - 1) Ha ltac:(lia)) as Hs.
  pose proof (bv_sext (w - 1) _ _ _ Hs ltac:(lia) ltac:(lia)) as Hx. replace (w - 1 + 1) with w in Hx by lia.
  destruct (bv_xor _ _ _ _ _ Ha Hx) as (Ht&_&He). split_and!; [done|lia..|].
  intros env Hok. destruct (He env Hok) as [E Hr]. pose proof (bv_range _ _ _ _ Ha Hok). cbv beta in *.
  enough (magnitude w (fa env) = Z.lxor (fa env) (wrap w (signed 1 (b2z (Z.testbit (fa env) (w - 1)))))) as -> by done.
  unfold magnitude. destruct (Z.testbit (fa env) (w - 1)); simpl b2z.
  - assert (wrap w (signed 1 1) = 2 ^ w - 1) as -> by (apply (wrap_eq _ _ _ (-1)); [lia|]; unfold signed; simpl; lia).
    apply (bits_eq w); [lia|apply lxor_bound; lia|lia|]. intros i Hi. rewrite Z.lxor_spec, not_bits, ones_bits by lia.
    by destruct (Z.testbit _ _).
  - assert (wrap w (signed 1 0) = 0) as -> by (apply wrap_small; unfold signed; simpl; lia). by rewrite Z.lxor_0_r.
Qed.

Lemma smulo_sound : sound SmuloEliminate.
Proof.
  open2 open_pred2 as a b w fa fb Ha Hb Hw Hm.
  pose proof (bool_pred _ _ _ _ _ Ha Hb BITVECTOR_SMULO (λ w a b, negb (in_srange w (signed w a * signed w b)))
    eq_refl eq_refl (λ _ _, eq_refl) (λ _, eq_refl)) as Hn.
  pose proof (bv_const 1 1 ltac:(done) ltac:(done)) as Ho. case_decide as Hw1.
  { eexists. split; [done|]. subst w.
    eapply equiv_bool; [exact Hn|exact (bool_eq_bv _ _ _ _ _ (bv_and _ _ _ _ _ Ha Hb) Ho)|].
    overflow_goal. apply smulo_code_1; lia. }
  pose proof (bv_mult _ _ _ _ _ (bv_sext 1 _ _ _ Ha ltac:(lia) ltac:(lia)) (bv_sext 1 _ _ _ Hb ltac:(lia) ltac:(lia))) as Hmul.
  pose proof (bit_xor _ _ _ _ (bv_bit _ _ _ w Hmul ltac:(lia)) (bv_bit _ _ _ (w - 1) Hmul ltac:(lia))) as Hd.
  assert (∀ x y, wrap (1 + w) (wrap (1 + w) x * wrap (1 + w) y) = wrap (1 + w) (x * y)) as Hww.
  { intros x y. unfold wrap. by rewrite <- Z.mul_mod by (pose proof (pow2_pos (1 + w)); lia). }
  case_decide as Hw2; (eexists; split; [done|]); (eapply equiv_bool; [exact Hn| |]).
  - exact (bit_eq_one _ _ Hd).
  - subst w. overflow_goal. rewrite Hww. apply smulo_code_2; lia.
  - pose proof (bv_magnitude _ _ _ Ha ltac:(lia)) as HX. pose proof (bv_magnitude _ _ _ Hb ltac:(lia)) as HY.
    apply bit_eq_one. apply bit_or; [|exact Hd].
    assert (bit_term (utils.mkExtract (mkNode2 BITVECTOR_XOR a
        (mkNode1 (BITVECTOR_SIGN_EXTEND (w - 1)) (utils.mkExtract a (w - 1) (w - 1)))) (w - 2) (w - 2))
      (λ env, bool_decide (2 ^ (w - 2) ≤ magnitude w (fa env)))) as Hp.
    { eapply bit_term_ext; [exact (bv_bit _ _ _ (w - 2) HX ltac:(lia))|]. intros env Hok. cbv beta.
      pose proof (bv_range _ _ _ _ Ha Hok) as Hr. destruct (magnitude_spec w (fa env) ltac:(lia) Hr) as [Hr' _].
      replace (w - 2) with (w - 1 - 1) by lia. by rewrite msb_spec by lia. }
    eapply (smuloLoop_term w _ _ (Z.to_nat (w - 3)) 1); [exact HX|exact HY|lia|lia| |].
    + by replace (w - 1 - 1) with (w - 2) by lia.
    + eapply bit_term_ext; [exact (bit_and _ _ _ _ (bv_bit _ _ _ 1 HY ltac:(lia)) Hp)|]. intros env Hok. cbv beta.
      unfold reaches. change (seqZ 1 1) with [1]. simpl. rewrite orb_false_r. by replace (w - 1 - 1) with (w - 2) by lia.
  - overflow_goal. rewrite Hww. rewrite Z2Nat.id by lia. replace (1 + (w - 3)) with (w - 2) by lia. apply smulo_code; lia.
Qed.

End sound.

Section elimination.
Context `{!Gmp, !GmpLaws}.

#[local] Hint Resolve size_sound ugt_sound uge_sound sgt_sound sge_sound sle_sound ule_sound sub_sound repeat_elim_sound
  rotl_sound rotr_sound nand_sound nor_sound xnor_sound sdiv_sound srem_sound smod_sound zext_sound redor_sound
  redand_sound nego_sound uaddo_sound saddo_sound umulo_sound smulo_sound usubo_sound ssubo_sound sdivo_sound : rules.

(** C17: Every elimination rule, on every typed term it applies to (whose operands
    are not wider than a node has children), returns a term of the same type
    and of the same value in every valuation. *)
Theorem operator_elimination_sound r n τ :
  r ∈ operator_elimination → typeOf n = Some τ → concrete n = true → small n → applies r n = true →
  ∃ n', apply r n = Some n' ∧ equiv n n'.
Proof.
  intros Hr. assert (Forall sound operator_elimination) as HF by (unfold operator_elimination; auto 100 with rules).
  apply list_elem_of_lookup in Hr as [i Hi]. exact (Forall_lookup_1 _ _ _ _ HF Hi n τ).
Qed.
End elimination.

(** [bvsmulo] on two variables of width 8. *)
Lemma operator_elimination_sound_witness :
  let x := mkVar 1 (BITVECTOR_TYPE 8) in let y := mkVar 2 (BITVECTOR_TYPE 8) in
  ∃ n', apply SmuloEliminate (mkNode BITVECTOR_SMULO [x; y]) = Some n' ∧ equiv (mkNode BITVECTOR_SMULO [x; y]) n'.
Proof.
  intros x y. apply (operator_elimination_sound SmuloEliminate _ BOOLEAN_TYPE).
  - unfold operator_elimination. rewrite !elem_of_cons. tauto.
  - vm_compute. reflexivity.
  - vm_compute. reflexivity.
  - split; [|done]. intros c w Hc Ht. apply elem_of_cons in Hc as [-> | Hc%list_elem_of_singleton].
    + vm_compute in Ht. injection Ht as <-. done.
    + subst c. vm_compute in Ht. injection Ht as <-. done.
  - vm_compute. reflexivity.
Defined.
