(* ===== verification/TheoryRewriter.v ===== *)
(** [theory/theory_rewriter.h]: the interface between the driver of the rewriters
    and the theories, and what a theory promises: its answer can stand for the
    term it was asked about. *)
From stdpp Require Import base option list numbers.
From S2P Require Import Prelude Node TypeRules Semantics BvElim BvTerms.
Open Scope Z_scope.

Inductive RewriteStatus := REWRITE_DONE | REWRITE_AGAIN | REWRITE_AGAIN_FULL.
Record RewriteResponse := mkRewriteResponse { d_status : RewriteStatus; d_node : Node }.

#[global] Instance RewriteStatus_eq_dec : EqDecision RewriteStatus.
Proof. solve_decision. Defined.

(** The virtual functions of [TheoryRewriter]; [None] is a failed assertion
    or an exception. *)
Record TheoryRewriter := mkTheoryRewriter {
  tr_preRewrite : Node → option RewriteResponse;
  tr_postRewrite : Node → option RewriteResponse;
}.

(** The response is a term that can stand for [n]. *)
Definition responds (n : Node) (r : option RewriteResponse) : Prop :=
  ∃ status n', r = Some (mkRewriteResponse status n') ∧ equiv n n'.

Lemma done_ok n τ : wt n τ → responds n (Some (mkRewriteResponse REWRITE_DONE n)).
Proof. intros Hn. exists REWRITE_DONE, n. split; [done|]. by eapply equiv_refl. Qed.

Lemma responds_to status n n' : equiv n n' → responds n (Some (mkRewriteResponse status n')).
Proof. intros He. by exists status, n'. Qed.

(** [NoOpTheoryRewriter], for a theory that is disabled: [preRewrite] throws. *)
Definition NoOpTheoryRewriter : TheoryRewriter := {|
  tr_preRewrite _ := None;
  tr_postRewrite n := Some (mkRewriteResponse REWRITE_DONE n);
|}.
