(* ===== verification/BvConst.v ===== *)
(** [theory/bv/theory_bv_rewrite_rules_constant_evaluation.h]: the rules that
    evaluate an operator on constants.  ([EvalAnd], [EvalOr] and [EvalXor] are
    marked unreachable in the code and abort; they are left out.) *)
From stdpp Require Import base option list numbers.
From S2P Require Import Prelude Integer Node TypeRules BitVectorUtil BvElim.
Open Scope Z_scope.

(** [node[i].getConst<BitVector>()]. *)
Definition constChild (node : Node) (i : nat) : option BitVector := c ← child node i; getConstBV c.

(** [node.getKind() == k && utils::isBvConstTerm(node)]. *)
Definition constKind (k : Kind) (node : Node) : bool := isKind k node && utils.isBvConstTerm node.

(** [for (++child_it; child_it != node.end(); ++child_it)
     res = f(res, ( *child_it).getConst<BitVector>());] *)
Fixpoint evalLoop (f : BitVector → BitVector → option BitVector) (res : BitVector) (cs : list Node) : option BitVector :=
  match cs with
  | [] => Some res
  | c :: cs => a ← getConstBV c; res' ← f res a; evalLoop f res' cs
  end.

Section rules.
Context `{!Gmp}.

Definition EvalNot : RewriteRule := {|
  applies := constKind BITVECTOR_NOT;
  apply node := a ← constChild node 0; Some (utils.mkConstOf (BV.not a));
|}.

Definition EvalMult : RewriteRule := {|
  applies := constKind BITVECTOR_MULT;
  apply node := res ← constChild node 0; res' ← evalLoop BV.mul res (tail (children node)); Some (utils.mkConstOf res');
|}.

Definition EvalAdd : RewriteRule := {|
  applies := constKind BITVECTOR_ADD;
  apply node := res ← constChild node 0; res' ← evalLoop BV.add res (tail (children node)); Some (utils.mkConstOf res');
|}.

Definition EvalNeg : RewriteRule := {|
  applies := constKind BITVECTOR_NEG;
  apply node := a ← constChild node 0; res ← BV.neg a; Some (utils.mkConstOf res);
|}.

Definition EvalUdiv : RewriteRule := {|
  applies := constKind BITVECTOR_UDIV;
  apply node :=
    a ← constChild node 0; b ← constChild node 1;
    res ← BV.unsignedDivTotal a b; Some (utils.mkConstOf res);
|}.

Definition EvalUrem : RewriteRule := {|
  applies := constKind BITVECTOR_UREM;
  apply node :=
    a ← constChild node 0; b ← constChild node 1;
    res ← BV.unsignedRemTotal a b; Some (utils.mkConstOf res);
|}.

Definition EvalShl : RewriteRule := {|
  applies := constKind BITVECTOR_SHL;
  apply node :=
    a ← constChild node 0; b ← constChild node 1;
    res ← BV.leftShift a b; Some (utils.mkConstOf res);
|}.

Definition EvalLshr : RewriteRule := {|
  applies := constKind BITVECTOR_LSHR;
  apply node :=
    a ← constChild node 0; b ← constChild node 1;
    res ← BV.logicalRightShift a b; Some (utils.mkConstOf res);
|}.

Definition EvalAshr : RewriteRule := {|
  applies := constKind BITVECTOR_ASHR;
  apply node :=
    a ← constChild node 0; b ← constChild node 1;
    res ← BV.arithRightShift a b; Some (utils.mkConstOf res);
|}.

Definition EvalUlt : RewriteRule := {|
  applies := constKind BITVECTOR_ULT;
  apply node :=
    a ← constChild node 0; b ← constChild node 1;
    lt ← BV.unsignedLessThan a b;
    if (lt : bool) then Some utils.mkTrue else Some utils.mkFalse;
|}.

Definition EvalUltBv : RewriteRule := {|
  applies := constKind BITVECTOR_ULTBV;
  apply node :=
    a ← constChild node 0; b ← constChild node 1;
    lt ← BV.unsignedLessThan a b;
    if (lt : bool) then Some (utils.mkConst 1 1) else Some (utils.mkConst 1 0);
|}.

Definition EvalSlt : RewriteRule := {|
  applies := constKind BITVECTOR_SLT;
  apply node :=
    a ← constChild node 0; b ← constChild node 1;
    lt ← BV.signedLessThan a b;
    if (lt : bool) then Some utils.mkTrue else Some utils.mkFalse;
|}.

Definition EvalSltBv : RewriteRule := {|
  applies := constKind BITVECTOR_SLTBV;
  apply node :=
    a ← constChild node 0; b ← constChild node 1;
    lt ← BV.signedLessThan a b;
    if (lt : bool) then Some (utils.mkConst 1 1) else Some (utils.mkConst 1 0);
|}.

Definition EvalITEBv : RewriteRule := {|
  applies := constKind BITVECTOR_ITE;
  apply node :=
    _ ← constChild node 0;
    c ← child node 0;
    if decide (c = utils.mkConst 1 1) then child node 1
    else _ ← assert (bool_decide (c = utils.mkConst 1 0)); child node 2;
|}.

Definition EvalUle : RewriteRule := {|
  applies := constKind BITVECTOR_ULE;
  apply node :=
    a ← constChild node 0; b ← constChild node 1;
    le ← BV.unsignedLessThanEq a b;
    if (le : bool) then Some utils.mkTrue else Some utils.mkFalse;
|}.

Definition EvalSle : RewriteRule := {|
  applies := constKind BITVECTOR_SLE;
  apply node :=
    a ← constChild node 0; b ← constChild node 1;
    le ← BV.signedLessThanEq a b;
    if (le : bool) then Some utils.mkTrue else Some utils.mkFalse;
|}.

Definition EvalExtract : RewriteRule := {|
  applies node := match node with mkNode (BITVECTOR_EXTRACT _ _) _ => utils.isBvConstTerm node | _ => false end;
  apply node :=
    a ← constChild node 0;
    match node with
    | mkNode (BITVECTOR_EXTRACT hi lo) _ => res ← BV.extract hi lo a; Some (utils.mkConstOf res)
    | _ => None
    end;
|}.

Definition EvalConcat : RewriteRule := {|
  applies := constKind BITVECTOR_CONCAT;
  apply node :=
    res ← constChild node 0;
    res' ← evalLoop (λ res a, Some (BV.concat res a)) res (tail (children node)); Some (utils.mkConstOf res');
|}.

Definition EvalSignExtend : RewriteRule := {|
  applies node := match node with mkNode (BITVECTOR_SIGN_EXTEND _) _ => utils.isBvConstTerm node | _ => false end;
  apply node :=
    a ← constChild node 0;
    match node with
    | mkNode (BITVECTOR_SIGN_EXTEND amount) _ => res ← BV.signExtend amount a; Some (utils.mkConstOf res)
    | _ => None
    end;
|}.

Definition EvalEquals : RewriteRule := {|
  applies := constKind EQUAL;
  apply node :=
    a ← constChild node 0; b ← constChild node 1;
    if BV.eq a b then Some utils.mkTrue else Some utils.mkFalse;
|}.

Definition EvalComp : RewriteRule := {|
  applies := constKind BITVECTOR_COMP;
  apply node :=
    a ← constChild node 0; b ← constChild node 1;
    if BV.eq a b then Some (utils.mkConst 1 1) else Some (utils.mkConst 1 0);
|}.

(** The second argument is non-negative and fits an unsigned integer. *)
Definition EvalConstBvSym : RewriteRule := {|
  applies node :=
    match node with
    | mkNode CONST_BITVECTOR_SYMBOLIC [c0; mkConstInt r] =>
        isConst c0 && bool_decide (r >= 0) && bool_decide (0 ≤ r ≤ max_uint32)
    | _ => false
    end;
  apply node :=
    match node with
    | mkNode CONST_BITVECTOR_SYMBOLIC [mkConstInt a; mkConstInt b] =>
        Some (utils.mkConst (Integer.toUnsignedInt b) a)
    | _ => None
    end;
|}.

Definition EvalEagerAtom : RewriteRule := {|
  applies node := isKind BITVECTOR_EAGER_ATOM node && match child node 0 with Some c => isConst c | None => false end;
  apply node := child node 0;
|}.

Definition constant_evaluation : list RewriteRule :=
  [EvalNot; EvalMult; EvalAdd; EvalNeg; EvalUdiv; EvalUrem; EvalShl; EvalLshr; EvalAshr; EvalUlt; EvalUltBv;
   EvalSlt; EvalSltBv; EvalITEBv; EvalUle; EvalSle; EvalExtract; EvalConcat; EvalSignExtend; EvalEquals; EvalComp;
   EvalConstBvSym; EvalEagerAtom].

End rules.
