(* ===== verification/BvConstSound.v ===== *)
(** Constant evaluation computes the value: every rule of [BvConst] returns,
    on a typed term it applies to, the constant that is the value of the term. *)
From stdpp Require Import base option list numbers.
From S2P Require Import Prelude Integer Node TypeRules Semantics BvArith TypeSound BitVectorUtil BvElim BvTerms BvConst.
Open Scope Z_scope.

(** The constant for a value. *)
Definition node_of (v : value) : Node :=
  match v with VBool b => mkConstBool b | VInt z => mkConstInt z | VBV w z => mkConstBV (mkBitVector w z) end.

Lemma equiv_const n τ v :
  typeOf n = Some τ → concrete n = true → (∀ env, eval env n = Some v) → equiv n (node_of v).
Proof.
  intros Ht Hc He. destruct (type_sound_gen env0 n τ Ht Hc env0_ok) as (v'&Hv&Hs&Hok).
  rewrite He in Hv. injection Hv as <-. pose proof (typeOf_ok_gen n τ Ht) as Hτ.
  assert (typeOf (node_of v) = Some τ) as E.
  { rewrite <- Hs. rewrite <- Hs in Hτ. destruct v as [b|z|w z]; try done. cbn [sort_of type_ok] in *. cbn [value_ok] in Hok.
    apply bool_decide_eq_true in Hτ. cbn [node_of typeOf]. unfold bv_ok, uint32, BitVectorConstantTypeRule. cbn [d_size d_value].
    rewrite !bool_decide_true by lia. cbn. by rewrite decide_False by lia. }
  split_and!; [congruence| |intros env _; rewrite He; by destruct v].
  destruct v as [b|z|w z]; try done. cbn [node_of concrete] in *. rewrite E. by rewrite <- Hs.
Qed.

(** A rule computes the value of the typed terms it applies to; equality is only
    rewritten here between bit-vectors. *)
Definition bvEquality (n : Node) : Prop :=
  ∀ a b, n = mkNode EQUAL [a; b] → ∃ w, typeOf a = Some (BITVECTOR_TYPE w).

Definition evaluates (r : RewriteRule) : Prop :=
  ∀ n τ, typeOf n = Some τ → concrete n = true → bvEquality n → applies r n = true →
    ∃ v, apply r n = Some (node_of v) ∧ ∀ env, eval env n = Some v.

Create HintDb consts.

Lemma constKind_inv k n :
  constKind k n = true → arity_ok k 0 = false → (∃ τ, typeOf n = Some τ) → ∃ cs, n = mkNode k cs ∧ Forall (λ c, isConst c = true) cs.
Proof.
  unfold constKind, isKind, utils.isBvConstTerm. intros [Hk Hc]%andb_true_iff Ha [τ Ht].
  destruct n as [| | | |k' cs]; try done. apply bool_decide_eq_true in Hk as ->. exists cs. split; [done|].
  destruct cs as [|c cs]; [cbn in Ht; by rewrite Ha in Ht|]. case_decide; [done|].
  cbn [children] in Hc. apply list.Forall_forall. intros x Hx. rewrite forallb_forall in Hc. by apply Hc, list_elem_of_In.
Qed.

Lemma const_bv_type a t : typeOf (mkConstBV a) = Some t → ∃ w, t = BITVECTOR_TYPE w.
Proof. cbn [typeOf]. unfold BitVectorConstantTypeRule. intros Ht. nofail. case_decide; [done|]. simplify_eq. eauto. Qed.

Lemma const_bv c w :
  isConst c = true → typeOf c = Some (BITVECTOR_TYPE w) → ∃ a, c = mkConstBV a ∧ wf_bv a ∧ d_size a = w.
Proof.
  destruct c as [| | |a|]; try done. intros _ Ht. exists a. cbn [typeOf] in Ht. unfold BitVectorConstantTypeRule in Ht. nofail.
  case_decide; [done|]. simplify_eq. unfold bv_ok, uint32, wf_bv in *. nofail. split_and!; try done; lia.
Qed.

(** A constant is the constant for its value. *)
Lemma const_value c t :
  isConst c = true → typeOf c = Some t → ∃ v, c = node_of v ∧ sort_of v = t ∧ ∀ env, eval env c = Some v.
Proof.
  destruct c as [|b|z|[w z]|]; try done; intros _ Ht.
  - exists (VBool b). by simplify_eq/=.
  - exists (VInt z). by simplify_eq/=.
  - exists (VBV w z). cbn [typeOf] in Ht. unfold BitVectorConstantTypeRule in Ht. nofail. case_decide; [done|]. by simplify_eq/=.
Qed.

Section sound.
Context `{!Gmp, !GmpLaws}.

Lemma mkConst_1 b : utils.mkConst 1 (b2z b) = node_of (VBV 1 (b2z b)).
Proof. unfold utils.mkConst. rewrite new_small; [done|destruct b; cbn; lia|lia]. Qed.

Ltac run :=
  unfold EvalNot, EvalMult, EvalAdd, EvalNeg, EvalUdiv, EvalUrem, EvalShl, EvalLshr, EvalAshr, EvalUlt, EvalUltBv,
    EvalSlt, EvalSltBv, EvalITEBv, EvalUle, EvalSle, EvalExtract, EvalConcat, EvalSignExtend, EvalEquals, EvalComp,
    constChild; cbn [apply child children lookup list_lookup getConstBV mbind option_bind].

Ltac open2 lem :=
  let n := fresh "n" in let τ := fresh "τ" in
  intros n τ Ht Hc _ Ha; cbn [applies] in Ha;
  destruct (constKind_inv _ _ Ha eq_refl (ex_intro _ _ Ht)) as (cs&->&Hcs);
  match type of Ht with typeOf (mkNode ?k _) = _ =>
    destruct (lem k cs τ (λ _, eq_refl) (λ _, eq_refl) Ht Hc) as (a&b&w&->&_&_&Hta&Htb&_&_);
  inversion Hcs as [|? ? Hca Hcs']; subst; inversion Hcs' as [|? ? Hcb _]; subst;
  destruct (const_bv _ _ Hca Hta) as (x&->&Hx&Hsx); destruct (const_bv _ _ Hcb Htb) as (y&->&Hy&Hsy);
  run;
  assert (d_size x = d_size y) as Hxy by congruence
  end.

Ltac value2 := intros env; cbn; rewrite decide_True by done; done.

Lemma evalUdiv : evaluates EvalUdiv.
Proof.
  open2 fixed2_inv. rewrite udiv_spec by done. exists (VBV (d_size x) (udiv (d_size x) (d_value x) (d_value y))).
  split; [done|value2].
Qed.

Lemma evalUrem : evaluates EvalUrem.
Proof.
  open2 fixed2_inv. rewrite urem_spec by done. exists (VBV (d_size x) (urem (d_size x) (d_value x) (d_value y))).
  split; [done|value2].
Qed.

Lemma evalShl : evaluates EvalShl.
Proof.
  open2 fixed2_inv. rewrite leftShift_spec by done. exists (VBV (d_size x) (shl (d_size x) (d_value x) (d_value y))).
  split; [done|value2].
Qed.

Lemma evalLshr : evaluates EvalLshr.
Proof.
  open2 fixed2_inv. rewrite logicalRightShift_spec by done. exists (VBV (d_size x) (lshr (d_size x) (d_value x) (d_value y))).
  split; [done|value2].
Qed.

Lemma evalAshr : evaluates EvalAshr.
Proof.
  open2 fixed2_inv. rewrite arithRightShift_spec by done. exists (VBV (d_size x) (ashr (d_size x) (d_value x) (d_value y))).
  split; [done|value2].
Qed.

(** Comparisons. *)
Ltac compare f :=
  exists (VBool f); split; [cbn [mbind option_bind]; by case_bool_decide|value2].

Lemma evalUlt : evaluates EvalUlt.
Proof. open2 pred2_inv. rewrite ult_spec by done. compare (bool_decide (d_value x < d_value y)). Qed.

Lemma evalUle : evaluates EvalUle.
Proof. open2 pred2_inv. rewrite ule_spec by done. compare (bool_decide (d_value x ≤ d_value y)). Qed.

Lemma evalSlt : evaluates EvalSlt.
Proof.
  open2 pred2_inv. rewrite slt_spec by done.
  compare (bool_decide (signed (d_size x) (d_value x) < signed (d_size x) (d_value y))).
Qed.

Lemma evalSle : evaluates EvalSle.
Proof.
  open2 pred2_inv. rewrite sle_spec by done.
  compare (bool_decide (signed (d_size x) (d_value x) ≤ signed (d_size x) (d_value y))).
Qed.

(** Predicates with a one-bit result. *)
Lemma bvpred2_inv k cs τ :
  (∀ n, arity_ok k n = bool_decide (n = 2%nat)) → (∀ ts, computeType k cs ts = BitVectorBVPredTypeRule ts) →
  typeOf (mkNode k cs) = Some τ → concrete (mkNode k cs) = true →
  ∃ a b w, cs = [a; b] ∧ τ = BITVECTOR_TYPE 1 ∧ 0 < w ∧
    typeOf a = Some (BITVECTOR_TYPE w) ∧ typeOf b = Some (BITVECTOR_TYPE w) ∧ concrete a = true ∧ concrete b = true.
Proof using Type.
  intros Hk Hr Ht Hc. destruct (node_inv k cs τ Ht Hc) as (Har&_&_&Hcs&ts&HM&Hτ&vs&HF&Hl).
  rewrite Hk in Har. nofail. rewrite Hr in Hτ.
  destruct (bvpred_children _ _ _ HF ltac:(lia) Hτ) as (->&w&x&y&->).
  destruct cs as [|a [|b []]]; try done. destruct (typeOf a) as [ta|] eqn:Ea, (typeOf b) as [tb|] eqn:Eb; simpl in HM;
    rewrite ?Ea, ?Eb in HM; simpl in HM; try done. injection HM as <-.
  inversion HF as [|va ? vs1 ? [Hva Hok] HF1]; subst. inversion HF1 as [|vb ? ? ? [Hvb _] HF2]; subst.
  simpl in Hcs, Hok. nofail. exists a, b, w. split_and!; try done; lia.
Qed.

Ltac compare1 p :=
  exists (VBV 1 (b2z p)); split; [cbn [mbind option_bind]; rewrite <- mkConst_1; by case_bool_decide|value2].

Lemma evalUltBv : evaluates EvalUltBv.
Proof. open2 bvpred2_inv. rewrite ult_spec by done. compare1 (bool_decide (d_value x < d_value y)). Qed.

Lemma evalSltBv : evaluates EvalSltBv.
Proof.
  open2 bvpred2_inv. rewrite slt_spec by done.
  compare1 (bool_decide (signed (d_size x) (d_value x) < signed (d_size x) (d_value y))).
Qed.

Lemma evalComp : evaluates EvalComp.
Proof. open2 bvpred2_inv. rewrite eq_spec by done. compare1 (bool_decide (d_value x = d_value y)). Qed.

Lemma evalEquals : evaluates EvalEquals.
Proof.
  intros n τ Ht Hc Hb Ha. destruct (constKind_inv _ _ Ha eq_refl (ex_intro _ _ Ht)) as (cs&->&Hcs).
  destruct (node_inv _ cs τ Ht Hc) as (Har&_&_&_&ts&HM&Hτ&vs&HF&Hl). cbn [arity_ok] in Har. nofail.
  destruct cs as [|a [|b []]]; try done. destruct (Hb a b eq_refl) as [w Hta].
  destruct (typeOf b) as [tb|] eqn:Htb; simpl in HM; rewrite Hta, Htb in HM; simpl in HM; [|done].
  injection HM as <-. inversion HF as [|v1 ? vs1 ? Hv1 HF1]; subst. inversion HF1 as [|v2 ? ? ? Hv2 HF2]; subst.
  cbn [computeType EqualityTypeRule lookup list_lookup mbind option_bind] in Hτ. nofail.
  match goal with H : isComparableTo _ _ = true |- _ => apply (comparable_concrete v1 v2) in H; [|done..] end. subst tb.
  inversion Hcs as [|? ? Hca Hcs']; subst; inversion Hcs' as [|? ? Hcb _]; subst.
  destruct (const_bv _ _ Hca Hta) as (p&->&Hp&Hsp); destruct (const_bv _ _ Hcb Htb) as (q&->&Hq&Hsq).
  run. rewrite eq_spec by congruence. exists (VBool (bool_decide (d_value p = d_value q))).
  split; [by case_bool_decide|]. intros env. cbn. rewrite Hsq, decide_True by congruence. do 2 f_equal.
  apply bool_decide_ext. split; [congruence|]. by intros ->; rewrite Hsp.
Qed.

(** Operators with one operand. *)
Ltac open1 lem :=
  intros n τ Ht Hc _ Ha; cbn [applies] in Ha;
  destruct (constKind_inv _ _ Ha eq_refl (ex_intro _ _ Ht)) as (cs&->&Hcs);
  match type of Ht with typeOf (mkNode ?k _) = _ =>
    destruct (lem k cs τ (λ _, eq_refl) (λ _, eq_refl) Ht Hc) as (a&w&->&_&_&Hta&_);
    inversion Hcs as [|? ? Hca _]; subst; destruct (const_bv _ _ Hca Hta) as (x&->&Hx&Hsx); run
  end.

Lemma evalNot : evaluates EvalNot.
Proof. open1 fixed1_inv. rewrite not_spec by done. by exists (VBV (d_size x) (2 ^ d_size x - 1 - d_value x)). Qed.

Lemma evalNeg : evaluates EvalNeg.
Proof. open1 fixed1_inv. rewrite neg_spec by done. by exists (VBV (d_size x) (wrap (d_size x) (- d_value x))). Qed.

Lemma constTerm_inv k cs :
  utils.isBvConstTerm (mkNode k cs) = true → cs ≠ [] → Forall (λ c, isConst c = true) cs.
Proof using Type.
  unfold utils.isBvConstTerm. intros Hc Hne. destruct cs as [|c cs]; [done|]. case_decide; [done|].
  apply list.Forall_forall. intros x Hx. rewrite forallb_forall in Hc. by apply Hc, list_elem_of_In.
Qed.

Lemma evalExtract : evaluates EvalExtract.
Proof.
  intros n τ Ht Hc _ Ha. destruct n as [| | | |[] cs]; try done. cbn [applies EvalExtract] in Ha.
  destruct (one_inv (BITVECTOR_EXTRACT d_high d_low) cs τ) as (a&w&->&Hw&Hta&_&Hp&Hτ); [done| |done|done|].
  { intros ts. cbn [computeType]. unfold BitVectorExtractTypeRule. case_decide; [done|]. intros E. nofail. eauto. }
  apply constTerm_inv in Ha; [|done]. inversion Ha as [|? ? Hca _]; subst.
  destruct (const_bv _ _ Hca Hta) as (p&->&Hwf&Hs). cbn [payload_ok computeType] in Hp, Hτ. unfold uint32 in Hp. nofail.
  pose proof (type_ok_bv _ (typeOf_ok_gen _ _ Hta)). rewrite extract_rule in Hτ by lia. case_decide; [|done]. run. rewrite extract_spec by (done || lia).
  eexists (VBV _ _). split; [done|]. intros env. cbn. by rewrite decide_True by lia.
Qed.

Lemma evalSignExtend : evaluates EvalSignExtend.
Proof.
  intros n τ Ht Hc _ Ha. destruct n as [| | | |[] cs]; try done. cbn [applies EvalSignExtend] in Ha.
  destruct (one_inv (BITVECTOR_SIGN_EXTEND d_signExtendAmount) cs τ) as (a&w&->&Hw&Hta&_&Hp&Hτ); [done| |done|done|].
  { intros ts. cbn [computeType]. unfold BitVectorExtendTypeRule. intros E. nofail. eauto. }
  apply constTerm_inv in Ha; [|done]. inversion Ha as [|? ? Hca _]; subst.
  destruct (const_bv _ _ Hca Hta) as (p&->&Hwf&Hs). cbn [payload_ok computeType] in Hp, Hτ. unfold uint32 in Hp. nofail.
  pose proof (type_ok_bv _ (typeOf_ok_gen _ _ Hta)). rewrite extend_rule in Hτ by lia. case_decide; [|done]. run. rewrite signExtend_spec by (done || lia).
  eexists (VBV _ _). split; [done|]. intros env. cbn. rewrite decide_True by lia. by rewrite Z.add_comm.
Qed.

Lemma evalConstBvSym : evaluates EvalConstBvSym.
Proof.
  intros n τ Ht Hc _ Ha. destruct n as [| | | |[] [|c0 [|c1 []]]]; try done. cbn [applies EvalConstBvSym] in Ha.
  destruct c1 as [| |r| |]; try done. nofail.
  destruct (node_inv _ _ τ Ht Hc) as (_&_&Hab&_&ts&HM&Hτ&_). cbn [computeType] in Hτ.
  unfold BitVectorConstantSymbolicTypeRule in Hτ. nofail.
  match goal with H : _ !! 1%nat = Some _ |- _ => injection H as <- end. case_decide as Hr; [|by simplify_eq].
  simpl in HM. destruct c0 as [|b|z|bv|]; try done.
  - cbn [apply EvalConstBvSym]. rewrite Integer.toUnsignedInt_spec by (unfold max_uint32 in *; lia).
    exists (VBV r (wrap r z)). unfold utils.mkConst. rewrite new_eq by lia. split; [done|].
    intros env. cbn. by rewrite decide_True by lia.
  - apply bind_Some in HM as (t&[w ->]%const_bv_type&HM). injection HM as <-. done.
Qed.

Lemma evalEagerAtom : evaluates EvalEagerAtom.
Proof.
  intros n τ Ht Hc _ Ha. destruct n as [| | | |[] cs]; try done. cbn [applies EvalEagerAtom] in Ha. nofail.
  destruct (node_inv _ _ τ Ht Hc) as (Har&_&_&_&ts&HM&Hτ&vs&HF&Hl). cbn [arity_ok] in Har. nofail.
  destruct cs as [|a []]; try done. cbn in HM, H2. destruct (typeOf a) as [t|] eqn:Hta; [|done]. injection HM as <-.
  cbn [computeType BitVectorEagerAtomTypeRule lookup list_lookup mbind option_bind] in Hτ. nofail.
  destruct t; try done. destruct a as [|b|z|bv|]; try done.
  - by exists (VBool b).
  - by apply const_bv_type in Hta as [w ?].
Qed.

Lemma evalITEBv : evaluates EvalITEBv.
Proof.
  intros n τ Ht Hc _ Ha. destruct (constKind_inv _ _ Ha eq_refl (ex_intro _ _ Ht)) as (cs&->&Hcs).
  destruct (node_inv _ _ τ Ht Hc) as (Har&_&_&_&ts&HM&Hτ&vs&HF&Hl). cbn [arity_ok] in Har. nofail.
  destruct cs as [|a [|b [|c []]]]; try done. cbn in HM.
  destruct (typeOf a) as [ta|] eqn:Ea, (typeOf b) as [tb|] eqn:Eb, (typeOf c) as [tc|] eqn:Ec; cbn in HM; try done.
  injection HM as <-. cbn [computeType BitVectorITETypeRule lookup list_lookup mbind option_bind] in Hτ. nofail.
  inversion HF as [|va ? ? ? Hva HF1]; subst. inversion HF1 as [|vb ? ? ? Hvb HF2]; subst.
  inversion HF2 as [|vc ? ? ? Hvc _]; subst.
  match goal with H : isComparableTo _ ta = true |- _ => rename H into Hcmp end.
  apply (comparable_concrete (VBV 1 0) va) in Hcmp; [|by split|done]. subst ta.
  match goal with H : leastUpperBound tb tc = Some _ |- _ => apply (unify_concrete vb vc) in H as [<- ->]; [|done..] end.
  inversion Hcs as [|? ? Hca Hcs']; subst. inversion Hcs' as [|? ? Hcb Hcs'']; subst. inversion Hcs'' as [|? ? Hcc _]; subst.
  destruct (const_bv _ _ Hca Ea) as ([s z]&->&[_ Hz]&Hs). cbn in Hs, Hz. subst s.
  destruct (const_value _ _ Hcb Eb) as (ub&->&Hub&Heb), (const_value _ _ Hcc Ec) as (uc&->&Huc&Hec).
  pose proof (mkConst_1 true) as E1. pose proof (mkConst_1 false) as E0. cbn [b2z node_of] in E1, E0.
  run. rewrite E1, E0.
  destruct (decide (z = 1)) as [->|].
  - rewrite decide_True by done. exists ub. split; [done|]. intros env. cbn. rewrite Heb, Hec. cbn.
    by rewrite decide_True by congruence.
  - assert (z = 0) as -> by lia. rewrite decide_False by done. rewrite bool_decide_true by done.
    exists uc. split; [done|]. intros env. cbn. rewrite Heb, Hec. cbn. by rewrite decide_True by congruence.
Qed.

(** Operators with any number of operands. *)
Lemma nary_inv k cs τ :
  (∀ ts, computeType k cs ts = BitVectorFixedWidthTypeRule ts) → (∀ n, arity_ok k n = atLeast 2 n) →
  typeOf (mkNode k cs) = Some τ → concrete (mkNode k cs) = true → Forall (λ c, isConst c = true) cs →
  ∃ w x y bs, cs = mkConstBV <$> (x :: y :: bs) ∧ Forall (λ a, wf_bv a ∧ d_size a = w) (x :: y :: bs).
Proof using Type.
  intros Hr Hk Ht Hc Hcs. destruct (node_inv k cs τ Ht Hc) as (Har&_&_&_&ts&HM&Hτ&vs&HF&Hl).
  rewrite Hk in Har. unfold atLeast in Har. nofail. rewrite Hr in Hτ.
  destruct (fixedWidth_sound _ _ _ HF Hτ) as (w&_&_&Hbv). exists w.
  assert (∃ bs, cs = mkConstBV <$> bs ∧ Forall (λ a, wf_bv a ∧ d_size a = w) bs) as (bs&->&Hbs).
  { apply mapM_Some in HM. clear - HM HF Hbv Hcs. revert vs HF Hbv. induction HM as [|c t cs ts Hct HM IH]; intros vs HF Hbv.
    { by exists []. }
    inversion HF as [|v ? vs' ? [Hv _] HF']; subst. inversion Hbv as [|? ? (z&->&_) Hbv']; subst.
    inversion Hcs as [|? ? Hcc Hcs']; subst. destruct (const_bv c w Hcc Hct) as (a&->&?&?).
    destruct (IH Hcs' vs' HF' Hbv') as (bs&->&Hbs). exists (a :: bs). split; [done|]. by constructor. }
  rewrite length_fmap in *. destruct bs as [|x [|y bs]]; cbn [length] in *; [lia..|]. by exists x, y, bs.
Qed.

(** A loop that applies an operation [f] of one width [w]. *)
Lemma evalLoop_spec (f : BitVector → BitVector → option BitVector) (g : Z → Z → Z) w bs : ∀ x,
  (∀ a b, wf_bv a → wf_bv b → d_size a = w → d_size b = w →
    f a b = Some (mkBitVector w (g (d_value a) (d_value b))) ∧ wf_bv (mkBitVector w (g (d_value a) (d_value b)))) →
  wf_bv x → d_size x = w → Forall (λ a, wf_bv a ∧ d_size a = w) bs →
  ∃ z, evalLoop f x (mkConstBV <$> bs) = Some (mkBitVector w z) ∧
    bv_fold g w (d_value x) ((λ a, VBV (d_size a) (d_value a)) <$> bs) = Some (VBV w z).
Proof using Type.
  induction bs as [|b bs IH]; intros x Hf Hx Hsx HF; cbn [fmap list_fmap evalLoop bv_fold].
  - exists (d_value x). by destruct x; cbn in *; subst.
  - inversion HF as [|? ? [Hb Hsb] HF']; subst. cbn [getConstBV mbind option_bind].
    destruct (Hf x b Hx Hb eq_refl Hsb) as [-> Hwf]. cbn [mbind option_bind]. rewrite decide_True by done.
    apply (IH (mkBitVector (d_size x) (g (d_value x) (d_value b)))); done.
Qed.

Lemma eval_consts env bs : mapM (eval env) (mkConstBV <$> bs) = Some ((λ a, VBV (d_size a) (d_value a)) <$> bs).
Proof using Type. induction bs as [|b bs IH]; [done|]. cbn [fmap list_fmap mapM eval mbind option_bind]. by rewrite IH. Qed.

Lemma wf_wrap w z : 0 < w ≤ max_uint32 → wf_bv (mkBitVector w (wrap w z)).
Proof using Type. intros Hw. split; [done|]. apply Z.mod_pos_bound. cbn. apply Z.pow_pos_nonneg; lia. Qed.

Lemma evalNary (f : BitVector → BitVector → option BitVector) (g : Z → Z → Z → Z) k :
  (∀ cs ts, computeType k cs ts = BitVectorFixedWidthTypeRule ts) → (∀ n, arity_ok k n = atLeast 2 n) →
  (∀ vs, kind_eval k vs = bv_nary g vs) →
  (∀ a b, wf_bv a → wf_bv b → d_size a = d_size b →
    f a b = Some (mkBitVector (d_size a) (g (d_size a) (d_value a) (d_value b))) ∧
    wf_bv (mkBitVector (d_size a) (g (d_size a) (d_value a) (d_value b)))) →
  evaluates (mkRule (constKind k)
    (λ node, res ← constChild node 0; res' ← evalLoop f res (tail (children node)); Some (utils.mkConstOf res'))).
Proof using Type.
  intros Hr Hk Hg Hf n τ Ht Hc _ Ha. cbn [applies] in Ha.
  destruct (constKind_inv _ _ Ha) as (cs&->&Hcs); [by rewrite Hk|by eexists|].
  destruct (nary_inv k cs τ (Hr cs) Hk Ht Hc Hcs) as (w&x&y&bs&->&HF). inversion HF as [|? ? [Hx Hsx] HF']; subst.
  unfold constChild. cbn [apply child children fmap list_fmap lookup list_lookup getConstBV mbind option_bind tail].
  destruct (evalLoop_spec f (g (d_size x)) (d_size x) (y :: bs) x) as (z&E1&E2); [|done..|].
  { intros a b Hwa Hwb Hsa Hsb. rewrite <- Hsa. apply Hf; [done..|congruence]. }
  cbn [fmap list_fmap] in E1. rewrite E1. exists (VBV (d_size x) z). split; [done|].
  intros env.
  pose proof (eval_consts env (x :: y :: bs)) as E. cbn [eval fmap list_fmap] in E |- *. rewrite E.
  cbn [mbind option_bind]. rewrite Hg. exact E2.
Qed.

Lemma evalMult : evaluates EvalMult.
Proof.
  apply (evalNary BV.mul (λ w a b, wrap w (a * b))); try done. intros a b Ha Hb Hs.
  split; [by apply mul_spec|]. apply wf_wrap, Ha.
Qed.

Lemma evalAdd : evaluates EvalAdd.
Proof.
  apply (evalNary BV.add (λ w a b, wrap w (a + b))); try done. intros a b Ha Hb Hs.
  split; [by apply add_spec|]. apply wf_wrap, Ha.
Qed.

(** ** Concatenation *)

Definition widths (bs : list BitVector) : Z := foldr (λ a z, d_size a + z) 0 bs.

Lemma widths_nonneg bs : Forall wf_bv bs → 0 ≤ widths bs.
Proof using Type. induction 1 as [|a bs [[? _] _] _ IH]; cbn; [lia|]. unfold widths in IH. lia. Qed.

Lemma concat_consts cs : ∀ ts s r,
  mapM typeOf cs = Some ts → Forall (λ c, isConst c = true) cs → concatLoop s false ts = Some r → 0 ≤ s ≤ max_uint32 →
  ∃ bs, cs = mkConstBV <$> bs ∧ Forall wf_bv bs ∧ s + widths bs ≤ max_uint32.
Proof using Type.
  induction cs as [|c cs IH]; intros ts s r HM Hcs Hl Hs.
  - exists []. split_and!; [done|constructor|cbn; lia].
  - cbn [mapM] in HM. apply bind_Some in HM as (t&Ht&HM). apply bind_Some in HM as (ts'&HM&Hts). injection Hts as <-.
    inversion Hcs as [|? ? Hc Hcs']; subst.
    assert (checkMaybeBitVector t = true) as Hm by (cbn [concatLoop] in Hl; by apply bind_Some in Hl as ([]&Hm%assert_Some&_)).
    pose proof (typeOf_ok_gen _ _ Ht) as Hok. destruct (const_value c t Hc Ht) as (v&->&<-&_). destruct v as [|z|w z]; try done.
    destruct (const_bv _ _ Hc Ht) as (a&[= <-]&Hwf&Hsz). cbn [sort_of] in Hl, Hok. apply type_ok_bv in Hok.
    rewrite concatLoop_bv in Hl by lia. case_decide; [|done]. pose proof Hwf as [[Hp _] _]. cbn [d_size] in Hp.
    destruct (IH ts' (s + w) r HM Hcs' Hl) as (bs&->&HF&Hsum); [lia|].
    exists (mkBitVector w z :: bs). split_and!; [done|by constructor|]. cbn [widths foldr d_size]. fold (widths bs). lia.
Qed.

Lemma concatLoop_eval bs : ∀ x, wf_bv x → Forall wf_bv bs → d_size x + widths bs ≤ max_uint32 →
  ∃ a, evalLoop (λ res a, Some (BV.concat res a)) x (mkConstBV <$> bs) = Some a ∧
    concat_fold (d_size x) (d_value x) ((λ a, VBV (d_size a) (d_value a)) <$> bs) = Some (VBV (d_size a) (d_value a)).
Proof.
  induction bs as [|b bs IH]; intros x Hx HF Hs; cbn [fmap list_fmap evalLoop concat_fold]; [by exists x|].
  inversion HF as [|? ? Hb HF']; subst. cbn [widths foldr] in Hs. fold (widths bs) in Hs.
  pose proof (widths_nonneg bs HF'). cbn [getConstBV mbind option_bind]. rewrite concat_spec by (done || lia).
  apply (IH (mkBitVector (d_size x + d_size b) (d_value x * 2 ^ d_size b + d_value b))); [|done|cbn; lia].
  destruct Hx as [[? _] ?], Hb as [[? _] ?]. split; [cbn; lia|]. apply concat_bound; cbn; lia.
Qed.

Lemma evalConcat : evaluates EvalConcat.
Proof.
  intros n τ Ht Hc _ Ha. destruct (constKind_inv _ _ Ha eq_refl (ex_intro _ _ Ht)) as (cs&->&Hcs).
  destruct (node_inv _ _ τ Ht Hc) as (Har&_&_&_&ts&HM&Hτ&_). cbn [arity_ok] in Har. unfold atLeast in Har. nofail.
  cbn [computeType] in Hτ. unfold BitVectorConcatTypeRule in Hτ. apply bind_Some in Hτ as (r&Hl&_).
  destruct (concat_consts cs ts 0 r HM Hcs Hl) as (bs&->&HF&Hsum); [unfold max_uint32; lia|]. rewrite length_fmap in *.
  destruct bs as [|x [|y bs]]; cbn [length] in *; [lia..|]. inversion HF as [|? ? Hx HF']; subst.
  destruct (concatLoop_eval (y :: bs) x Hx HF') as (a&E1&E2); [exact Hsum|].
  cbn [fmap list_fmap] in E1 |- *. run. cbn [tail]. rewrite E1. exists (VBV (d_size a) (d_value a)). split; [by destruct a|].
  intros env. pose proof (eval_consts env (x :: y :: bs)) as E. cbn [eval fmap list_fmap] in E |- *. rewrite E. exact E2.
Qed.

#[local] Hint Resolve evalNot evalMult evalAdd evalNeg evalUdiv evalUrem evalShl evalLshr evalAshr evalUlt evalUltBv
  evalSlt evalSltBv evalITEBv evalUle evalSle evalExtract evalConcat evalSignExtend evalEquals evalComp
  evalConstBvSym evalEagerAtom : consts.

(** C21: constant evaluation is exact.  Every rule of the constant evaluator, on
    every typed term it applies to, returns the constant for the value of the
    term (division by zero, shifts past the width and signed comparisons
    included), and that constant has the type of the term.  An equality is asked to
    be one between bit-vectors, as the others belong to other theories. *)
Theorem constant_evaluation_sound r n τ :
  r ∈ constant_evaluation → typeOf n = Some τ → concrete n = true → bvEquality n → applies r n = true →
  ∃ v, apply r n = Some (node_of v) ∧ (∀ env, eval env n = Some v) ∧ equiv n (node_of v).
Proof.
  intros Hr Ht Hc Hb Ha.
  assert (Forall evaluates constant_evaluation) as HF by (unfold constant_evaluation; auto 100 with consts).
  apply list_elem_of_lookup in Hr as [i Hi].
  destruct (Forall_lookup_1 _ _ _ _ HF Hi n τ Ht Hc Hb Ha) as (v&Hap&Hv). exists v. split_and!; [done..|].
  by eapply equiv_const.
Qed.

End sound.

(** [bvashr] of [#b1011] by [3]. *)
Lemma constant_evaluation_sound_witness :
  let n := mkNode BITVECTOR_ASHR [mkConstBV (mkBitVector 4 11); mkConstBV (mkBitVector 4 3)] in
  ∃ v, apply EvalAshr n = Some (node_of v) ∧ (∀ env, eval env n = Some v) ∧ equiv n (node_of v).
Proof.
  intros n. apply (constant_evaluation_sound EvalAshr n (BITVECTOR_TYPE 4)).
  - unfold constant_evaluation. rewrite !elem_of_cons. tauto.
  - vm_compute. reflexivity.
  - vm_compute. reflexivity.
  - intros a b E. discriminate E.
  - vm_compute. reflexivity.
Defined.

(** C30: the guard of [EvalConstBvSym] lets width zero through: the rule then
    turns a term of abstract bit-vector type into a constant of size zero, which
    the type rule for constants rejects. *)
Theorem const_bv_sym_width_zero `{!Gmp, !GmpLaws} a :
  let n := mkNode CONST_BITVECTOR_SYMBOLIC [mkConstInt a; mkConstInt 0] in
  typeOf n = Some (ABSTRACT_TYPE AK_BITVECTOR_TYPE) ∧ applies EvalConstBvSym n = true ∧
  ∃ n', apply EvalConstBvSym n = Some n' ∧ typeOf n' = None.
Proof.
  cbn. split; [done|]. split; [done|]. eexists. split; [done|]. rewrite Integer.toUnsignedInt_spec by lia.
  unfold utils.mkConst. rewrite new_eq by lia. unfold wrap. by rewrite Z.mod_1_r.
Qed.

Lemma const_bv_sym_width_zero_witness :
  ∃ n', apply EvalConstBvSym (mkNode CONST_BITVECTOR_SYMBOLIC [mkConstInt 5; mkConstInt 0]) = Some n' ∧ typeOf n' = None.
Proof. exact (proj2 (proj2 (const_bv_sym_width_zero 5))). Defined.
