(* ===== verification/BvCore.v ===== *)
(** [theory/bv/theory_bv_rewrite_rules_core.h]: the rules for concatenations,
    extracts and equalities.  The order of nodes is the order of their ids,
    which the node manager gives out: [NodeIds]. *)
From stdpp Require Import base option list numbers.
From S2P Require Import Prelude Integer Node TypeRules BitVectorUtil BvElim BvConst.
Open Scope Z_scope.

(** [NodeValue::getId]. *)
Class NodeIds := nodeId : Node → Z.

(** [TNode::operator<], [operator>]. *)
Definition node_lt `{!NodeIds} (a b : Node) : bool := bool_decide (nodeId a < nodeId b).

(** [utils::getExtractHigh], [getExtractLow], [getSignExtendAmount]. *)
Definition getExtractHigh (node : Node) : option Z :=
  match node with mkNode (BITVECTOR_EXTRACT high _) _ => Some high | _ => None end.
Definition getExtractLow (node : Node) : option Z :=
  match node with mkNode (BITVECTOR_EXTRACT _ low) _ => Some low | _ => None end.
Definition getSignExtendAmount (node : Node) : option Z :=
  match node with mkNode (BITVECTOR_SIGN_EXTEND amount) _ => Some amount | _ => None end.

(** [getKind() == Kind::BITVECTOR_EXTRACT] and the other parameterized kinds. *)
Definition isExtract (node : Node) : bool := match node with mkNode (BITVECTOR_EXTRACT _ _) _ => true | _ => false end.
Definition isSignExtend (node : Node) : bool :=
  match node with mkNode (BITVECTOR_SIGN_EXTEND _) _ => true | _ => false end.
Definition isZeroExtend (node : Node) : bool :=
  match node with mkNode (BITVECTOR_ZERO_EXTEND _) _ => true | _ => false end.
Definition isConstBV (node : Node) : bool := match node with mkConstBV _ => true | _ => false end.

(** A condition on [node[i]]. *)
Definition childIs (p : Node → bool) (node : Node) (i : nat) : bool :=
  match child node i with Some c => p c | None => false end.

(** [node[i] == node[j]]. *)
Definition sameChildren (node : Node) (i j : nat) : bool :=
  match child node i, child node j with Some a, Some b => bool_decide (a = b) | _, _ => false end.

(** The conversion of an unsigned integer to [int]. *)
Definition int32 (z : Z) : Z := let m := u32 z in if decide (m < 2 ^ 31) then m else m - 2 ^ 32.

(** ** Concatenation *)

(** The loop of [ConcatFlatten]: the children of a concatenation are pushed
    from the last to the first, so the first is on top. *)
Fixpoint concatFlattenLoop (fuel : nat) (processing_stack result : list Node) : option (list Node) :=
  match fuel with
  | O => None
  | S fuel =>
      match processing_stack with
      | [] => Some result
      | current :: stack =>
          if isKind BITVECTOR_CONCAT current then
            concatFlattenLoop fuel (fold_left (λ st c, c :: st) (reverse (children current)) stack) result
          else concatFlattenLoop fuel stack (result ++ [current])
      end
  end.

Definition ConcatFlatten : RewriteRule := {|
  applies := isKind BITVECTOR_CONCAT;
  apply node := result ← concatFlattenLoop (S (nsize node)) [node] []; Some (mkNode BITVECTOR_CONCAT result);
|}.

(** The loop of [ConcatExtractMerge] over the remaining children. *)
Fixpoint extractMergeLoop (current : Node) (mergeStarted : bool) (currentHigh currentLow : Z)
    (mergedExtracts rest : list Node) : option (list Node) :=
  match rest with
  | [] =>
      if mergeStarted then
        a ← child current 0; Some (mergedExtracts ++ [utils.mkExtract a currentHigh currentLow])
      else Some (mergedExtracts ++ [current])
  | next :: rest =>
      if negb (isExtract current) then
        extractMergeLoop next mergeStarted currentHigh currentLow (mergedExtracts ++ [current]) rest
      else
        '(currentHigh, currentLow) ←
          (if mergeStarted then Some (currentHigh, currentLow)
           else h ← getExtractHigh current; l ← getExtractLow current; Some (h, l));
        a ← child current 0;
        let same := isExtract next && match child next 0 with Some b => bool_decide (a = b) | None => false end in
        nextBits ←
          (if same then h ← getExtractHigh next; l ← getExtractLow next; Some (Some (h, l)) else Some None);
        match (nextBits : option (Z * Z)) with
        | Some (nextHigh, nextLow) =>
            if decide (u32 (nextHigh + 1) = currentLow) then
              extractMergeLoop current true currentHigh nextLow mergedExtracts rest
            else
              extractMergeLoop next false currentHigh currentLow
                (mergedExtracts ++ [if mergeStarted then utils.mkExtract a currentHigh currentLow else current]) rest
        | None =>
            extractMergeLoop next false currentHigh currentLow
              (mergedExtracts ++ [if mergeStarted then utils.mkExtract a currentHigh currentLow else current]) rest
        end
  end.

Definition ConcatExtractMerge : RewriteRule := {|
  applies := isKind BITVECTOR_CONCAT;
  apply node :=
    current ← child node 0;
    mergedExtracts ← extractMergeLoop current false 0 0 [] (tail (children node));
    utils.mkConcatList mergedExtracts;
|}.

(** The longest sequence of constants a list starts with. *)
Fixpoint constSequence (cs : list Node) : list BitVector * list Node :=
  match cs with
  | mkConstBV bv :: cs => let '(seq, rest) := constSequence cs in (bv :: seq, rest)
  | _ => ([], cs)
  end.

Section rules.
Context `{!Gmp}.

(** The loop of [ConcatConstantMerge]. *)
Fixpoint constantMergeLoop (fuel : nat) (cs : list Node) : option (list Node) :=
  match fuel with
  | O => None
  | S fuel =>
      match cs with
      | [] => Some []
      | mkConstBV bv :: cs =>
          let '(seq, rest) := constSequence cs in
          let current := fold_left BV.concat seq bv in
          cons (utils.mkConstOf current) <$> constantMergeLoop fuel rest
      | c :: cs => cons c <$> constantMergeLoop fuel cs
      end
  end.

Definition ConcatConstantMerge : RewriteRule := {|
  applies := isKind BITVECTOR_CONCAT;
  apply node :=
    mergedConstants ← constantMergeLoop (S (length (children node))) (children node);
    utils.mkConcatList mergedConstants;
|}.

(** ** Extract *)

Definition ExtractWhole : RewriteRule := {|
  applies node :=
    match
      (_ ← assert (isExtract node);
       a ← child node 0; length ← getSize a;
       extractHigh ← getExtractHigh node; extractLow ← getExtractLow node;
       Some (bool_decide (extractHigh = u32 (length - 1)) && bool_decide (extractLow = 0)))
    with Some b => b | None => false end;
  apply node := child node 0;
|}.

Definition ExtractConstant : RewriteRule := {|
  applies node := isExtract node && childIs isConstBV node 0;
  apply node :=
    childValue ← constChild node 0; high ← getExtractHigh node; low ← getExtractLow node;
    res ← BV.extract high low childValue; Some (utils.mkConstOf res);
|}.

(** The loop of [ExtractConcat], from the last child of the concatenation to
    the first. *)
Fixpoint extractConcatLoop (extract_high extract_low : Z) (resultChildren cs : list Node) : option (list Node) :=
  match cs with
  | [] => Some resultChildren
  | concatChild :: cs =>
      if decide (0 ≤ extract_high) then
        size ← getSize concatChild;
        let concatChildSize := int32 size in
        let resultChildren' :=
          if decide (extract_low < concatChildSize) then
            let extract_start := if decide (extract_low < 0) then 0 else extract_low in
            let extract_end := if decide (extract_high < concatChildSize) then extract_high else concatChildSize - 1 in
            resultChildren ++ [utils.mkExtract concatChild extract_end extract_start]
          else resultChildren in
        extractConcatLoop (extract_high - concatChildSize) (extract_low - concatChildSize) resultChildren' cs
      else Some resultChildren
  end.

Definition ExtractConcat : RewriteRule := {|
  applies node := isExtract node && childIs (isKind BITVECTOR_CONCAT) node 0;
  apply node :=
    high ← getExtractHigh node; low ← getExtractLow node;
    concat ← child node 0;
    resultChildren ← extractConcatLoop (int32 high) (int32 low) [] (reverse (children concat));
    utils.mkConcatList (reverse resultChildren);
|}.

(** [do { j += getExtractLow(child); child = child[0]; } while (child is an extract)] *)
Fixpoint extractExtractLoop (j : Z) (child : Node) : option (Z * Node) :=
  match child with
  | mkNode (BITVECTOR_EXTRACT _ low) (c :: _) =>
      let j' := u32 (j + low) in
      if isExtract c then extractExtractLoop j' c else Some (j', c)
  | _ => None
  end.

Definition ExtractExtract : RewriteRule := {|
  applies node := isExtract node && childIs isExtract node 0;
  apply node :=
    c ← child node 0;
    '(j, c') ← extractExtractLoop 0 c;
    k ← getExtractHigh node; l ← getExtractLow node;
    Some (utils.mkExtract c' (u32 (k + j)) (u32 (l + j)));
|}.

(** ** Equality *)

Definition FailEq : RewriteRule := {|
  applies node :=
    isKind EQUAL node && childIs isConstBV node 0 && childIs isConstBV node 1 && negb (sameChildren node 0 1);
  apply node := Some utils.mkFalse;
|}.

Definition SimplifyEq : RewriteRule := {|
  applies node := isKind EQUAL node && sameChildren node 0 1;
  apply node := Some utils.mkTrue;
|}.

Context `{!NodeIds}.

Definition ReflexivityEq : RewriteRule := {|
  applies node :=
    isKind EQUAL node && match child node 0, child node 1 with Some a, Some b => node_lt b a | _, _ => false end;
  apply node := a ← child node 0; b ← child node 1; Some (eqNode b a);
|}.

End rules.
