(* ===== verification/BvCoreSound.v ===== *)
(** Soundness of the rules of [BvCore]. *)
From stdpp Require Import base option list numbers.
From S2P Require Import Prelude Integer Node TypeRules Semantics BvArith TypeSound BitVectorUtil BvElim BvTerms BvElimSound BvConst BvConstSound BvCore.
Open Scope Z_scope.

(** ** Equality *)

Section equality.
Context `{!Gmp, !GmpLaws, !NodeIds}.

Lemma sameChildren_inv a b : sameChildren (mkNode2 EQUAL a b) 0 1 = bool_decide (a = b).
Proof using Type. done. Qed.

Lemma failEq_ok : rule_ok FailEq.
Proof.
  intros n τ Hn _ Hap. cbn [applies FailEq] in Hap. nofail.
  match goal with H : isKind _ _ = true |- _ => apply isKind_eq in H as [cs ->] end.
  destruct (equal_terms cs τ Hn) as (a&b&t&->&->&Ha&Hb). rewrite sameChildren_inv in *. cbn in *.
  destruct a as [| | |va|], b as [| | |vb|]; try done.
  match goal with H : negb _ = true |- _ => apply negb_true_iff, bool_decide_eq_false in H; rename H into Hne end.
  exists utils.mkFalse. split; [done|]. eapply (equiv_bool _ _ (λ _, false)); [|apply bool_const|done].
  split; [by eapply wt_equal|]. intros env Hok.
  destruct (wt_eval _ _ env Ha Hok) as (v1&E1&S1), (wt_eval _ _ env Hb Hok) as (v2&E2&S2).
  rewrite (eval_equal _ _ _ _ _ E1 E2) by congruence. cbn in E1, E2. simplify_eq. do 2 f_equal.
  apply bool_decide_eq_false. intros E. apply Hne. destruct va, vb. cbn in *. congruence.
Qed.

Lemma simplifyEq_ok : rule_ok SimplifyEq.
Proof.
  intros n τ Hn _ Hap. cbn [applies SimplifyEq] in Hap. nofail.
  match goal with H : isKind _ _ = true |- _ => apply isKind_eq in H as [cs ->] end.
  destruct (equal_terms cs τ Hn) as (a&b&t&->&->&Ha&Hb). rewrite sameChildren_inv in *. nofail. subst b.
  exists utils.mkTrue. split; [done|]. eapply (equiv_bool _ _ (λ _, true)); [|apply bool_const|done].
  split; [by eapply wt_equal|]. intros env Hok. destruct (wt_eval _ _ env Ha Hok) as (v&E&_).
  rewrite (eval_equal _ _ _ _ _ E E) by done. by rewrite bool_decide_true.
Qed.

Lemma reflexivityEq_ok : rule_ok ReflexivityEq.
Proof using Type.
  intros n τ Hn _ Hap. cbn [applies ReflexivityEq] in Hap. nofail.
  match goal with H : isKind _ _ = true |- _ => apply isKind_eq in H as [cs ->] end.
  destruct (equal_terms cs τ Hn) as (a&b&t&->&->&Ha&Hb). exists (eqNode b a). split; [done|].
  destruct (wt_equal _ _ _ Hb Ha) as [Hty Hco]. split_and!; [rewrite (proj1 Hn); done|done|]. intros env Hok.
  destruct (wt_eval _ _ env Ha Hok) as (v1&E1&S1), (wt_eval _ _ env Hb Hok) as (v2&E2&S2). unfold eqNode.
  rewrite (eval_equal _ _ _ _ _ E1 E2), (eval_equal _ _ _ _ _ E2 E1) by congruence. do 2 f_equal.
  apply bool_decide_ext. split; congruence.
Qed.

End equality.

(** ** Concatenation *)

Create HintDb parts.
Ltac parts := repeat first [done | solve [eauto with parts] | apply Forall_nil_2 | apply Forall_cons_2].

(** Two splittings of one bit-vector. *)
Definition cat_eq (ps qs : list part) : Prop :=
  cat_width ps = cat_width qs ∧ ∀ env, env_ok env → cat_val ps env = cat_val qs env.

#[global] Instance cat_eq_equiv : Equivalence cat_eq.
Proof.
  split; [done|intros ps qs [? H]; split; [done|]; intros; symmetry; auto|].
  intros ps qs rs [? H] [? H']. split; [congruence|]. intros env Hok. by rewrite H, H'.
Qed.

Lemma cat_eq_app ps ps' qs qs' :
  Forall part_ok ps → Forall part_ok ps' → Forall part_ok qs → Forall part_ok qs' →
  cat_eq ps ps' → cat_eq qs qs' → cat_eq (ps ++ qs) (ps' ++ qs').
Proof.
  intros Hp Hp' Hq Hq' [Hw Hv] [Hw' Hv']. split; [rewrite !cat_width_app; congruence|]. intros env Hok.
  rewrite !cat_val_app by done. by rewrite Hv, Hv', Hw'.
Qed.

(** A part that is split further. *)
Lemma cat_eq_concat p cs :
  part_ok p → pnode p = mkNode BITVECTOR_CONCAT cs →
  ∃ ps, cs = pnode <$> ps ∧ Forall part_ok ps ∧ (2 ≤ length ps)%nat ∧ cat_eq [p] ps.
Proof.
  intros Hp E. unfold part_ok in Hp. rewrite E in Hp. pose proof Hp as (Hwt&_&_).
  destruct (concat_terms cs _ Hwt) as (ps&->&HF&Ht&Hl&Hm&Hw). exists ps. split_and!; try done.
  destruct (bvterm_det _ _ _ _ _ Hp (bv_concatN ps HF Hl Hm Hw)) as [E1 E2]. split; [cbn; lia|].
  intros env Hok. cbn. rewrite E2 by done. change (2 ^ 0) with 1. lia.
Qed.

Lemma fold_cons {A} (l acc : list A) : fold_left (λ st c, c :: st) (reverse l) acc = l ++ acc.
Proof.
  revert acc. induction l as [|x l IH] using rev_ind; intros acc; [done|].
  rewrite reverse_app. cbn [reverse rev_append app fold_left]. change (rev_append [x] []) with [x]. cbn [app fold_left].
  rewrite IH. by rewrite <- (assoc_L (++)).
Qed.

Lemma concatFlattenLoop_spec fuel : ∀ ps rs,
  Forall part_ok ps → Forall part_ok rs → (sum_list_with nsize (pnode <$> ps) < fuel)%nat →
  ∃ qs, concatFlattenLoop fuel (pnode <$> ps) (pnode <$> rs) = Some (pnode <$> qs) ∧ Forall part_ok qs ∧
    cat_eq (rs ++ ps) qs ∧ (length rs + length ps ≤ length qs)%nat.
Proof.
  induction fuel as [|fuel IH]; intros ps rs Hps Hrs Hf; [lia|]. cbn [concatFlattenLoop].
  destruct Hps as [|p ps Hp Hps]; cbn [fmap list_fmap].
  { exists rs. rewrite app_nil_r. split_and!; [done..|simpl; lia]. }
  cbn [fmap list_fmap sum_list_with] in Hf.
  destruct (isKind BITVECTOR_CONCAT (pnode p)) eqn:Hk.
  - apply isKind_eq in Hk as [cs E]. destruct (cat_eq_concat p cs Hp E) as (ps'&->&HF&Hl&Heq).
    rewrite E. cbn [children]. rewrite fold_cons. rewrite <- fmap_app.
    rewrite E, nsize_node in Hf.
    destruct (IH (ps' ++ ps) rs) as (qs&->&HQ&Heq'&Hlen); [by apply Forall_app|done| |].
    { rewrite fmap_app, sum_list_with_app. lia. }
    exists qs. split_and!; [done..| |rewrite length_app in Hlen; cbn [length]; lia].
    etrans; [|exact Heq']. apply cat_eq_app; [done|done|by constructor|by apply Forall_app|done|].
    apply (cat_eq_app [p] ps' ps ps); try done. by constructor.
  - replace ((pnode <$> rs) ++ [pnode p]) with (pnode <$> (rs ++ [p])) by (by rewrite fmap_app).
    pose proof (nsize_pos (pnode p)).
    destruct (IH ps (rs ++ [p])) as (qs&->&HQ&Heq&Hlen); [done|apply Forall_app; split; [done|by constructor]| |].
    { lia. }
    exists qs. rewrite <- (assoc_L (++)) in Heq. split_and!; [done..|]. rewrite length_app in Hlen. cbn [length] in *. lia.
Qed.

(** A splitting of a term, put back together. *)
Lemma equiv_concat n ps qs :
  bvterm n (cat_width ps) (cat_val ps) → Forall part_ok qs → cat_eq ps qs → (2 ≤ length qs)%nat → cat_width ps ≤ MAX_CHILDREN →
  equiv n (mkNode BITVECTOR_CONCAT (pnode <$> qs)).
Proof.
  intros Hn HQ [Hw Hv] Hl Hm. pose proof (cat_width_ge qs HQ).
  apply (equiv_bv _ _ _ _ (cat_val qs) Hn); [|intros env Hok _; by rewrite (Hv env Hok)].
  rewrite Hw. apply bv_concatN; [done..|lia|]. unfold MAX_CHILDREN, max_uint32 in *. lia.
Qed.

Lemma equiv_concatList n ps qs :
  bvterm n (cat_width ps) (cat_val ps) → Forall part_ok qs → cat_eq ps qs → (1 ≤ length qs)%nat → cat_width ps ≤ MAX_CHILDREN →
  ∃ n', utils.mkConcatList (pnode <$> qs) = Some n' ∧ equiv n n'.
Proof.
  intros Hn HQ [Hw Hv] Hl Hm. pose proof (cat_width_ge qs HQ).
  destruct (mkConcatList_term qs) as (n'&E&Hn'); [done..|lia|unfold MAX_CHILDREN, max_uint32 in *; lia|].
  exists n'. split; [done|]. apply (equiv_bv _ _ _ _ (cat_val qs) Hn); [by rewrite Hw|]. intros env Hok _. by rewrite (Hv env Hok).
Qed.

(** What a rule on concatenations works on. *)
Lemma open_concat n τ :
  wt n τ → tsmall τ → isKind BITVECTOR_CONCAT n = true →
  ∃ ps, n = mkNode BITVECTOR_CONCAT (pnode <$> ps) ∧ Forall part_ok ps ∧ (2 ≤ length ps)%nat ∧
    cat_width ps ≤ MAX_CHILDREN ∧ bvterm n (cat_width ps) (cat_val ps).
Proof.
  intros Hn Hs Hk. apply isKind_eq in Hk as [cs ->]. destruct (concat_terms cs τ Hn) as (ps&->&HF&->&Hl&Hm&Hw).
  exists ps. split_and!; try done. by apply bv_concatN.
Qed.

Lemma concatFlatten_ok : rule_ok ConcatFlatten.
Proof.
  intros n τ Hn Hs Hap. destruct (open_concat n τ Hn Hs Hap) as (ps&->&HF&Hl&Hm&Hb).
  cbn [apply ConcatFlatten concatFlattenLoop isKind children].
  rewrite bool_decide_true by done. rewrite fold_cons, app_nil_r.
  destruct (concatFlattenLoop_spec (nsize (mkNode BITVECTOR_CONCAT (pnode <$> ps))) ps []) as (qs&E&HQ&Heq&Hlen);
    [done|constructor|rewrite nsize_node; lia|]. cbn [fmap list_fmap] in E.
  rewrite E. cbn [mbind option_bind]. eexists. split; [done|]. eapply equiv_concat; [done..|cbn in Hlen; lia|done].
Qed.

(** ** Extracts *)

(** The low [m + k] bits are [m] bits above [k] bits. *)
Lemma wrap_split m k y : 0 ≤ m → 0 ≤ k → wrap (m + k) y = wrap m (y / 2 ^ k) * 2 ^ k + wrap k y.
Proof.
  intros Hm Hk. unfold wrap. pose proof (pow2_pos m Hm). pose proof (pow2_pos k Hk).
  rewrite (Z.add_comm m k), Z.pow_add_r, Z.rem_mul_r by lia. lia.
Qed.

Lemma div_pow2_add x a b : 0 ≤ a → 0 ≤ b → x / 2 ^ (a + b) = x / 2 ^ a / 2 ^ b.
Proof. intros Ha Hb. rewrite Z.pow_add_r by lia. pose proof (pow2_pos a Ha). pose proof (pow2_pos b Hb). by rewrite Z.div_div by lia. Qed.

Lemma wrap_wrap w w' y : 0 ≤ w ≤ w' → wrap w (wrap w' y) = wrap w y.
Proof.
  intros Hw. unfold wrap. rewrite <- (Z.mod_mod_divide y (2 ^ w') (2 ^ w)); [done|].
  exists (2 ^ (w' - w)). rewrite <- pow2_add by lia. f_equal. lia.
Qed.

(** Low bits of a slice. *)
Lemma wrap_div w w' l x : 0 ≤ l → 0 ≤ w → l + w ≤ w' → wrap w (wrap w' x / 2 ^ l) = wrap w (x / 2 ^ l).
Proof.
  intros Hl Hw Hb. pose proof (pow2_pos l Hl). replace w' with ((w' - l) + l) by lia. rewrite wrap_split by lia.
  rewrite Z.div_add_l, (Z.div_small (wrap l x)) by (apply wrap_bound || lia; lia). rewrite Z.add_0_r. apply wrap_wrap. lia.
Qed.

Definition extract_part (a : Node) (fa : Env → Z) (h l : Z) : part :=
  mkPart (utils.mkExtract a h l) (h - l + 1) (λ env, wrap (h - l + 1) (fa env / 2 ^ l)).

Lemma extract_part_ok a w fa h l : bvterm a w fa → 0 ≤ l ≤ h → h < w → part_ok (extract_part a fa h l).
Proof. intros Ha Hl Hh. exact (bv_extract a w fa Ha h l Hl Hh). Qed.

(** A part that is an extract. *)
Lemma cat_eq_extract p h l cs :
  part_ok p → pnode p = mkNode (BITVECTOR_EXTRACT h l) cs →
  ∃ a w, cs = [a] ∧ bvterm a w (bv_of a) ∧ 0 ≤ l ≤ h ∧ h < w ∧ cat_eq [p] [extract_part a (bv_of a) h l].
Proof.
  intros Hp E. unfold part_ok in Hp. rewrite E in Hp. pose proof Hp as (Hwt&_&_).
  destruct (extract_terms h l cs _ Hwt) as (a&w&->&Ha&Hl&Hh&_). exists a, w. split_and!; try done; try lia.
  destruct (bvterm_det _ _ _ _ _ Hp (extract_part_ok a w _ h l Ha Hl Hh)) as [E1 E2]. split; [cbn in *; lia|].
  intros env Hok. cbn in *. by rewrite E2.
Qed.

Lemma cat_eq_merge a fa h l l' :
  0 ≤ l' ≤ l - 1 → l ≤ h → cat_eq [extract_part a fa h l; extract_part a fa (l - 1) l'] [extract_part a fa h l'].
Proof.
  intros Hl Hh. split; [cbn; lia|]. intros env _. cbn. change (2 ^ 0) with 1.
  replace (l - 1 - l' + 1) with (l - l') by lia. replace (h - l' + 1) with ((h - l + 1) + (l - l')) by lia.
  rewrite (wrap_split (h - l + 1) (l - l')) by lia. rewrite <- div_pow2_add by lia.
  rewrite Z.add_0_r. replace (l' + (l - l')) with l by lia. lia.
Qed.

(** The part that [current] stands for in the loop of [ConcatExtractMerge]. *)
Inductive cur_part : Node → bool → Z → Z → part → Prop :=
  | cur_plain p h l : part_ok p → cur_part (pnode p) false h l p
  | cur_merge a w h0 l0 h l :
      bvterm a w (bv_of a) → 0 ≤ l ≤ h → h < w →
      cur_part (mkNode1 (BITVECTOR_EXTRACT h0 l0) a) true h l (extract_part a (bv_of a) h l).

Lemma cur_part_ok current st h l p : cur_part current st h l p → part_ok p.
Proof. intros []; [done|]. by eapply extract_part_ok. Qed.

(** An extract as [current]: its range, and the node that is pushed. *)
Lemma cur_part_extract current st h l p :
  cur_part current st h l p → isExtract current = true →
  ∃ a w h' l' h0 l0, current = mkNode1 (BITVECTOR_EXTRACT h0 l0) a ∧ bvterm a w (bv_of a) ∧ 0 ≤ l' ≤ h' ∧ h' < w ∧
    (if st then Some (h, l) else h ← getExtractHigh current; l ← getExtractLow current; Some (h, l)) = Some (h', l') ∧
    cat_eq [p] [extract_part a (bv_of a) h' l'] ∧ (if st then utils.mkExtract a h' l' else current) = pnode p.
Proof.
  intros [p' h' l' Hp|a w h0 l0 h' l' Ha Hl Hh] Hx.
  - destruct (pnode p') as [| | | |[] cs] eqn:E; try done.
    destruct (cat_eq_extract p' _ _ cs Hp E) as (a&w&->&Ha&Hl&Hh&Heq). exists a, w, d_high, d_low, d_high, d_low.
    split_and!; try done; lia.
  - exists a, w, h', l', h0, l0. split_and!; try done; lia.
Qed.

Lemma cat_eq_cons p ps p' ps' :
  part_ok p → part_ok p' → Forall part_ok ps → Forall part_ok ps' → cat_eq [p] [p'] → cat_eq ps ps' → cat_eq (p :: ps) (p' :: ps').
Proof. intros Hp Hp' HF HF'. apply (cat_eq_app [p] [p'] ps ps'); [by constructor..|done|done]. Qed.

Lemma Forall_ok_snoc ps p : Forall part_ok ps → part_ok p → Forall part_ok (ps ++ [p]).
Proof. intros. apply Forall_app. split; [done|by constructor]. Qed.

Lemma extractMergeLoop_spec ps : ∀ current st h l c ds,
  Forall part_ok ps → Forall part_ok ds → cur_part current st h l c →
  ∃ qs, extractMergeLoop current st h l (pnode <$> ds) (pnode <$> ps) = Some (pnode <$> qs) ∧
    Forall part_ok qs ∧ cat_eq (ds ++ c :: ps) qs ∧ (1 ≤ length qs)%nat.
Proof.
  induction ps as [|p ps IH]; intros current st h l c ds HF Hds Hc; cbn [fmap list_fmap extractMergeLoop].
  { pose proof (cur_part_ok _ _ _ _ _ Hc). exists (ds ++ [c]). rewrite fmap_app, length_app. cbn [fmap list_fmap length].
    split_and!; [|by apply Forall_ok_snoc|done|lia]. by destruct Hc. }
  inversion HF as [|? ? Hp HF']; subst. pose proof (cur_part_ok _ _ _ _ _ Hc) as Hcok.
  assert (∀ h l, ∃ qs, extractMergeLoop (pnode p) false h l ((pnode <$> ds) ++ [pnode c]) (pnode <$> ps) = Some (pnode <$> qs) ∧
    Forall part_ok qs ∧ cat_eq (ds ++ c :: p :: ps) qs ∧ (1 ≤ length qs)%nat) as Hpush.
  { intros h' l'. destruct (IH (pnode p) false h' l' p (ds ++ [c]) HF') as (qs&E&HQ&Heq&Hl);
      [by apply Forall_ok_snoc|by constructor|]. exists qs. rewrite fmap_app, <- (assoc_L (++)) in *. by split_and!. }
  destruct (isExtract current) eqn:Hx; cbn [negb].
  - destruct (cur_part_extract _ _ _ _ _ Hc Hx) as (a&w&h'&l'&h0&l0&->&Ha&Hl&Hh&->&Heq&Hpn).
    cbn [mbind option_bind child children lookup list_lookup]. rewrite Hpn.
    destruct (isExtract (pnode p)) eqn:Hxp; cbn [andb mbind option_bind]; [|apply Hpush].
    destruct (pnode p) as [| | | |[] cs] eqn:Ep; try done. destruct (cat_eq_extract p _ _ cs Hp Ep) as (b&wb&->&Hb&Hlb&Hhb&Heqb).
    cbn [child children lookup list_lookup]. case_bool_decide as Hab; [|apply Hpush]. subst b.
    cbn [getExtractHigh getExtractLow mbind option_bind]. pose proof Hb as (_&Hwb&_).
    case_decide as Hm; [|apply Hpush]. rewrite u32_small in Hm by (unfold max_uint32 in Hwb; lia).
    destruct (IH _ true h' d_low _ ds HF' Hds (cur_merge a w h0 l0 h' d_low Ha ltac:(lia) Hh)) as (qs&E&HQ&Heq'&Hlq).
    exists qs. split_and!; try done. etrans; [|exact Heq'].
    assert (part_ok (extract_part a (bv_of a) h' l')) as H1 by exact (extract_part_ok a w _ h' l' Ha Hl Hh).
    assert (part_ok (extract_part a (bv_of a) h' d_low)) as H2 by (eapply extract_part_ok; [exact Ha|lia..]).
    assert (part_ok (extract_part a (bv_of a) d_high d_low)) as H3 by exact (extract_part_ok a wb _ d_high d_low Hb Hlb Hhb).
    apply cat_eq_app; [parts..|done|].
    apply (cat_eq_app [c; p] [extract_part a (bv_of a) h' d_low] ps ps); [parts..| |done].
    etrans; [apply (cat_eq_cons c [p] _ [extract_part a (bv_of a) d_high d_low] Hcok H1); [parts..|exact Heq|exact Heqb]|].
    replace d_high with (l' - 1) by lia. apply cat_eq_merge; lia.
  - assert (st = false ∧ current = pnode c) as [-> ->] by (by destruct Hc). apply Hpush.
Qed.

Lemma concatExtractMerge_ok : rule_ok ConcatExtractMerge.
Proof.
  intros n τ Hn Hs Hap. destruct (open_concat n τ Hn Hs Hap) as (ps&->&HF&Hl&Hm&Hb).
  destruct ps as [|p ps]; [simpl in Hl; lia|]. inversion HF; subst.
  cbn [apply ConcatExtractMerge child children lookup list_lookup fmap list_fmap mbind option_bind tail].
  destruct (extractMergeLoop_spec ps (pnode p) false 0 0 p []) as (qs&E&HQ&Heq&Hlen); [done|constructor|by constructor|].
  cbn [fmap list_fmap] in E. rewrite E. cbn [mbind option_bind]. by eapply equiv_concatList.
Qed.

Section constants.
Context `{!Gmp, !GmpLaws}.

(** A constant as a part. *)
Definition const_part (a : BitVector) : part := mkPart (mkConstBV a) (d_size a) (λ _, d_value a).

Lemma const_part_ok a : wf_bv a → part_ok (const_part a).
Proof. destruct a. intros [Hw Hv]. by apply bv_constBV. Qed.

#[local] Hint Resolve const_part_ok : parts.

Lemma cat_eq_const p a : part_ok p → pnode p = mkConstBV a → wf_bv a ∧ cat_eq [p] [const_part a].
Proof.
  intros Hp E. unfold part_ok in Hp. rewrite E in Hp. pose proof Hp as ([Ht _]&_&_).
  destruct (const_bv (mkConstBV a) (pwidth p) eq_refl Ht) as (a'&[= <-]&Hwf&_). split; [done|].
  destruct (bvterm_det _ _ _ _ _ Hp (const_part_ok a Hwf)) as [E1 E2]. split; [cbn in *; lia|].
  intros env Hok. cbn in *. by rewrite E2.
Qed.

Lemma constSequence_spec ps :
  Forall part_ok ps →
  ∃ seq rest, constSequence (pnode <$> ps) = (seq, pnode <$> rest) ∧ Forall wf_bv seq ∧ Forall part_ok rest ∧
    cat_eq ps ((const_part <$> seq) ++ rest) ∧ (length rest ≤ length ps)%nat.
Proof.
  induction 1 as [|p ps Hp HF IH]; [by exists [], []|]. cbn [fmap list_fmap].
  destruct (pnode p) as [| | |a|] eqn:E; try (exists [], (p :: ps); cbn [constSequence fmap list_fmap app]; rewrite E; split_and!; [done|constructor|by constructor|done|simpl; lia]).
  destruct IH as (seq&rest&Es&Hs&Hr&Heq&Hl). cbn [constSequence]. rewrite Es. destruct (cat_eq_const p a Hp E) as [Hwf Hca].
  exists (a :: seq), rest. split_and!; [done|by constructor|done| |simpl; lia]. cbn [fmap list_fmap app].
  apply cat_eq_cons; [done|by apply const_part_ok|done| |done|done].
  apply Forall_app. split; [|done]. apply Forall_fmap. eapply list.Forall_impl; [exact Hs|]. apply const_part_ok.
Qed.

Lemma concat_consts_eq seq : ∀ a,
  wf_bv a → Forall wf_bv seq → d_size a + cat_width (const_part <$> seq) ≤ max_uint32 →
  wf_bv (fold_left BV.concat seq a) ∧ cat_eq (const_part a :: (const_part <$> seq)) [const_part (fold_left BV.concat seq a)].
Proof.
  induction seq as [|b seq IH]; intros a Ha HF Hs; cbn [fold_left fmap list_fmap]; [done|].
  inversion HF as [|? ? Hb HF']; subst. cbn [fmap list_fmap cat_width const_part pwidth] in Hs.
  assert (Forall part_ok (const_part <$> seq)) as HP.
  { apply Forall_fmap. eapply list.Forall_impl; [exact HF'|]. apply const_part_ok. }
  pose proof (cat_width_ge _ HP). rewrite concat_spec by (done || lia).
  assert (wf_bv (mkBitVector (d_size a + d_size b) (d_value a * 2 ^ d_size b + d_value b))) as Hab.
  { destruct Ha as [[? _] ?], Hb as [[? _] ?]. split; [cbn; lia|]. apply concat_bound; cbn; lia. }
  destruct (IH _ Hab HF') as [Hwf Heq]; [cbn; lia|]. split; [done|]. etrans; [|exact Heq].
  apply (cat_eq_app [const_part a; const_part b] [_] _ _);
    [parts..| |done].
  split; [cbn; lia|]. intros env _. cbn. change (2 ^ 0) with 1. rewrite !Z.add_0_r. lia.
Qed.

Lemma constantMergeLoop_spec fuel : ∀ ps,
  Forall part_ok ps → (length ps < fuel)%nat → cat_width ps ≤ max_uint32 →
  ∃ qs, constantMergeLoop fuel (pnode <$> ps) = Some (pnode <$> qs) ∧ Forall part_ok qs ∧ cat_eq ps qs.
Proof.
  induction fuel as [|fuel IH]; intros ps HF Hl Hw; [lia|]. destruct HF as [|p ps Hp HF]; [by exists []|].
  cbn [fmap list_fmap length cat_width] in *. pose proof (cat_width_ge _ HF) as Hge. pose proof Hp as (_&Hpw&_).
  destruct (pnode p) as [| | |a|] eqn:E.
  4:{ cbn [constantMergeLoop]. destruct (constSequence_spec ps HF) as (seq&rest&->&Hs&Hr&[Hew Hev]&Hlr).
      destruct (cat_eq_const p a Hp E) as [Hwf Hca].
      assert (Forall part_ok (const_part <$> seq)) as HP.
      { apply Forall_fmap. eapply list.Forall_impl; [exact Hs|]. apply const_part_ok. }
      rewrite cat_width_app in Hew. pose proof (cat_width_ge _ HP). pose proof (cat_width_ge _ Hr).
      destruct Hca as [Hcw Hcv]. cbn in Hcw. destruct (IH rest Hr) as (qs&->&HQ&Heq); [lia..|].
      destruct (concat_consts_eq seq a Hwf Hs) as [Hwf' Heqc]; [lia|].
      exists (const_part (fold_left BV.concat seq a) :: qs). split_and!; [done|constructor; [by apply const_part_ok|done]|].
      trans ((const_part a :: (const_part <$> seq)) ++ rest).
      - cbn [app]. apply cat_eq_cons; [done|by apply const_part_ok|done|by apply Forall_app|split; [cbn; lia|done]|].
        split; [rewrite cat_width_app; lia|done].
      - apply (cat_eq_app _ [_] rest qs); [parts..|done|done]. }
  all: destruct (IH ps HF ltac:(lia) ltac:(lia)) as (qs&E'&HQ&Heq); cbn [constantMergeLoop]; rewrite E'; rewrite <- E;
    exists (p :: qs); (split_and!; [done|by constructor|]); by apply cat_eq_cons.
Qed.

Lemma concatConstantMerge_ok : rule_ok ConcatConstantMerge.
Proof.
  intros n τ Hn Hs Hap. destruct (open_concat n τ Hn Hs Hap) as (ps&->&HF&Hl&Hm&Hb).
  cbn [apply ConcatConstantMerge children].
  destruct (constantMergeLoop_spec (S (length (pnode <$> ps))) ps HF) as (qs&E&HQ&Heq);
    [rewrite length_fmap; lia|unfold MAX_CHILDREN, max_uint32 in *; lia|].
  rewrite E. cbn [mbind option_bind]. eapply equiv_concatList; [done..| |done].
  destruct qs; [|simpl; lia]. destruct Heq as [Heq _]. pose proof (cat_width_ge _ HF). cbn in Heq. lia.
Qed.

(** ** Rules for extracts *)

Lemma isExtract_inv n : isExtract n = true → ∃ h l cs, n = mkNode (BITVECTOR_EXTRACT h l) cs.
Proof. destruct n as [| | | |[]]; try done. eauto. Qed.

Lemma extractWhole_ok : rule_ok ExtractWhole.
Proof using Type.
  intros n τ Hn _ Hap. cbn [applies ExtractWhole] in Hap. destruct (isExtract n) eqn:Hx; [|done].
  apply isExtract_inv in Hx as (h&l&cs&->). destruct (extract_terms h l cs τ Hn) as (a&w&->&Ha&Hl&Hh&->).
  cbn [assert mbind option_bind child children lookup list_lookup] in Hap. rewrite (getSize_term _ _ _ Ha) in Hap.
  cbn [mbind option_bind getExtractHigh getExtractLow] in Hap. nofail. pose proof Ha as (_&Hw&_).
  match goal with H : h = u32 _ |- _ => rewrite u32_small in H by (unfold max_uint32 in Hw; lia) end. subst.
  exists a. split; [done|]. pose proof (bv_extract a w _ Ha (w - 1) 0 ltac:(lia) ltac:(lia)) as He.
  eapply equiv_bv; [exact He|eapply bvterm_ext; [exact Ha|lia|done]|]. intros env Hok _. cbv beta.
  destruct Ha as (_&_&Ha). destruct (Ha env Hok) as [_ Hb]. replace (w - 1 - 0 + 1) with w by lia.
  rewrite Z.pow_0_r, Z.div_1_r. by rewrite wrap_small.
Qed.

Lemma extractConstant_ok : rule_ok ExtractConstant.
Proof.
  intros n τ Hn _ Hap. cbn [applies ExtractConstant] in Hap. nofail.
  match goal with H : isExtract _ = true |- _ => apply isExtract_inv in H as (h&l&cs&->) end.
  destruct (extract_terms h l cs τ Hn) as (a&w&->&Ha&Hl&Hh&->). cbn in *. destruct a as [| | |c|]; try done.
  pose proof Ha as ([Ht _]&_&_). destruct (const_bv (mkConstBV c) w eq_refl Ht) as (c'&[= <-]&Hwf&Hsz).
  unfold constChild. cbn. rewrite extract_spec by (done || lia). eexists. split; [done|].
  pose proof (bv_extract _ w _ Ha h l ltac:(lia) ltac:(lia)) as He. pose proof Ha as (_&Hw&_).
  eapply equiv_bv; [exact He|apply bv_constBV; [lia|apply wrap_bound; lia]|]. done.
Qed.

Lemma extractExtractLoop_spec c : ∀ j w,
  bvterm c w (bv_of c) → isExtract c = true → 0 ≤ j ≤ w →
  ∃ j' a w', extractExtractLoop j c = Some (j', a) ∧ bvterm a w' (bv_of a) ∧ j ≤ j' ∧ j' - j + w ≤ w' ∧ 
    ∀ env, env_ok env → bv_of c env = wrap w (bv_of a env / 2 ^ (j' - j)).
Proof using Type.
  induction c as [| | | |k cs IH] using Node_ind'; intros j w Hc Hx Hj; try done.
  destruct k; try done. pose proof Hc as (Hwt&Hw&_). destruct (extract_terms _ _ cs _ Hwt) as (a&wa&->&Ha&Hl&Hh&[= E]).
  pose proof Ha as (_&Hwa&_). inversion IH as [|? ? IHa _]; subst. cbn [extractExtractLoop].
  rewrite u32_small by (unfold max_uint32 in *; lia).
  destruct (bvterm_det _ _ _ _ _ Hc (bv_extract a wa _ Ha d_high d_low Hl Hh)) as [_ Hv].
  destruct (isExtract a) eqn:Hxa.
  - destruct (IHa (j + d_low) wa Ha eq_refl) as (j'&a'&w'&->&Ha'&Hjj&Hjw&Hv'); [lia|].
    exists j', a', w'. split_and!; try done; try lia. intros env Hok. rewrite Hv, Hv' by done.
    rewrite wrap_div by lia. rewrite <- div_pow2_add by lia. do 3 f_equal. lia.
  - exists (j + d_low), a, wa. split_and!; try done; try lia. intros env Hok. rewrite Hv by done. do 3 f_equal. lia.
Qed.

Lemma extractExtract_ok : rule_ok ExtractExtract.
Proof using Type.
  intros n τ Hn _ Hap. cbn [applies ExtractExtract] in Hap. nofail.
  match goal with H : isExtract _ = true |- _ => apply isExtract_inv in H as (h&l&cs&->) end.
  destruct (extract_terms h l cs τ Hn) as (c&w&->&Hc&Hl&Hh&->).
  match goal with H : childIs _ _ _ = true |- _ => cbn in H end. pose proof Hc as (_&Hw&_).
  destruct (extractExtractLoop_spec c 0 w Hc) as (j&a&w'&E&Ha&Hj&Hjw&Hv); [done|lia|]. rewrite Z.sub_0_r in *.
  cbn [apply ExtractExtract child children lookup list_lookup mbind option_bind]. rewrite E.
  cbn [mbind option_bind getExtractHigh getExtractLow]. pose proof Ha as (_&Hwa&_).
  rewrite !u32_small by (unfold max_uint32 in *; lia). eexists. split; [done|].
  eapply equiv_bv; [exact (bv_extract c w _ Hc h l Hl Hh)| |].
  - eapply bvterm_ext; [exact (bv_extract a w' _ Ha (h + j) (l + j) ltac:(lia) ltac:(lia))|lia|done].
  - intros env Hok _. cbv beta. rewrite Hv by done. rewrite wrap_div by lia. rewrite (Z.add_comm l j), div_pow2_add by lia.
    f_equal. lia.
Qed.

Lemma cat_width_reverse ps : cat_width (reverse ps) = cat_width ps.
Proof using Type.
  induction ps as [|p ps IH]; [done|]. rewrite reverse_cons, cat_width_app, IH. cbn. lia.
Qed.

Lemma int32_small z : 0 ≤ z < 2 ^ 31 → int32 z = z.
Proof using Type. intros Hz. unfold int32. rewrite u32_small by lia. by rewrite decide_True by lia. Qed.

(** The slices of [V] above [v], [w] bits wide. *)
Lemma slice_across V v w s h : 0 ≤ v < 2 ^ w → 0 ≤ s < w → w ≤ h →
  wrap (h - s + 1) ((V * 2 ^ w + v) / 2 ^ s) = wrap (h - w + 1) V * 2 ^ (w - s) + wrap (w - s) (v / 2 ^ s).
Proof using Type.
  intros Hv Hs Hh. pose proof (pow2_pos s ltac:(lia)). replace w with ((w - s) + s) at 1 by lia. rewrite pow2_add by lia.
  replace (V * (2 ^ (w - s) * 2 ^ s) + v) with ((V * 2 ^ (w - s)) * 2 ^ s + v) by ring. rewrite Z.div_add_l by lia.
  replace (h - s + 1) with ((h - w + 1) + (w - s)) by lia. rewrite wrap_split by lia. pose proof (pow2_pos (w - s) ltac:(lia)).
  rewrite Z.div_add_l, (Z.div_small (v / 2 ^ s)), Z.add_0_r by
    (lia || (split; [apply Z.div_pos; lia|]; apply Z.div_lt_upper_bound; [lia|]; rewrite <- pow2_add by lia; replace (s + (w - s)) with w by lia; lia)).
  f_equal. apply (wrap_congr _ _ _ V); lia.
Qed.

Lemma slice_low V v w s h : 0 ≤ v < 2 ^ w → 0 ≤ s ≤ h → h < w →
  wrap (h - s + 1) ((V * 2 ^ w + v) / 2 ^ s) = wrap (h - s + 1) (v / 2 ^ s).
Proof using Type.
  intros Hv Hs Hh. pose proof (pow2_pos s ltac:(lia)).
  replace w with ((w - 1 - h) + (h - s + 1) + s) at 1 by lia.
  rewrite (pow2_add (w - 1 - h + (h - s + 1)) s), (pow2_add (w - 1 - h) (h - s + 1)) by lia.
  replace (V * (2 ^ (w - 1 - h) * 2 ^ (h - s + 1) * 2 ^ s) + v) with ((V * 2 ^ (w - 1 - h) * 2 ^ (h - s + 1)) * 2 ^ s + v) by ring.
  rewrite Z.div_add_l by lia. apply (wrap_congr _ _ _ (V * 2 ^ (w - 1 - h))); lia.
Qed.

Lemma slice_high V v w l : 0 ≤ v < 2 ^ w → 0 ≤ w ≤ l → (V * 2 ^ w + v) / 2 ^ l = V / 2 ^ (l - w).
Proof using Type.
  intros Hv Hl. replace l with (w + (l - w)) at 1 by lia. rewrite div_pow2_add by lia. pose proof (pow2_pos w ltac:(lia)).
  by rewrite Z.div_add_l, (Z.div_small v), Z.add_0_r by lia.
Qed.

(** The slice of a concatenation, from its last part. *)
Lemma extractConcatLoop_spec rs : ∀ h l acc,
  Forall part_ok rs → cat_width rs < 2 ^ 31 → l ≤ h → h < cat_width rs →
  ∃ qs, extractConcatLoop h l acc (pnode <$> rs) = Some (acc ++ (pnode <$> qs)) ∧ Forall part_ok qs ∧
    (if decide (0 ≤ h) then
       cat_width (reverse qs) = h - Z.max l 0 + 1 ∧
       ∀ env, env_ok env → cat_val (reverse qs) env =
         wrap (h - Z.max l 0 + 1) (cat_val (reverse rs) env / 2 ^ Z.max l 0)
     else qs = []).
Proof using Type.
  induction rs as [|p rs IH]; intros h l acc HF Hs Hlh Hh; cbn [fmap list_fmap extractConcatLoop].
  { exists []. cbn in Hh. rewrite app_nil_r, decide_False by lia. by split_and!. }
  inversion HF as [|? ? Hp HF']; subst. cbn [cat_width] in *. pose proof (cat_width_ge _ HF'). pose proof Hp as (_&Hw&Hpe).
  case_decide as H0h; [|exists []; rewrite app_nil_r; by split_and!].
  rewrite (getSize_term _ _ _ Hp). cbn [mbind option_bind]. rewrite int32_small by lia.
  assert (Forall part_ok (reverse rs)) as HFr by (by apply Forall_reverse).
  assert (∀ env, cat_val (reverse (p :: rs)) env = cat_val (reverse rs) env * 2 ^ pwidth p + pval p env) as HV.
  { intros env. rewrite reverse_cons, cat_val_app by (done || parts). cbn. change (2 ^ 0) with 1. rewrite !Z.add_0_r. lia. }
  case_decide as Hlw.
  - set (s := if decide (l < 0) then 0 else l). set (e := if decide (h < pwidth p) then h else pwidth p - 1).
    assert (s = Z.max l 0) as Es by (unfold s; case_decide; lia).
    assert (0 ≤ s ≤ e ∧ e < pwidth p) as [Hse Hew] by (unfold e; case_decide; lia).
    pose proof (extract_part_ok (pnode p) _ _ e s Hp Hse Hew) as Hx.
    destruct (IH (h - pwidth p) (l - pwidth p) (acc ++ [utils.mkExtract (pnode p) e s]) HF') as (qs&->&HQ&Hqs); [lia..|].
    exists (extract_part (pnode p) (pval p) e s :: qs). rewrite <- (assoc_L (++)). split; [done|]. split; [by constructor|].
    rewrite <- Es, reverse_cons, cat_width_app. cbn [cat_width extract_part pwidth].
    unfold e in *. destruct (decide (h < pwidth p)) as [Hhp|Hhp].
    + rewrite decide_False in Hqs by lia. subst qs. split; [cbn; lia|]. intros env Hok. rewrite HV.
      destruct (Hpe env Hok) as [_ Hpb]. rewrite slice_low by lia. cbn. change (2 ^ 0) with 1. lia.
    + rewrite decide_True in Hqs by lia. destruct Hqs as [Hqw Hqv]. rewrite Z.max_r in Hqw, Hqv by lia.
      split; [rewrite Hqw; lia|]. intros env Hok. rewrite HV. destruct (Hpe env Hok) as [_ Hpb].
      rewrite cat_val_app by (parts; by apply Forall_reverse). rewrite Hqv, slice_across by (done || lia).
      rewrite Z.pow_0_r, Z.div_1_r. cbn [cat_width cat_val extract_part pwidth pval]. change (2 ^ 0) with 1.
      replace (pwidth p - 1 - s + 1 + 0) with (pwidth p - s) by lia. replace (pwidth p - 1 - s + 1) with (pwidth p - s) by lia.
      replace (h - pwidth p - 0 + 1) with (h - pwidth p + 1) by lia. lia.
  - destruct (IH (h - pwidth p) (l - pwidth p) acc HF') as (qs&->&HQ&Hqs); [lia..|].
    exists qs. split; [done|]. split; [done|]. rewrite decide_True in Hqs by lia. rewrite !Z.max_l in * by lia.
    destruct Hqs as [Hqw Hqv]. split; [lia|]. intros env Hok. rewrite HV. destruct (Hpe env Hok) as [_ Hpb].
    rewrite slice_high by lia. rewrite Hqv by done. f_equal. lia.
Qed.

Lemma extractConcat_sound : sound ExtractConcat.
Proof using Type.
  intros n τ Ht Hc Hsm Hap. cbn [applies ExtractConcat] in Hap. nofail.
  match goal with H : isExtract _ = true |- _ => apply isExtract_inv in H as (h&l&cs&->) end.
  destruct (extract_terms h l cs τ ltac:(by split)) as (c&w&->&Hb&Hl&Hh&->).
  match goal with H : childIs _ _ _ = true |- _ => cbn in H; apply isKind_eq in H as [cs ->] end.
  pose proof Hb as (Hwt&Hw&_). destruct (concat_terms cs _ Hwt) as (ps&->&HF&[= ->]&Hlen&Hm&_).
  destruct (small_width _ (mkNode BITVECTOR_CONCAT (pnode <$> ps)) (cat_width ps) Hsm) as [Hsmall _]; [by left|apply Hwt|].
  unfold MAX_CHILDREN in Hsmall. cbn [apply ExtractConcat getExtractHigh getExtractLow child children lookup list_lookup mbind option_bind].
  rewrite !int32_small by lia. rewrite <- fmap_reverse.
  destruct (extractConcatLoop_spec (reverse ps) h l []) as (qs&->&HQ&Hqs); [by apply Forall_reverse|rewrite ?cat_width_reverse; lia..|].
  rewrite decide_True, Z.max_l in Hqs by lia. destruct Hqs as [Hqw Hqv]. cbn [app mbind option_bind]. rewrite <- fmap_reverse.
  assert (Forall part_ok (reverse qs)) as HQr by (by apply Forall_reverse). pose proof (cat_width_ge _ HQr).
  destruct (mkConcatList_term (reverse qs)) as (n'&->&Hn'); [done| |unfold MAX_CHILDREN; lia|unfold max_uint32; lia|].
  { destruct (reverse qs); [cbn in Hqw; lia|simpl; lia]. }
  eexists. split; [done|]. rewrite Hqw in Hn'. eapply equiv_bv; [exact (bv_extract _ _ _ Hb h l Hl Hh)|exact Hn'|].
  intros env Hok _. rewrite Hqv, reverse_involutive by done.
  by destruct (bvterm_det _ _ _ _ _ Hb (bv_concatN ps HF Hlen Hm ltac:(lia))) as [_ ->].
Qed.

End constants.
