(* ===== verification/BvSimplify.v ===== *)
(** [theory/bv/theory_bv_rewrite_rules_simplification.h]: the simplification
    rules.  A condition whose evaluation runs into a failed assertion does not
    hold ([holds]); on typed terms no assertion fails. *)
From stdpp Require Import base option list numbers.
From S2P Require Import Prelude Integer Node TypeRules BitVectorUtil BvElim BvConst BvCore.
Open Scope Z_scope.

Definition holds (o : option bool) : bool := match o with Some b => b | None => false end.

(** [a || b] and [a && b], evaluated from left to right. *)
Definition orElse (a b : option bool) : option bool := x ← a; if (x : bool) then Some true else b.
Definition andAlso (a b : option bool) : option bool := x ← a; if (x : bool) then b else Some false.

(** [node[i][j]]. *)
Definition grandchild (node : Node) (i j : nat) : option Node := c ← child node i; child c j.

(** [a == b] for nodes that may be missing. *)
Definition sameNode (a b : option Node) : bool :=
  match a, b with Some a, Some b => bool_decide (a = b) | _, _ => false end.

Section rules.
Context `{!Gmp}.

(** [utils::getBit], [utils::mkRepeat], [utils::mkNaryNode]. *)
Definition getBit (node : Node) (i : Z) : option bool :=
  s ← getSize node;
  _ ← assert (bool_decide (i < s) && isConstBV node);
  bv ← getConstBV node; e ← BV.extract i i bv; Some (bool_decide (BV.getValue e = 1)).

Definition mkRepeat (node : Node) (repeat : Z) : option Node :=
  _ ← assert (bool_decide (repeat ≠ 0)); Some (mkNode1 (BITVECTOR_REPEAT repeat) node).

Definition mkNaryNode (k : Kind) (nodes : list Node) : option Node :=
  _ ← assert (bool_decide (k ∈ [AND; OR; XOR; BITVECTOR_AND; BITVECTOR_OR; BITVECTOR_XOR; BITVECTOR_ADD; BITVECTOR_SUB; BITVECTOR_MULT]));
  match nodes with [n] => Some n | _ => Some (mkNode k nodes) end.

(** [utils::isPow2Const]: the exponent plus one and whether the constant is
    negated, or zero. *)
Definition isPow2Const (node : Node) : option (Z * bool) :=
  match getConstBV node with
  | None => Some (0, false)
  | Some bv =>
      let p := BV.isPow2 bv in
      if decide (p ≠ 0) then Some (p, false)
      else nbv ← BV.neg bv;
           let p := BV.isPow2 nbv in
           if decide (p ≠ 0) then Some (p, true) else Some (0, false)
  end.

(** ** Bits and [BITVECTOR_ITE] *)

Definition BitConst : RewriteRule := {|
  applies node := match node with mkNode (BITVECTOR_BIT _) _ => childIs isConst node 0 | _ => false end;
  apply node :=
    match node with
    | mkNode (BITVECTOR_BIT pos) _ =>
        c ← child node 0; b ← getBit c pos; Some (if (b : bool) then utils.mkTrue else utils.mkFalse)
    | _ => None
    end;
|}.

Definition BvIteConstCond : RewriteRule := {|
  applies node := isKind BITVECTOR_ITE node && childIs isConst node 0;
  apply node := c ← child node 0; z ← utils.isZero c; if (z : bool) then child node 2 else child node 1;
|}.

Definition BvIteEqualChildren : RewriteRule := {|
  applies node := isKind BITVECTOR_ITE node && sameNode (child node 1) (child node 2);
  apply node := child node 1;
|}.

Definition BvIteConstChildren : RewriteRule := {|
  applies node :=
    isKind BITVECTOR_ITE node &&
    holds (c1 ← child node 1; s ← getSize c1; Some (bool_decide (s = 1))) &&
    childIs isConst node 1 && childIs isConst node 2;
  apply node :=
    c0 ← child node 0; c1 ← child node 1; c2 ← child node 2;
    b ← andAlso (utils.isOne c1) (utils.isZero c2);
    if (b : bool) then Some c0
    else b' ← andAlso (utils.isZero c1) (utils.isOne c2);
         _ ← assert b'; Some (mkNode1 BITVECTOR_NOT c0);
|}.

(** [node[i].getKind() == BITVECTOR_ITE && node[0] == node[i][0]]. *)
Definition sameCond (node : Node) (i : nat) : bool :=
  childIs (isKind BITVECTOR_ITE) node i && sameNode (child node 0) (grandchild node i 0).

Definition BvIteEqualCond : RewriteRule := {|
  applies node := isKind BITVECTOR_ITE node && (sameCond node 1 || sameCond node 2);
  apply node :=
    c0 ← child node 0;
    t0 ← (if sameCond node 1 then grandchild node 1 1 else child node 1);
    e1 ← (if sameCond node 2 then grandchild node 2 2 else child node 2);
    Some (mkNode3 BITVECTOR_ITE c0 t0 e1);
|}.

Definition BvIteMergeThenIf : RewriteRule := {|
  applies node :=
    isKind BITVECTOR_ITE node && childIs (isKind BITVECTOR_ITE) node 1 && sameNode (grandchild node 1 1) (child node 2);
  apply node :=
    c0 ← child node 0; c1 ← grandchild node 1 0;
    let cond := mkNode2 BITVECTOR_AND c0 (mkNode1 BITVECTOR_NOT c1) in
    e1 ← grandchild node 1 2; t1 ← child node 2;
    Some (mkNode3 BITVECTOR_ITE cond e1 t1);
|}.

Definition BvIteMergeElseIf : RewriteRule := {|
  applies node :=
    isKind BITVECTOR_ITE node && childIs (isKind BITVECTOR_ITE) node 1 && sameNode (grandchild node 1 2) (child node 2);
  apply node :=
    c0 ← child node 0; c1 ← grandchild node 1 0;
    let cond := mkNode2 BITVECTOR_AND c0 c1 in
    t1 ← grandchild node 1 1; e1 ← child node 2;
    Some (mkNode3 BITVECTOR_ITE cond t1 e1);
|}.

Definition BvIteMergeThenElse : RewriteRule := {|
  applies node :=
    isKind BITVECTOR_ITE node && childIs (isKind BITVECTOR_ITE) node 2 && sameNode (child node 1) (grandchild node 2 1);
  apply node :=
    c0 ← child node 0; c1 ← grandchild node 2 0;
    let cond := mkNode2 BITVECTOR_AND (mkNode1 BITVECTOR_NOT c0) (mkNode1 BITVECTOR_NOT c1) in
    e1 ← grandchild node 2 2; t0 ← child node 1;
    Some (mkNode3 BITVECTOR_ITE cond e1 t0);
|}.

Definition BvIteMergeElseElse : RewriteRule := {|
  applies node :=
    isKind BITVECTOR_ITE node && childIs (isKind BITVECTOR_ITE) node 2 && sameNode (child node 1) (grandchild node 2 2);
  apply node :=
    c0 ← child node 0; c1 ← grandchild node 2 0;
    let cond := mkNode2 BITVECTOR_AND (mkNode1 BITVECTOR_NOT c0) c1 in
    t1 ← grandchild node 2 1; t0 ← child node 1;
    Some (mkNode3 BITVECTOR_ITE cond t1 t0);
|}.

Definition BvComp : RewriteRule := {|
  applies node :=
    isKind BITVECTOR_COMP node &&
    holds (c0 ← child node 0; s ← getSize c0; Some (bool_decide (s = 1))) &&
    (childIs isConst node 0 || childIs isConst node 1);
  apply node :=
    c0 ← child node 0; c1 ← child node 1;
    if isConst c0 then
      z ← utils.isZero c0; Some (if (z : bool) then mkNode1 BITVECTOR_NOT c1 else c1)
    else
      z ← utils.isZero c1; Some (if (z : bool) then mkNode1 BITVECTOR_NOT c0 else c0);
|}.

(** ** Shifts by a constant *)

Definition ShlByConst : RewriteRule := {|
  applies node := isKind BITVECTOR_SHL node && childIs isConstBV node 1;
  apply node :=
    bv ← constChild node 1;
    let amount := BV.getValue bv in
    a ← child node 0;
    if decide (amount = 0) then Some a else
    size ← getSize a;
    if decide (amount >= size) then utils.mkZero size else
    _ ← assert (bool_decide (amount < Integer.multiplyByPow2 1 32));
    let uint32_amount := Integer.toUnsignedInt amount in
    let left := utils.mkExtract a (u32 (size - 1 - uint32_amount)) 0 in
    right ← utils.mkZero uint32_amount;
    Some (utils.mkConcat left right);
|}.

Definition LshrByConst : RewriteRule := {|
  applies node := isKind BITVECTOR_LSHR node && childIs isConstBV node 1;
  apply node :=
    bv ← constChild node 1;
    let amount := BV.getValue bv in
    a ← child node 0;
    if decide (amount = 0) then Some a else
    size ← getSize a;
    if decide (amount >= size) then utils.mkZero size else
    _ ← assert (bool_decide (amount < Integer.multiplyByPow2 1 32));
    let uint32_amount := Integer.toUnsignedInt amount in
    let right := utils.mkExtract a (u32 (size - 1)) uint32_amount in
    left ← utils.mkZero uint32_amount;
    Some (utils.mkConcat left right);
|}.

Definition AshrByConst : RewriteRule := {|
  applies node := isKind BITVECTOR_ASHR node && childIs isConstBV node 1;
  apply node :=
    bv ← constChild node 1;
    let amount := BV.getValue bv in
    a ← child node 0;
    if decide (amount = 0) then Some a else
    size ← getSize a;
    let sign_bit := utils.mkExtract a (u32 (size - 1)) (u32 (size - 1)) in
    if decide (amount >= size) then mkRepeat sign_bit size else
    _ ← assert (bool_decide (amount < Integer.multiplyByPow2 1 32));
    let uint32_amount := Integer.toUnsignedInt amount in
    if decide (uint32_amount = 0) then Some a else
    left ← mkRepeat sign_bit uint32_amount;
    let right := utils.mkExtract a (u32 (size - 1)) uint32_amount in
    Some (utils.mkConcat left right);
|}.

(** ** Bitwise operators over a concatenation with a constant *)

(** [isZero(n) || isOne(n) || isOnes(n)]. *)
Definition isPlainConst (n : Node) : option bool :=
  orElse (orElse (utils.isZero n) (utils.isOne n)) (utils.isOnes n).

(** The first concatenation among the operands, and the other operands. *)
Fixpoint splitConcat (cs : list Node) : option Node * list Node :=
  match cs with
  | [] => (None, [])
  | c :: cs =>
      if isKind BITVECTOR_CONCAT c then (Some c, cs)
      else let '(concat, xb) := splitConcat cs in (concat, c :: xb)
  end.

(** The operands before the first plain constant, the constant, and those after it. *)
Fixpoint splitConst (cs : list Node) : option (list Node * option Node * list Node) :=
  match cs with
  | [] => Some ([], None, [])
  | c :: cs =>
      b ← isPlainConst c;
      if (b : bool) then Some ([], Some c, cs)
      else '(yb, k, zb) ← splitConst cs; Some (c :: yb, k, zb)
  end.

Definition bitwiseKind (node : Node) : option Kind :=
  match node with
  | mkNode BITVECTOR_AND _ => Some BITVECTOR_AND
  | mkNode BITVECTOR_OR _ => Some BITVECTOR_OR
  | mkNode BITVECTOR_XOR _ => Some BITVECTOR_XOR
  | _ => None
  end.

(** [nb.getNumChildren() > 1 ? nb.constructNode() : nb[0]]; [None] if there is
    no child. *)
Definition buildNode (k : Kind) (cs : list Node) : option Node :=
  match cs with [] => None | [c] => Some c | _ => Some (mkNode k cs) end.

Definition sizeOrZero (n : option Node) : option Z := match n with None => Some 0 | Some n => getSize n end.

Definition AndOrXorConcatPullUp : RewriteRule := {|
  applies node :=
    match bitwiseKind node with
    | None => false
    | Some _ =>
        match list_find (isKind BITVECTOR_CONCAT) (children node) with
        | None => false
        | Some (_, c) =>
            match list_find isConst (children c) with
            | None => false
            | Some (_, n) => holds (isPlainConst n)
            end
        end
    end;
  apply node :=
    kind ← bitwiseKind node;
    let '(concat, xb) := splitConcat (children node) in
    x ← buildNode kind xb;
    concat ← concat;
    '(yb, c, zb) ← splitConst (children concat);
    c ← c;
    _ ← assert (negb (bool_decide (yb = [] ∧ zb = [])));
    let y := buildNode BITVECTOR_CONCAT yb in
    let z := buildNode BITVECTOR_CONCAT zb in
    m ← getSize x; n ← getSize c; my ← sizeOrZero y; mz ← sizeOrZero z;
    _ ← assert (bool_decide (mz = u32 (m - my - n)));
    _ ← assert (negb (bool_decide (my = 0 ∧ mz = 0)));
    let mid := mkNode2 kind (utils.mkExtract x (u32 (m - my - 1)) mz) c in
    let top := match y with
               | Some y => if decide (my = 0) then [] else [mkNode2 kind (utils.mkExtract x (u32 (m - 1)) (u32 (m - my))) y]
               | None => []
               end in
    let low := match z with
               | Some z => if decide (mz = 0) then [] else [mkNode2 kind (utils.mkExtract x (u32 (mz - 1)) 0) z]
               | None => []
               end in
    Some (mkNode BITVECTOR_CONCAT (top ++ [mid] ++ low));
|}.

(** ** Exclusive or with a constant *)

(** Some child is [c]. *)
Definition hasChild (node c : Node) : bool := bool_decide (c ∈ children node).

Definition XorOnes : RewriteRule := {|
  applies node :=
    isKind BITVECTOR_XOR node &&
    holds (s ← getSize node; ones ← utils.mkOnes s; Some (hasChild node ones));
  apply node :=
    s ← getSize node; ones ← utils.mkOnes s;
    let '(found_ones, cs) :=
      fold_left (λ '(found_ones, cs) c,
        if decide (c = ones) then (negb found_ones, cs) else (found_ones, cs ++ [c])) (children node) (false, []) in
    result ← mkNaryNode BITVECTOR_XOR cs;
    Some (if (found_ones : bool) then mkNode1 BITVECTOR_NOT result else result);
|}.

Definition XorZero : RewriteRule := {|
  applies node :=
    isKind BITVECTOR_XOR node &&
    holds (s ← getSize node; Some (hasChild node (utils.mkConst s 0)));
  apply node :=
    s ← getSize node;
    let zero := utils.mkConst s 0 in
    mkNaryNode BITVECTOR_XOR (filter (λ c, c ≠ zero) (children node));
|}.

(** [while (ret is ~~r) ret = r]. *)
Fixpoint notIdempLoop (ret : Node) : Node :=
  match ret with
  | mkNode BITVECTOR_NOT [mkNode BITVECTOR_NOT [r]] => notIdempLoop r
  | _ => ret
  end.

Definition NotIdemp : RewriteRule := {|
  applies node := isKind BITVECTOR_NOT node && childIs (isKind BITVECTOR_NOT) node 0;
  apply node := r ← grandchild node 0 0; Some (notIdempLoop r);
|}.

(** ** Comparisons *)

Definition childZero (node : Node) (i : nat) : option bool := c ← child node i; utils.isZero c.

Definition UltZero : RewriteRule := {|
  applies node := isKind BITVECTOR_ULT node && holds (orElse (childZero node 0) (childZero node 1));
  apply node :=
    z ← childZero node 1;
    if (z : bool) then Some utils.mkFalse
    else a ← child node 0; b ← child node 1; s ← getSize a; zero ← utils.mkZero s; Some (mkNode2 DISTINCT zero b);
|}.

Definition UltOne : RewriteRule := {|
  applies node := isKind BITVECTOR_ULT node && holds (b ← child node 1; utils.isOne b);
  apply node := a ← child node 0; s ← getSize a; zero ← utils.mkZero s; Some (mkNode2 EQUAL a zero);
|}.

Definition UltOnes : RewriteRule := {|
  applies node :=
    isKind BITVECTOR_ULT node &&
    holds (orElse (a ← child node 0; utils.isOnes a) (b ← child node 1; utils.isOnes b));
  apply node :=
    a ← child node 0; b ← child node 1; o ← utils.isOnes b;
    if (o : bool) then s ← getSize b; ones ← utils.mkOnes s; Some (mkNode2 DISTINCT a ones)
    else Some (mkConstBool false);
|}.

Definition UltSelf : RewriteRule := {|
  applies node := isKind BITVECTOR_ULT node && sameNode (child node 1) (child node 0);
  apply node := Some utils.mkFalse;
|}.

(** [node[i] == utils::mkZero(size of node[0])]. *)
Definition childIsZero (node : Node) (i : nat) : bool :=
  holds (a ← child node 0; s ← getSize a; zero ← utils.mkZero s; c ← child node i; Some (bool_decide (c = zero))).

Definition UleZero : RewriteRule := {|
  applies node := isKind BITVECTOR_ULE node && childIsZero node 1;
  apply node := a ← child node 0; b ← child node 1; Some (mkNode2 EQUAL a b);
|}.

Definition UleSelf : RewriteRule := {|
  applies node := isKind BITVECTOR_ULE node && sameNode (child node 1) (child node 0);
  apply node := Some utils.mkTrue;
|}.

Definition ZeroUle : RewriteRule := {|
  applies node := isKind BITVECTOR_ULE node && childIsZero node 0;
  apply node := Some utils.mkTrue;
|}.

Definition UleMax : RewriteRule := {|
  applies node :=
    isKind BITVECTOR_ULE node &&
    holds (a ← child node 0; s ← getSize a; b ← child node 1; ones ← utils.mkOnes s; Some (bool_decide (b = ones)));
  apply node := Some utils.mkTrue;
|}.

Definition SltSelf : RewriteRule := {|
  applies node := isKind BITVECTOR_SLT node && sameNode (child node 1) (child node 0);
  apply node := Some utils.mkFalse;
|}.

End rules.
