(* ===== verification/BvAssoc.v ===== *)
(** Associative and commutative operators applied to any number of operands:
    their value does not depend on the order of the operands, so that rules
    that sort, merge or drop operands are judged on lists of operands. *)
From stdpp Require Import base option list numbers.
From S2P Require Import Prelude Integer Node TypeRules Semantics BvArith TypeSound BitVectorUtil BvElim BvTerms BvElimSound BvConst BvCore BvCoreSound BvSimplify.
Open Scope Z_scope.

(** [g] is a commutative monoid on the values of width [w], with unit [e]. *)
Record comm_op (w : Z) (g : Z → Z → Z) (e : Z) : Prop := {
  op_unit_in : 0 ≤ e < 2 ^ w;
  op_in : ∀ x y, 0 ≤ x < 2 ^ w → 0 ≤ y < 2 ^ w → 0 ≤ g x y < 2 ^ w;
  op_comm : ∀ x y, g x y = g y x;
  op_assoc : ∀ x y z, g x (g y z) = g (g x y) z;
  op_unit : ∀ x, 0 ≤ x < 2 ^ w → g e x = x;
}.

(** The kinds whose meaning is such an operator. *)
Class NaryKind (k : Kind) (g : Z → Z → Z → Z) (e : Z → Z) : Prop := {
  nk_arity : ∀ n, arity_ok k n = atLeast 2 n;
  nk_payload : payload_ok k = true;
  nk_type : ∀ cs ts, computeType k cs ts = BitVectorFixedWidthTypeRule ts;
  nk_eval : ∀ vs, kind_eval k vs = bv_nary g vs;
  nk_op : ∀ w, 0 < w → comm_op w (g w) (e w);
}.

Lemma wrap_add_l w x y : 0 ≤ w → wrap w (wrap w x + y) = wrap w (x + y).
Proof. intros. unfold wrap. by rewrite Zplus_mod_idemp_l. Qed.
Lemma wrap_add_r w x y : 0 ≤ w → wrap w (x + wrap w y) = wrap w (x + y).
Proof. intros. unfold wrap. by rewrite Zplus_mod_idemp_r. Qed.
Lemma wrap_mul_l w x y : 0 ≤ w → wrap w (wrap w x * y) = wrap w (x * y).
Proof. intros. unfold wrap. by rewrite Zmult_mod_idemp_l. Qed.
Lemma wrap_mul_r w x y : 0 ≤ w → wrap w (x * wrap w y) = wrap w (x * y).
Proof. intros. unfold wrap. by rewrite Zmult_mod_idemp_r. Qed.

Lemma land_ones_l w x : 0 ≤ w → 0 ≤ x < 2 ^ w → Z.land (2 ^ w - 1) x = x.
Proof.
  intros Hw Hx. rewrite Z.land_comm. replace (2 ^ w - 1) with (Z.ones w) by (rewrite Z.ones_equiv; lia).
  rewrite Z.land_ones by done. apply Z.mod_small. lia.
Qed.

#[global] Instance nary_and : NaryKind BITVECTOR_AND (λ _, Z.land) (λ w, 2 ^ w - 1).
Proof.
  split; try done. intros w Hw. pose proof (pow2_pos w). split; try lia.
  - intros. by apply land_bound; lia.
  - apply Z.land_comm.
  - apply Z.land_assoc.
  - intros. apply land_ones_l; lia.
Qed.

#[global] Instance nary_or : NaryKind BITVECTOR_OR (λ _, Z.lor) (λ _, 0).
Proof.
  split; try done. intros w Hw. pose proof (pow2_pos w). split; try lia.
  - intros. by apply lor_bound; lia.
  - apply Z.lor_comm.
  - apply Z.lor_assoc.
  - intros. apply Z.lor_0_l.
Qed.

#[global] Instance nary_xor : NaryKind BITVECTOR_XOR (λ _, Z.lxor) (λ _, 0).
Proof.
  split; try done. intros w Hw. pose proof (pow2_pos w). split; try lia.
  - intros. by apply lxor_bound; lia.
  - apply Z.lxor_comm.
  - intros. symmetry. apply Z.lxor_assoc.
  - intros. apply Z.lxor_0_l.
Qed.

#[global] Instance nary_add : NaryKind BITVECTOR_ADD (λ w x y, wrap w (x + y)) (λ _, 0).
Proof.
  split; try done. intros w Hw. pose proof (pow2_pos w). split; try lia.
  - intros. apply wrap_bound. lia.
  - intros. by rewrite Z.add_comm.
  - intros. rewrite wrap_add_l, wrap_add_r by lia. f_equal. lia.
  - intros. by apply wrap_small.
Qed.

#[global] Instance nary_mult : NaryKind BITVECTOR_MULT (λ w x y, wrap w (x * y)) (λ _, 1).
Proof.
  split; try done. intros w Hw. pose proof (pow2_le 1 w ltac:(lia)). split; try lia.
  - intros. apply wrap_bound. lia.
  - intros. by rewrite Z.mul_comm.
  - intros. rewrite wrap_mul_l, wrap_mul_r by lia. f_equal. lia.
  - intros. rewrite Z.mul_1_l. by apply wrap_small.
Qed.

(** ** Values of lists of operands *)

Definition wts (w : Z) : list Node → Prop := Forall (λ n, wt n (BITVECTOR_TYPE w)).

Definition opval (g : Z → Z → Z) (e : Z) (ns : list Node) (env : Env) : Z := foldr (λ n x, g (bv_of n env) x) e ns.

Lemma wt_bound n w env : wt n (BITVECTOR_TYPE w) → env_ok env → 0 ≤ bv_of n env < 2 ^ w.
Proof. intros Hn Hok. destruct (wt_bvterm n w Hn) as (_&_&He). by destruct (He env Hok). Qed.

Section values.
Context (w : Z) (g : Z → Z → Z) (e : Z) (env : Env).
Hypothesis Hg : comm_op w g e.
Hypothesis Hok : env_ok env.

Lemma opval_bound ns : wts w ns → 0 ≤ opval g e ns env < 2 ^ w.
Proof using Hg Hok.
  induction 1 as [|n ns Hn _ IH]; [apply Hg|]. apply Hg; [|done]. by apply wt_bound.
Qed.

Lemma opval_app ns ms : wts w ns → wts w ms → opval g e (ns ++ ms) env = g (opval g e ns env) (opval g e ms env).
Proof using Hg Hok.
  intros Hns Hms. induction Hns as [|n ns Hn _ IH]; cbn [app opval foldr].
  - symmetry. apply Hg. by apply opval_bound.
  - unfold opval in IH. rewrite IH. apply Hg.
Qed.

Lemma opval_perm ns ms : ns ≡ₚ ms → opval g e ns env = opval g e ms env.
Proof using Hg.
  induction 1 as [|n ns ms _ IH|n m ns|]; cbn [opval foldr]; [done| | |congruence].
  - unfold opval in IH. by rewrite IH.
  - rewrite !(op_assoc _ _ _ Hg). by rewrite (op_comm _ _ _ Hg (bv_of m env)).
Qed.

Lemma opval_one n : wt n (BITVECTOR_TYPE w) → opval g e [n] env = bv_of n env.
Proof using Hg Hok. intros Hn. cbn [opval foldr]. rewrite (op_comm _ _ _ Hg). apply Hg. by apply wt_bound. Qed.

(** An operand equal to the unit can be dropped. *)
Lemma opval_unit (P : Node → Prop) `{!∀ n, Decision (P n)} ns :
  wts w ns → (∀ n, ¬ P n → n ∈ ns → bv_of n env = e) → opval g e (filter P ns) env = opval g e ns env.
Proof using Hg Hok.
  induction 1 as [|n ns Hn Hns IH]; intros He; [done|]. rewrite filter_cons.
  assert (opval g e (filter P ns) env = opval g e ns env) as E by (apply IH; intros; apply He; [done|by right]).
  case_decide as HP; [cbn [opval foldr]; unfold opval in E; by rewrite E|]. rewrite E. cbn [opval foldr].
  rewrite (He n) by (done || by left). symmetry. apply Hg. by apply opval_bound.
Qed.

(** The operators applied from the left. *)
Lemma opval_left n ns : wts w (n :: ns) →
  fold_left (λ x m, g x (bv_of m env)) ns (bv_of n env) = opval g e (n :: ns) env.
Proof using Hg Hok.
  intros [Hn Hns]%list.Forall_cons. cbn [opval foldr]. pose proof (wt_bound n w env Hn Hok) as Hx. revert Hx.
  generalize (bv_of n env) as x. induction Hns as [|m ns Hm Hns IH]; intros x Hx; cbn [fold_left foldr].
  - rewrite (op_comm _ _ _ Hg). symmetry. by apply Hg.
  - rewrite IH by (apply Hg; [done|by apply wt_bound]). symmetry. apply Hg.
Qed.

End values.

(** ** Terms *)

Lemma wts_terms w ns : wts w ns → widthTerms w ns (bv_of <$> ns).
Proof. induction 1 as [|n ns Hn _ IH]; cbn [fmap list_fmap]; constructor; [by apply wt_bvterm|done]. Qed.

Lemma terms_wts w ns fs : widthTerms w ns fs → wts w ns.
Proof. induction 1 as [|n f ns fs (Hn&_) _ IH]; by constructor. Qed.

Lemma bvterm_env n w f g : bvterm n w f → (∀ env, env_ok env → g env = f env) → bvterm n w g.
Proof. intros (Ht&Hw&He) E. split_and!; [done|lia..|]. intros env Hok. rewrite E by done. by apply He. Qed.

Section terms.
Context `{!NaryKind k g e}.

Lemma nary_operands cs τ : wt (mkNode k cs) τ →
  ∃ w, τ = BITVECTOR_TYPE w ∧ 0 < w ≤ max_uint32 ∧ wts w cs ∧ (2 ≤ length cs)%nat ∧ Z.of_nat (length cs) ≤ MAX_CHILDREN.
Proof using Type*.
  intros Hn. destruct (nary_terms k cs τ nk_arity (nk_type cs) Hn) as (w&fs&->&HF&Hl). exists w.
  split_and!; try apply Hl; [done| | |by eapply terms_wts]; destruct (wt_bvterm _ _ Hn) as (_&?&_); lia.
Qed.

Lemma bv_opval w ns : wts w ns → (2 ≤ length ns)%nat → Z.of_nat (length ns) ≤ MAX_CHILDREN →
  bvterm (mkNode k ns) w (opval (g w) (e w) ns).
Proof using Type*.
  intros Hns Hl Hm. assert (0 < w) as Hw.
  { destruct Hns as [|n ns Hn]; [simpl in Hl; lia|]. destruct (wt_bvterm _ _ Hn) as (_&?&_). lia. }
  eapply bvterm_env.
  - apply (bv_naryTerm k g w ns (bv_of <$> ns) nk_arity nk_payload nk_type nk_eval); [|by apply wts_terms|done..]. intros. by apply nk_op.
  - intros env Hok. destruct ns as [|n ns]; [simpl in Hl; lia|]. cbn [nary fmap list_fmap].
    rewrite <- (opval_left w _ _ env (nk_op w Hw) Hok n ns Hns). generalize (bv_of n env). clear.
    induction ns as [|m ns IH]; intros x; cbn [fold_left fmap list_fmap]; [done|]. apply IH.
Qed.

(** One operand stands for itself. *)
Lemma mkNaryNode_term `{!Gmp} w ns : k ∈ [BITVECTOR_AND; BITVECTOR_OR; BITVECTOR_XOR; BITVECTOR_ADD; BITVECTOR_MULT] →
  wts w ns → ns ≠ [] → Z.of_nat (length ns) ≤ MAX_CHILDREN →
  ∃ n, mkNaryNode k ns = Some n ∧ bvterm n w (opval (g w) (e w) ns).
Proof using Type*.
  intros Hk Hns Hne Hm. unfold mkNaryNode. rewrite bool_decide_true by (rewrite !elem_of_cons in *; tauto). cbn [assert mbind option_bind].
  destruct ns as [|n [|m ns]]; [done| |].
  - exists n. split; [done|]. apply list.Forall_cons in Hns as [Hn _]. pose proof (wt_bvterm _ _ Hn) as Hb. pose proof Hb as (_&Hw&_).
    eapply bvterm_env; [exact Hb|]. intros env Hok. apply (opval_one w); [apply nk_op; lia|done..].
  - eexists. split; [done|]. apply bv_opval; [done| |done]. simpl. lia.
Qed.

(** Some of the operands. *)
Lemma mkNaryNode_filter `{!Gmp} (P : Node → Prop) `{!∀ n, Decision (P n)} w ns c :
  k ∈ [BITVECTOR_AND; BITVECTOR_OR; BITVECTOR_XOR; BITVECTOR_ADD; BITVECTOR_MULT] →
  wts w ns → c ∈ ns → P c → Z.of_nat (length ns) ≤ MAX_CHILDREN →
  ∃ n, mkNaryNode k (filter P ns) = Some n ∧ bvterm n w (opval (g w) (e w) (filter P ns)).
Proof using Type*.
  intros Hk Hns Hc HP Hm. apply mkNaryNode_term; [done| | |].
  - apply list.Forall_forall. intros n [_ Hn]%list_elem_of_filter. by eapply list.Forall_forall in Hns.
  - intros Hnil. assert (c ∈ filter P ns) as Hin by (by apply list_elem_of_filter). rewrite Hnil in Hin. by apply elem_of_nil in Hin.
  - pose proof (length_filter P ns). lia.
Qed.

End terms.
