(* ===== verification/BvSimplifySound.v ===== *)
(** Soundness of the rules of [BvSimplify], the last of them
    [AndOrXorConcatPullUp]. *)
From stdpp Require Import base option list numbers.
From S2P Require Import Prelude Integer Node TypeRules Semantics BvArith TypeSound BitVectorUtil BvElim BvTerms BvElimArith BvElimSound BvConst BvConstSound BvCore BvCoreSound BvSimplify BvAssoc.
Open Scope Z_scope.

(** ** Terms of any sort *)

Definition term (n : Node) (τ : TypeNode) (v : Env → value) : Prop :=
  wt n τ ∧ ∀ env, env_ok env → eval env n = Some (v env) ∧ sort_of (v env) = τ.

Definition val_of (n : Node) (env : Env) : value := match eval env n with Some v => v | None => VBool false end.

Lemma wt_term n τ : wt n τ → term n τ (val_of n).
Proof.
  intros Hn. split; [done|]. intros env Hok. destruct (wt_eval n τ env Hn Hok) as (v&Hv&Hs). unfold val_of. by rewrite Hv.
Qed.

Lemma equiv_term n n' τ v v' : term n τ v → term n' τ v' → (∀ env, env_ok env → v' env = v env) → equiv n n'.
Proof.
  intros ([Ht _]&He) ([Ht' Hc']&He') Hv. split_and!; [congruence|done|]. intros env Hok.
  destruct (He env Hok) as [-> _], (He' env Hok) as [-> _]. by rewrite Hv.
Qed.

(** [BITVECTOR_ITE]. *)
Lemma bvite_term c t e τ fc vt ve :
  bvterm c 1 fc → term t τ vt → term e τ ve →
  term (mkNode3 BITVECTOR_ITE c t e) τ (λ env, if decide (fc env = 1) then vt env else ve env).
Proof.
  intros (Hc&_&Ec) (Ht&Et) (He&Ee). split.
  - apply (wt_node3 _ _ _ _ _ _ _ _ Hc Ht He); [done..| |].
    + destruct Ht as [Ht Hct]. destruct (type_sound_gen env0 t τ Ht Hct env0_ok) as (v&_&Hv). by apply (has_type_concrete v).
    + cbn [computeType]. unfold BitVectorITETypeRule. cbn [lookup list_lookup mbind option_bind]. rewrite comparable_refl.
      apply unify_refl.
  - intros env Hok. destruct (Ec env Hok) as [Ec' _], (Et env Hok) as [Et' St], (Ee env Hok) as [Ee' Se].
    rewrite (eval_node3 _ _ _ _ _ _ _ _ Ec' Et' Ee'). cbn [kind_eval]. rewrite decide_True by congruence.
    by case_decide.
Qed.

Lemma bvite_terms cs τ :
  wt (mkNode BITVECTOR_ITE cs) τ → ∃ c t e, cs = [c; t; e] ∧ bvterm c 1 (bv_of c) ∧ wt t τ ∧ wt e τ.
Proof.
  intros [Ht Hc]. destruct (node_inv _ cs τ Ht Hc) as (Har&_&_&Hcs&ts&HM&Hτ&vs&HF&Hl). cbn [arity_ok] in Har.
  apply bool_decide_eq_true in Har. destruct cs as [|c [|t [|e []]]]; try done. cbn in HM.
  destruct (typeOf c) as [tc|] eqn:Ec, (typeOf t) as [tt|] eqn:Et, (typeOf e) as [te|] eqn:Ee; cbn in HM; try done.
  injection HM as <-. inversion HF as [|vc ? ? ? Hvc HF1]; subst. inversion HF1 as [|vt ? ? ? Hvt HF2]; subst.
  inversion HF2 as [|ve ? ? ? Hve _]; subst.
  cbn [computeType BitVectorITETypeRule lookup list_lookup mbind option_bind] in Hτ.
  apply bind_Some in Hτ as ([]&Hcmp%assert_Some&Hlub).
  apply (comparable_concrete (VBV 1 0) vc) in Hcmp; [|by apply (bit_type _ false)|done]. subst tc.
  destruct (unify_concrete vt ve _ _ _ _ Hvt Hve Hlub) as [<- ->].
  cbn [forallb] in Hcs. apply andb_true_iff in Hcs as [Hcc Hcs]. apply andb_true_iff in Hcs as [Hct Hcs].
  apply andb_true_iff in Hcs as [Hce _]. exists c, t, e. split_and!; try done; by apply wt_bvterm.
Qed.

Lemma bv_bound n w f env : bvterm n w f → env_ok env → 0 ≤ f env < 2 ^ w.
Proof. intros (_&_&He) Hok. by destruct (He env Hok). Qed.

(** A bit is zero or one. *)
Lemma bit_cases n f env : bvterm n 1 f → env_ok env → f env = 0 ∨ f env = 1.
Proof. intros Hn Hok. pose proof (bv_bound n 1 f env Hn Hok). lia. Qed.

(** Disequality of two bit-vectors. *)
Lemma bool_distinct a b w fa fb :
  bvterm a w fa → bvterm b w fb → boolterm (mkNode2 DISTINCT a b) (λ env, negb (bool_decide (fa env = fb env))).
Proof.
  intros (Hta&Hw&Ea) (Htb&_&Eb). split.
  - apply (wt_node2 _ _ _ _ _ _ Hta Htb); [done..|]. cbn. unfold leastUpperBound. by rewrite unify_refl.
  - intros env Hok. destruct (Ea env Hok) as [Ea' _], (Eb env Hok) as [Eb' _]. rewrite (eval_node2 _ _ _ _ _ _ Ea' Eb').
    cbn [kind_eval forallb sort_of]. rewrite !bool_decide_true by done. cbn [andb]. do 2 f_equal.
    case_bool_decide as Hn; case_bool_decide as Hv; try done; exfalso.
    + apply list.NoDup_cons in Hn as [Hn _]. apply Hn. rewrite Hv. by left.
    + apply Hn. apply list.NoDup_cons. split; [|apply NoDup_singleton]. intros ?%list_elem_of_singleton. congruence.
Qed.

(** ** Constants *)

Definition cst (w v : Z) : Node := mkConstBV (mkBitVector w v).

Lemma cst_val w v w' f env : bvterm (cst w v) w' f → env_ok env → f env = v.
Proof. intros (_&_&He) Hok. destruct (He env Hok) as [E _]. cbn in E. congruence. Qed.

Lemma const_cst n w f : isConst n = true → bvterm n w f → ∃ v, n = cst w v ∧ 0 ≤ v < 2 ^ w.
Proof.
  intros Hc ([Ht _]&_). destruct (const_bv n w Hc Ht) as ([w' v]&->&[_ Hv]&<-). by exists v.
Qed.

Lemma constBV_cst n w f : isConstBV n = true → bvterm n w f → ∃ v, n = cst w v ∧ 0 ≤ v < 2 ^ w.
Proof. intros Hc. apply const_cst. by destruct n. Qed.

(** ** Opening a rule *)

Ltac norm := cbn [apply applies child children lookup list_lookup mbind option_bind grandchild sameNode childIs fmap option_fmap
  option_map holds orElse andAlso] in *.

Ltac kind_of H := apply isKind_eq in H as [?cs ->].

Lemma bv_of_cst w v env : bv_of (cst w v) env = v.
Proof. done. Qed.

(** The same truth value for all values of the operands. *)
Ltac bools :=
  let env := fresh "env" in let Hok := fresh "Hok" in intros env Hok; cbv beta;
  repeat match goal with
  | H : bvterm ?n ?w (bv_of ?n) |- _ => let B := fresh "B" in pose proof (bv_bound n w _ env H Hok) as B; clear H
  end;
  rewrite ?bv_of_cst in *; repeat case_bool_decide; try done; exfalso; lia.

Section sound.
Context `{!Gmp, !GmpLaws}.

Lemma bv_cst w v : 0 < w ≤ max_uint32 → 0 ≤ v < 2 ^ w → bvterm (cst w v) w (λ _, v).
Proof. apply bv_constBV. Qed.

Lemma mkConst_cst w v : 0 ≤ v < 2 ^ w → 0 ≤ w → utils.mkConst w v = cst w v.
Proof. intros. unfold utils.mkConst. by rewrite new_small. Qed.

Lemma mkZero_cst w : 0 < w → utils.mkZero w = Some (cst w 0).
Proof. intros Hw. rewrite mkZero_ok by done. pose proof (pow2_pos w ltac:(lia)). by rewrite mkConst_cst by lia. Qed.
Lemma pow2_gt1 w : 0 < w → 1 < 2 ^ w.
Proof using Type. intros Hw. pose proof (pow2_le 1 w ltac:(lia)). lia. Qed.
Lemma mkOne_cst w : 0 < w → utils.mkOne w = Some (cst w 1).
Proof. intros Hw. rewrite mkOne_ok by done. pose proof (pow2_gt1 w Hw). by rewrite mkConst_cst by lia. Qed.
Lemma mkOnes_cst w : 0 < w ≤ max_uint32 → utils.mkOnes w = Some (cst w (2 ^ w - 1)).
Proof. intros Hw. unfold utils.mkOnes. rewrite bool_decide_true by lia. cbn. by rewrite mkOnes_spec. Qed.

Section recognize.
Context (n : Node) (w : Z) (f : Env → Z).
Hypothesis Hn : bvterm n w f.

Lemma recognize_const (mk : Z → option Node) v :
  mk w = Some (cst w v) →
  (if negb (isConst n) then Some false else s ← getSize n; z ← mk s; Some (bool_decide (n = z))) = Some (bool_decide (n = cst w v)).
Proof using Hn.
  intros E. destruct (isConst n) eqn:Hc; cbn [negb].
  - rewrite (getSize_term _ _ _ Hn). cbn [mbind option_bind]. by rewrite E.
  - f_equal. symmetry. apply bool_decide_eq_false. intros ->. done.
Qed.

Lemma isZero_eq : utils.isZero n = Some (bool_decide (n = cst w 0)).
Proof. pose proof Hn as (_&Hw&_). apply (recognize_const utils.mkZero). apply mkZero_cst. lia. Qed.
Lemma isOne_eq : utils.isOne n = Some (bool_decide (n = cst w 1)).
Proof. pose proof Hn as (_&Hw&_). apply (recognize_const utils.mkOne). apply mkOne_cst. lia. Qed.
Lemma isOnes_eq : utils.isOnes n = Some (bool_decide (n = cst w (2 ^ w - 1))).
Proof. pose proof Hn as (_&Hw&_). apply (recognize_const utils.mkOnes). by apply mkOnes_cst. Qed.

End recognize.

(** ** [BITVECTOR_ITE] *)

Lemma bvIteConstCond_ok : rule_ok BvIteConstCond.
Proof.
  intros n τ Hn _ Hap. cbn [applies BvIteConstCond] in Hap. apply andb_true_iff in Hap as [Hk Hcc]. kind_of Hk.
  destruct (bvite_terms cs τ Hn) as (c&t&e&->&Hc&Ht&He). unfold BvIteConstCond. norm.
  destruct (const_cst c 1 _ Hcc Hc) as (v&->&Hv). rewrite (isZero_eq _ _ _ Hc). cbn [mbind option_bind].
  pose proof (bvite_term _ _ _ _ _ _ _ Hc (wt_term _ _ Ht) (wt_term _ _ He)) as HI.
  case_bool_decide as Hz; eexists; (split; [done|]); (eapply equiv_term; [exact HI|by apply wt_term|]); intros env Hok;
    cbv beta; rewrite (cst_val _ _ _ _ _ Hc Hok); unfold cst in Hz.
  - injection Hz as ->. by rewrite decide_False.
  - assert (v ≠ 0) by congruence. by rewrite decide_True by lia.
Qed.

Lemma bvIteEqualChildren_ok : rule_ok BvIteEqualChildren.
Proof using Type.
  intros n τ Hn _ Hap. cbn [applies BvIteEqualChildren] in Hap. apply andb_true_iff in Hap as [Hk Hcc]. kind_of Hk.
  destruct (bvite_terms cs τ Hn) as (c&t&e&->&Hc&Ht&He). unfold BvIteEqualChildren. norm. apply bool_decide_eq_true in Hcc as <-.
  eexists. split; [done|]. eapply equiv_term; [exact (bvite_term _ _ _ _ _ _ _ Hc (wt_term _ _ Ht) (wt_term _ _ He))|by apply wt_term|].
  intros env Hok. cbv beta. by case_decide.
Qed.

(** The branches differ: [BvIteEqualChildren] has been tried before. *)
Lemma bvIteConstChildren_sound n τ :
  wt n τ → applies BvIteEqualChildren n = false → applies BvIteConstChildren n = true →
  ∃ n', apply BvIteConstChildren n = Some n' ∧ equiv n n'.
Proof.
  intros Hn Hne Hap. cbn [applies BvIteConstChildren BvIteEqualChildren] in *.
  apply andb_true_iff in Hap as [Hap H2]. apply andb_true_iff in Hap as [Hap H1]. apply andb_true_iff in Hap as [Hk Hs].
  rewrite Hk in Hne. kind_of Hk. destruct (bvite_terms cs τ Hn) as (c&t&e&->&Hc&Ht&He). unfold BvIteConstChildren. norm.
  apply bool_decide_eq_false in Hne. unfold getSize in Hs. rewrite (proj1 Ht) in Hs. cbn in Hs.
  destruct τ as [| |w|]; try done. cbn in Hs. apply bool_decide_eq_true in Hs as ->.
  pose proof (wt_bvterm _ _ Ht) as Htb. pose proof (wt_bvterm _ _ He) as Heb.
  destruct (const_cst t 1 _ H1 Htb) as (v1&->&Hv1), (const_cst e 1 _ H2 Heb) as (v2&->&Hv2).
  rewrite (isOne_eq _ _ _ Htb), (isZero_eq _ _ _ Heb), (isZero_eq _ _ _ Htb), (isOne_eq _ _ _ Heb). cbn [andAlso mbind option_bind].
  assert (v1 ≠ v2) as Hv by (intros ->; done).
  pose proof (bvite_term _ _ _ _ _ _ _ Hc (wt_term _ _ Ht) (wt_term _ _ He)) as HI.
  assert (∀ env, val_of (cst 1 v1) env = VBV 1 v1 ∧ val_of (cst 1 v2) env = VBV 1 v2) as Hval by done.
  destruct (decide (v1 = 1)) as [->|].
  - assert (v2 = 0) as -> by lia. exists c. split; [reflexivity|].
    eapply equiv_term; [exact HI| |]; [apply wt_term; by destruct Hc|]. intros env Hok. cbv beta.
    destruct (Hval env) as [-> ->]. pose proof Hc as (_&_&Ec). destruct (Ec env Hok) as [E _]. unfold val_of. rewrite E.
    destruct (bit_cases c _ env Hc Hok) as [-> | ->]; done.
  - assert (v1 = 0) as -> by lia. assert (v2 = 1) as -> by lia.
    exists (mkNode1 BITVECTOR_NOT c). split; [reflexivity|]. pose proof (bv_not _ _ _ Hc) as Hnot. pose proof Hnot as (Hwn&_&En).
    eapply equiv_term; [exact HI|by apply wt_term|]. intros env Hok. cbv beta. destruct (Hval env) as [-> ->].
    destruct (En env Hok) as [E _]. unfold val_of. rewrite E.
    destruct (bit_cases c _ env Hc Hok) as [-> | ->]; done.
Qed.
(** The value of a nested [BITVECTOR_ITE]. *)
Lemma val_bvite c t e τ env :
  bvterm c 1 (bv_of c) → wt t τ → wt e τ → env_ok env →
  val_of (mkNode3 BITVECTOR_ITE c t e) env = if decide (bv_of c env = 1) then val_of t env else val_of e env.
Proof using Type.
  intros Hc Ht He Hok. destruct (bvite_term _ _ _ _ _ _ _ Hc (wt_term _ _ Ht) (wt_term _ _ He)) as [_ Hv].
  destruct (Hv env Hok) as [E _]. unfold val_of at 1. by rewrite E.
Qed.

(** [t] replaced by the branch it takes under [c]. *)
Lemma sameCond_inv c t e i x τ :
  bvterm c 1 (bv_of c) → (i = 1%nat ∧ x = t ∨ i = 2%nat ∧ x = e) → wt x τ → sameCond (mkNode3 BITVECTOR_ITE c t e) i = true →
  ∃ t' e', x = mkNode3 BITVECTOR_ITE c t' e' ∧ wt t' τ ∧ wt e' τ ∧
    ∀ j, grandchild (mkNode3 BITVECTOR_ITE c t e) i j = [c; t'; e'] !! j.
Proof using Type.
  intros Hc Hi Hx Hs. unfold sameCond in Hs. apply andb_true_iff in Hs as [Hk Hsame].
  assert (child (mkNode3 BITVECTOR_ITE c t e) i = Some x) as Ei by (by destruct Hi as [[-> ->]|[-> ->]]).
  unfold childIs in Hk. rewrite Ei in Hk. kind_of Hk. destruct (bvite_terms cs τ Hx) as (c'&t'&e'&->&_&Ht'&He').
  unfold grandchild in *. rewrite Ei in *. cbn in Hsame. apply bool_decide_eq_true in Hsame as <-. exists t', e'. by split_and!.
Qed.

Lemma bvIteEqualCond_ok : rule_ok BvIteEqualCond.
Proof using Type.
  intros n τ Hn _ Hap. cbn [applies BvIteEqualCond] in Hap. apply andb_true_iff in Hap as [Hk Hcc]. kind_of Hk.
  destruct (bvite_terms cs τ Hn) as (c&t&e&->&Hc&Ht&He). unfold BvIteEqualCond. cbn [apply].
  assert (∃ t0, (if sameCond (mkNode3 BITVECTOR_ITE c t e) 1 then grandchild (mkNode3 BITVECTOR_ITE c t e) 1 1
    else child (mkNode3 BITVECTOR_ITE c t e) 1) = Some t0 ∧ wt t0 τ ∧
    ∀ env, env_ok env → bv_of c env = 1 → val_of t0 env = val_of t env) as (t0&E0&Ht0&Hv0).
  { destruct (sameCond _ 1) eqn:Hs; [|by exists t].
    destruct (sameCond_inv c t e 1 t τ Hc ltac:(by left) Ht Hs) as (t'&e'&->&Ht'&He'&Hg). exists t'. rewrite Hg.
    split_and!; [done..|]. intros env Hok E1. by rewrite (val_bvite _ _ _ _ _ Hc Ht' He' Hok), decide_True. }
  assert (∃ e1, (if sameCond (mkNode3 BITVECTOR_ITE c t e) 2 then grandchild (mkNode3 BITVECTOR_ITE c t e) 2 2
    else child (mkNode3 BITVECTOR_ITE c t e) 2) = Some e1 ∧ wt e1 τ ∧
    ∀ env, env_ok env → bv_of c env ≠ 1 → val_of e1 env = val_of e env) as (e1&E1&He1&Hv1).
  { destruct (sameCond _ 2) eqn:Hs; [|by exists e].
    destruct (sameCond_inv c t e 2 e τ Hc ltac:(by right) He Hs) as (t'&e'&->&Ht'&He'&Hg). exists e'. rewrite Hg.
    split_and!; [done..|]. intros env Hok En. by rewrite (val_bvite _ _ _ _ _ Hc Ht' He' Hok), decide_False. }
  cbn [child children lookup list_lookup mbind option_bind] in E0, E1 |- *. rewrite E0. cbn [mbind option_bind]. rewrite E1.
  eexists. split; [done|].
  eapply equiv_term; [exact (bvite_term _ _ _ _ _ _ _ Hc (wt_term _ _ Ht) (wt_term _ _ He))
                     |exact (bvite_term _ _ _ _ _ _ _ Hc (wt_term _ _ Ht0) (wt_term _ _ He1))|].
  intros env Hok. cbv beta. case_decide; auto.
Qed.

(** The four rules that merge a nested [BITVECTOR_ITE]: [x] is the merged
    condition and [p], [q] the branches it selects. *)
Lemma merge_equiv c t e x p q τ fx :
  bvterm c 1 (bv_of c) → wt t τ → wt e τ → bvterm x 1 fx → wt p τ → wt q τ →
  (∀ env, env_ok env → (if decide (fx env = 1) then val_of p env else val_of q env)
    = if decide (bv_of c env = 1) then val_of t env else val_of e env) →
  equiv (mkNode3 BITVECTOR_ITE c t e) (mkNode3 BITVECTOR_ITE x p q).
Proof using Type.
  intros Hc Ht He Hx Hp Hq Hv. eapply equiv_term; [exact (bvite_term _ _ _ _ _ _ _ Hc (wt_term _ _ Ht) (wt_term _ _ He))
    |exact (bvite_term _ _ _ _ _ _ _ Hx (wt_term _ _ Hp) (wt_term _ _ Hq))|]. done.
Qed.

Ltac merge_open rule Hn Hap c t e Hc Ht He :=
  cbn [applies rule] in Hap; apply andb_true_iff in Hap as [Hap ?Hsame]; apply andb_true_iff in Hap as [?Hk ?Hnest];
  kind_of Hk; destruct (bvite_terms _ _ Hn) as (c&t&e&->&Hc&Ht&He); unfold rule; norm.

Lemma bvIteMergeThenIf_ok : rule_ok BvIteMergeThenIf.
Proof using Type.
  intros n τ Hn _ Hap. merge_open BvIteMergeThenIf Hn Hap c t e Hc Ht He. kind_of Hnest.
  destruct (bvite_terms _ _ Ht) as (c1&t1&e1&->&Hc1&Ht1&He1). norm. apply bool_decide_eq_true in Hsame as ->.
  eexists. split; [done|]. pose proof (bv_and _ _ _ _ _ Hc (bv_not _ _ _ Hc1)) as Hx.
  eapply (merge_equiv _ _ _ _ _ _ τ _ Hc Ht He Hx); [done..|]. intros env Hok. cbv beta.
  rewrite (val_bvite _ _ _ _ _ Hc1 He He1 Hok).
  destruct (bit_cases c _ env Hc Hok) as [-> | ->], (bit_cases c1 _ env Hc1 Hok) as [-> | ->]; done.
Qed.

Lemma bvIteMergeElseIf_ok : rule_ok BvIteMergeElseIf.
Proof using Type.
  intros n τ Hn _ Hap. merge_open BvIteMergeElseIf Hn Hap c t e Hc Ht He. kind_of Hnest.
  destruct (bvite_terms _ _ Ht) as (c1&t1&e1&->&Hc1&Ht1&He1). norm. apply bool_decide_eq_true in Hsame as ->.
  eexists. split; [done|]. pose proof (bv_and _ _ _ _ _ Hc Hc1) as Hx.
  eapply (merge_equiv _ _ _ _ _ _ τ _ Hc Ht He Hx); [done..|]. intros env Hok. cbv beta.
  rewrite (val_bvite _ _ _ _ _ Hc1 Ht1 He Hok).
  destruct (bit_cases c _ env Hc Hok) as [-> | ->], (bit_cases c1 _ env Hc1 Hok) as [-> | ->]; done.
Qed.

Lemma bvIteMergeThenElse_ok : rule_ok BvIteMergeThenElse.
Proof using Type.
  intros n τ Hn _ Hap. merge_open BvIteMergeThenElse Hn Hap c t e Hc Ht He. kind_of Hnest.
  destruct (bvite_terms _ _ He) as (c1&t1&e1&->&Hc1&Ht1&He1). norm. apply bool_decide_eq_true in Hsame as ->.
  eexists. split; [done|]. pose proof (bv_and _ _ _ _ _ (bv_not _ _ _ Hc) (bv_not _ _ _ Hc1)) as Hx.
  eapply (merge_equiv _ _ _ _ _ _ τ _ Hc Ht He Hx); [done..|]. intros env Hok. cbv beta.
  rewrite (val_bvite _ _ _ _ _ Hc1 Ht He1 Hok).
  destruct (bit_cases c _ env Hc Hok) as [-> | ->], (bit_cases c1 _ env Hc1 Hok) as [-> | ->]; done.
Qed.

Lemma bvIteMergeElseElse_ok : rule_ok BvIteMergeElseElse.
Proof using Type.
  intros n τ Hn _ Hap. merge_open BvIteMergeElseElse Hn Hap c t e Hc Ht He. kind_of Hnest.
  destruct (bvite_terms _ _ He) as (c1&t1&e1&->&Hc1&Ht1&He1). norm. apply bool_decide_eq_true in Hsame as ->.
  eexists. split; [done|]. pose proof (bv_and _ _ _ _ _ (bv_not _ _ _ Hc) Hc1) as Hx.
  eapply (merge_equiv _ _ _ _ _ _ τ _ Hc Ht He Hx); [done..|]. intros env Hok. cbv beta.
  rewrite (val_bvite _ _ _ _ _ Hc1 Ht1 Ht Hok).
  destruct (bit_cases c _ env Hc Hok) as [-> | ->], (bit_cases c1 _ env Hc1 Hok) as [-> | ->]; done.
Qed.

(** ** Bits *)

Lemma bitConst_ok : rule_ok BitConst.
Proof.
  intros n τ Hn _ Hap. destruct n as [| | | |[] cs]; try done. rename d_bitIndex into i. cbn [applies BitConst] in Hap.
  pose proof Hn as [Ht Hc]. destruct (one_inv (BITVECTOR_BIT i) cs τ) as (a&w&->&Hw&Hta&Hca&Hp&Hτ); [done| |done|done|].
  { intros ts. cbn [computeType]. unfold BitVectorBitTypeRule. intros E. nofail. eauto. }
  norm. cbn in Hp, Hτ. unfold uint32 in Hp. apply bool_decide_eq_true in Hp. case_decide as Hi; [done|]. injection Hτ as <-.
  pose proof (wt_bvterm a w ltac:(by split)) as Ha. destruct (const_cst a w _ Hap Ha) as (v&->&Hv).
  pose proof Ha as (_&Hwm&_). unfold BitConst. norm. unfold getBit. rewrite (getSize_term _ _ _ Ha). cbn [mbind option_bind].
  rewrite bool_decide_true by lia. cbn [andb isConstBV cst assert getConstBV mbind option_bind].
  rewrite extract_spec by (cbn [d_size]; try split; cbn [d_size d_value]; lia). cbn [mbind option_bind BV.getValue d_value]. eexists. split; [done|].
  assert (bool_decide (wrap (i - i + 1) (v / 2 ^ i) = 1) = Z.testbit v i) as ->.
  { replace (i - i + 1) with 1 by lia. unfold wrap. change (2 ^ 1) with 2. rewrite Z.testbit_eqb by lia.
    destruct (Z.eqb_spec ((v / 2 ^ i) mod 2) 1); by case_bool_decide. }
  eapply (equiv_bool _ _ (λ _, Z.testbit v i) (λ _, Z.testbit v i)); [|by destruct (Z.testbit v i)|done].
  split; [done|]. intros env Hok. cbn. by rewrite decide_True by lia.
Qed.

Lemma bvComp_ok : rule_ok BvComp.
Proof.
  intros n τ Hn _ Hap. cbn [applies BvComp] in Hap. apply andb_true_iff in Hap as [Hap Hcc]. apply andb_true_iff in Hap as [Hk Hs].
  kind_of Hk. pose proof Hn as [Ht Hc].
  destruct (bvpred2_inv BITVECTOR_COMP cs τ (λ _, eq_refl) (λ _, eq_refl) Ht Hc) as (a&b&w&->&->&Hw&Hta&Htb&Hca&Hcb).
  pose proof (wt_bvterm a w ltac:(by split)) as Ha. pose proof (wt_bvterm b w ltac:(by split)) as Hb. unfold BvComp. norm.
  rewrite (getSize_term _ _ _ Ha) in Hs. cbn in Hs. apply bool_decide_eq_true in Hs as ->.
  pose proof (bv_comp _ _ _ _ _ Ha Hb) as Hn'.
  assert (∀ x y fx fy, bvterm x 1 fx → bvterm y 1 fy → isConst x = true →
    bvterm (mkNode2 BITVECTOR_COMP a b) 1 (λ env, b2z (bool_decide (fx env = fy env))) →
    ∃ n', (z ← utils.isZero x; Some (if (z : bool) then mkNode1 BITVECTOR_NOT y else y)) = Some n' ∧
      equiv (mkNode2 BITVECTOR_COMP a b) n') as Hgen.
  { intros x y fx fy Hx Hy Hxc Hxy. destruct (const_cst x 1 _ Hxc Hx) as (v&->&Hv). rewrite (isZero_eq _ _ _ Hx). cbn [mbind option_bind].
    case_bool_decide as Hz; (eexists; split; [done|]).
    - injection Hz as ->. eapply equiv_bv; [exact Hxy|by apply bv_not|]. intros env Hok _. cbv beta.
      rewrite (cst_val _ _ _ _ _ Hx Hok). by destruct (bit_cases y _ env Hy Hok) as [-> | ->].
    - assert (v ≠ 0) by (unfold cst in Hz; congruence). assert (v = 1) as -> by lia.
      eapply equiv_bv; [exact Hxy|exact Hy|]. intros env Hok _. cbv beta.
      rewrite (cst_val _ _ _ _ _ Hx Hok). by destruct (bit_cases y _ env Hy Hok) as [-> | ->]. }
  destruct (isConst a) eqn:Hac; [by eapply Hgen|]. cbn [orb] in Hcc. eapply Hgen; [exact Hb|exact Ha|done|].
  eapply bvterm_ext; [exact Hn'|done|]. intros env. cbv beta. f_equal. apply bool_decide_ext. split; congruence.
Qed.

(** ** Shifts by a constant *)

Lemma repeat_bit k (b : bool) : repeat_value k 1 (b2z b) = if b then 2 ^ Z.of_nat k - 1 else 0.
Proof using Type.
  induction k as [|k IH]; [by destruct b|]. cbn [repeat_value]. rewrite IH, Nat2Z.inj_succ, Z.pow_succ_r by lia.
  destruct b; cbn [b2z]; change (2 ^ 1) with 2; lia.
Qed.

(** What the three rules start with. *)
Lemma open_shift k n τ :
  (∀ n, arity_ok k n = bool_decide (n = 2%nat)) → (∀ cs ts, computeType k cs ts = BitVectorFixedWidthTypeRule ts) →
  wt n τ → isKind k n && childIs isConstBV n 1 = true →
  ∃ a w v, n = mkNode2 k a (cst w v) ∧ bvterm a w (bv_of a) ∧ bvterm (cst w v) w (λ _, v) ∧ 0 ≤ v < 2 ^ w.
Proof.
  intros Hk Hr Hn Hap. apply andb_true_iff in Hap as [Hi Hcc]. kind_of Hi.
  destruct (fixed2_terms k cs τ Hk (Hr cs) Hn) as (a&b&w&->&->&Ha&Hb). norm.
  destruct (constBV_cst b w _ Hcc Hb) as (v&->&Hv). pose proof Hb as (_&Hw&_). exists a, w, v. split_and!; try done; try lia.
Qed.

Lemma amount_ok v : v < 2 ^ 32 → assert (bool_decide (v < Integer.multiplyByPow2 1 32)) = Some tt.
Proof. intros Hv. unfold Integer.multiplyByPow2. by rewrite mpz_mul_2exp_spec, Z.mul_1_l, bool_decide_true. Qed.

Ltac shift_run w v :=
  cbn [apply constChild child children lookup list_lookup getConstBV cst BV.getValue d_value mbind option_bind].

Lemma shlByConst_ok : rule_ok ShlByConst.
Proof.
  intros n τ Hn _ Hap. destruct (open_shift BITVECTOR_SHL n τ (λ _, eq_refl) (λ _ _, eq_refl) Hn Hap) as (a&w&v&->&Ha&Hc&Hv).
  pose proof Ha as (_&Hw&_). pose proof (bv_shl _ _ _ _ _ Ha Hc) as HS. unfold ShlByConst, constChild. shift_run w v.
  unfold max_uint32 in Hw. case_decide as H0v.
  { subst v. eexists. split; [done|]. eapply equiv_bv; [exact HS|exact Ha|]. intros env Hok Hb. unfold shl in *.
    rewrite decide_True by lia. rewrite Z.pow_0_r, Z.mul_1_r. symmetry. apply wrap_small. by apply (bv_bound _ _ _ _ Ha). }
  rewrite (getSize_term _ _ _ Ha). cbn [mbind option_bind]. case_decide as Hge.
  { rewrite mkZero_cst by lia. eexists. split; [done|]. eapply equiv_bv; [exact HS|apply bv_cst; unfold max_uint32; lia|].
    intros env Hok _. unfold shl. by rewrite decide_False by lia. }
  rewrite amount_ok by lia. cbn [mbind option_bind].
  rewrite Integer.toUnsignedInt_spec by lia. rewrite u32_small by lia. rewrite mkZero_cst by lia. cbn [mbind option_bind].
  eexists. split; [done|].
  pose proof (bv_extract a w _ Ha (w - 1 - v) 0 ltac:(lia) ltac:(lia)) as Hx.
  pose proof (bv_cst v 0 ltac:(unfold max_uint32; lia) ltac:(pose proof (pow2_pos v); lia)) as Hz.
  eapply equiv_bv; [exact HS|eapply bvterm_ext; [exact (bv_concat2 _ _ _ _ _ _ Hx Hz ltac:(unfold max_uint32; lia))|lia|done]|].
  intros env Hok _. cbv beta. unfold shl. rewrite decide_True by lia. rewrite split_mul_wrap by lia.
  rewrite Z.pow_0_r, Z.div_1_r. replace (w - 1 - v - 0 + 1) with (w - v) by lia. lia.
Qed.

Lemma lshrByConst_ok : rule_ok LshrByConst.
Proof.
  intros n τ Hn _ Hap. destruct (open_shift BITVECTOR_LSHR n τ (λ _, eq_refl) (λ _ _, eq_refl) Hn Hap) as (a&w&v&->&Ha&Hc&Hv).
  pose proof Ha as (_&Hw&_). pose proof (bv_lshr _ _ _ _ _ Ha Hc) as HS. unfold LshrByConst, constChild. shift_run w v.
  unfold max_uint32 in Hw. case_decide as H0v.
  { subst v. eexists. split; [done|]. eapply equiv_bv; [exact HS|exact Ha|]. intros env Hok Hb. unfold lshr in *.
    rewrite decide_True by lia. by rewrite Z.pow_0_r, Z.div_1_r. }
  rewrite (getSize_term _ _ _ Ha). cbn [mbind option_bind]. case_decide as Hge.
  { rewrite mkZero_cst by lia. eexists. split; [done|]. eapply equiv_bv; [exact HS|apply bv_cst; unfold max_uint32; lia|].
    intros env Hok _. unfold lshr. by rewrite decide_False by lia. }
  rewrite amount_ok by lia. cbn [mbind option_bind].
  rewrite Integer.toUnsignedInt_spec by lia. rewrite u32_small by lia. rewrite mkZero_cst by lia. cbn [mbind option_bind].
  eexists. split; [done|].
  pose proof (bv_extract a w _ Ha (w - 1) v ltac:(lia) ltac:(lia)) as Hx.
  pose proof (bv_cst v 0 ltac:(unfold max_uint32; lia) ltac:(pose proof (pow2_pos v); lia)) as Hz.
  eapply equiv_bv; [exact HS|eapply bvterm_ext; [exact (bv_concat2 _ _ _ _ _ _ Hz Hx ltac:(unfold max_uint32; lia))|lia|done]|].
  intros env Hok _. cbv beta. unfold lshr. rewrite decide_True by lia. replace (w - 1 - v + 1) with (w - v) by lia.
  pose proof (bv_bound _ _ _ _ Ha Hok). rewrite wrap_small; [lia|]. split; [apply Z.div_pos; lia|].
  apply Z.div_lt_upper_bound; [lia|]. rewrite <- pow2_add by lia. replace (v + (w - v)) with w by lia. lia.
Qed.

Lemma ashr_split w a v : 0 < w → 0 ≤ a < 2 ^ w → 0 ≤ v < w →
  ashr w a v = (if Z.testbit a (w - 1) then 2 ^ v - 1 else 0) * 2 ^ (w - v) + a / 2 ^ v.
Proof using Type.
  intros Hw Ha Hv. unfold ashr, signed. rewrite decide_True, msb_spec by lia. pose proof (pow2_split w Hw).
  assert (2 ^ w = 2 ^ (w - v) * 2 ^ v) as E by (rewrite <- pow2_add by lia; f_equal; lia).
  pose proof (pow2_pos v ltac:(lia)). pose proof (pow2_pos (w - v) ltac:(lia)).
  assert (0 ≤ a / 2 ^ v < 2 ^ (w - v)) by (split; [apply Z.div_pos; lia|apply Z.div_lt_upper_bound; lia]).
  case_bool_decide; [rewrite decide_False by lia|rewrite decide_True by lia].
  - rewrite E, <- Z.add_opp_r, <- Z.mul_opp_l, Z.div_add by lia. apply wrap_eq with (-1); [split; nia|lia].
  - apply wrap_small. nia.
Qed.

Lemma ashrByConst_ok : rule_ok AshrByConst.
Proof.
  intros n τ Hn _ Hap. destruct (open_shift BITVECTOR_ASHR n τ (λ _, eq_refl) (λ _ _, eq_refl) Hn Hap) as (a&w&v&->&Ha&Hc&Hv).
  pose proof Ha as (_&Hw&_). pose proof (bv_ashr _ _ _ _ _ Ha Hc) as HS. unfold AshrByConst, constChild. shift_run w v.
  unfold max_uint32 in Hw. case_decide as H0v.
  { subst v. eexists. split; [done|]. eapply equiv_bv; [exact HS|exact Ha|]. intros env Hok Hb. cbv beta in *.
    pose proof (bv_bound _ _ _ _ Ha Hok). unfold ashr. rewrite decide_True by lia. rewrite Z.pow_0_r, Z.div_1_r. by rewrite wrap_signed by lia. }
  rewrite (getSize_term _ _ _ Ha). cbn [mbind option_bind]. rewrite u32_small by lia.
  pose proof (bv_bit a w _ (w - 1) Ha ltac:(lia)) as Hs. case_decide as Hge.
  { unfold mkRepeat. rewrite bool_decide_true by lia. eexists. split; [done|].
    eapply equiv_bv; [exact HS|eapply bvterm_ext; [apply (bv_repeat w _ _ _ Hs); unfold max_uint32; lia|lia|done]|].
    intros env Hok _. cbv beta. rewrite repeat_bit, Z2Nat.id by lia. pose proof (bv_bound _ _ _ _ Ha Hok).
    rewrite sign_spec by lia. unfold ashr. rewrite decide_False by lia. pose proof (pow2_pos w ltac:(lia)).
    case_bool_decide; [rewrite decide_True by done|rewrite decide_False by done]; symmetry.
    - apply wrap_eq with (-1); lia.
    - apply wrap_small. lia. }
  rewrite amount_ok by lia. cbn [mbind option_bind]. rewrite Integer.toUnsignedInt_spec, decide_False by lia.
  unfold mkRepeat. rewrite bool_decide_true by lia. cbn [assert mbind option_bind]. eexists. split; [done|].
  pose proof (bv_extract a w _ Ha (w - 1) v ltac:(lia) ltac:(lia)) as Hx.
  pose proof (bv_repeat v _ _ _ Hs ltac:(lia) ltac:(unfold max_uint32; lia)) as Hr.
  eapply equiv_bv; [exact HS|eapply bvterm_ext; [exact (bv_concat2 _ _ _ _ _ _ Hr Hx ltac:(unfold max_uint32; lia))|lia|done]|].
  intros env Hok _. cbv beta. pose proof (bv_bound _ _ _ _ Ha Hok). rewrite ashr_split by lia.
  rewrite repeat_bit, Z2Nat.id by lia. replace (w - 1 - v + 1) with (w - v) by lia. f_equal. apply wrap_small.
  split; [apply Z.div_pos; lia|]. apply Z.div_lt_upper_bound; [lia|]. rewrite <- pow2_add by lia.
  replace (v + (w - v)) with w by lia. lia.
Qed.

(** ** Exclusive or *)

(** With an operand that is not zero. *)
Lemma xorZero_sound n τ :
  wt n τ → applies XorZero n = true → (∃ c, c ∈ children n ∧ utils.isZero c = Some false) →
  ∃ n', apply XorZero n = Some n' ∧ equiv n n'.
Proof.
  intros Hn Hap (c0&Hc0&Hz0). cbn [applies XorZero] in Hap. apply andb_true_iff in Hap as [Hk _]. kind_of Hk.
  destruct (nary_operands cs τ Hn) as (w&->&Hw&Hcs&Hl&Hm). pose proof (wt_bvterm _ _ Hn) as Hb. unfold XorZero. cbn [apply children].
  rewrite (getSize_term _ _ _ Hb). cbn [mbind option_bind]. pose proof (pow2_pos w ltac:(lia)). rewrite mkConst_cst by lia.
  destruct (mkNaryNode_filter (k:=BITVECTOR_XOR) (λ c, c ≠ cst w 0) w cs c0) as (n'&E&Hn'); [|done|done| |done|].
  - rewrite !elem_of_cons. tauto.
  - intros ->. eapply list.Forall_forall in Hcs; [|exact Hc0]. by rewrite (isZero_eq _ _ _ (wt_bvterm _ _ Hcs)), bool_decide_true in Hz0.
  - exists n'. split; [done|]. eapply equiv_bv; [exact (bv_opval (k:=BITVECTOR_XOR) w cs Hcs Hl Hm)|exact Hn'|]. intros env Hok _.
    apply (opval_unit w); [apply (nk_op (NaryKind:=nary_xor)); lia|done|done|]. intros n Hnz _. apply dec_stable in Hnz as ->. done.
Qed.

Lemma xorOnes_fold (ones : Node) (cs : list Node) : ∀ b acc,
  fold_left (λ '(found_ones, cs) c, if decide (c = ones) then (negb found_ones, cs) else (found_ones, cs ++ [c])) cs (b, acc)
  = (fold_left (λ b c, if decide (c = ones) then negb b else b) cs b, acc ++ filter (λ c, c ≠ ones) cs).
Proof using Type.
  induction cs as [|c cs IH]; intros b acc; cbn [fold_left]; [by rewrite app_nil_r|]. rewrite filter_cons.
  case_decide as Hc; rewrite IH.
  - by rewrite decide_False by (intros []; done).
  - rewrite decide_True by done. by rewrite <- app_assoc.
Qed.

(** Flipping all the bits as many times as there are ones. *)
Lemma xorOnes_value w cs env : ∀ b : bool, 0 < w → wts w cs → env_ok env →
  Z.lxor (if fold_left (λ b c, if decide (c = cst w (2 ^ w - 1)) then negb b else b) cs b then 2 ^ w - 1 else 0)
         (opval Z.lxor 0 (filter (λ c, c ≠ cst w (2 ^ w - 1)) cs) env)
  = Z.lxor (if b then 2 ^ w - 1 else 0) (opval Z.lxor 0 cs env).
Proof using Type.
  induction cs as [|c cs IH]; intros b Hw Hcs Hok; [done|]. apply list.Forall_cons in Hcs as [_ Hcs].
  cbn [fold_left]. rewrite filter_cons. case_decide as E.
  - rewrite decide_False by (intros []; done). rewrite IH by done. subst c. cbn [opval foldr]. rewrite bv_of_cst.
    rewrite <- Z.lxor_assoc. f_equal. destruct b; cbn [negb]; [by rewrite Z.lxor_nilpotent|by rewrite Z.lxor_0_l].
  - rewrite decide_True by done. cbn [opval foldr]. rewrite (Z.lxor_comm (bv_of c env)), <- Z.lxor_assoc.
    unfold opval in IH. rewrite IH by done. rewrite Z.lxor_assoc. by rewrite (Z.lxor_comm _ (bv_of c env)).
Qed.

Lemma lxor_ones w x : 0 ≤ w → 0 ≤ x < 2 ^ w → Z.lxor (2 ^ w - 1) x = 2 ^ w - 1 - x.
Proof using Type.
  intros Hw Hx. pose proof (pow2_pos w Hw). apply (bits_eq w); [apply lxor_bound; lia|lia|lia|]. intros i Hi. rewrite Z.lxor_spec, ones_bits, not_bits by lia.
  by destruct (Z.testbit x i).
Qed.

(** With an operand that is not all ones. *)
Lemma xorOnes_sound n τ :
  wt n τ → applies XorOnes n = true → (∃ c, c ∈ children n ∧ utils.isOnes c = Some false) →
  ∃ n', apply XorOnes n = Some n' ∧ equiv n n'.
Proof.
  intros Hn Hap (c0&Hc0&Hz0). cbn [applies XorOnes] in Hap. apply andb_true_iff in Hap as [Hk _]. kind_of Hk.
  destruct (nary_operands cs τ Hn) as (w&->&Hw&Hcs&Hl&Hm). pose proof (wt_bvterm _ _ Hn) as Hb. unfold XorOnes. cbn [apply children].
  rewrite (getSize_term _ _ _ Hb). cbn [mbind option_bind]. rewrite mkOnes_cst by done. cbn [mbind option_bind].
  rewrite xorOnes_fold. cbn [app].
  destruct (mkNaryNode_filter (k:=BITVECTOR_XOR) (λ c, c ≠ cst w (2 ^ w - 1)) w cs c0) as (n'&E&Hn'); [|done|done| |done|].
  - rewrite !elem_of_cons. tauto.
  - intros ->. eapply list.Forall_forall in Hcs; [|exact Hc0]. by rewrite (isOnes_eq _ _ _ (wt_bvterm _ _ Hcs)), bool_decide_true in Hz0.
  - rewrite E. cbn [mbind option_bind]. eexists. split; [done|]. pose proof (bv_opval (k:=BITVECTOR_XOR) w cs Hcs Hl Hm) as HX.
    pose proof (λ env, xorOnes_value w cs env false ltac:(lia) Hcs) as HV. cbn beta iota in HV.
    destruct (fold_left _ cs false) eqn:Ef.
    + eapply equiv_bv; [exact HX|exact (bv_not _ _ _ Hn')|]. intros env Hok _. cbv beta. specialize (HV env Hok). rewrite Z.lxor_0_l in HV.
      rewrite <- HV. symmetry. apply lxor_ones; [lia|]. by apply (bv_bound _ _ _ _ Hn').
    + eapply equiv_bv; [exact HX|exact Hn'|]. intros env Hok _. specialize (HV env Hok). by rewrite !Z.lxor_0_l in HV.
Qed.

(** ** Double complement *)

Lemma equiv_not_not a w f : bvterm a w f → equiv (mkNode1 BITVECTOR_NOT (mkNode1 BITVECTOR_NOT a)) a.
Proof using Type.
  intros Ha. eapply equiv_bv; [exact (bv_not _ _ _ (bv_not _ _ _ Ha))|exact Ha|]. intros env _ _. cbv beta. lia.
Qed.

Lemma not_terms cs τ : wt (mkNode BITVECTOR_NOT cs) τ → ∃ a w, cs = [a] ∧ τ = BITVECTOR_TYPE w ∧ bvterm a w (bv_of a).
Proof using Type. by apply fixed1_terms. Qed.

Lemma notIdempLoop_equiv m : ∀ n τ, (nsize n ≤ m)%nat → wt n τ → equiv n (notIdempLoop n).
Proof using Type.
  induction m as [|m IH]; intros n τ Hm Hn; [destruct n; simpl in Hm; lia|].
  destruct n as [| | | |k cs]; try by eapply equiv_refl. destruct (decide (k = BITVECTOR_NOT)) as [->|Hk].
  2:{ assert (notIdempLoop (mkNode k cs) = mkNode k cs) as -> by (by destruct k). by eapply equiv_refl. }
  destruct (not_terms cs τ Hn) as (a&w&->&->&Ha). destruct a as [| | | |k cs]; try by eapply equiv_refl.
  destruct (decide (k = BITVECTOR_NOT)) as [->|Hk].
  2:{ assert (notIdempLoop (mkNode BITVECTOR_NOT [mkNode k cs]) = mkNode BITVECTOR_NOT [mkNode k cs]) as -> by (by destruct k).
      by eapply equiv_refl. }
  destruct Ha as (Hta&_). destruct (not_terms cs _ Hta) as (r&w'&->&[= ->]&Hr).
  eapply equiv_trans; [exact (equiv_not_not r w' _ Hr)|]. cbn [notIdempLoop]. eapply IH; [cbn in Hm |- *; lia|by destruct Hr].
Qed.

Lemma notIdemp_ok : rule_ok NotIdemp.
Proof using Type.
  intros n τ Hn _ Hap. cbn [applies NotIdemp] in Hap. apply andb_true_iff in Hap as [Hk Hk2]. kind_of Hk.
  destruct (not_terms cs τ Hn) as (a&w&->&->&Ha). norm. kind_of Hk2. destruct Ha as (Hta&_).
  destruct (not_terms cs _ Hta) as (r&w'&->&[= ->]&Hr). unfold NotIdemp. norm. eexists. split; [done|].
  eapply equiv_trans; [exact (equiv_not_not r w' _ Hr)|]. eapply notIdempLoop_equiv; [done|by destruct Hr].
Qed.

(** ** Comparisons *)

Lemma open_pred k n τ :
  (∀ n, arity_ok k n = bool_decide (n = 2%nat)) → (∀ cs ts, computeType k cs ts = BitVectorPredicateTypeRule ts) →
  wt n τ → isKind k n = true →
  ∃ a b w, n = mkNode2 k a b ∧ 0 < w ≤ max_uint32 ∧ bvterm a w (bv_of a) ∧ bvterm b w (bv_of b).
Proof using Type.
  intros Hk Hr Hn Hap. kind_of Hap. destruct (pred2_terms k cs τ Hk (Hr cs) Hn) as (a&b&w&->&->&Ha&Hb). pose proof Ha as (_&?&_).
  by exists a, b, w.
Qed.

Lemma bool_ult a b w fa fb : bvterm a w fa → bvterm b w fb →
  boolterm (mkNode2 BITVECTOR_ULT a b) (λ env, bool_decide (fa env < fb env)).
Proof using Type. intros Ha Hb. exact (bool_pred a b w fa fb Ha Hb BITVECTOR_ULT (λ _ (x y : Z), bool_decide (x < y)) eq_refl eq_refl (λ _ _, eq_refl) (λ _, eq_refl)). Qed.
Lemma bool_ule a b w fa fb : bvterm a w fa → bvterm b w fb →
  boolterm (mkNode2 BITVECTOR_ULE a b) (λ env, bool_decide (fa env ≤ fb env)).
Proof using Type. intros Ha Hb. exact (bool_pred a b w fa fb Ha Hb BITVECTOR_ULE (λ _ (x y : Z), bool_decide (x ≤ y)) eq_refl eq_refl (λ _ _, eq_refl) (λ _, eq_refl)). Qed.
Lemma bool_slt a b w fa fb : bvterm a w fa → bvterm b w fb →
  boolterm (mkNode2 BITVECTOR_SLT a b) (λ env, bool_decide (signed w (fa env) < signed w (fb env))).
Proof using Type. intros Ha Hb. exact (bool_pred a b w fa fb Ha Hb BITVECTOR_SLT (λ w x y, bool_decide (signed w x < signed w y)) eq_refl eq_refl (λ _ _, eq_refl) (λ _, eq_refl)). Qed.

Ltac open_ult Hn Hap a b w :=
  let Hk := fresh "Hk" in cbn [applies] in Hap; apply andb_true_iff in Hap as [Hk Hap];
  first [ destruct (open_pred BITVECTOR_ULT _ _ (λ _, eq_refl) (λ _ _, eq_refl) Hn Hk) as (a&b&w&->&?Hw&?Ha&?Hb)
        | destruct (open_pred BITVECTOR_ULE _ _ (λ _, eq_refl) (λ _ _, eq_refl) Hn Hk) as (a&b&w&->&?Hw&?Ha&?Hb)
        | destruct (open_pred BITVECTOR_SLT _ _ (λ _, eq_refl) (λ _ _, eq_refl) Hn Hk) as (a&b&w&->&?Hw&?Ha&?Hb) ];
  clear Hk; norm.

Lemma ultZero_ok : rule_ok UltZero.
Proof.
  intros n τ Hn _ Hap. open_ult Hn Hap a b w. unfold UltZero, childZero in *. norm. pose proof (bool_ult _ _ _ _ _ Ha Hb) as HU.
  rewrite (isZero_eq _ _ _ Ha), (isZero_eq _ _ _ Hb) in *. cbn [mbind option_bind] in *. destruct (bool_decide_reflect (b = cst w 0)) as [Hbz|Hbz].
  - subst b. eexists. split; [done|]. eapply equiv_bool; [exact HU|apply bool_const|]. bools.
  - destruct (bool_decide_reflect (a = cst w 0)) as [Haz|Haz]; [|done]. subst a. rewrite (getSize_term _ _ _ Ha). cbn [mbind option_bind]. rewrite mkZero_cst by lia.
    eexists. split; [done|]. eapply equiv_bool; [exact HU|exact (bool_distinct _ _ _ _ _ Ha Hb)|]. bools.
Qed.

Lemma ultOne_ok : rule_ok UltOne.
Proof.
  intros n τ Hn _ Hap. open_ult Hn Hap a b w. unfold UltOne in *. norm. pose proof (bool_ult _ _ _ _ _ Ha Hb) as HU.
  rewrite (isOne_eq _ _ _ Hb) in Hap. cbn in Hap. apply bool_decide_eq_true in Hap as ->.
  rewrite (getSize_term _ _ _ Ha). cbn [mbind option_bind]. rewrite mkZero_cst by lia. eexists. split; [done|].
  assert (bvterm (cst w 0) w (λ _, 0)) as Hz by (apply bv_cst; [done|pose proof (pow2_pos w); lia]).
  eapply equiv_bool; [exact HU|exact (bool_eq_bv _ _ _ _ _ Ha Hz)|]. bools.
Qed.

Lemma ultOnes_ok : rule_ok UltOnes.
Proof.
  intros n τ Hn _ Hap. open_ult Hn Hap a b w. unfold UltOnes in *. norm. pose proof (bool_ult _ _ _ _ _ Ha Hb) as HU.
  rewrite (isOnes_eq _ _ _ Ha), (isOnes_eq _ _ _ Hb) in *. cbn [mbind option_bind] in *. destruct (bool_decide_reflect (b = cst w (2 ^ w - 1))) as [Hbz|Hbz].
  - subst b. rewrite (getSize_term _ _ _ Hb). cbn [mbind option_bind]. rewrite mkOnes_cst by lia.
    eexists. split; [done|]. eapply equiv_bool; [exact HU|exact (bool_distinct _ _ _ _ _ Ha Hb)|]. bools.
  - destruct (bool_decide_reflect (a = cst w (2 ^ w - 1))) as [Haz|Haz]; [|done]. subst a. eexists. split; [done|]. eapply equiv_bool; [exact HU|apply bool_const|]. bools.
Qed.

Lemma ultSelf_ok : rule_ok UltSelf.
Proof using Type.
  intros n τ Hn _ Hap. open_ult Hn Hap a b w. unfold UltSelf in *. norm. apply bool_decide_eq_true in Hap as ->.
  eexists. split; [done|]. eapply equiv_bool; [exact (bool_ult _ _ _ _ _ Ha Hb)|apply bool_const|]. bools.
Qed.

Lemma sltSelf_ok : rule_ok SltSelf.
Proof using Type.
  intros n τ Hn _ Hap. open_ult Hn Hap a b w. unfold SltSelf in *. norm. apply bool_decide_eq_true in Hap as ->.
  eexists. split; [done|]. eapply equiv_bool; [exact (bool_slt _ _ _ _ _ Ha Hb)|apply bool_const|]. bools.
Qed.

Lemma uleSelf_ok : rule_ok UleSelf.
Proof using Type.
  intros n τ Hn _ Hap. open_ult Hn Hap a b w. unfold UleSelf in *. norm. apply bool_decide_eq_true in Hap as ->.
  eexists. split; [done|]. eapply equiv_bool; [exact (bool_ule _ _ _ _ _ Ha Hb)|apply bool_const|]. bools.
Qed.

Lemma childIsZero_eq k a b w i c : bvterm a w (bv_of a) → [a; b] !! i = Some c →
  childIsZero (mkNode2 k a b) i = bool_decide (c = cst w 0).
Proof.
  intros Ha Hi. pose proof Ha as (_&Hw&_). unfold childIsZero.
  destruct i as [|[|]]; try done; injection Hi as <-; norm; rewrite (getSize_term _ _ _ Ha); cbn [mbind option_bind];
    by rewrite mkZero_cst by lia.
Qed.

Lemma uleZero_ok : rule_ok UleZero.
Proof.
  intros n τ Hn _ Hap. open_ult Hn Hap a b w. unfold UleZero in *. norm. rewrite (childIsZero_eq _ a b w 1 b Ha eq_refl) in Hap.
  apply bool_decide_eq_true in Hap as ->. eexists. split; [done|].
  eapply equiv_bool; [exact (bool_ule _ _ _ _ _ Ha Hb)|exact (bool_eq_bv _ _ _ _ _ Ha Hb)|]. bools.
Qed.

Lemma zeroUle_ok : rule_ok ZeroUle.
Proof.
  intros n τ Hn _ Hap. open_ult Hn Hap a b w. unfold ZeroUle in *. norm. rewrite (childIsZero_eq _ a b w 0 a Ha eq_refl) in Hap.
  apply bool_decide_eq_true in Hap as ->. eexists. split; [done|].
  eapply equiv_bool; [exact (bool_ule _ _ _ _ _ Ha Hb)|apply bool_const|]. bools.
Qed.

Lemma uleMax_ok : rule_ok UleMax.
Proof.
  intros n τ Hn _ Hap. open_ult Hn Hap a b w. unfold UleMax in *. norm. rewrite (getSize_term _ _ _ Ha) in Hap.
  cbn [mbind option_bind] in Hap. rewrite mkOnes_cst in Hap by done. cbn in Hap. apply bool_decide_eq_true in Hap as ->.
  eexists. split; [done|]. eapply equiv_bool; [exact (bool_ule _ _ _ _ _ Ha Hb)|apply bool_const|]. bools.
Qed.

End sound.

(** * Soundness of [AndOrXorConcatPullUp]: a bitwise operator over a
    concatenation with a constant part is a concatenation of bitwise
    operators. *)

(** ** Bitwise operators *)

(** [g] works on each pair of bits by itself. *)
Class Bitwise (g : Z → Z → Z) (h : bool → bool → bool) : Prop := {
  bw_bits : ∀ x y i, 0 ≤ i → Z.testbit (g x y) i = h (Z.testbit x i) (Z.testbit y i);
  bw_zero : g 0 0 = 0;
  bw_bound : ∀ w x y, 0 ≤ w → 0 ≤ x < 2 ^ w → 0 ≤ y < 2 ^ w → 0 ≤ g x y < 2 ^ w;
}.

#[global] Instance bitwise_and : Bitwise Z.land andb.
Proof. split; [intros; apply Z.land_spec|done|intros; by apply land_bound]. Qed.
#[global] Instance bitwise_or : Bitwise Z.lor orb.
Proof. split; [intros; apply Z.lor_spec|done|intros; by apply lor_bound]. Qed.
#[global] Instance bitwise_xor : Bitwise Z.lxor xorb.
Proof. split; [intros; apply Z.lxor_spec|done|intros; by apply lxor_bound]. Qed.

Lemma cat_bits k a b i : 0 ≤ k → 0 ≤ b < 2 ^ k → 0 ≤ i →
  Z.testbit (a * 2 ^ k + b) i = if decide (i < k) then Z.testbit b i else Z.testbit a (i - k).
Proof.
  intros Hk Hb Hi. case_decide as Hik.
  - assert (wrap k (a * 2 ^ k + b) = b) as E by (apply (wrap_eq k _ b a); lia).
    rewrite <- E at 2. rewrite wrap_bits, bool_decide_true by lia. done.
  - replace i with ((i - k) + k) at 1 by lia. rewrite <- Z.div_pow2_bits by lia.
    by rewrite Z.div_add_l, Z.div_small, Z.add_0_r by lia.
Qed.

Lemma bitwise_cat `{!Bitwise g h} k a b c d : 0 ≤ k → 0 ≤ b < 2 ^ k → 0 ≤ d < 2 ^ k →
  g (a * 2 ^ k + b) (c * 2 ^ k + d) = g a c * 2 ^ k + g b d.
Proof.
  intros Hk Hb Hd. apply Z.bits_inj'. intros i Hi. pose proof (bw_bound k b d Hk Hb Hd).
  rewrite bw_bits, !cat_bits by done. case_decide; by rewrite bw_bits by lia.
Qed.

(** ** Splitting the operands *)

Lemma splitConcat_spec cs : ∀ i c, list_find (isKind BITVECTOR_CONCAT) cs = Some (i, c) →
  ∃ xb, splitConcat cs = (Some c, xb) ∧ cs ≡ₚ c :: xb.
Proof.
  induction cs as [|d cs IH]; intros i c Hf; [done|]. cbn [list_find splitConcat] in *. case_decide as Hd.
  - injection Hf as <- <-. apply Is_true_true in Hd. rewrite Hd. by exists cs.
  - destruct (list_find _ cs) as [[j c']|] eqn:E; [|done]. cbn in Hf. injection Hf as <- <-.
    destruct (IH j c' eq_refl) as (xb&->&HP). assert (isKind BITVECTOR_CONCAT d = false) as -> by (by destruct (isKind _ d)).
    exists (d :: xb). split; [done|]. rewrite HP. constructor.
Qed.

Section sound.
Context `{!Gmp, !GmpLaws}.

Lemma isPlainConst_some n w f : bvterm n w f → ∃ b, isPlainConst n = Some b.
Proof.
  intros Hn. unfold isPlainConst. rewrite (isZero_eq _ _ _ Hn), (isOne_eq _ _ _ Hn), (isOnes_eq _ _ _ Hn). cbn [orElse mbind option_bind].
  repeat case_bool_decide; cbn; eauto.
Qed.

Lemma splitConst_spec ps : Forall part_ok ps → (∃ p, p ∈ ps ∧ isPlainConst (pnode p) = Some true) →
  ∃ ys p zs, ps = ys ++ p :: zs ∧ splitConst (pnode <$> ps) = Some (pnode <$> ys, Some (pnode p), pnode <$> zs).
Proof.
  induction 1 as [|p ps Hp Hps IH]; intros (q&Hq&Hc); [by apply elem_of_nil in Hq|]. cbn [fmap list_fmap splitConst].
  destruct (isPlainConst_some _ _ _ Hp) as [[] Eb]; rewrite Eb; cbn [mbind option_bind].
  - by exists [], p, ps.
  - destruct IH as (ys&p'&zs&->&->). { exists q. split; [|done]. apply elem_of_cons in Hq as [->|]; [congruence|done]. }
    by exists (p :: ys), p', zs.
Qed.

Lemma buildConcat ps : Forall part_ok ps → ps ≠ [] → Z.of_nat (length ps) ≤ MAX_CHILDREN → cat_width ps ≤ max_uint32 →
  ∃ n, buildNode BITVECTOR_CONCAT (pnode <$> ps) = Some n ∧ bvterm n (cat_width ps) (cat_val ps).
Proof using Type.
  intros HF Hne Hm Hw. destruct (mkConcatList_term ps HF) as (n&E&Hn); [destruct ps; simpl; [done|lia]|done..|]. exists n. split; [|done].
  destruct ps as [|p [|q ps]]; done.
Qed.

(** One side of the split: the operator over a slice of [x] and the parts [ps]. *)
Lemma pull_side `{!NaryKind k (λ _, g) e, !Bitwise g h} x w fx ps hi l :
  bvterm x w fx → (ps ≠ [] → hi = l + cat_width ps - 1) → Forall part_ok ps → Z.of_nat (length ps) ≤ MAX_CHILDREN → 0 ≤ l → l + cat_width ps ≤ w →
  ∃ qs, Forall part_ok qs ∧ cat_width qs = cat_width ps ∧ length qs = (if decide (ps = []) then 0 else 1)%nat ∧
    (∀ env, env_ok env → cat_val qs env = g (wrap (cat_width ps) (fx env / 2 ^ l)) (cat_val ps env)) ∧
    match buildNode BITVECTOR_CONCAT (pnode <$> ps) with
    | Some y => if decide (cat_width ps = 0) then [] else [mkNode2 k (utils.mkExtract x hi l) y]
    | None => []
    end = pnode <$> qs ∧ sizeOrZero (buildNode BITVECTOR_CONCAT (pnode <$> ps)) = Some (cat_width ps).
Proof using Type.
  intros Hx Hhi Hps Hm Hl Hw. pose proof Hx as (_&Hxw&_). destruct (decide (ps = [])) as [->|Hne].
  - exists []. split_and!; try done. intros env _. cbn. unfold wrap. rewrite Z.mod_1_r. symmetry. apply bw_zero.
  - rewrite (Hhi Hne). destruct (buildConcat ps Hps Hne Hm ltac:(lia)) as (y&->&Hy). pose proof Hy as (_&Hyw&_). rewrite decide_False by lia.
    pose proof (bv_extract x w fx Hx (l + cat_width ps - 1) l ltac:(lia) ltac:(lia)) as Hs.
    replace (l + cat_width ps - 1 - l + 1) with (cat_width ps) in Hs by lia.
    assert (bvterm (mkNode2 k (utils.mkExtract x (l + cat_width ps - 1) l) y) (cat_width ps)
      (λ env, g (wrap (cat_width ps) (fx env / 2 ^ l)) (cat_val ps env))) as Ho.
    { eapply (bvterm_bin _ g); try done; [by rewrite nk_arity|apply nk_payload|apply nk_type| |intros; by apply bw_bound].
      intros. rewrite nk_eval. cbn. by rewrite decide_True. }
    eexists [mkPart _ _ _]. split_and!; [apply Forall_cons_2; [exact Ho|apply Forall_nil_2]|cbn; lia|done| |done|exact (getSize_term _ _ _ Hy)].
    intros env _. cbn. lia.
Qed.

(** The operands that are left, as one term. *)
Lemma buildOperands `{!NaryKind k g e} w xb : wts w xb → xb ≠ [] → Z.of_nat (length xb) ≤ MAX_CHILDREN →
  ∃ x, buildNode k xb = Some x ∧ bvterm x w (opval (g w) (e w) xb).
Proof using Type.
  intros Hns Hne Hm. destruct xb as [|n [|m ns]]; [done| |].
  - exists n. split; [done|]. apply list.Forall_cons in Hns as [Hn _]. pose proof (wt_bvterm _ _ Hn) as Hb. pose proof Hb as (_&Hw&_).
    eapply bvterm_env; [exact Hb|]. intros env Hok. apply (opval_one w); [apply nk_op; lia|done..].
  - eexists. split; [done|]. apply bv_opval; [done| |done]. simpl. lia.
Qed.

(** The value of the operator over the split operands. *)
Lemma pull_value `{!Bitwise g h} y n c z X Y C D :
  0 ≤ n → 0 ≤ z → 0 ≤ y → 0 ≤ X < 2 ^ (y + (n + z)) → 0 ≤ C < 2 ^ n → 0 ≤ D < 2 ^ z → c = n + z →
  (g (wrap y (X / 2 ^ c)) Y * 2 ^ n + g (wrap n (X / 2 ^ z)) C) * 2 ^ z + g (wrap z (X / 2 ^ 0)) D
  = g X ((Y * 2 ^ n + C) * 2 ^ z + D).
Proof using Type.
  intros Hn Hz Hy HX HC HD ->. rewrite <- !(bitwise_cat (g:=g)); [|by try done; apply wrap_bound..]. f_equal.
  rewrite Z.pow_0_r, Z.div_1_r. rewrite (Z.add_comm n z), div_pow2_add, <- !wrap_split by lia. apply wrap_small.
  by rewrite <- Z.add_assoc.
Qed.

(** The concatenation of the three sides. *)
Lemma pull_equiv `{!Bitwise g h} n w x ts ms ls fx ys p zs :
  bvterm n w (λ env, g (fx env) (cat_val (ys ++ p :: zs) env)) → bvterm x w fx → w ≤ MAX_CHILDREN →
  Forall part_ok ys → part_ok p → Forall part_ok zs → (2 ≤ length (ts ++ ms ++ ls))%nat →
  w = cat_width ys + (pwidth p + cat_width zs) →
  Forall part_ok ts → Forall part_ok ms → Forall part_ok ls →
  cat_width ts = cat_width ys → cat_width ms = pwidth p → cat_width ls = cat_width zs →
  (∀ env, env_ok env → cat_val ts env = g (wrap (cat_width ys) (fx env / 2 ^ (pwidth p + cat_width zs))) (cat_val ys env)) →
  (∀ env, env_ok env → cat_val ms env = g (wrap (pwidth p) (fx env / 2 ^ cat_width zs)) (pval p env)) →
  (∀ env, env_ok env → cat_val ls env = g (wrap (cat_width zs) (fx env / 2 ^ 0)) (cat_val zs env)) →
  equiv n (mkNode BITVECTOR_CONCAT (pnode <$> (ts ++ ms ++ ls))).
Proof using Type.
  intros Hn Hx Hm Hys Hp Hzs Hlen Hw HT HM HL HTw HMw HLw HTv HMv HLv.
  assert (Forall part_ok (ts ++ ms ++ ls)) as HF by (rewrite !Forall_app; done).
  assert (cat_width (ts ++ ms ++ ls) = w) as E by (rewrite !cat_width_app; lia). pose proof (cat_width_ge _ HF).
  assert (bvterm (mkNode BITVECTOR_CONCAT (pnode <$> (ts ++ ms ++ ls))) w (cat_val (ts ++ ms ++ ls))) as HR.
  { rewrite <- E. apply bv_concatN; [done..|lia|]. unfold MAX_CHILDREN, max_uint32 in *. lia. }
  eapply equiv_bv; [exact Hn|exact HR|]. intros env Hok _. pose proof (cat_width_ge ys Hys). pose proof (cat_width_ge zs Hzs).
  pose proof Hp as (_&Hpw&_). rewrite !cat_val_app by (try apply Forall_app; parts). rewrite cat_width_app, HMw, HLw, HTv, HMv, HLv by done.
  cbn [cat_val cat_width]. rewrite !pow2_add by lia. rewrite <- pow2_add by lia.
  pose proof (bv_bound _ _ _ _ Hx Hok). pose proof (bv_bound _ _ _ _ Hp Hok). pose proof (cat_val_bound zs env Hzs Hok).
  pose proof (pull_value (g:=g) (cat_width ys) (pwidth p) (pwidth p + cat_width zs) (cat_width zs) (fx env) (cat_val ys env) (pval p env) (cat_val zs env)) as Hv.
  rewrite Hw in *. etrans; [|etrans; [apply Hv; try done; lia|f_equal; rewrite pow2_add by lia; ring]]. rewrite pow2_add by lia. ring.
Qed.

Lemma pullUp_kind k g e h n τ `{!NaryKind k (λ _, g) e, !Bitwise g h} :
  bitwiseKind n = Some k → isKind k n = true → wt n τ → tsmall τ → applies AndOrXorConcatPullUp n = true →
  ∃ n', apply AndOrXorConcatPullUp n = Some n' ∧ equiv n n'.
Proof.
  intros Hbk Hk Hn Hs Hap. kind_of Hk. cbn [applies apply AndOrXorConcatPullUp] in *. rewrite Hbk in *. cbn [children mbind option_bind] in *.
  destruct (nary_operands cs τ Hn) as (w&->&Hw&Hcs&Hl&Hm).
  destruct (list_find _ cs) as [[i c]|] eqn:Ef; [|done]. destruct (splitConcat_spec cs i c Ef) as (xb&->&HP).
  destruct (list_find _ (children c)) as [[j q]|] eqn:Ec; [|done].
  pose proof Hcs as Hcs'. rewrite HP in Hcs'. apply list.Forall_cons in Hcs' as [Hc Hxb].
  apply list_find_Some in Ef as (_&Hck%Is_true_true&_). kind_of Hck.
  destruct (concat_terms _ _ Hc) as (ps&->&HF&[= Hcw]&Hpl&Hpm&Hpw).
  destruct (bvterm_det _ _ _ _ _ (wt_bvterm _ _ Hc) (bv_concatN ps HF Hpl Hpm Hpw)) as [_ HC].
  pose proof (Permutation_length HP) as Hlen. cbn [length] in Hlen.
  destruct (buildOperands (k:=k) w xb) as (x&->&Hx); [done|intros ->; simpl in Hlen; lia|lia|]. cbn [mbind option_bind children].
  destruct (splitConst_spec ps HF) as (ys&p&zs&->&->).
  { apply list_find_Some in Ec as (Hj&_&_). cbn [children] in Hj. rewrite list_lookup_fmap in Hj. apply fmap_Some in Hj as (p&Hj&->).
    exists p. split; [by eapply list_elem_of_lookup_2|]. eapply list_elem_of_lookup_2, list.Forall_forall in Hj; [|exact HF].
    destruct (isPlainConst_some _ _ _ Hj) as [b Eb]. rewrite Eb in *. by destruct b. }
  cbn [mbind option_bind]. apply Forall_app in HF as [Hys Hp]. apply list.Forall_cons in Hp as [Hp Hzs].
  rewrite length_app in Hpl, Hpm. cbn [length] in Hpl, Hpm. rewrite cat_width_app in Hcw. cbn [cat_width] in Hcw.
  rewrite bool_decide_false by (intros [?%fmap_nil_inv ?%fmap_nil_inv]; subst; simpl in Hpl; lia). cbn [negb assert mbind option_bind].
  pose proof (cat_width_ge ys Hys). pose proof (cat_width_ge zs Hzs). pose proof Hp as (_&Hpw'&_).
  pose proof Hw as Hw32. unfold max_uint32 in Hw32.
  destruct (pull_side (k:=k) x w _ ys (u32 (w - 1)) (pwidth p + cat_width zs) Hx ltac:(intros; rewrite u32_small by lia; lia) Hys) as (ts&HT&HTw&HTl&HTv&ETs&ETw); [lia..|].
  destruct (pull_side (k:=k) x w _ [p] (u32 (w - cat_width ys - 1)) (cat_width zs) Hx ltac:(intros; rewrite u32_small by lia; cbn; lia)) as (ms&HM&HMw&HMl&HMv&EMs&_); [parts|cbn; unfold MAX_CHILDREN; lia|lia|cbn; lia|].
  destruct (pull_side (k:=k) x w _ zs (u32 (cat_width zs - 1)) 0 Hx ltac:(intros ?; destruct zs; [done|]; cbn [length] in *; rewrite u32_small by lia; lia) Hzs) as (ls&HL&HLw&HLl&HLv&ELs&ELw); [lia..|].
  rewrite (getSize_term _ _ _ Hx), (getSize_term _ _ _ Hp), ETw, ELw. cbn [mbind option_bind].
  rewrite (bool_decide_true (cat_width zs = _)) by (rewrite u32_small by lia; lia). cbn [assert mbind option_bind].
  rewrite bool_decide_false by lia. cbn [negb assert mbind option_bind]. rewrite (u32_small (w - cat_width ys)) by lia.
  assert (w - cat_width ys = pwidth p + cat_width zs) as Ew by lia. cbn [fmap list_fmap buildNode cat_width] in EMs.
  rewrite decide_False, Ew in EMs by lia. rewrite !Ew.
  rewrite ETs, EMs, ELs, <- !fmap_app. eexists. split; [done|].
  apply (pull_equiv (g:=g) _ w x ts ms ls (opval g (e w) xb) ys p zs); try done; try (cbn in *; lia).
  - eapply bvterm_env; [exact (bv_opval (k:=k) w cs Hcs Hl Hm)|]. intros env Hok. rewrite (opval_perm w _ _ env (nk_op w ltac:(lia)) _ _ HP).
    cbn [opval foldr]. rewrite (op_comm _ _ _ (nk_op (NaryKind:=NaryKind0) w ltac:(lia))). f_equal. by rewrite HC.
  - rewrite !length_app, HTl, HMl, HLl. repeat case_decide; subst; simpl in *; lia || done.
  - intros env Hok. rewrite HMv by done. cbn. f_equal; [by rewrite Z.add_0_r|lia].
Qed.

Lemma andOrXorConcatPullUp_ok : rule_ok AndOrXorConcatPullUp.
Proof.
  intros n τ Hn Hs Hap. pose proof Hap as Hk. cbn [applies AndOrXorConcatPullUp] in Hk.
  destruct n as [| | | |[] cs]; try done; [apply (pullUp_kind BITVECTOR_AND Z.land (λ w, 2 ^ w - 1) andb _ τ)
    |apply (pullUp_kind BITVECTOR_OR Z.lor (λ _, 0) orb _ τ)|apply (pullUp_kind BITVECTOR_XOR Z.lxor (λ _, 0) xorb _ τ)]; try done; by cbn.
Qed.

End sound.
