(* ===== verification/BvSimplifyArith.v ===== *)
(** [theory/bv/theory_bv_rewrite_rules_simplification.h], continued: the rules
    for arithmetic operators, extensions and comparisons with constants. *)
From stdpp Require Import base option list numbers.
From S2P Require Import Prelude Integer Node TypeRules BitVectorUtil BvElim BvConst BvCore BvSimplify.
Open Scope Z_scope.

Section rules.
Context `{!Gmp}.

(** ** Multiplication, division and remainder *)

(** The loop of [MultPow2]: the operands that are not powers of two, the sum of
    the exponents and the sign. *)
Fixpoint multPow2Loop (cs : list Node) (children : list Node) (exponent : Z) (isNeg : bool) :
    option (list Node * Z * bool) :=
  match cs with
  | [] => Some (children, exponent, isNeg)
  | cn :: cs =>
      '(exp, cIsNeg) ← isPow2Const cn;
      if decide (exp ≠ 0) then
        multPow2Loop cs children (u32 (exponent + (exp - 1))) (if (cIsNeg : bool) then negb isNeg else isNeg)
      else multPow2Loop cs (children ++ [cn]) exponent isNeg
  end.

Definition MultPow2 : RewriteRule := {|
  applies node :=
    isKind BITVECTOR_MULT node &&
    existsb (λ cn, match isPow2Const cn with Some (exp, _) => bool_decide (exp ≠ 0) | None => false end) (children node);
  apply node :=
    size ← getSize node;
    '(children, exponent, isNeg) ← multPow2Loop (children node) [] 0 false;
    if decide (exponent >= size) then utils.mkZero size else
    a ← (match children with [] => utils.mkOne size | _ => mkNaryNode BITVECTOR_MULT children end);
    let a := if (isNeg : bool) && bool_decide (size > 1) then mkNode1 BITVECTOR_NEG a else a in
    if decide (exponent = 0) then Some a else
    let extract := utils.mkExtract a (u32 (size - exponent - 1)) 0 in
    let zeros := utils.mkConst exponent 0 in
    Some (utils.mkConcat extract zeros);
|}.

(** The number of leading zeros of the constant [c]. *)
Definition leadingZeroes (c : Node) : option Z :=
  bv ← getConstBV c; size ← getSize c;
  let i := BV.getValue bv in
  Some (if decide (Integer.isZero i) then u32 size else u32 (size - Integer.length i)).

Definition ExtractMultLeadingBit : RewriteRule := {|
  applies node :=
    holds (
      _ ← assert (isExtract node);
      low ← getExtractLow node;
      mult ← child node 0;
      n ← getSize mult;
      _ ← assert (isKind BITVECTOR_MULT mult && bool_decide (getNumChildren mult = 2%nat) && negb (bool_decide (n ≤ 64)));
      a ← child mult 0; b ← child mult 1;
      _ ← assert (isKind BITVECTOR_CONCAT a && isKind BITVECTOR_CONCAT b);
      a0 ← child a 0; b0 ← child b 0;
      _ ← assert (isConst a0 && isConst b0);
      zeroes1 ← leadingZeroes a0; zeroes2 ← leadingZeroes b0;
      let k := u32 (2 * n - (zeroes1 + zeroes2)) in
      Some (negb (bool_decide (k > low))));
  apply node := bitwidth ← getSize node; Some (utils.mkConst bitwidth 0);
|}.

Definition NegIdemp : RewriteRule := {|
  applies node := isKind BITVECTOR_NEG node && childIs (isKind BITVECTOR_NEG) node 0;
  apply node := grandchild node 0 0;
|}.

(** [isPow2Const(node[1], isNeg) && !isNeg]. *)
Definition posPow2 (node : Node) : bool :=
  match (c ← child node 1; isPow2Const c) with
  | Some (p, isNeg) => bool_decide (p ≠ 0) && negb isNeg
  | None => false
  end.

Definition UdivPow2 : RewriteRule := {|
  applies node := isKind BITVECTOR_UDIV node && posPow2 node;
  apply node :=
    size ← getSize node; a ← child node 0; b ← child node 1;
    '(p, isNeg) ← isPow2Const b;
    let power := u32 (p - 1) in
    let ret :=
      if decide (power = 0) then a
      else mkNode2 BITVECTOR_CONCAT (utils.mkConst power 0) (utils.mkExtract a (u32 (size - 1)) power) in
    Some (if (isNeg : bool) && bool_decide (size > 1) then mkNode1 BITVECTOR_NEG ret else ret);
|}.

(** [node[i] == mkConst(size of node, v)]. *)
Definition childIsConst (node : Node) (i : nat) (v : Z) : bool :=
  holds (s ← getSize node; c ← child node i; Some (bool_decide (c = utils.mkConst s v))).

Definition UdivZero : RewriteRule := {|
  applies node := isKind BITVECTOR_UDIV node && childIsConst node 1 0;
  apply node := s ← getSize node; utils.mkOnes s;
|}.

Definition UdivOne : RewriteRule := {|
  applies node := isKind BITVECTOR_UDIV node && childIsConst node 1 1;
  apply node := child node 0;
|}.

Definition UremPow2 : RewriteRule := {|
  applies node := isKind BITVECTOR_UREM node && posPow2 node;
  apply node :=
    a ← child node 0; b ← child node 1;
    '(p, isNeg) ← isPow2Const b;
    let power := u32 (p - 1) in
    size ← getSize node;
    if decide (power = 0) then utils.mkZero size
    else
      let extract := utils.mkExtract a (u32 (power - 1)) 0 in
      zeros ← utils.mkZero (u32 (size - power));
      Some (mkNode2 BITVECTOR_CONCAT zeros extract);
|}.

Definition UremOne : RewriteRule := {|
  applies node := isKind BITVECTOR_UREM node && childIsConst node 1 1;
  apply node := s ← getSize node; Some (utils.mkConst s 0);
|}.

Definition UremSelf : RewriteRule := {|
  applies node := isKind BITVECTOR_UREM node && sameNode (child node 0) (child node 1);
  apply node := s ← getSize node; Some (utils.mkConst s 0);
|}.

Definition ShiftZero : RewriteRule := {|
  applies node :=
    (isKind BITVECTOR_SHL node || isKind BITVECTOR_LSHR node || isKind BITVECTOR_ASHR node) && childIsConst node 0 0;
  apply node := child node 0;
|}.

Definition UgtUrem : RewriteRule := {|
  applies node :=
    isKind BITVECTOR_UGT node && childIs (isKind BITVECTOR_UREM) node 0 && sameNode (grandchild node 0 1) (child node 1);
  apply node :=
    T ← grandchild node 0 0; x ← child node 1; s ← getSize x;
    let zero := utils.mkConst s 0 in
    Some (mkNode2 AND (mkNode2 EQUAL x zero) (mkNode2 BITVECTOR_UGT T zero));
|}.

(** ** Extensions *)

Definition MergeSignExtend : RewriteRule := {|
  applies node := isSignExtend node && (childIs isSignExtend node 0 || childIs isZeroExtend node 0);
  apply node :=
    match node with
    | mkNode (BITVECTOR_SIGN_EXTEND amount1) _ =>
        c ← child node 0; a ← child c 0;
        match c with
        | mkNode (BITVECTOR_ZERO_EXTEND amount2) _ =>
            if decide (amount2 = 0) then Some (mkNode1 (BITVECTOR_SIGN_EXTEND amount1) a)
            else Some (mkNode1 (BITVECTOR_ZERO_EXTEND (u32 (amount1 + amount2))) a)
        | mkNode (BITVECTOR_SIGN_EXTEND amount2) _ => Some (utils.mkSignExtend a (u32 (amount1 + amount2)))
        | _ => None
        end
    | _ => None
    end;
|}.

(** The extended operand and the constant of a comparison: [t = node[i][0]],
    [c = node[j]] with the first operand taken if it is an extension. *)
Definition extendAndConst (isExtend : Node → bool) (node : Node) : option (bool * Node * Node) :=
  a ← child node 0; b ← child node 1;
  if isExtend a then t ← child a 0; Some (true, t, b) else t ← child b 0; Some (false, t, a).

Definition extendVsConst (isExtend : Node → bool) (node : Node) : bool :=
  (childIs isExtend node 0 && childIs isConst node 1) || (childIs isExtend node 1 && childIs isConst node 0).

Definition ZeroExtendEqConst : RewriteRule := {|
  applies node := isKind EQUAL node && extendVsConst isZeroExtend node;
  apply node :=
    '(_, t, c) ← extendAndConst isZeroExtend node;
    cSize ← getSize c; tSize ← getSize t; bv ← getConstBV c;
    c_hi ← BV.extract (u32 (cSize - 1)) tSize bv;
    c_lo ← BV.extract (u32 (tSize - 1)) 0 bv;
    let zero := BV.new (BV.getSize c_hi) 0 in
    if BV.eq c_hi zero then Some (mkNode2 EQUAL t (utils.mkConstOf c_lo)) else Some utils.mkFalse;
|}.

Definition SignExtendEqConst : RewriteRule := {|
  applies node := isKind EQUAL node && extendVsConst isSignExtend node;
  apply node :=
    '(_, t, c) ← extendAndConst isSignExtend node;
    tSize ← getSize t; cSize ← getSize c; bv ← getConstBV c;
    let pos_msb_t := u32 (tSize - 1) in
    c_hi ← BV.extract (u32 (cSize - 1)) pos_msb_t bv;
    c_lo ← BV.extract pos_msb_t 0 bv;
    let zero := BV.new (BV.getSize c_hi) 0 in
    if BV.eq c_hi zero || BV.eq c_hi (BV.not zero) then Some (mkNode2 EQUAL t (utils.mkConstOf c_lo)) else Some utils.mkFalse;
|}.

Definition ZeroExtendUltConst : RewriteRule := {|
  applies node :=
    isKind BITVECTOR_ULT node && extendVsConst isZeroExtend node &&
    holds (
      '(_, t, c) ← extendAndConst isZeroExtend node;
      tSize ← getSize t; cSize ← getSize c;
      if decide (tSize = cSize) then Some false
      else bv ← getConstBV c;
           c_hi ← BV.extract (u32 (cSize - 1)) tSize bv;
           Some (BV.eq c_hi (BV.new (BV.getSize c_hi) 0)));
  apply node :=
    '(is_lhs, t, c) ← extendAndConst isZeroExtend node;
    bv ← getConstBV c; tSize ← getSize t;
    lo ← BV.extract (u32 (tSize - 1)) 0 bv;
    let c_lo := utils.mkConstOf lo in
    Some (if (is_lhs : bool) then mkNode2 BITVECTOR_ULT t c_lo else mkNode2 BITVECTOR_ULT c_lo t);
|}.

(** [operator<] and [operator<=] of constants. *)
Definition bvLt (a b : BitVector) : bool := bool_decide (BV.getValue a < BV.getValue b).
Definition bvLe (a b : BitVector) : bool := bool_decide (BV.getValue a ≤ BV.getValue b).

(** [1 << (n-1)] and [~0 << (n-1)] as constants of [size_c] bits. *)
Definition signBounds (size_c msb_x_pos : Z) : option (BitVector * BitVector) :=
  bv_msb_x ← BV.setBit msb_x_pos true (BV.new0 size_c);
  bv_upper_bits ← BV.leftShift (BV.not (BV.new0 size_c)) (BV.new size_c msb_x_pos);
  Some (bv_msb_x, bv_upper_bits).

Definition SignExtendUltConst : RewriteRule := {|
  applies node :=
    isKind BITVECTOR_ULT node && extendVsConst isSignExtend node &&
    holds (
      '(is_lhs, x, c) ← extendAndConst isSignExtend node;
      bv_c ← getConstBV c; size_c ← getSize c; size_x ← getSize x;
      '(bv_msb_x, bv_upper_bits) ← signBounds size_c (u32 (size_x - 1));
      Some ((is_lhs && (bvLe bv_c bv_msb_x || bvLe bv_upper_bits bv_c || (bvLt bv_msb_x bv_c && bvLe bv_c bv_upper_bits)))
            || (negb is_lhs && (bvLt bv_c bv_msb_x || bvLe (BV.not bv_msb_x) bv_c
                                || (bvLe (BV.not bv_upper_bits) bv_c && bvLe bv_c (BV.not bv_msb_x))))));
  apply node :=
    '(is_lhs, x, c) ← extendAndConst isSignExtend node;
    bv_c ← getConstBV c; size_c ← getSize c; size_x ← getSize x;
    let msb_x_pos := u32 (size_x - 1) in
    lo ← BV.extract msb_x_pos 0 bv_c;
    let c_lo := utils.mkConstOf lo in
    '(bv_msb_x, bv_upper_bits) ← signBounds size_c msb_x_pos;
    if (is_lhs : bool) then
      if bvLt bv_msb_x bv_c && bvLe bv_c bv_upper_bits then
        zero ← utils.mkZero 1; Some (mkNode2 EQUAL (utils.mkExtract x msb_x_pos msb_x_pos) zero)
      else
        _ ← assert (bvLe bv_c bv_msb_x || bvLe bv_upper_bits bv_c);
        Some (mkNode2 BITVECTOR_ULT x c_lo)
    else if bvLe (BV.not bv_upper_bits) bv_c && bvLe bv_c (BV.not bv_msb_x) then
      one ← utils.mkOne 1; Some (mkNode2 EQUAL (utils.mkExtract x msb_x_pos msb_x_pos) one)
    else
      _ ← assert (bvLt bv_c bv_msb_x || bvLe (BV.not bv_msb_x) bv_c);
      Some (mkNode2 BITVECTOR_ULT c_lo x);
|}.

(** ** Rules outside the rewriter *)

Definition MultSlice : RewriteRule := {|
  applies node :=
    isKind BITVECTOR_MULT node && bool_decide (getNumChildren node = 2%nat) &&
    holds (a ← child node 0; s ← getSize a; Some (bool_decide (s mod 2 = 0)));
  apply node :=
    a ← child node 0; b ← child node 1; bitwidth ← getSize a;
    let half := bitwidth / 2 in
    let zeros := utils.mkConst half 0 in
    let bottom_a := utils.mkExtract a (u32 (half - 1)) 0 in
    let top_a := utils.mkExtract a (u32 (bitwidth - 1)) half in
    let bottom_b := utils.mkExtract b (u32 (half - 1)) 0 in
    let top_b := utils.mkExtract b (u32 (bitwidth - 1)) half in
    let term1 := mkNode2 BITVECTOR_MULT (mkNode2 BITVECTOR_CONCAT zeros bottom_a) (mkNode2 BITVECTOR_CONCAT zeros bottom_b) in
    let term2 := mkNode2 BITVECTOR_CONCAT (mkNode2 BITVECTOR_MULT top_b bottom_a) zeros in
    let term3 := mkNode2 BITVECTOR_CONCAT (mkNode2 BITVECTOR_MULT top_a bottom_b) zeros in
    Some (mkNode3 BITVECTOR_ADD term1 term2 term3);
|}.

Definition UltAddOne : RewriteRule := {|
  applies node :=
    isKind BITVECTOR_ULT node &&
    holds (
      y1 ← child node 1;
      _ ← assert (isKind BITVECTOR_ADD y1);
      c0 ← child y1 0; c1 ← child y1 1;
      _ ← assert (isConstBV c0 || isConstBV c1);
      _ ← assert (negb (isConstBV c0 && isConstBV c1));
      _ ← assert (bool_decide (getNumChildren y1 = 2%nat));
      let one := if isConstBV c0 then c0 else c1 in
      s ← getSize one; Some (bool_decide (one = utils.mkConst s 1)));
  apply node :=
    x ← child node 0; y1 ← child node 1;
    c0 ← child y1 0; c1 ← child y1 1;
    let y := if isConstBV c0 then c1 else c0 in
    size ← getSize x; ones ← utils.mkOnes size;
    let not_y_eq_1 := mkNode1 NOT (mkNode2 EQUAL y ones) in
    let not_y_lt_x := mkNode1 NOT (mkNode2 BITVECTOR_ULT y x) in
    Some (mkNode2 AND not_y_eq_1 not_y_lt_x);
|}.

(** ** Comparison of products *)

(** [a] is a concatenation that starts with zeros at least as wide as its
    second part, [b] a sign extension that at least doubles its operand. *)
Definition zeroExtTuple (a b : Node) : option (option (Node * Node)) :=
  if isKind BITVECTOR_CONCAT a && isSignExtend b then
    a0 ← child a 0; a0Size ← getSize a0; zero ← utils.mkZero a0Size;
    a1 ← child a 1; b0 ← child b 0;
    s1 ← getSize a1; sb ← getSize b0; amount ← getSignExtendAmount b;
    Some (if bool_decide (a0 = zero) && bool_decide (s1 ≤ a0Size) && bool_decide (sb ≤ amount)
          then Some (a1, b0) else None)
  else Some None.

(** Both are sign extensions that at least double their operands. *)
Definition signExtTuple (a b : Node) : option (option (Node * Node)) :=
  if isSignExtend a && isSignExtend b then
    a0 ← child a 0; b0 ← child b 0; sa ← getSize a0; sb ← getSize b0;
    ka ← getSignExtendAmount a; kb ← getSignExtendAmount b;
    Some (if bool_decide (sa ≤ ka) && bool_decide (sb ≤ kb) then Some (a0, b0) else None)
  else Some None.

Definition extract_ext_tuple (node : Node) : option (option (Node * Node * bool)) :=
  a ← child node 0; b ← child node 1;
  r ← zeroExtTuple a b;
  match (r : option (Node * Node)) with
  | Some (x, y) => Some (Some (x, y, false))
  | None =>
      r ← signExtTuple a b;
      match (r : option (Node * Node)) with
      | Some (x, y) => Some (Some (x, y, true))
      | None =>
          r ← zeroExtTuple b a;
          match (r : option (Node * Node)) with
          | Some (x, y) => Some (Some (x, y, false))
          | None => Some None
          end
      end
  end.

(** The sum and the common factor on the left, [(addxt, a)]. *)
Definition sumAndFactor (ml : Node * Node) : option (Node * Node) :=
  if isKind BITVECTOR_ADD ml.1 then Some (ml.1, ml.2)
  else if isKind BITVECTOR_ADD ml.2 then Some (ml.2, ml.1) else None.

Definition MultSltMult : RewriteRule := {|
  applies node :=
    holds (
      _ ← assert (isKind BITVECTOR_SLT node && childIs (isKind BITVECTOR_MULT) node 0 && childIs (isKind BITVECTOR_MULT) node 1);
      l ← child node 0; r ← child node 1;
      _ ← assert (negb (bool_decide (2 < getNumChildren l)%nat || bool_decide (2 < getNumChildren r)%nat));
      tl ← extract_ext_tuple l; '(ml0, ml1, is_sext_l) ← tl;
      tr ← extract_ext_tuple r; '(mr0, mr1, is_sext_r) ← tr;
      _ ← assert (bool_decide (is_sext_l = is_sext_r));
      '(addxt, a) ← sumAndFactor (ml0, ml1);
      _ ← assert (negb (bool_decide (2 < getNumChildren addxt)%nat));
      x ← (if decide (mr0 = a) then Some mr1 else if decide (mr1 = a) then Some mr0 else None);
      Some (sameNode (child addxt 0) (Some x) || sameNode (child addxt 1) (Some x)));
  apply node :=
    l ← child node 0; r ← child node 1;
    tl ← extract_ext_tuple l; '(ml0, ml1, is_sext) ← tl;
    tr ← extract_ext_tuple r; '(mr0, mr1, _) ← tr;
    '(addxt, a) ← sumAndFactor (ml0, ml1);
    let x := if decide (mr0 = a) then mr1 else mr0 in
    let t := mkNode2 BITVECTOR_SUB addxt x in
    st ← getSize t; zero_t ← utils.mkZero st;
    sa ← getSize a; zero_a ← utils.mkZero sa;
    let k := if (is_sext : bool) then BITVECTOR_SLT else BITVECTOR_ULT in
    Some (mkNode3 AND (notNode (eqNode t zero_t)) (notNode (eqNode a zero_a))
            (eqNode (mkNode2 k addxt x) (mkNode2 BITVECTOR_SGT a zero_a)));
|}.

(** ** Comparisons as comparisons of integers *)

Definition isIntToBV (node : Node) : bool := match node with mkNode (INT_TO_BITVECTOR _) _ => true | _ => false end.

(** The integer of an operand [nc]. *)
Definition ineqOperand (nc : Node) : option Node :=
  match nc with
  | mkNode (INT_TO_BITVECTOR bvSize) _ =>
      x ← child nc 0; Some (mkNode2 INTS_MODULUS x (mkConstInt (Integer.pow 2 bvSize)))
  | _ => _ ← assert (isConstBV nc); Some (mkNode1 BITVECTOR_UBV_TO_INT nc)
  end.

Definition IneqElimConversion : RewriteRule := {|
  applies node :=
    (isKind BITVECTOR_ULT node || isKind BITVECTOR_ULE node || isKind BITVECTOR_UGT node || isKind BITVECTOR_UGE node) &&
    forallb (λ nc, isIntToBV nc || isConstBV nc) (children node);
  apply node :=
    children ← mapM ineqOperand (children node);
    arithKind ← (match node with
                 | mkNode BITVECTOR_ULT _ => Some LT
                 | mkNode BITVECTOR_ULE _ => Some LEQ
                 | mkNode BITVECTOR_UGT _ => Some GT
                 | mkNode BITVECTOR_UGE _ => Some GEQ
                 | _ => None
                 end);
    Some (mkNode arithKind children);
|}.

End rules.
