(* ===== verification/BvSimplifyArithSound.v ===== *)
(** Soundness of the rules of [BvSimplifyArith] for products, divisions,
    shifts and extensions. *)
From stdpp Require Import base option list numbers.
From S2P Require Import Prelude Integer Node TypeRules Semantics BvArith TypeSound BitVectorUtil BvElim BvTerms BvElimArith BvElimSound BvConst BvConstSound BvCore BvCoreSound BvSimplify BvAssoc BvSimplifySound BvSimplifyArith.
Open Scope Z_scope.

(** The product of the operands, before it is wrapped. *)
Definition prodZ (cs : list Node) (env : Env) : Z := foldr (λ n x, bv_of n env * x) 1 cs.

Lemma opval_mult w cs env : 0 < w → opval (λ x y, wrap w (x * y)) 1 cs env = wrap w (prodZ cs env).
Proof.
  intros Hw. pose proof (pow2_le 1 w ltac:(lia)). induction cs as [|c cs IH]; cbn [opval foldr prodZ].
  - symmetry. apply wrap_small. lia.
  - unfold opval, prodZ in IH. by rewrite IH, wrap_mul_r by lia.
Qed.

Section sound.
Context `{!Gmp, !GmpLaws}.

(** ** Powers of two *)

Lemma isPow2_value w v : 0 ≤ w → 0 ≤ v < 2 ^ w → Integer.isPow2 v ≠ 0 →
  1 ≤ Integer.isPow2 v ≤ w ∧ v = 2 ^ (Integer.isPow2 v - 1).
Proof.
  intros Hw Hv Hp. destruct (Integer.isPow2_spec v) as [Hyes Hno]. destruct (decide (v = 2 ^ Z.log2 v)) as [E|E].
  - pose proof (Z.log2_nonneg v). rewrite (Hyes (Z.log2 v)) by done.
    assert (Z.log2 v < w) by (apply (Z.pow_lt_mono_r_iff 2); lia). split; [lia|]. by replace (Z.log2 v + 1 - 1) with (Z.log2 v) by lia.
  - exfalso. apply Hp, Hno. intros k Hk ->. apply E. by rewrite Z.log2_pow2.
Qed.

Lemma isPow2Const_spec n w f : bvterm n w f → ∃ p neg, isPow2Const n = Some (p, neg) ∧
  (p ≠ 0 → 1 ≤ p ≤ w ∧ ∃ v, n = cst w v ∧ v = wrap w ((if neg then -1 else 1) * 2 ^ (p - 1))).
Proof.
  intros Hn. pose proof Hn as (_&Hw&_). unfold isPow2Const. destruct (getConstBV n) as [bv|] eqn:E; [|by exists 0, false].
  destruct (constBV_cst n w f ltac:(by destruct n) Hn) as (v&->&Hv). cbn in E. injection E as <-. unfold BV.isPow2. cbn [d_value].
  case_decide as Hp.
  - destruct (isPow2_value w v) as [Hpw E]; [lia|done..|]. eexists _, false. split; [done|]. intros _. split; [done|]. exists v.
    split; [done|]. rewrite Z.mul_1_l, <- E. symmetry. by apply wrap_small.
  - rewrite neg_spec by (by split). cbn [mbind option_bind d_value d_size]. case_decide as Hp'; [|by exists 0, false].
    destruct (isPow2_value w (wrap w (- v))) as [Hpw E]; [lia|apply wrap_bound; lia|done|]. eexists _, true. split; [done|]. intros _.
    split; [done|]. exists v. split; [done|]. rewrite <- E. destruct (wrap_ex w (- v) ltac:(lia)) as [k ->].
    symmetry. apply wrap_eq with (- k); lia.
Qed.

Definition sgn (neg : bool) : Z := if neg then -1 else 1.

(** The loop keeps the value of the product modulo two to the width. *)
Lemma multPow2Loop_spec w cs : ∀ acc ex neg,
  0 < w → wts w cs → 0 ≤ ex → ex + Z.of_nat (length (filter (λ c, isConst c) cs)) * w < 2 ^ 32 →
  ∃ chs ex' neg', multPow2Loop cs acc ex neg = Some (acc ++ chs, ex', neg') ∧ wts w chs ∧ (length chs ≤ length cs)%nat ∧
    0 ≤ ex' < 2 ^ 32 ∧
    ∀ env, wrap w (sgn neg * 2 ^ ex * prodZ cs env) = wrap w (sgn neg' * 2 ^ ex' * prodZ chs env).
Proof.
  induction cs as [|c cs IH]; intros acc ex neg Hw Hcs Hex Hb; cbn [multPow2Loop].
  - exists [], ex, neg. rewrite app_nil_r. cbn in Hb. split_and!; try done; lia.
  - apply list.Forall_cons in Hcs as [Hc Hcs]. rewrite filter_cons in Hb.
    destruct (isPow2Const_spec c w _ (wt_bvterm _ _ Hc)) as (p&cneg&->&Hp). cbn [mbind option_bind].
    destruct (decide (p ≠ 0)) as [Hp0|Hp0].
    + destruct (Hp Hp0) as (Hpw&v&->&Ev). rewrite decide_True in Hb by done. cbn [length] in Hb. rewrite u32_small by nia.
      destruct (IH acc (ex + (p - 1)) (if cneg then negb neg else neg) Hw Hcs ltac:(lia) ltac:(lia))
        as (chs&ex'&neg'&->&Hchs&Hl&Hex'&HV). exists chs, ex', neg'. split_and!; try done; [simpl; lia|lia..|]. intros env. rewrite <- HV.
      cbn [prodZ foldr]. rewrite bv_of_cst, Ev. fold (prodZ cs env).
      rewrite (Z.mul_comm (wrap w _)), Z.mul_assoc, wrap_mul_r by lia. f_equal. rewrite pow2_add by lia. unfold sgn.
      destruct neg, cneg; cbn [negb]; ring.
    + destruct (IH (acc ++ [c]) ex neg Hw Hcs Hex) as (chs&ex'&neg'&->&Hchs&Hl&Hex'&HV).
      { case_decide; cbn [length] in Hb; lia. }
      exists (c :: chs), ex', neg'. rewrite <- app_assoc. split_and!; try done; [by constructor|simpl; lia|lia..|].
      intros env. cbn [prodZ foldr]. fold (prodZ cs env) (prodZ chs env).
      replace (sgn neg * 2 ^ ex * (bv_of c env * prodZ cs env)) with (sgn neg * 2 ^ ex * prodZ cs env * bv_of c env) by ring.
      rewrite <- wrap_mul_l, HV, wrap_mul_l by lia. f_equal. ring.
Qed.

Lemma cat_zeros a w fa ex : bvterm a w fa → 0 < ex < w →
  bvterm (utils.mkConcat (utils.mkExtract a (w - ex - 1) 0) (utils.mkConst ex 0)) w (λ env, wrap w (fa env * 2 ^ ex)).
Proof.
  intros Ha Hex. pose proof Ha as (_&Hw&_). pose proof (pow2_pos ex ltac:(lia)).
  pose proof (bv_extract a w fa Ha (w - ex - 1) 0 ltac:(lia) ltac:(lia)) as Hx. pose proof (bv_const ex 0 ltac:(lia) ltac:(lia)) as Hz.
  eapply bvterm_ext; [exact (bv_concat2 _ _ _ _ _ _ Hx Hz ltac:(lia))|lia|]. intros env. cbv beta.
  rewrite split_mul_wrap, Z.pow_0_r, Z.div_1_r by lia. replace (w - ex - 1 - 0 + 1) with (w - ex) by lia. lia.
Qed.

(** The factors that are left. *)
Lemma mkFactor w chs : 0 < w ≤ max_uint32 → wts w chs → Z.of_nat (length chs) ≤ MAX_CHILDREN →
  ∃ a, match chs with [] => utils.mkOne w | _ => mkNaryNode BITVECTOR_MULT chs end = Some a ∧
    bvterm a w (λ env, wrap w (prodZ chs env)).
Proof.
  intros Hw Hchs Hm. destruct chs as [|c chs].
  - rewrite mkOne_cst by lia. pose proof (pow2_gt1 w ltac:(lia)). eexists. split; [done|]. eapply bvterm_ext; [apply bv_cst; lia|done|].
    intros env. cbn. apply wrap_small. lia.
  - destruct (mkNaryNode_term (k:=BITVECTOR_MULT) w (c :: chs)) as (a&->&Ha); [rewrite !elem_of_cons; tauto|done|done|lia|].
    exists a. split; [done|]. eapply bvterm_ext; [exact Ha|done|]. intros env. by rewrite opval_mult by lia.
Qed.

(** A sign makes no difference on one bit. *)
Lemma signedFactor a w neg f : bvterm a w (λ env, wrap w (f env)) →
  bvterm (if neg && bool_decide (w > 1) then mkNode1 BITVECTOR_NEG a else a) w (λ env, wrap w (sgn neg * f env)).
Proof using Type.
  intros Ha. pose proof Ha as (_&Hw&_).
  destruct neg; cbn [andb sgn]; [|eapply bvterm_ext; [exact Ha|done|]; intros env; by rewrite Z.mul_1_l].
  case_bool_decide; eapply bvterm_ext; [apply bv_neg, Ha|done| |exact Ha|done|]; intros env; cbv beta.
  - replace (- wrap w (f env)) with (-1 * wrap w (f env)) by lia. by rewrite wrap_mul_r by lia.
  - assert (w = 1) as -> by lia. apply (wrap_congr 1 _ _ (- f env)); lia.
Qed.

(** The sum of the exponents must fit the 32 bits it is kept in. *)
Lemma multPow2_sound n τ w :
  wt n τ → getSize n = Some w → Z.of_nat (length (filter (λ c, isConst c) (children n))) * w < 2 ^ 32 →
  applies MultPow2 n = true → ∃ n', apply MultPow2 n = Some n' ∧ equiv n n'.
Proof.
  intros Hn Hs Hb Hap. cbn [applies MultPow2] in Hap. apply andb_true_iff in Hap as [Hk _]. kind_of Hk.
  destruct (nary_operands cs τ Hn) as (w'&->&Hw&Hcs&Hl&Hm). rewrite (getSize_term _ _ _ (wt_bvterm _ _ Hn)) in Hs. injection Hs as ->.
  pose proof (bv_opval (k:=BITVECTOR_MULT) w cs Hcs Hl Hm) as HN. cbn [apply MultPow2 children] in *.
  rewrite (getSize_term _ _ _ HN). cbn [mbind option_bind].
  destruct (multPow2Loop_spec w cs [] 0 false ltac:(lia) Hcs ltac:(lia) Hb) as (chs&ex&neg&->&Hchs&Hlc&Hex&HV). cbn [app mbind option_bind].
  assert (∀ env, opval (λ x y, wrap w (x * y)) 1 cs env = wrap w (sgn neg * 2 ^ ex * prodZ chs env)) as HV'.
  { intros env. rewrite opval_mult by lia. rewrite <- HV. f_equal. unfold sgn. rewrite Z.pow_0_r. lia. }
  case_decide as Hge.
  { rewrite mkZero_cst by lia. eexists. split; [done|]. eapply equiv_bv; [exact HN|apply bv_cst; [done|pose proof (pow2_pos w); lia]|].
    intros env _ _. cbv beta. rewrite HV'. symmetry. apply wrap_eq with (sgn neg * 2 ^ (ex - w) * prodZ chs env); [pose proof (pow2_pos w); lia|].
    replace ex with ((ex - w) + w) at 1 by lia. rewrite pow2_add by lia. ring. }
  destruct (mkFactor w chs Hw Hchs ltac:(lia)) as (a&->&Ha). cbn [mbind option_bind].
  pose proof (signedFactor a w neg _ Ha) as Hsa. cbv beta zeta in Hsa |- *.
  destruct (decide (ex = 0)) as [He0|He0].
  - subst ex. eexists. split; [done|]. eapply equiv_bv; [exact HN|exact Hsa|]. intros env _ _. rewrite HV'. f_equal. rewrite Z.pow_0_r. lia.
  - unfold max_uint32 in Hw. rewrite u32_small by lia. eexists. split; [done|].
    eapply equiv_bv; [exact HN|apply cat_zeros; [exact Hsa|lia]|]. intros env _ _. cbv beta. rewrite HV', wrap_mul_l by lia. f_equal. ring.
Qed.

(** ** The high bits of a product *)

Lemma leadingZeroes_spec w v : 0 < w ≤ max_uint32 → 0 ≤ v < 2 ^ w →
  ∃ z, leadingZeroes (cst w v) = Some z ∧ 0 ≤ z ≤ w ∧ v < 2 ^ (w - z).
Proof.
  intros Hw Hv. unfold leadingZeroes. cbn [cst getConstBV mbind option_bind BV.getValue d_value].
  rewrite (getSize_term _ _ _ (bv_cst w v Hw Hv)). cbn [mbind option_bind]. eexists. split; [done|]. unfold max_uint32 in Hw.
  unfold Integer.isZero, Integer.length, Integer.sgn. rewrite mpz_sgn_spec. case_decide as Hz.
  - rewrite u32_small by lia. split; [lia|]. replace (w - w) with 0 by lia. destruct v; simpl in Hz; lia || done.
  - assert (0 < v) by (destruct v; simpl in Hz; lia || done). rewrite decide_False by (destruct v; simpl; lia).
    rewrite mpz_sizeinbase2_spec, Z.abs_eq by lia. destruct (Z.log2_spec v ltac:(lia)) as [Hlo Hhi]. pose proof (Z.log2_nonneg v).
    assert (Z.log2 v < w) by (apply (Z.pow_lt_mono_r_iff 2); lia). rewrite u32_small by lia. split; [lia|].
    by replace (w - (w - (Z.log2 v + 1))) with (Z.succ (Z.log2 v)) by lia.
Qed.

(** A concatenation whose first part has [z] leading zeros. *)
Lemma concat_leading cs w f c0 :
  bvterm (mkNode BITVECTOR_CONCAT cs) w f → cs !! 0%nat = Some c0 → isConst c0 = true →
  ∃ z, leadingZeroes c0 = Some z ∧ 0 ≤ z ≤ w ∧ ∀ env, env_ok env → 0 ≤ f env < 2 ^ (w - z).
Proof.
  intros Hb Hc Hk. pose proof Hb as (Hwt&Hw&_). destruct (concat_terms cs _ Hwt) as (ps&->&HF&[= Ew]&Hl&Hm&Hpw).
  destruct (bvterm_det _ _ _ _ _ Hb (bv_concatN ps HF Hl Hm Hpw)) as [_ Ef].
  destruct ps as [|p ps]; [done|]. cbn in Hc. injection Hc as <-. apply list.Forall_cons in HF as [Hp HF].
  destruct (const_cst _ _ _ Hk Hp) as (v&E&Hv). pose proof Hp as (_&Hpw'&_). pose proof (cat_width_ge ps HF). cbn [cat_width] in Ew.
  destruct (leadingZeroes_spec (pwidth p) v Hpw' Hv) as (z&Ez&Hz&Hvz). rewrite E. exists z. split_and!; [done|lia..|].
  intros env Hok. rewrite Ef by done. cbn [cat_val]. pose proof (cat_val_bound ps env HF Hok).
  assert (pval p env = v) as -> by (unfold part_ok in Hp; rewrite E in Hp; by apply (cst_val _ _ _ _ _ Hp)).
  replace (w - z) with ((pwidth p - z) + cat_width ps) by lia. rewrite pow2_add by lia. nia.
Qed.

(** A product below [2 ^ k] has no bits at or above [l]. *)
Lemma highBits_zero w h l k x : 0 ≤ k ≤ l → l ≤ h → h < w → 0 ≤ x < 2 ^ k → wrap (h - l + 1) (wrap w x / 2 ^ l) = 0.
Proof using Type.
  intros Hk Hl Hh Hx. pose proof (pow2_le k l ltac:(lia)). pose proof (pow2_le l w ltac:(lia)). pose proof (pow2_pos (h - l + 1) ltac:(lia)).
  rewrite (wrap_small w) by lia. rewrite Z.div_small by lia. apply wrap_small. lia.
Qed.

Lemma holds_true o : holds o = true → o = Some true.
Proof using Type. by destruct o as [[]|]. Qed.

(** The width of the product must be below 2^31: twice the width is computed
    in 32 bits. *)
Lemma extractMultLeadingBit_sound n τ :
  wt n τ → (∀ c s, child n 0 = Some c → getSize c = Some s → s < 2 ^ 31) → applies ExtractMultLeadingBit n = true →
  ∃ n', apply ExtractMultLeadingBit n = Some n' ∧ equiv n n'.
Proof.
  intros Hn Hsz Hap. cbn [applies ExtractMultLeadingBit] in Hap. apply holds_true in Hap.
  apply bind_Some in Hap as ([]&Hx%assert_Some&Hap). destruct (isExtract_inv n Hx) as (h&l&cs&->).
  destruct (extract_terms h l cs τ Hn) as (m&w&->&Hm&Hl&Hh&->).
  cbn [getExtractLow child children lookup list_lookup mbind option_bind] in Hap. pose proof (Hsz m w eq_refl (getSize_term _ _ _ Hm)) as Hw31.
  rewrite (getSize_term _ _ _ Hm) in Hap. cbn [mbind option_bind] in Hap.
  apply bind_Some in Hap as ([]&Hc%assert_Some&Hap). apply andb_true_iff in Hc as [Hc _]. apply andb_true_iff in Hc as [Hk Hnc].
  apply bool_decide_eq_true in Hnc. kind_of Hk. destruct Hm as (Hmt&Hw&_). destruct (nary_operands cs _ Hmt) as (w'&[= <-]&_&Hcs&_).
  destruct cs as [|a [|b []]]; try done. apply list.Forall_cons in Hcs as [Ha Hb]. apply list.Forall_cons in Hb as [Hb _].
  apply wt_bvterm in Ha, Hb. cbn [child children lookup list_lookup mbind option_bind] in Hap.
  apply bind_Some in Hap as ([]&Hk2%assert_Some&Hap). apply andb_true_iff in Hk2 as [Hka Hkb]. kind_of Hka. kind_of Hkb.
  apply bind_Some in Hap as (a0&Ha0&Hap). apply bind_Some in Hap as (b0&Hb0&Hap).
  apply bind_Some in Hap as ([]&Hk3%assert_Some&Hap). apply andb_true_iff in Hk3 as [Hca Hcb].
  destruct (concat_leading _ _ _ a0 Ha Ha0 Hca) as (za&Eza&Hza&Hva). destruct (concat_leading _ _ _ b0 Hb Hb0 Hcb) as (zb&Ezb&Hzb&Hvb).
  rewrite Eza, Ezb in Hap. cbn [mbind option_bind] in Hap. rewrite u32_small in Hap by lia. injection Hap as Hap.
  apply negb_true_iff, bool_decide_eq_false in Hap.
  pose proof (bv_extract _ w _ (bv_mult _ _ _ _ _ Ha Hb) h l Hl Hh) as HE. cbn [apply ExtractMultLeadingBit].
  pose proof (getSize_term _ _ _ HE) as ES. unfold utils.mkExtract in ES, HE. rewrite ES. cbn [mbind option_bind]. eexists. split; [done|].
  eapply equiv_bv; [exact HE|apply bv_const; [lia|pose proof (pow2_pos (h - l + 1)); lia]|]. intros env Hok _. cbv beta.
  specialize (Hva env Hok). specialize (Hvb env Hok). symmetry. apply highBits_zero with (2 * w - (za + zb)); [lia..|].
  split; [nia|]. replace (2 * w - (za + zb)) with ((w - za) + (w - zb)) by lia. rewrite pow2_add by lia. nia.
Qed.

(** ** Negation, division and remainder *)

Lemma negIdemp_ok : rule_ok NegIdemp.
Proof using Type.
  intros n τ Hn _ Hap. cbn [applies NegIdemp] in Hap. apply andb_true_iff in Hap as [Hk Hk2]. kind_of Hk.
  destruct (fixed1_terms BITVECTOR_NEG cs τ (λ _, eq_refl) (λ _, eq_refl) Hn) as (a&w&->&->&Ha). norm. kind_of Hk2. destruct Ha as (Hta&_).
  destruct (fixed1_terms BITVECTOR_NEG cs _ (λ _, eq_refl) (λ _, eq_refl) Hta) as (r&w'&->&[= <-]&Hr). unfold NegIdemp. norm. eexists. split; [done|].
  pose proof Hr as (_&Hw&_). eapply equiv_bv; [exact (bv_neg _ _ _ (bv_neg _ _ _ Hr))|exact Hr|]. intros env Hok _. cbv beta.
  destruct (wrap_ex w (- bv_of r env) ltac:(lia)) as [k ->]. symmetry. apply wrap_eq with (- k); [|lia]. by apply (bv_bound _ _ _ _ Hr).
Qed.

(** A binary operator of one width, by the kind of the term. *)
Lemma open_bin k n τ :
  (∀ n, arity_ok k n = bool_decide (n = 2%nat)) → (∀ cs ts, computeType k cs ts = BitVectorFixedWidthTypeRule ts) →
  wt n τ → isKind k n = true →
  ∃ a b w, n = mkNode2 k a b ∧ τ = BITVECTOR_TYPE w ∧ 0 < w ≤ max_uint32 ∧ getSize n = Some w ∧ bvterm a w (bv_of a) ∧ bvterm b w (bv_of b).
Proof using Type.
  intros Hk Hr Hn Hap. kind_of Hap. destruct (fixed2_terms k cs τ Hk (Hr cs) Hn) as (a&b&w&->&->&Ha&Hb). pose proof Ha as (_&?&_).
  exists a, b, w. split_and!; try done; [lia..|]. exact (getSize_term _ _ _ (wt_bvterm _ _ Hn)).
Qed.

Ltac open_fixed k Hn Hap a b w :=
  let Hk := fresh "Hk" in cbn [applies] in Hap; apply andb_true_iff in Hap as [Hk Hap];
  destruct (open_bin k _ _ (λ _, eq_refl) (λ _ _, eq_refl) Hn Hk) as (a&b&w&->&->&?Hw&?HS&?Ha&?Hb); clear Hk.

Lemma childIsConst_eq k a b w i c v :
  getSize (mkNode2 k a b) = Some w → 0 ≤ w → 0 ≤ v < 2 ^ w → [a; b] !! i = Some c → childIsConst (mkNode2 k a b) i v = bool_decide (c = cst w v).
Proof.
  intros Hs Hw Hv Hi. unfold childIsConst. rewrite Hs. destruct i as [|[|]]; try done; injection Hi as <-; cbn; by rewrite mkConst_cst.
Qed.

Lemma udivZero_ok : rule_ok UdivZero.
Proof.
  intros n τ Hn _ Hap. open_fixed BITVECTOR_UDIV Hn Hap a b w. pose proof (pow2_pos w ltac:(lia)).
  rewrite (childIsConst_eq _ a b w 1 b 0 HS) in Hap by (done || lia). apply bool_decide_eq_true in Hap as ->.
  cbn [apply UdivZero]. rewrite HS. cbn [mbind option_bind]. rewrite mkOnes_cst by done. eexists. split; [done|].
  eapply equiv_bv; [exact (bv_udiv _ _ _ _ _ Ha Hb)|apply bv_cst; lia|]. intros env _ _. cbv beta. unfold udiv. by rewrite decide_True.
Qed.

Lemma udivOne_ok : rule_ok UdivOne.
Proof.
  intros n τ Hn _ Hap. open_fixed BITVECTOR_UDIV Hn Hap a b w. pose proof (pow2_gt1 w ltac:(lia)).
  rewrite (childIsConst_eq _ a b w 1 b 1 HS) in Hap by (done || lia). apply bool_decide_eq_true in Hap as ->.
  eexists. split; [done|]. eapply equiv_bv; [exact (bv_udiv _ _ _ _ _ Ha Hb)|exact Ha|]. intros env _ _. cbv beta. rewrite bv_of_cst. unfold udiv.
  by rewrite decide_False, Z.div_1_r.
Qed.

Lemma uremOne_ok : rule_ok UremOne.
Proof.
  intros n τ Hn _ Hap. open_fixed BITVECTOR_UREM Hn Hap a b w. pose proof (pow2_gt1 w ltac:(lia)).
  rewrite (childIsConst_eq _ a b w 1 b 1 HS) in Hap by (done || lia). apply bool_decide_eq_true in Hap as ->.
  cbn [apply UremOne]. rewrite HS. cbn [mbind option_bind]. eexists. split; [done|].
  eapply equiv_bv; [exact (bv_urem _ _ _ _ _ Ha Hb)|apply bv_const; lia|]. intros env _ _. cbv beta. rewrite bv_of_cst. unfold urem.
  by rewrite decide_False, Z.mod_1_r.
Qed.

Lemma uremSelf_ok : rule_ok UremSelf.
Proof.
  intros n τ Hn _ Hap. open_fixed BITVECTOR_UREM Hn Hap a b w. pose proof (pow2_pos w ltac:(lia)). norm. apply bool_decide_eq_true in Hap as <-.
  cbn [apply UremSelf]. rewrite HS. cbn [mbind option_bind]. eexists. split; [done|].
  eapply equiv_bv; [exact (bv_urem _ _ _ _ _ Ha Hb)|apply bv_const; lia|]. intros env _ _. cbv beta. unfold urem.
  case_decide as Hz; [done|]. by rewrite Z.mod_same.
Qed.

Lemma posPow2_spec k a b w : bvterm b w (bv_of b) → posPow2 (mkNode2 k a b) = true →
  ∃ p, isPow2Const b = Some (p, false) ∧ 1 ≤ p ≤ w ∧ b = cst w (2 ^ (p - 1)).
Proof.
  intros Hb Hp. unfold posPow2 in Hp. norm. destruct (isPow2Const_spec b w _ Hb) as (p&neg&E&HP). rewrite E in Hp.
  apply andb_true_iff in Hp as [Hp0%bool_decide_eq_true Hneg%negb_true_iff]. subst neg. destruct (HP Hp0) as (Hpw&v&->&Ev). exists p.
  split_and!; [done|lia..|]. rewrite Z.mul_1_l in Ev. rewrite Ev. f_equal. apply wrap_small. split; [apply Z.pow_nonneg; lia|].
  apply Z.pow_lt_mono_r; lia.
Qed.

Lemma udivPow2_ok : rule_ok UdivPow2.
Proof.
  intros n τ Hn _ Hap. open_fixed BITVECTOR_UDIV Hn Hap a b w. destruct (posPow2_spec _ a b w Hb Hap) as (p&Ep&Hp&->).
  cbn [apply UdivPow2]. rewrite HS. norm. rewrite Ep. cbn [mbind option_bind andb]. unfold max_uint32 in Hw. rewrite !u32_small by lia.
  assert (0 < 2 ^ (p - 1)) by (apply pow2_pos; lia). pose proof (bv_udiv _ _ _ _ _ Ha Hb) as HD. eexists. split; [done|]. case_decide as Hp1.
  - eapply equiv_bv; [exact HD|exact Ha|]. intros env _ _. cbv beta. rewrite bv_of_cst. unfold udiv. rewrite decide_False by lia.
    by rewrite Hp1, Z.pow_0_r, Z.div_1_r.
  - pose proof (bv_extract a w _ Ha (w - 1) (p - 1) ltac:(lia) ltac:(lia)) as Hx.
    pose proof (bv_const (p - 1) 0 ltac:(unfold max_uint32; lia) ltac:(lia)) as Hz.
    eapply equiv_bv; [exact HD|eapply bvterm_ext; [exact (bv_concat2 _ _ _ _ _ _ Hz Hx ltac:(unfold max_uint32; lia))|lia|done]|].
    intros env Hok _. cbv beta. rewrite bv_of_cst. unfold udiv. rewrite decide_False by lia. rewrite Z.mul_0_l, Z.add_0_l.
    pose proof (bv_bound _ _ _ _ Ha Hok). apply wrap_small. replace (w - 1 - (p - 1) + 1) with (w - (p - 1)) by lia.
    apply div_pow2_bound; lia.
Qed.

Lemma uremPow2_ok : rule_ok UremPow2.
Proof.
  intros n τ Hn _ Hap. open_fixed BITVECTOR_UREM Hn Hap a b w. destruct (posPow2_spec _ a b w Hb Hap) as (p&Ep&Hp&->).
  cbn [apply UremPow2]. rewrite HS. norm. rewrite Ep. cbn [mbind option_bind]. unfold max_uint32 in Hw. rewrite (u32_small (p - 1)) by lia.
  assert (0 < 2 ^ (p - 1)) by (apply pow2_pos; lia). pose proof (bv_urem _ _ _ _ _ Ha Hb) as HD. pose proof (pow2_pos w ltac:(lia)).
  case_decide as Hp1.
  - rewrite mkZero_cst by lia. eexists. split; [done|]. eapply equiv_bv; [exact HD|apply bv_cst; unfold max_uint32; lia|]. intros env _ _. cbv beta.
    rewrite bv_of_cst. unfold urem. rewrite decide_False by lia. by rewrite Hp1, Z.pow_0_r, Z.mod_1_r.
  - rewrite !u32_small by lia. rewrite mkZero_cst by lia. cbn [mbind option_bind]. eexists. split; [done|].
    pose proof (bv_extract a w _ Ha (p - 1 - 1) 0 ltac:(lia) ltac:(lia)) as Hx.
    pose proof (bv_cst (w - (p - 1)) 0 ltac:(unfold max_uint32; lia) ltac:(pose proof (pow2_pos (w - (p - 1))); lia)) as Hz.
    eapply equiv_bv; [exact HD|eapply bvterm_ext; [exact (bv_concat2 _ _ _ _ _ _ Hz Hx ltac:(unfold max_uint32; lia))|lia|done]|].
    intros env Hok _. cbv beta. rewrite bv_of_cst. unfold urem. rewrite decide_False by lia. rewrite Z.mul_0_l, Z.add_0_l, Z.pow_0_r, Z.div_1_r.
    replace (p - 1 - 1 - 0 + 1) with (p - 1) by lia. done.
Qed.

(** ** Shifting zero *)

Lemma shiftZero_kind k f n τ :
  (∀ n, arity_ok k n = bool_decide (n = 2%nat)) → (∀ cs ts, computeType k cs ts = BitVectorFixedWidthTypeRule ts) →
  (∀ a b w fa fb, bvterm a w fa → bvterm b w fb → bvterm (mkNode2 k a b) w (λ env, f w (fa env) (fb env))) →
  (∀ w y, 0 < w → f w 0 y = 0) → wt n τ → isKind k n = true → childIsConst n 0 0 = true → ∃ n', child n 0 = Some n' ∧ equiv n n'.
Proof.
  intros Hk Hr Hf Hz0 Hn Hkn Hap. destruct (open_bin k _ _ Hk Hr Hn Hkn) as (a&b&w&->&->&Hw&HS&Ha&Hb). pose proof (pow2_pos w ltac:(lia)).
  rewrite (childIsConst_eq _ a b w 0 a 0 HS) in Hap by (done || lia). apply bool_decide_eq_true in Hap as ->. eexists. split; [done|].
  eapply equiv_bv; [exact (Hf _ _ _ _ _ Ha Hb)|exact Ha|]. intros env _ _. cbv beta. rewrite bv_of_cst, Hz0 by lia. done.
Qed.

Lemma shiftZero_ok : rule_ok ShiftZero.
Proof.
  intros n τ Hn _ Hap. cbn [applies apply ShiftZero] in *. apply andb_true_iff in Hap as [Hk Hap]. rewrite !orb_true_iff in Hk.
  destruct Hk as [[Hk|Hk]|Hk].
  - apply (shiftZero_kind BITVECTOR_SHL shl n τ); try done; [intros; by apply bv_shl|]. intros w y Hw. unfold shl. case_decide; [|done].
    rewrite Z.mul_0_l. apply wrap_small. pose proof (pow2_pos w). lia.
  - apply (shiftZero_kind BITVECTOR_LSHR lshr n τ); try done; [intros; by apply bv_lshr|]. intros w y Hw. unfold lshr. by case_decide.
  - apply (shiftZero_kind BITVECTOR_ASHR ashr n τ); try done; [intros; by apply bv_ashr|]. intros w y Hw. pose proof (pow2_pos w).
    assert (signed w 0 = 0) as E by (unfold signed; rewrite decide_True by (apply pow2_pos; lia); done). unfold ashr. rewrite E.
    case_decide; [rewrite Zdiv_0_l|rewrite decide_False by lia]; apply wrap_small; lia.
Qed.

(** ** Comparisons with sums and remainders *)

Lemma bool_ugt a b w fa fb : bvterm a w fa → bvterm b w fb →
  boolterm (mkNode2 BITVECTOR_UGT a b) (λ env, bool_decide (fb env < fa env)).
Proof using Type. intros Ha Hb. exact (bool_pred a b w fa fb Ha Hb BITVECTOR_UGT (λ _ x y, bool_decide (y < x)) eq_refl eq_refl (λ _ _, eq_refl) (λ _, eq_refl)). Qed.

Lemma ugtUrem_ok : rule_ok UgtUrem.
Proof.
  intros n τ Hn _ Hap. cbn [applies UgtUrem] in Hap. apply andb_true_iff in Hap as [Hap Hsame]. apply andb_true_iff in Hap as [Hk Hk2].
  destruct (open_pred BITVECTOR_UGT _ _ (λ _, eq_refl) (λ _ _, eq_refl) Hn Hk) as (r&x&w&->&Hw&Hr&Hx). norm. pose proof (pow2_pos w ltac:(lia)).
  destruct Hr as (Hrt&_). destruct (open_bin BITVECTOR_UREM r _ (λ _, eq_refl) (λ _ _, eq_refl) Hrt Hk2) as (T&x'&w'&->&[= <-]&_&_&HT&Hx'). norm.
  apply bool_decide_eq_true in Hsame as ->. unfold UgtUrem. norm. rewrite (getSize_term _ _ _ Hx). cbn [mbind option_bind].
  eexists. split; [done|]. pose proof (bv_const w 0 Hw ltac:(lia)) as Hz.
  eapply equiv_bool; [exact (bool_ugt _ _ _ _ _ (bv_urem _ _ _ _ _ HT Hx) Hx)
    |exact (bool_and _ _ _ _ (bool_eq_bv _ _ _ _ _ Hx Hz) (bool_ugt _ _ _ _ _ HT Hz))|].
  intros env Hok. cbv beta. pose proof (bv_bound _ _ _ _ Hx Hok) as HB. unfold urem. case_decide as E.
  - rewrite E. by rewrite (bool_decide_true (0 = 0)).
  - rewrite (bool_decide_false (bv_of x env = 0)) by done. cbn [andb]. symmetry. apply bool_decide_eq_false.
    pose proof (Z.mod_pos_bound (bv_of T env) (bv_of x env)). lia.
Qed.

(** [y + 1] in either order. *)
Lemma addOne_term y1 w c0 c1 : bvterm y1 w (bv_of y1) → isKind BITVECTOR_ADD y1 = true → getNumChildren y1 = 2%nat →
  child y1 0 = Some c0 → child y1 1 = Some c1 → isConstBV c0 || isConstBV c1 = true →
  (if isConstBV c0 then c0 else c1) = cst w 1 →
  bvterm (if isConstBV c0 then c1 else c0) w (bv_of (if isConstBV c0 then c1 else c0)) ∧
  ∀ env, env_ok env → bv_of y1 env = wrap w (bv_of (if isConstBV c0 then c1 else c0) env + 1).
Proof using Type.
  intros Hy Hk Hn Hz0 Hz1 Hc Hone. kind_of Hk. destruct Hy as (Hyt&Hw&_). destruct (nary_operands cs _ Hyt) as (w'&[= <-]&_&Hcs&_).
  destruct cs as [|a [|b []]]; try done. cbn in Hz0, Hz1. injection Hz0 as ->. injection Hz1 as ->.
  apply list.Forall_cons in Hcs as [Ha Hb]. apply list.Forall_cons in Hb as [Hb _]. apply wt_bvterm in Ha, Hb.
  destruct (bvterm_det _ _ _ _ _ (wt_bvterm _ _ Hyt) (bv_add _ _ _ _ _ Ha Hb)) as [_ E].
  destruct (isConstBV c0); subst; (split; [done|]); intros env Hok; rewrite E by done; rewrite bv_of_cst; f_equal; lia.
Qed.

Lemma ultAddOne_ok : rule_ok UltAddOne.
Proof.
  intros n τ Hn _ Hap. cbn [applies UltAddOne] in Hap. apply andb_true_iff in Hap as [Hk Hap].
  destruct (open_pred BITVECTOR_ULT _ _ (λ _, eq_refl) (λ _ _, eq_refl) Hn Hk) as (x&y1&w&->&Hw&Hx&Hy). apply holds_true in Hap.
  cbn [child children lookup list_lookup mbind option_bind] in Hap. apply bind_Some in Hap as ([]&Hka%assert_Some&Hap).
  apply bind_Some in Hap as (c0&Hz0&Hap). apply bind_Some in Hap as (c1&Hz1&Hap). apply bind_Some in Hap as ([]&Hcc%assert_Some&Hap).
  apply bind_Some in Hap as ([]&_&Hap). apply bind_Some in Hap as ([]&Hnc%assert_Some&Hap). apply bool_decide_eq_true in Hnc.
  apply bind_Some in Hap as (s&Hs&Hone). injection Hone as Hone%bool_decide_eq_true.
  pose proof (pow2_gt1 w ltac:(lia)).
  assert (s = w) as ->.
  { kind_of Hka. destruct Hy as (Hyt&_). destruct (nary_operands cs _ Hyt) as (w'&[= <-]&_&Hcs&_). cbn [child children] in Hz0, Hz1.
    unfold wts in Hcs. rewrite list.Forall_lookup in Hcs. pose proof (getSize_term _ _ _ (wt_bvterm _ _ (Hcs _ _ Hz0))). pose proof (getSize_term _ _ _ (wt_bvterm _ _ (Hcs _ _ Hz1))).
    destruct (isConstBV c0); congruence. }
  rewrite mkConst_cst in Hone by lia.
  destruct (addOne_term y1 w c0 c1 Hy Hka Hnc Hz0 Hz1 Hcc Hone) as [Hb E]. unfold UltAddOne.
  cbn [apply child children lookup list_lookup mbind option_bind]. rewrite Hz0, Hz1. cbn [mbind option_bind]. rewrite (getSize_term _ _ _ Hx).
  cbn [mbind option_bind]. rewrite mkOnes_cst by done. cbn [mbind option_bind]. eexists. split; [done|].
  pose proof (bv_cst w (2 ^ w - 1) Hw ltac:(lia)) as Ho.
  eapply equiv_bool; [exact (bool_ult _ _ _ _ _ Hx Hy)
    |exact (bool_and _ _ _ _ (bool_not _ _ (bool_eq_bv _ _ _ _ _ Hb Ho)) (bool_not _ _ (bool_ult _ _ _ _ _ Hb Hx)))|].
  intros env Hok. cbv beta. rewrite E by done. pose proof (bv_bound _ _ _ _ Hx Hok). pose proof (bv_bound _ _ _ _ Hb Hok) as HB.
  revert HB. generalize (bv_of (if isConstBV c0 then c1 else c0) env). intros y HB.
  destruct (decide (y = 2 ^ w - 1)) as [->|].
  - assert (wrap w (2 ^ w - 1 + 1) = 0) as -> by (apply wrap_eq with 1; lia). repeat case_bool_decide; try done; lia.
  - rewrite wrap_small by lia. repeat case_bool_decide; try done; lia.
Qed.

(** ** Products by halves *)

Lemma bv_of_term n w f env : bvterm n w f → env_ok env → bv_of n env = f env.
Proof using Type. intros (_&_&He) Hok. unfold bv_of. by destruct (He env Hok) as [-> _]. Qed.

Lemma slice_product h a b :
  0 < h → 0 ≤ a < 2 ^ (h + h) → 0 ≤ b < 2 ^ (h + h) →
  wrap (h + h) (wrap (h + h) (wrap h a * wrap h b) + wrap (h + h) (wrap h (wrap h (b / 2 ^ h) * wrap h a) * 2 ^ h
    + wrap h (wrap h (a / 2 ^ h) * wrap h b) * 2 ^ h))
  = wrap (h + h) (a * b).
Proof using Type.
  intros Hh Ha Hb. rewrite (pow2_add h h) in Ha, Hb by lia.
  assert (∀ x, 0 ≤ x < 2 ^ h * 2 ^ h → wrap h (x / 2 ^ h) = x / 2 ^ h) as Hq.
  { intros x Hx. apply wrap_small. split; [apply Z.div_pos; lia|apply Z.div_lt_upper_bound; lia]. }
  rewrite wrap_add_r, wrap_add_l, !Hq by lia.
  assert (∀ x, x = x / 2 ^ h * 2 ^ h + wrap h x) as Hd by (intros x; unfold wrap; pose proof (Z.div_mod x (2 ^ h)); lia).
  pose proof (Hd a) as Ea. pose proof (Hd b) as Eb. revert Ea Eb. generalize (a / 2 ^ h) (wrap h a) (b / 2 ^ h) (wrap h b).
  intros A a0 B b0 -> ->. destruct (wrap_ex h (B * a0) ltac:(lia)) as [k1 ->]. destruct (wrap_ex h (A * b0) ltac:(lia)) as [k2 ->].
  apply (wrap_congr _ _ _ (k1 + k2 - A * B)); [lia|]. rewrite pow2_add by lia. ring.
Qed.

Lemma multSlice_ok : rule_ok MultSlice.
Proof.
  intros n τ Hn _ Hap. cbn [applies MultSlice] in Hap. apply andb_true_iff in Hap as [Hap Hev]. apply andb_true_iff in Hap as [Hk Hnc].
  kind_of Hk. destruct (nary_operands cs τ Hn) as (w&->&Hw&Hcs&_). apply bool_decide_eq_true in Hnc. destruct cs as [|a [|b []]]; try done.
  apply list.Forall_cons in Hcs as [Ha Hb]. apply list.Forall_cons in Hb as [Hb _]. apply wt_bvterm in Ha, Hb. norm.
  rewrite (getSize_term _ _ _ Ha) in Hev. cbn in Hev. apply bool_decide_eq_true in Hev. unfold MultSlice. norm. rewrite (getSize_term _ _ _ Ha).
  cbn [mbind option_bind]. eexists. split; [done|]. pose proof (Z.div_mod w 2 ltac:(lia)) as Ew. rewrite Hev, Z.add_0_r in Ew.
  assert (0 < w / 2) as Hh by lia. set (h := w / 2) in *. assert (w = h + h) as E by lia. clearbody h. clear Ew Hev. subst w.
  unfold max_uint32 in Hw. rewrite !u32_small by lia. pose proof (pow2_pos h ltac:(lia)).
  pose proof (bv_const h 0 ltac:(unfold max_uint32; lia) ltac:(lia)) as Hz.
  assert (∀ x, bvterm x (h + h) (bv_of x) → bvterm (utils.mkExtract x (h - 1) 0) h (λ env, wrap h (bv_of x env)) ∧
    bvterm (utils.mkExtract x (h + h - 1) h) h (λ env, wrap h (bv_of x env / 2 ^ h))) as Hhalf.
  { intros x Hx. split; (eapply bvterm_ext; [apply (bv_extract x _ _ Hx); lia|lia|]); intros env; cbv beta;
      rewrite ?Z.pow_0_r, ?Z.div_1_r; f_equal; lia. }
  destruct (Hhalf a Ha) as [Hab Hat], (Hhalf b Hb) as [Hbb Hbt].
  pose proof (bv_mult _ _ _ _ _ (bv_concat2 _ _ _ _ _ _ Hz Hab ltac:(unfold max_uint32; lia)) (bv_concat2 _ _ _ _ _ _ Hz Hbb ltac:(unfold max_uint32; lia))) as HT1.
  pose proof (bv_concat2 _ _ _ _ _ _ (bv_mult _ _ _ _ _ Hbt Hab) Hz ltac:(unfold max_uint32; lia)) as HT2.
  pose proof (bv_concat2 _ _ _ _ _ _ (bv_mult _ _ _ _ _ Hat Hbb) Hz ltac:(unfold max_uint32; lia)) as HT3.
  eapply equiv_bv; [exact (bv_mult _ _ _ _ _ Ha Hb)
    |apply (bv_opval (k:=BITVECTOR_ADD) (h + h)); [repeat apply Forall_cons_2; [apply HT1|apply HT2|apply HT3|apply Forall_nil_2]|simpl; lia|simpl; unfold MAX_CHILDREN; lia]|].
  intros env Hok _. cbn [opval foldr]. pose proof (bv_bound _ _ _ _ Ha Hok). pose proof (bv_bound _ _ _ _ Hb Hok).
  etrans; [|apply slice_product; done]. unfold utils.mkConcat in HT1, HT2, HT3. rewrite (bv_of_term _ _ _ env HT1 Hok), (bv_of_term _ _ _ env HT2 Hok), (bv_of_term _ _ _ env HT3 Hok).
  rewrite !Z.add_0_r, !Z.mul_0_l, !Z.add_0_l. f_equal. f_equal. apply wrap_add_r. lia.
Qed.

End sound.

(** * Soundness of the rules of [BvSimplifyArith] for extensions compared with
    constants. *)

Lemma isZeroExtend_inv n : isZeroExtend n = true → ∃ k cs, n = mkNode (BITVECTOR_ZERO_EXTEND k) cs.
Proof. destruct n as [| | | |[] ]; try done. eauto. Qed.
Lemma isSignExtend_inv n : isSignExtend n = true → ∃ k cs, n = mkNode (BITVECTOR_SIGN_EXTEND k) cs.
Proof. destruct n as [| | | |[] ]; try done. eauto. Qed.

(** ** Signed values under extension *)

Lemma signed_sext m w x : 0 < w → 0 ≤ m → 0 ≤ x < 2 ^ w → signed (m + w) (wrap (m + w) (signed w x)) = signed w x.
Proof.
  intros Hw Hm Hx. apply signed_wrap; [lia|]. pose proof (signed_range w x Hw Hx). pose proof (pow2_le (w - 1) (m + w - 1) ltac:(lia)). lia.
Qed.

Lemma signed_small m w x : 0 < w → 0 < m → 0 ≤ x < 2 ^ w → signed (m + w) x = x.
Proof. intros Hw Hm Hx. unfold signed. rewrite decide_True; [done|]. pose proof (pow2_le w (m + w - 1) ltac:(lia)). lia. Qed.

Section sound.
Context `{!Gmp, !GmpLaws}.

Lemma mergeSignExtend_ok : rule_ok MergeSignExtend.
Proof using Type.
  intros n τ Hn _ Hap. cbn [applies MergeSignExtend] in Hap. apply andb_true_iff in Hap as [Hk Hap].
  destruct (isSignExtend_inv n Hk) as (m1&cs&->). destruct (extend_terms _ m1 cs τ (or_introl eq_refl) Hn) as (c&w&->&Hc&Hm1&Hw1&->). norm.
  pose proof Hc as (Hct&Hw&_). pose proof (bv_sext m1 c w _ Hc Hm1 Hw1) as HN. apply orb_true_iff in Hap as [Hs|Hz].
  - destruct (isSignExtend_inv c Hs) as (m2&cs&->). destruct (extend_terms _ m2 cs _ (or_introl eq_refl) Hct) as (a&v&->&Ha&Hm2&Hw2&[= ->]).
    pose proof Ha as (_&Hv&_). unfold MergeSignExtend. norm. eexists. split; [done|]. unfold max_uint32 in *. rewrite u32_small by lia.
    eapply equiv_bv; [exact (bv_sext m1 _ _ _ (bv_sext m2 a v _ Ha Hm2 Hw2) Hm1 Hw1)
      |eapply bvterm_ext; [exact (bv_sext (m1 + m2) a v _ Ha ltac:(lia) ltac:(unfold max_uint32; lia))|lia|done]|].
    intros env Hok _. cbv beta. pose proof (bv_bound _ _ _ _ Ha Hok). rewrite signed_sext by lia. f_equal. lia.
  - destruct (isZeroExtend_inv c Hz) as (m2&cs&->). destruct (extend_terms _ m2 cs _ (or_intror eq_refl) Hct) as (a&v&->&Ha&Hm2&Hw2&[= ->]).
    pose proof Ha as (_&Hv&_). unfold MergeSignExtend. norm. pose proof (bv_zext m2 a v _ Ha Hm2 Hw2) as HZ. unfold max_uint32 in *.
    case_decide as H2; eexists; (split; [done|]).
    + subst m2. eapply equiv_bv; [exact (bv_sext m1 _ _ _ HZ Hm1 Hw1)|eapply bvterm_ext; [exact (bv_sext m1 a v _ Ha Hm1 ltac:(unfold max_uint32; lia))|lia|done]|].
      done.
    + rewrite u32_small by lia.
      eapply equiv_bv; [exact (bv_sext m1 _ _ _ HZ Hm1 Hw1)|eapply bvterm_ext; [exact (bv_zext (m1 + m2) a v _ Ha ltac:(lia) ltac:(unfold max_uint32; lia))|lia|done]|].
      intros env Hok _. cbv beta. pose proof (bv_bound _ _ _ _ Ha Hok). rewrite signed_small by lia. symmetry. apply wrap_small.
      pose proof (pow2_le v (m1 + (m2 + v)) ltac:(lia)). lia.
Qed.

(** ** An extension and a constant *)

Lemma extend_cases isE k a b :
  (∀ n, isE n = true → isConst n = false) → extendVsConst isE (mkNode2 k a b) = true →
  ∃ is_lhs e c, extendAndConst isE (mkNode2 k a b) = (t ← child e 0; Some (is_lhs, t, c)) ∧
    isE e = true ∧ isConst c = true ∧ (if is_lhs : bool then a = e ∧ b = c else a = c ∧ b = e).
Proof using Type.
  intros HE Hap. unfold extendVsConst, extendAndConst in *. norm. apply orb_true_iff in Hap as [Hap|Hap]; apply andb_true_iff in Hap as [He Hc].
  - exists true, a, b. by rewrite He.
  - exists false, b, a. destruct (isE a) eqn:Ea; [by rewrite (HE a Ea) in Hc|]. done.
Qed.

Lemma zext_notconst n : isZeroExtend n = true → isConst n = false.
Proof using Type. by destruct n. Qed.
Lemma sext_notconst n : isSignExtend n = true → isConst n = false.
Proof using Type. by destruct n. Qed.

(** The high and the low part of a constant. *)
Lemma extract_cst W v h l : 0 < W ≤ max_uint32 → 0 ≤ v < 2 ^ W → 0 ≤ l ≤ h → h < W →
  BV.extract h l (mkBitVector W v) = Some (mkBitVector (h - l + 1) (wrap (h - l + 1) (v / 2 ^ l))).
Proof. intros HW Hv Hl Hh. apply (extract_spec h l (mkBitVector W v)); [by split|done..]. Qed.

Lemma eq_zero m x : 0 ≤ m → BV.eq (mkBitVector m x) (BV.new m 0) = bool_decide (x = 0).
Proof. intros Hm. rewrite new_small by (pose proof (pow2_pos m); lia). unfold BV.eq. cbn. by rewrite decide_False by (intros []; done). Qed.

(** Equality of two bit-vectors, in either order. *)
Lemma equal_lhs (is_lhs : bool) a b e c w fe fc :
  (if is_lhs then a = e ∧ b = c else a = c ∧ b = e) → bvterm e w fe → bvterm c w fc →
  boolterm (mkNode2 EQUAL a b) (λ env, bool_decide (fe env = fc env)).
Proof using Type.
  intros Hab He Hc. destruct is_lhs, Hab as [-> ->]; [by apply (bool_eq_bv _ _ w)|].
  destruct (bool_eq_bv _ _ _ _ _ Hc He) as [Ht Hev]. split; [done|]. intros env Hok. rewrite Hev by done. do 2 f_equal.
  apply bool_decide_ext. split; congruence.
Qed.

(** The operands of an equality between an extension and a constant. *)
Lemma open_extend_eq isE n τ :
  (∀ n, isE n = true → isConst n = false) → (∀ n τ, isE n = true → wt n τ → ∃ w, τ = BITVECTOR_TYPE w) →
  wt n τ → isKind EQUAL n && extendVsConst isE n = true →
  ∃ is_lhs e w v, extendAndConst isE n = (t ← child e 0; Some (is_lhs, t, cst w v)) ∧ e ∈ children n ∧
    isE e = true ∧ 0 < w ≤ max_uint32 ∧ 0 ≤ v < 2 ^ w ∧ wt e (BITVECTOR_TYPE w) ∧
    boolterm n (λ env, bool_decide (bv_of e env = v)).
Proof using Type.
  intros HE HEt Hn Hap. apply andb_true_iff in Hap as [Hk Hap]. kind_of Hk. destruct (equal_terms cs τ Hn) as (a&b&t&->&->&Ha&Hb).
  destruct (extend_cases isE EQUAL a b HE Hap) as (is_lhs&e&c&Ex&He&Hc&Hab).
  assert (wt e t ∧ wt c t) as [Het Hct] by (destruct is_lhs, Hab; by subst). destruct (HEt _ _ He Het) as [w ->].
  pose proof (wt_bvterm _ _ Hct) as Hcb. pose proof Hcb as (_&Hw&_). destruct (const_cst c w _ Hc Hcb) as (v&->&Hv).
  exists is_lhs, e, w, v. split_and!; try done; try lia.
  - cbn [children]. destruct is_lhs, Hab as [-> ->]; [by left|by right; left].
  - exact (equal_lhs is_lhs a b e _ w _ _ Hab (wt_bvterm _ _ Het) Hcb).
Qed.

Lemma zext_type n τ : isZeroExtend n = true → wt n τ → ∃ w, τ = BITVECTOR_TYPE w.
Proof using Type.
  intros Hn Ht. destruct (isZeroExtend_inv n Hn) as (k&cs&->). destruct (extend_terms _ k cs τ (or_intror eq_refl) Ht) as (a&w&_&_&_&_&->). eauto.
Qed.
Lemma sext_type n τ : isSignExtend n = true → wt n τ → ∃ w, τ = BITVECTOR_TYPE w.
Proof using Type.
  intros Hn Ht. destruct (isSignExtend_inv n Hn) as (k&cs&->). destruct (extend_terms _ k cs τ (or_introl eq_refl) Ht) as (a&w&_&_&_&_&->). eauto.
Qed.

(** ** Equality *)

Lemma zext_eq m w t c : 0 < w → 0 ≤ m → 0 ≤ t < 2 ^ w → 0 ≤ c < 2 ^ (m + w) →
  bool_decide (t = c) = if bool_decide (wrap m (c / 2 ^ w) = 0) then bool_decide (t = wrap w c) else false.
Proof using Type.
  intros Hw Hm Ht Hc. rewrite pow2_add in Hc by lia. pose proof (pow2_pos w ltac:(lia)). pose proof (wrap_bound w c ltac:(lia)).
  assert (c = 2 ^ w * (c / 2 ^ w) + wrap w c) as E by (apply Z.div_mod; lia).
  assert (wrap m (c / 2 ^ w) = c / 2 ^ w) as ->.
  { apply wrap_small. split; [apply Z.div_pos; lia|apply Z.div_lt_upper_bound; lia]. }
  destruct (bool_decide_reflect (c / 2 ^ w = 0)) as [Hq|Hq]; [rewrite Hq in E|]; repeat case_bool_decide; try done; try lia. exfalso. apply Hq. apply Z.div_small. lia.
Qed.

(** With an extension by at least one bit. *)
Lemma zeroExtendEqConst_sound n τ :
  wt n τ → (∀ cs, mkNode (BITVECTOR_ZERO_EXTEND 0) cs ∉ children n) → applies ZeroExtendEqConst n = true →
  ∃ n', apply ZeroExtendEqConst n = Some n' ∧ equiv n n'.
Proof.
  intros Hn Hm0 Hap. destruct (open_extend_eq isZeroExtend n τ zext_notconst zext_type Hn Hap) as (lhs&e&W&c&Ex&Hin&He&HW&Hc&Het&HN).
  destruct (isZeroExtend_inv e He) as (m&cs&->). destruct (extend_terms _ m cs _ (or_intror eq_refl) Het) as (t&w&->&Ht&Hm&Hmw&[= ->]).
  assert (m ≠ 0) by (intros ->; by eapply Hm0). pose proof Ht as (_&Hw&_). unfold max_uint32 in *.
  cbn [apply ZeroExtendEqConst]. rewrite Ex. cbn [child children lookup list_lookup mbind option_bind].
  rewrite (getSize_term _ _ _ (bv_cst (m + w) c HW Hc)), (getSize_term _ _ _ Ht). cbn [cst getConstBV mbind option_bind].
  rewrite !u32_small, !extract_cst by (unfold max_uint32; lia). cbn [mbind option_bind BV.getSize d_size d_value].
  rewrite eq_zero by lia. replace (m + w - 1 - w + 1) with m by lia. replace (w - 1 - 0 + 1) with w by lia. rewrite Z.pow_0_r, Z.div_1_r.
  assert (boolterm n (λ env, if bool_decide (wrap m (c / 2 ^ w) = 0) then bool_decide (bv_of t env = wrap w c) else false)) as HN'.
  { destruct HN as [Hnt Hne]. split; [done|]. intros env Hok. rewrite Hne by done. do 2 f_equal.
    rewrite (bv_of_term _ _ _ env (bv_zext m t w _ Ht Hm Hmw) Hok). apply zext_eq; try lia. by apply (bv_bound _ _ _ _ Ht). }
  pose proof (wrap_bound w c ltac:(lia)). case_bool_decide; eexists; (split; [done|]).
  - eapply equiv_bool; [exact HN'|exact (bool_eq_bv _ _ w _ _ Ht (bv_cst w (wrap w c) Hw ltac:(lia)))|done].
  - eapply equiv_bool; [exact HN'|apply bool_const|done].
Qed.

(** The bits above the sign bit and the sign bit, of a constant. *)
Lemma sext_value m w t : 0 < w → 0 ≤ m → 0 ≤ t < 2 ^ w →
  wrap (m + w) (signed w t) = if decide (t < 2 ^ (w - 1)) then t else t + (2 ^ (m + w) - 2 ^ w).
Proof using Type.
  intros Hw Hm Ht. pose proof (pow2_split w Hw). pose proof (pow2_le w (m + w) ltac:(lia)). unfold signed. case_decide; [apply wrap_small; lia|].
  apply wrap_eq with (-1); lia.
Qed.

(** A constant in the range of a sign extension. *)
Lemma sext_low m w c : 0 < w → 0 ≤ m → 0 ≤ c < 2 ^ (m + w) →
  (c < 2 ^ w → wrap w c = c) ∧ (2 ^ (m + w) - 2 ^ w ≤ c → wrap w c = c - (2 ^ (m + w) - 2 ^ w)).
Proof using Type.
  intros Hw Hm Hc. split; intros Hr; [apply wrap_small; lia|]. apply wrap_eq with (2 ^ m - 1); [lia|]. rewrite pow2_add by lia. lia.
Qed.

Lemma sext_high m w c : 0 < w → 0 ≤ m → 0 ≤ c < 2 ^ (m + w) →
  (wrap (m + 1) (c / 2 ^ (w - 1)) = 0 ↔ c < 2 ^ (w - 1)) ∧
  (wrap (m + 1) (c / 2 ^ (w - 1)) = 2 ^ (m + 1) - 1 ↔ 2 ^ (m + w) - 2 ^ (w - 1) ≤ c).
Proof using Type.
  intros Hw Hm Hc. pose proof (pow2_pos (w - 1) ltac:(lia)). pose proof (pow2_pos (m + 1) ltac:(lia)).
  assert (2 ^ (m + w) = 2 ^ (m + 1) * 2 ^ (w - 1)) as E by (rewrite <- pow2_add by lia; f_equal; lia).
  pose proof (Z.div_mod c (2 ^ (w - 1)) ltac:(lia)) as Ed. pose proof (Z.mod_pos_bound c (2 ^ (w - 1)) ltac:(lia)).
  assert (0 ≤ c / 2 ^ (w - 1) < 2 ^ (m + 1)) by (split; [apply Z.div_pos; lia|apply Z.div_lt_upper_bound; lia]).
  rewrite wrap_small by lia. revert Ed. generalize (c / 2 ^ (w - 1)). intros q Ed. rewrite E in *. split; split; nia.
Qed.

Lemma sext_eq m w t c : 0 < w → 0 ≤ m → 0 ≤ t < 2 ^ w → 0 ≤ c < 2 ^ (m + w) →
  bool_decide (wrap (m + w) (signed w t) = c)
  = if bool_decide (wrap (m + 1) (c / 2 ^ (w - 1)) = 0) || bool_decide (wrap (m + 1) (c / 2 ^ (w - 1)) = 2 ^ (m + 1) - 1)
    then bool_decide (t = wrap w c) else false.
Proof using Type.
  intros Hw Hm Ht Hc. destruct (sext_high m w c Hw Hm Hc) as [E0 E1]. destruct (sext_low m w c Hw Hm Hc) as [L0 L1].
  rewrite sext_value, (bool_decide_ext _ _ E0), (bool_decide_ext _ _ E1) by done.
  pose proof (pow2_split w Hw). pose proof (pow2_le w (m + w) ltac:(lia)). pose proof (wrap_bound w c ltac:(lia)).
  destruct (decide (c < 2 ^ (w - 1))) as [Hlo|Hlo]; [rewrite L0 by lia|rewrite (bool_decide_false (c < _)) by lia].
  - rewrite (bool_decide_true (c < _)) by lia. cbn [orb]. case_decide; repeat case_bool_decide; try done; lia.
  - destruct (decide (2 ^ (m + w) - 2 ^ (w - 1) ≤ c)); [rewrite L1 by lia; rewrite (bool_decide_true (_ ≤ c)) by lia|rewrite (bool_decide_false (_ ≤ c)) by lia];
      cbn [orb]; case_decide; repeat case_bool_decide; try done; lia.
Qed.

Lemma signExtendEqConst_ok : rule_ok SignExtendEqConst.
Proof.
  intros n τ Hn _ Hap. destruct (open_extend_eq isSignExtend n τ sext_notconst sext_type Hn Hap) as (lhs&e&W&c&Ex&_&He&HW&Hc&Het&HN).
  destruct (isSignExtend_inv e He) as (m&cs&->). destruct (extend_terms _ m cs _ (or_introl eq_refl) Het) as (t&w&->&Ht&Hm&Hmw&[= ->]).
  pose proof Ht as (_&Hw&_). unfold max_uint32 in *.
  cbn [apply SignExtendEqConst]. rewrite Ex. cbn [child children lookup list_lookup mbind option_bind].
  rewrite (getSize_term _ _ _ (bv_cst (m + w) c HW Hc)), (getSize_term _ _ _ Ht). cbn [cst getConstBV mbind option_bind].
  rewrite !u32_small, !extract_cst by (unfold max_uint32; lia). cbn [mbind option_bind BV.getSize d_size d_value].
  replace (m + w - 1 - (w - 1) + 1) with (m + 1) by lia. replace (w - 1 - 0 + 1) with w by lia. rewrite Z.pow_0_r, Z.div_1_r.
  pose proof (pow2_pos (m + 1) ltac:(lia)).
  assert (BV.eq (mkBitVector (m + 1) (wrap (m + 1) (c / 2 ^ (w - 1)))) (BV.not (BV.new (m + 1) 0))
    = bool_decide (wrap (m + 1) (c / 2 ^ (w - 1)) = 2 ^ (m + 1) - 1)) as ->.
  { rewrite new_small, not_spec by (try split; cbn [d_size d_value]; unfold max_uint32; lia). unfold BV.eq. cbn [BV.getSize BV.getValue d_size d_value].
    rewrite decide_False by (intros []; done). by rewrite Z.sub_0_r. }
  rewrite eq_zero by lia.
  assert (boolterm n (λ env, if bool_decide (wrap (m + 1) (c / 2 ^ (w - 1)) = 0) || bool_decide (wrap (m + 1) (c / 2 ^ (w - 1)) = 2 ^ (m + 1) - 1)
    then bool_decide (bv_of t env = wrap w c) else false)) as HN'.
  { destruct HN as [Hnt Hne]. split; [done|]. intros env Hok. rewrite Hne by done. do 2 f_equal.
    rewrite (bv_of_term _ _ _ env (bv_sext m t w _ Ht Hm Hmw) Hok). apply sext_eq; try lia. by apply (bv_bound _ _ _ _ Ht). }
  pose proof (wrap_bound w c ltac:(lia)). destruct (_ || _) eqn:Eb; eexists; (split; [done|]).
  - eapply equiv_bool; [exact HN'|exact (bool_eq_bv _ _ w _ _ Ht (bv_cst w (wrap w c) Hw ltac:(lia)))|]. intros env _. cbv beta. done.
  - eapply equiv_bool; [exact HN'|apply bool_const|]. done.
Qed.

(** ** Unsigned comparison *)

(** [e < c] or [c < e]. *)
Definition cmp (is_lhs : bool) (e c : Z) : bool := if is_lhs then bool_decide (e < c) else bool_decide (c < e).

Lemma open_extend_ult isE n τ :
  (∀ n, isE n = true → isConst n = false) → wt n τ → isKind BITVECTOR_ULT n && extendVsConst isE n = true →
  ∃ is_lhs e w v, extendAndConst isE n = (t ← child e 0; Some (is_lhs, t, cst w v)) ∧
    isE e = true ∧ 0 < w ≤ max_uint32 ∧ 0 ≤ v < 2 ^ w ∧ wt e (BITVECTOR_TYPE w) ∧
    boolterm n (λ env, cmp is_lhs (bv_of e env) v).
Proof using Type.
  intros HE Hn Hap. apply andb_true_iff in Hap as [Hk Hap].
  destruct (open_pred BITVECTOR_ULT _ _ (λ _, eq_refl) (λ _ _, eq_refl) Hn Hk) as (a&b&w&->&Hw&Ha&Hb).
  destruct (extend_cases isE BITVECTOR_ULT a b HE Hap) as (is_lhs&e&c&Ex&He&Hc&Hab).
  assert (bvterm e w (bv_of e) ∧ bvterm c w (bv_of c)) as [Het Hct] by (destruct is_lhs, Hab; by subst).
  destruct (const_cst c w _ Hc Hct) as (v&->&Hv). exists is_lhs, e, w, v. split_and!; try done; try lia; [by destruct Het|].
  destruct is_lhs, Hab as [-> ->]; unfold cmp; [exact (bool_ult _ _ _ _ _ Het Hct)|exact (bool_ult _ _ _ _ _ Hct Het)].
Qed.

(** The comparison with the constant of the narrower type. *)
Lemma cmp_term (is_lhs : bool) t w v : bvterm t w (bv_of t) → 0 ≤ v < 2 ^ w →
  boolterm (if is_lhs then mkNode2 BITVECTOR_ULT t (cst w v) else mkNode2 BITVECTOR_ULT (cst w v) t) (λ env, cmp is_lhs (bv_of t env) v).
Proof.
  intros Ht Hv. pose proof Ht as (_&Hw&_). pose proof (bv_cst w v Hw Hv) as Hc.
  destruct is_lhs; unfold cmp; [exact (bool_ult _ _ _ _ _ Ht Hc)|exact (bool_ult _ _ _ _ _ Hc Ht)].
Qed.

Lemma zeroExtendUltConst_ok : rule_ok ZeroExtendUltConst.
Proof.
  intros n τ Hn _ Hap. cbn [applies apply ZeroExtendUltConst] in *. apply andb_true_iff in Hap as [Hap Hc0].
  destruct (open_extend_ult isZeroExtend n τ zext_notconst Hn Hap) as (lhs&e&W&c&Ex&He&HW&Hc&Het&HN).
  destruct (isZeroExtend_inv e He) as (m&cs&->). destruct (extend_terms _ m cs _ (or_intror eq_refl) Het) as (t&w&->&Ht&Hm&Hmw&[= ->]).
  pose proof Ht as (_&Hw&_). unfold max_uint32 in *. rewrite Ex in *. cbn [child children lookup list_lookup mbind option_bind] in *.
  rewrite (getSize_term _ _ _ (bv_cst (m + w) c HW Hc)), (getSize_term _ _ _ Ht) in *. cbn [cst getConstBV mbind option_bind] in *.
  apply holds_true in Hc0. case_decide as Hmz; [done|]. rewrite u32_small, extract_cst in Hc0 by (unfold max_uint32; lia).
  cbn [mbind option_bind BV.getSize d_size] in Hc0. rewrite eq_zero in Hc0 by lia. injection Hc0 as Hc0%bool_decide_eq_true.
  replace (m + w - 1 - w + 1) with m in Hc0 by lia.
  rewrite u32_small, extract_cst by (unfold max_uint32; lia). cbn [mbind option_bind]. rewrite Z.pow_0_r, Z.div_1_r.
  replace (w - 1 - 0 + 1) with w by lia. eexists. split; [done|].
  assert (c < 2 ^ w) as Hcw.
  { pose proof (pow2_pos w ltac:(lia)). rewrite pow2_add in Hc by lia. rewrite wrap_small in Hc0.
    - apply Z.div_small_iff in Hc0; lia.
    - split; [apply Z.div_pos; lia|apply Z.div_lt_upper_bound; lia]. }
  rewrite wrap_small by lia. eapply equiv_bool; [exact HN|exact (cmp_term lhs t w c Ht ltac:(lia))|]. intros env Hok. cbv beta.
  by rewrite (bv_of_term _ _ _ env (bv_zext m t w _ Ht Hm Hmw) Hok).
Qed.

(** The bounds the code compares the constant with. *)
Lemma signBounds_spec m w : 0 < w → 0 ≤ m → m + w ≤ max_uint32 →
  signBounds (m + w) (u32 (w - 1)) =
    Some (mkBitVector (m + w) (2 ^ (w - 1)), mkBitVector (m + w) (2 ^ (m + w) - 2 ^ (w - 1))).
Proof.
  intros Hw Hm Hmw. unfold max_uint32 in Hmw. unfold signBounds, BV.setBit, BV.new0. rewrite u32_small by lia. cbn [d_size d_value].
  rewrite bool_decide_true by lia. cbn [assert mbind option_bind]. unfold Integer.setBit. rewrite mpz_setbit_spec, Z.setbit_spec', Z.lor_0_l by lia.
  pose proof (pow2_pos (w - 1) ltac:(lia)). pose proof (pow2_le (w - 1) (m + w) ltac:(lia)). pose proof (pow2_pos (m + w) ltac:(lia)).
  pose proof (pow2_gt (w - 1) ltac:(lia)).
  rewrite not_spec by (split; cbn [d_size d_value]; unfold max_uint32; lia). cbn [d_size d_value].
  rewrite new_small, leftShift_spec by (try split; cbn [d_size d_value]; unfold max_uint32; lia). cbn [d_size d_value mbind option_bind].
  unfold shl. rewrite decide_True by lia. do 3 f_equal. apply wrap_eq with (2 ^ (w - 1) - 1); [lia|ring].
Qed.

(** [wc] is the constant in the narrower type. *)
Lemma sext_ult m w x c : 0 < w → 0 ≤ m → 0 ≤ x < 2 ^ w → 0 ≤ c < 2 ^ (m + w) →
  let M := 2 ^ (w - 1) in let W := 2 ^ (m + w) in
  (M < c ≤ W - M → cmp true (wrap (m + w) (signed w x)) c = bool_decide (x < M)) ∧
  (c ≤ M ∨ W - M ≤ c → cmp true (wrap (m + w) (signed w x)) c = cmp true x (wrap w c)) ∧
  (M - 1 ≤ c ≤ W - 1 - M → cmp false (wrap (m + w) (signed w x)) c = bool_decide (M ≤ x)) ∧
  (c < M ∨ W - 1 - M ≤ c → cmp false (wrap (m + w) (signed w x)) c = cmp false x (wrap w c)).
Proof using Type.
  intros Hw Hm Hx Hc M W. destruct (sext_low m w c Hw Hm Hc) as [L0 L1]. rewrite sext_value by done. unfold cmp. subst M W.
  pose proof (pow2_split w Hw). pose proof (pow2_le w (m + w) ltac:(lia)). pose proof (pow2_pos (w - 1) ltac:(lia)).
  split_and!; intros Hr.
  - case_decide; apply bool_decide_ext; lia.
  - destruct (decide (c ≤ 2 ^ (w - 1))); [rewrite L0 by lia|rewrite L1 by lia]; case_decide; apply bool_decide_ext; lia.
  - case_decide; apply bool_decide_ext; lia.
  - destruct (decide (c < 2 ^ (w - 1))); [rewrite L0 by lia|rewrite L1 by lia]; case_decide; apply bool_decide_ext; lia.
Qed.

(** The sign test of the code. *)
Lemma sign_test x w (b : bool) : bvterm x w (bv_of x) →
  ∃ n, (if b then utils.mkOne 1 else utils.mkZero 1) = Some n ∧
    boolterm (mkNode2 EQUAL (utils.mkExtract x (w - 1) (w - 1)) n) (λ env, if b then bool_decide (2 ^ (w - 1) ≤ bv_of x env) else bool_decide (bv_of x env < 2 ^ (w - 1))).
Proof.
  intros Hx. pose proof Hx as (_&Hw&_). pose proof (bv_bit x w _ (w - 1) Hx ltac:(lia)) as Hs.
  assert (∀ v, 0 ≤ v < 2 → bvterm (cst 1 v) 1 (λ _, v)) as Hv by (intros; by apply bv_cst).
  destruct b; [rewrite mkOne_cst by lia|rewrite mkZero_cst by lia]; (eexists; split; [done|]).
  - destruct (bool_eq_bv _ _ _ _ _ Hs (Hv 1 ltac:(lia))) as [Ht He]. split; [done|]. intros env Hok. rewrite He, b2z_eq_1 by done.
    do 2 f_equal. apply msb_spec; [lia|]. by apply (bv_bound _ _ _ _ Hx).
  - destruct (bool_eq_bv _ _ _ _ _ Hs (Hv 0 ltac:(lia))) as [Ht He]. split; [done|]. intros env Hok. rewrite He, b2z_eq_0 by done.
    do 2 f_equal. rewrite msb_spec; [|lia|by apply (bv_bound _ _ _ _ Hx)]. repeat case_bool_decide; try done; lia.
Qed.

Lemma signExtendUltConst_ok : rule_ok SignExtendUltConst.
Proof.
  intros n τ Hn _ Hap. cbn [applies apply SignExtendUltConst] in *. apply andb_true_iff in Hap as [Hap Hc0].
  destruct (open_extend_ult isSignExtend n τ sext_notconst Hn Hap) as (lhs&e&W&c&Ex&He&HW&Hc&Het&HN).
  destruct (isSignExtend_inv e He) as (m&cs&->). destruct (extend_terms _ m cs _ (or_introl eq_refl) Het) as (x&w&->&Hx&Hm&Hmw&[= ->]).
  pose proof Hx as (_&Hw&_). rewrite Ex in *. cbn [child children lookup list_lookup mbind option_bind] in *.
  rewrite (getSize_term _ _ _ (bv_cst (m + w) c HW Hc)), (getSize_term _ _ _ Hx) in *. cbn [cst getConstBV mbind option_bind] in *.
  rewrite signBounds_spec in * by lia. cbn [mbind option_bind] in *. apply holds_true in Hc0. injection Hc0 as Hc0.
  pose proof (pow2_pos (w - 1) ltac:(lia)). pose proof (pow2_split w ltac:(lia)). pose proof (pow2_le w (m + w) ltac:(lia)).
  rewrite !not_spec in * by (split; cbn [d_size d_value]; lia). unfold bvLt, bvLe in *. cbn [d_size d_value BV.getValue] in *.
  unfold max_uint32 in *. rewrite !u32_small, extract_cst by (unfold max_uint32; lia). cbn [mbind option_bind].
  rewrite Z.pow_0_r, Z.div_1_r. replace (w - 1 - 0 + 1) with w by lia. pose proof (wrap_bound w c ltac:(lia)) as Hlow.
  assert (∀ env, env_ok env → 0 ≤ bv_of x env < 2 ^ w ∧
    bv_of (mkNode1 (BITVECTOR_SIGN_EXTEND m) x) env = wrap (m + w) (signed w (bv_of x env))) as Hv.
  { intros env Hok. split; [by apply (bv_bound _ _ _ _ Hx)|]. exact (bv_of_term _ _ _ env (bv_sext m x w _ Hx Hm Hmw) Hok). }
  destruct lhs; cbn [andb orb negb] in *; rewrite ?orb_false_r, ?orb_true_iff, ?andb_true_iff, ?bool_decide_eq_true in Hc0.
  - destruct (bool_decide (2 ^ (w - 1) < c) && bool_decide (c ≤ 2 ^ (m + w) - 2 ^ (w - 1))) eqn:Er.
    + apply andb_true_iff in Er as [Er1%bool_decide_eq_true Er2%bool_decide_eq_true]. destruct (sign_test x w false Hx) as (z&Ez&Hz). rewrite Ez.
      eexists. split; [done|]. eapply equiv_bool; [exact HN|exact Hz|]. intros env Hok. destruct (Hv env Hok) as [Hb ->]. symmetry.
      apply (sext_ult m w); try done; lia.
    + rewrite (proj2 (orb_true_iff _ _)) by (rewrite !bool_decide_eq_true; rewrite andb_false_iff, !bool_decide_eq_false in Er; lia).
      eexists. split; [done|]. eapply equiv_bool; [exact HN|exact (cmp_term true x w _ Hx Hlow)|]. intros env Hok. destruct (Hv env Hok) as [Hb ->].
      symmetry. apply (sext_ult m w); [lia..|done|done|]. rewrite andb_false_iff, !bool_decide_eq_false in Er. lia.
  - destruct (bool_decide (2 ^ (m + w) - 1 - (2 ^ (m + w) - 2 ^ (w - 1)) ≤ c) && bool_decide (c ≤ 2 ^ (m + w) - 1 - 2 ^ (w - 1))) eqn:Er.
    + apply andb_true_iff in Er as [Er1%bool_decide_eq_true Er2%bool_decide_eq_true]. destruct (sign_test x w true Hx) as (z&Ez&Hz). rewrite Ez.
      eexists. split; [done|]. eapply equiv_bool; [exact HN|exact Hz|]. intros env Hok. destruct (Hv env Hok) as [Hb ->]. symmetry.
      apply (sext_ult m w); try done; lia.
    + rewrite (proj2 (orb_true_iff _ _)) by (rewrite !bool_decide_eq_true; rewrite andb_false_iff, !bool_decide_eq_false in Er; lia).
      eexists. split; [done|]. eapply equiv_bool; [exact HN|exact (cmp_term false x w _ Hx Hlow)|]. intros env Hok. destruct (Hv env Hok) as [Hb ->].
      symmetry. apply (sext_ult m w); [lia..|done|done|]. rewrite andb_false_iff, !bool_decide_eq_false in Er. lia.
Qed.

(** ** Comparisons of integers *)

(** The value of an operand that [IneqElimConversion] takes. *)
Lemma ineqOperand_ok nc w f : isIntToBV nc || isConstBV nc = true → bvterm nc w f → ∃ m, ineqOperand nc = Some m ∧ intterm m f.
Proof using Type*.
  intros Hk Hn. destruct nc as [| | |bv|k cs]; try done; [eexists; split; [done|by eapply int_ubv]|]. destruct k; try done. pose proof Hn as (Hw&_).
  destruct (int_to_bv_operand _ _ _ Hw) as (a&->&[= <-]&Hb&Ha). cbn [ineqOperand child children lookup list_lookup mbind option_bind]. eexists. split; [done|].
  pose proof (wt_intterm a Ha) as Hi. destruct (bvterm_det _ _ _ _ _ Hn (bv_of_int _ _ _ Hb Hi)) as [_ Hf]. unfold Integer.pow. rewrite mpz_pow_ui_spec by lia.
  destruct (int_binary INTS_MODULUS modulus _ _ _ _ eq_refl eq_refl eq_refl ltac:(done) Hi (int_const (2 ^ w))) as [Hm He]. split; [done|].
  intros env Hok. rewrite He, Hf by done. pose proof (pow2_pos w). unfold modulus, wrap. by rewrite decide_False, Z.abs_eq by lia.
Qed.

Lemma int_compare k p a b fa fb : arity_ok k 2 = true → payload_ok k = true → (∀ cs ts, computeType k cs ts = ArithRelationTypeRule ts) →
  (∀ vs, kind_eval k vs = int_pred p vs) → intterm a fa → intterm b fb → boolterm (mkNode2 k a b) (λ env, p (fa env) (fb env)).
Proof using Type.
  intros Har Hp Hr Hk [Hat Hae] [Hbt Hbe]. split; [apply (wt_node2 _ _ _ _ _ _ Hat Hbt); [done..|]; by rewrite Hr|].
  intros env Hok. by rewrite (eval_node2 _ _ _ _ _ _ (Hae env Hok) (Hbe env Hok)), Hk.
Qed.

Lemma ineq_case n τ k k' (p : Z → Z → Z → bool) q : wt n τ → isKind k n = true → forallb (λ nc, isIntToBV nc || isConstBV nc) (children n) = true →
  (∀ n, arity_ok k n = bool_decide (n = 2%nat)) → payload_ok k = true → (∀ cs ts, computeType k cs ts = BitVectorPredicateTypeRule ts) →
  (∀ vs, kind_eval k vs = bv_pred p vs) → arity_ok k' 2 = true → payload_ok k' = true → (∀ cs ts, computeType k' cs ts = ArithRelationTypeRule ts) →
  (∀ vs, kind_eval k' vs = int_pred q vs) → (∀ w x y, p w x y = q x y) →
  ∃ cs ms, n = mkNode k cs ∧ mapM ineqOperand cs = Some ms ∧ equiv n (mkNode k' ms).
Proof using Type*.
  intros Hn Hk Hc Har Hp Hr He Har' Hp' Hr' He' Hpq. destruct (open_pred k n τ Har Hr Hn Hk) as (a&b&w&->&_&Ha&Hb).
  cbn [children forallb] in Hc. apply andb_true_iff in Hc as [Hca Hcb]. rewrite andb_true_r in Hcb.
  destruct (ineqOperand_ok a w _ Hca Ha) as (a'&Ea&Ha'), (ineqOperand_ok b w _ Hcb Hb) as (b'&Eb&Hb'). exists [a; b], [a'; b']. cbn [mapM]. rewrite Ea, Eb. split_and!; [done..|].
  eapply equiv_bool; [exact (bool_pred a b w _ _ Ha Hb k p ltac:(by rewrite Har) Hp Hr He)|by eapply (int_compare k' q)|]. intros env _. cbv beta. by rewrite Hpq.
Qed.

Lemma ineqElimConversion_ok : rule_ok IneqElimConversion.
Proof using Type*.
  intros n τ Hn _ Hap. cbn [applies IneqElimConversion] in Hap. apply andb_true_iff in Hap as [Hk Hc].
  rewrite !orb_true_iff in Hk. destruct Hk as [[[Hk|Hk]|Hk]|Hk];
    [destruct (ineq_case n τ BITVECTOR_ULT LT (λ _ a b, bool_decide (a < b)) Z.ltb Hn Hk Hc) as (cs&ms&->&E&He)
    |destruct (ineq_case n τ BITVECTOR_ULE LEQ (λ _ a b, bool_decide (a ≤ b)) Z.leb Hn Hk Hc) as (cs&ms&->&E&He)
    |destruct (ineq_case n τ BITVECTOR_UGT GT (λ _ a b, bool_decide (b < a)) Z.gtb Hn Hk Hc) as (cs&ms&->&E&He)
    |destruct (ineq_case n τ BITVECTOR_UGE GEQ (λ _ a b, bool_decide (b ≤ a)) Z.geb Hn Hk Hc) as (cs&ms&->&E&He)];
    try done; try (intros _ x y; apply eq_true_iff_eq; rewrite bool_decide_eq_true; lia);
    (eexists; split; [cbn [apply IneqElimConversion children]; by rewrite E|done]).
Qed.

End sound.
