(* ===== verification/BvRuleTheorems.v ===== *)
(** What the core and the simplification rules of the bit-vector rewriter
    promise: a rule that applies returns, and its result has the type and the
    value of the term. *)
From stdpp Require Import base option list numbers.
From S2P Require Import Prelude Integer Node TypeRules Semantics BvArith TypeSound BitVectorUtil BvElim BvTerms BvElimSound BvConst BvConstSound BvCore BvCoreSound BvSimplify BvAssoc BvSimplifySound BvSimplifyArith BvSimplifyArithSound.
Open Scope Z_scope.

Create HintDb rules.
#[export] Hint Resolve failEq_ok simplifyEq_ok reflexivityEq_ok concatFlatten_ok concatExtractMerge_ok
  concatConstantMerge_ok extractWhole_ok extractConstant_ok extractExtract_ok : rules.
#[export] Hint Resolve bitConst_ok bvIteConstCond_ok bvIteEqualChildren_ok bvIteEqualCond_ok bvIteMergeThenIf_ok
  bvIteMergeElseIf_ok bvIteMergeThenElse_ok bvIteMergeElseElse_ok bvComp_ok shlByConst_ok lshrByConst_ok ashrByConst_ok
  andOrXorConcatPullUp_ok notIdemp_ok ultZero_ok ultOne_ok ultOnes_ok ultSelf_ok sltSelf_ok uleSelf_ok uleZero_ok
  zeroUle_ok uleMax_ok : rules.
#[export] Hint Resolve negIdemp_ok udivZero_ok udivOne_ok uremOne_ok uremSelf_ok udivPow2_ok uremPow2_ok shiftZero_ok
  ugtUrem_ok ultAddOne_ok multSlice_ok mergeSignExtend_ok signExtendEqConst_ok zeroExtendUltConst_ok
  signExtendUltConst_ok ineqElimConversion_ok : rules.
#[export] Hint Constructors Forall : rules.

Section theorems.
Context `{!Gmp, !GmpLaws}.

Definition core_rules `{!NodeIds} : list RewriteRule :=
  [ExtractConcat; ConcatFlatten; ConcatExtractMerge; ConcatConstantMerge; ExtractWhole; ExtractConstant; ExtractExtract;
   FailEq; SimplifyEq; ReflexivityEq].

Definition simplification_rules : list RewriteRule :=
  [BitConst; BvIteConstCond; BvIteEqualChildren; BvIteEqualCond; BvIteMergeThenIf; BvIteMergeElseIf; BvIteMergeThenElse;
   BvIteMergeElseElse; BvComp; ShlByConst; LshrByConst; AshrByConst; AndOrXorConcatPullUp; NotIdemp; UltZero; UltOne;
   UltOnes; UltSelf; UleZero; UleSelf; ZeroUle; UleMax; SltSelf; NegIdemp; UdivPow2; UdivZero; UdivOne; UremPow2;
   UremOne; UremSelf; ShiftZero; UgtUrem; UltAddOne; MultSlice; MergeSignExtend; SignExtendEqConst; ZeroExtendUltConst;
   SignExtendUltConst; IneqElimConversion].

Lemma rule_in r rs n τ : Forall rule_ok rs → r ∈ rs → wt n τ → tsmall τ → applies r n = true → ∃ n', apply r n = Some n' ∧ equiv n n'.
Proof using Type. intros HF Hr. eapply list.Forall_forall in HF; [|exact Hr]. apply HF. Qed.

(** C33: a core rule (flattening and merging of concatenations, extracts of
    constants, extracts and concatenations, equalities) that applies to a typed
    term without abstract types returns, if a bit-vector of its type, and for
    [ExtractConcat] its operand too, is no wider than the number of children a
    node can have; the term it returns has the same type and the same value in
    every valuation. *)
Theorem core_rules_sound `{!NodeIds} r n τ :
  r ∈ core_rules → wt n τ → tsmall τ → (r = ExtractConcat → small n) → applies r n = true → ∃ n', apply r n = Some n' ∧ equiv n n'.
Proof.
  intros [->|Hr]%elem_of_cons Hn Hτ Hs; [intros Ha; destruct Hn; apply extractConcat_sound with τ; auto|].
  eapply rule_in; [|exact Hr|exact Hn|exact Hτ]. auto 20 with rules.
Qed.

(** C34: a simplification rule that applies to a typed term, no wider than the
    number of children a node can have, returns, and the term it returns has the same type and the same value: thirty-nine rules
    for [BITVECTOR_ITE], shifts by constants, bitwise operators over
    concatenations, divisions by powers of two, extensions compared with
    constants and comparisons. *)
Theorem simplification_rules_sound r n τ :
  r ∈ simplification_rules → wt n τ → tsmall τ → applies r n = true → ∃ n', apply r n = Some n' ∧ equiv n n'.
Proof. apply rule_in. unfold simplification_rules. auto 50 with rules. Qed.

(** What the rules that are not sound by themselves rely on. *)
Definition rule_guard (r : nat) (n : Node) : Prop :=
  match r with
  | 0%nat => applies BvIteEqualChildren n = false
  | 1%nat => ∃ c, c ∈ children n ∧ utils.isZero c = Some false
  | 2%nat => ∃ c, c ∈ children n ∧ utils.isOnes c = Some false
  | 3%nat => ∃ w, getSize n = Some w ∧ Z.of_nat (length (filter (λ c, isConst c) (children n))) * w < 2 ^ 32
  | 4%nat => ∀ c s, child n 0 = Some c → getSize c = Some s → s < 2 ^ 31
  | _ => ∀ cs, mkNode (BITVECTOR_ZERO_EXTEND 0) cs ∉ children n
  end.

Definition guarded_rules : list RewriteRule :=
  [BvIteConstChildren; XorZero; XorOnes; MultPow2; ExtractMultLeadingBit; ZeroExtendEqConst].

(** C35: the rules with a condition their guard does not check keep type and
    value under it: [BvIteConstChildren] when [BvIteEqualChildren] does not
    apply, [XorZero] and [XorOnes] when an operand remains, [MultPow2] and
    [ExtractMultLeadingBit] when the sums of exponents and of widths they keep
    in 32 bits do not wrap around, [ZeroExtendEqConst] for an extension by at
    least one bit. *)
Theorem guarded_rules_sound i r n τ :
  guarded_rules !! i = Some r → rule_guard i n → wt n τ → applies r n = true →
  ∃ n', apply r n = Some n' ∧ equiv n n'.
Proof.
  intros Hr Hg Hn Hap.
  destruct i as [|[|[|[|[|[|]]]]]]; cbn in Hr; try done; injection Hr as <-; cbn [rule_guard] in Hg.
  - by eapply bvIteConstChildren_sound.
  - by eapply xorZero_sound.
  - by eapply xorOnes_sound.
  - destruct Hg as (w&Hs&Hw). by eapply multPow2_sound.
  - by eapply extractMultLeadingBit_sound.
  - by eapply zeroExtendEqConst_sound.
Qed.

End theorems.

(** ** Witnesses *)

Definition bvVar (i : positive) (w : Z) : Node := mkVar i (BITVECTOR_TYPE w).

(** (extract 6 2 (concat x y)) on four bits each. *)
Lemma core_rules_sound_witness :
  let n := mkNode (BITVECTOR_EXTRACT 6 2) [mkNode BITVECTOR_CONCAT [bvVar 1 4; bvVar 2 4]] in
  ∃ n', apply ExtractConcat n = Some n' ∧ equiv n n'.
Proof.
  intros n. apply (core_rules_sound (H1:=λ _, 0) ExtractConcat n (BITVECTOR_TYPE 5)).
  - unfold core_rules. rewrite elem_of_cons. by left.
  - split; vm_compute; reflexivity.
  - vm_compute. discriminate.
  - intros _. split; [|exact I]. intros c w [->|[]%not_elem_of_nil]%elem_of_cons Hw. vm_compute in Hw. injection Hw as <-. vm_compute. discriminate.
  - vm_compute. reflexivity.
Defined.

(** (bvult (sign_extend x) 200) on four and eight bits. *)
Lemma simplification_rules_sound_witness :
  let n := mkNode BITVECTOR_ULT [mkNode (BITVECTOR_SIGN_EXTEND 4) [bvVar 1 4]; mkConstBV (mkBitVector 8 200)] in
  ∃ n', apply SignExtendUltConst n = Some n' ∧ equiv n n'.
Proof.
  intros n. apply (simplification_rules_sound SignExtendUltConst n BOOLEAN_TYPE).
  - unfold simplification_rules. rewrite !elem_of_cons. tauto.
  - split; vm_compute; reflexivity.
  - exact I.
  - vm_compute. reflexivity.
Defined.

(** x * 4 * y on eight bits. *)
Lemma guarded_rules_sound_witness :
  let n := mkNode BITVECTOR_MULT [bvVar 1 8; mkConstBV (mkBitVector 8 4); bvVar 2 8] in
  ∃ n', apply MultPow2 n = Some n' ∧ equiv n n'.
Proof.
  intros n. apply (guarded_rules_sound 3 MultPow2 n (BITVECTOR_TYPE 8)).
  - reflexivity.
  - exists 8. split; vm_compute; reflexivity.
  - split; vm_compute; reflexivity.
  - vm_compute. reflexivity.
Defined.

(** ** A rule that is not sound *)

(** (bvslt (bvmul (concat 0 (bvadd x t)) (sext a)) (bvmul (concat 0 a) (sext x))). *)
Definition swapped_roles : Node :=
  mkNode BITVECTOR_SLT
    [mkNode BITVECTOR_MULT [mkNode BITVECTOR_CONCAT [mkConstBV (mkBitVector 4 0); mkNode BITVECTOR_ADD [bvVar 1 4; bvVar 2 4]];
                            mkNode (BITVECTOR_SIGN_EXTEND 4) [bvVar 3 4]];
     mkNode BITVECTOR_MULT [mkNode BITVECTOR_CONCAT [mkConstBV (mkBitVector 4 0); bvVar 3 4];
                            mkNode (BITVECTOR_SIGN_EXTEND 4) [bvVar 1 4]]].

(** The same with a third part in the concatenations, which the rule ignores. *)
Definition third_part : Node :=
  mkNode BITVECTOR_SLT
    [mkNode BITVECTOR_MULT [mkNode BITVECTOR_CONCAT [mkConstBV (mkBitVector 4 0); mkNode BITVECTOR_ADD [bvVar 1 4; bvVar 2 4]; bvVar 4 4];
                            mkNode (BITVECTOR_SIGN_EXTEND 8) [bvVar 3 4]];
     mkNode BITVECTOR_MULT [mkNode BITVECTOR_CONCAT [mkConstBV (mkBitVector 4 0); bvVar 1 4; bvVar 5 4];
                            mkNode (BITVECTOR_SIGN_EXTEND 8) [bvVar 3 4]]].

Definition swapped_env : Env := λ i τ,
  match τ with BITVECTOR_TYPE w => VBV w (wrap w (if decide (i = 1%positive) then 15 else 1)) | _ => env0 i τ end.
Definition third_env : Env := λ i τ,
  match τ with BITVECTOR_TYPE w => VBV w (wrap w (if decide (i = 2%positive ∨ i = 4%positive) then 0 else 1)) | _ => env0 i τ end.

Lemma wrapped_env_ok (f : positive → Z) :
  env_ok (λ i τ, match τ with BITVECTOR_TYPE w => VBV w (wrap w (f i)) | _ => env0 i τ end).
Proof.
  intros i [| |w|] Ht Ha; try by apply env0_ok. split; [done|]. apply bool_decide_eq_true in Ht. split; [lia|]. apply wrap_bound. lia.
Qed.

(** C36: [MultSltMult] changes the value of a term: it does not check that the
    factor on both sides is extended the same way, and it looks only at the
    first two parts of a concatenation.  For each of the two there are a
    Boolean term to which it applies and a valuation in which the result has
    another value than the term. *)
Theorem mult_slt_mult_unsound :
  Forall (λ '(n, env), wt n BOOLEAN_TYPE ∧ env_ok env ∧ applies MultSltMult n = true ∧
    ∃ n' b, apply MultSltMult n = Some n' ∧ eval env n = Some (VBool b) ∧ eval env n' = Some (VBool (negb b)))
    [(swapped_roles, swapped_env); (third_part, third_env)].
Proof.
  apply Forall_cons_2; [|apply Forall_cons_2; [|apply Forall_nil_2]].
  - split_and!; [split; vm_compute; reflexivity|apply wrapped_env_ok|vm_compute; reflexivity|].
    eexists _, false. split_and!; vm_compute; reflexivity.
  - split_and!; [split; vm_compute; reflexivity|apply wrapped_env_ok|vm_compute; reflexivity|].
    eexists _, true. split_and!; vm_compute; reflexivity.
Qed.
