(* ===== verification/BvNormalize.v ===== *)
(** [theory/bv/theory_bv_rewrite_rules_normalization.h]: the rules for sums,
    products and bitwise operators.  Operands are sorted by the ids of the
    nodes; the order in which an [unordered_map] is traversed is a parameter,
    [HashOrder]. *)
From stdpp Require Import base option list numbers sorting.
From S2P Require Import Prelude Integer Node TypeRules BitVectorUtil BvElim BvConst BvCore BvSimplify.
Open Scope Z_scope.

(** The number of occurrences of a term and of its complement; they are at most
    [MAX_CHILDREN], so that the 32-bit counters do not wrap around. *)
Record Count := mkCount { pos : nat; neg : nat }.

(** The traversal of an [unordered_map]. *)
Class HashOrder := hash_order : list (Node * Count) → list (Node * Count).

(** Distinct nodes have distinct ids, and a traversal meets every entry once. *)
Class NodeIdsLaws `{!NodeIds} : Prop := nodeId_inj : ∀ a b, nodeId a = nodeId b → a = b.
Class HashOrderLaws `{!HashOrder} : Prop := hash_order_perm : ∀ l, hash_order l ≡ₚ l.

Section rules.
Context `{!Gmp, !NodeIds, !HashOrder}.

(** [std::sort] with [operator<] of nodes. *)
Definition id_le (a b : Node) : Prop := nodeId a ≤ nodeId b.
#[export] Instance id_le_dec a b : Decision (id_le a b).
Proof. unfold id_le. apply _. Defined.
Definition sortNodes (ns : list Node) : list Node := merge_sort id_le ns.

(** [utils::mkSortedNode]. *)
Definition mkSortedNode (kind : Kind) (children : list Node) : option Node :=
  _ ← assert (bool_decide (kind ∈ [BITVECTOR_AND; BITVECTOR_OR; BITVECTOR_XOR]));
  match children with
  | [] => None
  | [c] => Some c
  | _ => Some (mkNode kind (sortNodes children))
  end.

(** ** Extracts *)

Definition ExtractNot : RewriteRule := {|
  applies node := isExtract node && childIs (isKind BITVECTOR_NOT) node 0;
  apply node :=
    low ← getExtractLow node; high ← getExtractHigh node; c ← grandchild node 0 0;
    Some (mkNode1 BITVECTOR_NOT (utils.mkExtract c high low));
|}.

Definition ExtractSignExtend : RewriteRule := {|
  applies node := isExtract node && childIs isSignExtend node 0;
  apply node :=
    extendee ← grandchild node 0 0;
    extendee_size ← getSize extendee;
    high ← getExtractHigh node; low ← getExtractLow node;
    if decide (high < extendee_size) then Some (utils.mkExtract extendee high low)
    else if decide (low < extendee_size ∧ high >= extendee_size) then
      let low_extract := utils.mkExtract extendee (u32 (extendee_size - 1)) low in
      Some (utils.mkSignExtend low_extract (u32 (high - extendee_size + 1)))
    else
      _ ← assert (bool_decide (low >= extendee_size));
      let top := u32 (extendee_size - 1) in
      mkRepeat (utils.mkExtract extendee top top) (u32 (high - low + 1));
|}.

(** ** Flattening *)

Definition assocKind (node : Node) : option Kind :=
  match node with
  | mkNode BITVECTOR_ADD _ => Some BITVECTOR_ADD
  | mkNode BITVECTOR_MULT _ => Some BITVECTOR_MULT
  | mkNode BITVECTOR_OR _ => Some BITVECTOR_OR
  | mkNode BITVECTOR_XOR _ => Some BITVECTOR_XOR
  | mkNode BITVECTOR_AND _ => Some BITVECTOR_AND
  | _ => None
  end.

(** The loop of [FlattenAssocCommut]: [Some None] if there are too many
    operands for one node. *)
Fixpoint flattenLoop (fuel : nat) (kind : Kind) (processingStack children : list Node) : option (option (list Node)) :=
  match fuel with
  | O => None
  | S fuel =>
      match processingStack with
      | [] => Some (Some children)
      | current :: stack =>
          if isKind kind current then
            flattenLoop fuel kind (fold_left (λ st c, c :: st) (Node.children current) stack) children
          else
            let children := children ++ [current] in
            if decide (Z.of_nat (length children) > MAX_CHILDREN) then Some None
            else flattenLoop fuel kind stack children
      end
  end.

Definition FlattenAssocCommut : RewriteRule := {|
  applies node :=
    match assocKind node with Some kind => existsb (isKind kind) (children node) | None => false end;
  apply node :=
    kind ← assocKind node;
    r ← flattenLoop (S (nsize node)) kind [node] [];
    match (r : option (list Node)) with
    | None => Some node
    | Some children =>
        if isKind BITVECTOR_ADD node || isKind BITVECTOR_MULT node then mkNaryNode kind children
        else mkSortedNode kind children
    end;
|}.

(** The loop of [FlattenAssocCommutNoDuplicates]. *)
Fixpoint flattenSetLoop (fuel : nat) (kind : Kind) (processingStack processed children : list Node) : option (list Node) :=
  match fuel with
  | O => None
  | S fuel =>
      match processingStack with
      | [] => Some children
      | current :: stack =>
          if decide (current ∈ processed) then flattenSetLoop fuel kind stack processed children
          else
            let processed := current :: processed in
            if isKind kind current then
              flattenSetLoop fuel kind (fold_left (λ st c, c :: st) (Node.children current) stack) processed children
            else flattenSetLoop fuel kind stack processed (children ++ [current])
      end
  end.

Definition FlattenAssocCommutNoDuplicates : RewriteRule := {|
  applies node :=
    (isKind BITVECTOR_OR node && existsb (isKind BITVECTOR_OR) (children node)) ||
    (isKind BITVECTOR_AND node && existsb (isKind BITVECTOR_AND) (children node));
  apply node :=
    kind ← assocKind node;
    children ← flattenSetLoop (S (nsize node)) kind [node] [] [];
    mkSortedNode kind children;
|}.

(** ** Sums of like terms *)

(** [std::map<Node, BitVector>], in the order of its keys. *)
Fixpoint addToCoefMap (map : list (Node * BitVector)) (term : Node) (coef : BitVector) : option (list (Node * BitVector)) :=
  match map with
  | [] => Some [(term, coef)]
  | (t, c) :: rest =>
      if node_lt term t then Some ((term, coef) :: map)
      else if node_lt t term then rest' ← addToCoefMap rest term coef; Some ((t, c) :: rest')
      else c' ← BV.add c coef; Some ((t, c') :: rest)
  end.

(** [coeff] and [term] of a product, whose constant is its last operand. *)
Definition coeffAndTerm (current : Node) (size : Z) : option (BitVector * Node) :=
  match last (children current) with
  | None => None
  | Some c =>
      let init := take (getNumChildren current - 1) (children current) in
      if decide (getNumChildren current = 2%nat) then
        first ← child current 0;
        _ ← assert (negb (isConst first));
        if isConst c then coeff ← getConstBV c; Some (coeff, first) else Some (BV.new size 1, current)
      else if isConst c then
        _ ← assert (forallb (λ c, negb (isConst c)) init);
        coeff ← getConstBV c; Some (coeff, mkNode BITVECTOR_MULT init)
      else Some (BV.new size 1, current)
  end.

Definition updateCoefMap (current : Node) (size : Z) (st : list (Node * BitVector) * BitVector) :
    option (list (Node * BitVector) * BitVector) :=
  let '(factorToCoefficient, constSum) := st in
  match current with
  | mkNode BITVECTOR_MULT _ =>
      '(coeff, term) ← coeffAndTerm current size;
      match term with
      | mkNode BITVECTOR_SUB _ =>
          a ← child term 0; b ← child term 1;
          m ← addToCoefMap factorToCoefficient a coeff;
          ncoeff ← BV.neg coeff; m ← addToCoefMap m b ncoeff; Some (m, constSum)
      | mkNode BITVECTOR_NEG _ =>
          a ← child term 0;
          ncoeff ← BV.neg (BV.new size (BV.getValue coeff));
          m ← addToCoefMap factorToCoefficient a ncoeff; Some (m, constSum)
      | _ => m ← addToCoefMap factorToCoefficient term coeff; Some (m, constSum)
      end
  | mkNode BITVECTOR_SUB _ =>
      _ ← assert (bool_decide (getNumChildren current = 2%nat));
      a ← child current 0; b ← child current 1;
      m ← addToCoefMap factorToCoefficient a (BV.new size 1);
      none ← BV.neg (BV.new size 1); m ← addToCoefMap m b none; Some (m, constSum)
  | mkNode BITVECTOR_NEG _ =>
      a ← child current 0;
      none ← BV.neg (BV.new size 1); m ← addToCoefMap factorToCoefficient a none; Some (m, constSum)
  | mkConstBV constValue => s ← BV.add constSum constValue; Some (factorToCoefficient, s)
  | _ => m ← addToCoefMap factorToCoefficient current (BV.new size 1); Some (m, constSum)
  end.

Definition addToChildren (term : Node) (size : Z) (coeff : BitVector) (children : list Node) : option (list Node) :=
  if BV.eq coeff (BV.new size 0) then Some children
  else if BV.eq coeff (BV.new size 1) then Some (children ++ [term])
  else none ← BV.neg (BV.new size 1);
       if BV.eq coeff none then Some (children ++ [mkNode1 BITVECTOR_NEG term])
       else if isKind BITVECTOR_MULT term then
         Some (children ++ [mkNode BITVECTOR_MULT (Node.children term ++ [utils.mkConstOf coeff])])
       else Some (children ++ [mkNode2 BITVECTOR_MULT term (utils.mkConstOf coeff)]).

(** The loops over the operands and over the map. *)
Fixpoint collectCoefs (cs : list Node) (size : Z) (st : list (Node * BitVector) * BitVector) :
    option (list (Node * BitVector) * BitVector) :=
  match cs with
  | [] => Some st
  | c :: cs => st ← updateCoefMap c size st; collectCoefs cs size st
  end.

Fixpoint buildChildren (m : list (Node * BitVector)) (size : Z) (children : list Node) : option (list Node) :=
  match m with
  | [] => Some children
  | (t, c) :: m => children ← addToChildren t size c children; buildChildren m size children
  end.

Definition AddCombineLikeTerms : RewriteRule := {|
  applies := isKind BITVECTOR_ADD;
  apply node :=
    size ← getSize node;
    '(factorToCoefficient, constSum) ← collectCoefs (children node) size ([], BV.new size 0);
    cs ← buildChildren factorToCoefficient size [];
    let cs := if negb (BV.eq constSum (BV.new size 0)) then cs ++ [utils.mkConstOf constSum] else cs in
    let csize := length cs in
    if decide (csize = getNumChildren node) then Some node
    else if decide (csize = 0%nat) then utils.mkZero size else mkNaryNode BITVECTOR_ADD cs;
|}.

(** ** Products *)

(** The loop of [MultSimplify]; [inl] is the early return of zero. *)
Fixpoint multSimplifyLoop (cs : list Node) (size : Z) (constant : BitVector) (isNeg : bool) (children : list Node) :
    option (unit + BitVector * bool * list Node) :=
  match cs with
  | [] => Some (inr (constant, isNeg, children))
  | current :: cs =>
      '(c, isNeg) ← (match current with
                     | mkNode BITVECTOR_NEG _ => c ← child current 0; Some (c, negb isNeg)
                     | _ => Some (current, isNeg)
                     end);
      match c with
      | mkConstBV value =>
          constant ← BV.mul constant value;
          if BV.eq constant (BV.new size 0) then Some (inl tt)
          else multSimplifyLoop cs size constant isNeg children
      | _ => multSimplifyLoop cs size constant isNeg (children ++ [c])
      end
  end.

Definition MultSimplify : RewriteRule := {|
  applies := isKind BITVECTOR_MULT;
  apply node :=
    size ← getSize node;
    r ← multSimplifyLoop (children node) size (BV.new size 1) false [];
    match r with
    | inl _ => Some (utils.mkConst size 0)
    | inr (constant, isNeg, children) =>
        let oValue := BV.new size 1 in
        noValue ← BV.mkOnes size;
        if decide (children = []) then
          c ← (if (isNeg : bool) then BV.neg constant else Some constant); Some (utils.mkConstOf c)
        else
          let children := sortNodes children in
          '(isNeg, children) ←
            (if BV.eq constant noValue then Some (negb isNeg, children)
             else if negb (BV.eq constant oValue) then
               if (isNeg : bool) then nconstant ← BV.neg constant; Some (false, children ++ [utils.mkConstOf nconstant])
               else Some (isNeg, children ++ [utils.mkConstOf constant])
             else Some (isNeg, children));
          ret ← mkNaryNode BITVECTOR_MULT children;
          Some (if (isNeg : bool) && bool_decide (size > 1) then mkNode1 BITVECTOR_NEG ret else ret)
    end;
|}.

Definition isSum (node : Node) : bool := isKind BITVECTOR_ADD node || isKind BITVECTOR_SUB node.

Definition sumKind (node : Node) : option Kind :=
  match node with
  | mkNode BITVECTOR_ADD _ => Some BITVECTOR_ADD
  | mkNode BITVECTOR_SUB _ => Some BITVECTOR_SUB
  | _ => None
  end.

(** The test of [applies] that the first operand is not a constant is an
    assertion; where it fails the rule does not apply, as a constant is no sum. *)
Definition MultDistribConst : RewriteRule := {|
  applies node :=
    isKind BITVECTOR_MULT node && bool_decide (getNumChildren node = 2%nat) &&
    negb (childIs isConst node 0) && childIs isConst node 1 &&
    childIs (λ factor, isSum factor || isKind BITVECTOR_NEG factor) node 0;
  apply node :=
    constant ← child node 1; factor ← child node 0;
    const_bv ← getConstBV constant;
    if isKind BITVECTOR_NEG factor then
      f ← child factor 0; nbv ← BV.neg const_bv; Some (mkNode2 BITVECTOR_MULT f (utils.mkConstOf nbv))
    else
      k ← sumKind factor;
      mkNaryNode k ((λ c, mkNode2 BITVECTOR_MULT c constant) <$> children factor);
|}.

Definition MultDistrib : RewriteRule := {|
  applies node :=
    isKind BITVECTOR_MULT node && bool_decide (getNumChildren node = 2%nat) &&
    (if childIs isSum node 0 then negb (childIs isSum node 1) else childIs isSum node 1);
  apply node :=
    a ← child node 0; b ← child node 1;
    let is_rhs_factor := isSum a in
    let factor := if is_rhs_factor then b else a in
    let sum := if is_rhs_factor then a else b in
    _ ← assert (negb (isSum factor) && isSum sum);
    k ← sumKind sum;
    mkNaryNode k ((λ c, mkNode2 BITVECTOR_MULT c factor) <$> children sum);
|}.

(** ** Negation *)

Definition NegMult : RewriteRule := {|
  applies node :=
    isKind BITVECTOR_NEG node && childIs (isKind BITVECTOR_MULT) node 0 && childIs isConst node (getNumChildren node - 1);
  apply node :=
    mult ← child node 0;
    c ← last (children mult);
    _ ← assert (isConst c);
    bv ← getConstBV c; nbv ← BV.neg bv;
    Some (mkNode BITVECTOR_MULT (take (getNumChildren mult - 1) (children mult) ++ [utils.mkConstOf nbv]));
|}.

Definition NegSub : RewriteRule := {|
  applies node := isKind BITVECTOR_NEG node && childIs (isKind BITVECTOR_SUB) node 0;
  apply node := b ← grandchild node 0 1; a ← grandchild node 0 0; Some (mkNode2 BITVECTOR_SUB b a);
|}.

Definition NegAdd : RewriteRule := {|
  applies node := isKind BITVECTOR_NEG node && childIs (isKind BITVECTOR_ADD) node 0;
  apply node := c ← child node 0; mkNaryNode BITVECTOR_ADD ((λ d, mkNode1 BITVECTOR_NEG d) <$> children c);
|}.

End rules.
