(* ===== verification/BvNormalizeBits.v ===== *)
(** [theory/bv/theory_bv_rewrite_rules_normalization.h], continued: the rules
    for bitwise operators. *)
From stdpp Require Import base option list numbers.
From S2P Require Import Prelude Integer Node TypeRules BitVectorUtil BvElim BvConst BvCore BvSimplify BvNormalize.
Open Scope Z_scope.

(** ** Occurrences *)

(** [insert]: one more occurrence of [node]. *)
Fixpoint insertCount (map : list (Node * Count)) (node : Node) (neg : bool) : list (Node * Count) :=
  match map with
  | [] => [(node, if neg then mkCount 0 1 else mkCount 1 0)]
  | (n, c) :: map =>
      if decide (n = node)
      then (n, if neg then mkCount (BvNormalize.pos c) (S (BvNormalize.neg c)) else mkCount (S (BvNormalize.pos c)) (BvNormalize.neg c)) :: map
      else (n, c) :: insertCount map node neg
  end.

(** A term or its complement. *)
Definition countTerm (map : list (Node * Count)) (current : Node) : option (list (Node * Count)) :=
  match current with
  | mkNode BITVECTOR_NOT _ => c ← child current 0; Some (insertCount map c true)
  | _ => Some (insertCount map current false)
  end.

Section rules.
Context `{!Gmp, !NodeIds, !HashOrder}.

(** The loop over the operands: the constants are combined by [op], the other
    operands are counted. *)
Fixpoint countLoop (op : BitVector → BitVector → option BitVector) (cs : list Node)
    (subterms : list (Node * Count)) (constant : BitVector) : option (list (Node * Count) * BitVector) :=
  match cs with
  | [] => Some (subterms, constant)
  | mkConstBV bv :: cs => constant ← op constant bv; countLoop op cs subterms constant
  | current :: cs => subterms ← countTerm subterms current; countLoop op cs subterms constant
  end.

(** The loop over the counted terms: [None] if a term occurs with its
    complement. *)
Fixpoint collectTerms (l : list (Node * Count)) (children : list Node) : option (list Node) :=
  match l with
  | [] => Some children
  | (n, c) :: l =>
      if bool_decide (0 < BvNormalize.pos c)%nat && bool_decide (0 < BvNormalize.neg c)%nat then None
      else collectTerms l (children ++ [if decide (0 < BvNormalize.neg c)%nat then mkNode1 BITVECTOR_NOT n else n])
  end.

Definition AndSimplify : RewriteRule := {|
  applies := isKind BITVECTOR_AND;
  apply node :=
    size ← getSize node;
    ones ← BV.mkOnes size;
    '(subterms, constant) ← countLoop BV.and (children node) [] ones;
    if BV.eq constant (BV.new size 0) then utils.mkZero size
    else
      let children := if negb (BV.eq constant ones) then [utils.mkConstOf constant] else [] in
      match collectTerms (hash_order subterms) children with
      | None => utils.mkZero size
      | Some [] => utils.mkOnes size
      | Some children => mkSortedNode BITVECTOR_AND children
      end;
|}.

Definition OrSimplify : RewriteRule := {|
  applies := isKind BITVECTOR_OR;
  apply node :=
    size ← getSize node;
    ones ← BV.mkOnes size;
    '(subterms, constant) ← countLoop BV.or (children node) [] (BV.new size 0);
    if BV.eq constant ones then utils.mkOnes size
    else
      let children := if negb (BV.eq constant (BV.new size 0)) then [utils.mkConstOf constant] else [] in
      match collectTerms (hash_order subterms) children with
      | None => utils.mkOnes size
      | Some [] => utils.mkZero size
      | Some children => mkSortedNode BITVECTOR_OR children
      end;
|}.

(** The loop of [XorSimplify] over the operands; [None] as a constant stands for
    [!const_set]. *)
Fixpoint xorCountLoop (cs : list Node) (subterms : list (Node * Count)) (constant : option BitVector) :
    option (list (Node * Count) * option BitVector) :=
  match cs with
  | [] => Some (subterms, constant)
  | mkConstBV bv :: cs =>
      constant ← (match (constant : option BitVector) with Some c => BV.xor c bv | None => Some bv end);
      xorCountLoop cs subterms (Some constant)
  | current :: cs => subterms ← countTerm subterms current; xorCountLoop cs subterms constant
  end.

(** The loop over the counted terms: the operands that are left and the number
    of terms left with their complement. *)
Fixpoint xorTerms (l : list (Node * Count)) (children : list Node) (true_count : nat) : list Node * nat :=
  match l with
  | [] => (children, true_count)
  | (n, c) :: l =>
      match Nat.odd (BvNormalize.pos c), Nat.odd (BvNormalize.neg c) with
      | true, true => xorTerms l children (S true_count)
      | true, false => xorTerms l (children ++ [n]) true_count
      | false, true => xorTerms l (children ++ [mkNode1 BITVECTOR_NOT n]) true_count
      | false, false => xorTerms l children true_count
      end
  end.

Definition XorSimplify : RewriteRule := {|
  applies := isKind BITVECTOR_XOR;
  apply node :=
    size ← getSize node;
    '(subterms, constant) ← xorCountLoop (children node) [] None;
    let '(children, true_count) := xorTerms (hash_order subterms) [] 0 in
    true_bv ← BV.mkOnes size;
    let false_bv := BV.new size 0 in
    let xorConst :=
      (if decide (true_count ≠ 0%nat) then [if Nat.odd true_count then true_bv else false_bv] else []) ++
      (match (constant : option BitVector) with Some c => [c] | None => [] end) in
    children ←
      (match xorConst with
       | [] => Some children
       | r :: rs => result ← foldl (λ acc c, a ← acc; BV.xor a c) (Some r) rs; Some (children ++ [utils.mkConstOf result])
       end);
    if decide (children = []) then Some (utils.mkConstOf false_bv) else mkSortedNode BITVECTOR_XOR children;
|}.

(** ** Slicing by a constant *)

(** [bitwiseKind] of the operators the rule is for, and the first constant. *)
Definition firstConst (cs : list Node) : option BitVector :=
  match list_find isConstBV cs with Some (_, mkConstBV bv) => Some bv | _ => None end.

(** [for (j = 0; j < csize; ++j) if (!constant.isBitSet(j)) return true;] *)
Fixpoint hasZeroBit (n : nat) (j : Z) (constant : BitVector) : bool :=
  match n with
  | O => false
  | S n => if holds (BV.isBitSet j constant) then hasZeroBit n (j + 1) constant else true
  end.

(** The constant and the other operands. *)
Fixpoint splitFirstConst (cs : list Node) : option Node * list Node :=
  match cs with
  | [] => (None, [])
  | c :: cs =>
      if isConstBV c then (Some c, cs)
      else let '(constant, other) := splitFirstConst cs in (constant, c :: other)
  end.

(** The loop of [BitwiseSlicing] from bit [n - 1] down to bit 0. *)
Fixpoint slicingLoop (kind : Kind) (other constant : Node) (bv : BitVector) (n : nat) (start end_ : Z) (concat_children : list Node) :
    option (list Node) :=
  match n with
  | O => Some concat_children
  | S i' =>
      let i := Z.of_nat i' in
      hi ← BV.isBitSet (i + 1) bv; lo ← BV.isBitSet i bv;
      let slice low := mkNode2 kind (utils.mkExtract constant end_ low) (utils.mkExtract other end_ low) in
      let '(concat_children, start, end_) :=
        if xorb hi lo then (concat_children ++ [slice start], i, i) else (concat_children, start - 1, end_) in
      let concat_children :=
        if decide (i = 0) then
          concat_children ++ [mkNode2 kind (utils.mkExtract constant end_ 0) (utils.mkExtract other end_ 0)]
        else concat_children in
      slicingLoop kind other constant bv i' start end_ concat_children
  end.

Definition BitwiseSlicing : RewriteRule := {|
  applies node :=
    match bitwiseKind node, getSize node with
    | Some _, Some size =>
        negb (bool_decide (size = 1)) &&
        match firstConst (children node) with
        | None => false
        | Some constant =>
            if BV.eq constant (BV.new size 0) then false
            else hasZeroBit (Z.to_nat (BV.getSize constant)) 0 constant
        end
    | _, _ => false
    end;
  apply node :=
    kind ← bitwiseKind node;
    let '(constant, other_children) := splitFirstConst (children node) in
    constant ← constant;
    _ ← assert (bool_decide (length other_children = (getNumChildren node - 1)%nat));
    other ← mkNaryNode kind other_children;
    bv_constant ← getConstBV constant;
    let start := int32 (BV.getSize bv_constant - 1) in
    concat_children ← slicingLoop kind other constant bv_constant (Z.to_nat start) start start [];
    utils.mkConcatList concat_children;
|}.

(** ** Equality of one bit *)

Definition constAndTerm (node : Node) : option (BitVector * Node) :=
  a ← child node 0; b ← child node 1;
  match getConstBV a, getConstBV b with
  | Some c, _ => Some (c, b)
  | None, Some c => Some (c, a)
  | None, None => None
  end.

(** [mkNodeKind(k, node, c)]. *)
Definition mkNodeKind (k : Kind) (node c : Node) : Node := mkNode k ((λ d, eqNode d c) <$> children node).

Definition BitwiseEq : RewriteRule := {|
  applies node :=
    isKind EQUAL node && holds (a ← child node 0; s ← getSize a; Some (bool_decide (s = 1))) &&
    match constAndTerm node with
    | Some (_, mkNode (BITVECTOR_AND | BITVECTOR_OR | BITVECTOR_NOT | BITVECTOR_NAND | BITVECTOR_NOR | BITVECTOR_COMP | BITVECTOR_NEG) _) => true
    | _ => false
    end;
  apply node :=
    '(c, term) ← constAndTerm node;
    let eqOne := BV.eq c (BV.new 1 1) in
    let zero := utils.mkConst 1 0 in let one := utils.mkConst 1 1 in
    match term with
    | mkNode BITVECTOR_AND _ => Some (if eqOne then mkNodeKind AND term one else mkNodeKind OR term zero)
    | mkNode BITVECTOR_NAND _ => Some (if eqOne then mkNodeKind OR term zero else mkNodeKind AND term one)
    | mkNode BITVECTOR_OR _ => Some (if eqOne then mkNodeKind OR term one else mkNodeKind AND term zero)
    | mkNode BITVECTOR_NOR _ => Some (if eqOne then mkNodeKind AND term zero else mkNodeKind OR term one)
    | mkNode BITVECTOR_NOT _ => t ← child term 0; Some (eqNode t (utils.mkConstOf (BV.not c)))
    | mkNode BITVECTOR_COMP _ =>
        _ ← assert (bool_decide (getNumChildren term = 2%nat));
        a ← child term 0; b ← child term 1; Some (if eqOne then eqNode a b else notNode (eqNode a b))
    | mkNode BITVECTOR_NEG _ => t ← child term 0; Some (eqNode t (utils.mkConstOf c))
    | _ => None
    end;
|}.

End rules.
