(* ===== verification/BvNormalizeSound.v ===== *)
(** Soundness of the rules of [BvNormalize]. *)
From stdpp Require Import base option list numbers sorting.
From S2P Require Import Prelude Integer Node TypeRules Semantics BvArith TypeSound BitVectorUtil BvElim BvTerms BvElimArith BvElimSound BvConst BvConstSound BvCore BvCoreSound BvSimplify BvAssoc BvSimplifySound BvSimplifyArith BvSimplifyArithSound BvNormalize.
Open Scope Z_scope.

(** ** Bits of extracts and sign extensions *)

Lemma extract_bits k l x i : 0 ≤ l → 0 ≤ k → 0 ≤ i → Z.testbit (wrap k (x / 2 ^ l)) i = bool_decide (i < k) && Z.testbit x (i + l).
Proof. intros Hl Hk Hi. by rewrite wrap_bits, Z.div_pow2_bits by lia. Qed.

Lemma sext_bits m w x i : 0 < w → 0 ≤ m → 0 ≤ x < 2 ^ w → 0 ≤ i < m + w →
  Z.testbit (wrap (m + w) (signed w x)) i = if decide (i < w) then Z.testbit x i else Z.testbit x (w - 1).
Proof.
  intros Hw Hm Hx Hi. rewrite sext_value, (msb_spec w) by lia. case_decide as Hs.
  - case_decide; [done|]. rewrite (bits_high w) by lia. symmetry. apply bool_decide_eq_false. lia.
  - replace (x + (2 ^ (m + w) - 2 ^ w)) with ((2 ^ m - 1) * 2 ^ w + x) by (rewrite pow2_add by lia; ring).
    rewrite cat_bits by lia. case_decide; [done|]. rewrite ones_bits by lia. symmetry. apply bool_decide_eq_true. lia.
Qed.

Section sound.
Context `{!Gmp, !GmpLaws, !NodeIds, !NodeIdsLaws, !HashOrder, !HashOrderLaws}.

Lemma extractNot_ok : rule_ok ExtractNot.
Proof using Type.
  intros n τ Hn _ Hap. cbn [applies ExtractNot] in Hap. apply andb_true_iff in Hap as [Hx Hk]. destruct (isExtract_inv n Hx) as (h&l&cs&->).
  destruct (extract_terms h l cs τ Hn) as (c&w&->&Hc&Hl&Hh&->). norm. kind_of Hk. destruct Hc as (Hct&_).
  destruct (not_terms cs _ Hct) as (a&w'&->&[= <-]&Ha). unfold ExtractNot. norm. eexists. split; [done|].
  pose proof Ha as (_&Hw&_). eapply equiv_bv; [exact (bv_extract _ _ _ (bv_not _ _ _ Ha) h l Hl Hh)|exact (bv_not _ _ _ (bv_extract _ _ _ Ha h l Hl Hh))|].
  intros env Hok _. cbv beta. pose proof (bv_bound _ _ _ _ Ha Hok).
  apply (bits_eq (h - l + 1)); [pose proof (wrap_bound (h - l + 1) (bv_of a env / 2 ^ l)); lia|apply wrap_bound; lia|lia|].
  intros i Hi. rewrite not_bits by (lia || apply wrap_bound; lia). rewrite !extract_bits by lia. rewrite bool_decide_true by lia. cbn [andb].
  by rewrite not_bits by lia.
Qed.

Lemma extractSignExtend_ok : rule_ok ExtractSignExtend.
Proof using Type.
  intros n τ Hn _ Hap. cbn [applies ExtractSignExtend] in Hap. apply andb_true_iff in Hap as [Hx Hk]. destruct (isExtract_inv n Hx) as (h&l&cs&->).
  destruct (extract_terms h l cs τ Hn) as (c&W&->&Hc&Hl&Hh&->). norm. destruct (isSignExtend_inv c Hk) as (m&cs&->). destruct Hc as (Hct&HW&_).
  destruct (extend_terms _ m cs _ (or_introl eq_refl) Hct) as (a&w&->&Ha&Hm&Hmw&[= ->]). pose proof Ha as (_&Hw&_).
  unfold ExtractSignExtend. norm. rewrite (getSize_term _ _ _ Ha). cbn [getExtractHigh getExtractLow mbind option_bind]. unfold max_uint32 in *.
  pose proof (bv_extract _ _ _ (bv_sext m a w _ Ha Hm Hmw) h l Hl Hh) as HN.
  assert (∀ env, env_ok env → 0 ≤ bv_of a env < 2 ^ w) as Hb by (intros; by apply (bv_bound _ _ _ _ Ha)).
  case_decide as Hhw; [|case_decide as Hlw].
  - eexists. split; [done|]. eapply equiv_bv; [exact HN|exact (bv_extract _ _ _ Ha h l Hl Hhw)|]. intros env Hok _. cbv beta. specialize (Hb env Hok).
    apply (bits_eq (h - l + 1)); [apply wrap_bound; lia..|lia|]. intros i Hi. rewrite !extract_bits, sext_bits by lia. by rewrite decide_True by lia.
  - eexists. split; [done|]. rewrite !u32_small by lia.
    pose proof (bv_sext (h - w + 1) _ _ _ (bv_extract _ _ _ Ha (w - 1) l ltac:(lia) ltac:(lia)) ltac:(lia) ltac:(unfold max_uint32; lia)) as HR.
    eapply equiv_bv; [exact HN|eapply bvterm_ext; [exact HR|lia|done]|]. intros env Hok _. cbv beta. specialize (Hb env Hok).
    replace (w - 1 - l + 1) with (w - l) by lia. apply (bits_eq (h - l + 1)); [|apply wrap_bound; lia|lia|].
    { replace (h - w + 1 + (w - l)) with (h - l + 1) by lia. apply wrap_bound. lia. }
    intros i Hi. rewrite extract_bits, !sext_bits by (lia || apply wrap_bound; lia). rewrite bool_decide_true by lia. cbn [andb].
    rewrite !extract_bits by lia. destruct (decide (i < w - l)).
    + rewrite decide_True, bool_decide_true by lia. done.
    + rewrite decide_False, bool_decide_true by lia. cbn [andb]. f_equal. lia.
  - rewrite bool_decide_true by lia. cbn [assert mbind option_bind]. unfold mkRepeat. rewrite !u32_small, bool_decide_true by lia.
    eexists. split; [done|]. pose proof (bv_repeat (h - l + 1) _ _ _ (bv_bit a w _ (w - 1) Ha ltac:(lia)) ltac:(lia) ltac:(unfold max_uint32; lia)) as HR.
    eapply equiv_bv; [exact HN|eapply bvterm_ext; [exact HR|lia|done]|]. intros env Hok _. cbv beta. specialize (Hb env Hok).
    rewrite repeat_bit, Z2Nat.id by lia. pose proof (pow2_pos (h - l + 1) ltac:(lia)).
    apply (bits_eq (h - l + 1)); [destruct (Z.testbit _ _); lia|apply wrap_bound; lia|lia|].
    intros i Hi. rewrite extract_bits, sext_bits, decide_False, bool_decide_true by lia. cbn [andb].
    destruct (Z.testbit (bv_of a env) (w - 1)); [by rewrite ones_bits by lia|apply Z.bits_0].
Qed.

(** ** Sorting *)

Lemma sortNodes_perm ns : sortNodes ns ≡ₚ ns.
Proof using Type. apply merge_sort_Permutation. Qed.

Lemma wts_perm w ns ms : ns ≡ₚ ms → wts w ns → wts w ms.
Proof using Type. unfold wts. by intros ->. Qed.

Lemma mkSortedNode_term `{!NaryKind k g e} w ns :
  k ∈ [BITVECTOR_AND; BITVECTOR_OR; BITVECTOR_XOR] → wts w ns → ns ≠ [] → Z.of_nat (length ns) ≤ MAX_CHILDREN →
  ∃ n, mkSortedNode k ns = Some n ∧ bvterm n w (opval (g w) (e w) ns).
Proof using Type.
  intros Hk Hns Hne Hm. unfold mkSortedNode. rewrite bool_decide_true by done. cbn [assert mbind option_bind].
  destruct ns as [|n [|m ns]]; [done| |].
  - exists n. split; [done|]. apply list.Forall_cons in Hns as [Hn _]. pose proof (wt_bvterm _ _ Hn) as Hb. pose proof Hb as (_&Hw&_).
    eapply bvterm_env; [exact Hb|]. intros env Hok. apply (opval_one w); [apply nk_op; lia|done..].
  - eexists. split; [done|]. set (l := n :: m :: ns) in *. pose proof (sortNodes_perm l) as HP. pose proof (Permutation_length HP) as Hlen.
    assert (0 < w) by (subst l; apply list.Forall_cons in Hns as [Hn _]; destruct (wt_bvterm _ _ Hn) as (_&?&_); lia).
    eapply bvterm_env; [apply (bv_opval (k:=k) w); [by eapply wts_perm|rewrite Hlen; subst l; simpl; lia|by rewrite Hlen]|].
    intros env Hok. symmetry. by apply (opval_perm w _ _ env (nk_op w ltac:(lia))).
Qed.

(** ** Flattening *)

Lemma push_children cs : ∀ st : list Node, fold_left (λ st c, c :: st) cs st = reverse cs ++ st.
Proof using Type. induction cs as [|c cs IH]; intros st; cbn [fold_left]; [done|]. rewrite IH, reverse_cons, <- app_assoc. done. Qed.

(** The value of a nested application. *)
Lemma nested_value `{!NaryKind k g e} w cs env : wt (mkNode k cs) (BITVECTOR_TYPE w) → env_ok env →
  wts w cs ∧ (2 ≤ length cs)%nat ∧ bv_of (mkNode k cs) env = opval (g w) (e w) cs env.
Proof using Type.
  intros Hn Hok. destruct (nary_operands cs _ Hn) as (w'&[= <-]&Hw&Hcs&Hl&Hm). split_and!; try done.
  exact (bv_of_term _ _ _ env (bv_opval w cs Hcs Hl Hm) Hok).
Qed.

(** A nested application replaced by its operands. *)
Lemma opval_nested `{!NaryKind k g e} w cs ns env : wt (mkNode k cs) (BITVECTOR_TYPE w) → wts w ns → 0 < w → env_ok env →
  opval (g w) (e w) (mkNode k cs :: ns) env = opval (g w) (e w) (cs ++ ns) env.
Proof using Type.
  intros Hn Hns Hw Hok. destruct (nested_value w cs env Hn Hok) as (Hcs&_&E).
  rewrite (opval_app w _ _ env (nk_op w Hw) Hok cs ns Hcs Hns). cbn [opval foldr]. by rewrite E.
Qed.

Lemma flattenLoop_spec `{!NaryKind k g e} w fuel : ∀ stack acc,
  wts w stack → wts w acc → 0 < w → (sum_list_with nsize stack < fuel)%nat → Z.of_nat (length acc) ≤ MAX_CHILDREN →
  flattenLoop fuel k stack acc = Some None ∨
  ∃ out, flattenLoop fuel k stack acc = Some (Some out) ∧ wts w out ∧ Z.of_nat (length out) ≤ MAX_CHILDREN ∧
    (length acc + length stack ≤ length out)%nat ∧
    ∀ env, env_ok env → opval (g w) (e w) out env = opval (g w) (e w) (stack ++ acc) env.
Proof using Type.
  induction fuel as [|fuel IH]; intros stack acc Hst Hacc Hw Hf Hm; [lia|]. cbn [flattenLoop]. destruct stack as [|c stack].
  - right. exists acc. split_and!; try done. simpl. lia.
  - apply list.Forall_cons in Hst as [Hc Hst]. cbn [sum_list_with] in Hf. destruct (isKind k c) eqn:Hk.
    + kind_of Hk. cbn [children]. rewrite push_children. destruct (nested_value w cs env0 Hc env0_ok) as (Hcs&Hl&_). rewrite nsize_node in Hf.
      assert (wts w (reverse cs)) as Hr by (by apply Forall_reverse).
      destruct (IH (reverse cs ++ stack) acc) as [Hn|(out&E&Hout&Hmo&Hlo&Hv)]; try done; [by apply Forall_app| |by left|].
      { rewrite sum_list_with_app, sum_list_with_reverse. lia. }
      right. exists out. split_and!; try done; [rewrite length_app, length_reverse in Hlo; simpl; lia|]. intros env Hok. rewrite Hv by done.
      change ((mkNode k cs :: stack) ++ acc) with (mkNode k cs :: (stack ++ acc)).
      rewrite opval_nested by (done || by apply Forall_app). apply (opval_perm w _ _ env (nk_op w Hw)). rewrite <- app_assoc.
      by rewrite (reverse_Permutation cs).
    + case_decide as Hmax; [by left|]. pose proof (nsize_pos c).
      destruct (IH stack (acc ++ [c])) as [Hn|(out&E&Hout&Hmo&Hlo&Hv)];
        [done|apply Forall_app; split; [done|by apply Forall_singleton]|done|lia|lia|by left|].
      right. exists out. rewrite length_app in Hlo. simpl in Hlo. split_and!; try done; [simpl; lia|]. intros env Hok. rewrite Hv by done.
      apply (opval_perm w _ _ env (nk_op w Hw)). rewrite (app_assoc stack), (Permutation_app_comm _ [c]). done.
Qed.

Lemma flatten_kind k g e n τ `{!NaryKind k g e} :
  k ∈ [BITVECTOR_AND; BITVECTOR_OR; BITVECTOR_XOR; BITVECTOR_ADD; BITVECTOR_MULT] →
  assocKind n = Some k → isKind k n = true → wt n τ → ∃ n', apply FlattenAssocCommut n = Some n' ∧ equiv n n'.
Proof.
  intros Hin Hak Hk Hn. cbn [apply FlattenAssocCommut]. rewrite Hak. cbn [mbind option_bind]. kind_of Hk.
  destruct (nary_operands cs τ Hn) as (w&->&Hw&Hcs&Hl&Hm). pose proof (bv_opval w cs Hcs Hl Hm) as HN.
  destruct (flattenLoop_spec (k:=k) w (S (nsize (mkNode k cs))) [mkNode k cs] []) as [->|(out&->&Hout&Hmo&Hlo&Hv)];
    [by apply Forall_singleton|constructor|lia|simpl; lia|simpl; unfold MAX_CHILDREN; lia| |].
  { eexists. split; [done|]. by eapply equiv_refl. }
  cbn [mbind option_bind]. assert (out ≠ []) by (intros ->; simpl in Hlo; lia).
  assert (∀ n', bvterm n' w (opval (g w) (e w) out) → equiv (mkNode k cs) n') as Heq.
  { intros n' Hn'. eapply equiv_bv; [exact HN|exact Hn'|]. intros env Hok _. rewrite Hv, app_nil_r by done.
    rewrite opval_nested by (done || lia || constructor). by rewrite app_nil_r. }
  destruct (_ || _) eqn:Eak.
  - destruct (mkNaryNode_term (k:=k) w out) as (n'&->&Hn'); try done. eauto.
  - destruct (mkSortedNode_term (k:=k) w out) as (n'&->&Hn'); try done; [|eauto].
    cbn [isKind] in Eak. apply orb_false_iff in Eak as [E1%bool_decide_eq_false E2%bool_decide_eq_false]. rewrite !elem_of_cons in *. tauto.
Qed.

Lemma flattenAssocCommut_ok : rule_ok FlattenAssocCommut.
Proof.
  intros n τ Hn _ Hap. cbn [applies FlattenAssocCommut] in Hap. destruct (assocKind n) as [k|] eqn:Ek; [|done].
  destruct n as [| | | |[] cs]; try done; injection Ek as <-;
    [eapply (flatten_kind BITVECTOR_AND)|eapply (flatten_kind BITVECTOR_OR)|eapply (flatten_kind BITVECTOR_XOR)
    |eapply (flatten_kind BITVECTOR_MULT)|eapply (flatten_kind BITVECTOR_ADD)]; try done; try apply _; rewrite !elem_of_cons; tauto.
Qed.

End sound.
