(* ===== verification/BvProductSound.v ===== *)
(** Soundness of the rules of [BvNormalize] for products, negations and
    sums of like terms. *)
From stdpp Require Import base option list numbers sorting.
From S2P Require Import Prelude Integer Node TypeRules Semantics BvArith TypeSound BitVectorUtil BvElim BvTerms BvElimArith BvElimSound BvConst BvConstSound BvCore BvCoreSound BvSimplify BvAssoc BvSimplifySound BvSimplifyArith BvSimplifyArithSound BvNormalize BvNormalizeSound.
Open Scope Z_scope.

(** The sum of the operands, before it is wrapped. *)
Definition sumZ (cs : list Node) (env : Env) : Z := foldr (λ n x, bv_of n env + x) 0 cs.

Lemma opval_add w cs env : 0 < w → opval (λ x y, wrap w (x + y)) 0 cs env = wrap w (sumZ cs env).
Proof.
  intros Hw. pose proof (pow2_pos w ltac:(lia)). induction cs as [|c cs IH]; cbn [opval foldr sumZ].
  - symmetry. apply wrap_small. lia.
  - unfold opval, sumZ in IH. by rewrite IH, wrap_add_r by lia.
Qed.

(** Equality modulo two to the width. *)
Definition eqm (w x y : Z) : Prop := wrap w x = wrap w y.

#[global] Instance eqm_equiv w : Equivalence (eqm w).
Proof. split; unfold eqm; [by intros ?|by intros ? ? ->|by intros ? ? ? -> ->]. Qed.

Lemma eqm_ex w x y : 0 ≤ w → eqm w x y ↔ ∃ k, x = y + k * 2 ^ w.
Proof.
  intros Hw. split; [|intros [k ->]; by apply (wrap_congr w _ _ k)]. unfold eqm. intros E.
  destruct (wrap_ex w x Hw) as [k1 E1], (wrap_ex w y Hw) as [k2 E2]. exists (k2 - k1). lia.
Qed.

Lemma eqm_wrap w x : 0 ≤ w → eqm w (wrap w x) x.
Proof. intros Hw. unfold eqm. apply wrap_wrap. lia. Qed.


Lemma eqm_plus w x x' y y' : 0 ≤ w → eqm w x x' → eqm w y y' → eqm w (x + y) (x' + y').
Proof.
  intros Hw (k&->)%eqm_ex (k'&->)%eqm_ex; try done. apply eqm_ex; [done|]. exists (k + k'). ring.
Qed.

Lemma eqm_times w x x' y y' : 0 ≤ w → eqm w x x' → eqm w y y' → eqm w (x * y) (x' * y').
Proof.
  intros Hw (k&->)%eqm_ex (k'&->)%eqm_ex; try done. apply eqm_ex; [done|]. exists (k * y' + k' * x' + k * k' * 2 ^ w). ring.
Qed.

Lemma eqm_opp w x x' : 0 ≤ w → eqm w x x' → eqm w (- x) (- x').
Proof. intros Hw (k&->)%eqm_ex; [|done]. apply eqm_ex; [done|]. exists (- k). ring. Qed.

(** A linear function of each operand. *)
Lemma sumZ_map w c f cs env : 0 ≤ w → (∀ d, d ∈ cs → eqm w (bv_of (f d) env) (c * bv_of d env)) →
  eqm w (sumZ (f <$> cs) env) (c * sumZ cs env).
Proof.
  intros Hw Hf. induction cs as [|d cs IH]; cbn [fmap list_fmap sumZ foldr]; [by rewrite Z.mul_0_r|].
  rewrite Z.mul_add_distr_l. apply eqm_plus; [done|apply Hf; by left|]. apply IH. intros. apply Hf. by right.
Qed.

Section sound.
Context `{!Gmp, !GmpLaws, !NodeIds, !NodeIdsLaws, !HashOrder, !HashOrderLaws}.

(** Terms of a product, a sum or a negation: their value modulo the width. *)
Lemma value_mult2 a b w env : wt a (BITVECTOR_TYPE w) → wt b (BITVECTOR_TYPE w) → env_ok env →
  wt (mkNode2 BITVECTOR_MULT a b) (BITVECTOR_TYPE w) ∧ eqm w (bv_of (mkNode2 BITVECTOR_MULT a b) env) (bv_of a env * bv_of b env).
Proof using Type.
  intros Ha Hb Hok. pose proof (bv_mult _ _ _ _ _ (wt_bvterm _ _ Ha) (wt_bvterm _ _ Hb)) as Hm. pose proof Hm as (Ht&Hw&_). split; [done|].
  rewrite (bv_of_term _ _ _ env Hm Hok). apply eqm_wrap. lia.
Qed.

Lemma value_neg a w env : wt a (BITVECTOR_TYPE w) → env_ok env →
  wt (mkNode1 BITVECTOR_NEG a) (BITVECTOR_TYPE w) ∧ eqm w (bv_of (mkNode1 BITVECTOR_NEG a) env) (- bv_of a env).
Proof using Type.
  intros Ha Hok. pose proof (bv_neg _ _ _ (wt_bvterm _ _ Ha)) as Hm. pose proof Hm as (Ht&Hw&_). split; [done|].
  rewrite (bv_of_term _ _ _ env Hm Hok). apply eqm_wrap. lia.
Qed.

(** Two terms of one width whose values agree modulo the width. *)
Lemma equiv_eqm n n' w : wt n (BITVECTOR_TYPE w) → wt n' (BITVECTOR_TYPE w) →
  (∀ env, env_ok env → eqm w (bv_of n' env) (bv_of n env)) → equiv n n'.
Proof using Type.
  intros Hn Hn' Hv. eapply equiv_bv; [by apply wt_bvterm|by apply wt_bvterm|]. intros env Hok _.
  pose proof (wt_bound n w env Hn Hok). pose proof (wt_bound n' w env Hn' Hok). specialize (Hv env Hok). unfold eqm in Hv.
  by rewrite !wrap_small in Hv.
Qed.

(** ** Negation *)

(** The guard of [NegMult] asks whether the last child of the negation, the
    product itself, is a constant. *)
Lemma negMult_never n τ : wt n τ → applies NegMult n = false.
Proof using Type.
  intros Hn. cbn [applies NegMult]. destruct (isKind BITVECTOR_NEG n) eqn:Hk; [|done]. kind_of Hk.
  destruct (fixed1_terms BITVECTOR_NEG cs τ (λ _, eq_refl) (λ _, eq_refl) Hn) as (a&w&->&->&Ha). cbn. destruct a; try done. cbn. apply andb_false_r.
Qed.

Lemma neg_open k n τ : wt n τ → isKind BITVECTOR_NEG n && childIs (isKind k) n 0 = true →
  ∃ cs w, n = mkNode1 BITVECTOR_NEG (mkNode k cs) ∧ τ = BITVECTOR_TYPE w ∧ 0 < w ∧ wt (mkNode k cs) (BITVECTOR_TYPE w).
Proof using Type.
  intros Hn Hap. apply andb_true_iff in Hap as [Hk Hk2]. kind_of Hk.
  destruct (fixed1_terms BITVECTOR_NEG cs τ (λ _, eq_refl) (λ _, eq_refl) Hn) as (a&w&->&->&Ha). norm. kind_of Hk2. destruct Ha as (Hat&Hw&_).
  exists cs, w. split_and!; try done; lia.
Qed.

Lemma negSub_ok : rule_ok NegSub.
Proof using Type.
  intros n τ Hn _ Hap. destruct (neg_open BITVECTOR_SUB n τ Hn Hap) as (cs&w&->&->&Hw&Hs).
  destruct (fixed2_terms BITVECTOR_SUB cs _ (λ _, eq_refl) (λ _, eq_refl) Hs) as (a&b&w'&->&[= <-]&Ha&Hb). eexists. split; [done|].
  eapply equiv_bv; [exact (bv_neg _ _ _ (bv_sub _ _ _ _ _ Ha Hb))|exact (bv_sub _ _ _ _ _ Hb Ha)|]. intros env _ _. cbv beta.
  symmetry. etrans; [apply eqm_opp, eqm_wrap; lia|]. f_equal. lia.
Qed.

Lemma negAdd_ok : rule_ok NegAdd.
Proof.
  intros n τ Hn _ Hap. destruct (neg_open BITVECTOR_ADD n τ Hn Hap) as (cs&w&->&->&Hw&Hs).
  destruct (nary_operands cs _ Hs) as (w'&[= <-]&_&Hcs&Hl&Hm). unfold NegAdd. norm.
  set (f := λ d, mkNode1 BITVECTOR_NEG d). assert (wts w (f <$> cs)) as Hf.
  { unfold wts. apply list.Forall_fmap. eapply list.Forall_impl; [exact Hcs|]. intros d Hd. by apply (value_neg d w env0 Hd env0_ok). }
  destruct (mkNaryNode_term (k:=BITVECTOR_ADD) w (f <$> cs)) as (n'&->&Hn'); [rewrite !elem_of_cons; tauto|done|intros ->%fmap_nil_inv; simpl in Hl; lia|by rewrite length_fmap|].
  exists n'. split; [done|]. eapply equiv_bv; [exact (bv_neg _ _ _ (bv_opval (k:=BITVECTOR_ADD) w cs Hcs Hl Hm))|exact Hn'|].
  intros env Hok _. cbv beta. rewrite !opval_add by done.
  etrans; [apply (sumZ_map w (-1)); [lia|]|symmetry; etrans; [apply eqm_opp, eqm_wrap; lia|]; f_equal; lia].
  intros d Hd. eapply list.Forall_forall in Hcs; [|exact Hd]. destruct (value_neg d w env Hcs Hok) as [_ E]. etrans; [exact E|]. f_equal.
Qed.

(** ** Distribution *)

(** The operands of a sum or a difference, each times [factor]. *)
Lemma distrib_term sum factor k w cs : sumKind sum = Some k → sum = mkNode k cs → wt sum (BITVECTOR_TYPE w) → wt factor (BITVECTOR_TYPE w) →
  ∃ n', mkNaryNode k ((λ c, mkNode2 BITVECTOR_MULT c factor) <$> cs) = Some n' ∧ wt n' (BITVECTOR_TYPE w) ∧
    ∀ env, env_ok env → eqm w (bv_of n' env) (bv_of sum env * bv_of factor env).
Proof.
  intros Hk -> Hs Hf. set (f := λ c, mkNode2 BITVECTOR_MULT c factor).
  assert (∀ d env, wt d (BITVECTOR_TYPE w) → env_ok env → wt (f d) (BITVECTOR_TYPE w) ∧ eqm w (bv_of (f d) env) (bv_of factor env * bv_of d env)) as Hd.
  { intros d env Hd Hok. destruct (value_mult2 d factor w env Hd Hf Hok) as [? E]. split; [done|]. etrans; [exact E|]. f_equal. lia. }
  destruct k; try done.
  - destruct (nary_operands cs _ Hs) as (w'&[= <-]&Hw&Hcs&Hl&Hm).
    assert (wts w (f <$> cs)) as Hfc.
    { unfold wts. apply list.Forall_fmap. eapply list.Forall_impl; [exact Hcs|]. intros d Hdt. by apply (Hd d env0 Hdt env0_ok). }
    destruct (mkNaryNode_term (k:=BITVECTOR_ADD) w (f <$> cs)) as (n'&E&Hn');
      [rewrite !elem_of_cons; tauto|done|intros ->%fmap_nil_inv; simpl in Hl; lia|by rewrite length_fmap|].
    exists n'. split_and!; [done|by destruct Hn'|]. intros env Hok.
    rewrite (bv_of_term _ _ _ env Hn' Hok), (bv_of_term _ _ _ env (bv_opval (k:=BITVECTOR_ADD) w cs Hcs Hl Hm) Hok), !opval_add by lia.
    etrans; [apply eqm_wrap; lia|]. etrans; [apply (sumZ_map w (bv_of factor env)); [lia|]|].
    + intros d Hin. eapply list.Forall_forall in Hcs; [|exact Hin]. by apply Hd.
    + rewrite Z.mul_comm. apply eqm_times; [lia|symmetry; apply eqm_wrap; lia|done].
  - destruct (fixed2_terms BITVECTOR_SUB cs _ (λ _, eq_refl) (λ _, eq_refl) Hs) as (a&b&w'&->&[= <-]&Ha&Hb). pose proof Ha as (Hat&Hw&_). pose proof Hb as (Hbt&_).
    exists (mkNode2 BITVECTOR_SUB (f a) (f b)). split; [done|]. destruct (Hd a env0 Hat env0_ok) as [Hfa _], (Hd b env0 Hbt env0_ok) as [Hfb _].
    pose proof (bv_sub _ _ _ _ _ (wt_bvterm _ _ Hfa) (wt_bvterm _ _ Hfb)) as HS. split; [by destruct HS|]. intros env Hok.
    etrans; [rewrite (bv_of_term _ _ _ env HS Hok); apply eqm_wrap; lia|]. rewrite (bv_of_term _ _ _ env (bv_sub _ _ _ _ _ Ha Hb) Hok).
    destruct (Hd a env Hat Hok) as [_ Ea], (Hd b env Hbt Hok) as [_ Eb]. rewrite <- Z.add_opp_r.
    etrans; [apply eqm_plus; [lia|exact Ea|apply eqm_opp; [lia|exact Eb]]|].
    etrans; [|apply eqm_times; [lia|symmetry; apply eqm_wrap; lia|done]]. f_equal. ring.
Qed.

Lemma isSum_inv n : isSum n = true → ∃ k cs, n = mkNode k cs ∧ sumKind n = Some k.
Proof using Type. unfold isSum. destruct n as [| | | |[] cs]; try done; eauto. Qed.

Lemma mult2_open n τ : wt n τ → isKind BITVECTOR_MULT n = true → getNumChildren n = 2%nat →
  ∃ a b w, n = mkNode2 BITVECTOR_MULT a b ∧ τ = BITVECTOR_TYPE w ∧ 0 < w ≤ max_uint32 ∧ wt a (BITVECTOR_TYPE w) ∧ wt b (BITVECTOR_TYPE w).
Proof using Type.
  intros Hn Hk Hl. kind_of Hk. destruct (nary_operands cs τ Hn) as (w&->&Hw&Hcs&_). destruct cs as [|a [|b []]]; try done.
  apply list.Forall_cons in Hcs as [Ha Hb]. apply list.Forall_cons in Hb as [Hb _]. by exists a, b, w.
Qed.

Lemma multDistrib_ok : rule_ok MultDistrib.
Proof.
  intros n τ Hn _ Hap. cbn [applies MultDistrib] in Hap. apply andb_true_iff in Hap as [Hap Hs]. apply andb_true_iff in Hap as [Hk Hl%bool_decide_eq_true].
  destruct (mult2_open n τ Hn Hk Hl) as (a&b&w&->&->&Hw&Ha&Hb). unfold MultDistrib. norm.
  assert (∀ s f, wt s (BITVECTOR_TYPE w) → wt f (BITVECTOR_TYPE w) → isSum s = true →
    (∀ env, eqm w (bv_of s env * bv_of f env) (bv_of a env * bv_of b env)) →
    ∃ n', (k ← sumKind s; mkNaryNode k ((λ c, mkNode2 BITVECTOR_MULT c f) <$> children s)) = Some n' ∧ equiv (mkNode2 BITVECTOR_MULT a b) n') as Hgen.
  { intros s f Hst Hft Hsum Hv. destruct (isSum_inv s Hsum) as (k&cs&->&Ek). rewrite Ek. cbn [mbind option_bind children].
    destruct (distrib_term _ f k w cs Ek eq_refl Hst Hft) as (n'&->&Hn'&Hv'). exists n'. split; [done|]. apply (equiv_eqm _ _ w Hn Hn').
    intros env Hok. etrans; [by apply Hv'|]. etrans; [apply Hv|]. symmetry. by apply value_mult2. }
  destruct (isSum a) eqn:Esa.
  - apply negb_true_iff in Hs. rewrite Hs, Esa. cbn [negb andb assert mbind option_bind]. by apply Hgen.
  - rewrite Hs, ?Esa. cbn [negb andb assert mbind option_bind]. apply Hgen; try done. intros env. by rewrite Z.mul_comm.
Qed.

Lemma cst_neg w v : 0 < w ≤ max_uint32 → 0 ≤ v < 2 ^ w → BV.neg (mkBitVector w v) = Some (mkBitVector w (wrap w (- v))).
Proof. intros Hw Hv. by rewrite neg_spec by (by split). Qed.

Lemma multDistribConst_ok : rule_ok MultDistribConst.
Proof.
  intros n τ Hn _ Hap. cbn [applies MultDistribConst] in Hap. apply andb_true_iff in Hap as [Hap Hs]. apply andb_true_iff in Hap as [Hap Hc].
  apply andb_true_iff in Hap as [Hap _]. apply andb_true_iff in Hap as [Hk Hl%bool_decide_eq_true].
  destruct (mult2_open n τ Hn Hk Hl) as (a&b&w&->&->&Hw&Ha&Hb). unfold MultDistribConst. norm.
  destruct (const_cst b w _ Hc (wt_bvterm _ _ Hb)) as (v&->&Hv). cbn [cst getConstBV mbind option_bind].
  destruct (isKind BITVECTOR_NEG a) eqn:Hneg.
  - kind_of Hneg. destruct (fixed1_terms BITVECTOR_NEG cs _ (λ _, eq_refl) (λ _, eq_refl) Ha) as (f&w'&->&[= <-]&Hf). norm.
    rewrite cst_neg by done. cbn [mbind option_bind]. eexists. split; [done|]. pose proof Hf as (Hft&_).
    pose proof (wrap_bound w (- v) ltac:(lia)). assert (wt (cst w (wrap w (- v))) (BITVECTOR_TYPE w)) as Hc' by (apply bv_cst; lia).
    apply (equiv_eqm _ _ w Hn); [by apply (value_mult2 _ _ w env0 Hft Hc' env0_ok)|]. intros env Hok.
    destruct (value_mult2 _ _ w env Hft Hc' Hok) as [_ E]. etrans; [exact E|]. destruct (value_mult2 _ _ w env Ha Hb Hok) as [_ E']. etrans; [|symmetry; exact E'].
    rewrite !bv_of_cst. destruct (value_neg f w env Hft Hok) as [_ En].
    etrans; [apply eqm_times; [lia|done|apply eqm_wrap; lia]|]. etrans; [|apply eqm_times; [lia|symmetry; exact En|done]]. f_equal. ring.
  - rewrite orb_false_r in Hs. destruct (isSum_inv a Hs) as (k&cs&->&Ek). rewrite Ek. cbn [mbind option_bind children].
    destruct (distrib_term _ (cst w v) k w cs Ek eq_refl Ha Hb) as (n'&E&Hn'&Hv'). change (mkConstBV (mkBitVector w v)) with (cst w v). rewrite E. exists n'. split; [done|].
    apply (equiv_eqm _ _ w Hn Hn'). intros env Hok. etrans; [by apply Hv'|]. symmetry. by apply value_mult2.
Qed.

(** ** Products with constants *)

Lemma prodZ_perm ns ms env : ns ≡ₚ ms → prodZ ns env = prodZ ms env.
Proof using Type. induction 1 as [|n ns ms _ IH|n m ns|]; cbn [prodZ foldr]; unfold prodZ in *; lia || congruence. Qed.

Lemma prodZ_snoc ns n env : prodZ (ns ++ [n]) env = prodZ ns env * bv_of n env.
Proof using Type. induction ns as [|m ns IH]; cbn [app prodZ foldr]; unfold prodZ in *; [lia|]. rewrite IH. ring. Qed.

Lemma eq_new w x y : 0 ≤ w → 0 ≤ y < 2 ^ w → BV.eq (mkBitVector w x) (BV.new w y) = bool_decide (x = y).
Proof. intros Hw Hy. rewrite new_small by lia. unfold BV.eq. cbn. by rewrite decide_False by (intros []; done). Qed.

Lemma eq_bv w x y : BV.eq (mkBitVector w x) (mkBitVector w y) = bool_decide (x = y).
Proof using Type. unfold BV.eq. cbn. by rewrite decide_False by (intros []; done). Qed.

(** An operand without its negation. *)
Lemma strip_neg current w (neg : bool) : wt current (BITVECTOR_TYPE w) →
  ∃ c neg', (match current with mkNode BITVECTOR_NEG _ => c ← child current 0; Some (c, negb neg) | _ => Some (current, neg) end) = Some (c, neg') ∧
    wt c (BITVECTOR_TYPE w) ∧ (nsize c ≤ nsize current)%nat ∧
    ∀ env, env_ok env → eqm w (sgn neg * bv_of current env) (sgn neg' * bv_of c env).
Proof using Type.
  intros Hc. destruct (isKind BITVECTOR_NEG current) eqn:Hk.
  - kind_of Hk. destruct (fixed1_terms BITVECTOR_NEG cs _ (λ _, eq_refl) (λ _, eq_refl) Hc) as (f&w'&->&[= <-]&Hf). pose proof Hf as (Hft&Hw&_).
    exists f, (negb neg). split_and!; [done|done|cbn; lia|]. intros env Hok. destruct (value_neg f w env Hft Hok) as [_ E].
    etrans; [apply eqm_times; [lia|done|exact E]|]. f_equal. destruct neg; cbn; lia.
  - exists current, neg. split_and!; try done. by destruct current as [| | | |[] ].
Qed.

(** What the loop of [MultSimplify] gives back. *)
Definition simplified (w : Z) (cs : list Node) (neg : bool) (c : Z) (acc : list Node) (r : unit + BitVector * bool * list Node) : Prop :=
  match r with
  | inl _ => ∀ env, env_ok env → eqm w (sgn neg * c * prodZ cs env) 0
  | inr (constant, neg', out) => ∃ c' chs, constant = mkBitVector w c' ∧ 0 ≤ c' < 2 ^ w ∧ out = acc ++ chs ∧ wts w chs ∧
      (length chs ≤ length cs)%nat ∧ (c' ≠ c → (length chs < length cs)%nat) ∧
      Forall (λ n, isConstBV n = false ∧ ∃ m, m ∈ cs ∧ (nsize n ≤ nsize m)%nat) chs ∧
      ∀ env, env_ok env → eqm w (sgn neg * c * prodZ cs env) (sgn neg' * c' * prodZ chs env)
  end.

Lemma multSimplifyLoop_spec w cs : ∀ c neg acc, 0 < w ≤ max_uint32 → wts w cs → 0 ≤ c < 2 ^ w →
  ∃ r, multSimplifyLoop cs w (mkBitVector w c) neg acc = Some r ∧ simplified w cs neg c acc r.
Proof.
  induction cs as [|d cs IH]; intros c neg acc Hw Hcs Hc; cbn [multSimplifyLoop].
  - eexists. split; [done|]. exists c, []. rewrite app_nil_r. split_and!; first [done|by constructor|lia].
  - apply list.Forall_cons in Hcs as [Hd Hcs]. destruct (strip_neg d w neg Hd) as (x&neg'&->&Hx&Hsz&Hv). cbn [mbind option_bind].
    assert (∀ m, m ∈ cs → m ∈ d :: cs) as Hsub by (intros; by right). pose proof (pow2_pos w ltac:(lia)).
    destruct (isConstBV x) eqn:Hxc.
    + destruct (constBV_cst x w _ Hxc (wt_bvterm _ _ Hx)) as (v&->&Hvb). cbn [cst]. rewrite mul_spec by (by split). cbn [mbind option_bind d_size d_value].
      assert (∀ env, env_ok env → eqm w (sgn neg * c * prodZ (d :: cs) env) (sgn neg' * wrap w (c * v) * prodZ cs env)) as Hstep.
      { intros env Hok. cbn [prodZ foldr]. fold (prodZ cs env). specialize (Hv env Hok). rewrite bv_of_cst in Hv.
        replace (sgn neg * c * (bv_of d env * prodZ cs env)) with (sgn neg * bv_of d env * (c * prodZ cs env)) by ring.
        etrans; [apply eqm_times; [lia|exact Hv|done]|].
        replace (sgn neg' * v * (c * prodZ cs env)) with (sgn neg' * prodZ cs env * (c * v)) by ring.
        etrans; [apply eqm_times; [lia|done|symmetry; apply eqm_wrap; lia]|]. f_equal. ring. }
      rewrite eq_new by lia. case_bool_decide as Hz.
      * eexists. split; [done|]. intros env Hok. etrans; [by apply Hstep|]. rewrite Hz. by rewrite Z.mul_0_r, Z.mul_0_l.
      * destruct (IH (wrap w (c * v)) neg' acc Hw Hcs (wrap_bound w (c * v) ltac:(lia))) as (r&->&Hr). exists r. split; [done|]. destruct r as [u|[[bv ng] out]].
        -- intros env Hok. etrans; [by apply Hstep|]. by apply Hr.
        -- destruct Hr as (c'&chs&->&Hc'&->&Hchs&Hl&_&HF&HV). exists c', chs. split_and!; try done; try lia; [cbn; lia..| |].
           ++ eapply list.Forall_impl; [exact HF|]. intros n (Hn&m&Hm&?). split; [done|]. exists m. auto.
           ++ intros env Hok. etrans; [by apply Hstep|]. by apply HV.
    + assert (match x with mkConstBV value => constant ← BV.mul (mkBitVector w c) value;
        if BV.eq constant (BV.new w 0) then Some (inl ()) else multSimplifyLoop cs w constant neg' acc
        | _ => multSimplifyLoop cs w (mkBitVector w c) neg' (acc ++ [x]) end = multSimplifyLoop cs w (mkBitVector w c) neg' (acc ++ [x])) as ->
        by (by destruct x).
      assert (∀ env, env_ok env → eqm w (sgn neg * c * prodZ (d :: cs) env) (sgn neg' * c * prodZ cs env * bv_of x env)) as Hstep.
      { intros env Hok. cbn [prodZ foldr]. fold (prodZ cs env).
        replace (sgn neg * c * (bv_of d env * prodZ cs env)) with (sgn neg * bv_of d env * (c * prodZ cs env)) by ring.
        etrans; [apply eqm_times; [lia|by apply Hv|done]|]. f_equal. ring. }
      destruct (IH c neg' (acc ++ [x]) Hw Hcs Hc) as (r&->&Hr). exists r. split; [done|]. destruct r as [u|[[bv ng] out]].
      * intros env Hok. etrans; [by apply Hstep|]. etrans; [apply eqm_times; [lia|by apply Hr|done]|done].
      * destruct Hr as (c'&chs&->&Hc'&->&Hchs&Hl&Hl'&HF&HV). exists c', (x :: chs). rewrite <- app_assoc. split_and!; try done; try lia; [by constructor|cbn; lia|cbn; lia| |].
        -- constructor; [split; [done|exists d; split; [by left|done]]|]. eapply list.Forall_impl; [exact HF|]. intros n (Hn&m&Hm&?). split; [done|]. exists m. auto.
        -- intros env Hok. etrans; [by apply Hstep|]. etrans; [apply eqm_times; [lia|by apply HV|done]|]. cbn [prodZ foldr]. fold (prodZ chs env). f_equal. ring.
Qed.

(** The product of the operands that are left, with the constant they get. *)
Lemma multOperands w neg c chs : 0 < w ≤ max_uint32 → 0 ≤ c < 2 ^ w → wts w chs → chs ≠ [] →
  Z.of_nat (length chs) ≤ MAX_CHILDREN → (c ≠ 1 → Z.of_nat (length chs) < MAX_CHILDREN) →
  ∃ neg' out ret, (noValue ← BV.mkOnes w;
      '(isNeg, children) ←
        (if BV.eq (mkBitVector w c) noValue then Some (negb neg, sortNodes chs)
         else if negb (BV.eq (mkBitVector w c) (BV.new w 1)) then
           if neg then nconstant ← BV.neg (mkBitVector w c); Some (false, sortNodes chs ++ [utils.mkConstOf nconstant])
           else Some (neg, sortNodes chs ++ [utils.mkConstOf (mkBitVector w c)])
         else Some (neg, sortNodes chs));
      ret ← mkNaryNode BITVECTOR_MULT children; Some (isNeg, children, ret)) = Some (neg', out, ret) ∧
    (out = sortNodes chs ∨ ∃ v, out = sortNodes chs ++ [cst w v]) ∧
    bvterm ret w (λ env, wrap w (prodZ out env)) ∧
    ∀ env, env_ok env → eqm w (sgn neg' * prodZ out env) (sgn neg * c * prodZ chs env).
Proof.
  intros Hw Hc Hchs Hne Hm Hm1. pose proof (pow2_gt1 w ltac:(lia)). rewrite mkOnes_spec by done. cbn [mbind option_bind]. rewrite eq_bv, eq_new by lia.
  pose proof (sortNodes_perm chs) as HP. pose proof (Permutation_length HP) as Hlen. assert (wts w (sortNodes chs)) as Hs by (by eapply wts_perm).
  assert (sortNodes chs ≠ []) as Hsn by (intros E; rewrite E in Hlen; by destruct chs).
  assert (∀ v, 0 ≤ v < 2 ^ w → wts w (sortNodes chs ++ [cst w v])) as Hsv.
  { intros v Hv. apply Forall_app. split; [done|]. apply Forall_singleton. by apply bv_cst. }
  assert (∀ out, wts w out → out ≠ [] → Z.of_nat (length out) ≤ MAX_CHILDREN →
    ∃ ret, mkNaryNode BITVECTOR_MULT out = Some ret ∧ bvterm ret w (λ env, wrap w (prodZ out env))) as Hmk.
  { intros out Ho Hon Hol. destruct (mkNaryNode_term (k:=BITVECTOR_MULT) w out) as (ret&->&Hr); [rewrite !elem_of_cons; tauto|done..|].
    exists ret. split; [done|]. eapply bvterm_ext; [exact Hr|done|]. intros env. symmetry. apply opval_mult. lia. }
  destruct (bool_decide_reflect (c = 2 ^ w - 1)) as [->|Hno]; [|destruct (bool_decide_reflect (c = 1)) as [->|H1c]; cbn [negb]].
  - cbn [mbind option_bind]. destruct (Hmk (sortNodes chs) Hs Hsn) as (ret&->&Hr); [lia|]. eexists _, _, _. split; [done|]. split_and!; [by left|done|].
    intros env Hok. rewrite (prodZ_perm _ _ _ HP). apply eqm_ex; [lia|]. exists (- sgn neg * prodZ chs env). destruct neg; cbn [negb sgn]; ring.
  - cbn [mbind option_bind]. destruct (Hmk (sortNodes chs) Hs Hsn) as (ret&->&Hr); [lia|]. eexists _, _, _. split; [done|]. split_and!; [by left|done|].
    intros env Hok. rewrite (prodZ_perm _ _ _ HP). by rewrite Z.mul_1_r.
  - specialize (Hm1 H1c). destruct neg.
    + rewrite cst_neg by lia. cbn [mbind option_bind]. pose proof (wrap_bound w (- c) ltac:(lia)).
      change (utils.mkConstOf (mkBitVector w (wrap w (- c)))) with (cst w (wrap w (- c))).
      destruct (Hmk (sortNodes chs ++ [cst w (wrap w (- c))])) as (ret&->&Hr); [by apply Hsv|by destruct (sortNodes chs)|rewrite length_app; simpl; lia|].
      eexists _, _, _. split; [done|]. split_and!; [right; by eexists|done|]. intros env Hok. rewrite prodZ_snoc, bv_of_cst, (prodZ_perm _ _ _ HP).
      cbn [sgn]. rewrite Z.mul_1_l. etrans; [apply eqm_times; [lia|done|apply eqm_wrap; lia]|]. f_equal. ring.
    + cbn [mbind option_bind]. change (utils.mkConstOf (mkBitVector w c)) with (cst w c).
      destruct (Hmk (sortNodes chs ++ [cst w c])) as (ret&->&Hr); [by apply Hsv|by destruct (sortNodes chs)|rewrite length_app; simpl; lia|].
      eexists _, _, _. split; [done|]. split_and!; [right; by eexists|done|]. intros env Hok. rewrite prodZ_snoc, bv_of_cst, (prodZ_perm _ _ _ HP). f_equal. ring.
Qed.

(** The result of [MultSimplify]: a constant, or the product of operands that
    are not constants and at most one constant, up to a sign. *)
Lemma multSimplify_result n τ : wt n τ → isKind BITVECTOR_MULT n = true →
  ∃ n', apply MultSimplify n = Some n' ∧ equiv n n' ∧
    (isConst n' = true ∨ isKind BITVECTOR_NEG n' = true ∨ 
     ∃ chs v, Forall (λ m, isConstBV m = false ∧ (nsize m < nsize n)%nat) chs ∧
      (mkNaryNode BITVECTOR_MULT (sortNodes chs) = Some n' ∨ mkNaryNode BITVECTOR_MULT (sortNodes chs ++ [v]) = Some n') ∧ chs ≠ []).
Proof.
  intros Hn Hk. kind_of Hk. destruct (nary_operands cs τ Hn) as (w&->&Hw&Hcs&Hl&Hm). pose proof (bv_opval (k:=BITVECTOR_MULT) w cs Hcs Hl Hm) as HN.
  pose proof (pow2_gt1 w ltac:(lia)). cbn [apply MultSimplify]. rewrite (getSize_term _ _ _ HN). cbn [mbind option_bind children]. rewrite new_small by lia.
  destruct (multSimplifyLoop_spec w cs 1 false [] Hw Hcs ltac:(lia)) as (r&->&Hr). cbn [mbind option_bind].
  destruct r as [u|[[constant neg] out]].
  { eexists. split; [done|]. split; [|by left]. eapply equiv_bv; [exact HN|apply bv_const; [done|lia]|]. intros env Hok _. cbv beta. rewrite opval_mult by lia.
    specialize (Hr env Hok). cbn [sgn] in Hr. rewrite !Z.mul_1_l in Hr. unfold eqm in Hr. rewrite Hr. symmetry. apply wrap_small. lia. }
  destruct Hr as (c&chs&->&Hc&->&Hchs&Hlc&Hlc'&HF&HV). cbn [app].
  assert (∀ env, env_ok env → eqm w (sgn neg * c * prodZ chs env) (prodZ cs env)) as HV'.
  { intros env Hok. symmetry. etrans; [|by apply HV]. cbn [sgn]. by rewrite !Z.mul_1_l. }
  destruct (decide (chs = [])) as [->|Hne].
  { rewrite mkOnes_spec by done. cbn [mbind option_bind]. assert (∃ v, (if neg then BV.neg (mkBitVector w c) else Some (mkBitVector w c)) = Some (mkBitVector w v) ∧
      0 ≤ v < 2 ^ w ∧ eqm w v (sgn neg * c)) as (v&->&Hv&Ev).
    { destruct neg; [rewrite cst_neg by done|]; eexists; (split; [done|]); (split; [by try apply wrap_bound; lia|]); cbn [sgn].
      - replace (-1 * c) with (- c) by lia. apply eqm_wrap. lia.
      - by rewrite Z.mul_1_l. }
    cbn [mbind option_bind]. eexists. split; [done|]. split; [|by left].
    eapply equiv_bv; [exact HN|exact (bv_cst w v Hw Hv)|]. intros env Hok _. cbv beta. rewrite opval_mult by lia. specialize (HV' env Hok).
    change (prodZ [] env) with 1 in HV'. rewrite Z.mul_1_r in HV'. unfold eqm in HV', Ev. rewrite <- HV', <- Ev. symmetry. by apply wrap_small. }
  destruct (multOperands w neg c chs) as (neg'&out&ret&E&Hout&Hret&HVo); [done|done|done|done|lia|lia|].
  apply bind_Some in E as (noValue&E1&E). rewrite E1. cbn [mbind option_bind]. apply bind_Some in E as ([neg1 out1]&E2&E).
  rewrite new_small in E2 by lia. rewrite E2. cbn [mbind option_bind].
  apply bind_Some in E as (ret1&E3&E). injection E as -> -> ->. rewrite E3. cbn [mbind option_bind]. eexists. split; [done|].
  pose proof (signedFactor ret w neg' _ Hret) as Hsf. split.
  - eapply equiv_bv; [exact HN|exact Hsf|]. intros env Hok _. cbv beta. rewrite opval_mult by lia.
    specialize (HVo env Hok). specialize (HV' env Hok). unfold eqm in HVo, HV'. congruence.
  - right. destruct (neg' && _); [by left|]. right. exists chs.
    assert (Forall (λ m, isConstBV m = false ∧ (nsize m < nsize (mkNode BITVECTOR_MULT cs))%nat) chs) as HF'.
    { eapply list.Forall_impl; [exact HF|]. intros m (Hm1&m'&Hin&Hs). split; [done|]. pose proof (nsize_child BITVECTOR_MULT cs m' Hin). lia. }
    destruct Hout as [-> |[v ->]]; [exists (cst w 0)|exists (cst w v)]; split_and!; try done; [by left|by right].
Qed.

Lemma multSimplify_ok : rule_ok MultSimplify.
Proof. intros n τ Hn _ Hap. destruct (multSimplify_result n τ Hn Hap) as (n'&E&He&_). eauto. Qed.

(** A product that [MultSimplify] leaves alone has at most one constant. *)
Lemma multSimplify_fixed n τ : wt n τ → isKind BITVECTOR_MULT n = true → apply MultSimplify n = Some n →
  (length (filter (λ c, isConst c) (children n)) ≤ 1)%nat.
Proof.
  intros Hn Hk Hfix. destruct (multSimplify_result n τ Hn Hk) as (n'&E&_&Hres). rewrite Hfix in E. injection E as <-. kind_of Hk.
  destruct (nary_operands cs τ Hn) as (w&->&Hw&Hcs&Hl&Hm). destruct Hres as [Hc|[Hc|(chs&v&HF&Hr&Hne)]]; [done..|].
  pose proof (sortNodes_perm chs) as HP.
  assert (∃ ds, cs = sortNodes chs ++ ds ∧ (length ds ≤ 1)%nat) as (ds&->&Hds).
  { assert (∀ l, mkNaryNode BITVECTOR_MULT l = Some (mkNode BITVECTOR_MULT cs) → l = cs ∨ l = [mkNode BITVECTOR_MULT cs]) as Hinv.
    { intros l Hl'. unfold mkNaryNode in Hl'. apply bind_Some in Hl' as (_&_&Hl'). destruct l as [|x [|y l]]; injection Hl' as Hl'; subst; auto. }
    assert (∀ ds, sortNodes chs ++ ds = [mkNode BITVECTOR_MULT cs] → False) as Hno.
    { intros ds Hds. destruct (sortNodes chs) as [|x l] eqn:Ex; [by apply Permutation_nil_l in HP|]. injection Hds as -> _.
      assert (mkNode BITVECTOR_MULT cs ∈ chs) as Hin by (rewrite <- HP; by left). eapply list.Forall_forall in HF; [|exact Hin]. lia. }
    destruct Hr as [Hr|Hr]; apply Hinv in Hr as [Hr|Hr].
    - exists []. rewrite app_nil_r. split; [done|simpl; lia].
    - destruct (Hno []). by rewrite app_nil_r.
    - exists [v]. split; [done|simpl; lia].
    - by destruct (Hno [v]). }
  cbn [children]. rewrite filter_app, length_app. assert (filter (λ c, isConst c) (sortNodes chs) = []) as ->.
  { destruct (filter _ (sortNodes chs)) as [|x l] eqn:Ex; [done|]. exfalso.
    assert (x ∈ filter (λ c, isConst c) (sortNodes chs)) as [Hxc Hxin]%list_elem_of_filter by (rewrite Ex; by left).
    rewrite list.Forall_app in Hcs || apply Forall_app in Hcs. destruct Hcs as [Hcs _]. eapply list.Forall_forall in Hcs; [|exact Hxin].
    rewrite HP in Hxin. eapply list.Forall_forall in HF; [|exact Hxin]. destruct HF as [HF _]. apply Is_true_true in Hxc.
    destruct (const_cst x w _ Hxc (wt_bvterm _ _ Hcs)) as (v'&->&_). done. }
  pose proof (length_filter (λ c, isConst c) ds). simpl. lia.
Qed.

End sound.

(** * Soundness of [AddCombineLikeTerms]: the map from terms to coefficients has
    the value of the sum, modulo two to the width. *)

(** ** What the rule relies on *)

(** No product has as many operands as a node can have, so that it can get a
    coefficient. *)
Fixpoint multsSmall (n : Node) : bool :=
  match n with
  | mkNode k cs =>
      (if decide (k = BITVECTOR_MULT) then bool_decide (Z.of_nat (length cs) < MAX_CHILDREN) else true) && forallb multsSmall cs
  | _ => true
  end.

(** The constants of a product are at its end: [MultSimplify] has put them there. *)
Definition multNormal (n : Node) : bool :=
  match n with
  | mkNode BITVECTOR_MULT cs => forallb (λ c, negb (isConst c)) (take (length cs - 1) cs)
  | _ => true
  end.

Definition sum_guard (n : Node) : Prop :=
  forallb multNormal (children n) = true ∧ multsSmall n = true ∧ 2 * Z.of_nat (length (children n)) + 1 ≤ MAX_CHILDREN.

Lemma multsSmall_child k cs c : multsSmall (mkNode k cs) = true → c ∈ cs → multsSmall c = true.
Proof.
  cbn [multsSmall]. intros [_ H]%andb_true_iff Hc. rewrite forallb_forall in H. apply H. by apply list_elem_of_In.
Qed.

Lemma multsSmall_mult cs : multsSmall (mkNode BITVECTOR_MULT cs) = true → Z.of_nat (length cs) < MAX_CHILDREN.
Proof. cbn [multsSmall]. rewrite decide_True by done. by intros [H%bool_decide_eq_true _]%andb_true_iff. Qed.

Section sound.
Context `{!Gmp, !GmpLaws, !NodeIds, !NodeIdsLaws, !HashOrder, !HashOrderLaws}.

(** ** The map *)

Definition entry_ok (w : Z) (p : Node * BitVector) : Prop :=
  wt p.1 (BITVECTOR_TYPE w) ∧ multsSmall p.1 = true ∧ d_size p.2 = w ∧ 0 ≤ d_value p.2 < 2 ^ w.

Definition mapZ (m : list (Node * BitVector)) (env : Env) : Z := foldr (λ p x, d_value p.2 * bv_of p.1 env + x) 0 m.

Lemma addToCoefMap_spec w m t v : 0 < w ≤ max_uint32 → Forall (entry_ok w) m → wt t (BITVECTOR_TYPE w) → multsSmall t = true → 0 ≤ v < 2 ^ w →
  ∃ m', addToCoefMap m t (mkBitVector w v) = Some m' ∧ Forall (entry_ok w) m' ∧ (length m' ≤ S (length m))%nat ∧
    ∀ env, eqm w (mapZ m' env) (mapZ m env + v * bv_of t env).
Proof.
  intros Hw Hm Ht Hs Hv. assert (entry_ok w (t, mkBitVector w v)) as Hnew by done.
  induction Hm as [|[t' [w' v']] m Hp Hm IH]; cbn [addToCoefMap].
  - eexists. split; [done|]. split_and!; [by apply Forall_singleton|simpl; lia|]. intros env. cbn. f_equal. lia.
  - destruct (node_lt t t') eqn:E1; [|destruct (node_lt t' t) eqn:E2].
    + eexists. split; [done|]. split_and!; [repeat (constructor; [done|]); done|simpl; lia|]. intros env. cbn [mapZ foldr fst snd d_value]. f_equal. lia.
    + destruct IH as (m'&->&Hm'&Hl&HV). cbn [mbind option_bind]. eexists. split; [done|]. split_and!; [by constructor|simpl; lia|].
      intros env. cbn [mapZ foldr fst snd d_value]. fold (mapZ m' env) (mapZ m env). etrans; [apply eqm_plus; [lia|done|apply HV]|]. f_equal. lia.
    + unfold node_lt in E1, E2. apply bool_decide_eq_false in E1, E2. assert (t' = t) as -> by (apply nodeId_inj; lia).
      destruct Hp as (Hpt&Hps&Hsz&Hpv). cbn [fst snd d_size d_value] in *. subst w'. rewrite add_spec by (by split). cbn [mbind option_bind d_size d_value].
      eexists. split; [done|]. split_and!; [constructor; [|done]; split_and!; try done; cbn; apply wrap_bound; lia|simpl; lia|].
      intros env. cbn [mapZ foldr fst snd d_value]. fold (mapZ m env).
      etrans; [apply eqm_plus; [lia|apply eqm_times; [lia|apply eqm_wrap; lia|done]|done]|]. f_equal. ring.
Qed.

(** ** The coefficient and the term of a product *)

(** [v] times [t] has the value of [n]. *)
Definition multiple (w : Z) (n : Node) (v : Z) (t : Node) : Prop :=
  0 ≤ v < 2 ^ w ∧ wt t (BITVECTOR_TYPE w) ∧ multsSmall t = true ∧
  ∀ env, env_ok env → eqm w (v * bv_of t env) (bv_of n env).

Lemma multiple_one w n : 0 < w → wt n (BITVECTOR_TYPE w) → multsSmall n = true → multiple w n 1 n.
Proof using Type. intros Hw Hn Hs. pose proof (pow2_gt1 w Hw). split_and!; try done. intros env _. f_equal. lia. Qed.

Lemma multsSmall_init k cs c : multsSmall (mkNode k (cs ++ [c])) = true → multsSmall (mkNode k cs) = true.
Proof using Type.
  cbn [multsSmall]. rewrite forallb_app. intros [Hl [Hc _]%andb_true_iff]%andb_true_iff. apply andb_true_iff. split; [|done].
  destruct (decide (k = _)); [|done]. apply bool_decide_eq_true in Hl. apply bool_decide_eq_true. rewrite length_app in Hl. simpl in Hl. lia.
Qed.

Lemma coeffAndTerm_spec w cs : wt (mkNode BITVECTOR_MULT cs) (BITVECTOR_TYPE w) → multNormal (mkNode BITVECTOR_MULT cs) = true →
  multsSmall (mkNode BITVECTOR_MULT cs) = true →
  ∃ v t, coeffAndTerm (mkNode BITVECTOR_MULT cs) w = Some (mkBitVector w v, t) ∧ multiple w (mkNode BITVECTOR_MULT cs) v t.
Proof.
  intros Hn Hnf Hs. destruct (nary_operands cs _ Hn) as (w'&[= <-]&Hw&Hcs&Hl&Hm). pose proof (pow2_gt1 w ltac:(lia)).
  pose proof (multiple_one w _ ltac:(lia) Hn Hs) as Hself.
  destruct (last cs) as [c|] eqn:El; [|apply last_None in El as ->; simpl in Hl; lia]. apply last_Some in El as [init ->].
  pose proof (bv_opval (k:=BITVECTOR_MULT) w _ Hcs Hl Hm) as HN.
  assert (∀ t v, c = cst w v → 0 ≤ v < 2 ^ w → wt t (BITVECTOR_TYPE w) → multsSmall t = true → (∀ env, env_ok env → eqm w (bv_of t env) (prodZ init env)) →
    multiple w (mkNode BITVECTOR_MULT (init ++ [c])) v t) as Hconst.
  { intros t v -> Hv Ht Hts Htv. split_and!; try done; try lia. intros env Hok. rewrite (bv_of_term _ _ _ env HN Hok), opval_mult by lia.
    symmetry. etrans; [apply eqm_wrap; lia|]. rewrite prodZ_snoc, bv_of_cst, Z.mul_comm. apply eqm_times; [lia|done|]. symmetry. by apply Htv. }
  apply Forall_app in Hcs as [Hi Hc]. apply list.Forall_cons in Hc as [Hc _]. rewrite length_app in Hl, Hm. cbn [length] in Hl, Hm.
  unfold coeffAndTerm. cbn [children]. rewrite last_snoc. unfold getNumChildren. cbn [children multNormal] in *.
  rewrite length_app. cbn [length]. rewrite length_app in Hnf. cbn [length] in Hnf.
  replace (length init + 1 - 1)%nat with (length init) in * by lia. rewrite take_app_length in *.
  assert ((isConst c = false) ∨ ∃ v, c = cst w v ∧ 0 ≤ v < 2 ^ w) as Hcc.
  { destruct (isConst c) eqn:Ec; [right|by left]. exact (const_cst c w _ Ec (wt_bvterm _ _ Hc)). }
  rewrite new_small by lia. case_decide as Htwo.
  - destruct init as [|a []]; try (simpl in Htwo; lia). cbn [child children app lookup list_lookup mbind option_bind]. cbn [forallb] in Hnf.
    apply andb_true_iff in Hnf as [Hna _]. norm. rewrite Hna. cbn [assert mbind option_bind].
    destruct Hcc as [-> |(v&->&Hv)]; [by exists 1, (mkNode BITVECTOR_MULT [a; c])|]. cbn. exists v, a. split; [done|].
    apply list.Forall_cons in Hi as [Ha _]. apply Hconst; try done; [by eapply multsSmall_child; [exact Hs|left]|]. intros env _. cbn. f_equal. lia.
  - destruct Hcc as [-> |(v&->&Hv)]; [by exists 1, (mkNode BITVECTOR_MULT (init ++ [c]))|]. cbn [isConst cst]. rewrite Hnf. cbn.
    exists v, (mkNode BITVECTOR_MULT init). split; [done|].
    pose proof (bv_opval (k:=BITVECTOR_MULT) w init Hi ltac:(lia) ltac:(lia)) as HI. pose proof HI as (Hit&_).
    apply Hconst; try done; [by eapply multsSmall_init|]. intros env Hok. rewrite (bv_of_term _ _ _ env HI Hok), opval_mult by lia. apply eqm_wrap. lia.
Qed.

(** ** One operand of the sum *)

(** A map of at most [d] more entries, with the value [f] added. *)
Definition grown (w : Z) (m : list (Node * BitVector)) (d : nat) (f : Env → Z) (m' : list (Node * BitVector)) : Prop :=
  Forall (entry_ok w) m' ∧ (length m' ≤ d + length m)%nat ∧ ∀ env, env_ok env → eqm w (mapZ m' env) (mapZ m env + f env).

Lemma add_term w m t v n : 0 < w ≤ max_uint32 → Forall (entry_ok w) m → multiple w n v t →
  ∃ m', addToCoefMap m t (mkBitVector w v) = Some m' ∧ grown w m 2 (bv_of n) m'.
Proof.
  intros Hw Hm (Hv&Ht&Hs&HV). destruct (addToCoefMap_spec w m t v Hw Hm Ht Hs Hv) as (m'&E&Hm'&Hl&HE).
  exists m'. split; [done|]. split_and!; [done|lia|]. intros env Hok. etrans; [apply HE|]. apply eqm_plus; [lia|done|by apply HV].
Qed.

Lemma add_sub w m a b v n : 0 < w ≤ max_uint32 → Forall (entry_ok w) m → multiple w n v (mkNode2 BITVECTOR_SUB a b) →
  ∃ m1 m', addToCoefMap m a (mkBitVector w v) = Some m1 ∧ addToCoefMap m1 b (mkBitVector w (wrap w (- v))) = Some m' ∧ grown w m 2 (bv_of n) m'.
Proof.
  intros Hw Hm (Hv&Ht&Hs&HV).
  destruct (fixed2_terms BITVECTOR_SUB _ _ (λ _, eq_refl) (λ _, eq_refl) Ht) as (a'&b'&w'&[= <- <-]&[= <-]&Ha&Hb). pose proof Ha as (Hat&_). pose proof Hb as (Hbt&_).
  destruct (addToCoefMap_spec w m a v Hw Hm Hat) as (m1&E1&Hm1&Hl1&HE1); [eapply multsSmall_child; [exact Hs|by left]|done|].
  destruct (addToCoefMap_spec w m1 b (wrap w (- v)) Hw Hm1 Hbt) as (m2&E2&Hm2&Hl2&HE2); [eapply multsSmall_child; [exact Hs|by right; left]|apply wrap_bound; lia|].
  exists m1, m2. split; [done|]. split; [done|]. split_and!; [done|lia|]. intros env Hok. etrans; [apply HE2|]. etrans; [apply eqm_plus; [lia|apply HE1|apply eqm_times; [lia|apply eqm_wrap; lia|done]]|].
  etrans; [|apply eqm_plus; [lia|done|apply HV; done]]. rewrite (bv_of_term _ _ _ env (bv_sub _ _ _ _ _ Ha Hb) Hok).
  etrans; [|apply eqm_plus; [lia|done|apply eqm_times; [lia|done|symmetry; apply eqm_wrap; lia]]]. f_equal. ring.
Qed.

Lemma add_neg w m a v n : 0 < w ≤ max_uint32 → Forall (entry_ok w) m → multiple w n v (mkNode1 BITVECTOR_NEG a) →
  ∃ m', addToCoefMap m a (mkBitVector w (wrap w (- v))) = Some m' ∧ grown w m 2 (bv_of n) m'.
Proof.
  intros Hw Hm (Hv&Ht&Hs&HV).
  destruct (fixed1_terms BITVECTOR_NEG _ _ (λ _, eq_refl) (λ _, eq_refl) Ht) as (a'&w'&[= <-]&[= <-]&Ha). pose proof Ha as (Hat&_).
  destruct (addToCoefMap_spec w m a (wrap w (- v)) Hw Hm Hat) as (m2&E2&Hm2&Hl2&HE2); [eapply multsSmall_child; [exact Hs|by left]|apply wrap_bound; lia|].
  exists m2. split; [done|]. split_and!; [done|lia|]. intros env Hok. etrans; [apply HE2|]. apply eqm_plus; [lia|done|].
  etrans; [apply eqm_times; [lia|apply eqm_wrap; lia|done]|]. etrans; [|by apply HV]. rewrite (bv_of_term _ _ _ env (bv_neg _ _ _ Ha) Hok).
  etrans; [|apply eqm_times; [lia|done|symmetry; apply eqm_wrap; lia]]. f_equal. ring.
Qed.

(** The match on the term of a product, and on an operand that is not a product. *)
Lemma add_match w m v t n : 0 < w ≤ max_uint32 → Forall (entry_ok w) m → multiple w n v t → ∀ constSum : BitVector,
  ∃ m', (match t with
      | mkNode BITVECTOR_SUB _ =>
          a ← child t 0; b ← child t 1;
          m ← addToCoefMap m a (mkBitVector w v);
          ncoeff ← BV.neg (mkBitVector w v); m ← addToCoefMap m b ncoeff; Some (m, constSum)
      | mkNode BITVECTOR_NEG _ =>
          a ← child t 0;
          ncoeff ← BV.neg (mkBitVector w v);
          m ← addToCoefMap m a ncoeff; Some (m, constSum)
      | _ => m ← addToCoefMap m t (mkBitVector w v); Some (m, constSum)
      end) = Some (m', constSum) ∧ grown w m 2 (bv_of n) m'.
Proof.
  intros Hw Hm Hmul cS. pose proof Hmul as (Hv&Ht&_). destruct (isKind BITVECTOR_SUB t) eqn:Hk1; [|destruct (isKind BITVECTOR_NEG t) eqn:Hk2].
  - kind_of Hk1. destruct (fixed2_terms BITVECTOR_SUB _ _ (λ _, eq_refl) (λ _, eq_refl) Ht) as (a&b&w'&->&_&_&_).
    destruct (add_sub w m a b v n Hw Hm Hmul) as (m1&m'&E1&E2&Hg). norm. rewrite E1, cst_neg by done. cbn [mbind option_bind]. rewrite E2. by exists m'.
  - kind_of Hk2. destruct (fixed1_terms BITVECTOR_NEG _ _ (λ _, eq_refl) (λ _, eq_refl) Ht) as (a&w'&->&_&_).
    destruct (add_neg w m a v n Hw Hm Hmul) as (m'&E1&Hg). norm. rewrite cst_neg by done. cbn [mbind option_bind]. rewrite E1. by exists m'.
  - destruct (add_term w m t v n Hw Hm Hmul) as (m'&E&Hg). exists m'. split; [|done]. destruct t as [| | | |[] ]; try done; by rewrite E.
Qed.

(** A step from [(m, s)] that adds [f]. *)
Definition stepped (w : Z) (m : list (Node * BitVector)) (s : Z) (d : nat) (f : Env → Z) (st : list (Node * BitVector) * BitVector) : Prop :=
  ∃ m' s', st = (m', mkBitVector w s') ∧ 0 ≤ s' < 2 ^ w ∧ Forall (entry_ok w) m' ∧ (length m' ≤ d + length m)%nat ∧
    ∀ env, env_ok env → eqm w (mapZ m' env + s') (mapZ m env + s + f env).

Lemma grown_stepped w m s d f m' : 0 ≤ w → 0 ≤ s < 2 ^ w → grown w m d f m' → stepped w m s d f (m', mkBitVector w s).
Proof using Type.
  intros Hw Hs (Hm&Hl&HV). exists m', s. split_and!; try done; try lia. intros env Hok.
  etrans; [apply eqm_plus; [done|by apply HV|done]|]. f_equal. lia.
Qed.

Lemma updateCoefMap_spec w m s n : 0 < w ≤ max_uint32 → Forall (entry_ok w) m → 0 ≤ s < 2 ^ w →
  wt n (BITVECTOR_TYPE w) → multNormal n = true → multsSmall n = true →
  ∃ st, updateCoefMap n w (m, mkBitVector w s) = Some st ∧ stepped w m s 2 (bv_of n) st.
Proof.
  intros Hw Hm Hs Hn Hnf Hsm. pose proof (pow2_gt1 w ltac:(lia)). destruct (isKind BITVECTOR_MULT n) eqn:Hk; [|destruct (isConst n) eqn:Hc].
  - kind_of Hk. destruct (coeffAndTerm_spec w cs Hn Hnf Hsm) as (v&t&E&Hmul). cbn [updateCoefMap]. rewrite E. cbn [mbind option_bind].
    pose proof Hmul as (Hv&_). destruct (add_match w m v t _ Hw Hm Hmul (mkBitVector w s)) as (m'&E'&Hg).
    exists (m', mkBitVector w s). split; [|apply grown_stepped; done || lia].
    etrans; [|exact E']. unfold BV.getValue. cbn [d_value]. rewrite new_small by lia. done.
  - destruct (const_cst n w _ Hc (wt_bvterm _ _ Hn)) as (v&->&Hv). cbn [updateCoefMap cst]. rewrite add_spec by (by split). cbn [mbind option_bind d_size d_value].
    eexists. split; [done|]. exists m, (wrap w (s + v)). split_and!; try done; try (apply wrap_bound; lia); try lia. intros env _. rewrite bv_of_cst.
    etrans; [apply eqm_plus; [lia|done|apply eqm_wrap; lia]|]. f_equal. lia.
  - destruct (add_match w m 1 n _ Hw Hm (multiple_one w n ltac:(lia) Hn Hsm) (mkBitVector w s)) as (m'&E'&Hg).
    exists (m', mkBitVector w s). split; [|apply grown_stepped; done || lia]. unfold updateCoefMap. rewrite new_small by lia.
    destruct (isKind BITVECTOR_SUB n) eqn:Hks.
    + kind_of Hks. destruct (fixed2_terms BITVECTOR_SUB _ _ (λ _, eq_refl) (λ _, eq_refl) Hn) as (a&b&w'&->&_&_&_). exact E'.
    + rewrite <- E'. destruct n as [| | | |[] ]; done.
Qed.

Lemma collectCoefs_spec w cs : ∀ m s, 0 < w ≤ max_uint32 → wts w cs → Forall (entry_ok w) m → 0 ≤ s < 2 ^ w →
  forallb multNormal cs = true → forallb multsSmall cs = true →
  ∃ st, collectCoefs cs w (m, mkBitVector w s) = Some st ∧ stepped w m s (2 * length cs) (sumZ cs) st.
Proof.
  induction cs as [|c cs IH]; intros m s Hw Hcs Hm Hs Hnf Hsm; cbn [collectCoefs].
  - eexists. split; [done|]. exists m, s. split_and!; try done; try (simpl; lia). intros env _. f_equal. cbn. lia.
  - apply list.Forall_cons in Hcs as [Hc Hcs]. cbn [forallb] in Hnf, Hsm. apply andb_true_iff in Hnf as [Hcn Hnf], Hsm as [Hcsm Hsm].
    destruct (updateCoefMap_spec w m s c Hw Hm Hs Hc Hcn Hcsm) as (st&->&m'&s'&->&Hs'&Hm'&Hl'&HV'). cbn [mbind option_bind].
    destruct (IH m' s' Hw Hcs Hm' Hs' Hnf Hsm) as (st&->&m2&s2&->&Hs2&Hm2&Hl2&HV2).
    eexists. split; [done|]. exists m2, s2. split_and!; try done; try lia; try (simpl; lia). intros env Hok. etrans; [by apply HV2|].
    etrans; [apply eqm_plus; [lia|by apply HV'|done]|]. f_equal. cbn [sumZ foldr]. unfold sumZ. lia.
Qed.

(** ** The operands of the new sum *)

(** [term] times [coeff] is added to the operands. *)
Lemma addToChildren_spec w t v acc : 0 < w ≤ max_uint32 → entry_ok w (t, mkBitVector w v) →
  ∃ ds, addToChildren t w (mkBitVector w v) acc = Some (acc ++ ds) ∧ (length ds ≤ 1)%nat ∧ wts w ds ∧
    ∀ env, env_ok env → eqm w (sumZ ds env) (v * bv_of t env).
Proof.
  intros Hw (Ht&Hs&_&Hv). cbn [fst snd d_value] in *. pose proof (pow2_gt1 w ltac:(lia)). unfold addToChildren. rewrite !eq_new by lia.
  destruct (decide (v = 0)) as [->|H0'].
  { rewrite bool_decide_true by done. exists []. rewrite app_nil_r. split_and!; try done; try (simpl; lia); constructor. }
  rewrite bool_decide_false by done. destruct (decide (v = 1)) as [->|H1'].
  { rewrite bool_decide_true by done. exists [t]. split_and!; try done; [by apply Forall_singleton|]. intros env _. cbn. f_equal. lia. }
  rewrite bool_decide_false by done. rewrite new_small, cst_neg by lia. cbn [mbind option_bind]. rewrite eq_bv.
  assert (∀ d, wt d (BITVECTOR_TYPE w) → (∀ env, env_ok env → eqm w (bv_of d env) (v * bv_of t env)) →
    ∃ ds, Some (acc ++ [d]) = Some (acc ++ ds) ∧ (length ds ≤ 1)%nat ∧ wts w ds ∧ ∀ env, env_ok env → eqm w (sumZ ds env) (v * bv_of t env)) as Hone.
  { intros d Hd HV. exists [d]. split_and!; try done; [by apply Forall_singleton|]. intros env Hok. etrans; [|by apply HV]. f_equal. cbn. lia. }
  destruct (decide (v = wrap w (- 1))) as [Ev|Ev]; [rewrite bool_decide_true by done|rewrite bool_decide_false by done].
  { apply Hone; [by apply (value_neg t w env0 Ht env0_ok)|]. intros env Hok. destruct (value_neg t w env Ht Hok) as [_ E]. etrans; [exact E|].
    rewrite Ev. symmetry. etrans; [apply eqm_times; [lia|apply eqm_wrap; lia|done]|]. f_equal; lia. }
  pose proof (bv_cst w v Hw Hv) as (Hct&_). fold (cst w v) || change (utils.mkConstOf (mkBitVector w v)) with (cst w v).
  destruct (isKind BITVECTOR_MULT t) eqn:Hk.
  - kind_of Hk. destruct (nary_operands cs _ Ht) as (w'&[= <-]&_&Hcs&Hl&Hm). cbn [children].
    assert (wts w (cs ++ [cst w v])) as Hcs' by (apply Forall_app; split; [done|by apply Forall_singleton]).
    pose proof (multsSmall_mult _ Hs) as Hlt.
    pose proof (bv_opval (k:=BITVECTOR_MULT) w _ Hcs' ltac:(rewrite length_app; simpl; lia) ltac:(rewrite length_app; simpl; lia)) as HN.
    apply Hone; [by destruct HN|]. intros env Hok. rewrite (bv_of_term _ _ _ env HN Hok), (bv_of_term _ _ _ env (bv_opval (k:=BITVECTOR_MULT) w _ Hcs Hl Hm) Hok), !opval_mult by lia.
    etrans; [apply eqm_wrap; lia|]. rewrite prodZ_snoc, bv_of_cst, Z.mul_comm. apply eqm_times; [lia|done|symmetry; apply eqm_wrap; lia].
  - apply Hone; [by apply (value_mult2 t _ w env0 Ht Hct env0_ok)|]. intros env Hok. destruct (value_mult2 t _ w env Ht Hct Hok) as [_ E].
    etrans; [exact E|]. rewrite bv_of_cst. f_equal. lia.
Qed.

Lemma sumZ_app cs ds env : sumZ (cs ++ ds) env = sumZ cs env + sumZ ds env.
Proof using Type. induction cs as [|c cs IH]; cbn [app sumZ foldr]; unfold sumZ in *; lia. Qed.

Lemma buildChildren_spec w m : ∀ acc, 0 < w ≤ max_uint32 → Forall (entry_ok w) m →
  ∃ ds, buildChildren m w acc = Some (acc ++ ds) ∧ (length ds ≤ length m)%nat ∧ wts w ds ∧ ∀ env, env_ok env → eqm w (sumZ ds env) (mapZ m env).
Proof.
  induction m as [|[t [w' v]] m IH]; intros acc Hw Hm; cbn [buildChildren].
  - exists []. rewrite app_nil_r. split_and!; try done. constructor.
  - apply list.Forall_cons in Hm as [He Hm]. assert (w' = w) as -> by (by destruct He as (_&_&?&_)).
    destruct (addToChildren_spec w t v acc Hw He) as (ds&->&Hl&Hds&HV). cbn [mbind option_bind].
    destruct (IH (acc ++ ds) Hw Hm) as (es&->&Hl2&Hes&HV2). exists (ds ++ es). rewrite app_assoc. split_and!; [done|rewrite length_app; simpl; lia|by apply Forall_app|].
    intros env Hok. rewrite sumZ_app. apply eqm_plus; [lia|by apply HV|by apply HV2].
Qed.

Lemma addCombineLikeTerms_sound n τ : wt n τ → sum_guard n → isKind BITVECTOR_ADD n = true →
  ∃ n', apply AddCombineLikeTerms n = Some n' ∧ equiv n n'.
Proof.
  intros Hn (Hnf&Hsm&Hlen) Hk. kind_of Hk. destruct (nary_operands cs _ Hn) as (w&->&Hw&Hcs&Hl&Hm). pose proof (pow2_gt1 w ltac:(lia)).
  pose proof (bv_opval (k:=BITVECTOR_ADD) w cs Hcs Hl Hm) as HN. cbn [apply AddCombineLikeTerms children] in *.
  rewrite (getSize_term _ _ _ HN). cbn [mbind option_bind]. rewrite !new_small by lia.
  cbn [multsSmall] in Hsm. apply andb_true_iff in Hsm as [_ Hsm].
  destruct (collectCoefs_spec w cs [] 0 Hw Hcs ltac:(constructor) ltac:(lia) Hnf Hsm) as (st&->&m&s&->&Hs&Hme&Hml&HV). cbn [mbind option_bind].
  destruct (buildChildren_spec w m [] Hw Hme) as (ds&->&Hdl&Hds&HVd). cbn [mbind option_bind app]. rewrite eq_bv.
  pose proof (bv_cst w s Hw Hs) as (Hst&_). change (utils.mkConstOf (mkBitVector w s)) with (cst w s).
  set (es := if negb (bool_decide (s = 0)) then ds ++ [cst w s] else ds).
  assert (wts w es ∧ (length es ≤ S (length ds))%nat ∧ ∀ env, sumZ es env = sumZ ds env + s) as (Hes&Hel&HVe).
  { subst es. destruct (bool_decide_reflect (s = 0)) as [->|]; cbn [negb].
    - split_and!; [done|lia|]. intros. lia.
    - split_and!; [apply Forall_app; split; [done|by apply Forall_singleton]|rewrite length_app; simpl; lia|]. intros env. rewrite sumZ_app. cbn. lia. }
  assert (∀ n', bvterm n' w (opval (λ x y, wrap w (x + y)) 0 es) → equiv (mkNode BITVECTOR_ADD cs) n') as Heq.
  { intros n' Hn'. eapply equiv_bv; [exact HN|exact Hn'|]. intros env Hok _. rewrite !opval_add, HVe by lia.
    change (eqm w (sumZ ds env + s) (sumZ cs env)). etrans; [apply eqm_plus; [lia|by apply HVd|done]|]. etrans; [by apply HV|]. f_equal; cbn; lia. }
  case_decide; [eexists; split; [done|]; by eapply equiv_refl|]. case_decide as Hnil.
  - apply nil_length_inv in Hnil. rewrite mkZero_cst by lia. eexists. split; [done|]. apply Heq. rewrite Hnil. exact (bv_cst w 0 Hw ltac:(lia)).
  - destruct (mkNaryNode_term (k:=BITVECTOR_ADD) w es) as (n'&->&Hn'); [rewrite !elem_of_cons; tauto|done|by intros Hnil'; rewrite Hnil' in Hnil|simpl in *; lia|]. eauto.
Qed.

End sound.
