(* ===== verification/BvCountSound.v ===== *)
(** Soundness of [AndSimplify], [OrSimplify] and [XorSimplify]: the counted
    operands stand for a list with repetitions, of which the operator keeps what
    its laws say; and of the rules that slice bitwise operators. *)
From stdpp Require Import base option list numbers sorting.
From S2P Require Import Prelude Integer Node TypeRules Semantics BvArith TypeSound BitVectorUtil BvElim BvTerms BvElimArith BvElimSound BvConst BvConstSound BvCore BvCoreSound BvSimplify BvAssoc BvSimplifySound BvSimplifyArith BvSimplifyArithSound BvNormalize BvNormalizeBits BvNormalizeSound BvProductSound.
Open Scope Z_scope.

(** ** Counted operands *)

(** The operands the counters stand for. *)
Definition counted (p : Node * Count) : list Node :=
  replicate (BvNormalize.pos p.2) p.1 ++ replicate (BvNormalize.neg p.2) (mkNode1 BITVECTOR_NOT p.1).
Definition countedAll (m : list (Node * Count)) : list Node := mbind counted m.

Definition count_ok (w : Z) (p : Node * Count) : Prop :=
  wt p.1 (BITVECTOR_TYPE w) ∧ (0 < BvNormalize.pos p.2 + BvNormalize.neg p.2)%nat ∧
  ((0 < BvNormalize.pos p.2)%nat → isConstBV p.1 = false).

Lemma not_wt a w : wt a (BITVECTOR_TYPE w) → wt (mkNode1 BITVECTOR_NOT a) (BITVECTOR_TYPE w).
Proof. intros Ha. by destruct (bv_not _ _ _ (wt_bvterm _ _ Ha)). Qed.

Lemma wts_replicate w n k : wt n (BITVECTOR_TYPE w) → wts w (replicate k n).
Proof. intros Hn. by apply Forall_replicate. Qed.

Lemma counted_wts w p : count_ok w p → wts w (counted p).
Proof. intros [Hn _]. apply Forall_app. split; apply wts_replicate; [done|by apply not_wt]. Qed.

Lemma countedAll_wts w m : Forall (count_ok w) m → wts w (countedAll m).
Proof.
  induction 1 as [|p m Hp _ IH]; [constructor|]. apply Forall_app. split; [by apply counted_wts|done].
Qed.

Lemma countedAll_perm l m : l ≡ₚ m → countedAll l ≡ₚ countedAll m.
Proof. intros HP. unfold countedAll. by rewrite HP. Qed.

(** [insertCount] adds one operand. *)
Lemma insertCount_spec w m n (neg : bool) : wt n (BITVECTOR_TYPE w) → (neg = false → isConstBV n = false) → Forall (count_ok w) m →
  Forall (count_ok w) (insertCount m n neg) ∧ (length (insertCount m n neg) ≤ S (length m))%nat ∧
  countedAll (insertCount m n neg) ≡ₚ (if neg then mkNode1 BITVECTOR_NOT n else n) :: countedAll m.
Proof.
  intros Hn Hc. induction 1 as [|[n' [p q]] m (Hp&Hpq&Hpc) Hm IH]; cbn [insertCount].
  - split_and!; [apply Forall_singleton; split_and!; [done|destruct neg; simpl; lia|destruct neg; simpl; [lia|by intros; apply Hc]]|done|destruct neg; done].
  - destruct (decide (n' = n)) as [->|Hne].
    + split_and!; [constructor; [|done]; split_and!; [done|destruct neg; simpl in *; lia|destruct neg; [done|by intros; apply Hc]]|simpl; lia|]. cbn [countedAll mbind list_bind].
      destruct neg; unfold counted; cbn [BvNormalize.pos BvNormalize.neg fst snd replicate app]; [|done].
      rewrite <- !app_assoc. cbn [app]. by rewrite <- Permutation_middle.
    + destruct IH as (IH1&IH2&IH3). split_and!; [by constructor|simpl; lia|]. cbn [countedAll mbind list_bind]. fold (countedAll m).
      unfold countedAll in IH3. rewrite IH3. by rewrite <- Permutation_middle.
Qed.

Lemma countTerm_spec w m n : wt n (BITVECTOR_TYPE w) → isConstBV n = false → Forall (count_ok w) m →
  ∃ m', countTerm m n = Some m' ∧ Forall (count_ok w) m' ∧ (length m' ≤ S (length m))%nat ∧ countedAll m' ≡ₚ n :: countedAll m.
Proof.
  intros Hn Hc Hm. destruct (isKind BITVECTOR_NOT n) eqn:Hk.
  - kind_of Hk. destruct (not_terms cs _ Hn) as (a&w'&->&[= <-]&Ha). destruct Ha as (Hat&_). exists (insertCount m a true). split; [done|].
    by apply insertCount_spec.
  - exists (insertCount m n false). split; [|by apply insertCount_spec]. by destruct n as [| | | |[] ].
Qed.

Section sound.
Context `{!Gmp, !GmpLaws, !NodeIds, !NodeIdsLaws, !HashOrder, !HashOrderLaws}.

(** ** The loop over the operands *)

Section loops.
Context (w : Z) (g : Z → Z → Z) (e : Z) (op : BitVector → BitVector → option BitVector).
Hypothesis Hw : 0 < w ≤ max_uint32.
Hypothesis Hg : comm_op w g e.
Hypothesis Hop : ∀ x y, 0 ≤ x < 2 ^ w → 0 ≤ y < 2 ^ w → op (mkBitVector w x) (mkBitVector w y) = Some (mkBitVector w (g x y)).

Lemma countLoop_spec cs : ∀ m c, wts w cs → Forall (count_ok w) m → 0 ≤ c < 2 ^ w →
  ∃ m' c', countLoop op cs m (mkBitVector w c) = Some (m', mkBitVector w c') ∧ Forall (count_ok w) m' ∧ 0 ≤ c' < 2 ^ w ∧
    (length m' + (if decide (c' = c) then 0 else 1) ≤ length cs + length m)%nat ∧
    ∀ env, env_ok env → g c' (opval g e (countedAll m') env) = g c (opval g e (cs ++ countedAll m) env).
Proof using Type*.
  induction cs as [|n cs IH]; intros m c Hcs Hm Hc; cbn [countLoop].
  { exists m, c. split_and!; try done; [lia..|]. rewrite decide_True by done. simpl. lia. }
  apply list.Forall_cons in Hcs as [Hn Hcs]. destruct (isConstBV n) eqn:Hk.
  - destruct (constBV_cst n w _ Hk (wt_bvterm _ _ Hn)) as (v&->&Hv). cbn [cst]. rewrite Hop by done. cbn [mbind option_bind].
    destruct (IH m (g c v) Hcs Hm (op_in _ _ _ Hg _ _ Hc Hv)) as (m'&c'&E&Hm'&Hc'&Hl&HV). exists m', c'. split; [done|]. split_and!; try done; [lia..| |].
    + destruct (decide (c' = c)), (decide (c' = g c v)); simpl; lia.
    + intros env Hok. rewrite HV by done. cbn [app opval foldr]. rewrite bv_of_cst, (op_assoc _ _ _ Hg). done.
  - destruct (countTerm_spec w m n Hn Hk Hm) as (m1&E1&Hm1&Hl1&HP1). destruct (IH m1 c Hcs Hm1 Hc) as (m'&c'&E&Hm'&Hc'&Hl&HV).
    exists m', c'. split; [by destruct n; try done; rewrite E1; cbn|]. split_and!; try done; [lia..|destruct (decide _); simpl; lia|].
    intros env Hok. rewrite HV by done. f_equal. apply (opval_perm w _ _ env Hg). rewrite HP1. cbn [app]. by rewrite <- Permutation_middle.
Qed.

End loops.

(** ** Conjunctions and disjunctions *)

(** [z] absorbs, and is what a term and its complement give. *)
Record lattice_op (w : Z) (g : Z → Z → Z) (z : Z) : Prop := {
  lat_idem : ∀ x, 0 ≤ x < 2 ^ w → g x x = x;
  lat_compl : ∀ x, 0 ≤ x < 2 ^ w → g x (2 ^ w - 1 - x) = z;
  lat_absorb : ∀ x, 0 ≤ x < 2 ^ w → g z x = z;
}.

Section lattice.
Context (w : Z) (g : Z → Z → Z) (e z : Z).
Hypothesis Hw : 0 < w ≤ max_uint32.
Hypothesis Hg : comm_op w g e.
Hypothesis Hz : lattice_op w g z.

Lemma opval_replicate n k ns env : wt n (BITVECTOR_TYPE w) → env_ok env → wts w ns →
  opval g e (replicate (S k) n ++ ns) env = g (bv_of n env) (opval g e ns env).
Proof using Type*.
  intros Hn Hok Hns. induction k as [|k IH]; [done|]. change (replicate (S (S k)) n ++ ns) with (n :: (replicate (S k) n ++ ns)).
  cbn [opval foldr]. unfold opval in *. rewrite IH, (op_assoc _ _ _ Hg). f_equal. apply Hz. by apply wt_bound.
Qed.

(** The literal that stays for a counted term. *)
Lemma counted_value p env : count_ok w p → env_ok env → ∀ ns, wts w ns →
  opval g e (counted p ++ ns) env =
  if bool_decide (0 < BvNormalize.pos p.2)%nat && bool_decide (0 < BvNormalize.neg p.2)%nat then z
  else g (bv_of (if decide (0 < BvNormalize.neg p.2)%nat then mkNode1 BITVECTOR_NOT p.1 else p.1) env) (opval g e ns env).
Proof using Type*.
  destruct p as [n [a b]]. intros (Hn&Hab&_) Hok ns Hns. unfold counted. cbn [fst snd BvNormalize.pos BvNormalize.neg] in *. rewrite <- app_assoc.
  pose proof (not_wt n w Hn) as Hnn. destruct a as [|a], b as [|b]; try lia.
  - change (replicate 0 n) with (@nil Node). cbn [app]. rewrite opval_replicate by done. done.
  - rewrite opval_replicate by done. done.
  - rewrite !opval_replicate by first [done|apply Forall_app; split; [by apply wts_replicate|done]]. cbn.
    rewrite (bv_of_term _ _ _ env (bv_not _ _ _ (wt_bvterm _ _ Hn)) Hok). rewrite (op_assoc _ _ _ Hg).
    rewrite (lat_compl _ _ _ Hz) by (by apply wt_bound). apply Hz. by apply (opval_bound w).
Qed.

Lemma collectTerms_spec l : ∀ acc, Forall (count_ok w) l →
  match collectTerms l acc with
  | None => ∀ env, env_ok env → opval g e (countedAll l) env = z
  | Some out => ∃ ds, out = acc ++ ds ∧ wts w ds ∧ length ds = length l ∧ ∀ env, env_ok env → opval g e ds env = opval g e (countedAll l) env
  end.
Proof using Type*.
  induction l as [|p l IH]; intros acc Hl; cbn [collectTerms]; [exists []; rewrite app_nil_r; split_and!; try done; constructor|].
  apply list.Forall_cons in Hl as [Hp Hl]. pose proof (countedAll_wts w l Hl) as Hwl. destruct p as [n c].
  assert (∀ env, env_ok env → opval g e (countedAll ((n, c) :: l)) env = _) as HV by (intros env Hok; exact (counted_value (n, c) env Hp Hok (countedAll l) Hwl)).
  cbn [fst snd] in HV. destruct (_ && _) eqn:Eb; [exact HV|]. set (lit := if decide (0 < BvNormalize.neg c)%nat then _ else _) in *.
  assert (wt lit (BITVECTOR_TYPE w)) as Hlit by (destruct Hp as [Hn _]; subst lit; destruct (decide _); [by apply not_wt|done]).
  specialize (IH (acc ++ [lit]) Hl). destruct (collectTerms l (acc ++ [lit])) as [out|].
  - destruct IH as (ds&->&Hds&Hlen&HVd). exists (lit :: ds). rewrite <- app_assoc. split_and!; [done|by constructor|simpl; lia|]. intros env Hok. rewrite HV by done.
    cbn [opval foldr]. unfold opval in *. by rewrite HVd.
  - intros env Hok. rewrite HV, IH by done. rewrite (op_comm _ _ _ Hg). apply Hz. by apply wt_bound.
Qed.

(** The rule after the loop over the operands. *)
Lemma lattice_result k op cs G E `{!NaryKind k G E} : G w = g → E w = e → k ∈ [BITVECTOR_AND; BITVECTOR_OR; BITVECTOR_XOR] → 0 ≤ z < 2 ^ w →
  (∀ x y, 0 ≤ x < 2 ^ w → 0 ≤ y < 2 ^ w → op (mkBitVector w x) (mkBitVector w y) = Some (mkBitVector w (g x y))) →
  wts w cs → Z.of_nat (length cs) ≤ MAX_CHILDREN →
  ∃ m c n', countLoop op cs [] (mkBitVector w e) = Some (m, c) ∧ bvterm n' w (opval g e cs) ∧
    (if BV.eq c (mkBitVector w z) then Some (cst w z)
     else match collectTerms (hash_order m) (if negb (BV.eq c (mkBitVector w e)) then [utils.mkConstOf c] else []) with
          | None => Some (cst w z)
          | Some [] => Some (cst w e)
          | Some children => mkSortedNode k children
          end) = Some n'.
Proof using Type*.
  intros HG HE Hk Hzb Hop Hcs Hmax. pose proof (op_unit_in _ _ _ Hg) as He.
  destruct (countLoop_spec w g e op Hw Hg Hop cs [] e Hcs ltac:(constructor) He) as (m&c&Ec&Hm&Hc&Hl&HV). exists m, (mkBitVector w c).
  assert (∀ env, env_ok env → g c (opval g e (countedAll m) env) = opval g e cs env) as HV'.
  { intros env Hok. rewrite HV by done. cbn [countedAll mbind list_bind]. rewrite app_nil_r. apply Hg. by apply (opval_bound w). }
  assert ((∀ env, env_ok env → opval g e cs env = z) → bvterm (cst w z) w (opval g e cs)) as Hzero.
  { intros HZ. eapply bvterm_env; [exact (bv_cst w z Hw Hzb)|]. exact HZ. }
  rewrite !eq_bv. destruct (bool_decide_reflect (c = z)) as [->|Hcz].
  { exists (cst w z). split_and!; try done. apply Hzero. intros env Hok. rewrite <- HV' by done. apply Hz. apply (opval_bound w); try done. by apply countedAll_wts. }
  set (acc := if negb (bool_decide (c = e)) then _ else _). pose proof (collectTerms_spec (hash_order m) acc) as Hct.
  specialize (Hct ltac:(by rewrite (hash_order_perm m))).
  assert (∀ env, opval g e (countedAll (hash_order m)) env = opval g e (countedAll m) env) as HO.
  { intros env. apply (opval_perm w _ _ env Hg), countedAll_perm, hash_order_perm. }
  destruct (collectTerms _ acc) as [out|].
  - destruct Hct as (ds&->&Hds&Hlen&HVd). rewrite (Permutation_length (hash_order_perm m)) in Hlen.
    assert (wts w (acc ++ ds) ∧ (length (acc ++ ds) ≤ length cs)%nat ∧ ∀ env, env_ok env → opval g e (acc ++ ds) env = opval g e cs env) as (Ho&Hol&HoV).
    { simpl in Hl. subst acc. destruct (bool_decide_reflect (c = e)) as [->|Hce]; cbn [negb app].
      - rewrite decide_True in Hl by done. split_and!; [done|lia|]. intros env Hok. rewrite HVd, HO, <- HV' by done. symmetry. apply Hg.
        apply (opval_bound w); try done. by apply countedAll_wts.
      - rewrite decide_False in Hl by done. pose proof (bv_cst w c Hw Hc) as (Hct&_). split_and!; [by constructor|simpl; lia|]. intros env Hok.
        cbn [opval foldr]. change (utils.mkConstOf (mkBitVector w c)) with (cst w c). rewrite bv_of_cst. unfold opval in *. rewrite HVd, HO by done. by apply HV'. }
    destruct (acc ++ ds) as [|x xs].
    + exists (cst w e). split_and!; try done. eapply bvterm_env; [exact (bv_cst w e Hw He)|]. intros env Hok. by rewrite <- HoV.
    + destruct (mkSortedNode_term (k:=k) w (x :: xs)) as (n'&En&Hn'); try done; [simpl in *; lia|]. rewrite HG, HE in Hn'. exists n'. split_and!; try done.
      eapply bvterm_env; [exact Hn'|]. intros env Hok. by rewrite HoV.
  - exists (cst w z). split_and!; try done. apply Hzero. intros env Hok. rewrite <- HV', <- HO, Hct by done. rewrite (op_comm _ _ _ Hg). by apply Hz.
Qed.

End lattice.

Lemma lattice_and w : 0 < w → lattice_op w Z.land 0.
Proof using Type.
  intros Hw. split; [intros; apply Z.land_diag| |intros; apply Z.land_0_l]. intros x Hx. pose proof (pow2_pos w ltac:(lia)).
  apply (bits_eq w); [apply land_bound; lia|lia|lia|]. intros i Hi. rewrite Z.land_spec, not_bits, Z.bits_0 by lia. apply andb_negb_r.
Qed.

Lemma lattice_or w : 0 < w → lattice_op w Z.lor (2 ^ w - 1).
Proof using Type.
  intros Hw. pose proof (pow2_pos w ltac:(lia)). split; [intros; apply Z.lor_diag|..]; intros x Hx;
    (apply (bits_eq w); [apply lor_bound; lia|lia|lia|]); intros i Hi; rewrite Z.lor_spec, ?not_bits, ones_bits by lia; [apply orb_negb_r|done].
Qed.

Lemma andSimplify_ok : rule_ok AndSimplify.
Proof.
  intros n τ Hn _ Hk. kind_of Hk. destruct (nary_operands cs τ Hn) as (w&->&Hw&Hcs&Hl&Hm). pose proof (pow2_gt1 w ltac:(lia)).
  pose proof (bv_opval (k:=BITVECTOR_AND) w cs Hcs Hl Hm) as HN. cbn [apply AndSimplify children].
  rewrite (getSize_term _ _ _ HN). cbn [mbind option_bind]. rewrite mkOnes_spec by lia. cbn [mbind option_bind]. rewrite new_small, mkZero_cst, mkOnes_cst by lia.
  destruct (lattice_result w Z.land (2 ^ w - 1) 0 Hw (nk_op (NaryKind:=nary_and) w ltac:(lia)) (lattice_and w ltac:(lia)) BITVECTOR_AND BV.and cs _ _ eq_refl eq_refl)
    as (m&c&n'&->&Hn'&E); [rewrite !elem_of_cons; tauto|lia|by intros; rewrite and_spec|done|done|]. cbn [mbind option_bind]. exists n'. split; [exact E|].
  eapply equiv_bv; [exact HN|exact Hn'|done].
Qed.

Lemma orSimplify_ok : rule_ok OrSimplify.
Proof.
  intros n τ Hn _ Hk. kind_of Hk. destruct (nary_operands cs τ Hn) as (w&->&Hw&Hcs&Hl&Hm). pose proof (pow2_gt1 w ltac:(lia)).
  pose proof (bv_opval (k:=BITVECTOR_OR) w cs Hcs Hl Hm) as HN. cbn [apply OrSimplify children].
  rewrite (getSize_term _ _ _ HN). cbn [mbind option_bind]. rewrite mkOnes_spec by lia. cbn [mbind option_bind]. rewrite new_small, mkZero_cst, mkOnes_cst by lia.
  destruct (lattice_result w Z.lor 0 (2 ^ w - 1) Hw (nk_op (NaryKind:=nary_or) w ltac:(lia)) (lattice_or w ltac:(lia)) BITVECTOR_OR BV.or cs _ _ eq_refl eq_refl)
    as (m&c&n'&->&Hn'&E); [rewrite !elem_of_cons; tauto|lia|by intros; rewrite or_spec|done|done|]. cbn [mbind option_bind]. exists n'. split; [exact E|].
  eapply equiv_bv; [exact HN|exact Hn'|done].
Qed.

(** ** Exclusive or *)

#[local] Abbreviation xorval := (opval Z.lxor 0).
Definition parity (k : nat) (x : Z) : Z := if Nat.odd k then x else 0.

Ltac xor_bits := apply Z.bits_inj'; intros ? ?; rewrite ?Z.lxor_spec, ?Z.bits_0; repeat match goal with |- context [Z.testbit ?x ?i] => destruct (Z.testbit x i) end; done.

Lemma parity_S k x : parity (S k) x = Z.lxor x (parity k x).
Proof using Type. unfold parity. rewrite Nat.odd_succ, <- Nat.negb_odd. destruct (Nat.odd k); cbn [negb]; [by rewrite Z.lxor_nilpotent|by rewrite Z.lxor_0_r]. Qed.

Lemma xor_replicate n k ns env : xorval (replicate k n ++ ns) env = Z.lxor (parity k (bv_of n env)) (xorval ns env).
Proof using Type.
  induction k as [|k IH]; [done|]. cbn [replicate app opval foldr]. unfold opval in *. rewrite IH, parity_S. by rewrite Z.lxor_assoc.
Qed.

Lemma xorCountLoop_spec w cs : ∀ m co, 0 < w ≤ max_uint32 → wts w cs → Forall (count_ok w) m →
  (∀ c, co = Some c → d_size c = w ∧ 0 ≤ d_value c < 2 ^ w) →
  ∃ m' co', xorCountLoop cs m co = Some (m', co') ∧ Forall (count_ok w) m' ∧ (∀ c, co' = Some c → d_size c = w ∧ 0 ≤ d_value c < 2 ^ w) ∧
    (length m' + length (option_list co') ≤ length cs + length m + length (option_list co))%nat ∧
    (∀ d, d ∈ countedAll m' → d ∈ cs ++ countedAll m) ∧
    ∀ env, env_ok env → Z.lxor (default 0 (d_value <$> co')) (xorval (countedAll m') env)
      = Z.lxor (default 0 (d_value <$> co)) (xorval (cs ++ countedAll m) env).
Proof using Type*.
  induction cs as [|n cs IH]; intros m co Hw Hcs Hm Hco; cbn [xorCountLoop].
  { exists m, co. split_and!; done. }
  apply list.Forall_cons in Hcs as [Hn Hcs]. destruct (isConstBV n) eqn:Hk.
  - destruct (constBV_cst n w _ Hk (wt_bvterm _ _ Hn)) as (v&->&Hv). cbn [cst].
    assert (∃ x, match co with Some c => BV.xor c (mkBitVector w v) | None => Some (mkBitVector w v) end = Some (mkBitVector w x) ∧ 0 ≤ x < 2 ^ w ∧
      x = Z.lxor (default 0 (d_value <$> co)) v) as (x&->&Hx&Ex).
    { destruct co as [[w' c]|]; [|by exists v]. destruct (Hco _ eq_refl) as [Hsz Hc]. cbn in Hsz, Hc. subst w'. exists (Z.lxor c v).
      rewrite xor_spec by done. cbn. split; [done|]. split; [apply lxor_bound; lia|done]. }
    cbn [mbind option_bind]. destruct (IH m (Some (mkBitVector w x)) Hw Hcs Hm) as (m'&co'&E&Hm'&Hc'&Hl&Hin&HV); [by intros c [= <-]|].
    exists m', co'. split_and!; try done; [destruct co; simpl in *; lia|intros d Hd; right; by apply Hin|]. intros env Hok. rewrite HV by done. cbn [fmap option_fmap option_map default id d_value from_option].
    cbn [app opval foldr]. rewrite Ex, bv_of_cst, Z.lxor_assoc. done.
  - destruct (countTerm_spec w m n Hn Hk Hm) as (m1&E1&Hm1&Hl1&HP1). destruct (IH m1 co Hw Hcs Hm1 Hco) as (m'&co'&E&Hm'&Hc'&Hl&Hin&HV).
    exists m', co'. split; [by destruct n; try done; rewrite E1; cbn|]. split_and!; try done; [simpl; lia| |].
    { intros d Hd%Hin. rewrite HP1 in Hd. rewrite elem_of_app, elem_of_cons in Hd. cbn [app]. rewrite elem_of_cons, elem_of_app. tauto. }
    intros env Hok. rewrite HV by done. f_equal. apply (opval_perm w _ _ env (nk_op (NaryKind:=nary_xor) w ltac:(lia))). rewrite HP1. cbn [app]. by rewrite <- Permutation_middle.
Qed.

(** What is left of a counted term: itself, its complement, or all ones. *)
Lemma xor_counted p w env ns : count_ok w p → 0 < w → env_ok env → 
  xorval (counted p ++ ns) env = Z.lxor (match Nat.odd (BvNormalize.pos p.2), Nat.odd (BvNormalize.neg p.2) with
    | true, true => 2 ^ w - 1 | true, false => bv_of p.1 env | false, true => bv_of (mkNode1 BITVECTOR_NOT p.1) env | false, false => 0 end) (xorval ns env).
Proof using Type.
  destruct p as [n [a b]]. intros (Hn&_) Hw Hok. unfold counted. cbn [fst snd BvNormalize.pos BvNormalize.neg] in *. rewrite <- app_assoc, !xor_replicate.
  rewrite (bv_of_term _ _ _ env (bv_not _ _ _ (wt_bvterm _ _ Hn)) Hok), <- lxor_ones by (lia || by apply wt_bound).
  unfold parity. destruct (Nat.odd a), (Nat.odd b); xor_bits.
Qed.

Lemma xorTerms_spec w l : ∀ acc tc, 0 < w → Forall (count_ok w) l →
  ∃ ds t, xorTerms l acc tc = (acc ++ ds, tc + t)%nat ∧ wts w ds ∧ Forall (λ n, isConstBV n = false ∧ n ∈ countedAll l) ds ∧ (length ds + t ≤ length l)%nat ∧
    ∀ env, env_ok env → xorval (countedAll l) env = Z.lxor (parity t (2 ^ w - 1)) (xorval ds env).
Proof using Type.
  induction l as [|p l IH]; intros acc tc Hw Hl; cbn [xorTerms].
  { exists [], 0%nat. rewrite app_nil_r, Nat.add_0_r. split_and!; try done; constructor. }
  apply list.Forall_cons in Hl as [Hp Hl]. destruct p as [n c].
  assert (∀ env, env_ok env → xorval (countedAll ((n, c) :: l)) env = _) as HV by (intros env Hok; exact (xor_counted (n, c) w env (countedAll l) Hp Hw Hok)).
  assert (∀ ds, Forall (λ d, isConstBV d = false ∧ d ∈ countedAll l) ds → Forall (λ d, isConstBV d = false ∧ d ∈ countedAll ((n, c) :: l)) ds) as Hmore.
  { intros ds Hds. eapply list.Forall_impl; [exact Hds|]. intros d [? ?]. split; [done|]. apply elem_of_app. by right. }
  cbn [fst snd] in HV. destruct Hp as (Hn&_&Hnc). cbn [fst snd] in *.
  assert (∀ d, wt d (BITVECTOR_TYPE w) → isConstBV d = false → d ∈ counted (n, c) → (∀ env, env_ok env → xorval (countedAll ((n, c) :: l)) env = Z.lxor (bv_of d env) (xorval (countedAll l) env)) →
    ∃ ds t, xorTerms l (acc ++ [d]) tc = (acc ++ ds, tc + t)%nat ∧ wts w ds ∧ Forall (λ d, isConstBV d = false ∧ d ∈ countedAll ((n, c) :: l)) ds ∧ (length ds + t ≤ S (length l))%nat ∧
    ∀ env, env_ok env → xorval (countedAll ((n, c) :: l)) env = Z.lxor (parity t (2 ^ w - 1)) (xorval ds env)) as Hlit.
  { intros d Hd Hdc Hdin HVd. destruct (IH (acc ++ [d]) tc Hw Hl) as (ds&t&E&Hds&Hdsc&Hlen&HV2). exists (d :: ds), t. rewrite E, <- app_assoc.
    split_and!; [done|by constructor|constructor; [split; [done|apply elem_of_app; by left]|by apply Hmore]|simpl; lia|]. intros env Hok. rewrite HVd, HV2 by done.
    change (xorval (d :: ds) env) with (Z.lxor (bv_of d env) (xorval ds env)). xor_bits. }
  destruct (Nat.odd (BvNormalize.pos c)) eqn:Ep, (Nat.odd (BvNormalize.neg c)) eqn:En.
  - destruct (IH acc (S tc) Hw Hl) as (ds&t&E&Hds&Hdsc&Hlen&HV2). exists ds, (S t). rewrite E, Nat.add_succ_comm. split_and!; try done; [by apply Hmore|simpl; lia|].
    intros env Hok. rewrite HV, HV2, parity_S by done. by rewrite Z.lxor_assoc.
  - apply Hlit; try done; [apply Hnc; destruct (BvNormalize.pos c); [done|lia]|]. apply elem_of_app. left. apply elem_of_replicate. split; [done|]. cbn. intros E. by rewrite E in Ep.
  - apply Hlit; try done; [by apply not_wt|]. apply elem_of_app. right. apply elem_of_replicate. split; [done|]. cbn. intros E. by rewrite E in En.
  - destruct (IH acc tc Hw Hl) as (ds&t&E&Hds&Hdsc&Hlen&HV2). exists ds, t. split_and!; try done; [by apply Hmore|simpl; lia|].
    intros env Hok. rewrite HV, HV2 by done. by rewrite Z.lxor_0_l.
Qed.

(** The constant at the end of the operands. *)
Lemma xorConst_spec w tc co : 0 < w ≤ max_uint32 → (∀ c, co = Some c → d_size c = w ∧ 0 ≤ d_value c < 2 ^ w) →
  let consts := (if decide (tc ≠ 0%nat) then [if Nat.odd tc then mkBitVector w (2 ^ w - 1) else mkBitVector w 0] else []) ++
    (match co with Some c => [c] | None => [] end) in
  ∃ ks v, (∀ ds, match consts with [] => Some ds | r :: rs => result ← foldl (λ acc c, a ← acc; BV.xor a c) (Some r) rs; Some (ds ++ [utils.mkConstOf result]) end
      = Some (ds ++ ks)) ∧ (ks = [] ∧ v = 0 ∨ ks = [cst w v] ∧ 0 ≤ v < 2 ^ w) ∧ (length ks ≤ tc + length (option_list co))%nat ∧
    v = Z.lxor (parity tc (2 ^ w - 1)) (default 0 (d_value <$> co)).
Proof using Type*.
  intros Hw Hco consts. pose proof (pow2_pos w ltac:(lia)). set (x := parity tc (2 ^ w - 1)). assert (0 ≤ x < 2 ^ w) as Hx by (subst x; unfold parity; destruct (Nat.odd tc); lia).
  assert ((if Nat.odd tc then mkBitVector w (2 ^ w - 1) else mkBitVector w 0) = mkBitVector w x) as Ex by (subst x; unfold parity; by destruct (Nat.odd tc)).
  subst consts. rewrite Ex. destruct co as [[w' c]|].
  - destruct (Hco _ eq_refl) as [Hsz Hc]. cbn in Hsz, Hc. subst w'. destruct (decide (tc ≠ 0%nat)) as [Ht|Ht].
    + exists [cst w (Z.lxor x c)], (Z.lxor x c). cbn [app foldl mbind option_bind]. rewrite xor_spec by done. cbn [mbind option_bind d_size d_value].
      split_and!; [done| |simpl; lia|done]. right. split; [done|]. apply lxor_bound; lia.
    + assert (tc = 0%nat) as E0 by lia. exists [cst w c], c. split_and!; [done|by right|simpl; lia|]. subst x. by rewrite E0.
  - destruct (decide (tc ≠ 0%nat)) as [Ht|Ht].
    + exists [cst w x], x. split_and!; [done|by right|simpl; lia|]. cbn. by rewrite Z.lxor_0_r.
    + exists [], 0. split_and!; [intros ds; cbn [app]; by rewrite (app_nil_r ds)|by left|simpl; lia|]. assert (tc = 0%nat) as E0 by lia. subst x. by rewrite E0.
Qed.

Lemma xorSimplify_result n τ : wt n τ → isKind BITVECTOR_XOR n = true →
  ∃ n', apply XorSimplify n = Some n' ∧ equiv n n' ∧
    (isConst n' = true ∨ ∃ ds ks, mkSortedNode BITVECTOR_XOR (ds ++ ks) = Some n' ∧ Forall (λ d, isConstBV d = false ∧ d ∈ children n) ds ∧
      (length ks ≤ 1)%nat ∧ Forall (λ k, isConst k = true) ks).
Proof using Type*.
  intros Hn Hk. kind_of Hk. destruct (nary_operands cs τ Hn) as (w&->&Hw&Hcs&Hl&Hm). pose proof (pow2_gt1 w ltac:(lia)).
  pose proof (bv_opval (k:=BITVECTOR_XOR) w cs Hcs Hl Hm) as HN. cbn [apply XorSimplify children]. rewrite (getSize_term _ _ _ HN). cbn [mbind option_bind].
  destruct (xorCountLoop_spec w cs [] None Hw Hcs) as (m&co&->&Hcm&Hco&Hlm&Hin&HV); [constructor|done|]. cbn [mbind option_bind].
  destruct (xorTerms_spec w (hash_order m) [] 0 ltac:(lia)) as (ds&t&->&Hds&Hdsc&Hlt&HVt); [by rewrite (hash_order_perm m)|].
  rewrite (Permutation_length (hash_order_perm m)) in Hlt. rewrite mkOnes_spec by lia. cbn [mbind option_bind Nat.add app]. rewrite new_small by lia.
  destruct (xorConst_spec w t co Hw Hco) as (ks&v&Ek&Hks&Hlk&Ev). rewrite Ek. cbn [mbind option_bind].
  assert (∀ env, env_ok env → xorval (ds ++ ks) env = xorval cs env) as HVal.
  { intros env Hok. specialize (HV env Hok). cbn [countedAll mbind list_bind] in HV. rewrite app_nil_r in HV. cbn in HV.
    assert (xorval (ds ++ ks) env = Z.lxor v (xorval ds env)) as ->.
    { destruct Hks as [[-> ->]|[-> _]]; [by rewrite app_nil_r|].
      rewrite (opval_perm w _ _ env (nk_op (NaryKind:=nary_xor) w ltac:(lia)) _ _ (Permutation_app_comm ds [cst w v])). cbn [app opval foldr]. by rewrite bv_of_cst. }
    rewrite Z.lxor_0_l in HV. rewrite <- HV, Ev, <- (opval_perm w _ _ env (nk_op (NaryKind:=nary_xor) w ltac:(lia)) _ _ (countedAll_perm _ _ (hash_order_perm m))).
    rewrite HVt by done. xor_bits. }
  assert (wts w (ds ++ ks)) as Hall.
  { apply Forall_app. split; [done|]. destruct Hks as [[-> _]|[-> Hv]]; [constructor|]. apply Forall_singleton. by destruct (bv_cst w v Hw Hv). }
  destruct (decide (ds ++ ks = [])) as [Hnil|Hnil].
  - exists (cst w 0). split_and!; [done| |by left]. eapply equiv_bv; [exact HN|exact (bv_cst w 0 Hw ltac:(lia))|]. intros env Hok _. cbv beta. rewrite <- HVal by done. by rewrite Hnil.
  - destruct (mkSortedNode_term (k:=BITVECTOR_XOR) w (ds ++ ks)) as (n'&En&Hn'); [rewrite !elem_of_cons; tauto|done..|rewrite length_app; simpl in *; lia|].
    exists n'. split_and!; [done| |]; [eapply equiv_bv; [exact HN|exact Hn'|]; intros env Hok _; by apply HVal|]. right. exists ds, ks. split_and!; try done.
    + eapply list.Forall_impl; [exact Hdsc|]. intros d [? Hd]. split; [done|]. rewrite (countedAll_perm _ _ (hash_order_perm m)) in Hd.
      apply Hin in Hd. cbn [countedAll mbind list_bind] in Hd. by rewrite app_nil_r in Hd.
    + destruct Hks as [[-> _]|[-> _]]; simpl; lia.
    + destruct Hks as [[-> _]|[-> _]]; by repeat constructor.
Qed.

Lemma xorSimplify_ok : rule_ok XorSimplify.
Proof using Type*. intros n τ Hn _ Hap. destruct (xorSimplify_result n τ Hn Hap) as (n'&E&He&_). eauto. Qed.

(** An exclusive or that [XorSimplify] leaves alone has an operand that is not
    a constant. *)
Lemma xorSimplify_fixed n τ : wt n τ → isKind BITVECTOR_XOR n = true → apply XorSimplify n = Some n →
  ∃ c, c ∈ children n ∧ isConst c = false.
Proof using Type*.
  intros Hn Hk Hfix. destruct (xorSimplify_result n τ Hn Hk) as (n'&E&_&Hres). rewrite Hfix in E. injection E as <-. kind_of Hk.
  destruct (nary_operands cs τ Hn) as (w&->&Hw&Hcs&Hl&Hm). destruct Hres as [Hc|(ds&ks&E&Hds&Hks&Hk)]; [done|].
  destruct ds as [|d ds].
  - destruct ks as [|k [|]]; [done| |simpl in *; lia]. injection E as ->. apply list.Forall_cons in Hk as [Hk _]. done.
  - apply list.Forall_cons in Hds as [[Hd Hin] _]. exists d. split; [done|]. eapply list.Forall_forall in Hcs; [|exact Hin].
    destruct (isConst d) eqn:Ec; [|done]. by destruct (const_cst d w _ Ec (wt_bvterm _ _ Hcs)) as (v&->&_).
Qed.

End sound.

(** * Soundness of [BitwiseSlicing], [BitwiseEq] and
    [FlattenAssocCommutNoDuplicates]. *)

(** ** Slices *)

(** A bitwise operator on slices. *)
Lemma bitwise_slice `{!Bitwise g h} k l x y w : 0 ≤ l → 0 ≤ k → 0 ≤ w → 0 ≤ x < 2 ^ w → 0 ≤ y < 2 ^ w →
  g (wrap k (x / 2 ^ l)) (wrap k (y / 2 ^ l)) = wrap k (g x y / 2 ^ l).
Proof.
  intros Hl Hk Hw Hx Hy. apply (bits_eq k); [apply bw_bound; [done|apply wrap_bound; lia..]|apply wrap_bound; lia|lia|].
  intros i Hi. rewrite bw_bits, !extract_bits, bw_bits by lia. by rewrite bool_decide_true by lia.
Qed.

(** A slice below what has been cut off. *)
Lemma slice_below V e l : 0 ≤ l ≤ e → V / 2 ^ (e + 1) * 2 ^ (e - l + 1) + wrap (e - l + 1) (V / 2 ^ l) = V / 2 ^ l.
Proof.
  intros Hl. replace (e + 1) with (l + (e - l + 1)) by lia. rewrite pow2_add, <- Z.div_div by (pose proof (pow2_pos l); pose proof (pow2_pos (e - l + 1)); lia).
  pose proof (pow2_pos (e - l + 1)). rewrite (Z.div_mod (V / 2 ^ l) (2 ^ (e - l + 1))) at 3 by lia. unfold wrap. lia.
Qed.

Section sound.
Context `{!Gmp, !GmpLaws, !NodeIds, !NodeIdsLaws, !HashOrder, !HashOrderLaws}.

Section slicing.
Context `{!NaryKind k (λ _, g) e, !Bitwise g h}.
Context (w : Z) (c o : Node) (fc fo : Env → Z).
Hypothesis Hc : bvterm c w fc.
Hypothesis Ho : bvterm o w fo.

Definition whole (env : Env) : Z := g (fc env) (fo env).

Definition slice (hi lo : Z) : part :=
  mkPart (mkNode2 k (utils.mkExtract c hi lo) (utils.mkExtract o hi lo)) (hi - lo + 1) (λ env, wrap (hi - lo + 1) (whole env / 2 ^ lo)).

Lemma slice_ok hi lo : 0 ≤ lo ≤ hi → hi < w → part_ok (slice hi lo).
Proof using Type*.
  intros Hlo Hhi. pose proof (bv_extract _ _ _ Hc hi lo Hlo Hhi) as Xc. pose proof (bv_extract _ _ _ Ho hi lo Hlo Hhi) as Xo.
  pose proof Hc as (_&Hw&_). eapply bvterm_env.
  - apply (bv_opval (k:=k) (hi - lo + 1) [utils.mkExtract c hi lo; utils.mkExtract o hi lo]); [|simpl; lia|simpl; unfold MAX_CHILDREN; lia].
    apply Forall_cons_2; [by destruct Xc|]. apply Forall_singleton. by destruct Xo.
  - intros env Hok. cbn [slice pval]. unfold whole. pose proof (bv_bound _ _ _ _ Hc Hok). pose proof (bv_bound _ _ _ _ Ho Hok).
    cbn [opval foldr]. rewrite (bv_of_term _ _ _ env Xc Hok), (bv_of_term _ _ _ env Xo Hok). rewrite <- (bitwise_slice _ _ _ _ w) by lia.
    assert (comm_op (hi - lo + 1) g (e (hi - lo + 1))) as Hop by (exact (nk_op (NaryKind:=NaryKind0) (hi - lo + 1) ltac:(lia))). f_equal.
    rewrite (op_comm _ _ _ Hop), (op_unit _ _ _ Hop); [done|apply wrap_bound; lia].
Qed.

(** The slices [ps] are the bits above [top]. *)
Definition above (top : Z) (ps : list part) : Prop :=
  Forall part_ok ps ∧ cat_width ps = w - 1 - top ∧ ∀ env, env_ok env → cat_val ps env = whole env / 2 ^ (top + 1).

Lemma above_slice top lo ps : above top ps → 0 ≤ lo ≤ top → top < w → above (lo - 1) (ps ++ [slice top lo]).
Proof using Type*.
  intros (HF&Hwd&HV) Hlo Htop. pose proof (slice_ok top lo Hlo Htop) as Hs. split_and!.
  - apply Forall_app. split; [done|]. by apply Forall_singleton.
  - rewrite cat_width_app, Hwd. cbn. lia.
  - intros env Hok. rewrite cat_val_app by (done || by apply Forall_singleton). rewrite HV by done. cbn [cat_width cat_val slice pwidth pval].
    rewrite Z.add_0_r, Z.add_0_r, Z.pow_0_r, Z.mul_1_r, slice_below by done. do 2 f_equal. lia.
Qed.

Lemma slicingLoop_spec v n : ∀ top ps, w ≤ MAX_CHILDREN → (0 < n)%nat → Z.of_nat n ≤ top < w → above top ps →
  ∃ qs, slicingLoop k o c (mkBitVector w v) n (Z.of_nat n) top (pnode <$> ps) = Some (pnode <$> qs) ∧ above (-1) qs.
Proof using Type*.
  induction n as [|n IH]; intros top ps Hmax Hn Htop Hps; [lia|]. cbn [slicingLoop]. unfold BV.isBitSet. cbn [d_size d_value].
  rewrite !bool_decide_true by lia. cbn [assert mbind option_bind].
  assert (∀ top' ps', Z.of_nat n ≤ top' < w → above top' ps' →
    ∃ qs, slicingLoop k o c (mkBitVector w v) n (Z.of_nat n) top'
      (if decide (Z.of_nat n = 0) then pnode <$> ps' ++ [slice top' 0] else pnode <$> ps') = Some (pnode <$> qs) ∧ above (-1) qs) as Hnext.
  { intros top' ps' Ht' Hp'. destruct n as [|n].
    - rewrite decide_True by lia. exists (ps' ++ [slice top' 0]). split; [done|]. apply above_slice; [done|lia..].
    - rewrite decide_False by lia. apply IH; try done. lia. }
  destruct (xorb _ _); cbv beta iota zeta.
  - pose proof (above_slice top (Z.of_nat (S n)) ps Hps ltac:(lia) ltac:(lia)) as Hp. replace (Z.of_nat (S n) - 1) with (Z.of_nat n) in Hp by lia.
    specialize (Hnext (Z.of_nat n) _ ltac:(lia) Hp). rewrite !fmap_app in Hnext. exact Hnext.
  - specialize (Hnext top ps ltac:(lia) Hps). rewrite fmap_app in Hnext. replace (Z.of_nat (S n) - 1) with (Z.of_nat n) by lia. exact Hnext.
Qed.

End slicing.

Lemma splitFirstConst_spec cs bv : firstConst cs = Some bv →
  ∃ other, splitFirstConst cs = (Some (mkConstBV bv), other) ∧ cs ≡ₚ mkConstBV bv :: other.
Proof using Type.
  unfold firstConst. induction cs as [|c cs IH]; [done|]. cbn [list_find splitFirstConst]. destruct (decide (isConstBV c)) as [Hd|Hd].
  - intros E. rewrite Is_true_true in Hd || apply Is_true_true in Hd. rewrite Hd. destruct c; try done. injection E as ->. by exists cs.
  - assert (isConstBV c = false) as -> by (by destruct (isConstBV c)). intros E. destruct (list_find _ cs) as [[i d]|]; [|done]. cbn in E. destruct d; try done.
    destruct IH as (other&->&HP); [done|]. exists (c :: other). split; [done|]. rewrite HP. constructor.
Qed.

Lemma slicing_kind k g e h n τ `{!NaryKind k (λ _, g) e, !Bitwise g h} :
  bitwiseKind n = Some k → isKind k n = true → k ∈ [BITVECTOR_AND; BITVECTOR_OR; BITVECTOR_XOR; BITVECTOR_ADD; BITVECTOR_MULT] →
  wt n τ → tsmall τ → applies BitwiseSlicing n = true →
  ∃ n', apply BitwiseSlicing n = Some n' ∧ equiv n n'.
Proof.
  intros Hbk Hk Hin Hn Hs Hap. kind_of Hk. destruct (nary_operands cs τ Hn) as (w&->&Hw&Hcs&Hl&Hm). cbn [tsmall] in Hs.
  pose proof (bv_opval (k:=k) w cs Hcs Hl Hm) as HN. cbn [applies apply BitwiseSlicing] in *. rewrite Hbk, (getSize_term _ _ _ HN) in *.
  apply andb_true_iff in Hap as [Hsz Hap]. apply negb_true_iff, bool_decide_eq_false in Hsz. cbn [children mbind option_bind] in *.
  destruct (firstConst cs) as [bv|] eqn:Ef; [|done]. destruct (splitFirstConst_spec cs bv Ef) as (other&->&HP). cbn [mbind option_bind].
  pose proof (Permutation_length HP) as Hlen. cbn [length] in Hlen. rewrite bool_decide_true by (unfold getNumChildren; cbn [children]; lia). cbn [assert mbind option_bind].
  pose proof Hcs as Hcs'. rewrite HP in Hcs'. apply list.Forall_cons in Hcs' as [Hc Hother].
  destruct (mkNaryNode_term (k:=k) w other) as (o&->&Ho); [done|done|intros ->; simpl in Hlen; lia|lia|]. cbn [mbind option_bind getConstBV].
  destruct (constBV_cst (mkConstBV bv) w _ eq_refl (wt_bvterm _ _ Hc)) as (v&Ebv&Hv). injection Ebv as ->. change (mkConstBV (mkBitVector w v)) with (cst w v) in *.
  pose proof (bv_cst w v Hw Hv) as Hcv. unfold BV.getSize. cbn [d_size]. unfold MAX_CHILDREN in Hs.
  assert (int32 (w - 1) = w - 1) as -> by (unfold int32; rewrite u32_small by lia; by rewrite decide_True by lia).
  destruct (slicingLoop_spec (k:=k) (g:=g) w (cst w v) o _ _ Hcv Ho v (Z.to_nat (w - 1)) (w - 1) []) as (qs&E&HF&Hwd&HV); [unfold MAX_CHILDREN; lia|lia|lia| |].
  { split_and!; [constructor|cbn; lia|]. intros env Hok. cbn [cat_val]. symmetry. apply Z.div_small. replace (w - 1 + 1) with w by lia.
    unfold whole. apply bw_bound; [lia|done|by apply (bv_bound _ _ _ _ Ho)]. }
  rewrite Z2Nat.id in E by lia. change (pnode <$> []) with (@nil Node) in E. rewrite E. cbn [mbind option_bind].
  pose proof (cat_width_ge qs HF) as Hge. destruct (mkConcatList_term qs HF) as (n'&->&Hn').
  { destruct qs; [simpl in Hwd; lia|simpl; lia]. } { unfold MAX_CHILDREN. lia. } { lia. }
  exists n'. split; [done|]. replace (cat_width qs) with w in Hn' by lia. eapply equiv_bv; [exact HN|exact Hn'|].
  intros env Hok _. rewrite HV by done. rewrite Z.pow_0_r, Z.div_1_r. unfold whole.
  rewrite (opval_perm w _ _ env (nk_op (NaryKind:=NaryKind0) w ltac:(lia)) _ _ HP). cbn [opval foldr]. by rewrite bv_of_cst.
Qed.

Lemma bitwiseSlicing_ok : rule_ok BitwiseSlicing.
Proof.
  intros n τ Hn Hs Hap. pose proof Hap as Hk. cbn [applies BitwiseSlicing] in Hk.
  destruct n as [| | | |[] cs]; try done; [apply (slicing_kind BITVECTOR_AND Z.land (λ w, 2 ^ w - 1) andb _ τ)
    |apply (slicing_kind BITVECTOR_OR Z.lor (λ _, 0) orb _ τ)|apply (slicing_kind BITVECTOR_XOR Z.lxor (λ _, 0) xorb _ τ)]; try done; rewrite !elem_of_cons; tauto.
Qed.

(** ** Equality of one bit *)

Lemma nary_bool k (f : list bool → bool) cs fs :
  (∀ n, arity_ok k n = atLeast 2 n) → payload_ok k = true → (∀ cs ts, computeType k cs ts = BooleanTypeRule ts) →
  (∀ vs, kind_eval k vs = VBool ∘ f <$> as_bools vs) → Forall2 boolterm cs fs → (2 ≤ length cs)%nat → Z.of_nat (length cs) ≤ MAX_CHILDREN →
  boolterm (mkNode k cs) (λ env, f ((λ g : Env → bool, g env) <$> fs)).
Proof using Type.
  intros Har Hp Hr Hk HF Hl Hm. split.
  - apply (wt_node _ _ ((λ _, BOOLEAN_TYPE) <$> cs)); [|rewrite Har; unfold atLeast; by rewrite bool_decide_true by lia|done|done|].
    + clear - HF. induction HF as [|c g cs fs (Hc&_) _ IH]; cbn [fmap list_fmap]; by constructor.
    + rewrite Hr. unfold BooleanTypeRule. replace (forallb isMaybeBoolean ((λ _, BOOLEAN_TYPE) <$> cs)) with true; [done|]. clear. by induction cs.
  - intros env Hok. cbn [eval]. assert (mapM (eval env) cs = Some ((λ g : Env → bool, VBool (g env)) <$> fs)) as ->.
    { clear - HF Hok. induction HF as [|c g cs fs (_&Hc) _ IH]; [done|]. cbn [fmap list_fmap mapM]. rewrite (Hc env Hok). cbn [mbind option_bind]. by rewrite IH. }
    cbn [mbind option_bind]. rewrite Hk. assert (as_bools ((λ g : Env → bool, VBool (g env)) <$> fs) = Some ((λ g : Env → bool, g env) <$> fs)) as ->; [|done].
    clear. induction fs as [|g fs IH]; [done|]. cbn [fmap list_fmap as_bools]. by rewrite IH.
Qed.

(** The operands compared with one bit. *)
Definition bitsEq (v : Z) (env : Env) (d : Node) : bool := bool_decide (bv_of d env = v).

Lemma eqs_terms w v cs : 0 < w ≤ max_uint32 → 0 ≤ v < 2 ^ w → wts w cs →
  Forall2 boolterm ((λ d, eqNode d (cst w v)) <$> cs) ((λ d env, bitsEq v env d) <$> cs).
Proof using Type.
  intros Hw Hv. induction 1 as [|d cs Hd _ IH]; cbn [fmap list_fmap]; constructor; [|done].
  exact (bool_eq_bv _ _ _ _ _ (wt_bvterm _ _ Hd) (bv_cst w v Hw Hv)).
Qed.

Lemma mkNodeKind_and k v cs : 0 ≤ v < 2 → wts 1 cs → (2 ≤ length cs)%nat → Z.of_nat (length cs) ≤ MAX_CHILDREN →
  boolterm (mkNodeKind AND (mkNode k cs) (cst 1 v)) (λ env, forallb (bitsEq v env) cs).
Proof using Type.
  intros Hv Hcs Hl Hm. pose proof (nary_bool AND (forallb id) _ _ (λ _, eq_refl) eq_refl (λ _ _, eq_refl) (λ _, eq_refl)
    (eqs_terms 1 v cs ltac:(unfold max_uint32; lia) ltac:(lia) Hcs)) as Hb. rewrite length_fmap in Hb. destruct (Hb Hl Hm) as [Ht He]. split; [done|].
  intros env Hok. unfold mkNodeKind. cbn [children]. rewrite He by done. do 2 f_equal. clear. induction cs as [|d cs IH]; [done|]. cbn. by rewrite <- IH.
Qed.

Lemma mkNodeKind_or k v cs : 0 ≤ v < 2 → wts 1 cs → (2 ≤ length cs)%nat → Z.of_nat (length cs) ≤ MAX_CHILDREN →
  boolterm (mkNodeKind OR (mkNode k cs) (cst 1 v)) (λ env, existsb (bitsEq v env) cs).
Proof using Type.
  intros Hv Hcs Hl Hm. pose proof (nary_bool OR (existsb id) _ _ (λ _, eq_refl) eq_refl (λ _ _, eq_refl) (λ _, eq_refl)
    (eqs_terms 1 v cs ltac:(unfold max_uint32; lia) ltac:(lia) Hcs)) as Hb. rewrite length_fmap in Hb. destruct (Hb Hl Hm) as [Ht He]. split; [done|].
  intros env Hok. unfold mkNodeKind. cbn [children]. rewrite He by done. do 2 f_equal. clear. induction cs as [|d cs IH]; [done|]. cbn. by rewrite <- IH.
Qed.

Lemma bit_range d env : wt d (BITVECTOR_TYPE 1) → env_ok env → bv_of d env = 0 ∨ bv_of d env = 1.
Proof using Type. intros Hd Hok. pose proof (wt_bound d 1 env Hd Hok). lia. Qed.

Lemma bits_and cs env : wts 1 cs → env_ok env →
  opval Z.land (2 ^ 1 - 1) cs env = b2z (forallb (bitsEq 1 env) cs) ∧ existsb (bitsEq 0 env) cs = negb (forallb (bitsEq 1 env) cs).
Proof using Type.
  intros Hcs Hok. induction Hcs as [|d cs Hd _ [IH1 IH2]]; [done|]. cbn [opval foldr forallb existsb]. unfold opval in IH1. rewrite IH1, IH2. unfold bitsEq.
  destruct (bit_range d env Hd Hok) as [-> | ->]; cbn; by destruct (forallb _ cs).
Qed.

Lemma bits_or cs env : wts 1 cs → env_ok env →
  opval Z.lor 0 cs env = b2z (existsb (bitsEq 1 env) cs) ∧ forallb (bitsEq 0 env) cs = negb (existsb (bitsEq 1 env) cs).
Proof using Type.
  intros Hcs Hok. induction Hcs as [|d cs Hd _ [IH1 IH2]]; [done|]. cbn [opval foldr forallb existsb]. unfold opval in IH1. rewrite IH1, IH2. unfold bitsEq.
  destruct (bit_range d env Hd Hok) as [-> | ->]; cbn; by destruct (existsb _ cs).
Qed.

Lemma eq_bit (b : bool) v : 0 ≤ v < 2 → bool_decide (b2z b = v) = if bool_decide (v = 1) then b else negb b.
Proof using Type. intros Hv. destruct b, (bool_decide_reflect (v = 1)); cbn [b2z negb]; apply bool_decide_eq_true || apply bool_decide_eq_false; lia. Qed.

Lemma boolterm_ext n f f' : boolterm n f → (∀ env, env_ok env → f' env = f env) → boolterm n f'.
Proof using Type. intros [Ht He] HV. split; [done|]. intros env Hok. by rewrite HV, He. Qed.

(** The equality of [t] and [v] as the term [r]. *)
Definition eqTerm (t : Node) (v : Z) (r : Node) : Prop := boolterm r (λ env, bool_decide (bv_of t env = v)).

Lemma eq_and v cs : wt (mkNode BITVECTOR_AND cs) (BITVECTOR_TYPE 1) → 0 ≤ v < 2 →
  eqTerm (mkNode BITVECTOR_AND cs) v (if bool_decide (v = 1) then mkNodeKind AND (mkNode BITVECTOR_AND cs) (cst 1 1) else mkNodeKind OR (mkNode BITVECTOR_AND cs) (cst 1 0)).
Proof using Type.
  intros Ht Hv. destruct (nary_operands cs _ Ht) as (w'&[= <-]&_&Hcs&Hl&Hm).
  assert (∀ env, env_ok env → bool_decide (bv_of (mkNode BITVECTOR_AND cs) env = v) = if bool_decide (v = 1) then forallb (bitsEq 1 env) cs else existsb (bitsEq 0 env) cs) as HV.
  { intros env Hok. rewrite (bv_of_term _ _ _ env (bv_opval (k:=BITVECTOR_AND) 1 cs Hcs Hl Hm) Hok). destruct (bits_and cs env Hcs Hok) as [-> ->]. by apply eq_bit. }
  destruct (bool_decide (v = 1)); (eapply boolterm_ext; [|exact HV]); [apply mkNodeKind_and|apply mkNodeKind_or]; done || lia.
Qed.

Lemma eq_or v cs : wt (mkNode BITVECTOR_OR cs) (BITVECTOR_TYPE 1) → 0 ≤ v < 2 →
  eqTerm (mkNode BITVECTOR_OR cs) v (if bool_decide (v = 1) then mkNodeKind OR (mkNode BITVECTOR_OR cs) (cst 1 1) else mkNodeKind AND (mkNode BITVECTOR_OR cs) (cst 1 0)).
Proof using Type.
  intros Ht Hv. destruct (nary_operands cs _ Ht) as (w'&[= <-]&_&Hcs&Hl&Hm).
  assert (∀ env, env_ok env → bool_decide (bv_of (mkNode BITVECTOR_OR cs) env = v) = if bool_decide (v = 1) then existsb (bitsEq 1 env) cs else forallb (bitsEq 0 env) cs) as HV.
  { intros env Hok. rewrite (bv_of_term _ _ _ env (bv_opval (k:=BITVECTOR_OR) 1 cs Hcs Hl Hm) Hok). destruct (bits_or cs env Hcs Hok) as [-> ->]. by apply eq_bit. }
  destruct (bool_decide (v = 1)); (eapply boolterm_ext; [|exact HV]); [apply mkNodeKind_or|apply mkNodeKind_and]; done || lia.
Qed.

(** The operators on two bits, by the four cases. *)
Lemma two_bits k f (v : Z) cs : (∀ n, arity_ok k n = bool_decide (n = 2%nat)) → (∀ ts, computeType k cs ts = BitVectorFixedWidthTypeRule ts) →
  (∀ a b w fa fb, bvterm a w fa → bvterm b w fb → bvterm (mkNode2 k a b) w (λ env, 2 ^ w - 1 - f (fa env) (fb env))) →
  wt (mkNode k cs) (BITVECTOR_TYPE 1) → ∃ a b, cs = [a; b] ∧ wts 1 cs ∧
  ∀ env, env_ok env → ∃ x y : bool, bv_of a env = b2z x ∧ bv_of b env = b2z y ∧ bv_of (mkNode k cs) env = 1 - f (b2z x) (b2z y).
Proof using Type.
  intros Har Hr Hb Ht. destruct (fixed2_terms k cs _ Har Hr Ht) as (a&b&w'&->&[= <-]&Ha&Hbt). exists a, b. pose proof Ha as (Hat&_). pose proof Hbt as (Hbt'&_).
  split_and!; [done|by apply Forall_cons_2; [|apply Forall_singleton]|]. intros env Hok. specialize (Hb a b 1 _ _ Ha Hbt).
  rewrite (bv_of_term _ _ _ env Hb Hok).
  destruct (bit_range a env Hat Hok) as [-> | ->], (bit_range b env Hbt' Hok) as [-> | ->];
    [exists false, false|exists false, true|exists true, false|exists true, true]; done.
Qed.

Lemma eq_nand v cs : wt (mkNode BITVECTOR_NAND cs) (BITVECTOR_TYPE 1) → 0 ≤ v < 2 →
  eqTerm (mkNode BITVECTOR_NAND cs) v (if bool_decide (v = 1) then mkNodeKind OR (mkNode BITVECTOR_NAND cs) (cst 1 0) else mkNodeKind AND (mkNode BITVECTOR_NAND cs) (cst 1 1)).
Proof using Type.
  intros Ht Hv. destruct (two_bits BITVECTOR_NAND Z.land v cs (λ _, eq_refl) (λ _, eq_refl) (λ a b w fa fb, bv_nand a b w fa fb) Ht) as (a&b&->&Hcs&HV).
  assert (v = 0 ∨ v = 1) as Hv' by lia. destruct Hv' as [-> | ->]; (eapply boolterm_ext; [cbn; first [apply mkNodeKind_or|apply mkNodeKind_and]; try done; try lia; simpl; unfold MAX_CHILDREN; lia|]);
    intros env Hok; destruct (HV env Hok) as (x&y&Ea&Eb&->); cbn; unfold bitsEq; rewrite Ea, Eb; by destruct x, y.
Qed.

Lemma eq_nor v cs : wt (mkNode BITVECTOR_NOR cs) (BITVECTOR_TYPE 1) → 0 ≤ v < 2 →
  eqTerm (mkNode BITVECTOR_NOR cs) v (if bool_decide (v = 1) then mkNodeKind AND (mkNode BITVECTOR_NOR cs) (cst 1 0) else mkNodeKind OR (mkNode BITVECTOR_NOR cs) (cst 1 1)).
Proof using Type.
  intros Ht Hv. destruct (two_bits BITVECTOR_NOR Z.lor v cs (λ _, eq_refl) (λ _, eq_refl) (λ a b w fa fb, bv_nor a b w fa fb) Ht) as (a&b&->&Hcs&HV).
  assert (v = 0 ∨ v = 1) as Hv' by lia. destruct Hv' as [-> | ->]; (eapply boolterm_ext; [cbn; first [apply mkNodeKind_or|apply mkNodeKind_and]; try done; try lia; simpl; unfold MAX_CHILDREN; lia|]);
    intros env Hok; destruct (HV env Hok) as (x&y&Ea&Eb&->); cbn; unfold bitsEq; rewrite Ea, Eb; by destruct x, y.
Qed.

(** The term of the equality, by its kind. *)
Definition eqResult (c : BitVector) (term : Node) : option Node :=
  let eqOne := BV.eq c (BV.new 1 1) in
  let zero := utils.mkConst 1 0 in let one := utils.mkConst 1 1 in
  match term with
  | mkNode BITVECTOR_AND _ => Some (if eqOne then mkNodeKind AND term one else mkNodeKind OR term zero)
  | mkNode BITVECTOR_NAND _ => Some (if eqOne then mkNodeKind OR term zero else mkNodeKind AND term one)
  | mkNode BITVECTOR_OR _ => Some (if eqOne then mkNodeKind OR term one else mkNodeKind AND term zero)
  | mkNode BITVECTOR_NOR _ => Some (if eqOne then mkNodeKind AND term zero else mkNodeKind OR term one)
  | mkNode BITVECTOR_NOT _ => t ← child term 0; Some (eqNode t (utils.mkConstOf (BV.not c)))
  | mkNode BITVECTOR_COMP _ =>
      _ ← assert (bool_decide (getNumChildren term = 2%nat));
      a ← child term 0; b ← child term 1; Some (if eqOne then eqNode a b else notNode (eqNode a b))
  | mkNode BITVECTOR_NEG _ => t ← child term 0; Some (eqNode t (utils.mkConstOf c))
  | _ => None
  end.

Definition bitKind (term : Node) : bool :=
  match term with
  | mkNode (BITVECTOR_AND | BITVECTOR_OR | BITVECTOR_NOT | BITVECTOR_NAND | BITVECTOR_NOR | BITVECTOR_COMP | BITVECTOR_NEG) _ => true
  | _ => false
  end.

Lemma eqResult_ok t v : wt t (BITVECTOR_TYPE 1) → 0 ≤ v < 2 → bitKind t = true →
  ∃ r, eqResult (mkBitVector 1 v) t = Some r ∧ eqTerm t v r.
Proof.
  intros Ht Hv Hk. unfold eqResult. rewrite eq_new, !mkConst_cst by lia. assert (0 < 1 ≤ max_uint32) as H1w by (unfold max_uint32; lia).
  destruct t as [| | | |k cs]; try done. destruct k; try done;
    try (eexists; split; [reflexivity|]; first [by apply eq_and|by apply eq_or|by apply eq_nand|by apply eq_nor]).
  - pose proof Ht as [Ht' Hc']. destruct (bvpred2_inv BITVECTOR_COMP cs _ (λ _, eq_refl) (λ _, eq_refl) Ht' Hc') as (a&b&w&->&_&Hw&Hta&Htb&Hca&Hcb).
    pose proof (wt_bvterm a w ltac:(by split)) as Ha. pose proof (wt_bvterm b w ltac:(by split)) as Hb.
    assert (∀ env, env_ok env → bool_decide (bv_of (mkNode2 BITVECTOR_COMP a b) env = v) = if bool_decide (v = 1) then bool_decide (bv_of a env = bv_of b env) else negb (bool_decide (bv_of a env = bv_of b env))) as HV.
    { intros env Hok. rewrite (bv_of_term _ _ _ env (bv_comp _ _ _ _ _ Ha Hb) Hok). by apply eq_bit. }
    eexists. split; [reflexivity|]. pose proof (bool_eq_bv _ _ _ _ _ Ha Hb) as He.
    destruct (bool_decide (v = 1)); (eapply boolterm_ext; [|exact HV]); [exact He|exact (bool_not _ _ He)].
  - destruct (not_terms cs _ Ht) as (a&w'&->&[= <-]&Ha). norm. eexists. split; [done|]. rewrite not_spec by (by split). cbn [d_size d_value].
    eapply boolterm_ext; [exact (bool_eq_bv _ _ _ _ _ Ha (bv_cst 1 (2 ^ 1 - 1 - v) H1w ltac:(lia)))|]. intros env Hok. cbv beta.
    rewrite (bv_of_term _ _ _ env (bv_not _ _ _ Ha) Hok). apply bool_decide_ext. lia.
  - destruct (fixed1_terms BITVECTOR_NEG cs _ (λ _, eq_refl) (λ _, eq_refl) Ht) as (a&w'&->&[= <-]&Ha). norm. eexists. split; [done|].
    eapply boolterm_ext; [exact (bool_eq_bv _ _ _ _ _ Ha (bv_cst 1 v H1w ltac:(lia)))|]. intros env Hok. cbv beta.
    rewrite (bv_of_term _ _ _ env (bv_neg _ _ _ Ha) Hok). pose proof Ha as (Hat&_). by destruct (bit_range a env Hat Hok) as [-> | ->].
Qed.

Lemma bitwiseEq_ok : rule_ok BitwiseEq.
Proof.
  intros n τ Hn _ Hap. cbn [applies BitwiseEq] in Hap. apply andb_true_iff in Hap as [Hap Hct]. apply andb_true_iff in Hap as [Hk Hs]. kind_of Hk.
  destruct (equal_terms cs τ Hn) as (a&b&t&->&->&Ha&Hb). norm. apply holds_true, bind_Some in Hs as (s&Hs&Hs1).
  assert (t = BITVECTOR_TYPE 1) as ->.
  { injection Hs1 as ->%bool_decide_eq_true. unfold getSize in Hs. destruct Ha as [Ha' _]. rewrite Ha' in Hs. cbn in Hs. destruct t; try done. by injection Hs as ->. }
  destruct (constAndTerm _) as [[c term]|] eqn:Ec; [|done]. assert (bitKind term = true) as Hbk by (by destruct term as [| | | |[] ]).
  assert (∃ v, c = mkBitVector 1 v ∧ 0 ≤ v < 2 ∧ wt term (BITVECTOR_TYPE 1) ∧ boolterm (mkNode2 EQUAL a b) (λ env, bool_decide (bv_of term env = v))) as (v&->&Hv&Ht&HE).
  { unfold constAndTerm in Ec. norm. pose proof (bool_eq_bv _ _ _ _ _ (wt_bvterm _ _ Ha) (wt_bvterm _ _ Hb)) as HE.
    destruct (getConstBV a) as [c'|] eqn:Eca; [|destruct (getConstBV b) as [c'|] eqn:Ecb; [|done]]; injection Ec as -> ->;
      [destruct a; try done; injection Eca as ->|destruct b; try done; injection Ecb as ->];
      [destruct (constBV_cst (mkConstBV c) 1 _ eq_refl (wt_bvterm _ _ Ha)) as (v&[= ->]&Hv)|destruct (constBV_cst (mkConstBV c) 1 _ eq_refl (wt_bvterm _ _ Hb)) as (v&[= ->]&Hv)];
      exists v; split_and!; try done; try lia; (eapply boolterm_ext; [exact HE|]); intros env Hok; apply bool_decide_ext;
      change (mkConstBV (mkBitVector 1 v)) with (cst 1 v); rewrite bv_of_cst; split; congruence. }
  destruct (eqResult_ok term v Ht Hv Hbk) as (r&Er&Hr). exists r. split; [|by eapply equiv_bool].
  unfold BitwiseEq. cbn [apply]. rewrite Ec. exact Er.
Qed.

(** ** Flattening without duplicates *)

Section noDuplicates.
Context `{!NaryKind k (λ _, g) e}.
Context (w z : Z).
Hypothesis Hw : 0 < w ≤ max_uint32.
Hypothesis Hz : lattice_op w g z.

(** [n] adds nothing to the operands [ns]. *)
Definition absorbed (n : Node) (ns : list Node) : Prop :=
  ∀ env, env_ok env → g (bv_of n env) (opval g (e w) ns env) = opval g (e w) ns env.

Lemma absorbed_in n ns : wts w ns → n ∈ ns → absorbed n ns.
Proof using Type*.
  intros Hns (l1&l2&->)%list_elem_of_split env Hok. assert (comm_op w g (e w)) as Hop by exact (nk_op (NaryKind:=NaryKind0) w ltac:(lia)).
  rewrite (opval_perm w _ _ env Hop _ (n :: (l1 ++ l2))) by (by rewrite Permutation_middle). cbn [opval foldr]. rewrite (op_assoc _ _ _ Hop). f_equal.
  apply Hz. apply Forall_app in Hns as [_ Hns]. apply list.Forall_cons in Hns as [Hn _]. by apply wt_bound.
Qed.

Lemma absorbed_all cs ns : wts w cs → wts w ns → (∀ c, c ∈ cs → absorbed c ns) → ∀ env, env_ok env →
  g (opval g (e w) cs env) (opval g (e w) ns env) = opval g (e w) ns env.
Proof using Type*.
  intros Hcs Hns. assert (comm_op w g (e w)) as Hop by exact (nk_op (NaryKind:=NaryKind0) w ltac:(lia)).
  induction Hcs as [|c cs Hc _ IH]; intros Ha env Hok; [apply Hop; by apply (opval_bound w)|]. cbn [opval foldr].
  rewrite <- (op_assoc _ _ _ Hop). unfold opval in IH. unfold opval. rewrite IH; [|intros; apply Ha; by right|done]. apply Ha; [by left|done].
Qed.

(** What has been processed is among the operands, or its operands are on the
    stack or processed. *)
Definition processed_ok (stack processed out : list Node) : Prop :=
  ∀ p, p ∈ processed → wt p (BITVECTOR_TYPE w) ∧
    if isKind k p then ∀ d, d ∈ children p → d ∈ stack ∨ d ∈ processed else p ∈ out.

Lemma processed_absorbed stack processed out : wts w stack → wts w out → processed_ok stack processed out →
  ∀ m p, (nsize p ≤ m)%nat → p ∈ processed → absorbed p (stack ++ out).
Proof using Type*.
  intros Hst Hout Hpr m. assert (wts w (stack ++ out)) as Hall by (by apply Forall_app). induction m as [|m IH]; intros p Hm Hp; [pose proof (nsize_pos p); lia|].
  destruct (Hpr p Hp) as [Hpt Hc]. destruct (isKind k p) eqn:Hk; [|apply absorbed_in; [done|apply elem_of_app; by right]].
  kind_of Hk. intros env Hok. destruct (nested_value (k:=k) w cs env Hpt Hok) as (Hcs&_&->). apply absorbed_all; try done. intros d Hd.
  pose proof (nsize_child k cs d Hd). destruct (Hc d Hd) as [Hds|Hdp]; [apply absorbed_in; [done|apply elem_of_app; by left]|]. apply IH; [lia|done].
Qed.

Lemma processed_left stack processed out : processed_ok stack processed out → ∀ m p, (nsize p ≤ m)%nat → p ∈ processed → stack ++ out ≠ [].
Proof using Type*.
  intros Hpr m. induction m as [|m IH]; intros p Hm Hp; [pose proof (nsize_pos p); lia|].
  destruct (Hpr p Hp) as [Hpt Hc]. destruct (isKind k p) eqn:Hk; [|intros [_ ->]%app_eq_nil; by apply elem_of_nil in Hc].
  kind_of Hk. destruct (nary_operands cs _ Hpt) as (w'&_&_&_&Hl&_). destruct cs as [|d cs]; [simpl in Hl; lia|].
  destruct (Hc d ltac:(by left)) as [Hds|Hdp]; [intros [-> _]%app_eq_nil; by apply elem_of_nil in Hds|].
  apply (IH d); [|done]. pose proof (nsize_child k (d :: cs) d ltac:(by left)). lia.
Qed.

Lemma flattenSetLoop_spec fuel : ∀ stack processed out,
  wts w stack → wts w out → processed_ok stack processed out → (sum_list_with nsize stack < fuel)%nat →
  ∃ res, flattenSetLoop fuel k stack processed out = Some res ∧ wts w res ∧ (processed ≠ [] ∨ stack ++ out ≠ [] → res ≠ []) ∧
    ∀ env, env_ok env → opval g (e w) res env = opval g (e w) (stack ++ out) env.
Proof using Type*.
  assert (comm_op w g (e w)) as Hop by exact (nk_op (NaryKind:=NaryKind0) w ltac:(lia)).
  induction fuel as [|fuel IH]; intros stack processed out Hst Hout Hpr Hf; [lia|]. cbn [flattenSetLoop]. destruct stack as [|c stack].
  { exists out. split_and!; try done. intros [Hne|Hne]; [|done]. destruct processed as [|p ps]; [done|].
    exact (processed_left [] (p :: ps) out Hpr (nsize p) p ltac:(lia) ltac:(by left)). }
  apply list.Forall_cons in Hst as [Hc Hst]. cbn [sum_list_with] in Hf. pose proof (nsize_pos c). destruct (decide (c ∈ processed)) as [Hin|Hin].
  - assert (processed_ok stack processed out) as Hpr'.
    { intros p Hp. destruct (Hpr p Hp) as [Hpt Hpc]. split; [done|]. destruct (isKind k p); [|done]. intros d Hd.
      destruct (Hpc d Hd) as [[-> | ?]%elem_of_cons|?]; auto. }
    destruct (IH stack processed out Hst Hout Hpr') as (res&E&Hres&Hl&HV); [lia|]. exists res. split_and!; try done; [intros _; apply Hl; left; by intros ->; apply elem_of_nil in Hin|]. intros env Hok. rewrite HV by done.
    symmetry. exact (processed_absorbed stack processed out Hst Hout Hpr' (nsize c) c ltac:(lia) Hin env Hok).
  - destruct (isKind k c) eqn:Hk.
    + kind_of Hk. cbn [children]. rewrite push_children. destruct (nested_value (k:=k) w cs env0 Hc env0_ok) as (Hcs&_&_). rewrite nsize_node in Hf.
      assert (wts w (reverse cs)) as Hr by (by apply Forall_reverse).
      destruct (IH (reverse cs ++ stack) (mkNode k cs :: processed) out) as (res&E&Hres&Hl&HV);
        [by apply Forall_app|done| |rewrite sum_list_with_app, sum_list_with_reverse; lia|].
      { intros p [-> |Hp]%elem_of_cons.
        - split; [done|]. cbn [isKind]. rewrite bool_decide_true by done. intros d Hd. left. apply elem_of_app. left. by apply elem_of_reverse.
        - destruct (Hpr p Hp) as [Hpt Hpc]. split; [done|]. destruct (isKind k p); [|done]. intros d Hd.
          destruct (Hpc d Hd) as [[-> | ?]%elem_of_cons|?]; [right; by left|left; apply elem_of_app; by right|right; by right]. }
      exists res. split_and!; try done; [intros _; apply Hl; by left|]. intros env Hok. rewrite HV by done.
      change ((mkNode k cs :: stack) ++ out) with (mkNode k cs :: (stack ++ out)). etrans; [|symmetry; exact (opval_nested (k:=k) w cs (stack ++ out) env Hc ltac:(by apply Forall_app) ltac:(lia) Hok)].
      apply (opval_perm w _ _ env Hop). rewrite <- app_assoc. by rewrite (reverse_Permutation cs).
    + destruct (IH stack (c :: processed) (out ++ [c])) as (res&E&Hres&Hl&HV); [done|apply Forall_app; split; [done|by apply Forall_singleton]| |lia|].
      { intros p [-> |Hp]%elem_of_cons.
        - split; [done|]. rewrite Hk. apply elem_of_app. right. by left.
        - destruct (Hpr p Hp) as [Hpt Hpc]. split; [done|]. destruct (isKind k p); [|apply elem_of_app; by left]. intros d Hd.
          destruct (Hpc d Hd) as [[-> | ?]%elem_of_cons|?]; [right; by left|by left|right; by right]. }
      exists res. split_and!; try done; [intros _; apply Hl; by left|]. intros env Hok. rewrite HV by done.
      apply (opval_perm w _ _ env Hop). rewrite (app_assoc stack), (Permutation_app_comm _ [c]). done.
Qed.

End noDuplicates.

(** The operands that are left fit into one node. *)
Definition flattened_fits (n : Node) : Prop :=
  ∀ k res, assocKind n = Some k → flattenSetLoop (S (nsize n)) k [n] [] [] = Some res → Z.of_nat (length res) ≤ MAX_CHILDREN.

Lemma noDuplicates_kind k g e z n τ `{!NaryKind k (λ _, g) e} :
  (∀ w, 0 < w → lattice_op w g (z w)) → k ∈ [BITVECTOR_AND; BITVECTOR_OR; BITVECTOR_XOR] →
  assocKind n = Some k → isKind k n = true → wt n τ → flattened_fits n →
  ∃ n', apply FlattenAssocCommutNoDuplicates n = Some n' ∧ equiv n n'.
Proof.
  intros Hz Hin Hak Hk Hn Hfit. cbn [apply FlattenAssocCommutNoDuplicates]. specialize (Hfit k). rewrite Hak in *. cbn [mbind option_bind]. kind_of Hk.
  destruct (nary_operands cs τ Hn) as (w&->&Hw&Hcs&Hl&Hm). pose proof (bv_opval w cs Hcs Hl Hm) as HN.
  destruct (flattenSetLoop_spec (k:=k) (g:=g) w (z w) Hw (Hz w ltac:(lia)) (S (nsize (mkNode k cs))) [mkNode k cs] [] []) as (res&E&Hres&Hne&HV);
    [by apply Forall_singleton|constructor|by intros p Hp%elem_of_nil|simpl; lia|].
  rewrite E. cbn [mbind option_bind]. assert (∀ env, env_ok env → opval g (e w) res env = opval g (e w) cs env) as HV'.
  { intros env Hok. rewrite HV by done. rewrite app_nil_r.
    etrans; [exact (opval_nested (k:=k) w cs [] env Hn ltac:(constructor) ltac:(lia) Hok)|]. by rewrite app_nil_r. }
  destruct (mkSortedNode_term (k:=k) w res) as (n'&->&Hn'); [done|done| |by apply Hfit|].
  - apply Hne. by right.
  - exists n'. split; [done|]. eapply equiv_bv; [exact HN|exact Hn'|]. intros env Hok _. by apply HV'.
Qed.

Lemma flattenNoDuplicates_sound n τ : wt n τ → flattened_fits n → applies FlattenAssocCommutNoDuplicates n = true →
  ∃ n', apply FlattenAssocCommutNoDuplicates n = Some n' ∧ equiv n n'.
Proof.
  intros Hn Hfit Hap. cbn [applies FlattenAssocCommutNoDuplicates] in Hap. apply orb_true_iff in Hap as [Hap|Hap]; apply andb_true_iff in Hap as [Hk _].
  - eapply (noDuplicates_kind BITVECTOR_OR Z.lor (λ _, 0) (λ w, 2 ^ w - 1)); try done; [apply _|by apply lattice_or|rewrite !elem_of_cons; tauto|by kind_of Hk].
  - eapply (noDuplicates_kind BITVECTOR_AND Z.land (λ w, 2 ^ w - 1) (λ _, 0)); try done; [apply _|by apply lattice_and|rewrite !elem_of_cons; tauto|by kind_of Hk].
Qed.

End sound.
