(* ===== verification/BvNormalizeTheorems.v ===== *)
(** What the normalization rules of the bit-vector rewriter promise. *)
From stdpp Require Import base option list numbers sorting countable.
From S2P Require Import Prelude Integer Node TypeRules Semantics BvArith TypeSound BitVectorUtil BvElim BvTerms BvElimSound BvCore BvCoreSound BvSimplify BvAssoc BvSimplifySound BvNormalize BvNormalizeBits BvNormalizeSound BvProductSound BvCountSound BvRuleTheorems.
Open Scope Z_scope.

#[export] Hint Resolve extractNot_ok extractSignExtend_ok flattenAssocCommut_ok multSimplify_ok multDistribConst_ok
  multDistrib_ok bitwiseEq_ok negSub_ok negAdd_ok andSimplify_ok orSimplify_ok xorSimplify_ok bitwiseSlicing_ok : rules.

Section theorems.
Context `{!Gmp, !GmpLaws, !NodeIds, !NodeIdsLaws, !HashOrder, !HashOrderLaws}.

Definition normalization_rules : list RewriteRule :=
  [ExtractNot; ExtractSignExtend; FlattenAssocCommut; MultSimplify; MultDistribConst; MultDistrib; BitwiseEq; NegSub;
   NegAdd; AndSimplify; OrSimplify; XorSimplify; BitwiseSlicing].

(** C37: the thirteen normalization rules of the list above, when they apply to a
    typed term that is no wider than the number of children of a node, return, and
    the term they return has the same type and the same value, whatever the order
    of the nodes and of the hash tables: flattening and sorting of operands, products
    with constants, distribution, duplicates and complements of bitwise
    operators, slicing by a constant. *)
Theorem normalization_rules_sound r n τ :
  r ∈ normalization_rules → wt n τ → tsmall τ → applies r n = true → ∃ n', apply r n = Some n' ∧ equiv n n'.
Proof. apply rule_in. unfold normalization_rules. auto 50 with rules. Qed.

(** C38: [AddCombineLikeTerms] on a sum whose products have their constants at
    the end, and [FlattenAssocCommutNoDuplicates] when the operands that are
    left fit into one node, return a term of the same type and value. *)
Theorem sums_and_sets_sound n τ :
  wt n τ →
  (applies AddCombineLikeTerms n = true → sum_guard n → ∃ n', apply AddCombineLikeTerms n = Some n' ∧ equiv n n') ∧
  (applies FlattenAssocCommutNoDuplicates n = true → flattened_fits n →
   ∃ n', apply FlattenAssocCommutNoDuplicates n = Some n' ∧ equiv n n').
Proof.
  intros Hn. split; intros Hap Hg; [by eapply addCombineLikeTerms_sound|by eapply flattenNoDuplicates_sound].
Qed.

End theorems.

(** ** Witnesses *)

(** The ids of variables and constants, and hash tables in insertion order. *)
Definition positionId : NodeIds := λ n, Z.pos (encode n).

Lemma positionId_laws : @NodeIdsLaws positionId.
Proof. intros a b E. unfold nodeId, positionId in E. injection E as E. by apply encode_inj. Qed.

Definition insertionOrder : HashOrder := λ l, l.
Lemma insertionOrder_laws : @HashOrderLaws insertionOrder.
Proof. intros l. done. Qed.

(** (bvand (bvor x 12) 10) sliced by the constant 10. *)
Lemma normalization_rules_sound_witness :
  let n := mkNode BITVECTOR_AND [mkNode BITVECTOR_OR [bvVar 1 4; mkConstBV (mkBitVector 4 12)]; mkConstBV (mkBitVector 4 10)] in
  ∃ n', apply BitwiseSlicing n = Some n' ∧ equiv n n'.
Proof.
  intros n. apply (normalization_rules_sound (H1:=positionId) (H2:=positionId_laws) (H3:=insertionOrder) (H4:=insertionOrder_laws) BitwiseSlicing n (BITVECTOR_TYPE 4)).
  - unfold normalization_rules. rewrite !elem_of_cons. tauto.
  - split; vm_compute; reflexivity.
  - vm_compute. discriminate.
  - vm_compute. reflexivity.
Defined.

(** 3 * x + y - x. *)
Lemma sums_and_sets_sound_witness :
  let n := mkNode BITVECTOR_ADD [mkNode BITVECTOR_MULT [bvVar 1 4; mkConstBV (mkBitVector 4 3)]; mkNode BITVECTOR_SUB [bvVar 2 4; bvVar 1 4]] in
  ∃ n', apply (@AddCombineLikeTerms _ positionId) n = Some n' ∧ equiv n n'.
Proof.
  intros n. refine (proj1 (sums_and_sets_sound (H1:=positionId) (H2:=positionId_laws) n (BITVECTOR_TYPE 4) _) _ _).
  - split; vm_compute; reflexivity.
  - reflexivity.
  - split; [vm_compute; reflexivity|]. split; [vm_compute; reflexivity|vm_compute; discriminate].
Defined.
