(* ===== verification/BvRewriter.v ===== *)
(** [theory/bv/theory_bv_rewriter.cpp]: the strategies that put the rules
    together, and the table of rewriters by kind.  A rewriter returns [None] if
    a rule fails an assertion. *)
From stdpp Require Import base option list numbers.
From S2P Require Import Prelude Integer Node TypeRules BitVectorUtil BvElim TheoryRewriter BvConst BvCore BvSimplify BvSimplifyArith BvNormalize BvNormalizeBits.
Open Scope Z_scope.

(** ** Strategies *)

(** [RewriteRule<rule>::run<checkApplies>]. *)
Definition run (checkApplies : bool) (r : RewriteRule) (node : Node) : option Node :=
  if negb checkApplies || applies r node then
    _ ← assert (checkApplies || applies r node); apply r node
  else Some node.

(** [LinearRewriteStrategy]: each rule once, in order. *)
Fixpoint LinearRewriteStrategy (rs : list RewriteRule) (node : Node) : option Node :=
  match rs with
  | [] => Some node
  | r :: rs =>
      current ← (if applies r node then run false r node else Some node);
      LinearRewriteStrategy rs current
  end.

(** [ApplyRuleToChildren], as a rule. *)
Definition ApplyRuleToChildren (kind : Kind) (r : RewriteRule) : RewriteRule := {|
  applies node := isKind kind node || applies r node;
  apply node :=
    if negb (isKind kind node) then run true r node
    else cs ← mapM (run true r) (children node); Some (mkNode kind cs);
|}.

(** [TRY_REWRITE]: [rest] is what follows it. *)
Definition TRY_REWRITE (r : RewriteRule) (node : Node) (rest : option RewriteResponse) : option RewriteResponse :=
  if applies r node then
    nrew ← run false r node;
    if decide (nrew ≠ node) then Some (mkRewriteResponse REWRITE_AGAIN_FULL nrew) else rest
  else rest.

(** [if (RewriteRule<rule>::applies(node)) { ...; return ...; }] *)
Definition ifApplies (r : RewriteRule) (node : Node) (status : RewriteStatus) (rest : option RewriteResponse) : option RewriteResponse :=
  if applies r node then resultNode ← run false r node; Some (mkRewriteResponse status resultNode) else rest.

(** A strategy with the status of its response. *)
Definition respond (status : RewriteStatus) (rs : list RewriteRule) (node : Node) : option RewriteResponse :=
  resultNode ← LinearRewriteStrategy rs node; Some (mkRewriteResponse status resultNode).

(** [resultNode != node ? changed : REWRITE_DONE]. *)
Definition respondIf (changed : RewriteStatus) (rs : list RewriteRule) (node : Node) : option RewriteResponse :=
  resultNode ← LinearRewriteStrategy rs node;
  Some (mkRewriteResponse (if decide (resultNode = node) then REWRITE_DONE else changed) resultNode).

Section rewriter.
Context `{!Gmp, !NodeIds, !HashOrder}.

(** ** Overflow predicates *)

Definition eliminateOverflows (node : Node) : option Node :=
  if applies UaddoEliminate node then run false UaddoEliminate node
  else if applies SaddoEliminate node then run false SaddoEliminate node
  else if applies UmuloEliminate node then run false UmuloEliminate node
  else if applies SmuloEliminate node then run false SmuloEliminate node
  else if applies UsuboEliminate node then run false UsuboEliminate node
  else if applies SsuboEliminate node then run false SsuboEliminate node
  else Some node.

Definition expandDefinition (node : Node) : option Node := eliminateOverflows node.

Definition RewriteOverflow (node : Node) (prerewrite : bool) : option RewriteResponse :=
  if forallb isConst (children node) then
    nodeo ← eliminateOverflows node; Some (mkRewriteResponse REWRITE_AGAIN_FULL nodeo)
  else Some (mkRewriteResponse REWRITE_DONE node).

(** ** Predicates *)

Definition RewriteBit (node : Node) (prerewrite : bool) := respond REWRITE_DONE [BitConst] node.

Definition RewriteUlt (node : Node) (prerewrite : bool) :=
  respondIf REWRITE_AGAIN_FULL
    [EvalUlt; UltSelf; UltOne; UltOnes; UltZero; SignExtendUltConst; ZeroExtendUltConst; IneqElimConversion] node.

Definition RewriteUltBv (node : Node) (prerewrite : bool) := respond REWRITE_DONE [EvalUltBv] node.
Definition RewriteSlt (node : Node) (prerewrite : bool) := respond REWRITE_DONE [EvalSlt; SltSelf; MultSltMult] node.
Definition RewriteSltBv (node : Node) (prerewrite : bool) := respond REWRITE_DONE [EvalSltBv] node.

Definition RewriteUle (node : Node) (prerewrite : bool) :=
  respondIf REWRITE_AGAIN [EvalUle; UleMax; ZeroUle; IneqElimConversion; UleZero; UleSelf; UleEliminate] node.

Definition RewriteSle (node : Node) (prerewrite : bool) := respondIf REWRITE_AGAIN [EvalSle; SleEliminate] node.
Definition RewriteUgt (node : Node) (prerewrite : bool) := respond REWRITE_AGAIN [UgtUrem; UgtEliminate] node.
Definition RewriteSgt (node : Node) (prerewrite : bool) := respond REWRITE_AGAIN [SgtEliminate] node.
Definition RewriteUge (node : Node) (prerewrite : bool) := respond REWRITE_AGAIN [UgeEliminate] node.
Definition RewriteSge (node : Node) (prerewrite : bool) := respond REWRITE_AGAIN_FULL [SgeEliminate] node.

Definition RewriteEqual (node : Node) (prerewrite : bool) :=
  if prerewrite then respond REWRITE_DONE [FailEq; SimplifyEq; ReflexivityEq] node
  else respond REWRITE_DONE [FailEq; SimplifyEq; ReflexivityEq] node.

Definition RewriteNego (node : Node) (prerewrite : bool) := respond REWRITE_AGAIN [NegoEliminate] node.
Definition RewriteSdivo (node : Node) (prerewrite : bool) := respond REWRITE_AGAIN [SdivoEliminate] node.
Definition RewriteEagerAtom (node : Node) (prerewrite : bool) := respond REWRITE_DONE [EvalEagerAtom] node.

(** ** [BITVECTOR_ITE] *)

Definition RewriteITEBv (node : Node) (prerewrite : bool) : option RewriteResponse :=
  resultNode ← LinearRewriteStrategy [EvalITEBv; BvIteConstCond; BvIteEqualChildren] node;
  if decide (resultNode ≠ node) then Some (mkRewriteResponse REWRITE_AGAIN resultNode)
  else
    resultNode ← LinearRewriteStrategy [BvIteConstChildren; BvIteEqualCond] node;
    if decide (resultNode ≠ node) then Some (mkRewriteResponse REWRITE_AGAIN resultNode)
    else respondIf REWRITE_AGAIN_FULL [BvIteMergeThenIf; BvIteMergeElseIf; BvIteMergeThenElse; BvIteMergeElseElse] node.

(** ** Bitwise operators, concatenations and extracts *)

Definition RewriteNot (node : Node) (prerewrite : bool) := respond REWRITE_DONE [NotIdemp; EvalNot] node.

Definition RewriteExtract (node : Node) (prerewrite : bool) : option RewriteResponse :=
  ifApplies ExtractConcat node REWRITE_AGAIN_FULL (
  ifApplies ExtractSignExtend node REWRITE_AGAIN_FULL (
  ifApplies ExtractNot node REWRITE_AGAIN_FULL (
  let rest := respondIf REWRITE_AGAIN [ExtractWhole; ExtractMultLeadingBit; ExtractConstant] node in
  if negb prerewrite then TRY_REWRITE ExtractExtract node rest else rest))).

Definition RewriteConcat (node : Node) (prerewrite : bool) : option RewriteResponse :=
  TRY_REWRITE ConcatFlatten node (
  TRY_REWRITE ConcatExtractMerge node (
  respondIf REWRITE_AGAIN [ApplyRuleToChildren BITVECTOR_CONCAT ExtractWhole; ConcatConstantMerge] node)).

Definition RewriteAnd (node : Node) (prerewrite : bool) : option RewriteResponse :=
  let done := Some (mkRewriteResponse REWRITE_DONE node) in
  TRY_REWRITE AndSimplify node (
  TRY_REWRITE AndOrXorConcatPullUp node (
  if negb prerewrite then TRY_REWRITE BitwiseSlicing node done else done)).

Definition RewriteOr (node : Node) (prerewrite : bool) : option RewriteResponse :=
  let done := Some (mkRewriteResponse REWRITE_DONE node) in
  TRY_REWRITE OrSimplify node (
  TRY_REWRITE AndOrXorConcatPullUp node (
  if negb prerewrite then TRY_REWRITE BitwiseSlicing node done else done)).

Definition RewriteXor (node : Node) (prerewrite : bool) : option RewriteResponse :=
  let done := Some (mkRewriteResponse REWRITE_DONE node) in
  TRY_REWRITE XorSimplify node (
  TRY_REWRITE XorZero node (
  TRY_REWRITE AndOrXorConcatPullUp node (
  if negb prerewrite then TRY_REWRITE XorOnes node (TRY_REWRITE BitwiseSlicing node done) else done))).

Definition RewriteXnor (node : Node) (prerewrite : bool) := respond REWRITE_AGAIN_FULL [XnorEliminate] node.
Definition RewriteNand (node : Node) (prerewrite : bool) := respond REWRITE_AGAIN_FULL [NandEliminate] node.
Definition RewriteNor (node : Node) (prerewrite : bool) := respond REWRITE_AGAIN_FULL [NorEliminate] node.

Definition RewriteComp (node : Node) (prerewrite : bool) : option RewriteResponse :=
  resultNode ← LinearRewriteStrategy [EvalComp] node;
  if bool_decide (node = resultNode) && applies BvComp node then
    resultNode ← run false BvComp node; Some (mkRewriteResponse REWRITE_AGAIN resultNode)
  else Some (mkRewriteResponse REWRITE_DONE resultNode).

Definition RewriteConstBvSym (node : Node) (prerewrite : bool) := respond REWRITE_DONE [EvalConstBvSym] node.
Definition RewriteSize (node : Node) (prerewrite : bool) := respond REWRITE_DONE [SizeEliminate] node.
Definition RewriteRedor (node : Node) (prerewrite : bool) := respond REWRITE_AGAIN_FULL [RedorEliminate] node.
Definition RewriteRedand (node : Node) (prerewrite : bool) := respond REWRITE_AGAIN_FULL [RedandEliminate] node.
Definition RewriteRepeat (node : Node) (prerewrite : bool) := respond REWRITE_AGAIN_FULL [RepeatEliminate] node.
Definition RewriteZeroExtend (node : Node) (prerewrite : bool) := respond REWRITE_AGAIN [ZeroExtendEliminate] node.
Definition RewriteSignExtend (node : Node) (prerewrite : bool) := respondIf REWRITE_AGAIN [MergeSignExtend; EvalSignExtend] node.
Definition RewriteRotateRight (node : Node) (prerewrite : bool) := respond REWRITE_AGAIN_FULL [RotateRightEliminate] node.
Definition RewriteRotateLeft (node : Node) (prerewrite : bool) := respond REWRITE_AGAIN_FULL [RotateLeftEliminate] node.

(** ** Arithmetic *)

Definition RewriteMult (node : Node) (prerewrite : bool) : option RewriteResponse :=
  let done := Some (mkRewriteResponse REWRITE_DONE node) in
  TRY_REWRITE FlattenAssocCommut node (
  TRY_REWRITE MultSimplify node (
  if negb prerewrite then
    TRY_REWRITE MultPow2 node (TRY_REWRITE MultDistribConst node (TRY_REWRITE MultDistrib node done))
  else done)).

Definition RewriteAdd (node : Node) (prerewrite : bool) : option RewriteResponse :=
  if prerewrite then respond REWRITE_DONE [FlattenAssocCommut] node
  else respondIf REWRITE_AGAIN_FULL [FlattenAssocCommut; AddCombineLikeTerms] node.

Definition RewriteSub (node : Node) (prerewrite : bool) := respond REWRITE_AGAIN_FULL [SubEliminate] node.

Definition RewriteNeg (node : Node) (prerewrite : bool) : option RewriteResponse :=
  resultNode ← LinearRewriteStrategy [EvalNeg; NegIdemp; NegSub] node;
  ifApplies NegAdd node REWRITE_AGAIN_FULL (
  let rest := Some (mkRewriteResponse (if decide (resultNode = node) then REWRITE_DONE else REWRITE_AGAIN) resultNode) in
  if negb prerewrite then ifApplies NegMult node REWRITE_AGAIN_FULL rest else rest).

Definition RewriteUdiv (node : Node) (prerewrite : bool) : option RewriteResponse :=
  ifApplies UdivPow2 node REWRITE_AGAIN_FULL (respond REWRITE_DONE [EvalUdiv; UdivZero; UdivOne] node).

Definition RewriteUrem (node : Node) (prerewrite : bool) : option RewriteResponse :=
  ifApplies UremPow2 node REWRITE_AGAIN_FULL (respond REWRITE_DONE [EvalUrem; UremOne; UremSelf] node).

Definition RewriteSmod (node : Node) (prerewrite : bool) := respond REWRITE_AGAIN_FULL [SmodEliminate] node.
Definition RewriteSdiv (node : Node) (prerewrite : bool) := respond REWRITE_AGAIN_FULL [SdivEliminate] node.
Definition RewriteSrem (node : Node) (prerewrite : bool) := respond REWRITE_AGAIN_FULL [SremEliminate] node.

Definition RewriteShl (node : Node) (prerewrite : bool) : option RewriteResponse :=
  ifApplies ShlByConst node REWRITE_AGAIN_FULL (respond REWRITE_DONE [EvalShl; ShiftZero] node).
Definition RewriteLshr (node : Node) (prerewrite : bool) : option RewriteResponse :=
  ifApplies LshrByConst node REWRITE_AGAIN_FULL (respond REWRITE_DONE [EvalLshr; ShiftZero] node).
Definition RewriteAshr (node : Node) (prerewrite : bool) : option RewriteResponse :=
  ifApplies AshrByConst node REWRITE_AGAIN_FULL (respond REWRITE_DONE [EvalAshr; ShiftZero] node).

(** ** The table *)

Definition IdentityRewrite (node : Node) (prerewrite : bool) : option RewriteResponse :=
  Some (mkRewriteResponse REWRITE_DONE node).

(** [d_rewriteTable], as [initializeRewrites] fills it. *)
Definition d_rewriteTable (k : Kind) : Node → bool → option RewriteResponse :=
  match k with
  | EQUAL => RewriteEqual
  | BITVECTOR_BIT _ => RewriteBit
  | BITVECTOR_ULT => RewriteUlt
  | BITVECTOR_SLT => RewriteSlt
  | BITVECTOR_ULE => RewriteUle
  | BITVECTOR_SLE => RewriteSle
  | BITVECTOR_UGT => RewriteUgt
  | BITVECTOR_SGT => RewriteSgt
  | BITVECTOR_UGE => RewriteUge
  | BITVECTOR_SGE => RewriteSge
  | BITVECTOR_NOT => RewriteNot
  | BITVECTOR_CONCAT => RewriteConcat
  | BITVECTOR_AND => RewriteAnd
  | BITVECTOR_OR => RewriteOr
  | BITVECTOR_XOR => RewriteXor
  | BITVECTOR_XNOR => RewriteXnor
  | BITVECTOR_NAND => RewriteNand
  | BITVECTOR_NOR => RewriteNor
  | BITVECTOR_COMP => RewriteComp
  | BITVECTOR_MULT => RewriteMult
  | BITVECTOR_ADD => RewriteAdd
  | BITVECTOR_SUB => RewriteSub
  | BITVECTOR_NEG => RewriteNeg
  | BITVECTOR_UDIV => RewriteUdiv
  | BITVECTOR_UREM => RewriteUrem
  | BITVECTOR_SMOD => RewriteSmod
  | BITVECTOR_SDIV => RewriteSdiv
  | BITVECTOR_SREM => RewriteSrem
  | BITVECTOR_SHL => RewriteShl
  | BITVECTOR_LSHR => RewriteLshr
  | BITVECTOR_ASHR => RewriteAshr
  | BITVECTOR_EXTRACT _ _ => RewriteExtract
  | BITVECTOR_REPEAT _ => RewriteRepeat
  | BITVECTOR_ZERO_EXTEND _ => RewriteZeroExtend
  | BITVECTOR_SIGN_EXTEND _ => RewriteSignExtend
  | BITVECTOR_ROTATE_RIGHT _ => RewriteRotateRight
  | BITVECTOR_ROTATE_LEFT _ => RewriteRotateLeft
  | BITVECTOR_REDOR => RewriteRedor
  | BITVECTOR_REDAND => RewriteRedand
  | BITVECTOR_ULTBV => RewriteUltBv
  | BITVECTOR_SLTBV => RewriteSltBv
  | BITVECTOR_ITE => RewriteITEBv
  | BITVECTOR_NEGO => RewriteNego
  | BITVECTOR_SDIVO => RewriteSdivo
  | BITVECTOR_EAGER_ATOM => RewriteEagerAtom
  | BITVECTOR_SIZE => RewriteSize
  | CONST_BITVECTOR_SYMBOLIC => RewriteConstBvSym
  | BITVECTOR_SADDO | BITVECTOR_UADDO | BITVECTOR_SMULO | BITVECTOR_UMULO | BITVECTOR_SSUBO | BITVECTOR_USUBO => RewriteOverflow
  | _ => IdentityRewrite
  end.

(** [d_rewriteTable[node.getKind()](node, prerewrite)]; variables and constants
    have kinds the table leaves alone. *)
Definition rewriteTable (node : Node) (prerewrite : bool) : option RewriteResponse :=
  match node with
  | mkNode k _ => d_rewriteTable k node prerewrite
  | _ => IdentityRewrite node prerewrite
  end.

Definition preRewrite (node : Node) : option RewriteResponse := rewriteTable node true.
Definition postRewrite (node : Node) : option RewriteResponse := rewriteTable node false.

End rewriter.
