(* ===== verification/BvRewriterSound.v ===== *)
(** The bit-vector rewriter keeps the type and the value of a term: every entry
    of its table, from the soundness of the rules. *)
From stdpp Require Import base option list numbers sorting.
From S2P Require Import Prelude Integer Node TypeRules Semantics BvArith TypeSound BitVectorUtil BvElim BvTerms TheoryRewriter BvElimArith BvElimSound BvConst BvConstSound BvCore BvCoreSound BvSimplify BvAssoc BvSimplifySound BvSimplifyArith BvSimplifyArithSound BvNormalize BvNormalizeBits BvNormalizeSound BvProductSound BvCountSound BvRuleTheorems BvNormalizeTheorems BvRewriter.
Open Scope Z_scope.

(** ** Widths *)

(** No subterm is wider than a node can have children. *)
Fixpoint bounded (n : Node) : bool :=
  match typeOf n with Some (BITVECTOR_TYPE w) => bool_decide (w ≤ MAX_CHILDREN) | _ => true end &&
  match n with
  | mkNode k cs => match k with BITVECTOR_REPEAT m => bool_decide (m ≤ MAX_CHILDREN) | _ => true end && forallb bounded cs
  | _ => true
  end.

Lemma bounded_width n w : bounded n = true → typeOf n = Some (BITVECTOR_TYPE w) → w ≤ MAX_CHILDREN.
Proof. destruct n; cbn [bounded]; intros [Hb _]%andb_true_iff Ht; rewrite Ht in Hb; by apply bool_decide_eq_true in Hb. Qed.

Lemma bounded_child k cs c : bounded (mkNode k cs) = true → c ∈ cs → bounded c = true.
Proof.
  cbn [bounded]. intros [_ [_ H]%andb_true_iff]%andb_true_iff Hc. rewrite forallb_forall in H. apply H. by apply list_elem_of_In.
Qed.

Lemma bounded_tsmall n τ : bounded n = true → wt n τ → tsmall τ.
Proof. intros Hb [Ht _]. destruct τ; try done. by eapply bounded_width. Qed.

Lemma bounded_small n : bounded n = true → small n.
Proof.
  intros Hb. split.
  - intros c w Hc Ht. destruct n as [| | | |k cs]; try by apply elem_of_nil in Hc. eapply bounded_width; [|exact Ht]. by eapply bounded_child.
  - destruct n as [| | | |[] cs]; try done. cbn [bounded] in Hb. apply andb_true_iff in Hb as [_ [Hb _]%andb_true_iff]. by apply bool_decide_eq_true in Hb.
Qed.

(** ** Strategies *)

(** A rule that returns on [n]. *)
Definition returns (r : RewriteRule) (n : Node) : Prop := applies r n = true → ∃ n', apply r n = Some n' ∧ equiv n n'.

Lemma run_false r n : applies r n = true → run false r n = apply r n.
Proof. intros Ha. unfold run. by rewrite Ha. Qed.

Lemma ok_returns r n τ : rule_ok r → wt n τ → tsmall τ → returns r n.
Proof. intros Hr Hn Hs Hap. by apply (Hr n τ). Qed.

Lemma sound_returns r n τ : sound r → wt n τ → bounded n = true → returns r n.
Proof. intros Hr [Ht Hc] Hb Hap. apply (Hr n τ); try done. by apply bounded_small. Qed.

Lemma linear_cons r rs n τ : wt n τ → returns r n →
  (∀ n', applies r n = true → apply r n = Some n' → equiv n n' → ∃ n'', LinearRewriteStrategy rs n' = Some n'' ∧ equiv n n'') →
  (applies r n = false → ∃ n'', LinearRewriteStrategy rs n = Some n'' ∧ equiv n n'') →
  ∃ n'', LinearRewriteStrategy (r :: rs) n = Some n'' ∧ equiv n n''.
Proof.
  intros Hn Hr Hyes Hno. cbn [LinearRewriteStrategy]. destruct (applies r n) eqn:Ha; [|by apply Hno]. rewrite run_false by done.
  destruct (Hr Ha) as (n'&E&He). rewrite E. cbn [mbind option_bind]. by apply Hyes.
Qed.

(** Rules that are sound by themselves, one after the other. *)
Lemma linear_ok rs : ∀ n τ, Forall rule_ok rs → wt n τ → tsmall τ → ∃ n', LinearRewriteStrategy rs n = Some n' ∧ equiv n n'.
Proof.
  induction rs as [|r rs IH]; intros n τ HF Hn Hs; [exists n; split; [done|by eapply equiv_refl]|].
  apply list.Forall_cons in HF as [Hr HF]. apply (linear_cons r rs n τ Hn); [by eapply ok_returns| |by intros; eapply IH].
  intros n' _ _ He. destruct (IH n' τ HF (equiv_wt _ _ _ Hn He) Hs) as (n''&E&He'). exists n''. split; [done|]. by eapply equiv_trans.
Qed.

Lemma linear_app rs rs' n : LinearRewriteStrategy (rs ++ rs') n = LinearRewriteStrategy rs n ≫= LinearRewriteStrategy rs'.
Proof. revert n. induction rs as [|r rs IH]; intros n; cbn [app LinearRewriteStrategy]; [done|]. destruct (if applies r n then _ else _); cbn; [apply IH|done]. Qed.

Lemma linear_one r n τ : wt n τ → returns r n → ∃ n', LinearRewriteStrategy [r] n = Some n' ∧ equiv n n'.
Proof.
  intros Hn Hr. apply (linear_cons r [] n τ Hn Hr); [intros n' _ _ He; by exists n'|]. intros _. exists n. split; [done|by eapply equiv_refl].
Qed.

(** Rules that do not apply. *)
Lemma linear_skip rs n : Forall (λ r, applies r n = false) rs → LinearRewriteStrategy rs n = Some n.
Proof. induction 1 as [|r rs Hr _ IH]; cbn [LinearRewriteStrategy]; [done|]. by rewrite Hr. Qed.

Lemma respond_ok status rs n : (∃ n', LinearRewriteStrategy rs n = Some n' ∧ equiv n n') → responds n (respond status rs n).
Proof. intros (n'&E&He). exists status, n'. split; [|done]. unfold respond. by rewrite E. Qed.

Lemma respondIf_ok status rs n : (∃ n', LinearRewriteStrategy rs n = Some n' ∧ equiv n n') → responds n (respondIf status rs n).
Proof. intros (n'&E&He). eexists _, n'. split; [|done]. unfold respondIf. by rewrite E. Qed.

Lemma try_ok r n rest : returns r n → ((applies r n = true → apply r n = Some n) → responds n rest) → responds n (TRY_REWRITE r n rest).
Proof.
  intros Hr Hrest. unfold TRY_REWRITE. destruct (applies r n) eqn:Ha; [|by apply Hrest]. rewrite run_false by done.
  destruct (Hr Ha) as (n'&E&He). rewrite E. cbn [mbind option_bind]. destruct (decide (n' ≠ n)) as [Hne|Heq].
  - by exists REWRITE_AGAIN_FULL, n'.
  - apply dec_stable in Heq as ->. by apply Hrest.
Qed.

Lemma ifApplies_ok r n status rest : returns r n → responds n rest → responds n (ifApplies r n status rest).
Proof.
  intros Hr Hrest. unfold ifApplies. destruct (applies r n) eqn:Ha; [|done]. rewrite run_false by done.
  destruct (Hr Ha) as (n'&E&He). rewrite E. by exists status, n'.
Qed.

Section sound.
Context `{!Gmp, !GmpLaws, !NodeIds, !NodeIdsLaws, !HashOrder, !HashOrderLaws}.

(** ** Rules as they are used *)

Lemma eval_ok r : evaluates r → (∀ cs, applies r (mkNode EQUAL cs) = false) → rule_ok r.
Proof using Type.
  intros Hr Hne n τ [Ht Hc] _ Hap. destruct (Hr n τ Ht Hc) as (v&E&Hv); [|done|].
  - intros a b ->. by rewrite Hne in Hap.
  - exists (node_of v). split; [done|]. by eapply equiv_const.
Qed.

Lemma ule_ok : rule_ok UleEliminate.
Proof using Type.
  intros n τ Hn _ Hap. destruct (open_pred BITVECTOR_ULE _ _ (λ _, eq_refl) (λ _ _, eq_refl) Hn Hap) as (a&b&w&->&_&Ha&Hb). eexists. split; [done|].
  eapply equiv_bool; [exact (bool_ule _ _ _ _ _ Ha Hb)|exact (bool_not _ _ (bool_ult _ _ _ _ _ Hb Ha))|]. intros env _. cbv beta. repeat case_bool_decide; done || lia.
Qed.

Lemma ugt_ok : rule_ok UgtEliminate.
Proof using Type.
  intros n τ Hn _ Hap. destruct (open_pred BITVECTOR_UGT _ _ (λ _, eq_refl) (λ _ _, eq_refl) Hn Hap) as (a&b&w&->&_&Ha&Hb). eexists. split; [done|].
  eapply equiv_bool; [exact (bool_ugt _ _ _ _ _ Ha Hb)|exact (bool_ult _ _ _ _ _ Hb Ha)|]. done.
Qed.

Ltac evaluation :=
  first [apply evalNot | apply evalNeg | apply evalUdiv | apply evalUrem | apply evalShl | apply evalLshr | apply evalAshr | apply evalUlt
        | apply evalUltBv | apply evalSlt | apply evalSltBv | apply evalITEBv | apply evalUle | apply evalSle | apply evalSignExtend
        | apply evalComp | apply evalConstBvSym | apply evalEagerAtom].
#[local] Hint Resolve ule_ok ugt_ok : rules.

Ltac sound_rules :=
  repeat first [apply Forall_nil_2 | apply Forall_cons_2];
  first [solve [auto with rules] | apply eval_ok; [evaluation | done]].

Lemma linearStrategy_ok status rs n τ : Forall rule_ok rs → wt n τ → bounded n = true → responds n (respond status rs n) ∧ responds n (respondIf status rs n).
Proof using Type.
  intros HF Hn Hb. pose proof (linear_ok rs n τ HF Hn (bounded_tsmall n τ Hb Hn)) as Hl. split; [by apply respond_ok|by apply respondIf_ok].
Qed.

Lemma elim_ok status r n τ : sound r → wt n τ → bounded n = true → responds n (respond status [r] n) ∧ responds n (respondIf status [r] n).
Proof using Type.
  intros Hr Hn Hb. pose proof (linear_one r n τ Hn (sound_returns r n τ Hr Hn Hb)) as Hl. split; [by apply respond_ok|by apply respondIf_ok].
Qed.

(** The extension of a rule to the parts of a concatenation. *)
Lemma equiv_bvterm n n' w f : bvterm n w f → equiv n n' → bvterm n' w f.
Proof using Type. intros ([Ht Hc]&Hw&He) (Ht'&Hc'&He'). split_and!; [split; congruence|lia..|]. intros env Hok. rewrite He' by done. by apply He. Qed.

Lemma run_true r n τ : rule_ok r → wt n τ → tsmall τ → ∃ n', run true r n = Some n' ∧ equiv n n'.
Proof using Type.
  intros Hr Hn Hs. unfold run. cbn [negb orb]. destruct (applies r n) eqn:Ha; [by apply (Hr n τ)|]. exists n. split; [done|by eapply equiv_refl].
Qed.

Lemma run_parts r ps : rule_ok r → Forall part_ok ps → cat_width ps ≤ MAX_CHILDREN →
  ∃ qs, mapM (run true r) (pnode <$> ps) = Some (pnode <$> qs) ∧ Forall part_ok qs ∧ cat_width qs = cat_width ps ∧ length qs = length ps ∧ ∀ env, cat_val qs env = cat_val ps env.
Proof using Type.
  intros Hr HF. induction HF as [|p ps Hp HF IH]; intros Hw; [by exists []|]. cbn [cat_width] in Hw. pose proof (cat_width_ge ps HF). pose proof Hp as (Hpt&Hpw&_).
  destruct (run_true r (pnode p) _ Hr Hpt) as (n'&E&He); [cbn; lia|]. destruct IH as (qs&E'&HF'&Hqw&Hql&Hqv); [lia|].
  exists (mkPart n' (pwidth p) (pval p) :: qs). cbn [fmap list_fmap mapM]. rewrite E. cbn [mbind option_bind]. rewrite E'. split_and!; [done| |cbn; lia|simpl; lia|].
  - constructor; [|done]. by eapply equiv_bvterm.
  - intros env. cbn [cat_val pwidth pval]. by rewrite Hqw, Hqv.
Qed.

Lemma applyToParts_ok : rule_ok (ApplyRuleToChildren BITVECTOR_CONCAT ExtractWhole).
Proof using Type.
  intros n τ Hn Hs Hap. cbn [applies apply ApplyRuleToChildren] in *. destruct (isKind BITVECTOR_CONCAT n) eqn:Hk; cbn [negb].
  - kind_of Hk. destruct (concat_terms cs τ Hn) as (ps&->&HF&->&Hl&Hm&Hw). cbn [tsmall] in Hs.
    destruct (run_parts ExtractWhole ps extractWhole_ok HF Hs) as (qs&E&HF'&Hqw&Hql&Hqv). cbn [children]. rewrite E. eexists. split; [done|].
    eapply equiv_bv; [exact (bv_concatN ps HF Hl Hm Hw)|rewrite <- Hqw; apply bv_concatN; done || lia|]. intros env _ _. apply Hqv.
  - apply (run_true _ n τ extractWhole_ok Hn Hs).
Qed.

(** ** The entries that need more than their rules *)

Lemma mult_leading_returns n τ : wt n τ → bounded n = true → returns ExtractMultLeadingBit n.
Proof using Type*.
  intros Hn Hb Hap. eapply extractMultLeadingBit_sound; [exact Hn| |done]. intros c s Hc Hs. unfold getSize in Hs.
  destruct (typeOf c) as [t|] eqn:Ht; [|done]. cbn in Hs. destruct t; try done. injection Hs as ->.
  assert (s ≤ MAX_CHILDREN); [|unfold MAX_CHILDREN in *; lia]. eapply bounded_width; [|exact Ht].
  unfold child in Hc. destruct n as [| | | |k cs]; try done. eapply bounded_child; [exact Hb|]. by eapply list_elem_of_lookup_2.
Qed.

Lemma rewriteExtract_ok h l cs τ p : wt (mkNode (BITVECTOR_EXTRACT h l) cs) τ → bounded (mkNode (BITVECTOR_EXTRACT h l) cs) = true →
  responds (mkNode (BITVECTOR_EXTRACT h l) cs) (RewriteExtract (mkNode (BITVECTOR_EXTRACT h l) cs) p).
Proof using Type*.
  intros Hn Hb. set (n := mkNode _ cs) in *. pose proof (bounded_tsmall n τ Hb Hn) as Hs. unfold RewriteExtract.
  apply ifApplies_ok; [by eapply sound_returns; [apply extractConcat_sound|..]|]. apply ifApplies_ok; [by eapply ok_returns; [apply extractSignExtend_ok|..]|].
  apply ifApplies_ok; [by eapply ok_returns; [apply extractNot_ok|..]|].
  assert (responds n (respondIf REWRITE_AGAIN [ExtractWhole; ExtractMultLeadingBit; ExtractConstant] n)) as Hrest.
  { apply respondIf_ok.
    assert (∀ m σ, wt m σ → bounded m = true → ∃ m', LinearRewriteStrategy [ExtractMultLeadingBit; ExtractConstant] m = Some m' ∧ equiv m m') as H2r.
    { intros m σ Hm Hbm. pose proof (bounded_tsmall m σ Hbm Hm). apply (linear_cons _ _ m σ Hm); [by eapply mult_leading_returns| |].
      - intros m' _ _ He. destruct (linear_ok [ExtractConstant] m' σ) as (m''&E&He'); [sound_rules|by eapply equiv_wt|done|]. exists m''. split; [done|by eapply equiv_trans].
      - intros _. apply (linear_ok [ExtractConstant] m σ); [sound_rules|done..]. }
    apply (linear_cons _ _ n τ Hn); [by eapply ok_returns; [apply extractWhole_ok|..]| |by intros; eapply H2r].
    intros n' _ Hap He. destruct (H2r n' τ) as (n''&E&He'); [by eapply equiv_wt| |exists n''; split; [done|by eapply equiv_trans]].
    cbn [apply ExtractWhole] in Hap. eapply bounded_child; [exact Hb|]. by eapply list_elem_of_lookup_2. }
  destruct p; cbn [negb]; [done|]. apply try_ok; [by eapply ok_returns; [apply extractExtract_ok|..]|done].
Qed.

Lemma rewriteConcat_ok cs τ p : wt (mkNode BITVECTOR_CONCAT cs) τ → bounded (mkNode BITVECTOR_CONCAT cs) = true →
  responds (mkNode BITVECTOR_CONCAT cs) (RewriteConcat (mkNode BITVECTOR_CONCAT cs) p).
Proof using Type*.
  intros Hn Hb. pose proof (bounded_tsmall _ τ Hb Hn) as Hs. unfold RewriteConcat. apply try_ok; [by eapply ok_returns; [apply concatFlatten_ok|..]|intros _].
  apply try_ok; [by eapply ok_returns; [apply concatExtractMerge_ok|..]|intros _].
  eapply linearStrategy_ok; [|done..]. apply Forall_cons_2; [apply applyToParts_ok|sound_rules].
Qed.

Lemma rewriteLattice_ok r n τ p : rule_ok r → wt n τ → bounded n = true →
  responds n (let done := Some (mkRewriteResponse REWRITE_DONE n) in
    TRY_REWRITE r n (TRY_REWRITE AndOrXorConcatPullUp n (if negb p then TRY_REWRITE BitwiseSlicing n done else done))).
Proof using Type*.
  intros Hr Hn Hb. pose proof (bounded_tsmall _ τ Hb Hn) as Hs. pose proof (done_ok n τ Hn). apply try_ok; [by eapply ok_returns|intros _].
  apply try_ok; [by eapply ok_returns; [apply andOrXorConcatPullUp_ok|..]|intros _]. destruct p; cbn [negb]; [done|].
  apply try_ok; [by eapply ok_returns; [apply bitwiseSlicing_ok|..]|done].
Qed.

(** [XorZero] and [XorOnes] run when [XorSimplify] has nothing left to do. *)
Lemma rewriteXor_ok cs τ p : wt (mkNode BITVECTOR_XOR cs) τ → bounded (mkNode BITVECTOR_XOR cs) = true →
  responds (mkNode BITVECTOR_XOR cs) (RewriteXor (mkNode BITVECTOR_XOR cs) p).
Proof using Type*.
  intros Hn Hb. set (n := mkNode BITVECTOR_XOR cs) in *. pose proof (bounded_tsmall _ τ Hb Hn) as Hs. pose proof (done_ok n τ Hn). unfold RewriteXor.
  apply try_ok; [by eapply ok_returns; [apply xorSimplify_ok|..]|intros Hfix].
  destruct (xorSimplify_fixed n τ Hn eq_refl (Hfix eq_refl)) as (c&Hc&Hcc). destruct (nary_operands cs τ Hn) as (w&->&Hw&Hcs&_).
  eapply list.Forall_forall in Hcs; [|exact Hc]. pose proof (wt_bvterm _ _ Hcs) as Hcb.
  apply try_ok; [|intros _].
  { intros Hap. eapply xorZero_sound; [exact Hn|done|]. exists c. split; [done|]. rewrite (isZero_eq _ _ _ Hcb). by rewrite bool_decide_false by (intros ->; done). }
  apply try_ok; [by eapply ok_returns; [apply andOrXorConcatPullUp_ok|..]|intros _]. destruct p; cbn [negb]; [done|].
  apply try_ok; [|intros _].
  { intros Hap. eapply xorOnes_sound; [exact Hn|done|]. exists c. split; [done|]. rewrite (isOnes_eq _ _ _ Hcb). by rewrite bool_decide_false by (intros ->; done). }
  apply try_ok; [by eapply ok_returns; [apply bitwiseSlicing_ok|..]|done].
Qed.

(** [MultPow2] runs when [MultSimplify] has nothing left to do. *)
Lemma rewriteMult_ok cs τ p : wt (mkNode BITVECTOR_MULT cs) τ → bounded (mkNode BITVECTOR_MULT cs) = true →
  responds (mkNode BITVECTOR_MULT cs) (RewriteMult (mkNode BITVECTOR_MULT cs) p).
Proof using Type*.
  intros Hn Hb. set (n := mkNode BITVECTOR_MULT cs) in *. pose proof (bounded_tsmall _ τ Hb Hn) as Hs. pose proof (done_ok n τ Hn). unfold RewriteMult.
  apply try_ok; [by eapply ok_returns; [apply flattenAssocCommut_ok|..]|intros _].
  apply try_ok; [by eapply ok_returns; [apply multSimplify_ok|..]|intros Hfix]. destruct p; cbn [negb]; [done|].
  apply try_ok; [|intros _; apply try_ok; [by eapply ok_returns; [apply multDistribConst_ok|..]|intros _; apply try_ok; [by eapply ok_returns; [apply multDistrib_ok|..]|done]]].
  intros Hap. pose proof (multSimplify_fixed n τ Hn eq_refl (Hfix eq_refl)) as Hone.
  destruct (nary_operands cs τ Hn) as (w&->&Hw&_). pose proof (wt_bvterm _ _ Hn) as Hbt.
  eapply multPow2_sound; [exact Hn|exact (getSize_term _ _ _ Hbt)| |done]. cbn [tsmall] in Hs. unfold MAX_CHILDREN in Hs. nia.
Qed.

(** ** [BITVECTOR_ITE] *)

(** The first three rules give back a smaller term. *)
Definition shrinks (r : RewriteRule) : Prop := ∀ n n', applies r n = true → apply r n = Some n' → (nsize n' < nsize n)%nat.

Lemma child_smaller n i c : child n i = Some c → (nsize c < nsize n)%nat.
Proof using Type.
  unfold child. destruct n as [| | | |k cs]; try done. intros Hc. apply nsize_child. by eapply list_elem_of_lookup_2.
Qed.

Lemma ite_shrink : Forall shrinks [EvalITEBv; BvIteConstCond; BvIteEqualChildren].
Proof using Type.
  apply Forall_cons_2; [|apply Forall_cons_2; [|apply Forall_singleton]]; intros n n' _ E; cbn [apply EvalITEBv BvIteConstCond BvIteEqualChildren] in E.
  - apply bind_Some in E as (_&_&E). apply bind_Some in E as (c&_&E). destruct (decide _); [by eapply child_smaller|].
    apply bind_Some in E as (_&_&E). by eapply child_smaller.
  - apply bind_Some in E as (c&_&E). apply bind_Some in E as ([]&_&E); by eapply child_smaller.
  - by eapply child_smaller.
Qed.

Lemma linear_fixed rs : ∀ n n', Forall shrinks rs → LinearRewriteStrategy rs n = Some n' →
  (nsize n' ≤ nsize n)%nat ∧ ((nsize n ≤ nsize n')%nat → Forall (λ r, applies r n = false) rs).
Proof using Type.
  induction rs as [|r rs IH]; intros n n' HF E; cbn [LinearRewriteStrategy] in E; [injection E as ->; split; [lia|constructor]|].
  apply list.Forall_cons in HF as [Hr HF]. apply bind_Some in E as (c&Ec&E). destruct (IH c n' HF E) as [Hle Hfix].
  destruct (applies r n) eqn:Ha; [|injection Ec as <-; split; [done|]; intros; constructor; auto].
  rewrite run_false in Ec by done. pose proof (Hr n c Ha Ec). split; [lia|intros; lia].
Qed.

Lemma rewriteITE_ok cs τ p : wt (mkNode BITVECTOR_ITE cs) τ → bounded (mkNode BITVECTOR_ITE cs) = true →
  responds (mkNode BITVECTOR_ITE cs) (RewriteITEBv (mkNode BITVECTOR_ITE cs) p).
Proof using Type*.
  intros Hn Hb. set (n := mkNode BITVECTOR_ITE cs) in *. pose proof (bounded_tsmall _ τ Hb Hn) as Hs. unfold RewriteITEBv.
  destruct (linear_ok [EvalITEBv; BvIteConstCond; BvIteEqualChildren] n τ) as (n1&E1&He1); [sound_rules|done..|]. rewrite E1. cbn [mbind option_bind].
  destruct (decide (n1 ≠ n)) as [Hne|Heq]; [by exists REWRITE_AGAIN, n1|]. apply dec_stable in Heq as ->.
  destruct (linear_fixed _ _ _ ite_shrink E1) as [_ Hfix]. specialize (Hfix ltac:(lia)).
  apply list.Forall_cons in Hfix as [_ Hfix]. apply list.Forall_cons in Hfix as [_ Hfix]. apply list.Forall_cons in Hfix as [Heqc _].
  assert (∃ n', LinearRewriteStrategy [BvIteConstChildren; BvIteEqualCond] n = Some n' ∧ equiv n n') as (n2&E2&He2).
  { apply (linear_cons _ _ n τ Hn); [intros Hap; by eapply bvIteConstChildren_sound| |intros _; apply (linear_ok [BvIteEqualCond] n τ); [sound_rules|done..]].
    intros n' _ _ He. destruct (linear_ok [BvIteEqualCond] n' τ) as (n''&E&He'); [sound_rules|by eapply equiv_wt|done|]. exists n''. split; [done|by eapply equiv_trans]. }
  rewrite E2. cbn [mbind option_bind]. destruct (decide (n2 ≠ n)) as [Hne|Heq]; [by exists REWRITE_AGAIN, n2|].
  eapply linearStrategy_ok; [sound_rules|done..].
Qed.

(** ** Comparisons *)

(** A rule that applies to no constant. *)
Lemma linear_const rs r n v : applies r n = true → apply r n = Some (node_of v) → equiv n (node_of v) →
  Forall (λ r, ∀ v, applies r (node_of v) = false) rs → ∃ n', LinearRewriteStrategy (r :: rs) n = Some n' ∧ equiv n n'.
Proof using Type.
  intros Ha E He HF. exists (node_of v). split; [|done]. cbn [LinearRewriteStrategy]. rewrite Ha, run_false, E by done. cbn [mbind option_bind].
  apply linear_skip. eapply list.Forall_impl; [exact HF|]. intros r' Hr. apply Hr.
Qed.

Ltac no_constants := repeat first [apply Forall_nil_2 | apply Forall_cons_2]; intros [| |]; reflexivity.

(** A comparison that is first evaluated. *)
Lemma linear_eval rs r n τ : evaluates r → (∀ cs, applies r (mkNode EQUAL cs) = false) → wt n τ → Forall (λ r, ∀ v, applies r (node_of v) = false) rs →
  (applies r n = false → ∃ n', LinearRewriteStrategy rs n = Some n' ∧ equiv n n') → ∃ n', LinearRewriteStrategy (r :: rs) n = Some n' ∧ equiv n n'.
Proof using Type.
  intros Hr Hne [Ht Hc] HF Hno. destruct (applies r n) eqn:Ha.
  - destruct (Hr n τ Ht Hc) as (v&E&Hv); [|done|].
    + intros a b ->. by rewrite Hne in Ha.
    + eapply linear_const; try done. by eapply equiv_const.
  - cbn [LinearRewriteStrategy]. rewrite Ha. by apply Hno.
Qed.

(** A rule that answers true or false. *)
Lemma linear_bool rs r n τ b : rule_ok r → (∀ n, apply r n = Some (mkConstBool b)) → wt n τ → tsmall τ → Forall (λ r, ∀ v, applies r (node_of v) = false) rs →
  (applies r n = false → ∃ n', LinearRewriteStrategy rs n = Some n' ∧ equiv n n') → ∃ n', LinearRewriteStrategy (r :: rs) n = Some n' ∧ equiv n n'.
Proof using Type.
  intros Hr Hc Hn Hs HF Hno. destruct (applies r n) eqn:Ha.
  - destruct (Hr n τ Hn Hs Ha) as (n'&E&He). rewrite Hc in E. injection E as <-. by eapply (linear_const _ _ _ (VBool b)).
  - cbn [LinearRewriteStrategy]. rewrite Ha. by apply Hno.
Qed.

(** ** What the rewriter relies on *)

(** The flattened sum has its products normalized. *)
Definition sumNormalized (n : Node) : Prop := ∀ n', LinearRewriteStrategy [FlattenAssocCommut] n = Some n' → sum_guard n'.

Definition rewrite_guard (n : Node) (prerewrite : bool) : Prop :=
  bounded n = true ∧
  match n with
  | mkNode BITVECTOR_SLT _ => applies MultSltMult n = false
  | mkNode BITVECTOR_ADD _ => prerewrite = false → sumNormalized n
  | _ => True
  end.

Lemma rewriteSlt_ok n τ p : wt n τ → bounded n = true → applies MultSltMult n = false → responds n (RewriteSlt n p).
Proof using Type*.
  intros Hn Hb Hg. pose proof (bounded_tsmall _ τ Hb Hn) as Hs. apply respond_ok.
  eapply linear_eval; [apply evalSlt|done|exact Hn|no_constants|]. intros _.
  eapply (linear_bool _ _ _ _ false); [apply sltSelf_ok|done|exact Hn|done|no_constants|]. intros _.
  cbn [LinearRewriteStrategy]. rewrite Hg. exists n. split; [done|by eapply equiv_refl].
Qed.

Lemma rewriteAdd_ok cs τ p : wt (mkNode BITVECTOR_ADD cs) τ → bounded (mkNode BITVECTOR_ADD cs) = true →
  (p = false → sumNormalized (mkNode BITVECTOR_ADD cs)) → responds (mkNode BITVECTOR_ADD cs) (RewriteAdd (mkNode BITVECTOR_ADD cs) p).
Proof using Type*.
  intros Hn Hb Hg. set (n := mkNode BITVECTOR_ADD cs) in *. pose proof (bounded_tsmall _ τ Hb Hn) as Hs. unfold RewriteAdd. destruct p.
  - eapply linearStrategy_ok; [sound_rules|done..].
  - apply respondIf_ok. destruct (linear_ok [FlattenAssocCommut] n τ) as (n'&E&He); [sound_rules|done..|].
    change [FlattenAssocCommut; AddCombineLikeTerms] with ([FlattenAssocCommut] ++ [AddCombineLikeTerms]). rewrite linear_app, E. cbn [mbind option_bind].
    pose proof (equiv_wt _ _ _ Hn He) as Hn'. destruct (linear_one AddCombineLikeTerms n' τ Hn') as (n''&E'&He').
    { intros Hap. eapply addCombineLikeTerms_sound; [exact Hn'|by apply Hg|done]. }
    exists n''. split; [done|by eapply equiv_trans].
Qed.

(** ** The other entries *)

Lemma rewriteComp_ok n τ p : wt n τ → bounded n = true → responds n (RewriteComp n p).
Proof using Type*.
  intros Hn Hb. pose proof (bounded_tsmall _ τ Hb Hn) as Hs. unfold RewriteComp.
  destruct (linear_ok [EvalComp] n τ) as (n'&E&He); [sound_rules|done..|]. rewrite E. cbn [mbind option_bind].
  destruct (bool_decide (n = n') && applies BvComp n) eqn:Ec; [|by exists REWRITE_DONE, n'].
  apply andb_true_iff in Ec as [_ Ha]. destruct (bvComp_ok n τ Hn Hs Ha) as (n2&E2&He2). rewrite run_false, E2 by done. by exists REWRITE_AGAIN, n2.
Qed.

Lemma rewriteNeg_ok n τ p : wt n τ → bounded n = true → responds n (RewriteNeg n p).
Proof using Type*.
  intros Hn Hb. pose proof (bounded_tsmall _ τ Hb Hn) as Hs. unfold RewriteNeg.
  destruct (linear_ok [EvalNeg; NegIdemp; NegSub] n τ) as (n'&E&He); [sound_rules|done..|]. rewrite E. cbn [mbind option_bind].
  apply ifApplies_ok; [by eapply ok_returns; [apply negAdd_ok|..]|].
  assert (responds n (Some (mkRewriteResponse (if decide (n' = n) then REWRITE_DONE else REWRITE_AGAIN) n'))) by (by eexists _, n').
  destruct p; cbn [negb]; [done|]. apply ifApplies_ok; [|done]. intros Ha. by rewrite (negMult_never n τ Hn) in Ha.
Qed.

Lemma eliminateOverflows_ok n τ : wt n τ → bounded n = true → ∃ n', eliminateOverflows n = Some n' ∧ equiv n n'.
Proof using Type*.
  intros Hn Hb. unfold eliminateOverflows.
  assert (∀ r rest, sound r → (∃ n', rest = Some n' ∧ equiv n n') → ∃ n', (if applies r n then run false r n else rest) = Some n' ∧ equiv n n') as Hstep.
  { intros r rest Hr Hrest. destruct (applies r n) eqn:Ha; [|done]. rewrite run_false by done. by eapply sound_returns. }
  apply Hstep; [apply uaddo_sound|]. apply Hstep; [apply saddo_sound|]. apply Hstep; [apply umulo_sound|]. apply Hstep; [apply smulo_sound|].
  apply Hstep; [apply usubo_sound|]. apply Hstep; [apply ssubo_sound|]. exists n. split; [done|by eapply equiv_refl].
Qed.

Lemma rewriteOverflow_ok n τ p : wt n τ → bounded n = true → responds n (RewriteOverflow n p).
Proof using Type*.
  intros Hn Hb. unfold RewriteOverflow. destruct (forallb _ _); [|by eapply done_ok].
  destruct (eliminateOverflows_ok n τ Hn Hb) as (n'&->&He). by eexists _, n'.
Qed.

Lemma rewriteSle_ok n τ p : wt n τ → bounded n = true → responds n (RewriteSle n p).
Proof using Type*.
  intros Hn Hb. apply respondIf_ok. eapply linear_eval; [apply evalSle|done|exact Hn|no_constants|]. intros _.
  apply (linear_one _ _ τ Hn). by eapply sound_returns; [apply sle_sound|..].
Qed.

(** A rule that may return at once, then a strategy. *)
Lemma ifApplies_strategy r status status' rs n τ : rule_ok r → Forall rule_ok rs → wt n τ → bounded n = true →
  responds n (ifApplies r n status (respond status' rs n)).
Proof using Type*.
  intros Hr HF Hn Hb. apply ifApplies_ok; [|by eapply linearStrategy_ok]. eapply ok_returns; [done|done|by eapply bounded_tsmall].
Qed.

Ltac by_rules := first [eapply ifApplies_strategy; [solve [auto with rules]|sound_rules|done|done] | eapply linearStrategy_ok; [sound_rules|done..]].
#[local] Hint Resolve size_sound ugt_sound uge_sound sgt_sound sge_sound sle_sound ule_sound sub_sound repeat_elim_sound
  rotl_sound rotr_sound nand_sound nor_sound xnor_sound sdiv_sound srem_sound smod_sound zext_sound redor_sound
  redand_sound nego_sound uaddo_sound saddo_sound umulo_sound smulo_sound usubo_sound ssubo_sound sdivo_sound : rules.

Lemma rewriteTable_ok n τ p : wt n τ → rewrite_guard n p → responds n (rewriteTable n p).
Proof using Type*.
  intros Hn [Hb Hg]. destruct n as [| | | |k cs]; try (by eapply done_ok). cbn [rewriteTable].
  destruct k; try (by eapply done_ok); cbn [d_rewriteTable];
    try solve [unfold RewriteEqual; destruct p; by_rules | by_rules | eapply elim_ok; [auto with rules|done..]
              | by eapply rewriteOverflow_ok | by eapply rewriteITE_ok | by eapply rewriteExtract_ok | by eapply rewriteConcat_ok
              | by eapply rewriteLattice_ok; [first [apply andSimplify_ok|apply orSimplify_ok]|..]
              | by eapply rewriteXor_ok | by eapply rewriteMult_ok | by eapply rewriteAdd_ok 
              | by eapply rewriteSlt_ok | by eapply rewriteSle_ok | by eapply rewriteComp_ok | by eapply rewriteNeg_ok].
Qed.

(** C3: the bit-vector rewriter keeps the meaning of terms.  On every typed term
    whose subterms are not wider than a node has children, [preRewrite],
    [postRewrite] and [expandDefinition] return (no rule fails an assertion),
    and the term they return has the same type and, in every valuation, the same
    value, for every order of the nodes and of the hash tables.  The guard
    bounds the widths of the subterms and the counts of repetitions by the number of
    children of a node, leaves out the comparisons on
    which [MultSltMult] would be used, and asks of a sum that is post-rewritten that
    the products of the flattened sum have their constants at the end, as they have
    when they are rewritten (an assertion of [updateCoefMap]). *)
Theorem bv_rewriter_sound n τ (prerewrite : bool) :
  wt n τ → rewrite_guard n prerewrite →
  (∃ status n', (if prerewrite then preRewrite n else postRewrite n) = Some (mkRewriteResponse status n') ∧ equiv n n') ∧
  (∃ n', expandDefinition n = Some n' ∧ equiv n n').
Proof using Type*.
  intros Hn Hg. split; [|destruct Hg; by eapply eliminateOverflows_ok].
  pose proof (rewriteTable_ok n τ prerewrite Hn Hg) as Hr. by destruct prerewrite.
Qed.

End sound.

(** (bvxor x 3 x 3) on four bits is zero; [XorSimplify] comes before [XorZero]. *)
Lemma bv_rewriter_sound_witness :
  let c := mkConstBV (mkBitVector 4 3) in
  let n := mkNode BITVECTOR_XOR [bvVar 1 4; c; bvVar 1 4; c] in
  (∃ status n', postRewrite (H0:=positionId) (H1:=insertionOrder) n = Some (mkRewriteResponse status n') ∧ equiv n n') ∧
  (∃ n', expandDefinition n = Some n' ∧ equiv n n').
Proof.
  intros c n.
  refine (bv_rewriter_sound (H1:=positionId) (H2:=positionId_laws) (H3:=insertionOrder) (H4:=insertionOrder_laws) n (BITVECTOR_TYPE 4) false _ _).
  - split; vm_compute; reflexivity.
  - split; [vm_compute; reflexivity|exact I].
Defined.
