(* ===== verification/BoolTerms.v ===== *)
(** Typed Boolean terms and their values: the connectives, equality and [ITE],
    opened and built, and the one-bit terms that stand for formulas. *)
From stdpp Require Import base option list numbers.
From S2P Require Import Prelude Integer Node TypeRules Semantics BvArith TypeSound BitVectorUtil BvElim BvTerms BvAssoc BvSimplifySound.
Open Scope Z_scope.

(** A formula: a typed Boolean term. *)
Abbreviation bool_wt n := (wt n BOOLEAN_TYPE).

Lemma bool_val n env : bool_wt n → env_ok env → eval env n = Some (VBool (bool_of n env)).
Proof. intros [Ht Hc]. apply (typed_boolterm n Ht Hc). Qed.

Lemma val_bool n env : bool_wt n → env_ok env → val_of n env = VBool (bool_of n env).
Proof. intros Hn Hok. unfold val_of. by rewrite bool_val. Qed.

(** Terms with the same type and the same value. *)
Lemma equiv_val n n' τ : wt n τ → wt n' τ → (∀ env, env_ok env → val_of n' env = val_of n env) → equiv n n'.
Proof. intros Hn Hn'. apply (equiv_term _ _ τ); by apply wt_term. Qed.

Lemma equiv_formula n n' : bool_wt n → bool_wt n' → (∀ env, env_ok env → bool_of n' env = bool_of n env) → equiv n n'.
Proof. intros Hn Hn' Hv. apply (equiv_val _ _ _ Hn Hn'). intros env Hok. by rewrite !val_bool, Hv. Qed.

(** ** Opening *)

Lemma const_formula n : bool_wt n → isConst n = true → ∃ b, n = mkConstBool b.
Proof.
  intros [Ht _] Hc. destruct n; try done; [by eexists|]. cbn in Ht. apply bind_Some in Ht as (_&_&Ht). unfold BitVectorConstantTypeRule in Ht. nofail. by case_match.
Qed.

Lemma node_children k cs τ : wt (mkNode k cs) τ → ∃ ts, Forall2 wt cs ts.
Proof. intros [Ht Hc]. destruct (node_inv k cs τ Ht Hc) as (_&_&_&Hcc&ts&HM&_). exists ts. by apply children_wt. Qed.

(** The kinds whose operands are formulas. *)
Definition bool_kind (k : Kind) : Prop := match k with NOT | AND | OR | XOR | IMPLIES => True | _ => False end.

Lemma bool_kind_rule k cs ts : bool_kind k → computeType k cs ts = BooleanTypeRule ts.
Proof. by destruct k. Qed.

Lemma bool_operands k cs τ : bool_kind k → wt (mkNode k cs) τ →
  τ = BOOLEAN_TYPE ∧ Forall (λ c, bool_wt c) cs ∧ arity_ok k (length cs) = true.
Proof.
  intros Hk [Ht Hc]. destruct (node_inv k cs τ Ht Hc) as (Har&_&_&Hcs&ts&HM&Hτ&vs&HF&_). rewrite bool_kind_rule in Hτ by done.
  unfold BooleanTypeRule in Hτ. apply bind_Some in Hτ as (_&Hb%assert_Some&[= <-]). split_and!; [done| |done].
  apply children_wt in HM; [|done]. rewrite forallb_forall in Hb. clear - HM HF Hb. revert vs HF Hb.
  induction HM as [|c t cs ts Hct HM IH]; intros vs HF Hb; [constructor|]. inversion HF as [|v ? ? ? Hv HF']; subst. constructor.
  - assert (isMaybeBoolean t = true) as Hm by (apply Hb; by left). pose proof (has_type_concrete v t Hv). destruct t as [| | |[]]; try done.
  - eapply IH; [exact HF'|]. intros x Hx. apply Hb. by right.
Qed.

Lemma not_operand cs τ : wt (mkNode NOT cs) τ → ∃ a, cs = [a] ∧ τ = BOOLEAN_TYPE ∧ bool_wt a.
Proof.
  intros Hn. destruct (bool_operands NOT cs τ I Hn) as (->&HF&Hl%bool_decide_eq_true). destruct cs as [|a []]; try done.
  exists a. rewrite Forall_singleton in HF. by split_and!.
Qed.

Lemma bin_operands k cs τ : bool_kind k → (∀ n, arity_ok k n = bool_decide (n = 2%nat)) → wt (mkNode k cs) τ →
  ∃ a b, cs = [a; b] ∧ τ = BOOLEAN_TYPE ∧ bool_wt a ∧ bool_wt b.
Proof.
  intros Hk Ha Hn. destruct (bool_operands k cs τ Hk Hn) as (->&HF&Hl). rewrite Ha in Hl. apply bool_decide_eq_true in Hl. destruct cs as [|a [|b []]]; try done.
  exists a, b. apply list.Forall_cons in HF as [? HF]. rewrite Forall_singleton in HF. by split_and!.
Qed.

Lemma ite_operands cs τ : wt (mkNode ITE cs) τ → ∃ c t e, cs = [c; t; e] ∧ bool_wt c ∧ wt t τ ∧ wt e τ.
Proof.
  intros [Ht Hc]. destruct (node_inv _ cs τ Ht Hc) as (Har&_&_&Hcs&ts&HM&Hτ&vs&HF&Hl). cbn [arity_ok] in Har. apply bool_decide_eq_true in Har.
  apply children_wt in HM; [|done]. destruct cs as [|c [|t [|e []]]]; try done. inversion HM as [|? tc ? ? Hwc HM1]; subst. inversion HM1 as [|? tt ? ? Hwt HM2]; subst.
  inversion HM2 as [|? te ? ? Hwe HM3]; subst. inversion HM3; subst. inversion HF as [|vc ? ? ? Hvc HF1]; subst. inversion HF1 as [|vt ? ? ? Hvt HF2]; subst.
  inversion HF2 as [|ve ? ? ? Hve _]; subst. cbn [computeType IteTypeRule lookup list_lookup mbind option_bind] in Hτ.
  apply bind_Some in Hτ as (r&Hlub&Hτ). apply bind_Some in Hτ as (_&Hb%assert_Some&[= <-]). destruct (unify_concrete vt ve _ _ _ _ Hvt Hve Hlub) as [<- ->].
  exists c, t, e. split_and!; try done. pose proof (has_type_concrete vc tc Hvc). destruct tc as [| | |[]]; try done.
Qed.

(** ** Replacing children *)

(** The type of a node depends on the types of its children and, for a symbolic
    constant, on its second child. *)
Lemma computeType_children k cs ds ts : (∀ z, cs !! 1%nat = Some (mkConstInt z) → ds !! 1%nat = Some (mkConstInt z)) →
  ∀ τ, isAbstract τ = false → computeType k cs ts = Some τ → computeType k ds ts = Some τ.
Proof.
  intros Hz τ Ha. destruct k; try done. cbn [computeType]. unfold BitVectorConstantSymbolicTypeRule. destruct (assert _); [|done]. cbn [mbind option_bind].
  destruct (cs !! 1%nat) as [[| |z| |]|] eqn:E; cbn [mbind option_bind]; try done; try by intros [= <-]. by rewrite (Hz z eq_refl).
Qed.

Lemma wt_children k cs ds τ : wt (mkNode k cs) τ → Forall2 (λ c d, ∀ t, wt c t → wt d t) cs ds → (∀ z, cs !! 1%nat = Some (mkConstInt z) → ds !! 1%nat = Some (mkConstInt z)) →
  wt (mkNode k ds) τ.
Proof.
  intros [Ht Hc] HF Hz. destruct (node_inv k cs τ Ht Hc) as (Har&Hp&Ha&Hcs&ts&HM&Hτ&_). apply children_wt in HM; [|done].
  apply (wt_node k ds ts); [|by rewrite <- (Forall2_length HF)|done|done|by eapply computeType_children]. clear - HF HM. revert ts HM.
  induction HF as [|c d cs ds Hcd _ IH]; intros ts HM; inversion HM; subst; constructor; auto.
Qed.

Lemma equiv_children k cs ds τ : wt (mkNode k cs) τ → Forall2 equiv cs ds → (∀ z, cs !! 1%nat = Some (mkConstInt z) → ds !! 1%nat = Some (mkConstInt z)) →
  equiv (mkNode k cs) (mkNode k ds).
Proof.
  intros Hn HF Hz. assert (wt (mkNode k ds) τ) as [Ht' Hc'] by (eapply wt_children; [exact Hn| |exact Hz]; eapply Forall2_impl; [|exact HF]; intros c d Hcd t Ht; by eapply equiv_wt).
  destruct Hn as [Ht _]. split_and!; [congruence|done|]. intros env Hok. cbn [eval]. replace (mapM (eval env) ds) with (mapM (eval env) cs); [done|].
  clear - HF Hok. induction HF as [|c d cs ds (_&_&He) _ IH]; [done|]. cbn [mapM]. by rewrite He, IH.
Qed.

(** ** Building *)

Lemma wt_nary k cs : k = AND ∨ k = OR → Forall (λ c, bool_wt c) cs → (2 ≤ length cs)%nat → Z.of_nat (length cs) ≤ MAX_CHILDREN → bool_wt (mkNode k cs).
Proof.
  intros Hk HF Hl Hm. apply (wt_node k cs (replicate (length cs) BOOLEAN_TYPE)).
  - apply Forall2_same_length_lookup_2; [by rewrite length_replicate|]. intros i x y Hx [-> _]%lookup_replicate. by eapply Forall_lookup_1 in HF.
  - assert (atLeast 2 (length cs) = true) as Ha by (by apply bool_decide_eq_true). by destruct Hk as [-> | ->].
  - by destruct Hk as [-> | ->].
  - done.
  - rewrite bool_kind_rule by (by destruct Hk as [-> | ->]). unfold BooleanTypeRule.
    assert (forallb isMaybeBoolean (replicate (length cs) BOOLEAN_TYPE) = true) as ->; [|done]. apply forallb_forall. intros x Hx%list_elem_of_In. by apply elem_of_replicate in Hx as [-> _].
Qed.

Lemma wt_pair k a b : k = AND ∨ k = OR → bool_wt a → bool_wt b → bool_wt (mkNode2 k a b).
Proof. intros Hk Ha Hb. apply wt_nary; [done|by apply Forall_cons_2; [|apply Forall_singleton]|simpl; lia|done]. Qed.

Lemma wt_not a : bool_wt a → bool_wt (mkNode1 NOT a).
Proof. intros [Ht Hc]. apply (bool_not a _ (typed_boolterm a Ht Hc)). Qed.

Lemma wt_ite c t e τ : bool_wt c → wt t τ → wt e τ → wt (mkNode3 ITE c t e) τ.
Proof.
  intros Hc Ht He. apply (wt_node3 _ _ _ _ _ _ _ _ Hc Ht He); [done..| |].
  - destruct Ht as [Ht Hct]. destruct (type_sound_gen env0 t τ Ht Hct env0_ok) as (v&_&Hv). by apply (has_type_concrete v).
  - cbn [computeType IteTypeRule lookup list_lookup mbind option_bind]. unfold leastUpperBound. by rewrite unify_refl.
Qed.

Lemma wt_bool b : bool_wt (mkConstBool b).
Proof. done. Qed.

(** ** Values *)

Section values.
Context (env : Env) (Hok : env_ok env).

Lemma bool_of_const b : bool_of (mkConstBool b) env = b.
Proof using Type. done. Qed.

Lemma bool_of_not a : bool_wt a → bool_of (mkNode1 NOT a) env = negb (bool_of a env).
Proof using Hok. intros Ha. unfold bool_of at 1. by rewrite (eval_node1 _ _ _ _ (bool_val a env Ha Hok)). Qed.

Lemma bool_of_xor a b : bool_wt a → bool_wt b → bool_of (mkNode2 XOR a b) env = xorb (bool_of a env) (bool_of b env).
Proof using Hok. intros Ha Hb. unfold bool_of at 1. by rewrite (eval_node2 _ _ _ _ _ _ (bool_val a env Ha Hok) (bool_val b env Hb Hok)). Qed.

Lemma bool_of_implies a b : bool_wt a → bool_wt b → bool_of (mkNode2 IMPLIES a b) env = implb (bool_of a env) (bool_of b env).
Proof using Hok. intros Ha Hb. unfold bool_of at 1. by rewrite (eval_node2 _ _ _ _ _ _ (bool_val a env Ha Hok) (bool_val b env Hb Hok)). Qed.

Lemma eval_bools cs : Forall (λ c, bool_wt c) cs → mapM (eval env) cs = Some ((λ c, VBool (bool_of c env)) <$> cs).
Proof using Hok. induction 1 as [|c cs Hc _ IH]; [done|]. cbn [mapM fmap list_fmap]. rewrite bool_val by done. cbn [mbind option_bind]. by rewrite IH. Qed.

Lemma as_bools_fmap (f : Node → bool) cs : as_bools ((λ c, VBool (f c)) <$> cs) = Some (f <$> cs).
Proof using Type. induction cs as [|c cs IH]; [done|]. cbn. by rewrite IH. Qed.

(** A conjunction is false, and a disjunction true, when an operand is. *)
Lemma bool_of_nary k a cs : k = AND ∧ a = false ∨ k = OR ∧ a = true → Forall (λ c, bool_wt c) cs →
  bool_of (mkNode k cs) env = a ↔ Exists (λ c, bool_of c env = a) cs.
Proof using Hok.
  intros Hk HF. unfold bool_of at 1. cbn [eval]. rewrite eval_bools by done. cbn [mbind option_bind]. destruct Hk as [[-> ->]|[-> ->]]; cbn [kind_eval].
  - rewrite as_bools_fmap. cbn [fmap option_fmap option_map compose]. induction HF as [|c cs _ _ IH]; [split; [done|by inversion 1]|].
    rewrite Exists_cons, <- IH. cbn [fmap list_fmap forallb id]. destruct (bool_of c env); cbn; naive_solver.
  - rewrite as_bools_fmap. cbn [fmap option_fmap option_map compose]. induction HF as [|c cs _ _ IH]; [split; [done|by inversion 1]|].
    rewrite Exists_cons, <- IH. cbn [fmap list_fmap existsb id]. destruct (bool_of c env); cbn; naive_solver.
Qed.

Lemma bool_of_and a b : bool_wt a → bool_wt b → bool_of (mkNode2 AND a b) env = bool_of a env && bool_of b env.
Proof using Hok. intros Ha Hb. unfold bool_of at 1. rewrite (eval_node2 _ _ _ _ _ _ (bool_val a env Ha Hok) (bool_val b env Hb Hok)). cbn. by rewrite andb_true_r. Qed.

Lemma bool_of_or a b : bool_wt a → bool_wt b → bool_of (mkNode2 OR a b) env = bool_of a env || bool_of b env.
Proof using Hok. intros Ha Hb. unfold bool_of at 1. rewrite (eval_node2 _ _ _ _ _ _ (bool_val a env Ha Hok) (bool_val b env Hb Hok)). cbn. by rewrite orb_false_r. Qed.

Lemma bool_of_equal a b τ : wt a τ → wt b τ → bool_of (mkNode2 EQUAL a b) env = bool_decide (val_of a env = val_of b env).
Proof using Hok.
  intros Ha Hb. destruct (wt_eval a τ env Ha Hok) as (va&Ea&Sa), (wt_eval b τ env Hb Hok) as (vb&Eb&Sb). unfold bool_of, val_of.
  rewrite (eval_equal _ _ _ _ _ Ea Eb) by congruence. by rewrite Ea, Eb.
Qed.

(** Equality of formulas. *)
Lemma bool_of_iff a b : bool_wt a → bool_wt b → bool_of (mkNode2 EQUAL a b) env = eqb (bool_of a env) (bool_of b env).
Proof using Hok.
  intros Ha Hb. rewrite (bool_of_equal _ _ _ Ha Hb), !val_bool by done. destruct (bool_of a env), (bool_of b env); done.
Qed.

Lemma val_ite c t e τ : bool_wt c → wt t τ → wt e τ → val_of (mkNode3 ITE c t e) env = if bool_of c env then val_of t env else val_of e env.
Proof using Hok.
  intros Hc Ht He. destruct (wt_eval t τ env Ht Hok) as (vt&Et&St), (wt_eval e τ env He Hok) as (ve&Ee&Se). unfold val_of.
  rewrite (eval_node3 _ _ _ _ _ _ _ _ (bool_val c env Hc Hok) Et Ee), Et, Ee. cbn [kind_eval]. by rewrite decide_True by congruence.
Qed.

Lemma bool_of_ite c t e : bool_wt c → bool_wt t → bool_wt e → bool_of (mkNode3 ITE c t e) env = if bool_of c env then bool_of t env else bool_of e env.
Proof using Hok.
  intros Hc Ht He. pose proof (val_ite c t e _ Hc Ht He) as Hv. rewrite !val_bool in Hv by (done || by apply wt_ite). destruct (bool_of c env); by injection Hv.
Qed.

Lemma bool_of_negate a : bool_wt a → bool_wt (negate a) ∧ bool_of (negate a) env = negb (bool_of a env).
Proof using Hok.
  intros Ha. assert (negate a = mkNode1 NOT a ∨ ∃ b, a = mkNode1 NOT b ∧ negate a = b) as [->|(b&->&->)].
  { destruct a as [| | | |[] [|b []]]; auto. right. by exists b. }
  - split; [by apply wt_not|by apply bool_of_not].
  - destruct (not_operand _ _ Ha) as (b'&[= ->]&_&Hb). split; [done|]. by rewrite bool_of_not, negb_involutive.
Qed.

End values.

(** * One-bit terms and the formulas they stand for: the bit is 1 when the formula
    is true. *)

Definition bit (n m : Node) : Prop := bvterm n 1 (λ env, b2z (bool_of m env)) ∧ bool_wt m.

Lemma bit_wt n m : bit n m → wt n (BITVECTOR_TYPE 1).
Proof. by intros [(?&_) _]. Qed.

Lemma bit_val n m env : bit n m → env_ok env → bv_of n env = b2z (bool_of m env).
Proof. intros [Hn _] Hok. destruct (bvterm_det _ _ _ _ _ (wt_bvterm _ _ (proj1 Hn)) Hn) as [_ He]. by apply He. Qed.

Lemma bit_intro n m f : bvterm n 1 f → bool_wt m → (∀ env, env_ok env → f env = b2z (bool_of m env)) → bit n m.
Proof. intros Hn Hm Hf. split; [|done]. eapply bvterm_env; [exact Hn|]. intros env Hok. symmetry. by apply Hf. Qed.

Lemma bit_term n m f : bvterm n 1 f → bit n m → ∀ env, env_ok env → f env = b2z (bool_of m env).
Proof. intros Hn [Hb _]. by destruct (bvterm_det _ _ _ _ _ Hn Hb). Qed.

Lemma bit_equiv n n' m m' : bit n m → equiv n n' → equiv m m' → bit n' m'.
Proof.
  intros [(Hn&Hw&Hv) Hm] He Hme. pose proof (equiv_wt _ _ _ Hn He) as Hn'. pose proof (equiv_wt _ _ _ Hm Hme) as Hm'. split; [|done]. split_and!; [done|lia..|]. intros env Hok.
  destruct He as (_&_&He), Hme as (_&_&Hme). rewrite He by done. unfold bool_of. rewrite Hme by done. by apply Hv.
Qed.

Lemma bit_equiv_l n n' m : bit n m → equiv n n' → bit n' m.
Proof. intros Hb He. eapply bit_equiv; [exact Hb|done|]. eapply equiv_refl, Hb. Qed.

Lemma bit_equiv_r n m m' : bit n m → equiv m m' → bit n m'.
Proof. intros Hb He. eapply bit_equiv; [exact Hb| |done]. eapply equiv_refl, bit_wt, Hb. Qed.

Lemma one_bit_range n env : wt n (BITVECTOR_TYPE 1) → env_ok env → bv_of n env = 0 ∨ bv_of n env = 1.
Proof. intros Hn Hok. pose proof (wt_bound n 1 env Hn Hok). lia. Qed.

(** Terms with the same formula. *)
Lemma bit_fun n n' m : bit n m → bit n' m → equiv n n'.
Proof. intros [Hn _] [Hn' _]. by eapply equiv_bv. Qed.

(** ** Constants *)

Abbreviation one1 := (cst 1 1).
Abbreviation zero1 := (cst 1 0).

Lemma one1_term : bvterm one1 1 (λ _, 1).
Proof. by apply bv_constBV. Qed.
Lemma zero1_term : bvterm zero1 1 (λ _, 0).
Proof. by apply bv_constBV. Qed.

Lemma bit_const b : bit (if b : bool then one1 else zero1) (mkConstBool b).
Proof. destruct b; (split; [|done]); apply one1_term || apply zero1_term. Qed.

(** ** From a bit to a formula and back *)

Lemma bool_of_one n env : wt n (BITVECTOR_TYPE 1) → env_ok env → bool_of (mkNode2 EQUAL n one1) env = bool_decide (bv_of n env = 1).
Proof. intros Hn Hok. destruct (bool_eq_bv n one1 1 _ _ (wt_bvterm _ _ Hn) one1_term) as [_ He]. unfold bool_of. by rewrite He. Qed.

Lemma bit_equal_one n : wt n (BITVECTOR_TYPE 1) → bit n (mkNode2 EQUAL n one1).
Proof.
  intros Hn. eapply bit_intro; [by apply wt_bvterm|by eapply wt_equal, one1_term|]. intros env Hok. cbv beta. rewrite bool_of_one by done. by destruct (one_bit_range n env Hn Hok) as [-> | ->].
Qed.

Lemma equal_one_equiv n m : bit n m → equiv m (mkNode2 EQUAL n one1).
Proof.
  intros Hb. pose proof Hb as [_ Hm]. apply equiv_formula; [done|eapply wt_equal; [by eapply bit_wt|apply one1_term]|]. intros env Hok. rewrite bool_of_one by (done || by eapply bit_wt).
  rewrite (bit_val n m env Hb Hok). apply b2z_eq_1.
Qed.

Lemma formula_term m : bool_wt m → boolterm m (bool_of m).
Proof. intros [Ht Hc]. by apply typed_boolterm. Qed.

Lemma bit_force m : bool_wt m → bit (mkNode3 ITE m one1 zero1) m.
Proof. intros Hm. eapply bit_intro; [apply (bv_ite _ _ _ _ _ one1_term zero1_term _ _ (formula_term m Hm))|done|]. intros env Hok. cbv beta. by destruct (bool_of m env). Qed.

(** ** Operators *)

Lemma bit_not n m : bit n m → bit (mkNode1 BITVECTOR_NOT n) (mkNode1 NOT m).
Proof. intros [Hn Hm]. eapply bit_intro; [apply (bv_not _ _ _ Hn)|by apply wt_not|]. intros env Hok. cbv beta. rewrite bool_of_not by done. by destruct (bool_of m env). Qed.

Lemma wt_xor a b : bool_wt a → bool_wt b → bool_wt (mkNode2 XOR a b).
Proof. intros Ha Hb. by apply (wt_node2 _ _ _ _ _ _ Ha Hb). Qed.

Lemma bit_xor_node n1 m1 n2 m2 : bit n1 m1 → bit n2 m2 → bit (mkNode2 BITVECTOR_XOR n1 n2) (mkNode2 XOR m1 m2).
Proof.
  intros [H1 W1] [H2 W2]. eapply bit_intro; [apply (bv_xor _ _ _ _ _ H1 H2)|by apply wt_xor|]. intros env Hok. cbv beta. rewrite bool_of_xor by done. by destruct (bool_of m1 env), (bool_of m2 env).
Qed.

Lemma bit_ite c n1 m1 n2 m2 : bool_wt c → bit n1 m1 → bit n2 m2 → bit (mkNode3 ITE c n1 n2) (mkNode3 ITE c m1 m2).
Proof.
  intros Hc [H1 W1] [H2 W2]. eapply bit_intro; [apply (bv_ite _ _ _ _ _ H1 H2 _ _ (formula_term c Hc))|by apply wt_ite|]. intros env Hok. cbv beta. rewrite bool_of_ite by done. by destruct (bool_of c env).
Qed.

Lemma bit_comp a b w : wt a (BITVECTOR_TYPE w) → wt b (BITVECTOR_TYPE w) → bit (mkNode2 BITVECTOR_COMP a b) (mkNode2 EQUAL a b).
Proof.
  intros Ha Hb. eapply bit_intro; [apply (bv_comp _ _ _ _ _ (wt_bvterm _ _ Ha) (wt_bvterm _ _ Hb))|by eapply wt_equal|]. intros env Hok. cbv beta.
  destruct (bool_eq_bv a b w _ _ (wt_bvterm _ _ Ha) (wt_bvterm _ _ Hb)) as [_ He]. unfold bool_of. by rewrite He.
Qed.

(** The equality of two bits is that of the formulas. *)
Lemma equal_bits n1 m1 n2 m2 : bit n1 m1 → bit n2 m2 → equiv (mkNode2 EQUAL n1 n2) (mkNode2 EQUAL m1 m2).
Proof.
  intros H1 H2. apply equiv_formula; [eapply wt_equal; by eapply bit_wt|eapply wt_equal; [apply H1|apply H2]|]. intros env Hok. pose proof H1 as [T1 W1]. pose proof H2 as [T2 W2]. rewrite bool_of_iff by done.
  destruct (bool_eq_bv n1 n2 1 _ _ T1 T2) as [_ He]. unfold bool_of at 3. rewrite He by done. by destruct (bool_of m1 env), (bool_of m2 env).
Qed.

Lemma bits_wts ns ms : Forall2 bit ns ms → wts 1 ns ∧ Forall (λ m, bool_wt m) ms.
Proof. induction 1 as [|n m ns ms Hb _ [IH1 IH2]]; (split; constructor); [by eapply bit_wt|done|apply Hb|done]. Qed.

Lemma bits_opval k g e (op : bool → bool → bool) (b : bool) ns ms env : NaryKind k g e → e 1 = b2z b → (∀ x y, g 1 (b2z x) (b2z y) = b2z (op x y)) → Forall2 bit ns ms → env_ok env →
  opval (g 1) (e 1) ns env = b2z (foldr (λ m x, op (bool_of m env) x) b ms).
Proof. intros _ He Hg HF Hok. induction HF as [|n m ns ms Hb _ IH]; cbn [opval foldr]; [done|]. unfold opval in IH. rewrite IH, (bit_val _ _ _ Hb Hok). apply Hg. Qed.

Lemma bool_of_all env ms : env_ok env → Forall (λ m, bool_wt m) ms → bool_of (mkNode AND ms) env = foldr (λ m x, bool_of m env && x) true ms.
Proof. intros Hok HF. unfold bool_of at 1. cbn [eval]. rewrite eval_bools by done. cbn [mbind option_bind kind_eval]. rewrite as_bools_fmap. cbn. clear HF. induction ms as [|m ms IH]; [done|]. cbn. by rewrite IH. Qed.

Lemma bool_of_any env ms : env_ok env → Forall (λ m, bool_wt m) ms → bool_of (mkNode OR ms) env = foldr (λ m x, bool_of m env || x) false ms.
Proof. intros Hok HF. unfold bool_of at 1. cbn [eval]. rewrite eval_bools by done. cbn [mbind option_bind kind_eval]. rewrite as_bools_fmap. cbn. clear HF. induction ms as [|m ms IH]; [done|]. cbn. by rewrite IH. Qed.

Lemma bit_nary k k' ns ms : k = BITVECTOR_AND ∧ k' = AND ∨ k = BITVECTOR_OR ∧ k' = OR → Forall2 bit ns ms → (2 ≤ length ns)%nat → Z.of_nat (length ns) ≤ MAX_CHILDREN → bit (mkNode k ns) (mkNode k' ms).
Proof.
  intros Hk HF Hl Hm. destruct (bits_wts ns ms HF) as [Hns Hms]. pose proof (Forall2_length HF) as El.
  destruct Hk as [[-> ->]|[-> ->]]; (eapply bit_intro; [eapply bv_opval; [done|lia|lia]|apply wt_nary; [auto|done|lia|lia]|]); intros env Hok; cbv beta.
  - rewrite bool_of_all by done. by apply (bits_opval BITVECTOR_AND (λ _, Z.land) (λ w, 2 ^ w - 1) andb true ns ms env _); [|intros [] []| |].
  - rewrite bool_of_any by done. by apply (bits_opval BITVECTOR_OR (λ _, Z.lor) (λ _, 0) orb false ns ms env _); [|intros [] []| |].
Qed.

Lemma xor_chain env ms : ∀ m, env_ok env → bool_wt m → Forall (λ m, bool_wt m) ms →
  bool_wt (foldl (λ r c, mkNode2 XOR r c) m ms) ∧ bool_of (foldl (λ r c, mkNode2 XOR r c) m ms) env = xorb (bool_of m env) (foldr (λ m x, xorb (bool_of m env) x) false ms).
Proof.
  intros m Hok Hm HF. revert m Hm. induction HF as [|c ms Hc _ IH]; intros m Hm; cbn [foldl foldr]; [split; [done|by rewrite xorb_false_r]|].
  destruct (IH (mkNode2 XOR m c) ltac:(by apply wt_xor)) as [? ->]. split; [done|]. rewrite bool_of_xor by done. by rewrite xorb_assoc.
Qed.

Lemma bit_xors n m ns ms : bit n m → Forall2 bit ns ms → ns ≠ [] → Z.of_nat (length (n :: ns)) ≤ MAX_CHILDREN →
  bit (mkNode BITVECTOR_XOR (n :: ns)) (foldl (λ r c, mkNode2 XOR r c) m ms).
Proof.
  intros Hb HF Hne Hm. assert (Forall2 bit (n :: ns) (m :: ms)) as HF' by (by constructor). destruct (bits_wts _ _ HF') as [Hns [Hwm Hms]%list.Forall_cons].
  eapply bit_intro; [apply (bv_opval (k:=BITVECTOR_XOR) 1); [done|destruct ns; [done|cbn; lia]|done]|by apply (xor_chain env0); [apply env0_ok|..]|].
  intros env Hok. cbv beta. rewrite (bits_opval BITVECTOR_XOR (λ _, Z.lxor) (λ _, 0) xorb false _ _ env _ eq_refl ltac:(by intros [] []) HF' Hok). by destruct (xor_chain env ms m Hok Hwm Hms) as [_ ->].
Qed.

(** The predicates that return a bit. *)
Lemma bit_pred k kb p a b w : arity_ok k 2 = true → payload_ok k = true → (∀ cs ts, computeType k cs ts = BitVectorPredicateTypeRule ts) → (∀ vs, kind_eval k vs = bv_pred p vs) →
  arity_ok kb 2 = true → payload_ok kb = true → (∀ cs ts, computeType kb cs ts = BitVectorBVPredTypeRule ts) → (∀ vs, kind_eval kb vs = as_bit (bv_pred p vs)) →
  wt a (BITVECTOR_TYPE w) → wt b (BITVECTOR_TYPE w) → bit (mkNode2 kb a b) (mkNode2 k a b).
Proof.
  intros H1 H2 H3 H4 H5 H6 H7 H8 Ha Hb. pose proof (wt_bvterm _ _ Ha) as (_&Hw&Ea). pose proof (wt_bvterm _ _ Hb) as (_&_&Eb).
  destruct (bool_pred a b w _ _ (wt_bvterm _ _ Ha) (wt_bvterm _ _ Hb) k p H1 H2 H3 H4) as [Hm Hv].
  split; [|done]. split_and!; [|done..|].
  - apply (wt_node2 _ _ _ _ _ _ Ha Hb); [done..|]. rewrite H7. unfold BitVectorBVPredTypeRule. cbn. by rewrite comparable_refl.
  - intros env Hok. destruct (Ea env Hok) as [Ea' _], (Eb env Hok) as [Eb' _]. rewrite (eval_node2 _ _ _ _ _ _ Ea' Eb'), H8. unfold bool_of. rewrite (Hv env Hok). cbn [bv_pred]. rewrite decide_True by done. cbn.
    split; [done|]. destruct (p w _ _); cbn; lia.
Qed.

Lemma wt_implies a b : bool_wt a → bool_wt b → bool_wt (mkNode2 IMPLIES a b).
Proof. intros Ha Hb. by apply (wt_node2 _ _ _ _ _ _ Ha Hb). Qed.

Lemma bit_implies n1 m1 n2 m2 : bit n1 m1 → bit n2 m2 → bit (mkNode2 BITVECTOR_OR (mkNode1 BITVECTOR_NOT n1) n2) (mkNode2 IMPLIES m1 m2).
Proof.
  intros H1 H2. pose proof (bit_not _ _ H1) as [Hn _]. pose proof H1 as [_ W1]. pose proof H2 as [T2 W2]. eapply bit_intro; [apply (bv_or _ _ _ _ _ Hn T2)|by apply wt_implies|]. intros env Hok. cbv beta.
  rewrite bool_of_implies, bool_of_not by done. by destruct (bool_of m1 env), (bool_of m2 env).
Qed.

(** [BITVECTOR_ITE] with the bit of the condition. *)
Lemma bvite_equiv c m t e τ : bit c m → wt t τ → wt e τ → equiv (mkNode3 ITE m t e) (mkNode3 BITVECTOR_ITE c t e).
Proof.
  intros Hc Ht He. pose proof Hc as [Tc Wm]. pose proof (bvite_term c t e τ _ _ _ Tc (wt_term _ _ Ht) (wt_term _ _ He)) as Hb. eapply equiv_val; [by apply wt_ite|apply Hb|]. intros env Hok.
  rewrite (val_ite env Hok m t e τ) by done. destruct Hb as [_ Hv]. unfold val_of at 1. destruct (Hv env Hok) as [-> _]. by destruct (bool_of m env).
Qed.

Lemma bit_bvite c m n1 m1 n2 m2 : bit c m → bit n1 m1 → bit n2 m2 → bit (mkNode3 BITVECTOR_ITE c n1 n2) (mkNode3 ITE m m1 m2).
Proof. intros Hc H1 H2. eapply bit_equiv_l; [by apply bit_ite; [apply Hc|..]|]. eapply bvite_equiv; [done|by eapply bit_wt..]. Qed.

Lemma bit_comp_bits n1 m1 n2 m2 : bit n1 m1 → bit n2 m2 → bit (mkNode2 BITVECTOR_COMP n1 n2) (mkNode2 EQUAL m1 m2).
Proof. intros H1 H2. eapply bit_equiv_r; [eapply bit_comp; by eapply bit_wt|by apply equal_bits]. Qed.
