(* ===== verification/BoolRewriter.v ===== *)
(** [theory/booleans/theory_bool_rewriter.cpp]: the rewriter of the Boolean
    connectives and of [ITE], and the negation normal form that is used to
    reconstruct proofs.  [None] is a failed assertion. *)
From stdpp Require Import base option list gmap numbers.
From S2P Require Import Prelude Node TypeRules BvElim TheoryRewriter BvCore.
Open Scope Z_scope.

(** [NodeTemplate::orNode]. *)
Definition orNode (a b : Node) : Node := mkNode2 OR a b.

Definition d_true : Node := mkConstBool true.
Definition d_false : Node := mkConstBool false.

(** ** Flattening *)

(** The inner loop of [flattenNode] over the children of one node.  [None]: the
    trivial node was found. *)
Fixpoint flattenChildren (k : Kind) (trivialNode : Node) (cs toProcess visited childList : list Node) :
    option (list Node * list Node * list Node) :=
  match cs with
  | [] => Some (toProcess, visited, childList)
  | child :: cs =>
      if decide (child ∈ visited) then flattenChildren k trivialNode cs toProcess visited childList
      else if decide (child = trivialNode) then None
      else
        let visited := visited ++ [child] in
        if isKind k child then flattenChildren k trivialNode cs (toProcess ++ [child]) visited childList
        else flattenChildren k trivialNode cs toProcess visited (childList ++ [child])
  end.

(** The outer loop; [toProcess] holds the nodes from the position of the loop
    on.  [inl]: the operands, [inr]: the trivial node was found.  The fuel bounds
    the number of distinct nodes to process. *)
Fixpoint flattenToProcess (fuel : nat) (k : Kind) (trivialNode : Node) (toProcess visited childList : list Node) :
    option (list Node + unit) :=
  match toProcess with
  | [] => Some (inl childList)
  | current :: toProcess =>
      match fuel with
      | O => None
      | S fuel =>
          match flattenChildren k trivialNode (children current) toProcess visited childList with
          | None => Some (inr tt)
          | Some (toProcess, visited, childList) => flattenToProcess fuel k trivialNode toProcess visited childList
          end
      end
  end.

(** Groups of [MAX_CHILDREN] operands. *)
Fixpoint groups (fuel : nat) (size : nat) (l : list Node) : list (list Node) :=
  match l, fuel with
  | [], _ | _, O => []
  | _, S fuel => take size l :: groups fuel size (drop size l)
  end.

Definition nodeKind (n : Node) : option Kind := match n with mkNode k _ => Some k | _ => None end.

Definition flattenNode (n trivialNode skipNode : Node) : option RewriteResponse :=
  k ← nodeKind n;
  r ← flattenToProcess (nsize n) k trivialNode [n] [skipNode] [];
  match r with
  | inr _ => Some (mkRewriteResponse REWRITE_DONE trivialNode)
  | inl [] => Some (mkRewriteResponse REWRITE_DONE skipNode)
  | inl [c] => Some (mkRewriteResponse REWRITE_AGAIN c)
  | inl childList =>
      if decide (Z.of_nat (length childList) < MAX_CHILDREN) then
        Some (mkRewriteResponse REWRITE_DONE (mkNode k childList))
      else
        _ ← assert (bool_decide (Z.of_nat (length childList) < MAX_CHILDREN * MAX_CHILDREN));
        Some (mkRewriteResponse REWRITE_DONE
          (mkNode k (mkNode k <$> groups (length childList) (Z.to_nat MAX_CHILDREN) childList)))
  end.

(** ** Helpers *)

(** 0: no relation, 1: [a == b], 2: [a == not b], 3: [b == not a]. *)
Definition equalityParity (a b : Node) : Z :=
  if decide (a = b) then 1
  else if isKind NOT a && bool_decide (child a 0 = Some b) then 2
  else if isKind NOT b && bool_decide (child b 0 = Some a) then 3
  else 0.

(** The loop of [makeNegation]. *)
Fixpoint stripNot (n : Node) (even : bool) : option (Node * bool) :=
  match n with
  | mkNode NOT (c :: _) => stripNot c (negb even)
  | mkNode NOT [] => None
  | _ => Some (n, even)
  end.

Definition makeNegation (n : Node) : option Node :=
  '(n, even) ← stripNot n false;
  if even : bool then Some n
  else if isConst n then b ← getConstBool n; Some (mkConstBool (negb b))
  else Some (notNode n).

(** [rewriteViaEqConstEq]: [Some None] is the null node.  A type of the model has
    at least two values, so the assertion about its cardinality holds. *)
Definition rewriteViaEqConstEq (n : Node) : option (option Node) :=
  n0 ← child n 0; n1 ← child n 1;
  if isKind EQUAL n0 && isKind EQUAL n1 then
    n00 ← child n0 0; n01 ← child n0 1; n10 ← child n1 0; n11 ← child n1 1;
    let ct := if isConst n00 then Some (n00, n01) else if isConst n01 then Some (n01, n00) else None in
    match ct with
    | None => Some None
    | Some (c, t) =>
        let form :=
          if bool_decide (n10 = t) && isConst n11 then Some (bool_decide (n11 = c))
          else if bool_decide (n11 = t) && isConst n10 then Some (bool_decide (n10 = c))
          else None in
        match form with
        | None => Some None
        | Some true => Some (Some d_true)
        | Some false => Some (Some (andNode (notNode n0) (notNode n1)))
        end
    end
  else Some None.

(** ** Rewriting *)

Definition again (n : Node) : option RewriteResponse := Some (mkRewriteResponse REWRITE_AGAIN n).
Definition finished (n : Node) : option RewriteResponse := Some (mkRewriteResponse REWRITE_DONE n).

(** The first loop of the cases [OR] and [AND]: [None] if the trivial node is an
    operand, otherwise whether there is nothing to flatten. *)
Fixpoint scanChildren (k : Kind) (trivialNode skipNode : Node) (cs : list Node) (done : bool) : option bool :=
  match cs with
  | [] => Some done
  | c :: cs =>
      if decide (c = trivialNode) then None
      else
        let done := if decide (c = skipNode) then false else done in
        let done := if isKind k c then false else done in
        scanChildren k trivialNode skipNode cs done
  end.

(** The second loop: every operand is equal to the next one. *)
Fixpoint allSame (cs : list Node) : bool :=
  match cs with
  | a :: (b :: _) as cs => if decide (a = b) then allSame cs else false
  | _ => true
  end.

(** The cases [OR] and [AND]. *)
Definition rewriteAndOr (k : Kind) (n trivialNode skipNode : Node) : option RewriteResponse :=
  match scanChildren k trivialNode skipNode (children n) true with
  | None => finished trivialNode
  | Some false => flattenNode n trivialNode skipNode
  | Some true => if allSame (children n) then n0 ← child n 0; again n0 else finished n
  end.

Definition rewriteNot (n : Node) : option RewriteResponse :=
  n0 ← child n 0;
  if decide (n0 = d_true) then finished d_false
  else if decide (n0 = d_false) then finished d_true
  else if isKind NOT n0 then n00 ← child n0 0; again n00
  else finished n.

Definition rewriteImplies (n : Node) : option RewriteResponse :=
  n0 ← child n 0; n1 ← child n 1;
  if decide (n0 = d_false ∨ n1 = d_true) then finished d_true
  else if decide (n0 = d_true ∧ n1 = d_false) then finished d_false
  else if decide (n0 = d_true) then again n1
  else if decide (n1 = d_false) then r ← makeNegation n0; again r
  else finished n.

Definition rewriteXor (n : Node) : option RewriteResponse :=
  n0 ← child n 0; n1 ← child n 1;
  if decide (n0 = d_true) then r ← makeNegation n1; again r
  else if decide (n1 = d_true) then r ← makeNegation n0; again r
  else if decide (n0 = d_false) then again n1
  else if decide (n1 = d_false) then again n0
  else if decide (n0 = n1) then finished d_false
  else if isKind NOT n0 && bool_decide (child n0 0 = Some n1) then finished d_true
  else if isKind NOT n1 && bool_decide (child n1 0 = Some n0) then finished d_true
  else finished n.

(** The case [ITE], from the tests of constant branches on. *)
Definition rewriteIteBranches (n n0 n1 n2 : Node) : option RewriteResponse :=
  if isConst n1 && (bool_decide (n1 = d_true) || bool_decide (n1 = d_false)) then
    again (if decide (n1 = d_true) then orNode n0 n2 else andNode (negate n0) n2)
  else if isConst n2 && (bool_decide (n2 = d_true) || bool_decide (n2 = d_false)) then
    again (if decide (n2 = d_true) then orNode (negate n0) n1 else andNode n0 n1)
  else finished n.

(** [m.getKind() == ITE && equalityParity(c, m[0])]. *)
Definition iteParity (c m : Node) : Z :=
  if isKind ITE m then match child m 0 with Some m0 => equalityParity c m0 | None => 0 end else 0.

(** From the tests of related operands on. *)
Definition rewriteIteParity (n n0 n1 n2 : Node) : option RewriteResponse :=
  if decide (equalityParity n1 n2 ≠ 0) then
    again (if decide (equalityParity n1 n2 = 1) then n1 else eqNode n0 n1)
  else if negb (isConst n1) && bool_decide (equalityParity n0 n1 ≠ 0) then
    again (iteNode n0 (if decide (equalityParity n0 n1 = 1) then d_true else d_false) n2)
  else if negb (isConst n2) && bool_decide (equalityParity n0 n2 ≠ 0) then
    again (iteNode n0 n1 (if decide (equalityParity n0 n2 = 1) then d_false else d_true))
  else if decide (iteParity n0 n1 ≠ 0) then
    r ← child n1 (if decide (iteParity n0 n1 = 1) then 1%nat else 2%nat); again (iteNode n0 r n2)
  else if decide (iteParity n0 n2 ≠ 0) then
    r ← child n2 (if decide (iteParity n0 n2 = 1) then 2%nat else 1%nat); again (iteNode n0 n1 r)
  else rewriteIteBranches n n0 n1 n2.

Definition rewriteIte (n : Node) : option RewriteResponse :=
  n0 ← child n 0; n1 ← child n 1; n2 ← child n 2;
  let rest :=
    if isKind NOT n0 then n00 ← child n0 0; again (iteNode n00 n2 n1)
    else rewriteIteParity n n0 n1 n2 in
  if isConst n0 then
    if decide (n0 = d_true) then again n1 else _ ← assert (bool_decide (n0 = d_false)); again n2
  else if isConst n1 && bool_decide (n1 = d_true) && bool_decide (n2 = d_false) then again n0
  else if isConst n1 && bool_decide (n1 = d_false) && bool_decide (n2 = d_true) then r ← makeNegation n0; again r
  else rest.

Section rewriter.
Context `{!NodeIds}.

Definition rewriteEqual (n : Node) : option RewriteResponse :=
  n0 ← child n 0; n1 ← child n 1;
  if decide (n0 = d_true) then again n1
  else if decide (n1 = d_true) then again n0
  else if decide (n0 = d_false) then r ← makeNegation n1; again r
  else if decide (n1 = d_false) then r ← makeNegation n0; again r
  else if decide (n0 = n1) then finished d_true
  else if isKind NOT n0 && bool_decide (child n0 0 = Some n1) then finished d_false
  else if isKind NOT n1 && bool_decide (child n1 0 = Some n0) then finished d_false
  else
    ret ← rewriteViaEqConstEq n;
    match ret with
    | Some ret => Some (mkRewriteResponse (if isConst ret then REWRITE_DONE else REWRITE_AGAIN) ret)
    | None => if decide (nodeId n0 > nodeId n1) then again (mkNode2 EQUAL n1 n0) else finished n
    end.

Definition preRewrite (n : Node) : option RewriteResponse :=
  match n with
  | mkNode NOT _ => rewriteNot n
  | mkNode OR _ => rewriteAndOr OR n d_true d_false
  | mkNode AND _ => rewriteAndOr AND n d_false d_true
  | mkNode IMPLIES _ => rewriteImplies n
  | mkNode EQUAL _ => rewriteEqual n
  | mkNode XOR _ => rewriteXor n
  | mkNode ITE _ => rewriteIte n
  | _ => finished n
  end.

Definition postRewrite (n : Node) : option RewriteResponse := preRewrite n.

End rewriter.

(** ** Negation normal form *)

(** [addNnfNormChild]: [children], [lit_pol] and [childrenChanged] are updated;
    [None] is the answer false. *)
Definition addNnfNormChild (c : Node) (k : option Kind) (st : list Node * gmap Node bool * bool) :
    option (list Node * gmap Node bool * bool) :=
  let '(cs, lit_pol, childrenChanged) := st in
  if decide (k = Some OR ∨ k = Some AND) then
    let lit := if isKind NOT c then default c (child c 0) else c in
    let pol := negb (isKind NOT c) in
    match lit_pol !! lit with
    | None => Some (cs ++ [c], <[lit := pol]> lit_pol, childrenChanged)
    | Some p => if decide (p ≠ pol) then None else Some (cs, lit_pol, true)
    end
  else Some (cs ++ [c], lit_pol, childrenChanged).

(** The maps of [computeNnfNorm] and the attribute of nodes that caches its
    results.  [preKind] is [None] for [UNDEFINED_KIND]. *)
Record NnfState := mkNnfState {
  preKind : gmap Node (option Kind);
  preChildren : gmap Node (list Node);
  visited : gmap Node (option Node);
  nnfAttribute : gmap Node Node;
}.

(** The kind and the children that [cur] is rebuilt from; [None] for a literal.
    [inl] is the double negation. *)
Definition nnfPre (cur : Node) : option (Node + Kind * list Node) :=
  let negateIf (negAllCh negCh1 : bool) (cs : list Node) :=
    imap (λ i c, if xorb (bool_decide (i = 0%nat) && negCh1) negAllCh then negate c else c) cs in
  let isBooleanEq cs := match cs with c :: _ => bool_decide (typeOf c = Some BOOLEAN_TYPE) | [] => false end in
  match cur with
  | mkNode IMPLIES cs => Some (inr (OR, negateIf false true cs))
  | mkNode XOR cs => Some (inr (EQUAL, negateIf false true cs))
  | mkNode NOT (mkNode NOT (c :: _) :: _) => Some (inl c)
  | mkNode NOT (mkNode OR cs :: _) => Some (inr (AND, negateIf true false cs))
  | mkNode NOT (mkNode IMPLIES cs :: _) => Some (inr (AND, negateIf true true cs))
  | mkNode NOT (mkNode AND cs :: _) => Some (inr (OR, negateIf true false cs))
  | mkNode NOT (mkNode XOR cs :: _) => Some (inr (EQUAL, negateIf false false cs))
  | mkNode NOT (mkNode EQUAL cs :: _) =>
      if isBooleanEq cs then Some (inr (EQUAL, negateIf false true cs)) else None
  | mkNode NOT (mkNode ITE cs :: _) => Some (inr (ITE, negateIf true true cs))
  | mkNode EQUAL cs => if isBooleanEq cs then Some (inr (EQUAL, negateIf false false cs)) else None
  | mkNode ITE cs => Some (inr (ITE, negateIf false false cs))
  | mkNode AND cs => Some (inr (AND, negateIf false false cs))
  | mkNode OR cs => Some (inr (OR, negateIf false false cs))
  | _ => None
  end.

(** The loop over [preChildren]: [inl] are the children of the node to build,
    [inr] is a tautology or a contradiction. *)
Fixpoint nnfChildren (k : option Kind) (vis : gmap Node (option Node)) (pc : list Node) (st : list Node * gmap Node bool * bool) :
    option (list Node * gmap Node bool * bool + unit) :=
  match pc with
  | [] => Some (inl st)
  | cn :: pc =>
      c ← default None (vis !! cn);
      let flat := bool_decide (nodeKind c = k) && (bool_decide (k = Some OR) || bool_decide (k = Some AND)) in
      let st' :=
        if flat then
          let '(cs, lp, _) := st in foldl (λ acc cc, st ← acc; addNnfNormChild cc k st) (Some (cs, lp, true)) (children c)
        else addNnfNormChild c k st in
      match st' with
      | None => Some (inr tt)
      | Some (cs, lp, changed) => nnfChildren k vis pc (cs, lp, changed || negb (bool_decide (c = cn)))
      end
  end.

(** The second visit of [cur]. *)
Definition nnfPost (cur : Node) (s : NnfState) : option Node :=
  k ← preKind s !! cur;
  let pc := default [] (preChildren s !! cur) in
  r ← nnfChildren k (visited s) pc ([], ∅, false);
  match r with
  | inr _ =>
      _ ← assert (bool_decide (k = Some OR) || bool_decide (k = Some AND));
      Some (mkConstBool (bool_decide (k = Some OR)))
  | inl (cs, _, childChanged) =>
      match k with
      | None => _ ← assert (bool_decide (length cs = 1%nat)); cs !! 0%nat
      | Some k' =>
          if childChanged || negb (bool_decide (nodeKind cur = k)) then
            match cs with
            | [c] => if decide (k' ≠ NOT) then Some c else Some (mkNode k' cs)
            | _ => Some (mkNode k' cs)
            end
          else Some cur
      end
  end.

(** One iteration of the loop on [visit], whose last element is [cur]. *)
Definition nnfVisit (cur : Node) (s : NnfState) : option (list Node * NnfState) :=
  match visited s !! cur with
  | None =>
      match nnfAttribute s !! cur with
      | Some r => Some ([], mkNnfState (preKind s) (preChildren s) (<[cur := Some r]> (visited s)) (nnfAttribute s))
      | None =>
          match nnfPre cur with
          | None => Some ([], mkNnfState (preKind s) (preChildren s) (<[cur := Some cur]> (visited s)) (nnfAttribute s))
          | Some (inl preCur) =>
              Some ([preCur; cur], mkNnfState (<[cur := None]> (preKind s)) (<[cur := default [] (preChildren s !! cur) ++ [preCur]]> (preChildren s))
                                     (<[cur := None]> (visited s)) (nnfAttribute s))
          | Some (inr (k, pc)) =>
              Some (reverse pc ++ [cur],
                mkNnfState (<[cur := Some k]> (preKind s)) (<[cur := default [] (preChildren s !! cur) ++ pc]> (preChildren s))
                  (<[cur := None]> (visited s)) (nnfAttribute s))
          end
      end
  | Some None =>
      ret ← nnfPost cur s;
      Some ([], mkNnfState (preKind s) (preChildren s) (<[cur := Some ret]> (visited s)) (<[cur := ret]> (nnfAttribute s)))
  | Some (Some _) => Some ([], s)
  end.

(** [visit] with its last element first. *)
Fixpoint nnfLoop (fuel : nat) (visit : list Node) (s : NnfState) : option NnfState :=
  match visit, fuel with
  | [], _ => Some s
  | _, O => None
  | cur :: visit, S fuel => '(pushed, s) ← nnfVisit cur s; nnfLoop fuel (pushed ++ visit) s
  end.

(** [computeNnfNorm] without a proof generator: the attribute is the state. *)
Definition computeNnfNorm (n : Node) : StateM (gmap Node Node) Node := λ attr,
  s ← nnfLoop (4 * nsize n) [n] (mkNnfState ∅ ∅ ∅ attr);
  r ← default None (visited s !! n);
  Some (r, nnfAttribute s).
