(* ===== verification/BoolRewriterSound.v ===== *)
(** The Boolean rewriter keeps the type and the value of a term. *)
From stdpp Require Import base option list gmap numbers.
From S2P Require Import Prelude Node TypeRules Semantics TypeSound BvElim BvTerms BvSimplifySound TheoryRewriter BvCore BoolTerms BoolRewriter.
Open Scope Z_scope.

Lemma isKind_not n τ a : isKind NOT n = true → wt n τ → child n 0 = Some a → n = mkNode1 NOT a ∧ τ = BOOLEAN_TYPE ∧ bool_wt a.
Proof. intros Hk Hn Hc. apply isKind_eq in Hk as [cs ->]. destruct (not_operand cs τ Hn) as (b&->&->&Hb). by injection Hc as ->. Qed.

Lemma again_ok n n' : equiv n n' → responds n (again n').
Proof. apply responds_to. Qed.
Lemma finished_ok n n' : equiv n n' → responds n (finished n').
Proof. apply responds_to. Qed.

(** ** Flattening *)

Section flatten.
Context (k : Kind) (a : bool) (Hk : k = AND ∧ a = false ∨ k = OR ∧ a = true).
Context (n : Node) (Hn : bool_wt n).

Let trivialNode := mkConstBool a.
Let skipNode := mkConstBool (negb a).

Lemma lattice_kind : bool_kind k.
Proof using Hk. destruct Hk as [[-> ->]|[-> ->]]; done. Qed.

(** A formula that gives [n] the absorbing value when it has it. *)
Definition part_of (c : Node) : Prop := bool_wt c ∧ ∀ env, env_ok env → bool_of c env = a → bool_of n env = a.

Lemma part_operand cs : part_of (mkNode k cs) → Forall part_of cs.
Proof using Hk.
  intros [Hw Hv]. destruct (bool_operands k cs _ lattice_kind Hw) as (_&HF&_). apply list.Forall_forall. intros c Hc.
  rewrite list.Forall_forall in HF. split; [by apply HF|]. intros env Hok Hc'. apply Hv; [done|]. apply (bool_of_nary env Hok k a); [done|by apply list.Forall_forall|].
  apply list.Exists_exists. by exists c.
Qed.

(** [done]: the nodes whose children were looked at, [cs]: the children that are
    left of the current one. *)
Record flat_inv (done cs toProcess visited childList : list Node) : Prop := {
  flat_cs : Forall part_of cs;
  flat_toProcess : Forall (λ x, isKind k x = true ∧ part_of x) toProcess;
  flat_childList : Forall part_of childList;
  flat_visited : ∀ x, x ∈ visited → x = skipNode ∨ x ∈ childList ∨ x ∈ toProcess ∨ x ∈ done;
  flat_done : ∀ x, x ∈ done → bool_wt x ∧ ∃ ds, x = mkNode k ds ∧ ∀ d, d ∈ ds → d ∈ visited ∨ d ∈ cs;
}.

Lemma flattenChildren_ok done cs : ∀ toProcess visited childList, flat_inv done cs toProcess visited childList →
  match flattenChildren k trivialNode cs toProcess visited childList with
  | None => part_of trivialNode
  | Some (toProcess', visited', childList') =>
      flat_inv done [] toProcess' visited' childList' ∧
      (sum_list_with nsize toProcess' ≤ sum_list_with nsize toProcess + sum_list_with nsize cs)%nat
  end.
Proof using Hk Hn.
  induction cs as [|c cs IH]; intros toProcess visited childList [Hcs Hp Hc Hv Hd]; cbn [flattenChildren]; [split; [by split|lia]|].
  apply list.Forall_cons in Hcs as [Hc0 Hcs]. destruct (decide (c ∈ visited)) as [Hin|Hout].
  { opose proof * (IH toProcess visited childList) as H.
    - split; try done. intros x Hx. destruct (Hd x Hx) as (?&ds&->&Hds). split; [done|]. exists ds. split; [done|]. intros d Hdd. destruct (Hds d Hdd); set_solver.
    - destruct (flattenChildren _ _ _ _ _ _) as [[[? ?] ?]|]; [|done]. destruct H as [H H']. split; [done|]. simpl. lia. }
  destruct (decide (c = trivialNode)) as [->|_]; [done|].
  assert (∀ x, x ∈ done → bool_wt x ∧ ∃ ds, x = mkNode k ds ∧ ∀ d, d ∈ ds → d ∈ visited ++ [c] ∨ d ∈ cs) as Hd'.
  { intros x Hx. destruct (Hd x Hx) as (?&ds&->&Hds). split; [done|]. exists ds. split; [done|]. intros d Hdd. destruct (Hds d Hdd); set_solver. }
  destruct (isKind k c) eqn:Hkc.
  - opose proof * (IH (toProcess ++ [c]) (visited ++ [c]) childList) as H.
    + split; try done; [by apply Forall_app_2; [|apply Forall_singleton]|]. intros x [Hx|Hx%list_elem_of_singleton]%elem_of_app; [destruct (Hv x Hx)|]; set_solver.
    + destruct (flattenChildren _ _ _ _ _ _) as [[[? ?] ?]|]; [|done]. destruct H as [H H']. split; [done|]. rewrite sum_list_with_app in H'. simpl in *. lia.
  - opose proof * (IH toProcess (visited ++ [c]) (childList ++ [c])) as H.
    + split; try done; [by apply Forall_app_2; [|apply Forall_singleton]|]. intros x [Hx|Hx%list_elem_of_singleton]%elem_of_app; [destruct (Hv x Hx)|]; set_solver.
    + destruct (flattenChildren _ _ _ _ _ _) as [[[? ?] ?]|]; [|done]. destruct H as [H H']. split; [done|]. simpl. lia.
Qed.

(** At the end the absorbing value comes from an operand. *)
Lemma flat_closed done visited childList env : flat_inv done [] [] visited childList → env_ok env →
  ∀ m x, (nsize x ≤ m)%nat → x ∈ visited ∨ x ∈ done → bool_of x env = a → Exists (λ c, bool_of c env = a) childList.
Proof using Hk Hn.
  intros [_ _ _ Hv Hd] Hok m. induction m as [|m IH]; intros x Hm Hx Ha; [pose proof (nsize_pos x); lia|].
  assert (x ∈ done → Exists (λ c, bool_of c env = a) childList) as Hdone.
  { intros Hx'. destruct (Hd x Hx') as (Hw&ds&->&Hds). destruct (bool_operands k ds _ lattice_kind Hw) as (_&HF&_).
    apply (bool_of_nary env Hok k a ds Hk HF), list.Exists_exists in Ha as (d&Hdd&Ha). apply (IH d); [|destruct (Hds d Hdd); set_solver|done].
    pose proof (nsize_child k ds d Hdd). lia. }
  destruct Hx as [Hx|Hx]; [|auto]. destruct (Hv x Hx) as [->|[Hc|[Hp|Hx']]]; [by destruct a| |by apply elem_of_nil in Hp|auto].
  apply list.Exists_exists. by exists x.
Qed.

Lemma flattenToProcess_ok fuel : ∀ done toProcess visited childList, flat_inv done [] toProcess visited childList →
  n ∈ done ∨ toProcess = [n] → (sum_list_with nsize toProcess ≤ fuel)%nat →
  ∃ r, flattenToProcess fuel k trivialNode toProcess visited childList = Some r ∧
    match r with
    | inl l => Forall part_of l ∧ ∀ env, env_ok env → bool_of n env = a ↔ Exists (λ c, bool_of c env = a) l
    | inr _ => part_of trivialNode
    end.
Proof using Hk Hn.
  induction fuel as [|fuel IH]; intros done [|current toProcess] visited childList Hi Hin Hf; cbn [flattenToProcess].
  2: { pose proof (nsize_pos current). simpl in Hf. lia. }
  3: {
    pose proof Hi as [_ Hp Hc Hv Hd]. apply list.Forall_cons in Hp as [[Hkc Hcur] Hp]. apply isKind_eq in Hkc as [ds ->].
    opose proof * (flattenChildren_ok (mkNode k ds :: done) ds toProcess visited childList) as H.
    - split; try done; [by apply part_operand|set_solver|]. intros x [->|Hx]%elem_of_cons; [|destruct (Hd x Hx) as (?&ds'&->&Hds)].
      + split; [apply Hcur|]. exists ds. split; [done|]. auto.
      + split; [done|]. exists ds'. split; [done|]. intros d Hdd. destruct (Hds d Hdd); set_solver.
    - cbn [children]. destruct (flattenChildren _ _ _ _ _ _) as [[[tp vis] cl]|]; [|by exists (inr tt)]. destruct H as [H Hs].
      apply (IH _ _ _ _ H); [|cbn [sum_list_with] in Hf; rewrite nsize_node in Hf; lia].
      destruct Hin as [Hin|[= -> _]]; left; set_solver. }
  all: exists (inl childList); split; [done|]; split; [apply Hi|]; intros env Hok; split.
  1, 3: intros Ha; eapply flat_closed; [exact Hi|done|reflexivity| |exact Ha]; by destruct Hin as [Hin|Hin]; [right|].
  all: intros (c&Hc&Ha)%list.Exists_exists; destruct Hi as [_ _ Hcl _ _]; rewrite list.Forall_forall in Hcl; by eapply Hcl.
Qed.

(** The operands that flattening finds are the children of one node. *)
Definition flat_bound : Prop := ∀ l, flattenToProcess (nsize n) k trivialNode [n] [skipNode] [] = Some (inl l) → Z.of_nat (length l) < MAX_CHILDREN.

Lemma formula_value x : bool_wt x → (∀ env, env_ok env → bool_of n env = a ↔ bool_of x env = a) → equiv n x.
Proof using Hn. clear Hk. intros Hx Hv. apply equiv_formula; [done..|]. intros env Hok. specialize (Hv env Hok). destruct a, (bool_of n env), (bool_of x env); intuition congruence. Qed.

(** The loops of [flattenNode] end. *)
Lemma flatten_run : isKind k n = true → ∃ r, flattenToProcess (nsize n) k trivialNode [n] [skipNode] [] = Some r ∧
  match r with
  | inl l => Forall part_of l ∧ ∀ env, env_ok env → bool_of n env = a ↔ Exists (λ c, bool_of c env = a) l
  | inr _ => part_of trivialNode
  end.
Proof using Hk Hn.
  intros Hkn. apply (flattenToProcess_ok (nsize n) [] [n] [skipNode] []); [|by right|simpl; lia].
  split; try done; [apply Forall_singleton; split; [done|]; by split|set_solver|by intros x Hx%elem_of_nil].
Qed.

Lemma flattenNode_ok : isKind k n = true → flat_bound → responds n (flattenNode n trivialNode skipNode).
Proof using Hk Hn.
  intros Hkn Hb. destruct (flatten_run Hkn) as (r&E&Hr).
  - unfold flattenNode. apply isKind_eq in Hkn as [cs Hcs]. assert (nodeKind n = Some k) as -> by (by rewrite Hcs). cbn [mbind option_bind]. rewrite E. cbn [mbind option_bind].
    destruct r as [l|[]].
    2: { apply responds_to, formula_value; [done|]. intros env Hok. split; [done|]. by apply Hr. }
    destruct Hr as [HF Hv]. specialize (Hb l E). destruct l as [|c1 [|c2 l]].
    + apply responds_to, formula_value; [done|]. intros env Hok. rewrite (Hv env Hok), Exists_nil. split; [done|]. by destruct a.
    + apply responds_to, formula_value; [by rewrite Forall_singleton in HF; apply HF|]. intros env Hok. rewrite (Hv env Hok), Exists_cons, Exists_nil. tauto.
    + rewrite decide_True by done. assert (Forall (λ c, bool_wt c) (c1 :: c2 :: l)) as HF' by (eapply list.Forall_impl; [exact HF|]; by intros x [? _]).
      apply responds_to, formula_value; [apply wt_nary; [destruct Hk as [[-> _]|[-> _]]; auto|done|simpl; lia|lia]|].
      intros env Hok. rewrite (Hv env Hok). symmetry. by apply (bool_of_nary env Hok k a).
Qed.

(** The loops over the operands. *)
Lemma scanChildren_None cs d : scanChildren k trivialNode skipNode cs d = None → trivialNode ∈ cs.
Proof using Hk Hn.
  revert d. induction cs as [|c cs IH]; intros d; [done|]. cbn [scanChildren]. destruct (decide (c = trivialNode)) as [->|_]; [set_solver|].
  intros E%IH. set_solver.
Qed.

Lemma allSame_eq cs c : allSame (c :: cs) = true → Forall (eq c) cs.
Proof using Type.
  revert c. induction cs as [|b cs IH]; intros c; [constructor|]. cbn [allSame]. destruct (decide (c = b)) as [->|]; [|done]. intros E. constructor; [done|by apply IH].
Qed.

End flatten.

Lemma rewriteAndOr_ok k a n : k = AND ∧ a = false ∨ k = OR ∧ a = true → bool_wt n → isKind k n = true → flat_bound k a n →
  responds n (rewriteAndOr k n (mkConstBool a) (mkConstBool (negb a))).
Proof.
  intros Hk Hn Hkn Hb. unfold rewriteAndOr. pose proof Hkn as [cs ->]%isKind_eq. cbn [children].
  destruct (bool_operands k cs _ (lattice_kind k a Hk) Hn) as (_&HF&Hl). destruct (scanChildren _ _ _ _ _) as [[]|] eqn:E.
  - destruct (allSame cs) eqn:Hs; [|by eapply done_ok]. destruct cs as [|c cs].
    + destruct Hk as [[-> _]|[-> _]]; done.
    + cbn [child children lookup list_lookup mbind option_bind]. apply allSame_eq in Hs. apply again_ok, (formula_value a); [done|by apply list.Forall_cons in HF as [? _]|].
      intros env Hok. rewrite (bool_of_nary env Hok k a) by done. rewrite Exists_cons. split; [|auto]. intros [?|(x&Hx&Ha)%list.Exists_exists]; [done|].
      rewrite list.Forall_forall in Hs. by rewrite (Hs x Hx).
  - by apply (flattenNode_ok k a Hk).
  - apply (scanChildren_None k a Hk _ Hn) in E. apply finished_ok, (formula_value a); [done..|]. intros env Hok. split; [done|]. intros _. apply (bool_of_nary env Hok k a); [done..|].
    apply list.Exists_exists. by exists (mkConstBool a).
Qed.


(** ** Negation and parity *)

Lemma stripNot_ok n : bool_wt n → ∀ even, ∃ m e, stripNot n even = Some (m, e) ∧ bool_wt m ∧ isKind NOT m = false ∧
  ∀ env, env_ok env → bool_of m env = xorb (xorb e even) (bool_of n env).
Proof.
  induction n as [id ty|b|z|bv|k cs IH] using Node_ind'; intros Hn even.
  1-4: by eexists _, even; split; [reflexivity|]; rewrite xorb_nilpotent; setoid_rewrite xorb_false_l.
  destruct (decide (k = NOT)) as [->|Hk].
  - destruct (not_operand cs _ Hn) as (c&->&_&Hc). cbn [stripNot]. rewrite Forall_singleton in IH. destruct (IH Hc (negb even)) as (m&e&E&Hm&Hkm&Hv).
    exists m, e. split_and!; try done. intros env Hok. rewrite Hv, bool_of_not by done. destruct e, even, (bool_of c env); done.
  - exists (mkNode k cs), even. split_and!; [by destruct k|done|by apply bool_decide_eq_false|]. intros env Hok. by rewrite xorb_nilpotent.
Qed.

Lemma makeNegation_ok n : bool_wt n → ∃ r, makeNegation n = Some r ∧ bool_wt r ∧ ∀ env, env_ok env → bool_of r env = negb (bool_of n env).
Proof.
  intros Hn. unfold makeNegation. destruct (stripNot_ok n Hn false) as (m&e&->&Hm&_&Hv). cbn [mbind option_bind]. destruct e.
  - exists m. split_and!; [done..|]. intros env Hok. by rewrite Hv.
  - destruct (isConst m) eqn:Hc.
    + destruct (const_formula m Hm Hc) as [b ->]. eexists. split_and!; [done..|]. intros env Hok. specialize (Hv env Hok). rewrite bool_of_const in *. rewrite Hv. by destruct (bool_of n env).
    + exists (mkNode1 NOT m). split_and!; [done|by apply wt_not|]. intros env Hok. rewrite bool_of_not, Hv by done. by destruct (bool_of n env).
Qed.

Lemma negation_ok n n0 : bool_wt n → bool_wt n0 → (∀ env, env_ok env → bool_of n env = negb (bool_of n0 env)) →
  responds n (r ← makeNegation n0; again r).
Proof.
  intros Hn Hn0 Hv. destruct (makeNegation_ok n0 Hn0) as (r&->&Hr&Hrv). cbn [mbind option_bind]. apply again_ok, equiv_formula; [done..|].
  intros env Hok. by rewrite Hrv, Hv.
Qed.

Lemma parity_1 a b : equalityParity a b = 1 → a = b.
Proof. unfold equalityParity. by repeat case_decide; repeat case_match. Qed.

(** Related, but not equal: one is the negation of the other. *)
Lemma parity_neg a b τ : equalityParity a b ≠ 0 → equalityParity a b ≠ 1 → wt a τ → wt b τ →
  τ = BOOLEAN_TYPE ∧ ∀ env, env_ok env → bool_of a env = negb (bool_of b env).
Proof.
  unfold equalityParity. destruct (decide (a = b)) as [|_]; [done|]. intros H0 _ Ha Hb. destruct (isKind NOT a && _) eqn:E.
  - apply andb_true_iff in E as [Hk Hc%bool_decide_eq_true]. destruct (isKind_not a τ b Hk Ha Hc) as (->&->&?). split; [done|]. intros env Hok. by apply bool_of_not.
  - destruct (isKind NOT b && _) eqn:E'; [|done]. apply andb_true_iff in E' as [Hk Hc%bool_decide_eq_true]. destruct (isKind_not b τ a Hk Hb Hc) as (->&->&?). split; [done|].
    intros env Hok. by rewrite bool_of_not, negb_involutive.
Qed.

(** ** The connectives *)

(** Formulas compared by the values of their operands. *)
Ltac by_values :=
  let e := fresh "env" in let He := fresh "Hok" in intros e He; unfold d_true, d_false in *;
  repeat first [rewrite bool_of_not by assumption | rewrite bool_of_xor by assumption | rewrite bool_of_implies by assumption
               | rewrite bool_of_iff by assumption | rewrite bool_of_and by assumption | rewrite bool_of_or by assumption | rewrite bool_of_const];
  repeat match goal with |- context [bool_of ?n e] => destruct (bool_of n e) end; done.

Ltac connective :=
  first [eapply done_ok; eassumption
        |apply negation_ok; [assumption..|by_values]
        |apply again_ok, equiv_formula; [assumption..|by_values]
        |apply finished_ok, equiv_formula; [assumption..|by_values]].

Lemma rewriteNot_ok cs τ : wt (mkNode NOT cs) τ → responds (mkNode NOT cs) (rewriteNot (mkNode NOT cs)).
Proof.
  intros Hn. destruct (not_operand cs τ Hn) as (a&->&->&Ha). unfold rewriteNot. cbn [child children lookup list_lookup mbind option_bind].
  pose proof (wt_bool true). pose proof (wt_bool false).
  destruct (decide (a = d_true)) as [->|_]; [connective|]. destruct (decide (a = d_false)) as [->|_]; [connective|]. destruct (isKind NOT a) eqn:Hk; [|connective].
  apply isKind_eq in Hk as [cs ->]. destruct (not_operand cs _ Ha) as (b&->&_&Hb). cbn [child children lookup list_lookup mbind option_bind].
  apply again_ok, equiv_formula; [done..|]. intros env Hok. by rewrite !bool_of_not, negb_involutive.
Qed.

Lemma rewriteImplies_ok cs τ : wt (mkNode IMPLIES cs) τ → responds (mkNode IMPLIES cs) (rewriteImplies (mkNode IMPLIES cs)).
Proof.
  intros Hn. destruct (bin_operands IMPLIES cs τ I (λ _, eq_refl) Hn) as (a&b&->&->&Ha&Hb). unfold rewriteImplies. cbn [child children lookup list_lookup mbind option_bind].
  pose proof (wt_bool true). pose proof (wt_bool false).
  destruct (decide (a = d_false ∨ b = d_true)) as [[-> | ->]|_]; [connective..|]. destruct (decide (a = d_true ∧ b = d_false)) as [[-> ->]|_]; [connective|].
  destruct (decide (a = d_true)) as [->|_]; [connective|]. destruct (decide (b = d_false)) as [->|_]; connective.
Qed.

(** The two tests for a formula and its negation. *)
Lemma negation_inv a b τ : isKind NOT a && bool_decide (child a 0 = Some b) = true → wt a τ → a = mkNode1 NOT b.
Proof. intros [Hk Hc%bool_decide_eq_true]%andb_true_iff Ha. by destruct (isKind_not a τ b Hk Ha Hc). Qed.

Lemma rewriteBoolXor_ok cs τ : wt (mkNode XOR cs) τ → responds (mkNode XOR cs) (rewriteXor (mkNode XOR cs)).
Proof.
  intros Hn. destruct (bin_operands XOR cs τ I (λ _, eq_refl) Hn) as (a&b&->&->&Ha&Hb). unfold rewriteXor. cbn [child children lookup list_lookup mbind option_bind].
  pose proof (wt_bool true). pose proof (wt_bool false).
  destruct (decide (a = d_true)) as [->|_]; [connective|]. destruct (decide (b = d_true)) as [->|_]; [connective|].
  destruct (decide (a = d_false)) as [->|_]; [connective|]. destruct (decide (b = d_false)) as [->|_]; [connective|].
  destruct (decide (a = b)) as [->|_]; [connective|].
  destruct (isKind NOT a && _) eqn:E; [pose proof (negation_inv _ _ _ E Ha) as ->; connective|].
  destruct (isKind NOT b && _) eqn:E'; [pose proof (negation_inv _ _ _ E' Hb) as ->; connective|connective].
Qed.

(** ** Equality *)

(** An equality of [t] with the constant [c], in either order. *)
Definition eq_const (n c t : Node) : Prop :=
  isConst c = true ∧ (∃ τ, wt c τ ∧ wt t τ) ∧ ∀ env, env_ok env → bool_of n env = bool_decide (val_of c env = val_of t env).

Lemma eq_const_l c t : bool_wt (mkNode2 EQUAL c t) → isConst c = true → eq_const (mkNode2 EQUAL c t) c t.
Proof.
  intros (a&b&τ&[= <- <-]&_&Ha&Hb)%equal_terms Hc. split_and!; [done|by exists τ|]. intros env Hok. by apply (bool_of_equal env Hok _ _ τ).
Qed.

Lemma eq_const_r c t : bool_wt (mkNode2 EQUAL t c) → isConst c = true → eq_const (mkNode2 EQUAL t c) c t.
Proof.
  intros (a&b&τ&[= <- <-]&_&Ha&Hb)%equal_terms Hc. split_and!; [done|by exists τ|]. intros env Hok. rewrite (bool_of_equal env Hok _ _ τ) by done.
  apply bool_decide_ext. done.
Qed.

Lemma const_values c c' env : isConst c = true → isConst c' = true → val_of c env = val_of c' env → c = c'.
Proof. destruct c as [| | |[]|], c' as [| | |[]|]; try done; cbn; congruence. Qed.

(** Two equalities of the same term with constants. *)
Lemma two_consts n0 n1 c c' t : bool_wt n0 → bool_wt n1 → eq_const n0 c t → eq_const n1 c' t →
  equiv (mkNode2 EQUAL n0 n1) (if bool_decide (c' = c) then d_true else andNode (notNode n0) (notNode n1)).
Proof.
  intros H0 H1 (Hc&_&Hv0) (Hc'&_&Hv1). pose proof (wt_equal n0 n1 _ H0 H1) as He. case_bool_decide as Hcc.
  - apply equiv_formula; [done..|]. intros env Hok. rewrite bool_of_iff, Hv0, Hv1, Hcc by done. by rewrite eqb_reflx.
  - assert (bool_wt (andNode (notNode n0) (notNode n1))) as Hw by (by apply wt_pair; auto; apply wt_not).
    apply equiv_formula; [done..|]. intros env Hok. unfold andNode, notNode. rewrite bool_of_and, !bool_of_not, bool_of_iff, Hv0, Hv1 by (done || by apply wt_not).
    repeat case_bool_decide; try done. destruct Hcc. apply (const_values _ _ env); [done..|congruence].
Qed.

Lemma eqConstEq_ok n0 n1 : bool_wt n0 → bool_wt n1 → ∃ r, rewriteViaEqConstEq (mkNode2 EQUAL n0 n1) = Some r ∧ ∀ n', r = Some n' → equiv (mkNode2 EQUAL n0 n1) n'.
Proof.
  intros H0 H1. unfold rewriteViaEqConstEq. cbn [child children lookup list_lookup mbind option_bind].
  destruct (isKind EQUAL n0 && isKind EQUAL n1) eqn:Hk; [|by exists None]. apply andb_true_iff in Hk as [[cs0 ->]%isKind_eq [cs1 ->]%isKind_eq].
  destruct (equal_terms _ _ H0) as (a&b&t0&->&_&_), (equal_terms _ _ H1) as (a'&b'&t1&->&_&_). cbn [child children lookup list_lookup mbind option_bind].
  set (ct := if isConst a then Some (a, b) else if isConst b then Some (b, a) else None). assert (∀ c t, ct = Some (c, t) → eq_const (mkNode2 EQUAL a b) c t) as Hct.
  { intros c t. unfold ct. destruct (isConst a) eqn:Ea; [intros [= <- <-]; by apply eq_const_l|]. destruct (isConst b) eqn:Eb; [intros [= <- <-]; by apply eq_const_r|done]. }
  destruct ct as [[c t]|]; [|by exists None]. specialize (Hct c t eq_refl). set (form := if bool_decide (a' = t) && isConst b' then Some (bool_decide (b' = c)) else if bool_decide (b' = t) && isConst a' then Some (bool_decide (a' = c)) else None).
  assert (∀ e, form = Some e → ∃ c', e = bool_decide (c' = c) ∧ eq_const (mkNode2 EQUAL a' b') c' t) as Hf.
  { intros e. unfold form. destruct (bool_decide (a' = t) && isConst b') eqn:E1.
    - apply andb_true_iff in E1 as [<-%bool_decide_eq_true Hc]. intros [= <-]. exists b'. split; [done|]. by apply eq_const_r.
    - destruct (bool_decide (b' = t) && isConst a') eqn:E2; [|done]. apply andb_true_iff in E2 as [<-%bool_decide_eq_true Hc]. intros [= <-]. exists a'. split; [done|]. by apply eq_const_l. }
  destruct form as [e|]; [|by exists None]. destruct (Hf e eq_refl) as (c'&->&Hc'). pose proof (two_consts _ _ _ _ _ H0 H1 Hct Hc') as He.
  destruct (bool_decide (c' = c)); (eexists; split; [done|]; by intros ? [= <-]).
Qed.

Section equal.
Context `{!NodeIds}.

Lemma rewriteEqual_ok cs τ : wt (mkNode EQUAL cs) τ → responds (mkNode EQUAL cs) (rewriteEqual (mkNode EQUAL cs)).
Proof using Type.
  intros Hn. destruct (equal_terms cs τ Hn) as (a&b&t&->&->&Ha&Hb). unfold rewriteEqual. cbn [child children lookup list_lookup mbind option_bind].
  pose proof (wt_bool true). pose proof (wt_bool false).
  assert (a = d_true ∨ b = d_true ∨ a = d_false ∨ b = d_false → t = BOOLEAN_TYPE) as Ht.
  { intros [->|[->|[->| ->]]]; (destruct Ha as [Ha _] || idtac); destruct Hb as [Hb _]; cbn in *; congruence. }
  destruct (decide (a = d_true)) as [->|_]; [rewrite Ht in * by auto; connective|]. destruct (decide (b = d_true)) as [->|_]; [rewrite Ht in * by auto; connective|].
  destruct (decide (a = d_false)) as [->|_]; [rewrite Ht in * by auto; connective|]. destruct (decide (b = d_false)) as [->|_]; [rewrite Ht in * by auto; connective|].
  destruct (decide (a = b)) as [->|_].
  { apply finished_ok, equiv_formula; [done..|]. intros env Hok. rewrite (bool_of_equal env Hok _ _ t) by done. by rewrite bool_decide_true. }
  destruct (isKind NOT a && _) eqn:E.
  { pose proof (negation_inv _ _ _ E Ha) as ->. destruct (not_operand _ _ Ha) as (?&[= <-]&->&?). connective. }
  destruct (isKind NOT b && _) eqn:E'.
  { pose proof (negation_inv _ _ _ E' Hb) as ->. destruct (not_operand _ _ Hb) as (?&[= <-]&->&?). connective. }
  assert (responds (mkNode2 EQUAL a b) (if decide (nodeId a > nodeId b) then again (mkNode2 EQUAL b a) else finished (mkNode2 EQUAL a b))) as Hsort.
  { destruct (decide _); [|by eapply done_ok]. apply again_ok, equiv_formula; [done|by apply (wt_equal _ _ t)|]. intros env Hok.
    rewrite !(bool_of_equal env Hok _ _ t) by done. by apply bool_decide_ext. }
  destruct (isKind EQUAL a && isKind EQUAL b) eqn:Hk.
  - pose proof Hk as [[cs0 Ea]%isKind_eq [cs1 Eb]%isKind_eq]%andb_true_iff. assert (t = BOOLEAN_TYPE) as ->.
    { subst a. by destruct (equal_terms _ _ Ha) as (?&?&?&_&->&_). }
    destruct (eqConstEq_ok a b Ha Hb) as (r&->&Hr). cbn [mbind option_bind]. destruct r as [r|]; [|done]. by apply responds_to, Hr.
  - unfold rewriteViaEqConstEq. cbn [child children lookup list_lookup mbind option_bind]. by rewrite Hk.
Qed.
End equal.

(** ** [ITE] *)

Section ite.
Context (c t e : Node) (τ : TypeNode) (Hc : bool_wt c) (Ht : wt t τ) (He : wt e τ).
Let n := mkNode3 ITE c t e.

Lemma ite_wt : wt n τ.
Proof using Hc Ht He. by apply wt_ite. Qed.

(** A term that is the right branch under the condition. *)
Lemma ite_branch r : wt r τ → (∀ env, env_ok env → val_of r env = if bool_of c env then val_of t env else val_of e env) → equiv n r.
Proof using Hc Ht He. intros Hr Hv. apply (equiv_val _ _ τ ite_wt Hr). intros env Hok. rewrite Hv by done. symmetry. by apply (val_ite env Hok _ _ _ τ). Qed.

(** The branches replaced by ones with the same value where they are taken. *)
Lemma ite_replace t' e' : wt t' τ → wt e' τ → (∀ env, env_ok env → if bool_of c env then val_of t' env = val_of t env else val_of e' env = val_of e env) →
  equiv n (iteNode c t' e').
Proof using Hc Ht He.
  intros Ht' He' Hv. apply ite_branch; [by apply wt_ite|]. intros env Hok. unfold iteNode. rewrite (val_ite env Hok _ _ _ τ) by done. specialize (Hv env Hok). by destruct (bool_of c env).
Qed.

(** A formula in place of an [ITE] of formulas. *)
Lemma ite_formula r : τ = BOOLEAN_TYPE → bool_wt r → (∀ env, env_ok env → bool_of r env = if bool_of c env then bool_of t env else bool_of e env) → equiv n r.
Proof using Hc Ht He.
  intros Hτ Hr Hv. apply ite_branch; [by rewrite Hτ|]. intros env Hok. rewrite !val_bool by (done || by rewrite <- Hτ). rewrite Hv by done. by destruct (bool_of c env).
Qed.

Lemma iteBranches_ok : responds n (rewriteIteBranches n c t e).
Proof using Hc Ht He.
  unfold rewriteIteBranches. assert (∀ x y, wt x τ → bool_decide (x = d_true) || bool_decide (x = d_false) = true → y = τ → y = BOOLEAN_TYPE) as Hb.
  { intros x y [Hx _] [->%bool_decide_eq_true| ->%bool_decide_eq_true]%orb_true_iff ->; cbn in Hx; congruence. }
  destruct (isConst t && _) eqn:E1.
  - apply andb_true_iff in E1 as [_ E1]. pose proof (Hb t τ Ht E1 eq_refl) as Hτ. apply again_ok. assert (bool_wt t ∧ bool_wt e) as [Htb Heb] by (by rewrite <- Hτ). apply orb_true_iff in E1.
    destruct (bool_of_negate env0 env0_ok c Hc) as [Hnc _]. assert (∀ env, bool_of d_true env = true) as Htrue by done. assert (∀ env, bool_of d_false env = false) as Hfalse by done. destruct (decide (t = d_true)) as [E|Hne].
    + apply ite_formula; [done|by apply wt_pair; auto|]. intros env Hok. unfold orNode. rewrite bool_of_or by done. rewrite E, ?Htrue, ?Hfalse. by destruct (bool_of c env); rewrite ?orb_true_r, ?andb_false_r.
    + destruct E1 as [?%bool_decide_eq_true|E%bool_decide_eq_true]; [done|].
      apply ite_formula; [done|by apply wt_pair; auto|]. intros env Hok. destruct (bool_of_negate env Hok c Hc) as [_ Hv].
      unfold andNode. rewrite bool_of_and, Hv by done. rewrite E, ?Htrue, ?Hfalse. by destruct (bool_of c env); rewrite ?orb_true_r, ?andb_false_r.
  - destruct (isConst e && _) eqn:E2; [|by eapply done_ok, ite_wt].
    apply andb_true_iff in E2 as [_ E2]. pose proof (Hb e τ He E2 eq_refl) as Hτ. apply again_ok. assert (bool_wt t ∧ bool_wt e) as [Htb Heb] by (by rewrite <- Hτ). apply orb_true_iff in E2.
    destruct (bool_of_negate env0 env0_ok c Hc) as [Hnc _]. assert (∀ env, bool_of d_true env = true) as Htrue by done. assert (∀ env, bool_of d_false env = false) as Hfalse by done. destruct (decide (e = d_true)) as [E|Hne].
    + apply ite_formula; [done|by apply wt_pair; auto|]. intros env Hok. destruct (bool_of_negate env Hok c Hc) as [_ Hv].
      unfold orNode. rewrite bool_of_or, Hv by done. rewrite E, ?Htrue, ?Hfalse. by destruct (bool_of c env); rewrite ?orb_true_r, ?andb_false_r.
    + destruct E2 as [?%bool_decide_eq_true|E%bool_decide_eq_true]; [done|].
      apply ite_formula; [done|by apply wt_pair; auto|]. intros env Hok.
      unfold andNode. rewrite bool_of_and by done. rewrite E, ?Htrue, ?Hfalse. by destruct (bool_of c env); rewrite ?orb_true_r, ?andb_false_r.
Qed.

(** The condition and a branch that are related are formulas. *)
Lemma parity_branch x : wt x τ → equalityParity c x ≠ 0 → τ = BOOLEAN_TYPE ∧ ∀ env, env_ok env →
  bool_of x env = if decide (equalityParity c x = 1) then bool_of c env else negb (bool_of c env).
Proof using Hc Ht He.
  intros Hx Hp. destruct (decide (equalityParity c x = 1)) as [E|Hne].
  - apply parity_1 in E as <-. destruct Hx as [Hx _], Hc as [Hc' _]. split; [congruence|done].
  - assert (τ = BOOLEAN_TYPE) as ->.
    { unfold equalityParity in Hp, Hne. destruct (decide (c = x)) as [|_]; [done|]. destruct (isKind NOT c && _) eqn:E.
      - pose proof (negation_inv _ _ _ E Hc) as Ec. rewrite Ec in Hc. destruct (not_operand _ _ Hc) as (?&[= <-]&_&[Hx' _]), Hx as [Hx _]. congruence.
      - destruct (isKind NOT x && _) eqn:E'; [|done]. pose proof (negation_inv _ _ _ E' Hx) as ->. by destruct (not_operand _ _ Hx) as (?&_&->&_). }
    destruct (parity_neg c x _ Hp Hne Hc Hx) as [_ Hv]. split; [done|]. intros env Hok. by rewrite Hv, negb_involutive.
Qed.

(** A branch that is itself an [ITE] on the condition or its negation. *)
Lemma nested_branch x : wt x τ → iteParity c x ≠ 0 → ∃ p q, wt p τ ∧ wt q τ ∧
  (∀ b : bool, child x (if decide (iteParity c x = 1) then (if b then 1%nat else 2%nat) else (if b then 2%nat else 1%nat)) = Some (if b then p else q)) ∧
  ∀ env, env_ok env → val_of x env = if bool_of c env then val_of p env else val_of q env.
Proof using Hc Ht He.
  intros Hx. unfold iteParity. destruct (isKind ITE x) eqn:Hk; [|done]. apply isKind_eq in Hk as [cs ->]. destruct (ite_operands cs τ Hx) as (m&p&q&->&Hm&Hp&Hq).
  cbn [child children lookup list_lookup]. intros Hpar. destruct (decide (equalityParity c m = 1)) as [E|Hne].
  - exists p, q. split_and!; [done..|by intros []|]. apply parity_1 in E as <-. intros env Hok. by apply (val_ite env Hok _ _ _ τ).
  - destruct (parity_neg c m _ Hpar Hne Hc Hm) as [_ Hv]. exists q, p. split_and!; [done..|by intros []|]. intros env Hok.
    rewrite (val_ite env Hok _ _ _ τ), Hv by done. by destruct (bool_of m env).
Qed.

Lemma iteParity_ok : responds n (rewriteIteParity n c t e).
Proof using Hc Ht He.
  unfold rewriteIteParity. destruct (decide (equalityParity t e ≠ 0)) as [Hp|_].
  { apply again_ok. destruct (decide (equalityParity t e = 1)) as [E|Hne].
    - apply parity_1 in E. apply ite_branch; [done|]. intros env Hok. rewrite <- E. by destruct (bool_of c env).
    - destruct (parity_neg t e τ Hp Hne Ht He) as [Hτ Hv]. assert (bool_wt t ∧ bool_wt e) as [Htb Heb] by (by rewrite <- Hτ).
      apply ite_formula; [done|by apply (wt_equal _ _ BOOLEAN_TYPE)|]. intros env Hok. unfold eqNode. rewrite bool_of_iff, Hv by done. by destruct (bool_of c env), (bool_of e env). }
  destruct (negb (isConst t) && _) eqn:E2.
  { apply andb_true_iff in E2 as [_ Hp%bool_decide_eq_true]. destruct (parity_branch t Ht Hp) as [Hτ Hv]. assert (bool_wt t ∧ bool_wt e) as [Htb Heb] by (by rewrite <- Hτ).
    apply again_ok, ite_replace; [rewrite Hτ; by destruct (decide _)|done|]. intros env Hok. destruct (bool_of c env) eqn:Ec; [|done]. rewrite (val_bool t), Hv, Ec by done. by destruct (decide _). }
  destruct (negb (isConst e) && _) eqn:E3.
  { apply andb_true_iff in E3 as [_ Hp%bool_decide_eq_true]. destruct (parity_branch e He Hp) as [Hτ Hv]. assert (bool_wt t ∧ bool_wt e) as [Htb Heb] by (by rewrite <- Hτ).
    apply again_ok, ite_replace; [done|rewrite Hτ; by destruct (decide _)|]. intros env Hok. destruct (bool_of c env) eqn:Ec; [done|]. rewrite (val_bool e), Hv, Ec by done. by destruct (decide _). }
  destruct (decide (iteParity c t ≠ 0)) as [Hp|_].
  { destruct (nested_branch t Ht Hp) as (p&q&Hpw&Hqw&Hch&Hv). specialize (Hch true). cbn iota in Hch. rewrite Hch. cbn [mbind option_bind].
    apply again_ok, ite_replace; [done..|]. intros env Hok. destruct (bool_of c env) eqn:Ec; [|done]. by rewrite Hv, Ec. }
  destruct (decide (iteParity c e ≠ 0)) as [Hp|_]; [|apply iteBranches_ok].
  destruct (nested_branch e He Hp) as (p&q&Hpw&Hqw&Hch&Hv). specialize (Hch false). cbn iota in Hch. rewrite Hch. cbn [mbind option_bind].
  apply again_ok, ite_replace; [done..|]. intros env Hok. destruct (bool_of c env) eqn:Ec; [done|]. by rewrite Hv, Ec.
Qed.

Lemma iteConst_ok : responds n (rewriteIte n).
Proof using Hc Ht He.
  unfold rewriteIte, n. cbn [child children lookup list_lookup mbind option_bind]. fold n.
  destruct (isConst c) eqn:Ecc.
  { destruct (const_formula c Hc Ecc) as [b Eb]. destruct (decide (c = d_true)) as [E|Hne].
    - apply again_ok, ite_branch; [done|]. intros env Hok. by rewrite E.
    - assert (c = d_false) as E by (rewrite Eb in *; by destruct b). rewrite bool_decide_true by done. cbn [assert mbind option_bind].
      apply again_ok, ite_branch; [done|]. intros env Hok. by rewrite E. }
  assert (t = d_true ∨ t = d_false → τ = BOOLEAN_TYPE) as Hb by (destruct Ht as [Ht' _]; intros [-> | ->]; cbn in Ht'; congruence).
  destruct (isConst t && bool_decide (t = d_true) && bool_decide (e = d_false)) eqn:E1.
  { nofail. apply again_ok, ite_formula; [auto|done|]. intros env Hok. subst t e. by destruct (bool_of c env). }
  destruct (isConst t && bool_decide (t = d_false) && bool_decide (e = d_true)) eqn:E2.
  { nofail. assert (τ = BOOLEAN_TYPE) as Hτ by auto. apply negation_ok; [rewrite <- Hτ; apply ite_wt|done|]. intros env Hok. unfold n. rewrite bool_of_ite by (done || by rewrite <- Hτ). subst t e. by destruct (bool_of c env). }
  destruct (isKind NOT c) eqn:Hk; [|apply iteParity_ok]. apply isKind_eq in Hk as [cs Ecs]. pose proof Hc as Hc'. rewrite Ecs in Hc'. destruct (not_operand _ _ Hc') as (d&->&_&Hd).
  rewrite Ecs at 1. cbn [child children lookup list_lookup mbind option_bind]. apply again_ok, ite_branch; [by apply wt_ite|]. intros env Hok. unfold iteNode.
  rewrite (val_ite env Hok _ _ _ τ), Ecs, bool_of_not by done. by destruct (bool_of d env).
Qed.

End ite.

Lemma rewriteIte_ok cs τ : wt (mkNode ITE cs) τ → responds (mkNode ITE cs) (rewriteIte (mkNode ITE cs)).
Proof. intros Hn. destruct (ite_operands cs τ Hn) as (c&t&e&->&Hc&Ht&He). by apply (iteConst_ok c t e τ). Qed.
