(* ===== verification/BoolNnf.v ===== *)
(** [computeNnfNorm]: it returns, and what it returns is in negation normal form
    and has the value of the formula. *)
From stdpp Require Import base option list gmap numbers.
From S2P Require Import Prelude Node TypeRules Semantics TypeSound BvElim BvTerms BvSimplifySound TheoryRewriter BvCore BoolTerms BoolRewriter BoolRewriterSound.
Open Scope nat_scope.

(** ** Sizes *)

(** The number of steps of the loop for a node, and the number of symbols other
    than negations. *)
Fixpoint cost (n : Node) : nat :=
  match n with
  | mkNode NOT [c] => 2 + cost c
  | mkNode _ cs => 2 + sum_list_with (λ c, cost c + 2) cs
  | _ => 1
  end.

Fixpoint symbols (n : Node) : nat :=
  match n with
  | mkNode NOT [c] => symbols c
  | mkNode _ cs => S (sum_list_with symbols cs)
  | _ => 1
  end.

Lemma cost_pos n : (0 < cost n)%nat.
Proof. destruct n as [| | | |[] [|c []]]; simpl; lia. Qed.

Lemma symbols_pos n : 0 < symbols n.
Proof. induction n as [| | | |k cs IH] using Node_ind'; [cbn; lia..|]. destruct k, cs as [|c []]; cbn [symbols]; try lia. by rewrite Forall_singleton in IH. Qed.

Lemma sum_list_with_le {A} (f g : A → nat) l : Forall (λ x, f x ≤ g x)%nat l → (sum_list_with f l ≤ sum_list_with g l)%nat.
Proof. induction 1; simpl; lia. Qed.

Lemma cost_nsize n : (cost n + 2 ≤ 4 * nsize n)%nat.
Proof.
  induction n as [| | | |k cs IH] using Node_ind'; [cbn; lia..|]. rewrite nsize_node.
  assert (sum_list_with (λ c, cost c + 2) cs ≤ 4 * sum_list_with nsize cs)%nat as Hs by (induction IH; simpl; lia).
  destruct k, cs as [|c []]; cbn [cost sum_list_with] in *; lia.
Qed.

Lemma symbols_nsize n : (symbols n ≤ nsize n)%nat.
Proof.
  induction n as [| | | |k cs IH] using Node_ind'; [cbn; lia..|]. rewrite nsize_node. apply sum_list_with_le in IH.
  destruct k, cs as [|c []]; cbn [symbols sum_list_with] in *; lia.
Qed.

Lemma negate_cases c : negate c = mkNode1 NOT c ∨ c = mkNode1 NOT (negate c).
Proof. destruct c as [| | | |[] [|? []]]; auto. Qed.

Lemma negate_cost c : (cost (negate c) ≤ cost c + 2)%nat.
Proof. destruct (negate_cases c) as [->|E]; [cbn; lia|]. rewrite E at 2. cbn [cost]. lia. Qed.

Lemma negate_symbols c : symbols (negate c) = symbols c.
Proof. destruct (negate_cases c) as [->|E]; [done|]. by rewrite E at 2. Qed.

(** ** The node to rebuild *)

Lemma imap_bound (f : nat → Node → Node) (g : Node → nat) (h : Node → nat) cs :
  (∀ i c, g (f i c) ≤ h c)%nat → (sum_list_with g (imap f cs) ≤ sum_list_with h cs)%nat.
Proof. intros Hf. revert f Hf. induction cs as [|c cs IH]; intros f Hf; [done|]. cbn. pose proof (Hf 0%nat c). pose proof (IH (f ∘ S) (λ i c, Hf (S i) c)). lia. Qed.

Lemma nnfPre_cost cur : match nnfPre cur with
  | Some (inl c) => 2 + cost c ≤ cost cur ∧ symbols c ≤ symbols cur
  | Some (inr (k, pc)) => 2 + sum_list_with cost pc ≤ cost cur ∧ S (sum_list_with symbols pc) ≤ symbols cur
  | None => True end%nat.
Proof.
  assert (∀ f cs, (∀ i c, f i c = c ∨ f i c = negate c) → sum_list_with cost (imap f cs) ≤ sum_list_with (λ c, cost c + 2) cs ∧
    sum_list_with symbols (imap f cs) ≤ sum_list_with symbols cs)%nat as Hi.
  { intros f cs Hf. split; apply imap_bound; intros i c; destruct (Hf i c) as [-> | ->]; [lia|apply negate_cost|lia|by rewrite negate_symbols]. }
  assert (∀ k cs, k ≠ NOT → cost (mkNode k cs) = 2 + sum_list_with (λ c, cost c + 2) cs ∧ symbols (mkNode k cs) = S (sum_list_with symbols cs))%nat as Hk by (by intros []).
  assert (∀ k cs b1 b2, k ≠ NOT → let pc := imap (λ i c, if xorb (bool_decide (i = 0%nat) && b1) b2 then negate c else c) cs in
    2 + sum_list_with cost pc ≤ cost (mkNode k cs) ∧ S (sum_list_with symbols pc) ≤ symbols (mkNode k cs))%nat as Hn.
  { intros k cs b1 b2 Hne pc. destruct (Hk k cs Hne) as [-> ->]. destruct (Hi (λ i c, if xorb (bool_decide (i = 0%nat) && b1) b2 then negate c else c) cs); [|subst pc; lia].
    intros i c. destruct (xorb _ _); auto. }
  assert (∀ c cs, 2 + cost c ≤ cost (mkNode NOT (c :: cs)) ∧ symbols c ≤ symbols (mkNode NOT (c :: cs))) as Hnot by (intros c []; cbn [cost symbols sum_list_with]; lia).
  destruct cur as [| | | |k cs]; try done. destruct k; try done; cbn [nnfPre].
  2: { destruct cs as [|[| | | |k ds] cs]; try done. destruct (Hnot (mkNode k ds) cs) as [H1 H2]. destruct k; try done.
       2: { destruct ds as [|c ds]; [done|]. destruct (Hnot c ds). lia. }
       1: destruct (match ds with [] => _ | _ => _ end); [|done].
       all: match type of H1 with _ + cost (mkNode ?k ?ds) ≤ _ => match goal with |- context [xorb (_ && ?b1) ?b2] => destruct (Hn k ds b1 b2 ltac:(done)); lia end end. }
  1: destruct (match cs with [] => _ | _ => _ end); [|done].
  all: match goal with |- context [xorb (_ && ?b1) ?b2] => match goal with |- context [cost (mkNode ?k ?ds)] => destruct (Hn k ds b1 b2 ltac:(done)); lia end end.
Qed.

(** ** Its value *)

Lemma imap_all (f : Node → Node) (g : nat → Node → Node) cs : (∀ i c, g i c = f c) → imap g cs = f <$> cs.
Proof. revert g. induction cs as [|c cs IH]; intros g Hg; [done|]. cbn. rewrite Hg. f_equal. apply (IH (g ∘ S)). intros i c'. apply Hg. Qed.

Lemma negate_wt c : bool_wt c → bool_wt (negate c).
Proof. intros Hc. apply (bool_of_negate env0 env0_ok c Hc). Qed.
Lemma negate_val c env : bool_wt c → env_ok env → bool_of (negate c) env = negb (bool_of c env).
Proof. intros Hc Hok. apply (bool_of_negate env Hok c Hc). Qed.

Definition dual (k : Kind) : Kind := match k with AND => OR | OR => AND | k => k end.

(** De Morgan. *)
Lemma nary_negate k cs : k = AND ∨ k = OR → bool_wt (mkNode k cs) → equiv (mkNode1 NOT (mkNode k cs)) (mkNode (dual k) (negate <$> cs)).
Proof.
  intros Hk Hw. destruct (bool_operands k cs _ ltac:(by destruct Hk as [-> | ->]) Hw) as (_&HF&Hl).
  assert (Forall (λ c, bool_wt c) (negate <$> cs)) as HF' by (apply list.Forall_fmap; eapply list.Forall_impl; [exact HF|]; apply negate_wt).
  assert (atLeast 2 (length cs) = true) as [? ?]%bool_decide_eq_true by (by destruct Hk as [-> | ->]).
  apply equiv_formula; [by apply wt_not|apply wt_nary; rewrite ?length_fmap; try done; destruct Hk as [-> | ->]; auto|]. intros env Hok. rewrite bool_of_not by done.
  assert (∀ a, (k = AND ∧ a = false ∨ k = OR ∧ a = true) → bool_of (mkNode (dual k) (negate <$> cs)) env = negb a ↔ bool_of (mkNode k cs) env = a) as Hv.
  { intros a Ha. rewrite (bool_of_nary env Hok k a) by done. rewrite (bool_of_nary env Hok (dual k) (negb a)); [|destruct Ha as [[-> ->]|[-> ->]]; auto|done].
    rewrite Exists_fmap. rewrite !list.Exists_exists. rewrite list.Forall_forall in HF.
    split; intros (c&Hc&Hv); exists c; (split; [done|]); cbn in *; rewrite ?negate_val in * by auto; destruct a, (bool_of c env); done. }
  destruct Hk as [-> | ->].
  - specialize (Hv false ltac:(auto)). destruct (bool_of (mkNode AND cs) env), (bool_of (mkNode _ _) env); naive_solver.
  - specialize (Hv true ltac:(auto)). destruct (bool_of (mkNode OR cs) env), (bool_of (mkNode _ _) env); naive_solver.
Qed.

Definition skeleton (k : Kind) : Prop := match k with AND | OR | EQUAL | ITE => True | _ => False end.

Ltac values :=
  unfold skeleton; intros;
  repeat first [rewrite bool_of_not by auto using negate_wt, wt_not, wt_ite | rewrite bool_of_xor by auto using negate_wt | rewrite bool_of_implies by auto using negate_wt
    | rewrite bool_of_iff by auto using negate_wt | rewrite bool_of_or by auto using negate_wt | rewrite bool_of_and by auto using negate_wt
    | rewrite bool_of_ite by auto using negate_wt | rewrite negate_val by auto];
  repeat match goal with |- context [bool_of ?n ?e] => destruct (bool_of n e) end; done.

Ltac all_wt := repeat (apply Forall_cons_2; [auto using negate_wt|]); apply Forall_nil_2.

Lemma wt_iff a b : bool_wt a → bool_wt b → bool_wt (mkNode2 EQUAL a b).
Proof. apply wt_equal. Qed.

Lemma nnfPre_ok cur : bool_wt cur → match nnfPre cur with
  | None => True
  | Some (inl c) => bool_wt c ∧ equiv cur c
  | Some (inr (k, pc)) => skeleton k ∧ Forall (λ c, bool_wt c) pc ∧ equiv cur (mkNode k pc)
  end.
Proof.
  intros Hw. destruct cur as [| | | |k cs]; try done.
  assert (∀ ds, imap (λ i c, if xorb (bool_decide (i = 0%nat) && false) false then negate c else c) ds = ds) as Hkeep.
  { intros ds. rewrite (imap_all id); [by rewrite list_fmap_id|]. intros i c. by rewrite andb_false_r. }
  assert (∀ ds, imap (λ i c, if xorb (bool_decide (i = 0%nat) && false) true then negate c else c) ds = negate <$> ds) as Hneg.
  { intros ds. apply imap_all. intros i c. by rewrite andb_false_r. }
  assert (∀ b1 b2 a b, imap (λ i c, if xorb (bool_decide (i = 0%nat) && b1) b2 then negate c else c) [a; b] =
    [if xorb b1 b2 then negate a else a; if b2 then negate b else b]) as Htwo by (by intros [] []).
  assert (∀ b1 b2 a b d, imap (λ i c, if xorb (bool_decide (i = 0%nat) && b1) b2 then negate c else c) [a; b; d] =
    [if xorb b1 b2 then negate a else a; if b2 then negate b else b; if b2 then negate d else d]) as Hthree by (by intros [] []).
  assert (∀ ds, wt (mkNode EQUAL ds) BOOLEAN_TYPE → (match ds with c :: _ => bool_decide (typeOf c = Some BOOLEAN_TYPE) | [] => false end) = true →
    ∃ a b, ds = [a; b] ∧ bool_wt a ∧ bool_wt b) as Heq.
  { intros ds (a&b&t&->&_&Ha&Hb)%equal_terms E%bool_decide_eq_true. assert (t = BOOLEAN_TYPE) as -> by (destruct Ha; congruence). by exists a, b. }
  destruct k; try done; cbn [nnfPre].
  - destruct (match cs with [] => _ | _ => _ end) eqn:E; [|done]. destruct (Heq cs Hw E) as (a&b&->&Ha&Hb). rewrite Hkeep. split_and!; [done|all_wt|by eapply equiv_refl].
  - destruct (not_operand cs _ Hw) as (x&->&_&Hx). destruct x as [| | | |k ds]; try done. destruct k; try done.
    + destruct (match ds with [] => _ | _ => _ end) eqn:E; [|done]. destruct (Heq ds Hx E) as (a&b&->&Ha&Hb). rewrite ?Htwo, ?Hthree; cbn [xorb]. split_and!; [done|all_wt|].
      apply equiv_formula; [done|by apply wt_iff; auto using negate_wt|]. values.
    + destruct (not_operand ds _ Hx) as (c&->&_&Hc). split; [done|]. apply equiv_formula; [done..|]. intros env Hok. by rewrite !bool_of_not, negb_involutive.
    + destruct (bool_operands AND ds _ I Hx) as (_&HF&_). rewrite Hneg. split_and!; [done| |apply (nary_negate AND); auto].
      apply list.Forall_fmap. eapply list.Forall_impl; [exact HF|]. apply negate_wt.
    + destruct (bool_operands OR ds _ I Hx) as (_&HF&_). rewrite Hneg. split_and!; [done| |apply (nary_negate OR); auto].
      apply list.Forall_fmap. eapply list.Forall_impl; [exact HF|]. apply negate_wt.
    + destruct (bin_operands XOR ds _ I (λ _, eq_refl) Hx) as (a&b&->&_&Ha&Hb). rewrite ?Htwo, ?Hthree; cbn [xorb]. split_and!; [done|all_wt|].
      apply equiv_formula; [done|by apply wt_iff|]. values.
    + destruct (bin_operands IMPLIES ds _ I (λ _, eq_refl) Hx) as (a&b&->&_&Ha&Hb). rewrite ?Htwo, ?Hthree; cbn [xorb]. split_and!; [done|all_wt|].
      apply equiv_formula; [done|by apply wt_pair; auto using negate_wt|]. values.
    + destruct (ite_operands ds _ Hx) as (c&t&e&->&Hc&Ht&He). rewrite ?Htwo, ?Hthree; cbn [xorb]. split_and!; [done|all_wt|].
      apply equiv_formula; [done|by apply wt_ite; auto using negate_wt|]. values.
  - destruct (bool_operands AND cs _ I Hw) as (_&HF&_). rewrite Hkeep. split_and!; [done..|by eapply equiv_refl].
  - destruct (bool_operands OR cs _ I Hw) as (_&HF&_). rewrite Hkeep. split_and!; [done..|by eapply equiv_refl].
  - destruct (bin_operands XOR cs _ I (λ _, eq_refl) Hw) as (a&b&->&_&Ha&Hb). rewrite ?Htwo, ?Hthree; cbn [xorb]. split_and!; [done|all_wt|].
    apply equiv_formula; [done|by apply wt_iff; auto using negate_wt|]. values.
  - destruct (bin_operands IMPLIES cs _ I (λ _, eq_refl) Hw) as (a&b&->&_&Ha&Hb). rewrite ?Htwo, ?Hthree; cbn [xorb]. split_and!; [done|all_wt|].
    apply equiv_formula; [done|by apply wt_pair; auto using negate_wt|]. values.
  - destruct (ite_operands cs _ Hw) as (c&t&e&->&Hc&Ht&He). rewrite Hkeep. split_and!; [done|all_wt|by eapply equiv_refl].
Qed.

(** ** Negation normal form *)

Definition is_connective (n : Node) : bool :=
  match n with
  | mkNode (NOT | AND | OR | XOR | IMPLIES | ITE) _ => true
  | mkNode EQUAL (c :: _) => bool_decide (typeOf c = Some BOOLEAN_TYPE)
  | _ => false
  end.

(** An atom or the negation of one. *)
Definition literal (n : Node) : bool :=
  match n with mkNode NOT [m] => negb (is_connective m) | _ => negb (is_connective n) end.

(** Conjunctions, disjunctions, equivalences and conditionals over literals. *)
Inductive nnf : Node → Prop :=
  | nnf_literal n : literal n = true → nnf n
  | nnf_node k cs : skeleton k → Forall nnf cs → nnf (mkNode k cs).

Lemma nnfPre_literal n : bool_wt n → nnfPre n = None → literal n = true.
Proof.
  intros Hw. destruct n as [| | | |k cs]; try done. destruct k; try done.
  - unfold literal, is_connective. cbn. destruct cs; [done|]. by destruct (bool_decide _).
  - destruct (not_operand cs _ Hw) as (m&->&_&Hm). destruct m as [| | | |k ds]; try done. destruct k; try done.
    + unfold literal, is_connective. cbn. destruct ds; [done|]. by destruct (bool_decide _).
    + by destruct (not_operand ds _ Hm) as (c&->&_&_).
Qed.

(** What is computed for [m]. *)
Definition good (m r : Node) : Prop := bool_wt m ∧ equiv m r ∧ nnf r ∧ symbols r ≤ symbols m.

Lemma equiv_formula_val m r env : bool_wt m → equiv m r → env_ok env → bool_wt r ∧ bool_of r env = bool_of m env.
Proof. intros Hm He Hok. split; [by eapply equiv_wt|]. destruct He as (_&_&He). unfold bool_of. by rewrite He. Qed.

(** ** Merging the operands of a conjunction or a disjunction *)

Section merge.
Context (k : Kind) (a : bool) (Hk : k = AND ∧ a = false ∨ k = OR ∧ a = true).

Definition polarity (lit : Node) (pol : bool) : Node := if pol then lit else mkNode1 NOT lit.
Definition lit_pol_ok (cs : list Node) (lp : gmap Node bool) : Prop := ∀ lit pol, lp !! lit = Some pol → polarity lit pol ∈ cs.

(** The value that decides, among these operands. *)
Definition decided (l : list Node) : Prop := ∀ env, env_ok env → Exists (λ c, bool_of c env = a) l.

Lemma lattice_some : Some k = Some OR ∨ Some k = Some AND.
Proof using Hk. destruct Hk as [[-> _]|[-> _]]; auto. Qed.

Lemma nnf_add_ok c cs lp ch : bool_wt c → lit_pol_ok cs lp → match addNnfNormChild c (Some k) (cs, lp, ch) with
  | Some (cs', lp', ch') => lit_pol_ok cs' lp' ∧ (cs' = cs ++ [c] ∧ ch' = ch ∨ cs' = cs ∧ c ∈ cs ∧ ch' = true)
  | None => decided (cs ++ [c]) end.
Proof using Hk.
  intros Hc Hlp. unfold addNnfNormChild. rewrite decide_True by apply lattice_some.
  set (lit := if isKind NOT c then _ else c). set (pol := negb (isKind NOT c)).
  assert (c = polarity lit pol ∧ bool_wt lit) as [Ec Hlit].
  { unfold lit, pol, polarity. destruct (isKind NOT c) eqn:E; [|done]. apply isKind_eq in E as [ds ->]. by destruct (not_operand ds _ Hc) as (x&->&_&Hx). }
  destruct (lp !! lit) as [p|] eqn:E.
  - pose proof (Hlp lit p E) as Hin. destruct (decide (p ≠ pol)) as [Hne|Heq].
    + intros env Hok. apply list.Exists_exists. rewrite Ec. unfold polarity in *.
      assert (bool_of (mkNode1 NOT lit) env = negb (bool_of lit env)) as Hn by (by apply bool_of_not).
      destruct (decide (bool_of lit env = a)) as [Hv|Hv].
      * exists lit. split; [|done]. destruct p, pol; set_solver.
      * exists (mkNode1 NOT lit). split; [destruct p, pol; set_solver|]. rewrite Hn. by destruct a, (bool_of lit env).
    + apply dec_stable in Heq as ->. split; [done|]. right. by rewrite Ec.
  - split; [|by left]. intros l' p' Hl. destruct (decide (lit = l')) as [<-|Hne].
    + rewrite lookup_insert_eq in Hl. injection Hl as <-. rewrite <- Ec. set_solver.
    + rewrite lookup_insert_ne in Hl by done. apply Hlp in Hl. set_solver.
Qed.

Lemma decided_app l l' : decided l → decided (l ++ l').
Proof using Type. intros Hd env Hok. apply Exists_app. left. by apply Hd. Qed.

(** The operands [cs'] are [cs] and [ds], without repetitions. *)
Record merged (cs ds cs' : list Node) (ch ch' : bool) : Prop := {
  merged_elem x : x ∈ cs' ↔ x ∈ cs ∨ x ∈ ds;
  merged_size : sum_list_with symbols cs' ≤ sum_list_with symbols cs + sum_list_with symbols ds;
  merged_same : ch' = false → ch = false ∧ cs' = cs ++ ds;
}.

Lemma add_all_ok ds : ∀ cs lp ch, Forall (λ c, bool_wt c) ds → lit_pol_ok cs lp →
  match foldl (λ acc cc, st ← acc; addNnfNormChild cc (Some k) st) (Some (cs, lp, ch)) ds with
  | Some (cs', lp', ch') => lit_pol_ok cs' lp' ∧ merged cs ds cs' ch ch'
  | None => decided (cs ++ ds) end.
Proof using Hk.
  induction ds as [|d ds IH]; intros cs lp ch HF Hlp; cbn [foldl].
  - split; [done|]. split; [set_solver|simpl; lia|by rewrite app_nil_r].
  - apply list.Forall_cons in HF as [Hd HF]. cbn [mbind option_bind]. pose proof (nnf_add_ok d cs lp ch Hd Hlp) as Ha.
    destruct (addNnfNormChild d (Some k) (cs, lp, ch)) as [[[cs1 lp1] ch1]|].
    + destruct Ha as [Hlp1 Hc]. pose proof (IH cs1 lp1 ch1 HF Hlp1) as H. destruct (foldl _ _ ds) as [[[cs' lp'] ch']|].
      * destruct H as [Hlp' [He Hl Hs]]. split; [done|]. destruct Hc as [[-> ->]|(->&Hin&->)].
        -- split; [intros x; rewrite He; set_solver|rewrite sum_list_with_app in Hl; simpl in *; lia|]. intros E. destruct (Hs E) as [-> ->]. split; [done|]. by rewrite <- app_assoc.
        -- split; [intros x; rewrite He; set_solver|simpl; lia|]. intros E. by destruct (Hs E).
      * intros env Hok. specialize (H env Hok). apply list.Exists_exists in H as (x&Hx&Hv). apply list.Exists_exists. exists x. split; [|done]. destruct Hc as [[-> _]|(->&_&_)]; set_solver.
    + replace (foldl _ None ds) with (@None (list Node * gmap Node bool * bool)) by (clear; induction ds; done).
      intros env Hok. specialize (Ha env Hok). apply list.Exists_exists in Ha as (x&Hx&Hv). apply list.Exists_exists. exists x. split; [set_solver|done].
Qed.

(** The operands that a result stands for. *)
Definition parts (r : Node) : list Node := if decide (nodeKind r = Some k) then children r else [r].

Lemma parts_ok m r : good m r → Forall (λ c, bool_wt c) (parts r) ∧ Forall nnf (parts r) ∧ sum_list_with symbols (parts r) ≤ symbols m ∧ parts r ≠ [] ∧
  ∀ env, env_ok env → bool_of m env = a ↔ Exists (λ c, bool_of c env = a) (parts r).
Proof using Hk.
  intros (Hm&He&Hn&Hw). unfold parts. pose proof (equiv_wt _ _ _ Hm He) as Hr. destruct (decide (nodeKind r = Some k)) as [E|Hne].
  - destruct r as [| | | |k' cs]; try done. injection E as ->. cbn [children]. destruct (bool_operands k cs _ ltac:(by destruct Hk as [[-> _]|[-> _]]) Hr) as (_&HF&Har).
    split_and!; [done| | | |].
    + inversion Hn as [? Hl|? ? _ Hcs]; [|done]. destruct Hk as [[-> _]|[-> _]]; done.
    + assert (symbols (mkNode k cs) = S (sum_list_with symbols cs)) by (by destruct Hk as [[-> _]|[-> _]]). lia.
    + intros ->. destruct Hk as [[-> _]|[-> _]]; done.
    + intros env Hok. destruct (equiv_formula_val m _ env Hm He Hok) as [_ <-]. by apply bool_of_nary.
  - split_and!; [by apply Forall_singleton|by apply Forall_singleton| |done|].
    + simpl. lia.
    + intros env Hok. destruct (equiv_formula_val m _ env Hm He Hok) as [_ <-]. rewrite Exists_cons, Exists_nil. tauto.
Qed.

Lemma nnfChildren_ok vis pc : ∀ cs lp ch, Forall (λ cn, ∃ r, vis !! cn = Some (Some r) ∧ good cn r) pc →
  Forall (λ c, bool_wt c) cs → Forall nnf cs → lit_pol_ok cs lp →
  ∃ res, nnfChildren (Some k) vis pc (cs, lp, ch) = Some res ∧
    match res with
    | inl (cs', _, ch') => Forall (λ c, bool_wt c) cs' ∧ Forall nnf cs' ∧ sum_list_with symbols cs' ≤ sum_list_with symbols cs + sum_list_with symbols pc ∧
        (cs ++ pc ≠ [] → cs' ≠ []) ∧ (ch' = false → ch = false ∧ cs' = cs ++ pc) ∧
        ∀ env, env_ok env → Exists (λ c, bool_of c env = a) cs' ↔ Exists (λ c, bool_of c env = a) (cs ++ pc)
    | inr _ => decided (cs ++ pc)
    end.
Proof using Hk.
  induction pc as [|cn pc IH]; intros cs lp ch HF Hcs Hnf Hlp; cbn [nnfChildren].
  { eexists. split; [done|]. cbn. rewrite app_nil_r. split_and!; [done..|lia|done|done|done]. }
  apply list.Forall_cons in HF as [(r&Hr&Hg) HF]. rewrite Hr. cbn [from_option id mbind option_bind].
  destruct (parts_ok cn r Hg) as (Hpw&Hpn&Hpl&Hpe&Hpv).
  assert (∃ ch1, (ch1 = false → ch = false ∧ parts r = [r]) ∧ (if bool_decide (nodeKind r = Some k) && (bool_decide (Some k = Some OR) || bool_decide (Some k = Some AND))
    then let '(cs0, lp0, _) := (cs, lp, ch) in foldl (λ acc cc, st ← acc; addNnfNormChild cc (Some k) st) (Some (cs0, lp0, true)) (children r)
    else addNnfNormChild r (Some k) (cs, lp, ch)) = foldl (λ acc cc, st ← acc; addNnfNormChild cc (Some k) st) (Some (cs, lp, ch1)) (parts r)) as (ch1&Hch1&->).
  { unfold parts. destruct (decide (nodeKind r = Some k)) as [E|E]; [exists true|exists ch].
    - split; [done|]. rewrite bool_decide_true by done. assert (bool_decide (Some k = Some OR) || bool_decide (Some k = Some AND) = true) as ->; [|done].
      destruct Hk as [[-> _]|[-> _]]; done.
    - split; [done|]. by rewrite bool_decide_false. }
  pose proof (add_all_ok (parts r) cs lp ch1 Hpw Hlp) as Ha. destruct (foldl _ _ (parts r)) as [[[cs1 lp1] ch2]|].
  - destruct Ha as [Hlp1 [He Hl Hs]]. assert (∀ env, env_ok env → Exists (λ c, bool_of c env = a) cs1 ↔ Exists (λ c, bool_of c env = a) cs ∨ bool_of cn env = a) as Hv1.
    { intros env Hok. rewrite (Hpv env Hok), !list.Exists_exists. setoid_rewrite He. naive_solver. }
    destruct (IH cs1 lp1 (ch2 || negb (bool_decide (r = cn)))) as (res&E&Hres); [done| | |done|].
    { apply list.Forall_forall. intros x [Hx|Hx]%He; [by eapply (proj1 (list.Forall_forall _ _) Hcs)|by eapply (proj1 (list.Forall_forall _ _) Hpw)]. }
    { apply list.Forall_forall. intros x [Hx|Hx]%He; [by eapply (proj1 (list.Forall_forall _ _) Hnf)|by eapply (proj1 (list.Forall_forall _ _) Hpn)]. }
    exists res. split; [done|]. destruct res as [[[cs' lp'] ch']|].
    + destruct Hres as (Hw'&Hn'&Hl'&Hne'&Hs'&Hv'). split_and!; [done..|simpl; lia| | |].
      * intros _. apply Hne'. destruct (parts r) as [|p ps] eqn:Ep; [done|]. assert (p ∈ cs1) by (apply He; set_solver). destruct cs1; [set_solver|done].
      * intros E'. destruct (Hs' E') as [[-> Hrc%negb_false_iff%bool_decide_eq_true]%orb_false_iff ->]. destruct (Hs eq_refl) as [E1 ->]. destruct (Hch1 E1) as [-> ->].
        split; [done|]. rewrite Hrc. by rewrite <- app_assoc.
      * intros env Hok. rewrite (Hv' env Hok), !Exists_app, Exists_cons, (Hv1 env Hok). tauto.
    + intros env Hok. specialize (Hres env Hok). rewrite Exists_app in Hres. rewrite Exists_app, Exists_cons. rewrite (Hv1 env Hok) in Hres. tauto.
  - eexists. split; [done|]. intros env Hok. specialize (Ha env Hok). rewrite Exists_app, <- (Hpv env Hok) in Ha. rewrite Exists_app, Exists_cons. tauto.
Qed.

End merge.

(** The other kinds keep their children. *)
Lemma nnfChildren_keep k vis pc : k ≠ Some AND → k ≠ Some OR → ∀ cs lp ch, Forall (λ cn, ∃ r, vis !! cn = Some (Some r) ∧ good cn r) pc →
  ∃ rs lp', nnfChildren k vis pc (cs, lp, ch) = Some (inl (cs ++ rs, lp', ch || negb (bool_decide (rs = pc)))) ∧ Forall2 good pc rs.
Proof.
  intros H1 H2. induction pc as [|cn pc IH]; intros cs lp ch HF; cbn [nnfChildren].
  { exists [], lp. rewrite app_nil_r, bool_decide_true, orb_false_r by done. split; [done|constructor]. }
  apply list.Forall_cons in HF as [(r&Hr&Hg) HF]. rewrite Hr. cbn [from_option id mbind option_bind].
  rewrite (bool_decide_false (k = Some OR)), (bool_decide_false (k = Some AND)), andb_false_r by done. unfold addNnfNormChild. rewrite decide_False by tauto.
  destruct (IH (cs ++ [r]) lp (ch || negb (bool_decide (r = cn))) HF) as (rs&lp'&E&HF2). exists (r :: rs), lp'. rewrite E. split; [|by constructor].
  rewrite <- app_assoc. cbn [app]. do 3 f_equal. rewrite <- orb_assoc. f_equal. repeat case_bool_decide; naive_solver.
Qed.

(** ** The second visit *)

Lemma length_symbols cs : length cs ≤ sum_list_with symbols cs.
Proof. induction cs as [|c cs IH]; simpl; [lia|]. pose proof (symbols_pos c). lia. Qed.

Definition results (vis : gmap Node (option Node)) (pc : list Node) : Prop := Forall (λ cn, ∃ r, vis !! cn = Some (Some r) ∧ good cn r) pc.

Lemma post_lattice k a cur pc s : k = AND ∧ a = false ∨ k = OR ∧ a = true →
  nnfPre cur = Some (inr (k, pc)) → bool_wt cur → (Z.of_nat (symbols cur) ≤ MAX_CHILDREN)%Z →
  preKind s !! cur = Some (Some k) → preChildren s !! cur = Some pc → results (visited s) pc → ∃ ret, nnfPost cur s = Some ret ∧ good cur ret.
Proof.
  intros Hk Hp Hw Hm Ek Epc Hr. pose proof (nnfPre_ok cur Hw) as Hpo. pose proof (nnfPre_cost cur) as Hpc. rewrite Hp in Hpo, Hpc. destruct Hpo as (_&HF&He), Hpc as [_ Hsym].
  unfold nnfPost. rewrite Ek, Epc. cbn [from_option id mbind option_bind].
  destruct (nnfChildren_ok k a Hk (visited s) pc [] ∅ false Hr) as (res&E&Hres); [constructor|constructor|by intros ? ? ?|]. rewrite E. cbn [mbind option_bind]. rewrite app_nil_l in Hres.
  assert (bool_kind k) as Hbk by (by destruct Hk as [[-> _]|[-> _]]). pose proof (equiv_wt _ _ _ Hw He) as Hwk.
  assert (∀ env, env_ok env → bool_of cur env = a ↔ Exists (λ c, bool_of c env = a) pc) as Hcur.
  { intros env Hok. destruct (equiv_formula_val _ _ env Hw He Hok) as [_ <-]. by apply bool_of_nary. }
  destruct res as [[[cs lp] ch]|].
  - destruct Hres as (Hcw&Hcn&Hcl&Hcne&Hcs&Hcv). pose proof (length_symbols cs). change (sum_list_with symbols []) with 0 in Hcl.
    assert (pc ≠ []) as Hpc0. { intros ->. destruct (bool_operands k [] _ Hbk Hwk) as (_&_&Hl). destruct Hk as [[-> _]|[-> _]]; done. }
    destruct (ch || negb (bool_decide (nodeKind cur = Some k))) eqn:Ech.
    + destruct cs as [|c [|c' cs]]; [by destruct Hcne|..].
      * rewrite decide_True by (destruct Hk as [[-> _]|[-> _]]; done). exists c. split; [done|]. rewrite Forall_singleton in Hcw. rewrite Forall_singleton in Hcn. simpl in Hcl.
        split_and!; [done| |done|lia]. apply (formula_value a); [done..|]. intros env Hok. rewrite (Hcur env Hok), <- (Hcv env Hok), Exists_cons, Exists_nil. tauto.
      * set (l := c :: c' :: cs) in *. assert (bool_wt (mkNode k l)) as Hwl by (apply wt_nary; [destruct Hk as [[-> _]|[-> _]]; auto|done|unfold l; simpl; lia|lia]).
        eexists. split; [done|]. split_and!; [done| |apply nnf_node; [by destruct Hk as [[-> _]|[-> _]]|done]|].
        -- apply (formula_value a); [done..|]. intros env Hok. rewrite (Hcur env Hok), <- (Hcv env Hok). symmetry. by apply bool_of_nary.
        -- assert (symbols (mkNode k l) = S (sum_list_with symbols l)) as -> by (by destruct Hk as [[-> _]|[-> _]]). simpl in *. lia.
    + apply orb_false_iff in Ech as [-> Ech%negb_false_iff%bool_decide_eq_true]. destruct (Hcs eq_refl) as [_ ->]. exists cur. split; [done|].
      split_and!; [done|by eapply equiv_refl| |done]. destruct cur as [| | | |k' ds]; try done. injection Ech as ->.
      assert (ds = pc) as ->; [|apply nnf_node; [by destruct Hk as [[-> _]|[-> _]]|done]].
      assert (imap (λ i c, if xorb (bool_decide (i = 0%nat) && false) false then negate c else c) ds = ds) as Hkeep.
      { rewrite (imap_all id); [by rewrite list_fmap_id|]. intros i c. by rewrite andb_false_r. }
      destruct Hk as [[-> _]|[-> _]]; cbn [nnfPre] in Hp; congruence.
  - assert (bool_decide (Some k = Some OR) || bool_decide (Some k = Some AND) = true) as -> by (by destruct Hk as [[-> _]|[-> _]]). cbn [assert mbind option_bind].
    assert (bool_decide (Some k = Some OR) = a) as -> by (by destruct Hk as [[-> ->]|[-> ->]]). eexists. split; [done|].
    split_and!; [done| |by apply nnf_literal|apply symbols_pos]. apply (formula_value a); [done..|]. intros env Hok. rewrite (Hcur env Hok), bool_of_const. split; [done|]. intros _. by apply Hres.
Qed.

Lemma post_keep k cur pc s : k = EQUAL ∨ k = ITE → nnfPre cur = Some (inr (k, pc)) → bool_wt cur →
  preKind s !! cur = Some (Some k) → preChildren s !! cur = Some pc → results (visited s) pc → ∃ ret, nnfPost cur s = Some ret ∧ good cur ret.
Proof.
  intros Hk Hp Hw Ek Epc Hr. pose proof (nnfPre_ok cur Hw) as Hpo. pose proof (nnfPre_cost cur) as Hpc. rewrite Hp in Hpo, Hpc. destruct Hpo as (Hsk&HF&He), Hpc as [_ Hsym].
  unfold nnfPost. rewrite Ek, Epc. cbn [from_option id mbind option_bind].
  destruct (nnfChildren_keep (Some k) (visited s) pc) with (cs := @nil Node) (lp := (∅ : gmap Node bool)) (ch := false) as (rs&lp&E&HF2); [by destruct Hk as [-> | ->]..|done|].
  rewrite E. cbn [mbind option_bind app orb]. pose proof (equiv_wt _ _ _ Hw He) as Hwk.
  assert (Forall nnf rs) as Hnf by (clear - HF2; induction HF2 as [|? ? ? ? (_&_&?&_)]; constructor; auto).
  assert (good cur (mkNode k rs)) as Hg.
  { split_and!; [done| |by apply nnf_node|].
    - eapply equiv_trans; [exact He|]. eapply equiv_children; [exact Hwk|eapply Forall2_impl; [|exact HF2]; by intros ? ? (_&?&_)|].
      intros z Hz. eapply Forall_lookup_1 in HF; [|exact Hz]. destruct HF as [HF _]. cbn in HF. congruence.
    - assert (symbols (mkNode k rs) = S (sum_list_with symbols rs)) as -> by (by destruct Hk as [-> | ->]).
      assert (sum_list_with symbols rs ≤ sum_list_with symbols pc); [|lia]. clear - HF2. induction HF2 as [|? ? ? ? (_&_&_&?)]; simpl; lia. }
  assert (∀ c, rs ≠ [c]) as Hone.
  { intros c ->. apply Forall2_cons_inv_r in HF2 as (p&ps&_&HF2&->). apply Forall2_nil_inv_r in HF2 as ->.
    destruct Hk as [-> | ->]; [by destruct (equal_terms _ _ Hwk) as (?&?&?&?&_)|by destruct (ite_operands _ _ Hwk) as (?&?&?&?&_)]. }
  destruct (negb (bool_decide (rs = pc)) || negb (bool_decide (nodeKind cur = Some k))) eqn:Ech.
  - exists (mkNode k rs). split; [|done]. destruct rs as [|c []]; try done. by destruct (Hone c).
  - apply orb_false_iff in Ech as [->%negb_false_iff%bool_decide_eq_true Ech%negb_false_iff%bool_decide_eq_true]. exists cur. split; [done|].
    destruct cur as [| | | |k' ds]; try done. injection Ech as ->. assert (ds = pc) as ->; [|done].
    assert (imap (λ i c, if xorb (bool_decide (i = 0%nat) && false) false then negate c else c) ds = ds) as Hkeep.
    { rewrite (imap_all id); [by rewrite list_fmap_id|]. intros i c. by rewrite andb_false_r. }
    destruct Hk as [-> | ->]; cbn [nnfPre] in Hp; [destruct (match ds with [] => _ | _ => _ end); [|done]|]; congruence.
Qed.

Lemma post_double cur c s : nnfPre cur = Some (inl c) → bool_wt cur →
  preKind s !! cur = Some None → preChildren s !! cur = Some [c] → results (visited s) [c] → ∃ ret, nnfPost cur s = Some ret ∧ good cur ret.
Proof.
  intros Hp Hw Ek Epc Hr. pose proof (nnfPre_ok cur Hw) as Hpo. pose proof (nnfPre_cost cur) as Hpc. rewrite Hp in Hpo, Hpc. destruct Hpo as [Hc He], Hpc as [_ Hsym].
  unfold nnfPost. rewrite Ek, Epc. cbn [from_option id mbind option_bind].
  destruct (nnfChildren_keep None (visited s) [c]) with (cs := @nil Node) (lp := (∅ : gmap Node bool)) (ch := false) as (rs&lp&E&HF2); [done..|].
  rewrite E. cbn [mbind option_bind app]. apply Forall2_cons_inv_l in HF2 as (r&rs'&(_&Her&Hn&Hs)&HF2&->). apply Forall2_nil_inv_l in HF2 as ->.
  exists r. split; [done|]. split_and!; [done|by eapply equiv_trans|done|lia].
Qed.

(** ** The loop *)

Record nnf_inv (s : NnfState) : Prop := {
  inv_done m r : visited s !! m = Some (Some r) → good m r;
  inv_attr m r : nnfAttribute s !! m = Some r → good m r;
  inv_new m : visited s !! m = None → preChildren s !! m = None;
}.

(** What is done stays done, what is in progress stays in progress. *)
Record extends (s s' : NnfState) : Prop := {
  ext_done m r : visited s !! m = Some (Some r) → visited s' !! m = Some (Some r);
  ext_pre m : visited s !! m = Some None → preKind s' !! m = preKind s !! m ∧ preChildren s' !! m = preChildren s !! m;
  ext_progress m : visited s' !! m = Some None ↔ visited s !! m = Some None;
}.

Lemma extends_refl s : extends s s.
Proof. by split. Qed.
Lemma extends_trans s1 s2 s3 : extends s1 s2 → extends s2 s3 → extends s1 s3.
Proof.
  intros [D1 P1 Q1] [D2 P2 Q2]. split; [auto| |intros m; by rewrite Q2, Q1].
  intros m Hm. destruct (P1 m Hm) as [<- <-]. apply P2. by apply Q1.
Qed.

Definition is_done (s : NnfState) (m : Node) : Prop := ∃ r, visited s !! m = Some (Some r).

Lemma is_done_extends s s' m : is_done s m → extends s s' → is_done s' m.
Proof. intros [r Hr] He. exists r. by apply He. Qed.

Lemma nnfLoop_step fuel cur visit s pushed s1 : nnfVisit cur s = Some (pushed, s1) → nnfLoop (S fuel) (cur :: visit) s = nnfLoop fuel (pushed ++ visit) s1.
Proof. intros E. cbn [nnfLoop]. by rewrite E. Qed.

(** A node that is not in progress is dealt with in [cost] steps. *)
Definition visits (m : Node) : Prop := ∀ s rest, nnf_inv s → (∀ p, visited s !! p = Some None → cost m < cost p) →
  ∃ s' used, used ≤ cost m ∧ nnf_inv s' ∧ extends s s' ∧ is_done s' m ∧ ∀ fuel, nnfLoop (used + fuel) (m :: rest) s = nnfLoop fuel rest s'.

Lemma visits_all l : Forall visits l → ∀ s rest, nnf_inv s → (∀ m p, m ∈ l → visited s !! p = Some None → cost m < cost p) →
  ∃ s' used, used ≤ sum_list_with cost l ∧ nnf_inv s' ∧ extends s s' ∧ Forall (is_done s') l ∧ ∀ fuel, nnfLoop (used + fuel) (l ++ rest) s = nnfLoop fuel rest s'.
Proof.
  induction 1 as [|m l Hm _ IH]; intros s rest Hi Hp.
  { exists s, 0. split_and!; [simpl; lia|done|apply extends_refl|constructor|done]. }
  destruct (Hm s (l ++ rest) Hi) as (s1&u1&Hu1&Hi1&He1&Hd1&E1); [intros p; apply Hp; set_solver|].
  destruct (IH s1 rest Hi1) as (s2&u2&Hu2&Hi2&He2&Hd2&E2). { intros x p Hx Hpr. apply (Hp x p); [set_solver|]. by apply He1. }
  exists s2, (u1 + u2). split_and!; [simpl; lia|done|by eapply extends_trans| |].
  - constructor; [by eapply is_done_extends|done].
  - intros fuel. cbn [app]. rewrite <- Nat.add_assoc, E1. apply E2.
Qed.

(** The state after the first visit of [cur]. *)
Definition start (cur : Node) (k : option Kind) (pc : list Node) (s : NnfState) : NnfState :=
  mkNnfState (<[cur := k]> (preKind s)) (<[cur := pc]> (preChildren s)) (<[cur := None]> (visited s)) (nnfAttribute s).

Lemma start_inv cur k pc s : nnf_inv s → visited s !! cur = None → nnf_inv (start cur k pc s).
Proof.
  intros [Hd Ha Hn] Hv. split; cbn; [|done|].
  - intros m r Hm. destruct (decide (m = cur)) as [->|]; [by rewrite lookup_insert_eq in Hm|]. rewrite lookup_insert_ne in Hm by done. by apply Hd.
  - intros m Hm. destruct (decide (m = cur)) as [->|]; [by rewrite lookup_insert_eq in Hm|]. rewrite lookup_insert_ne in Hm by done. rewrite lookup_insert_ne by done. by apply Hn.
Qed.

(** The children of [cur], then [cur] again. *)
Lemma nnf_visits_node cur k pc : bool_wt cur →
  (∀ s, nnf_inv s → visited s !! cur = None → nnfAttribute s !! cur = None → nnfVisit cur s = Some (reverse pc ++ [cur], start cur k pc s)) →
  (∀ s, preKind s !! cur = Some k → preChildren s !! cur = Some pc → results (visited s) pc → ∃ ret, nnfPost cur s = Some ret ∧ good cur ret) →
  2 + sum_list_with cost pc ≤ cost cur → Forall visits pc →
  ∀ s rest, nnf_inv s → visited s !! cur = None → nnfAttribute s !! cur = None → (∀ p, visited s !! p = Some None → cost cur < cost p) →
  ∃ s' used, used ≤ cost cur ∧ nnf_inv s' ∧ extends s s' ∧ is_done s' cur ∧ ∀ fuel, nnfLoop (used + fuel) (cur :: rest) s = nnfLoop fuel rest s'.
Proof.
  intros Hw Hfirst Hpost Hc HF s rest Hi Hv Hat Hp. set (s1 := start cur k pc s).
  destruct (visits_all (reverse pc)) with (s := s1) (rest := cur :: rest) as (s2&u&Hu&Hi2&He2&Hd2&E2).
  - by apply Forall_reverse.
  - by apply start_inv.
  - intros m p Hm Hpr. rewrite elem_of_reverse in Hm. pose proof (sum_list_with_elem cost m pc Hm). unfold s1, start in Hpr. cbn in Hpr.
    destruct (decide (p = cur)) as [->|]; [lia|]. rewrite lookup_insert_ne in Hpr by done. specialize (Hp p Hpr). lia.
  - rewrite sum_list_with_reverse in Hu.
    assert (visited s1 !! cur = Some None) as H1 by (unfold s1, start; cbn; by rewrite lookup_insert_eq). destruct (ext_pre _ _ He2 cur H1) as [Ek Epc].
    destruct (Hpost s2) as (ret&Er&Hg).
    { rewrite Ek. unfold s1, start. cbn. by rewrite lookup_insert_eq. }
    { rewrite Epc. unfold s1, start. cbn. by rewrite lookup_insert_eq. }
    { apply list.Forall_forall. intros m Hm. rewrite Forall_reverse, list.Forall_forall in Hd2. destruct (Hd2 m Hm) as [r Hr]. exists r. split; [done|]. by eapply inv_done. }
    set (s3 := mkNnfState (preKind s2) (preChildren s2) (<[cur := Some ret]> (visited s2)) (<[cur := ret]> (nnfAttribute s2))).
    assert (nnfVisit cur s2 = Some ([], s3)) as E3. { unfold nnfVisit. rewrite (proj2 (ext_progress _ _ He2 cur) H1), Er. done. }
    exists s3, (S (u + 1)). split_and!; [lia| | | |].
    + destruct Hi2 as [Hd Ha Hn]. split; cbn; intros m.
      * intros r. destruct (decide (m = cur)) as [->|]; [rewrite lookup_insert_eq; by intros [= <-]|rewrite lookup_insert_ne by done; apply Hd].
      * intros r. destruct (decide (m = cur)) as [->|]; [rewrite lookup_insert_eq; by intros [= <-]|rewrite lookup_insert_ne by done; apply Ha].
      * destruct (decide (m = cur)) as [->|]; [by rewrite lookup_insert_eq|rewrite lookup_insert_ne by done; apply Hn].
    + split; cbn; intros m.
      * intros r Hr. destruct (decide (m = cur)) as [->|Hne]; [congruence|]. rewrite lookup_insert_ne by done. apply He2. unfold s1, start. cbn. by rewrite lookup_insert_ne.
      * intros Hm. destruct (decide (m = cur)) as [->|Hne]; [congruence|]. destruct (ext_pre _ _ He2 m) as [-> ->]; unfold s1, start; cbn; by rewrite !lookup_insert_ne.
      * destruct (decide (m = cur)) as [->|Hne]; [rewrite lookup_insert_eq, Hv; done|]. rewrite lookup_insert_ne by done. rewrite (ext_progress _ _ He2). unfold s1, start. cbn. by rewrite lookup_insert_ne.
    + exists ret. cbn. by rewrite lookup_insert_eq.
    + intros fuel. change (S (u + 1) + fuel) with (S (u + 1 + fuel)). rewrite (nnfLoop_step _ _ _ _ _ _ (Hfirst s Hi Hv Hat)). rewrite <- app_assoc. cbn [app].
      rewrite <- Nat.add_assoc, E2. cbn [Nat.add]. by rewrite (nnfLoop_step _ _ _ _ _ _ E3).
Qed.

Lemma nnf_visits_formula m : bool_wt m → (Z.of_nat (symbols m) ≤ MAX_CHILDREN)%Z → visits m.
Proof.
  remember (cost m) as c eqn:Hc. revert m Hc. induction c as [c IH] using lt_wf_ind. intros m -> Hw Hm s rest Hi Hp.
  destruct (visited s !! m) as [[r|]|] eqn:Hv.
  { exists s, 1. split_and!; [apply cost_pos|done|apply extends_refl|by exists r|]. intros fuel. cbn [Nat.add]. apply (nnfLoop_step _ _ _ _ []). unfold nnfVisit. by rewrite Hv. }
  { specialize (Hp m Hv). lia. }
  assert (∀ r, good m r → nnfVisit m s = Some ([], mkNnfState (preKind s) (preChildren s) (<[m := Some r]> (visited s)) (nnfAttribute s)) →
    ∃ s' used, used ≤ cost m ∧ nnf_inv s' ∧ extends s s' ∧ is_done s' m ∧ ∀ fuel, nnfLoop (used + fuel) (m :: rest) s = nnfLoop fuel rest s') as Hleaf.
  { intros r Hg E. eexists _, 1. split_and!; [apply cost_pos| | | |intros fuel; by apply (nnfLoop_step _ _ _ _ [])].
    - destruct Hi as [Hd Ha Hn]. split; cbn; intros x; [|apply Ha|].
      + intros r'. destruct (decide (x = m)) as [->|]; [rewrite lookup_insert_eq; by intros [= <-]|rewrite lookup_insert_ne by done; apply Hd].
      + destruct (decide (x = m)) as [->|]; [by rewrite lookup_insert_eq|rewrite lookup_insert_ne by done; apply Hn].
    - split; cbn; intros x; [|done|].
      + intros r' Hx. rewrite lookup_insert_ne; [done|congruence].
      + destruct (decide (x = m)) as [->|]; [rewrite lookup_insert_eq, Hv; done|by rewrite lookup_insert_ne].
    - exists r. cbn. by rewrite lookup_insert_eq. }
  destruct (nnfAttribute s !! m) as [r|] eqn:Hat.
  { apply (Hleaf r); [by apply (inv_attr s Hi)|]. unfold nnfVisit. by rewrite Hv, Hat. }
  pose proof (nnfPre_ok m Hw) as Hpo. pose proof (nnfPre_cost m) as Hpc. destruct (nnfPre m) as [[d|[k pc]]|] eqn:Hpre.
  - destruct Hpo as [Hd He], Hpc as [Hcd Hsd].
    eapply (nnf_visits_node m None [d]); try done; [| | |].
    + intros s' Hi' Hv' Ha'. unfold nnfVisit. rewrite Hv', Ha', Hpre. unfold start. by rewrite (inv_new s' Hi' m Hv').
    + intros s' Ek Epc Hr. by eapply post_double.
    + simpl. lia.
    + apply Forall_singleton. apply (IH (cost d)); [lia|done|done|lia].
  - destruct Hpo as (Hsk&HF&He), Hpc as [Hcd Hsd].
    eapply (nnf_visits_node m (Some k) pc); try done; [| |].
    + intros s' Hi' Hv' Ha'. unfold nnfVisit. rewrite Hv', Ha', Hpre. unfold start. by rewrite (inv_new s' Hi' m Hv').
    + intros s' Ek Epc Hr. destruct k; try done; [eapply (post_keep EQUAL); eauto|eapply (post_lattice AND false); eauto|eapply (post_lattice OR true); eauto|eapply (post_keep ITE); eauto].
    + rewrite list.Forall_forall in HF. apply list.Forall_forall. intros x Hx. pose proof (sum_list_with_elem cost x pc Hx). pose proof (sum_list_with_elem symbols x pc Hx).
      apply (IH (cost x)); [lia|done|by apply HF|lia].
  - apply (Hleaf m).
    + split_and!; [done|by eapply equiv_refl|by apply nnf_literal, nnfPre_literal|done].
    + unfold nnfVisit. by rewrite Hv, Hat, Hpre.
Qed.

(** The attribute holds results. *)
Definition attribute_ok (attr : gmap Node Node) : Prop := ∀ m r, attr !! m = Some r → good m r.

Lemma computeNnfNorm_ok n attr : bool_wt n → (Z.of_nat (symbols n) ≤ MAX_CHILDREN)%Z → attribute_ok attr →
  ∃ r attr', computeNnfNorm n attr = Some (r, attr') ∧ good n r ∧ attribute_ok attr'.
Proof.
  intros Hw Hm Ha. set (s0 := mkNnfState ∅ ∅ ∅ attr).
  destruct (nnf_visits_formula n Hw Hm s0 []) as (s&used&Hu&Hi&_&[r Hr]&E); [by split|by intros p Hp|].
  pose proof (cost_nsize n). unfold computeNnfNorm. fold s0. replace (4 * nsize n) with (used + (4 * nsize n - used)) by lia. rewrite E.
  replace (nnfLoop (4 * nsize n - used) [] s) with (Some s) by (by destruct (4 * nsize n - used)). cbn [mbind option_bind]. rewrite Hr. cbn [from_option id mbind option_bind].
  exists r, (nnfAttribute s). split_and!; [done|by apply (inv_done s Hi)|exact (inv_attr s Hi)].
Qed.
