(* ===== verification/BoolTheorems.v ===== *)
(** The theorems about the Boolean rewriter. *)
From stdpp Require Import base option list gmap numbers.
From S2P Require Import Prelude Node TypeRules Semantics TypeSound BvElim BvTerms BvSimplifySound TheoryRewriter BvCore BoolTerms BoolRewriter BoolRewriterSound BoolNnf.
Open Scope Z_scope.

(** ** What flattening leaves *)

Section clean.
Context (k : Kind) (a : bool).
Let trivialNode := mkConstBool a.
Let skipNode := mkConstBool (negb a).

(** Operands that the first loop of the rewriter passes over. *)
Definition clean (c : Node) : Prop := c ≠ trivialNode ∧ c ≠ skipNode ∧ isKind k c = false.

Definition clean_inv (visited childList : list Node) : Prop :=
  skipNode ∈ visited ∧ NoDup childList ∧ (∀ c, c ∈ childList → c ∈ visited ∧ clean c).

Lemma flattenChildren_clean cs : ∀ toProcess visited childList tp vis cl, clean_inv visited childList →
  flattenChildren k trivialNode cs toProcess visited childList = Some (tp, vis, cl) → clean_inv vis cl.
Proof using Type.
  induction cs as [|c cs IH]; intros toProcess visited childList tp vis cl Hi E; cbn [flattenChildren] in E; [by injection E as <- <- <-|].
  destruct (decide (c ∈ visited)) as [_|Hout]; [by eapply IH|]. destruct (decide (c = trivialNode)) as [|Hne]; [done|].
  destruct Hi as (Hs&Hn&Hc). destruct (isKind k c) eqn:Hk; (eapply IH; [|exact E]); split_and!.
  - set_solver.
  - done.
  - intros x Hx. destruct (Hc x Hx). split; [set_solver|done].
  - set_solver.
  - apply list.NoDup_app. split_and!; [done| |apply NoDup_singleton]. intros x Hx ->%list_elem_of_singleton. by destruct (Hc c Hx).
  - intros x [Hx| ->%list_elem_of_singleton]%elem_of_app; [destruct (Hc x Hx); split; [set_solver|done]|]. split; [set_solver|]. split_and!; [done|by intros ->|done].
Qed.

Lemma flattenToProcess_clean fuel : ∀ toProcess visited childList l, clean_inv visited childList →
  flattenToProcess fuel k trivialNode toProcess visited childList = Some (inl l) → NoDup l ∧ Forall clean l.
Proof using Type.
  induction fuel as [|fuel IH]; intros [|current toProcess] visited childList l Hi E; cbn [flattenToProcess] in E; try done.
  1, 2: injection E as <-; destruct Hi as (_&Hn&Hc); split; [done|]; apply list.Forall_forall; intros c ?; by apply Hc.
  destruct (flattenChildren _ _ _ _ _ _) as [[[tp vis] cl]|] eqn:E'; [|done]. eapply IH; [|exact E]. by eapply flattenChildren_clean.
Qed.

Lemma scan_clean cs : Forall clean cs → scanChildren k trivialNode skipNode cs true = Some true.
Proof using Type.
  induction 1 as [|c cs (Ht&Hs&Hk) _ IH]; [done|]. cbn [scanChildren]. by rewrite decide_False, decide_False, Hk by done.
Qed.

End clean.

(** The bound of [flattenNode] for the node that is rewritten. *)
Definition flat_guard (n : Node) : Prop :=
  match n with
  | mkNode OR _ => flat_bound OR true n
  | mkNode AND _ => flat_bound AND false n
  | _ => True
  end.

Lemma flatten_stable k a cs n' : flat_bound k a (mkNode k cs) → flattenNode (mkNode k cs) (mkConstBool a) (mkConstBool (negb a)) = Some (mkRewriteResponse REWRITE_DONE n') →
  n' = mkConstBool a ∨ n' = mkConstBool (negb a) ∨
  ∃ l, n' = mkNode k l ∧ rewriteAndOr k n' (mkConstBool a) (mkConstBool (negb a)) = finished n'.
Proof.
  intros Hb E. unfold flattenNode in E. cbn [nodeKind mbind option_bind] in E. apply bind_Some in E as (r&Er&E). destruct r as [l|[]]; [|injection E as <-; auto].
  specialize (Hb l Er). apply flattenToProcess_clean in Er as [Hn Hc]; [|split_and!; [set_solver|constructor|by intros c Hc%elem_of_nil]].
  destruct l as [|c [|c' l]]; [injection E as <-; auto|done|]. rewrite decide_True in E by done. injection E as <-. right; right. eexists. split; [done|].
  unfold rewriteAndOr. cbn [children]. rewrite scan_clean by done. cbn [allSame]. rewrite decide_False; [done|]. intros ->. apply list.NoDup_cons in Hn as [Hn _]. set_solver.
Qed.

(** The branches of a rewriter: the answer is a constant or the term itself, or
    the status is not [REWRITE_DONE]. *)
Ltac outcome E :=
  repeat match type of E with
  | _ ≫= _ = Some _ => apply bind_Some in E as (?&?&E)
  | (if ?b then _ else _) = Some _ => destruct b eqn:?
  | match ?x with _ => _ end = Some _ => destruct x eqn:?
  | Some (mkRewriteResponse (if ?b then _ else _) _) = Some _ => destruct b eqn:?
  end; try done; injection E as <-; auto.

Section bool.
Context `{!NodeIds}.

Lemma preRewrite_ok n τ : wt n τ → flat_guard n → responds n (preRewrite n).
Proof.
  intros Hn Hg. destruct n as [| | | |k cs]; try by eapply done_ok. destruct k; try by eapply done_ok.
  - by eapply rewriteEqual_ok.
  - by eapply rewriteNot_ok.
  - destruct (bool_operands AND cs τ I Hn) as (->&_&_). by apply (rewriteAndOr_ok AND false); auto.
  - destruct (bool_operands OR cs τ I Hn) as (->&_&_). by apply (rewriteAndOr_ok OR true); auto.
  - by eapply rewriteBoolXor_ok.
  - by eapply rewriteImplies_ok.
  - by eapply rewriteIte_ok.
Qed.

(** C8: the Boolean rewriter answers every typed term, and its answer has the
    type of the term and its value in every valuation, as long as the operands of a
    flattened conjunction or disjunction are fewer than the children a node can
    have. *)
Theorem bool_rewriter_sound n τ : typeOf n = Some τ → concrete n = true → flat_guard n →
  ∃ status n', preRewrite n = Some (mkRewriteResponse status n') ∧ postRewrite n = Some (mkRewriteResponse status n') ∧
    typeOf n' = Some τ ∧ concrete n' = true ∧ ∀ env, env_ok env → eval env n' = eval env n.
Proof.
  intros Ht Hc Hg. destruct (preRewrite_ok n τ (conj Ht Hc) Hg) as (status&n'&E&Ht'&Hc'&Hv). exists status, n'. split_and!; try done. congruence.
Qed.

(** C39: the Boolean rewriter reports that it is done only with a term it will not
    change again, under the same bound on flattened operands: rewriting an answer [REWRITE_DONE] of the same kind once more
    gives the answer itself. *)
Theorem bool_rewriter_stable n n' : flat_guard n → preRewrite n = Some (mkRewriteResponse REWRITE_DONE n') → nodeKind n' = nodeKind n →
  preRewrite n' = Some (mkRewriteResponse REWRITE_DONE n').
Proof.
  intros Hg E Hk. assert (n' = n → preRewrite n' = Some (mkRewriteResponse REWRITE_DONE n')) as Hsame by (by intros ->).
  assert (∀ k a cs, n = mkNode k cs → k = AND ∧ a = false ∨ k = OR ∧ a = true → flat_bound k a n →
    rewriteAndOr k n (mkConstBool a) (mkConstBool (negb a)) = Some (mkRewriteResponse REWRITE_DONE n') → preRewrite n' = Some (mkRewriteResponse REWRITE_DONE n')) as Hlat.
  { intros k a cs -> Hka Hb E'. unfold rewriteAndOr in E'. destruct (scanChildren _ _ _ _ _) as [[]|].
    - destruct (allSame _); [by apply bind_Some in E' as (?&_&?)|]. injection E' as <-. by apply Hsame.
    - destruct (flatten_stable k a cs n' Hb E') as [->|[->|(l&->&El)]]; [done..|]. by destruct Hka as [[-> ->]|[-> ->]].
    - by injection E' as <-. }
  assert (isConst n' = true → preRewrite n' = Some (mkRewriteResponse REWRITE_DONE n')) as Hconst by (by destruct n').
  destruct n as [| | | |k cs]; [by injection E as <-; apply Hsame..|]. destruct k; try by injection E as <-; apply Hsame.
  3: by eapply (Hlat AND false); auto.
  3: by eapply (Hlat OR true); auto.
  all: cbn [preRewrite] in E; unfold rewriteEqual, rewriteNot, rewriteImplies, rewriteXor, rewriteIte, rewriteIteParity, rewriteIteBranches, again, finished in E; outcome E.
Qed.

End bool.

(** C9: [computeNnfNorm] terminates on every formula whose symbols fit into one
    node, and returns a formula of the same value in negation normal form:
    conjunctions, disjunctions, equivalences and conditionals over atoms and
    negated atoms.  The results it caches in an attribute stay correct. *)
Theorem nnf_norm_correct n attr : typeOf n = Some BOOLEAN_TYPE → concrete n = true → Z.of_nat (symbols n) ≤ MAX_CHILDREN → attribute_ok attr →
  ∃ r attr', computeNnfNorm n attr = Some (r, attr') ∧ typeOf r = Some BOOLEAN_TYPE ∧ nnf r ∧ (symbols r ≤ symbols n)%nat ∧
    (∀ env, env_ok env → eval env r = eval env n) ∧ attribute_ok attr'.
Proof.
  intros Ht Hc Hm Ha. destruct (computeNnfNorm_ok n attr (conj Ht Hc) Hm Ha) as (r&attr'&E&(_&(Ht'&_&Hv)&Hn&Hs)&Ha'). exists r, attr'. split_and!; try done. congruence.
Qed.

(** ** Examples *)

Definition b1 : Node := mkVar 1 BOOLEAN_TYPE.
Definition b2 : Node := mkVar 2 BOOLEAN_TYPE.

(** [(or b1 (or b2 b1) false)]. *)
Definition or_term : Node := mkNode OR [b1; mkNode2 OR b2 b1; d_false].

#[local] Instance example_ids : NodeIds := λ n, Z.of_nat (nsize n).

Lemma or_term_guard : flat_guard or_term.
Proof. intros l E. vm_compute in E. injection E as <-. done. Qed.

Lemma bool_rewriter_sound_witness : ∃ n', preRewrite or_term = Some (mkRewriteResponse REWRITE_DONE n') ∧ n' = mkNode2 OR b1 b2 ∧ ∀ env, env_ok env → eval env n' = eval env or_term.
Proof.
  destruct (bool_rewriter_sound or_term BOOLEAN_TYPE) as (status&n'&E&_&_&_&Hv); [reflexivity|reflexivity|exact or_term_guard|].
  vm_compute in E. injection E as <- <-. eexists. split; [vm_compute; reflexivity|]. split; [reflexivity|exact Hv].
Defined.

Lemma bool_rewriter_stable_witness : preRewrite (mkNode2 OR b1 b2) = Some (mkRewriteResponse REWRITE_DONE (mkNode2 OR b1 b2)).
Proof. apply (bool_rewriter_stable or_term); [exact or_term_guard|vm_compute; reflexivity|reflexivity]. Defined.

(** [(not (=> b1 (xor b2 b1)))] becomes [(and b1 (= b2 b1))]. *)
Definition nnf_term : Node := mkNode1 NOT (mkNode2 IMPLIES b1 (mkNode2 XOR b2 b1)).

Lemma nnf_norm_correct_witness : ∃ attr', computeNnfNorm nnf_term ∅ = Some (mkNode2 AND b1 (mkNode2 EQUAL b2 b1), attr') ∧ nnf (mkNode2 AND b1 (mkNode2 EQUAL b2 b1)).
Proof.
  destruct (nnf_norm_correct nnf_term ∅) as (r&attr'&E&_&Hn&_); [reflexivity|reflexivity|vm_compute; discriminate|by intros m r Hm|].
  assert (fst <$> computeNnfNorm nnf_term ∅ = Some (mkNode2 AND b1 (mkNode2 EQUAL b2 b1))) as E' by (vm_compute; reflexivity).
  rewrite E in E'. injection E' as <-. by exists attr'.
Defined.
