(* ===== verification/BoolWeight.v ===== *)
(** A reduction order for the Boolean rewriter: each of its answers is the
    formula itself or a smaller one. *)
From stdpp Require Import base option list gmap numbers.
From S2P Require Import Prelude Node TypeRules Semantics TypeSound BvElim BvTerms TheoryRewriter BvCore BoolTerms BoolRewriter BoolRewriterSound BoolTheorems.
Open Scope nat_scope.

(** ** Weights *)

Definition kind_weight (k : Kind) : nat := match k with EQUAL | ITE => 4 | _ => 1 end.

Fixpoint weight (n : Node) : nat :=
  match n with
  | mkVar _ _ => 2
  | mkNode k cs => kind_weight k + sum_list_with weight cs
  | _ => 1
  end.

Lemma weight_pos n : 0 < weight n.
Proof. destruct n as [| | | |[] cs]; cbn; lia. Qed.

Lemma length_weight cs : length cs ≤ sum_list_with weight cs.
Proof. induction cs as [|c cs IH]; simpl; [lia|]. pose proof (weight_pos c). lia. Qed.

Lemma weight_nonconst n τ : wt n τ → isConst n = false → 2 ≤ weight n.
Proof.
  intros [Ht Hc] Hn. destruct n as [| | | |k cs]; try done. destruct (node_inv k cs τ Ht Hc) as (Har&_). destruct cs as [|c cs]; [by destruct k|].
  cbn. pose proof (weight_pos c). destruct k; cbn; lia.
Qed.

(** Formulas over Boolean variables. *)
Fixpoint propositional (n : Node) : bool :=
  match n with
  | mkVar _ ty => bool_decide (ty = BOOLEAN_TYPE)
  | mkConstBool _ => true
  | mkNode (NOT | AND | OR | XOR | IMPLIES | ITE | EQUAL) cs => forallb propositional cs
  | _ => false
  end.

Abbreviation prop n := (propositional n = true).
Abbreviation props l := (Forall (λ x, propositional x = true) l).

(** They are typed, and their symbols fit into one node. *)
Definition formula (n : Node) : Prop := bool_wt n ∧ propositional n = true ∧ (Z.of_nat (weight n) ≤ MAX_CHILDREN)%Z.

#[global] Instance formula_dec n : Decision (formula n).
Proof. unfold formula, wt. apply _. Defined.

Lemma propositional_child k cs c : propositional (mkNode k cs) = true → c ∈ cs → propositional c = true.
Proof.
  intros H Hc. assert (forallb propositional cs = true) as HF by (by destruct k). rewrite forallb_forall in HF. apply HF. by apply list_elem_of_In.
Qed.

Lemma propositional_wt n τ : wt n τ → propositional n = true → τ = BOOLEAN_TYPE.
Proof.
  induction n as [id ty|b|z|bv|k cs IH] using Node_ind' in τ |- *; intros Hn Hp; try done.
  - apply bool_decide_eq_true in Hp as ->. destruct Hn as [Hn _]. cbn in Hn. by injection Hn as <-.
  - destruct Hn as [Hn _]. cbn in Hn. by injection Hn as <-.
  - destruct k; try done; try (match type of Hn with wt (mkNode ?k _) _ => by destruct (bool_operands k cs τ I Hn) as (->&_&_) end).
    + by destruct (equal_terms cs τ Hn) as (?&?&?&_&->&_).
    + destruct (ite_operands cs τ Hn) as (c&t&e&->&_&Ht&_). rewrite list.Forall_forall in IH. eapply (IH t); [set_solver|done|]. apply (propositional_child ITE [c; t; e]); [done|set_solver].
Qed.

Lemma formula_child k cs c : formula (mkNode k cs) → c ∈ cs → formula c ∧ weight c < weight (mkNode k cs).
Proof.
  intros (Hw&Hp&Hm) Hc. pose proof (propositional_child k cs c Hp Hc) as Hpc. pose proof (sum_list_with_elem weight c cs Hc) as Hs.
  assert (weight c < weight (mkNode k cs)) as Hlt by (cbn [weight]; assert (0 < kind_weight k) by (destruct k; cbn; lia); lia). split; [|done]. split_and!; [|done|lia].
  destruct Hw as [Ht Hcc]. destruct (node_inv k cs _ Ht Hcc) as (_&_&_&Hcs&ts&HM&_). apply children_wt in HM; [|done]. apply list_elem_of_lookup in Hc as [i Hi].
  destruct (Forall2_lookup_l _ _ _ _ _ HM Hi) as (t&_&Hct). by rewrite <- (propositional_wt c t Hct Hpc).
Qed.

(** ** The order *)

Section order.
Context `{!NodeIds}.

(** Equalities whose sides are not in the order of their numbers; inner ones
    count more. *)
Fixpoint inversions (n : Node) : nat :=
  match n with
  | mkNode k cs =>
      (match k, cs with EQUAL, [a; b] => if decide (nodeId a > nodeId b)%Z then 1 else 0 | _, _ => 0 end) +
      2 * sum_list_with inversions cs
  | _ => 0
  end.

Definition lighter (a b : Node) : Prop := weight a < weight b ∨ weight a = weight b ∧ inversions a < inversions b.

Lemma lighter_wf : well_founded lighter.
Proof using Type.
  intros n. remember (weight n) as w eqn:Hw. revert n Hw. induction w as [w IHw] using lt_wf_ind. intros n. remember (inversions n) as i eqn:Hi. revert n Hi.
  induction i as [i IHi] using lt_wf_ind. intros n -> ->. constructor. intros m [Hlt|[He Hlt]]; [by eapply IHw|]. by eapply IHi.
Qed.

Lemma lighter_trans a b c : lighter a b → lighter b c → lighter a c.
Proof using Type. unfold lighter. lia. Qed.

Lemma flag_bound k (cs : list Node) : (match k, cs with EQUAL, [a; b] => if decide (nodeId a > nodeId b)%Z then 1 else 0 | _, _ => 0 end) ≤ 1.
Proof using Type. destruct k; try lia. destruct cs as [|a [|b []]]; try lia. destruct (decide _); lia. Qed.

(** Replacing children by lighter ones. *)
Lemma lighter_children k cs ds : Forall2 (λ c d, d = c ∨ lighter d c) cs ds → mkNode k ds = mkNode k cs ∨ lighter (mkNode k ds) (mkNode k cs).
Proof using Type.
  intros HF. assert (ds = cs ∨ sum_list_with weight ds < sum_list_with weight cs ∨
    sum_list_with weight ds = sum_list_with weight cs ∧ sum_list_with inversions ds < sum_list_with inversions cs) as Hc.
  { induction HF as [|c d cs ds Hcd _ IH]; [by left|]. cbn [sum_list_with]. unfold lighter in Hcd.
    destruct Hcd as [->|Hcd], IH as [->|IH]; [by left|right; lia..]. }
  destruct Hc as [->|Hc]; [by left|]. right. unfold lighter. cbn [weight inversions].
  pose proof (flag_bound k ds). lia.
Qed.

(** ** Answers *)

Definition lightens (n : Node) (r : option RewriteResponse) : Prop :=
  ∃ status n', r = Some (mkRewriteResponse status n') ∧ propositional n' = true ∧ (n' = n ∧ status = REWRITE_DONE ∨ lighter n' n).

Lemma lightens_done n : propositional n = true → lightens n (finished n).
Proof using Type. intros Hp. eexists _, n. split_and!; [done..|by left]. Qed.

Lemma lightens_to status n n' : propositional n' = true → weight n' < weight n → lightens n (Some (mkRewriteResponse status n')).
Proof using Type. intros Hp Hw. eexists _, n'. split_and!; [done..|]. right. by left. Qed.

(** ** Flattening *)

Section flatten.
Context (k : Kind) (trivialNode : Node).

Lemma flattenChildren_weight cs : ∀ tp vis cl tp' vis' cl', flattenChildren k trivialNode cs tp vis cl = Some (tp', vis', cl') →
  sum_list_with weight tp' + sum_list_with weight cl' ≤ sum_list_with weight cs + sum_list_with weight tp + sum_list_with weight cl ∧
  length tp ≤ length tp' ∧ (∀ x, x ∈ vis → x ∈ vis') ∧
  (∀ x, x ∈ tp' ∨ x ∈ cl' → x ∈ cs ∨ x ∈ tp ∨ x ∈ cl) ∧
  (∀ x, x ∈ cs → x ∈ vis → sum_list_with weight tp' + sum_list_with weight cl' < sum_list_with weight cs + sum_list_with weight tp + sum_list_with weight cl) ∧
  (∀ x, x ∈ cs → isKind k x = true → x ∉ vis → length tp < length tp').
Proof using Type.
  induction cs as [|c cs IH]; intros tp vis cl tp' vis' cl' E; cbn [flattenChildren] in E.
  { injection E as <- <- <-. split_and!; [simpl; lia|lia|done|set_solver|by intros x Hx%elem_of_nil|by intros x Hx%elem_of_nil]. }
  cbn [sum_list_with]. pose proof (weight_pos c). destruct (decide (c ∈ vis)) as [Hin|Hout].
  { destruct (IH _ _ _ _ _ _ E) as (H1&H2&H3&H4&H5&H6). split_and!; [lia|done|done|clear - H4; set_solver|intros; lia|].
    intros x [->|Hx]%elem_of_cons Hk Hv; [done|by eapply H6]. }
  destruct (decide (c = trivialNode)) as [|_]; [done|]. destruct (isKind k c) eqn:Hk.
  - destruct (IH _ _ _ _ _ _ E) as (H1&H2&H3&H4&H5&H6). rewrite sum_list_with_app in *. rewrite length_app in *. cbn [sum_list_with length] in *. split_and!; [lia|lia|clear - H3; set_solver|clear - H4; set_solver| |].
    + intros x [->|Hx]%elem_of_cons Hv; [done|]. specialize (H5 x Hx ltac:(set_solver)). lia.
    + intros. lia.
  - destruct (IH _ _ _ _ _ _ E) as (H1&H2&H3&H4&H5&H6). rewrite sum_list_with_app in *. cbn [sum_list_with length] in *. split_and!; [lia|lia|clear - H3; set_solver|clear - H4; set_solver| |].
    + intros x [->|Hx]%elem_of_cons Hv; [done|]. specialize (H5 x Hx ltac:(set_solver)). lia.
    + intros x [->|Hx]%elem_of_cons Hkx Hv; [congruence|]. eapply (H6 x); [done..|]. intros [?| ->%list_elem_of_singleton]%elem_of_app; [done|congruence].
Qed.

Lemma flattenChildren_kinds cs : ∀ tp vis cl tp' vis' cl', Forall (λ x, isKind k x = true) tp →
  flattenChildren k trivialNode cs tp vis cl = Some (tp', vis', cl') → Forall (λ x, isKind k x = true) tp'.
Proof using Type.
  induction cs as [|c cs IH]; intros tp vis cl tp' vis' cl' Htp E; cbn [flattenChildren] in E; [by injection E as <- <- <-|].
  destruct (decide _); [by eapply IH|]. destruct (decide _); [done|]. destruct (isKind k c) eqn:Hk; [|by eapply IH].
  eapply IH; [|exact E]. apply Forall_app_2; [done|]. by apply Forall_singleton.
Qed.

Lemma scanChildren_false skipNode cs : ∀ b, scanChildren k trivialNode skipNode cs b = Some false →
  b = false ∨ ∃ x, x ∈ cs ∧ (x = skipNode ∨ isKind k x = true).
Proof using Type.
  induction cs as [|c cs IH]; intros b E; cbn [scanChildren] in E; [left; by injection E|]. destruct (decide _); [done|].
  destruct (IH _ E) as [Hb|(x&Hx&?)]; [|right; exists x; split; [by right|done]].
  destruct (isKind k c) eqn:Hk; [right; exists c; split; [by left|by right]|]. destruct (decide _) as [->|]; [right; exists skipNode; split; [by left|by left]|by left].
Qed.

Lemma flattenToProcess_weight fuel : kind_weight k = 1 → ∀ tp vis cl l, Forall (λ x, isKind k x = true) tp → props tp → props cl →
  flattenToProcess fuel k trivialNode tp vis cl = Some (inl l) →
  sum_list_with weight l + length tp ≤ sum_list_with weight tp + sum_list_with weight cl ∧ props l.
Proof using Type.
  intros Hk. induction fuel as [|fuel IH]; intros tp vis cl l Htp Hp Hc E; destruct tp as [|[| | | |k' cs] tp]; cbn [flattenToProcess] in E; try done;
    try (injection E as <-; simpl; split; [lia|done]); try (by inversion Htp).
  apply list.Forall_cons in Htp as [->%bool_decide_eq_true Htp]. apply list.Forall_cons in Hp as [Hpn Hp].
  cbn [children] in E. destruct (flattenChildren k trivialNode cs tp vis cl) as [[[tp' vis'] cl']|] eqn:Ef; [|done].
  destruct (flattenChildren_weight _ _ _ _ _ _ _ Ef) as (H1&H2&_&H4&_&_).
  pose proof (flattenChildren_kinds _ _ _ _ _ _ _ Htp Ef) as Htp'.
  assert (∀ x, x ∈ tp' ∨ x ∈ cl' → propositional x = true) as Hpp.
  { intros x Hx. destruct (H4 x Hx) as [Hx'|[Hx'|Hx']]; [by eapply propositional_child|by rewrite list.Forall_forall in Hp; apply Hp|by rewrite list.Forall_forall in Hc; apply Hc]. }
  destruct (IH tp' vis' cl' l) as [Hw Hl]; [done|apply list.Forall_forall; auto..|done|]. split; [|done]. cbn [sum_list_with weight length]. lia.
Qed.

(** The operands that flattening a node finds. *)
Lemma flatten_weight skipNode cs fuel l : kind_weight k = 1 → propositional (mkNode k cs) = true →
  flattenToProcess fuel k trivialNode [mkNode k cs] [skipNode] [] = Some (inl l) →
  sum_list_with weight l ≤ sum_list_with weight cs ∧ props l ∧
  (scanChildren k trivialNode skipNode cs true = Some false → isKind k skipNode = false → sum_list_with weight l < sum_list_with weight cs).
Proof using Type.
  intros Hk Hp E. destruct fuel as [|fuel]; [done|]. cbn [flattenToProcess children] in E.
  destruct (flattenChildren k trivialNode cs [] [skipNode] []) as [[[tp vis] cl]|] eqn:Ef; [|done].
  destruct (flattenChildren_weight _ _ _ _ _ _ _ Ef) as (H1&_&_&H4&H5&H6). pose proof (flattenChildren_kinds _ _ _ _ _ _ _ (Forall_nil_2 _) Ef) as Htp.
  assert (∀ x, x ∈ tp ∨ x ∈ cl → propositional x = true) as Hpp.
  { intros x Hx. destruct (H4 x Hx) as [Hx'|[Hx'|Hx']]; [by eapply propositional_child|by apply elem_of_nil in Hx'..]. }
  destruct (flattenToProcess_weight fuel Hk tp vis cl l) as [Hw Hl]; [done|apply list.Forall_forall; auto..|done|].
  cbn [sum_list_with length] in *. split_and!; [lia|done|]. intros Hs Hks. apply scanChildren_false in Hs as [|(x&Hx&[->|Hkx])]; [done|..].
  - specialize (H5 skipNode Hx ltac:(set_solver)). lia.
  - assert (x ∉ [skipNode]) as Hv by (intros ->%list_elem_of_singleton; congruence). specialize (H6 x Hx Hkx Hv). lia.
Qed.
End flatten.

(** ** The connectives *)

Lemma propositional_nary k l : match k with NOT | AND | OR | XOR | IMPLIES | ITE | EQUAL => True | _ => False end →
  props l → prop (mkNode k l).
Proof using Type.
  intros Hk Hl. assert (forallb propositional l = true) as Hf by (apply forallb_forall; intros x Hx%list_elem_of_In; rewrite list.Forall_forall in Hl; auto). by destruct k.
Qed.

Lemma rewriteAndOr_lightens k a cs : k = AND ∧ a = false ∨ k = OR ∧ a = true → formula (mkNode k cs) →
  lightens (mkNode k cs) (rewriteAndOr k (mkNode k cs) (mkConstBool a) (mkConstBool (negb a))).
Proof using Type.
  intros Hk (Hw&Hp&Hm). assert (kind_weight k = 1 ∧ bool_kind k ∧ match k with NOT | AND | OR | XOR | IMPLIES | ITE | EQUAL => True | _ => False end) as (Hkw&Hbk&Hkp)
    by (by destruct Hk as [[-> _]|[-> _]]).
  destruct (bool_operands k cs _ Hbk Hw) as (_&HF&Ha). assert (2 ≤ length cs) as Hl by (destruct Hk as [[-> _]|[-> _]]; by apply bool_decide_eq_true in Ha as [? _]).
  pose proof (length_weight cs). assert (weight (mkNode k cs) = 1 + sum_list_with weight cs) as Hwn by (cbn; lia).
  unfold rewriteAndOr. cbn [children]. destruct (scanChildren _ _ _ _ _) as [[]|] eqn:Es.
  - destruct (allSame cs); [|by apply lightens_done]. destruct cs as [|c cs]; [simpl in Hl; lia|].
    apply lightens_to; [by eapply propositional_child; [|left]|]. rewrite Hwn. cbn [sum_list_with]. lia.
  - destruct (flatten_run k a Hk (mkNode k cs) Hw ltac:(by apply bool_decide_eq_true)) as (r&Er&_).
    unfold flattenNode. cbn [nodeKind mbind option_bind]. rewrite Er. cbn [mbind option_bind]. destruct r as [l|]; [|apply lightens_to; [done|cbn [weight]; lia]].
    destruct (flatten_weight k _ _ cs _ l Hkw Hp Er) as (_&Hpl&Hlt). specialize (Hlt Es eq_refl). pose proof (length_weight l).
    destruct l as [|c [|c' l]]; [apply lightens_to; [done|cbn [weight]; lia]| |].
    { rewrite Forall_singleton in Hpl. apply lightens_to; [done|]. cbn [sum_list_with] in Hlt. lia. }
    rewrite decide_True by lia. apply lightens_to; [by apply propositional_nary|]. cbn [weight]. lia.
  - apply lightens_to; [done|]. cbn [weight]. lia.
Qed.

Lemma stripNot_light n : prop n → bool_wt n → ∀ e, ∃ m e', stripNot n e = Some (m, e') ∧ prop m ∧ bool_wt m ∧ weight m ≤ weight n.
Proof using Type.
  induction n as [| | | |k cs IH] using Node_ind'; intros Hp Hw e.
  1-4: match goal with |- context [stripNot ?n ?b] => by exists n, b end.
  destruct (decide (k = NOT)) as [->|Hk]; [|exists (mkNode k cs), e; split_and!; [by destruct k|done..]].
  destruct (not_operand cs _ Hw) as (c&->&_&Hc). rewrite Forall_singleton in IH.
  destruct (IH (propositional_child NOT [c] c Hp ltac:(by left)) Hc (negb e)) as (m&e'&E&?&?&?). exists m, e'. split_and!; [done..|]. cbn. lia.
Qed.

Lemma makeNegation_light n : prop n → bool_wt n → ∃ r, makeNegation n = Some r ∧ prop r ∧ weight r ≤ S (weight n).
Proof using Type.
  intros Hp Hw. destruct (stripNot_light n Hp Hw false) as (m&e&E&Hpm&Hwm&Hle). unfold makeNegation. rewrite E. cbn [mbind option_bind].
  destruct e; [eexists; split_and!; [done..|lia]|]. destruct (isConst m) eqn:Hc.
  - destruct (const_formula m Hwm Hc) as [b ->]. eexists. split_and!; [done..|]. cbn. lia.
  - eexists. split_and!; [done|by apply propositional_nary; [|apply Forall_singleton]|]. cbn. lia.
Qed.

Lemma negate_light n : prop n → prop (negate n) ∧ weight (negate n) ≤ S (weight n).
Proof using Type.
  intros Hp. assert (prop (mkNode1 NOT n)) as Hpn by (by apply propositional_nary; [|apply Forall_singleton]).
  unfold negate. repeat case_match; subst; try (split; [done|cbn; lia]). split; [by eapply propositional_child; [|left]|cbn; lia].
Qed.

(** A smaller answer: it is a formula over the same parts, and the weights of
    the parts add up. *)
Ltac light :=
  apply lightens_to; [first [done | apply propositional_nary; [done|repeat constructor; done]] | cbn -[MAX_CHILDREN Nat.mul]; lia].

Lemma rewriteNot_lightens cs : formula (mkNode NOT cs) → lightens (mkNode NOT cs) (rewriteNot (mkNode NOT cs)).
Proof using Type.
  intros (Hw&Hp&_). destruct (not_operand cs _ Hw) as (a&->&_&Ha). pose proof (propositional_child NOT [a] a Hp ltac:(by left)) as Hpa.
  pose proof (weight_pos a). unfold rewriteNot. cbn [child lookup list_lookup children mbind option_bind]. do 2 (destruct (decide _); [light|]).
  destruct (isKind NOT a) eqn:Hk; [|by apply lightens_done]. apply isKind_eq in Hk as [ds ->]. destruct (not_operand ds _ Ha) as (b&->&_&_).
  pose proof (propositional_child NOT [b] b Hpa ltac:(by left)). light.
Qed.

(** The operands of a binary connective. *)
Lemma pair_parts k a b : prop (mkNode2 k a b) → prop a ∧ prop b.
Proof using Type. intros Hp. split; eapply propositional_child; [exact Hp|by left|exact Hp|by right; left]. Qed.

Lemma rewriteImplies_lightens cs : formula (mkNode IMPLIES cs) → lightens (mkNode IMPLIES cs) (rewriteImplies (mkNode IMPLIES cs)).
Proof using Type.
  intros (Hw&Hp&_). destruct (bin_operands IMPLIES cs _ I ltac:(done) Hw) as (a&b&->&_&Ha&Hb). destruct (pair_parts _ _ _ Hp) as [Hpa Hpb].
  pose proof (weight_pos a). pose proof (weight_pos b). unfold rewriteImplies. cbn [child lookup list_lookup children mbind option_bind].
  do 3 (destruct (decide _); [light|]). destruct (decide _); [|by apply lightens_done].
  destruct (makeNegation_light a Hpa Ha) as (r&->&Hr&Hwr). cbn [mbind option_bind]. light.
Qed.

Lemma rewriteXor_lightens cs : formula (mkNode XOR cs) → lightens (mkNode XOR cs) (rewriteXor (mkNode XOR cs)).
Proof using Type.
  intros (Hw&Hp&_). destruct (bin_operands XOR cs _ I ltac:(done) Hw) as (a&b&->&_&Ha&Hb). destruct (pair_parts _ _ _ Hp) as [Hpa Hpb].
  pose proof (weight_pos a). pose proof (weight_pos b). unfold rewriteXor. cbn [child lookup list_lookup children mbind option_bind].
  destruct (makeNegation_light a Hpa Ha) as (r&->&Hr&Hwr). destruct (makeNegation_light b Hpb Hb) as (r'&->&Hr'&Hwr'). cbn [mbind option_bind].
  do 5 (destruct (decide _); [light|]). do 2 (case_match; [light|]). by apply lightens_done.
Qed.

Lemma eqConstEq_answer a b n' : rewriteViaEqConstEq (mkNode2 EQUAL a b) = Some (Some n') → n' = d_true ∨ n' = andNode (notNode a) (notNode b).
Proof using Type.
  unfold rewriteViaEqConstEq. cbn [child children lookup list_lookup mbind option_bind]. destruct (_ && _); [|done].
  intros (?&_&(?&_&(?&_&(?&_&E)%bind_Some)%bind_Some)%bind_Some)%bind_Some. repeat case_match; simplify_eq; auto.
Qed.

Lemma rewriteEqual_lightens cs : formula (mkNode EQUAL cs) → lightens (mkNode EQUAL cs) (rewriteEqual (mkNode EQUAL cs)).
Proof using Type.
  intros (Hw&Hp&_). destruct (equal_terms cs _ Hw) as (a&b&t&->&_&Ha&Hb). destruct (pair_parts _ _ _ Hp) as [Hpa Hpb].
  pose proof (propositional_wt _ _ Ha Hpa) as ->. pose proof (weight_pos a). pose proof (weight_pos b).
  unfold rewriteEqual. cbn [child lookup list_lookup children mbind option_bind].
  destruct (makeNegation_light a Hpa Ha) as (r&->&Hr&Hwr). destruct (makeNegation_light b Hpb Hb) as (r'&->&Hr'&Hwr'). cbn [mbind option_bind].
  do 5 (destruct (decide _); [light|]). do 2 (case_match; [light|]). destruct (eqConstEq_ok a b Ha Hb) as (ret&E&_). rewrite E. cbn [mbind option_bind].
  destruct ret as [n'|].
  - assert (prop (notNode a) ∧ prop (notNode b)) as [? ?] by (split; (by apply propositional_nary; [|apply Forall_singleton])).
    destruct (eqConstEq_answer a b n' E) as [-> | ->]; light.
  - destruct (decide _) as [Hid|_]; [|by apply lightens_done]. eexists _, _. split; [done|]. split; [by apply propositional_nary; [|repeat constructor]|].
    right. right. cbn [weight inversions sum_list_with]. rewrite (decide_True _ _ Hid), decide_False by lia. lia.
Qed.

Lemma triple_parts k a b c : prop (mkNode3 k a b c) → prop a ∧ prop b ∧ prop c.
Proof using Type. intros Hp. split_and!; (eapply propositional_child; [exact Hp|set_solver]). Qed.

Lemma iteParity_light c m : iteParity c m ≠ 0%Z → bool_wt m → prop m →
  ∃ m0 m1 m2, m = mkNode3 ITE m0 m1 m2 ∧ prop m1 ∧ prop m2.
Proof using Type.
  unfold iteParity. intros Hne Hm Hp. destruct (isKind ITE m) eqn:Hk; [|done]. apply isKind_eq in Hk as [ds ->].
  destruct (ite_operands ds _ Hm) as (m0&m1&m2&->&_). destruct (triple_parts _ _ _ _ Hp) as (_&?&?). by exists m0, m1, m2.
Qed.

Lemma rewriteIteBranches_lightens a b c : formula (mkNode3 ITE a b c) → lightens (mkNode3 ITE a b c) (rewriteIteBranches (mkNode3 ITE a b c) a b c).
Proof using Type.
  intros (Hw&Hp&_). destruct (triple_parts _ _ _ _ Hp) as (Ha&Hb&Hc). pose proof (weight_pos b). pose proof (weight_pos c).
  destruct (negate_light a Ha). unfold rewriteIteBranches. repeat (case_match; try light). by apply lightens_done.
Qed.

Lemma rewriteIteParity_lightens a b c : formula (mkNode3 ITE a b c) → lightens (mkNode3 ITE a b c) (rewriteIteParity (mkNode3 ITE a b c) a b c).
Proof using Type.
  intros Hf. pose proof Hf as (Hw&Hp&_). destruct (ite_operands _ _ Hw) as (?&?&?&[= <- <- <-]&Hwa&Hwb&Hwc). destruct (triple_parts _ _ _ _ Hp) as (Ha&Hb&Hc).
  pose proof (weight_pos a). pose proof (weight_pos b). pose proof (weight_pos c). unfold rewriteIteParity.
  destruct (decide _) as [_|_]; [destruct (decide _); light|].
  destruct (negb (isConst b) && _) eqn:E1; [apply andb_true_iff in E1 as [E1%negb_true_iff _]; pose proof (weight_nonconst b _ Hwb E1); destruct (decide _); light|].
  destruct (negb (isConst c) && _) eqn:E2; [apply andb_true_iff in E2 as [E2%negb_true_iff _]; pose proof (weight_nonconst c _ Hwc E2); destruct (decide _); light|].
  destruct (decide _) as [Hi|_].
  { destruct (iteParity_light _ _ Hi Hwb Hb) as (?&?&?&->&?&?). destruct (decide _); cbn [child children lookup list_lookup mbind option_bind]; light. }
  destruct (decide _) as [Hi|_]; [|by apply rewriteIteBranches_lightens].
  destruct (iteParity_light _ _ Hi Hwc Hc) as (?&?&?&->&?&?). destruct (decide _); cbn [child children lookup list_lookup mbind option_bind]; light.
Qed.

Lemma rewriteIte_lightens cs : formula (mkNode ITE cs) → lightens (mkNode ITE cs) (rewriteIte (mkNode ITE cs)).
Proof using Type.
  intros Hf. pose proof Hf as (Hw&Hp&_). destruct (ite_operands _ _ Hw) as (a&b&c&->&Hwa&Hwb&Hwc). destruct (triple_parts _ _ _ _ Hp) as (Ha&Hb&Hc).
  pose proof (weight_pos a). pose proof (weight_pos b). pose proof (weight_pos c). unfold rewriteIte. cbn [child children lookup list_lookup mbind option_bind].
  destruct (makeNegation_light a Ha Hwa) as (r&->&Hr&Hwr). cbn [mbind option_bind]. destruct (isConst a) eqn:Hca.
  { destruct (const_formula a Hwa Hca) as [[] ->]; [rewrite decide_True by done|rewrite decide_False, bool_decide_true by done; cbn [assert mbind option_bind]]; light. }
  do 2 (case_match; [light|]). destruct (isKind NOT a) eqn:Hk; [|by apply rewriteIteParity_lightens].
  apply isKind_eq in Hk as [ds ->]. destruct (not_operand ds _ Hwa) as (a'&->&_&_). pose proof (propositional_child NOT [a'] a' Ha ltac:(by left)).
  cbn [child children lookup list_lookup mbind option_bind]. light.
Qed.

(** Every answer about a formula is the formula or a smaller one. *)
Lemma preRewrite_lightens n : formula n → lightens n (preRewrite n).
Proof using Type.
  intros Hf. pose proof Hf as (_&Hp&_). destruct n as [| | | |k cs]; try by apply lightens_done. destruct k; try done.
  - by apply rewriteEqual_lightens.
  - by apply rewriteNot_lightens.
  - by apply (rewriteAndOr_lightens AND false); auto.
  - by apply (rewriteAndOr_lightens OR true); auto.
  - by apply rewriteXor_lightens.
  - by apply rewriteImplies_lightens.
  - by apply rewriteIte_lightens.
Qed.

(** A formula is flattened into one node. *)
Lemma formula_flat n : formula n → flat_guard n.
Proof using Type.
  intros (_&Hp&Hm). destruct n as [| | | |[] cs]; try done; intros l E.
  1: destruct (flatten_weight AND _ _ _ _ l eq_refl Hp E) as (Hle&_&_). 2: destruct (flatten_weight OR _ _ _ _ l eq_refl Hp E) as (Hle&_&_).
  all: pose proof (length_weight l); cbn [weight kind_weight] in Hm; lia.
Qed.

End order.
