(* ===== verification/UfRewriter.v ===== *)
(** [theory/uf/theory_uf_rewriter.cpp] on the kinds of the model: equality,
    [DISTINCT] and the conversions between integers and bit-vectors.  [None] is a
    failed assertion.  Functions and lambdas are not terms of the model. *)
From stdpp Require Import base option list gmap numbers.
From S2P Require Import Prelude Integer Node TypeRules BitVectorUtil BvElim TheoryRewriter BvCore.
Open Scope Z_scope.

(** ** Distinct *)

(** [TypeNode::isCardinalityLessThan].  The logarithm of a number of children is
    compared in floating point; numbers below [MAX_CHILDREN] are far enough apart
    for the comparison to be the one of the integers. *)
Definition isCardinalityLessThan (t : TypeNode) (n : nat) : bool :=
  match t with
  | BOOLEAN_TYPE => bool_decide (2 < Z.of_nat n)
  | BITVECTOR_TYPE w => bool_decide (2 ^ w < Z.of_nat n)
  | _ => false
  end.

(** [rewriteViaRule] with [DISTINCT_CARD_CONFLICT], [DISTINCT_FALSE] and
    [DISTINCT_TRUE]; [Some None] is the null node. *)
Definition distinctCardConflict (n : Node) : option (option Node) :=
  if isKind DISTINCT n then
    n0 ← child n 0; tn ← typeOf n0;
    if (isBoolean tn || isBitVector tn) && isCardinalityLessThan tn (getNumChildren n) then Some (Some (mkConstBool false)) else Some None
  else Some None.

(** The loop that inserts the children into a set: whether one occurs twice. *)
Fixpoint hasDuplicate (seen cs : list Node) : bool :=
  match cs with
  | [] => false
  | c :: cs => if decide (c ∈ seen) then true else hasDuplicate (c :: seen) cs
  end.

Definition distinctFalse (n : Node) : option Node :=
  if isKind DISTINCT n && hasDuplicate [] (children n) then Some (mkConstBool false) else None.

(** [allDistinctConst]: constants, and no constant twice. *)
Fixpoint distinctConsts (seen cs : list Node) : bool :=
  match cs with
  | [] => true
  | c :: cs => isConst c && (if decide (c ∈ seen) then false else distinctConsts (c :: seen) cs)
  end.

Definition distinctTrue (n : Node) : option Node :=
  if isKind DISTINCT n && distinctConsts [] (children n) then Some (mkConstBool true) else None.

(** The nested loops of [blastDistinct]. *)
Fixpoint disequalities (cs : list Node) : list Node :=
  match cs with
  | [] => []
  | c :: cs => ((λ d, mkNode1 NOT (mkNode2 EQUAL c d)) <$> cs) ++ disequalities cs
  end.

Definition blastDistinct (n : Node) : option Node :=
  _ ← assert (isKind DISTINCT n);
  match children n with
  | [a; b] => Some (mkNode1 NOT (mkNode2 EQUAL a b))
  | cs => Some (mkNode AND (disequalities cs))
  end.

(** The loop of [rewriteDistinct]: [None] if a child occurs twice, otherwise
    [allConst]. *)
Fixpoint scanDistinct (allConst : bool) (seen cs : list Node) : option bool :=
  match cs with
  | [] => Some allConst
  | c :: cs => if decide (c ∈ seen) then None else scanDistinct (allConst && isConst c) (c :: seen) cs
  end.

Definition rewriteDistinct (n : Node) : option RewriteResponse :=
  let respond n := Some (mkRewriteResponse REWRITE_DONE n) in
  ret ← distinctCardConflict n;
  match ret with
  | Some _ => respond (mkConstBool false)
  | None =>
      match scanDistinct true [] (children n) with
      | None => respond (mkConstBool false)
      | Some true => respond (mkConstBool true)
      | Some false => if decide (getNumChildren n ≤ 10)%nat then r ← blastDistinct n; respond r else respond n
      end
  end.

Section rewriter.
Context `{!Gmp, !NodeIds}.

(** ** Conversions *)

(** [BitVector::toInteger]. *)
Definition toInteger (this : BitVector) : Z := d_value this.

Definition rewriteBVToInt (n : Node) : option RewriteResponse :=
  n0 ← child n 0;
  match n0 with
  | mkConstBV bv => Some (mkRewriteResponse REWRITE_AGAIN_FULL (mkConstInt (toInteger bv)))
  | mkNode (INT_TO_BITVECTOR size) _ =>
      n00 ← child n0 0;
      Some (mkRewriteResponse REWRITE_AGAIN_FULL (mkNode2 INTS_MODULUS_TOTAL n00 (mkConstInt (Integer.pow 2 size))))
  | _ => Some (mkRewriteResponse REWRITE_DONE n)
  end.

Definition rewriteIntToBV (n : Node) : option RewriteResponse :=
  n0 ← child n 0;
  match n, n0 with
  | mkNode (INT_TO_BITVECTOR size) _, mkConstInt z => Some (mkRewriteResponse REWRITE_AGAIN_FULL (mkConstBV (BV.new size z)))
  | _, mkNode BITVECTOR_UBV_TO_INT _ =>
      n00 ← child n0 0; otype ← typeOf n; itype ← typeOf n00;
      if decide (otype = itype) then Some (mkRewriteResponse REWRITE_AGAIN_FULL n00)
      else
        osize ← getBitVectorSize otype; isize ← getBitVectorSize itype;
        if decide (isize < osize) then
          zero ← utils.mkZero (osize - isize); Some (mkRewriteResponse REWRITE_AGAIN_FULL (mkNode2 BITVECTOR_CONCAT zero n00))
        else
          _ ← assert (bool_decide (osize < isize));
          Some (mkRewriteResponse REWRITE_AGAIN_FULL (utils.mkExtract n00 (osize - 1) 0))
  | _, _ => Some (mkRewriteResponse REWRITE_DONE n)
  end.

(** The case [BITVECTOR_SBV_TO_INT]. *)
Definition rewriteSBVToInt (n : Node) : option RewriteResponse :=
  n0 ← child n 0; size ← getSize n0;
  let r := mkNode1 BITVECTOR_UBV_TO_INT n0 in
  let ttm := mkConstInt (Integer.pow 2 size) in
  let ex := utils.mkExtract n0 (u32 (size - 1)) (u32 (size - 1)) in
  zero ← utils.mkZero 1;
  Some (mkRewriteResponse REWRITE_AGAIN_FULL (mkNode3 ITE (mkNode2 EQUAL ex zero) r (mkNode2 SUB r ttm))).

(** ** The rewriter *)

(** The case [EQUAL], before the sides are sorted. *)
Definition rewriteEqual (n : Node) (rest : option RewriteResponse) : option RewriteResponse :=
  n0 ← child n 0; n1 ← child n 1;
  if decide (n0 = n1) then Some (mkRewriteResponse REWRITE_DONE (mkConstBool true))
  else if isConst n0 && isConst n1 then Some (mkRewriteResponse REWRITE_DONE (mkConstBool false))
  else rest.

Definition postRewrite (n : Node) : option RewriteResponse :=
  match n with
  | mkNode EQUAL _ =>
      n0 ← child n 0; n1 ← child n 1;
      rewriteEqual n (if decide (nodeId n0 > nodeId n1) then Some (mkRewriteResponse REWRITE_DONE (mkNode2 EQUAL n1 n0)) else Some (mkRewriteResponse REWRITE_DONE n))
  | mkNode BITVECTOR_UBV_TO_INT _ => rewriteBVToInt n
  | mkNode (INT_TO_BITVECTOR _) _ => rewriteIntToBV n
  | mkNode BITVECTOR_SBV_TO_INT _ => rewriteSBVToInt n
  | mkNode DISTINCT _ => rewriteDistinct n
  | _ => Some (mkRewriteResponse REWRITE_DONE n)
  end.

Definition preRewrite (n : Node) : option RewriteResponse :=
  match n with
  | mkNode EQUAL _ => rewriteEqual n (Some (mkRewriteResponse REWRITE_DONE n))
  | mkNode DISTINCT _ => rewriteDistinct n
  | _ => Some (mkRewriteResponse REWRITE_DONE n)
  end.

End rewriter.
