(* ===== verification/UfRewriterSound.v ===== *)
(** The rewriter of equality, [DISTINCT] and the conversions keeps the type and
    the value of a term. *)
From stdpp Require Import base option list gmap numbers.
From S2P Require Import Prelude Integer Node TypeRules Semantics BvArith TypeSound BitVectorUtil BvElim BvTerms TheoryRewriter BvConstSound BvCore BvSimplifySound BoolTerms BoolRewriterSound UfRewriter.
Open Scope Z_scope.

(** ** Distinct *)

Lemma distinct_operands cs τ : wt (mkNode DISTINCT cs) τ →
  τ = BOOLEAN_TYPE ∧ (2 ≤ length cs)%nat ∧ Z.of_nat (length cs) ≤ MAX_CHILDREN ∧ ∃ t, Forall (λ c, wt c t) cs.
Proof.
  intros [Ht Hc]. destruct (node_inv _ cs τ Ht Hc) as ([Hl Hm]%bool_decide_eq_true&_&_&Hcs&ts&HM&Hτ&vs&HF&Hvs). apply children_wt in HM; [|done].
  cbn [computeType] in Hτ. destruct HF as [|v t vs ts Hv HF]; [simpl in *; lia|]. cbn [DistinctTypeRule] in Hτ. apply bind_Some in Hτ as (r&Hd&[= <-]).
  pose proof (distinctLoop_sound _ _ _ _ _ Hv HF Hd) as Hs. split_and!; [done..|]. exists t. inversion HM as [|c ? cs' ? Hct HM']; subst. constructor; [done|].
  clear - HM' HF Hs Hv. revert vs HF Hs. induction HM' as [|c u cs us Hcu _ IH]; intros vs HF Hs; inversion HF as [|v' ? vs' ? Hv' HF']; subst; constructor.
  - apply list.Forall_cons in Hs as [Hs _]. destruct Hv as [<- _], Hv' as [<- _]. by rewrite Hs.
  - apply list.Forall_cons in Hs as [_ Hs]. by eapply IH.
Qed.

Lemma eval_vals env cs t : env_ok env → Forall (λ c, wt c t) cs → mapM (eval env) cs = Some ((λ c, val_of c env) <$> cs) ∧ Forall (λ c, sort_of (val_of c env) = t) cs.
Proof.
  intros Hok. induction 1 as [|c cs Hc _ [IH IH']]; [done|]. destruct (wt_eval c t env Hc Hok) as (v&Hv&Hs). assert (val_of c env = v) as E by (unfold val_of; by rewrite Hv).
  cbn [mapM fmap list_fmap]. rewrite Hv. cbn [mbind option_bind]. rewrite IH, E. split; [done|]. constructor; [by rewrite E|done].
Qed.

Lemma bool_of_distinct env cs t : env_ok env → (2 ≤ length cs)%nat → Forall (λ c, wt c t) cs →
  bool_of (mkNode DISTINCT cs) env = bool_decide (NoDup ((λ c, val_of c env) <$> cs)).
Proof.
  intros Hok Hl HF. destruct (eval_vals env cs t Hok HF) as [E Hs]. unfold bool_of. cbn [eval]. rewrite E. cbn [mbind option_bind].
  destruct cs as [|c [|d cs]]; [simpl in Hl; lia..|]. cbn [kind_eval fmap list_fmap]. replace (forallb _ _) with true; [done|]. symmetry.
  apply forallb_forall. intros v Hv%list_elem_of_In. apply bool_decide_eq_true. change (v ∈ (λ c, val_of c env) <$> (c :: d :: cs)) in Hv.
  apply list_elem_of_fmap in Hv as (x&->&Hx). rewrite list.Forall_forall in Hs. rewrite (Hs x Hx). by apply Hs; left.
Qed.

(** The loops that look for a child that occurs twice. *)
Lemma scanDistinct_spec cs : ∀ b seen, NoDup seen →
  match scanDistinct b seen cs with
  | None => ¬ NoDup (reverse seen ++ cs)
  | Some r => NoDup (reverse seen ++ cs) ∧ (r = true → b = true ∧ Forall (λ c, isConst c = true) cs)
  end.
Proof.
  induction cs as [|c cs IH]; intros b seen Hs; cbn [scanDistinct].
  { rewrite app_nil_r. split; [by rewrite reverse_Permutation|done]. }
  destruct (decide (c ∈ seen)) as [Hin|Hout].
  - intros (_&Hd&_)%list.NoDup_app. apply (Hd c); [by rewrite elem_of_reverse|by left].
  - specialize (IH (b && isConst c) (c :: seen)). rewrite reverse_cons, <- app_assoc in IH. cbn [app] in IH.
    specialize (IH ltac:(by apply NoDup_cons_2)). destruct (scanDistinct _ _ _); [|done]. destruct IH as [? Hr]. split; [done|].
    intros ->. destruct (Hr eq_refl) as [[-> Hc]%andb_true_iff HF]. split; [done|]. by constructor.
Qed.

Lemma duplicate_values env cs : NoDup ((λ c, val_of c env) <$> cs) → NoDup cs.
Proof. apply NoDup_fmap_1. Qed.

Lemma constant_values env cs : Forall (λ c, isConst c = true) cs → NoDup cs → NoDup ((λ c, val_of c env) <$> cs).
Proof.
  induction 1 as [|c cs Hc HF IH]; [by constructor|]. intros [Hin Hd]%list.NoDup_cons. cbn [fmap list_fmap]. apply list.NoDup_cons. split; [|by apply IH].
  intros (d&E&Hd')%list_elem_of_fmap. rewrite list.Forall_forall in HF. apply Hin. by rewrite (const_values c d env Hc (HF d Hd') E).
Qed.

Lemma hasDuplicate_scan cs b : ∀ seen, hasDuplicate seen cs = bool_decide (scanDistinct b seen cs = None).
Proof. revert b. induction cs as [|c cs IH]; intros b seen; cbn [hasDuplicate scanDistinct]; [done|]. destruct (decide _); [done|]. apply IH. Qed.

Lemma distinctConsts_scan cs : ∀ seen, distinctConsts seen cs = true → scanDistinct true seen cs = Some true.
Proof.
  induction cs as [|c cs IH]; intros seen; cbn [distinctConsts scanDistinct]; [done|]. intros [Hc Hr]%andb_true_iff. destruct (decide _); [done|].
  rewrite Hc. by apply IH.
Qed.

(** Pigeonholes: too many children for the values of their type. *)
Lemma cardinality env cs t : env_ok env → Forall (λ c, wt c t) cs → isCardinalityLessThan t (length cs) = true → ¬ NoDup ((λ c, val_of c env) <$> cs).
Proof.
  intros Hok HF Hcard Hnd. assert (∃ l : list value, (length l < length cs)%nat ∧ Forall (λ c, val_of c env ∈ l) cs) as (l&Hl&Hin).
  { destruct t as [| |w|]; try done; cbn in Hcard; apply bool_decide_eq_true in Hcard.
    - exists [VBool false; VBool true]. split; [simpl; lia|]. eapply list.Forall_impl; [exact HF|]. intros c Hc. cbn beta. rewrite val_bool by done. destruct (bool_of c env); set_solver.
    - exists (VBV w <$> seqZ 0 (2 ^ w)). split; [rewrite length_fmap, length_seqZ; lia|]. eapply list.Forall_impl; [exact HF|]. intros c (_&_&He)%wt_bvterm. destruct (He env Hok) as [E Hb].
      cbn beta. unfold val_of. rewrite E. apply list_elem_of_fmap. exists (bv_of c env). split; [done|]. apply elem_of_seqZ. lia. }
  assert (length ((λ c, val_of c env) <$> cs) ≤ length l)%nat as Hle; [|rewrite length_fmap in Hle; lia].
  apply NoDup_incl_length; [by apply NoDup_ListNoDup|]. intros v Hv%list_elem_of_In. apply list_elem_of_In. apply list_elem_of_fmap in Hv as (c&->&Hc). rewrite list.Forall_forall in Hin. by apply Hin.
Qed.

(** The disequalities of all pairs. *)
Lemma length_disequalities cs : (2 * length (disequalities cs) = length cs * (length cs - 1))%nat.
Proof. induction cs as [|c cs IH]; [done|]. cbn [disequalities length]. rewrite length_app, length_fmap. destruct cs; cbn [length] in *; nia. Qed.

Lemma disequalities_wt cs t : Forall (λ c, wt c t) cs → Forall (λ c, bool_wt c) (disequalities cs).
Proof.
  induction 1 as [|c cs Hc HF IH]; cbn [disequalities]; [constructor|]. apply Forall_app_2; [|done]. apply list.Forall_fmap. eapply list.Forall_impl; [exact HF|].
  intros d Hd. cbn. by apply wt_not, (wt_equal _ _ t).
Qed.

Lemma disequalities_value env cs t : env_ok env → Forall (λ c, wt c t) cs →
  Exists (λ x, bool_of x env = false) (disequalities cs) ↔ ¬ NoDup ((λ c, val_of c env) <$> cs).
Proof.
  intros Hok. induction 1 as [|c cs Hc HF IH]; cbn [disequalities fmap list_fmap].
  { split; [by inversion 1|]. intros []. constructor. }
  rewrite Exists_app, IH, list.NoDup_cons. rewrite list.Forall_forall in HF.
  assert (Exists (λ x, bool_of x env = false) ((λ d, mkNode1 NOT (mkNode2 EQUAL c d)) <$> cs) ↔ val_of c env ∈ (λ c, val_of c env) <$> cs) as ->.
  { rewrite list.Exists_exists, list_elem_of_fmap. split.
    - intros (x&(d&->&Hd)%list_elem_of_fmap&E). exists d. split; [|done]. rewrite bool_of_not in E by (by try apply (wt_equal _ _ t); auto).
      rewrite (bool_of_equal env Hok _ _ t) in E by auto. by apply negb_false_iff, bool_decide_eq_true in E.
    - intros (d&E&Hd). exists (mkNode1 NOT (mkNode2 EQUAL c d)). split; [apply list_elem_of_fmap; by exists d|]. rewrite bool_of_not by (by try apply (wt_equal _ _ t); auto).
      rewrite (bool_of_equal env Hok _ _ t) by auto. by rewrite bool_decide_true. }
  destruct (decide (val_of c env ∈ (λ c, val_of c env) <$> cs)), (decide (NoDup ((λ c, val_of c env) <$> cs))); tauto.
Qed.

Lemma blastDistinct_ok cs τ : wt (mkNode DISTINCT cs) τ → (length cs ≤ 10)%nat → ∃ n', blastDistinct (mkNode DISTINCT cs) = Some n' ∧ equiv (mkNode DISTINCT cs) n'.
Proof.
  intros Hn Hl. destruct (distinct_operands cs τ Hn) as (->&H2&_&t&HF). 
  assert (∃ n', blastDistinct (mkNode DISTINCT cs) = Some n' ∧ bool_wt n' ∧
    ∀ env, env_ok env → bool_of n' env = false ↔ Exists (λ x, bool_of x env = false) (disequalities cs)) as (n'&E&Hn'&Hv).
  { pose proof (disequalities_wt cs t HF) as Hd. pose proof (length_disequalities cs) as Hdl. destruct cs as [|a [|b [|c cs]]]; [simpl in H2; lia..| |].
    - eexists. split; [done|]. cbn in Hd. rewrite Forall_singleton in Hd. split; [done|]. intros env _. cbn. rewrite Exists_cons, Exists_nil. tauto.
    - eexists. split; [done|]. split; [apply wt_nary; [by left|done|cbn [length] in *; nia|unfold MAX_CHILDREN; cbn [length] in *; nia]|].
      intros env Hok. apply (bool_of_nary env Hok AND false); [by left|done]. }
  exists n'. split; [done|]. apply equiv_formula; [done..|]. intros env Hok. specialize (Hv env Hok). rewrite (disequalities_value env cs t Hok HF) in Hv.
  rewrite (bool_of_distinct env cs t Hok H2 HF). destruct (bool_of n' env); case_bool_decide; intuition congruence.
Qed.

(** A [DISTINCT] that is constant. *)
Lemma distinct_constant cs t b : wt (mkNode DISTINCT cs) BOOLEAN_TYPE → Forall (λ c, wt c t) cs →
  (∀ env, env_ok env → NoDup ((λ c, val_of c env) <$> cs) ↔ b = true) → equiv (mkNode DISTINCT cs) (mkConstBool b).
Proof.
  intros Hn HF Hb. destruct (distinct_operands cs _ Hn) as (_&H2&_). apply equiv_formula; [done..|]. intros env Hok. rewrite (bool_of_distinct env cs t Hok H2 HF). cbn.
  specialize (Hb env Hok). destruct b; case_bool_decide; intuition congruence.
Qed.

(** The rules that proofs refer to. *)
Lemma distinct_rules_ok cs τ r : wt (mkNode DISTINCT cs) τ → distinctFalse (mkNode DISTINCT cs) = Some r ∨ distinctTrue (mkNode DISTINCT cs) = Some r → equiv (mkNode DISTINCT cs) r.
Proof.
  intros Hn Hr. pose proof Hn as Hop. apply distinct_operands in Hop as (->&H2&_&t&HF). unfold distinctFalse, distinctTrue in Hr. cbn [isKind children] in Hr. rewrite bool_decide_true in Hr by done.
  pose proof (scanDistinct_spec cs true [] NoDup_nil_2) as Hs. cbn [reverse app andb] in *.
  destruct Hr as [Hr|Hr]; [destruct (hasDuplicate [] cs) eqn:E|destruct (distinctConsts [] cs) eqn:E]; try done; injection Hr as <-; apply (distinct_constant _ t); try done; intros env Hok.
  - rewrite (hasDuplicate_scan _ true) in E. apply bool_decide_eq_true in E. rewrite E in Hs. split; [|done]. intros Hnd%duplicate_values. done.
  - rewrite (distinctConsts_scan _ _ E) in Hs. destruct Hs as [Hnd Hc]. split; [done|]. intros _. apply constant_values; [by apply Hc|done].
Qed.

Lemma rewriteDistinct_ok cs τ : wt (mkNode DISTINCT cs) τ → responds (mkNode DISTINCT cs) (rewriteDistinct (mkNode DISTINCT cs)).
Proof.
  intros Hn. pose proof Hn as Hop. apply distinct_operands in Hop as (->&H2&_&t&HF).
  assert (∀ b, (∀ env, env_ok env → NoDup ((λ c, val_of c env) <$> cs) ↔ b = true) → responds (mkNode DISTINCT cs) (Some (mkRewriteResponse REWRITE_DONE (mkConstBool b)))) as Hconst.
  { intros b Hb. by apply responds_to, (distinct_constant _ t). }
  unfold rewriteDistinct, distinctCardConflict. cbn [isKind]. rewrite bool_decide_true by done. destruct cs as [|c cs]; [simpl in H2; lia|]. cbn [child children lookup list_lookup mbind option_bind].
  pose proof HF as [[Htc _] _]%list.Forall_cons. rewrite Htc. cbn [mbind option_bind getNumChildren]. destruct ((isBoolean t || isBitVector t) && _) eqn:Ec; cbn [mbind option_bind].
  { apply andb_true_iff in Ec as [_ Ec]. apply Hconst. intros env Hok. split; [|done]. intros Hnd. by destruct (cardinality env (c :: cs) t Hok HF Ec). }
  pose proof (scanDistinct_spec (c :: cs) true [] (NoDup_nil_2)) as Hs. destruct (scanDistinct true [] (c :: cs)) as [[]|]; cbn [reverse app] in Hs.
  - destruct Hs as [Hnd Hc]. apply Hconst. intros env Hok. split; [done|]. intros _. apply constant_values; [by apply Hc|done].
  - destruct (decide _) as [Hl|_]; [|by eapply done_ok]. destruct (blastDistinct_ok _ _ Hn Hl) as (n'&->&He). by apply responds_to.
  - apply Hconst. intros env Hok. split; [|done]. intros Hnd%duplicate_values. done.
Qed.

(** ** Conversions *)

Lemma int_ite c t e fc ft fe : boolterm c fc → intterm t ft → intterm e fe → intterm (mkNode3 ITE c t e) (λ env, if fc env then ft env else fe env).
Proof.
  intros [Hc Hce] [Ht Hte] [He Hee]. split; [by apply wt_ite|]. intros env Hok. rewrite (eval_node3 _ _ _ _ _ _ _ _ (Hce env Hok) (Hte env Hok) (Hee env Hok)).
  cbn [kind_eval sort_of]. rewrite decide_True by done. by destruct (fc env).
Qed.

(** The operand of a conversion. *)
Lemma conversion_operand k cs τ : (∀ n, arity_ok k n = bool_decide (n = 1%nat)) → (∀ ts, computeType k cs ts = BitVectorConversionTypeRule ts) →
  wt (mkNode k cs) τ → ∃ a w, cs = [a] ∧ τ = INTEGER_TYPE ∧ wt a (BITVECTOR_TYPE w).
Proof.
  intros Ha Hr [Ht Hc]. destruct (node_inv _ cs τ Ht Hc) as (Hl&_&_&Hcs&ts&HM&Hτ&vs&HF&_). rewrite Ha in Hl. apply bool_decide_eq_true in Hl. apply children_wt in HM; [|done].
  rewrite Hr in Hτ. destruct cs as [|a []]; try done. inversion HM as [|? t ? ? Hat HM']; subst. inversion HM'; subst. inversion HF as [|v ? ? ? Hv HF']; subst.
  cbn in Hτ. apply bind_Some in Hτ as (_&Hb%assert_Some&[= <-]). destruct (checkMaybe_bv v t Hv Hb) as (w&->&_). by exists a, w.
Qed.

Section sound.
Context `{!Gmp, !GmpLaws, !NodeIds}.

Lemma pow_spec w : 0 ≤ w → Integer.pow 2 w = 2 ^ w.
Proof using Type*. intros. by apply mpz_pow_ui_spec. Qed.

Lemma rewriteBVToInt_ok cs τ : wt (mkNode BITVECTOR_UBV_TO_INT cs) τ → responds (mkNode BITVECTOR_UBV_TO_INT cs) (rewriteBVToInt (mkNode BITVECTOR_UBV_TO_INT cs)).
Proof using Type*.
  intros Hn. destruct (conversion_operand BITVECTOR_UBV_TO_INT cs τ ltac:(done) ltac:(done) Hn) as (a&w&->&->&Ha). unfold rewriteBVToInt. cbn [child children lookup list_lookup mbind option_bind].
  destruct a as [| | |[s v]|k ds]; try by eapply done_ok.
  - apply responds_to. pose proof (wt_bvterm _ _ Ha) as Hb. eapply equiv_int; [exact (int_ubv _ _ _ Hb)|apply int_const|]. intros env Hok. by rewrite (cst_val s v w _ env Hb Hok).
  - destruct k; try by eapply done_ok. destruct (int_to_bv_operand _ _ _ Ha) as (b&->&[= <-]&Hw&Hb). cbn [child children lookup list_lookup mbind option_bind]. apply responds_to.
    rewrite pow_spec by lia. eapply equiv_int; [exact (int_ubv _ _ _ (bv_of_int w b _ Hw (wt_intterm b Hb)))|by apply (int_binary INTS_MODULUS_TOTAL modulus); [..|apply wt_intterm|apply int_const]|].
    intros env Hok. cbv beta. pose proof (pow2_pos w). unfold modulus, wrap. rewrite decide_False by lia. f_equal. lia.
Qed.

Lemma rewriteSBVToInt_ok cs τ : wt (mkNode BITVECTOR_SBV_TO_INT cs) τ → responds (mkNode BITVECTOR_SBV_TO_INT cs) (rewriteSBVToInt (mkNode BITVECTOR_SBV_TO_INT cs)).
Proof using Type*.
  intros Hn. destruct (conversion_operand BITVECTOR_SBV_TO_INT cs τ ltac:(done) ltac:(done) Hn) as (a&w&->&->&Ha). unfold rewriteSBVToInt. cbn [child children lookup list_lookup mbind option_bind].
  pose proof (wt_bvterm _ _ Ha) as Hb. pose proof Hb as (_&Hw&_). rewrite (getSize_term _ _ _ Hb). cbn [mbind option_bind]. rewrite mkZero_ok by lia. cbn [mbind option_bind].
  assert (u32 (w - 1) = w - 1) as -> by (unfold u32, max_uint32 in *; apply Z.mod_small; lia). rewrite pow_spec by lia. apply responds_to.
  eapply equiv_int; [exact (int_sbv _ _ _ Hb)|apply int_ite; [exact (bool_nosign a w _ Hb)|exact (int_ubv _ _ _ Hb)|apply (int_binary SUB Z.sub); [done..|exact (int_ubv _ _ _ Hb)|apply int_const]]|].
  intros env Hok. cbv beta. pose proof (bv_bound _ _ _ env Hb Hok). unfold signed. rewrite msb_spec by lia. case_bool_decide; case_decide; simpl; lia.
Qed.

(** The conversion of a converted bit-vector: the same, padded or cut. *)
Lemma rewriteIntToBV_ok w cs τ : wt (mkNode (INT_TO_BITVECTOR w) cs) τ → responds (mkNode (INT_TO_BITVECTOR w) cs) (rewriteIntToBV (mkNode (INT_TO_BITVECTOR w) cs)).
Proof using Type*.
  intros Hn. pose proof Hn as [Htn _]. destruct (int_to_bv_operand w cs τ Hn) as (a&->&->&Hw&Ha). unfold rewriteIntToBV. cbn [child children lookup list_lookup mbind option_bind].
  pose proof (bv_of_int w a _ Hw (wt_intterm a Ha)) as Hb. destruct a as [| |z| |k ds]; try by eapply done_ok.
  { apply responds_to. rewrite new_eq by lia. eapply equiv_bv; [exact Hb|apply bv_constBV; [lia|apply wrap_bound; lia]|]. intros env Hok _. done. }
  destruct k; try by eapply done_ok. destruct (conversion_operand BITVECTOR_UBV_TO_INT ds _ ltac:(done) ltac:(done) Ha) as (x&v&->&_&Hx).
  cbn [child children lookup list_lookup mbind option_bind]. pose proof (wt_bvterm _ _ Hx) as Hbx. pose proof Hbx as (_&Hv&_). pose proof (bv_of_int w _ _ Hw (int_ubv _ _ _ Hbx)) as Hc.
  rewrite Htn. destruct Hx as [Htx Hcx]. rewrite Htx. cbn [mbind option_bind]. destruct (decide _) as [[= ->]|Hne].
  { apply responds_to. eapply equiv_bv; [exact Hc|exact Hbx|]. intros env Hok _. cbv beta. by rewrite wrap_small by (by apply (bv_bound _ _ _ env Hbx)). }
  cbn [getBitVectorSize mbind option_bind]. destruct (decide (v < w)) as [Hlt|Hge].
  - rewrite mkZero_cst by lia. cbn [mbind option_bind]. apply responds_to. pose proof (bv_concat2 _ _ _ _ _ _ (bv_cst (w - v) 0 ltac:(lia) ltac:(pose proof (pow2_pos (w - v)); lia)) Hbx ltac:(lia)) as Hcc.
    replace (w - v + v) with w in Hcc by lia. eapply equiv_bv; [exact Hc|exact Hcc|]. intros env Hok _. cbv beta. pose proof (bv_bound _ _ _ env Hbx Hok). pose proof (pow2_le v w).
    rewrite wrap_small by lia. lia.
  - assert (w ≠ v) by (by intros ->). rewrite bool_decide_true by lia. cbn [assert mbind option_bind]. apply responds_to.
    pose proof (bv_extract _ _ _ Hbx (w - 1) 0 ltac:(lia) ltac:(lia)) as He. replace (w - 1 - 0 + 1) with w in He by lia.
    eapply equiv_bv; [exact Hc|exact He|]. intros env Hok _. cbv beta. by rewrite Z.div_1_r.
Qed.

(** ** The rewriter *)

Lemma rewriteEqual_responds cs τ rest : wt (mkNode EQUAL cs) τ → responds (mkNode EQUAL cs) rest → responds (mkNode EQUAL cs) (rewriteEqual (mkNode EQUAL cs) rest).
Proof using Type.
  intros Hn Hr. destruct (equal_terms cs τ Hn) as (a&b&t&->&->&Ha&Hb). unfold rewriteEqual. cbn [child children lookup list_lookup mbind option_bind].
  destruct (decide (a = b)) as [->|Hne]; [|destruct (isConst a && isConst b) eqn:Hc; [|done]];
    apply responds_to, equiv_formula; try done; intros env Hok; rewrite (bool_of_equal env Hok _ _ t) by done; cbn.
  - by rewrite bool_decide_true.
  - apply andb_true_iff in Hc as [Hca Hcb]. rewrite bool_decide_false; [done|]. intros E. by apply Hne, (const_values _ _ env).
Qed.

Lemma uf_rewriter_ok n τ : wt n τ → responds n (preRewrite n) ∧ responds n (postRewrite n).
Proof using Type*.
  intros Hn. destruct n as [| | | |k cs]; try (split; by eapply done_ok). destruct k; try (split; by eapply done_ok); cbn [preRewrite postRewrite].
  - split; [by eapply rewriteEqual_responds; [|eapply done_ok]|]. destruct (equal_terms cs τ Hn) as (a&b&t&->&->&Ha&Hb). cbn [child children lookup list_lookup mbind option_bind].
    eapply rewriteEqual_responds; [done|]. destruct (decide _); [|by eapply done_ok]. apply responds_to, equiv_formula; [done|by apply (wt_equal _ _ t)|]. intros env Hok.
    rewrite !(bool_of_equal env Hok _ _ t) by done. by apply bool_decide_ext.
  - split; by eapply rewriteDistinct_ok.
  - split; [by eapply done_ok|by eapply rewriteIntToBV_ok].
  - split; [by eapply done_ok|by eapply rewriteBVToInt_ok].
  - split; [by eapply done_ok|by eapply rewriteSBVToInt_ok].
Qed.

(** C40: the rewriter of functions keeps the meaning of the terms of the model that
    it owns: for every equality, [DISTINCT] and conversion between integers and
    bit-vectors, [preRewrite] and [postRewrite] return, and the term they return
    has the same type and the same value in every valuation.  In particular a
    [DISTINCT] with more operands than its type has values is false, and one of at
    most ten operands is the conjunction of its disequalities.  The rules
    [DISTINCT_FALSE] and [DISTINCT_TRUE], which proofs refer to, keep the meaning
    too. *)
Theorem uf_rewriter_sound n τ : typeOf n = Some τ → concrete n = true →
  (∃ status n', preRewrite n = Some (mkRewriteResponse status n') ∧ typeOf n' = Some τ ∧ ∀ env, env_ok env → eval env n' = eval env n) ∧
  (∃ status n', postRewrite n = Some (mkRewriteResponse status n') ∧ typeOf n' = Some τ ∧ ∀ env, env_ok env → eval env n' = eval env n) ∧
  (∀ n', distinctFalse n = Some n' ∨ distinctTrue n = Some n' → typeOf n' = Some τ ∧ ∀ env, env_ok env → eval env n' = eval env n).
Proof using Type*.
  intros Ht Hc. destruct (uf_rewriter_ok n τ (conj Ht Hc)) as [(s1&n1&E1&Ht1&_&Hv1) (s2&n2&E2&Ht2&_&Hv2)].
  split; [exists s1, n1; split_and!; (done || congruence)|]. split; [exists s2, n2; split_and!; (done || congruence)|].
  intros n' Hn'. assert (isKind DISTINCT n = true) as [cs ->]%isKind_eq by (unfold distinctFalse, distinctTrue in Hn'; destruct (isKind DISTINCT n); [done|by destruct Hn']).
  destruct (distinct_rules_ok cs τ n' (conj Ht Hc) Hn') as (Ht'&_&Hv). split; [congruence|done].
Qed.

End sound.

(** Three bits are not distinct. *)
Lemma uf_rewriter_sound_witness :
  let n := mkNode DISTINCT [mkVar 1 (BITVECTOR_TYPE 1); mkVar 2 (BITVECTOR_TYPE 1); mkVar 3 (BITVECTOR_TYPE 1)] in
  ∃ status n', preRewrite n = Some (mkRewriteResponse status n') ∧ n' = mkConstBool false ∧ ∀ env, env_ok env → eval env n' = eval env n.
Proof.
  intros n. destruct (uf_rewriter_sound (H1:=λ n, Z.of_nat (nsize n)) n BOOLEAN_TYPE eq_refl eq_refl) as [(status&n'&E&_&Hv) _].
  vm_compute in E. injection E as <- <-. eexists _, _. split; [vm_compute; reflexivity|]. split; [reflexivity|exact Hv].
Defined.
