(* ===== verification/Rewriter.v ===== *)
(** [theory/rewriter.cpp]: the driver of the theory rewriters, a machine with an
    explicit stack, and the caches of [theory/rewriter_attributes.h].  Rewriting
    with proofs (a proof generator [tcpg]) is not modelled: [tcpg] is null.

    [assertions] is an assertion build; in a production build the assertions are
    not evaluated. *)
From stdpp Require Import base option list gmap numbers.
From S2P Require Import Prelude Node TypeRules TheoryRewriter.
Open Scope Z_scope.

(** ** Theories *)

(** The theories that own the kinds of the model. *)
Inductive TheoryId := THEORY_BUILTIN | THEORY_BOOL | THEORY_UF | THEORY_ARITH | THEORY_BV.

#[global] Instance TheoryId_eq_dec : EqDecision TheoryId.
Proof. solve_decision. Defined.
#[global] Instance TheoryId_countable : Countable TheoryId.
Proof.
  refine (inj_countable' (λ t, match t with THEORY_BUILTIN => 0 | THEORY_BOOL => 1 | THEORY_UF => 2 | THEORY_ARITH => 3 | THEORY_BV => 4 end%nat)
    (λ n, match n with 0 => THEORY_BUILTIN | 1 => THEORY_BOOL | 2 => THEORY_UF | 3 => THEORY_ARITH | _ => THEORY_BV end%nat) _).
  by intros [].
Defined.

(** [kindToTheoryId], from the [kinds.toml] of the theories. *)
Definition kindToTheoryId (k : Kind) : TheoryId :=
  match k with
  | EQUAL => THEORY_BUILTIN
  | NOT | AND | OR | XOR | IMPLIES | ITE => THEORY_BOOL
  | DISTINCT | BITVECTOR_UBV_TO_INT | BITVECTOR_SBV_TO_INT | INT_TO_BITVECTOR _ => THEORY_UF
  | LT | LEQ | GT | GEQ | SUB | INTS_MODULUS | INTS_MODULUS_TOTAL => THEORY_ARITH
  | _ => THEORY_BV
  end.

(** [Theory::theoryOf] of a type. *)
Definition theoryOfType (t : TypeNode) : TheoryId :=
  match t with BOOLEAN_TYPE => THEORY_BOOL | INTEGER_TYPE => THEORY_ARITH | BITVECTOR_TYPE _ => THEORY_BV | ABSTRACT_TYPE _ => THEORY_UF end.

Definition theoryOf (node : Node) : option TheoryId :=
  match node with
  | mkVar _ _ => Some THEORY_BUILTIN
  | mkConstBool _ => Some THEORY_BOOL
  | mkConstInt _ => Some THEORY_ARITH
  | mkConstBV _ => Some THEORY_BV
  | mkNode EQUAL cs => c ← cs !! 0%nat; t ← typeOf c; Some (theoryOfType t)
  | mkNode k _ => Some (kindToTheoryId k)
  end.

(** [a.getKind() == b.getKind()]: the payload of an operator is not part of it. *)
Definition sameKind (a b : Node) : bool :=
  match a, b with
  | mkVar _ _, mkVar _ _ | mkConstBool _, mkConstBool _ | mkConstInt _, mkConstInt _ | mkConstBV _, mkConstBV _ => true
  | mkNode k _, mkNode k' _ => bool_decide ((Kind_code k).1.1 = (Kind_code k').1.1)
  | _, _ => false
  end.

(** ** The stack *)

Inductive State := PRE_REWRITE | REWRITE_CHILDREN | POST_REWRITE | WAIT_FOR_FULL_REWRITE | FINALIZE.

Record RewriteStackElement := mkElement {
  d_node : Node;
  d_original : Node;
  d_fullRewriteNode : option Node;
  d_theoryId : TheoryId;
  d_originalTheoryId : TheoryId;
  d_state : State;
  d_nextChild : nat;
  d_builder : list Node;
}.

Definition newElement (node : Node) (theoryId : TheoryId) : RewriteStackElement :=
  mkElement node node None theoryId theoryId PRE_REWRITE 0 [].

(** The caches, and the nodes that are being rewritten in full (assertion
    builds).  A cached node that is the key itself is stored as the null node;
    the maps hold what is read back. *)
Record Caches := mkCaches {
  preRewriteCache : gmap (TheoryId * Node) Node;
  postRewriteCache : gmap (TheoryId * Node) Node;
  d_rewriteStack : gset Node;
}.

Definition getPreRewriteCache (t : TheoryId) (node : Node) (c : Caches) : option Node := preRewriteCache c !! (t, node).
Definition getPostRewriteCache (t : TheoryId) (node : Node) (c : Caches) : option Node := postRewriteCache c !! (t, node).
Definition setPreRewriteCache (t : TheoryId) (node cache : Node) (c : Caches) : Caches :=
  mkCaches (<[(t, node) := cache]> (preRewriteCache c)) (postRewriteCache c) (d_rewriteStack c).
Definition setPostRewriteCache (t : TheoryId) (node cache : Node) (c : Caches) : Caches :=
  mkCaches (preRewriteCache c) (<[(t, node) := cache]> (postRewriteCache c)) (d_rewriteStack c).

Section rewriter.
Context (assertions : bool) (d_theoryRewriters : TheoryId → TheoryRewriter).

(** [Assert]. *)
Definition check (b : bool) : Outcome unit := if assertions && negb b then Fails else Returns tt.

Definition preRewrite (t : TheoryId) (n : Node) : option RewriteResponse := tr_preRewrite (d_theoryRewriters t) n.
Definition postRewrite (t : TheoryId) (n : Node) : option RewriteResponse := tr_postRewrite (d_theoryRewriters t) n.

(** [a.getType().isComparableTo(b.getType())]. *)
Definition sameType (a b : Node) : bool :=
  match typeOf a, typeOf b with Some ta, Some tb => isComparableTo ta tb | _, _ => false end.

(** ** Pre-rewriting *)

(** The loop of [PRE_REWRITE]: the node and its theory. *)
Fixpoint preRewriteLoop (fuel : nat) (t : TheoryId) (node : Node) : Outcome (Node * TheoryId) :=
  match fuel with
  | O => OutOfFuel
  | S fuel =>
      response ← attempt (preRewrite t node);
      let newNode := TheoryRewriter.d_node response in
      newTheory ← attempt (theoryOf newNode);
      _ ← check (sameType newNode newNode);
      if (sameKind node newNode && bool_decide (d_status response = REWRITE_DONE)) || bool_decide (getNumChildren newNode = 0%nat) then
        _ ← (if assertions then
               again ← attempt (preRewrite newTheory newNode);
               check (bool_decide (newNode = TheoryRewriter.d_node again))
             else Returns tt);
        Returns (newNode, newTheory)
      else preRewriteLoop fuel newTheory newNode
  end.

(** The state [PRE_REWRITE]. *)
Definition stepPre (fuel : nat) (top : RewriteStackElement) (c : Caches) : Outcome (RewriteStackElement * Caches) :=
  '(node, t, c) ← match getPreRewriteCache (d_theoryId top) (d_node top) c with
    | None =>
        '(node, t) ← preRewriteLoop fuel (d_theoryId top) (d_node top);
        Returns (node, t, setPreRewriteCache (d_originalTheoryId top) (d_original top) node c)
    | Some cached => t ← attempt (theoryOf cached); Returns (cached, t, c)
    end;
  match getPostRewriteCache t node c with
  | Some cached =>
      t' ← attempt (theoryOf cached);
      Returns (mkElement cached node (d_fullRewriteNode top) t' (d_originalTheoryId top) FINALIZE (d_nextChild top) (d_builder top), c)
  | None =>
      Returns (mkElement node node (d_fullRewriteNode top) t (d_originalTheoryId top) REWRITE_CHILDREN (d_nextChild top) (d_builder top), c)
  end.

(** ** Children *)

(** The node of the builder: its kind with the operator, and the children. *)
Definition build (node : Node) (cs : list Node) : Node :=
  match node with mkNode k _ => mkNode k cs | _ => node end.

Definition set_builder (e : RewriteStackElement) (cs : list Node) : RewriteStackElement :=
  mkElement (d_node e) (d_original e) (d_fullRewriteNode e) (d_theoryId e) (d_originalTheoryId e) (d_state e) (d_nextChild e) cs.
Definition set_nextChild (e : RewriteStackElement) (i : nat) : RewriteStackElement :=
  mkElement (d_node e) (d_original e) (d_fullRewriteNode e) (d_theoryId e) (d_originalTheoryId e) (d_state e) i (d_builder e).
Definition set_node (e : RewriteStackElement) (n : Node) (t : TheoryId) (s : State) : RewriteStackElement :=
  mkElement n (d_original e) (d_fullRewriteNode e) t (d_originalTheoryId e) s (d_nextChild e) (d_builder e).
Definition set_full (e : RewriteStackElement) (n : Node) : RewriteStackElement :=
  mkElement (d_node e) (d_original e) (Some n) (d_theoryId e) (d_originalTheoryId e) WAIT_FOR_FULL_REWRITE (d_nextChild e) (d_builder e).
Definition end_full (e : RewriteStackElement) (n : Node) (t : TheoryId) : RewriteStackElement :=
  mkElement n (d_original e) None t (d_originalTheoryId e) POST_REWRITE (d_nextChild e) (d_builder e).

(** The state [REWRITE_CHILDREN]: the elements that replace the top. *)
Definition stepChildren (top : RewriteStackElement) (c : Caches) : Outcome (list RewriteStackElement) :=
  match child (d_node top) (d_nextChild top) with
  | Some childNode =>
      childTheory ← attempt (theoryOf childNode);
      let top := set_nextChild top (S (d_nextChild top)) in
      match getPostRewriteCache childTheory childNode c with
      | Some childCached => Returns [set_builder top (d_builder top ++ [childCached])]
      | None => Returns [newElement childNode childTheory; top]
      end
  | None =>
      if decide (0 < getNumChildren (d_node top))%nat then
        let node := build (d_node top) (d_builder top) in
        t ← attempt (theoryOf node);
        Returns [set_node top node t POST_REWRITE]
      else Returns [set_node top (d_node top) (d_theoryId top) POST_REWRITE]
  end.

(** ** Post-rewriting *)

(** How the loop of [POST_REWRITE] ends: with a node to rewrite in full (the
    node that was rewritten comes first), or with the result. *)
Inductive PostResult := FullRewrite (t : TheoryId) (node : Node) (newNode : Node) (newTheory : TheoryId) | Final (newNode : Node) (newTheory : TheoryId).

Fixpoint postRewriteLoop (fuel : nat) (t : TheoryId) (node : Node) : Outcome PostResult :=
  match fuel with
  | O => OutOfFuel
  | S fuel =>
      response ← attempt (postRewrite t node);
      let newNode := TheoryRewriter.d_node response in
      newTheoryId ← attempt (theoryOf newNode);
      _ ← check (sameType newNode node);
      if negb (bool_decide (newTheoryId = t)) || bool_decide (d_status response = REWRITE_AGAIN_FULL) then
        _ ← check (negb (bool_decide (newNode = node)));
        Returns (FullRewrite t node newNode newTheoryId)
      else if (bool_decide (d_status response = REWRITE_DONE) && sameKind node newNode) || bool_decide (getNumChildren newNode = 0%nat) then
        _ ← (if assertions then
               r2 ← attempt (postRewrite newTheoryId newNode);
               check (bool_decide (TheoryRewriter.d_node r2 = newNode))
             else Returns tt);
        Returns (Final newNode newTheoryId)
      else
        _ ← check (negb (bool_decide (newNode = node)));
        _ ← (if assertions then
               r2 ← attempt (postRewrite t newNode);
               check (negb (bool_decide (TheoryRewriter.d_node r2 = node)))
             else Returns tt);
        postRewriteLoop fuel newTheoryId newNode
  end.

(** The state [POST_REWRITE]. *)
Definition stepPost (fuel : nat) (top : RewriteStackElement) (c : Caches) : Outcome (list RewriteStackElement * Caches) :=
  r ← postRewriteLoop fuel (d_theoryId top) (d_node top);
  match r with
  | FullRewrite t node newNode newTheory =>
      _ ← check (negb (bool_decide (newNode ∈ d_rewriteStack c)));
      let c := if assertions then mkCaches (preRewriteCache c) (postRewriteCache c) ({[newNode]} ∪ d_rewriteStack c) else c in
      Returns ([newElement newNode newTheory; set_full (set_node top node t POST_REWRITE) newNode], c)
  | Final newNode newTheory => Returns ([set_node top newNode newTheory FINALIZE], c)
  end.

(** ** The machine *)

(** [isEquality] of [rewriteTo]. *)
Definition isEquality (node : Node) : bool :=
  match node with
  | mkNode EQUAL [a; b] => negb (bool_decide (typeOf a = Some BOOLEAN_TYPE)) && negb (bool_decide (typeOf b = Some BOOLEAN_TYPE))
  | _ => false
  end.

Definition isEqualNode (n : Node) : bool := match n with mkNode EQUAL _ => true | _ => false end.

(** The state [FINALIZE]: the result ([inr]) or the stack. *)
Definition stepFinalize (node : Node) (top : RewriteStackElement) (rest : list RewriteStackElement) (c : Caches) :
    Outcome (list RewriteStackElement * Caches + Node * Caches) :=
  let c := setPostRewriteCache (d_originalTheoryId top) (d_original top) (d_node top) c in
  match rest with
  | [] =>
      _ ← check (negb (isEquality node) || isEqualNode (d_node top) || isConst (d_node top));
      _ ← check (sameType (d_node top) node);
      Returns (inr (d_node top, c))
  | parent :: rest =>
      match d_state parent with
      | WAIT_FOR_FULL_REWRITE =>
          let c := match d_fullRewriteNode parent with
                   | Some n => mkCaches (preRewriteCache c) (postRewriteCache c) (d_rewriteStack c ∖ {[n]})
                   | None => c
                   end in
          t ← attempt (theoryOf (d_node top));
          Returns (inl (end_full parent (d_node top) t :: rest, c))
      | _ => Returns (inl (set_builder parent (d_builder parent ++ [d_node top]) :: rest, c))
      end
  end.

(** One iteration of the loop of [rewriteTo]. *)
Definition step (fuel : nat) (node : Node) (stack : list RewriteStackElement) (c : Caches) :
    Outcome (list RewriteStackElement * Caches + Node * Caches) :=
  match stack with
  | [] => Fails
  | top :: rest =>
      match d_state top with
      | PRE_REWRITE => '(top, c) ← stepPre fuel top c; Returns (inl (top :: rest, c))
      | REWRITE_CHILDREN => es ← stepChildren top c; Returns (inl (es ++ rest, c))
      | POST_REWRITE => '(es, c) ← stepPost fuel top c; Returns (inl (es ++ rest, c))
      | FINALIZE => stepFinalize node top rest c
      | WAIT_FOR_FULL_REWRITE => Fails
      end
  end.

Fixpoint rewriteLoop (fuel : nat) (node : Node) (stack : list RewriteStackElement) (c : Caches) : Outcome (Node * Caches) :=
  match fuel with
  | O => OutOfFuel
  | S fuel =>
      r ← step fuel node stack c;
      match r with
      | inr result => Returns result
      | inl (stack, c) => rewriteLoop fuel node stack c
      end
  end.

Definition rewriteTo (fuel : nat) (theoryId : TheoryId) (node : Node) (c : Caches) : Outcome (Node * Caches) :=
  match getPostRewriteCache theoryId node c with
  | Some cached => Returns (cached, c)
  | None => rewriteLoop fuel node [newElement node theoryId] c
  end.

(** [Rewriter::rewrite]. *)
Definition rewrite (fuel : nat) (node : Node) (c : Caches) : Outcome (Node * Caches) :=
  if decide (getNumChildren node = 0%nat) then Returns (node, c)
  else t ← attempt (theoryOf node); rewriteTo fuel t node c.

End rewriter.
