(* ===== verification/RewriterSound.v ===== *)
(** The driver of the rewriters: it keeps types and values, and it terminates if
    the answers of the theories get smaller.  Every run that returns has a result of the same
    type and the same value, whatever the theories are, as long as their answers
    can stand for what they were asked about. *)
From stdpp Require Import base option list gmap numbers.
From S2P Require Import Prelude Node TypeRules Semantics TypeSound BvElim BvTerms TheoryRewriter BoolTerms Rewriter.
Open Scope Z_scope.

(** ** Terms that stand for terms *)

(** [n] can replace [g] anywhere; an integer constant, which may be part of the
    type of its parent, stays. *)
Definition stands (g n : Node) : Prop := (∃ τ, wt g τ) ∧ equiv g n ∧ ∀ z, g = mkConstInt z → n = g.

Lemma stands_refl g τ : wt g τ → stands g g.
Proof. intros Hg. split_and!; [by exists τ|by eapply equiv_refl|done]. Qed.

Lemma stands_wt g n : stands g n → ∃ τ, wt g τ ∧ wt n τ.
Proof. intros ([τ Hg]&He&_). exists τ. split; [done|]. by eapply equiv_wt. Qed.

Lemma stands_self g n : stands g n → stands n n.
Proof. intros (τ&_&Hn)%stands_wt. by eapply stands_refl. Qed.

Lemma stands_trans a b c : stands a b → stands b c → stands a c.
Proof.
  intros (Ha&He&Hz) (_&He'&Hz'). split_and!; [done|by eapply equiv_trans|]. intros z ->. specialize (Hz z eq_refl). subst b. by apply (Hz' z).
Qed.

Lemma stands_children k cs ds τ : wt (mkNode k cs) τ → Forall2 stands cs ds → stands (mkNode k cs) (mkNode k ds).
Proof.
  intros Hn HF. split_and!; [by exists τ| |done]. eapply equiv_children; [done|eapply Forall2_impl; [|exact HF]; by intros ? ? (_&?&_)|].
  intros z Hz. destruct (Forall2_lookup_l _ _ _ _ _ HF Hz) as (d&Hd&(_&_&Hc)). by rewrite Hd, (Hc z eq_refl).
Qed.

(** What a theory promises: an answer to a typed term of the theory stands for
    it. *)
Class TheoryRewriters (tr : TheoryId → TheoryRewriter) : Prop := {
  pre_stands t n r : stands n n → theoryOf n = Some t → tr_preRewrite (tr t) n = Some r → stands n (TheoryRewriter.d_node r);
  post_stands t n r : stands n n → theoryOf n = Some t → tr_postRewrite (tr t) n = Some r → stands n (TheoryRewriter.d_node r);
}.

Section sound.
Context (assertions : bool) (tr : TheoryId → TheoryRewriter) `{!TheoryRewriters tr}.

Ltac outcomes :=
  repeat match goal with
  | H : _ ≫= _ = Returns _ |- _ => apply bind_Returns in H as (?&?&?)
  | H : attempt _ = Returns _ |- _ => apply attempt_Returns in H
  | H : Returns _ = Returns _ |- _ => injection H as H
  end.

(** ** The loops *)

Lemma preRewriteLoop_sound fuel : ∀ t n m t', stands n n → theoryOf n = Some t → preRewriteLoop assertions tr fuel t n = Returns (m, t') →
  stands n m ∧ theoryOf m = Some t'.
Proof using Type*.
  induction fuel as [|fuel IH]; intros t n m t' Hn Ht E; [done|]. cbn [preRewriteLoop] in E. outcomes.
  match goal with H : preRewrite _ _ _ = Some ?r |- _ => pose proof (pre_stands t n r Hn Ht H) as Hs end.
  destruct (_ || _); outcomes; [by simplify_eq|].
  match goal with H : preRewriteLoop _ _ _ _ _ = _ |- _ => apply IH in H as [Hs' Ht'] end; [|by eapply stands_self|done].
  split; [by eapply stands_trans|done].
Qed.

Lemma postRewriteLoop_sound fuel : ∀ t n r, stands n n → theoryOf n = Some t → postRewriteLoop assertions tr fuel t n = Returns r →
  match r with
  | FullRewrite t' n' m tm => stands n n' ∧ theoryOf n' = Some t' ∧ stands n' m ∧ theoryOf m = Some tm
  | Final m tm => stands n m ∧ theoryOf m = Some tm
  end.
Proof using Type*.
  induction fuel as [|fuel IH]; intros t n res Hn Ht E; [done|]. cbn [postRewriteLoop] in E. outcomes.
  match goal with H : postRewrite _ _ _ = Some ?r |- _ => pose proof (post_stands t n r Hn Ht H) as Hs end.
  destruct (negb _ || _); [outcomes; by simplify_eq|]. destruct (_ && _ || _); outcomes; [by simplify_eq|].
  match goal with H : postRewriteLoop _ _ _ _ _ = _ |- _ => apply IH in H end; [|by eapply stands_self|done].
  destruct res as [t1 n1 m1 tm1|m1 tm1].
  - match goal with H : _ ∧ _ |- _ => destruct H as (?&?&?&?) end. split_and!; try done. by eapply stands_trans.
  - match goal with H : _ ∧ _ |- _ => destruct H as (?&?) end. split; [by eapply stands_trans|done].
Qed.

(** ** The invariant *)

Definition caches_ok (c : Caches) : Prop :=
  ∀ t m r, preRewriteCache c !! (t, m) = Some r ∨ postRewriteCache c !! (t, m) = Some r → stands m r.

(** An element of the stack that was pushed for [g]. *)
Definition element_ok (g : Node) (e : RewriteStackElement) : Prop :=
  stands g (d_original e) ∧ stands (d_original e) (d_node e) ∧ theoryOf (d_node e) = Some (d_theoryId e) ∧
  match d_state e with
  | PRE_REWRITE => d_original e = g ∧ d_node e = g ∧ d_nextChild e = 0%nat ∧ d_builder e = []
  | REWRITE_CHILDREN => Forall2 stands (take (length (d_builder e)) (children (d_node e))) (d_builder e)
  | _ => True
  end.

(** It is not waiting. *)
Definition ready (e : RewriteStackElement) : Prop :=
  match d_state e with WAIT_FOR_FULL_REWRITE => False | REWRITE_CHILDREN => d_nextChild e = length (d_builder e) | _ => True end.

(** It is waiting for [g]. *)
Definition waits (p : RewriteStackElement) (g : Node) : Prop :=
  match d_state p with
  | WAIT_FOR_FULL_REWRITE => stands (d_node p) g
  | REWRITE_CHILDREN => d_nextChild p = S (length (d_builder p)) ∧ child (d_node p) (length (d_builder p)) = Some g
  | _ => False
  end.

(** The elements below one that was pushed for [g]. *)
Fixpoint frames_ok (node g : Node) (rest : list RewriteStackElement) : Prop :=
  match rest with
  | [] => g = node
  | p :: rest => ∃ gp, element_ok gp p ∧ waits p g ∧ frames_ok node gp rest
  end.

Definition stack_ok (node : Node) (stack : list RewriteStackElement) : Prop :=
  match stack with [] => False | top :: rest => ∃ g, element_ok g top ∧ ready top ∧ frames_ok node g rest end.

Lemma new_ok n t : stands n n → theoryOf n = Some t → element_ok n (newElement n t) ∧ ready (newElement n t).
Proof using Type. intros Hn Ht. split; [|done]. by split_and!. Qed.

Lemma child_stands n τ i c : wt n τ → child n i = Some c → stands c c.
Proof using Type.
  intros [Ht Hc] Hi. destruct n as [| | | |k cs]; try done. destruct (node_inv k cs τ Ht Hc) as (_&_&_&Hcs&ts&HM&_). apply children_wt in HM; [|done].
  destruct (Forall2_lookup_l _ _ _ _ _ HM Hi) as (t&_&Hw). by eapply stands_refl.
Qed.

Lemma stepPre_sound fuel top c rest node top' c' : stack_ok node (top :: rest) → caches_ok c → d_state top = PRE_REWRITE →
  stepPre assertions tr fuel top c = Returns (top', c') → stack_ok node (top' :: rest) ∧ caches_ok c'.
Proof using Type*.
  intros (g&(Hg&Hon&Ht&Hst)&_&Hf) Hc Es E. rewrite Es in Hst. destruct top as [n0 o0 f0 t0 ot0 st0 nx0 b0]. cbn in Hg, Hon, Ht, Hst, Es. destruct Hst as (->&->&->&->).
  unfold stepPre in E. cbn in E. apply bind_Returns in E as ([[m t] c1]&E1&E). assert (stands g m ∧ theoryOf m = Some t ∧ caches_ok c1) as (Hm&Htm&Hc1).
  { destruct (getPreRewriteCache _ _ _) as [cached|] eqn:Ec; outcomes; simplify_eq.
    - split_and!; [|done|done]. apply (Hc t0). by left.
    - destruct x as [m1 t1]. outcomes. simplify_eq. match goal with H : preRewriteLoop _ _ _ _ _ = _ |- _ => apply preRewriteLoop_sound in H as [? ?] end; [|done|done].
      split_and!; [done|done|]. intros t' m' r'. cbn. intros [Hr|Hr]; [|by eapply Hc; right].
      destruct (decide ((t', m') = (ot0, g))) as [[= -> ->]|Hne]; [rewrite lookup_insert_eq in Hr; by injection Hr as <-|].
      rewrite lookup_insert_ne in Hr by done. by eapply Hc; left. }
  pose proof (stands_self _ _ Hm) as Hmm. destruct (getPostRewriteCache t m c1) as [cached|] eqn:Ec; outcomes; simplify_eq.
  - split; [|done]. exists g. split_and!; [|done|done]. split_and!; try done. cbn. apply (Hc1 t). by right.
  - split; [|done]. exists g. split_and!; [|done|done]. split_and!; try done. constructor.
Qed.

Lemma take_S_snoc {A} (l : list A) i x : l !! i = Some x → take (S i) l = take i l ++ [x].
Proof using Type. apply take_S_r. Qed.

Lemma element_child g p c m : element_ok g p → d_state p = REWRITE_CHILDREN → child (d_node p) (length (d_builder p)) = Some c → stands c m →
  Forall2 stands (take (length (d_builder p ++ [m])) (children (d_node p))) (d_builder p ++ [m]).
Proof using Type.
  intros (_&_&_&Hst) Es Hc Hm. rewrite Es in Hst. rewrite length_app, Nat.add_1_r. rewrite (take_S_snoc _ _ _ Hc). apply Forall2_app; [done|]. by constructor.
Qed.

Lemma stepChildren_sound top c rest node es : stack_ok node (top :: rest) → caches_ok c → d_state top = REWRITE_CHILDREN →
  stepChildren top c = Returns es → stack_ok node (es ++ rest).
Proof using Type.
  intros (g&He&Hr&Hf) Hc Es E. pose proof He as (Hg&Hon&Ht&Hst). unfold ready in Hr. rewrite Es in Hst, Hr. unfold stepChildren in E.
  destruct (stands_wt _ _ (stands_self _ _ Hon)) as (τ&_&Hw). destruct (child _ _) as [c0|] eqn:Ech.
  - outcomes. pose proof (child_stands _ _ _ _ Hw Ech) as Hc0. rewrite Hr in Ech. destruct (getPostRewriteCache _ _ _) as [cached|] eqn:Ec; outcomes; subst es.
    + exists g. split_and!; [|unfold ready; cbn; rewrite Es, length_app; simpl; lia|done]. split_and!; cbn; try done. rewrite Es. eapply element_child; try done. eapply Hc. by right.
    + exists c0. destruct (new_ok c0 x Hc0 ltac:(done)) as [Hnew Hrd]. split_and!; [done..|]. exists g. split_and!; [|unfold waits; cbn; rewrite Es; by rewrite Hr|done].
      split_and!; cbn; try done. by rewrite Es.
  - destruct (decide _) as [Hlt|Hge]; outcomes; subst es.
    + exists g. split_and!; [|done|done]. split_and!; cbn; try done. destruct (d_node top) as [| | | |k cs] eqn:En; try (cbn in Hlt; lia). cbn [build children] in *.
      eapply stands_trans; [exact Hon|]. eapply stands_children; [exact Hw|]. unfold child in Ech. cbn in Ech. rewrite Hr in Ech. apply lookup_ge_None in Ech.
      by rewrite take_ge in Hst.
    + exists g. split_and!; [|done|done]. by split_and!.
Qed.

Lemma stepPost_sound fuel top c rest node es c' : stack_ok node (top :: rest) → caches_ok c → d_state top = POST_REWRITE →
  stepPost assertions tr fuel top c = Returns (es, c') → stack_ok node (es ++ rest) ∧ caches_ok c'.
Proof using Type*.
  intros (g&(Hg&Hon&Ht&_)&_&Hf) Hc Es E. unfold stepPost in E. outcomes.
  match goal with H : postRewriteLoop _ _ _ _ _ = _ |- _ => apply postRewriteLoop_sound in H end; [|by eapply stands_self|done].
  destruct x as [t n m tm|m tm]; outcomes; simplify_eq.
  - match goal with H : _ ∧ _ |- _ => destruct H as (Hn'&Ht'&Hm&Htm) end. split; [|by destruct assertions].
    exists m. destruct (new_ok m tm (stands_self _ _ Hm) Htm) as [Hnew Hrd]. split_and!; [done..|]. exists g. split_and!; [|done|done]. split_and!; cbn; try done. by eapply stands_trans.
  - match goal with H : _ ∧ _ |- _ => destruct H as (Hm&Htm) end. split; [|done]. exists g. split_and!; [|done|done]. split_and!; cbn; try done. by eapply stands_trans.
Qed.

Lemma stepFinalize_sound node top rest c r : stack_ok node (top :: rest) → caches_ok c → stepFinalize assertions node top rest c = Returns r →
  match r with inl (stack, c') => stack_ok node stack ∧ caches_ok c' | inr (n, c') => stands node n ∧ caches_ok c' end.
Proof using Type.
  intros (g&(Hg&Hon&Ht&_)&_&Hf) Hc E. unfold stepFinalize in E. set (c1 := setPostRewriteCache _ _ _ c) in *.
  assert (caches_ok c1) as Hc1.
  { intros t m n. cbn. intros [Hr|Hr]; [by eapply Hc; left|]. destruct (decide ((t, m) = (d_originalTheoryId top, d_original top))) as [[= -> ->]|Hne].
    - rewrite lookup_insert_eq in Hr. by injection Hr as <-.
    - rewrite lookup_insert_ne in Hr by done. by eapply Hc; right. }
  pose proof (stands_trans _ _ _ Hg Hon) as Hgn. destruct rest as [|p rest]; [outcomes; subst r; cbn in Hf; by subst g|].
  destruct Hf as (gp&Hep&Hw&Hf). unfold waits in Hw. destruct (d_state p) eqn:Ep; try done; outcomes; subst r.
  - split; [|done]. exists gp. destruct Hw as [Hnext Hch]. split_and!; [|unfold ready; cbn; rewrite Ep, length_app; simpl; lia|done]. pose proof Hep as (?&?&?&_). split_and!; cbn; try done.
    rewrite Ep. by eapply element_child.
  - split; [|by destruct (d_fullRewriteNode p)]. exists gp. destruct Hep as (Hg'&Hon'&_&_). split_and!; [|done|done]. split_and!; cbn; try done.
    eapply stands_trans; [exact Hon'|]. by eapply stands_trans.
Qed.

Lemma rewriteLoop_sound fuel : ∀ node stack c n c', stack_ok node stack → caches_ok c → rewriteLoop assertions tr fuel node stack c = Returns (n, c') →
  stands node n ∧ caches_ok c'.
Proof using Type*.
  induction fuel as [|fuel IH]; intros node stack c n c' Hs Hc E; [done|]. cbn [rewriteLoop] in E. apply bind_Returns in E as (r&Er&E).
  assert (match r with inl (stack, c') => stack_ok node stack ∧ caches_ok c' | inr (n, c') => stands node n ∧ caches_ok c' end) as Hr.
  { unfold step in Er. destruct stack as [|top rest]; [done|]. destruct (d_state top) eqn:Es; outcomes.
    - destruct x as [top' c1]. outcomes. subst r. by eapply stepPre_sound.
    - subst r. split; [by eapply stepChildren_sound|done].
    - destruct x as [es c1]. outcomes. subst r. by eapply stepPost_sound.
    - done.
    - by eapply stepFinalize_sound. }
  destruct r as [[stack' c1]|[n1 c1]]; [destruct Hr; by eapply IH|]. by injection E as <- <-.
Qed.

Lemma rewrite_sound fuel n τ c n' c' : wt n τ → caches_ok c → rewrite assertions tr fuel n c = Returns (n', c') → stands n n' ∧ caches_ok c'.
Proof using Type*.
  intros Hn Hc E. unfold rewrite in E. pose proof (stands_refl _ _ Hn) as Hs. destruct (decide _); [by injection E as <- <-|]. outcomes. unfold rewriteTo in *.
  destruct (getPostRewriteCache _ _ _) as [cached|] eqn:Ec; [outcomes; simplify_eq; split; [eapply Hc; by right|done]|].
  eapply rewriteLoop_sound; [|exact Hc|done]. exists n. destruct (new_ok n x Hs) as [? ?]; [done|]. by split_and!.
Qed.

End sound.

(** * Termination of the driver: if every answer of a theory is the term itself or
    a smaller one, for a well-founded order that is compatible with the
    structure of terms, then rewriting returns.  The loop itself adds no way to
    run forever. *)

Section termination.
Context (tr : TheoryId → TheoryRewriter) (D : Node → Prop) (lt : Node → Node → Prop).

Definition le (a b : Node) : Prop := a = b ∨ lt a b.

(** The answer to [n] is [n], and the theory is done with it, or it is smaller. *)
Definition descends (n : Node) (r : option RewriteResponse) : Prop :=
  ∃ status n', r = Some (mkRewriteResponse status n') ∧ D n' ∧ (n' = n ∧ status = REWRITE_DONE ∨ lt n' n).

(** [D]: the terms that are rewritten. *)
Class ReductionOrder : Prop := {
  lt_wf : well_founded lt;
  lt_trans a b c : lt a b → lt b c → lt a c;
  D_theory n : D n → ∃ t, theoryOf n = Some t;
  D_pre n t : D n → theoryOf n = Some t → descends n (tr_preRewrite (tr t) n);
  D_post n t : D n → theoryOf n = Some t → descends n (tr_postRewrite (tr t) n);
  D_child k cs c : D (mkNode k cs) → c ∈ cs → D c ∧ lt c (mkNode k cs);
  D_build k cs ds : D (mkNode k cs) → Forall2 (λ c d, D d ∧ le d c) cs ds → D (mkNode k ds) ∧ le (mkNode k ds) (mkNode k cs);
}.
Context `{!ReductionOrder}.

Lemma le_trans a b c : le a b → le b c → le a c.
Proof using Type*. intros [->|?] [->|?]; [by left|by right|by right|right; by eapply lt_trans]. Qed.
Lemma lt_le_trans a b c : lt a b → le b c → lt a c.
Proof using Type*. intros ? [->|?]; [done|by eapply lt_trans]. Qed.
Lemma le_lt_trans a b c : le a b → lt b c → lt a c.
Proof using Type*. intros [->|?] ?; [done|by eapply lt_trans]. Qed.
Lemma le_refl a : le a a.
Proof using Type. by left. Qed.

Lemma sameKind_refl n : sameKind n n = true.
Proof using Type. destruct n; try done. by apply bool_decide_eq_true. Qed.

(** ** The loops *)

Lemma preRewriteLoop_returns n : D n → ∀ t, theoryOf n = Some t →
  ∃ F m t', D m ∧ le m n ∧ theoryOf m = Some t' ∧ ∀ fuel, (F ≤ fuel)%nat → preRewriteLoop false tr fuel t n = Returns (m, t').
Proof using Type*.
  induction (lt_wf n) as [n _ IH]. intros Hn t Ht. destruct (D_pre n t Hn Ht) as (status&n'&E&Hn'&Hlt). destruct (D_theory n' Hn') as [t' Ht'].
  destruct ((sameKind n n' && bool_decide (status = REWRITE_DONE)) || bool_decide (getNumChildren n' = 0%nat)) eqn:Eb.
  - exists 1%nat, n', t'. split_and!; [done|by destruct Hlt as [[-> _]|?]; [left|right]|done|]. intros [|fuel] Hf; [lia|]. cbn [preRewriteLoop]. unfold preRewrite. rewrite E. cbn.
    rewrite Ht'. cbn. by rewrite Eb.
  - destruct Hlt as [[-> ->]|Hlt]; [by rewrite sameKind_refl in Eb|]. destruct (IH n' Hlt Hn' t' Ht') as (F&m&t''&Hm&Hle&Htm&HF). exists (S F), m, t''.
    split_and!; [done|eapply le_trans; [exact Hle|by right]|done|]. intros [|fuel] Hf; [lia|]. cbn [preRewriteLoop]. unfold preRewrite. rewrite E. cbn.
    rewrite Ht'. cbn. rewrite Eb. apply HF. lia.
Qed.

Definition post_ok (n : Node) (r : PostResult) : Prop :=
  match r with
  | FullRewrite t n1 m tm => D n1 ∧ le n1 n ∧ theoryOf n1 = Some t ∧ D m ∧ lt m n1 ∧ theoryOf m = Some tm
  | Final m tm => D m ∧ le m n ∧ theoryOf m = Some tm
  end.

Lemma postRewriteLoop_returns n : D n → ∀ t, theoryOf n = Some t →
  ∃ F r, post_ok n r ∧ ∀ fuel, (F ≤ fuel)%nat → postRewriteLoop false tr fuel t n = Returns r.
Proof using Type*.
  induction (lt_wf n) as [n _ IH]. intros Hn t Ht. destruct (D_post n t Hn Ht) as (status&n'&E&Hn'&Hlt). destruct (D_theory n' Hn') as [t' Ht'].
  assert (le n' n) as Hle by (destruct Hlt as [[-> _]|?]; [by left|by right]).
  destruct (negb (bool_decide (t' = t)) || bool_decide (status = REWRITE_AGAIN_FULL)) eqn:Ef.
  { exists 1%nat, (FullRewrite t n n' t'). split.
    - destruct Hlt as [[-> ->]|Hlt]; [|by split_and!; [|left|..]]. rewrite Ht in Ht'. injection Ht' as <-. by rewrite bool_decide_true in Ef.
    - intros [|fuel] Hf; [lia|]. cbn [postRewriteLoop]. unfold postRewrite. rewrite E. cbn. rewrite Ht'. cbn. by rewrite Ef. }
  destruct (bool_decide (status = REWRITE_DONE) && sameKind n n' || bool_decide (getNumChildren n' = 0%nat)) eqn:Eb.
  - exists 1%nat, (Final n' t'). split; [done|]. intros [|fuel] Hf; [lia|]. cbn [postRewriteLoop]. unfold postRewrite. rewrite E. cbn. rewrite Ht'. cbn. by rewrite Ef, Eb.
  - destruct Hlt as [[-> ->]|Hlt]; [by rewrite sameKind_refl in Eb|]. destruct (IH n' Hlt Hn' t' Ht') as (F&r&Hr&HF). exists (S F), r. split.
    + destruct r as [t1 n1 m tm|m tm]; [destruct Hr as (?&?&?&?&?&?)|destruct Hr as (?&?&?)]; split_and!; try done; by eapply le_trans.
    + intros [|fuel] Hf; [lia|]. cbn [postRewriteLoop]. unfold postRewrite. rewrite E. cbn. rewrite Ht'. cbn. rewrite Ef, Eb. apply HF. lia.
Qed.

(** ** Runs *)

Definition reaches (node : Node) (stack : list RewriteStackElement) (c : Caches) (stack' : list RewriteStackElement) (c' : Caches) : Prop :=
  ∃ k F, ∀ fuel, (F ≤ fuel)%nat → rewriteLoop false tr (k + fuel) node stack c = rewriteLoop false tr fuel node stack' c'.

Lemma reaches_refl node stack c : reaches node stack c stack c.
Proof using Type. by exists 0%nat, 0%nat. Qed.

Lemma reaches_trans node s1 c1 s2 c2 s3 c3 : reaches node s1 c1 s2 c2 → reaches node s2 c2 s3 c3 → reaches node s1 c1 s3 c3.
Proof using Type.
  intros (k1&F1&H1) (k2&F2&H2). exists (k1 + k2)%nat, (F1 + F2)%nat. intros fuel Hf. rewrite <- Nat.add_assoc, H1 by lia. apply H2. lia.
Qed.

Lemma reaches_step node stack c stack' c' F :
  (∀ fuel, (F ≤ fuel)%nat → step false tr fuel node stack c = Returns (inl (stack', c'))) → reaches node stack c stack' c'.
Proof using Type. intros Hs. exists 1%nat, F. intros fuel Hf. cbn [Nat.add rewriteLoop]. by rewrite (Hs fuel Hf). Qed.

(** Cached results are not larger. *)
Definition caches_le (c : Caches) : Prop :=
  ∀ t m r, D m → preRewriteCache c !! (t, m) = Some r ∨ postRewriteCache c !! (t, m) = Some r → D r ∧ le r m.

Lemma set_post_le t m r c : caches_le c → D r → le r m → caches_le (setPostRewriteCache t m r c).
Proof using Type.
  intros Hc Hr Hle t' m' r' Hm' [Hr'|Hr']; [by eapply Hc; [|left]|]. cbn in Hr'. destruct (decide ((t', m') = (t, m))) as [[= -> ->]|Hne].
  - rewrite lookup_insert_eq in Hr'. by injection Hr' as <-.
  - rewrite lookup_insert_ne in Hr' by done. by eapply Hc; [|right].
Qed.

Lemma set_pre_le t m r c : caches_le c → D r → le r m → caches_le (setPreRewriteCache t m r c).
Proof using Type.
  intros Hc Hr Hle t' m' r' Hm' [Hr'|Hr']; [|by eapply Hc; [|right]]. cbn in Hr'. destruct (decide ((t', m') = (t, m))) as [[= -> ->]|Hne].
  - rewrite lookup_insert_eq in Hr'. by injection Hr' as <-.
  - rewrite lookup_insert_ne in Hr' by done. by eapply Hc; [|left].
Qed.

(** The element of [g] is about to leave the stack with a result. *)
Definition finished (g : Node) (e : RewriteStackElement) : Prop :=
  d_state e = FINALIZE ∧ D (d_node e) ∧ le (d_node e) g ∧ le (d_node e) (d_original e).

Definition finishes (g : Node) : Prop := ∀ node rest c t, theoryOf g = Some t → caches_le c →
  ∃ e c', reaches node (newElement g t :: rest) c (e :: rest) c' ∧ finished g e ∧ caches_le c'.

(** ** Post-rewriting an element *)

(** The element below is told the result. *)
Lemma finalize_full g e p rest node c : finished g e → caches_le c → d_state p = WAIT_FOR_FULL_REWRITE →
  ∃ c' t, reaches node (e :: p :: rest) c (end_full p (d_node e) t :: rest) c' ∧ theoryOf (d_node e) = Some t ∧ caches_le c'.
Proof using Type*.
  intros (Es&HD&_&Hle) Hc Ep. destruct (D_theory _ HD) as [t Ht]. set (c1 := setPostRewriteCache (d_originalTheoryId e) (d_original e) (d_node e) c).
  exists (match d_fullRewriteNode p with Some n => mkCaches (preRewriteCache c1) (postRewriteCache c1) (d_rewriteStack c1 ∖ {[n]}) | None => c1 end), t. split_and!; [|done|].
  - eapply (reaches_step _ _ _ _ _ 0). intros fuel _. unfold step. rewrite Es. unfold stepFinalize. rewrite Ep, Ht. done.
  - pose proof (set_post_le (d_originalTheoryId e) (d_original e) (d_node e) c Hc HD Hle). by destruct (d_fullRewriteNode p).
Qed.

Lemma post_finishes n : D n → (∀ g', lt g' n → D g' → finishes g') → ∀ node rest c e, d_state e = POST_REWRITE → d_node e = n → theoryOf n = Some (d_theoryId e) →
  le n (d_original e) → caches_le c →
  ∃ e' c', reaches node (e :: rest) c (e' :: rest) c' ∧ d_state e' = FINALIZE ∧ D (d_node e') ∧ le (d_node e') n ∧ d_original e' = d_original e ∧ caches_le c'.
Proof using Type*.
  induction (lt_wf n) as [n _ IH]. intros Hn Hrec node rest c e Es En Ht Ho Hc. subst n.
  destruct (postRewriteLoop_returns _ Hn _ Ht) as (F&r&Hr&HF). destruct r as [t1 n1 m tm|m tm].
  - destruct Hr as (Hn1&Hle1&Ht1&Hm&Hlt&Htm). set (p := set_full (set_node e n1 t1 POST_REWRITE) m).
    assert (reaches node (e :: rest) c (newElement m tm :: p :: rest) c) as Hr1.
    { apply (reaches_step _ _ _ _ _ F). intros fuel Hf. unfold step. rewrite Es. unfold stepPost. by rewrite HF. }
    assert (lt m (d_node e)) as Hlt' by (by eapply lt_le_trans).
    destruct (Hrec m Hlt' Hm node (p :: rest) c tm Htm Hc) as (em&c2&Hr2&Hfm&Hc2). destruct (finalize_full m em p rest node c2 Hfm Hc2 eq_refl) as (c3&t3&Hr3&Ht3&Hc3).
    pose proof Hfm as (_&HDm&Hlem&_). assert (lt (d_node em) (d_node e)) as Hlt3 by (by eapply le_lt_trans).
    destruct (IH (d_node em) Hlt3 HDm) with (node := node) (rest := rest) (c := c3) (e := end_full p (d_node em) t3) as (e'&c4&Hr4&Es4&HD4&Hle4&Ho4&Hc4); try done.
    { intros g' Hg'. apply Hrec. by eapply lt_trans. }
    { cbn. right. by eapply lt_le_trans. }
    exists e', c4. split_and!; try done; [|eapply le_trans; [exact Hle4|by right]].
    eapply reaches_trans; [exact Hr1|]. eapply reaches_trans; [exact Hr2|]. by eapply reaches_trans.
  - destruct Hr as (Hm&Hle&Htm). exists (set_node e m tm FINALIZE), c. split_and!; try done.
    apply (reaches_step _ _ _ _ _ F). intros fuel Hf. unfold step. rewrite Es. unfold stepPost. by rewrite HF.
Qed.

(** ** Rewriting the children of an element *)

Definition smaller (c d : Node) : Prop := D d ∧ le d c.

Lemma child_theory k cs i c : D (mkNode k cs) → cs !! i = Some c → D c ∧ lt c (mkNode k cs) ∧ ∃ t, theoryOf c = Some t.
Proof using Type*. intros HD Hi. destruct (D_child k cs c HD (list_elem_of_lookup_2 _ _ _ Hi)) as [Hc Hlt]. split_and!; [done..|by apply D_theory]. Qed.

(** The result of a child is added to the builder. *)
Lemma finalize_child g e p rest node c : finished g e → caches_le c → d_state p = REWRITE_CHILDREN →
  ∃ c', reaches node (e :: p :: rest) c (set_builder p (d_builder p ++ [d_node e]) :: rest) c' ∧ caches_le c'.
Proof using Type.
  intros (Es&HD&_&Hle) Hc Ep. exists (setPostRewriteCache (d_originalTheoryId e) (d_original e) (d_node e) c). split; [|by apply set_post_le].
  eapply (reaches_step _ _ _ _ _ 0). intros fuel _. unfold step. rewrite Es. unfold stepFinalize. by rewrite Ep.
Qed.

Lemma one_child k cs e node rest c ch : D (mkNode k cs) → (∀ g', lt g' (mkNode k cs) → D g' → finishes g') →
  d_state e = REWRITE_CHILDREN → d_node e = mkNode k cs → d_nextChild e = length (d_builder e) → cs !! d_nextChild e = Some ch → caches_le c →
  ∃ d c', reaches node (e :: rest) c (set_builder (set_nextChild e (S (d_nextChild e))) (d_builder e ++ [d]) :: rest) c' ∧ smaller ch d ∧ caches_le c'.
Proof using Type*.
  intros HD Hrec Es En Hnx Hch Hc. destruct (child_theory k cs _ ch HD Hch) as (Hch'&Hlt&t&Ht). set (p := set_nextChild e (S (d_nextChild e))).
  assert (child (d_node e) (d_nextChild e) = Some ch) as Ech by (by rewrite En). destruct (getPostRewriteCache t ch c) as [cached|] eqn:Ec.
  - exists cached, c. split_and!; [|by eapply Hc; [|right]|done]. apply (reaches_step _ _ _ _ _ 0). intros fuel _. unfold step. rewrite Es. unfold stepChildren. rewrite Ech, Ht. cbn. by rewrite Ec.
  - destruct (Hrec ch Hlt Hch' node (p :: rest) c t Ht Hc) as (em&c2&Hr2&Hfm&Hc2). destruct (finalize_child ch em p rest node c2 Hfm Hc2 Es) as (c3&Hr3&Hc3).
    exists (d_node em), c3. split_and!; [|by destruct Hfm as (_&?&?&_)|done]. eapply reaches_trans; [|eapply reaches_trans; [exact Hr2|exact Hr3]].
    apply (reaches_step _ _ _ _ _ 0). intros fuel _. unfold step. rewrite Es. unfold stepChildren. rewrite Ech, Ht. cbn. by rewrite Ec.
Qed.

Lemma children_finish k cs node rest : D (mkNode k cs) → (∀ g', lt g' (mkNode k cs) → D g' → finishes g') → ∀ j e c,
  d_state e = REWRITE_CHILDREN → d_node e = mkNode k cs → d_nextChild e = length (d_builder e) → (length (d_builder e) + j)%nat = length cs →
  Forall2 smaller (take (length (d_builder e)) cs) (d_builder e) → caches_le c →
  ∃ e' c', reaches node (e :: rest) c (e' :: rest) c' ∧ d_state e' = REWRITE_CHILDREN ∧ d_node e' = mkNode k cs ∧ d_original e' = d_original e ∧
    d_nextChild e' = length cs ∧ Forall2 smaller cs (d_builder e') ∧ caches_le c'.
Proof using Type*.
  intros HD Hrec j. induction j as [|j IH]; intros e c Es En Hnx Hl HF Hc.
  - exists e, c. rewrite Nat.add_0_r in Hl. rewrite Hl, firstn_all in HF. split_and!; try done; [apply reaches_refl|lia].
  - destruct (lookup_lt_is_Some_2 cs (d_nextChild e)) as [ch Hch]; [lia|].
    destruct (one_child k cs e node rest c ch HD Hrec Es En Hnx Hch Hc) as (d&c1&Hr1&Hd&Hc1). set (e1 := set_builder _ _) in Hr1.
    destruct (IH e1 c1) as (e'&c'&Hr2&?&?&?&?&?&?); try done.
    + cbn. rewrite length_app. simpl. lia.
    + cbn. rewrite length_app. simpl. lia.
    + cbn. rewrite length_app, Nat.add_1_r. rewrite (take_S_r _ _ ch) by (by rewrite <- Hnx). apply Forall2_app; [done|]. by constructor.
    + exists e', c'. split_and!; try done. by eapply reaches_trans.
Qed.

(** ** Every term is rewritten *)

Lemma finishes_all g : D g → finishes g.
Proof using Type*.
  induction (lt_wf g) as [g _ IH]. intros Hg node rest c t Ht Hc.
  assert (∃ m tm c1, D m ∧ le m g ∧ theoryOf m = Some tm ∧ caches_le c1 ∧ ∃ F, ∀ fuel, (F ≤ fuel)%nat →
    stepPre false tr fuel (newElement g t) c = match getPostRewriteCache tm m c1 with
      | Some cached => t' ← attempt (theoryOf cached); Returns (mkElement cached m None t' t FINALIZE 0 [], c1)
      | None => Returns (mkElement m m None tm t REWRITE_CHILDREN 0 [], c1) end) as (m&tm&c1&Hm&Hle&Htm&Hc1&F&HF).
  { unfold stepPre. cbn [d_theoryId d_node newElement d_originalTheoryId d_original d_fullRewriteNode d_nextChild d_builder]. destruct (getPreRewriteCache t g c) as [cached|] eqn:Ec.
    - destruct (Hc t g cached Hg (or_introl Ec)) as [HD Hle]. destruct (D_theory _ HD) as [tm Htm]. exists cached, tm, c. split_and!; try done. exists 0%nat. intros fuel _. by rewrite Htm.
    - destruct (preRewriteLoop_returns g Hg t Ht) as (F&m&tm&Hm&Hle&Htm&HF). exists m, tm, (setPreRewriteCache t g m c). split_and!; try done; [by apply set_pre_le|].
      exists F. intros fuel Hf. by rewrite HF. }
  destruct (getPostRewriteCache tm m c1) as [cached|] eqn:Ec.
  { destruct (Hc1 tm m cached Hm (or_intror Ec)) as [HD Hle']. destruct (D_theory _ HD) as [t' Ht']. exists (mkElement cached m None t' t FINALIZE 0 []), c1. split_and!; try done.
    - apply (reaches_step _ _ _ _ _ F). intros fuel Hf. unfold step. cbn [d_state newElement]. rewrite HF by done. by rewrite Ht'.
    - split_and!; try done. by eapply le_trans. }
  assert (reaches node (newElement g t :: rest) c (mkElement m m None tm t REWRITE_CHILDREN 0 [] :: rest) c1) as Hr1.
  { apply (reaches_step _ _ _ _ _ F). intros fuel Hf. unfold step. cbn [d_state newElement]. by rewrite HF. }
  assert (∀ g', lt g' m → D g' → finishes g') as Hrec by (intros g' Hg'; apply IH; by eapply lt_le_trans).
  assert (∃ e2 c2, reaches node (mkElement m m None tm t REWRITE_CHILDREN 0 [] :: rest) c1 (e2 :: rest) c2 ∧ d_state e2 = POST_REWRITE ∧ D (d_node e2) ∧
    le (d_node e2) m ∧ theoryOf (d_node e2) = Some (d_theoryId e2) ∧ d_original e2 = m ∧ caches_le c2) as (e2&c2&Hr2&Es2&HD2&Hle2&Ht2&Ho2&Hc2).
  { destruct (decide (0 < getNumChildren m)%nat) as [Hpos|Hzero].
    - destruct m as [| | | |k cs]; try (cbn in Hpos; lia).
      destruct (children_finish k cs node rest Hm Hrec (length cs) (mkElement (mkNode k cs) (mkNode k cs) None tm t REWRITE_CHILDREN 0 []) c1) as (e'&c'&Hr&Es&En&Ho&Hnx&HF2&Hc'); try done.
      destruct (D_build k cs (d_builder e') Hm HF2) as [HDb Hleb]. destruct (D_theory _ HDb) as [tb Htb].
      exists (set_node e' (mkNode k (d_builder e')) tb POST_REWRITE), c'. split_and!; try done. eapply reaches_trans; [exact Hr|].
      apply (reaches_step _ _ _ _ _ 0). intros fuel _. unfold step. rewrite Es. unfold stepChildren. rewrite En. unfold child. cbn [children]. rewrite Hnx, (lookup_ge_None_2 cs (length cs)) by done.
      rewrite decide_True by done. cbn [build]. by rewrite Htb.
    - eexists (mkElement m m None tm t POST_REWRITE 0 []), c1. split_and!; try done; [|by left]. apply (reaches_step _ _ _ _ _ 0). intros fuel _. unfold step. cbn [d_state]. unfold stepChildren. cbn [d_node d_nextChild].
      assert (child m 0 = None) as ->; [|by rewrite decide_False]. unfold child. destruct m as [| | | |k [|? ?]]; try done. cbn in Hzero. lia. }
  destruct (post_finishes (d_node e2) HD2) with (node := node) (rest := rest) (c := c2) (e := e2) as (e3&c3&Hr3&Es3&HD3&Hle3&Ho3&Hc3); try done.
  { intros g' Hg'. apply Hrec. by eapply lt_le_trans. }
  { by rewrite Ho2. }
  exists e3, c3. split_and!; [|split_and!|done]; try done.
  - eapply reaches_trans; [exact Hr1|]. by eapply reaches_trans.
  - eapply le_trans; [exact Hle3|]. by eapply le_trans.
  - rewrite Ho3, Ho2. by eapply le_trans.
Qed.

Lemma rewrite_returns n c : D n → caches_le c → ∃ F n' c', D n' ∧ le n' n ∧ caches_le c' ∧ ∀ fuel, (F ≤ fuel)%nat → rewrite false tr fuel n c = Returns (n', c').
Proof using Type*.
  intros Hn Hc. unfold rewrite. destruct (decide (getNumChildren n = 0%nat)) as [|Hne]; [exists 0%nat, n, c; split_and!; try done; by left|].
  destruct (D_theory n Hn) as [t Ht]. rewrite Ht. cbn [attempt mbind Outcome_bind]. unfold rewriteTo. destruct (getPostRewriteCache t n c) as [cached|] eqn:Ec.
  { destruct (Hc t n cached Hn (or_intror Ec)). exists 0%nat, cached, c. by split_and!. }
  destruct (finishes_all n Hn n [] c t Ht Hc) as (e&c1&(k&F&HF)&(Es&HD&Hle&Hleo)&Hc1).
  exists (S (k + F))%nat, (d_node e), (setPostRewriteCache (d_originalTheoryId e) (d_original e) (d_node e) c1). split_and!; try done; [by apply set_post_le|].
  intros fuel Hf. replace fuel with (k + S (fuel - k - 1))%nat by lia. rewrite HF by lia. cbn [rewriteLoop]. unfold step. rewrite Es. done.
Qed.

End termination.
