(* ===== verification/RewriterTheorems.v ===== *)
(** The driver of the rewriters with the theories of the model: what a run keeps,
    and that it ends on propositional formulas. *)
From stdpp Require Import base option list gmap numbers.
From S2P Require Import Prelude Integer Node TypeRules Semantics TypeSound BvElim BvTerms TheoryRewriter BvCore BvSimplify BvNormalize BvNormalizeTheorems BvProductSound BvRewriter BvRewriterSound BoolTerms BoolRewriter BoolRewriterSound BoolTheorems BoolWeight UfRewriter UfRewriterSound Rewriter RewriterSound.
Open Scope Z_scope.

(** ** The table of theories *)

(** [TheoryBuiltinRewriter::doRewrite] on the kinds of the model. *)
Definition doRewrite (node : Node) : option RewriteResponse := Some (mkRewriteResponse REWRITE_DONE node).

Definition builtinRewriter : TheoryRewriter := {| tr_preRewrite := doRewrite; tr_postRewrite := doRewrite |}.

Section table.
Context `{!Gmp, !NodeIds, !HashOrder}.

Definition boolRewriter : TheoryRewriter := {| tr_preRewrite := BoolRewriter.preRewrite; tr_postRewrite := BoolRewriter.postRewrite |}.
Definition bvRewriter : TheoryRewriter := {| tr_preRewrite := BvRewriter.preRewrite; tr_postRewrite := BvRewriter.postRewrite |}.

Definition ufRewriter : TheoryRewriter := {| tr_preRewrite := UfRewriter.preRewrite; tr_postRewrite := UfRewriter.postRewrite |}.

(** [d_theoryRewriters] after [registerTheoryRewriter]; the rewriter of
    arithmetic is any. *)
Definition theoryRewriters (arith : TheoryRewriter) (t : TheoryId) : TheoryRewriter :=
  match t with THEORY_BUILTIN => builtinRewriter | THEORY_BOOL => boolRewriter | THEORY_BV => bvRewriter | THEORY_UF => ufRewriter | THEORY_ARITH => arith end.

End table.

(** ** Monitored runs *)

(** A theory that fails when it is asked about a term outside of [P]. *)
Definition within (P : TheoryId → Node → bool → Prop) `{∀ t n pre, Decision (P t n pre)} (tr : TheoryId → TheoryRewriter) (t : TheoryId) : TheoryRewriter := {|
  tr_preRewrite n := if decide (P t n true) then tr_preRewrite (tr t) n else None;
  tr_postRewrite n := if decide (P t n false) then tr_postRewrite (tr t) n else None;
|}.

(** What a monitored run returns, the run returns. *)
Section monitor.
Context (assertions : bool) (tr1 tr2 : TheoryId → TheoryRewriter).
Context (Hpre : ∀ t n r, tr_preRewrite (tr1 t) n = Some r → tr_preRewrite (tr2 t) n = Some r).
Context (Hpost : ∀ t n r, tr_postRewrite (tr1 t) n = Some r → tr_postRewrite (tr2 t) n = Some r).

Definition returns_as {A} (o1 o2 : Outcome A) : Prop := ∀ a, o1 = Returns a → o2 = Returns a.

Lemma returns_refl {A} (o : Outcome A) : returns_as o o.
Proof using Type. by intros a. Qed.

Lemma returns_bind {A B} (o1 o2 : Outcome A) (f1 f2 : A → Outcome B) : returns_as o1 o2 → (∀ a, returns_as (f1 a) (f2 a)) → returns_as (o1 ≫= f1) (o2 ≫= f2).
Proof using Type. intros Ho Hf b (a&Ea&Eb)%bind_Returns. rewrite (Ho a Ea). by apply Hf. Qed.

Lemma returns_attempt {A} (o1 o2 : option A) : (∀ a, o1 = Some a → o2 = Some a) → returns_as (attempt o1) (attempt o2).
Proof using Type. intros Ho a Ea%attempt_Returns. by apply attempt_Returns, Ho. Qed.

Ltac mono := repeat first
  [ apply returns_refl | apply returns_attempt; solve [eauto] | apply returns_bind; [|intros ?] | case_match ].

Lemma preRewriteLoop_mono fuel : ∀ t n, returns_as (preRewriteLoop assertions tr1 fuel t n) (preRewriteLoop assertions tr2 fuel t n).
Proof using Hpre. induction fuel as [|fuel IH]; intros t n; cbn [preRewriteLoop]; unfold Rewriter.preRewrite; mono. apply IH. Qed.

Lemma postRewriteLoop_mono fuel : ∀ t n, returns_as (postRewriteLoop assertions tr1 fuel t n) (postRewriteLoop assertions tr2 fuel t n).
Proof using Hpost. induction fuel as [|fuel IH]; intros t n; cbn [postRewriteLoop]; unfold Rewriter.postRewrite; mono. apply IH. Qed.

Lemma step_mono fuel node stack c : returns_as (step assertions tr1 fuel node stack c) (step assertions tr2 fuel node stack c).
Proof using Hpre Hpost.
  unfold step. destruct stack as [|top rest]; [apply returns_refl|]. destruct (d_state top); try apply returns_refl.
  - apply returns_bind; [|intros []; apply returns_refl]. unfold stepPre. apply returns_bind; [|intros; apply returns_refl].
    destruct (getPreRewriteCache _ _ _); [apply returns_refl|]. apply returns_bind; [apply preRewriteLoop_mono|intros; apply returns_refl].
  - apply returns_bind; [|intros []; apply returns_refl]. unfold stepPost. apply returns_bind; [apply postRewriteLoop_mono|intros; apply returns_refl].
Qed.

Lemma rewriteLoop_mono fuel : ∀ node stack c, returns_as (rewriteLoop assertions tr1 fuel node stack c) (rewriteLoop assertions tr2 fuel node stack c).
Proof using Hpre Hpost.
  induction fuel as [|fuel IH]; intros node stack c; cbn [rewriteLoop]; [apply returns_refl|]. apply returns_bind; [apply step_mono|].
  intros [[]|]; [apply IH|apply returns_refl].
Qed.

Lemma rewrite_mono fuel n c : returns_as (rewrite assertions tr1 fuel n c) (rewrite assertions tr2 fuel n c).
Proof using Hpre Hpost.
  unfold rewrite. destruct (decide _); [apply returns_refl|]. apply returns_bind; [apply returns_refl|intros t]. unfold rewriteTo.
  destruct (getPostRewriteCache _ _ _); [apply returns_refl|apply rewriteLoop_mono].
Qed.

End monitor.

Section theorems.
Context `{!Gmp, !GmpLaws, !NodeIds, !NodeIdsLaws, !HashOrder, !HashOrderLaws}.

(** The terms of the theories of the model that their rewriters handle. *)
Definition covered (t : TheoryId) (n : Node) (prerewrite : bool) : Prop :=
  match t with
  | THEORY_BUILTIN | THEORY_UF => True
  | THEORY_BOOL => flat_guard n
  | THEORY_BV => rewrite_guard n prerewrite
  | THEORY_ARITH => False
  end.

#[export] Instance flat_bound_dec k a n : Decision (flat_bound k a n).
Proof.
  unfold flat_bound. destruct (flattenToProcess _ _ _ _ _ _) as [[l|]|]; [|left; by intros ?..].
  destruct (decide (Z.of_nat (length l) < MAX_CHILDREN)) as [Hl|Hl]; [left; by intros ? [= <-]|right; intros HH; by apply Hl, HH].
Defined.

#[export] Instance flat_guard_dec n : Decision (flat_guard n).
Proof. destruct n as [| | | |[] ?]; apply _. Defined.

#[export] Instance sumNormalized_dec n : Decision (sumNormalized n).
Proof.
  unfold sumNormalized. destruct (LinearRewriteStrategy _ n) as [m|]; [|left; by intros ?].
  destruct (decide (sum_guard m)) as [Hl|Hl]; [left; by intros ? [= <-]|right; intros HH; by apply Hl, HH].
Defined.

#[export] Instance rewrite_guard_dec n p : Decision (rewrite_guard n p).
Proof. unfold rewrite_guard. apply and_dec; [apply _|]. destruct n as [| | | |[] ?]; apply _. Defined.

#[export] Instance covered_dec t n p : Decision (covered t n p).
Proof. destruct t; apply _. Defined.

Section solver.
Context (arith : TheoryRewriter).
Abbreviation solver := (theoryRewriters arith).
Abbreviation monitored := (within covered solver).

Lemma monitored_pre t n r : tr_preRewrite (monitored t) n = Some r → tr_preRewrite (solver t) n = Some r.
Proof using Type. cbn. by destruct (decide _). Qed.
Lemma monitored_post t n r : tr_postRewrite (monitored t) n = Some r → tr_postRewrite (solver t) n = Some r.
Proof using Type. cbn. by destruct (decide _). Qed.

Lemma monitored_run assertions fuel n c r : rewrite assertions monitored fuel n c = Returns r → rewrite assertions solver fuel n c = Returns r.
Proof using Type. apply rewrite_mono; [apply monitored_pre|apply monitored_post]. Qed.

(** An answer of a theory of the model. *)
Lemma answer_stands t n o r : stands n n → theoryOf n = Some t → covered t n true ∨ covered t n false → responds n o → o = Some r → stands n (TheoryRewriter.d_node r).
Proof using Type.
  intros (Hn&_&_) Ht Hc (status&n'&E&He) ->. injection E as ->. cbn. split_and!; [done..|]. intros z ->. cbn in Ht. injection Ht as <-. by destruct Hc.
Qed.

Lemma theory_responds t n τ p : wt n τ → covered t n p → responds n ((if p then tr_preRewrite else tr_postRewrite) (solver t) n).
Proof using Type*.
  intros Hn Hc. destruct t; try done; destruct p; cbn [theoryRewriters tr_preRewrite tr_postRewrite].
  1-2: by eapply done_ok.
  1-2: by eapply preRewrite_ok.
  1-2: by eapply uf_rewriter_ok.
  all: by eapply rewriteTable_ok.
Qed.

#[local] Instance monitored_theories : TheoryRewriters monitored.
Proof using Type*.
  split; intros t n r Hn Ht E; cbn in E; (destruct (decide _) as [Hc|]; [|done]); pose proof Hn as [[τ Hw] _]; pose proof (theory_responds t n τ _ Hw Hc) as Hr;
    eapply answer_stands; eauto.
Qed.

(** ** Propositional formulas *)

Lemma formula_theory n : formula n → theoryOf n = Some THEORY_BUILTIN ∧ (∃ id ty, n = mkVar id ty) ∨ theoryOf n = Some THEORY_BOOL.
Proof using Type.
  intros (Hw&Hp&_). destruct n as [id ty|b|z|bv|k cs]; [left; split; [done|by eexists _, _]|by right|done|done|]. right. destruct k; try done.
  destruct (equal_terms cs _ Hw) as (a&b&t&->&_&Ha&_). destruct (pair_parts _ _ _ Hp) as [Hpa _]. pose proof (propositional_wt _ _ Ha Hpa) as ->. destruct Ha as [Ha _].
  cbn [theoryOf lookup list_lookup mbind option_bind]. by rewrite Ha.
Qed.

Lemma lighter_formula n n' : wt n' BOOLEAN_TYPE → propositional n' = true → formula n → n' = n ∨ lighter n' n → formula n'.
Proof using Type. intros Hw Hp (_&_&Hm) Hl. split_and!; [done..|]. destruct Hl as [->|[?|[? _]]]; lia. Qed.

Lemma lightens_descends n r : formula n → lightens n r → responds n r → descends formula lighter n r.
Proof using Type*.
  intros Hf (status&n'&->&Hp&Hl) (status'&n2&E&He). injection E as <- <-. exists status, n'. split; [done|]. split; [|done].
  eapply lighter_formula; [eapply equiv_wt; [apply Hf|done]|done|exact Hf|]. destruct Hl as [[-> _]|?]; auto.
Qed.

Lemma formula_descends n t (p : bool) : formula n → theoryOf n = Some t → descends formula lighter n ((if p then tr_preRewrite else tr_postRewrite) (monitored t) n).
Proof using Type*.
  intros Hf Ht. assert (covered t n p) as Hc.
  { destruct (formula_theory n Hf) as [[Ht' _]|Ht']; rewrite Ht' in Ht; injection Ht as <-; [done|]. by apply formula_flat. }
  assert ((if p then tr_preRewrite else tr_postRewrite) (monitored t) n = (if p then tr_preRewrite else tr_postRewrite) (solver t) n) as ->.
  { destruct p; cbn; by rewrite decide_True. }
  apply lightens_descends; [done| |eapply theory_responds; [apply Hf|done]].
  destruct (formula_theory n Hf) as [[Ht' (id&ty&->)]|Ht']; rewrite Ht' in Ht; injection Ht as <-; destruct p; cbn [theoryRewriters tr_preRewrite tr_postRewrite].
  1-2: apply lightens_done, Hf.
  all: by apply preRewrite_lightens.
Qed.

Lemma formula_wt k cs ds : formula (mkNode k cs) → Forall2 (λ c d, formula d) cs ds → wt (mkNode k ds) BOOLEAN_TYPE.
Proof using Type.
  intros Hf HF. pose proof Hf as ([Ht Hc]&Hp&_). destruct (node_inv k cs _ Ht Hc) as (Har&Hpl&_&Hcs&ts&HM&Hτ&_). apply children_wt in HM; [|done].
  apply (wt_node k ds ts); [|by rewrite <- (Forall2_length HF)|done..|].
  - assert (∀ c, c ∈ cs → formula c) as Hch by (intros c Hcin; by eapply formula_child). clear - HF HM Hch. revert ts HM.
    induction HF as [|c d cs ds Hd HF IH]; intros ts HM; inversion HM as [|? t ? ts' Hct HM']; subst; constructor.
    + destruct (Hch c ltac:(by left)) as (_&Hpc&_). rewrite (propositional_wt c t Hct Hpc). apply Hd.
    + apply IH; [|done]. intros x Hx. apply Hch. by right.
  - eapply computeType_children; [|done|exact Hτ]. intros z Hz%list_elem_of_lookup_2. by destruct (formula_child k cs _ Hf Hz) as [(_&?&_) _].
Qed.

Lemma formula_build k cs ds : formula (mkNode k cs) → Forall2 (λ c d, formula d ∧ le lighter d c) cs ds →
  formula (mkNode k ds) ∧ le lighter (mkNode k ds) (mkNode k cs).
Proof using Type.
  intros Hf HF. assert (le lighter (mkNode k ds) (mkNode k cs)) as Hl.
  { apply lighter_children. eapply Forall2_impl; [|exact HF]. by intros c d [_ ?]. }
  split; [|done]. eapply lighter_formula; [| |exact Hf|exact Hl].
  - eapply formula_wt; [exact Hf|]. eapply Forall2_impl; [|exact HF]. by intros c d [? _].
  - apply propositional_nary; [destruct Hf as (_&Hp&_); by destruct k|]. clear - HF. induction HF as [|c d cs ds [(_&Hp&_) _] _ IH]; by constructor.
Qed.

#[local] Instance formula_order : ReductionOrder monitored formula lighter.
Proof using Type*.
  split.
  - apply lighter_wf.
  - apply lighter_trans.
  - intros n Hf. destruct (formula_theory n Hf) as [[-> _]| ->]; by eexists.
  - intros n t. apply (formula_descends n t true).
  - intros n t. apply (formula_descends n t false).
  - intros k cs c Hf Hc. destruct (formula_child k cs c Hf Hc). split; [done|by left].
  - apply formula_build.
Qed.

Definition no_caches : Caches := mkCaches ∅ ∅ ∅.

Lemma no_caches_empty t m r : preRewriteCache no_caches !! (t, m) = Some r ∨ postRewriteCache no_caches !! (t, m) = Some r → False.
Proof using Type. cbn [no_caches preRewriteCache postRewriteCache]. rewrite !lookup_empty. by intros []. Qed.


(** C5: rewriting a propositional formula whose weight is at most the number of
    children of a node ends: given enough steps, [Rewriter::rewrite] of a build
    without assertions, with empty caches, returns, without an exception, a propositional formula
    with the same value in every valuation that is the formula itself or smaller
    in the reduction order (the weight of its symbols, then the equalities whose
    sides are not in the order of their numbers).  The number of steps is the
    same for every larger bound, so the loop itself ends. *)
Theorem rewriter_terminates n : formula n →
  ∃ F n' c', formula n' ∧ (n' = n ∨ lighter n' n) ∧ (∀ env, env_ok env → eval env n' = eval env n) ∧
    ∀ fuel, (F ≤ fuel)%nat → rewrite false solver fuel n no_caches = Returns (n', c').
Proof using Type*.
  intros Hf. destruct (rewrite_returns monitored formula lighter n no_caches Hf) as (F&n'&c'&Hf'&Hle&_&HF); [by intros t m r _ E%no_caches_empty|].
  exists F, n', c'. split_and!; [done..| |intros fuel Hfu; by apply monitored_run, HF].
  pose proof (HF F ltac:(lia)) as E. destruct (rewrite_sound false monitored F n BOOLEAN_TYPE no_caches n' c') as [(_&(_&_&Hv)&_) _]; [apply Hf| |done|done].
  by intros t m r E'%no_caches_empty.
Qed.

End solver.
End theorems.

(** ** Witnesses *)

Definition result_of {A} (o : Outcome (Node * A)) : option Node := match o with Returns (n, _) => Some n | _ => None end.

(** (and (not (not (bvuge x (bvneg (bvneg x))))) (or (distinct x (bvsub x y) x) b))
    is b. *)
Definition cross_term : Node :=
  let x := mkVar 1 (BITVECTOR_TYPE 4) in
  mkNode AND [mkNode NOT [mkNode NOT [mkNode BITVECTOR_UGE [x; mkNode BITVECTOR_NEG [mkNode BITVECTOR_NEG [x]]]]];
    mkNode OR [mkNode DISTINCT [x; mkNode BITVECTOR_SUB [x; mkVar 3 (BITVECTOR_TYPE 4)]; x]; mkVar 2 BOOLEAN_TYPE]].

(** (=> (not (not (= b (and c d)))) (ite b (or b false) c)). *)
Definition prop_term : Node :=
  let b := mkVar 2 BOOLEAN_TYPE in let c := mkVar 3 BOOLEAN_TYPE in
  mkNode IMPLIES [mkNode NOT [mkNode NOT [mkNode EQUAL [b; mkNode AND [c; mkVar 4 BOOLEAN_TYPE]]]]; mkNode ITE [b; mkNode OR [b; mkConstBool false]; c]].

#[local] Existing Instances positionId positionId_laws insertionOrder insertionOrder_laws.


Lemma rewriter_terminates_witness : ∃ F n' c', (∀ env, env_ok env → eval env n' = eval env prop_term) ∧
  ∀ fuel, (F ≤ fuel)%nat → rewrite false (theoryRewriters NoOpTheoryRewriter) fuel prop_term no_caches = Returns (n', c').
Proof.
  destruct (rewriter_terminates NoOpTheoryRewriter prop_term) as (F&n'&c'&_&_&Hv&HF); [apply (bool_decide_unpack _); vm_compute; exact I|].
  exists F, n', c'. split; [exact Hv|exact HF].
Defined.
