(* ===== verification/Evaluator.v ===== *)
(** [theory/evaluator.cpp] on the kinds of the model: the evaluation of a term
    under a substitution.  [None] is a failed assertion or a read of the wrong
    member of the result union.  Applications, strings and sort values are not
    terms of the model. *)
From stdpp Require Import base option list gmap numbers.
From S2P Require Import Prelude Integer Node TypeRules BitVectorUtil BvElim BvCore UfRewriter.
Open Scope Z_scope.

(** ** Results *)

(** [EvalResult]; a rational is an integer in the model. *)
Inductive EvalResult := INVALID | BOOL (d_bool : bool) | BITVECTOR (d_bv : BitVector) | RATIONAL (d_rat : Z).

#[global] Instance EvalResult_eq_dec : EqDecision EvalResult.
Proof. solve_decision. Defined.

Definition d_bool (r : EvalResult) : option bool := match r with BOOL b => Some b | _ => None end.
Definition d_bv (r : EvalResult) : option BitVector := match r with BITVECTOR bv => Some bv | _ => None end.
Definition d_rat (r : EvalResult) : option Z := match r with RATIONAL z => Some z | _ => None end.

(** [None] is the null node. *)
Definition toNode (r : EvalResult) : option Node :=
  match r with
  | BOOL b => Some (mkConstBool b)
  | BITVECTOR bv => Some (mkConstBV bv)
  | RATIONAL z => Some (mkConstInt z)
  | INVALID => None
  end.

(** ** One operator *)

Section evaluator.
Context `{!Gmp}.

(** The loops [res = results[0]; for i in 1.. : res = op(res, results[i])]. *)
Definition foldResults {A} (get : EvalResult → option A) (op : A → A → option A) (rs : list EvalResult) : option A :=
  match rs with
  | [] => None
  | r :: rs => a ← get r; foldl (λ acc r, a ← acc; b ← get r; op a b) (Some a) rs
  end.

Definition binary {A B} (get : EvalResult → option A) (op : A → A → option B) (rs : list EvalResult) : option B :=
  match rs with r0 :: r1 :: _ => a ← get r0; b ← get r1; op a b | _ => None end.

Definition unary {A B} (get : EvalResult → option A) (op : A → option B) (rs : list EvalResult) : option B :=
  match rs with r0 :: _ => a ← get r0; op a | _ => None end.

(** The loop of [BITVECTOR_REPEAT]. *)
Fixpoint repeatConcat (n : nat) (res ret : BitVector) : BitVector :=
  match n with O => ret | S n => repeatConcat n res (BV.concat ret res) end.

(** The loop of [INTS_MODULUS_TOTAL]. *)
Definition modulusTotal (a b : Z) : option Z := if decide (b = 0) then Some a else Some (Integer.euclidianDivideRemainder a b).

(** The loop of [INTS_MODULUS], which leaves a remainder by zero unhandled. *)
Fixpoint modulusLoop (res : Z) (rs : list EvalResult) : option EvalResult :=
  match rs with
  | [] => Some (RATIONAL res)
  | r :: rs => b ← d_rat r; if decide (b = 0) then Some INVALID else modulusLoop (Integer.euclidianDivideRemainder res b) rs
  end.

Definition signedValue (size : Z) (bv : BitVector) : option Z :=
  _ ← assert (negb (bool_decide (size = 0)));
  s ← BV.isBitSet (u32 (size - 1)) bv;
  Some (if s : bool then toInteger bv - Integer.pow 2 size else toInteger bv).

(** The [switch] of [evalInternal] for a kind with children: [cs] and [rs] are the
    children and their results, [INVALID] is [processUnhandled].  First the Boolean
    connectives. *)
Definition evalBool (k : Kind) (rs : list EvalResult) : option EvalResult :=
  match k with
  | NOT => BOOL <$> unary d_bool (λ b, Some (negb b)) rs
  | AND => BOOL <$> foldResults d_bool (λ a b, Some (a && b)) rs
  | OR => BOOL <$> foldResults d_bool (λ a b, Some (a || b)) rs
  | IMPLIES => BOOL <$> binary d_bool (λ a b, Some (negb a || b)) rs
  | XOR => BOOL <$> foldResults d_bool (λ a b, Some (negb (eqb a b))) rs
  | _ => Some INVALID
  end.

(** The cases of arithmetic. *)
Definition evalArith (k : Kind) (rs : list EvalResult) : option EvalResult :=
  match k with
  | SUB => RATIONAL <$> binary d_rat (λ a b, Some (a - b)) rs
  | INTS_MODULUS => match rs with r :: rs => a ← d_rat r; modulusLoop a rs | [] => None end
  | INTS_MODULUS_TOTAL => RATIONAL <$> foldResults d_rat modulusTotal rs
  | GEQ => BOOL <$> binary d_rat (λ a b, Some (bool_decide (a >= b))) rs
  | LEQ => BOOL <$> binary d_rat (λ a b, Some (bool_decide (a <= b))) rs
  | GT => BOOL <$> binary d_rat (λ a b, Some (bool_decide (a > b))) rs
  | LT => BOOL <$> binary d_rat (λ a b, Some (bool_decide (a < b))) rs
  | _ => Some INVALID
  end.

(** The cases of bit-vectors. *)
Definition evalBv (k : Kind) (rs : list EvalResult) : option EvalResult :=
  match k with
  | BITVECTOR_NOT => BITVECTOR <$> unary d_bv (λ a, Some (BV.not a)) rs
  | BITVECTOR_NEG => BITVECTOR <$> unary d_bv BV.neg rs
  | BITVECTOR_EXTRACT hi lo => BITVECTOR <$> unary d_bv (BV.extract hi lo) rs
  | BITVECTOR_CONCAT => BITVECTOR <$> foldResults d_bv (λ a b, Some (BV.concat a b)) rs
  | BITVECTOR_ADD => BITVECTOR <$> foldResults d_bv BV.add rs
  | BITVECTOR_MULT => BITVECTOR <$> foldResults d_bv BV.mul rs
  | BITVECTOR_AND => BITVECTOR <$> foldResults d_bv BV.and rs
  | BITVECTOR_OR => BITVECTOR <$> foldResults d_bv BV.or rs
  | BITVECTOR_XOR => BITVECTOR <$> foldResults d_bv BV.xor rs
  | BITVECTOR_UDIV => BITVECTOR <$> binary d_bv BV.unsignedDivTotal rs
  | BITVECTOR_UREM => BITVECTOR <$> binary d_bv BV.unsignedRemTotal rs
  | BITVECTOR_SHL => BITVECTOR <$> binary d_bv BV.leftShift rs
  | BITVECTOR_ASHR => BITVECTOR <$> binary d_bv BV.arithRightShift rs
  | BITVECTOR_ULT => BOOL <$> binary d_bv BV.unsignedLessThan rs
  | BITVECTOR_SLT => BOOL <$> binary d_bv BV.signedLessThan rs
  | BITVECTOR_SLE => BOOL <$> binary d_bv BV.signedLessThanEq rs
  | BITVECTOR_ULE => BOOL <$> binary d_bv BV.unsignedLessThanEq rs
  | BITVECTOR_UGT => BOOL <$> binary d_bv (λ a b, BV.unsignedLessThan b a) rs
  | BITVECTOR_SGT => BOOL <$> binary d_bv (λ a b, BV.signedLessThan b a) rs
  | BITVECTOR_SGE => BOOL <$> binary d_bv (λ a b, BV.signedLessThanEq b a) rs
  | BITVECTOR_UGE => BOOL <$> binary d_bv (λ a b, BV.unsignedLessThanEq b a) rs
  | BITVECTOR_REPEAT amount => BITVECTOR <$> unary d_bv (λ a, Some (repeatConcat (Z.to_nat (amount - 1)) a a)) rs
  | BITVECTOR_SIGN_EXTEND amount => BITVECTOR <$> unary d_bv (BV.signExtend amount) rs
  | BITVECTOR_ZERO_EXTEND amount => BITVECTOR <$> unary d_bv (λ a, Some (BV.zeroExtend amount a)) rs
  | _ => Some INVALID
  end.

(** Equality, [ITE], the conversions and the symbolic bit-vectors; the last case is
    [default]. *)
Definition evalOther (k : Kind) (cs : list Node) (rs : list EvalResult) : option EvalResult :=
  match k with
  | EQUAL =>
      match rs with
      | BOOL a :: r :: _ => b ← d_bool r; Some (BOOL (eqb a b))
      | BITVECTOR a :: r :: _ => b ← d_bv r; Some (BOOL (BV.eq a b))
      | RATIONAL a :: r :: _ => b ← d_rat r; Some (BOOL (bool_decide (a = b)))
      | _ => Some INVALID
      end
  | ITE => match rs with [c; t; e] => b ← d_bool c; Some (if b : bool then t else e) | _ => None end
  | BITVECTOR_UBV_TO_INT => RATIONAL <$> unary d_bv (λ a, Some (toInteger a)) rs
  | BITVECTOR_SBV_TO_INT => c ← cs !! 0%nat; t ← typeOf c; size ← getBitVectorSize t; RATIONAL <$> unary d_bv (signedValue size) rs
  | INT_TO_BITVECTOR size => BITVECTOR <$> unary d_rat (λ i, Some (BV.new size i)) rs
  | CONST_BITVECTOR_SYMBOLIC =>
      match rs with
      | r0 :: r1 :: _ =>
          i ← d_rat r0; w ← d_rat r1;
          if uint32 w then _ ← assert (bool_decide (0 ≤ w)); Some (BITVECTOR (BV.new w i)) else Some INVALID
      | _ => None
      end
  | BITVECTOR_SIZE =>
      c ← cs !! 0%nat; tn ← typeOf c;
      match tn with BITVECTOR_TYPE w => Some (RATIONAL w) | _ => Some INVALID end
  | _ => Some INVALID
  end.

Definition evalKind (k : Kind) (cs : list Node) (rs : list EvalResult) : option EvalResult :=
  match k with
  | NOT | AND | OR | IMPLIES | XOR => evalBool k rs
  | SUB | INTS_MODULUS | INTS_MODULUS_TOTAL | GEQ | LEQ | GT | LT => evalArith k rs
  | BITVECTOR_NOT | BITVECTOR_NEG | BITVECTOR_EXTRACT _ _ | BITVECTOR_CONCAT | BITVECTOR_ADD | BITVECTOR_MULT | BITVECTOR_AND | BITVECTOR_OR
  | BITVECTOR_XOR | BITVECTOR_UDIV | BITVECTOR_UREM | BITVECTOR_SHL | BITVECTOR_ASHR | BITVECTOR_ULT | BITVECTOR_SLT | BITVECTOR_SLE
  | BITVECTOR_ULE | BITVECTOR_UGT | BITVECTOR_SGT | BITVECTOR_SGE | BITVECTOR_UGE | BITVECTOR_REPEAT _ | BITVECTOR_SIGN_EXTEND _ | BITVECTOR_ZERO_EXTEND _ => evalBv k rs
  | _ => evalOther k cs rs
  end.

(** ** The traversal *)

Record EvalState := mkEvalState { evalAsNode : gmap Node Node; results : gmap Node EvalResult }.

Definition setResult (n : Node) (r : EvalResult) (st : EvalState) : EvalState := mkEvalState (evalAsNode st) (<[n := r]> (results st)).
Definition setNode (n m : Node) (st : EvalState) : EvalState := mkEvalState (<[n := m]> (evalAsNode st)) (<[n := INVALID]> (results st)).

(** The child that [reconstruct] takes for [c]. *)
Definition evaluated (st : EvalState) (c : Node) : option Node :=
  r ← results st !! c;
  match r with INVALID => evalAsNode st !! c | _ => toNode r end.

Definition reconstruct (n : Node) (st : EvalState) : option Node :=
  match n with
  | mkNode k (c :: cs) => echildren ← mapM (evaluated st) (c :: cs); Some (mkNode k echildren)
  | _ => Some n
  end.

Definition processUnhandled (n nv : Node) (needsReconstruct : bool) (st : EvalState) : option EvalState :=
  m ← (if needsReconstruct then reconstruct n st else Some nv);
  Some (setNode n m st).

(** The position of a variable in [args]. *)
Fixpoint findArg (n : Node) (args vals : list Node) : option Node :=
  match args, vals with
  | a :: args, v :: vals => if decide (a = n) then Some v else findArg n args vals
  | _, _ => None
  end.

Context (d_rr : option (Node → Node)) (args vals : list Node).

Definition rewriteIf (n : Node) : Node := match d_rr with Some rr => rr n | None => n end.

(** The [switch], for the node [currNodeVal] that [currNode] stands for. *)
Definition evalSwitch (currNode currNodeVal : Node) (needsReconstruct : bool) (st : EvalState) : option EvalState :=
  r ← match currNodeVal with
      | mkConstBool b => Some (BOOL b)
      | mkConstInt z => Some (RATIONAL z)
      | mkConstBV bv => Some (BITVECTOR bv)
      | mkVar _ _ => Some INVALID
      | mkNode k _ => rs ← mapM (λ c, results st !! c) (children currNode); evalKind k (children currNode) rs
      end;
  match r with
  | INVALID => processUnhandled currNode currNodeVal needsReconstruct st
  | _ => Some (setResult currNode r st)
  end.

(** A node all of whose children have results. *)
Definition evalProcess (currNode : Node) (st : EvalState) : option EvalState :=
  let doEval := forallb (λ c, match results st !! c with Some INVALID => false | _ => true end) (children currNode) in
  match currNode with
  | mkVar _ _ =>
      match findArg currNode args vals with
      | None => Some (setNode currNode currNode st)
      | Some currNodeVal =>
          if negb (bool_decide (getNumChildren currNodeVal = 0%nat)) && negb (isKind BITVECTOR_SIZE currNodeVal)
          then Some (setNode currNode currNodeVal st)
          else evalSwitch currNode currNodeVal false st
      end
  | _ =>
      if doEval then evalSwitch currNode currNode true st
      else
        currNodeVal ← reconstruct currNode st;
        let currNodeVal := rewriteIf currNodeVal in
        if negb (bool_decide (getNumChildren currNodeVal = 0%nat)) && negb (isKind BITVECTOR_SIZE currNodeVal)
        then Some (setNode currNode currNodeVal st)
        else evalSwitch currNode currNodeVal false st
  end.

(** The loop of [evalInternal]; the last element of [queue] comes first. *)
Fixpoint evalLoop (fuel : nat) (queue : list Node) (st : EvalState) : option EvalState :=
  match queue, fuel with
  | [], _ => Some st
  | _, O => None
  | currNode :: queue, S fuel =>
      match results st !! currNode with
      | Some _ => evalLoop fuel queue st
      | None =>
          match filter (λ c, results st !! c = None) (children currNode) with
          | [] => st ← evalProcess currNode st; evalLoop fuel queue st
          | missing => evalLoop fuel (reverse missing ++ currNode :: queue) st
          end
      end
  end.

Definition evalInternal (n : Node) (st : EvalState) : option (EvalResult * EvalState) :=
  st ← evalLoop (2 * nsize n) [n] st;
  r ← results st !! n;
  Some (r, st).

(** ** [eval] *)

(** The loop over [visited]. *)
Fixpoint addVisited (visited : list (Node * Node)) (st : EvalState) : option EvalState :=
  match visited with
  | [] => Some st
  | (n, m) :: visited =>
      '(r, st) ← evalInternal m st;
      st ← match r with
           | INVALID => val ← evalAsNode st !! m; Some (setNode n (rewriteIf val) st)
           | _ => Some (setResult n r st)
           end;
      addVisited visited st
  end.

(** [Node::substitute] with its cache; the operators of the model's terms are
    constants, which a substitution of terms leaves alone. *)
Fixpoint substitute (n : Node) (cache : gmap Node Node) : Node * gmap Node Node :=
  match cache !! n with
  | Some m => (m, cache)
  | None =>
      match findArg n args vals with
      | Some v => (v, <[n := v]> cache)
      | None =>
          match n with
          | mkNode k cs =>
              let '(ds, cache) :=
                (fix go cs cache :=
                  match cs with
                  | [] => ([], cache)
                  | c :: cs => let '(d, cache) := substitute c cache in let '(ds, cache) := go cs cache in (d :: ds, cache)
                  end) cs cache in
              (mkNode k ds, <[n := mkNode k ds]> cache)
          | _ => (n, <[n := n]> cache)
          end
      end
  end.

(** The assertion at the end of [eval]: a constant that the rewriter returned is the
    rewritten form of the substituted term; [substitute] itself asserts that the
    ranges have the same size. *)
Definition sameAsSubstitution (n : Node) (ret : option Node) : option bool :=
  match ret, d_rr with
  | Some m, Some rr =>
      if isConst m then _ ← assert (bool_decide (length args = length vals)); Some (bool_decide (m = rr (substitute n ∅).1)) else Some true
  | _, _ => Some true
  end.

(** [assertions] tells whether the build evaluates that assertion; [Some None] is
    the null node. *)
Definition eval (assertions : bool) (n : Node) (visited : list (Node * Node)) : option (option Node) :=
  st ← addVisited visited (mkEvalState ∅ ∅);
  '(r, st) ← evalInternal n st;
  ret ← match d_rr with
        | None => Some (toNode r)
        | Some rr => m ← match toNode r with Some m => Some m | None => evalAsNode st !! n end; Some (Some (rr m))
        end;
  _ ← (if assertions then sameAsSubstitution n ret ≫= assert else Some ());
  Some ret.

End evaluator.
