(* ===== verification/EvaluatorSound.v ===== *)
(** The evaluator: its operators compute the values of the reference semantics, and
    it returns a term with the value of the term it was given. *)
From stdpp Require Import base option list gmap numbers.
From S2P Require Import Prelude Integer Node TypeRules BitVectorUtil BvElim BvCore UfRewriter Evaluator Semantics BvArith TypeSound BvTerms TheoryRewriter BvSimplifySound BoolTerms.
Open Scope Z_scope.

(** The result that stands for a value. *)
Definition result_of (v : value) : EvalResult :=
  match v with VBool b => BOOL b | VInt z => RATIONAL z | VBV w z => BITVECTOR (mkBitVector w z) end.

(** A value of a well-formed type. *)
Definition wfv (v : value) : Prop := match v with VBV w z => wf_bv (mkBitVector w z) | _ => True end.

(** The kinds that the evaluator implements on all values; [INTS_MODULUS] is left
    unhandled for a zero divisor. *)
Definition supported (k : Kind) : bool :=
  match k with
  | NOT | AND | OR | IMPLIES | XOR | SUB | INTS_MODULUS_TOTAL | GEQ | LEQ | GT | LT
  | BITVECTOR_NOT | BITVECTOR_NEG | BITVECTOR_EXTRACT _ _ | BITVECTOR_CONCAT | BITVECTOR_ADD | BITVECTOR_MULT
  | BITVECTOR_AND | BITVECTOR_OR | BITVECTOR_XOR | BITVECTOR_UDIV | BITVECTOR_UREM | BITVECTOR_SHL | BITVECTOR_ASHR
  | BITVECTOR_ULT | BITVECTOR_SLT | BITVECTOR_SLE | BITVECTOR_ULE | BITVECTOR_UGT | BITVECTOR_SGT | BITVECTOR_SGE | BITVECTOR_UGE
  | BITVECTOR_REPEAT _ | BITVECTOR_SIGN_EXTEND _ | BITVECTOR_ZERO_EXTEND _ | EQUAL | ITE
  | BITVECTOR_UBV_TO_INT | BITVECTOR_SBV_TO_INT | INT_TO_BITVECTOR _ | CONST_BITVECTOR_SYMBOLIC | BITVECTOR_SIZE => true
  | _ => false
  end.

Section kinds.
Context `{!Gmp, !GmpLaws}.

(** ** Shapes *)

Lemma un_ok op f vs v : Forall wfv vs → (∀ a, wf_bv a → op a = Some (mkBitVector (d_size a) (f (d_size a) (d_value a)))) → bv_un f vs = Some v →
  BITVECTOR <$> unary d_bv op (result_of <$> vs) = Some (result_of v).
Proof using Type.
  intros HF Hop E. destruct vs as [|[| |w a] []]; try done. cbn in E. injection E as <-. rewrite Forall_singleton in HF. cbn. by rewrite (Hop _ HF).
Qed.

Lemma bin_ok op f vs v : Forall wfv vs → (∀ a b, wf_bv a → wf_bv b → d_size a = d_size b → op a b = Some (mkBitVector (d_size a) (f (d_size a) (d_value a) (d_value b)))) →
  bv_bin f vs = Some v → BITVECTOR <$> binary d_bv op (result_of <$> vs) = Some (result_of v).
Proof using Type.
  intros HF Hop E. destruct vs as [|[| |w a] [|[| |w' b] []]]; try done. cbn in E. destruct (decide (w = w')) as [<-|]; [|done]. injection E as <-.
  apply list.Forall_cons in HF as [Ha HF]. rewrite Forall_singleton in HF. cbn. by rewrite (Hop _ _ Ha HF eq_refl).
Qed.

Lemma pred_ok op p vs v : Forall wfv vs → (∀ a b, wf_bv a → wf_bv b → d_size a = d_size b → op a b = Some (p (d_size a) (d_value a) (d_value b))) →
  bv_pred p vs = Some v → BOOL <$> binary d_bv op (result_of <$> vs) = Some (result_of v).
Proof using Type.
  intros HF Hop E. destruct vs as [|[| |w a] [|[| |w' b] []]]; try done. cbn in E. destruct (decide (w = w')) as [<-|]; [|done]. injection E as <-.
  apply list.Forall_cons in HF as [Ha HF]. rewrite Forall_singleton in HF. cbn. by rewrite (Hop _ _ Ha HF eq_refl).
Qed.

Section nary.
Context (op : BitVector → BitVector → option BitVector) (f : Z → Z → Z → Z).
Context (Hop : ∀ a b, wf_bv a → wf_bv b → d_size a = d_size b → op a b = Some (mkBitVector (d_size a) (f (d_size a) (d_value a) (d_value b)))).
Context (Hf : ∀ w x y, 0 < w → 0 ≤ x < 2 ^ w → 0 ≤ y < 2 ^ w → 0 ≤ f w x y < 2 ^ w).

Lemma fold_result_ok w vs : Forall wfv vs → ∀ a v, wf_bv (mkBitVector w a) → bv_fold (f w) w a vs = Some v →
  BITVECTOR <$> foldl (λ acc r, a ← acc; b ← d_bv r; op a b) (Some (mkBitVector w a)) (result_of <$> vs) = Some (result_of v).
Proof using Hop Hf.
  induction 1 as [|x vs Hx HF IH]; intros a v Ha E; cbn [bv_fold] in E; [by injection E as <-|].
  destruct x as [| |w' b]; try done. destruct (decide (w = w')) as [<-|]; [|done]. cbn [fmap list_fmap foldl result_of d_bv mbind option_bind].
  rewrite (Hop _ _ Ha Hx eq_refl). cbn [d_size d_value]. apply IH; [|done]. destruct Ha as [Hw Ha], Hx as [_ Hb]. cbn in *. split; [done|]. apply (Hf w a b); [apply Hw|done..].
Qed.

Lemma nary_result_ok vs v : Forall wfv vs → bv_nary f vs = Some v → BITVECTOR <$> foldResults d_bv op (result_of <$> vs) = Some (result_of v).
Proof using Hop Hf.
  intros HF E. destruct vs as [|[| |w a] [|x vs]]; try done. apply list.Forall_cons in HF as [Ha HF]. by apply (fold_result_ok w (x :: vs) HF a v Ha).
Qed.
End nary.

Lemma concat_fold_bound vs : ∀ w a v, Forall wfv vs → concat_fold w a vs = Some v → ∃ w' a', v = VBV w' a' ∧ w ≤ w'.
Proof using Type.
  induction vs as [|x vs IH]; intros w a v HF E; cbn [concat_fold] in E; [injection E as <-; by eexists _, _|]. apply list.Forall_cons in HF as [Hx HF].
  destruct x as [| |w' b]; try done. destruct (IH _ _ _ HF E) as (w2&a2&->&Hw). destruct Hx as [Hw' _]. cbn in Hw'. exists w2, a2. split; [done|lia].
Qed.

Lemma concat_result_ok vs v : Forall wfv vs → wfv v → bv_concat vs = Some v → BITVECTOR <$> foldResults d_bv (λ a b, Some (BV.concat a b)) (result_of <$> vs) = Some (result_of v).
Proof using Type*.
  intros HF Hv E. destruct vs as [|[| |w a] [|x vs]]; try done. apply list.Forall_cons in HF as [Ha HF]. unfold bv_concat in E. revert w a Ha E.
  change (∀ w a, wf_bv (mkBitVector w a) → concat_fold w a (x :: vs) = Some v →
    BITVECTOR <$> foldl (λ acc r, a ← acc; b ← d_bv r; Some (BV.concat a b)) (Some (mkBitVector w a)) (result_of <$> (x :: vs)) = Some (result_of v)).
  induction HF as [|y vs' Hy HF IH]; intros w a Ha E; cbn [concat_fold] in E; [by injection E as <-|]. destruct y as [| |w' b]; try done.
  cbn [fmap list_fmap foldl result_of d_bv mbind option_bind]. destruct (concat_fold_bound _ _ _ _ HF E) as (w2&a2&->&Hw). destruct Hv as [Hv _]. pose proof Hy as [Hy0 Hb]. pose proof Ha as [Hw0 Ha0]. cbn in Hv, Hy0, Hb, Hw0, Ha0.
  rewrite concat_spec by (done || (cbn [d_size]; lia)). cbn [d_size d_value]. apply IH; [|done]. split; cbn [d_size d_value]; [lia|].
  rewrite Z.pow_add_r by lia. nia.
Qed.

Lemma repeatConcat_ok n w a : wf_bv (mkBitVector w a) → ∀ m, Z.of_nat (S (n + m)) * w ≤ max_uint32 →
  repeatConcat n (mkBitVector w a) (mkBitVector (Z.of_nat (S m) * w) (repeat_value (S m) w a)) = mkBitVector (Z.of_nat (S (n + m)) * w) (repeat_value (S (n + m)) w a).
Proof using Type*.
  intros Ha. pose proof Ha as [Hw Hb]. cbn in Hw, Hb. induction n as [|n IH]; intros m Hm; cbn [repeatConcat]; [done|].
  pose proof (repeat_value_bound (S m) w a ltac:(lia) Hb) as Hr. rewrite concat_spec; [|split; cbn [d_size d_value]; [lia|exact Hr]|done|cbn [d_size]; lia]. cbn [d_size d_value].
  replace (Z.of_nat (S m) * w + w) with (Z.of_nat (S (S m)) * w) by lia. replace (repeat_value (S m) w a * 2 ^ w + a) with (repeat_value (S (S m)) w a) by (cbn [repeat_value]; lia). rewrite IH by lia. by replace (S n + m)%nat with (n + S m)%nat by lia.
Qed.

(** ** Booleans and integers *)

Lemma bools_fold_ok (op : bool → bool → bool) vs : ∀ bs b, as_bools vs = Some bs →
  foldl (λ acc r, a ← acc; b ← d_bool r; Some (op a b)) (Some b) (result_of <$> vs) = Some (foldl op b bs).
Proof using Type.
  induction vs as [|x vs IH]; intros bs b E; cbn in E; [by injection E as <-|]. destruct x as [c| |]; try done. apply fmap_Some in E as (bs'&E&->).
  cbn [fmap list_fmap foldl result_of d_bool mbind option_bind]. by apply IH.
Qed.

Lemma bools_ok (op : bool → bool → bool) (g : list bool → bool) vs bs : vs ≠ [] → as_bools vs = Some bs → (∀ b l, foldl op b l = g (b :: l)) →
  BOOL <$> foldResults d_bool (λ a b, Some (op a b)) (result_of <$> vs) = Some (BOOL (g bs)).
Proof using Type.
  intros Hne E Hg. destruct vs as [|x vs]; [done|]. cbn [as_bools] in E. destruct x as [c| |]; try done. apply fmap_Some in E as (bs'&E&->).
  cbn [fmap list_fmap foldResults result_of d_bool mbind option_bind]. rewrite (bools_fold_ok op vs bs' c E). cbn. by rewrite Hg.
Qed.

Lemma foldl_andb b l : foldl andb b l = forallb id (b :: l).
Proof using Type. revert b. induction l as [|c l IH]; intros b; cbn [foldl]; [cbn; by rewrite andb_true_r|]. rewrite IH. cbn. by rewrite andb_assoc. Qed.
Lemma foldl_orb b l : foldl orb b l = existsb id (b :: l).
Proof using Type. revert b. induction l as [|c l IH]; intros b; cbn [foldl]; [cbn; by rewrite orb_false_r|]. rewrite IH. cbn. by rewrite orb_assoc. Qed.

Lemma int_pred_ok (p q : Z → Z → bool) vs v : (∀ a b, q a b = p a b) → int_pred p vs = Some v → BOOL <$> binary d_rat (λ a b, Some (q a b)) (result_of <$> vs) = Some (result_of v).
Proof using Type. intros Hq E. destruct vs as [|[|a|] [|[|b|] []]]; try done. cbn in E. injection E as <-. cbn. by rewrite Hq. Qed.

Lemma remainder_spec a b : b ≠ 0 → Integer.euclidianDivideRemainder a b = a mod Z.abs b.
Proof using Type*.
  intros Hb. destruct (Integer.euclidianQR_spec a b Hb) as (q&r&E&Ha&Hr). unfold Integer.euclidianDivideRemainder. rewrite E. cbn.
  apply (Z.mod_unique_pos _ _ (Z.sgn b * q)); [done|]. subst a. destruct (Z.abs_spec b) as [[? ->]|[? ->]]; [rewrite Z.sgn_pos by lia|rewrite Z.sgn_neg by lia]; lia.
Qed.

Lemma signed_spec w a : wf_bv (mkBitVector w a) → signedValue w (mkBitVector w a) = Some (signed w a).
Proof using Type*.
  intros [Hw Ha]. cbn in Hw, Ha. unfold signedValue, BV.isBitSet, Integer.pow, max_uint32 in *. rewrite (bool_decide_false (w = 0)) by lia. cbn [negb assert mbind option_bind d_size d_value].
  assert (u32 (w - 1) = w - 1) as -> by (unfold u32; apply Z.mod_small; lia). rewrite bool_decide_true by lia. cbn [assert mbind option_bind].
  rewrite Integer.isBitSet_spec, msb_spec, mpz_pow_ui_spec by lia. unfold toInteger, signed. cbn [d_value]. case_bool_decide; case_decide; lia || done.
Qed.

(** ** The operators *)

Lemma equal_ok cs vs v : Forall wfv vs → kind_eval EQUAL vs = Some v → evalKind EQUAL cs (result_of <$> vs) = Some (result_of v).
Proof using Type*.
  intros HF E. destruct vs as [|x [|y []]]; try done. cbn [kind_eval] in E. destruct (decide _) as [Hs|]; [|done]. injection E as <-.
  apply list.Forall_cons in HF as [Hx HF]. rewrite Forall_singleton in HF. destruct x as [a|a|w a], y as [b|b|w' b]; try done; cbn.
  - do 2 f_equal. destruct a, b; by case_bool_decide.
  - do 2 f_equal. apply bool_decide_ext. split; congruence.
  - injection Hs as <-. rewrite eq_spec by done. do 2 f_equal. apply bool_decide_ext. cbn. split; congruence.
Qed.

Lemma repeat_ok n cs vs v : Forall wfv vs → wfv v → kind_eval (BITVECTOR_REPEAT n) vs = Some v → evalKind (BITVECTOR_REPEAT n) cs (result_of <$> vs) = Some (result_of v).
Proof using Type*.
  intros HF Hv E. destruct vs as [|[| |w a] []]; try done. cbn [kind_eval] in E. destruct (decide (0 < n)) as [Hn|]; [|done]. injection E as <-. rewrite Forall_singleton in HF.
  destruct Hv as [Hv _]. cbn in Hv. cbn. do 2 f_equal. pose proof (repeatConcat_ok (Z.to_nat (n - 1)) w a HF 0 ltac:(replace (Z.of_nat (S (Z.to_nat (n - 1) + 0))) with n by lia; lia)) as Hr. cbn [repeat_value] in Hr.
  replace (Z.of_nat 1 * w) with w in Hr by lia. replace (a + 2 ^ w * 0) with a in Hr by lia. rewrite Hr. f_equal; [f_equal; lia|]. by replace (Z.to_nat n) with (S (Z.to_nat (n - 1) + 0)) by lia.
Qed.

Ltac by_shape := first
  [ eapply nary_result_ok; [intros a b Ha Hb Hs|intros w x y Hw Hx Hy|done|done]; first [by apply add_spec|by apply mul_spec|by apply and_spec|by apply or_spec|by apply xor_spec
      |apply wrap_bound; lia|apply land_bound; [lia|done..]|apply lor_bound; [lia|done..]|apply lxor_bound; [lia|done..]]
  | eapply bin_ok; [done| |done]; intros a b Ha Hb Hs; first [by apply udiv_spec|by apply urem_spec|by apply leftShift_spec|by apply arithRightShift_spec]
  | eapply pred_ok; [done| |done]; intros a b Ha Hb Hs;
      first [by apply ult_spec|by apply ule_spec|by apply slt_spec|by apply sle_spec|by rewrite ult_spec|by rewrite ule_spec|by rewrite slt_spec, Hs|by rewrite sle_spec, Hs]
  | eapply int_pred_ok; [|done]; intros a b; apply eq_true_iff_eq; rewrite bool_decide_eq_true; lia
  | eapply un_ok; [done| |done]; intros a Ha; first [by apply neg_spec|by rewrite not_spec] ].

Lemma modulus_ok cs vs v : kind_eval INTS_MODULUS vs = Some v → ∃ r, evalKind INTS_MODULUS cs (result_of <$> vs) = Some r ∧ (r = result_of v ∨ r = INVALID).
Proof using Type*.
  intros E. destruct vs as [|[|a|] [|[|b|] []]]; try done. injection E as <-. cbn. unfold modulus. destruct (decide (b = 0)); [eauto|]. cbn. rewrite remainder_spec by done. eauto.
Qed.

Lemma evalSupported_ok k cs vs v : k ≠ INTS_MODULUS → Forall wfv vs → wfv v → vs ≠ [] → payload_ok k = true → Forall2 (λ c v, typeOf c = Some (sort_of v)) cs vs → kind_eval k vs = Some v →
  evalKind k cs (result_of <$> vs) = Some (if supported k then result_of v else INVALID).
Proof using Type*.
  intros Hk HF Hv Hne Hp Hcs E. destruct k; try done; cbn [supported]; try (by apply equal_ok); try (by apply repeat_ok); cbn [kind_eval evalKind evalBool evalArith evalBv evalOther] in *; try by_shape.
  - destruct vs as [|[b| |] []]; try done. by injection E as <-.
  - apply fmap_Some in E as (bs&E&->). by rewrite (bools_ok andb _ vs bs Hne E foldl_andb).
  - apply fmap_Some in E as (bs&E&->). by rewrite (bools_ok orb _ vs bs Hne E foldl_orb).
  - destruct vs as [|[a| |] [|[b| |] []]]; try done. injection E as <-. by destruct a, b.
  - destruct vs as [|[a| |] [|[b| |] []]]; try done. injection E as <-. by destruct a, b.
  - destruct vs as [|[c| |] [|t [|e []]]]; try done. destruct (decide _); [|done]. injection E as <-. by destruct c.
  - destruct vs as [|[|a|] [|[|b|] []]]; try done. by injection E as <-.
  - destruct vs as [|[|a|] [|[|b|] []]]; try done. injection E as <-. cbn. unfold modulusTotal, modulus. destruct (decide (b = 0)); [done|]. cbn. by rewrite remainder_spec.
  - destruct vs as [|[|a|] []]; try done. injection E as <-. destruct Hv as [Hw _]. cbn in *. by rewrite new_eq by lia.
  - destruct vs as [|[| |w a] vs]; try done. injection E as <-. inversion Hcs as [|c ? cs' ? Hc _]; subst. cbn. by rewrite Hc.
  - destruct vs as [|[|a|] [|[|w|] []]]; try done. destruct (decide (0 < w)); [|done]. injection E as <-. destruct Hv as [Hw _]. cbn in Hw. cbn. unfold uint32.
    rewrite !bool_decide_true by lia. cbn. by rewrite new_eq by lia.
  - by apply concat_result_ok.
  - destruct vs as [|[| |w a] []]; try done. by injection E as <-.
  - destruct vs as [|[| |w a] []]; try done. injection E as <-. inversion Hcs as [|c ? cs' ? Hc _]; subst. rewrite Forall_singleton in HF. cbn. rewrite Hc. cbn. by rewrite signed_spec.
  - destruct vs as [|[| |w a] []]; try done. destruct (decide _) as [Hr|]; [|done]. injection E as <-. rewrite Forall_singleton in HF. cbn [fmap list_fmap result_of unary d_bv mbind option_bind].
    rewrite extract_spec by (done || cbn; lia). done.
  - destruct vs as [|[| |w a] []]; try done. destruct (decide _) as [Hr|]; [|done]. injection E as <-. rewrite Forall_singleton in HF. destruct Hv as [Hv _]. cbn in Hv.
    cbn [fmap list_fmap result_of unary d_bv mbind option_bind]. rewrite signExtend_spec by (done || cbn; lia). cbn. by rewrite Z.add_comm.
  - destruct vs as [|[| |w a] []]; try done. destruct (decide _) as [Hr|]; [|done]. injection E as <-. rewrite Forall_singleton in HF. destruct Hv as [Hv _]. cbn in Hv.
    cbn [fmap list_fmap result_of unary d_bv mbind option_bind]. rewrite zeroExtend_spec by (done || cbn; lia). cbn. by rewrite Z.add_comm.
Qed.

Lemma evalKind_ok k cs vs v : Forall wfv vs → wfv v → vs ≠ [] → payload_ok k = true → Forall2 (λ c v, typeOf c = Some (sort_of v)) cs vs → kind_eval k vs = Some v →
  ∃ r, evalKind k cs (result_of <$> vs) = Some r ∧ (r = result_of v ∨ r = INVALID ∧ supported k = false).
Proof using Type*.
  intros HF Hv Hne Hp Hcs E. destruct (decide (k = INTS_MODULUS)) as [->|Hk]; [destruct (modulus_ok cs vs v E) as (r&?&[?| ?]); eauto|].
  rewrite (evalSupported_ok k cs vs v) by done. destruct (supported k); eauto.
Qed.

End kinds.

(** * The evaluator returns a term with the value of the term it was given, for
    every valuation that agrees with the substitution. *)

(** ** Valid results *)

Lemma valid_value r m τ : toNode r = Some m → wt m τ → ∃ v, r = result_of v ∧ has_type v τ ∧ wfv v ∧ isConst m = true ∧ ∀ env, eval env m = Some v.
Proof.
  intros E [Ht _]. destruct r as [|b|bv|z]; try done; injection E as <-.
  - exists (VBool b). cbn in Ht. injection Ht as <-. by split_and!.
  - exists (VBV (d_size bv) (d_value bv)). cbn in Ht. apply bind_Some in Ht as (_&Hok%assert_Some&Ht). unfold bv_ok, uint32 in Hok. apply andb_true_iff in Hok as [Hw%bool_decide_eq_true Hv%bool_decide_eq_true].
    unfold BitVectorConstantTypeRule in Ht. destruct (decide (d_size bv = 0)) as [|Hne]; [by repeat case_match|]. destruct bv as [w v]. cbn in *. split_and!; try done.
    all: unfold has_type, wf_bv; cbn; repeat case_match; simplify_eq/=; nofail; simplify_eq; try (split; [done|]); try lia.
  - exists (VInt z). cbn in Ht. injection Ht as <-. by split_and!.
Qed.

Lemma value_node n v τ : wt n τ → has_type v τ → wfv v ∧ ∃ m, toNode (result_of v) = Some m ∧ wt m τ ∧ ∀ env, eval env m = Some v.
Proof.
  intros [Ht _] [Hs Hv]. apply typeOf_ok_gen in Ht. destruct v as [b|z|w z]; cbn in Hs; subst τ.
  - split; [done|]. by eexists.
  - split; [done|]. by eexists.
  - cbn in Ht. apply bool_decide_eq_true in Ht. cbn in Hv. destruct Hv as [Hw Hz]. split; [by split|]. eexists. split_and!; [done| |done]. apply (bv_constBV w z Ht Hz).
Qed.

Lemma size_constant cs τ : wt (mkNode BITVECTOR_SIZE cs) τ →
  ∃ c cs' w, cs = c :: cs' ∧ typeOf c = Some (BITVECTOR_TYPE w) ∧ equiv (mkNode BITVECTOR_SIZE cs) (mkConstInt w).
Proof.
  intros Hw. pose proof Hw as [Ht Hc]. pose proof (node_inv _ cs τ Ht Hc) as (Har&Hp&Ha&Hcc&ts&HM&Hty&_). pose proof (children_wt cs ts HM Hcc) as HW.
  destruct cs as [|c cs]; [done|]. inversion HW as [|? t ? ts' Hct HW']; subst.
  destruct (type_sound_gen env0 c t (proj1 Hct) (proj2 Hct) env0_ok) as (v&_&Hv). assert (∃ w, t = BITVECTOR_TYPE w ∧ τ = INTEGER_TYPE) as (w&->&->).
  { clear - Hty Hv. cbn [computeType] in Hty. unfold BitVectorSizeTypeRule in Hty. destruct t as [| |w|]; nofail; simplify_eq/=; try done; [by exists w|]. destruct Hv as [Hs _]. by destruct v. }
  exists c, cs, w. split; [done|]. split; [apply Hct|]. split; [by rewrite Ht|]. split; [done|]. intros env Hok.
  destruct (type_sound_gen env _ _ Ht Hc Hok) as (v'&Ev'&Hv'). rewrite Ev'. cbn [Semantics.eval mapM] in Ev'. destruct (type_sound_gen env c _ (proj1 Hct) (proj2 Hct) Hok) as (x&Ex&Hx). rewrite Ex in Ev'. cbn [mbind option_bind] in Ev'.
  destruct x as [| |w' a]; try by destruct Hx. destruct Hx as [[= ->] _]. destruct (mapM (eval env) cs); [|done]. cbn in Ev'. cbn. congruence.
Qed.

(** [m] is [n] or one of its subterms. *)
Inductive reaches (n : Node) : Node → Prop :=
| reaches_here : reaches n n
| reaches_child k cs c : reaches n (mkNode k cs) → c ∈ cs → reaches n c.

Section sound.
Context `{!Gmp, !GmpLaws} (d_rr : option (Node → Node)) (args vals : list Node) (root : Node) (visited : list (Node * Node)).

(** The terms that are evaluated: the subterms of the given term and of the cached
    ones. *)
Definition relevant (n : Node) : Prop := reaches root n ∨ ∃ p, p ∈ visited ∧ reaches p.2 n.

(** The terms that may stand for [n] in a run: [n] itself, a constant, the image of
    a variable, the term it has in the cache, [n] with other children, and the
    rewritten form of one of these. *)
Inductive stands : Node → Node → Prop :=
| stands_refl n : stands n n
| stands_const n c : isConst c = true → stands n c
| stands_arg n v : findArg n args vals = Some v → stands n v
| stands_visited n m m' : (n, m) ∈ visited → stands m m' → stands n m'
| stands_node k cs ds : Forall2 stands cs ds → stands (mkNode k cs) (mkNode k ds)
| stands_rewrite n m rr : d_rr = Some rr → stands n m → stands n (rr m).

(** The substitution is typed and no term of its range is a [bvsize].  On the terms
    that may stand for a subterm of the given ones, the rewriter keeps types and
    values and returns no [bvsize]. *)
Class EvalContext : Prop := {
  args_typed : Forall2 (λ a v, ∃ τ, wt a τ ∧ wt v τ) args vals;
  vals_normal : Forall (λ v, isKind BITVECTOR_SIZE v = false) vals;
  rr_ok rr n m τ : d_rr = Some rr → relevant n → stands n m → wt m τ → equiv m (rr m) ∧ isKind BITVECTOR_SIZE (rr m) = false;
}.
Context `{!EvalContext}.

(** A valuation that gives the variables the values of the substitution. *)
Definition agrees (env : Env) : Prop := env_ok env ∧ Forall2 (λ a v, eval env a = eval env v) args vals.

(** [m] is [n] under the substitution. *)
Definition means (n m : Node) : Prop := ∃ τ, wt n τ ∧ wt m τ ∧ ∀ env, agrees env → eval env m = eval env n.

(** Terms that evaluate to a constant. *)
Fixpoint evaluable (n : Node) : bool :=
  match n with
  | mkVar _ _ => match findArg n args vals with Some v => isConst v | None => false end
  | mkNode k cs => supported k && forallb evaluable cs
  | _ => true
  end.

Lemma means_refl n τ : wt n τ → means n n.
Proof using Type. intros Hn. by exists τ. Qed.

Lemma means_equiv n m m' τ : wt n τ → means n m → equiv m m' → means n m'.
Proof using Type.
  intros Hn (τ'&Hn'&Hm&Hv) He. exists τ'. split_and!; [done|by eapply equiv_wt|]. intros env Ha. destruct He as (_&_&He). rewrite He by apply Ha. by apply Hv.
Qed.

Lemma means_wt n m τ : wt n τ → means n m → wt m τ.
Proof using Type. intros [Ht _] (τ'&[Ht' _]&Hm&_). by replace τ with τ' by congruence. Qed.

Lemma means_trans a b c : means a b → means b c → means a c.
Proof using Type.
  intros (τ&Ha&Hb&Hab) (τ'&Hb'&Hc&Hbc). exists τ. split_and!; [done|eapply means_wt; [exact Hb|by exists τ']|]. intros env Hag. rewrite Hbc by done. by apply Hab.
Qed.

Lemma relevant_child k cs c : relevant (mkNode k cs) → c ∈ cs → relevant c.
Proof using Type. intros [Hr|(p&Hp&Hr)] Hc; [left|right; exists p; split; [done|]]; by eapply reaches_child. Qed.

Lemma rewriteIf_means n m : relevant n → means n m → stands n m → means n (rewriteIf d_rr m) ∧ stands n (rewriteIf d_rr m).
Proof using Type*.
  intros Hr Hm Hs. pose proof Hm as (τ&Hn&Hmt&_). unfold rewriteIf. destruct d_rr as [rr|] eqn:E; [|done]. split; [|by apply stands_rewrite].
  eapply means_equiv; [done..|]. by eapply rr_ok.
Qed.

Lemma findArg_means n v : findArg n args vals = Some v → (∀ env, agrees env → eval env v = eval env n) ∧ (∃ τ, wt n τ ∧ wt v τ) ∧ isKind BITVECTOR_SIZE v = false.
Proof using Type*.
  pose proof args_typed as HT. pose proof vals_normal as HN. unfold agrees.
  assert (∀ as' vs', Forall2 (λ a v, ∃ τ, wt a τ ∧ wt v τ) as' vs' → Forall (λ v, isKind BITVECTOR_SIZE v = false) vs' → findArg n as' vs' = Some v →
    (∀ env, env_ok env ∧ Forall2 (λ a v, eval env a = eval env v) as' vs' → eval env v = eval env n) ∧ (∃ τ, wt n τ ∧ wt v τ) ∧ isKind BITVECTOR_SIZE v = false) as Hg; [|eauto].
  clear. induction 1 as [|a v' as' vs' Ht HT IH]; intros HN E; [done|]. apply list.Forall_cons in HN as [Hv HN]. cbn [findArg] in E. destruct (decide (a = n)) as [->|].
  - injection E as ->. split_and!; [|done..]. intros env [_ HF]. inversion HF; congruence.
  - destruct (IH HN E) as (He&?&?). split_and!; [|done..]. intros env [Hok HF]. apply He. split; [done|]. by inversion HF.
Qed.

Lemma findArg_elem n v : findArg n args vals = Some v → n ∈ args.
Proof using Type.
  clear. revert vals. induction args as [|a as' IH]; intros [|v' vs'] E; try done. cbn [findArg] in E. destruct (decide (a = n)) as [->|]; [left|right; by eapply IH].
Qed.

Lemma var_means n v : findArg n args vals = Some v → means n v ∧ isKind BITVECTOR_SIZE v = false.
Proof using Type*. intros (He&(τ&Hn&Hv)&Hk)%findArg_means. split; [|done]. by exists τ. Qed.

(** ** The invariant of the two maps *)

Definition entry_ok (st : EvalState) (n : Node) (r : EvalResult) : Prop :=
  (∃ m, evaluated st n = Some m ∧ means n m ∧ stands n m) ∧ (∀ z, n = mkConstInt z → r = RATIONAL z) ∧ (evaluable n = true → r ≠ INVALID).

Definition st_ok (st : EvalState) : Prop := ∀ n r, results st !! n = Some r → entry_ok st n r.

(** Every node with a result keeps it. *)
Definition grows (st st' : EvalState) : Prop := ∀ n, is_Some (results st !! n) → results st' !! n = results st !! n.

Lemma setNode_ok n m st : st_ok st → means n m → stands n m → isConst n = false → evaluable n = false → st_ok (setNode n m st).
Proof using Type.
  intros Hst Hm Hsm Hc He x r Hx. unfold setNode, entry_ok, evaluated in *. cbn in *. destruct (decide (x = n)) as [->|Hne].
  - rewrite lookup_insert_eq in Hx. injection Hx as <-. rewrite lookup_insert_eq. cbn. rewrite lookup_insert_eq. split_and!; [by exists m|by intros z ->|congruence].
  - rewrite lookup_insert_ne in Hx by done. rewrite !lookup_insert_ne by done. by apply Hst.
Qed.

Lemma setResult_ok n r m st : st_ok st → toNode r = Some m → means n m → (∀ z, n = mkConstInt z → r = RATIONAL z) → st_ok (setResult n r st).
Proof using Type.
  intros Hst Hr Hm Hz x r' Hx. unfold setResult, entry_ok, evaluated in *. cbn in *. destruct (decide (x = n)) as [->|Hne].
  - rewrite lookup_insert_eq in Hx. injection Hx as <-. rewrite lookup_insert_eq. cbn. split_and!; [exists m; assert (isConst m = true) by (destruct r; by simplify_eq/=); split_and!; [by destruct r|done|by apply stands_const]|done|by intros _ ->].
  - rewrite lookup_insert_ne in Hx by done. rewrite !lookup_insert_ne by done. by apply Hst.
Qed.

Lemma empty_ok : st_ok (mkEvalState ∅ ∅).
Proof using Type. intros n r. cbn. by rewrite lookup_empty. Qed.

(** ** Reconstruction *)

Lemma arity_pos k : arity_ok k 0 = false.
Proof using Type. by destruct k. Qed.

Lemma evaluated_children st cs : st_ok st → Forall (λ c, is_Some (results st !! c)) cs →
  ∃ ds, mapM (evaluated st) cs = Some ds ∧ Forall2 (λ c d, means c d ∧ ∀ z, c = mkConstInt z → d = mkConstInt z) cs ds ∧ Forall2 stands cs ds.
Proof using Type.
  intros Hst. induction 1 as [|c cs [r Hr] _ (ds&IH&HF&HS)]; [by exists []|]. destruct (Hst c r Hr) as ((m&Em&Hm&Hsm)&Hz&_). exists (m :: ds). cbn [mapM]. rewrite Em. cbn. rewrite IH. split; [done|]. split; [|by constructor]. constructor; [|done].
  split; [done|]. intros z Hc. specialize (Hz z Hc). subst r. unfold evaluated in Em. rewrite Hr in Em. cbn in Em. congruence.
Qed.

Lemma reconstruct_ok k cs st τ : st_ok st → wt (mkNode k cs) τ → Forall (λ c, is_Some (results st !! c)) cs →
  ∃ ds, reconstruct (mkNode k cs) st = Some (mkNode k ds) ∧ means (mkNode k cs) (mkNode k ds) ∧ stands (mkNode k cs) (mkNode k ds).
Proof using Type.
  intros Hst [Ht Hc] HF. destruct (evaluated_children st cs Hst HF) as (ds&Ed&Hds&HS). pose proof (node_inv k cs τ Ht Hc) as (Har&Hp&Ha&Hcc&ts&HM&Hty&_).
  exists ds. split. { destruct cs as [|c cs']; [by rewrite arity_pos in Har|]. unfold reconstruct. by rewrite Ed. }
  split; [|by constructor].
  exists τ. split_and!; [done| |].
  - apply (wt_node k ds ts); [|by rewrite <- (Forall2_length Hds)|done|done|eapply computeType_children; [|done..]].
    + pose proof (children_wt cs ts HM Hcc) as Hw. clear - Hw Hds. revert ds Hds. induction Hw as [|c t cs ts Hct _ IH]; intros ds Hds; inversion Hds as [|? d ? ds' [Hd _] Hds']; subst; constructor; [by eapply means_wt|by apply IH].
    + intros z Hz. destruct (Forall2_lookup_l _ _ _ _ _ Hds Hz) as (d&->&_&Hd). by rewrite (Hd z eq_refl).
  - intros env Hag. cbn [Semantics.eval]. replace (mapM (eval env) ds) with (mapM (eval env) cs); [done|]. clear - Hds Hag. induction Hds as [|c d cs ds [(?&_&_&He) _] _ IH]; [done|]. cbn [mapM]. by rewrite He, IH.
Qed.

(** [st'] is [st] with an entry for [n]. *)
Definition sets (n : Node) (st st' : EvalState) : Prop := ∃ r m, st' = setResult n r st ∨ st' = setNode n m st.

Lemma sets_grows n st st' : sets n st st' → results st !! n = None → grows st st' ∧ is_Some (results st' !! n).
Proof using Type.
  intros (r&m&[-> | ->]) Hn; unfold setResult, setNode; cbn; (split; [intros x [? Hx]; cbn; rewrite lookup_insert_ne; [done|congruence]|rewrite lookup_insert_eq; by eexists]).
Qed.

(** ** The children of a node that is processed *)

Lemma valid_children cs ts st : st_ok st → Forall2 wt cs ts → Forall (λ c, ∃ r, results st !! c = Some r ∧ r ≠ INVALID) cs →
  ∃ vs, mapM (λ c, results st !! c) cs = Some (result_of <$> vs) ∧ Forall2 has_type vs ts ∧ Forall wfv vs ∧
    (∀ i z, cs !! i = Some (mkConstInt z) → vs !! i = Some (VInt z)) ∧ ∀ env, agrees env → mapM (eval env) cs = Some vs.
Proof using Type.
  intros Hst HW HF. induction HW as [|c t cs ts Hc HW IH].
  { exists []. split_and!; try done; constructor. }
  apply list.Forall_cons in HF as [(r&Hr&Hne) HF]. destruct (IH HF) as (vs&HM&HT&Hwf&Hz&He). destruct (Hst c r Hr) as ((m&Em&Hm&_)&Hcz&_).
  assert (toNode r = Some m) as Etm by (unfold evaluated in Em; rewrite Hr in Em; by destruct r).
  destruct (valid_value r m t Etm (means_wt _ _ _ Hc Hm)) as (v&->&Hv&Hwv&_&Hev). exists (v :: vs). split_and!.
  - cbn [mapM]. rewrite Hr. cbn. by rewrite HM.
  - by constructor.
  - by constructor.
  - intros [|i] z Hi; cbn in *; [|by apply Hz]. injection Hi as ->. specialize (Hcz z eq_refl). destruct v; cbn in Hcz; congruence.
  - intros env Hag. cbn [mapM]. destruct Hm as (_&_&_&Hm). rewrite <- Hm, Hev by done. cbn. by rewrite He.
Qed.

Lemma children_types cs ts vs : Forall2 wt cs ts → Forall2 has_type vs ts → Forall2 (λ c v, typeOf c = Some (sort_of v)) cs vs.
Proof using Type. intros HW. revert vs. induction HW as [|c t cs ts [Hc _] _ IH]; intros vs HT; inversion HT as [|v ? vs' ? [Hv _] HT']; subst; constructor; [by rewrite Hc|by apply IH]. Qed.

Lemma types_ok cs ts : mapM typeOf cs = Some ts → Forall (λ t, type_ok t = true) ts.
Proof using Type. intros HM%mapM_Some. induction HM as [|c t cs ts Hc _ IH]; constructor; [by eapply typeOf_ok_gen|done]. Qed.

(** All children have values. *)
Lemma switch_valid k cs st τ : st_ok st → wt (mkNode k cs) τ → Forall (λ c, ∃ r, results st !! c = Some r ∧ r ≠ INVALID) cs →
  ∃ st', evalSwitch (mkNode k cs) (mkNode k cs) true st = Some st' ∧ st_ok st' ∧
    sets (mkNode k cs) st st'.
Proof using Type*.
  intros Hst Hw HF. pose proof Hw as [Ht Hc]. pose proof (node_inv k cs τ Ht Hc) as (Har&Hp&Ha&Hcc&ts&HM&Hty&_). pose proof (children_wt cs ts HM Hcc) as HW.
  destruct (valid_children cs ts st Hst HW HF) as (vs&Hrs&HT&Hwf&Hz&He). assert (length vs = length cs) as Hl by (by rewrite (Forall2_length HT), (Forall2_length HW)).
  rewrite <- Hl in Har. destruct (kind_sound k cs ts vs τ Har Hp HT (types_ok cs ts HM) Hty Ha Hz) as (v&Ev&Hv). destruct (value_node _ _ _ Hw Hv) as (Hwv&m&Em&Hm&Hmv).
  assert (vs ≠ []) as Hne by (intros ->; by rewrite arity_pos in Har). destruct (evalKind_ok k cs vs v Hwf Hwv Hne Hp (children_types _ _ _ HW HT) Ev) as (r&Ek&Hr).
  unfold evalSwitch. cbn [children]. rewrite Hrs. cbn [mbind option_bind]. rewrite Ek. destruct Hr as [->|[-> Hs]].
  - exists (setResult (mkNode k cs) (result_of v) st). split; [by destruct v|]. split; [|by exists (result_of v), m; left].
    apply (setResult_ok _ _ m); [done..| |done]. exists τ. split_and!; [done..|]. intros env Hag. cbn [Semantics.eval]. rewrite (He env Hag), Hmv. cbn. by rewrite Ev.
  - destruct (reconstruct_ok k cs st τ Hst Hw) as (ds&Ed&Hd&HdS); [eapply list.Forall_impl; [exact HF|]; by intros c (r&->&_)|].
    cbn [mbind option_bind processUnhandled]. unfold processUnhandled. rewrite Ed. eexists. split; [done|]. split; [|by exists INVALID, (mkNode k ds); right].
    apply setNode_ok; [done..|]. cbn. by rewrite Hs.
Qed.

(** A node that stands for one without children. *)
Lemma switch_leaf n v st : st_ok st → means n v → stands n v → getNumChildren v = 0%nat → isConst n = false → (isConst v = false → evaluable n = false) →
  ∃ st', evalSwitch n v false st = Some st' ∧ st_ok st' ∧ sets n st st'.
Proof using Type.
  intros Hst Hm Hsv Hv Hn He. assert (∀ z, n = mkConstInt z → False) as Hz by (by intros z ->).
  destruct v as [id ty|b|z|bv|k [|]]; try done; unfold evalSwitch; cbn [mbind option_bind].
  - eexists. split; [done|]. split; [|eexists INVALID, _; by right]. apply setNode_ok; [done..|]. by apply He.
  - eexists. split; [done|]. split; [|eexists _, n; by left]. eapply setResult_ok; [done..|]. by intros z0 ?%Hz.
  - eexists. split; [done|]. split; [|eexists _, n; by left]. eapply setResult_ok; [done..|]. by intros z0 ?%Hz.
  - eexists. split; [done|]. split; [|eexists _, n; by left]. eapply setResult_ok; [done..|]. by intros z0 ?%Hz.
  - destruct Hm as (τ&_&[Ht Hc]&_). pose proof (node_inv k [] τ Ht Hc) as (Har&_). by rewrite arity_pos in Har.
Qed.

(** [bvsize] of a term without value. *)
Lemma switch_size cs ds st τ : st_ok st → wt (mkNode BITVECTOR_SIZE cs) τ → Forall (λ c, is_Some (results st !! c)) cs →
  ∃ st', evalSwitch (mkNode BITVECTOR_SIZE cs) (mkNode BITVECTOR_SIZE ds) false st = Some st' ∧ st_ok st' ∧ sets (mkNode BITVECTOR_SIZE cs) st st'.
Proof using Type.
  intros Hst Hw HF. destruct (size_constant cs τ Hw) as (c&cs'&w&->&Hct&He).
  destruct (mapM (λ c, results st !! c) (c :: cs')) as [rs|] eqn:Er; [|apply mapM_None, list.Exists_exists in Er as (x&Hx&Er); rewrite list.Forall_forall in HF; destruct (HF x Hx); congruence].
  unfold evalSwitch. cbn [children]. rewrite Er. cbn [mbind option_bind evalKind evalOther lookup list_lookup]. rewrite Hct. eexists. split; [reflexivity|]. split; [|eexists (RATIONAL w), c; by left].
  eapply setResult_ok; [done|reflexivity| |done]. eapply means_equiv; [done|by eapply means_refl|done].
Qed.

Lemma invalid_child st k cs : st_ok st → Forall (λ c, is_Some (results st !! c)) cs →
  forallb (λ c, match results st !! c with Some INVALID => false | _ => true end) cs = false → evaluable (mkNode k cs) = false.
Proof using Type.
  intros Hst HF Hd. cbn [evaluable]. apply andb_false_intro2. induction HF as [|c cs [r Hr] _ IH]; [done|]. cbn [forallb] in *. rewrite Hr in Hd. destruct (Hst c r Hr) as (_&_&He).
  destruct r; [|apply andb_false_intro2, IH; exact Hd..]. destruct (evaluable c); [by destruct He|done].
Qed.

Lemma process_ok n st τ : st_ok st → wt n τ → relevant n → Forall (λ c, is_Some (results st !! c)) (children n) →
  ∃ st', evalProcess d_rr args vals n st = Some st' ∧ st_ok st' ∧ sets n st st'.
Proof using Type*.
  intros Hst Hw Hrel HF. destruct n as [id ty|b|z|bv|k cs]; unfold evalProcess; cbn [children forallb].
  2-4: eexists; split; [done|]; split; [|eexists _, (mkConstInt 0); by left]; eapply setResult_ok; [done|done|by eapply means_refl|congruence].
  - destruct (findArg _ args vals) as [v|] eqn:E.
    + destruct (var_means _ _ E) as [Hm Hk]. pose proof (stands_arg _ _ E) as HsE. rewrite Hk, andb_true_r. assert (isConst v = false → evaluable (mkVar id ty) = false) as He by (cbn; by rewrite E).
      destruct (negb _) eqn:Hl; [|apply negb_false_iff, bool_decide_eq_true in Hl; by apply switch_leaf]. eexists. split; [done|]. split; [|eexists INVALID, _; by right]. apply setNode_ok; [done..|]. apply He. by destruct v.
    + eexists. split; [done|]. split; [|eexists INVALID, _; by right]. apply setNode_ok; [done|by eapply means_refl|constructor|done|]. cbn. by rewrite E.
  - destruct (forallb _ cs) eqn:Hd.
    { apply (switch_valid k cs st τ); [done..|]. cbn [children] in HF. rewrite forallb_forall in Hd. apply list.Forall_forall. intros c Hc. apply list_elem_of_In in Hc as Hc'. specialize (Hd c Hc').
      rewrite list.Forall_forall in HF. destruct (HF c Hc) as [r Hr]. rewrite Hr in Hd. exists r. split; [done|]. by intros ->. }
    destruct (reconstruct_ok k cs st τ Hst Hw HF) as (ds&->&Hm&HdS). cbn [mbind option_bind]. destruct (rewriteIf_means _ _ Hrel Hm HdS) as [Hm' Hs']. pose proof (invalid_child st k cs Hst HF Hd) as He.
    destruct (decide (getNumChildren (rewriteIf d_rr (mkNode k ds)) = 0%nat)) as [Hl|Hl]; [rewrite bool_decide_true by done; by apply switch_leaf|rewrite bool_decide_false by done]. cbn [negb andb].
    destruct (isKind BITVECTOR_SIZE _) eqn:Hk; cbn [negb].
    + unfold rewriteIf in *. destruct d_rr as [rr|] eqn:Hrr. { pose proof Hm as (τ'&_&Hmt&_). destruct (rr_ok rr _ _ τ' Hrr Hrel HdS Hmt) as [_ Hk']. congruence. }
      cbn in Hk. apply bool_decide_eq_true in Hk. subst k. by eapply switch_size.
    + eexists. split; [done|]. split; [|eexists INVALID, _; by right]. by apply setNode_ok.
Qed.

(** ** The loop *)

Lemma grows_trans st1 st2 st3 : grows st1 st2 → grows st2 st3 → grows st1 st3.
Proof using Type. intros Hg1 Hg2 n Hn. rewrite Hg2; [by apply Hg1|]. by rewrite Hg1. Qed.

Lemma grows_some st1 st2 n : grows st1 st2 → is_Some (results st1 !! n) → is_Some (results st2 !! n).
Proof using Type. intros Hg Hn. by rewrite Hg. Qed.

(** [bound] steps of the loop process the nodes [ns] on top of the queue. *)
Definition visits (ns : list Node) (bound : nat) (st : EvalState) : Prop := ∃ st' j, (j ≤ bound)%nat ∧
  (∀ fuel queue, evalLoop d_rr args vals (j + fuel) (ns ++ queue) st = evalLoop d_rr args vals fuel queue st') ∧
  st_ok st' ∧ grows st st' ∧ Forall (λ n, is_Some (results st' !! n)) ns.

Lemma visits_queue ns st : Forall (λ n, ∀ st, st_ok st → visits [n] (2 * nsize n) st) ns → st_ok st → visits ns (2 * sum_list_with nsize ns) st.
Proof using Type.
  intros HF. revert st. induction HF as [|n ns Hn _ IH]; intros st Hst; [exists st, 0%nat; split_and!; [lia|done..|constructor]|].
  destruct (Hn st Hst) as (st1&j1&Hj1&E1&Hst1&Hg1&Hr1). destruct (IH st1 Hst1) as (st2&j2&Hj2&E2&Hst2&Hg2&Hr2). exists st2, (j1 + j2)%nat. cbn [sum_list_with]. split_and!; [lia| |done|by eapply grows_trans|].
  - intros fuel queue. rewrite <- Nat.add_assoc. cbn [app]. specialize (E1 (j2 + fuel)%nat (ns ++ queue)). cbn [app] in E1. by rewrite E1.
  - constructor; [|done]. rewrite Forall_singleton in Hr1. by eapply grows_some.
Qed.

Lemma filter_nil_iff (P : Node → Prop) `{!∀ x, Decision (P x)} ns : filter P ns = [] ↔ Forall (λ n, ¬ P n) ns.
Proof using Type.
  induction ns as [|n ns IH]; [done|]. rewrite filter_cons, list.Forall_cons. case_decide; [split; [done|by intros [? _]]|]. rewrite IH. split; [done|by intros [_ ?]].
Qed.

(** A node all of whose children have results takes one step. *)
Lemma visit_ready n τ st : wt n τ → relevant n → st_ok st → Forall (λ c, is_Some (results st !! c)) (children n) → visits [n] 1 st.
Proof using Type*.
  intros Hw Hrel Hst HF. destruct (results st !! n) as [r|] eqn:Er.
  { exists st, 1%nat. split_and!; [lia| |done..|by rewrite Forall_singleton, Er]. intros fuel queue. cbn. by rewrite Er. }
  destruct (process_ok n st τ Hst Hw Hrel HF) as (st'&E&Hst'&Hs). destruct (sets_grows _ _ _ Hs Er) as [Hg Hn]. exists st', 1%nat. split_and!; [lia| |done..|by rewrite Forall_singleton].
  intros fuel queue. cbn [app Nat.add evalLoop]. rewrite Er. replace (filter (λ c, results st !! c = None) (children n)) with (@nil Node); [by rewrite E|].
  symmetry. apply filter_nil_iff. eapply list.Forall_impl; [exact HF|]. intros c [r Hr]. cbn. by rewrite Hr.
Qed.

Lemma sum_filter (P : Node → Prop) `{!∀ x, Decision (P x)} ns : (sum_list_with nsize (filter P ns) ≤ sum_list_with nsize ns)%nat.
Proof using Type. induction ns as [|n ns IH]; [done|]. rewrite filter_cons. case_decide; cbn [sum_list_with]; lia. Qed.

Lemma sum_reverse ns : sum_list_with nsize (reverse ns) = sum_list_with nsize ns.
Proof using Type. induction ns as [|n ns IH]; [done|]. rewrite reverse_cons, sum_list_with_app. cbn [sum_list_with]. lia. Qed.

Lemma visit_ok n : ∀ τ st, wt n τ → relevant n → st_ok st → visits [n] (2 * nsize n) st.
Proof using Type*.
  induction n as [id ty|b|z|bv|k cs IH] using Node_ind'; intros τ st Hw Hrel Hst.
  1-4: destruct (visit_ready _ τ st Hw Hrel Hst) as (st'&j&Hj&?); [constructor|]; exists st', j; (split; [cbn; lia|done]).
  pose proof (node_inv k cs τ (proj1 Hw) (proj2 Hw)) as (_&_&_&Hcc&ts&HM&_). pose proof (children_wt cs ts HM Hcc) as HW.
  destruct (results st !! mkNode k cs) as [r|] eqn:Er.
  { exists st, 1%nat. split_and!; [pose proof (nsize_pos (mkNode k cs)); lia| |done..|by rewrite Forall_singleton, Er]. intros fuel queue. cbn [app Nat.add evalLoop]. by rewrite Er. }
  set (missing := filter (λ c, results st !! c = None) cs).
  assert (Forall (λ n, ∀ st, st_ok st → visits [n] (2 * nsize n) st) (reverse missing)) as HV.
  { apply list.Forall_forall. intros c Hc st1 Hst1. apply elem_of_reverse, list_elem_of_filter in Hc as [_ Hc]. apply list_elem_of_lookup in Hc as [i Hi]. destruct (Forall2_lookup_l _ _ _ _ _ HW Hi) as (t&_&Ht).
    eapply Forall_lookup_1 in IH; [|exact Hi]. eapply IH; [done| |done]. eapply relevant_child; [exact Hrel|]. by eapply list_elem_of_lookup_2. }
  destruct (visits_queue _ st HV Hst) as (st1&j1&Hj1&E1&Hst1&Hg1&Hr1). rewrite sum_reverse in Hj1. pose proof (sum_filter (λ c, results st !! c = None) cs) as Hsum. fold missing in Hsum.
  assert (Forall (λ c, is_Some (results st1 !! c)) cs) as HF.
  { apply list.Forall_forall. intros c Hc. destruct (results st !! c) as [r|] eqn:Ec; [eapply grows_some; [done|by rewrite Ec]|]. rewrite list.Forall_forall in Hr1. apply Hr1, elem_of_reverse, list_elem_of_filter. done. }
  destruct (visit_ready (mkNode k cs) τ st1 Hw Hrel Hst1 HF) as (st2&j2&Hj2&E2&Hst2&Hg2&Hr2). rewrite nsize_node.
  destruct missing as [|c missing'] eqn:Em.
  - destruct (visit_ready (mkNode k cs) τ st Hw Hrel Hst) as (st3&j3&Hj3&?); [|exists st3, j3; split; [lia|done]]. apply filter_nil_iff in Em. eapply list.Forall_impl; [exact Em|]. intros x Hx. destruct (results st !! x) eqn:Ex; [by eexists|by destruct (Hx Ex)].
  - exists st2, (1 + j1 + j2)%nat. split_and!; [lia| |done|by eapply grows_trans|done]. intros fuel queue. cbn [app Nat.add]. cbn [evalLoop children]. rewrite Er. fold missing. rewrite Em, <- Nat.add_assoc, E1. apply E2.
Qed.

Lemma evalInternal_ok n τ st : wt n τ → relevant n → st_ok st → ∃ r st', evalInternal d_rr args vals n st = Some (r, st') ∧ st_ok st' ∧ grows st st' ∧ results st' !! n = Some r.
Proof using Type*.
  intros Hw Hrel Hst. destruct (visit_ok n τ st Hw Hrel Hst) as (st'&j&Hj&E&Hst'&Hg&[r Hr]%Forall_singleton). exists r, st'. split_and!; [|done..]. unfold evalInternal.
  replace (2 * nsize n)%nat with (j + (2 * nsize n - j))%nat by lia. specialize (E (2 * nsize n - j)%nat []). cbn [app] in E. rewrite E.
  replace (evalLoop d_rr args vals (2 * nsize n - j) [] st') with (Some st') by (by destruct (2 * nsize n - j)%nat). cbn. by rewrite Hr.
Qed.

(** ** [eval] *)

(** A pair of the cache given to [eval]. *)
Definition visited_ok (p : Node * Node) : Prop := means p.1 p.2 ∧ isConst p.1 = false ∧ (evaluable p.1 = true → evaluable p.2 = true).

Lemma entry_valid st n r : entry_ok st n r → results st !! n = Some r → r ≠ INVALID → ∃ m, toNode r = Some m ∧ means n m.
Proof using Type. intros ((m&Em&Hm&_)&_) Hr Hne. exists m. split; [|done]. unfold evaluated in Em. rewrite Hr in Em. by destruct r. Qed.

Lemma entry_invalid st n : entry_ok st n INVALID → results st !! n = Some INVALID → evaluable n = false ∧ ∃ m, evalAsNode st !! n = Some m ∧ means n m ∧ stands n m.
Proof using Type.
  intros ((m&Em&Hm&Hsm)&_&He) Hr. split; [destruct (evaluable n); [by destruct He|done]|]. exists m. split; [|done]. unfold evaluated in Em. by rewrite Hr in Em.
Qed.

Lemma addVisited_ok vs : Forall visited_ok vs → vs ⊆ visited → ∀ st, st_ok st → ∃ st', addVisited d_rr args vals vs st = Some st' ∧ st_ok st'.
Proof using Type*.
  induction 1 as [|[n m] vs (Hm&Hn&He) _ IH]; intros Hsub st Hst; [by exists st|]. cbn [fst snd] in *. pose proof Hm as (τ&_&Hmt&_).
  assert ((n, m) ∈ visited) as Hin by (apply Hsub; left). assert (relevant m) as Hrel by (right; exists (n, m); split; [done|constructor]).
  destruct (evalInternal_ok m τ st Hmt Hrel Hst) as (r&st1&E&Hst1&_&Hr). cbn [addVisited]. rewrite E. cbn [mbind option_bind]. pose proof (Hst1 m r Hr) as Hen.
  assert (vs ⊆ visited) as Hsub' by (intros x Hx; apply Hsub; by right). destruct (decide (r = INVALID)) as [->|Hne].
  - destruct (entry_invalid st1 m Hen Hr) as (Hev&val&Ev&Hv&Hs). rewrite Ev. cbn. apply IH; [done|]. destruct (rewriteIf_means m val Hrel Hv Hs) as [Hv' Hs'].
    apply setNode_ok; [done|by eapply means_trans|by eapply stands_visited|done|]. destruct (evaluable n); [|done]. rewrite <- Hev. symmetry. by apply He.
  - destruct (entry_valid st1 m r Hen Hr Hne) as (c&Ec&Hc). replace (match r with INVALID => _ | _ => _ end) with (Some (setResult n r st1)) by (by destruct r). cbn. apply IH; [done|].
    apply (setResult_ok n r c); [done..|by eapply means_trans|]. by intros z ->.
Qed.

(** The value that [eval] computes before its assertion. *)
Lemma evaluator_ok n τ : root = n → Forall visited_ok visited → wt n τ → ∃ ret,
  (∀ assertions, Evaluator.eval d_rr args vals assertions n visited = (_ ← (if assertions then sameAsSubstitution d_rr args vals n ret ≫= assert else Some ()); Some ret)) ∧
  (d_rr ≠ None ∨ evaluable n = true → ret ≠ None) ∧ ∀ m, ret = Some m → means n m ∧ (d_rr = None → isConst m = true).
Proof using Type*.
  intros Hroot HF Hw. assert (relevant n) as Hrel by (left; rewrite Hroot; constructor).
  destruct (addVisited_ok visited HF ltac:(done) _ empty_ok) as (st&Ev&Hst). destruct (evalInternal_ok n τ st Hw Hrel Hst) as (r&st1&E&Hst1&_&Hr). pose proof (Hst1 n r Hr) as Hen.
  unfold Evaluator.eval. rewrite Ev. cbn [mbind option_bind]. rewrite E. cbn [mbind option_bind].
  assert (∀ m, means n m → stands n m → ∀ rr, d_rr = Some rr → means n (rr m)) as Hrr.
  { intros m Hm Hs rr Err. destruct (rewriteIf_means n m Hrel Hm Hs) as [Hm' _]. unfold rewriteIf in Hm'. by rewrite Err in Hm'. }
  destruct (decide (r = INVALID)) as [->|Hne].
  - destruct (entry_invalid st1 n Hen Hr) as (Hev&m&Em&Hm&Hs). cbn [toNode]. destruct d_rr as [rr|] eqn:Err.
    + rewrite Em. exists (Some (rr m)). split; [done|]. split; [done|]. intros m' [= <-]. split; [by apply (Hrr m Hm Hs)|done].
    + exists None. split; [done|]. split; [|done]. rewrite Hev. by intros [?|?].
  - destruct (entry_valid st1 n r Hen Hr Hne) as (m&Em&Hm). assert (isConst m = true) as Hc by (destruct r; by simplify_eq/=). rewrite Em. destruct d_rr as [rr|] eqn:Err.
    + exists (Some (rr m)). split; [done|]. split; [done|]. intros m' [= <-]. split; [by apply (Hrr m Hm (stands_const n m Hc))|done].
    + exists (Some m). split; [done|]. split; [done|]. by intros m' [= <-].
Qed.

(** ** The assertion *)

Lemma const_unique a b env : isConst a = true → isConst b = true → eval env a = eval env b → a = b.
Proof using Type. destruct a as [| | |[]|], b as [| | |[]|]; try done; cbn; congruence. Qed.

(** [m] is [n] after a substitution of variables. *)
Definition image (n m : Node) : Prop :=
  (∀ τ, wt n τ → wt m τ) ∧ (∀ z, n = mkConstInt z → m = mkConstInt z) ∧ stands n m ∧ ∀ env, agrees env → eval env m = eval env n.

Lemma image_refl n : image n n.
Proof using Type. split_and!; [done..|constructor|done]. Qed.

Lemma image_arg n v : Forall (λ a, isVar a = true) args → findArg n args vals = Some v → image n v.
Proof using Type*.
  intros Hargs Ev. destruct (findArg_means _ _ Ev) as (He&(τ&[Hn _]&Hv)&_). split_and!; [| |by apply stands_arg|done].
  - intros τ' [Ht' _]. by replace τ' with τ by congruence.
  - intros z ->. apply findArg_elem in Ev. rewrite list.Forall_forall in Hargs. by specialize (Hargs _ Ev).
Qed.

Lemma image_children cs ds : Forall2 image cs ds → ∀ k, image (mkNode k cs) (mkNode k ds).
Proof using Type.
  intros HF k. split_and!; [|done| |].
  - intros τ [Ht Hc]. pose proof (node_inv k cs τ Ht Hc) as (Har&Hp&Ha&Hcc&ts&HM&Hty&_). apply (wt_node k ds ts); [|by rewrite <- (Forall2_length HF)|done|done|eapply computeType_children; [|done..]].
    + pose proof (children_wt cs ts HM Hcc) as Hw. clear - Hw HF. revert ds HF. induction Hw as [|c t cs ts Hct _ IH]; intros ds HF; inversion HF as [|? d ? ds' [Hd _] HF']; subst; constructor; [by apply Hd|by apply IH].
    + intros z Hz. destruct (Forall2_lookup_l _ _ _ _ _ HF Hz) as (d&->&_&Hd&_). by rewrite (Hd z eq_refl).
  - apply stands_node. eapply Forall2_impl; [|exact HF]. by intros c d (_&_&?&_).
  - intros env Hag. cbn [Semantics.eval]. replace (mapM (eval env) ds) with (mapM (eval env) cs); [done|]. clear - HF Hag. induction HF as [|c d cs ds (_&_&_&He) _ IH]; [done|]. cbn [mapM]. by rewrite He, IH.
Qed.

Lemma substitute_image n : Forall (λ a, isVar a = true) args → ∀ cache, map_Forall image cache →
  image n (substitute args vals n cache).1 ∧ map_Forall image (substitute args vals n cache).2.
Proof using Type*.
  intros Hargs. induction n as [id ty|b|z|bv|k cs IH] using Node_ind'; intros cache HC; cbn [substitute];
    (destruct (cache !! _) as [m|] eqn:Em; [split; [by apply (HC _ _ Em)|done]|]); (destruct (findArg _ args vals) as [v|] eqn:Ev;
    [pose proof (image_arg _ _ Hargs Ev) as Hi; split; [exact Hi|by apply map_Forall_insert_2]|]).
  1-4: split; [apply image_refl|apply map_Forall_insert_2; [apply image_refl|done]].
  match goal with |- context[(let '(_, _) := ?g in _).1] => assert (Forall2 image cs g.1 ∧ map_Forall image g.2) as Hgo end.
  { clear - IH HC. revert cache HC. induction IH as [|c cs Hc _ IHcs]; intros cache HC; [by split; [constructor|]|].
    specialize (Hc cache HC). destruct (substitute args vals c cache) as [d cache1]. cbn [fst snd] in Hc. destruct Hc as [Hd HC1]. specialize (IHcs cache1 HC1).
    match goal with |- context[(let '(_, _) := ?g in _).1] => destruct g as [ds cache2] end. cbn [fst snd] in *. destruct IHcs. split; [by constructor|done]. }
  match goal with |- context[(let '(_, _) := ?g in _).1] => destruct g as [ds cache2] end. cbn [fst snd] in *. destruct Hgo as [Hds HC2].
  pose proof (image_children cs ds Hds k) as Hi. split; [exact Hi|by apply map_Forall_insert_2].
Qed.

(** When the rewriter evaluates the substituted term, the assertion holds. *)
Lemma assertion_holds n τ m rr env : relevant n → wt n τ → means n m → d_rr = Some rr → agrees env → Forall (λ a, isVar a = true) args →
  isConst (rr (substitute args vals n ∅).1) = true → sameAsSubstitution d_rr args vals n (Some m) = Some true.
Proof using Type*.
  intros Hrel Hn Hm Err Hag Hargs Hc. unfold sameAsSubstitution. rewrite Err. destruct (isConst m) eqn:Hcm; [|done].
  rewrite (bool_decide_true (length args = length vals)) by (apply (Forall2_length args_typed)). cbn [assert mbind option_bind]. f_equal. apply bool_decide_eq_true.
  destruct (substitute_image n Hargs ∅ ltac:(apply map_Forall_empty)) as [(Hw&_&Hs&He) _]. apply (const_unique _ _ env); [done..|].
  destruct Hm as (_&_&_&Hm). rewrite Hm by done. destruct (rr_ok rr n _ τ Err Hrel Hs (Hw τ Hn)) as [(_&_&Hr) _]. rewrite Hr by apply Hag. by rewrite He.
Qed.

End sound.
