(* ===== verification/EvaluatorTheorems.v ===== *)
(** What the evaluator returns, and when it returns a constant. *)
From stdpp Require Import base option list gmap numbers.
From S2P Require Import Prelude Integer Node TypeRules BitVectorUtil BvElim BvCore UfRewriter Evaluator Semantics BvArith TypeSound BvTerms TheoryRewriter BvSimplifySound BoolTerms EvaluatorSound TypeTheorems.
Open Scope Z_scope.

Section theorems.
Context `{!Gmp, !GmpLaws}.

(** C10: the evaluator keeps the meaning of terms.  Given are a typed term, a typed
    substitution without [bvsize] terms in its range, a cache whose terms have the
    type and value of their keys under the substitution (no key is a constant, and the
    term of an evaluable key is evaluable), and possibly a rewriter that keeps the type and the
    value of the terms the evaluator may ask it about and returns no [bvsize] for them
    ([EvalContext], [visited_ok]).  [Evaluator::eval] returns in a build without
    assertions; its result is null only without a rewriter, and otherwise has the type
    of the term and its value in every valuation that agrees with the substitution.
    Without a rewriter the result is a constant.  A build with assertions returns the
    same result if the final assertion holds and fails otherwise; the assertion holds
    without a rewriter, for a result that is no constant and, when the domain of the
    substitution consists of variables and some valuation agrees with it, whenever the
    rewriter evaluates the substituted term to a constant. *)
Theorem evaluator_sound d_rr args vals n τ visited :
  EvalContext d_rr args vals n visited → wt n τ → Forall (visited_ok args vals) visited →
  ∃ ret, Evaluator.eval d_rr args vals false n visited = Some ret ∧ (d_rr ≠ None → ret ≠ None) ∧
    (∀ m, ret = Some m → wt m τ ∧ (d_rr = None → isConst m = true) ∧ ∀ env, agrees args vals env → eval env m = eval env n) ∧
    Evaluator.eval d_rr args vals true n visited = (if decide (sameAsSubstitution d_rr args vals n ret = Some true) then Some ret else None) ∧
    (d_rr = None ∨ (∀ m, ret = Some m → isConst m = false) ∨
     (∃ rr env, d_rr = Some rr ∧ agrees args vals env ∧ Forall (λ a, isVar a = true) args ∧ isConst (rr (substitute args vals n ∅).1) = true) →
     sameAsSubstitution d_rr args vals n ret = Some true).
Proof using Type*.
  intros HC Hn HV. destruct (evaluator_ok d_rr args vals n visited n τ eq_refl HV Hn) as (ret&E&Hne&Hm). exists ret. split_and!; [by rewrite E|auto| | |].
  - intros m Em. destruct (Hm m Em) as [Hmn Hc]. split_and!; [by eapply means_wt|done|]. intros env Hag. destruct Hmn as (_&_&_&He). by apply He.
  - rewrite E. destruct (sameAsSubstitution d_rr args vals n ret) as [[]|]; done.
  - intros [->|[Hc|(rr&env&Err&Hag&Ha&Hc)]]; [by destruct ret|destruct ret as [m|]; [|done]; cbn; destruct d_rr; [|done]; by rewrite (Hc m eq_refl)|].
    destruct ret as [m|]; [|done]. destruct (Hm m eq_refl) as [Hmn _]. eapply assertion_holds; [exact HC|left; constructor|done..].
Qed.

(** C11: the evaluator is complete on the operators it implements: without a
    rewriter, and for a cache as above, a typed term whose variables are all mapped to
    constants and whose operators are all supported evaluates to a constant, the value of the term, in
    builds with and without assertions. *)
Theorem evaluator_complete args vals n τ visited assertions :
  EvalContext None args vals n visited → wt n τ → Forall (visited_ok args vals) visited → evaluable args vals n = true →
  ∃ m, Evaluator.eval None args vals assertions n visited = Some (Some m) ∧ isConst m = true ∧ typeOf m = Some τ ∧ ∀ env, agrees args vals env → eval env n = eval env m.
Proof using Type*.
  intros HC Hn HV He. destruct (evaluator_ok None args vals n visited n τ eq_refl HV Hn) as (ret&E&Hne&Hm). destruct ret as [m|]; [|by destruct (Hne (or_intror He))].
  destruct (Hm m eq_refl) as [Hmn Hc]. exists m. split_and!; [rewrite E; by destruct assertions|by apply Hc|by eapply means_wt|]. intros env Hag. destruct Hmn as (_&_&_&Hmn). symmetry. by apply Hmn.
Qed.

End theorems.

(** ** Concrete runs *)

(** A rewriter that only eliminates [bvsize]. *)
Definition sizeRewriter (n : Node) : Node := if applies SizeEliminate n then default n (apply SizeEliminate n) else n.

Lemma sizeRewriter_ok n τ : wt n τ → equiv n (sizeRewriter n) ∧ isKind BITVECTOR_SIZE (sizeRewriter n) = false.
Proof.
  intros Hn. unfold sizeRewriter. cbn [applies apply SizeEliminate]. destruct (isKind BITVECTOR_SIZE n) eqn:Hk; cbn [andb]; [|by split; [eapply equiv_refl|]].
  apply isKind_eq in Hk as [cs ->]. destruct (size_constant cs τ Hn) as (c&cs'&w&->&Hc&He). cbn. unfold getSize. by rewrite Hc.
Qed.

Definition env3 : Env := λ _ ty, match ty with BOOLEAN_TYPE => VBool false | BITVECTOR_TYPE w => VBV w (Z.min 3 (2 ^ w - 1)) | _ => VInt 0 end.

Lemma env3_ok : env_ok env3.
Proof.
  intros id [| |w|a] Hok Ha; simpl in *; try done. apply bool_decide_eq_true in Hok. split; [done|]. split; [lia|]. pose proof (pow2_pos w ltac:(lia)). lia.
Qed.

(** [ite (bvsize y > 7) (x + y) x] with [x] mapped to 3, and [y] left as it is. *)
Lemma evaluator_sound_witness :
  let n := mkNode ITE [mkNode GT [mkNode BITVECTOR_SIZE [bv8 2]; mkConstInt 7]; mkNode BITVECTOR_ADD [bv8 1; bv8 2]; bv8 1] in
  ∃ m, Evaluator.eval (Some sizeRewriter) [bv8 1] [mkConstBV (mkBitVector 8 3)] true n [] = Some (Some m) ∧ eval env3 m = eval env3 n ∧ eval env3 m = Some (VBV 8 6).
Proof.
  intros n. destruct (evaluator_sound (Some sizeRewriter) [bv8 1] [mkConstBV (mkBitVector 8 3)] n (BITVECTOR_TYPE 8) []) as (ret&E0&Hne&Hm&E&Hs).
  - split; [constructor; [by exists (BITVECTOR_TYPE 8)|constructor]|by constructor|intros rr m m' τ [= <-] _ _ Hw; by eapply sizeRewriter_ok].
  - done.
  - constructor.
  - destruct ret as [m|]; [|by destruct (Hne ltac:(done))]. exists m. assert (isConst m = false) as Hc.
    { vm_compute in E0. by injection E0 as <-. }
    rewrite decide_True in E by (apply Hs; right; left; by intros ? [= <-]). split; [done|]. destruct (Hm m eq_refl) as (_&_&He). rewrite He; [by split; vm_compute|].
    split; [apply env3_ok|]. by constructor; [vm_compute|].
Defined.

(** [x * x] with [x] mapped to 7, and a cache for a double negation. *)
Lemma evaluator_complete_witness :
  let n := mkNode BITVECTOR_MULT [bv8 1; bv8 1] in
  ∃ m, Evaluator.eval None [bv8 1] [mkConstBV (mkBitVector 8 7)] true n [(mkNode NOT [mkNode NOT [mkConstBool true]], mkConstBool true)] = Some (Some m) ∧ m = mkConstBV (mkBitVector 8 49).
Proof.
  intros n. destruct (evaluator_complete [bv8 1] [mkConstBV (mkBitVector 8 7)] n (BITVECTOR_TYPE 8) [(mkNode NOT [mkNode NOT [mkConstBool true]], mkConstBool true)] true) as (m&E&_).
  - split; [constructor; [by exists (BITVECTOR_TYPE 8)|constructor]|by constructor|done..].
  - done.
  - constructor; [|constructor]. split; [|done]. by exists BOOLEAN_TYPE.
  - done.
  - exists m. split; [done|]. vm_compute in E. by injection E as <-.
Defined.
