(* ===== verification/Substitutions.v ===== *)
(** [theory/substitutions.cpp]: a context-dependent substitution with a cache.
    [None] and [Fails] are failed assertions; a loop that is cut off is [OutOfFuel]. *)
From stdpp Require Import base option list gmap numbers.
From S2P Require Import Prelude Node.

(** [d_substitutions] is a [CDHashMap]: [d_saved] are its contents at the outer levels
    of the context, the innermost first. *)
Record SubstitutionMap := mkSubstitutionMap {
  d_substitutions : gmap Node Node;
  d_saved : list (gmap Node Node);
  d_substitutionCache : gmap Node Node;
  d_cacheInvalidated : bool;
  d_compress : bool;
}.

Definition newSubstitutionMap (compress : bool) : SubstitutionMap := mkSubstitutionMap ∅ [] ∅ false compress.

Definition hasSubstitution (st : SubstitutionMap) (x : Node) : bool := bool_decide (is_Some (d_substitutions st !! x)).

Definition getSubstitution (st : SubstitutionMap) (x : Node) : option Node := d_substitutions st !! x.

(** ** Levels of the context *)

Definition pushLevel (st : SubstitutionMap) : SubstitutionMap :=
  mkSubstitutionMap (d_substitutions st) (d_substitutions st :: d_saved st) (d_substitutionCache st) (d_cacheInvalidated st) (d_compress st).

(** The map is restored, and [CacheInvalidator::contextNotifyPop] is called. *)
Definition popLevel (st : SubstitutionMap) : option SubstitutionMap :=
  match d_saved st with
  | [] => None
  | s :: saved => Some (mkSubstitutionMap s saved (d_substitutionCache st) true (d_compress st))
  end.

(** ** Changing the substitution *)

Definition setSubstitutions (s c : gmap Node Node) (invalid : bool) (st : SubstitutionMap) : SubstitutionMap := mkSubstitutionMap s (d_saved st) c invalid (d_compress st).

Definition addSubstitution (x t : Node) (invalidateCache : bool) (st : SubstitutionMap) : option SubstitutionMap :=
  _ ← assert (negb (hasSubstitution st x) || negb (d_compress st));
  _ ← assert (bool_decide (x ≠ t));
  let s := <[x := t]> (d_substitutions st) in
  Some (if invalidateCache then setSubstitutions s (d_substitutionCache st) true st
        else setSubstitutions s (<[x := t]> (d_substitutionCache st)) (d_cacheInvalidated st) st).

(** The loop of [addSubstitutions], over the entries of the other map. *)
Fixpoint addLoop (entries : list (Node * Node)) (invalidateCache : bool) (st : SubstitutionMap) : option SubstitutionMap :=
  match entries with
  | [] => Some st
  | (x, t) :: entries =>
      _ ← assert (negb (hasSubstitution st x));
      let s := <[x := t]> (d_substitutions st) in
      addLoop entries invalidateCache
        (setSubstitutions s (if invalidateCache then d_substitutionCache st else <[x := t]> (d_substitutionCache st)) (d_cacheInvalidated st) st)
  end.

Definition addSubstitutions (entries : list (Node * Node)) (invalidateCache : bool) (st : SubstitutionMap) : option SubstitutionMap :=
  st ← addLoop entries invalidateCache st;
  Some (if invalidateCache then setSubstitutions (d_substitutions st) (d_substitutionCache st) true st else st).

Definition eraseSubstitution (x : Node) (invalidateCache : bool) (st : SubstitutionMap) : option SubstitutionMap :=
  _ ← assert (negb (d_compress st));
  _ ← assert (hasSubstitution st x);
  Some (setSubstitutions (<[x := x]> (d_substitutions st)) (d_substitutionCache st) (d_cacheInvalidated st || invalidateCache) st).

Definition invalidateCache (st : SubstitutionMap) : SubstitutionMap := setSubstitutions (d_substitutions st) (d_substitutionCache st) true st.

(** ** [internalSubstitute] *)

(** What the loop changes: the map, the cache and the set of used substitutions. *)
Record Work := mkWork { w_subst : gmap Node Node; w_cache : gmap Node Node; w_tracker : option (gset Node) }.

Definition track (n : Node) (tr : option (gset Node)) : option (gset Node) := (λ s, {[n]} ∪ s) <$> tr.

Definition setCache (n m : Node) (w : Work) : Work := mkWork (w_subst w) (<[n := m]> (w_cache w)) (w_tracker w).

Section loop.
Context (compress : bool) (stc : option (Node → bool)).

(** [current] is substituted by a term whose result is [c]. *)
Definition substituted (current c : Node) (w : Work) : Work :=
  mkWork (if bool_decide (w_tracker w = None) && compress then <[current := c]> (w_subst w) else w_subst w) (<[current := c]> (w_cache w)) (track current (w_tracker w)).

(** The same for a rebuilt term. *)
Definition resubstituted (result c : Node) (w : Work) : Work :=
  mkWork (if compress then <[result := c]> (w_subst w) else w_subst w) (<[result := c]> (w_cache w)) (track result (w_tracker w)).

(** The right-hand side of a substitution that changes the term. *)
Definition changes (n : Node) (w : Work) : option Node := match w_subst w !! n with Some rhs => if decide (rhs = n) then None else Some rhs | None => None end.

(** A node whose children have been processed: [inl rhs] asks for a visit of [rhs]. *)
Definition rebuild (current : Node) (w : Work) : option (Node + Work) :=
  match current with
  | mkNode k cs =>
      cs' ← mapM (λ c, w_cache w !! c) cs;
      let result := mkNode k cs' in
      if decide (result = current) then Some (inr (setCache current result w))
      else match w_cache w !! result with
           | Some r => Some (inr (setCache current r w))
           | None =>
               match changes result w with
               | None => Some (inr (setCache current result w))
               | Some rhs =>
                   match w_cache w !! rhs with
                   | None => Some (inl rhs)
                   | Some c => Some (inr (setCache current c (resubstituted result c w)))
                   end
               end
           end
  | _ => None
  end.

Definition recurse (current : Node) : bool := match stc with Some f => f current | None => true end.

(** The children that are not in the cache, the last one on top. *)
Definition pushedChildren (cs : list Node) (w : Work) : list (Node * bool) :=
  (λ c, (c, false)) <$> reverse (filter (λ c, w_cache w !! c = None) cs).

(** The loop; [toVisit.back()] comes first, with [d_children_added]. *)
Fixpoint substLoop (fuel : nat) (toVisit : list (Node * bool)) (w : Work) : Outcome Work :=
  match toVisit, fuel with
  | [], _ => Returns w
  | _, O => OutOfFuel
  | (current, children_added) :: rest, S fuel =>
      if decide (is_Some (w_cache w !! current)) then substLoop fuel rest w
      else
        match changes current w with
        | Some rhs =>
            match w_cache w !! rhs with
            | None => substLoop fuel ((rhs, false) :: toVisit) w
            | Some c => substLoop fuel rest (substituted current c w)
            end
        | None =>
            if children_added : bool then
              r ← attempt (rebuild current w);
              match r with
              | inl rhs => substLoop fuel ((rhs, false) :: toVisit) w
              | inr w => substLoop fuel rest w
              end
            else if recurse current && negb (bool_decide (children current = [])) then
              substLoop fuel (pushedChildren (children current) w ++ (current, true) :: rest) w
            else substLoop fuel rest (setCache current current w)
        end
  end.

Definition internalSubstitute (fuel : nat) (t : Node) (w : Work) : Outcome (Node * Work) :=
  if decide (w_subst w = ∅) then Returns (t, w)
  else
    w ← substLoop fuel [(t, false)] w;
    m ← attempt (w_cache w !! t);
    Returns (m, w).

End loop.

(** ** [apply] *)

Definition apply (fuel : nat) (t : Node) (r : option (Node → Node)) (tracker : option (gset Node)) (stc : option (Node → bool)) (st : SubstitutionMap) :
    Outcome (Node * option (gset Node) * SubstitutionMap) :=
  let cache := if d_cacheInvalidated st then ∅ else d_substitutionCache st in
  '(result, w) ← internalSubstitute (d_compress st) stc fuel t (mkWork (d_substitutions st) cache tracker);
  let st := setSubstitutions (w_subst w) (w_cache w) false st in
  match r with
  | None => Returns (result, w_tracker w, st)
  | Some rewrite =>
      let result := rewrite result in
      _ ← attempt (assert (bool_decide (rewrite result = result)));
      Returns (result, w_tracker w, st)
  end.
