(* ===== verification/SubstitutionsSound.v ===== *)
(** The substitution keeps the meaning of terms where its equations hold, through
    every sequence of operations, and it ends with a term without substituted
    variables if the equations are acyclic. *)
From stdpp Require Import base option list gmap numbers.
From S2P Require Import Prelude Node TypeRules Semantics BvElim BvTerms BoolTerms Substitutions.
Open Scope Z_scope.

(** ** Equations *)

Abbreviation Equations := (list (Node * Node)).

Definition sat (env : Env) (eqs : Equations) : Prop := Forall (λ e, eval env e.1 = eval env e.2) eqs.

(** [m] is what the equations make of [n]; an integer constant is left alone. *)
Record implied (eqs : Equations) (n m : Node) : Prop := {
  implied_types : ∃ τ, wt n τ ∧ wt m τ;
  implied_value env : env_ok env → sat env eqs → eval env m = eval env n;
  implied_int z : n = mkConstInt z → m = n;
}.

Lemma implied_wt eqs n m τ : implied eqs n m → wt n τ → wt m τ.
Proof. intros [(t&[Hn _]&Hm) _ _] [Hn' _]. congruence. Qed.

Lemma implied_refl eqs n τ : wt n τ → implied eqs n n.
Proof. intros Hn. split; [by exists τ|done..]. Qed.

Lemma implied_trans eqs n m r : implied eqs n m → implied eqs m r → implied eqs n r.
Proof.
  intros H1 H2. pose proof H1 as [(τ&Hn&Hm) Hv Hz]. split; [exists τ; split; [done|by eapply implied_wt]| |].
  - intros env Hok Hs. by rewrite (implied_value _ _ _ H2), Hv.
  - intros z ->. rewrite (Hz z eq_refl) in H2. by eapply implied_int.
Qed.

Lemma sat_mono env eqs eqs' : (∀ e, e ∈ eqs → e ∈ eqs') → sat env eqs' → sat env eqs.
Proof. unfold sat. rewrite !list.Forall_forall. auto. Qed.

Lemma implied_mono eqs eqs' n m : (∀ e, e ∈ eqs → e ∈ eqs') → implied eqs n m → implied eqs' n m.
Proof. intros Hs [Ht Hv Hz]. split; [done| |done]. intros env Hok He. apply Hv; [done|by eapply sat_mono]. Qed.

(** An equation of the substitution. *)
Definition equation_ok (e : Node * Node) : Prop := (∃ τ, wt e.1 τ ∧ wt e.2 τ) ∧ ∀ z, e.1 ≠ mkConstInt z.

Lemma implied_equation eqs x t : equation_ok (x, t) → (x, t) ∈ eqs → implied eqs x t.
Proof. intros [Ht Hz] Hin. split; [done| |intros z ->; by destruct (Hz z)]. intros env _ Hs. unfold sat in Hs. rewrite list.Forall_forall in Hs. symmetry. by apply (Hs (x, t)). Qed.

Lemma implied_children eqs k cs ds τ : wt (mkNode k cs) τ → Forall2 (implied eqs) cs ds → implied eqs (mkNode k cs) (mkNode k ds).
Proof.
  intros Hw HF. split; [exists τ; split; [done|]| |done].
  - eapply wt_children; [exact Hw|eapply Forall2_impl; [|exact HF]; intros c d Hcd t; by apply (implied_wt eqs)|].
    intros z Hz. destruct (Forall2_lookup_l _ _ _ _ _ HF Hz) as (d&Hd&Hi). by rewrite Hd, (implied_int _ _ _ Hi z eq_refl).
  - intros env Hok Hs. cbn [eval]. replace (mapM (eval env) ds) with (mapM (eval env) cs); [done|].
    clear - HF Hok Hs. induction HF as [|c d cs ds Hcd _ IH]; [done|]. cbn [mapM]. by rewrite (implied_value _ _ _ Hcd env Hok Hs), IH.
Qed.

Definition map_ok (eqs : Equations) (s : gmap Node Node) : Prop := ∀ n m, s !! n = Some m → implied eqs n m.

Lemma map_ok_insert eqs s n m : map_ok eqs s → implied eqs n m → map_ok eqs (<[n := m]> s).
Proof. intros Hs Hi x y. destruct (decide (x = n)) as [->|Hne]; [rewrite lookup_insert_eq; by intros [= <-]|rewrite lookup_insert_ne by done; apply Hs]. Qed.

Lemma map_ok_mono eqs eqs' s : (∀ e, e ∈ eqs → e ∈ eqs') → map_ok eqs s → map_ok eqs' s.
Proof. intros He Hs n m Hn. eapply implied_mono; [exact He|by apply Hs]. Qed.

(** ** The loop keeps the meaning *)

Section loop.
Context (eqs : Equations) (compress : bool) (stc : option (Node → bool)).

Definition work_ok (w : Work) : Prop := map_ok eqs (w_subst w) ∧ map_ok eqs (w_cache w).

Definition typed (n : Node) : Prop := ∃ τ, wt n τ.

(** Nothing is forgotten; without compression the substitution is not changed. *)
Record grows (w w' : Work) : Prop := {
  grows_cache n : is_Some (w_cache w !! n) → is_Some (w_cache w' !! n);
  grows_subst n : is_Some (w_subst w !! n) → is_Some (w_subst w' !! n);
  grows_same : compress = false → w_subst w' = w_subst w;
}.

Lemma grows_refl w : grows w w.
Proof using Type. by split. Qed.

Lemma work_grows_trans w1 w2 w3 : grows w1 w2 → grows w2 w3 → grows w1 w3.
Proof using Type. intros [Hc Hs He] [Hc' Hs' He']. split; [auto|auto|]. intros E. by rewrite He', He. Qed.

Lemma insert_is_Some (s : gmap Node Node) n m x : is_Some (s !! x) → is_Some (<[n := m]> s !! x).
Proof using Type. intros Hx. destruct (decide (x = n)) as [->|Hne]; [by rewrite lookup_insert_eq|by rewrite lookup_insert_ne]. Qed.

Lemma setCache_ok n m w : work_ok w → implied eqs n m → work_ok (setCache n m w) ∧ grows w (setCache n m w) ∧ is_Some (w_cache (setCache n m w) !! n).
Proof using Type.
  intros [Hs Hc] Hi. split_and!; [split; [done|by apply map_ok_insert]|split; [intros x; apply insert_is_Some|done..]|cbn; by rewrite lookup_insert_eq].
Qed.

Lemma substituted_ok n m w : work_ok w → implied eqs n m → work_ok (substituted compress n m w) ∧ grows w (substituted compress n m w) ∧ is_Some (w_cache (substituted compress n m w) !! n).
Proof using Type.
  intros [Hs Hc] Hi. unfold substituted. split_and!; [|split; cbn|cbn; by rewrite lookup_insert_eq].
  - split; [|by apply map_ok_insert]. cbn. destruct (_ && _); [by apply map_ok_insert|done].
  - intros x. apply insert_is_Some.
  - intros x Hx. destruct (_ && _); [by apply insert_is_Some|done].
  - intros ->. by rewrite andb_false_r.
Qed.

Lemma resubstituted_ok n m w : work_ok w → implied eqs n m → work_ok (resubstituted compress n m w) ∧ grows w (resubstituted compress n m w).
Proof using Type.
  intros [Hs Hc] Hi. unfold resubstituted. split; [|split; cbn].
  - split; [|by apply map_ok_insert]. cbn. destruct compress; [by apply map_ok_insert|done].
  - intros x. apply insert_is_Some.
  - intros x Hx. destruct compress; [by apply insert_is_Some|done].
  - by intros ->.
Qed.

Lemma changes_ok n w rhs : work_ok w → changes n w = Some rhs → implied eqs n rhs.
Proof using Type. intros [Hs _]. unfold changes. destruct (w_subst w !! n) as [r|] eqn:E; [|done]. destruct (decide _); [done|]. intros [= ->]. by apply Hs. Qed.

Lemma implied_typed n m : implied eqs n m → typed m.
Proof using Type. intros [(τ&_&Hm) _ _]. by exists τ. Qed.

Lemma rebuild_ok n w r : work_ok w → typed n → rebuild compress n w = Some r →
  match r with inl rhs => typed rhs | inr w' => work_ok w' ∧ grows w w' ∧ is_Some (w_cache w' !! n) end.
Proof using Type.
  intros Hw [τ Hn]. destruct n as [| | | |k cs]; try done. cbn [rebuild]. intros (ds&Hds&E)%bind_Some. apply mapM_Some in Hds.
  assert (implied eqs (mkNode k cs) (mkNode k ds)) as Hi. { eapply implied_children; [exact Hn|]. eapply Forall2_impl; [|exact Hds]. intros c d. apply Hw. }
  destruct (decide _); [injection E as <-; by apply setCache_ok|]. destruct (w_cache w !! mkNode k ds) as [r'|] eqn:Ec.
  { injection E as <-. apply setCache_ok; [done|]. eapply implied_trans; [exact Hi|by apply Hw]. }
  destruct (changes (mkNode k ds) w) as [rhs|] eqn:Ech; [|injection E as <-; by apply setCache_ok]. pose proof (changes_ok _ _ _ Hw Ech) as Hr.
  destruct (w_cache w !! rhs) as [c|] eqn:Er; injection E as <-; [|by eapply implied_typed]. assert (implied eqs (mkNode k ds) c) as Hc by (eapply implied_trans; [exact Hr|by apply Hw]).
  destruct (resubstituted_ok _ _ _ Hw Hc) as [H1 G1]. destruct (setCache_ok (mkNode k cs) c _ H1) as (H2&G2&S2); [by eapply implied_trans|]. split_and!; [done|by eapply work_grows_trans|done].
Qed.

Lemma children_typed n c : typed n → c ∈ children n → typed c.
Proof using Type.
  intros [τ Hn] Hc. destruct n as [| | | |k cs]; try (by apply not_elem_of_nil in Hc). destruct (node_children k cs τ Hn) as [ts HF]. apply list_elem_of_lookup in Hc as [i Hi]. destruct (Forall2_lookup_l _ _ _ _ _ HF Hi) as (t&_&Ht). by exists t.
Qed.

(** The children of a node that is waiting for them are in the cache or above it on
    the stack; [above] are the nodes above the stack [l]. *)
Fixpoint stack_ok (w : Work) (above : list Node) (l : list (Node * bool)) : Prop :=
  match l with
  | [] => True
  | (n, added) :: l =>
      (added = true → children n ≠ [] ∧ Forall (λ c, is_Some (w_cache w !! c) ∨ c ∈ above) (children n)) ∧ stack_ok w (n :: above) l
  end.

Lemma stack_mono w w' l : ∀ above above', (∀ c, is_Some (w_cache w !! c) ∨ c ∈ above → is_Some (w_cache w' !! c) ∨ c ∈ above') → stack_ok w above l → stack_ok w' above' l.
Proof using Type.
  induction l as [|[n added] l IH]; intros above above' Hc; [done|]. intros [Hn Hl]. split.
  - intros Ha. destruct (Hn Ha) as [? HF]. split; [done|]. eapply list.Forall_impl; [exact HF|]. exact Hc.
  - eapply IH; [|exact Hl]. intros c [Hs|[->|Hin]%elem_of_cons]; [destruct (Hc c (or_introl Hs)) as [?|?]; [by left|right; by right]|right; by left|destruct (Hc c (or_intror Hin)) as [?|?]; [by left|right; by right]].
Qed.

(** Popping a node that is in the cache now, and pushing others. *)
Lemma stack_pop w w' n added l : stack_ok w [] ((n, added) :: l) → grows w w' → is_Some (w_cache w' !! n) → stack_ok w' [] l.
Proof using Type.
  intros [_ Hl] G Hn. eapply stack_mono; [|exact Hl]. intros c [Hs|[->|Hin]%elem_of_cons]; [left; by eapply grows_cache|by left|by apply not_elem_of_nil in Hin].
Qed.

Lemma stack_push w ns l above : stack_ok w (reverse ns ++ above) l → stack_ok w above (((λ c, (c, false)) <$> ns) ++ l).
Proof using Type.
  revert above. induction ns as [|n ns IH]; intros above Hl; [done|]. split; [done|]. apply IH. rewrite reverse_cons, <- app_assoc in Hl. exact Hl.
Qed.

Lemma stack_children w n l : children n ≠ [] → stack_ok w [] ((n, false) :: l) → stack_ok w [] (pushedChildren (children n) w ++ (n, true) :: l).
Proof using Type.
  intros Hch [_ Hl]. apply stack_push. rewrite app_nil_r, reverse_involutive. split.
  - intros _. split; [done|]. apply list.Forall_forall. intros c Hc. destruct (w_cache w !! c) eqn:E; [left; by eexists|right]. by apply list_elem_of_filter.
  - eapply stack_mono; [|exact Hl]. intros c [?|[->|Hin]%elem_of_cons]; [by left|right; by left|by apply not_elem_of_nil in Hin].
Qed.

(** The assertion about the children holds. *)
Lemma rebuild_returns n w l : stack_ok w [] ((n, true) :: l) → is_Some (rebuild compress n w).
Proof using Type.
  intros [Hn _]. destruct (Hn eq_refl) as [Hch HF]. destruct n as [| | | |k cs]; try done. cbn [children rebuild] in *.
  assert (Forall (λ c, is_Some (w_cache w !! c)) cs) as HF' by (eapply list.Forall_impl; [exact HF|]; by intros c [?|?%not_elem_of_nil]).
  apply (mapM_is_Some_2 (λ c, w_cache w !! c)) in HF' as [ds ->]. cbn [mbind option_bind]. by repeat case_match.
Qed.

(** The loop does not fail, and when it returns all nodes on the stack are in the
    cache. *)
Definition outcome {A} (P : A → Prop) (o : Outcome A) : Prop := match o with Returns a => P a | Fails => False | OutOfFuel => True end.

Lemma substLoop_ok fuel : ∀ toVisit w, work_ok w → Forall (λ e, typed e.1) toVisit → stack_ok w [] toVisit →
  outcome (λ w', work_ok w' ∧ grows w w' ∧ Forall (λ e, is_Some (w_cache w' !! e.1)) toVisit) (substLoop compress stc fuel toVisit w).
Proof using Type.
  induction fuel as [|fuel IH]; intros [|[n added] rest] w Hw HF HS; cbn [substLoop]; try (split_and!; [done|apply grows_refl|constructor]); [done|].
  pose proof HF as [Hn HF']%list.Forall_cons. cbn in Hn. set (Q w' := work_ok w' ∧ grows w w' ∧ Forall (λ e, is_Some (w_cache w' !! e.1)) ((n, added) :: rest)).
  assert (∀ w1, work_ok w1 → grows w w1 → is_Some (w_cache w1 !! n) → outcome Q (substLoop compress stc fuel rest w1)) as Hpop.
  { intros w1 H1 G1 S1. specialize (IH rest w1 H1 HF' (stack_pop _ _ _ _ _ HS G1 S1)). destruct (substLoop _ _ _ _ _) as [w'| |]; [|done..]. destruct IH as (H'&G'&S'). split_and!; [done|by eapply work_grows_trans|]. constructor; [by eapply grows_cache|done]. }
  assert (∀ ns, Forall typed ns → stack_ok w [] (((λ c, (c, false)) <$> ns) ++ (n, added) :: rest) → outcome Q (substLoop compress stc fuel (((λ c, (c, false)) <$> ns) ++ (n, added) :: rest) w)) as Hpush.
  { intros ns Hns HSn. assert (Forall (λ e, typed e.1) (((λ c, (c, false)) <$> ns) ++ (n, added) :: rest)) as HFn by (apply Forall_app; split; [by apply Forall_fmap|done]).
    specialize (IH _ w Hw HFn HSn). destruct (substLoop _ _ _ _ _) as [w'| |]; [|done..]. destruct IH as (H'&G'&S'). by apply Forall_app in S' as [_ S']. }
  assert (∀ rhs, typed rhs → outcome Q (substLoop compress stc fuel ((rhs, false) :: (n, added) :: rest) w)) as Hrhs.
  { intros rhs Hr. apply (Hpush [rhs]); [by constructor|]. apply (stack_push w [rhs]). eapply stack_mono; [|exact HS]. intros c [?|Hin%not_elem_of_nil]; [by left|done]. }
  destruct (decide _) as [Hs|Hs]; [apply Hpop; [done|apply grows_refl|done]|].
  destruct (changes n w) as [rhs|] eqn:Ec.
  { pose proof (changes_ok _ _ _ Hw Ec) as Hi. destruct (w_cache w !! rhs) as [c|] eqn:Er; [|apply Hrhs; by eapply implied_typed].
    destruct (substituted_ok n c w Hw) as (H1&G1&S1); [eapply implied_trans; [exact Hi|by apply Hw]|]. by apply Hpop. }
  destruct added.
  { destruct (rebuild_returns _ _ _ HS) as [r Er]. rewrite Er. cbn [attempt mbind Outcome_bind]. pose proof (rebuild_ok n w r Hw Hn Er) as Hr. destruct r as [rhs|w1]; [by apply (Hrhs rhs)|]. destruct Hr as (H1&G1&S1). by apply (Hpop w1). }
  destruct (recurse stc n && _) eqn:Erec.
  - apply andb_true_iff in Erec as [_ Hch]. apply negb_true_iff, bool_decide_eq_false in Hch. assert (Forall (λ e, typed e.1) (pushedChildren (children n) w ++ (n, true) :: rest)) as HFn.
    { apply Forall_app. split; [|by constructor]. apply list.Forall_forall. intros e (c&->&Hc)%list_elem_of_fmap. apply elem_of_reverse, list_elem_of_filter in Hc as [_ Hc]. by eapply children_typed. }
    specialize (IH _ w Hw HFn (stack_children _ _ _ Hch HS)). destruct (substLoop _ _ _ _ _) as [w'| |]; [|done..]. destruct IH as (H'&G'&S'). apply Forall_app in S' as [_ S']. apply list.Forall_cons in S' as [Sn S']. split_and!; [done|done|]. by constructor.
  - destruct Hn as [τ Hn]. destruct (setCache_ok n n w Hw) as (H1&G1&S1); [by eapply implied_refl|]. by apply Hpop.
Qed.

Lemma internalSubstitute_ok fuel t w : work_ok w → typed t → outcome (λ mw, work_ok mw.2 ∧ grows w mw.2 ∧ implied eqs t mw.1) (internalSubstitute compress stc fuel t w).
Proof using Type.
  intros Hw Ht. unfold internalSubstitute. destruct (decide _).
  - destruct Ht as [τ Ht]. split_and!; [done|apply grows_refl|by eapply implied_refl].
  - assert (stack_ok w [] [(t, false)]) as HS by done. pose proof (substLoop_ok fuel [(t, false)] w Hw ltac:(by constructor) HS) as Hl. destruct (substLoop _ _ _ _ _) as [w1| |]; [|done..].
    destruct Hl as (H1&G1&S1). rewrite Forall_singleton in S1. destruct S1 as [m Em]. cbn [fst] in Em. cbn. rewrite Em. cbn. split_and!; [done..|]. by apply H1.
Qed.

End loop.

(** ** Sequences of operations *)

(** The entries follow from the equations in force; without compression they are
    equations, or erased. *)
Definition entries_ok (compress : bool) (eqs : Equations) (s : gmap Node Node) : Prop :=
  map_ok eqs s ∧ if compress then ∀ e, e ∈ eqs → is_Some (s !! e.1) else ∀ x t, s !! x = Some t → typed x ∧ (x = t ∨ equation_ok (x, t) ∧ (x, t) ∈ eqs).

(** [levels]: the equations in force at each level of the context. *)
Record state_ok (levels : list Equations) (st : SubstitutionMap) : Prop := {
  levels_ok : Forall2 (entries_ok (d_compress st)) levels (d_substitutions st :: d_saved st);
  cache_ok : d_cacheInvalidated st = false → map_ok (default [] (head levels)) (d_substitutionCache st);
}.

Inductive Op :=
  | Push | Pop
  | Add (x t : Node) (invalidate : bool)
  | AddAll (entries : list (Node * Node)) (invalidate : bool)
  | Erase (x : Node) (invalidate : bool)
  | Invalidate
  | Apply (fuel : nat) (t : Node) (r : option (Node → Node)) (tracker : option (gset Node)) (stc : option (Node → bool)).

Definition exec (o : Op) (st : SubstitutionMap) : option SubstitutionMap :=
  match o with
  | Push => Some (pushLevel st)
  | Pop => popLevel st
  | Add x t inv => addSubstitution x t inv st
  | AddAll entries inv => addSubstitutions entries inv st
  | Erase x inv => eraseSubstitution x inv st
  | Invalidate => Some (invalidateCache st)
  | Apply fuel t r tracker stc => match apply fuel t r tracker stc st with Returns (_, st) => Some st | _ => None end
  end.

Fixpoint execAll (os : list Op) (st : SubstitutionMap) : option SubstitutionMap := match os with [] => Some st | o :: os => st ← exec o st; execAll os st end.

(** What the operations do to the equations: an equation that is replaced or erased
    stays in force if the cache is kept. *)
Definition drop_key (x : Node) (eqs : Equations) : Equations := filter (λ e, e.1 ≠ x) eqs.

Definition inForce (o : Op) (levels : list Equations) : list Equations :=
  match levels with
  | [] => []
  | eqs :: outer =>
      match o with
      | Push => eqs :: eqs :: outer
      | Pop => outer
      | Add x t inv => ((x, t) :: if inv : bool then drop_key x eqs else eqs) :: outer
      | AddAll entries inv => (entries ++ eqs) :: outer
      | Erase x inv => (if inv : bool then drop_key x eqs else eqs) :: outer
      | Invalidate | Apply _ _ _ _ _ => eqs :: outer
      end
  end.

Definition op_ok (o : Op) : Prop :=
  match o with Add x t _ => equation_ok (x, t) | AddAll entries _ => Forall equation_ok entries | Apply _ t _ _ _ => typed t | _ => True end.

Lemma drop_key_elem x eqs e : e ∈ drop_key x eqs ↔ e.1 ≠ x ∧ e ∈ eqs.
Proof. unfold drop_key. by rewrite list_elem_of_filter. Qed.

Lemma entries_add compress x t eqs eqs' s : equation_ok (x, t) → entries_ok compress eqs s → (compress = true → s !! x = None) → (∀ e, e ∈ eqs' → e = (x, t) ∨ e ∈ eqs) → (x, t) ∈ eqs' →
  (∀ e, e ∈ eqs → e.1 ≠ x → e ∈ eqs') → entries_ok compress eqs' (<[x := t]> s).
Proof.
  intros He [Hm Hk] Hx Hsub Hin Hkeep. pose proof (implied_equation eqs' x t He Hin) as Hi. split.
  - intros n m. destruct (decide (n = x)) as [->|Hne]; [rewrite lookup_insert_eq; by intros [= <-]|]. rewrite lookup_insert_ne by done. intros Hn. destruct compress.
    + eapply implied_mono; [|by apply Hm]. intros e Hin'. apply Hkeep; [done|]. intros E. destruct (Hk e Hin') as [? Hs]. rewrite E, (Hx eq_refl) in Hs. done.
    + destruct (Hk n m Hn) as [[τ Ht] [->|[Hok Hin']]]; [by eapply implied_refl|]. by apply implied_equation; [|apply Hkeep].
  - destruct compress.
    + intros e [->|Hin']%Hsub; [by rewrite lookup_insert_eq|]. apply insert_is_Some. by apply Hk.
    + intros n m. destruct (decide (n = x)) as [->|Hne]; [rewrite lookup_insert_eq; intros [= <-]; destruct He as [(τ&Hx'&Ht) Hz]; split; [by exists τ|right; split; [split; [by exists τ|done]|done]]|].
      rewrite lookup_insert_ne by done. intros Hn. destruct (Hk n m Hn) as [? [?|[? ?]]]; [split; [done|by left]|]. split; [done|right]. split; [done|]. by apply Hkeep.
Qed.

Lemma entries_loop compress eqs w w' : grows compress w w' → map_ok eqs (w_subst w') → entries_ok compress eqs (w_subst w) → entries_ok compress eqs (w_subst w').
Proof.
  intros [_ Hg Hs] Hm [Hm0 Hk]. split; [done|]. destruct compress; [intros e He; by apply Hg, Hk|]. by rewrite (Hs eq_refl).
Qed.

Lemma addLoop_ok entries inv : ∀ eqs outer st st', Forall equation_ok entries → state_ok (eqs :: outer) st → addLoop entries inv st = Some st' →
  Forall2 (entries_ok (d_compress st')) ((entries ++ eqs) :: outer) (d_substitutions st' :: d_saved st') ∧ (inv = false → d_cacheInvalidated st' = false → map_ok (entries ++ eqs) (d_substitutionCache st')).
Proof.
  intros eqs outer st st' HE [HL HC]. assert (inv = false → d_cacheInvalidated st = false → map_ok eqs (d_substitutionCache st)) as HC' by auto. clear HC. revert eqs st HE HL HC'. induction entries as [|[x t] entries IH]; intros eqs st HE HL HC; cbn [addLoop].
  { by intros [= <-]. }
  intros (_&Ha%assert_Some&E)%bind_Some. apply list.Forall_cons in HE as [He HE]. apply list.Forall2_cons_1 in HL as [Hs HL]. apply negb_true_iff in Ha. unfold hasSubstitution in Ha. apply bool_decide_eq_false in Ha.
  assert (d_substitutions st !! x = None) as Hx by (by apply eq_None_not_Some).
  edestruct (IH ((x, t) :: eqs)) as [HL' HC']; [done| | |exact E|].
  - constructor; [|done]. cbn. eapply entries_add; [done|exact Hs|done| |by left|intros e Hin _; by right]. intros e [->|?]%elem_of_cons; auto.
  - cbn. intros -> Hinv. apply map_ok_insert; [eapply map_ok_mono; [|by apply HC]; intros e ?; by right|]. apply implied_equation; [done|by left].
  - assert (∀ e, e ∈ entries ++ (x, t) :: eqs ↔ e ∈ (x, t) :: entries ++ eqs) as Hperm by (intros e; rewrite !elem_of_cons, !elem_of_app, elem_of_cons; tauto). apply list.Forall2_cons_1 in HL' as [[Hm Hk] HL']. split.
    + constructor; [|done]. split; [eapply map_ok_mono; [|exact Hm]; intros e; apply Hperm|]. destruct (d_compress st'); [intros e Hin; by apply Hk, Hperm|]. intros n m Hn. destruct (Hk n m Hn) as [? [?|[? ?%Hperm]]]; auto.
    + intros Hinv Hci. eapply map_ok_mono; [|by apply HC']. intros e. apply Hperm.
Qed.

(** What [apply] does with the substituted term [m0]. *)
Definition finish (r : option (Node → Node)) (m0 : Node) (tr : option (gset Node)) (st : SubstitutionMap) : Outcome (Node * option (gset Node) * SubstitutionMap) :=
  match r with
  | None => Returns (m0, tr, st)
  | Some rewrite => if decide (rewrite (rewrite m0) = rewrite m0) then Returns (rewrite m0, tr, st) else Fails
  end.

Lemma apply_ok eqs outer fuel t r tracker stc st : state_ok (eqs :: outer) st → typed t → apply fuel t r tracker stc st = OutOfFuel ∨
  ∃ m0 tr st', apply fuel t r tracker stc st = finish r m0 tr st' ∧ state_ok (eqs :: outer) st' ∧ implied eqs t m0.
Proof.
  intros [HL HC] Ht. unfold apply. apply list.Forall2_cons_1 in HL as [Hs HL]. set (w0 := mkWork _ _ _).
  assert (work_ok eqs w0) as Hw0 by (split; [apply Hs|cbn; destruct (d_cacheInvalidated st) eqn:Ei; [by intros n y; rewrite lookup_empty|by apply HC]]).
  pose proof (internalSubstitute_ok eqs (d_compress st) stc fuel t w0 Hw0 Ht) as Hi. destruct (internalSubstitute _ _ _ _ _) as [[m0 w]| |]; [|done|by left]. destruct Hi as ([Hm Hc]&Hg&Hi). cbn [fst snd] in *.
  right. exists m0, (w_tracker w), (setSubstitutions (w_subst w) (w_cache w) false st). split_and!; [| |done].
  - cbn [mbind Outcome_bind]. destruct r as [rewrite|]; [|done]. cbn [finish]. case_decide; [by rewrite bool_decide_true|by rewrite bool_decide_false].
  - split; [|done]. cbn. constructor; [|done]. by eapply entries_loop.
Qed.

Lemma finish_returns r m0 tr st x st' : finish r m0 tr st = Returns (x, st') → st' = st.
Proof. unfold finish. destruct r; [case_decide|]; by intros [= <- <-]. Qed.

Lemma addSubstitution_ok eqs outer x t inv st st' : state_ok (eqs :: outer) st → equation_ok (x, t) → addSubstitution x t inv st = Some st' → state_ok (((x, t) :: if inv then drop_key x eqs else eqs) :: outer) st'.
Proof.
  intros [HL HC] He. unfold addSubstitution. intros (_&Ha%assert_Some&(_&_&[= <-])%bind_Some)%bind_Some. apply list.Forall2_cons_1 in HL as [Hs HL].
  assert (d_compress st = true → d_substitutions st !! x = None) as Hx.
  { intros E. rewrite E in Ha. cbn in Ha. rewrite orb_false_r in Ha. apply negb_true_iff in Ha. unfold hasSubstitution in Ha. apply bool_decide_eq_false in Ha. by apply eq_None_not_Some. }
  assert (entries_ok (d_compress st) ((x, t) :: if inv then drop_key x eqs else eqs) (<[x := t]> (d_substitutions st))) as Hs'.
  { eapply entries_add; [done|exact Hs|done| |by left|].
    - intros e [->|Hin]%elem_of_cons; [by left|right]. destruct inv; [by apply drop_key_elem in Hin as [_ ?]|done].
    - intros e Hin Hne. right. destruct inv; [by apply drop_key_elem|done]. }
  destruct inv; (split; [by constructor|]); [done|]. cbn. intros Hci. apply map_ok_insert; [eapply map_ok_mono; [|by apply HC]; intros e ?; by right|]. apply implied_equation; [done|by left].
Qed.

Lemma eraseSubstitution_ok eqs outer x inv st st' : state_ok (eqs :: outer) st → eraseSubstitution x inv st = Some st' → state_ok ((if inv then drop_key x eqs else eqs) :: outer) st'.
Proof.
  intros [HL HC]. unfold eraseSubstitution. intros (_&Ha%assert_Some&(_&Hh%assert_Some&[= <-])%bind_Some)%bind_Some. apply list.Forall2_cons_1 in HL as [Hs HL]. apply negb_true_iff in Ha. rewrite Ha in *.
  unfold hasSubstitution in Hh. apply bool_decide_eq_true in Hh as [t Hx]. destruct Hs as [Hm Hk]. destruct (Hk x t Hx) as [[τ Hw] _].
  assert (∀ n m, <[x := x]> (d_substitutions st) !! n = Some m → typed n ∧ (n = m ∨ equation_ok (n, m) ∧ (n, m) ∈ (if inv then drop_key x eqs else eqs))) as Hk'.
  { intros n m. destruct (decide (n = x)) as [->|Hne]; [rewrite lookup_insert_eq; intros [= <-]; split; [by exists τ|by left]|]. rewrite lookup_insert_ne by done. intros Hn. destruct (Hk n m Hn) as [? [?|[? ?]]]; [by auto|].
    split; [done|right]. split; [done|]. destruct inv; [by apply drop_key_elem|done]. }
  split; cbn.
  - rewrite Ha. constructor; [|done]. split; [|done]. intros n m Hn. destruct (Hk' n m Hn) as [[τ' Hn'] [->|[? ?]]]; [by eapply implied_refl|by apply implied_equation].
  - destruct inv; [by rewrite orb_true_r|]. rewrite orb_false_r. apply HC.
Qed.

Lemma exec_ok o levels st st' : op_ok o → state_ok levels st → exec o st = Some st' → state_ok (inForce o levels) st'.
Proof.
  intros Ho Hst. pose proof Hst as [HL HC]. destruct levels as [|eqs outer]; [by inversion HL|]. destruct o; cbn [exec inForce op_ok] in *.
  - intros [= <-]. pose proof HL as HL0. apply list.Forall2_cons_1 in HL0 as [Hs HL']. split; [by constructor|exact HC].
  - unfold popLevel. destruct (d_saved st) as [|s saved] eqn:Es; [done|]. intros [= <-]. apply list.Forall2_cons_1 in HL as [_ HL]. by split.
  - by apply addSubstitution_ok.
  - unfold addSubstitutions. intros (st1&E&[= <-])%bind_Some. destruct (addLoop_ok _ _ _ _ _ _ Ho Hst E) as [HL1 HC1]. destruct invalidate; split; try done. by apply HC1.
  - by apply eraseSubstitution_ok.
  - intros [= <-]. by split.
  - destruct (apply_ok _ _ fuel t r tracker stc st Hst Ho) as [->|(m0&tr&st1&->&H1&_)]; [done|]. destruct (finish r m0 tr st1) as [[x st2]| |] eqn:Ef; [|done..]. apply finish_returns in Ef as ->. by intros [= <-].
Qed.

Lemma execAll_ok os : ∀ levels st st', Forall op_ok os → state_ok levels st → execAll os st = Some st' → state_ok (foldl (λ l o, inForce o l) levels os) st'.
Proof.
  induction os as [|o os IH]; intros levels st st' HF Hst; cbn [execAll foldl]; [by intros [= <-]|]. apply list.Forall_cons in HF as [Ho HF]. intros (st1&E1&E2)%bind_Some. eapply IH; [done| |exact E2]. by eapply exec_ok.
Qed.

Lemma new_map_ok compress : state_ok [[]] (newSubstitutionMap compress).
Proof. split; [|done]. constructor; [|constructor]. split; [done|]. destruct compress; [by intros e ?%not_elem_of_nil|done]. Qed.

(** ** Termination *)

(** The symbols without children. *)
Fixpoint leaves (n : Node) : list Node := match n with mkNode _ cs => concat (List.map leaves cs) | _ => [n] end.

Definition isActive (s : gmap Node Node) (x : Node) : bool := match s !! x with Some t => negb (bool_decide (t = x)) | None => false end.

(** Variables are substituted, and the substituted variables of a right-hand side
    come before the left-hand side. *)
Definition acyclic (rank : Node → nat) (s : gmap Node Node) : Prop :=
  ∀ x t, s !! x = Some t → leaves x = [x] ∧ (t ≠ x → ∀ y, y ∈ leaves t → isActive s y = true → (rank y < rank x)%nat).

(** No substituted variable is left. *)
Definition resolved (s : gmap Node Node) (n : Node) : Prop := ∀ y, y ∈ leaves n → isActive s y = false.

Definition cache_resolved (s c : gmap Node Node) : Prop := ∀ n m, c !! n = Some m → resolved s m.

Lemma leaves_child k cs c y : c ∈ cs → y ∈ leaves c → y ∈ leaves (mkNode k cs).
Proof. intros Hc Hy. cbn [leaves]. apply list_elem_of_In, in_concat. exists (leaves c). split; [apply in_map|]; by apply list_elem_of_In. Qed.

Lemma leaves_node k cs y : y ∈ leaves (mkNode k cs) → ∃ c, c ∈ cs ∧ y ∈ leaves c.
Proof. cbn [leaves]. intros (l&(c&<-&Hc)%in_map_iff&Hy)%list_elem_of_In%in_concat. exists c. by rewrite !list_elem_of_In. Qed.

Section terminates.
Context (compress : bool) (s0 : gmap Node Node) (rank : Node → nat) (Hac : acyclic rank s0).

Definition weight (y : Node) : nat := if isActive s0 y then S (rank y) else 0.
Definition height (n : Node) : nat := max_list (weight <$> leaves n).

(** The entries of the map are those of [s0], or resolved. *)
Record run_ok (w : Work) : Prop := {
  run_subst x : w_subst w !! x = s0 !! x ∨ isActive s0 x = true ∧ ∃ c, w_subst w !! x = Some c ∧ resolved s0 c;
  run_cache : cache_resolved s0 (w_cache w);
}.

Definition later (w w' : Work) : Prop := (∀ n, is_Some (w_cache w !! n) → is_Some (w_cache w' !! n)) ∧ ∀ n, w_cache w' !! n = None → w_subst w' !! n = w_subst w !! n.

Lemma run_later_trans w1 w2 w3 : later w1 w2 → later w2 w3 → later w1 w3.
Proof using Type.
  intros [Hc Hs] [Hc' Hs']. split; [auto|]. intros n Hn. rewrite Hs', Hs; [done| |done]. apply eq_None_not_Some. intros Hx%Hc'. by rewrite Hn in Hx; destruct Hx.
Qed.

Lemma height_leaf y n : y ∈ leaves n → (weight y ≤ height n)%nat.
Proof using Type. intros Hy. unfold height. by apply max_list_elem_of_le, list_elem_of_fmap_2. Qed.

Lemma height_le n b : (∀ y, y ∈ leaves n → (weight y ≤ b)%nat) → (height n ≤ b)%nat.
Proof using Type. unfold height. induction (leaves n) as [|y l IH]; intros Hy; cbn; [lia|]. pose proof (Hy y (list_elem_of_here _ _)). assert (max_list (weight <$> l) ≤ b)%nat by (apply IH; intros z Hz; apply Hy; by right). unfold fmap in *. lia. Qed.

Lemma resolved_height n : resolved s0 n → height n = 0%nat.
Proof using Type. intros Hn. assert (height n ≤ 0)%nat; [|lia]. apply height_le. intros y Hy. unfold weight. by rewrite Hn. Qed.

Lemma height_child k cs c : c ∈ cs → (height c ≤ height (mkNode k cs))%nat.
Proof using Type. intros Hc. apply height_le. intros y Hy. apply height_leaf. by eapply leaves_child. Qed.

Lemma active_leaf x : isActive s0 x = true → leaves x = [x] ∧ height x = S (rank x).
Proof using Hac.
  unfold isActive. destruct (s0 !! x) as [t|] eqn:E; [|done]. intros Ht. destruct (Hac x t E) as [Hl _]. split; [done|]. unfold height, weight, isActive. rewrite Hl. cbn. rewrite E, Ht. lia.
Qed.

(** A substituted term is replaced by one that comes before it. *)
Lemma changes_lower n w rhs : run_ok w → changes n w = Some rhs → isActive s0 n = true ∧ (height rhs < height n)%nat.
Proof using Hac.
  intros [Hs _] Hc. assert (w_subst w !! n = Some rhs ∧ rhs ≠ n) as [E Hne]. { unfold changes in Hc. destruct (w_subst w !! n) as [t|]; [|done]. destruct (decide (t = n)); [done|]. injection Hc as ->. done. }
  destruct (Hs n) as [E0|(Ha&c&E0&Hr)].
  - assert (isActive s0 n = true) as Ha by (unfold isActive; rewrite <- E0, E; by rewrite bool_decide_false). split; [done|]. rewrite (proj2 (active_leaf n Ha)). apply Nat.lt_succ_r, height_le. intros y Hy. unfold weight. destruct (isActive s0 y) eqn:Ey; [|lia].
    destruct (Hac n rhs) as [_ Hlt]; [congruence|]. by apply (Hlt Hne).
  - split; [done|]. assert (c = rhs) as -> by congruence. rewrite (resolved_height _ Hr), (proj2 (active_leaf n Ha)). lia.
Qed.

Lemma unchanged n w : run_ok w → changes n w = None → isActive s0 n = false.
Proof using Hac.
  intros [Hs _] Hc. destruct (isActive s0 n) eqn:Ha; [|done]. exfalso. unfold changes in Hc. destruct (Hs n) as [E|(_&c&E&Hr)]; rewrite E in Hc.
  - unfold isActive in Ha. destruct (s0 !! n) as [t|]; [|done]. apply negb_true_iff, bool_decide_eq_false in Ha. by rewrite decide_False in Hc.
  - destruct (decide (c = n)) as [->|]; [|done]. specialize (Hr n). rewrite (proj1 (active_leaf n Ha)) in Hr. rewrite Hr in Ha; [done|by left].
Qed.

Lemma node_inactive k cs : isActive s0 (mkNode k cs) = false.
Proof using Hac.
  destruct (isActive s0 (mkNode k cs)) eqn:Ha; [|done]. destruct (active_leaf _ Ha) as [Hl _]. assert (mkNode k cs ∈ leaves (mkNode k cs)) as Hin by (rewrite Hl; by left).
  exfalso. assert (∀ n m, m ∈ leaves n → children m = []) as Hch; [|apply Hch in Hin; cbn in Hin; subst cs; by cbn in Hl].
  clear. induction n as [| | | |k cs IH] using Node_ind'; intros m Hm; try (apply list_elem_of_singleton in Hm as ->; done). apply leaves_node in Hm as (c&Hc&Hm). rewrite list.Forall_forall in IH. by eapply IH.
Qed.

Lemma node_unchanged k cs w : run_ok w → changes (mkNode k cs) w = None.
Proof using Hac. intros Hw. destruct (changes (mkNode k cs) w) as [rhs|] eqn:E; [|done]. destruct (changes_lower _ _ _ Hw E) as [Ha _]. by rewrite node_inactive in Ha. Qed.

Lemma setCache_run n m w : run_ok w → resolved s0 m → run_ok (setCache n m w) ∧ later w (setCache n m w) ∧ is_Some (w_cache (setCache n m w) !! n).
Proof using Type.
  intros [Hs Hc] Hm. split_and!; [split; [done|]|split; [intros x; apply insert_is_Some|done]|cbn; by rewrite lookup_insert_eq].
  intros x y. cbn. destruct (decide (x = n)) as [->|Hne]; [rewrite lookup_insert_eq; by intros [= <-]|rewrite lookup_insert_ne by done; apply Hc].
Qed.

Lemma substituted_run n c w : run_ok w → isActive s0 n = true → resolved s0 c → run_ok (substituted compress n c w) ∧ later w (substituted compress n c w) ∧ is_Some (w_cache (substituted compress n c w) !! n).
Proof using Type.
  intros [Hs Hc] Ha Hr. split_and!; [split; cbn|split; cbn|cbn; by rewrite lookup_insert_eq].
  - intros x. destruct (_ && _); [|done]. destruct (decide (x = n)) as [->|Hne]; [right; split; [done|]; exists c; by rewrite lookup_insert_eq|rewrite lookup_insert_ne by done; apply Hs].
  - intros x y. cbn. destruct (decide (x = n)) as [->|Hne]; [rewrite lookup_insert_eq; by intros [= <-]|rewrite lookup_insert_ne by done; apply Hc].
  - intros x. apply insert_is_Some.
  - intros x Hx. destruct (_ && _); [|done]. destruct (decide (x = n)) as [->|Hne]; [by rewrite lookup_insert_eq in Hx|by rewrite lookup_insert_ne].
Qed.

(** The loop processes the nodes [ns] on top of the stack. *)
Definition processes (ns : list (Node * bool)) (w : Work) : Prop := ∃ j w', run_ok w' ∧ later w w' ∧ Forall (λ e, is_Some (w_cache w' !! e.1)) ns ∧
  ∀ fuel rest, substLoop compress None (j + fuel) (ns ++ rest) w = substLoop compress None fuel rest w'.

Lemma processes_nil w : run_ok w → processes [] w.
Proof using Type. intros Hw. exists 0%nat, w. by split_and!. Qed.

Lemma processes_cons e ns w : processes [e] w → (∀ w', run_ok w' → later w w' → processes ns w') → processes (e :: ns) w.
Proof using Type.
  intros (j1&w1&H1&L1&S1&E1) Hns. destruct (Hns w1 H1 L1) as (j2&w2&H2&L2&S2&E2). exists (j1 + j2)%nat, w2. rewrite Forall_singleton in S1. split_and!; [done|by eapply run_later_trans|constructor; [by apply L2|done]|].
  intros fuel rest. rewrite <- Nat.add_assoc. specialize (E1 (j2 + fuel)%nat (ns ++ rest)). cbn [app] in *. by rewrite E1.
Qed.

(** One step that pops the node. *)
Lemma processes_pop e w w' : run_ok w' → later w w' → is_Some (w_cache w' !! e.1) → (∀ fuel rest, substLoop compress None (S fuel) (e :: rest) w = substLoop compress None fuel rest w') → processes [e] w.
Proof using Type. intros H' L' S' E. exists 1%nat, w'. split_and!; [done..|by rewrite Forall_singleton|exact E]. Qed.

Lemma processes_cached e w : run_ok w → is_Some (w_cache w !! e.1) → processes [e] w.
Proof using Type. intros Hw Hs. apply (processes_pop e w w); [done|done|done|]. intros fuel rest. destruct e as [n added]. cbn [substLoop]. by rewrite decide_True. Qed.

(** A step that pushes nodes, which are processed before the node is seen again. *)
Lemma processes_push e e' ns w : e'.1 = e.1 → run_ok w → processes ns w → (∀ w', run_ok w' → later w w' → Forall (λ d, is_Some (w_cache w' !! d.1)) ns → processes [e'] w') →
  (∀ fuel rest, substLoop compress None (S fuel) (e :: rest) w = substLoop compress None fuel (ns ++ e' :: rest) w) → processes [e] w.
Proof using Type.
  intros He Hw (j1&w1&H1&L1&S1&E1) Hnext E. destruct (Hnext w1 H1 L1 S1) as (j2&w2&H2&L2&S2&E2). exists (S (j1 + j2)), w2. rewrite Forall_singleton, He in S2. split_and!; [done|by eapply run_later_trans|by rewrite Forall_singleton|].
  intros fuel rest. change (substLoop compress None (S (j1 + j2 + fuel)) (e :: rest) w = substLoop compress None fuel rest w2). rewrite E, <- Nat.add_assoc, E1. apply E2.
Qed.

(** A substituted node: its right-hand side comes first. *)
Lemma processes_changes n w rhs : run_ok w → w_cache w !! n = None → changes n w = Some rhs → (∀ w', run_ok w' → processes [(rhs, false)] w') → processes [(n, false)] w.
Proof using Hac.
  intros Hw Hn Hc IH. assert (∀ w1 c, run_ok w1 → w_cache w1 !! n = None → changes n w1 = Some rhs → w_cache w1 !! rhs = Some c → processes [(n, false)] w1) as Hpop.
  { intros w1 c H1 Hn1 Hc1 Er. destruct (changes_lower _ _ _ H1 Hc1) as [Ha _]. destruct (substituted_run n c w1 H1 Ha (run_cache _ H1 _ _ Er)) as (H'&L'&S'). eapply processes_pop; [done..|].
    intros fuel rest. cbn [substLoop]. rewrite decide_False by (rewrite Hn1; by intros []). by rewrite Hc1, Er. }
  destruct (w_cache w !! rhs) as [c|] eqn:Er; [by apply (Hpop w c)|]. apply (processes_push _ (n, false) [(rhs, false)]); [done|done|by apply IH| |].
  - intros w1 H1 L1 S1. rewrite Forall_singleton in S1. cbn in S1. destruct S1 as [c Er1]. destruct (w_cache w1 !! n) as [m|] eqn:En1; [apply processes_cached; [done|by exists m]|]. eapply (Hpop w1 c); [done|done| |done].
    rewrite <- Hc. unfold changes. by rewrite (proj2 L1 n En1).
  - intros fuel rest. cbn [substLoop]. rewrite decide_False by (rewrite Hn; by intros []). by rewrite Hc, Er.
Qed.

(** A node whose children are in the cache. *)
Lemma processes_added k cs w : run_ok w → Forall (λ c, is_Some (w_cache w !! c)) cs → processes [(mkNode k cs, true)] w.
Proof using Hac.
  intros Hw HF. destruct (w_cache w !! mkNode k cs) as [m|] eqn:En; [apply processes_cached; [done|by exists m]|]. apply (mapM_is_Some_2 (λ c, w_cache w !! c)) in HF as [ds Hds]. pose proof Hds as HF%mapM_Some.
  assert (resolved s0 (mkNode k ds)) as Hr. { intros y (d&[i Hi]%list_elem_of_lookup&Hy)%leaves_node. destruct (Forall2_lookup_r _ _ _ _ _ HF Hi) as (c&_&Ec). by apply (run_cache _ Hw c d). }
  assert (∃ m, rebuild compress (mkNode k cs) w = Some (inr (setCache (mkNode k cs) m w)) ∧ resolved s0 m) as (m&E&Hm).
  { cbn [rebuild]. rewrite Hds. cbn [mbind option_bind]. destruct (decide _); [by eexists|]. destruct (w_cache w !! mkNode k ds) as [m|] eqn:Em; [exists m; split; [done|by apply (run_cache _ Hw _ _ Em)]|]. rewrite (node_unchanged k ds w Hw). by eexists. }
  destruct (setCache_run (mkNode k cs) m w Hw Hm) as (H'&L'&S'). eapply processes_pop; [done..|]. intros fuel rest. cbn [substLoop]. rewrite decide_False by (rewrite En; by intros []). rewrite (node_unchanged k cs w Hw). by rewrite E.
Qed.

Lemma processes_all cs : (∀ c, c ∈ cs → ∀ w, run_ok w → processes [(c, false)] w) → ∀ w, run_ok w → processes ((λ c, (c, false)) <$> cs) w.
Proof using Type.
  induction cs as [|c cs IH]; intros Hc w Hw; [by apply processes_nil|]. cbn. apply processes_cons; [apply Hc; [by left|done]|]. intros w' H' _. apply IH; [|done]. intros d Hd. apply Hc. by right.
Qed.

Lemma processes_node h : ∀ size n, (height n ≤ h)%nat → (nsize n ≤ size)%nat → ∀ w, run_ok w → processes [(n, false)] w.
Proof using Hac.
  induction h as [h IHh] using lt_wf_ind. induction size as [|size IHs]; intros n Hh Hs w Hw; [pose proof (nsize_pos n); lia|].
  destruct (w_cache w !! n) as [m|] eqn:En; [apply processes_cached; [done|by exists m]|]. destruct (changes n w) as [rhs|] eqn:Ec.
  { apply (processes_changes n w rhs Hw En Ec). intros w' H'. destruct (changes_lower n w rhs Hw Ec) as [_ Hlt]. by apply (IHh (height rhs) ltac:(lia) (nsize rhs) rhs). }
  destruct (decide (children n = [])) as [Hch|Hch].
  - assert (resolved s0 n) as Hr. { intros y Hy. destruct n as [| | | |k cs]; [apply list_elem_of_singleton in Hy as ->; by apply (unchanged _ w)..|]. cbn in Hch. subst cs. by apply not_elem_of_nil in Hy. }
    destruct (setCache_run n n w Hw Hr) as (H'&L'&S'). eapply processes_pop; [done..|]. intros fuel rest. cbn [substLoop]. rewrite decide_False by (rewrite En; by intros []). rewrite Ec, bool_decide_true by done. done.
  - destruct n as [| | | |k cs]; try done. cbn in Hch. apply (processes_push _ (mkNode k cs, true) (pushedChildren cs w)); [done|done| | |].
    + apply processes_all; [|done]. intros c Hc. apply elem_of_reverse, list_elem_of_filter in Hc as [_ Hc]. apply IHs; [pose proof (height_child k cs c Hc); lia|pose proof (nsize_child k cs c Hc); lia].
    + intros w' H' L' S'. apply processes_added; [done|]. apply list.Forall_forall. intros c Hc. destruct (w_cache w !! c) as [m|] eqn:Ecc; [apply L'; by exists m|].
      rewrite list.Forall_forall in S'. apply (S' (c, false)). unfold pushedChildren. apply list_elem_of_fmap. exists c. split; [done|]. by apply elem_of_reverse, list_elem_of_filter.
    + intros fuel rest. cbn [substLoop children]. rewrite decide_False by (rewrite En; by intros []). rewrite Ec, bool_decide_false by done. done.
Qed.

(** Compression keeps the substituted variables, and the order. *)
Lemma run_active w x : run_ok w → isActive (w_subst w) x = isActive s0 x.
Proof using Hac.
  intros [Hs _]. destruct (Hs x) as [E|(Ha&c&E&Hr)]; [unfold isActive; by rewrite E|]. rewrite Ha. unfold isActive. rewrite E. apply negb_true_iff, bool_decide_eq_false. intros ->.
  specialize (Hr x). rewrite (proj1 (active_leaf x Ha)) in Hr. rewrite Hr in Ha; [done|by left].
Qed.

Lemma run_acyclic w : run_ok w → acyclic rank (w_subst w) ∧ cache_resolved (w_subst w) (w_cache w).
Proof using Hac.
  intros Hw. split; [|intros n m Hn y Hy; rewrite run_active by done; by apply (run_cache _ Hw n m)]. intros x t Hx. destruct (run_subst _ Hw x) as [E|(Ha&c&E&Hr)].
  - rewrite E in Hx. destruct (Hac x t Hx) as [Hl Hlt]. split; [done|]. intros Hne y Hy. rewrite run_active by done. by apply Hlt.
  - assert (c = t) as -> by congruence. split; [by apply active_leaf|]. intros _ y Hy. rewrite run_active by done. by rewrite Hr.
Qed.

Lemma internalSubstitute_run t w : run_ok w → ∃ bound m w', run_ok w' ∧ resolved s0 m ∧ ∀ fuel, (bound ≤ fuel)%nat → internalSubstitute compress None fuel t w = Returns (m, w').
Proof using Hac.
  intros Hw. unfold internalSubstitute. destruct (decide (w_subst w = ∅)) as [E|_].
  { exists 0%nat, t, w. split_and!; [done| |done]. intros y _. rewrite <- (run_active w y Hw). unfold isActive. by rewrite E, lookup_empty. }
  destruct (processes_node (height t) (nsize t) t (le_n _) (le_n _) w Hw) as (j&w'&H'&_&S'&E). rewrite Forall_singleton in S'. destruct S' as [m Em]. exists j, m, w'. split_and!; [done|by apply (run_cache _ H' t m)|].
  intros fuel Hf. specialize (E (fuel - j)%nat []). replace (j + (fuel - j))%nat with fuel in E by lia. cbn [app] in E. rewrite E. assert (substLoop compress None (fuel - j) [] w' = Returns w') as -> by (by destruct (fuel - j)%nat). cbn [mbind Outcome_bind]. cbn in Em. by rewrite Em.
Qed.

End terminates.

(** The same for a state of the map. *)
Lemma internalSubstitute_state st rank t tracker : acyclic rank (d_substitutions st) → d_cacheInvalidated st = true ∨ cache_resolved (d_substitutions st) (d_substitutionCache st) →
  ∃ bound m w, run_ok (d_substitutions st) w ∧ resolved (d_substitutions st) m ∧
    ∀ fuel, (bound ≤ fuel)%nat → internalSubstitute (d_compress st) None fuel t (mkWork (d_substitutions st) (if d_cacheInvalidated st then ∅ else d_substitutionCache st) tracker) = Returns (m, w).
Proof.
  intros Hac Hc. apply (internalSubstitute_run (d_compress st) (d_substitutions st) rank Hac).
  split; [by left|]. cbn. destruct Hc as [-> |Hc]; [by intros n y; rewrite lookup_empty|]. destruct (d_cacheInvalidated st); [by intros n y; rewrite lookup_empty|done].
Qed.



(** ** A substitution *)

(** [x -> y + 1] and [y -> z], with another equation on a level that was popped;
    the map is compressed. *)
Definition sub8 (i : positive) : Node := mkVar i (BITVECTOR_TYPE 8).
Definition one8 : Node := mkConstBV (mkBitVector 8 1).
Definition sample_ops : list Op := [Add (sub8 1) (mkNode2 BITVECTOR_ADD (sub8 2) one8) true; Push; Add (sub8 2) one8 true; Pop; Add (sub8 2) (sub8 3) true].
Definition sample_map : gmap Node Node := <[sub8 2 := sub8 3]> (<[sub8 1 := mkNode2 BITVECTOR_ADD (sub8 2) one8]> ∅).
Definition sample_term : Node := mkNode2 BITVECTOR_ULT (sub8 1) (sub8 2).
Definition sample_result : Node := mkNode2 BITVECTOR_ULT (mkNode2 BITVECTOR_ADD (sub8 3) one8) (sub8 3).

Lemma sample_ops_ok : Forall op_ok sample_ops.
Proof. repeat (apply list.Forall_cons; split; [try done; (split; [by exists (BITVECTOR_TYPE 8)|done])|]). constructor. Qed.

Lemma sample_run : ∃ st, execAll sample_ops (newSubstitutionMap true) = Some st ∧ d_substitutions st = sample_map ∧ d_cacheInvalidated st = true ∧
  (match apply 20 sample_term None None None st with Returns (m, _, _) => Some m | _ => None end) = Some sample_result.
Proof. exists (mkSubstitutionMap sample_map [] ∅ true true). split; [reflexivity|]. split; [done|]. split; [done|]. vm_compute. reflexivity. Qed.


