(* ===== verification/CircuitPropagator.v ===== *)
(** [theory/booleans/circuit_propagator.cpp]: propagation of truth values through
    the Boolean structure of the assertions.  Proofs are not enabled.  [None] is a
    failed assertion, [Unhandled()], or a missing entry of [d_backEdges].

    The members that live in [d_context] are their current values; [d_context] is
    the stack of the values saved by [push], which [pop] restores. *)
From stdpp Require Import base option list gmap numbers.
From S2P Require Import Prelude Node TypeRules Rewriter.

(** ** State *)

Inductive AssignmentStatus := UNASSIGNED | ASSIGNED_TO_TRUE | ASSIGNED_TO_FALSE.

#[global] Instance AssignmentStatus_eq_dec : EqDecision AssignmentStatus.
Proof. solve_decision. Defined.

(** A level of [d_context]: [d_conflict], [d_seen] and [d_state]. *)
Record Saved := mkSaved { s_conflict : option Node; s_seen : gset Node; s_state : gmap Node AssignmentStatus }.

Record CircuitPropagator := mkCircuitPropagator {
  d_context : list Saved;
  d_propagationQueue : list Node;
  d_conflict : option Node;
  d_learnedLiterals : list Node;
  d_backEdges : gmap Node (list Node);
  d_seen : gset Node;
  d_state : gmap Node AssignmentStatus;
  d_needsFinish : bool;
}.

Definition newCircuitPropagator : CircuitPropagator := mkCircuitPropagator [] [] None [] ∅ ∅ ∅ false.

(** [d_context.push()], and [d_context.pop()] with the three [DataClearer]s. *)
Definition pushContext (st : CircuitPropagator) : CircuitPropagator :=
  mkCircuitPropagator (mkSaved (d_conflict st) (d_seen st) (d_state st) :: d_context st)
    (d_propagationQueue st) (d_conflict st) (d_learnedLiterals st) (d_backEdges st) (d_seen st) (d_state st) (d_needsFinish st).

Definition popContext (st : CircuitPropagator) : option CircuitPropagator :=
  match d_context st with
  | [] => None
  | sv :: saved => Some (mkCircuitPropagator saved [] (s_conflict sv) [] ∅ (s_seen sv) (s_state sv) (d_needsFinish st))
  end.

Definition setNeedsFinish (st : CircuitPropagator) : CircuitPropagator :=
  mkCircuitPropagator (d_context st) (d_propagationQueue st) (d_conflict st) (d_learnedLiterals st) (d_backEdges st) (d_seen st) (d_state st) true.

Definition initialize (st : CircuitPropagator) : option CircuitPropagator :=
  st ← (if d_needsFinish st then popContext st else Some st);
  Some (setNeedsFinish (pushContext st)).

(** ** Assignments *)

Definition getAssignment (st : CircuitPropagator) (n : Node) : option bool :=
  match d_state st !! n with Some ASSIGNED_TO_TRUE => Some true | Some ASSIGNED_TO_FALSE => Some false | _ => None end.

Definition isAssigned (st : CircuitPropagator) (n : Node) : bool :=
  match d_state st !! n with Some s => bool_decide (s ≠ UNASSIGNED) | None => false end.

Definition isAssignedTo (st : CircuitPropagator) (n : Node) (value : bool) : bool :=
  match d_state st !! n with
  | None => false
  | Some s => if value && bool_decide (s = ASSIGNED_TO_TRUE) then true else negb value && bool_decide (s = ASSIGNED_TO_FALSE)
  end.

Definition makeConflict (st : CircuitPropagator) : CircuitPropagator :=
  mkCircuitPropagator (d_context st) (d_propagationQueue st) (Some (mkConstBool false)) (d_learnedLiterals st) (d_backEdges st) (d_seen st) (d_state st) (d_needsFinish st).

Definition setState (n : Node) (s : AssignmentStatus) (st : CircuitPropagator) : CircuitPropagator :=
  mkCircuitPropagator (d_context st) (d_propagationQueue st) (d_conflict st) (d_learnedLiterals st) (d_backEdges st) (d_seen st) (<[n := s]> (d_state st)) (d_needsFinish st).

Definition enqueue (n : Node) (st : CircuitPropagator) : CircuitPropagator :=
  mkCircuitPropagator (d_context st) (d_propagationQueue st ++ [n]) (d_conflict st) (d_learnedLiterals st) (d_backEdges st) (d_seen st) (d_state st) (d_needsFinish st).

(** [d_state[n]] on a key that is not there adds it with the value 0. *)
Definition readState (n : Node) (st : CircuitPropagator) : AssignmentStatus * CircuitPropagator :=
  match d_state st !! n with Some s => (s, st) | None => (UNASSIGNED, setState n UNASSIGNED st) end.

Definition assignAndEnqueue (n : Node) (value : bool) (st : CircuitPropagator) : CircuitPropagator :=
  if match n with mkConstBool b => negb (eqb value b) | _ => false end then makeConflict st
  else
    let '(state, st) := readState n st in
    if negb (bool_decide (state = UNASSIGNED)) then
      if negb (eqb value (bool_decide (state = ASSIGNED_TO_TRUE))) then makeConflict st else st
    else enqueue n (setState n (if value then ASSIGNED_TO_TRUE else ASSIGNED_TO_FALSE) st).

(** ** Back edges *)

(** [Theory::theoryOf], in the mode [THEORY_OF_TYPE_BASED]. *)
Definition theoryOf (node : Node) : option TheoryId :=
  match node with
  | mkVar _ _ => theoryOfType <$> typeOf node
  | mkConstBool _ => Some THEORY_BOOL
  | mkConstInt _ => Some THEORY_ARITH
  | mkConstBV _ => Some THEORY_BV
  | mkNode EQUAL cs => c ← cs !! 0%nat; theoryOfType <$> typeOf c
  | mkNode k _ => Some (kindToTheoryId k)
  end.

Definition addSeen (n : Node) (st : CircuitPropagator) : CircuitPropagator :=
  mkCircuitPropagator (d_context st) (d_propagationQueue st) (d_conflict st) (d_learnedLiterals st) (d_backEdges st) ({[n]} ∪ d_seen st) (d_state st) (d_needsFinish st).

Definition setBackEdges (n : Node) (ps : list Node) (st : CircuitPropagator) : CircuitPropagator :=
  mkCircuitPropagator (d_context st) (d_propagationQueue st) (d_conflict st) (d_learnedLiterals st) (<[n := ps]> (d_backEdges st)) (d_seen st) (d_state st) (d_needsFinish st).

(** [d_backEdges[n]]. *)
Definition edges (n : Node) (st : CircuitPropagator) : list Node := default [] (d_backEdges st !! n).

(** The loop over the children of [current]. *)
Fixpoint visitChildren (current : Node) (cs : list Node) (toVisit : list Node) (st : CircuitPropagator) : list Node * CircuitPropagator :=
  match cs with
  | [] => (toVisit, st)
  | childNode :: cs =>
      let st := setBackEdges childNode (edges childNode st ++ [current]) st in
      if decide (childNode ∈ d_seen st) then visitChildren current cs toVisit st
      else visitChildren current cs (toVisit ++ [childNode]) (addSeen childNode st)
  end.

(** The loop over [toVisit]; the list starts with [toVisit[i]]. *)
Fixpoint backEdgesLoop (fuel : nat) (toVisit : list Node) (st : CircuitPropagator) : option CircuitPropagator :=
  match toVisit, fuel with
  | [], _ => Some st
  | _, O => None
  | current :: toVisit, S fuel =>
      _ ← assert (bool_decide (current ∈ d_seen st));
      t ← theoryOf current;
      if decide (t = THEORY_BOOL) then
        let '(toVisit, st) := visitChildren current (children current) toVisit st in backEdgesLoop fuel toVisit st
      else backEdgesLoop fuel toVisit st
  end.

Definition computeBackEdges (node : Node) (st : CircuitPropagator) : option CircuitPropagator :=
  let '(toVisit, st) := if decide (node ∈ d_seen st) then ([], st) else ([node], addSeen node st) in
  backEdgesLoop (nsize node) toVisit (setBackEdges node (edges node st) st).

Fixpoint assertTrue (assertion : Node) (st : CircuitPropagator) : option CircuitPropagator :=
  match assertion with
  | mkConstBool false => Some (makeConflict st)
  | mkNode AND cs =>
      (fix go (cs : list Node) (st : CircuitPropagator) : option CircuitPropagator :=
         match cs with [] => Some st | c :: cs => st ← assertTrue c st; go cs st end) cs st
  | _ => st ← computeBackEdges assertion st; Some (assignAndEnqueue assertion true st)
  end.

(** ** Backward propagation *)

(** [find_if]: the first element that satisfies the predicate and the ones after it. *)
Fixpoint find_if (p : Node → bool) (ns : list Node) : option (Node * list Node) :=
  match ns with [] => None | n :: ns => if p n then Some (n, ns) else find_if p ns end.

Definition find_if_unique (p : Node → bool) (ns : list Node) : option Node :=
  match find_if p ns with
  | None => None
  | Some (n, ns) => match find_if p ns with None => Some n | Some _ => None end
  end.

Definition assignAll (value : bool) (ns : list Node) (st : CircuitPropagator) : CircuitPropagator :=
  foldl (λ st n, assignAndEnqueue n value st) st ns.

(** [AND] with [value = true], and [OR] with [value = false]. *)
Definition backwardNary (value : bool) (cs : list Node) (parentAssignment : bool) (st : CircuitPropagator) : CircuitPropagator :=
  if eqb parentAssignment value then assignAll value cs st
  else match find_if_unique (λ x, negb (isAssignedTo st x value)) cs with
       | Some holdout => assignAndEnqueue holdout (negb value) st
       | None => st
       end.

Definition backwardIte (c x y : Node) (parentAssignment : bool) (st : CircuitPropagator) : option CircuitPropagator :=
  if isAssignedTo st c true then Some (assignAndEnqueue x parentAssignment st)
  else if isAssignedTo st c false then Some (assignAndEnqueue y parentAssignment st)
  else if isAssigned st x && isAssigned st y then
    vx ← getAssignment st x; vy ← getAssignment st y;
    if eqb vx parentAssignment && negb (eqb vy parentAssignment) then Some (assignAndEnqueue c true st)
    else if negb (eqb vx parentAssignment) && eqb vy parentAssignment then Some (assignAndEnqueue c false st)
    else Some st
  else Some st.

(** [EQUAL] with [flip = not parentAssignment], and [XOR] with
    [flip = parentAssignment]. *)
Definition backwardIff (x y : Node) (flip : bool) (st : CircuitPropagator) : option CircuitPropagator :=
  if isAssigned st x then v ← getAssignment st x; Some (assignAndEnqueue y (xorb flip v) st)
  else if isAssigned st y then v ← getAssignment st y; Some (assignAndEnqueue x (xorb flip v) st)
  else Some st.

Definition backwardImplies (x y : Node) (parentAssignment : bool) (st : CircuitPropagator) : CircuitPropagator :=
  if parentAssignment then
    let st := if isAssignedTo st x true then assignAndEnqueue y true st else st in
    if isAssignedTo st y false then assignAndEnqueue x false st else st
  else assignAndEnqueue y false (assignAndEnqueue x true st).

Definition propagateBackward (parent : Node) (parentAssignment : bool) (st : CircuitPropagator) : option CircuitPropagator :=
  match parent with
  | mkNode AND cs => Some (backwardNary true cs parentAssignment st)
  | mkNode OR cs => Some (backwardNary false cs parentAssignment st)
  | mkNode NOT (a :: _) => Some (assignAndEnqueue a (negb parentAssignment) st)
  | mkNode ITE (c :: x :: y :: _) => backwardIte c x y parentAssignment st
  | mkNode EQUAL (x :: y :: _) => t ← typeOf x; _ ← assert (isBoolean t); backwardIff x y (negb parentAssignment) st
  | mkNode IMPLIES (x :: y :: _) => Some (backwardImplies x y parentAssignment st)
  | mkNode XOR (x :: y :: _) => backwardIff x y parentAssignment st
  | _ => None
  end.

(** ** Forward propagation *)

(** [AND] with [value = true], and [OR] with [value = false]. *)
Definition forwardNary (value : bool) (parent : Node) (childAssignment : bool) (st : CircuitPropagator) : CircuitPropagator :=
  if eqb childAssignment value then
    match find_if (λ x, negb (isAssignedTo st x value)) (children parent) with
    | None => assignAndEnqueue parent value st
    | Some (holdout, rest) =>
        if isAssignedTo st parent (negb value) then
          match find_if (λ x, negb (isAssignedTo st x value)) rest with
          | None => assignAndEnqueue holdout (negb value) st
          | Some _ => st
          end
        else st
    end
  else assignAndEnqueue parent (negb value) st.

Definition forwardIte (child parent c x y : Node) (childAssignment : bool) (st : CircuitPropagator) : option CircuitPropagator :=
  st ← (if decide (child = c) then
          let b := if childAssignment then x else y in
          if isAssigned st b then v ← getAssignment st b; Some (assignAndEnqueue parent v st) else Some st
        else Some st);
  let st := if decide (child = x) then if isAssignedTo st c true then assignAndEnqueue parent childAssignment st else st else st in
  Some (if decide (child = y) then if isAssignedTo st c false then assignAndEnqueue parent childAssignment st else st else st).

Definition forwardEqual (child parent x y : Node) (childAssignment : bool) (st : CircuitPropagator) : option CircuitPropagator :=
  t ← typeOf x; _ ← assert (isBoolean t);
  if isAssigned st x && isAssigned st y then
    vx ← getAssignment st x; vy ← getAssignment st y; Some (assignAndEnqueue parent (eqb vx vy) st)
  else if isAssigned st parent then
    v ← getAssignment st parent;
    if decide (child = x) then Some (assignAndEnqueue y (if v : bool then childAssignment else negb childAssignment) st)
    else
      _ ← assert (bool_decide (child = y));
      Some (assignAndEnqueue x (if v then childAssignment else negb childAssignment) st)
  else Some st.

Definition forwardImplies (child parent x y : Node) (childAssignment : bool) (st : CircuitPropagator) : option CircuitPropagator :=
  if isAssigned st x && isAssigned st y then
    vx ← getAssignment st x; vy ← getAssignment st y; Some (assignAndEnqueue parent (negb vx || vy) st)
  else
    let st := if bool_decide (child = x) && childAssignment && isAssignedTo st parent true then assignAndEnqueue y true st else st in
    Some (if bool_decide (child = y) && negb childAssignment && isAssignedTo st parent true then assignAndEnqueue x false st else st).

Definition forwardXor (child parent x y : Node) (childAssignment : bool) (st : CircuitPropagator) : option CircuitPropagator :=
  st ← (if isAssigned st parent then
          v ← getAssignment st parent;
          if decide (child = x) then Some (assignAndEnqueue y (negb (eqb childAssignment v)) st)
          else
            _ ← assert (bool_decide (child = y));
            Some (assignAndEnqueue x (negb (eqb childAssignment v)) st)
        else Some st);
  if isAssigned st x && isAssigned st y then
    vx ← getAssignment st x; vy ← getAssignment st y; Some (assignAndEnqueue parent (negb (eqb vx vy)) st)
  else Some st.

(** [expr::hasSubterm]; operators are not terms of the model. *)
Fixpoint hasSubterm (n t : Node) : bool :=
  bool_decide (n = t) || match n with mkNode _ cs => existsb (λ c, hasSubterm c t) cs | _ => false end.

(** The rules for one parent. *)
Definition forwardParent (child parent : Node) (childAssignment : bool) (st : CircuitPropagator) : option CircuitPropagator :=
  _ ← assert (hasSubterm parent child);
  match parent with
  | mkNode AND _ => Some (forwardNary true parent childAssignment st)
  | mkNode OR _ => Some (forwardNary false parent childAssignment st)
  | mkNode NOT _ => Some (assignAndEnqueue parent (negb childAssignment) st)
  | mkNode ITE (c :: x :: y :: _) => forwardIte child parent c x y childAssignment st
  | mkNode EQUAL (x :: y :: _) => forwardEqual child parent x y childAssignment st
  | mkNode IMPLIES (x :: y :: _) => forwardImplies child parent x y childAssignment st
  | mkNode XOR (x :: y :: _) => forwardXor child parent x y childAssignment st
  | _ => None
  end.

(** The loop over the parents, while there is no conflict. *)
Fixpoint forwardLoop (child : Node) (childAssignment : bool) (parents : list Node) (st : CircuitPropagator) : option CircuitPropagator :=
  match parents with
  | [] => Some st
  | parent :: parents =>
      match d_conflict st with
      | Some _ => Some st
      | None => st ← forwardParent child parent childAssignment st; forwardLoop child childAssignment parents st
      end
  end.

Definition propagateForward (child : Node) (childAssignment : bool) (st : CircuitPropagator) : option CircuitPropagator :=
  parents ← d_backEdges st !! child;
  forwardLoop child childAssignment parents st.

(** ** Propagation *)

Section propagate.
Context (d_forwardPropagation d_backwardPropagation : bool).

Definition learn (lit : Node) (st : CircuitPropagator) : CircuitPropagator :=
  mkCircuitPropagator (d_context st) (d_propagationQueue st) (d_conflict st) (d_learnedLiterals st ++ [lit]) (d_backEdges st) (d_seen st) (d_state st) (d_needsFinish st).

(** An equality both of whose sides, or one of whose sides, is a variable. *)
Definition eqVars (n : Node) : bool := match n with mkNode EQUAL (x :: y :: _) => isVar x && isVar y | _ => false end.
Definition eqVar (n : Node) : bool := match n with mkNode EQUAL (x :: y :: _) => isVar x || isVar y | _ => false end.

(** The body of the loop, for the node [current] of the queue. *)
Definition propagateNode (current : Node) (st : CircuitPropagator) : option CircuitPropagator :=
  assignment ← getAssignment st current;
  t ← theoryOf current;
  let atom := negb (bool_decide (t = THEORY_BOOL)) || isVar current || eqVars current in
  let st := if atom || eqVar current then learn (if assignment : bool then current else notNode current) st else st in
  st ← (if d_backwardPropagation && negb atom && negb (isConst current) then propagateBackward current assignment st else Some st);
  if d_forwardPropagation then propagateForward current assignment st else Some st.

Fixpoint propagateLoop (fuel i : nat) (st : CircuitPropagator) : option CircuitPropagator :=
  match d_propagationQueue st !! i, d_conflict st with
  | None, _ | _, Some _ => Some st
  | Some current, None =>
      match fuel with O => None | S fuel => st ← propagateNode current st; propagateLoop fuel (S i) st end
  end.

(** A node is in the queue once, and only when it has been seen. *)
Definition propagate (st : CircuitPropagator) : option (option Node * CircuitPropagator) :=
  st ← propagateLoop (size (d_seen st)) 0 st;
  Some (d_conflict st, st).

End propagate.

(** ** A run on a list of assertions *)

Fixpoint assertAll (assertions : list Node) (st : CircuitPropagator) : option CircuitPropagator :=
  match assertions with [] => Some st | a :: assertions => st ← assertTrue a st; assertAll assertions st end.

Definition run (d_forwardPropagation d_backwardPropagation : bool) (assertions : list Node) (st : CircuitPropagator) : option (option Node * CircuitPropagator) :=
  st ← initialize st;
  st ← assertAll assertions st;
  propagate d_forwardPropagation d_backwardPropagation st.
