(* ===== verification/PropagatorRules.v ===== *)
(** The rules of the circuit propagator assign only values that follow from the
    values already assigned. *)
From stdpp Require Import base option list gmap numbers.
From S2P Require Import Prelude Node TypeRules Semantics TypeSound BvElim BvTerms BvSimplifySound BoolTerms TheoryRewriter Rewriter CircuitPropagator.

(** ** Reading assignments *)

Lemma isAssigned_spec st n : isAssigned st n = true ↔ is_Some (getAssignment st n).
Proof.
  unfold isAssigned, getAssignment. destruct (d_state st !! n) as [[]|]; cbn; try (by split; [|intros []]); split; try done; by eexists.
Qed.

Lemma isAssignedTo_spec st n v : isAssignedTo st n v = true ↔ getAssignment st n = Some v.
Proof. unfold isAssignedTo, getAssignment. destruct (d_state st !! n) as [[]|], v; cbn; naive_solver. Qed.

Lemma not_assignedTo_spec st n v : negb (isAssignedTo st n v) = false ↔ getAssignment st n = Some v.
Proof. rewrite negb_false_iff. apply isAssignedTo_spec. Qed.

Lemma find_if_Some p ns n ns' : find_if p ns = Some (n, ns') → p n = true ∧ ∃ l, ns = l ++ n :: ns' ∧ Forall (λ x, p x = false) l.
Proof.
  induction ns as [|x ns IH]; [done|]. cbn [find_if]. destruct (p x) eqn:E.
  - intros [= -> ->]. split; [done|]. exists []. split; [done|constructor].
  - intros H. destruct (IH H) as (Hp&l&->&HF). split; [done|]. exists (x :: l). split; [done|by constructor].
Qed.

Lemma find_if_None p ns : find_if p ns = None → Forall (λ x, p x = false) ns.
Proof. induction ns as [|x ns IH]; [done|]. cbn [find_if]. destruct (p x) eqn:E; [done|]. intros H. constructor; [done|by apply IH]. Qed.

Lemma find_if_split p ns n ns' : find_if p ns = Some (n, ns') → find_if p ns' = None → n ∈ ns ∧ ∀ x, x ∈ ns → x = n ∨ p x = false.
Proof.
  intros (_&l&->&Hl)%find_if_Some Hr%find_if_None. split; [set_solver|]. intros x [Hx|[->|Hx]%elem_of_cons]%elem_of_app; [right; by rewrite list.Forall_forall in Hl; apply Hl|by left|right; by rewrite list.Forall_forall in Hr; apply Hr].
Qed.

Lemma find_if_unique_Some p ns n : find_if_unique p ns = Some n → n ∈ ns ∧ ∀ x, x ∈ ns → x = n ∨ p x = false.
Proof. unfold find_if_unique. destruct (find_if p ns) as [[x l]|] eqn:E1; [|done]. destruct (find_if p l) eqn:E2; [done|]. intros [= ->]. by eapply find_if_split. Qed.

(** ** Extensions of an assignment *)

(** A valuation that the state has not excluded. *)
Definition consistent (env : Env) (st : CircuitPropagator) : Prop :=
  env_ok env ∧ d_conflict st = None ∧ ∀ n b, getAssignment st n = Some b → bool_of n env = b.

(** [st'] is [st] with values for some nodes of [C] that follow from those of [st]. *)
Record ext (C : Node → Prop) (st st' : CircuitPropagator) : Prop := {
  ext_frame : d_context st' = d_context st ∧ d_learnedLiterals st' = d_learnedLiterals st ∧ d_backEdges st' = d_backEdges st ∧
    d_seen st' = d_seen st ∧ d_needsFinish st' = d_needsFinish st;
  ext_grows n b : getAssignment st n = Some b → getAssignment st' n = Some b;
  ext_queue : ∃ l, d_propagationQueue st' = d_propagationQueue st ++ l ∧ NoDup l ∧ Forall C l ∧
    ∀ n, n ∈ l ↔ getAssignment st n = None ∧ is_Some (getAssignment st' n);
  ext_conflict : d_conflict st' = None → d_conflict st = None;
  ext_sound env : consistent env st → consistent env st';
}.

Lemma ext_refl C st : ext C st st.
Proof. split; try done. exists []. rewrite app_nil_r. split_and!; [done|constructor|constructor|]. intros n. split; [by intros ?%not_elem_of_nil|intros [-> []]; done]. Qed.

Lemma ext_trans C st1 st2 st3 : ext C st1 st2 → ext C st2 st3 → ext C st1 st3.
Proof.
  intros [(?&?&?&?&?) Hg1 (l1&Q1&N1&C1&L1) K1 S1] [(?&?&?&?&?) Hg2 (l2&Q2&N2&C2&L2) K2 S2]. split; [split_and!; congruence|auto| |auto|auto].
  exists (l1 ++ l2). rewrite Q2, Q1, app_assoc. split_and!; [done| |by apply Forall_app|].
  - apply list.NoDup_app. split_and!; [done| |done]. intros n [_ [b Hb]]%L1 [Hn _]%L2. congruence.
  - intros n. rewrite elem_of_app, L1, L2. split.
    + intros [[Hn [b Hb]]|[Hn Hs]]; [split; [done|]; exists b; auto|]. split; [|done]. destruct (getAssignment st1 n) eqn:E; [|done]. apply Hg1 in E. congruence.
    + intros [Hn Hs]. destruct (getAssignment st2 n) eqn:E; [left; split; [done|by eexists]|by right].
Qed.

Lemma ext_weaken (C C' : Node → Prop) st st' : (∀ n, C n → C' n) → ext C st st' → ext C' st st'.
Proof. intros HC [Hf Hg (l&Q&N&HF&L) K S]. split; try done. exists l. split_and!; [done..| |done]. eapply list.Forall_impl; [exact HF|done]. Qed.

(** ** One assignment *)

Inductive assigned (n : Node) (v : bool) (st : CircuitPropagator) : CircuitPropagator → Prop :=
  | assigned_conflict : (∀ env, consistent env st → bool_of n env ≠ v) → assigned n v st (makeConflict st)
  | assigned_again : getAssignment st n = Some v → assigned n v st st
  | assigned_new st' : getAssignment st n = None → d_conflict st' = d_conflict st → d_propagationQueue st' = d_propagationQueue st ++ [n] →
      getAssignment st' n = Some v → (∀ x, x ≠ n → getAssignment st' x = getAssignment st x) →
      d_context st' = d_context st ∧ d_learnedLiterals st' = d_learnedLiterals st ∧ d_backEdges st' = d_backEdges st ∧ d_seen st' = d_seen st ∧ d_needsFinish st' = d_needsFinish st →
      assigned n v st st'.

Lemma assign_cases n v st : assigned n v st (assignAndEnqueue n v st).
Proof.
  unfold assignAndEnqueue. destruct (match n with mkConstBool b => _ | _ => _ end) eqn:Hc.
  { apply assigned_conflict. intros env _. destruct n; try done. cbn. destruct v, b; done. }
  unfold readState. destruct (d_state st !! n) as [s|] eqn:E.
  - destruct (decide (s = UNASSIGNED)) as [->|Hs].
    + rewrite bool_decide_true by done. cbn [negb]. apply assigned_new; try done; unfold getAssignment; cbn; [by rewrite E|by rewrite lookup_insert_eq; destruct v|]. intros x Hx. by rewrite lookup_insert_ne.
    + rewrite bool_decide_false by done. cbn [negb]. destruct (negb _) eqn:Hv.
      * apply assigned_conflict. intros env (_&_&Hcons) Hn. specialize (Hcons n (negb v)). rewrite Hcons in Hn; [by destruct v|]. unfold getAssignment. rewrite E. by destruct s, v.
      * apply assigned_again. unfold getAssignment. rewrite E. by destruct s, v.
  - cbn [bool_decide]. rewrite bool_decide_true by done. cbn [negb]. apply assigned_new; try done; unfold getAssignment; cbn; [by rewrite E|by rewrite lookup_insert_eq; destruct v|]. intros x Hx. by rewrite !lookup_insert_ne.
Qed.

Lemma assign_ext (C : Node → Prop) n v st : C n → (∀ env, consistent env st → bool_of n env = v) → ext C st (assignAndEnqueue n v st).
Proof.
  intros HC Hv. destruct (assign_cases n v st) as [Hne|Ha|st' Hn Hk Hq Ha Ho Hf].
  - split; try done; [exists []; rewrite app_nil_r; split_and!; [done|constructor|constructor|]; intros x; split; [by intros ?%not_elem_of_nil|intros [Hx [b Hb]]; cbn in *; unfold getAssignment in *; cbn in *; congruence]|].
    intros env He. by destruct (Hne env He (Hv env He)).
  - apply ext_refl.
  - split; [done| | |congruence|].
    + intros x b Hx. destruct (decide (x = n)) as [->|Hne]; [congruence|by rewrite Ho].
    + exists [n]. split_and!; [done|apply NoDup_singleton|by constructor|]. intros x. rewrite list_elem_of_singleton. split; [intros ->; split; [done|by rewrite Ha]|].
      intros [Hx Hs]. destruct (decide (x = n)) as [->|Hne]; [done|]. rewrite Ho, Hx in Hs by done. by destruct Hs.
    + intros env He. pose proof He as (Hok&Hc&Hcons). split_and!; [done|congruence|]. intros x b Hx. destruct (decide (x = n)) as [->|Hne]; [rewrite (Hv env He); congruence|]. apply Hcons. by rewrite <- Ho.
Qed.

(** Without a conflict the node has the value. *)
Lemma assign_value n v st : d_conflict (assignAndEnqueue n v st) = None → getAssignment (assignAndEnqueue n v st) n = Some v.
Proof. by destruct (assign_cases n v st). Qed.

(** ** Entailment *)

Definition entails (st : CircuitPropagator) (n : Node) (v : bool) : Prop := ∀ env, consistent env st → bool_of n env = v.

Lemma entails_ext C st st' n v : ext C st st' → entails st n v → entails st' n v.
Proof. intros [_ Hg _ Hk _] He env (Hok&Hc&Hcons). apply He. split_and!; [done|auto|]. intros x b Hx. by apply Hcons, Hg. Qed.

Lemma entails_assigned st n v : getAssignment st n = Some v → entails st n v.
Proof. intros Hn env (_&_&Hc). by apply Hc. Qed.

Lemma assignAll_ext (C : Node → Prop) v ns st : (∀ n, n ∈ ns → C n ∧ entails st n v) → ext C st (assignAll v ns st).
Proof.
  revert st. induction ns as [|n ns IH]; intros st Hns; [apply ext_refl|]. destruct (Hns n ltac:(by left)) as [HC He]. pose proof (assign_ext C n v st HC He) as Hx.
  eapply ext_trans; [exact Hx|]. apply IH. intros x Hin. destruct (Hns x ltac:(by right)) as [? ?]. split; [done|by eapply entails_ext].
Qed.

(** ** Gates *)

(** The nodes whose children are part of the circuit. *)
Inductive gate : Node → Prop :=
  | gate_nary k cs : k = AND ∨ k = OR → Forall (λ c, bool_wt c) cs → cs ≠ [] → gate (mkNode k cs)
  | gate_not a : bool_wt a → gate (mkNode NOT [a])
  | gate_ite c x y : bool_wt c → bool_wt x → bool_wt y → gate (mkNode ITE [c; x; y])
  | gate_equal x y : bool_wt x → bool_wt y → gate (mkNode EQUAL [x; y])
  | gate_implies x y : bool_wt x → bool_wt y → gate (mkNode IMPLIES [x; y])
  | gate_xor x y : bool_wt x → bool_wt y → gate (mkNode XOR [x; y]).

Lemma gate_of n : bool_wt n → theoryOf n = Some THEORY_BOOL → isVar n = false → isConst n = false → gate n.
Proof.
  intros Hw Ht Hv Hc. destruct n as [| | | |k cs]; try done. destruct k; try done.
  - destruct (equal_terms cs _ Hw) as (a&b&t&->&_&Ha&Hb). cbn in Ht. rewrite (proj1 Ha) in Ht. destruct t; try done. by constructor.
  - destruct (not_operand cs _ Hw) as (a&->&_&Ha). by constructor.
  - destruct (bool_operands AND cs _ I Hw) as (_&HF&Har). constructor; [by left|done|by intros ->].
  - destruct (bool_operands OR cs _ I Hw) as (_&HF&Har). constructor; [by right|done|by intros ->].
  - destruct (bin_operands IMPLIES cs _ I (λ _, eq_refl) Hw) as (a&b&->&_&Ha&Hb). by constructor.
  - destruct (bin_operands XOR cs _ I (λ _, eq_refl) Hw) as (a&b&->&_&Ha&Hb). by constructor.
  - destruct (ite_operands cs _ Hw) as (c&x&y&->&Hc'&Hx&Hy). by constructor.
Qed.

Lemma gate_children n c : gate n → c ∈ children n → bool_wt c.
Proof.
  intros Hg Hc. destruct Hg as [k cs _ HF|a Ha|c0 x y H1 H2 H3|x y H1 H2|x y H1 H2|x y H1 H2]; cbn [children] in Hc; [rewrite list.Forall_forall in HF; by apply HF|set_solver..].
Qed.

(** The value that absorbs in [AND] and [OR]. *)
Definition absorbs (k : Kind) (value : bool) : Prop := k = AND ∧ value = true ∨ k = OR ∧ value = false.

Lemma nary_false env k value cs : env_ok env → absorbs k value → Forall (λ c, bool_wt c) cs → bool_of (mkNode k cs) env = negb value ↔ ∃ c, c ∈ cs ∧ bool_of c env = negb value.
Proof. intros Hok Hk HF. rewrite (bool_of_nary env Hok k (negb value) cs); [apply list.Exists_exists| |done]. destruct Hk as [[-> ->]|[-> ->]]; auto. Qed.

Lemma nary_true env k value cs : env_ok env → absorbs k value → Forall (λ c, bool_wt c) cs → bool_of (mkNode k cs) env = value ↔ ∀ c, c ∈ cs → bool_of c env = value.
Proof.
  intros Hok Hk HF. pose proof (nary_false env k value cs Hok Hk HF) as Hn. split.
  - intros Hv c Hc. destruct (decide (bool_of c env = value)) as [|Hne]; [done|]. assert (bool_of (mkNode k cs) env = negb value) as E by (apply Hn; exists c; split; [done|by destruct (bool_of c env), value]).
    rewrite Hv in E. by destruct value.
  - intros Hc. destruct (decide (bool_of (mkNode k cs) env = value)) as [|Hne]; [done|]. assert (bool_of (mkNode k cs) env = negb value) as E by (by destruct (bool_of (mkNode k cs) env), value).
    apply Hn in E as (c&Hin&Ec). rewrite (Hc c Hin) in Ec. by destruct value.
Qed.

(** All but one of the operands have the neutral value. *)
Lemma holdout_entailed st k value cs h : absorbs k value → Forall (λ c, bool_wt c) cs → entails st (mkNode k cs) (negb value) →
  (∀ x, x ∈ cs → x = h ∨ negb (isAssignedTo st x value) = false) → entails st h (negb value).
Proof.
  intros Hk HF Hp Hh env He. pose proof He as (Hok&_&Hcons). pose proof (Hp env He) as Hv. apply nary_false in Hv as (c&Hc&Ec); [|done..].
  destruct (Hh c Hc) as [->|Ha%not_assignedTo_spec]; [done|]. apply Hcons in Ha. rewrite Ha in Ec. by destruct value.
Qed.

(** Solves that a value follows from assigned ones, by cases on the values of the
    operands. *)
Ltac gate_value := rewrite ?bool_of_not, ?bool_of_ite, ?bool_of_iff, ?bool_of_implies, ?bool_of_xor in * by done.
Ltac entailed :=
  let env := fresh "env" in let He := fresh "He" in
  intros env He; pose proof (proj1 He);
  repeat match goal with
  | H : getAssignment _ _ = Some _ |- _ => apply entails_assigned in H
  end;
  repeat match goal with H : entails ?st _ _ |- _ => specialize (H env He) end;
  gate_value; subst;
  repeat match goal with
  | H : context [bool_of ?x env] |- _ => destruct (bool_of x env)
  | |- context [bool_of ?x env] => destruct (bool_of x env)
  end; simpl in *; (done || congruence).

(** Reads of the assignment. *)
Ltac reads :=
  repeat match goal with
  | H : isAssignedTo _ _ _ = true |- _ => apply isAssignedTo_spec in H
  | H : isAssigned _ _ = true |- _ => apply isAssigned_spec in H as [? H]
  | H : isAssigned _ _ && isAssigned _ _ = true |- _ => apply andb_true_iff in H as [? ?]
  | H : getAssignment ?st ?n = Some _ |- context [getAssignment ?st ?n] => rewrite H; cbn [mbind option_bind]
  end.

(** ** Backward rules *)

Lemma backwardNary_ext k value cs pa st : absorbs k value → Forall (λ c, bool_wt c) cs → entails st (mkNode k cs) pa →
  ext (λ n, n ∈ cs) st (backwardNary value cs pa st).
Proof.
  intros Hk HF Hp. unfold backwardNary. destruct (eqb pa value) eqn:Ev.
  - apply eqb_prop in Ev as ->. apply assignAll_ext. intros n Hn. split; [done|]. intros env He. pose proof (Hp env He) as Hv. eapply nary_true in Hv; [exact Hv|apply He|done..].
  - assert (pa = negb value) as -> by (by destruct pa, value). destruct (find_if_unique _ cs) as [h|] eqn:Eh; [|apply ext_refl]. apply find_if_unique_Some in Eh as [Hh Hu].
    apply assign_ext; [done|]. by eapply holdout_entailed.
Qed.

Lemma backwardIte_ext c x y pa st : bool_wt c → bool_wt x → bool_wt y → entails st (mkNode ITE [c; x; y]) pa →
  ∃ st', backwardIte c x y pa st = Some st' ∧ ext (λ n, n ∈ [c; x; y]) st st'.
Proof.
  intros Hc Hx Hy Hp. unfold backwardIte. destruct (isAssignedTo st c true) eqn:E1; reads; [eexists; split; [done|]; apply assign_ext; [set_solver|entailed]|].
  destruct (isAssignedTo st c false) eqn:E2; reads; [eexists; split; [done|]; apply assign_ext; [set_solver|entailed]|].
  destruct (isAssigned st x && isAssigned st y) eqn:E3; reads; [|eexists; split; [done|apply ext_refl]].
  destruct (eqb _ _ && _) eqn:Ev; [eexists; split; [done|]; apply assign_ext; [set_solver|]|].
  - apply andb_true_iff in Ev as [->%eqb_prop Ev]. entailed.
  - destruct (negb _ && _) eqn:Ev2; eexists; (split; [done|]); [|apply ext_refl]. apply assign_ext; [set_solver|]. apply andb_true_iff in Ev2 as [Ev2 ->%eqb_prop]. entailed.
Qed.

Lemma backwardIff_ext x y flip st : (∀ env, consistent env st → bool_of y env = xorb flip (bool_of x env)) →
  ∃ st', backwardIff x y flip st = Some st' ∧ ext (λ n, n ∈ [x; y]) st st'.
Proof.
  intros Hp. unfold backwardIff. destruct (isAssigned st x) eqn:E1; reads; [|destruct (isAssigned st y) eqn:E2; reads]; eexists; (split; [done|]); [| |apply ext_refl];
    (apply assign_ext; [set_solver|]); intros env He; specialize (Hp env He); pose proof He as (_&_&Hcons).
  - by rewrite Hp, (Hcons _ _ E1).
  - apply Hcons in E2. rewrite Hp in E2. subst. by destruct flip, (bool_of x env).
Qed.

Lemma backwardImplies_ext x y pa st : bool_wt x → bool_wt y → entails st (mkNode IMPLIES [x; y]) pa → ext (λ n, n ∈ [x; y]) st (backwardImplies x y pa st).
Proof.
  intros Hx Hy Hp. unfold backwardImplies. destruct pa.
  - set (st1 := if isAssignedTo st x true then assignAndEnqueue y true st else st).
    assert (ext (λ n, n ∈ [x; y]) st st1) as H1 by (unfold st1; destruct (isAssignedTo st x true) eqn:E1; reads; [apply assign_ext; [set_solver|entailed]|apply ext_refl]).
    eapply ext_trans; [exact H1|]. apply (entails_ext _ _ _ _ _ H1) in Hp. destruct (isAssignedTo st1 y false) eqn:E2; reads; [|apply ext_refl]. apply assign_ext; [set_solver|entailed].
  - assert (entails st x true) as E1 by entailed. assert (entails st y false) as E2 by entailed. assert (ext (λ n, n ∈ [x; y]) st (assignAndEnqueue x true st)) as H1 by (apply assign_ext; [set_solver|done]).
    eapply ext_trans; [exact H1|]. apply assign_ext; [set_solver|]. by eapply entails_ext.
Qed.

Lemma backward_ext p pa st : gate p → entails st p pa → ∃ st', propagateBackward p pa st = Some st' ∧ ext (λ n, n ∈ children p) st st'.
Proof.
  intros Hg Hp. destruct Hg as [k cs Hk HF _|a Ha|c x y Hc Hx Hy|x y Hx Hy|x y Hx Hy|x y Hx Hy]; cbn [propagateBackward children].
  - destruct Hk as [-> | ->]; eexists; (split; [done|]); [apply (backwardNary_ext AND)|apply (backwardNary_ext OR)]; unfold absorbs; auto.
  - eexists. split; [done|]. apply assign_ext; [set_solver|entailed].
  - by apply backwardIte_ext.
  - rewrite (proj1 Hx). cbn [mbind option_bind]. apply backwardIff_ext. entailed.
  - eexists. split; [done|]. by apply backwardImplies_ext.
  - apply backwardIff_ext. entailed.
Qed.

(** ** Forward rules *)

(** The children whose values make the forward rules give the value of a gate: all,
    one that absorbs, or the condition and the branch it selects. *)
Definition nary_needs (env : Env) (value : bool) (cs : list Node) : list Node :=
  match filter (λ c, bool_of c env = negb value) cs with [] => cs | c :: _ => [c] end.

Definition needs (env : Env) (p : Node) : list Node :=
  match p with
  | mkNode AND cs => nary_needs env true cs
  | mkNode OR cs => nary_needs env false cs
  | mkNode ITE [c; x; y] => if bool_of c env then [c; x] else [c; y]
  | mkNode _ cs => cs
  | _ => []
  end.

Lemma needs_children env p c : c ∈ needs env p → c ∈ children p.
Proof.
  assert (∀ v cs, c ∈ nary_needs env v cs → c ∈ cs) as Hn.
  { intros v cs. unfold nary_needs. destruct (filter _ cs) as [|d l] eqn:E; [done|]. intros ->%list_elem_of_singleton. assert (d ∈ d :: l) as Hd by by left. rewrite <- E in Hd. by apply list_elem_of_filter in Hd as [_ ?]. }
  destruct p as [| | | |k cs]; try (by intros ?%not_elem_of_nil). destruct k; cbn [needs children]; try done; try apply Hn. destruct cs as [|a [|x [|y []]]]; try done. destruct (bool_of a env); set_solver.
Qed.

(** What the rule for one parent does: it assigns values that follow, and the value
    of the parent if all the children that it needs have theirs. *)
Definition forward_ok (c p : Node) (st st' : CircuitPropagator) : Prop :=
  ext (λ n, n = p ∨ n ∈ children p) st st' ∧
  ∀ env, env_ok env → d_conflict st' = None → c ∈ needs env p → (∀ d, d ∈ needs env p → getAssignment st d = Some (bool_of d env)) → getAssignment st' p = Some (bool_of p env).

Lemma nary_needs_absorbing env value cs c : c ∈ nary_needs env value cs → bool_of c env = value → ∀ d, d ∈ cs → d ∈ nary_needs env value cs.
Proof.
  unfold nary_needs. destruct (filter _ cs) as [|x l] eqn:E; [done|]. intros ->%list_elem_of_singleton Hx. assert (x ∈ x :: l) as Hd by by left. rewrite <- E in Hd.
  apply list_elem_of_filter in Hd as [Hd _]. rewrite Hx in Hd. by destruct value.
Qed.

Lemma forwardNary_ok k value c cs v st : absorbs k value → Forall (λ c, bool_wt c) cs → c ∈ cs → getAssignment st c = Some v →
  forward_ok c (mkNode k cs) st (forwardNary value (mkNode k cs) v st).
Proof.
  intros Hk HF Hc Hv. assert (∀ env, needs env (mkNode k cs) = nary_needs env value cs) as Hn by (by destruct Hk as [[-> ->]|[-> ->]]). unfold forwardNary. destruct (eqb v value) eqn:Ev.
  - apply eqb_prop in Ev as ->. cbn [children]. destruct (find_if _ cs) as [[h rest]|] eqn:Eh.
    + split.
      * destruct (isAssignedTo st _ (negb value)) eqn:Ep; reads; [|apply ext_refl]. destruct (find_if _ rest) eqn:Er; [apply ext_refl|]. destruct (find_if_split _ _ _ _ Eh Er) as [Hh Hu].
        apply assign_ext; [by right|]. eapply holdout_entailed; [done..| |exact Hu]. by apply entails_assigned.
      * intros env Hok _ Hcn Ha. rewrite Hn in *. assert (bool_of c env = value) as Hcv by (rewrite (Ha c Hcn) in Hv; congruence). apply find_if_Some in Eh as (Hh&l&Hl&_). apply negb_true_iff in Hh.
        assert (h ∈ cs) as Hin by (subst cs; set_solver). assert (h ∈ nary_needs env value cs) as Hin' by (by eapply nary_needs_absorbing). pose proof (Ha h Hin') as E.
        assert (bool_of h env = value) as Ehv. { unfold nary_needs in Hin', Hcn. destruct (filter _ cs) as [|d l'] eqn:Ef; [|set_solver]. destruct (decide (bool_of h env = value)) as [|Hne]; [done|].
          assert (h ∈ filter (λ c, bool_of c env = negb value) cs) as Hf by (apply list_elem_of_filter; split; [by destruct (bool_of h env), value|done]). rewrite Ef in Hf. by apply not_elem_of_nil in Hf. }
        rewrite Ehv in E. apply isAssignedTo_spec in E. congruence.
    + apply find_if_None in Eh. rewrite list.Forall_forall in Eh. assert (∀ x, x ∈ cs → getAssignment st x = Some value) as Hall by (intros x Hx; by apply not_assignedTo_spec, Eh).
      split; [apply assign_ext; [by left|]; intros env He; apply (nary_true env k value cs); [apply He|done..|]; intros x Hx; by apply (entails_assigned _ _ _ (Hall x Hx))|].
      intros env Hok Hcf Hcn Ha. rewrite Hn in *. rewrite (assign_value _ _ _ Hcf). f_equal. symmetry. apply (nary_true env k value cs); [done..|]. intros x Hx.
      assert (x ∈ nary_needs env value cs) as Hx'. { eapply nary_needs_absorbing; [exact Hcn| |done]. rewrite (Ha c Hcn) in Hv. congruence. } specialize (Ha x Hx'). rewrite (Hall x Hx) in Ha. congruence.
  - assert (v = negb value) as -> by (by destruct v, value). split.
    + apply assign_ext; [by left|]. intros env He. apply (nary_false env k value cs); [apply He|done..|]. exists c. split; [done|]. by apply (entails_assigned _ _ _ Hv).
    + intros env Hok Hcf Hcn Ha. rewrite (assign_value _ _ _ Hcf). f_equal. symmetry. apply (nary_false env k value cs); [done..|]. exists c. split; [done|]. specialize (Ha c Hcn). congruence.
Qed.

(** A gate with two operands that are assigned. *)
Lemma binary_ok k (f : bool → bool → bool) c x y vx vy st st' : (∀ env, needs env (mkNode k [x; y]) = [x; y]) →
  (∀ env, env_ok env → bool_of (mkNode k [x; y]) env = f (bool_of x env) (bool_of y env)) →
  ext (λ n, n = mkNode k [x; y] ∨ n ∈ [x; y]) st st' → getAssignment st' x = Some vx → getAssignment st' y = Some vy →
  forward_ok c (mkNode k [x; y]) st (assignAndEnqueue (mkNode k [x; y]) (f vx vy) st').
Proof.
  intros Hn Hf Hx1 Hx Hy. split.
  - eapply ext_trans; [exact Hx1|]. apply assign_ext; [by left|]. intros env He. rewrite Hf by apply He. by rewrite (entails_assigned _ _ _ Hx env He), (entails_assigned _ _ _ Hy env He).
  - intros env Hok Hcf _ Ha. rewrite (assign_value _ _ _ Hcf), Hf by done. rewrite Hn in Ha. pose proof (Ha x ltac:(set_solver)) as Ex. pose proof (Ha y ltac:(set_solver)) as Ey.
    apply (ext_grows _ _ _ Hx1) in Ex, Ey. congruence.
Qed.

(** A rule that does nothing for the parent because an operand has no value. *)
Lemma unassigned_ok k c x y st st' : (∀ env, needs env (mkNode k [x; y]) = [x; y]) → ext (λ n, n = mkNode k [x; y] ∨ n ∈ [x; y]) st st' →
  isAssigned st x && isAssigned st y = false → forward_ok c (mkNode k [x; y]) st st'.
Proof.
  intros Hn Hx Hu. split; [done|]. intros env _ _ _ Ha. rewrite Hn in Ha. assert (isAssigned st x && isAssigned st y = true); [|congruence].
  apply andb_true_iff. split; apply isAssigned_spec; rewrite Ha; (set_solver || by eexists).
Qed.

Lemma forwardEqual_ok c x y v st : bool_wt x → bool_wt y → c ∈ [x; y] → getAssignment st c = Some v →
  ∃ st', forwardEqual c (mkNode EQUAL [x; y]) x y v st = Some st' ∧ forward_ok c (mkNode EQUAL [x; y]) st st'.
Proof.
  intros Hx Hy Hc Hv. unfold forwardEqual. rewrite (proj1 Hx). cbn [mbind option_bind isBoolean assert]. destruct (isAssigned st x && isAssigned st y) eqn:E.
  - reads. eexists. split; [done|]. apply (binary_ok EQUAL eqb); [done| |apply ext_refl|done..]. intros env Hok. by rewrite bool_of_iff.
  - destruct (isAssigned st (mkNode EQUAL [x; y])) eqn:Ep; reads; [|eexists; split; [done|]; by apply unassigned_ok; [|apply ext_refl|]].
    destruct (decide (c = x)) as [->|Hne].
    + eexists. split; [done|]. apply unassigned_ok; [done| |done]. apply assign_ext; [set_solver|]. case_match; entailed.
    + assert (c = y) as -> by set_solver. rewrite bool_decide_true by done. eexists. split; [done|]. apply unassigned_ok; [done| |done]. apply assign_ext; [set_solver|]. case_match; entailed.
Qed.

Lemma forwardImplies_ok c x y v st : bool_wt x → bool_wt y → getAssignment st c = Some v →
  ∃ st', forwardImplies c (mkNode IMPLIES [x; y]) x y v st = Some st' ∧ forward_ok c (mkNode IMPLIES [x; y]) st st'.
Proof.
  intros Hx Hy Hv. unfold forwardImplies. destruct (isAssigned st x && isAssigned st y) eqn:E.
  - reads. eexists. split; [done|]. apply (binary_ok IMPLIES (λ a b, negb a || b)); [done| |apply ext_refl|done..]. intros env Hok. rewrite bool_of_implies by done. by destruct (bool_of x env).
  - eexists. split; [done|]. apply unassigned_ok; [done| |done]. set (st1 := if bool_decide (c = x) && v && _ then _ else _).
    assert (ext (λ n, n = mkNode IMPLIES [x; y] ∨ n ∈ [x; y]) st st1) as H1.
    { unfold st1. destruct (bool_decide (c = x) && v && _) eqn:E1; [|apply ext_refl]. apply andb_true_iff in E1 as [[->%bool_decide_eq_true ->]%andb_true_iff E1]. reads. apply assign_ext; [set_solver|entailed]. }
    eapply ext_trans; [exact H1|]. apply (ext_grows _ _ _ H1) in Hv. destruct (bool_decide (c = y) && negb v && _) eqn:E2; [|apply ext_refl].
    apply andb_true_iff in E2 as [[->%bool_decide_eq_true Hf%negb_true_iff]%andb_true_iff E2]. subst v. reads. apply assign_ext; [set_solver|entailed].
Qed.

Lemma forwardXor_ok c x y v st : bool_wt x → bool_wt y → c ∈ [x; y] → getAssignment st c = Some v →
  ∃ st', forwardXor c (mkNode XOR [x; y]) x y v st = Some st' ∧ forward_ok c (mkNode XOR [x; y]) st st'.
Proof.
  intros Hx Hy Hc Hv. unfold forwardXor.
  assert (∃ st1, (if isAssigned st (mkNode XOR [x; y]) then v0 ← getAssignment st (mkNode XOR [x; y]);
     if decide (c = x) then Some (assignAndEnqueue y (negb (eqb v v0)) st) else _ ← assert (bool_decide (c = y)); Some (assignAndEnqueue x (negb (eqb v v0)) st) else Some st) = Some st1 ∧
     ext (λ n, n = mkNode XOR [x; y] ∨ n ∈ [x; y]) st st1) as (st1&->&H1).
  { destruct (isAssigned st (mkNode XOR [x; y])) eqn:Ep; reads; [|eexists; split; [done|apply ext_refl]]. destruct (decide (c = x)) as [->|Hne].
    - eexists. split; [done|]. apply assign_ext; [set_solver|]. entailed.
    - assert (c = y) as -> by set_solver. rewrite bool_decide_true by done. eexists. split; [done|]. apply assign_ext; [set_solver|]. entailed. }
  cbn [mbind option_bind]. destruct (isAssigned st1 x && isAssigned st1 y) eqn:E.
  - reads. eexists. split; [done|]. apply (binary_ok XOR (λ a b, negb (eqb a b))); [done| |done..]. intros env Hok. rewrite bool_of_xor by done. by destruct (bool_of x env), (bool_of y env).
  - eexists. split; [done|]. apply unassigned_ok; [done..|]. destruct (isAssigned st x && isAssigned st y) eqn:E'; [|done]. rewrite <- E. reads. symmetry. apply andb_true_iff.
    split; apply isAssigned_spec; eexists; by apply (ext_grows _ _ _ H1).
Qed.

Lemma forwardIte_ok d c x y v st : bool_wt c → bool_wt x → bool_wt y → getAssignment st d = Some v →
  ∃ st', forwardIte d (mkNode ITE [c; x; y]) c x y v st = Some st' ∧ forward_ok d (mkNode ITE [c; x; y]) st st'.
Proof.
  intros Hc Hx Hy Hv. set (p := mkNode ITE [c; x; y]). set (C := λ n, n = p ∨ n ∈ children p). unfold forwardIte. cbv zeta.
  assert (∃ st1, (if decide (d = c) then if isAssigned st (if v then x else y) then v ← getAssignment st (if v then x else y); Some (assignAndEnqueue p v st) else Some st else Some st) = Some st1 ∧
    ext C st st1 ∧ (d = c → ∀ vb, getAssignment st (if v then x else y) = Some vb → st1 = assignAndEnqueue p vb st)) as (st1&->&H1&F1).
  { destruct (decide (d = c)) as [->|]; [|eexists; split; [done|]; split; [apply ext_refl|done]]. destruct (isAssigned st (if v then x else y)) eqn:E.
    - reads. eexists. split; [done|]. split; [apply assign_ext; [by left|]; destruct v; unfold p; entailed|]. congruence.
    - eexists. split; [done|]. split; [apply ext_refl|]. intros _ vb Hvb. assert (isAssigned st (if v then x else y) = true) by (apply isAssigned_spec; by eexists). congruence. }
  cbn [mbind option_bind]. apply (ext_grows _ _ _ H1) in Hv as Hv1.
  set (st2 := if decide (d = x) then if isAssignedTo st1 c true then assignAndEnqueue p v st1 else st1 else st1).
  assert (ext C st1 st2) as H2. { unfold st2. destruct (decide (d = x)) as [->|]; [|apply ext_refl]. destruct (isAssignedTo st1 c true) eqn:E; reads; [|apply ext_refl]. apply assign_ext; [by left|unfold p; entailed]. }
  apply (ext_grows _ _ _ H2) in Hv1 as Hv2. eexists. split; [done|]. set (st3 := if decide (d = y) then _ else _).
  assert (ext C st2 st3) as H3. { unfold st3. destruct (decide (d = y)) as [->|]; [|apply ext_refl]. destruct (isAssignedTo st2 c false) eqn:E; reads; [|apply ext_refl]. apply assign_ext; [by left|unfold p; entailed]. }
  split; [by eapply ext_trans; [|eapply ext_trans]|]. intros env Hok Hk Hin Ha. unfold p in *. cbn [needs] in Hin, Ha. rewrite bool_of_ite by done.
  apply (ext_conflict _ _ _ H3) in Hk as Hk2. apply (ext_conflict _ _ _ H2) in Hk2 as Hk1. destruct (bool_of c env) eqn:Ec.
  - pose proof (Ha c ltac:(set_solver)) as Ac. pose proof (Ha x ltac:(set_solver)) as Ax. rewrite Ec in Ac. destruct (decide (d = c)) as [->|Hne].
    + assert (v = true) as -> by congruence. rewrite (F1 eq_refl _ Ax) in Hk1, H2. apply (ext_grows _ _ _ H3), (ext_grows _ _ _ H2), (assign_value _ _ _ Hk1).
    + assert (d = x) as -> by set_solver. apply (ext_grows _ _ _ H3). apply (ext_grows _ _ _ H1) in Ac. apply isAssignedTo_spec in Ac. unfold st2 in *. rewrite decide_True, Ac in Hk2 |- * by done. rewrite (assign_value _ _ _ Hk2). congruence.
  - pose proof (Ha c ltac:(set_solver)) as Ac. pose proof (Ha y ltac:(set_solver)) as Ay. rewrite Ec in Ac. destruct (decide (d = c)) as [->|Hne].
    + assert (v = false) as -> by congruence. rewrite (F1 eq_refl _ Ay) in Hk1, H2. apply (ext_grows _ _ _ H3), (ext_grows _ _ _ H2), (assign_value _ _ _ Hk1).
    + assert (d = y) as -> by set_solver. apply (ext_grows _ _ _ H1), (ext_grows _ _ _ H2), isAssignedTo_spec in Ac. unfold st3 in *. rewrite decide_True, Ac in Hk |- * by done. rewrite (assign_value _ _ _ Hk). congruence.
Qed.

Lemma hasSubterm_child p c : c ∈ children p → hasSubterm p c = true.
Proof.
  destruct p as [| | | |k cs]; try (by intros ?%not_elem_of_nil). cbn [children]. intros Hc. cbn [hasSubterm]. apply orb_true_iff. right. apply existsb_exists. exists c. split; [by apply list_elem_of_In|].
  destruct c; cbn [hasSubterm]; by rewrite bool_decide_true.
Qed.

Lemma forwardParent_ok c p v st : gate p → c ∈ children p → getAssignment st c = Some v → ∃ st', forwardParent c p v st = Some st' ∧ forward_ok c p st st'.
Proof.
  intros Hg Hc Hv. unfold forwardParent. rewrite hasSubterm_child by done. cbn [assert mbind option_bind].
  destruct Hg as [k cs Hk HF _|a Ha|c0 x y H0 Hx Hy|x y Hx Hy|x y Hx Hy|x y Hx Hy]; cbn [children] in Hc.
  - destruct Hk as [-> | ->]; eexists; (split; [done|]); apply forwardNary_ok; unfold absorbs; auto.
  - eexists. split; [done|]. apply list_elem_of_singleton in Hc as ->. split; [apply assign_ext; [by left|entailed]|]. intros env Hok Hk _ Hn. rewrite (assign_value _ _ _ Hk), bool_of_not by done.
    pose proof (Hn a ltac:(set_solver)). congruence.
  - by apply forwardIte_ok.
  - by apply forwardEqual_ok.
  - by apply forwardImplies_ok.
  - by apply forwardXor_ok.
Qed.

(** All parents of a node. *)
Lemma forwardLoop_ok c v ps st : Forall (λ p, gate p ∧ c ∈ children p) ps → getAssignment st c = Some v → ∃ st', forwardLoop c v ps st = Some st' ∧
  ext (λ n, ∃ p, p ∈ ps ∧ (n = p ∨ n ∈ children p)) st st' ∧
  ∀ env p, env_ok env → d_conflict st' = None → p ∈ ps → c ∈ needs env p → (∀ d, d ∈ needs env p → getAssignment st d = Some (bool_of d env)) → getAssignment st' p = Some (bool_of p env).
Proof.
  intros HF. revert st. induction HF as [|p ps [Hg Hc] HF IH]; intros st Hv; cbn [forwardLoop].
  { exists st. split_and!; [done|apply ext_refl|]. by intros env p _ _ ?%not_elem_of_nil. }
  destruct (d_conflict st) eqn:Ek. { exists st. split_and!; [done|apply ext_refl|]. intros env q _ Hk. congruence. }
  destruct (forwardParent_ok c p v st Hg Hc Hv) as (st1&->&H1&F1). cbn [mbind option_bind]. apply (ext_grows _ _ _ H1) in Hv as Hv1. destruct (IH st1 Hv1) as (st2&->&H2&F2). exists st2. split; [done|]. split.
  - eapply ext_trans; [eapply ext_weaken; [|exact H1]|eapply ext_weaken; [|exact H2]]; cbn; [intros n Hn; exists p; split; [by left|done]|intros n (q&Hq&Hn); exists q; split; [by right|done]].
  - intros env q Hok Hk [->|Hq]%elem_of_cons Hcn Ha.
    + apply (ext_grows _ _ _ H2). apply F1; [done|by apply (ext_conflict _ _ _ H2)|done..].
    + apply F2; [done..|]. intros d Hd. by apply (ext_grows _ _ _ H1), Ha.
Qed.
