(* ===== verification/PropagatorSound.v ===== *)
(** The circuit propagator: the circuit that the back edges describe, the loops of
    [computeBackEdges] and [propagate], and what a run derives. *)
From stdpp Require Import base option list gmap numbers.
From S2P Require Import Prelude Node TypeRules Semantics TypeSound BvElim BvTerms BvSimplifySound BoolTerms TheoryRewriter Rewriter CircuitPropagator PropagatorRules.

(** ** The circuit *)

(** [d_seen] is closed under the children of its gates, except for the nodes that
    are still to be visited, and [d_backEdges] has the parents of each node; the
    queue has the assigned nodes. *)
Record circuit_ok (pending : list Node) (st : CircuitPropagator) : Prop := {
  co_seen n : n ∈ d_seen st → bool_wt n ∧ is_Some (d_backEdges st !! n);
  co_children n c : n ∈ d_seen st → n ∉ pending → theoryOf n = Some THEORY_BOOL → c ∈ children n → c ∈ d_seen st ∧ n ∈ edges c st;
  co_edges c p : p ∈ edges c st → p ∈ d_seen st ∧ theoryOf p = Some THEORY_BOOL ∧ c ∈ children p;
  co_queue : NoDup (d_propagationQueue st) ∧ ∀ n, n ∈ d_propagationQueue st ↔ is_Some (getAssignment st n);
  co_assigned n : is_Some (getAssignment st n) → n ∈ d_seen st;
}.

(** A step that only extends the circuit. *)
Record grows_circuit (st st' : CircuitPropagator) : Prop := {
  gc_frame : d_context st' = d_context st ∧ d_propagationQueue st' = d_propagationQueue st ∧ d_conflict st' = d_conflict st ∧
    d_learnedLiterals st' = d_learnedLiterals st ∧ d_state st' = d_state st ∧ d_needsFinish st' = d_needsFinish st;
  gc_seen n : n ∈ d_seen st → n ∈ d_seen st';
  gc_edges c p : p ∈ edges c st → p ∈ edges c st';
}.

Lemma grows_circuit_refl st : grows_circuit st st.
Proof. by split. Qed.

Lemma grows_circuit_trans st1 st2 st3 : grows_circuit st1 st2 → grows_circuit st2 st3 → grows_circuit st1 st3.
Proof. intros [(?&?&?&?&?&?) ? ?] [(?&?&?&?&?&?) ? ?]. split; [split_and!; congruence|auto|auto]. Qed.

Lemma getAssignment_state st st' n : d_state st' = d_state st → getAssignment st' n = getAssignment st n.
Proof. unfold getAssignment. by intros ->. Qed.

Lemma edges_set n ps c st : edges c (setBackEdges n ps st) = if decide (c = n) then ps else edges c st.
Proof. unfold edges, setBackEdges. cbn. destruct (decide (c = n)) as [->|]; [by rewrite lookup_insert_eq|by rewrite lookup_insert_ne]. Qed.

Lemma set_edges_grows n ps st : (∀ p, p ∈ edges n st → p ∈ ps) → grows_circuit st (setBackEdges n ps st).
Proof. intros Hps. split; [done..|]. intros c p Hp. rewrite edges_set. destruct (decide (c = n)) as [->|]; auto. Qed.

Lemma set_edges_ok pending n ps st : circuit_ok pending st → (∀ p, p ∈ edges n st → p ∈ ps) → (∀ p, p ∈ ps → p ∈ d_seen st ∧ theoryOf p = Some THEORY_BOOL ∧ n ∈ children p) →
  circuit_ok pending (setBackEdges n ps st).
Proof.
  intros [Hs Hc He Hq Ha] Hps Hps'. split; try done.
  - intros x Hx. destruct (Hs x Hx) as [Hw Hb]. split; [done|]. unfold setBackEdges. cbn. destruct (decide (n = x)) as [->|]; [rewrite lookup_insert_eq; by eexists|by rewrite lookup_insert_ne].
  - intros x c Hx Hp Ht Hin. destruct (Hc x c Hx Hp Ht Hin) as [Hcs Hed]. split; [done|]. rewrite edges_set. destruct (decide (c = n)) as [->|]; auto.
  - intros c p. rewrite edges_set. destruct (decide (c = n)) as [->|]; auto.
Qed.

Lemma add_seen_ok pending n st : circuit_ok pending st → bool_wt n → is_Some (d_backEdges st !! n) → circuit_ok (pending ++ [n]) (addSeen n st).
Proof.
  intros [Hs Hc He Hq Ha] Hw Hb. split; try done; cbn.
  - intros x [->%elem_of_singleton|Hx]%elem_of_union; [done|auto].
  - intros x c [->%elem_of_singleton|Hx]%elem_of_union Hp Ht Hin; [by destruct Hp; apply elem_of_app; right; left|]. destruct (Hc x c Hx) as [? ?]; [set_solver|done..|]. split; [set_solver|done].
  - intros c p Hp. destruct (He c p Hp) as (?&?&?). split_and!; [set_solver|done..].
  - intros x Hx. apply elem_of_union. right. by apply Ha.
Qed.

(** ** [computeBackEdges] *)

Lemma visitChildren_ok current cs : ∀ toVisit st, circuit_ok (current :: toVisit) st → current ∈ d_seen st → theoryOf current = Some THEORY_BOOL →
  (∀ c, c ∈ cs → c ∈ children current ∧ bool_wt c) → (∀ n, n ∈ toVisit → n ∈ d_seen st) →
  ∃ toVisit' st', visitChildren current cs toVisit st = (toVisit', st') ∧ circuit_ok (current :: toVisit') st' ∧ grows_circuit st st' ∧
    (∀ c, c ∈ cs → c ∈ d_seen st' ∧ current ∈ edges c st') ∧ (∀ n, n ∈ toVisit' → n ∈ d_seen st') ∧
    (sum_list_with nsize toVisit' ≤ sum_list_with nsize toVisit + sum_list_with nsize cs)%nat.
Proof.
  induction cs as [|c cs IH]; intros toVisit st Hst Hcur Ht Hcs Hv; cbn [visitChildren].
  { exists toVisit, st. split_and!; [done..|apply grows_circuit_refl|by intros c ?%not_elem_of_nil|done|lia]. }
  destruct (Hcs c ltac:(by left)) as [Hc Hw]. set (st1 := setBackEdges c (edges c st ++ [current]) st).
  assert (circuit_ok (current :: toVisit) st1) as H1.
  { apply set_edges_ok; [done|set_solver|]. intros p [Hp| ->%list_elem_of_singleton]%elem_of_app; [by apply (co_edges _ _ Hst)|done]. }
  assert (grows_circuit st st1) as G1 by (apply set_edges_grows; set_solver). assert (current ∈ edges c st1) as Hed by (unfold st1; rewrite edges_set, decide_True by done; set_solver).
  assert (is_Some (d_backEdges st1 !! c)) as Hb by (unfold st1, setBackEdges; cbn; rewrite lookup_insert_eq; by eexists).
  destruct (decide (c ∈ d_seen st1)) as [Hseen|Hseen].
  - destruct (IH toVisit st1 H1 Hcur Ht ltac:(intros x Hx; apply Hcs; by right) Hv) as (toVisit'&st'&->&H2&G2&Hch&Hv'&Hsum). exists toVisit', st'.
    split_and!; [done..|by eapply grows_circuit_trans| |done|cbn; lia]. intros x [->|Hx]%elem_of_cons; [|by apply Hch]. split; [by apply (gc_seen _ _ G2)|by apply (gc_edges _ _ G2)].
  - assert (grows_circuit st1 (addSeen c st1)) as Ga by (split; [done|cbn; set_solver|done]).
    destruct (IH (toVisit ++ [c]) (addSeen c st1)) as (toVisit'&st'&->&H2&G2&Hch&Hv'&Hsum); [by apply (add_seen_ok (current :: toVisit))|cbn; set_solver|done|intros x Hx; apply Hcs; by right|cbn; set_solver|].
    exists toVisit', st'. split_and!; [done|done|by eapply grows_circuit_trans, grows_circuit_trans| |done|rewrite sum_list_with_app in Hsum; cbn in Hsum |- *; lia].
    intros x [->|Hx]%elem_of_cons; [|by apply Hch]. split; [apply (gc_seen _ _ G2); cbn; set_solver|by apply (gc_edges _ _ G2)].
Qed.

Lemma circuit_drop current pending st : circuit_ok (current :: pending) st → (theoryOf current = Some THEORY_BOOL → ∀ c, c ∈ children current → c ∈ d_seen st ∧ current ∈ edges c st) → circuit_ok pending st.
Proof.
  intros [Hs Hc He Hq Ha] Hcur. split; try done. intros n c Hn Hp Ht Hin. destruct (decide (n = current)) as [->|Hne]; [by apply Hcur|]. apply Hc; [done|set_solver|done..].
Qed.

(** The children of a node of the circuit. *)
Lemma circuit_child_wt pending st n c : circuit_ok pending st → n ∈ d_seen st → theoryOf n = Some THEORY_BOOL → c ∈ children n → gate n ∧ bool_wt c.
Proof.
  intros Hst Hn Ht Hc. destruct (co_seen _ _ Hst n Hn) as [Hw _]. assert (gate n) as Hg by (apply gate_of; [done..| |]; by destruct n; try apply not_elem_of_nil in Hc). split; [done|by eapply gate_children].
Qed.

Lemma theoryOf_Some n : bool_wt n → ∃ t, theoryOf n = Some t.
Proof.
  intros Hw. destruct n as [| | | |k cs]; try by eexists. { pose proof (proj1 Hw) as Ht. cbn [theoryOf]. rewrite Ht. by eexists. }
  destruct k; try by eexists. destruct (equal_terms cs _ Hw) as (a&b&t&->&_&[Ha _]&_). cbn. rewrite Ha. by eexists.
Qed.

Lemma backEdgesLoop_ok fuel : ∀ toVisit st, circuit_ok toVisit st → (∀ n, n ∈ toVisit → n ∈ d_seen st) → (sum_list_with nsize toVisit ≤ fuel)%nat →
  ∃ st', backEdgesLoop fuel toVisit st = Some st' ∧ circuit_ok [] st' ∧ grows_circuit st st'.
Proof.
  induction fuel as [|fuel IH]; intros [|n toVisit] st Hst Hv Hf; try (by exists st; split_and!; [..|apply grows_circuit_refl]).
  { pose proof (nsize_pos n). cbn in Hf. lia. }
  assert (n ∈ d_seen st) as Hn by (apply Hv; by left). destruct (co_seen _ _ Hst n Hn) as [Hw _]. destruct (theoryOf_Some n Hw) as [t Ht]. cbn [backEdgesLoop]. rewrite bool_decide_true by done.
  cbn [assert mbind option_bind]. rewrite Ht. cbn [mbind option_bind]. destruct (decide (t = THEORY_BOOL)) as [->|Hne].
  - destruct (visitChildren_ok n (children n) toVisit st Hst Hn Ht) as (toVisit'&st1&->&H1&G1&Hch&Hv1&Hsum);
      [intros c Hc; split; [done|]; by destruct (circuit_child_wt _ _ _ _ Hst Hn Ht Hc)|set_solver|].
    destruct (IH toVisit' st1) as (st2&->&H2&G2); [by eapply circuit_drop|done| |exists st2; split_and!; [done..|by eapply grows_circuit_trans]].
    cbn [sum_list_with] in Hf. destruct n as [| | | |k cs]; [cbn in Hf, Hsum; lia..|rewrite nsize_node in Hf; cbn [children] in Hsum; lia].
  - destruct (IH toVisit st) as (st2&->&H2&G2); [apply (circuit_drop n); [done|congruence]|set_solver|cbn in Hf; pose proof (nsize_pos n); lia|]. by exists st2.
Qed.

Lemma computeBackEdges_ok n st : circuit_ok [] st → bool_wt n → ∃ st', computeBackEdges n st = Some st' ∧ circuit_ok [] st' ∧ grows_circuit st st' ∧ n ∈ d_seen st'.
Proof.
  intros Hst Hw. unfold computeBackEdges. destruct (decide (n ∈ d_seen st)) as [Hn|Hn].
  - destruct (backEdgesLoop_ok (nsize n) [] (setBackEdges n (edges n st) st)) as (st'&->&H1&G1); [|by intros ? ?%not_elem_of_nil|cbn; lia|].
    { apply set_edges_ok; [done..|]. intros p Hp. by apply (co_edges _ _ Hst). }
    exists st'. split_and!; [done..|eapply grows_circuit_trans; [apply set_edges_grows; by eauto|done]|by apply (gc_seen _ _ G1)].
  - assert (circuit_ok [n] (setBackEdges n (edges n st) (addSeen n st))) as H0.
    { change (setBackEdges n (edges n st) (addSeen n st)) with (addSeen n (setBackEdges n (edges n st) st)). apply (add_seen_ok []); [|done|cbn; rewrite lookup_insert_eq; by eexists].
      apply set_edges_ok; [done..|]. intros p Hp. by apply (co_edges _ _ Hst). }
    destruct (backEdgesLoop_ok (nsize n) [n] _ H0) as (st'&E&H1&G1); [intros x ->%list_elem_of_singleton; cbn; set_solver|cbn; lia|].
    exists st'. split_and!; [exact E|done| |apply (gc_seen _ _ G1); cbn; set_solver]. eapply grows_circuit_trans; [|exact G1]. split; [done|cbn; set_solver|]. intros c p Hp. rewrite edges_set.
    destruct (decide (c = n)) as [->|]; done.
Qed.

(** ** Steps *)

Lemma ext_assigned C st st' n : ext C st st' → is_Some (getAssignment st' n) → is_Some (getAssignment st n) ∨ C n.
Proof.
  intros [_ _ (l&_&_&HC&HL) _ _] Hn. destruct (getAssignment st n) eqn:E; [left; by eexists|]. right. rewrite list.Forall_forall in HC. by apply HC, HL.
Qed.

Lemma circuit_ext st st' : circuit_ok [] st → ext (λ n, n ∈ d_seen st) st st' → circuit_ok [] st'.
Proof.
  intros Hst Hx. pose proof Hst as [Hs Hc He [Hnd Hq] Ha]. pose proof Hx as [(Ec&El&Eb&Es&En) Hg (l&Q&Nl&HC&HL) _ _]. unfold edges in *. split; unfold edges; rewrite ?Eb, ?Es; try done.
  - rewrite Q. split.
    + apply list.NoDup_app. split_and!; [done| |done]. intros n [b Hb]%Hq [Hn _]%HL. congruence.
    + intros n. rewrite elem_of_app, Hq, HL. split; [intros [[b Hb]|[_ ?]]; [exists b; auto|done]|]. intros Hn. destruct (getAssignment st n) eqn:E; [left; by eexists|by right].
  - intros n Hn. destruct (ext_assigned _ _ _ _ Hx Hn); auto.
Qed.

(** What the members of the propagator keep from one step to the next. *)
Record later (st st' : CircuitPropagator) : Prop := {
  later_frame : d_context st' = d_context st ∧ d_needsFinish st' = d_needsFinish st;
  later_seen n : n ∈ d_seen st → n ∈ d_seen st';
  later_grows n b : getAssignment st n = Some b → getAssignment st' n = Some b;
  later_conflict : d_conflict st' = None → d_conflict st = None;
}.

Lemma later_refl st : later st st.
Proof. by split. Qed.

Lemma later_trans st1 st2 st3 : later st1 st2 → later st2 st3 → later st1 st3.
Proof. intros [[? ?] ? ? ?] [[? ?] ? ? ?]. split; [split; congruence|auto..]. Qed.

Lemma ext_later C st st' : ext C st st' → later st st'.
Proof. intros [(?&?&?&Es&?) Hg _ Hk _]. split; [done|intros n; by rewrite Es|done..]. Qed.

Lemma grows_circuit_later st st' : grows_circuit st st' → later st st'.
Proof. intros [(?&?&Ek&?&Es&?) Hs _]. split; [done|done| |congruence]. intros n b. by rewrite (getAssignment_state st st'). Qed.

Lemma later_consistent env st st' : later st st' → consistent env st' → consistent env st.
Proof. intros [_ _ Hg Hk] (Hok&Hc&Hcons). split_and!; [done|auto|]. intros n b Hn. by apply Hcons, Hg. Qed.

(** ** [assertTrue] *)

(** The assertion, or all of its conjuncts, are assigned. *)
Fixpoint asserted (st : CircuitPropagator) (a : Node) : Prop :=
  match a with
  | mkNode AND cs => (fix go cs := match cs with [] => True | c :: cs => asserted st c ∧ go cs end) cs
  | _ => getAssignment st a = Some true ∧ a ∈ d_seen st
  end.

Lemma asserted_and st cs : asserted st (mkNode AND cs) ↔ Forall (asserted st) cs.
Proof. cbn. induction cs as [|c cs IH]; [by split|]. rewrite list.Forall_cons, <- IH. done. Qed.

Lemma asserted_not_and st a : isKind AND a = false → asserted st a ↔ getAssignment st a = Some true ∧ a ∈ d_seen st.
Proof. destruct a as [| | | |k cs]; try done. by destruct k. Qed.

Lemma asserted_later st st' a : later st st' → asserted st a → asserted st' a.
Proof.
  intros Hl. induction a as [id ty|b|z|bv|k cs IH] using Node_ind'; try (cbn; intros [? ?]; split; [by apply (later_grows _ _ Hl)|by apply (later_seen _ _ Hl)]).
  destruct (decide (k = AND)) as [->|Hk].
  - rewrite !asserted_and. intros HF. rewrite list.Forall_forall in *. auto.
  - rewrite !asserted_not_and by (cbn; by rewrite bool_decide_false). intros [? ?]. split; [by apply (later_grows _ _ Hl)|by apply (later_seen _ _ Hl)].
Qed.

(** The effect of asserting [a]. *)
Definition asserts (a : Node) (st st' : CircuitPropagator) : Prop :=
  circuit_ok [] st' ∧ later st st' ∧ d_learnedLiterals st' = d_learnedLiterals st ∧
  (∀ env, consistent env st → bool_of a env = true → consistent env st') ∧ (d_conflict st' = None → asserted st' a).

Lemma assertLeaf_ok a st : circuit_ok [] st → bool_wt a → isKind AND a = false → ∃ st', (st ← computeBackEdges a st; Some (assignAndEnqueue a true st)) = Some st' ∧ asserts a st st'.
Proof.
  intros Hst Hw Hk. destruct (computeBackEdges_ok a st Hst Hw) as (st1&->&H1&G1&Hin). eexists. split; [done|].
  assert (∀ env, consistent env st → consistent env st1) as Hcons. { intros env (?&?&Hcons). destruct G1 as [(_&_&Ek&_&Es&_) _ _]. split_and!; [done|congruence|]. intros n b. rewrite (getAssignment_state st st1) by done. auto. }
  assert (d_learnedLiterals st1 = d_learnedLiterals st) as Ell by (by destruct G1 as [(?&?&?&?&_) _ _]).
  destruct (assign_cases a true st1) as [Hne|Ha|st' Hn Hkk Hq Ha Ho (?&?&Hb&Hs&?)].
  - split_and!; [by destruct H1| |done| |done]. { eapply later_trans; [by apply grows_circuit_later|]. by split. }
    intros env He Hv. by destruct (Hne env (Hcons env He)).
  - split_and!; [done|by apply grows_circuit_later|done|auto|]. intros _. by rewrite asserted_not_and.
  - assert (later st1 st') as L1. { split; [done|intros n; by rewrite Hs| |congruence]. intros n b Hb'. destruct (decide (n = a)) as [->|]; [congruence|by rewrite Ho]. }
    split_and!; [|by eapply later_trans; [apply grows_circuit_later|]|congruence| |intros _; rewrite asserted_not_and by done; split; [done|by rewrite Hs]].
    + pose proof H1 as [Hs1 Hc1 He1 [Hnd Hq1] Ha1]. unfold edges in *. split; unfold edges; rewrite ?Hb, ?Hs; try done.
      * rewrite Hq. split; [apply list.NoDup_app; split_and!; [done| |apply NoDup_singleton]; intros x Hx%Hq1 ->%list_elem_of_singleton; rewrite Hn in Hx; by destruct Hx|].
        intros x. rewrite elem_of_app, list_elem_of_singleton, Hq1. destruct (decide (x = a)) as [->|Hne]; [rewrite Ha; split; [by eexists|by right]|rewrite Ho by done; split; [by intros [?|?]|by left]].
      * intros x Hx. destruct (decide (x = a)) as [->|Hne]; [done|]. apply Ha1. by rewrite <- Ho.
    + intros env He%Hcons Hv. destruct He as (Hok&Hk0&Hc0). split_and!; [done|congruence|]. intros x b Hx. destruct (decide (x = a)) as [->|Hne]; [congruence|]. apply Hc0. by rewrite <- Ho.
Qed.

Lemma assertTrue_ok a : ∀ st, circuit_ok [] st → bool_wt a → ∃ st', assertTrue a st = Some st' ∧ asserts a st st'.
Proof.
  induction a as [id ty|b|z|bv|k cs IH] using Node_ind'; intros st Hst Hw; try (apply assertLeaf_ok; done).
  { destruct b; [by apply assertLeaf_ok|]. eexists. split; [done|]. split_and!; [by destruct Hst|by split|done..]. }
  destruct (decide (k = AND)) as [->|Hk]; [|replace (assertTrue (mkNode k cs) st) with (st ← computeBackEdges (mkNode k cs) st; Some (assignAndEnqueue (mkNode k cs) true st)) by (by destruct k);
    apply assertLeaf_ok; [done..|cbn; by rewrite bool_decide_false]].
  destruct (bool_operands AND cs _ I Hw) as (_&HF&_). cbn [assertTrue].
  assert (∃ st', (fix go (cs : list Node) (st : CircuitPropagator) := match cs with [] => Some st | c :: cs => st ← assertTrue c st; go cs st end) cs st = Some st' ∧
    circuit_ok [] st' ∧ later st st' ∧ d_learnedLiterals st' = d_learnedLiterals st ∧ (∀ env, consistent env st → (∀ c, c ∈ cs → bool_of c env = true) → consistent env st') ∧
    (d_conflict st' = None → Forall (asserted st') cs)) as (st'&E&H1&L1&El&Hc&Ha).
  { clear Hw. revert st Hst. induction IH as [|c cs Hc _ IH']; intros st Hst. { exists st. split_and!; [done..|apply later_refl|done|done|by constructor]. }
    apply list.Forall_cons in HF as [Hw HF]. destruct (Hc st Hst Hw) as (st1&->&H1&L1&El1&C1&A1). cbn [mbind option_bind]. destruct (IH' HF st1 H1) as (st2&->&H2&L2&El2&C2&A2).
    exists st2. split_and!; [done|done|by eapply later_trans|congruence| |].
    - intros env He Hall. apply C2; [apply C1; [done|]; apply Hall; by left|]. intros x Hx. apply Hall. by right.
    - intros Hk. constructor; [|by apply A2]. eapply asserted_later; [exact L2|]. apply A1. by apply (later_conflict _ _ L2). }
  exists st'. split; [done|]. split_and!; [done..| |intros Hk'; by rewrite asserted_and; apply Ha]. intros env He Hv. apply Hc; [done|]. by apply (nary_true env AND true cs); [apply He|left|..].
Qed.

Lemma assertAll_ok as' : ∀ st, circuit_ok [] st → Forall (λ a, bool_wt a) as' → ∃ st', assertAll as' st = Some st' ∧ circuit_ok [] st' ∧ later st st' ∧ d_learnedLiterals st' = d_learnedLiterals st ∧
  (∀ env, consistent env st → Forall (λ a, bool_of a env = true) as' → consistent env st') ∧ (d_conflict st' = None → Forall (asserted st') as').
Proof.
  induction as' as [|a as' IH]; intros st Hst HF. { exists st. split_and!; [done..|apply later_refl|done|done|by constructor]. }
  apply list.Forall_cons in HF as [Hw HF]. destruct (assertTrue_ok a st Hst Hw) as (st1&E1&H1&L1&El1&C1&A1). cbn [assertAll]. rewrite E1. cbn [mbind option_bind]. destruct (IH st1 H1 HF) as (st2&->&H2&L2&El2&C2&A2).
  exists st2. split_and!; [done|done|by eapply later_trans|congruence| |].
  - intros env He [Ha Has]%list.Forall_cons. auto.
  - intros Hk. constructor; [|by apply A2]. eapply asserted_later; [exact L2|]. apply A1. by apply (later_conflict _ _ L2).
Qed.

(** ** Propagation *)

(** Every learned literal follows from the assignment. *)
Definition learned_ok (st : CircuitPropagator) : Prop := ∀ env, consistent env st → Forall (λ l, bool_of l env = true) (d_learnedLiterals st).

Section loop.
Context (fwd bwd : bool).

(** The gates whose value the first [i] nodes of the queue determine have it. *)
Definition evaluated (i : nat) (st : CircuitPropagator) : Prop := ∀ env p, env_ok env → p ∈ d_seen st → gate p → theoryOf p = Some THEORY_BOOL → d_conflict st = None →
  needs env p ≠ [] → (∀ d, d ∈ needs env p → d ∈ take i (d_propagationQueue st) ∧ getAssignment st d = Some (bool_of d env)) → getAssignment st p = Some (bool_of p env).

Lemma learn_ok n v st : circuit_ok [] st → learned_ok st → bool_wt n → getAssignment st n = Some v → circuit_ok [] (learn (if v then n else notNode n) st) ∧ learned_ok (learn (if v then n else notNode n) st).
Proof.
  intros Hst Hl Hw Hv. split; [by destruct Hst|]. intros env He. cbn. apply Forall_app. split; [by apply Hl|]. apply Forall_singleton. pose proof He as (Hok&_&Hc). pose proof (Hc n v Hv) as E.
  destruct v; [done|]. unfold notNode. by rewrite bool_of_not, E.
Qed.

Lemma propagateNode_ok current v st : circuit_ok [] st → learned_ok st → getAssignment st current = Some v → ∃ st', propagateNode fwd bwd current st = Some st' ∧
  circuit_ok [] st' ∧ learned_ok st' ∧ later st st' ∧ d_seen st' = d_seen st ∧ (∃ l, d_propagationQueue st' = d_propagationQueue st ++ l) ∧ (∀ env, consistent env st → consistent env st') ∧
  (fwd = true → ∀ env p, env_ok env → d_conflict st' = None → p ∈ d_seen st → theoryOf p = Some THEORY_BOOL → current ∈ needs env p →
    (∀ d, d ∈ needs env p → getAssignment st d = Some (bool_of d env)) → getAssignment st' p = Some (bool_of p env)).
Proof.
  intros Hst Hl Hv. assert (current ∈ d_seen st) as Hin by (apply (co_assigned _ _ Hst); by eexists). destruct (co_seen _ _ Hst _ Hin) as [Hw [ps Hps]]. destruct (theoryOf_Some _ Hw) as [t Ht].
  unfold propagateNode. rewrite Hv, Ht. cbn [mbind option_bind]. set (atom := negb (bool_decide (t = THEORY_BOOL)) || isVar current || eqVars current).
  set (st0 := if atom || eqVar current then _ else st).
  assert (circuit_ok [] st0 ∧ learned_ok st0 ∧ d_seen st0 = d_seen st ∧ d_propagationQueue st0 = d_propagationQueue st ∧ d_backEdges st0 = d_backEdges st ∧ d_conflict st0 = d_conflict st ∧ d_state st0 = d_state st ∧ later st st0)
    as (H0&L0&Es0&Eq0&Eb0&Ek0&Est0&La0).
  { unfold st0. destruct (atom || eqVar current); [|split_and!; try done; apply later_refl]. destruct (learn_ok current v st Hst Hl Hw Hv). by split_and!; [..|split]. }
  clearbody st0. assert (∀ n, getAssignment st0 n = getAssignment st n) as Ea0 by (intros n; by apply getAssignment_state).
  assert (∃ st1, (if bwd && negb atom && negb (isConst current) then propagateBackward current v st0 else Some st0) = Some st1 ∧ ext (λ n, n ∈ d_seen st0) st0 st1) as (st1&->&X1).
  { destruct (bwd && negb atom && negb (isConst current)) eqn:Eb; [|eexists; split; [done|apply ext_refl]]. apply andb_true_iff in Eb as [[_ Hat%negb_true_iff]%andb_true_iff Hcst%negb_true_iff].
    unfold atom in Hat. apply orb_false_iff in Hat as [[Htb%negb_false_iff%bool_decide_eq_true Hvar]%orb_false_iff _]. subst t. pose proof (gate_of _ Hw Ht Hvar Hcst) as Hg.
    destruct (backward_ext current v st0 Hg) as (st1&E1&X1); [apply entails_assigned; by rewrite Ea0|]. exists st1. split; [done|]. eapply ext_weaken; [|exact X1]. intros n Hn. cbn. rewrite Es0.
    apply (co_children _ _ Hst current n); [done|apply not_elem_of_nil|done..]. }
  pose proof (circuit_ext _ _ H0 X1) as H1. pose proof (ext_later _ _ _ X1) as La1. pose proof X1 as [(_&El1&Eb1&Es1&_) Hg1 (l1&Q1&_) _ So1]. cbn [mbind option_bind].
  assert (∀ env, consistent env st → consistent env st1) as C1. { intros env (Hok&Hk&Hc). apply So1. split_and!; [done|congruence|]. intros n b. rewrite Ea0. auto. }
  assert (learned_ok st1) as L1. { intros env He. rewrite El1. apply L0. by eapply later_consistent. }
  destruct fwd; [|exists st1; split_and!; try done; [by eapply later_trans|congruence|exists l1; by rewrite Q1, Eq0]].
  unfold propagateForward. rewrite Eb1, Eb0, Hps. cbn [mbind option_bind].
  assert (∀ p, p ∈ ps → p ∈ d_seen st ∧ theoryOf p = Some THEORY_BOOL ∧ current ∈ children p) as Hpar. { intros p Hp. apply (co_edges _ _ Hst). unfold edges. by rewrite Hps. }
  destruct (forwardLoop_ok current v ps st1) as (st2&->&X2&F2).
  { apply list.Forall_forall. intros p Hp. destruct (Hpar p Hp) as (?&?&?). split; [|done]. by eapply (circuit_child_wt [] st). }
  { apply (later_grows _ _ La1), (later_grows _ _ La0), Hv. }
  assert (ext (λ n, n ∈ d_seen st1) st1 st2) as X2'. { eapply ext_weaken; [|exact X2]. intros n (p&Hp&Hn). cbn. rewrite Es1, Es0. destruct (Hpar p Hp) as (?&?&?). destruct Hn as [->|Hn]; [done|]. apply (co_children _ _ Hst p n); [done|apply not_elem_of_nil|done..]. }
  pose proof X2' as [(_&El2&_&Es2&_) _ (l2&Q2&_) _ So2]. pose proof (ext_later _ _ _ X2') as La2. exists st2. split_and!; [done|by eapply circuit_ext| |by eapply later_trans, later_trans|congruence|exists (l1 ++ l2); by rewrite Q2, Q1, Eq0, app_assoc|auto|].
  - intros env He. rewrite El2. apply L1. by eapply later_consistent.
  - intros _ env p Hok Hk Hp Htp Hcn Ha. apply F2; [done..| |done|].
    + pose proof (needs_children _ _ _ Hcn) as Hch. destruct (co_children _ _ Hst p current Hp ltac:(apply not_elem_of_nil) Htp Hch) as [_ Hed]. unfold edges in Hed. by rewrite Hps in Hed.
    + intros d Hd. apply (later_grows _ _ La1), (later_grows _ _ La0). auto.
Qed.

Lemma queue_bound st : circuit_ok [] st → (length (d_propagationQueue st) ≤ size (d_seen st))%nat.
Proof.
  intros Hst. destruct (co_queue _ _ Hst) as [Hnd Hq]. rewrite <- (size_list_to_set (C:=gset Node)) by done. apply subseteq_size. intros n Hn%elem_of_list_to_set. by apply (co_assigned _ _ Hst), Hq.
Qed.

Lemma propagateLoop_ok fuel : ∀ i st, circuit_ok [] st → learned_ok st → (size (d_seen st) ≤ fuel + i)%nat → (i ≤ length (d_propagationQueue st))%nat → (fwd = true → evaluated i st) → ∃ st', propagateLoop fwd bwd fuel i st = Some st' ∧
  circuit_ok [] st' ∧ learned_ok st' ∧ later st st' ∧ d_seen st' = d_seen st ∧ (∀ env, consistent env st → consistent env st') ∧ (fwd = true → evaluated (length (d_propagationQueue st')) st').
Proof.
  induction fuel as [|fuel IH]; intros i st Hst Hl Hf Hi Hev; cbn [propagateLoop].
  all: destruct (d_propagationQueue st !! i) as [current|] eqn:Eq; [|exists st; split_and!; [done..|apply later_refl|done|done|]; intros Hfw; apply lookup_ge_None in Eq; replace (length (d_propagationQueue st)) with i by lia; by apply Hev].
  all: destruct (d_conflict st) as [cf|] eqn:Ek; [exists st; split_and!; [done..|apply later_refl|done|done|]; intros _ env p _ _ _ _ Hk; congruence|].
  { pose proof (queue_bound st Hst). apply lookup_lt_Some in Eq. lia. }
  destruct (co_queue _ _ Hst) as [Hnd Hq]. assert (is_Some (getAssignment st current)) as [v Hv] by (apply Hq; by eapply list_elem_of_lookup_2).
  destruct (propagateNode_ok current v st Hst Hl Hv) as (st1&->&H1&L1&La1&Es1&(l&Q1)&C1&F1). cbn [mbind option_bind]. pose proof (lookup_lt_Some _ _ _ Eq) as Hlt.
  destruct (IH (S i) st1 H1 L1) as (st2&->&H2&L2&La2&Es2&C2&F2); [rewrite Es1; lia|rewrite Q1, length_app; lia| |exists st2; split_and!; [done..|by eapply later_trans|congruence|auto|done]].
  intros Hfw env p Hok Hp Hg Htp Hk Hne Ha. rewrite Es1 in Hp. assert (take (S i) (d_propagationQueue st1) = take i (d_propagationQueue st) ++ [current]) as Et by (rewrite Q1, take_app_le by lia; by apply take_S_r).
  assert (∀ d, d ∈ needs env p → getAssignment st d = Some (bool_of d env)) as Ha0.
  { intros d Hd. destruct (Ha d Hd) as [Hdt Hdv]. rewrite Et in Hdt. assert (is_Some (getAssignment st d)) as [b Hb]. { apply Hq. apply elem_of_app in Hdt as [Hdt| ->%list_elem_of_singleton]; [by eapply subseteq_take|by eapply list_elem_of_lookup_2]. }
    pose proof (later_grows _ _ La1 _ _ Hb). congruence. }
  destruct (decide (current ∈ needs env p)) as [Hcn|Hcn]; [by apply F1|]. apply (later_grows _ _ La1). apply (Hev Hfw); [done..|]. intros d Hd. split; [|by apply Ha0].
  destruct (Ha d Hd) as [Hdt _]. rewrite Et in Hdt. apply elem_of_app in Hdt as [Hdt| ->%list_elem_of_singleton]; [done|by destruct Hcn].
Qed.

Lemma propagate_ok st : circuit_ok [] st → learned_ok st → ∃ st', propagate fwd bwd st = Some (d_conflict st', st') ∧
  circuit_ok [] st' ∧ learned_ok st' ∧ later st st' ∧ d_seen st' = d_seen st ∧ (∀ env, consistent env st → consistent env st') ∧ (fwd = true → evaluated (length (d_propagationQueue st')) st').
Proof.
  intros Hst Hl. destruct (propagateLoop_ok (size (d_seen st)) 0 st Hst Hl) as (st'&E&H1&H2&H3&H4&H5&H6); [lia|lia| |].
  { intros _ env p _ _ _ _ _ Hne Ha. destruct (needs env p) as [|d l]; [done|]. destruct (Ha d ltac:(by left)) as [Hd _]. by apply not_elem_of_nil in Hd. }
  exists st'. split_and!; [|done..]. unfold propagate. by rewrite E.
Qed.

End loop.
