(* ===== verification/PropagatorTheorems.v ===== *)
(** What a run of the circuit propagator derives. *)
From stdpp Require Import base option list gmap numbers.
From S2P Require Import Prelude Node TypeRules Semantics TypeSound BvElim BvTerms BvSimplifySound BoolTerms TheoryRewriter Rewriter CircuitPropagator PropagatorRules PropagatorSound.

(** ** Runs *)

Definition start : CircuitPropagator := setNeedsFinish (pushContext newCircuitPropagator).

Lemma start_ok : circuit_ok [] start ∧ learned_ok start ∧ d_conflict start = None.
Proof.
  assert (∀ n, getAssignment start n = None) as Hn by (intros n; unfold getAssignment; cbn; by rewrite lookup_empty). split_and!; [|by constructor|done]. split; cbn.
  - intros n []%not_elem_of_empty.
  - intros n c []%not_elem_of_empty.
  - intros c p. unfold edges. cbn. rewrite lookup_empty. by intros ?%not_elem_of_nil.
  - split; [constructor|]. intros n. rewrite Hn. split; [by intros ?%not_elem_of_nil|by intros []].
  - intros n. rewrite Hn. by intros [].
Qed.

Lemma start_consistent env : env_ok env → consistent env start.
Proof. intros Hok. split_and!; [done..|]. intros n b. unfold getAssignment. cbn. by rewrite lookup_empty. Qed.

Lemma run_ok fwd bwd as' st : initialize st = initialize newCircuitPropagator → Forall (λ a, bool_wt a) as' → ∃ st', run fwd bwd as' st = Some (d_conflict st', st') ∧
  circuit_ok [] st' ∧ learned_ok st' ∧ later start st' ∧ (∀ env, env_ok env → Forall (λ a, bool_of a env = true) as' → consistent env st') ∧
  (d_conflict st' = None → Forall (asserted st') as') ∧ (fwd = true → evaluated (length (d_propagationQueue st')) st').
Proof.
  intros Hi HF. unfold run. rewrite Hi. change (initialize newCircuitPropagator) with (Some start). cbn [mbind option_bind]. destruct start_ok as (H0&L0&_).
  destruct (assertAll_ok as' start H0 HF) as (st1&->&H1&La1&El1&C1&A1). cbn [mbind option_bind]. assert (learned_ok st1) as L1 by (intros env _; rewrite El1; constructor).
  destruct (propagate_ok fwd bwd st1 H1 L1) as (st2&->&H2&L2&La2&Es2&C2&F2). exists st2. split_and!; [done..|by eapply later_trans| | |done].
  - intros env Hok Hv. apply C2, C1; [by apply start_consistent|done].
  - intros Hk. eapply list.Forall_impl; [apply A1; by apply (later_conflict _ _ La2)|]. intros a. by apply asserted_later.
Qed.

Lemma run_reset st : later start st → initialize st = initialize newCircuitPropagator.
Proof. intros [[Hc Hn] _ _ _]. unfold initialize. rewrite Hn. cbn [d_needsFinish setNeedsFinish start]. unfold popContext. by rewrite Hc. Qed.

Lemma bool_of_true n env : bool_of n env = true ↔ eval env n = Some (VBool true).
Proof. unfold bool_of. destruct (eval env n) as [[[]| |]|]; naive_solver. Qed.

Lemma needs_nonempty env p : gate p → needs env p ≠ [].
Proof.
  assert (∀ v cs, cs ≠ [] → nary_needs env v cs ≠ []) as Hn by (intros v cs Hcs; unfold nary_needs; by destruct (filter _ cs)).
  intros Hg. destruct Hg as [k cs [-> | ->] _ Hne|a _|c x y _ _ _|x y _ _|x y _ _|x y _ _]; cbn [needs]; auto; try done. by destruct (bool_of c env).
Qed.

(** The nodes that the rules do not evaluate. *)
Definition leaf (n : Node) : bool := isVar n || isConst n || negb (bool_decide (theoryOf n = Some THEORY_BOOL)).

Lemma circuit_values env st : circuit_ok [] st → evaluated (length (d_propagationQueue st)) st → d_conflict st = None → env_ok env →
  (∀ n, n ∈ d_seen st → leaf n = true → getAssignment st n = Some (bool_of n env)) → ∀ n, n ∈ d_seen st → getAssignment st n = Some (bool_of n env).
Proof.
  intros Hst Hev Hk Hok Hleaf n. induction n as [id ty|b|z|bv|k cs IH] using Node_ind'; intros Hn; try (by apply Hleaf). destruct (leaf (mkNode k cs)) eqn:El; [by apply Hleaf|].
  unfold leaf in El. apply orb_false_iff in El as [_ Ht%negb_false_iff%bool_decide_eq_true]. destruct (co_seen _ _ Hst _ Hn) as [Hw _]. pose proof (gate_of _ Hw Ht eq_refl eq_refl) as Hg.
  apply Hev; [done..|by apply needs_nonempty|]. intros d Hd. pose proof (needs_children _ _ _ Hd) as Hc. destruct (co_children _ _ Hst _ d Hn ltac:(apply not_elem_of_nil) Ht Hc) as [Hds _].
  rewrite list.Forall_forall in IH. pose proof (IH d Hc Hds) as E. split; [|done]. rewrite firstn_all. apply (co_queue _ _ Hst). by eexists.
Qed.

Lemma asserted_true env st a : bool_wt a → env_ok env → (∀ n, n ∈ d_seen st → getAssignment st n = Some (bool_of n env)) → asserted st a → bool_of a env = true.
Proof.
  intros Hw Hok Hv. revert Hw. induction a as [id ty|b|z|bv|k cs IH] using Node_ind'; intros Hw Ha; try (destruct Ha as [Ha Hs]; apply Hv in Hs; congruence).
  destruct (decide (k = AND)) as [->|Hk]; [|rewrite asserted_not_and in Ha by (cbn; by rewrite bool_decide_false); destruct Ha as [Ha Hs]; apply Hv in Hs; congruence].
  destruct (bool_operands AND cs _ I Hw) as (_&HF&_). apply (nary_true env AND true cs); [done|by left|done|]. rewrite asserted_and in Ha. rewrite list.Forall_forall in *. auto.
Qed.

(** ** Theorems *)

(** C6: the circuit propagator derives consequences of the assertions: on a fresh
    propagator, or one that is initialized again, a run on typed Boolean assertions
    returns.  In every valuation that satisfies the assertions the literals it has
    learned are true; so when it reports a conflict no valuation satisfies them.
    It can be initialized again after the run. *)
Theorem circuit_propagator_sound fwd bwd assertions st :
  initialize st = initialize newCircuitPropagator → Forall (λ a, wt a BOOLEAN_TYPE) assertions → ∃ conflict st', run fwd bwd assertions st = Some (conflict, st') ∧
    (∀ env, env_ok env → Forall (λ a, eval env a = Some (VBool true)) assertions → conflict = None ∧ Forall (λ l, eval env l = Some (VBool true)) (d_learnedLiterals st')) ∧
    initialize st' = initialize newCircuitPropagator.
Proof.
  intros Hi HF. destruct (run_ok fwd bwd assertions st Hi HF) as (st'&E&_&Hl&La&Hc&_). exists (d_conflict st'), st'. split_and!; [done| |by apply run_reset].
  intros env Hok Hv. pose proof (Hc env Hok) as He. assert (consistent env st') as Hcons by (apply He; eapply list.Forall_impl; [exact Hv|]; intros a; apply bool_of_true).
  split; [apply Hcons|]. eapply list.Forall_impl; [exact (Hl env Hcons)|]. intros l. apply bool_of_true.
Qed.

(** C7: forward propagation evaluates the circuit: when a run that propagates
    forward ends without a conflict and has assigned every variable, constant and atom
    of the circuit, a valuation in which these have the values assigned satisfies every
    assertion, and every node of the circuit has been assigned its value. *)
Theorem circuit_propagator_complete bwd assertions st :
  initialize st = initialize newCircuitPropagator → Forall (λ a, wt a BOOLEAN_TYPE) assertions → ∃ conflict st', run true bwd assertions st = Some (conflict, st') ∧
    (conflict = None → ∀ env, env_ok env → (∀ n, n ∈ d_seen st' → leaf n = true → getAssignment st' n = Some (bool_of n env)) →
      Forall (λ a, eval env a = Some (VBool true)) assertions ∧ ∀ n, n ∈ d_seen st' → getAssignment st' n = Some (bool_of n env)).
Proof.
  intros Hi HF. destruct (run_ok true bwd assertions st Hi HF) as (st'&E&Hst&_&_&_&Ha&Hev). exists (d_conflict st'), st'. split; [done|]. intros Hk env Hok Hleaf.
  pose proof (circuit_values env st' Hst (Hev eq_refl) Hk Hok Hleaf) as Hv. split; [|done]. specialize (Ha Hk). rewrite list.Forall_forall in *. intros a Hin. apply bool_of_true. by eapply asserted_true; eauto.
Qed.

(** ** Concrete runs *)

Definition bvar (i : positive) : Node := mkVar i BOOLEAN_TYPE.

(** [p], [not p or q], [not (q and r)]: all three variables are learned. *)
Definition circuit3 : list Node := [mkNode OR [mkNode NOT [bvar 1]; bvar 2]; bvar 1; mkNode NOT [mkNode AND [bvar 2; bvar 3]]].
Definition env12 : Env := λ id ty, match ty with BOOLEAN_TYPE => VBool (bool_decide (id ≠ 3%positive)) | _ => env0 id ty end.

Lemma env12_ok : env_ok env12.
Proof. intros id [| |w|a] Hok Ha; [done|apply (env0_ok id _ Hok Ha)..]. Qed.

Lemma circuit_propagator_sound_witness : ∃ conflict st', run true true circuit3 newCircuitPropagator = Some (conflict, st') ∧ conflict = None ∧
  d_learnedLiterals st' = [bvar 1; bvar 2; mkNode NOT [bvar 3]] ∧ Forall (λ l, eval env12 l = Some (VBool true)) (d_learnedLiterals st').
Proof.
  destruct (circuit_propagator_sound true true circuit3 newCircuitPropagator) as (conflict&st'&E&Hv&_); [done|repeat constructor|].
  destruct (Hv env12 env12_ok) as [Hk Hl]; [repeat constructor|]. exists conflict, st'. split; [done|]. split; [done|]. split; [|done].
  assert ((λ r, d_learnedLiterals r.2) <$> run true true circuit3 newCircuitPropagator = Some [bvar 1; bvar 2; mkNode NOT [bvar 3]]) as E' by (vm_compute; reflexivity).
  rewrite E in E'. by injection E'.
Defined.

(** The values assigned to the variables satisfy the assertions. *)
Lemma circuit_propagator_complete_witness : ∃ conflict st', run true true circuit3 newCircuitPropagator = Some (conflict, st') ∧ Forall (λ a, eval env12 a = Some (VBool true)) circuit3.
Proof.
  destruct (circuit_propagator_complete true circuit3 newCircuitPropagator) as (conflict&st'&E&Hv); [done|repeat constructor|]. exists conflict, st'. split; [done|].
  assert ((λ r, (r.1, forallb (λ n, negb (leaf n) || bool_decide (getAssignment r.2 n = Some (bool_of n env12))) (elements (d_seen r.2)))) <$> run true true circuit3 newCircuitPropagator = Some (None, true)) as E' by (vm_compute; reflexivity).
  rewrite E in E'. injection E' as -> Hall. apply (Hv eq_refl env12 env12_ok). intros n Hn Hl. rewrite forallb_forall in Hall. specialize (Hall n). rewrite Hl in Hall. cbn in Hall.
  apply bool_decide_eq_true in Hall; [done|]. by apply list_elem_of_In, elem_of_elements.
Defined.
