(* ===== verification/AssertionPipeline.v ===== *)
(** [preprocessing/assertion_pipeline.cpp]: the assertions that the preprocessing
    passes modify.  Proofs are disabled ([d_pppg] is null).  [None] is a failed
    assertion or an index out of range. *)
From stdpp Require Import base option list gmap numbers.
From S2P Require Import Prelude Node BvElim.

Record AssertionPipeline := mkPipeline {
  d_nodes : list Node;
  d_iteSkolemMap : gmap nat Node;
  d_storeSubstsInAsserts : bool;
  d_substsIndices : gset nat;
  d_conflict : bool;
  d_isRefutationUnsound : bool;
  d_isModelUnsound : bool;
}.

(** [preprocessing_pass.h]. *)
Inductive PreprocessingPassResult := CONFLICT | NO_CONFLICT.

Definition newAssertionPipeline : AssertionPipeline := mkPipeline [] ∅ false ∅ false false false.

Definition clear (p : AssertionPipeline) : AssertionPipeline := mkPipeline [] ∅ (d_storeSubstsInAsserts p) ∅ false false false.

Definition setNodes (ns : list Node) (p : AssertionPipeline) : AssertionPipeline :=
  mkPipeline ns (d_iteSkolemMap p) (d_storeSubstsInAsserts p) (d_substsIndices p) (d_conflict p) (d_isRefutationUnsound p) (d_isModelUnsound p).

Definition markConflict (p : AssertionPipeline) : AssertionPipeline :=
  mkPipeline [mkConstBool false] ∅ (d_storeSubstsInAsserts p) (d_substsIndices p) true (d_isRefutationUnsound p) (d_isModelUnsound p).

Definition markRefutationUnsound (p : AssertionPipeline) : AssertionPipeline :=
  mkPipeline (d_nodes p) (d_iteSkolemMap p) (d_storeSubstsInAsserts p) (d_substsIndices p) (d_conflict p) true (d_isModelUnsound p).

Definition markModelUnsound (p : AssertionPipeline) : AssertionPipeline :=
  mkPipeline (d_nodes p) (d_iteSkolemMap p) (d_storeSubstsInAsserts p) (d_substsIndices p) (d_conflict p) (d_isRefutationUnsound p) true.

Definition replace (i : nat) (n : Node) (p : AssertionPipeline) : option AssertionPipeline :=
  m ← d_nodes p !! i;
  Some (if decide (n = m) then p
        else if decide (n = mkConstBool false) then markConflict p
        else setNodes (<[i := n]> (d_nodes p)) p).

(** A null trust node is [None]; a node of kind [REWRITE] proves [lhs = rhs]. *)
Definition replaceTrusted (i : nat) (trn : option (Node * Node)) (p : AssertionPipeline) : option AssertionPipeline :=
  m ← d_nodes p !! i;
  match trn with
  | None => Some p
  | Some (lhs, rhs) => _ ← assert (bool_decide (lhs = m)); replace i rhs p
  end.

Definition removeIteSkolem (skolem : Node) (p : AssertionPipeline) : AssertionPipeline :=
  mkPipeline (d_nodes p) (filter (λ kv, kv.2 ≠ skolem) (d_iteSkolemMap p)) (d_storeSubstsInAsserts p) (d_substsIndices p) (d_conflict p) (d_isRefutationUnsound p) (d_isModelUnsound p).

Definition enableStoreSubstsInAsserts (p : AssertionPipeline) : AssertionPipeline :=
  mkPipeline (d_nodes p ++ [mkConstBool true]) (d_iteSkolemMap p) true (d_substsIndices p) (d_conflict p) (d_isRefutationUnsound p) (d_isModelUnsound p).

Definition disableStoreSubstsInAsserts (p : AssertionPipeline) : AssertionPipeline :=
  mkPipeline (d_nodes p) (d_iteSkolemMap p) false (d_substsIndices p) (d_conflict p) (d_isRefutationUnsound p) (d_isModelUnsound p).

Definition isSubstsIndex (i : nat) (p : AssertionPipeline) : bool := d_storeSubstsInAsserts p && bool_decide (i ∈ d_substsIndices p).

(** The loop that collects the conjuncts; the last element of [toProcess] comes
    first. *)
Fixpoint conjuncts (fuel : nat) (toProcess conjs : list Node) : option (list Node) :=
  match toProcess, fuel with
  | [], _ => Some conjs
  | _, O => None
  | mkNode AND cs :: toProcess, S fuel => conjuncts fuel (cs ++ toProcess) conjs
  | nc :: toProcess, S fuel => conjuncts fuel toProcess (conjs ++ [nc])
  end.

(** The loop over the conjuncts. *)
Fixpoint pushAll (push : Node → AssertionPipeline → option AssertionPipeline) (conjs : list Node) (p : AssertionPipeline) : option AssertionPipeline :=
  match conjs with [] => Some p | nc :: conjs => p ← push nc p; pushAll push conjs p end.

Section rewriting.
Context (rewrite : Node → Node).

Definition ensureRewritten (i : nat) (p : AssertionPipeline) : option AssertionPipeline := m ← d_nodes p !! i; replace i (rewrite m) p.

(** The fuel bounds the depth of the calls. *)
Fixpoint pushBack (fuel : nat) (ensureRew : bool) (n : Node) (p : AssertionPipeline) : option AssertionPipeline :=
  match fuel with
  | O => None
  | S fuel =>
      if d_conflict p then Some p
      else if decide (n = mkConstBool false) then Some (markConflict p)
      else match n with
           | mkNode AND _ => conjs ← conjuncts (nsize n) [n] []; pushAll (pushBack fuel ensureRew) conjs p
           | _ =>
               let p := setNodes (d_nodes p ++ [n]) p in
               if ensureRew then ensureRewritten (pred (length (d_nodes p))) p else Some p
           end
  end.

(** The conjuncts are not conjunctions. *)
Definition push_back (n : Node) (ensureRew : bool) (p : AssertionPipeline) : option AssertionPipeline := pushBack 2 ensureRew n p.

(** A trust node of kind [LEMMA] proves [n]. *)
Definition pushBackTrusted (n : Node) (ensureRew : bool) (p : AssertionPipeline) : option AssertionPipeline := push_back n ensureRew p.

Definition addSubstitutionNode (n : Node) (p : AssertionPipeline) : option AssertionPipeline :=
  _ ← assert (d_storeSubstsInAsserts p);
  _ ← assert (isKind EQUAL n);
  let prevNodeSize := length (d_nodes p) in
  p ← push_back n true p;
  Some (mkPipeline (d_nodes p) (d_iteSkolemMap p) (d_storeSubstsInAsserts p)
          (d_substsIndices p ∪ list_to_set (seq prevNodeSize (length (d_nodes p) - prevNodeSize))) (d_conflict p) (d_isRefutationUnsound p) (d_isModelUnsound p)).

End rewriting.
