(* ===== verification/PipelineSound.v ===== *)
(** The assertion pipeline is the conjunction of its assertions when a formula is
    pushed, an assertion replaced or rewritten. *)
From stdpp Require Import base option list gmap numbers.
From S2P Require Import Prelude Node TypeRules Semantics BvElim BvTerms BoolTerms PropagatorRules PropagatorTheorems AssertionPipeline.
Open Scope Z_scope.

(** ** What the pipeline stands for *)

Abbreviation true_in env n := (eval env n = Some (VBool true)).

Definition holds (env : Env) (p : AssertionPipeline) : Prop := Forall (λ n, true_in env n) (d_nodes p).

(** The assertions are formulas; a pipeline in conflict cannot be satisfied. *)
Record pipeline_ok (p : AssertionPipeline) : Prop := {
  nodes_wt : Forall (λ n, wt n BOOLEAN_TYPE) (d_nodes p);
  conflict_unsat : d_conflict p = true → ∀ env, env_ok env → ¬ holds env p;
}.

(** A step that adds the formulas [ns]. *)
Definition adds (ns : list Node) (p p' : AssertionPipeline) : Prop :=
  pipeline_ok p' ∧ ∀ env, env_ok env → holds env p' ↔ holds env p ∧ Forall (λ n, true_in env n) ns.

Lemma false_wt : wt (mkConstBool false) BOOLEAN_TYPE.
Proof. done. Qed.

Lemma holds_conflict env p : ¬ holds env (markConflict p).
Proof. intros HF. unfold holds in HF. cbn in HF. by apply list.Forall_cons in HF as [? _]. Qed.

Lemma markConflict_ok p : pipeline_ok (markConflict p).
Proof. split; [by repeat constructor|]. intros _ env _. apply holds_conflict. Qed.

(** The conjunction decides: the same conjunction keeps the pipeline correct. *)
Lemma ok_nodes ns p : pipeline_ok p → Forall (λ n, wt n BOOLEAN_TYPE) ns → (∀ env, env_ok env → holds env (setNodes ns p) → holds env p) → pipeline_ok (setNodes ns p).
Proof. intros [_ Hc] Hns Hh. split; [done|]. intros Hconf env Hok Hv. by eapply Hc; [exact Hconf|exact Hok|apply Hh]. Qed.

Lemma holds_insert env p i m n : d_nodes p !! i = Some m → eval env n = eval env m → holds env (setNodes (<[i := n]> (d_nodes p)) p) ↔ holds env p.
Proof.
  intros Hi He. unfold holds. cbn. rewrite !Forall_lookup. assert (i < length (d_nodes p))%nat as Hlt by (by eapply lookup_lt_Some). split.
  - intros HF j x Hj. destruct (decide (j = i)) as [->|Hne]; [|apply (HF j); by rewrite list_lookup_insert_ne].
    rewrite Hi in Hj. injection Hj as <-. rewrite <- He. apply (HF i). by apply list_lookup_insert_eq.
  - intros HF j x Hj. destruct (decide (j = i)) as [->|Hne]; [|apply (HF j); by rewrite list_lookup_insert_ne in Hj].
    rewrite list_lookup_insert_eq in Hj by done. injection Hj as <-. rewrite He. by apply (HF i).
Qed.

(** An assertion that is false makes the conjunction false. *)
Lemma holds_false env p i m : d_nodes p !! i = Some m → eval env m = Some (VBool false) → ¬ holds env p.
Proof. unfold holds. rewrite Forall_lookup. intros Hi Hm HF. apply HF in Hi. congruence. Qed.

(** Replacing an assertion by one with the same meaning. *)
Lemma replace_ok i m n p : pipeline_ok p → d_nodes p !! i = Some m → equiv m n → ∃ p', replace i n p = Some p' ∧ adds [] p p'.
Proof.
  intros Hp Hi He. unfold replace. rewrite Hi. cbn [mbind option_bind]. eexists. split; [done|]. destruct (decide (n = m)) as [->|Hne].
  { split; [done|]. intros env Hok. split; [done|by intros [? _]]. }
  assert (wt m BOOLEAN_TYPE) as Hm by (by eapply Forall_lookup_1 in Hi; [|apply nodes_wt]). destruct (decide (n = mkConstBool false)) as [->|Hf].
  - split; [apply markConflict_ok|]. intros env Hok. destruct He as (_&_&Hv). split; [by intros ?%holds_conflict|]. intros [Hh _]. exfalso. by eapply holds_false; [exact Hi|rewrite <- Hv|].
  - pose proof (λ env Hok, holds_insert env p i m n Hi (proj2 (proj2 He) env Hok)) as Hh. split; [|intros env Hok; rewrite Hh by done; split; [done|by intros [? _]]].
    apply ok_nodes; [done| |intros env Hok; by apply Hh]. apply Forall_insert; [apply Hp|by eapply equiv_wt].
Qed.

(** ** Passes *)

(** What a pass that replaces each assertion by one with the same meaning
    promises: a conflict means that the assertions cannot be satisfied. *)
Definition pass_ok (p : AssertionPipeline) (r : PreprocessingPassResult) (p' : AssertionPipeline) : Prop :=
  pipeline_ok p' ∧ (∀ env, env_ok env → holds env p' ↔ holds env p) ∧
  (r = CONFLICT → ∀ env, env_ok env → ¬ holds env p) ∧ (r = NO_CONFLICT → Forall2 equiv (d_nodes p) (d_nodes p')).

Lemma adds_nil p p' : adds [] p p' → pipeline_ok p' ∧ ∀ env, env_ok env → holds env p' ↔ holds env p.
Proof. intros [? Hh]. split; [done|]. intros env Hok. rewrite Hh by done. split; [by intros [? _]|done]. Qed.

(** The assertions after a replacement without a new conflict. *)
Lemma replace_nodes i n p p' : replace i n p = Some p' → (n = mkConstBool false → d_nodes p !! i = Some n) ∨ d_conflict p' = false → d_nodes p' = <[i := n]> (d_nodes p).
Proof.
  unfold replace. intros (m&Hi&[= <-])%bind_Some Hc. destruct (decide (n = m)) as [->|Hne]; [by rewrite list_insert_id|]. destruct (decide (n = mkConstBool false)) as [->|]; [|done].
  destruct Hc as [Hc|Hc]; [|done]. specialize (Hc eq_refl). congruence.
Qed.

Lemma insert_middle (l k : list Node) x y : <[length l := y]> (l ++ x :: k) = l ++ y :: k.
Proof. rewrite insert_app_r_alt by lia. by rewrite Nat.sub_diag. Qed.

(** ** [push_back] *)

Lemma conjuncts_nil fuel conjs : conjuncts fuel [] conjs = Some conjs.
Proof. by destruct fuel. Qed.

Lemma conjuncts_leaf n : isKind AND n = false → conjuncts (nsize n) [n] [] = Some [n].
Proof.
  intros Ha. pose proof (nsize_pos n). destruct (nsize n) as [|fuel]; [lia|]. destruct n as [| | | |k cs]; try (cbn; by rewrite conjuncts_nil). by destruct k; try (cbn; by rewrite conjuncts_nil).
Qed.

(** The loop ends; it collects formulas that are not conjunctions, and their
    conjunction is that of the stack. *)
Lemma conjuncts_split fuel : ∀ toProcess conjs, (sum_list_with nsize toProcess ≤ fuel)%nat → Forall (λ n, wt n BOOLEAN_TYPE) toProcess → ∃ ns, conjuncts fuel toProcess conjs = Some (conjs ++ ns) ∧
  Forall (λ n, wt n BOOLEAN_TYPE ∧ isKind AND n = false) ns ∧ ∀ env, env_ok env → Forall (λ n, true_in env n) ns ↔ Forall (λ n, true_in env n) toProcess.
Proof.
  induction fuel as [|fuel IH]; intros [|n toProcess] conjs Hs HF; try (exists []; rewrite conjuncts_nil, app_nil_r; split_and!; [done|constructor|done]).
  { cbn in Hs. pose proof (nsize_pos n). lia. }
  apply list.Forall_cons in HF as [Hn HF]. cbn [sum_list_with] in Hs. pose proof (nsize_pos n) as Hpos. destruct (isKind AND n) eqn:Ea.
  - apply isKind_eq in Ea as [cs ->]. destruct (bool_operands AND cs _ I Hn) as (_&HB&_). rewrite nsize_node in Hs. destruct (IH (cs ++ toProcess) conjs) as (ns&E&HN&Hv); [rewrite sum_list_with_app; lia|by apply Forall_app|].
    exists ns. split_and!; [done..|]. intros env Hok. rewrite Hv, Forall_app, list.Forall_cons by done. f_equiv. rewrite <- bool_of_true, (nary_true env AND true cs Hok), list.Forall_forall by (by auto || by left).
    by setoid_rewrite bool_of_true.
  - destruct (IH toProcess (conjs ++ [n])) as (ns&E&HN&Hv); [lia|done|]. exists (n :: ns). rewrite <- app_assoc in E. split_and!; [|by constructor|intros env Hok; by rewrite !list.Forall_cons, Hv].
    cbn [app] in E. rewrite <- E. destruct n as [| | | |k cs]; try done. by destruct k.
Qed.

Section rewriting.
Context (rewrite : Node → Node).

(** The rewriter keeps the type and the value of a term. *)
Definition kept (n : Node) : Prop := equiv n (rewrite n).

Lemma ensureRewritten_ok i m p : pipeline_ok p → d_nodes p !! i = Some m → kept m → ∃ p', ensureRewritten rewrite i p = Some p' ∧ adds [] p p'.
Proof using Type. intros Hp Hm Hk. unfold ensureRewritten. rewrite Hm. cbn [mbind option_bind]. by eapply replace_ok. Qed.

Lemma adds_trans ns ms p1 p2 p3 : adds ns p1 p2 → adds ms p2 p3 → adds (ns ++ ms) p1 p3.
Proof using Type. intros [_ H12] [Hp H23]. split; [done|]. intros env Hok. rewrite H23, H12, Forall_app by done. tauto. Qed.

(** A formula that is not a conjunction. *)
Lemma pushBack_leaf fuel ensureRew n p : pipeline_ok p → wt n BOOLEAN_TYPE → isKind AND n = false → (ensureRew = true → kept n) → ∃ p', pushBack rewrite (S fuel) ensureRew n p = Some p' ∧ adds [n] p p'.
Proof using Type*.
  intros Hp Hn Ha Hk. cbn [pushBack]. destruct (d_conflict p) eqn:Ec.
  { exists p. split; [done|]. split; [done|]. intros env Hok. split; [|by intros [? _]]. intros []%(conflict_unsat p Hp Ec env Hok). }
  destruct (decide (n = mkConstBool false)) as [->|Hf].
  { eexists. split; [done|]. split; [apply markConflict_ok|]. intros env Hok. split; [by intros ?%holds_conflict|]. intros [_ [? _]%list.Forall_cons]. done. }
  set (p1 := setNodes (d_nodes p ++ [n]) p). assert (adds [n] p p1) as H1.
  { assert (∀ env, holds env p1 ↔ holds env p ∧ Forall (λ n, true_in env n) [n]) as Hh by (intros env; unfold holds; cbn; by rewrite Forall_app).
    split; [|done]. apply ok_nodes; [done| |intros env _; apply Hh]. apply Forall_app. split; [apply Hp|by rewrite Forall_singleton]. }
  assert (∃ p', (if ensureRew then ensureRewritten rewrite (pred (length (d_nodes p1))) p1 else Some p1) = Some p' ∧ adds [n] p p') as (p'&E&H').
  { destruct ensureRew; [|by exists p1]. destruct (ensureRewritten_ok (pred (length (d_nodes p1))) n p1) as (p'&E&H'); [apply H1|cbn; rewrite length_app, Nat.add_1_r; by apply list_lookup_middle|by apply Hk|]. exists p'. split; [done|]. by apply (adds_trans [n] [] p p1). }
  exists p'. split; [|done]. destruct n as [| | | |k cs]; try done. by destruct k.
Qed.

Lemma pushAll_ok fuel ensureRew ns p : pipeline_ok p → Forall (λ n, wt n BOOLEAN_TYPE ∧ isKind AND n = false) ns → (ensureRew = true → Forall kept ns) → ∃ p', pushAll (pushBack rewrite (S fuel) ensureRew) ns p = Some p' ∧ adds ns p p'.
Proof using Type*.
  intros Hp HF HK. revert p Hp HK. induction HF as [|n ns [Hn Ha] _ IH]; intros p Hp HK.
  { exists p. split; [done|]. split; [done|]. intros env Hok. split; [done|by intros [? _]]. }
  destruct (pushBack_leaf fuel ensureRew n p Hp Hn Ha) as (p1&E1&H1); [intros Hr; by apply HK, list.Forall_cons in Hr as [? _]|].
  destruct (IH p1 (proj1 H1)) as (p2&E2&H2); [intros Hr; by apply HK, list.Forall_cons in Hr as [_ ?]|]. exists p2. cbn [pushAll]. rewrite E1. split; [done|]. by apply (adds_trans [n] ns p p1).
Qed.

(** C14: [push_back] adds a formula to the pipeline.  If the rewriter keeps the type
    and the value of the conjuncts that are pushed, which is asked only when the
    assertions are to be rewritten, it returns, and in every valuation the new
    assertions hold if and only if the old ones and the formula do, also when a
    conjunction is split, when an assertion is rewritten and when the pipeline is or
    gets in conflict. *)
Theorem push_back_conjoins n ensureRew p : pipeline_ok p → wt n BOOLEAN_TYPE →
  (ensureRew = true → ∀ conjs, conjuncts (nsize n) [n] [] = Some conjs → Forall kept conjs) →
  ∃ p', push_back rewrite n ensureRew p = Some p' ∧ pipeline_ok p' ∧ ∀ env, env_ok env → holds env p' ↔ holds env p ∧ eval env n = Some (VBool true).
Proof using Type*.
  intros Hp Hn HK. assert (∃ p', push_back rewrite n ensureRew p = Some p' ∧ adds [n] p p') as (p'&E&H').
  2: { exists p'. destruct H' as [? Hh]. split_and!; [done..|]. intros env Hok. rewrite Hh by done. by rewrite Forall_singleton. }
  destruct (conjuncts_split (nsize n) [n] []) as (ns&E&HN&Hv); [cbn; lia|by rewrite Forall_singleton|]. destruct (isKind AND n) eqn:Ea.
  2: { apply pushBack_leaf; [done..|]. intros Hr. specialize (HK Hr ns E). rewrite (conjuncts_leaf n Ea) in E. injection E as <-. by rewrite Forall_singleton in HK. }
  destruct (d_conflict p) eqn:Ec.
  { exists p. split; [unfold push_back; cbn [pushBack]; by rewrite Ec|]. split; [done|]. intros env Hok. split; [|by intros [? _]]. intros []%(conflict_unsat p Hp Ec env Hok). }
  destruct (pushAll_ok 0 ensureRew ns p Hp HN) as (p'&E'&Hp'&Hh); [intros Hr; by apply (HK Hr)|].
  exists p'. split; [|split; [done|intros env Hok; by rewrite Hh, Hv]]. apply isKind_eq in Ea as [cs ->]. unfold push_back. cbn [pushBack]. rewrite Ec, decide_False by done. cbn [pushBack] in E'. by rewrite E.
Qed.

End rewriting.

(** A nested conjunction is split into its three conjuncts. *)
Lemma push_back_conjoins_witness :
  let v i := mkVar i BOOLEAN_TYPE in let n := mkNode2 AND (v 1%positive) (mkNode2 AND (v 2%positive) (v 3%positive)) in
  ∃ p', push_back id n true newAssertionPipeline = Some p' ∧ d_nodes p' = [v 1%positive; v 2%positive; v 3%positive] ∧ ∀ env, env_ok env → holds env p' ↔ eval env n = Some (VBool true).
Proof.
  intros v n. destruct (push_back_conjoins id n true newAssertionPipeline) as (p'&E&_&Hh); [by split; [constructor|]|done|intros _ conjs [= <-]; repeat (constructor; [by eapply equiv_refl|]); constructor|].
  exists p'. split; [done|]. split; [by injection E as <-|]. intros env Hok. rewrite Hh by done. split; [by intros [_ ?]|]. intros ?. split; [constructor|done].
Defined.
