(* ===== verification/BVToBool.v ===== *)
(** [preprocessing/passes/bv_to_bool.cpp]: equalities between one-bit terms become
    Boolean formulas.  [None] is a failed assertion or [Unhandled()]. *)
From stdpp Require Import base option list gmap numbers.
From S2P Require Import Prelude Node TypeRules BitVectorUtil BvElim AssertionPipeline.
Open Scope Z_scope.

Record BVToBool := mkBVToBool { d_liftCache : gmap Node Node; d_boolCache : gmap Node Node }.

Section pass.
Context `{!Gmp}.

Definition d_one : Node := utils.mkConst 1 1.

(** ** Caches *)

Definition addToLiftCache (term new_term : Node) : StateM BVToBool unit :=
  st ← getState;
  lift (assert (bool_decide (d_liftCache st !! term = None)));;
  t ← lift (typeOf term); t' ← lift (typeOf new_term);
  lift (assert (bool_decide (t = t')));;
  putState (mkBVToBool (<[term := new_term]> (d_liftCache st)) (d_boolCache st)).

Definition addToBoolCache (term new_term : Node) : StateM BVToBool unit :=
  st ← getState;
  lift (assert (bool_decide (d_boolCache st !! term = None)));;
  s ← lift (getSize term); t ← lift (typeOf new_term);
  lift (assert (bool_decide (s = 1)));;
  lift (assert (isBoolean t));;
  putState (mkBVToBool (d_liftCache st) (<[term := new_term]> (d_boolCache st))).

(** ** Recognizers *)

(** [n.getType().isBitVector() && n.getType().getBitVectorSize() == 1]. *)
Definition isBit (n : Node) : option bool := t ← typeOf n; Some (bool_decide (t = BITVECTOR_TYPE 1)).

Definition isExtract (n : Node) : bool := match n with mkNode (BITVECTOR_EXTRACT _ _) _ => true | _ => false end.

Definition isConvertibleBvAtom (node : Node) : option bool :=
  match node with
  | mkNode EQUAL (a :: b :: _) => ba ← isBit a; bb ← isBit b; Some (ba && bb && negb (isExtract a) && negb (isExtract b))
  | _ => Some false
  end.

Definition isConvertibleBvTerm (node : Node) : option bool :=
  b ← isBit node;
  Some (b && match node with
             | mkConstBV _ => true
             | mkNode (ITE | BITVECTOR_AND | BITVECTOR_OR | BITVECTOR_NOT | BITVECTOR_XOR | BITVECTOR_COMP) _ => true
             | _ => false
             end).

(** ** Conversion *)

(** The loop over the children that builds a node. *)
Fixpoint mapChildren (f : Node → StateM BVToBool Node) (cs : list Node) : StateM BVToBool (list Node) :=
  match cs with
  | [] => mret []
  | c :: cs => c' ← f c; cs' ← mapChildren f cs; mret (c' :: cs')
  end.

(** The loop of [BITVECTOR_XOR]. *)
Fixpoint xorChildren (f : Node → StateM BVToBool Node) (result : Node) (cs : list Node) : StateM BVToBool Node :=
  match cs with
  | [] => mret result
  | c :: cs => converted ← f c; xorChildren f (mkNode2 XOR result converted) cs
  end.

(** The part of [convertBvTerm] for a node that is not in the cache and is
    convertible; [lift] and [convert] are the recursive calls. *)
Definition convertBvNode (lift_ convert : Node → StateM BVToBool Node) (node : Node) : StateM BVToBool Node :=
  match node with
  | mkConstBV _ => mret (if decide (node = d_one) then utils.mkTrue else utils.mkFalse)
  | mkNode ITE [c; t; e] =>
      cond ← lift_ c; true_branch ← convert t; false_branch ← convert e;
      let result := mkNode3 ITE cond true_branch false_branch in
      addToBoolCache node result;; mret result
  | mkNode BITVECTOR_XOR (c :: cs) => result ← convert c; xorChildren convert result cs
  | mkNode BITVECTOR_COMP (a :: b :: _) =>
      let result := mkNode2 EQUAL a b in
      addToBoolCache node result;; mret result
  | mkNode k cs =>
      new_kind ← lift (match k with BITVECTOR_OR => Some OR | BITVECTOR_AND => Some AND | BITVECTOR_NOT => Some NOT | _ => None end);
      cs' ← mapChildren convert cs;
      let result := mkNode new_kind cs' in
      addToBoolCache node result;; mret result
  | _ => lift None
  end.

(** The body of [convertBvTerm]. *)
Definition convertBvBody (lift_ convert : Node → StateM BVToBool Node) (node : Node) : StateM BVToBool Node :=
  b ← lift (isBit node);
  lift (assert b);;
  st ← getState;
  match d_boolCache st !! node with
  | Some result => mret result
  | None =>
      convertible ← lift (isConvertibleBvTerm node);
      if convertible : bool then convertBvNode lift_ convert node
      else let result := mkNode2 EQUAL node d_one in addToBoolCache node result;; mret result
  end.

Definition convertBvAtom (convert : Node → StateM BVToBool Node) (node : Node) : StateM BVToBool Node :=
  match node with
  | mkNode EQUAL (a :: b :: _) =>
      t ← lift (typeOf node); lift (assert (isBoolean t));;
      sa ← lift (getSize a); lift (assert (bool_decide (sa = 1)));;
      sb ← lift (getSize b); lift (assert (bool_decide (sb = 1)));;
      a' ← convert a; b' ← convert b; mret (mkNode2 EQUAL a' b')
  | _ => lift None
  end.

(** A child of [liftNode], with the assertion on its type. *)
Definition liftChild (lift_ : Node → StateM BVToBool Node) (c : Node) : StateM BVToBool Node :=
  converted ← lift_ c;
  t ← lift (typeOf converted); t' ← lift (typeOf c);
  lift (assert (bool_decide (t = t')));; mret converted.

(** The body of [liftNode]. *)
Definition liftBody (lift_ convert : Node → StateM BVToBool Node) (current : Node) : StateM BVToBool Node :=
  st ← getState;
  result ← match d_liftCache st !! current with
           | Some result => mret result
           | None =>
               atom ← lift (isConvertibleBvAtom current);
               if atom : bool then result ← convertBvAtom convert current; addToLiftCache current result;; mret result
               else
                 match current with
                 | mkNode k (c :: cs) =>
                     cs' ← mapChildren (liftChild lift_) (c :: cs);
                     let result := mkNode k cs' in
                     addToLiftCache current result;; mret result
                 | _ => mret current
                 end
           end;
  t ← lift (typeOf result); t' ← lift (typeOf current);
  lift (assert (bool_decide (t = t')));; mret result.

(** The two functions call each other on subterms; the fuel bounds their size. *)
Fixpoint convertBvTerm (fuel : nat) (node : Node) : StateM BVToBool Node :=
  match fuel with O => lift None | S fuel => convertBvBody (liftNode fuel) (convertBvTerm fuel) node end
with liftNode (fuel : nat) (current : Node) : StateM BVToBool Node :=
  match fuel with O => lift None | S fuel => liftBody (liftNode fuel) (convertBvTerm fuel) current end.

(** ** The pass *)

Context (rewrite : Node → Node).

Fixpoint liftBvToBool (assertions : list Node) : StateM BVToBool (list Node) :=
  match assertions with
  | [] => mret []
  | a :: assertions =>
      new_assertion ← liftNode (nsize a) a;
      new_assertions ← liftBvToBool assertions;
      mret (rewrite new_assertion :: new_assertions)
  end.

(** The caches of a new pass. *)
Definition newBVToBool : BVToBool := mkBVToBool ∅ ∅.

(** The loop of [applyInternal], at the index [i]. *)
Fixpoint replaceLoop (i : nat) (new_assertions : list Node) (p : AssertionPipeline) : option (PreprocessingPassResult * AssertionPipeline) :=
  match new_assertions with
  | [] => Some (NO_CONFLICT, p)
  | n :: new_assertions =>
      p ← replace i n p;
      if d_conflict p then Some (CONFLICT, p)
      else p ← ensureRewritten rewrite i p; replaceLoop (S i) new_assertions p
  end.

(** There are as many new assertions as assertions.  The caches are members of the
    pass and stay for the next call. *)
Definition applyInternal (p : AssertionPipeline) : StateM BVToBool (PreprocessingPassResult * AssertionPipeline) :=
  new_assertions ← liftBvToBool (d_nodes p);
  lift (replaceLoop 0 new_assertions p).

End pass.
