(* ===== verification/BVToBoolSound.v ===== *)
(** The pass [bv-to-bool] keeps the meaning of the assertions. *)
From stdpp Require Import base option list gmap numbers.
From S2P Require Import Prelude Integer Node TypeRules Semantics BvArith TypeSound BitVectorUtil BvElim BvTerms BvConstSound BvAssoc BvSimplifySound BoolTerms AssertionPipeline PipelineSound BVToBool.
Open Scope Z_scope.

Section sound.
Context `{!Gmp, !GmpLaws}.

(** ** The caches *)

Record caches_ok (st : BVToBool) : Prop := {
  lift_cached n m : d_liftCache st !! n = Some m → equiv n m ∧ isConst n = false;
  bool_cached n m : d_boolCache st !! n = Some m → bit n m;
}.

(** Only terms of at most [s] symbols are added. *)
Definition keys (s : nat) (st st' : BVToBool) : Prop :=
  ∀ n, (s < nsize n)%nat → d_liftCache st' !! n = d_liftCache st !! n ∧ d_boolCache st' !! n = d_boolCache st !! n.

Lemma keys_refl s st : keys s st st.
Proof using Type. by intros n _. Qed.

Lemma keys_trans s st1 st2 st3 : keys s st1 st2 → keys s st2 st3 → keys s st1 st3.
Proof using Type. intros K1 K2 n Hn. destruct (K1 n Hn), (K2 n Hn). split; congruence. Qed.

Lemma keys_weaken s s' st st' : (s ≤ s')%nat → keys s st st' → keys s' st st'.
Proof using Type. intros Hs HK n Hn. apply HK. lia. Qed.

(** A computation returns a value for which [Q] holds, and keeps the caches. *)
Definition returns {A} (s : nat) (Q : A → Prop) (p : StateM BVToBool A) (st : BVToBool) : Prop :=
  ∃ a st', p st = Some (a, st') ∧ caches_ok st' ∧ keys s st st' ∧ Q a.

Lemma returns_ret {A} s (Q : A → Prop) a st : caches_ok st → Q a → returns s Q (mret a) st.
Proof using Type. intros Hst Ha. exists a, st. split_and!; [done..|apply keys_refl|done]. Qed.

Lemma returns_step {A B} s s' (Q : A → Prop) (R : B → Prop) p f st : (s ≤ s')%nat → returns s Q p st → (∀ a st', caches_ok st' → keys s st st' → Q a → returns s' R (f a) st') → returns s' R (p ≫= f) st.
Proof using Type.
  intros Hs (a&st1&E&H1&K1&Ha) Hf. destruct (Hf a st1 H1 K1 Ha) as (b&st2&E2&H2&K2&Hb). exists b, st2. rewrite (bind_eq _ _ _ _ _ E). split_and!; [done..|eapply keys_trans; [by eapply keys_weaken|done]|done].
Qed.

Lemma returns_then {A B} s (Q : A → Prop) (R : B → Prop) p f st : returns s Q p st → (∀ a st', caches_ok st' → keys s st st' → Q a → returns s R (f a) st') → returns s R (p ≫= f) st.
Proof using Type. by apply returns_step. Qed.

Lemma returns_lift {A B} s (R : B → Prop) (o : option A) (f : A → StateM BVToBool B) a st : o = Some a → returns s R (f a) st → returns s R (lift o ≫= f) st.
Proof using Type. intros -> Hr. exact Hr. Qed.

Lemma returns_get {B} s (R : B → Prop) (f : BVToBool → StateM BVToBool B) st : returns s R (f st) st → returns s R (getState ≫= f) st.
Proof using Type. done. Qed.

Lemma returns_weaken {A} s s' (Q Q' : A → Prop) p st : (s ≤ s')%nat → (∀ a, Q a → Q' a) → returns s Q p st → returns s' Q' p st.
Proof using Type. intros Hs HQ (a&st'&E&H1&K1&Ha). exists a, st'. split_and!; [done..|by eapply keys_weaken|auto]. Qed.

Lemma addToLiftCache_ok n m τ st : caches_ok st → d_liftCache st !! n = None → wt n τ → isConst n = false → equiv n m → returns (nsize n) (λ _, True) (addToLiftCache n m) st.
Proof using Type.
  intros [Hl Hb] Hn Hw Hc He. exists tt, (mkBVToBool (<[n := m]> (d_liftCache st)) (d_boolCache st)). destruct (equiv_wt _ _ _ Hw He) as [Hm _]. split_and!; [| | |done].
  - unfold addToLiftCache, getState, putState, lift, mbind, StateM_bind. by rewrite bool_decide_true, (proj1 Hw), Hm, bool_decide_true by done.
  - split; [|done]. intros x y. cbn. destruct (decide (x = n)) as [->|Hne]; [rewrite lookup_insert_eq; by intros [= <-]|rewrite lookup_insert_ne by done; apply Hl].
  - intros x Hx. cbn. rewrite lookup_insert_ne; [done|]. intros ->. lia.
Qed.

Lemma addToBoolCache_ok n m st : caches_ok st → d_boolCache st !! n = None → bit n m → returns (nsize n) (λ _, True) (addToBoolCache n m) st.
Proof using Type.
  intros [Hl Hb] Hn Hm. exists tt, (mkBVToBool (d_liftCache st) (<[n := m]> (d_boolCache st))). split_and!; [| | |done].
  - unfold addToBoolCache, getState, putState, lift, mbind, StateM_bind, getSize. pose proof Hm as [_ [Hmt _]]. by rewrite bool_decide_true, (proj1 (bit_wt _ _ Hm)), Hmt by done.
  - split; [done|]. intros x y. cbn. destruct (decide (x = n)) as [->|Hne]; [rewrite lookup_insert_eq; by intros [= <-]|rewrite lookup_insert_ne by done; apply Hb].
  - intros x Hx. cbn. rewrite lookup_insert_ne; [done|]. intros ->. lia.
Qed.

(** A result is added to a cache and returned. *)
Lemma returns_addBool n m st : caches_ok st → d_boolCache st !! n = None → bit n m → returns (nsize n) (bit n) (addToBoolCache n m;; mret m) st.
Proof using Type. intros Hst Hn Hm. eapply returns_then; [by apply addToBoolCache_ok|]. intros _ st1 H1 _ _. by apply returns_ret. Qed.

Lemma returns_addLift n m τ st : caches_ok st → d_liftCache st !! n = None → wt n τ → isConst n = false → equiv n m → returns (nsize n) (equiv n) (addToLiftCache n m;; mret m) st.
Proof using Type. intros Hst Hn Hw Hc Hm. eapply returns_then; [by eapply addToLiftCache_ok|]. intros _ st1 H1 _ _. by apply returns_ret. Qed.

Lemma keys_bool s st st' n : keys s st st' → (s < nsize n)%nat → d_boolCache st !! n = None → d_boolCache st' !! n = None.
Proof using Type. intros HK Hs Hn. destruct (HK n Hs). congruence. Qed.

Lemma keys_lift s st st' n : keys s st st' → (s < nsize n)%nat → d_liftCache st !! n = None → d_liftCache st' !! n = None.
Proof using Type. intros HK Hs Hn. destruct (HK n Hs). congruence. Qed.

(** ** Children *)

Lemma mapChildren_ok s (R : Node → Node → Prop) f cs : Forall (λ c, ∀ st, caches_ok st → returns s (R c) (f c) st) cs → ∀ st, caches_ok st → returns s (Forall2 R cs) (mapChildren f cs) st.
Proof using Type.
  induction 1 as [|c cs Hc _ IH]; intros st Hst; cbn [mapChildren]; [by apply returns_ret|]. eapply returns_then; [by apply Hc|]. intros m st1 H1 K1 Hm.
  eapply returns_then; [by apply IH|]. intros ms st2 H2 K2 Hms. apply returns_ret; [done|by constructor].
Qed.

Lemma xorChildren_ok s f cs : Forall (λ c, ∀ st, caches_ok st → returns s (bit c) (f c) st) cs → ∀ r st, caches_ok st →
  returns s (λ m, ∃ ms, Forall2 bit cs ms ∧ m = foldl (λ r c, mkNode2 XOR r c) r ms) (xorChildren f r cs) st.
Proof using Type.
  induction 1 as [|c cs Hc _ IH]; intros r st Hst; cbn [xorChildren]; [apply returns_ret; [done|by exists []]|]. eapply returns_then; [by apply Hc|]. intros m st1 H1 K1 Hm.
  eapply returns_weaken; [done| |by apply IH]. intros m' (ms&HF&->). exists (m :: ms). split; [by constructor|done].
Qed.

(** ** The recursive functions *)

(** What the calls on smaller terms promise. *)
Definition converts (s : nat) (convert : Node → StateM BVToBool Node) : Prop := ∀ n st, caches_ok st → wt n (BITVECTOR_TYPE 1) → (nsize n ≤ s)%nat → returns (nsize n) (bit n) (convert n) st.
Definition lifts (s : nat) (lift_ : Node → StateM BVToBool Node) : Prop :=
  ∀ n τ st, caches_ok st → wt n τ → (nsize n ≤ s)%nat → returns (nsize n) (λ m, equiv n m ∧ (isConst n = true → m = n)) (lift_ n) st.

Lemma isBit_wt n τ : wt n τ → isBit n = Some (bool_decide (τ = BITVECTOR_TYPE 1)).
Proof using Type. intros [Ht _]. unfold isBit. by rewrite Ht. Qed.

Lemma d_one_cst : d_one = one1.
Proof using Type*. unfold d_one. by rewrite mkConst_cst. Qed.

Lemma bit_constant bv : wt (mkConstBV bv) (BITVECTOR_TYPE 1) → mkConstBV bv = one1 ∨ mkConstBV bv = zero1.
Proof using Type.
  intros Hw. destruct (wt_bvterm _ _ Hw) as (_&_&He). destruct (He env0 env0_ok) as [E Hb]. destruct bv as [w v]. cbn in E, Hb. injection E as ->.
  assert (v = 0 ∨ v = 1) as [-> | ->] by lia; auto.
Qed.

Lemma comp_operands cs τ : wt (mkNode BITVECTOR_COMP cs) τ → ∃ a b w, cs = [a; b] ∧ wt a (BITVECTOR_TYPE w) ∧ wt b (BITVECTOR_TYPE w).
Proof using Type. intros [Ht Hc]. destruct (bvpred2_inv BITVECTOR_COMP cs τ (λ _, eq_refl) (λ _, eq_refl) Ht Hc) as (a&b&w&->&_&_&Hta&Htb&Hca&Hcb). by exists a, b, w. Qed.

Section calls.
Context (s : nat) (lift_ convert : Node → StateM BVToBool Node) (Hlift : lifts s lift_) (Hconv : converts s convert).

Lemma convert_children k cs : (nsize (mkNode k cs) ≤ S s)%nat → wts 1 cs → Forall (λ c, ∀ st, caches_ok st → returns (sum_list_with nsize cs) (bit c) (convert c) st) cs.
Proof using Hconv.
  intros Hs HF. rewrite nsize_node in Hs. apply list.Forall_forall. intros c Hc st Hst. unfold wts in HF. rewrite list.Forall_forall in HF. pose proof (sum_list_with_elem nsize c cs Hc).
  eapply returns_weaken; [|done|apply Hconv; [done|by apply HF|]]; lia.
Qed.

Lemma convertBvNode_ok n st : caches_ok st → d_boolCache st !! n = None → wt n (BITVECTOR_TYPE 1) → isConvertibleBvTerm n = Some true → (nsize n ≤ S s)%nat →
  returns (nsize n) (bit n) (convertBvNode lift_ convert n) st.
Proof using Type*.
  intros Hst Hn Hw Hc Hs. unfold isConvertibleBvTerm in Hc. rewrite (isBit_wt _ _ Hw) in Hc. rewrite bool_decide_true in Hc by done. cbn [mbind option_bind andb] in Hc. injection Hc as Hc.
  destruct n as [|?|?|bv|k cs]; try done.
  { apply returns_ret; [done|]. rewrite d_one_cst. destruct (bit_constant bv Hw) as [-> | ->]; [rewrite decide_True by done; apply (bit_const true)|rewrite decide_False by done; apply (bit_const false)]. }
  pose proof (nsize_node k cs) as Ens. destruct k; try done; cbn [convertBvNode].
  - destruct (ite_operands cs _ Hw) as (c&t&e&->&Wc&Wt&We). cbn [sum_list_with] in Ens. pose proof (nsize_pos c) as Pc. pose proof (nsize_pos t) as Pt. pose proof (nsize_pos e) as Pe.
    eapply returns_step; [|apply (Hlift c _ _ Hst Wc)|]; [lia..|]. intros c' st1 H1 K1 [Ec _]. eapply returns_step; [|apply (Hconv t _ H1 Wt)|]; [lia..|]. intros t' st2 H2 K2 Et.
    eapply returns_step; [|apply (Hconv e _ H2 We)|]; [lia..|]. intros e' st3 H3 K3 Ee. apply returns_addBool; [done| |].
    + eapply keys_bool; [exact K3|lia|]. eapply keys_bool; [exact K2|lia|]. eapply keys_bool; [exact K1|lia|done].
    + pose proof (bit_ite c t t' e e' Wc Et Ee) as Hb. eapply bit_equiv_r; [exact Hb|]. apply (equiv_children ITE [c; t'; e'] [c'; t'; e'] BOOLEAN_TYPE); [apply Hb| |by intros z [= ->]; destruct Et as [_ [? _]]].
      constructor; [done|]. constructor; [eapply equiv_refl, Et|]. constructor; [eapply equiv_refl, Ee|constructor].
  - destruct (nary_operands (k:=BITVECTOR_AND) cs _ Hw) as (w&[= <-]&_&Hcs&Hl&Hm). cbn [lift]. eapply returns_lift; [done|].
    eapply returns_step; [|apply (mapChildren_ok _ _ _ _ (convert_children _ _ Hs Hcs) _ Hst)|]; [lia|]. intros cs' st1 H1 K1 HF. apply returns_addBool; [done|eapply keys_bool; [exact K1|lia|done]|]. apply bit_nary; auto.
  - destruct (comp_operands cs _ Hw) as (a&b&w&->&Ha&Hb). apply returns_addBool; [done..|]. by eapply bit_comp.
  - destruct (nary_operands (k:=BITVECTOR_OR) cs _ Hw) as (w&[= <-]&_&Hcs&Hl&Hm). eapply returns_lift; [done|].
    eapply returns_step; [|apply (mapChildren_ok _ _ _ _ (convert_children _ _ Hs Hcs) _ Hst)|]; [lia|]. intros cs' st1 H1 K1 HF. apply returns_addBool; [done|eapply keys_bool; [exact K1|lia|done]|]. apply bit_nary; auto.
  - destruct (nary_operands (k:=BITVECTOR_XOR) cs _ Hw) as (w&[= <-]&_&Hcs&Hl&Hm). pose proof (convert_children _ _ Hs Hcs) as HF. destruct cs as [|c cs]; [cbn in Hl; lia|]. apply list.Forall_cons in HF as [Hc0 HF].
    eapply (returns_step (sum_list_with nsize (c :: cs))); [lia|by apply Hc0|]. intros c' st1 H1 K1 Hb. eapply (returns_weaken (sum_list_with nsize (c :: cs))); [lia| |apply (xorChildren_ok _ _ _ HF _ _ H1)]. intros m (ms&HF2&->). apply bit_xors; [done..|destruct cs; [cbn in Hl; lia|done]|done].
  - destruct (not_terms cs _ Hw) as (a&w&->&[= <-]&Ha). cbn [sum_list_with] in Ens. eapply returns_lift; [done|].
    eapply returns_step; [|apply (mapChildren_ok (nsize a) bit convert [a]); [|done]|]; [lia| |].
    + constructor; [|constructor]. intros st' Hst'. apply Hconv; [done|apply Ha|lia].
    + intros cs' st1 H1 K1 HF. inversion HF as [|? m ? ms Hb HF']; subst. inversion HF'; subst. apply returns_addBool; [done|eapply keys_bool; [exact K1|lia|done]|]. by apply bit_not.
Qed.

Lemma convertBvBody_ok n st : caches_ok st → wt n (BITVECTOR_TYPE 1) → (nsize n ≤ S s)%nat → returns (nsize n) (bit n) (convertBvBody lift_ convert n) st.
Proof using Type*.
  intros Hst Hw Hs. unfold convertBvBody. eapply returns_lift; [by apply (isBit_wt n)|]. rewrite bool_decide_true by done. eapply returns_lift; [done|].
  apply returns_get.
  destruct (d_boolCache st !! n) as [m|] eqn:E; [apply returns_ret; [done|by apply (bool_cached _ Hst)]|].
  destruct (isConvertibleBvTerm n) as [[]|] eqn:Ec; [eapply returns_lift; [done|]; by apply convertBvNode_ok|eapply returns_lift; [done|]|unfold isConvertibleBvTerm in Ec; by rewrite (isBit_wt _ _ Hw) in Ec].
  apply returns_addBool; [done..|]. rewrite d_one_cst. by apply bit_equal_one.
Qed.

Lemma convertBvAtom_ok n st : caches_ok st → wt n BOOLEAN_TYPE → isConvertibleBvAtom n = Some true → (nsize n ≤ S s)%nat → returns (pred (nsize n)) (equiv n) (convertBvAtom convert n) st.
Proof using Hconv.
  intros Hst Hw Hc Hs. destruct n as [| | | |k cs]; try done. destruct k; try done. destruct (equal_terms cs _ Hw) as (a&b&t&->&_&Ha&Hb). cbn [isConvertibleBvAtom] in Hc.
  rewrite (isBit_wt _ _ Ha), (isBit_wt _ _ Hb) in Hc. cbn [mbind option_bind] in Hc. injection Hc as Hc. apply andb_true_iff in Hc as [[[->%bool_decide_eq_true _]%andb_true_iff _]%andb_true_iff _].
  pose proof (nsize_node EQUAL [a; b]) as Ens. cbn [sum_list_with] in Ens. cbn [convertBvAtom]. eapply returns_lift; [apply Hw|]. eapply returns_lift; [done|].
  eapply returns_lift; [by apply (getSize_term a 1 _ (wt_bvterm _ _ Ha))|]. eapply returns_lift; [done|]. eapply returns_lift; [by apply (getSize_term b 1 _ (wt_bvterm _ _ Hb))|]. eapply returns_lift; [done|].
  eapply (returns_step (nsize a)); [lia|apply Hconv; [done..|lia]|]. intros a' st1 H1 K1 Ba. eapply (returns_step (nsize b)); [lia|apply Hconv; [done..|lia]|]. intros b' st2 H2 K2 Bb.
  apply returns_ret; [done|]. by apply equal_bits.
Qed.

Lemma liftChild_ok c τ st : caches_ok st → wt c τ → (nsize c ≤ s)%nat → returns (nsize c) (λ m, equiv c m ∧ (isConst c = true → m = c)) (liftChild lift_ c) st.
Proof using Hlift.
  intros Hst Hw Hs. unfold liftChild. eapply returns_then; [by eapply Hlift|]. intros m st1 H1 K1 Hm. destruct (equiv_wt _ _ _ Hw (proj1 Hm)) as [Ht _].
  eapply returns_lift; [exact Ht|]. eapply returns_lift; [apply Hw|]. rewrite bool_decide_true by done. eapply returns_lift; [done|]. by apply returns_ret.
Qed.

(** A node whose children are lifted. *)
Lemma liftNode_children k cs τ st : caches_ok st → d_liftCache st !! mkNode k cs = None → wt (mkNode k cs) τ → (nsize (mkNode k cs) ≤ S s)%nat →
  returns (nsize (mkNode k cs)) (equiv (mkNode k cs)) (cs' ← mapChildren (liftChild lift_) cs; let result := mkNode k cs' in addToLiftCache (mkNode k cs) result;; mret result) st.
Proof using Hlift.
  intros Hst Hn Hw Hs. pose proof (nsize_node k cs) as Ens. pose proof (node_inv k cs τ (proj1 Hw) (proj2 Hw)) as (_&_&_&Hcc&ts&HM&_). pose proof (children_wt cs ts HM Hcc) as HW.
  eapply (returns_step (sum_list_with nsize cs)); [lia| |].
  - apply (mapChildren_ok _ (λ c m, equiv c m ∧ (isConst c = true → m = c))); [|done]. apply list.Forall_forall. intros c Hc st1 H1. pose proof (sum_list_with_elem nsize c cs Hc). apply list_elem_of_lookup in Hc as [i Hi].
    destruct (Forall2_lookup_l _ _ _ _ _ HW Hi) as (t&_&Ht). eapply (returns_weaken (nsize c)); [lia|intros m Hm; exact Hm|]. eapply liftChild_ok; [done..|lia].
  - intros cs' st1 H1 K1 HF. eapply returns_addLift; [done|eapply keys_lift; [exact K1|lia|done]|done|done|]. eapply equiv_children; [done| |].
    + eapply Forall2_impl; [|exact HF]. by intros c d [? _].
    + intros z Hz. destruct (Forall2_lookup_l _ _ _ _ _ HF Hz) as (d&Hd&_&Hdz). by rewrite Hd, Hdz.
Qed.

Lemma liftBody_ok n τ st : caches_ok st → wt n τ → (nsize n ≤ S s)%nat → returns (nsize n) (λ m, equiv n m ∧ (isConst n = true → m = n)) (liftBody lift_ convert n) st.
Proof using Type*.
  intros Hst Hw Hs. unfold liftBody. assert (∀ m st', caches_ok st' → equiv n m ∧ (isConst n = true → m = n) →
    returns (nsize n) (λ m, equiv n m ∧ (isConst n = true → m = n)) (t ← lift (typeOf m); t' ← lift (typeOf n); lift (assert (bool_decide (t = t')));; mret m) st') as Hend.
  { intros m st' Hst' Hm. destruct (equiv_wt _ _ _ Hw (proj1 Hm)) as [Ht _]. eapply returns_lift; [exact Ht|]. eapply returns_lift; [apply Hw|]. rewrite bool_decide_true by done. eapply returns_lift; [done|]. by apply returns_ret. }
  apply returns_get. eapply (returns_then _ (λ m, equiv n m ∧ (isConst n = true → m = n))); [|intros m st1 H1 _ Hm; by apply Hend]. destruct (d_liftCache st !! n) as [m|] eqn:E.
  { apply returns_ret; [done|]. destruct (lift_cached _ Hst _ _ E) as [? Hc]. by rewrite Hc. }
  assert (isConst n = false → ∀ m, equiv n m → equiv n m ∧ (isConst n = true → m = n)) as Hnc by (intros ->; done).
  destruct (isConvertibleBvAtom n) as [[]|] eqn:Ec; [eapply returns_lift; [done|]..|].
  - assert (isConst n = false) as Hc by (by destruct n). assert (τ = BOOLEAN_TYPE) as -> by (destruct n as [| | | |k cs]; try done; destruct k; try done; by destruct (equal_terms cs _ Hw) as (?&?&?&_&->&_)).
    eapply returns_step; [|by apply convertBvAtom_ok|]; [lia|]. intros m st1 H1 K1 Hm. eapply returns_weaken; [done|by apply Hnc|]. eapply returns_addLift; [done| |done..]. eapply keys_lift; [exact K1|pose proof (nsize_pos n); lia|done].
  - destruct n as [| | | |k cs]; try (apply returns_ret; [done|]; split; [by eapply equiv_refl|done]). destruct cs as [|c cs]; [apply returns_ret; [done|]; split; [by eapply equiv_refl|done]|].
    eapply returns_weaken; [done|by apply Hnc|]. by eapply liftNode_children.
  - destruct n as [| | | |k cs]; try done. destruct k; try done. destruct (equal_terms cs _ Hw) as (a&b&t&->&_&Ha&Hb). cbn [isConvertibleBvAtom] in Ec. by rewrite (isBit_wt _ _ Ha), (isBit_wt _ _ Hb) in Ec.
Qed.

End calls.

Lemma calls_ok fuel : converts fuel (convertBvTerm fuel) ∧ lifts fuel (liftNode fuel).
Proof using Type*.
  induction fuel as [|fuel [IHc IHl]]; (split; [intros n st Hst Hw Hs|intros n τ st Hst Hw Hs]); try (pose proof (nsize_pos n); lia).
  - cbn [convertBvTerm]. by apply (convertBvBody_ok fuel).
  - cbn [liftNode]. by apply (liftBody_ok fuel _ _ IHl IHc n τ).
Qed.

(** ** The pass *)

(** The lifted assertions do not depend on the rewriter: they are what the loop
    returns for the identity. *)
Lemma liftBvToBool_ok rewrite assertions st : caches_ok st → Forall (λ a, wt a BOOLEAN_TYPE) assertions →
  ∃ ls st', liftBvToBool id assertions st = Some (ls, st') ∧ liftBvToBool rewrite assertions st = Some (rewrite <$> ls, st') ∧ caches_ok st' ∧ Forall2 equiv assertions ls.
Proof using Type*.
  intros Hst HF. revert st Hst. induction HF as [|a assertions Ha _ IH]; intros st Hst; cbn [liftBvToBool]; [by exists [], st|].
  destruct (proj2 (calls_ok (nsize a)) a _ st Hst Ha (le_n _)) as (m&st1&E1&H1&_&Hm&_). destruct (IH st1 H1) as (ls&st2&E2&E2'&H2&HF2). exists (m :: ls), st2.
  rewrite !(bind_eq _ _ _ _ _ E1), (bind_eq _ _ _ _ _ E2), (bind_eq _ _ _ _ _ E2'). split_and!; [done..|by constructor].
Qed.

(** What the pass needs of the rewriter on a lifted assertion: the first and the
    second rewriting keep its type and value, and the second does not find a
    conflict that the first has not found. *)
Definition rewritable (rewrite : Node → Node) (l : Node) : Prop :=
  kept rewrite l ∧ kept rewrite (rewrite l) ∧ (rewrite (rewrite l) = mkConstBool false → rewrite l = mkConstBool false).

(** The loop: the pipeline gets in conflict only where the loop looks. *)
Lemma replaceLoop_ok rewrite as' ls : Forall2 (λ a l, equiv a l ∧ rewritable rewrite l) as' ls → ∀ pre p, pipeline_ok p → d_nodes p = pre ++ as' →
  ∃ r p', replaceLoop rewrite (length pre) (rewrite <$> ls) p = Some (r, p') ∧ pipeline_ok p' ∧ (∀ env, env_ok env → holds env p' ↔ holds env p) ∧
    (r = CONFLICT → d_conflict p' = true) ∧ (r = NO_CONFLICT → d_nodes p' = pre ++ (rewrite ∘ rewrite <$> ls)).
Proof using Type.
  induction 1 as [|a l as' ls (He&Hk&Hk2&Hf) _ IH]; intros pre p Hp Hn; cbn [replaceLoop fmap list_fmap]; [exists NO_CONFLICT, p; by split_and!|]. pose proof (equiv_trans _ _ _ He Hk) as Hm.
  assert (d_nodes p !! length pre = Some a) as Hi by (rewrite Hn; by apply list_lookup_middle). destruct (replace_ok _ _ _ _ Hp Hi Hm) as (p1&E1&[H1 Hh1]%adds_nil). rewrite E1. cbn [mbind option_bind].
  destruct (d_conflict p1) eqn:Ec; [exists CONFLICT, p1; by split_and!|].
  assert (d_nodes p1 = pre ++ rewrite l :: as') as Hn1 by (by rewrite (replace_nodes _ _ _ _ E1 (or_intror Ec)), Hn, insert_middle).
  assert (d_nodes p1 !! length pre = Some (rewrite l)) as Hi1 by (rewrite Hn1; by apply list_lookup_middle).
  destruct (ensureRewritten_ok rewrite _ _ _ H1 Hi1 Hk2) as (p2&E2&[H2 Hh2]%adds_nil). rewrite E2. cbn [mbind option_bind].
  assert (d_nodes p2 = (pre ++ [rewrite (rewrite l)]) ++ as') as Hn2.
  { unfold ensureRewritten in E2. rewrite Hi1 in E2. cbn [mbind option_bind] in E2. rewrite (replace_nodes _ _ _ _ E2), Hn1, insert_middle; [by rewrite <- app_assoc|].
    left. intros E. rewrite Hi1. f_equal. rewrite E. by apply Hf. }
  destruct (IH (pre ++ [rewrite (rewrite l)]) p2 H2 Hn2) as (r&p'&E&H'&Hh&Hc&Hnc). rewrite length_app, Nat.add_1_r in E. exists r, p'. split_and!; [done..| |done|by rewrite <- app_assoc in Hnc].
  intros env Hok. by rewrite Hh, Hh2, Hh1.
Qed.

(** C12: the pass [bv-to-bool] keeps the meaning of the assertions.  For a pipeline of
    typed assertions, and caches with terms of the value of their keys (as the pass
    itself leaves them, [newBVToBool] for a new pass), lifting returns one formula for
    each assertion, of the same type and value, whatever the rewriter is, and leaves
    such caches again; in particular none of the assertions about the two caches
    fails, although the two recursive functions share them.  If the rewriter keeps the
    type and the value of these lifted formulas and of their rewritten forms, and does
    not rewrite to [false] only the second time, the pass returns, and the new
    assertions hold in the same valuations as the old ones.  When it reports a conflict
    they cannot be satisfied; otherwise there is one new assertion for each, of the
    same type and value. *)
Theorem bv_to_bool_sound rewrite p st : caches_ok st → pipeline_ok p →
  ∃ ls st', liftBvToBool id (d_nodes p) st = Some (ls, st') ∧ caches_ok st' ∧ Forall2 equiv (d_nodes p) ls ∧
    (Forall (rewritable rewrite) ls → ∃ r p', applyInternal rewrite p st = Some ((r, p'), st') ∧ pass_ok p r p').
Proof using Type*.
  intros Hst Hp. destruct (liftBvToBool_ok rewrite (d_nodes p) st Hst) as (ls&st'&E&E'&Hst'&HF); [apply Hp|]. exists ls, st'. split_and!; [done..|]. intros HR.
  assert (Forall2 (λ a l, equiv a l ∧ rewritable rewrite l) (d_nodes p) ls) as HF' by (clear - HF HR; induction HF; [constructor|]; apply list.Forall_cons in HR as [? ?]; constructor; auto).
  destruct (replaceLoop_ok rewrite _ _ HF' [] p Hp eq_refl) as (r&p'&Er&H'&Hh&Hc&Hnc). exists r, p'. unfold applyInternal. rewrite (bind_eq _ _ _ _ _ E'). cbn [length] in Er. unfold lift. rewrite Er. split; [done|]. split_and!; [done..| |].
  - intros Hconf env Hok Hv. eapply (conflict_unsat p' H' (Hc Hconf) env Hok). by apply Hh.
  - intros Hno. rewrite (Hnc Hno). cbn [app]. clear - HF'. induction HF' as [|a l as' ls (He&Hk&Hk2&_) _ IH]; [constructor|]. cbn [fmap list_fmap]. constructor; [|done]. cbn. by eapply equiv_trans, equiv_trans.
Qed.

End sound.

(** [ite c 1 x = x and 1], with the identity as the rewriter: the one-bit terms are
    formulas in the result. *)
Lemma bv_to_bool_sound_witness :
  let x := mkVar 1 (BITVECTOR_TYPE 1) in let c := mkVar 2 BOOLEAN_TYPE in let one := mkConstBV (mkBitVector 1 1) in
  let a := mkNode2 EQUAL (mkNode3 ITE c one x) (mkNode2 BITVECTOR_AND x one) in let p := setNodes [a] newAssertionPipeline in
  ∃ p' st', applyInternal id p newBVToBool = Some ((NO_CONFLICT, p'), st') ∧ (∀ env, env_ok env → holds env p' ↔ holds env p) ∧
    d_nodes p' = [mkNode2 EQUAL (mkNode3 ITE c (mkConstBool true) (mkNode2 EQUAL x one)) (mkNode2 AND (mkNode2 EQUAL x one) (mkConstBool true))].
Proof.
  intros x c one a p. destruct (bv_to_bool_sound id p newBVToBool) as (ls&st'&_&_&HF&Hr); [by split|split; [by constructor|done]|].
  destruct Hr as (r&p'&E&_&Hh&_). { eapply list.Forall_forall. intros l [i Hi]%list_elem_of_lookup. destruct (Forall2_lookup_r _ _ _ _ _ HF Hi) as (a'&Ha'&He). assert (wt l BOOLEAN_TYPE) as Hl.
    { eapply equiv_wt; [|exact He]. destruct i as [|[]]; try done. by injection Ha' as <-. } split_and!; [by eapply equiv_refl..|done]. }
  assert ((λ rp, (rp.1.1, d_nodes rp.1.2)) <$> applyInternal id p newBVToBool = Some (NO_CONFLICT, [mkNode2 EQUAL (mkNode3 ITE c (mkConstBool true) (mkNode2 EQUAL x one)) (mkNode2 AND (mkNode2 EQUAL x one) (mkConstBool true))])) as E' by (vm_compute; reflexivity).
  rewrite E in E'. injection E' as -> E'. exists p', st'. by split_and!.
Defined.

(** ** A conflict that the loop does not see *)

(** The loop looks for a conflict after [replace] and not after [ensureRewritten].  A
    rewriter that needs two steps for [x and false] leaves the pipeline with one
    assertion, and the next index is out of range. *)
Definition twoSteps (n : Node) : Node :=
  match n with
  | mkNode AND [mkConstBool true; b] => b
  | mkNode AND [_; mkConstBool false] => mkNode AND [mkConstBool true; mkConstBool false]
  | _ => n
  end.

Lemma late_conflict_fails :
  let v i := mkVar i BOOLEAN_TYPE in let n := mkNode2 AND (v 1%positive) (mkConstBool false) in let p := setNodes [n; v 2%positive] newAssertionPipeline in
  equiv n (twoSteps n) ∧ equiv (twoSteps n) (twoSteps (twoSteps n)) ∧ applyInternal twoSteps p newBVToBool = None.
Proof.
  intros v n p. split; [split_and!; [done..|]; intros env Hok; destruct (Hok 1%positive BOOLEAN_TYPE eq_refl eq_refl) as [Hs _]; unfold n, v; cbn; destruct (env 1%positive BOOLEAN_TYPE) as [[]| |]; done|].
  split; [split_and!; [done..|]; by intros env Hok|]. vm_compute. reflexivity.
Qed.
