(* ===== verification/BoolToBV.v ===== *)
(** [preprocessing/passes/bool_to_bv.cpp]: Boolean structure becomes one-bit terms.
    [None] is a failed assertion or [Unreachable()]. *)
From stdpp Require Import base option list gmap numbers.
From S2P Require Import Prelude Node TypeRules BitVectorUtil BvElim AssertionPipeline.
Open Scope Z_scope.

Inductive BoolToBVMode := ALL | ITE_MODE.

Record BoolToBV := mkBoolToBV { d_lowerCache : gmap Node Node; d_iteBVLowerCache : gmap Node Node }.

Definition newBoolToBV : BoolToBV := mkBoolToBV ∅ ∅.

(** ** Caches *)

Definition updateCache (n rebuilt : Node) (st : BoolToBV) : option BoolToBV :=
  ite ← match n with
        | mkNode ITE (_ :: t :: _) => ty ← typeOf t; Some (isBitVector ty)
        | mkNode ITE _ => None
        | _ => Some false
        end;
  Some (if ite : bool then mkBoolToBV (d_lowerCache st) (<[n := rebuilt]> (d_iteBVLowerCache st))
        else mkBoolToBV (<[n := rebuilt]> (d_lowerCache st)) (d_iteBVLowerCache st)).

Definition fromCache (st : BoolToBV) (n : Node) : Node :=
  default n (if isKind ITE n then d_iteBVLowerCache st !! n else d_lowerCache st !! n).

Definition inCache (st : BoolToBV) (n : Node) : bool :=
  bool_decide (is_Some (d_lowerCache st !! n)) || bool_decide (is_Some (d_iteBVLowerCache st !! n)).

Definition needToRebuild (st : BoolToBV) (n : Node) : bool := existsb (inCache st) (children n).

(** ** One node *)

Section pass.
Context `{!Gmp}.

Definition rebuildNode (n : Node) (new_kind : Kind) (st : BoolToBV) : option BoolToBV :=
  match n with
  | mkNode IMPLIES (a :: b :: cs) =>
      if decide (new_kind ≠ IMPLIES) then updateCache n (mkNode new_kind [mkNode1 BITVECTOR_NOT (fromCache st a); fromCache st b]) st
      else updateCache n (mkNode new_kind (fromCache st <$> (a :: b :: cs))) st
  | mkNode _ cs => updateCache n (mkNode new_kind (fromCache st <$> cs)) st
  | _ => None
  end.

(** The [switch] of [visit]. *)
Definition newKind (k : Kind) : option Kind :=
  match k with
  | EQUAL => Some BITVECTOR_COMP
  | AND => Some BITVECTOR_AND
  | OR => Some BITVECTOR_OR
  | NOT => Some BITVECTOR_NOT
  | XOR => Some BITVECTOR_XOR
  | IMPLIES => Some BITVECTOR_OR
  | ITE => Some BITVECTOR_ITE
  | BITVECTOR_ULT => Some BITVECTOR_ULTBV
  | BITVECTOR_SLT => Some BITVECTOR_SLTBV
  | BITVECTOR_ULE | BITVECTOR_UGT | BITVECTOR_UGE | BITVECTOR_SLE | BITVECTOR_SGT | BITVECTOR_SGE => None
  | k => Some k
  end.

(** The loop that computes [safe_to_lower] and [safe_to_rebuild]. *)
Fixpoint safeLoop (st : BoolToBV) (cs : list Node) (lower rebuild : bool) : option (bool * bool) :=
  match cs with
  | [] => Some (lower, rebuild)
  | c :: cs =>
      t ← typeOf (fromCache st c); t' ← typeOf c;
      let lower := lower && isBitVector t in
      let rebuild := rebuild && bool_decide (t = t') in
      if negb lower && negb rebuild then Some (lower, rebuild) else safeLoop st cs lower rebuild
  end.

Definition isBooleanTerm (n : Node) : option bool := t ← typeOf n; Some (isBoolean t).

(** [ite (b, 1, 0)]. *)
Definition forceNode (b : Node) : option Node := one ← utils.mkOne 1; zero ← utils.mkZero 1; Some (mkNode3 ITE b one zero).

(** The end of [visit], for a node that is not lowered. *)
Definition visitKeep (n : Node) (k : option Kind) (allowIteIntroduction safe_to_rebuild : bool) (st : BoolToBV) : option BoolToBV :=
  match k with
  | Some k =>
      if safe_to_rebuild && needToRebuild st n then rebuildNode n k st
      else b ← isBooleanTerm (fromCache st n); if allowIteIntroduction && b then m ← forceNode n; updateCache n m st else Some st
  | None => b ← isBooleanTerm (fromCache st n); if allowIteIntroduction && b then m ← forceNode n; updateCache n m st else Some st
  end.

Definition visit (n : Node) (allowIteIntroduction : bool) (st : BoolToBV) : option BoolToBV :=
  match n with
  | mkConstBool b => m ← (if b then utils.mkOne 1 else utils.mkZero 1); updateCache n m st
  | mkNode k cs =>
      new_kind ← newKind k;
      let changed := bool_decide (new_kind ≠ k) in
      '(safe_to_lower, safe_to_rebuild) ← safeLoop st cs changed true;
      if changed && safe_to_lower then rebuildNode n new_kind st
      else
        b ← isBooleanTerm (fromCache st n);
        if changed && allowIteIntroduction && b then
          st ← (if safe_to_rebuild && needToRebuild st n then rebuildNode n k st else Some st);
          m ← forceNode (fromCache st n);
          updateCache n m st
        else visitKeep n (Some k) allowIteIntroduction safe_to_rebuild st
  | _ => visitKeep n None allowIteIntroduction true st
  end.

(** ** Traversals *)

(** The loop of [lowerNode]; the last element of [to_visit] comes first. *)
Fixpoint lowerLoop (allow : bool) (fuel : nat) (to_visit : list Node) (visited : gset Node) (st : BoolToBV) : option BoolToBV :=
  match to_visit, fuel with
  | [], _ => Some st
  | _, O => None
  | n :: to_visit, S fuel =>
      if decide (n ∈ visited) then st ← visit n allow st; lowerLoop allow fuel to_visit visited st
      else lowerLoop allow fuel (children n ++ n :: to_visit) ({[n]} ∪ visited) st
  end.

Definition lowerNode (node : Node) (allowIteIntroduction : bool) (st : BoolToBV) : option (Node * BoolToBV) :=
  st ← lowerLoop allowIteIntroduction (2 * nsize node) [node] ∅ st;
  Some (fromCache st node, st).

Fixpoint lowerChildren (cs : list Node) (allow : bool) (st : BoolToBV) : option BoolToBV :=
  match cs with [] => Some st | c :: cs => '(_, st) ← lowerNode c allow st; lowerChildren cs allow st end.

Definition lowerAssertion (assertion : Node) (allowIteIntroduction : bool) (st : BoolToBV) : option (Node * BoolToBV) :=
  st ← lowerChildren (children assertion) allowIteIntroduction st;
  '(_, st) ← lowerNode assertion false st;
  let newAssertion := fromCache st assertion in
  t ← typeOf newAssertion;
  newAssertion ← (if isBitVector t then
                    _ ← assert (bool_decide (t = BITVECTOR_TYPE 1));
                    one ← utils.mkOne 1; Some (mkNode2 EQUAL newAssertion one)
                  else Some newAssertion);
  t ← typeOf newAssertion;
  _ ← assert (isBoolean t);
  Some (newAssertion, st).

Definition isBVIte (n : Node) : option bool :=
  match n with mkNode ITE (_ :: t :: _) => ty ← typeOf t; Some (isBitVector ty) | mkNode ITE _ => None | _ => Some false end.

(** The loop of [lowerIte]. *)
Fixpoint lowerIteLoop (fuel : nat) (to_visit : list Node) (visited : gset Node) (st : BoolToBV) : option BoolToBV :=
  match to_visit, fuel with
  | [], _ => Some st
  | _, O => None
  | n :: to_visit, S fuel =>
      if decide (n ∈ visited) then
        st ← match n with
             | mkNode k _ => if needToRebuild st n then rebuildNode n k st else Some st
             | _ => Some st
             end;
        lowerIteLoop fuel to_visit visited st
      else
        ite ← isBVIte n;
        if ite : bool then
          '(_, st) ← lowerNode n false st;
          lowerIteLoop fuel to_visit visited (mkBoolToBV ∅ (d_iteBVLowerCache st))
        else lowerIteLoop fuel (children n ++ n :: to_visit) ({[n]} ∪ visited) st
  end.

Definition lowerIte (node : Node) (st : BoolToBV) : option (Node * BoolToBV) :=
  st ← lowerIteLoop (2 * nsize node) [node] ∅ st;
  Some (fromCache st node, st).

(** ** The pass *)

Context (d_boolToBVMode : BoolToBVMode) (rewrite : Node → Node).

(** The two modes. *)
Definition lower (a : Node) (st : BoolToBV) : option (Node * BoolToBV) :=
  match d_boolToBVMode with ALL => lowerAssertion a true st | ITE_MODE => lowerIte a st end.

(** The loop of [applyInternal], at the index [i] with [size] assertions left. *)
Fixpoint applyLoop (i size : nat) (p : AssertionPipeline) (st : BoolToBV) : option (PreprocessingPassResult * AssertionPipeline * BoolToBV) :=
  match size with
  | O => Some (NO_CONFLICT, p, st)
  | S size =>
      a ← d_nodes p !! i;
      '(newAssertion, st) ← lower a st;
      p ← replace i newAssertion p;
      p ← ensureRewritten rewrite i p;
      if d_conflict p then Some (CONFLICT, p, st) else applyLoop (S i) size p st
  end.

(** The caches are members of the pass and stay for the next call. *)
Definition applyInternal (p : AssertionPipeline) (st : BoolToBV) : option (PreprocessingPassResult * AssertionPipeline * BoolToBV) :=
  applyLoop 0 (length (d_nodes p)) p st.

End pass.
