(* ===== verification/BoolToBVSound.v ===== *)
(** The pass [bool-to-bv] keeps the meaning of the assertions. *)
From stdpp Require Import base option list gmap numbers.
From S2P Require Import Prelude Integer Node TypeRules Semantics BvArith TypeSound BitVectorUtil BvElim BvTerms BvConstSound BvAssoc BvSimplifySound BoolTerms AssertionPipeline PipelineSound BoolToBV.
Open Scope Z_scope.

(** ** What a term in the cache stands for *)

(** [m] is [n], or its bit. *)
Definition rep (n m : Node) : Prop := equiv n m ∨ bool_wt n ∧ bit m n.

Lemma rep_type n m τ : wt n τ → rep n m → ∃ t, wt m t ∧ (t = τ ∧ equiv n m ∨ t = BITVECTOR_TYPE 1 ∧ τ = BOOLEAN_TYPE ∧ bit m n).
Proof.
  intros Hn [He|[Hb Hm]]; [exists τ; split; [by eapply equiv_wt|by left]|]. exists (BITVECTOR_TYPE 1). split; [by eapply bit_wt|]. right. split_and!; [done| |done]. destruct Hn, Hb. congruence.
Qed.

Lemma wt_fun n t t' : wt n t → wt n t' → t = t'.
Proof. intros [? _] [? _]. congruence. Qed.

(** A term of the same type is the term itself; a bit-vector for a formula is its bit. *)
Lemma rep_same n m τ : wt n τ → rep n m → wt m τ → equiv n m.
Proof. intros Hn Hr Hm. destruct (rep_type n m τ Hn Hr) as (t&Ht&[[-> ?]|(->&->&_)]); [done|]. by pose proof (wt_fun _ _ _ Hm Ht). Qed.

Lemma rep_bit n m w : bool_wt n → rep n m → wt m (BITVECTOR_TYPE w) → bit m n.
Proof. intros Hn Hr Hm. destruct (rep_type n m _ Hn Hr) as (t&Ht&[[-> _]|(_&_&?)]); [|done]. by pose proof (wt_fun _ _ _ Hm Ht). Qed.

Lemma rep_bv n m w : wt n (BITVECTOR_TYPE w) → rep n m → equiv n m ∧ wt m (BITVECTOR_TYPE w).
Proof. intros Hn Hr. destruct (rep_type n m _ Hn Hr) as (t&Ht&[[-> ?]|(_&?&_)]); done. Qed.

Lemma equiv_back n n' τ : wt n τ → equiv n n' → equiv n' n.
Proof. intros [_ Hc] (Ht&_&Hv). split_and!; [done|done|]. intros env Hok. symmetry. by apply Hv. Qed.

Lemma equiv_pair a b a' b' : equiv a a' → equiv b b' → Forall2 equiv [a; b] [a'; b'].
Proof. intros Ha Hb. constructor; [done|]. constructor; [done|constructor]. Qed.

(** A binary operator on equivalent bit-vectors. *)
Lemma equiv_pair_node k a b a' b' τ w : wt (mkNode2 k a b) τ → wt b (BITVECTOR_TYPE w) → equiv a a' → equiv b b' → equiv (mkNode2 k a' b') (mkNode2 k a b).
Proof. intros Hw Hb Ea Eb. eapply equiv_back; [exact Hw|]. eapply (equiv_children k [a; b]); [done|by apply equiv_pair|]. intros z [= ->]. by destruct Hb. Qed.

Section sound.
Context `{!Gmp, !GmpLaws}.

(** ** The caches *)

Definition isInt (n : Node) : bool := match n with mkConstInt _ => true | _ => false end.

Record lower_ok (st : BoolToBV) : Prop := {
  lower_cached n m : d_lowerCache st !! n = Some m → rep n m ∧ isInt n = false;
  ite_cached n m : d_iteBVLowerCache st !! n = Some m → equiv n m ∧ isInt n = false;
  not_false n m : d_lowerCache st !! n = Some m ∨ d_iteBVLowerCache st !! n = Some m → m ≠ mkConstBool false;
}.

Lemma fromCache_rep st n τ : lower_ok st → wt n τ → rep n (fromCache st n) ∧ (isInt n = true → fromCache st n = n).
Proof using Type.
  intros [Hl Hi _] Hn. unfold fromCache. destruct (isKind ITE n).
  - destruct (d_iteBVLowerCache st !! n) as [m|] eqn:E; cbn; [destruct (Hi n m E) as [? ->]; split; [by left|done]|split; [left; by eapply equiv_refl|done]].
  - destruct (d_lowerCache st !! n) as [m|] eqn:E; cbn; [destruct (Hl n m E) as [? ->]; split; [done|done]|split; [left; by eapply equiv_refl|done]].
Qed.

Lemma fromCache_false st n : lower_ok st → fromCache st n = mkConstBool false → fromCache st n = n.
Proof using Type.
  intros [_ _ Hf]. unfold fromCache. destruct (isKind ITE n).
  - destruct (d_iteBVLowerCache st !! n) as [m|] eqn:E; [|done]. intros Hm. by destruct (Hf n m (or_intror E)).
  - destruct (d_lowerCache st !! n) as [m|] eqn:E; [|done]. intros Hm. by destruct (Hf n m (or_introl E)).
Qed.

Lemma updateCache_ok n m τ st : lower_ok st → wt n τ → rep n m → isInt n = false → m ≠ mkConstBool false → ∃ st', updateCache n m st = Some st' ∧ lower_ok st'.
Proof using Type.
  intros [Hl Hi Hf] Hn Hr Hz Hmf.
  assert (∀ (c c' : gmap Node Node), (∀ x y, c !! x = Some y ∨ c' !! x = Some y → y ≠ mkConstBool false) → ∀ x y, <[n := m]> c !! x = Some y ∨ c' !! x = Some y → y ≠ mkConstBool false) as Hins.
  { intros c c' Hc x y [Hx|Hx]; [|by apply (Hc x); right]. destruct (decide (x = n)) as [->|Hne]; [rewrite lookup_insert_eq in Hx; by injection Hx as <-|rewrite lookup_insert_ne in Hx by done; by apply (Hc x); left]. }
  assert (lower_ok (mkBoolToBV (<[n := m]> (d_lowerCache st)) (d_iteBVLowerCache st))) as H1.
  { split; [|done|cbn; by apply Hins]. intros x y. cbn. destruct (decide (x = n)) as [->|Hne]; [rewrite lookup_insert_eq; by intros [= <-]|rewrite lookup_insert_ne by done; apply Hl]. }
  destruct n as [| | | |k cs]; try (eexists; split; [reflexivity|exact H1]). destruct k; try (eexists; split; [reflexivity|exact H1]). destruct (ite_operands cs τ Hn) as (c&t&e&->&_&Ht&_). unfold updateCache. rewrite (proj1 Ht). cbn [mbind option_bind].
  destruct (isBitVector τ) eqn:Eb; [|eexists; split; [reflexivity|exact H1]]. eexists. split; [done|]. split; [done| |cbn; intros x y Hxy; eapply (Hins _ (d_lowerCache st)); [intros ?? Hor; eapply Hf; by destruct Hor as [?|?]; [right|left]|destruct Hxy as [?|?]; [right|left]; done]]. intros x y. cbn. destruct (decide (x = mkNode3 ITE c t e)) as [->|Hne].
  - rewrite lookup_insert_eq. intros [= <-]. split; [|done]. destruct τ; try done. by eapply rep_bv.
  - rewrite lookup_insert_ne by done. apply Hi.
Qed.

(** What is read back after an update: the new term, or what was there before (a
    formula [ite] is written to one cache and read from the other). *)
Lemma updateCache_from n m st st' : updateCache n m st = Some st' → fromCache st' n = m ∨ fromCache st' n = fromCache st n.
Proof using Type.
  unfold updateCache. intros (ite&_&[= <-])%bind_Some. unfold fromCache. destruct ite, (isKind ITE n); cbn; rewrite ?lookup_insert_eq; auto.
Qed.

(** ** Rebuilding *)

Lemma safeLoop_ok st cs ts : lower_ok st → Forall2 wt cs ts → ∀ lo re, ∃ lo' re', safeLoop st cs lo re = Some (lo', re') ∧
  (lo' = true → lo = true ∧ Forall (λ c, ∃ w, wt (fromCache st c) (BITVECTOR_TYPE w)) cs) ∧ (re' = true → re = true ∧ Forall (λ c, equiv c (fromCache st c)) cs).
Proof using Type.
  intros Hst. induction 1 as [|c t cs ts Hc _ IH]; intros lo re; cbn [safeLoop]; [exists lo, re; split_and!; [done|by constructor|by constructor]|].
  destruct (fromCache_rep st c t Hst Hc) as [Hr _]. destruct (rep_type c _ t Hc Hr) as (t'&Ht'&Hcase). rewrite (proj1 Ht'), (proj1 Hc). cbn [mbind option_bind].
  destruct (negb (lo && isBitVector t') && negb (re && bool_decide (t' = t))) eqn:Eb.
  { apply andb_true_iff in Eb as [E1%negb_true_iff E2%negb_true_iff]. rewrite E1, E2. eexists _, _. split_and!; done. }
  destruct (IH (lo && isBitVector t') (re && bool_decide (t' = t))) as (lo'&re'&->&Hlo&Hre). exists lo', re'. split_and!; [done|..].
  - intros [[-> Hb]%andb_true_iff HF]%Hlo. split; [done|]. constructor; [|done]. destruct t' as [| |w|]; try done. by exists w.
  - intros [[-> Hb%bool_decide_eq_true]%andb_true_iff HF]%Hre. subst t'. split; [done|]. constructor; [|done]. by eapply rep_same.
Qed.

(** The same operator on the terms in the cache. *)
Lemma rebuild_same k cs τ st : lower_ok st → wt (mkNode k cs) τ → Forall (λ c, equiv c (fromCache st c)) cs → equiv (mkNode k cs) (mkNode k (fromCache st <$> cs)).
Proof using Type.
  intros Hst Hw HF. destruct (node_children k cs τ Hw) as [ts HW]. eapply equiv_children; [done| |].
  - clear - HF. induction HF as [|c cs Hc _ IH]; by constructor.
  - intros z Hz. rewrite list_lookup_fmap, Hz. destruct (Forall2_lookup_l _ _ _ _ _ HW Hz) as (t&_&Ht). change (Some (fromCache st (mkConstInt z)) = Some (mkConstInt z)). f_equal. by apply (fromCache_rep st (mkConstInt z) t Hst Ht).
Qed.

Lemma rebuildNode_same k cs τ st : lower_ok st → wt (mkNode k cs) τ → Forall (λ c, equiv c (fromCache st c)) cs →
  ∃ st', rebuildNode (mkNode k cs) k st = Some st' ∧ lower_ok st' ∧ rebuildNode (mkNode k cs) k st = updateCache (mkNode k cs) (mkNode k (fromCache st <$> cs)) st.
Proof using Type.
  intros Hst Hw HF. assert (rebuildNode (mkNode k cs) k st = updateCache (mkNode k cs) (mkNode k (fromCache st <$> cs)) st) as E.
  { destruct k; try done. by destruct cs as [|a [|b cs]]. }
  destruct (updateCache_ok (mkNode k cs) (mkNode k (fromCache st <$> cs)) τ st) as (st'&E'&H'); [done..|left; by eapply rebuild_same|done|done|]. exists st'. split_and!; [congruence|done|done].
Qed.

(** ** Lowering *)

Lemma lower_formulas st cs : lower_ok st → Forall (λ c, bool_wt c) cs → Forall (λ c, ∃ w, wt (fromCache st c) (BITVECTOR_TYPE w)) cs → Forall2 bit (fromCache st <$> cs) cs.
Proof using Type.
  intros Hst HB HF. induction HB as [|c cs Hc _ IH]; [constructor|]. apply list.Forall_cons in HF as [[w Hw] HF]. constructor; [|by apply IH]. eapply rep_bit; [done|by eapply fromCache_rep|done].
Qed.

Lemma lower_rep k k' cs τ st : lower_ok st → wt (mkNode k cs) τ → newKind k = Some k' → k' ≠ k → Forall (λ c, ∃ w, wt (fromCache st c) (BITVECTOR_TYPE w)) cs →
  ∃ m, rebuildNode (mkNode k cs) k' st = updateCache (mkNode k cs) m st ∧ rep (mkNode k cs) m ∧ m ≠ mkConstBool false.
Proof using Type*.
  intros Hst Hw Hk Hne HF.
  enough (∃ k1 cs1, rebuildNode (mkNode k cs) k' st = updateCache (mkNode k cs) (mkNode k1 cs1) st ∧ rep (mkNode k cs) (mkNode k1 cs1)) as (k1&cs1&?&?) by (by exists (mkNode k1 cs1)).
  destruct k; try done; injection Hk as <-; try done.
  - destruct (equal_terms cs τ Hw) as (a&b&t&->&->&Ha&Hb). eexists _, _. split; [done|]. right. split; [done|]. destruct (fromCache_rep st a t Hst Ha) as [Ra _], (fromCache_rep st b t Hst Hb) as [Rb _].
    apply list.Forall_cons in HF as [[wa Wa] HF]. rewrite Forall_singleton in HF. destruct HF as [wb Wb]. destruct (rep_type a _ t Ha Ra) as (ta&Ta&[[-> Ea]|(->&->&Ba)]).
    + pose proof (wt_fun _ _ _ Wa Ta) as <-. destruct (rep_bv _ _ _ Hb Rb) as [Eb Tb]. eapply bit_equiv_r; [by eapply bit_comp|]. by eapply equiv_pair_node.
    + apply bit_comp_bits; [done|]. by eapply rep_bit.
  - destruct (bool_operands NOT cs τ I Hw) as (_&HO&_). destruct (not_operand cs τ Hw) as (a&->&->&Ha). eexists _, _. split; [done|]. right. split; [done|].
    pose proof (lower_formulas st [a] Hst HO HF) as HB. inversion HB as [|? ? ? ? Ba _]; subst. by apply bit_not.
  - destruct (bool_operands AND cs τ I Hw) as (->&HB&Har). eexists _, _. split; [done|]. right. split; [done|]. cbn [arity_ok] in Har. unfold atLeast in Har. nofail. apply bit_nary; [auto|by apply lower_formulas|rewrite length_fmap; lia..].
  - destruct (bool_operands OR cs τ I Hw) as (->&HB&Har). eexists _, _. split; [done|]. right. split; [done|]. cbn [arity_ok] in Har. unfold atLeast in Har. nofail. apply bit_nary; [auto|by apply lower_formulas|rewrite length_fmap; lia..].
  - destruct (bool_operands XOR cs τ I Hw) as (_&HO&_). destruct (bin_operands XOR cs τ I (λ _, eq_refl) Hw) as (a&b&->&->&Ha&Hb). eexists _, _. split; [done|]. right. split; [done|].
    pose proof (lower_formulas st [a; b] Hst HO HF) as HB. inversion HB as [|? ? ? ? Ba HB']; subst. inversion HB' as [|? ? ? ? Bb _]; subst. by apply bit_xor_node.
  - destruct (bool_operands IMPLIES cs τ I Hw) as (_&HO&_). destruct (bin_operands IMPLIES cs τ I (λ _, eq_refl) Hw) as (a&b&->&->&Ha&Hb). eexists _, _. split; [done|]. right. split; [done|].
    pose proof (lower_formulas st [a; b] Hst HO HF) as HB. inversion HB as [|? ? ? ? Ba HB']; subst. inversion HB' as [|? ? ? ? Bb _]; subst. by apply bit_implies.
  - destruct (ite_operands cs τ Hw) as (c&t&e&->&Hc&Ht&He). eexists _, _. split; [done|]. destruct (fromCache_rep st c _ Hst Hc) as [Rc _], (fromCache_rep st t τ Hst Ht) as [Rt _], (fromCache_rep st e τ Hst He) as [Re _].
    apply list.Forall_cons in HF as [[wc Wc] HF]. apply list.Forall_cons in HF as [[w Wt] HF]. rewrite Forall_singleton in HF. destruct HF as [w' We]. pose proof (rep_bit _ _ _ Hc Rc Wc) as Bc.
    destruct (rep_type t _ τ Ht Rt) as (tt&Tt&[[-> Et]|(->&->&Bt)]).
    + pose proof (wt_fun _ _ _ Wt Tt) as <-. destruct (rep_bv _ _ _ He Re) as [Ee Te]. left. eapply equiv_trans; [|by eapply bvite_equiv].
      eapply (equiv_children ITE [c; t; e]); [done| |intros z [= ->]; by destruct Ht]. constructor; [by eapply equiv_refl|by apply equiv_pair].
    + right. split; [done|]. apply bit_bvite; [done..|]. by eapply rep_bit.
  - destruct (pred2_terms BITVECTOR_ULT cs τ (λ _, eq_refl) (λ _, eq_refl) Hw) as (a&b&w&->&->&(Ha&_)&(Hb&_)). eexists _, _. split; [done|]. right. split; [done|].
    destruct (fromCache_rep st a _ Hst Ha) as [Ra _], (fromCache_rep st b _ Hst Hb) as [Rb _]. destruct (rep_bv _ _ _ Ha Ra) as [Ea Ta], (rep_bv _ _ _ Hb Rb) as [Eb Tb].
    eapply bit_equiv_r; [by eapply (bit_pred BITVECTOR_ULT BITVECTOR_ULTBV)|]. by eapply equiv_pair_node.
  - destruct (pred2_terms BITVECTOR_SLT cs τ (λ _, eq_refl) (λ _, eq_refl) Hw) as (a&b&w&->&->&(Ha&_)&(Hb&_)). eexists _, _. split; [done|]. right. split; [done|].
    destruct (fromCache_rep st a _ Hst Ha) as [Ra _], (fromCache_rep st b _ Hst Hb) as [Rb _]. destruct (rep_bv _ _ _ Ha Ra) as [Ea Ta], (rep_bv _ _ _ Hb Rb) as [Eb Tb].
    eapply bit_equiv_r; [by eapply (bit_pred BITVECTOR_SLT BITVECTOR_SLTBV)|]. by eapply equiv_pair_node.
Qed.

(** ** [visit] *)

(** The comparisons that the rewriter removes do not occur. *)
Fixpoint lowerable (n : Node) : bool :=
  match n with mkNode k cs => bool_decide (is_Some (newKind k)) && forallb lowerable cs | _ => true end.

Lemma forceNode_eq b : forceNode b = Some (mkNode3 ITE b one1 zero1).
Proof using Type*. unfold forceNode. by rewrite mkOne_cst, mkZero_cst. Qed.

(** The term in the cache is a formula only if the node is one. *)
Lemma cached_formula st n τ : lower_ok st → wt n τ → ∃ b, isBooleanTerm (fromCache st n) = Some b ∧ (b = true → bool_wt n ∧ equiv n (fromCache st n)).
Proof using Type.
  intros Hst Hn. destruct (fromCache_rep st n τ Hst Hn) as [Hr _]. destruct (rep_type n _ τ Hn Hr) as (t&Ht&Hcase). exists (isBoolean t). unfold isBooleanTerm. rewrite (proj1 Ht). split; [done|].
  intros Hb. destruct Hcase as [[-> He]|(->&_)]; [|done]. by destruct τ.
Qed.

Lemma force_rep n m : bool_wt n → equiv n m → rep n (mkNode3 ITE m one1 zero1).
Proof using Type. intros Hn He. right. split; [done|]. eapply bit_equiv_r; [apply bit_force; by eapply equiv_wt|by eapply equiv_back]. Qed.

(** The last two cases of [visit]. *)
Lemma visit_force n τ allow st : lower_ok st → wt n τ → isInt n = false →
  ∃ st', (b ← isBooleanTerm (fromCache st n); if allow && b then m ← forceNode n; updateCache n m st else Some st) = Some st' ∧ lower_ok st'.
Proof using Type*.
  intros Hst Hn Hz. destruct (cached_formula st n τ Hst Hn) as (b&->&Hb). cbn [mbind option_bind]. destruct (allow && b) eqn:E; [|by exists st]. apply andb_true_iff in E as [_ ->]. destruct (Hb eq_refl) as [Hw _].
  rewrite forceNode_eq. eapply updateCache_ok; [done|exact Hn| |done|done]. apply force_rep; [done|by eapply equiv_refl].
Qed.

Lemma visit_lowers n τ allow st : lower_ok st → wt n τ → lowerable n = true → ∃ st', visit n allow st = Some st' ∧ lower_ok st'.
Proof using Type*.
  intros Hst Hn Hl. destruct n as [id ty|b|z|bv|k cs]; cbn [visit visitKeep]; try (by eapply visit_force).
  - destruct b; [rewrite mkOne_cst by done|rewrite mkZero_cst by done]; cbn [mbind option_bind]; (eapply updateCache_ok; [done|done| |done|done]); right; (split; [done|]); [apply (bit_const true)|apply (bit_const false)].
  - exists st. split; [|done]. rewrite (proj2 (fromCache_rep st (mkConstInt z) _ Hst Hn) eq_refl). cbn. by destruct allow.
  - cbn [lowerable] in Hl. apply andb_true_iff in Hl as [[k' Hk]%bool_decide_eq_true _]. rewrite Hk. cbn [mbind option_bind]. destruct (node_children k cs τ Hn) as [ts HW].
    destruct (safeLoop_ok st cs ts Hst HW (bool_decide (k' ≠ k)) true) as (lo&re&->&Hlo&Hre). cbn [mbind option_bind]. destruct (bool_decide (k' ≠ k) && lo) eqn:El.
    { apply andb_true_iff in El as [Hne%bool_decide_eq_true Elo]. destruct (lower_rep k k' cs τ st Hst Hn Hk Hne) as (m&->&Hr&Hmf); [by apply Hlo|]. by eapply updateCache_ok. }
    destruct (cached_formula st (mkNode k cs) τ Hst Hn) as (b&Eb&Hb). rewrite Eb. cbn [mbind option_bind]. destruct (bool_decide (k' ≠ k) && allow && b) eqn:Ef.
    + apply andb_true_iff in Ef as [_ ->]. destruct (Hb eq_refl) as [Hw _]. assert (∃ st1, (if re && needToRebuild st (mkNode k cs) then rebuildNode (mkNode k cs) k st else Some st) = Some st1 ∧ lower_ok st1 ∧ equiv (mkNode k cs) (fromCache st1 (mkNode k cs))) as (st1&->&H1&E1).
      { destruct (re && needToRebuild st (mkNode k cs)) eqn:Er; [|exists st; split_and!; [done|done|by apply Hb]]. apply andb_true_iff in Er as [-> _]. destruct (Hre eq_refl) as [_ HF].
        destruct (rebuildNode_same k cs τ st Hst Hn HF) as (st1&E1&H1&E2). exists st1. split_and!; [done|done|].
        rewrite E2 in E1. destruct (updateCache_from _ _ _ _ E1) as [-> | ->]; [by eapply rebuild_same|by apply Hb]. }
      cbn [mbind option_bind]. rewrite forceNode_eq. eapply updateCache_ok; [done|exact Hn| |done|done]. by apply force_rep.
    + destruct (re && needToRebuild st (mkNode k cs)) eqn:Er; [|pose proof (visit_force (mkNode k cs) τ allow st Hst Hn eq_refl) as Hvf; rewrite Eb in Hvf; exact Hvf]. apply andb_true_iff in Er as [-> _]. destruct (Hre eq_refl) as [_ HF]. destruct (rebuildNode_same k cs τ st Hst Hn HF) as (st1&E1&H1&_). by exists st1.
Qed.

(** ** [lowerNode] *)

Lemma lowerable_child k cs τ i c : wt (mkNode k cs) τ → lowerable (mkNode k cs) = true → cs !! i = Some c → lowerable c = true ∧ ∃ t, wt c t.
Proof using Type.
  intros Hw Hl Hi. destruct (node_children k cs τ Hw) as [ts HW]. destruct (Forall2_lookup_l _ _ _ _ _ HW Hi) as (t&_&Ht). split; [|by exists t].
  cbn [lowerable] in Hl. apply andb_true_iff in Hl as [_ Hl]. rewrite forallb_forall in Hl. apply Hl, list_elem_of_In. by eapply list_elem_of_lookup_2.
Qed.

(** [bound] steps of the loop process the nodes [ns] on top of the stack. *)
Definition lowers (allow : bool) (ns : list Node) (bound : nat) : Prop := ∀ visited st, lower_ok st → ∃ visited' st' j, (j ≤ bound)%nat ∧
  (∀ fuel to_visit, lowerLoop allow (j + fuel) (ns ++ to_visit) visited st = lowerLoop allow fuel to_visit visited' st') ∧ lower_ok st' ∧ visited ⊆ visited'.

Lemma lowers_list allow ns : Forall (λ n, lowers allow [n] (2 * nsize n)) ns → lowers allow ns (2 * sum_list_with nsize ns).
Proof using All.
  induction 1 as [|n ns Hn _ IH]; intros visited st Hst; [by exists visited, st, 0%nat|]. destruct (Hn visited st Hst) as (v1&st1&j1&Hj1&E1&H1&S1). destruct (IH v1 st1 H1) as (v2&st2&j2&Hj2&E2&H2&S2).
  exists v2, st2, (j1 + j2)%nat. cbn [sum_list_with]. split_and!; [lia| |done|set_solver]. intros fuel to_visit. rewrite <- Nat.add_assoc. specialize (E1 (j2 + fuel)%nat (ns ++ to_visit)). cbn [app] in *. by rewrite E1.
Qed.

Lemma lowers_node allow n : ∀ τ, wt n τ → lowerable n = true → lowers allow [n] (2 * nsize n).
Proof using All.
  assert (∀ n τ, wt n τ → lowerable n = true → ∀ visited st, lower_ok st → n ∈ visited → ∃ st', lower_ok st' ∧ ∀ fuel to_visit, lowerLoop allow (1 + fuel) (n :: to_visit) visited st = lowerLoop allow fuel to_visit visited st') as Hdone.
  { clear. intros n τ Hw Hl visited st Hst Hin. destruct (visit_lowers n τ allow st Hst Hw Hl) as (st'&E&H'). exists st'. split; [done|]. intros fuel to_visit. cbn [Nat.add lowerLoop]. rewrite decide_True by done. by rewrite E. }
  induction n as [id ty|b|z|bv|k cs IH] using Node_ind'; intros τ Hw Hl visited st Hst.
  1-4: match goal with |- context [[?n]] => destruct (decide (n ∈ visited)) as [Hin|Hin]; [destruct (Hdone n τ Hw Hl visited st Hst Hin) as (st'&H'&E); exists visited, st', 1%nat; split_and!; [cbn; lia|exact E|done|done]|];
    destruct (Hdone n τ Hw Hl ({[n]} ∪ visited) st Hst ltac:(set_solver)) as (st'&H'&E); exists ({[n]} ∪ visited), st', 2%nat; split_and!; [cbn; lia| |done|set_solver];
    intros fuel to_visit; cbn [app]; rewrite <- E; cbn [Nat.add lowerLoop]; by rewrite (decide_False (P:=n ∈ visited)) end.
  set (n := mkNode k cs). destruct (decide (n ∈ visited)) as [Hin|Hin].
  { destruct (Hdone n τ Hw Hl visited st Hst Hin) as (st'&H'&E). exists visited, st', 1%nat. split_and!; [pose proof (nsize_pos n); lia|exact E|done|done]. }
  assert (lowers allow cs (2 * sum_list_with nsize cs)) as HL.
  { apply lowers_list. apply list.Forall_forall. intros c [i Hi]%list_elem_of_lookup. destruct (lowerable_child k cs τ i c Hw Hl Hi) as (Hlc&t&Ht). eapply Forall_lookup_1 in IH; [|exact Hi]. by eapply IH. }
  destruct (HL ({[n]} ∪ visited) st Hst) as (v1&st1&j1&Hj1&E1&H1&S1). destruct (Hdone n τ Hw Hl v1 st1 H1 ltac:(set_solver)) as (st2&H2&E2).
  exists v1, st2, (1 + j1 + 1)%nat. unfold n. rewrite nsize_node. split_and!; [lia| |done|set_solver]. intros fuel to_visit. fold n. cbn [app]. rewrite <- !Nat.add_assoc. change (lowerLoop allow (S (j1 + (1 + fuel))) (n :: to_visit) visited st = lowerLoop allow fuel to_visit v1 st2).
  cbn [lowerLoop]. rewrite decide_False by done. unfold n at 1. cbn [children]. by rewrite E1, E2.
Qed.

Lemma lowerLoop_nil allow fuel visited st : lowerLoop allow fuel [] visited st = Some st.
Proof using All. by destruct fuel. Qed.

Lemma lowerNode_ok n τ allow st : lower_ok st → wt n τ → lowerable n = true → ∃ st', lowerNode n allow st = Some (fromCache st' n, st') ∧ lower_ok st'.
Proof using All.
  intros Hst Hw Hl. destruct (lowers_node allow n τ Hw Hl ∅ st Hst) as (v&st'&j&Hj&E&H'&_). exists st'. split; [|done]. unfold lowerNode.
  specialize (E (2 * nsize n - j)%nat []). cbn [app] in E. replace (j + (2 * nsize n - j))%nat with (2 * nsize n)%nat in E by lia. by rewrite E, lowerLoop_nil.
Qed.

(** ** [lowerAssertion] *)

Lemma lowerChildren_ok cs ts allow : Forall2 wt cs ts → forallb lowerable cs = true → ∀ st, lower_ok st → ∃ st', lowerChildren cs allow st = Some st' ∧ lower_ok st'.
Proof using All.
  induction 1 as [|c t cs ts Hc _ IH]; intros Hl st Hst; cbn [lowerChildren]; [by exists st|]. cbn [forallb] in Hl. apply andb_true_iff in Hl as [Hlc Hl].
  destruct (lowerNode_ok c t allow st Hst Hc Hlc) as (st1&->&H1). cbn [mbind option_bind]. by apply IH.
Qed.

Lemma lowerAssertion_ok a allow st : lower_ok st → bool_wt a → lowerable a = true → ∃ m st', lowerAssertion a allow st = Some (m, st') ∧ lower_ok st' ∧ equiv a m ∧ (m = mkConstBool false → m = a).
Proof using All.
  intros Hst Hw Hl. unfold lowerAssertion. assert (∃ st1, lowerChildren (children a) allow st = Some st1 ∧ lower_ok st1) as (st1&->&H1).
  { destruct a as [| | | |k cs]; try by exists st. destruct (node_children k cs _ Hw) as [ts HW]. eapply lowerChildren_ok; [done| |done]. cbn [lowerable] in Hl. by apply andb_true_iff in Hl as [_ ?]. }
  cbn [mbind option_bind]. destruct (lowerNode_ok a _ false st1 H1 Hw Hl) as (st2&->&H2). cbn [mbind option_bind]. destruct (fromCache_rep st2 a _ H2 Hw) as [Hr _].
  destruct (rep_type a _ _ Hw Hr) as (t&Ht&[[-> He]|(->&_&Hb)]); rewrite (proj1 Ht); cbn [mbind option_bind isBitVector].
  - rewrite (proj1 Ht). eexists _, _. split_and!; [done..|by apply fromCache_false].
  - rewrite bool_decide_true by done. cbn [assert mbind option_bind]. rewrite mkOne_cst by done. cbn [mbind option_bind]. pose proof (equal_one_equiv _ _ Hb) as He. rewrite (proj1 (equiv_wt _ _ _ Hw He)). eexists _, _. split; [done|]. done.
Qed.

(** ** [lowerIte] *)

(** Between two bit-vector [ite]s the cache has only terms of the same type. *)
Definition same_ok (st : BoolToBV) : Prop := lower_ok st ∧ ∀ n m, d_lowerCache st !! n = Some m → equiv n m.

Lemma same_from st n τ : same_ok st → wt n τ → equiv n (fromCache st n).
Proof using Type.
  intros [[_ Hi _] Hs] Hn. unfold fromCache. destruct (isKind ITE n).
  - destruct (d_iteBVLowerCache st !! n) as [m|] eqn:E; cbn; [by destruct (Hi n m E)|by eapply equiv_refl].
  - destruct (d_lowerCache st !! n) as [m|] eqn:E; cbn; [by apply Hs|by eapply equiv_refl].
Qed.

Lemma same_rebuild k cs τ st : same_ok st → wt (mkNode k cs) τ → ∃ st', rebuildNode (mkNode k cs) k st = Some st' ∧ same_ok st'.
Proof using Type.
  intros Hst Hw. pose proof Hst as [Hlo Hs]. destruct (node_children k cs τ Hw) as [ts HW].
  assert (Forall (λ c, equiv c (fromCache st c)) cs) as HF by (apply list.Forall_forall; intros c [i Hi]%list_elem_of_lookup; destruct (Forall2_lookup_l _ _ _ _ _ HW Hi) as (t&_&Ht); by eapply same_from).
  destruct (rebuildNode_same k cs τ st Hlo Hw HF) as (st'&E&H'&E2). exists st'. split; [done|]. split; [done|]. rewrite E2 in E. unfold updateCache in E. apply bind_Some in E as (ite&_&[= <-]). intros x y.
  destruct ite; cbn; [apply Hs|]. destruct (decide (x = mkNode k cs)) as [->|Hne]; [rewrite lookup_insert_eq; intros [= <-]; by eapply rebuild_same|rewrite lookup_insert_ne by done; apply Hs].
Qed.

Lemma isBVIte_Some n τ : wt n τ → ∃ b, isBVIte n = Some b.
Proof using Type.
  intros Hw. destruct n as [| | | |k cs]; try by eexists. destruct k; try by eexists. destruct (ite_operands cs τ Hw) as (c&t&e&->&_&Ht&_). unfold isBVIte. rewrite (proj1 Ht). by eexists.
Qed.

Definition lowersIte (ns : list Node) (bound : nat) : Prop := ∀ visited st, same_ok st → ∃ visited' st' j, (j ≤ bound)%nat ∧
  (∀ fuel to_visit, lowerIteLoop (j + fuel) (ns ++ to_visit) visited st = lowerIteLoop fuel to_visit visited' st') ∧ same_ok st' ∧ visited ⊆ visited'.

Lemma lowersIte_list ns : Forall (λ n, lowersIte [n] (2 * nsize n)) ns → lowersIte ns (2 * sum_list_with nsize ns).
Proof using All.
  induction 1 as [|n ns Hn _ IH]; intros visited st Hst; [by exists visited, st, 0%nat|]. destruct (Hn visited st Hst) as (v1&st1&j1&Hj1&E1&H1&S1). destruct (IH v1 st1 H1) as (v2&st2&j2&Hj2&E2&H2&S2).
  exists v2, st2, (j1 + j2)%nat. cbn [sum_list_with]. split_and!; [lia| |done|set_solver]. intros fuel to_visit. rewrite <- Nat.add_assoc. specialize (E1 (j2 + fuel)%nat (ns ++ to_visit)). cbn [app] in *. by rewrite E1.
Qed.

(** A node that was marked. *)
Lemma lowersIte_marked n τ visited st : wt n τ → same_ok st → n ∈ visited →
  ∃ st', same_ok st' ∧ ∀ fuel to_visit, lowerIteLoop (1 + fuel) (n :: to_visit) visited st = lowerIteLoop fuel to_visit visited st'.
Proof using All.
  intros Hw Hst Hin. assert (∃ st', match n with mkNode k _ => if needToRebuild st n then rebuildNode n k st else Some st | _ => Some st end = Some st' ∧ same_ok st') as (st'&E&H').
  { destruct n as [| | | |k cs]; try by exists st. destruct (needToRebuild st (mkNode k cs)); [by eapply same_rebuild|by exists st]. }
  exists st'. split; [done|]. intros fuel to_visit. cbn [Nat.add lowerIteLoop]. rewrite decide_True by done. by rewrite E.
Qed.

Lemma lowersIte_node n : ∀ τ, wt n τ → lowerable n = true → lowersIte [n] (2 * nsize n).
Proof using All.
  induction n as [n IH] using (well_founded_induction (Wf_nat.well_founded_ltof _ nsize)). intros τ Hw Hl visited st Hst. pose proof (nsize_pos n) as Hpos. destruct (decide (n ∈ visited)) as [Hin|Hin].
  { destruct (lowersIte_marked n τ visited st Hw Hst Hin) as (st'&H'&E). exists visited, st', 1%nat. split_and!; [lia|exact E|done|done]. }
  destruct (isBVIte_Some n τ Hw) as [[] Eb].
  { destruct (lowerNode_ok n τ false st (proj1 Hst) Hw Hl) as (st1&E1&H1). exists visited, (mkBoolToBV ∅ (d_iteBVLowerCache st1)), 1%nat. split_and!; [lia| | |done].
    - intros fuel to_visit. cbn [app Nat.add lowerIteLoop]. rewrite decide_False by done. rewrite Eb. cbn [mbind option_bind]. by rewrite E1.
    - split; [|intros x y; cbn; by rewrite lookup_empty]. destruct H1 as [_ Hi Hf]. split; [intros x y; cbn; by rewrite lookup_empty|done|]. intros x y [Hx|Hx]; [cbn in Hx; by rewrite lookup_empty in Hx|by apply (Hf x); right]. }
  assert (lowersIte (children n) (2 * pred (nsize n))) as HL.
  { destruct n as [| | | |k cs]; try (intros v st0 Hst0; by exists v, st0, 0%nat). replace (pred (nsize (mkNode k cs))) with (sum_list_with nsize cs) by (by rewrite nsize_node). apply lowersIte_list. apply list.Forall_forall. intros c [i Hi]%list_elem_of_lookup.
    destruct (lowerable_child k cs τ i c Hw Hl Hi) as (Hlc&t&Ht). eapply IH; [|done..]. unfold ltof. eapply nsize_child. by eapply list_elem_of_lookup_2. }
  destruct (HL ({[n]} ∪ visited) st Hst) as (v1&st1&j1&Hj1&E1&H1&S1). destruct (lowersIte_marked n τ v1 st1 Hw H1 ltac:(set_solver)) as (st2&H2&E2).
  exists v1, st2, (1 + j1 + 1)%nat. split_and!; [lia| |done|set_solver]. intros fuel to_visit. cbn [app]. rewrite <- !Nat.add_assoc. change (lowerIteLoop (S (j1 + (1 + fuel))) (n :: to_visit) visited st = lowerIteLoop fuel to_visit v1 st2).
  cbn [lowerIteLoop]. rewrite decide_False by done. rewrite Eb. cbn [mbind option_bind]. by rewrite E1, E2.
Qed.

Lemma lowerIte_ok n τ st : same_ok st → wt n τ → lowerable n = true → ∃ m st', lowerIte n st = Some (m, st') ∧ same_ok st' ∧ equiv n m ∧ (m = mkConstBool false → m = n).
Proof using All.
  intros Hst Hw Hl. destruct (lowersIte_node n τ Hw Hl ∅ st Hst) as (v&st'&j&Hj&E&H'&_). eexists _, st'. split; [|split_and!; [done|by eapply same_from|apply fromCache_false, H']]. unfold lowerIte.
  specialize (E (2 * nsize n - j)%nat []). cbn [app] in E. replace (j + (2 * nsize n - j))%nat with (2 * nsize n)%nat in E by lia. rewrite E. by destruct (2 * nsize n - j)%nat.
Qed.

(** ** The pass *)

(** What the two modes keep between two assertions. *)
Definition mode_ok (mode : BoolToBVMode) (st : BoolToBV) : Prop := match mode with ALL => lower_ok st | ITE_MODE => same_ok st end.

(** The lowered assertions: the loop without the pipeline. *)
Fixpoint lowerAll (mode : BoolToBVMode) (assertions : list Node) (st : BoolToBV) : option (list Node * BoolToBV) :=
  match assertions with
  | [] => Some ([], st)
  | a :: assertions => '(m, st) ← lower mode a st; '(ms, st) ← lowerAll mode assertions st; Some (m :: ms, st)
  end.

Lemma lower_mode_ok mode a st : mode_ok mode st → bool_wt a → lowerable a = true →
  ∃ m st', lower mode a st = Some (m, st') ∧ mode_ok mode st' ∧ equiv a m ∧ (m = mkConstBool false → m = a).
Proof using All. intros Hst Ha Hl. destruct mode; [by apply lowerAssertion_ok|by eapply lowerIte_ok]. Qed.

Lemma lowerAll_ok mode assertions st : mode_ok mode st → Forall (λ a, wt a BOOLEAN_TYPE) assertions → Forall (λ a, lowerable a = true) assertions →
  ∃ ls st', lowerAll mode assertions st = Some (ls, st') ∧ Forall2 equiv assertions ls.
Proof using All.
  intros Hst HW. revert st Hst. induction HW as [|a assertions Ha _ IH]; intros st Hst HL; [by exists [], st|]. apply list.Forall_cons in HL as [Hl HL].
  destruct (lower_mode_ok mode a st Hst Ha Hl) as (m&st1&E1&H1&He&_). destruct (IH st1 H1 HL) as (ls&st2&E2&HF). exists (m :: ls), st2. cbn [lowerAll]. rewrite E1. cbn. rewrite E2. split; [done|by constructor].
Qed.

(** The loop: a new assertion is the constant [false] only if the old one is, so the
    pipeline gets in conflict only by rewriting. *)
Lemma applyLoop_ok mode rewrite as' : ∀ pre p st ls st1, pipeline_ok p → mode_ok mode st → Forall (λ a, lowerable a = true) as' → d_nodes p = pre ++ as' →
  lowerAll mode as' st = Some (ls, st1) → Forall (kept rewrite) ls →
  ∃ r p' st', applyLoop mode rewrite (length pre) (length as') p st = Some (r, p', st') ∧ mode_ok mode st' ∧ pipeline_ok p' ∧ (∀ env, env_ok env → holds env p' ↔ holds env p) ∧
    (r = CONFLICT → d_conflict p' = true) ∧ (r = NO_CONFLICT → ∃ ms, d_nodes p' = pre ++ ms ∧ Forall2 equiv as' ms).
Proof using All.
  induction as' as [|a as' IH]; intros pre p st ls st1 Hp Hst HF Hn EL HK; cbn [applyLoop length]; [exists NO_CONFLICT, p, st; split_and!; [done..|by exists []]|].
  apply list.Forall_cons in HF as [Hl HF]. assert (d_nodes p !! length pre = Some a) as Hi by (rewrite Hn; by apply list_lookup_middle). rewrite Hi. cbn [mbind option_bind].
  assert (wt a BOOLEAN_TYPE) as Ha by (by eapply Forall_lookup_1 in Hi; [|apply nodes_wt]). destruct (lower_mode_ok mode a st Hst Ha Hl) as (m&st2&E2&H2&He&Hf). rewrite E2.
  cbn [lowerAll] in EL. rewrite E2 in EL. cbn [mbind option_bind] in EL. apply bind_Some in EL as ([ls' st3]&EL&[= <- <-]). apply list.Forall_cons in HK as [Hk HK].
  cbn [mbind option_bind]. destruct (replace_ok _ _ _ _ Hp Hi He) as (p1&E1&[Hp1 Hh1]%adds_nil). rewrite E1. cbn [mbind option_bind].
  assert (d_nodes p1 = pre ++ m :: as') as Hn1 by (rewrite (replace_nodes _ _ _ _ E1), Hn, insert_middle; [done|left; intros ?; rewrite Hi; f_equal; symmetry; auto]).
  assert (d_nodes p1 !! length pre = Some m) as Hi1 by (rewrite Hn1; by apply list_lookup_middle).
  destruct (ensureRewritten_ok rewrite (length pre) m p1 Hp1 Hi1 Hk) as (p2&Er&[Hp2 Hh2]%adds_nil). rewrite Er. cbn [mbind option_bind].
  destruct (d_conflict p2) eqn:Ec; [exists CONFLICT, p2, st2; split_and!; [done..|intros env Hok; by rewrite Hh2, Hh1|done|done]|].
  assert (d_nodes p2 = (pre ++ [rewrite m]) ++ as') as Hn2.
  { unfold ensureRewritten in Er. rewrite Hi1 in Er. cbn [mbind option_bind] in Er. rewrite (replace_nodes _ _ _ _ Er (or_intror Ec)), Hn1, insert_middle. by rewrite <- app_assoc. }
  destruct (IH (pre ++ [rewrite m]) p2 st2 ls' st3 Hp2 H2 HF Hn2 EL HK) as (r&p'&st'&E&Hst'&H'&Hh&Hc&Hnc). rewrite length_app, Nat.add_1_r in E. exists r, p', st'. split_and!; [done..|intros env Hok; by rewrite Hh, Hh2, Hh1|done|].
  intros Hno. destruct (Hnc Hno) as (ms&Hms&HF2). exists (rewrite m :: ms). rewrite <- app_assoc in Hms. split; [done|]. constructor; [|done]. eapply equiv_trans; [exact He|exact Hk].
Qed.

(** C13: the pass [bool-to-bv] keeps the meaning of the assertions, in both modes.  For
    a pipeline of typed assertions without the comparisons that rewriting removes, and
    caches as the pass leaves them ([newBoolToBV] for a new pass), lowering returns one
    formula for each assertion, of the same type and value, whatever the rewriter is.
    If the rewriter keeps the type and the value of these lowered formulas, the pass
    returns, leaves such caches again, and the new assertions hold in the same
    valuations as the old ones.  When it reports a conflict they cannot be satisfied;
    otherwise there is one new assertion for each, of the same type and value. *)
Theorem bool_to_bv_sound mode rewrite p st : mode_ok mode st → pipeline_ok p → Forall (λ a, lowerable a = true) (d_nodes p) →
  ∃ ls st1, lowerAll mode (d_nodes p) st = Some (ls, st1) ∧ Forall2 equiv (d_nodes p) ls ∧
    (Forall (kept rewrite) ls → ∃ r p' st', applyInternal mode rewrite p st = Some (r, p', st') ∧ mode_ok mode st' ∧ pass_ok p r p').
Proof using All.
  intros Hst Hp HF. destruct (lowerAll_ok mode (d_nodes p) st Hst) as (ls&st1&EL&HE); [apply Hp|done|]. exists ls, st1. split_and!; [done..|]. intros HK.
  destruct (applyLoop_ok mode rewrite (d_nodes p) [] p st ls st1 Hp Hst HF eq_refl EL HK) as (r&p'&st'&E&Hst'&H'&Hh&Hc&Hnc). exists r, p', st'. split; [done|]. split; [done|]. split_and!; [done..| |].
  - intros Hconf env Hok Hv. eapply (conflict_unsat p' H' (Hc Hconf) env Hok). by apply Hh.
  - intros Hno. by destruct (Hnc Hno) as (ms&->&HF2).
Qed.

(** The caches of a new pass. *)
Lemma newBoolToBV_ok mode : mode_ok mode newBoolToBV.
Proof using Type. assert (lower_ok newBoolToBV) as Hl by (split; [done..|]; by intros x y [?|?]). by destruct mode. Qed.

End sound.

(** [p and q], with the identity as the rewriter: both variables are forced. *)
Lemma bool_to_bv_sound_witness :
  let v i := mkVar i BOOLEAN_TYPE in let one := mkConstBV (mkBitVector 1 1) in let force i := mkNode3 ITE (v i) one (mkConstBV (mkBitVector 1 0)) in
  let p := setNodes [mkNode2 AND (v 1%positive) (v 2%positive)] newAssertionPipeline in
  ∃ p' st', applyInternal ALL id p newBoolToBV = Some (NO_CONFLICT, p', st') ∧ (∀ env, env_ok env → holds env p' ↔ holds env p) ∧
    d_nodes p' = [mkNode2 EQUAL (mkNode2 BITVECTOR_AND (force 1%positive) (force 2%positive)) one].
Proof.
  intros v one force p. destruct (bool_to_bv_sound ALL id p newBoolToBV) as (ls&st1&_&HF&Hr); [apply newBoolToBV_ok|split; [by constructor|done]|by constructor|].
  destruct Hr as (r&p'&st'&E&_&_&Hh&_). { apply list.Forall_forall. intros l [i Hi]%list_elem_of_lookup. destruct (Forall2_lookup_r _ _ _ _ _ HF Hi) as (a'&Ha'&He).
    eapply (equiv_refl l BOOLEAN_TYPE), equiv_wt; [|exact He]. destruct i as [|[]]; try done. by injection Ha' as <-. }
  assert ((λ rp, (rp.1.1, d_nodes rp.1.2)) <$> applyInternal ALL id p newBoolToBV = Some (NO_CONFLICT, [mkNode2 EQUAL (mkNode2 BITVECTOR_AND (force 1%positive) (force 2%positive)) one])) as E' by (vm_compute; reflexivity).
  rewrite E in E'. injection E' as -> E'. exists p', st'. by split_and!.
Defined.

(** ** What is not lowered *)

(** A Boolean [ite] is written to one cache and read from the other, so the
    conjunction above it is not lowered, although mode [ALL] forces formulas. *)
Lemma boolean_ite_not_lowered :
  let v i := mkVar i BOOLEAN_TYPE in let a := mkNode2 AND (mkNode3 ITE (v 1%positive) (v 2%positive) (v 3%positive)) (v 4%positive) in
  (λ rp, d_nodes rp.1.2) <$> applyInternal ALL id (setNodes [a] newAssertionPipeline) newBoolToBV = Some [a].
Proof. vm_compute. reflexivity. Qed.

(** In mode [ITE] the cache is cleared after each bit-vector [ite], so the equality
    above the first one is not rebuilt. *)
Lemma first_ite_not_lowered :
  let x i := mkVar i (BITVECTOR_TYPE 8) in let c := mkNode2 BITVECTOR_ULT (x 1%positive) (x 2%positive) in let c' := mkNode2 BITVECTOR_ULTBV (x 1%positive) (x 2%positive) in
  let e1 := mkNode2 EQUAL (mkNode3 ITE c (x 3%positive) (x 4%positive)) (x 1%positive) in
  let e2 := mkNode2 EQUAL (mkNode3 ITE c (x 5%positive) (x 6%positive)) (x 1%positive) in
  let e2' := mkNode2 EQUAL (mkNode3 BITVECTOR_ITE c' (x 5%positive) (x 6%positive)) (x 1%positive) in
  (λ rp, d_nodes rp.1.2) <$> applyInternal ITE_MODE id (setNodes [mkNode2 AND e1 e2] newAssertionPipeline) newBoolToBV = Some [mkNode2 AND e1 e2'].
Proof. vm_compute. reflexivity. Qed.
