(* ===== verification/Bitblast.v ===== *)
(** [theory/bv/bitblast]: the circuits of [bitblast_utils.h], the strategies of
    [bitblast_strategies_template.h] and the bit-blaster of [bitblaster.h] and
    [node_bitblaster.cpp], at the type [Node].  Bits are listed from the least
    significant one.  A failed [Assert], an access out of range, [Unreachable]
    and [Unimplemented] are [None]. *)
From stdpp Require Import base option list gmap numbers.
From S2P Require Import Prelude Integer Node TypeRules BitVectorUtil BvElim.
Open Scope nat_scope.

Abbreviation Bits := (list Node).

(** ** [bitblast_utils.h] *)

Definition mkTrue : Node := mkConstBool true.
Definition mkFalse : Node := mkConstBool false.
Definition mkNot (a : Node) : Node := mkNode NOT [a].
Definition mkOr (a b : Node) : Node := mkNode OR [a; b].
Definition mkAnd (a b : Node) : Node := mkNode AND [a; b].
Definition mkXor (a b : Node) : Node := mkNode XOR [a; b].
Definition mkIff (a b : Node) : Node := mkNode EQUAL [a; b].
Definition mkIte (cond a b : Node) : Node := mkNode ITE [cond; a; b].

(** [mkAnd] of a vector. *)
Definition mkAndList (children : list Node) : option Node :=
  match children with
  | [] => None
  | [c] => Some c
  | _ => Some (mkNode AND children)
  end.

Definition extractBits (b : Bits) (lo hi : nat) : option Bits :=
  _ ← assert (bool_decide (lo < length b ∧ hi < length b ∧ lo ≤ hi));
  mapM (λ i, b !! i) (seq lo (hi + 1 - lo)).

Definition negateBits (bits : Bits) : Bits := mkNot <$> bits.

Definition isZero (bits : Bits) : bool := forallb (λ b, bool_decide (b = mkFalse)) bits.

(** [bits[i] = bits[j]], in place. *)
Definition copyBit (i j : nat) (bits : Bits) : option Bits :=
  b ← bits !! j; _ ← bits !! i; Some (<[i := b]> bits).
Definition setFalse (i : nat) (bits : Bits) : option Bits :=
  _ ← bits !! i; Some (<[i := mkFalse]> bits).

Definition rshift (bits : Bits) (amount : nat) : option Bits :=
  _ ← assert (bool_decide (amount ≤ length bits));
  let size := length bits in
  bits ← for_up (size - amount) 0 (λ i bits, copyBit i (i + amount) bits) bits;
  for_up amount (size - amount) setFalse bits.

Definition lshift (bits : Bits) (amount : nat) : option Bits :=
  let size := length bits in
  bits ← for_down (size - amount) (size - 1) (λ i bits, copyBit i (i - amount) bits) bits;
  for_up amount 0 setFalse bits.

Definition makeZero (width : nat) : Bits := replicate width mkFalse.

(** The loop of the adder, with the result so far and the carry. *)
Fixpoint adderLoop (a b res : Bits) (carry : Node) : option (Bits * Node) :=
  match a, b with
  | [], [] => Some (res, carry)
  | ai :: a, bi :: b =>
      let sum := mkXor (mkXor ai bi) carry in
      let carry := mkOr (mkAnd ai bi) (mkAnd (mkXor ai bi) carry) in
      adderLoop a b (res ++ [sum]) carry
  | _, _ => None
  end.

(** The sum and the carry-out. *)
Definition rippleCarryAdder (a b : Bits) (carry : Node) : option (Bits * Node) :=
  _ ← assert (bool_decide (length a = length b));
  adderLoop a b [] carry.

(** The inner loop of the multiplier over the bits [res[k..]] and [a[0..]]. *)
Fixpoint multiplierRow (bk : Node) (a res : Bits) (carry_in : Node) {struct res} : option Bits :=
  match res, a with
  | [], _ => Some []
  | r :: res, aj :: a =>
      let aj := mkAnd bk aj in
      let carry_out := mkOr (mkAnd r aj) (mkAnd (mkXor r aj) carry_in) in
      rest ← multiplierRow bk a res carry_out;
      Some (mkXor (mkXor r aj) carry_in :: rest)
  | _, [] => None
  end.

Definition shiftAddMultiplier (a b : Bits) : option Bits :=
  b0 ← b !! 0;
  let res := mkAnd b0 <$> a in
  for_up (length res - 1) 1
    (λ k res, bk ← b !! k;
              row ← multiplierRow bk a (drop k res) mkFalse;
              Some (take k res ++ row)) res.

Definition uLessThanBB (a b : Bits) (orEqual : bool) : option Node :=
  _ ← assert (bool_decide (length a ≠ 0 ∧ length b ≠ 0));
  a0 ← a !! 0; b0 ← b !! 0;
  let res := mkAnd (mkNot a0) b0 in
  let res := if orEqual then mkOr res (mkIff a0 b0) else res in
  for_up (length a - 1) 1
    (λ i res, ai ← a !! i; bi ← b !! i;
              Some (mkOr (mkAnd (mkIff ai bi) res) (mkAnd (mkNot ai) bi))) res.

Definition sLessThanBB (a b : Bits) (orEqual : bool) : option Node :=
  _ ← assert (bool_decide (length a ≠ 0 ∧ length b ≠ 0));
  if decide (length a = 1) then
    a0 ← a !! 0; b0 ← b !! 0;
    if orEqual then Some (mkOr (mkIff a0 b0) (mkAnd a0 (mkNot b0)))
    else Some (mkAnd a0 (mkNot b0))
  else
    let n := length a - 1 in
    a1 ← extractBits a 0 (n - 1);
    b1 ← extractBits b 0 (n - 1);
    ures ← uLessThanBB a1 b1 orEqual;
    an ← a !! n; bn ← b !! n;
    Some (mkOr (mkAnd (mkIff an bn) ures) (mkAnd an (mkNot bn))).

(** ** Division *)

(** [for (i...) res[i] = f(x[i], y[i])] on vectors of one length. *)
Fixpoint zipWith (f : Node → Node → Node) (x y : Bits) : option Bits :=
  match x, y with
  | [], [] => Some []
  | a :: x, b :: y => (f a b ::.) <$> zipWith f x y
  | _, _ => None
  end.

Fixpoint uDivModRec (a b : Bits) (rec_width : nat) : option (Bits * Bits) :=
  match rec_width with
  | O => Some (makeZero (length a), makeZero (length a))
  | S rec_width' =>
      if isZero a then Some (makeZero (length a), makeZero (length a))
      else
        a1 ← rshift a 1;
        '(q1, r1) ← uDivModRec a1 b rec_width';
        q1 ← lshift q1 1;
        r1 ← lshift r1 1;
        a0 ← a !! 0;
        let is_odd := mkIff a0 mkTrue in
        let one_if_odd := mkIte is_odd mkTrue mkFalse in
        let zero := makeZero (length b) in
        '(r1_shift_add, _) ← rippleCarryAdder r1 zero one_if_odd;
        let not_b := negateBits b in
        '(r_minus_b, co1) ← rippleCarryAdder r1_shift_add not_b mkTrue;
        let sign := mkNot co1 in
        q10 ← q1 !! 0;
        let q1 : Bits := <[0 := mkIte sign q10 mkTrue]> (q1 : Bits) in
        r1_shift_add ← zipWith (mkIte sign) r1_shift_add r_minus_b;
        '(a_minus_b, co2) ← rippleCarryAdder a not_b mkTrue;
        let a_lt_b := mkNot co2 in
        let q : Bits := (λ q1i, mkIte a_lt_b mkFalse q1i) <$> q1 in
        r ← zipWith (mkIte a_lt_b) a r1_shift_add;
        Some (q, r)
  end.

(** ** The bit-blaster *)

Record NodeBitblaster := mkBB {
  d_termCache : gmap Node Bits;
  d_variables : gset Node;
  d_bbAtoms : gmap Node Node;
}.

Definition newBitblaster : NodeBitblaster := mkBB ∅ ∅ ∅.

(** Computations on the bit-blaster that may fail. *)
Abbreviation BB := (StateM NodeBitblaster).

Definition hasBBTerm (node : Node) (st : NodeBitblaster) : bool :=
  bool_decide (is_Some (d_termCache st !! node)).

(** [emplace] keeps an entry that is there. *)
Definition storeBBTerm (node : Node) (bits : Bits) : BB unit := λ st,
  Some ((), match d_termCache st !! node with
            | Some _ => st
            | None => mkBB (<[node := bits]> (d_termCache st)) (d_variables st) (d_bbAtoms st)
            end).

Definition storeBBAtom (atom atom_bb : Node) : BB unit := λ st,
  Some ((), match d_bbAtoms st !! atom with
            | Some _ => st
            | None => mkBB (d_termCache st) (d_variables st) (<[atom := atom_bb]> (d_bbAtoms st))
            end).

(** The atom of a literal: its child when it is a negation. *)
Definition stripNot (lit : Node) : option Node :=
  match lit with mkNode NOT cs => cs !! 0 | _ => Some lit end.

Definition hasBBAtom (lit : Node) (st : NodeBitblaster) : bool :=
  match stripNot lit with Some atom => bool_decide (is_Some (d_bbAtoms st !! atom)) | None => false end.

Definition getStoredBBAtom (node : Node) (st : NodeBitblaster) : option Node :=
  atom ← stripNot node;
  atom_bb ← d_bbAtoms st !! atom;
  Some (match node with mkNode NOT _ => negate atom_bb | _ => atom_bb end).

Definition makeVariable (var : Node) : BB Bits :=
  size ← lift (getSize var);
  st ← getState;
  _ ← putState (mkBB (d_termCache st) ({[ var ]} ∪ d_variables st) (d_bbAtoms st));
  mret ((λ i, utils.mkBit var (Z.of_nat i)) <$> seq 0 (Z.to_nat size)).

Section strategies.
Context `{!Gmp}.

(** [bb->bbTerm], which the strategies call on the children. *)
Variable bbTerm : Node → BB Bits.

(** ** Terms *)

Definition DefaultVarBB (node : Node) : BB Bits := makeVariable node.

Definition DefaultConstBB (node : Node) : option Bits :=
  bv ← getConstBV node;
  size ← getSize node;
  mapM (λ i, b ← BV.extract (Z.of_nat i) (Z.of_nat i) bv;
             let bit := BV.getValue b in
             if decide (bit = 0%Z) then Some mkFalse
             else _ ← assert (bool_decide (bit = 1%Z)); Some mkTrue) (seq 0 (Z.to_nat size)).

Definition DefaultNotBB (node : Node) : BB Bits :=
  c ← lift (child node 0); bv ← bbTerm c; mret (negateBits bv).

(** The children from the last to the first, their bits appended. *)
Fixpoint concatBB (rev_children : list Node) (bits : Bits) : BB Bits :=
  match rev_children with
  | [] => mret bits
  | current :: rest =>
      current_bits ← bbTerm current;
      size ← lift (getSize current);
      chunk ← lift (mapM (λ j, current_bits !! j) (seq 0 (Z.to_nat size)));
      concatBB rest (bits ++ chunk)
  end.

Definition DefaultConcatBB (node : Node) : BB Bits :=
  bits ← concatBB (reverse (children node)) [];
  size ← lift (getSize node);
  _ ← lift (assert (bool_decide (Z.of_nat (length bits) = size)));
  mret bits.

(** The loop over the children after the first, [f] combining the bits. *)
Fixpoint foldBB (f : Bits → Bits → option Bits) (cs : list Node) (bits : Bits) : BB Bits :=
  match cs with
  | [] => mret bits
  | c :: cs => current ← bbTerm c; bits ← lift (f bits current); foldBB f cs bits
  end.

Definition naryBB (f : Bits → Bits → option Bits) (node : Node) : BB Bits :=
  c0 ← lift (child node 0);
  bits ← bbTerm c0;
  bits ← foldBB f (tail (children node)) bits;
  size ← lift (getSize node);
  _ ← lift (assert (bool_decide (Z.of_nat (length bits) = size)));
  mret bits.

Definition DefaultAndBB (node : Node) : BB Bits := naryBB (zipWith mkAnd) node.
Definition DefaultOrBB (node : Node) : BB Bits := naryBB (zipWith mkOr) node.
Definition DefaultXorBB (node : Node) : BB Bits := naryBB (zipWith mkXor) node.

(** Both children, of the same length. *)
Definition bothBB (node : Node) : BB (Bits * Bits) :=
  c0 ← lift (child node 0); c1 ← lift (child node 1);
  a ← bbTerm c0; b ← bbTerm c1; mret (a, b).

Definition sameLength (a b : Bits) : BB unit := lift (assert (bool_decide (length a = length b))).

Definition DefaultXnorBB (node : Node) : BB Bits :=
  '(lhs, rhs) ← bothBB node; _ ← sameLength lhs rhs; lift (zipWith mkIff lhs rhs).

Definition DefaultCompBB (node : Node) : BB Bits :=
  '(a, b) ← bothBB node;
  bit_eqs ← lift (zipWith mkIff a b);
  a_eq_b ← lift (mkAndList bit_eqs);
  mret [a_eq_b].

Definition DefaultMultBB (node : Node) : BB Bits :=
  c0 ← lift (child node 0);
  res ← bbTerm c0;
  foldBB shiftAddMultiplier (tail (children node)) res.

Definition DefaultAddBB (node : Node) : BB Bits :=
  naryBB (λ res current, fst <$> rippleCarryAdder res current mkFalse) node.

Definition DefaultSubBB (node : Node) : BB Bits :=
  '(a, b) ← bothBB node;
  size ← lift (getSize node);
  _ ← lift (assert (bool_decide (length a = length b ∧ size = Z.of_nat (length a))));
  lift (fst <$> rippleCarryAdder a (negateBits b) mkTrue).

Definition DefaultNegBB (node : Node) : BB Bits :=
  c ← lift (child node 0); a ← bbTerm c;
  size ← lift (getSize node);
  _ ← lift (assert (bool_decide (size = Z.of_nat (length a))));
  lift (fst <$> rippleCarryAdder (negateBits a) (makeZero (Z.to_nat size)) mkTrue).

Definition UdivUremBB (node : Node) : BB (Bits * Bits) :=
  '(a, b) ← bothBB node;
  size ← lift (getSize node);
  '(quot, rem) ← lift (uDivModRec a b (Z.to_nat size));
  b_is_0 ← lift (mkAndList ((λ bi, mkIff bi mkFalse) <$> b));
  rem ← lift (zipWith (mkIte b_is_0) a rem);
  mret (mkIte b_is_0 mkTrue <$> quot, rem).

Definition DefaultUdivBB (node : Node) : BB Bits := '(quot, _) ← UdivUremBB node; mret quot.
Definition DefaultUremBB (node : Node) : BB Bits := '(_, rem) ← UdivUremBB node; mret rem.

(** One stage of the barrel shifter: bit [i] of the result. *)
Definition barrelStage (select : nat → Bits → Node → option Node) (b : Bits) (s : nat) (res : Bits) : option Bits :=
  bs ← b !! s;
  mapM (λ i, select i res bs) (seq 0 (length res)).

Definition shlSelect (s i : nat) (prev_res : Bits) (bs : Node) : option Node :=
  let threshold := 2 ^ s in
  p ← prev_res !! i;
  if decide (i < threshold) then Some (mkIte bs mkFalse p)
  else q ← prev_res !! (i - threshold); Some (mkIte bs q p).

Definition shrSelect (fill : Node) (s i : nat) (prev_res : Bits) (bs : Node) : option Node :=
  let threshold := 2 ^ s in
  p ← prev_res !! i;
  if decide (length prev_res ≤ i + threshold) then Some (mkIte bs fill p)
  else q ← prev_res !! (i + threshold); Some (mkIte (mkNot bs) p q).

(** [std::ceil(log2((double)size))]. *)
Definition log2_size (size : Z) : nat := Z.to_nat (Z.log2_up size).

(** The three shifts differ in the stage and in the bit that is shifted in. *)
Definition shiftBB (stage : Node → nat → nat → Bits → Node → option Node)
    (fill : Bits → option Node) (node : Node) : BB Bits :=
  '(a, b) ← bothBB node;
  size ← lift (getSize node);
  a_size_bits ← lift (DefaultConstBB (utils.mkConst size size));
  b_ult_a_size ← lift (uLessThanBB b a_size_bits false);
  f ← lift (fill a);
  res ← lift (for_up (log2_size size) 0 (λ s res, barrelStage (stage f s) b s res) a);
  mret ((λ p, mkIte b_ult_a_size p f) <$> res).

Definition DefaultShlBB (node : Node) : BB Bits :=
  shiftBB (λ _, shlSelect) (λ _, Some mkFalse) node.
Definition DefaultLshrBB (node : Node) : BB Bits :=
  shiftBB shrSelect (λ _, Some mkFalse) node.
Definition DefaultAshrBB (node : Node) : BB Bits :=
  shiftBB shrSelect list.last node.

Definition DefaultUltbvBB (node : Node) : BB Bits :=
  '(a, b) ← bothBB node; _ ← sameLength a b;
  res ← lift (uLessThanBB a b false); mret [res].
Definition DefaultSltbvBB (node : Node) : BB Bits :=
  '(a, b) ← bothBB node; _ ← sameLength a b;
  res ← lift (sLessThanBB a b false); mret [res].

Definition DefaultIteBB (node : Node) : BB Bits :=
  c0 ← lift (child node 0); c1 ← lift (child node 1); c2 ← lift (child node 2);
  cond ← bbTerm c0; thenpart ← bbTerm c1; elsepart ← bbTerm c2;
  _ ← lift (assert (bool_decide (length cond = 1)));
  _ ← sameLength thenpart elsepart;
  cond0 ← lift (cond !! 0);
  lift (zipWith (λ t e, mkAnd (mkOr (mkNot cond0) t) (mkOr cond0 e)) thenpart elsepart).

Definition DefaultExtractBB (node : Node) : BB Bits :=
  c ← lift (child node 0);
  base_bits ← bbTerm c;
  '(high, low) ← lift (match node with mkNode (BITVECTOR_EXTRACT h l) _ => Some (h, l) | _ => None end);
  bits ← lift (mapM (λ i, base_bits !! i) (seq (Z.to_nat low) (Z.to_nat (high - low + 1))));
  mret bits.

Definition DefaultSignExtendBB (node : Node) : BB Bits :=
  c ← lift (child node 0);
  bits ← bbTerm c;
  sign_bit ← lift (list.last bits);
  amount ← lift (match node with mkNode (BITVECTOR_SIGN_EXTEND n) _ => Some n | _ => None end);
  mret (bits ++ replicate (Z.to_nat amount) sign_bit).

(** [initTermBBStrategies]: the strategy of each kind; [None] where it is
    [Unreachable] or [Unimplemented]. *)
Definition termBBStrategy (node : Node) : BB Bits :=
  match node with
  | mkConstBV _ => lift (DefaultConstBB node)
  | mkNode k _ =>
      match k with
      | BITVECTOR_NOT => DefaultNotBB node
      | BITVECTOR_CONCAT => DefaultConcatBB node
      | BITVECTOR_AND => DefaultAndBB node
      | BITVECTOR_OR => DefaultOrBB node
      | BITVECTOR_XOR => DefaultXorBB node
      | BITVECTOR_XNOR => DefaultXnorBB node
      | BITVECTOR_COMP => DefaultCompBB node
      | BITVECTOR_MULT => DefaultMultBB node
      | BITVECTOR_ADD => DefaultAddBB node
      | BITVECTOR_SUB => DefaultSubBB node
      | BITVECTOR_NEG => DefaultNegBB node
      | BITVECTOR_UDIV => DefaultUdivBB node
      | BITVECTOR_UREM => DefaultUremBB node
      | BITVECTOR_SHL => DefaultShlBB node
      | BITVECTOR_LSHR => DefaultLshrBB node
      | BITVECTOR_ASHR => DefaultAshrBB node
      | BITVECTOR_ULTBV => DefaultUltbvBB node
      | BITVECTOR_SLTBV => DefaultSltbvBB node
      | BITVECTOR_ITE => DefaultIteBB node
      | BITVECTOR_EXTRACT _ _ => DefaultExtractBB node
      | BITVECTOR_SIGN_EXTEND _ => DefaultSignExtendBB node
      | BITVECTOR_NAND | BITVECTOR_NOR | BITVECTOR_SDIV | BITVECTOR_SREM | BITVECTOR_SMOD
      | BITVECTOR_REPEAT _ | BITVECTOR_ZERO_EXTEND _ | BITVECTOR_ROTATE_RIGHT _
      | BITVECTOR_ROTATE_LEFT _ => lift None
      | _ => DefaultVarBB node
      end
  | _ => DefaultVarBB node
  end.

(** ** Atoms *)

Definition DefaultEqBB (node : Node) : BB Node :=
  '(lhs, rhs) ← bothBB node; _ ← sameLength lhs rhs;
  bits_eq ← lift (zipWith mkIff lhs rhs);
  lift (mkAndList bits_eq).

(** The carry of [a + ~b + 1], an alternative to [DefaultUltBB]. *)
Fixpoint adderUltLoop (a not_b : Bits) (carry : Node) : option Node :=
  match a, not_b with
  | [], _ => Some carry
  | ai :: a, nbi :: not_b =>
      adderUltLoop a not_b (mkOr (mkAnd ai nbi) (mkAnd (mkXor ai nbi) carry))
  | _, [] => None
  end.

Definition AdderUltBB (node : Node) : BB Node :=
  '(a, b) ← bothBB node; _ ← sameLength a b;
  carry ← lift (adderUltLoop a (negateBits b) mkTrue);
  mret (mkNot carry).

Definition DefaultUltBB (node : Node) : BB Node :=
  '(a, b) ← bothBB node; _ ← sameLength a b; lift (uLessThanBB a b false).
Definition DefaultUleBB (node : Node) : BB Node :=
  '(a, b) ← bothBB node; _ ← sameLength a b; lift (uLessThanBB a b true).
Definition DefaultSltBB (node : Node) : BB Node :=
  '(a, b) ← bothBB node; _ ← sameLength a b; lift (sLessThanBB a b false).
Definition DefaultSleBB (node : Node) : BB Node :=
  '(a, b) ← bothBB node; _ ← sameLength a b; lift (sLessThanBB a b true).

(** [initAtomBBStrategies]. *)
Definition atomBBStrategy (node : Node) : BB Node :=
  match node with
  | mkNode EQUAL _ => DefaultEqBB node
  | mkNode BITVECTOR_ULT _ => DefaultUltBB node
  | mkNode BITVECTOR_ULE _ => DefaultUleBB node
  | mkNode BITVECTOR_SLT _ => DefaultSltBB node
  | mkNode BITVECTOR_SLE _ => DefaultSleBB node
  | _ => lift None
  end.

End strategies.

Section bitblaster.
Context `{!Gmp}.

(** [NodeBitblaster::bbTerm]; the fuel bounds the nesting of the calls. *)
Fixpoint bbTerm (fuel : nat) (node : Node) : BB Bits :=
  match fuel with
  | O => lift None
  | S fuel =>
      t ← lift (typeOf node);
      _ ← lift (assert (isBitVector t));
      st ← getState;
      match d_termCache st !! node with
      | Some bits => mret bits
      | None =>
          bits ← termBBStrategy (bbTerm fuel) node;
          size ← lift (getSize node);
          _ ← lift (assert (bool_decide (Z.of_nat (length bits) = size)));
          _ ← storeBBTerm node bits;
          mret bits
      end
  end.

(** [applyAtomBBStrategy]. *)
Definition applyAtomBBStrategy (node : Node) : BB Node :=
  atomBBStrategy (bbTerm (nsize node)) node.

(** The rewriter is another component. *)
Variable rewrite : Node → Node.

(** The formula for a rewritten atom. *)
Definition bbNormalized (normalized : Node) : BB Node :=
  match normalized with
  | mkConstBool _ | mkNode (BITVECTOR_BIT _) _ => mret normalized
  | _ => applyAtomBBStrategy normalized
  end.

Definition bbAtom (node : Node) : BB unit :=
  node ← lift (stripNot node);
  st ← getState;
  if hasBBAtom node st then mret ()
  else
    atom_bb ← bbNormalized (rewrite node);
    storeBBAtom node (rewrite atom_bb).

End bitblaster.
