(* ===== verification/BitblastCircuits.v ===== *)
(** The circuits of the bit-blaster compute the arithmetic they stand for: if
    the input bits have the values [xs], [ys], ..., the output bits have values
    whose number is the sum, the product, the quotient, ... of the numbers. *)
From stdpp Require Import base option list gmap numbers.
From S2P Require Import Prelude Integer Node TypeRules Semantics BvArith BitVectorUtil BvElim Bitblast.
Open Scope Z_scope.

Abbreviation bval := bools_value.

(** A formula, and a vector of them, in a valuation. *)
Definition evb (env : Env) (n : Node) (b : bool) : Prop := eval env n = Some (VBool b).
Definition ebits (env : Env) (bits : Bits) (bs : list bool) : Prop := Forall2 (evb env) bits bs.

(** ** Numbers and lists of bits *)

Lemma b2z_range b : 0 ≤ b2z b ≤ 1.
Proof. destruct b; simpl; lia. Qed.

Abbreviation len l := (Z.of_nat (length l)).

Lemma bval_app xs ys : bval (xs ++ ys) = bval xs + 2 ^ len xs * bval ys.
Proof.
  induction xs as [|x xs IH]; cbn [app bools_value length]; [rewrite Z.pow_0_r; lia|].
  rewrite Nat2Z.inj_succ, Z.pow_succ_r, IH by lia. lia.
Qed.

Lemma bval_negb bs : bval (negb <$> bs) = 2 ^ len bs - 1 - bval bs.
Proof.
  induction bs as [|b bs IH]; [done|]. cbn [fmap list_fmap bools_value length]. rewrite Nat2Z.inj_succ, Z.pow_succ_r by lia.
  change (list_fmap bool bool negb bs) with (negb <$> bs). rewrite IH. destruct b; simpl; lia.
Qed.

Lemma bval_replicate_false n : bval (replicate n false) = 0.
Proof. induction n as [|n IH]; [done|]. cbn [replicate bools_value]. rewrite IH. done. Qed.

Lemma bval_replicate_true n : bval (replicate n true) = 2 ^ Z.of_nat n - 1.
Proof.
  induction n as [|n IH]; [done|]. cbn [replicate bools_value]. rewrite IH, Nat2Z.inj_succ, Z.pow_succ_r by lia. simpl. lia.
Qed.

Lemma bval_inj xs ys : length xs = length ys → bval xs = bval ys → xs = ys.
Proof.
  revert ys. induction xs as [|x xs IH]; intros [|y ys] Hl Hv; try done. cbn [bools_value] in Hv. simpl in Hl.
  assert (x = y) as -> by (destruct x, y; simpl in *; (done || lia)). f_equal. apply IH; [lia|]. lia.
Qed.

Lemma bval_take k xs : (k ≤ length xs)%nat → bval (take k xs) = bval xs mod 2 ^ Z.of_nat k.
Proof.
  intros Hk. rewrite <- (take_drop k xs) at 2. rewrite bval_app, length_take, Nat.min_l by done.
  rewrite Z.mul_comm, Z.mod_add by (pose proof (pow2_pos (Z.of_nat k)); lia). symmetry. apply Z.mod_small.
  pose proof (bools_value_bound (take k xs)) as Hb. by rewrite length_take, Nat.min_l in Hb.
Qed.

Lemma bval_drop k xs : (k ≤ length xs)%nat → bval (drop k xs) = bval xs / 2 ^ Z.of_nat k.
Proof.
  intros Hk. rewrite <- (take_drop k xs) at 2. rewrite bval_app, length_take, Nat.min_l by done.
  rewrite Z.mul_comm, Z.div_add by (pose proof (pow2_pos (Z.of_nat k)); lia).
  rewrite Z.div_small; [done|]. pose proof (bools_value_bound (take k xs)) as Hb. by rewrite length_take, Nat.min_l in Hb.
Qed.

(** The low bit of a number modulo an even one. *)
Lemma mod_double b V M : 0 < M → (b2z b + 2 * V) mod (2 * M) = b2z b + 2 * (V mod M).
Proof.
  intros HM. symmetry. apply Z.mod_unique with (V / M).
  - left. pose proof (Z.mod_pos_bound V M HM). pose proof (b2z_range b). lia.
  - pose proof (Z.div_mod V M) as E. rewrite E at 1 by lia. lia.
Qed.

(** Adding above the low bits. *)
Lemma mod_high R P Q X : 0 < P → 0 < Q → R mod P + P * ((R / P + X) mod Q) = (R + P * X) mod (P * Q).
Proof.
  intros HP HQ. rewrite Z.rem_mul_r by lia. rewrite (Z.mul_comm P X), Z.mod_add, Z.div_add by lia. done.
Qed.

Lemma bval_take_S k xs b :
  xs !! k = Some b → bval (take (k + 1) xs) = bval (take k xs) + 2 ^ Z.of_nat k * b2z b.
Proof.
  intros E. pose proof (lookup_lt_Some _ _ _ E). rewrite Nat.add_1_r, (take_S_r _ _ b) by done.
  rewrite bval_app, length_take, Nat.min_l by lia. cbn [bools_value]. lia.
Qed.

Lemma bval_lookup xs i b : xs !! i = Some b → Z.testbit (bval xs) (Z.of_nat i) = b.
Proof. intros E. by rewrite bools_value_bits, E. Qed.

(** ** Formulas *)
Section formulas.
Context (env : Env).

Lemma evb_const b : evb env (mkConstBool b) b.
Proof. done. Qed.
Lemma evb_not n x : evb env n x → evb env (mkNot n) (negb x).
Proof. unfold evb. intros H. cbn. by rewrite H. Qed.
Lemma evb_and n m x y : evb env n x → evb env m y → evb env (mkAnd n m) (x && y).
Proof. unfold evb. intros H1 H2. cbn. rewrite H1. cbn. rewrite H2. cbn. by rewrite andb_true_r. Qed.
Lemma evb_or n m x y : evb env n x → evb env m y → evb env (mkOr n m) (x || y).
Proof. unfold evb. intros H1 H2. cbn. rewrite H1. cbn. rewrite H2. cbn. by rewrite orb_false_r. Qed.
Lemma evb_xor n m x y : evb env n x → evb env m y → evb env (mkXor n m) (xorb x y).
Proof. unfold evb. intros H1 H2. cbn. rewrite H1. cbn. by rewrite H2. Qed.
Lemma evb_iff n m x y : evb env n x → evb env m y → evb env (mkIff n m) (Bool.eqb x y).
Proof. unfold evb. intros H1 H2. cbn. rewrite H1. cbn. rewrite H2. cbn. by destruct x, y. Qed.
Lemma evb_ite c n m z x y : evb env c z → evb env n x → evb env m y → evb env (mkIte c n m) (if z then x else y).
Proof. unfold evb. intros H0 H1 H2. cbn. rewrite H0. cbn. rewrite H1. cbn. rewrite H2. cbn. by destruct z. Qed.

Lemma evb_eq n x y : evb env n x → x = y → evb env n y.
Proof. by intros ? <-. Qed.

Lemma as_bools_vbool bs : as_bools (VBool <$> bs) = Some bs.
Proof. induction bs as [|b bs IH]; [done|]. cbn. change (list_fmap bool value VBool bs) with (VBool <$> bs). by rewrite IH. Qed.

Lemma mapM_ebits bits bs : ebits env bits bs → mapM (eval env) bits = Some (VBool <$> bs).
Proof. induction 1 as [|n b bits bs Hn _ IH]; [done|]. cbn. rewrite Hn. cbn. by rewrite IH. Qed.

Lemma mkAndList_spec ns bs :
  ebits env ns bs → ns ≠ [] → ∃ n, mkAndList ns = Some n ∧ evb env n (forallb id bs).
Proof.
  intros HF Hne. destruct HF as [|n b ns bs Hn HF]; [done|]. destruct HF as [|n2 b2 ns bs Hn2 HF].
  - exists n. split; [done|]. cbn. by rewrite andb_true_r.
  - eexists. split; [done|]. unfold evb. cbn [eval].
    rewrite (mapM_ebits (n :: n2 :: ns) (b :: b2 :: bs)) by (by repeat constructor).
    cbn [mbind option_bind kind_eval]. by rewrite as_bools_vbool.
Qed.

(** ** Vectors *)

Lemma ebits_lookup bits bs i b : ebits env bits bs → bs !! i = Some b → ∃ n, bits !! i = Some n ∧ evb env n b.
Proof. intros HF Hi. destruct (Forall2_lookup_r _ _ _ _ _ HF Hi) as (n&?&?). by exists n. Qed.

Lemma ebits_lookup_l bits bs i n : ebits env bits bs → bits !! i = Some n → ∃ b, bs !! i = Some b ∧ evb env n b.
Proof. intros HF Hi. destruct (Forall2_lookup_l _ _ _ _ _ HF Hi) as (b&?&?). by exists b. Qed.

Lemma ebits_length bits bs : ebits env bits bs → length bits = length bs.
Proof. apply Forall2_length. Qed.

Lemma negateBits_spec bits bs : ebits env bits bs → ebits env (negateBits bits) (negb <$> bs).
Proof. induction 1; constructor; [by apply evb_not|done]. Qed.

Lemma makeZero_spec n : ebits env (makeZero n) (replicate n false).
Proof. unfold makeZero. induction n; constructor; done. Qed.

Lemma zipWith_spec (f : Node → Node → Node) (g : bool → bool → bool) x y xs ys :
  (∀ a b p q, evb env a p → evb env b q → evb env (f a b) (g p q)) →
  ebits env x xs → ebits env y ys → length xs = length ys →
  ∃ z, zipWith f x y = Some z ∧ ebits env z (zip_with g xs ys).
Proof.
  intros Hf HX. revert y ys. induction HX as [|a p x xs Ha _ IH]; intros y ys HY Hl.
  - destruct HY; [|done]. exists []. split; [done|constructor].
  - destruct HY as [|b q y ys Hb HY]; [done|]. destruct (IH y ys HY) as (z&Hz&HF); [simpl in Hl; lia|].
    exists (f a b :: z). cbn. rewrite Hz. split; [done|]. constructor; [by apply Hf|done].
Qed.

Lemma isZero_spec bits bs : ebits env bits bs → isZero bits = true → bval bs = 0.
Proof.
  induction 1 as [|n b bits bs Hn _ IH]; [done|]. cbn. intros [->%bool_decide_eq_true Hz]%andb_true_iff.
  unfold evb in Hn. cbn in Hn. injection Hn as <-. rewrite IH by done. done.
Qed.

(** ** The adder *)

Lemma adderLoop_spec a xs : ∀ b ys res rs carry c,
  ebits env a xs → ebits env b ys → length xs = length ys → ebits env res rs → evb env carry c →
  ∃ res' carry' rs' c', adderLoop a b res carry = Some (res', carry') ∧ ebits env res' (rs ++ rs') ∧
    evb env carry' c' ∧ length rs' = length xs ∧ bval rs' + 2 ^ len xs * b2z c' = bval xs + bval ys + b2z c.
Proof.
  intros b ys res rs carry c HA. revert b ys res rs carry c.
  induction HA as [|ai x a xs Hx _ IH]; intros b ys res rs carry c HB Hl HR HC.
  - destruct HB; [|done]. exists res, carry, [], c. rewrite app_nil_r. cbn [length bools_value].
    split_and!; [done..|]. cbn [Z.of_nat]. rewrite Z.pow_0_r. lia.
  - destruct HB as [|bi y b ys Hy HB]; [done|]. cbn [adderLoop].
    set (c1 := (x && y) || (xorb x y && c)). destruct (IH b ys (res ++ [mkXor (mkXor ai bi) carry]) (rs ++ [xorb (xorb x y) c])
      (mkOr (mkAnd ai bi) (mkAnd (mkXor ai bi) carry)) c1 HB) as (res'&carry'&rs'&c'&->&HR'&HC'&Hl'&Hv).
    { simpl in Hl. lia. }
    { apply Forall2_app; [done|]. constructor; [|constructor]. by repeat apply evb_xor. }
    { apply evb_or; apply evb_and; [done..|by apply evb_xor|done]. }
    exists res', carry', (xorb (xorb x y) c :: rs'), c'. rewrite cons_middle, app_assoc.
    split_and!; [done..|simpl; lia|]. cbn [bools_value length]. rewrite Nat2Z.inj_succ, Z.pow_succ_r by lia.
    subst c1. destruct x, y, c; simpl in *; lia.
Qed.

Lemma adder_spec a b xs ys carry c :
  ebits env a xs → ebits env b ys → length xs = length ys → evb env carry c →
  ∃ res carry' rs c', rippleCarryAdder a b carry = Some (res, carry') ∧ ebits env res rs ∧ evb env carry' c' ∧
    length rs = length xs ∧ bval rs = (bval xs + bval ys + b2z c) mod 2 ^ len xs ∧
    c' = bool_decide (2 ^ len xs ≤ bval xs + bval ys + b2z c).
Proof.
  intros HA HB Hl HC. unfold rippleCarryAdder. rewrite (ebits_length _ _ HA), (ebits_length _ _ HB), bool_decide_true by done.
  cbn [assert mbind option_bind].
  destruct (adderLoop_spec a xs b ys [] [] carry c HA HB Hl (Forall2_nil _) HC) as (res&carry'&rs&c'&->&HR&HC'&Hlr&Hv).
  exists res, carry', rs, c'. pose proof (bools_value_bound rs) as Hb. rewrite Hlr in Hb. split_and!; [done..| |].
  - rewrite <- Hv. rewrite Z.mul_comm, Z.mod_add by lia. by rewrite Z.mod_small.
  - case_bool_decide; destruct c'; simpl in Hv; (done || lia).
Qed.

(** ** The multiplier *)

Lemma multiplierRow_spec bk k a xs res rs carry c :
  evb env bk k → ebits env a xs → ebits env res rs → (length rs ≤ length xs)%nat → evb env carry c →
  ∃ row ws, multiplierRow bk a res carry = Some row ∧ ebits env row ws ∧ length ws = length rs ∧
    bval ws = (bval rs + b2z k * bval xs + b2z c) mod 2 ^ len rs.
Proof.
  intros Hk HA HR. revert a xs HA carry c. induction HR as [|r x res rs Hr HR IH]; intros a xs HA carry c Hl HC.
  - exists [], []. split_and!; [done|constructor|done|]. simpl length. rewrite Z.pow_0_r. symmetry. apply Z.mod_1_r.
  - destruct HA as [|aj y a xs Hy HA]; [simpl in Hl; lia|]. cbn [multiplierRow].
    set (p := k && y). set (c1 := (x && p) || (xorb x p && c)).
    assert (evb env (mkAnd bk aj) p) as Hp by (by apply evb_and).
    destruct (IH a xs HA (mkOr (mkAnd r (mkAnd bk aj)) (mkAnd (mkXor r (mkAnd bk aj)) carry)) c1) as (row&ws&->&HW&Hlw&Hv).
    { simpl in Hl. lia. }
    { apply evb_or; apply evb_and; [done..|by apply evb_xor|done]. }
    exists (mkXor (mkXor r (mkAnd bk aj)) carry :: row), (xorb (xorb x p) c :: ws). cbn [mbind option_bind].
    split_and!; [done| |simpl; lia|].
    + constructor; [by repeat apply evb_xor|done].
    + cbn [bools_value length]. rewrite Hv, Nat2Z.inj_succ, Z.pow_succ_r by lia.
      set (V := bval rs + b2z k * bval xs + b2z c1). pose proof (pow2_pos (len rs)).
      assert (b2z x + 2 * bval rs + b2z k * (b2z y + 2 * bval xs) + b2z c = b2z (xorb (xorb x p) c) + 2 * V) as ->.
      { subst V c1 p. destruct x, k, y, c; simpl; lia. }
      rewrite mod_double by (done || lia). done.
Qed.

Lemma mulAnd_spec b0 y a xs :
  evb env b0 y → ebits env a xs → ebits env (mkAnd b0 <$> a) (andb y <$> xs).
Proof. intros Hy. induction 1; constructor; [by apply evb_and|done]. Qed.

Lemma bval_and y xs : bval (andb y <$> xs) = b2z y * bval xs.
Proof.
  induction xs as [|x xs IH]; [cbn; lia|]. cbn [fmap list_fmap bools_value].
  change (list_fmap bool bool (andb y) xs) with (andb y <$> xs). rewrite IH. destruct y, x; simpl; lia.
Qed.

Lemma multiplier_spec a b xs ys :
  ebits env a xs → ebits env b ys → length xs = length ys → xs ≠ [] →
  ∃ res rs, shiftAddMultiplier a b = Some res ∧ ebits env res rs ∧ length rs = length xs ∧
    bval rs = (bval xs * bval ys) mod 2 ^ len xs.
Proof.
  intros HA HB Hl Hne. assert (0 < length xs)%nat as Hn by (destruct xs; [done|simpl; lia]). remember (length xs) as n eqn:En.
  unfold shiftAddMultiplier. destruct (lookup_lt_is_Some_2 ys 0) as [y0 Hy0]; [lia|].
  destruct (ebits_lookup _ _ _ _ HB Hy0) as (b0&->&Hb0). cbn [mbind option_bind].
  destruct (for_up_inv (λ k res, ∃ rs, ebits env res rs ∧ length rs = n ∧
      bval rs = (bval xs * bval (take k ys)) mod 2 ^ Z.of_nat n)
    (λ k res, bk ← b !! k; row ← multiplierRow bk a (drop k res) mkFalse; Some (take k res ++ row))
    (n - 1) 1 (mkAnd b0 <$> a)) as (res&Hres&rs&HR&Hlr&Hv).
  - exists (andb y0 <$> xs). split_and!; [by apply mulAnd_spec|by rewrite length_fmap, En|].
    rewrite bval_and. destruct ys as [|y ys]; [done|]. injection Hy0 as ->. cbn [take]. rewrite take_0. cbn [bools_value].
    pose proof (bools_value_bound xs) as Hb. rewrite <- En in Hb. rewrite Z.mod_small; destruct y0; simpl; lia.
  - intros k res Hk (rs&HR&Hlr&Hv). destruct (lookup_lt_is_Some_2 ys k) as [y Hy]; [lia|].
    destruct (ebits_lookup _ _ _ _ HB Hy) as (bk&->&Hbk). cbn [mbind option_bind].
    destruct (multiplierRow_spec bk y a xs (drop k res) (drop k rs) mkFalse false) as (row&ws&->&HW&Hlw&Hvw);
      [done|done|by apply Forall2_drop|rewrite length_drop; lia|done|].
    eexists. split; [done|]. rewrite length_drop in Hlw, Hvw. exists (take k rs ++ ws). split_and!.
    + apply Forall2_app; [by apply Forall2_take|done].
    + rewrite length_app, length_take. lia.
    + rewrite bval_app, length_take, Nat.min_l, bval_take, Hvw, bval_drop, (bval_take_S _ _ y) by (done || lia).
      rewrite Z.add_0_r, mod_high by (apply pow2_pos; lia).
      replace (Z.of_nat n) with (Z.of_nat k + Z.of_nat (length rs - k)) in * by lia. rewrite <- pow2_add by lia.
      rewrite Hv. rewrite Z.add_mod_idemp_l by (pose proof (pow2_pos (Z.of_nat k + Z.of_nat (length rs - k))); lia).
      f_equal. lia.
  - assert (length (mkAnd b0 <$> a) = n) as El by (by rewrite length_fmap, (ebits_length _ _ HA), En).
    rewrite El. exists res, rs. split_and!; [done..|]. rewrite Hv. do 3 f_equal. apply take_ge. lia.
Qed.

(** ** Comparisons *)

(** The order of two numbers from their high bits, then from the low ones. *)
Lemma lt_high (orEqual : bool) k L M x y :
  0 ≤ k → 0 ≤ L < 2 ^ k → 0 ≤ M < 2 ^ k →
  (Bool.eqb x y && (if orEqual then bool_decide (L ≤ M) else bool_decide (L < M))) || (negb x && y) =
  (if orEqual then bool_decide (L + 2 ^ k * b2z x ≤ M + 2 ^ k * b2z y) else bool_decide (L + 2 ^ k * b2z x < M + 2 ^ k * b2z y)).
Proof.
  intros Hk HL HM. destruct orEqual, x, y; cbn [Bool.eqb negb andb orb b2z]; rewrite ?orb_false_r, ?orb_true_r;
    repeat case_bool_decide; (done || lia).
Qed.

Lemma uLessThan_spec a b xs ys (orEqual : bool) :
  ebits env a xs → ebits env b ys → length xs = length ys → xs ≠ [] →
  ∃ n, uLessThanBB a b orEqual = Some n ∧
    evb env n (if orEqual then bool_decide (bval xs ≤ bval ys) else bool_decide (bval xs < bval ys)).
Proof.
  intros HA HB Hl Hne. assert (0 < length xs)%nat as Hn by (destruct xs; [done|simpl; lia]).
  unfold uLessThanBB. rewrite (ebits_length _ _ HA), (ebits_length _ _ HB), bool_decide_true by lia.
  destruct (lookup_lt_is_Some_2 xs 0) as [x0 Hx0]; [lia|]. destruct (lookup_lt_is_Some_2 ys 0) as [y0 Hy0]; [lia|].
  destruct (ebits_lookup _ _ _ _ HA Hx0) as (a0&->&Ha0), (ebits_lookup _ _ _ _ HB Hy0) as (b0&->&Hb0).
  cbn [assert mbind option_bind].
  edestruct (for_up_inv (λ k res, evb env res (if orEqual then bool_decide (bval (take k xs) ≤ bval (take k ys))
                                              else bool_decide (bval (take k xs) < bval (take k ys)))))
    as (res&->&Hv); [| |exists res; split; [done|]].
  - destruct xs as [|x xs], ys as [|y ys]; try done. injection Hx0 as ->. injection Hy0 as ->.
    cbn [take]. rewrite !take_0. cbn [bools_value].
    destruct orEqual; (eapply evb_eq;
      [first [apply evb_or; [apply evb_and; [by apply evb_not|done]|by apply evb_iff] | apply evb_and; [by apply evb_not|done]]|]);
      destruct x0, y0; done.
  - intros k res Hk Hv. destruct (lookup_lt_is_Some_2 xs k) as [x Hx]; [lia|].
    destruct (lookup_lt_is_Some_2 ys k) as [y Hy]; [lia|].
    destruct (ebits_lookup _ _ _ _ HA Hx) as (ak&->&Hak), (ebits_lookup _ _ _ _ HB Hy) as (bk&->&Hbk).
    cbn [mbind option_bind]. eexists. split; [done|].
    eapply evb_eq; [apply evb_or; apply evb_and; [by apply evb_iff|done|by apply evb_not|done]|].
    rewrite (bval_take_S _ _ x), (bval_take_S _ _ y) by done.
    pose proof (bools_value_bound (take k xs)) as B1. pose proof (bools_value_bound (take k ys)) as B2.
    rewrite length_take, Nat.min_l in B1, B2 by lia. apply lt_high; [lia|done|done].
  - replace (1 + (length xs - 1))%nat with (length xs) in Hv by lia. by rewrite !take_ge in Hv by lia.
Qed.

Lemma mapM_lookup {A} (l : list A) k n : (k + n ≤ length l)%nat → mapM (λ i, l !! i) (seq k n) = Some (take n (drop k l)).
Proof.
  revert k. induction n as [|n IH]; intros k Hk; [done|]. cbn [seq mapM].
  destruct (lookup_lt_is_Some_2 l k) as [x Hx]; [lia|]. rewrite Hx, IH by lia. cbn.
  by rewrite (drop_S l x k) by done.
Qed.

Lemma extractBits_spec {b : Bits} lo hi :
  (lo ≤ hi < length b)%nat → extractBits b lo hi = Some (take (hi + 1 - lo) (drop lo b)).
Proof.
  intros H. unfold extractBits. rewrite bool_decide_true by lia. cbn [assert mbind option_bind]. apply mapM_lookup. lia.
Qed.

(** The two's complement value of a list of bits. *)
Lemma bval_signed xs b n :
  length xs = n → signed (Z.of_nat n + 1) (bval (xs ++ [b])) = bval xs - 2 ^ Z.of_nat n * b2z b.
Proof.
  intros <-. rewrite bval_app. unfold signed. pose proof (bools_value_bound xs). cbn [bools_value].
  rewrite Z.add_simpl_r, (Z.add_comm _ 1), Z.pow_add_r by lia. destruct (decide _); destruct b; simpl in *; lia.
Qed.

Lemma split_last {A} (l : list A) : l ≠ [] → ∃ l' x, l = l' ++ [x] ∧ length l = (length l' + 1)%nat.
Proof.
  intros Hne. destruct l as [|x l _] using rev_ind; [done|]. exists l, x. by rewrite length_app.
Qed.

(** Swapping the roles of the sign bits turns the unsigned order into the
    signed one. *)
Lemma lt_sign (orEqual : bool) k L M x y :
  0 ≤ k → 0 ≤ L < 2 ^ k → 0 ≤ M < 2 ^ k →
  (Bool.eqb x y && (if orEqual then bool_decide (L ≤ M) else bool_decide (L < M))) || (x && negb y) =
  (if orEqual then bool_decide (L - 2 ^ k * b2z x ≤ M - 2 ^ k * b2z y) else bool_decide (L - 2 ^ k * b2z x < M - 2 ^ k * b2z y)).
Proof.
  intros Hk HL HM. destruct orEqual, x, y; cbn [Bool.eqb negb andb orb b2z]; rewrite ?orb_false_r, ?orb_true_r;
    repeat case_bool_decide; (done || lia).
Qed.

Lemma sLessThan_spec a b xs ys (orEqual : bool) :
  ebits env a xs → ebits env b ys → length xs = length ys → xs ≠ [] →
  ∃ n, sLessThanBB a b orEqual = Some n ∧
    evb env n (if orEqual then bool_decide (signed (len xs) (bval xs) ≤ signed (len xs) (bval ys))
               else bool_decide (signed (len xs) (bval xs) < signed (len xs) (bval ys))).
Proof.
  intros HA HB Hl Hne. destruct (split_last xs) as (xs'&x&->&Hlx); [done|].
  destruct (split_last ys) as (ys'&y&->&Hly); [by destruct ys; [destruct xs'|]|].
  apply Forall2_app_inv_r in HA as (a'&an&HA'&HAn&->), HB as (b'&bn&HB'&HBn&->).
  apply list.Forall2_cons_inv_r in HAn as (ax&an'&Hax&HAn&->), HBn as (bx&bn'&Hbx&HBn&->).
  apply Forall2_nil_inv_r in HAn as ->, HBn as ->. pose proof (ebits_length _ _ HA') as La. pose proof (ebits_length _ _ HB') as Lb.
  rewrite Hlx, Nat2Z.inj_add, !bval_signed by lia.
  pose proof (bools_value_bound xs') as B1. pose proof (bools_value_bound ys') as B2.
  replace (length ys') with (length xs') in * by lia.
  unfold sLessThanBB. rewrite bool_decide_true by (rewrite !length_app; simpl; lia). cbn [assert mbind option_bind].
  rewrite (length_app a'). cbn [length]. rewrite Nat.add_sub. destruct (decide _) as [E|E].
  - destruct xs', ys', a', b'; try (rewrite ?length_app in *; simpl in *; lia). cbn [app lookup list_lookup mbind option_bind].
    destruct orEqual; (eexists; split; [done|]; eapply evb_eq;
      [first [apply evb_or; [by apply evb_iff|apply evb_and; [done|by apply evb_not]] | apply evb_and; [done|by apply evb_not]]|]);
      destruct x, y; done.
  - rewrite !extractBits_spec by (rewrite ?length_app; simpl; lia). cbn [mbind option_bind]. rewrite !drop_0.
    rewrite !take_app_length' by lia.
    destruct (uLessThan_spec a' b' xs' ys' orEqual) as (u&->&Hu); [done|done|rewrite !length_app in Hl; simpl in Hl; lia|by intros ->; simpl in *; lia|].
    cbn [mbind option_bind]. rewrite list_lookup_middle by lia. cbn [mbind option_bind].
    rewrite list_lookup_middle by lia. cbn [mbind option_bind]. eexists. split; [done|].
    eapply evb_eq; [apply evb_or; apply evb_and; [by apply evb_iff|done|done|by apply evb_not]|].
    apply lt_sign; [lia|done|done].
Qed.
End formulas.
