(* ===== verification/BitblastShift.v ===== *)
(** The circuits that move bits: the shifts by a constant in place, the
    division, which is built on them, and the barrel shifter. *)
From stdpp Require Import base option list gmap numbers.
From S2P Require Import Prelude Integer Node TypeRules Semantics BvArith BitVectorUtil BvElim Bitblast BitblastCircuits.
Open Scope Z_scope.

(** ** Shifts in place *)
Section inplace.
Open Scope nat_scope.
Context (bits : Bits) (amount : nat).
Hypothesis Ha : amount ≤ length bits.

Lemma copyBit_spec i j (l : Bits) b : i < length l → l !! j = Some b → copyBit i j l = Some (<[i := b]> l).
Proof. intros [x Hx]%lookup_lt_is_Some_2 Hj. unfold copyBit. by rewrite Hj; cbn; rewrite Hx. Qed.

Lemma setFalse_spec i (l : Bits) : i < length l → setFalse i l = Some (<[i := mkFalse]> l).
Proof. intros [x Hx]%lookup_lt_is_Some_2. unfold setFalse. by rewrite Hx. Qed.

(** Setting a stretch of bits to false. *)
Lemma setFalse_loop i l :
  i + amount ≤ length l →
  ∃ l', for_up amount i setFalse l = Some l' ∧ length l' = length l ∧
    ∀ j, l' !! j = if decide (i ≤ j < i + amount) then Some mkFalse else l !! j.
Proof.
  intros Hi. destruct (for_up_inv (λ k l', length l' = length l ∧
    ∀ j, l' !! j = if decide (i ≤ j < k) then Some mkFalse else l !! j) setFalse amount i l) as (l'&Hl'&Hlen&Hj).
  - split; [done|]. intros j. rewrite decide_False by lia. done.
  - intros k l' Hk [Hlen Hj]. rewrite setFalse_spec by lia. eexists. split; [done|]. split; [by rewrite length_insert|].
    intros j. destruct (decide (j = k)) as [->|Hne].
    + rewrite list_lookup_insert_eq by lia. by rewrite decide_True by lia.
    + rewrite list_lookup_insert_ne, Hj by done. apply decide_ext. lia.
  - by exists l'.
Qed.

Lemma rshift_spec : rshift bits amount = Some (drop amount bits ++ replicate amount mkFalse).
Proof.
  unfold rshift. rewrite bool_decide_true by done. cbn [assert mbind option_bind].
  destruct (for_up_inv (λ k l, length l = length bits ∧ ∀ j, l !! j = if decide (j < k) then bits !! (j + amount) else bits !! j)
    (λ i l, copyBit i (i + amount) l) (length bits - amount) 0 bits) as (l&->&Hlen&Hj).
  - by split.
  - intros k l Hk [Hlen Hj]. destruct (lookup_lt_is_Some_2 bits (k + amount)) as [b Hb]; [lia|].
    rewrite (copyBit_spec _ _ _ b); [|lia|by rewrite Hj, decide_False by lia].
    eexists. split; [done|]. split; [by rewrite length_insert|]. intros j. destruct (decide (j = k)) as [->|Hne].
    + rewrite list_lookup_insert_eq by lia. by rewrite decide_True by lia.
    + rewrite list_lookup_insert_ne, Hj by done. apply decide_ext. lia.
  - cbn [mbind option_bind]. destruct (setFalse_loop (length bits - amount) l) as (l'&->&Hlen'&Hj'); [lia|]. f_equal.
    apply list_eq. intros j. rewrite Hj', Hj. destruct (decide (j < length bits - amount)).
    + rewrite decide_False, decide_True, lookup_app_l, lookup_drop by (rewrite ?length_drop; lia). f_equal. lia.
    + rewrite lookup_app_r, length_drop by (rewrite length_drop; lia). destruct (decide (j < length bits)).
      * rewrite decide_True, lookup_replicate_2 by lia. done.
      * rewrite decide_False, decide_False, lookup_ge_None_2 by lia. symmetry. apply lookup_ge_None_2. rewrite length_replicate. lia.
Qed.

Lemma lshift_loop m : ∀ l : Bits,
  length l = length bits → amount + m ≤ length bits →
  (∀ j, l !! j = if decide (amount + m ≤ j < length bits) then bits !! (j - amount) else bits !! j) →
  ∃ l', for_down m (amount + m - 1) (λ i l, copyBit i (i - amount) l) l = Some l' ∧ length l' = length bits ∧
    ∀ j, l' !! j = if decide (amount ≤ j < length bits) then bits !! (j - amount) else bits !! j.
Proof.
  induction m as [|m IH]; intros l Hlen Hm Hj.
  - exists l. split; [done|]. split; [done|]. intros j. rewrite Hj. apply decide_ext. lia.
  - cbn [for_down]. destruct (lookup_lt_is_Some_2 bits (amount + S m - 1 - amount)) as [b Hb]; [lia|].
    destruct (decide (amount = 0)) as [E0|E0].
    + rewrite (copyBit_spec _ _ _ b); [|lia|rewrite Hj; case_decide; [|done]; lia]. cbn [mbind option_bind].
      replace (amount + S m - 1 - 1) with (amount + m - 1) by lia. apply IH; [by rewrite length_insert|lia|].
      intros j. assert (l = bits) as -> by (apply list_eq; intros k; rewrite Hj; case_decide; [f_equal; lia|done]).
      rewrite list_insert_id by (rewrite <- Hb; f_equal; lia). case_decide; [f_equal; lia|done].
    + rewrite (copyBit_spec _ _ _ b); [|lia|by rewrite Hj, decide_False by lia]. cbn [mbind option_bind].
      replace (amount + S m - 1 - 1) with (amount + m - 1) by lia. apply IH; [by rewrite length_insert|lia|].
      intros j. destruct (decide (j = amount + S m - 1)) as [->|Hne].
      * rewrite list_lookup_insert_eq by lia. by rewrite decide_True by lia.
      * rewrite list_lookup_insert_ne, Hj by done. apply decide_ext. lia.
Qed.

Lemma lshift_spec : lshift bits amount = Some (replicate amount mkFalse ++ take (length bits - amount) bits).
Proof.
  unfold lshift. destruct (lshift_loop (length bits - amount) bits) as (l&E&Hlen&Hj); [done|lia| |].
  { intros j. rewrite decide_False by lia. done. }
  replace (amount + (length bits - amount) - 1) with (length bits - 1) in E by lia. rewrite E. cbn [mbind option_bind].
  destruct (setFalse_loop 0 l) as (l'&->&Hlen'&Hj'); [lia|]. f_equal.
  apply list_eq. intros j. rewrite Hj', Hj. destruct (decide (j < amount)).
  - rewrite decide_True, lookup_app_l, lookup_replicate_2 by (rewrite ?length_replicate; lia). done.
  - rewrite decide_False, lookup_app_r, length_replicate by (rewrite ?length_replicate; lia).
    destruct (decide (j < length bits)); [by rewrite decide_True, lookup_take_lt by lia|].
    rewrite decide_False, lookup_take_ge by lia. apply lookup_ge_None_2. lia.
Qed.
End inplace.

(** ** Division *)
Section division.
Context (env : Env).

Lemma ebits_replicate n : ebits env (replicate n mkFalse) (replicate n false).
Proof. apply makeZero_spec. Qed.

(** Halving and doubling. *)
Lemma half_spec a xs :
  ebits env a xs → xs ≠ [] →
  ∃ a' xs', rshift a 1 = Some a' ∧ ebits env a' xs' ∧ length xs' = length xs ∧ bval xs' = bval xs / 2.
Proof.
  intros HA Hne. assert (1 ≤ length xs)%nat by (destruct xs; [done|simpl; lia]).
  rewrite rshift_spec by (by rewrite (ebits_length _ _ _ HA)). eexists _, (drop 1 xs ++ replicate 1 false). split; [done|]. split_and!.
  - apply Forall2_app; [by apply Forall2_drop|apply ebits_replicate].
  - rewrite length_app, length_drop, length_replicate. lia.
  - rewrite bval_app, bval_drop, bval_replicate_false by done. change (2 ^ Z.of_nat 1) with 2. lia.
Qed.

Lemma double_spec a xs :
  ebits env a xs → xs ≠ [] →
  ∃ a' xs', lshift a 1 = Some a' ∧ ebits env a' xs' ∧ length xs' = length xs ∧ bval xs' = wrap (len xs) (2 * bval xs) ∧ xs' !! 0%nat = Some false.
Proof.
  intros HA Hne. assert (1 ≤ length xs)%nat by (destruct xs; [done|simpl; lia]).
  rewrite lshift_spec by (by rewrite (ebits_length _ _ _ HA)). rewrite (ebits_length _ _ _ HA).
  eexists _, (replicate 1 false ++ take (length xs - 1) xs). split; [done|]. split_and!.
  - apply Forall2_app; [apply ebits_replicate|by apply Forall2_take].
  - rewrite length_app, length_take, length_replicate. lia.
  - rewrite bval_app, bval_take, bval_replicate_false by lia. change (2 ^ len (replicate 1 false)) with 2.
    unfold wrap. replace (2 ^ len xs) with (2 * 2 ^ Z.of_nat (length xs - 1)).
    + rewrite Z.mul_mod_distr_l by (try apply Z.pow_nonzero; lia). lia.
    + rewrite <- (Z.pow_succ_r 2) by lia. f_equal. lia.
  - done.
Qed.

(** The subtraction [x - y] and its carry, which is that [y] is not larger. *)
Lemma minus_spec a b xs ys :
  ebits env a xs → ebits env b ys → length xs = length ys →
  ∃ d carry ds c, rippleCarryAdder a (negateBits b) mkTrue = Some (d, carry) ∧ ebits env d ds ∧ evb env carry c ∧
    length ds = length xs ∧ bval ds = wrap (len xs) (bval xs - bval ys) ∧ c = bool_decide (bval ys ≤ bval xs).
Proof.
  intros HA HB Hl. destruct (adder_spec env a (negateBits b) xs (negb <$> ys) mkTrue true) as (d&carry&ds&c&E&HD&HC&Hld&Hv&Hc);
    [done|by apply negateBits_spec|by rewrite length_fmap|done|].
  exists d, carry, ds, c. rewrite bval_negb, <- Hl in Hv, Hc. split_and!; [done..| |].
  - rewrite Hv. apply wrap_congr with 1; [lia|]. simpl b2z. lia.
  - rewrite Hc. apply bool_decide_ext. simpl b2z. lia.
Qed.

Lemma choose_spec cond c x y xs ys :
  evb env cond c → ebits env x xs → ebits env y ys → length xs = length ys →
  ∃ z zs, zipWith (mkIte cond) x y = Some z ∧ ebits env z zs ∧ length zs = length xs ∧
    bval zs = if c then bval xs else bval ys.
Proof.
  intros HC HX HY Hl. destruct (zipWith_spec env (mkIte cond) (λ p q, if c then p else q) x y xs ys) as (z&Hz&HF); [|done..|].
  { intros. by apply evb_ite. }
  eexists z, _. split_and!; [done..| |]; [rewrite length_zip_with; lia|]. destruct c.
  - f_equal. clear -Hl. revert ys Hl. induction xs as [|x xs IH]; intros [|y ys] Hl; simpl in *; try (done || lia). f_equal. apply IH. lia.
  - f_equal. clear -Hl. revert ys Hl. induction xs as [|x xs IH]; intros [|y ys] Hl; simpl in *; try (done || lia). f_equal. apply IH. lia.
Qed.

(** One step of the division by hand: from the quotient and the remainder of
    [A / 2] to those of [A]. *)
Lemma divide_step A B : 0 ≤ A → 0 < B →
  let q := A / 2 / B in let r := 2 * ((A / 2) mod B) + A mod 2 in
  A / B = 2 * q + (if decide (r < B) then 0 else 1) ∧ A mod B = if decide (r < B) then r else r - B.
Proof.
  intros HA HB q r. pose proof (Z.div_mod A 2). pose proof (Z.div_mod (A / 2) B).
  pose proof (Z.mod_pos_bound A 2). pose proof (Z.mod_pos_bound (A / 2) B).
  assert (A = B * (2 * q) + r) as E by (subst q r; lia).
  destruct (decide (r < B)).
  - split; symmetry; [apply Z.div_unique_pos with r | apply Z.mod_unique_pos with (2 * q)]; subst r; lia.
  - split; symmetry; [apply Z.div_unique_pos with (r - B) | apply Z.mod_unique_pos with (2 * q + 1)]; subst r; lia.
Qed.

Lemma bval_set0 xs b : xs !! 0%nat = Some false → bval (<[0%nat := b]> xs) = bval xs + b2z b.
Proof. destruct xs as [|x xs]; [done|]. intros [= ->]. cbn [insert list_insert bools_value b2z]. lia. Qed.

Lemma maskBits_spec cond c x xs : evb env cond c → ebits env x xs →
  ebits env ((λ q, mkIte cond mkFalse q) <$> x) ((λ q, if c then false else q) <$> xs).
Proof. intros HC. induction 1; constructor; [by apply evb_ite|done]. Qed.

Lemma bval_mask (c : bool) xs : bval ((λ q, if c then false else q) <$> xs) = if c then 0 else bval xs.
Proof. destruct c; [|by rewrite list_fmap_id]. induction xs as [|x xs IH]; [done|]. cbn in *. by rewrite IH. Qed.

Lemma isZero_nonempty a xs : ebits env a xs → isZero a = false → xs ≠ [].
Proof. intros HA Hz ->. apply Forall2_nil_inv_r in HA as ->. done. Qed.

(** What the step computes, from what its parts compute. *)
Lemma divider_step n A B Q R R3 R5 R7 x0 :
  0 ≤ n → 0 ≤ A < 2 ^ n → 0 < B → x0 = A mod 2 →
  Q = wrap n (2 * (A / 2 / B)) → R = wrap n (2 * ((A / 2) mod B)) → R3 = (R + 0 + x0) mod 2 ^ n →
  R5 = (if negb (bool_decide (B ≤ R3)) then R3 else wrap n (R3 - B)) →
  R7 = (if negb (bool_decide (B ≤ A)) then A else R5) →
  (if negb (bool_decide (B ≤ A)) then 0 else Q + b2z (bool_decide (B ≤ R3))) = A / B ∧ R7 = A mod B.
Proof.
  intros Hn HA HB Hx HQ HR HR3 HR5 HR7. destruct (divide_step A B) as [Eq Er]; [lia|lia|].
  pose proof (Z.div_mod A 2) as D1. pose proof (Z.mod_pos_bound A 2) as M1.
  pose proof (Z.mod_pos_bound (A / 2) B HB) as M2. pose proof (Z.mod_le (A / 2) B) as M3. pose proof (Z.div_pos (A / 2) B) as M4.
  pose proof (Z.div_le_upper_bound (A / 2) B (A / 2)) as M5.
  assert (0 ≤ A / 2) as H2 by lia. specialize (M3 H2 HB). specialize (M4 H2 HB).
  assert (A / 2 / B ≤ A / 2) by (apply M5; nia).
  rewrite wrap_small in HQ, HR by lia. subst R x0. rewrite Z.mod_small in HR3 by lia.
  replace (2 * ((A / 2) mod B) + 0 + A mod 2) with (2 * ((A / 2) mod B) + A mod 2) in HR3 by lia. rewrite <- HR3 in Eq, Er.
  subst R7 R5 Q. case_bool_decide; cbn [negb].
  - rewrite Eq, Er. case_bool_decide; cbn [negb b2z]; [rewrite !decide_False, wrap_small by lia|rewrite !decide_True by lia]; lia.
  - rewrite Z.div_small, Z.mod_small by lia. done.
Qed.

(** The recursive divider: both results have the width of the operands, and
    they are the quotient and the remainder unless the divisor is zero. *)
Lemma divider_spec b ys : ebits env b ys → ∀ k a xs,
  ebits env a xs → length xs = length ys → bval xs < 2 ^ Z.of_nat k →
  ∃ q r qs rs, uDivModRec a b k = Some (q, r) ∧ ebits env q qs ∧ ebits env r rs ∧
    length qs = length xs ∧ length rs = length xs ∧
    (0 < bval ys → bval qs = bval xs / bval ys ∧ bval rs = bval xs mod bval ys).
Proof.
  intros HB. induction k as [|k IH]; intros a xs HA Hl Hk; cbn [uDivModRec]; [|destruct (isZero a) eqn:Hz].
  1,2: exists (makeZero (length a)), (makeZero (length a)), (replicate (length a) false), (replicate (length a) false);
    rewrite !length_replicate, (ebits_length _ _ _ HA), bval_replicate_false;
    split_and!; [done|apply makeZero_spec|apply makeZero_spec|done|done|]; intros Hy;
    pose proof (bools_value_bound xs); assert (bval xs = 0) as -> by (first [by apply (isZero_spec env a xs) | change (2 ^ Z.of_nat 0) with 1 in Hk; lia]);
    by rewrite Zdiv_0_l, Zmod_0_l.
  pose proof (isZero_nonempty a xs HA Hz) as Hne. assert (0 < length xs)%nat as Hn by (destruct xs; [done|simpl; lia]).
  pose proof (bools_value_bound xs) as BA.
  destruct (half_spec a xs HA Hne) as (a1&x1&->&HA1&Hl1&Hv1). cbn [mbind option_bind].
  destruct (IH a1 x1 HA1) as (q1&r1&qs1&rs1&->&HQ1&HR1&Hlq1&Hlr1&Hv); [lia| |].
  { rewrite Hv1. apply Z.div_lt_upper_bound; [lia|]. rewrite Nat2Z.inj_succ, Z.pow_succ_r in Hk by lia. lia. }
  cbn [mbind option_bind].
  destruct (double_spec q1 qs1) as (q2&qs2&->&HQ2&Hlq2&Hvq2&Hq20); [done|by intros ->; simpl in *; lia|]. cbn [mbind option_bind].
  destruct (double_spec r1 rs1) as (r2&rs2&->&HR2&Hlr2&Hvr2&_); [done|by intros ->; simpl in *; lia|]. cbn [mbind option_bind].
  destruct xs as [|x0 xs0]; [done|]. remember (x0 :: xs0) as xs eqn:Exs.
  destruct (ebits_lookup env a xs 0 x0 HA) as (a0&->&Ha0); [by subst|]. cbn [mbind option_bind].
  destruct (adder_spec env r2 (makeZero (length b)) rs2 (replicate (length ys) false)
    (mkIte (mkIff a0 mkTrue) mkTrue mkFalse) x0) as (r3&c3&rs3&?&->&HR3&_&Hlr3&Hvr3&_);
    [done|rewrite (ebits_length _ _ _ HB); apply makeZero_spec|rewrite length_replicate; lia| |]. 
  { eapply evb_eq; [by apply evb_ite; [apply evb_iff|done|done]|]. by destruct x0. }
  cbn [mbind option_bind].
  destruct (minus_spec r3 b rs3 ys) as (r4&c4&rs4&?&->&HR4&HC4&Hlr4&Hvr4&->); [done|done|lia|]. cbn [mbind option_bind].
  destruct (ebits_lookup env q2 qs2 0 false HQ2 Hq20) as (q20&->&Hq20'). cbn [mbind option_bind].
  destruct (choose_spec (mkNot c4) (negb (bool_decide (bval ys ≤ bval rs3))) r3 r4 rs3 rs4) as (r5&rs5&->&HR5&Hlr5&Hvr5);
    [by apply evb_not|done|done|lia|]. cbn [mbind option_bind].
  destruct (minus_spec a b xs ys) as (r6&c6&rs6&?&->&HR6&HC6&_&_&->); [done|done|lia|]. cbn [mbind option_bind].
  destruct (choose_spec (mkNot c6) (negb (bool_decide (bval ys ≤ bval xs))) a r5 xs rs5) as (r7&rs7&->&HR7&Hlr7&Hvr7);
    [by apply evb_not|done|done|lia|]. cbn [mbind option_bind].
  eexists _, _, ((λ q, if negb (bool_decide (bval ys ≤ bval xs)) then false else q) <$>
    <[0%nat := negb (negb (bool_decide (bval ys ≤ bval rs3)))]> qs2), rs7.
  split; [done|]. split.
  { apply maskBits_spec; [by apply evb_not|]. apply Forall2_insert; [done|].
    eapply evb_eq; [apply evb_ite; [by apply evb_not|done|apply evb_const]|]. by case_bool_decide. }
  split_and!; [done|rewrite length_fmap, length_insert; lia|lia|]. intros HY. destruct (Hv HY) as [Hvq Hvr].
  rewrite bval_mask, bval_set0, negb_involutive by done.
  assert (length rs3 = length xs ∧ length rs2 = length xs ∧ length rs1 = length xs ∧ length qs1 = length xs) as (L3&L2&L1&L0) by lia.
  rewrite bval_replicate_false, L2 in Hvr3. rewrite L3 in Hvr4. rewrite L1, Hvr, Hv1 in Hvr2. rewrite L0, Hvq, Hv1 in Hvq2.
  rewrite Hvr4 in Hvr5.
  apply (divider_step (len xs) (bval xs) (bval ys) (bval qs2) (bval rs2) (bval rs3) (bval rs5) (bval rs7) (b2z x0)); try done; [lia|].
  subst xs. cbn [bools_value]. change 2 with (2 * 1) at 2. rewrite mod_double, Z.mod_1_r by lia. lia.
Qed.
End division.

(** ** The barrel shifter *)

(** Bit [i] of [xs] shifted by [d], the new bits being [fill]. *)
Definition shl_bit (xs : list bool) (d i : nat) : bool :=
  if decide (i < d)%nat then false else default false (xs !! (i - d)%nat).
Definition shr_bit (fill : bool) (xs : list bool) (d i : nat) : bool := default fill (xs !! (i + d)%nat).

Section barrel.
Context (env : Env).

(** A vector whose bits are given by their positions. *)
Definition ebits_at (res : Bits) (n : nat) (g : nat → bool) : Prop := ebits env res (g <$> seq 0 n).

Lemma ebits_at_length res n g : ebits_at res n g → length res = n.
Proof. intros H. by rewrite (ebits_length _ _ _ H), length_fmap, length_seq. Qed.

Lemma ebits_at_lookup res n g i :
  ebits_at res n g → (i < n)%nat → ∃ p, res !! i = Some p ∧ evb env p (g i).
Proof.
  intros H Hi. destruct (ebits_lookup env res (g <$> seq 0 n) i (g i)) as (p&?&?); [done| |by exists p].
  by rewrite list_lookup_fmap, lookup_seq_lt by done.
Qed.

Lemma ebits_at_intro a xs g :
  ebits env a xs → (∀ i, (i < length xs)%nat → xs !! i = Some (g i)) → ebits_at a (length xs) g.
Proof.
  intros HA Hg. unfold ebits_at. replace (g <$> seq 0 (length xs)) with xs; [done|].
  apply list_eq_same_length with (length xs); [by rewrite length_fmap, length_seq|done|].
  intros i x y Hi Hx Hy. rewrite list_lookup_fmap, lookup_seq_lt in Hy by lia. injection Hy as <-.
  rewrite Hg in Hx by done. by injection Hx.
Qed.

Lemma mapM_select (sel : nat → option Node) g n : ∀ k,
  (∀ i, (k ≤ i < k + n)%nat → ∃ p, sel i = Some p ∧ evb env p (g i)) →
  ∃ res, mapM sel (seq k n) = Some res ∧ ebits env res (g <$> seq k n).
Proof.
  induction n as [|n IH]; intros k Hs; [exists []; split; [done|constructor]|]. cbn [seq mapM fmap list_fmap].
  destruct (Hs k) as (p&->&Hp); [lia|]. destruct (IH (S k)) as (res&->&HF); [intros; apply Hs; lia|].
  exists (p :: res). split; [done|]. by constructor.
Qed.

Lemma barrel_loop (select : nat → nat → Bits → Node → option Node) (sh : nat → nat → bool) n a b ys L :
  (∀ s d i res bs y, ebits_at res n (sh d) → evb env bs y → (i < n)%nat →
     ∃ p, select s i res bs = Some p ∧ evb env p (sh (if y then d + 2 ^ s else d)%nat i)) →
  ebits_at a n (sh 0%nat) → ebits env b ys → (L ≤ length ys)%nat →
  ∃ res, for_up L 0 (λ s res, barrelStage (select s) b s res) a = Some res ∧
    ebits_at res n (sh (Z.to_nat (bval (take L ys)))).
Proof.
  intros Hsel HA HB HL.
  apply (for_up_inv (λ s res, ebits_at res n (sh (Z.to_nat (bval (take s ys)))))); [done|].
  intros s res Hs HR. destruct (lookup_lt_is_Some_2 ys s) as [y Hy]; [lia|].
  unfold barrelStage. destruct (ebits_lookup env b ys s y HB Hy) as (bs&->&Hbs). cbn [mbind option_bind].
  rewrite (ebits_at_length _ _ _ HR).
  destruct (mapM_select (λ i, select s i res bs) (sh (Z.to_nat (bval (take (s + 1) ys)))) n 0) as (res'&->&HF); [|by exists res'].
  intros i Hi. destruct (Hsel s _ i res bs y HR Hbs) as (p&->&Hp); [lia|]. exists p. split; [done|].
  eapply evb_eq; [done|]. f_equal. rewrite (bval_take_S _ _ y) by done. pose proof (bools_value_bound (take s ys)).
  pose proof (Nat2Z.inj_pow 2 s) as Ep. change (Z.of_nat 2) with 2 in Ep. rewrite <- Ep. destruct y; simpl b2z; lia.
Qed.

Lemma shl_stage xs s d i res bs y :
  ebits_at res (length xs) (shl_bit xs d) → evb env bs y → (i < length xs)%nat →
  ∃ p, shlSelect s i res bs = Some p ∧ evb env p (shl_bit xs (if y then d + 2 ^ s else d)%nat i).
Proof.
  intros HR Hbs Hi. unfold shlSelect. destruct (ebits_at_lookup _ _ _ i HR Hi) as (p&->&Hp). cbn [mbind option_bind].
  set (t := (2 ^ s)%nat). clearbody t. destruct (decide (i < t)%nat) as [Ht|Ht].
  - eexists. split; [done|]. eapply evb_eq; [by apply evb_ite|]. destruct y; [|done]. unfold shl_bit. by rewrite decide_True by lia.
  - destruct (ebits_at_lookup _ _ _ (i - t)%nat HR) as (q&->&Hq); [lia|]. cbn [mbind option_bind]. eexists. split; [done|].
    eapply evb_eq; [by apply evb_ite|]. destruct y; [|done]. unfold shl_bit.
    destruct (decide (i - t < d)%nat); [by rewrite decide_True by lia|]. rewrite decide_False by lia. do 2 f_equal. lia.
Qed.

Lemma shr_stage f fill xs s d i res bs y :
  evb env f fill → ebits_at res (length xs) (shr_bit fill xs d) → evb env bs y → (i < length xs)%nat →
  ∃ p, shrSelect f s i res bs = Some p ∧ evb env p (shr_bit fill xs (if y then d + 2 ^ s else d)%nat i).
Proof.
  intros Hf HR Hbs Hi. unfold shrSelect. destruct (ebits_at_lookup _ _ _ i HR Hi) as (p&->&Hp). cbn [mbind option_bind].
  rewrite (ebits_at_length _ _ _ HR). set (t := (2 ^ s)%nat). clearbody t. destruct (decide (length xs ≤ i + t)%nat) as [Ht|Ht].
  - eexists. split; [done|]. eapply evb_eq; [by apply evb_ite|]. destruct y; [|done]. unfold shr_bit.
    by rewrite lookup_ge_None_2 by lia.
  - destruct (ebits_at_lookup _ _ _ (i + t)%nat HR) as (q&->&Hq); [lia|]. cbn [mbind option_bind]. eexists. split; [done|].
    eapply evb_eq; [apply evb_ite; [by apply evb_not|done|done]|]. destruct y; [|done]. unfold shr_bit. simpl. do 2 f_equal. lia.
Qed.
End barrel.

(** ** Shifted numbers, bit by bit *)

Lemma bval_at_bits n g i : Z.testbit (bval (g <$> seq 0 n)) (Z.of_nat i) = bool_decide (i < n)%nat && g i.
Proof.
  rewrite bools_value_bits, list_lookup_fmap. case_bool_decide; [by rewrite lookup_seq_lt by lia|].
  by rewrite lookup_seq_ge by lia.
Qed.

(** A number of [n] bits that agrees with [g] on them. *)
Lemma bval_at_eq n g z : 0 ≤ z < 2 ^ Z.of_nat n → (∀ i, (i < n)%nat → g i = Z.testbit z (Z.of_nat i)) → bval (g <$> seq 0 n) = z.
Proof.
  intros Hz Hg. pose proof (bools_value_bound (g <$> seq 0 n)) as Hb. rewrite length_fmap, length_seq in Hb.
  apply (bits_eq (Z.of_nat n)); [done|done|lia|]. intros i Hi. replace i with (Z.of_nat (Z.to_nat i)) by lia.
  rewrite bval_at_bits, bool_decide_true, Hg by lia. done.
Qed.

Lemma signed_bits w a i : 0 < w → 0 ≤ a < 2 ^ w → 0 ≤ i →
  Z.testbit (signed w a) i = if decide (i < w) then Z.testbit a i else Z.testbit a (w - 1).
Proof.
  intros Hw Ha Hi. destruct (decide (i < w)).
  - rewrite <- (wrap_signed w a) at 2 by done. rewrite wrap_bits by lia. by rewrite bool_decide_true by lia.
  - rewrite msb_spec by done. unfold signed. pose proof (pow2_split w Hw). destruct (decide (a < 2 ^ (w - 1))).
    + rewrite bool_decide_false, (bits_high w) by lia. done.
    + rewrite bool_decide_true by lia. rewrite Z.testbit_odd, Z.shiftr_div_pow2 by lia.
      pose proof (pow2_le w i). replace ((a - 2 ^ w) / 2 ^ i) with (-1); [done|].
      apply Z.div_unique_pos with (a - 2 ^ w + 2 ^ i); lia.
Qed.

Lemma lookup_bval xs i : default false (xs !! i) = Z.testbit (bval xs) (Z.of_nat i).
Proof. rewrite bools_value_bits. by destruct (xs !! i). Qed.

Lemma shl_value xs d : 0 ≤ d < len xs → bval (shl_bit xs (Z.to_nat d) <$> seq 0 (length xs)) = shl (len xs) (bval xs) d.
Proof.
  intros Hd. apply bval_at_eq; [apply shl_bound; lia|]. intros i Hi. unfold shl, shl_bit. rewrite (decide_True (P := d < _)) by lia.
  rewrite wrap_bits, bool_decide_true by lia. cbn [andb]. rewrite Z.mul_pow2_bits by lia. destruct (decide _).
  - symmetry. apply Z.testbit_neg_r. lia.
  - rewrite lookup_bval. f_equal. lia.
Qed.

Lemma lshr_value xs d : 0 ≤ d < len xs → bval (shr_bit false xs (Z.to_nat d) <$> seq 0 (length xs)) = lshr (len xs) (bval xs) d.
Proof.
  intros Hd. apply bval_at_eq; [apply lshr_bound; [lia|apply bools_value_bound|lia]|]. intros i Hi.
  unfold lshr, shr_bit. rewrite (decide_True (P := d < _)) by lia.
  rewrite Z.div_pow2_bits, lookup_bval by lia. f_equal. lia.
Qed.

Lemma ashr_value xs x d :
  list.last xs = Some x → 0 ≤ d < len xs → bval (shr_bit x xs (Z.to_nat d) <$> seq 0 (length xs)) = ashr (len xs) (bval xs) d.
Proof.
  intros Hx Hd. apply bval_at_eq; [apply wrap_bound; lia|]. intros i Hi.
  unfold ashr, shr_bit. rewrite (decide_True (P := d < _)) by lia.
  rewrite wrap_bits, bool_decide_true by lia. cbn [andb]. rewrite Z.div_pow2_bits by lia.
  rewrite signed_bits by (apply bools_value_bound || lia). destruct (decide _) as [E|E].
  - destruct (lookup_lt_is_Some_2 xs (i + Z.to_nat d)) as [b Hb]; [lia|]. rewrite Hb. cbn. apply bval_lookup in Hb. rewrite <- Hb. f_equal. lia.
  - rewrite lookup_ge_None_2 by lia. cbn. rewrite last_lookup in Hx. apply bval_lookup in Hx. rewrite <- Hx. f_equal. lia.
Qed.
