(* ===== verification/BitblastLogic.v ===== *)
(** Reasoning about the bit-blaster: what the caches hold, and rules for the
    computations that return, keep the caches correct and establish a property
    of their result. *)
From stdpp Require Import base option list gmap numbers.
From S2P Require Import Prelude Integer Node TypeRules Semantics BvArith TypeSound BitVectorUtil BvElim Bitblast BitblastCircuits BitblastShift.
Open Scope Z_scope.

(** The bits of a term: their number and their value are those of the term. *)
Definition good (env : Env) (n : Node) (bits : Bits) : Prop :=
  ∃ bs, ebits env bits bs ∧ bs ≠ [] ∧ eval env n = Some (VBV (len bs) (bval bs)).

(** The caches hold correct bits and correct formulas. *)
Record cache_ok (env : Env) (st : NodeBitblaster) : Prop := {
  ok_terms : ∀ n bits, d_termCache st !! n = Some bits → good env n bits;
  ok_atoms : ∀ n n', d_bbAtoms st !! n = Some n' → eval env n' = eval env n;
}.

(** ** Computations that return, keep the cache and establish [Q] *)
Section runs.
Context (env : Env).

Definition runs {A} (m : BB A) (Q : A → Prop) : Prop :=
  ∀ st, cache_ok env st → ∃ a st', m st = Some (a, st') ∧ cache_ok env st' ∧ Q a.

Lemma runs_ret {A} (a : A) (Q : A → Prop) : Q a → runs (mret a) Q.
Proof. intros HQ st Hst. by exists a, st. Qed.

Lemma runs_bind {A B} (m : BB A) (f : A → BB B) Q R :
  runs m Q → (∀ a, Q a → runs (f a) R) → runs (m ≫= f) R.
Proof.
  intros Hm Hf st Hst. destruct (Hm st Hst) as (a&st'&E&Hst'&HQ). rewrite (bind_eq _ _ _ _ _ E). by apply Hf.
Qed.

Lemma runs_lift {A} (o : option A) Q : (∃ a, o = Some a ∧ Q a) → runs (lift o) Q.
Proof. intros (a&->&HQ) st Hst. by exists a, st. Qed.

Lemma runs_lift_bind {A B} (o : option A) (f : A → BB B) R a : o = Some a → runs (f a) R → runs (lift o ≫= f) R.
Proof. intros -> Hf st Hst. rewrite (lift_bind _ _ _ a) by done. by apply Hf. Qed.

Lemma runs_mono {A} (m : BB A) (Q R : A → Prop) : runs m Q → (∀ a, Q a → R a) → runs m R.
Proof. intros Hm HQ st Hst. destruct (Hm st Hst) as (a&st'&?&?&?). exists a, st'. auto. Qed.

(** ** Strategies, from what the children give *)
Context `{!Gmp, !GmpLaws} (bbt : Node → BB Bits).

(** The type and the value of a bit-vector term. *)
Definition node_ok (n : Node) (w z : Z) : Prop :=
  getSize n = Some w ∧ 0 < w ≤ max_uint32 ∧ 0 ≤ z < 2 ^ w ∧ eval env n = Some (VBV w z).

(** A child that can be bit-blasted. *)
Definition child_ok (c : Node) : Prop := runs (bbt c) (good env c) ∧ ∃ w z, node_ok c w z.

Lemma good_intro n w z bits bs :
  node_ok n w z → ebits env bits bs → len bs = w → bval bs = z → good env n bits.
Proof. intros (_&Hw&_&He) Hb <- <-. exists bs. split_and!; [done|intros ->; simpl in Hw; lia|done]. Qed.

(** Run the bit-blaster on a child. *)
Lemma child_bind {B} c (f : Bits → BB B) R v :
  child_ok c → eval env c = Some v →
  (∀ x xs, ebits env x xs → xs ≠ [] → v = VBV (len xs) (bval xs) → getSize c = Some (len xs) → runs (f x) R) →
  runs (bbt c ≫= f) R.
Proof using Type.
  intros [Hr (w&z&Hs&_&_&He)] Hv Hf. eapply runs_bind; [exact Hr|]. intros x (xs&Hx&Hne&Hxe).
  rewrite Hv in Hxe, He. simplify_eq. by apply (Hf x xs).
Qed.

Lemma eval_children k cs v : eval env (mkNode k cs) = Some v → ∃ vs, mapM (eval env) cs = Some vs ∧ kind_eval k vs = Some v.
Proof. cbn [eval]. intros (vs&?&?)%bind_Some. by exists vs. Qed.

Lemma mapM_two cs vs :
  mapM (eval env) cs = Some vs → length vs = 2%nat → ∃ a b va vb, cs = [a; b] ∧ vs = [va; vb] ∧
    eval env a = Some va ∧ eval env b = Some vb.
Proof.
  intros HM Hl. apply mapM_Some in HM. destruct HM as [|a va ? ? Ha [|b vb ? ? Hb [|]]]; try done. by exists a, b, va, vb.
Qed.

Lemma mapM_one cs vs :
  mapM (eval env) cs = Some vs → length vs = 1%nat → ∃ a va, cs = [a] ∧ vs = [va] ∧ eval env a = Some va.
Proof. intros HM Hl. apply mapM_Some in HM. destruct HM as [|a va ? ? Ha [|]]; try done. by exists a, va. Qed.

(** Both children of a node that has two. *)
Lemma both_bind {B} k cs v (f : Bits * Bits → BB B) R :
  eval env (mkNode k cs) = Some v → Forall child_ok cs → (∀ vs v, kind_eval k vs = Some v → length vs = 2%nat) →
  (∀ x y xs ys, ebits env x xs → ebits env y ys → xs ≠ [] → ys ≠ [] →
     kind_eval k [VBV (len xs) (bval xs); VBV (len ys) (bval ys)] = Some v → runs (f (x, y)) R) →
  runs (bothBB bbt (mkNode k cs) ≫= f) R.
Proof using Type.
  intros He Hcs Hk Hf. destruct (eval_children _ _ _ He) as (vs&HM&Hv).
  destruct (mapM_two cs vs HM (Hk _ _ Hv)) as (a&b&va&vb&->&->&Ha&Hb).
  inversion Hcs as [|? ? Hca Hcs']; subst. inversion Hcs' as [|? ? Hcb _]; subst.
  unfold bothBB. cbn [child children lookup list_lookup]. intros st Hst.
  refine (runs_bind _ _ (λ p, ∃ xs ys, ebits env p.1 xs ∧ ebits env p.2 ys ∧ xs ≠ [] ∧ ys ≠ [] ∧
    kind_eval k [VBV (len xs) (bval xs); VBV (len ys) (bval ys)] = Some v) _ _ _ st Hst).
  - eapply runs_lift_bind; [done|]. eapply runs_lift_bind; [done|]. eapply child_bind; [done|exact Ha|].
    intros x xs Hx Hxne -> _. eapply child_bind; [done|exact Hb|]. intros y ys Hy Hyne -> _. apply runs_ret. by exists xs, ys.
  - intros [x y] (xs&ys&?&?&?&?&?). by apply (Hf x y xs ys).
Qed.

(** An operator on two operands of the width of the result. *)
Lemma bin_bind {B} k g cs w z (f : Bits * Bits → BB B) R :
  (∀ vs, kind_eval k vs = bv_bin g vs) → node_ok (mkNode k cs) w z → Forall child_ok cs →
  (∀ x y xs ys, ebits env x xs → ebits env y ys → length xs = length ys → xs ≠ [] → len xs = w →
     g w (bval xs) (bval ys) = z → runs (f (x, y)) R) →
  runs (bothBB bbt (mkNode k cs) ≫= f) R.
Proof using Type.
  intros Hk (_&_&_&He) Hcs Hf. eapply both_bind; [exact He|done| |].
  { intros vs v. rewrite Hk. destruct vs as [|[] [|[] []]]; done. }
  intros x y xs ys Hx Hy Hxne Hyne. rewrite Hk. cbn [bv_bin]. case_decide as El; [|done]. intros [= <- Hz].
  apply (Hf x y xs ys); try done. lia.
Qed.

(** A predicate. *)
Lemma pred_bind {B} k g cs v (f : Bits * Bits → BB B) R :
  (∀ vs, kind_eval k vs = bv_pred g vs ∨ kind_eval k vs = as_bit (bv_pred g vs)) →
  eval env (mkNode k cs) = Some v → Forall child_ok cs →
  (∀ x y xs ys, ebits env x xs → ebits env y ys → length xs = length ys → xs ≠ [] →
     v = VBool (g (len xs) (bval xs) (bval ys)) ∨ v = VBV 1 (b2z (g (len xs) (bval xs) (bval ys))) → runs (f (x, y)) R) →
  runs (bothBB bbt (mkNode k cs) ≫= f) R.
Proof using Type.
  intros Hk He Hcs Hf. eapply both_bind; [exact He|done| |].
  { intros vs v'. destruct (Hk vs) as [-> | ->]; destruct vs as [|[] [|[] []]]; try done. }
  intros x y xs ys Hx Hy Hxne Hyne Hv. assert (length xs = length ys) as Hl.
  { destruct (Hk [VBV (len xs) (bval xs); VBV (len ys) (bval ys)]) as [E|E]; rewrite E in Hv; cbn [bv_pred] in Hv;
      case_decide; try done; lia. }
  apply (Hf x y xs ys); try done. 
  destruct (Hk [VBV (len xs) (bval xs); VBV (len ys) (bval ys)]) as [E|E]; rewrite E in Hv; cbn [bv_pred] in Hv;
    rewrite decide_True in Hv by lia; cbn [as_bit] in Hv; injection Hv as <-; auto.
Qed.

Lemma var_ok n w z : node_ok n w z → runs (DefaultVarBB n) (good env n).
Proof using Type.
  intros Hn st [Ht Ha]. pose proof Hn as (Hs&Hw&Hz&He). unfold DefaultVarBB, makeVariable. rewrite (lift_bind _ _ _ w Hs). cbn.
  eexists _, _. split; [done|]. split; [by split|].
  apply (good_intro _ w z _ ((λ i, Z.testbit z (Z.of_nat i)) <$> seq 0 (Z.to_nat w)) Hn).
  - apply Forall2_fmap_2, Forall_Forall2_diag, Forall_seq. intros i Hi. unfold evb, utils.mkBit. cbn. rewrite He. cbn.
    by rewrite decide_True by lia.
  - rewrite length_fmap, length_seq. lia.
  - apply bval_at_eq; [by rewrite Z2Nat.id by lia|done].
Qed.
End runs.
