(* ===== verification/BitblastStrategies.v ===== *)
(** Every strategy of [bitblast_strategies_template.h] returns bits with the
    value of its node, when the children can be bit-blasted. *)
From stdpp Require Import base option list gmap numbers.
From S2P Require Import Prelude Integer Node TypeRules Semantics BvArith TypeSound BitVectorUtil BvElim Bitblast BitblastCircuits BitblastShift BitblastLogic.
Open Scope Z_scope.

(** ** Bitwise operations on numbers *)

Lemma bval_bit xs i : 0 ≤ i → Z.testbit (bval xs) i = default false (xs !! Z.to_nat i).
Proof. intros Hi. rewrite <- (Z2Nat.id i) at 1 by done. by rewrite lookup_bval. Qed.

Lemma bval_zip (op : Z → Z → Z) g xs ys :
  (∀ a b i, 0 ≤ i → Z.testbit (op a b) i = g (Z.testbit a i) (Z.testbit b i)) → length xs = length ys →
  0 ≤ op (bval xs) (bval ys) < 2 ^ len xs → bval (zip_with g xs ys) = op (bval xs) (bval ys).
Proof.
  intros Hop Hl Hb. pose proof (bools_value_bound (zip_with g xs ys)) as Hz. rewrite length_zip_with, <- Hl, Nat.min_id in Hz.
  apply (bits_eq (len xs)); [done|done|lia|]. intros i Hi. rewrite Hop, !bval_bit by lia. rewrite lookup_zip_with.
  destruct (lookup_lt_is_Some_2 xs (Z.to_nat i)) as [x ->]; [lia|]. destruct (lookup_lt_is_Some_2 ys (Z.to_nat i)) as [y ->]; [lia|].
  done.
Qed.

Lemma bval_land xs ys : length xs = length ys → bval (zip_with andb xs ys) = Z.land (bval xs) (bval ys).
Proof.
  intros Hl. apply (bval_zip Z.land); [intros; apply Z.land_spec|done|].
  apply land_bound; [lia|apply bools_value_bound|rewrite Hl; apply bools_value_bound].
Qed.
Lemma bval_lor xs ys : length xs = length ys → bval (zip_with orb xs ys) = Z.lor (bval xs) (bval ys).
Proof.
  intros Hl. apply (bval_zip Z.lor); [intros; apply Z.lor_spec|done|].
  apply lor_bound; [lia|apply bools_value_bound|rewrite Hl; apply bools_value_bound].
Qed.
Lemma bval_lxor xs ys : length xs = length ys → bval (zip_with xorb xs ys) = Z.lxor (bval xs) (bval ys).
Proof.
  intros Hl. apply (bval_zip Z.lxor); [intros; apply Z.lxor_spec|done|].
  apply lxor_bound; [lia|apply bools_value_bound|rewrite Hl; apply bools_value_bound].
Qed.

Lemma zip_eqb xs ys : zip_with Bool.eqb xs ys = negb <$> zip_with xorb xs ys.
Proof. revert ys. induction xs as [|x xs IH]; intros [|y ys]; try done. cbn. f_equal; [by destruct x, y|apply IH]. Qed.

Lemma all_eqb xs ys : length xs = length ys → forallb id (zip_with Bool.eqb xs ys) = bool_decide (bval xs = bval ys).
Proof.
  revert ys. induction xs as [|x xs IH]; intros [|y ys] Hl; try done. cbn [zip_with forallb bools_value]. rewrite IH by (simpl in Hl; lia).
  destruct x, y; cbn [Bool.eqb id andb b2z]; repeat case_bool_decide; (done || lia).
Qed.

Lemma all_zero ys : forallb id ((λ y, Bool.eqb y false) <$> ys) = bool_decide (bval ys = 0).
Proof.
  induction ys as [|y ys IH]; [done|]. cbn [fmap list_fmap forallb bools_value].
  change (list_fmap bool bool (λ y, Bool.eqb y false) ys) with ((λ y, Bool.eqb y false) <$> ys). rewrite IH.
  pose proof (bools_value_bound ys). destruct y; cbn [Bool.eqb id andb b2z]; repeat case_bool_decide; (done || lia).
Qed.

Lemma zip_length {g} xs ys : length xs = length ys → length (zip_with (C := bool) (A := bool) (B := bool) g xs ys) = length xs.
Proof. intros Hl. rewrite length_zip_with. lia. Qed.

Lemma len_pos (xs : list bool) : xs ≠ [] → 0 < len xs.
Proof. destruct xs; [done|simpl; lia]. Qed.

Section strategies.
Context `{!Gmp, !GmpLaws} (env : Env) (bbt : Node → BB Bits).

Abbreviation runs := (runs env).
Abbreviation good := (good env).
Abbreviation node_ok := (node_ok env).
Abbreviation child_ok := (child_ok env bbt).
Abbreviation ebits := (ebits env).

(** ** Bit by bit *)

Lemma const_ok bv w z : node_ok (mkConstBV bv) w z → bv_ok bv = true →
  ∃ bits, DefaultConstBB (mkConstBV bv) = Some bits ∧ good (mkConstBV bv) bits.
Proof using H0.
  intros Hn Hbv. pose proof Hn as (Hs&Hw&Hz&He). injection He as Ew Ez. unfold DefaultConstBB. rewrite Hs. cbn [getConstBV mbind option_bind].
  assert (wf_bv bv) as Hwf. { unfold bv_ok, uint32 in Hbv. nofail. split; lia. }
  destruct (mapM_select env (λ i, b ← BV.extract (Z.of_nat i) (Z.of_nat i) bv;
    let bit := BV.getValue b in if decide (bit = 0) then Some mkFalse else _ ← assert (bool_decide (bit = 1)); Some mkTrue)
    (λ i, Z.testbit z (Z.of_nat i)) (Z.to_nat w) 0) as (bits&Hbits&HF).
  - intros i Hi. rewrite extract_spec by (done || lia). cbn [mbind option_bind]. unfold BV.getValue. cbn [d_value].
    rewrite Z.sub_diag. change (0 + 1) with 1. rewrite Ez. unfold wrap. change (2 ^ 1) with 2.
    pose proof (Z.testbit_spec' z (Z.of_nat i) ltac:(lia)) as Hbit. rewrite <- Hbit.
    destruct (Z.testbit z (Z.of_nat i)); eexists; (split; [done|apply evb_const]).
  - exists bits. split; [done|]. eapply good_intro; [exact Hn|exact HF|rewrite length_fmap, length_seq; lia|].
    apply bval_at_eq; [by rewrite Z2Nat.id by lia|done].
Qed.

Lemma not_ok cs w z : node_ok (mkNode BITVECTOR_NOT cs) w z → Forall child_ok cs →
  runs (DefaultNotBB bbt (mkNode BITVECTOR_NOT cs)) (good (mkNode BITVECTOR_NOT cs)).
Proof using Type.
  intros Hn Hcs. pose proof Hn as (_&_&_&He). destruct (eval_children _ _ _ _ He) as (vs&HM&Hv).
  destruct vs as [|[| |w' a] []]; try done. injection Hv as -> Hz. destruct (mapM_one env cs _ HM eq_refl) as (c&?&->&[= <-]&Hc).
  inversion Hcs; subst. unfold DefaultNotBB. eapply runs_lift_bind; [done|]. eapply child_bind; [done|exact Hc|].
  intros x xs Hx _ [= Ew ->] _. apply runs_ret. eapply good_intro; [exact Hn|by apply negateBits_spec|by rewrite length_fmap|].
  rewrite bval_negb. by rewrite Ew.
Qed.

(** The loop over the children. *)
Lemma fold_ok f (g : Z → Z → Z) w :
  (∀ x y xs ys, ebits x xs → ebits y ys → length xs = length ys → xs ≠ [] → len xs = w →
     ∃ r rs, f x y = Some r ∧ ebits r rs ∧ length rs = length xs ∧ bval rs = g (bval xs) (bval ys)) →
  ∀ cs vs bits bs z, Forall child_ok cs → mapM (eval env) cs = Some vs → bv_fold g w (bval bs) vs = Some (VBV w z) →
    ebits bits bs → len bs = w → bs ≠ [] →
    runs (foldBB bbt f cs bits) (λ r, ∃ rs, ebits r rs ∧ len rs = w ∧ bval rs = z).
Proof using Type.
  intros Hf cs vs bits bs z Hcs HM. apply mapM_Some in HM. revert bits bs Hcs.
  induction HM as [|c v cs vs Hc _ IH]; intros bits bs Hcs Hz Hb Hl Hne; cbn [foldBB bv_fold] in *.
  - apply runs_ret. exists bs. by simplify_eq.
  - inversion Hcs; subst. eapply child_bind; [done|exact Hc|]. intros y ys Hy _ -> _. case_decide as El; [|done].
    destruct (Hf bits y bs ys) as (r&rs&Hr&HR&Hlr&Hvr); [done|done|lia|done|lia|].
    eapply runs_lift_bind; [exact Hr|]. apply (IH r rs); [done|by rewrite Hvr|done|lia|]. intros ->. by destruct bs.
Qed.

Lemma nary_ok f k (g : Z → Z → Z → Z) cs w z :
  (∀ vs, kind_eval k vs = bv_nary g vs) →
  (∀ x y xs ys, ebits x xs → ebits y ys → length xs = length ys → xs ≠ [] → len xs = w →
     ∃ r rs, f x y = Some r ∧ ebits r rs ∧ length rs = length xs ∧ bval rs = g w (bval xs) (bval ys)) →
  node_ok (mkNode k cs) w z → Forall child_ok cs →
  runs (c0 ← lift (child (mkNode k cs) 0); bits ← bbt c0; foldBB bbt f (tail cs) bits)
    (λ r, ∃ rs, ebits r rs ∧ len rs = w ∧ bval rs = z).
Proof using Type.
  intros Hk Hf (_&_&_&He) Hcs. destruct (eval_children _ _ _ _ He) as (vs&HM&Hv). rewrite Hk in Hv.
  destruct vs as [|[| |w' a] [|v vs]]; try done. cbn [bv_nary] in Hv.
  destruct cs as [|c0 cs]; [done|]. cbn [mapM] in HM. apply bind_Some in HM as (v0&Hc0&HM). apply bind_Some in HM as (vs'&HM&[= -> ->]).
  assert (w' = w) as ->.
  { clear - Hv. revert a Hv. generalize (v :: vs) as l, w' at 1. intros l. induction l as [|u l IH]; intros w0 a Hv; [cbn in Hv; congruence|].
    cbn [bv_fold] in Hv. destruct u; try done. case_decide; [|done]. by eapply IH. }
  inversion Hcs; subst. eapply runs_lift_bind; [done|]. eapply child_bind; [done|exact Hc0|]. intros x xs Hx Hne [= Ew ->] _.
  cbn [tail]. by eapply (fold_ok f (g w)).
Qed.

Lemma naryBB_ok f k g cs w z :
  (∀ vs, kind_eval k vs = bv_nary g vs) →
  (∀ x y xs ys, ebits x xs → ebits y ys → length xs = length ys → xs ≠ [] → len xs = w →
     ∃ r rs, f x y = Some r ∧ ebits r rs ∧ length rs = length xs ∧ bval rs = g w (bval xs) (bval ys)) →
  node_ok (mkNode k cs) w z → Forall child_ok cs → runs (naryBB bbt f (mkNode k cs)) (good (mkNode k cs)).
Proof using Type.
  intros Hk Hf Hn Hcs. pose proof Hn as (Hs&_). pose proof (nary_ok f k g cs w z Hk Hf Hn Hcs) as Hr.
  unfold naryBB. intros st Hst. destruct (Hr st Hst) as (r&st'&E&Hst'&rs&HR&Hl&Hv).
  apply bind_inv in E as (c0&s0&E0&E). apply bind_inv in E as (b0&s1&E1&E). cbn [children].
  rewrite (bind_eq _ _ _ _ _ E0), (bind_eq _ _ _ _ _ E1), (bind_eq _ _ _ _ _ E), (lift_bind _ _ _ w Hs).
  rewrite (lift_bind _ _ _ ()); [|rewrite bool_decide_true; [done|by rewrite (ebits_length _ _ _ HR)]].
  exists r, st'. split; [done|]. split; [done|]. by eapply good_intro.
Qed.

Lemma zip_ok f g op :
  (∀ a b p q, evb env a p → evb env b q → evb env (f a b) (g p q)) →
  (∀ xs ys, length xs = length ys → bval (zip_with g xs ys) = op (bval xs) (bval ys)) →
  ∀ x y xs ys, ebits x xs → ebits y ys → length xs = length ys →
    ∃ r rs, zipWith f x y = Some r ∧ ebits r rs ∧ length rs = length xs ∧ bval rs = op (bval xs) (bval ys).
Proof using Type.
  intros Hf Hop x y xs ys Hx Hy Hl. destruct (zipWith_spec env f g x y xs ys Hf Hx Hy Hl) as (r&->&HR).
  exists r, (zip_with g xs ys). split_and!; [done|done|by apply zip_length|by apply Hop].
Qed.

Lemma and_ok cs w z : node_ok (mkNode BITVECTOR_AND cs) w z → Forall child_ok cs →
  runs (DefaultAndBB bbt (mkNode BITVECTOR_AND cs)) (good (mkNode BITVECTOR_AND cs)).
Proof using Type.
  intros Hn. eapply (naryBB_ok _ BITVECTOR_AND (λ _, Z.land) _ w z (λ _, eq_refl)); [|done]. intros. apply (zip_ok _ andb Z.land); try done.
  - intros. by apply evb_and.
  - apply bval_land.
Qed.

Lemma or_ok cs w z : node_ok (mkNode BITVECTOR_OR cs) w z → Forall child_ok cs →
  runs (DefaultOrBB bbt (mkNode BITVECTOR_OR cs)) (good (mkNode BITVECTOR_OR cs)).
Proof using Type.
  intros Hn. eapply (naryBB_ok _ BITVECTOR_OR (λ _, Z.lor) _ w z (λ _, eq_refl)); [|done]. intros. apply (zip_ok _ orb Z.lor); try done.
  - intros. by apply evb_or.
  - apply bval_lor.
Qed.

Lemma xor_ok cs w z : node_ok (mkNode BITVECTOR_XOR cs) w z → Forall child_ok cs →
  runs (DefaultXorBB bbt (mkNode BITVECTOR_XOR cs)) (good (mkNode BITVECTOR_XOR cs)).
Proof using Type.
  intros Hn. eapply (naryBB_ok _ BITVECTOR_XOR (λ _, Z.lxor) _ w z (λ _, eq_refl)); [|done]. intros. apply (zip_ok _ xorb Z.lxor); try done.
  - intros. by apply evb_xor.
  - apply bval_lxor.
Qed.

Lemma sameLength_bind {B} (x y : Bits) (f : unit → BB B) R : length x = length y → runs (f ()) R → runs (sameLength x y ≫= f) R.
Proof using Type. intros Hl Hf. eapply runs_lift_bind; [|exact Hf]. by rewrite bool_decide_true. Qed.

Lemma xnor_ok cs w z : node_ok (mkNode BITVECTOR_XNOR cs) w z → Forall child_ok cs →
  runs (DefaultXnorBB bbt (mkNode BITVECTOR_XNOR cs)) (good (mkNode BITVECTOR_XNOR cs)).
Proof using Type.
  intros Hn Hcs. eapply bin_bind; [intros; reflexivity|exact Hn|done|]. intros x y xs ys Hx Hy Hl Hne Hw Hz.
  apply sameLength_bind; [by rewrite (ebits_length _ _ _ Hx), (ebits_length _ _ _ Hy)|]. apply runs_lift.
  destruct (zipWith_spec env mkIff Bool.eqb x y xs ys) as (r&->&HR); [intros; by apply evb_iff|done..|].
  exists r. split; [done|]. eapply good_intro; [exact Hn|exact HR|by rewrite zip_length|].
  rewrite zip_eqb, bval_negb, zip_length, bval_lxor by done. by rewrite Hw.
Qed.

(** ** Arithmetic *)

Lemma mult_ok cs w z : node_ok (mkNode BITVECTOR_MULT cs) w z → Forall child_ok cs →
  runs (DefaultMultBB bbt (mkNode BITVECTOR_MULT cs)) (good (mkNode BITVECTOR_MULT cs)).
Proof using Type.
  intros Hn Hcs. unfold DefaultMultBB. eapply runs_mono; [eapply (nary_ok _ BITVECTOR_MULT (λ w a b, wrap w (a * b)) _ w z (λ _, eq_refl)); [|done|done]|].
  - intros x y xs ys Hx Hy Hl Hne <-. by apply multiplier_spec.
  - intros r (rs&HR&Hl&Hv). by eapply good_intro.
Qed.

Lemma add_ok cs w z : node_ok (mkNode BITVECTOR_ADD cs) w z → Forall child_ok cs →
  runs (DefaultAddBB bbt (mkNode BITVECTOR_ADD cs)) (good (mkNode BITVECTOR_ADD cs)).
Proof using Type.
  intros Hn. eapply (naryBB_ok _ BITVECTOR_ADD (λ w a b, wrap w (a + b)) _ w z (λ _, eq_refl)); [|done]. intros x y xs ys Hx Hy Hl Hne <-.
  destruct (adder_spec env x y xs ys mkFalse false) as (r&c&rs&?&->&HR&_&Hlr&Hv&_); [done..|].
  exists r, rs. split_and!; [done|done|done|]. rewrite Hv. simpl b2z. by rewrite Z.add_0_r.
Qed.

Lemma sub_ok cs w z : node_ok (mkNode BITVECTOR_SUB cs) w z → Forall child_ok cs →
  runs (DefaultSubBB bbt (mkNode BITVECTOR_SUB cs)) (good (mkNode BITVECTOR_SUB cs)).
Proof using Type.
  intros Hn Hcs. pose proof Hn as (Hs&_). eapply bin_bind; [intros; reflexivity|exact Hn|done|]. intros x y xs ys Hx Hy Hl Hne Hw Hz.
  eapply runs_lift_bind; [exact Hs|]. eapply runs_lift_bind.
  { rewrite (ebits_length _ _ _ Hx), (ebits_length _ _ _ Hy), bool_decide_true; done. }
  apply runs_lift. destruct (minus_spec env x y xs ys) as (r&c&rs&?&->&HR&_&Hlr&Hv&_); [done..|].
  exists r. split; [done|]. eapply good_intro; [exact Hn|exact HR|by rewrite Hlr|]. by rewrite Hv, Hw.
Qed.

Lemma neg_ok cs w z : node_ok (mkNode BITVECTOR_NEG cs) w z → Forall child_ok cs →
  runs (DefaultNegBB bbt (mkNode BITVECTOR_NEG cs)) (good (mkNode BITVECTOR_NEG cs)).
Proof using Type.
  intros Hn Hcs. pose proof Hn as (Hs&_&_&He). destruct (eval_children _ _ _ _ He) as (vs&HM&Hv).
  destruct vs as [|[| |w' a] []]; try done. injection Hv as -> Hz. destruct (mapM_one env cs _ HM eq_refl) as (c&?&->&[= <-]&Hc).
  inversion Hcs; subst. unfold DefaultNegBB. eapply runs_lift_bind; [done|]. eapply child_bind; [done|exact Hc|].
  intros x xs Hx _ [= Ew ->] _. eapply runs_lift_bind; [exact Hs|]. eapply runs_lift_bind.
  { by rewrite (ebits_length _ _ _ Hx), bool_decide_true. }
  apply runs_lift. destruct (adder_spec env (negateBits x) (makeZero (Z.to_nat w)) (negb <$> xs) (replicate (Z.to_nat w) false) mkTrue true)
    as (r&c'&rs&?&->&HR&_&Hlr&Hv&_); [by apply negateBits_spec|apply makeZero_spec|rewrite length_fmap, length_replicate; lia|done|].
  rewrite length_fmap in *. exists r. split; [done|]. eapply good_intro; [exact Hn|exact HR|by rewrite Hlr|].
  rewrite Hv, bval_negb, bval_replicate_false, <- Ew. simpl b2z. apply wrap_congr with 1; lia.
Qed.
(** ** Comparisons *)

(** The result of one bit. *)
Lemma one_bit_ok n z b bit : node_ok n 1 z → z = b2z b → evb env bit b → good n [bit].
Proof using Type.
  intros Hn -> Hb. eapply (good_intro _ _ _ _ _ [b]); [exact Hn|by constructor|done|]. simpl. destruct b; done.
Qed.

Lemma eqs_ok x y xs ys : ebits x xs → ebits y ys → length xs = length ys → xs ≠ [] →
  ∃ eqs e, zipWith mkIff x y = Some eqs ∧ mkAndList eqs = Some e ∧ evb env e (bool_decide (bval xs = bval ys)).
Proof using Type.
  intros Hx Hy Hl Hne. destruct (zipWith_spec env mkIff Bool.eqb x y xs ys) as (eqs&->&HF); [intros; by apply evb_iff|done..|].
  destruct (mkAndList_spec env eqs _ HF) as (e&He&Hv).
  { intros ->. apply Forall2_nil_inv_l in HF. destruct xs, ys; done. }
  exists eqs, e. split_and!; [done|done|]. by rewrite all_eqb in Hv.
Qed.

Lemma comp_ok cs w z : node_ok (mkNode BITVECTOR_COMP cs) w z → Forall child_ok cs →
  runs (DefaultCompBB bbt (mkNode BITVECTOR_COMP cs)) (good (mkNode BITVECTOR_COMP cs)).
Proof using Type.
  intros Hn Hcs. pose proof Hn as (_&_&_&He). eapply (pred_bind _ _ BITVECTOR_COMP); [intros; by right|exact He|done|].
  intros x y xs ys Hx Hy Hl Hne [?|[= -> ->]]; [done|]. destruct (eqs_ok x y xs ys) as (eqs&e&->&E2&Hv); [done..|].
  eapply runs_lift_bind; [done|]. eapply runs_lift_bind; [exact E2|]. apply runs_ret. by eapply one_bit_ok.
Qed.

Lemma ultbv_ok cs w z : node_ok (mkNode BITVECTOR_ULTBV cs) w z → Forall child_ok cs →
  runs (DefaultUltbvBB bbt (mkNode BITVECTOR_ULTBV cs)) (good (mkNode BITVECTOR_ULTBV cs)).
Proof using Type.
  intros Hn Hcs. pose proof Hn as (_&_&_&He). eapply (pred_bind _ _ BITVECTOR_ULTBV); [intros; by right|exact He|done|].
  intros x y xs ys Hx Hy Hl Hne [?|[= -> ->]]; [done|]. apply sameLength_bind; [by rewrite (ebits_length _ _ _ Hx), (ebits_length _ _ _ Hy)|].
  destruct (uLessThan_spec env x y xs ys false) as (e&E&Hv); [done..|].
  eapply runs_lift_bind; [exact E|]. apply runs_ret. by eapply one_bit_ok.
Qed.

Lemma sltbv_ok cs w z : node_ok (mkNode BITVECTOR_SLTBV cs) w z → Forall child_ok cs →
  runs (DefaultSltbvBB bbt (mkNode BITVECTOR_SLTBV cs)) (good (mkNode BITVECTOR_SLTBV cs)).
Proof using Type.
  intros Hn Hcs. pose proof Hn as (_&_&_&He). eapply (pred_bind _ _ BITVECTOR_SLTBV); [intros; by right|exact He|done|].
  intros x y xs ys Hx Hy Hl Hne [?|[= -> ->]]; [done|]. apply sameLength_bind; [by rewrite (ebits_length _ _ _ Hx), (ebits_length _ _ _ Hy)|].
  destruct (sLessThan_spec env x y xs ys false) as (e&E&Hv); [done..|].
  eapply runs_lift_bind; [exact E|]. apply runs_ret. by eapply one_bit_ok.
Qed.

(** ** Division *)

Lemma isZero_circuit y ys : ebits y ys → ys ≠ [] →
  ∃ e, mkAndList ((λ bi, mkIff bi mkFalse) <$> y) = Some e ∧ evb env e (bool_decide (bval ys = 0)).
Proof using Type.
  intros Hy Hne. destruct (mkAndList_spec env ((λ bi, mkIff bi mkFalse) <$> y) ((λ b, Bool.eqb b false) <$> ys)) as (e&->&He).
  - clear Hne. induction Hy; constructor; [by apply evb_iff|done].
  - destruct Hy; done.
  - exists e. by rewrite all_zero in He.
Qed.

Lemma orOnes_spec cond c x xs : evb env cond c → ebits x xs →
  ebits (mkIte cond mkTrue <$> x) ((λ q, if c then true else q) <$> xs).
Proof using Type. intros Hc. induction 1; constructor; [by apply evb_ite|done]. Qed.

Lemma bval_ones (c : bool) xs : bval ((λ q, if c then true else q) <$> xs) = if c then 2 ^ len xs - 1 else bval xs.
Proof using Type.
  destruct c; [|by rewrite list_fmap_id]. rewrite <- bval_replicate_true. f_equal.
  induction xs as [|x xs IH]; [done|]. cbn in *. by rewrite IH.
Qed.

(** The quotient and the remainder, with the results for a zero divisor. *)
Lemma divmod_ok k g cs w z (Q : Bits * Bits → Prop) :
  (∀ vs, kind_eval k vs = bv_bin g vs) → node_ok (mkNode k cs) w z → Forall child_ok cs →
  (∀ quot rem qs rs A B, ebits quot qs → ebits rem rs → len qs = w → len rs = w → g w A B = z →
     bval qs = udiv w A B → bval rs = urem w A B → Q (quot, rem)) →
  runs (UdivUremBB bbt (mkNode k cs)) Q.
Proof using Type.
  intros Hk Hn Hcs HQ. pose proof Hn as (Hs&_). eapply bin_bind; [exact Hk|exact Hn|done|].
  intros x y xs ys Hx Hy Hl Hne Hw Hz. eapply runs_lift_bind; [exact Hs|].
  pose proof (bools_value_bound xs) as BX. pose proof (bools_value_bound ys) as BY. rewrite <- Hl, Hw in BY. rewrite Hw in BX.
  destruct (divider_spec env y ys Hy (Z.to_nat w) x xs Hx Hl) as (q&r&qs&rs&Hd&HQ'&HR&Hlq&Hlr&Hv); [rewrite Z2Nat.id; lia|].
  eapply runs_lift_bind; [exact Hd|]. destruct (isZero_circuit y ys Hy) as (e&He&Hev); [by intros ->; destruct xs|].
  eapply runs_lift_bind; [exact He|].
  destruct (choose_spec env e (bool_decide (bval ys = 0)) x r xs rs) as (r'&rs'&Hr'&HR'&Hlr'&Hvr'); [done..|].
  eapply runs_lift_bind; [exact Hr'|]. apply runs_ret. eapply HQ; [by apply orOnes_spec|exact HR'|..|exact Hz| |].
  - rewrite length_fmap. lia.
  - lia.
  - rewrite bval_ones. unfold udiv. case_bool_decide; [rewrite decide_True by done; by rewrite Hlq, Hw|rewrite decide_False by done; apply Hv; lia].
  - rewrite Hvr'. unfold urem. case_bool_decide; [by rewrite decide_True|rewrite decide_False by done; apply Hv; lia].
Qed.

Lemma udiv_ok cs w z : node_ok (mkNode BITVECTOR_UDIV cs) w z → Forall child_ok cs →
  runs (DefaultUdivBB bbt (mkNode BITVECTOR_UDIV cs)) (good (mkNode BITVECTOR_UDIV cs)).
Proof using Type.
  intros Hn Hcs. unfold DefaultUdivBB. eapply runs_bind; [eapply (divmod_ok BITVECTOR_UDIV udiv _ _ _ (λ p, good _ p.1) (λ _, eq_refl) Hn Hcs)|].
  - intros quot rem qs rs A B HQ _ Hl _ Hz Hv _. eapply good_intro; [exact Hn|exact HQ|done|]. by rewrite Hv, Hz.
  - intros [q r] Hg. by apply runs_ret.
Qed.

Lemma urem_ok cs w z : node_ok (mkNode BITVECTOR_UREM cs) w z → Forall child_ok cs →
  runs (DefaultUremBB bbt (mkNode BITVECTOR_UREM cs)) (good (mkNode BITVECTOR_UREM cs)).
Proof using Type.
  intros Hn Hcs. unfold DefaultUremBB. eapply runs_bind; [eapply (divmod_ok BITVECTOR_UREM urem _ _ _ (λ p, good _ p.2) (λ _, eq_refl) Hn Hcs)|].
  - intros quot rem qs rs A B _ HR _ Hl Hz _ Hv. eapply good_intro; [exact Hn|exact HR|done|]. by rewrite Hv, Hz.
  - intros [q r] Hg. by apply runs_ret.
Qed.
(** ** Shifts *)

Lemma uint_ok w : 0 < w ≤ max_uint32 → bv_ok (BV.new w w) = true ∧ node_ok (utils.mkConst w w) w w.
Proof using H0.
  intros Hw. pose proof (pow2_gt w ltac:(lia)). unfold utils.mkConst. rewrite new_small by lia.
  assert (bv_ok (mkBitVector w w) = true) as Hok. { unfold bv_ok, uint32. cbn [d_size d_value]. rewrite !bool_decide_true by lia. done. }
  split; [done|]. split_and!; [|lia|lia|lia|lia|done]. unfold getSize. cbn [typeOf]. rewrite Hok. cbn [assert mbind option_bind].
  unfold BitVectorConstantTypeRule. cbn [d_size]. by rewrite decide_False by lia.
Qed.

Lemma mux_spec cond c f fill x xs : evb env cond c → evb env f fill → ebits x xs →
  ebits ((λ p, mkIte cond p f) <$> x) ((λ p, if c then p else fill) <$> xs).
Proof using Type. intros Hc Hf. induction 1; constructor; [by apply evb_ite|done]. Qed.

Lemma bval_mux (c fill : bool) xs :
  bval ((λ p, if c then p else fill) <$> xs) = if c then bval xs else if fill then 2 ^ len xs - 1 else 0.
Proof using Type.
  destruct c; [by rewrite list_fmap_id|].
  replace ((λ _ : bool, fill) <$> xs) with (replicate (length xs) fill); [|by induction xs; simpl; f_equal].
  destruct fill; [apply bval_replicate_true|apply bval_replicate_false].
Qed.

(** The barrel shifter: [sh d] is the vector shifted by [d]; [f] is shifted in. *)
Lemma shift_ok k g stage fill (sh : list bool → bool → nat → nat → bool) cs w z :
  (∀ vs, kind_eval k vs = bv_bin g vs) → node_ok (mkNode k cs) w z → Forall child_ok cs →
  (∀ x xs, ebits x xs → xs ≠ [] → ∃ f b, fill x = Some f ∧ evb env f b ∧
     ebits_at env x (length xs) (sh xs b 0%nat) ∧
     (∀ s d i res bs y, ebits_at env res (length xs) (sh xs b d) → evb env bs y → (i < length xs)%nat →
        ∃ p, stage f s i res bs = Some p ∧ evb env p (sh xs b (if y then d + 2 ^ s else d)%nat i)) ∧
     (∀ d, 0 ≤ d < len xs → bval (sh xs b (Z.to_nat d) <$> seq 0 (length xs)) = g (len xs) (bval xs) d) ∧
     (∀ d, len xs ≤ d → (if b then 2 ^ len xs - 1 else 0) = g (len xs) (bval xs) d)) →
  runs (shiftBB bbt stage fill (mkNode k cs)) (good (mkNode k cs)).
Proof using H0.
  intros Hk Hn Hcs Hsh. pose proof Hn as (Hs&Hw0&_). eapply bin_bind; [exact Hk|exact Hn|done|].
  intros x y xs ys Hx Hy Hl Hne <- Hz. destruct (Hsh x xs Hx Hne) as (f&b&Hf&Hfb&Hx0&Hst&Hin&Hout).
  eapply runs_lift_bind; [exact Hs|]. destruct (uint_ok (len xs) Hw0) as [Hok Hc].
  destruct (const_ok _ _ _ Hc Hok) as (ws&Ews&wb&Hws&Hwne&Hwe). destruct Hc as (_&_&_&Hce). change (utils.mkConst (len xs) (len xs)) with (mkConstBV (BV.new (len xs) (len xs))) in Hce. rewrite Hce in Hwe. injection Hwe as Elw Evw.
  eapply runs_lift_bind; [exact Ews|].
  destruct (uLessThan_spec env y ws ys wb false) as (lt&Elt&Hlt); [done|done|lia|by intros ->; destruct xs|].
  rewrite <- Evw in Hlt. eapply runs_lift_bind; [exact Elt|]. eapply runs_lift_bind; [exact Hf|].
  assert (Z.of_nat (log2_size (len xs)) = Z.log2_up (len xs)) as Elog. { unfold log2_size. rewrite Z2Nat.id; [done|apply Z.log2_up_nonneg]. }
  pose proof (Z.log2_up_lt_lin (len xs) ltac:(lia)) as Hlog.
  destruct (barrel_loop env (stage f) (sh xs b) (length xs) x y ys (log2_size (len xs)) Hst Hx0 Hy) as (res&Eres&HR); [lia|].
  eapply runs_lift_bind; [exact Eres|]. apply runs_ret.
  eapply good_intro; [exact Hn|by apply mux_spec|rewrite !length_fmap, length_seq; lia|].
  rewrite bval_mux, length_fmap, length_seq, <- Hz. case_bool_decide as Hlt'.
  - rewrite bval_take by lia. rewrite Z.mod_small, Hin; [done|pose proof (bools_value_bound ys); lia|].
    pose proof (bools_value_bound ys). rewrite Elog. split; [lia|]. pose proof (Z.log2_up_le_pow2 (len xs) (Z.log2_up (len xs)) ltac:(lia)). lia.
  - apply Hout. lia.
Qed.
Lemma shr_bit_0 fill xs i : (i < length xs)%nat → xs !! i = Some (shr_bit fill xs 0 i).
Proof using Type.
  intros Hi. unfold shr_bit. rewrite Nat.add_0_r. by destruct (lookup_lt_is_Some_2 xs i Hi) as [b ->].
Qed.

Lemma shl_ok cs w z : node_ok (mkNode BITVECTOR_SHL cs) w z → Forall child_ok cs →
  runs (DefaultShlBB bbt (mkNode BITVECTOR_SHL cs)) (good (mkNode BITVECTOR_SHL cs)).
Proof using H0.
  intros Hn Hcs. apply (shift_ok BITVECTOR_SHL shl _ _ (λ xs _, shl_bit xs) _ w z (λ _, eq_refl) Hn Hcs).
  intros x xs Hx Hne. exists mkFalse, false. split_and!; [done|done| | | |].
  - apply ebits_at_intro; [done|]. intros i Hi. unfold shl_bit. rewrite decide_False, Nat.sub_0_r by lia.
    by destruct (lookup_lt_is_Some_2 xs i Hi) as [b ->].
  - intros. by apply shl_stage.
  - intros d Hd. by apply shl_value.
  - intros d Hd. unfold shl. by rewrite decide_False by lia.
Qed.

Lemma lshr_ok cs w z : node_ok (mkNode BITVECTOR_LSHR cs) w z → Forall child_ok cs →
  runs (DefaultLshrBB bbt (mkNode BITVECTOR_LSHR cs)) (good (mkNode BITVECTOR_LSHR cs)).
Proof using H0.
  intros Hn Hcs. apply (shift_ok BITVECTOR_LSHR lshr _ _ (λ xs b, shr_bit b xs) _ w z (λ _, eq_refl) Hn Hcs).
  intros x xs Hx Hne. exists mkFalse, false. split_and!; [done|done| | | |].
  - apply ebits_at_intro; [done|]. intros i Hi. by apply shr_bit_0.
  - intros. by apply shr_stage.
  - intros d Hd. by apply lshr_value.
  - intros d Hd. unfold lshr. by rewrite decide_False by lia.
Qed.

Lemma ebits_last x xs : ebits x xs → xs ≠ [] → ∃ f b, list.last x = Some f ∧ list.last xs = Some b ∧ evb env f b.
Proof using Type.
  intros Hx Hne. destruct (list.last xs) as [b|] eqn:E; [|by apply last_None in E].
  rewrite last_lookup in E. destruct (ebits_lookup env x xs _ b Hx E) as (f&Hf&Hb). exists f, b. split_and!; [|done|done].
  by rewrite last_lookup, (ebits_length _ _ _ Hx).
Qed.

(** The last bit is the sign. *)
Lemma last_sign xs b : list.last xs = Some b → (signed (len xs) (bval xs) < 0 ↔ b = true).
Proof using Type.
  intros E. assert (0 < len xs) as Hp by (destruct xs; [done|simpl; lia]). pose proof (bools_value_bound xs) as Hb.
  rewrite signed_neg by done. rewrite last_lookup in E. apply bval_lookup in E.
  replace (Z.of_nat (pred (length xs))) with (len xs - 1) in E by lia. rewrite msb_spec in E by done. rewrite <- E.
  by rewrite bool_decide_eq_true.
Qed.

Lemma ashr_ok cs w z : node_ok (mkNode BITVECTOR_ASHR cs) w z → Forall child_ok cs →
  runs (DefaultAshrBB bbt (mkNode BITVECTOR_ASHR cs)) (good (mkNode BITVECTOR_ASHR cs)).
Proof using H0.
  intros Hn Hcs. apply (shift_ok BITVECTOR_ASHR ashr _ _ (λ xs b, shr_bit b xs) _ w z (λ _, eq_refl) Hn Hcs).
  intros x xs Hx Hne. destruct (ebits_last x xs Hx Hne) as (f&b&Hf&Hb&Hfb). exists f, b. split_and!; [done|done| | | |].
  - apply ebits_at_intro; [done|]. intros i Hi. by apply shr_bit_0.
  - intros. by apply shr_stage.
  - intros d Hd. by apply ashr_value.
  - intros d Hd. unfold ashr. rewrite (decide_False (P := d < _)) by lia. pose proof (last_sign _ _ Hb) as Hsg.
    pose proof (pow2_pos (len xs)). destruct b; [rewrite decide_True by (by apply Hsg)|rewrite decide_False by (by rewrite Hsg)].
    + symmetry. apply wrap_eq with (-1); lia.
    + symmetry. apply wrap_small. lia.
Qed.

(** ** Selecting and extending *)

Lemma bvite_value c t e : bval (zip_with (λ p q, (negb c || p) && (c || q)) t e) = bval (zip_with (λ p q, if c then p else q) t e).
Proof using Type. f_equal. revert e. induction t as [|p t IH]; intros [|q e]; try done. cbn. f_equal; [by destruct c, p, q|apply IH]. Qed.

Lemma ite_ok cs w z : node_ok (mkNode BITVECTOR_ITE cs) w z → Forall child_ok cs →
  runs (DefaultIteBB bbt (mkNode BITVECTOR_ITE cs)) (good (mkNode BITVECTOR_ITE cs)).
Proof using Type.
  intros Hn Hcs. pose proof Hn as (_&_&_&He). destruct (eval_children _ _ _ _ He) as (vs&HM&Hv). cbn [kind_eval] in Hv.
  destruct vs as [|[| |[|[]|] vc] [|v1 [|v2 []]]]; try done. case_decide as Hsort; [|done]. apply mapM_Some in HM.
  inversion HM as [|a ? ? ? Ha HM1]; subst. inversion HM1 as [|b ? ? ? Hb HM2]; subst. inversion HM2 as [|c ? ? ? Hc HM3]; subst.
  inversion HM3; subst. inversion Hcs as [|? ? Ka Hcs1]; subst. inversion Hcs1 as [|? ? Kb Hcs2]; subst. inversion Hcs2 as [|? ? Kc _]; subst.
  unfold DefaultIteBB. do 3 (eapply runs_lift_bind; [done|]).
  eapply child_bind; [exact Ka|exact Ha|]. intros x xs Hx Hxne [= Elx ->] _.
  eapply child_bind; [exact Kb|exact Hb|]. intros t ts Ht Htne -> _.
  eapply child_bind; [exact Kc|exact Hc|]. intros e es He' Hene -> _. cbn [sort_of] in Hsort.
  destruct xs as [|c0 [|]]; try (simpl in Elx; lia). apply list.Forall2_cons_inv_r in Hx as (x0&x'&Hx0&Hx&->).
  apply Forall2_nil_inv_r in Hx as ->. eapply runs_lift_bind; [done|].
  assert (length ts = length es) as Hl by (injection Hsort; lia).
  apply sameLength_bind; [by rewrite (ebits_length _ _ _ Ht), (ebits_length _ _ _ He')|]. eapply runs_lift_bind; [done|].
  apply runs_lift. destruct (zipWith_spec env (λ t e, mkAnd (mkOr (mkNot x0) t) (mkOr x0 e)) (λ p q, (negb c0 || p) && (c0 || q)) t e ts es)
    as (r&->&HR); [|done..|].
  { intros. apply evb_and; apply evb_or; (done || by apply evb_not). }
  exists r. split; [done|]. cbn [bools_value b2z] in Hv. destruct c0; cbn [b2z] in Hv; simpl in Hv;
    injection Hv as Ew Ez; (eapply good_intro; [exact Hn|exact HR|rewrite zip_length; lia|]); rewrite bvite_value, <- Ez; f_equal.
  - clear - Hl. revert es Hl. induction ts as [|p t IH]; intros [|q e] Hl; try done. cbn. f_equal. apply IH. simpl in Hl. lia.
  - clear - Hl. revert es Hl. induction ts as [|p t IH]; intros [|q e] Hl; try done. cbn. f_equal. apply IH. simpl in Hl. lia.
Qed.

Lemma extract_ok h l cs w z : node_ok (mkNode (BITVECTOR_EXTRACT h l) cs) w z → Forall child_ok cs →
  runs (DefaultExtractBB bbt (mkNode (BITVECTOR_EXTRACT h l) cs)) (good (mkNode (BITVECTOR_EXTRACT h l) cs)).
Proof using Type.
  intros Hn Hcs. pose proof Hn as (_&_&_&He). destruct (eval_children _ _ _ _ He) as (vs&HM&Hv). cbn [kind_eval] in Hv.
  destruct vs as [|[| |w' a] []]; try done. case_decide as Hhl; [|done]. injection Hv as <- Hz.
  destruct (mapM_one env cs _ HM eq_refl) as (c&?&->&[= <-]&Hc). inversion Hcs; subst.
  unfold DefaultExtractBB. eapply runs_lift_bind; [done|]. eapply child_bind; [done|exact Hc|].
  intros x xs Hx _ [= -> ->] _. eapply runs_lift_bind; [done|]. cbn beta iota. pose proof (ebits_length _ _ _ Hx) as Hlx.
  eapply runs_lift_bind; [apply mapM_lookup; lia|]. apply runs_ret.
  eapply good_intro; [exact Hn|by apply Forall2_take, Forall2_drop|rewrite length_take, length_drop; lia|].
  rewrite bval_take, bval_drop by (rewrite ?length_drop; lia). unfold wrap. rewrite !Z2Nat.id by lia. done.
Qed.

Lemma sext_ok m cs w z : node_ok (mkNode (BITVECTOR_SIGN_EXTEND m) cs) w z → Forall child_ok cs →
  runs (DefaultSignExtendBB bbt (mkNode (BITVECTOR_SIGN_EXTEND m) cs)) (good (mkNode (BITVECTOR_SIGN_EXTEND m) cs)).
Proof using Type.
  intros Hn Hcs. pose proof Hn as (_&_&_&He). destruct (eval_children _ _ _ _ He) as (vs&HM&Hv). cbn [kind_eval] in Hv.
  destruct vs as [|[| |w' a] []]; try done. case_decide as Hm; [|done]. injection Hv as <- Hz.
  destruct (mapM_one env cs _ HM eq_refl) as (c&?&->&[= <-]&Hc). inversion Hcs; subst.
  unfold DefaultSignExtendBB. eapply runs_lift_bind; [done|]. eapply child_bind; [done|exact Hc|].
  intros x xs Hx Hne [= -> ->] _. destruct (ebits_last x xs Hx Hne) as (f&b&Hf&Hb&Hfb).
  eapply runs_lift_bind; [exact Hf|]. eapply runs_lift_bind; [done|]. apply runs_ret.
  eapply (good_intro _ _ _ _ _ (xs ++ replicate (Z.to_nat m) b)); [exact Hn| |rewrite length_app, length_replicate; lia|].
  - apply Forall2_app; [done|]. by apply Forall2_replicate.
  - rewrite bval_app. pose proof (last_sign _ _ Hb) as Hsg. pose proof (bools_value_bound xs) as HB.
    pose proof (pow2_add m (len xs) ltac:(lia) ltac:(lia)) as Hp. pose proof (pow2_pos m ltac:(lia)).
    pose proof (pow2_pos (len xs) ltac:(lia)). unfold signed in *. destruct b.
    + rewrite bval_replicate_true, Z2Nat.id by lia. destruct (decide _); [destruct Hsg as [_ Hsg]; specialize (Hsg eq_refl); lia|].
      symmetry. apply wrap_eq with (-1); [rewrite Hp; nia|rewrite Hp; lia].
    + rewrite bval_replicate_false. destruct (decide _); [|destruct Hsg as [Hsg _]; discriminate Hsg; lia].
      symmetry. rewrite Z.mul_0_r, Z.add_0_r. apply wrap_small. rewrite Hp. nia.
Qed.
(** ** Concatenation *)

(** The width and the value of operands, the least significant first. *)
Fixpoint crev (vs : list value) : Z * Z :=
  match vs with
  | VBV w v :: vs => (w + (crev vs).1, v + 2 ^ w * (crev vs).2)
  | _ => (0, 0)
  end.

Definition bv_value (v : value) : Prop := ∃ w z, v = VBV w z ∧ 0 ≤ w.

Lemma crev_snoc l w v : Forall bv_value l → 0 ≤ w →
  crev (l ++ [VBV w v]) = ((crev l).1 + w, (crev l).2 + 2 ^ (crev l).1 * v) ∧ 0 ≤ (crev l).1.
Proof using Type.
  induction 1 as [|u l (wu&zu&->&Hwu) _ IH]; intros Hw; cbn [app crev fst snd].
  - split; [f_equal; [lia|rewrite Z.pow_0_r, Z.mul_0_r; lia]|lia].
  - destruct (IH Hw) as [-> Hc]. cbn [fst snd]. split; [|lia]. f_equal; [lia|]. rewrite (pow2_add wu) by lia. lia.
Qed.

Lemma concat_fold_rev vs : ∀ w acc w' z, Forall bv_value vs → concat_fold w acc vs = Some (VBV w' z) →
  w' = w + (crev (reverse vs)).1 ∧ z = acc * 2 ^ (crev (reverse vs)).1 + (crev (reverse vs)).2.
Proof using Type.
  induction vs as [|v vs IH]; intros w acc w' z HF E; cbn [concat_fold] in E.
  - injection E as <- <-. change (reverse []) with (@nil value). cbn [crev fst snd]. rewrite Z.pow_0_r. lia.
  - inversion HF as [|? ? (wu&zu&->&Hwu) HF']; subst. destruct (IH _ _ _ _ HF' E) as [-> ->]. rewrite reverse_cons.
    destruct (crev_snoc (reverse vs) wu zu) as [-> Hc]; [by apply Forall_reverse|done|]. cbn [fst snd]. split; [lia|].
    rewrite pow2_add by lia. lia.
Qed.

Lemma concatBB_ok cs vs : Forall2 (λ c v, eval env c = Some v) cs vs → ∀ bits bs,
  Forall child_ok cs → ebits bits bs →
  runs (concatBB bbt cs bits) (λ r, ∃ rs, ebits r rs ∧ len rs = len bs + (crev vs).1 ∧
    bval rs = bval bs + 2 ^ len bs * (crev vs).2).
Proof using Type.
  induction 1 as [|c v cs vs Hc _ IH]; intros bits bs Hcs Hb; cbn [concatBB crev fst snd].
  - apply runs_ret. exists bs. split_and!; [done|lia|lia].
  - inversion Hcs; subst. eapply child_bind; [done|exact Hc|]. intros x xs Hx _ -> Hs.
    eapply runs_lift_bind; [exact Hs|]. rewrite Nat2Z.id. eapply runs_lift_bind.
    { apply mapM_lookup. rewrite (ebits_length _ _ _ Hx). lia. }
    rewrite drop_0, take_ge by (rewrite (ebits_length _ _ _ Hx); lia).
    eapply runs_mono; [apply (IH (bits ++ x) (bs ++ xs)); [done|by apply Forall2_app]|].
    intros r (rs&HR&Hl&Hv). exists rs. cbn [fst snd]. rewrite length_app, Nat2Z.inj_add in Hl, Hv. rewrite bval_app, pow2_add in Hv by lia.
    split_and!; [done|lia|lia].
Qed.

Lemma concat_ok cs w z : node_ok (mkNode BITVECTOR_CONCAT cs) w z → Forall child_ok cs →
  runs (DefaultConcatBB bbt (mkNode BITVECTOR_CONCAT cs)) (good (mkNode BITVECTOR_CONCAT cs)).
Proof using Type.
  intros Hn Hcs. pose proof Hn as (Hs&_&_&He). destruct (eval_children _ _ _ _ He) as (vs&HM&Hv). apply mapM_Some in HM.
  assert (Forall bv_value vs) as Hvs.
  { clear - HM Hcs. induction HM as [|c v cs vs Hc _ IH]; [constructor|]. inversion Hcs as [|? ? (_&wc&zc&_&?&_&Ec) ?]; subst.
    constructor; [|by apply IH]. rewrite Ec in Hc. injection Hc as <-. exists wc, zc. split; [done|lia]. }
  assert (w = (crev (reverse vs)).1 ∧ z = (crev (reverse vs)).2) as [Ew Ez].
  { cbn [kind_eval] in Hv. inversion Hvs as [|v1 vs1 (w1&z1&->&Hw1) Hvs1]; subst; [done|]. cbn [bv_concat] in Hv.
    destruct vs1 as [|v2 vs2]; [done|]. destruct (concat_fold_rev _ _ _ _ _ Hvs1 Hv) as [-> ->]. rewrite (reverse_cons (v2 :: vs2)).
    destruct (crev_snoc (reverse (v2 :: vs2)) w1 z1) as [-> Hc]; [by apply Forall_reverse|done|]. cbn [fst snd]. lia. }
  unfold DefaultConcatBB. cbn [children].
  eapply runs_bind; [apply (concatBB_ok _ (reverse vs)) with (bs := []);
    [by apply Forall2_reverse|by apply Forall_reverse|constructor]|].
  intros r (rs&HR&Hl&Hvr). eapply runs_lift_bind; [exact Hs|]. cbn [length bools_value] in Hl, Hvr.
  eapply runs_lift_bind; [rewrite (ebits_length _ _ _ HR), bool_decide_true by lia; done|]. apply runs_ret.
  eapply good_intro; [exact Hn|exact HR|lia|]. rewrite Hvr. change (Z.of_nat 0) with 0. rewrite Z.pow_0_r. lia.
Qed.

(** ** Atoms *)

(** A comparison and its circuit. *)
Definition atom_good (n n' : Node) : Prop := eval env n' = eval env n.

Lemma atom_ok k g cs v (circuit : Bits → Bits → option Node) :
  (∀ vs, kind_eval k vs = bv_pred g vs) → eval env (mkNode k cs) = Some v → Forall child_ok cs →
  (∀ x y xs ys, ebits x xs → ebits y ys → length xs = length ys → xs ≠ [] →
     ∃ e, circuit x y = Some e ∧ evb env e (g (len xs) (bval xs) (bval ys))) →
  runs ('(a, b) ← bothBB bbt (mkNode k cs); _ ← sameLength a b; lift (circuit a b)) (atom_good (mkNode k cs)).
Proof using Type.
  intros Hk He Hcs Hc. eapply pred_bind; [intros; left; apply Hk|exact He|done|].
  intros x y xs ys Hx Hy Hl Hne Hv. apply sameLength_bind; [by rewrite (ebits_length _ _ _ Hx), (ebits_length _ _ _ Hy)|].
  apply runs_lift. destruct (Hc x y xs ys) as (e&->&Hev); [done..|]. exists e. split; [done|]. unfold atom_good. rewrite He.
  destruct Hv as [-> | ->]; [done|]. exfalso. clear - He Hk. destruct (eval_children _ _ _ _ He) as (vs&_&Hkv). rewrite Hk in Hkv.
  destruct vs as [|[] [|[] []]]; try done. cbn in Hkv. by case_decide.
Qed.

Lemma ult_atom_ok cs v : eval env (mkNode BITVECTOR_ULT cs) = Some v → Forall child_ok cs →
  runs (DefaultUltBB bbt (mkNode BITVECTOR_ULT cs)) (atom_good (mkNode BITVECTOR_ULT cs)).
Proof using Type.
  intros He Hcs. eapply (atom_ok BITVECTOR_ULT _ _ _ (λ a b, uLessThanBB a b false)); [by intros|exact He|done|].
  intros. by eapply (uLessThan_spec env _ _ _ _ false).
Qed.
Lemma ule_atom_ok cs v : eval env (mkNode BITVECTOR_ULE cs) = Some v → Forall child_ok cs →
  runs (DefaultUleBB bbt (mkNode BITVECTOR_ULE cs)) (atom_good (mkNode BITVECTOR_ULE cs)).
Proof using Type.
  intros He Hcs. eapply (atom_ok BITVECTOR_ULE _ _ _ (λ a b, uLessThanBB a b true)); [by intros|exact He|done|].
  intros. by eapply (uLessThan_spec env _ _ _ _ true).
Qed.
Lemma slt_atom_ok cs v : eval env (mkNode BITVECTOR_SLT cs) = Some v → Forall child_ok cs →
  runs (DefaultSltBB bbt (mkNode BITVECTOR_SLT cs)) (atom_good (mkNode BITVECTOR_SLT cs)).
Proof using Type.
  intros He Hcs. eapply (atom_ok BITVECTOR_SLT _ _ _ (λ a b, sLessThanBB a b false)); [by intros|exact He|done|].
  intros. by eapply (sLessThan_spec env _ _ _ _ false).
Qed.
Lemma sle_atom_ok cs v : eval env (mkNode BITVECTOR_SLE cs) = Some v → Forall child_ok cs →
  runs (DefaultSleBB bbt (mkNode BITVECTOR_SLE cs)) (atom_good (mkNode BITVECTOR_SLE cs)).
Proof using Type.
  intros He Hcs. eapply (atom_ok BITVECTOR_SLE _ _ _ (λ a b, sLessThanBB a b true)); [by intros|exact He|done|].
  intros. by eapply (sLessThan_spec env _ _ _ _ true).
Qed.
Lemma equal_atom_ok cs v : eval env (mkNode EQUAL cs) = Some v → Forall child_ok cs →
  runs (DefaultEqBB bbt (mkNode EQUAL cs)) (atom_good (mkNode EQUAL cs)).
Proof using Type.
  intros He Hcs. eapply both_bind; [exact He|done|by intros [|? [|? []]] v' Hv'|]. intros x y xs ys Hx Hy Hxne Hyne Hv.
  cbn [kind_eval sort_of] in Hv. case_decide as Hs; [|done]. assert (length xs = length ys) as Hl by (injection Hs; lia).
  injection Hv as Hv. apply sameLength_bind; [by rewrite (ebits_length _ _ _ Hx), (ebits_length _ _ _ Hy)|].
  destruct (eqs_ok x y xs ys) as (eqs&e&Eeqs&Ee&Hev); [done..|]. eapply runs_lift_bind; [exact Eeqs|]. apply runs_lift.
  exists e. split; [done|]. unfold atom_good. rewrite He, Hev, <- Hv. do 2 f_equal. apply bool_decide_ext. rewrite Hl. split; congruence.
Qed.

(** The carry of the adder alone. *)
Lemma adderUltLoop_carry a : ∀ b res c r c', adderLoop a b res c = Some (r, c') → adderUltLoop a b c = Some c'.
Proof using Type.
  induction a as [|x a IH]; intros [|y b] res c r c' E; cbn [adderLoop adderUltLoop] in *; try done; [congruence|by eapply IH].
Qed.

(** The alternative circuit for the unsigned comparison. *)
Lemma adder_ult_atom_ok cs v : eval env (mkNode BITVECTOR_ULT cs) = Some v → Forall child_ok cs →
  runs (AdderUltBB bbt (mkNode BITVECTOR_ULT cs)) (atom_good (mkNode BITVECTOR_ULT cs)).
Proof using Type.
  intros He Hcs. eapply (pred_bind _ _ BITVECTOR_ULT); [intros; by left|exact He|done|].
  intros x y xs ys Hx Hy Hl Hne Hv. apply sameLength_bind; [by rewrite (ebits_length _ _ _ Hx), (ebits_length _ _ _ Hy)|].
  destruct (minus_spec env x y xs ys) as (r&c&rs&?&E&_&Hc&_&_&->); [done..|].
  unfold rippleCarryAdder in E. apply bind_Some in E as ([]&_&E). apply adderUltLoop_carry in E.
  eapply runs_lift_bind; [exact E|]. apply runs_ret. unfold atom_good. rewrite He, (evb_not _ _ _ Hc).
  destruct Hv as [-> | ->].
  - do 2 f_equal. repeat case_bool_decide; (done || lia).
  - exfalso. clear - He. destruct (eval_children _ _ _ _ He) as (vs&_&Hkv).
    destruct vs as [|[] [|[] []]]; try done. cbn in Hkv. by case_decide.
Qed.
End strategies.
