(* ===== verification/BitblastSound.v ===== *)
(** The bit-blaster is correct: for every typed bit-vector term over the supported
    kinds it returns, and the bits it returns have the value of the term in every valuation; the
    formula stored for an atom is equivalent to the atom. *)
From stdpp Require Import base option list gmap numbers.
From S2P Require Import Prelude Integer Node TypeRules Semantics BvArith TypeSound BitVectorUtil BvElim BvTerms Bitblast BitblastCircuits BitblastShift BitblastLogic BitblastStrategies.
Open Scope Z_scope.

(** The kinds whose strategy is [Unreachable] or [Unimplemented]: the rewriter
    eliminates them. *)
Definition unimplemented (k : Kind) : bool :=
  match k with
  | BITVECTOR_NAND | BITVECTOR_NOR | BITVECTOR_SDIV | BITVECTOR_SREM | BITVECTOR_SMOD | BITVECTOR_REPEAT _
  | BITVECTOR_ZERO_EXTEND _ | BITVECTOR_ROTATE_RIGHT _ | BITVECTOR_ROTATE_LEFT _ => true
  | _ => false
  end.

(** The kinds with a circuit. *)
Definition has_circuit (k : Kind) : bool :=
  match k with
  | BITVECTOR_NOT | BITVECTOR_CONCAT | BITVECTOR_AND | BITVECTOR_OR | BITVECTOR_XOR | BITVECTOR_XNOR | BITVECTOR_COMP
  | BITVECTOR_MULT | BITVECTOR_ADD | BITVECTOR_SUB | BITVECTOR_NEG | BITVECTOR_UDIV | BITVECTOR_UREM | BITVECTOR_SHL
  | BITVECTOR_LSHR | BITVECTOR_ASHR | BITVECTOR_ULTBV | BITVECTOR_SLTBV | BITVECTOR_ITE | BITVECTOR_EXTRACT _ _
  | BITVECTOR_SIGN_EXTEND _ => true
  | _ => false
  end.

(** The terms the bit-blaster handles: other terms are variables to it. *)
Fixpoint supported (n : Node) : bool :=
  match n with
  | mkNode k cs => negb (unimplemented k) && (negb (has_circuit k) || forallb supported cs)
  | _ => true
  end.

(** A circuit has bit-vector operands. *)
Lemma circuit_operands k vs w z :
  has_circuit k = true → kind_eval k vs = Some (VBV w z) → Forall (λ v, ∃ w z, v = VBV w z) vs.
Proof.
  assert (∀ f w acc l r, bv_fold f w acc l = Some r → Forall (λ v, ∃ w z, v = VBV w z) l) as Hfold.
  { intros f w' acc l. revert acc. induction l as [|[] l IH]; intros acc r E; try done.
    cbn [bv_fold] in E. case_decide; [|done]. constructor; eauto. }
  assert (∀ w acc l r, concat_fold w acc l = Some r → Forall (λ v, ∃ w z, v = VBV w z) l) as Hcat.
  { intros w' acc l. revert w' acc. induction l as [|[] l IH]; intros w' acc r E; try done.
    cbn [concat_fold] in E. constructor; eauto. }
  intros Hk E. destruct k; try done; cbn [kind_eval] in E.
  all: destruct vs as [|[| |w1 z1] vs]; try done; cbn [bv_concat bv_nary bv_un bv_bin bv_pred as_bit] in E.
  all: try (destruct vs as [|v2 vs]; [done|]; constructor; [eauto|]; first [by eapply Hfold | by eapply Hcat]).
  all: destruct vs as [|[| |w2 z2] vs]; try done; try (by repeat constructor; eauto).
  all: try (destruct w1 as [|[]|]; try done); destruct vs as [|[] []]; try done; try case_decide; try done; try (by repeat constructor; eauto).
  all: simplify_eq/=; try case_decide; simplify_eq/=.
Qed.

(** The operands of a comparison. *)
Lemma pred2_operands cs : typeOf (mkNode BITVECTOR_ULT cs) = Some BOOLEAN_TYPE → concrete (mkNode BITVECTOR_ULT cs) = true →
  ∃ a b w, cs = [a; b] ∧ typeOf a = Some (BITVECTOR_TYPE w) ∧ typeOf b = Some (BITVECTOR_TYPE w).
Proof.
  intros Ht Hc. destruct (pred2_inv BITVECTOR_ULT cs _ (λ _, eq_refl) (λ _, eq_refl) Ht Hc) as (a&b&w&->&_&_&?&?&_&_). by exists a, b, w.
Qed.

Section bitblaster.
Context `{!Gmp, !GmpLaws}.

(** ** At one valuation *)
Section valuation.
Context (env : Env) (Henv : env_ok env).

Lemma typed_node_ok n w : typeOf n = Some (BITVECTOR_TYPE w) → concrete n = true → ∃ z, node_ok env n w z.
Proof using Henv.
  intros Ht Hc. pose proof (typeOf_ok_gen _ _ Ht) as Hok. cbn [type_ok] in Hok. apply bool_decide_eq_true in Hok.
  destruct (type_sound_gen env n _ Ht Hc Henv) as (v&Hv&(_&z&->&Hz)%has_type_bv). exists z. split_and!; try (done || lia).
  unfold getSize. by rewrite Ht.
Qed.

Lemma strategy_ok bbt n w z :
  node_ok env n w z → typeOf n = Some (BITVECTOR_TYPE w) → supported n = true →
  (∀ k, n = mkNode k (children n) → has_circuit k = true → Forall (child_ok env bbt) (children n)) →
  runs env (termBBStrategy bbt n) (good env n).
Proof using All.
  intros Hn Ht Hs Hcs. destruct n as [id ty|b|i|bv|k cs]; cbn [termBBStrategy].
  - by eapply var_ok.
  - by destruct Hn as (_&_&_&?).
  - by destruct Hn as (_&_&_&?).
  - apply runs_lift. cbn [typeOf] in Ht. apply bind_Some in Ht as ([]&Hok%assert_Some&_). by eapply const_ok.
  - cbn [supported] in Hs. apply andb_true_iff in Hs as [Hu%negb_true_iff _].
    assert (has_circuit k = true → Forall (child_ok env bbt) cs) as Hcs' by (by apply Hcs). clear Hcs.
    destruct (has_circuit k) eqn:Hk; [specialize (Hcs' eq_refl)|clear Hcs'; destruct k; try done; by eapply var_ok].
    destruct k; try done;
      eauto using not_ok, concat_ok, and_ok, or_ok, xor_ok, xnor_ok, comp_ok, mult_ok, add_ok, sub_ok, neg_ok,
        udiv_ok, urem_ok, shl_ok, lshr_ok, ashr_ok, ultbv_ok, sltbv_ok, ite_ok, extract_ok, sext_ok.
Qed.

Lemma store_ok n bits : good env n bits → runs env (storeBBTerm n bits) (λ _, True).
Proof using Type.
  intros Hg st [Ht Ha]. eexists _, _. split; [done|]. split; [|done]. destruct (d_termCache st !! n) eqn:E; [by split|].
  split; [|done]. intros n' bits'. cbn. rewrite lookup_insert_Some. intros [[<- <-]|[_ ?]]; [done|by apply Ht].
Qed.

(** The operands of a circuit are typed bit-vectors. *)
Lemma operand_types k cs w : typeOf (mkNode k cs) = Some (BITVECTOR_TYPE w) → concrete (mkNode k cs) = true → has_circuit k = true →
  Forall (λ c, concrete c = true ∧ ∃ w, typeOf c = Some (BITVECTOR_TYPE w)) cs.
Proof using Henv.
  intros Ht Hc Hk. destruct (typed_node_ok _ _ Ht Hc) as (z&_&_&_&He).
  destruct (eval_children env _ _ _ He) as (vs&HM&Hv). pose proof (circuit_operands _ _ _ _ Hk Hv) as HF.
  apply concrete_node in Hc as [Hcs _]. cbn [typeOf] in Ht. nofail.
  match goal with H : mapM typeOf _ = Some _ |- _ => rename H into HT end. clear - Henv HM HF Hcs HT.
  apply mapM_Some in HM. revert x0 HT Hcs HF. induction HM as [|c v cs vs Hc _ IH]; intros ts HT Hcs HF; [constructor|].
  inversion HF as [|? ? (wc&zc&->) HF']; subst. cbn [mapM] in HT. nofail. constructor; [|by eapply IH].
  split; [done|]. match goal with H : typeOf c = Some ?t |- _ => destruct (type_sound_gen env c t) as (v&Hv&[Hs _]); [done..|] end.
  rewrite Hc in Hv. injection Hv as <-. cbn in Hs. eexists. by rewrite Hs.
Qed.

Lemma bbTerm_step n fuel w :
  typeOf n = Some (BITVECTOR_TYPE w) → concrete n = true → supported n = true →
  (∀ k, n = mkNode k (children n) → has_circuit k = true → Forall (child_ok env (bbTerm fuel)) (children n)) →
  runs env (bbTerm (S fuel) n) (good env n).
Proof using All.
  intros Ht Hc Hs Hcs. destruct (typed_node_ok n w Ht Hc) as (z&Hn). pose proof (strategy_ok _ n w z Hn Ht Hs Hcs) as Hr.
  cbn [bbTerm]. eapply runs_lift_bind; [exact Ht|]. eapply runs_lift_bind; [done|].
  intros st Hst. rewrite (bind_eq _ _ _ st st) by done.
  destruct (d_termCache st !! n) as [bits|]  eqn:E; [exists bits, st; split_and!; [done|done|by apply (ok_terms env st)]|].
  refine (runs_bind env _ _ _ _ Hr _ st Hst). clear st Hst E. intros bits Hg. pose proof Hn as (Hsz&_&_&He).
  eapply runs_lift_bind; [exact Hsz|]. eapply runs_lift_bind.
  { destruct Hg as (bs&Hb&_&Hbe). rewrite He in Hbe. injection Hbe as ->. by rewrite (ebits_length _ _ _ Hb), bool_decide_true. }
  eapply runs_bind; [by apply store_ok|]. intros [] _. by apply runs_ret.
Qed.

Lemma bbTerm_runs n : ∀ fuel w,
  (nsize n ≤ fuel)%nat → typeOf n = Some (BITVECTOR_TYPE w) → concrete n = true → supported n = true →
  runs env (bbTerm fuel n) (good env n).
Proof using All.
  induction n as [id ty|b|i|bv|k cs IH] using Node_ind'; intros [|fuel] w Hf Ht Hc Hs; try (simpl in Hf; lia);
    (eapply bbTerm_step; [done..|]); intros k' E Hk; try discriminate E. injection E as <-. cbn [children].
  pose proof (operand_types k cs w Ht Hc Hk) as HT.
  cbn [supported] in Hs. rewrite Hk in Hs. apply andb_true_iff in Hs as [_ Hs]. cbn [negb orb] in Hs.
  assert (∀ c, c ∈ cs → nsize c ≤ fuel)%nat as Hsz by (intros c Hin; pose proof (nsize_child k cs c Hin); lia).
  clear - IH HT Hs Hsz Henv. induction IH as [|c cs Hc _ IHl]; [constructor|]. inversion HT as [|? ? (Hcc&wc&Htc) HT']; subst.
  cbn [forallb] in Hs. apply andb_true_iff in Hs as [Hsc Hs]. constructor.
  - split; [eapply Hc; try done; apply Hsz; left|]. destruct (typed_node_ok c wc Htc Hcc) as (zc&?). by exists wc, zc.
  - apply IHl; [done|done|]. intros. apply Hsz. by right.
Qed.

(** ** Atoms *)

(** The atoms with a circuit, on supported bit-vector terms, and the formulas
    that need none. *)
Definition supported_operand (c : Node) : bool :=
  supported c && match typeOf c with Some t => isBitVector t | None => false end.

Definition supported_atom (n : Node) : bool :=
  match n with
  | mkConstBool _ | mkNode (BITVECTOR_BIT _) _ => true
  | mkNode (EQUAL | BITVECTOR_ULT | BITVECTOR_ULE | BITVECTOR_SLT | BITVECTOR_SLE) cs => forallb supported_operand cs
  | _ => false
  end.

Lemma operands_ok k cs fuel :
  concrete (mkNode k cs) = true → forallb supported_operand cs = true → (nsize (mkNode k cs) ≤ S fuel)%nat →
  Forall (child_ok env (bbTerm fuel)) cs.
Proof using All.
  intros Hc Hs Hf. apply concrete_node in Hc as [Hc _].
  assert (∀ c, c ∈ cs → nsize c ≤ fuel)%nat as Hsz by (intros c Hin; pose proof (nsize_child k cs c Hin); lia). clear Hf.
  induction cs as [|c cs IH]; [constructor|]. cbn [forallb] in Hc, Hs. apply andb_true_iff in Hc as [Hcc Hc], Hs as [Hsc Hs].
  unfold supported_operand in Hsc. apply andb_true_iff in Hsc as [Hsc Htc]. destruct (typeOf c) as [[| |wc|]|] eqn:Et; try done.
  constructor; [|apply IH; [done|done|intros; apply Hsz; by right]]. split.
  - eapply bbTerm_runs; try done. apply Hsz. left.
  - destruct (typed_node_ok c wc Et Hcc) as (zc&?). by exists wc, zc.
Qed.

Lemma applyAtom_ok k cs v :
  supported_atom (mkNode k cs) = true → concrete (mkNode k cs) = true → eval env (mkNode k cs) = Some v →
  (∀ i, k ≠ BITVECTOR_BIT i) → runs env (applyAtomBBStrategy (mkNode k cs)) (atom_good env (mkNode k cs)).
Proof using All.
  intros Hs Hc He Hb. unfold applyAtomBBStrategy. assert (Forall (child_ok env (bbTerm (nsize (mkNode k cs)))) cs) as Hcs.
  { eapply operands_ok; [done| |lia]. destruct k; try done. by destruct (Hb d_bitIndex). }
  destruct k; try done; cbn [atomBBStrategy];
    eauto using equal_atom_ok, ult_atom_ok, ule_atom_ok, slt_atom_ok, sle_atom_ok. by destruct (Hb d_bitIndex).
Qed.

Lemma storeAtom_ok n n' st : cache_ok env st → eval env n' = eval env n →
  ∃ st', storeBBAtom n n' st = Some ((), st') ∧ cache_ok env st' ∧ is_Some (d_bbAtoms st' !! n).
Proof using Type.
  intros [Ht Ha] He. eexists. split; [done|]. destruct (d_bbAtoms st !! n) eqn:E; [by split; [split|eexists]|].
  split; [|cbn; by rewrite lookup_insert_eq]. split; [done|]. intros m m'. cbn. rewrite lookup_insert_Some.
  intros [[<- <-]|[_ ?]]; [done|by apply Ha].
Qed.

(** [bbAtom] on an atom that is not a negation. *)
Lemma bbAtom_runs rewrite atom v st :
  eval env (rewrite atom) = eval env atom → (∀ f st', bbNormalized (rewrite atom) st = Some (f, st') → eval env (rewrite f) = eval env f) →
  stripNot atom = Some atom → eval env atom = Some v → concrete (rewrite atom) = true → supported_atom (rewrite atom) = true →
  cache_ok env st →
  ∃ st', bbAtom rewrite atom st = Some ((), st') ∧ cache_ok env st' ∧ is_Some (d_bbAtoms st' !! atom).
Proof using All.
  intros Hra Hrf Hat He Hc Hs Hst. unfold bbAtom. rewrite (lift_bind _ _ _ atom Hat), (bind_eq _ _ _ st st) by done.
  unfold hasBBAtom. rewrite Hat. case_bool_decide as Hin; [by exists st|].
  assert (runs env (bbNormalized (rewrite atom)) (atom_good env (rewrite atom))) as Hr.
  { rewrite He in Hra. clear Hrf. unfold bbNormalized. destruct (rewrite atom) as [| | | |k cs]; try done; [by apply runs_ret|].
    assert ((∀ i, k ≠ BITVECTOR_BIT i) → runs env (applyAtomBBStrategy (mkNode k cs)) (atom_good env (mkNode k cs))) as Ha
      by (by eapply applyAtom_ok).
    destruct k; try (by apply Ha). by apply runs_ret. }
  destruct (Hr st Hst) as (bb&st1&E1&Hst1&Hg). rewrite (bind_eq _ _ _ _ _ E1). apply storeAtom_ok; [done|].
  unfold atom_good in Hg. by rewrite (Hrf _ _ E1), Hg, Hra.
Qed.
End valuation.

(** ** In every valuation *)

Definition cacheInv (st : NodeBitblaster) : Prop := ∀ env, env_ok env → cache_ok env st.

(** C2: a typed bit-vector term of concrete types in which [bvnand], [bvnor],
    [bvsdiv], [bvsrem], [bvsmod], [repeat], [zero_extend] and the rotations do not
    occur where the bit-blaster looks (the rewriter eliminates these; a kind without a
    circuit, such as [ite], is a variable to it) is bit-blasted with as much fuel as it
    has symbols: the bits are as many as
    the width of the term, they have its value in every valuation, and the
    cache stays correct. *)
Theorem bbTerm_correct n w fuel st :
  typeOf n = Some (BITVECTOR_TYPE w) → concrete n = true → supported n = true → (nsize n ≤ fuel)%nat → cacheInv st →
  ∃ bits st', bbTerm fuel n st = Some (bits, st') ∧ Z.of_nat (length bits) = w ∧ cacheInv st' ∧
    ∀ env, env_ok env → ∃ bs, mapM (eval env) bits = Some (VBool <$> bs) ∧ eval env n = Some (VBV w (bools_value bs)).
Proof.
  intros Ht Hc Hs Hf Hst.
  destruct (bbTerm_runs env0 env0_ok n fuel w Hf Ht Hc Hs st (Hst _ env0_ok)) as (bits&st'&E&_&bs&Hb&_&He).
  destruct (typed_node_ok env0 env0_ok n w Ht Hc) as (z&_&_&_&Hz). exists bits, st'. split_and!; [done| | |].
  - rewrite (ebits_length _ _ _ Hb). rewrite Hz in He. by injection He.
  - intros env Hok. destruct (bbTerm_runs env Hok n fuel w Hf Ht Hc Hs st (Hst _ Hok)) as (?&?&E'&?&_). congruence.
  - intros env Hok. destruct (bbTerm_runs env Hok n fuel w Hf Ht Hc Hs st (Hst _ Hok)) as (?&?&E'&_&bs'&Hb'&_&He').
    rewrite E in E'. injection E' as <- <-. exists bs'. split; [by apply mapM_ebits|].
    destruct (typed_node_ok env Hok n w Ht Hc) as (z'&_&_&_&Hz'). rewrite He' in Hz' |- *. injection Hz' as <- _. done.
Qed.

Lemma eval_negate env n b : eval env n = Some (VBool b) → eval env (negate n) = Some (VBool (negb b)).
Proof.
  intros He. assert (eval env (mkNode NOT [n]) = Some (VBool (negb b))) as Hn by (cbn; by rewrite He).
  destruct n as [| | | |k [|c []]]; try done; destruct k; try done. cbn [negate]. cbn in He.
  destruct (eval env c) as [[b'| |]|]; try done. cbn in He. injection He as <-. by rewrite negb_involutive.
Qed.

(** C20: [bbAtom] on an atom of concrete type or on its negation, for a rewriter that
    keeps the value of the atom and of the formula that is computed for it, and whose
    form of the atom is a Boolean constant, a bit of a term, or an equality or one of
    the comparisons [bvult], [bvule], [bvslt] and [bvsle] of terms that can be
    bit-blasted: it returns, and the formula that is stored for the literal is
    equivalent to it in every valuation. *)
Theorem bbAtom_correct (rewrite : Node → Node) atom node st :
  (∀ env, env_ok env → eval env (rewrite atom) = eval env atom) →
  (∀ f st', bbNormalized (rewrite atom) st = Some (f, st') → ∀ env, env_ok env → eval env (rewrite f) = eval env f) →
  typeOf atom = Some BOOLEAN_TYPE → concrete atom = true → isKind NOT atom = false →
  concrete (rewrite atom) = true → supported_atom (rewrite atom) = true →
  node = atom ∨ node = mkNode NOT [atom] → cacheInv st →
  ∃ st' n', bbAtom rewrite node st = Some ((), st') ∧ cacheInv st' ∧ getStoredBBAtom node st' = Some n' ∧
    ∀ env, env_ok env → eval env n' = eval env node.
Proof.
  intros Hra Hrf Ht Hc Hnot Hcr Hs Hnode Hst.
  assert (stripNot atom = Some atom) as Hat by (destruct atom as [| | | |[]]; done).
  assert (bbAtom rewrite node = bbAtom rewrite atom) as Eq.
  { destruct Hnode as [-> | ->]; [done|]. unfold bbAtom. by rewrite Hat. }
  assert (∀ env, env_ok env → ∃ b, eval env atom = Some (VBool b)) as Hev.
  { intros env Hok. destruct (type_sound_gen env atom _ Ht Hc Hok) as (v&Hv&(b&->)%has_type_bool). by exists b. }
  assert (∀ env, env_ok env → ∃ st', bbAtom rewrite atom st = Some ((), st') ∧ cache_ok env st' ∧ is_Some (d_bbAtoms st' !! atom)) as Hr.
  { intros env Hok. destruct (Hev env Hok) as [b Hb]. eapply (bbAtom_runs env Hok rewrite atom); try done; [by apply Hra|intros f st' Ef; by eapply Hrf|by apply Hst]. }
  destruct (Hr env0 env0_ok) as (st'&E&_&[n0 Hn0]).
  assert (cacheInv st') as Hst'. { intros env Hok. destruct (Hr env Hok) as (?&?&?&_). congruence. }
  exists st'. rewrite Eq. unfold getStoredBBAtom. destruct Hnode as [-> | ->].
  - exists n0. rewrite Hat. cbn [mbind option_bind]. rewrite Hn0. split_and!; [done|done| |intros env Hok; by apply (ok_atoms env st' (Hst' env Hok))].
    cbn. destruct atom as [| | | |[]]; done.
  - exists (negate n0). cbn [stripNot lookup list_lookup mbind option_bind]. rewrite Hn0. split_and!; [done|done|done|].
    intros env Hok. destruct (Hev env Hok) as [b Hb]. pose proof (ok_atoms env st' (Hst' env Hok) _ _ Hn0) as En. rewrite Hb in En.
    rewrite (eval_negate _ _ _ En). cbn. by rewrite Hb.
Qed.

(** The comparison by the carry of an adder gives the same formula, up to
    equivalence, as the default one. *)
Theorem AdderUltBB_correct cs st :
  typeOf (mkNode BITVECTOR_ULT cs) = Some BOOLEAN_TYPE → concrete (mkNode BITVECTOR_ULT cs) = true →
  forallb supported cs = true → cacheInv st →
  ∃ n st', AdderUltBB (bbTerm (nsize (mkNode BITVECTOR_ULT cs))) (mkNode BITVECTOR_ULT cs) st = Some (n, st') ∧ cacheInv st' ∧
    ∀ env, env_ok env → eval env n = eval env (mkNode BITVECTOR_ULT cs).
Proof.
  intros Ht Hc Hs Hst. assert (∀ env, env_ok env → ∃ n st',
    AdderUltBB (bbTerm (nsize (mkNode BITVECTOR_ULT cs))) (mkNode BITVECTOR_ULT cs) st = Some (n, st') ∧ cache_ok env st' ∧
    eval env n = eval env (mkNode BITVECTOR_ULT cs)) as Hr.
  { intros env Hok. destruct (type_sound_gen env _ _ Ht Hc Hok) as (v&Hv&_).
    refine (adder_ult_atom_ok env _ cs v Hv _ st (Hst env Hok)). eapply (operands_ok env Hok BITVECTOR_ULT); [done| |lia].
    destruct (pred2_operands cs Ht Hc) as (a&b&w&->&Hta&Htb). cbn [forallb] in *. unfold supported_operand. rewrite Hta, Htb.
    by rewrite !andb_true_r in *. }
  destruct (Hr env0 env0_ok) as (n&st'&E&_&_). exists n, st'. split; [done|]. split.
  - intros env Hok. destruct (Hr env Hok) as (?&?&?&?&_). congruence.
  - intros env Hok. destruct (Hr env Hok) as (?&?&?&_&?). congruence.
Qed.
End bitblaster.

(** ** Instances *)

Lemma newBitblaster_ok : cacheInv newBitblaster.
Proof. intros env _. split; intros n m E; cbn in E; by rewrite lookup_empty in E. Qed.

(** [(x + y) udiv (x >> y)] of width 4. *)
Lemma bbTerm_correct_witness :
  let x := mkVar 1 (BITVECTOR_TYPE 4) in let y := mkVar 2 (BITVECTOR_TYPE 4) in
  let n := mkNode BITVECTOR_UDIV [mkNode BITVECTOR_ADD [x; y]; mkNode BITVECTOR_LSHR [x; y]] in
  ∃ bits st', bbTerm (nsize n) n newBitblaster = Some (bits, st') ∧ Z.of_nat (length bits) = 4 ∧ cacheInv st' ∧
    ∀ env, env_ok env → ∃ bs, mapM (eval env) bits = Some (VBool <$> bs) ∧ eval env n = Some (VBV 4 (bools_value bs)).
Proof.
  intros x y n. apply (bbTerm_correct n 4 (nsize n) newBitblaster).
  - vm_compute. reflexivity.
  - vm_compute. reflexivity.
  - vm_compute. reflexivity.
  - reflexivity.
  - exact newBitblaster_ok.
Defined.

Lemma bbAtom_correct_witness :
  let x := mkVar 1 (BITVECTOR_TYPE 4) in let y := mkVar 2 (BITVECTOR_TYPE 4) in
  let atom := mkNode BITVECTOR_SLT [mkNode BITVECTOR_MULT [x; y]; x] in
  ∃ st' n', bbAtom id (mkNode NOT [atom]) newBitblaster = Some ((), st') ∧ cacheInv st' ∧
    getStoredBBAtom (mkNode NOT [atom]) st' = Some n' ∧ ∀ env, env_ok env → eval env n' = eval env (mkNode NOT [atom]).
Proof.
  intros x y atom. apply (bbAtom_correct id atom).
  - reflexivity.
  - reflexivity.
  - vm_compute. reflexivity.
  - vm_compute. reflexivity.
  - vm_compute. reflexivity.
  - vm_compute. reflexivity.
  - vm_compute. reflexivity.
  - right. reflexivity.
  - exact newBitblaster_ok.
Defined.

Lemma AdderUltBB_correct_witness :
  let x := mkVar 1 (BITVECTOR_TYPE 4) in let y := mkVar 2 (BITVECTOR_TYPE 4) in
  let node := mkNode BITVECTOR_ULT [x; y] in
  ∃ n st', AdderUltBB (bbTerm (nsize node)) node newBitblaster = Some (n, st') ∧ cacheInv st' ∧
    ∀ env, env_ok env → eval env n = eval env node.
Proof.
  intros x y node. apply (AdderUltBB_correct [x; y] newBitblaster).
  - vm_compute. reflexivity.
  - vm_compute. reflexivity.
  - vm_compute. reflexivity.
  - exact newBitblaster_ok.
Defined.
