(* ===== verification/CircuitTheorems.v ===== *)
(** The circuits of [bitblast_utils.h] and [uDivModRec], as arithmetic on the
    numbers their bits denote: [bools_value bs] is the number whose bits are
    [bs], least significant first, and [ebits env bits bs] says that the
    formulas [bits] have the truth values [bs] in the valuation [env]. *)
From stdpp Require Import base option list numbers.
From S2P Require Import Prelude Integer Node TypeRules Semantics BvArith Bitblast BitblastCircuits BitblastShift.
Open Scope Z_scope.

Section theorems.
Context (env : Env).

(** [rippleCarryAdder] adds: the result is the sum with the carry-in modulo
    two to the width, and the returned carry says whether it overflowed. *)
Theorem rippleCarryAdder_adds a b xs ys carry c :
  ebits env a xs → ebits env b ys → length xs = length ys → evb env carry c →
  ∃ res carry' rs c', rippleCarryAdder a b carry = Some (res, carry') ∧ ebits env res rs ∧ evb env carry' c' ∧
    length rs = length xs ∧
    bools_value rs = (bools_value xs + bools_value ys + b2z c) mod 2 ^ Z.of_nat (length xs) ∧
    c' = bool_decide (2 ^ Z.of_nat (length xs) ≤ bools_value xs + bools_value ys + b2z c).
Proof. apply adder_spec. Qed.

(** [shiftAddMultiplier] multiplies modulo two to the width. *)
Theorem shiftAddMultiplier_multiplies a b xs ys :
  ebits env a xs → ebits env b ys → length xs = length ys → xs ≠ [] →
  ∃ res rs, shiftAddMultiplier a b = Some res ∧ ebits env res rs ∧ length rs = length xs ∧
    bools_value rs = (bools_value xs * bools_value ys) mod 2 ^ Z.of_nat (length xs).
Proof. apply multiplier_spec. Qed.

(** [uDivModRec] run for as many levels as the width terminates and, when the
    divisor is not zero, returns quotient and remainder. *)
Theorem uDivModRec_divides a b xs ys :
  ebits env a xs → ebits env b ys → length xs = length ys →
  ∃ q r qs rs, uDivModRec a b (length a) = Some (q, r) ∧ ebits env q qs ∧ ebits env r rs ∧
    length qs = length xs ∧ length rs = length xs ∧
    (0 < bools_value ys → bools_value qs = bools_value xs / bools_value ys ∧
                          bools_value rs = bools_value xs mod bools_value ys).
Proof.
  intros Ha Hb Hl. apply divider_spec; [done..|]. rewrite (list.Forall2_length _ _ _ Ha).
  apply bools_value_bound.
Qed.

(** The comparators decide the unsigned and the two's complement order, in
    their strict and non-strict forms. *)
Theorem comparators_decide a b xs ys (orEqual : bool) :
  ebits env a xs → ebits env b ys → length xs = length ys → xs ≠ [] →
  let w := Z.of_nat (length xs) in
  let x := bools_value xs in let y := bools_value ys in
  (∃ n, uLessThanBB a b orEqual = Some n ∧
    evb env n (if orEqual then bool_decide (x ≤ y) else bool_decide (x < y))) ∧
  (∃ n, sLessThanBB a b orEqual = Some n ∧
    evb env n (if orEqual then bool_decide (signed w x ≤ signed w y) else bool_decide (signed w x < signed w y))).
Proof. intros Ha Hb Hl Hne. split; [by apply uLessThan_spec|by apply sLessThan_spec]. Qed.

End theorems.

(** ** Instances: constant bits *)

Definition bitsOf (bs : list bool) : Bits := mkConstBool <$> bs.

Lemma ebits_bitsOf env bs : ebits env (bitsOf bs) bs.
Proof. induction bs; constructor; done. Qed.

Lemma rippleCarryAdder_adds_witness : ∃ res carry' rs c',
  rippleCarryAdder (bitsOf [true; true]) (bitsOf [true; false]) mkFalse = Some (res, carry') ∧
  ebits env0 res rs ∧ evb env0 carry' c' ∧ bools_value rs = 0 ∧ c' = true.
Proof.
  destruct (rippleCarryAdder_adds env0 (bitsOf [true; true]) (bitsOf [true; false]) [true; true] [true; false] mkFalse false)
    as (res&carry'&rs&c'&E&Hr&Hc&_&Hv&Ho); [apply ebits_bitsOf..|done|done|].
  by exists res, carry', rs, c'.
Defined.

Lemma shiftAddMultiplier_multiplies_witness : ∃ res rs,
  shiftAddMultiplier (bitsOf [true; true; false]) (bitsOf [true; true; false]) = Some res ∧
  ebits env0 res rs ∧ bools_value rs = 1.
Proof.
  destruct (shiftAddMultiplier_multiplies env0 (bitsOf [true; true; false]) (bitsOf [true; true; false])
              [true; true; false] [true; true; false]) as (res&rs&E&Hr&_&Hv); [apply ebits_bitsOf..|done|done|].
  by exists res, rs.
Defined.

Lemma uDivModRec_divides_witness : ∃ q r qs rs,
  uDivModRec (bitsOf [true; true; true]) (bitsOf [false; true; false]) 3 = Some (q, r) ∧
  ebits env0 q qs ∧ ebits env0 r rs ∧ bools_value qs = 3 ∧ bools_value rs = 1.
Proof.
  destruct (uDivModRec_divides env0 (bitsOf [true; true; true]) (bitsOf [false; true; false])
              [true; true; true] [false; true; false]) as (q&r&qs&rs&E&Hq&Hr&_&_&Hv); [apply ebits_bitsOf..|done|].
  destruct Hv as [Hv1 Hv2]; [cbn; lia|]. by exists q, r, qs, rs.
Defined.

Lemma comparators_decide_witness : ∃ n n',
  uLessThanBB (bitsOf [true; false]) (bitsOf [false; true]) false = Some n ∧ evb env0 n true ∧
  sLessThanBB (bitsOf [true; false]) (bitsOf [false; true]) false = Some n' ∧ evb env0 n' false.
Proof.
  destruct (comparators_decide env0 (bitsOf [true; false]) (bitsOf [false; true]) [true; false] [false; true] false)
    as ((n&E&Hn)&(n'&E'&Hn')); [apply ebits_bitsOf..|done|done|].
  by exists n, n'.
Defined.
