(* ===== verification/CnfStream.v ===== *)
(** [prop/sat_solver_types.h] (literals), [prop/sat_clause_sink.h] and
    [prop/registrar.h] (the interfaces of the SAT solver and of the theories) and
    [prop/cnf_stream.cpp]: the conversion of formulas to clauses.  A failed
    [Assert] is [None]. *)
From stdpp Require Import base option list gmap numbers.
From S2P Require Import Prelude Node TypeRules.
Open Scope Z_scope.

(** ** Literals *)

(** [SatVariable] and the word [d_value] of a [SatLiteral]: 64 bits. *)
Abbreviation SatVariable := Z.
Abbreviation SatLiteral := Z.
Abbreviation SatClause := (list Z).

Definition undefSatVariable : SatVariable := 2 ^ 64 - 1.

(** [SatLiteral(var, negated)]: [var + var + negated] modulo the width. *)
Definition mkLiteral (var : SatVariable) (negated : bool) : SatLiteral :=
  (var + var + (if negated then 1 else 0)) mod 2 ^ 64.

(** The value of the word as a signed integer. *)
Definition int64 (d_value : Z) : Z := if decide (d_value < 2 ^ 63) then d_value else d_value - 2 ^ 64.

(** [static_cast<int64_t>(d_value) >> 1], converted back. *)
Definition getSatVariable (lit : SatLiteral) : SatVariable := Z.shiftr (int64 lit) 1 mod 2 ^ 64.

Definition isNegated (lit : SatLiteral) : bool := negb (bool_decide (Z.land lit 1 = 0)).

(** [operator~]. *)
Definition negLit (lit : SatLiteral) : SatLiteral := mkLiteral (getSatVariable lit) (negb (isNegated lit)).

Definition isNull (lit : SatLiteral) : bool := bool_decide (getSatVariable lit = undefSatVariable).

(** [operator<]. *)
Definition litLt (a b : SatLiteral) : bool :=
  if decide (getSatVariable a = getSatVariable b)
  then negb (isNegated a) && isNegated b
  else bool_decide (getSatVariable a < getSatVariable b).

(** ** The SAT solver, as the stream sees it *)

Class SatClauseSink (S : Type) := {
  newVar : bool → S → SatVariable * S;
  addClause : SatClause → bool → S → bool * S;
  trueVar : S → SatVariable;
  falseVar : S → SatVariable;
}.

Inductive FormulaLitPolicy := TRACK_AND_NOTIFY | TRACK_AND_NOTIFY_VAR | TRACK | INTERNAL.

#[global] Instance policy_eq_dec : EqDecision FormulaLitPolicy.
Proof. solve_decision. Defined.

(** The maps are [CDInsertHashMap]s: an entry is never overwritten. *)
Record CnfState (S : Type) := mkCnf {
  d_satSolver : S;
  d_booleanVariables : list Node;
  d_notifyFormulas : gset Node;
  d_nodeToLiteralMap : gmap Node SatLiteral;
  d_literalToNodeMap : gmap SatLiteral Node;
  d_removable : bool;
}.
Arguments mkCnf {S}.
Arguments d_satSolver {S}.
Arguments d_booleanVariables {S}.
Arguments d_notifyFormulas {S}.
Arguments d_nodeToLiteralMap {S}.
Arguments d_literalToNodeMap {S}.
Arguments d_removable {S}.

(** The connectives [toCNF] traverses. *)
Definition firstIsBoolean (cs : list Node) : bool :=
  match cs with c :: _ => bool_decide (typeOf c = Some BOOLEAN_TYPE) | [] => false end.

Definition connective (k : Kind) (cs : list Node) : bool :=
  match k with
  | NOT | XOR | ITE | IMPLIES | OR | AND => true
  | EQUAL => firstIsBoolean cs
  | _ => false
  end.

(** [insert] of a [CDInsertHashMap] asserts that the key is new; [insert_safe]
    keeps an entry that is there. *)
Definition mapInsert {K V} `{Countable K} (k : K) (v : V) (m : gmap K V) : option (gmap K V) :=
  match m !! k with Some _ => None | None => Some (<[k := v]> m) end.
Definition mapInsertSafe {K V} `{Countable K} (k : K) (v : V) (m : gmap K V) : gmap K V :=
  match m !! k with Some _ => m | None => <[k := v]> m end.

(** The literals of a clause without repetitions, by the set [cache]. *)
Fixpoint filterDuplicates (c : SatClause) (cache : gset Z) : SatClause :=
  match c with
  | [] => []
  | lit :: c => if decide (lit ∈ cache) then filterDuplicates c cache
                else lit :: filterDuplicates c ({[ lit ]} ∪ cache)
  end.

Section stream.
Context {S : Type} `{!SatClauseSink S}.

Abbreviation State := (CnfState S).
Abbreviation CNF := (StateM (CnfState S)).

(** The configuration: the policy, [Env::isBooleanTermSkolem], [Env::theoryOf]
    being the theory of Booleans, and the registrar, which may re-enter. *)
Context (d_flitPolicy : FormulaLitPolicy) (isBooleanTermSkolem theoryOfBool : Node → bool)
        (notifySatLiteral : Node → CNF unit).

Definition withSolver (s : S) (st : State) : State :=
  mkCnf s (d_booleanVariables st) (d_notifyFormulas st) (d_nodeToLiteralMap st) (d_literalToNodeMap st) (d_removable st).
Definition withNodeMap (m : gmap Node SatLiteral) (st : State) : State :=
  mkCnf (d_satSolver st) (d_booleanVariables st) (d_notifyFormulas st) m (d_literalToNodeMap st) (d_removable st).
Definition withLitMap (m : gmap SatLiteral Node) (st : State) : State :=
  mkCnf (d_satSolver st) (d_booleanVariables st) (d_notifyFormulas st) (d_nodeToLiteralMap st) m (d_removable st).
Definition withRemovable (b : bool) (st : State) : State :=
  mkCnf (d_satSolver st) (d_booleanVariables st) (d_notifyFormulas st) (d_nodeToLiteralMap st) (d_literalToNodeMap st) b.
Definition addBooleanVariable (n : Node) (st : State) : State :=
  mkCnf (d_satSolver st) (d_booleanVariables st ++ [n]) (d_notifyFormulas st) (d_nodeToLiteralMap st)
    (d_literalToNodeMap st) (d_removable st).
Definition addNotifyFormula (n : Node) (st : State) : State :=
  mkCnf (d_satSolver st) (d_booleanVariables st) ({[ n ]} ∪ d_notifyFormulas st) (d_nodeToLiteralMap st)
    (d_literalToNodeMap st) (d_removable st).

Definition modify (f : State → State) : CNF unit := st ← getState; putState (f st).

Definition assertClause (node : Node) (c : SatClause) : CNF bool :=
  st ← getState;
  let cl := filterDuplicates c ∅ in
  let '(b, s) := addClause cl (d_removable st) (d_satSolver st) in
  _ ← putState (withSolver s st);
  mret b.

Definition hasLiteral (n : Node) (st : State) : bool := bool_decide (is_Some (d_nodeToLiteralMap st !! n)).

Definition getLiteral (node : Node) : CNF SatLiteral :=
  st ← getState; lift (d_nodeToLiteralMap st !! node).

Definition getNode (literal : SatLiteral) : CNF Node :=
  st ← getState; lift (d_literalToNodeMap st !! literal).

Definition isNotifyFormula (node : Node) (st : State) : bool := bool_decide (node ∈ d_notifyFormulas st).

Definition ensureMappingForLiteral (n : Node) : CNF unit :=
  lit ← getLiteral n;
  st ← getState;
  if decide (is_Some (d_literalToNodeMap st !! lit)) then mret ()
  else m ← lift (mapInsert lit n (d_literalToNodeMap st));
       m ← lift (mapInsert (negLit lit) (notNode n) m);
       putState (withLitMap m st).

(** Both entries of the map from literals. *)
Definition storeBackward (lit : SatLiteral) (node : Node) : CNF unit :=
  modify (λ st, withLitMap (mapInsertSafe (negLit lit) (notNode node) (mapInsertSafe lit node (d_literalToNodeMap st))) st).

(** A new literal, when the node has none. *)
Definition allocLiteral (node : Node) (isTheoryAtom : bool) : CNF SatLiteral :=
  st ← getState;
  let '(lit, s) :=
    match node with
    | mkConstBool b => (mkLiteral (if b then trueVar (d_satSolver st) else falseVar (d_satSolver st)) false, d_satSolver st)
    | _ => let '(v, s) := newVar isTheoryAtom (d_satSolver st) in (mkLiteral v false, s)
    end in
  m ← lift (mapInsert node lit (d_nodeToLiteralMap st));
  m ← lift (mapInsert (notNode node) (negLit lit) m);
  _ ← putState (withNodeMap m (withSolver s st));
  mret lit.

Definition isNot (n : Node) : bool := match n with mkNode NOT _ => true | _ => false end.

Definition newLiteral (node : Node) (isTheoryAtom notifyTheory : bool) : CNF SatLiteral :=
  _ ← lift (assert (negb (isNot node)));
  let tracked := negb isTheoryAtom && bool_decide (d_flitPolicy = TRACK_AND_NOTIFY) in
  let isTheoryAtom := isTheoryAtom || tracked in
  _ ← (if tracked then modify (addNotifyFormula node) else mret ());
  st ← getState;
  lit ← (if hasLiteral node st then getLiteral node else allocLiteral node isTheoryAtom);
  _ ← (if isTheoryAtom || bool_decide (d_flitPolicy = TRACK) || bool_decide (d_flitPolicy = TRACK_AND_NOTIFY_VAR)
       then storeBackward lit node else mret ());
  _ ← (if notifyTheory : bool then
         st ← getState;
         _ ← notifySatLiteral node;
         modify (withRemovable (d_removable st))
       else mret ());
  mret lit.

Definition convertAtom (node : Node) : CNF SatLiteral :=
  st ← getState;
  _ ← lift (assert (negb (hasLiteral node st)));
  let isInternalBoolVar := isVar node && negb (isBooleanTermSkolem node) in
  if isInternalBoolVar then
    _ ← modify (addBooleanVariable node);
    newLiteral node (bool_decide (d_flitPolicy = TRACK_AND_NOTIFY_VAR)) false
  else newLiteral node true true.

(** ** Definitions of connectives *)

(** The assertions at the start of the handlers. *)
Definition checkHandler (node : Node) (k : Kind) (arity : nat → bool) : CNF (list Node) :=
  st ← getState;
  _ ← lift (assert (negb (hasLiteral node st)));
  _ ← lift (assert (match node with mkNode k' _ => bool_decide (k' = k) | _ => false end));
  _ ← lift (assert (arity (length (children node))));
  _ ← lift (assert (negb (d_removable st)));
  mret (children node).

Definition handleXor (xorNode : Node) : CNF unit :=
  cs ← checkHandler xorNode XOR (λ n, bool_decide (n = 2%nat));
  c0 ← lift (cs !! 0%nat); c1 ← lift (cs !! 1%nat);
  a ← getLiteral c0; b ← getLiteral c1;
  xorLit ← newLiteral xorNode false false;
  _ ← assertClause (negate xorNode) [a; b; negLit xorLit];
  _ ← assertClause (negate xorNode) [negLit a; negLit b; negLit xorLit];
  _ ← assertClause xorNode [a; negLit b; xorLit];
  _ ← assertClause xorNode [negLit a; b; xorLit];
  mret ().

(** The loop over the children: their literals, a clause for each. *)
Fixpoint orLoop (orNode : Node) (orLit : SatLiteral) (cs : list Node) (clause : SatClause) : CNF SatClause :=
  match cs with
  | [] => mret clause
  | c :: cs => l ← getLiteral c;
               _ ← assertClause orNode [orLit; negLit l];
               orLoop orNode orLit cs (clause ++ [l])
  end.

Definition handleOr (orNode : Node) : CNF unit :=
  cs ← checkHandler orNode OR (λ n, bool_decide (1 < n)%nat);
  orLit ← newLiteral orNode false false;
  clause ← orLoop orNode orLit cs [];
  _ ← assertClause (negate orNode) (clause ++ [negLit orLit]);
  mret ().

Fixpoint andLoop (andNode : Node) (andLit : SatLiteral) (cs : list Node) (clause : SatClause) : CNF SatClause :=
  match cs with
  | [] => mret clause
  | c :: cs => l ← getLiteral c;
               _ ← assertClause (negate andNode) [negLit andLit; negLit (negLit l)];
               andLoop andNode andLit cs (clause ++ [negLit l])
  end.

Definition handleAnd (andNode : Node) : CNF unit :=
  cs ← checkHandler andNode AND (λ n, bool_decide (1 < n)%nat);
  andLit ← newLiteral andNode false false;
  clause ← andLoop andNode andLit cs [];
  _ ← assertClause andNode (clause ++ [andLit]);
  mret ().

Definition handleImplies (impliesNode : Node) : CNF unit :=
  cs ← checkHandler impliesNode IMPLIES (λ n, bool_decide (n = 2%nat));
  c0 ← lift (cs !! 0%nat); c1 ← lift (cs !! 1%nat);
  a ← getLiteral c0; b ← getLiteral c1;
  impliesLit ← newLiteral impliesNode false false;
  _ ← assertClause (negate impliesNode) [negLit impliesLit; negLit a; b];
  _ ← assertClause impliesNode [a; impliesLit];
  _ ← assertClause impliesNode [negLit b; impliesLit];
  mret ().

Definition handleIff (iffNode : Node) : CNF unit :=
  cs ← checkHandler iffNode EQUAL (λ n, bool_decide (n = 2%nat));
  c0 ← lift (cs !! 0%nat); c1 ← lift (cs !! 1%nat);
  a ← getLiteral c0; b ← getLiteral c1;
  iffLit ← newLiteral iffNode false false;
  _ ← assertClause (negate iffNode) [negLit a; b; negLit iffLit];
  _ ← assertClause (negate iffNode) [a; negLit b; negLit iffLit];
  _ ← assertClause iffNode [negLit a; negLit b; iffLit];
  _ ← assertClause iffNode [a; b; iffLit];
  mret ().

Definition handleIte (iteNode : Node) : CNF unit :=
  cs ← checkHandler iteNode ITE (λ n, bool_decide (n = 3%nat));
  c0 ← lift (cs !! 0%nat); c1 ← lift (cs !! 1%nat); c2 ← lift (cs !! 2%nat);
  condLit ← getLiteral c0; thenLit ← getLiteral c1; elseLit ← getLiteral c2;
  iteLit ← newLiteral iteNode false false;
  _ ← assertClause (negate iteNode) [negLit iteLit; thenLit; elseLit];
  _ ← assertClause (negate iteNode) [negLit iteLit; negLit condLit; thenLit];
  _ ← assertClause (negate iteNode) [negLit iteLit; condLit; elseLit];
  _ ← assertClause iteNode [iteLit; negLit thenLit; negLit elseLit];
  _ ← assertClause iteNode [iteLit; negLit condLit; negLit thenLit];
  _ ← assertClause iteNode [iteLit; condLit; negLit elseLit];
  mret ().

(** ** The traversal *)

(** The [switch] on the second visit of a node. *)
Definition handle (cur : Node) : CNF unit :=
  match cur with
  | mkNode NOT cs => st ← getState; c0 ← lift (cs !! 0%nat); lift (assert (hasLiteral c0 st))
  | mkNode XOR _ => handleXor cur
  | mkNode ITE _ => handleIte cur
  | mkNode IMPLIES _ => handleImplies cur
  | mkNode OR _ => handleOr cur
  | mkNode AND _ => handleAnd cur
  | mkNode EQUAL cs => if firstIsBoolean cs then handleIff cur else _ ← convertAtom cur; mret ()
  | _ => _ ← convertAtom cur; mret ()
  end.

(** The [while] loop: the stack [visit] with its top first and the [cache] of
    the visited nodes; the fuel bounds the number of iterations. *)
Fixpoint visitLoop (fuel : nat) (visit : list Node) (cache : gmap Node bool) : CNF unit :=
  match visit with
  | [] => mret ()
  | cur :: rest =>
      match fuel with
      | O => lift None
      | Datatypes.S fuel =>
          _ ← lift (assert (bool_decide (typeOf cur = Some BOOLEAN_TYPE)));
          st ← getState;
          if hasLiteral cur st then visitLoop fuel rest cache
          else match cache !! cur with
               | None =>
                   let cache := <[cur := false]> cache in
                   let pushed := match cur with mkNode k cs => if connective k cs then cs else [] | _ => [] end in
                   visitLoop fuel (pushed ++ visit) cache
               | Some false => _ ← handle cur; visitLoop fuel rest (<[cur := true]> cache)
               | Some true => visitLoop fuel rest cache
               end
      end
  end.

(** Every symbol is pushed once and visited twice at most. *)
Definition toCNF (node : Node) (negated : bool) : CNF SatLiteral :=
  _ ← visitLoop (2 * nsize node) [node] ∅;
  nodeLit ← getLiteral node;
  mret (if negated then negLit nodeLit else nodeLit).

Definition ensureLiteral (n : Node) : CNF unit :=
  st ← getState;
  _ ← lift (assert (hasLiteral n st || bool_decide (typeOf n = Some BOOLEAN_TYPE)));
  if hasLiteral n st then ensureMappingForLiteral n
  else
    n ← lift (match n with mkNode NOT cs => cs !! 0%nat | _ => Some n end);
    if theoryOfBool n && negb (isVar n) then
      _ ← modify (withRemovable false);
      lit ← toCNF n false;
      storeBackward lit n
    else _ ← convertAtom n; mret ().

(** ** Assertions *)

(** [toCNF] of the children, for a clause. *)
Fixpoint clauseLoop (cs : list Node) (negated : bool) (clause : SatClause) : CNF SatClause :=
  match cs with
  | [] => mret clause
  | c :: cs => l ← toCNF c negated; clauseLoop cs negated (clause ++ [l])
  end.

Definition convertAndAssertXor (node : Node) (negated : bool) : CNF unit :=
  c0 ← lift (child node 0); c1 ← lift (child node 1);
  p ← toCNF c0 false; q ← toCNF c1 false;
  if negated then
    _ ← assertClause (negate node) [negLit p; q];
    _ ← assertClause (negate node) [p; negLit q]; mret ()
  else
    _ ← assertClause node [negLit p; negLit q];
    _ ← assertClause node [p; q]; mret ().

Definition convertAndAssertIff (node : Node) (negated : bool) : CNF unit :=
  c0 ← lift (child node 0); c1 ← lift (child node 1);
  p ← toCNF c0 false; q ← toCNF c1 false;
  if negated then
    _ ← assertClause (negate node) [negLit p; negLit q];
    _ ← assertClause (negate node) [p; q]; mret ()
  else
    _ ← assertClause node [negLit p; q];
    _ ← assertClause node [p; negLit q]; mret ().

Definition convertAndAssertIte (node : Node) (negated : bool) : CNF unit :=
  c0 ← lift (child node 0); c1 ← lift (child node 1); c2 ← lift (child node 2);
  p ← toCNF c0 false; q ← toCNF c1 negated; r ← toCNF c2 negated;
  let nnode := if negated then negate node else node in
  _ ← assertClause nnode [negLit p; q];
  _ ← assertClause nnode [p; r]; mret ().

(** [convertAndAssertAnd] and [convertAndAssertOr] where a clause is built. *)
Definition assertDisjunction (node : Node) (negated : bool) : CNF unit :=
  clause ← clauseLoop (children node) negated [];
  _ ← assertClause (if negated then negate node else node) clause; mret ().

Definition assertAtom (node : Node) (negated : bool) : CNF unit :=
  l ← toCNF node negated;
  _ ← assertClause (if negated then negate node else node) [l]; mret ().

(** The cases that call [convertAndAssert] again, here [rec], on the children
    [cs] of [node]. *)
Section connectives.
Context (rec : Node → bool → CNF unit).

(** The loop over the conjuncts. *)
Fixpoint conjunctLoop (cs : list Node) (negated : bool) : CNF unit :=
  match cs with
  | [] => mret ()
  | c :: cs => _ ← rec c negated; conjunctLoop cs negated
  end.

Definition convertAndAssertAnd (node : Node) (cs : list Node) (negated : bool) : CNF unit :=
  if negated then assertDisjunction node true else conjunctLoop cs false.

Definition convertAndAssertOr (node : Node) (cs : list Node) (negated : bool) : CNF unit :=
  if negated then conjunctLoop cs true else assertDisjunction node false.

Definition convertAndAssertImplies (node : Node) (cs : list Node) (negated : bool) : CNF unit :=
  if negated then
    match cs with
    | c0 :: c1 :: _ => _ ← rec c0 false; rec c1 true
    | _ => lift None
    end
  else
    c0 ← lift (child node 0); c1 ← lift (child node 1);
    p ← toCNF c0 false; q ← toCNF c1 false;
    _ ← assertClause node [negLit p; q]; mret ().

End connectives.

(** [convertAndAssert(node, negated)], by recursion on the formula. *)
Fixpoint convertAndAssert' (node : Node) (negated : bool) {struct node} : CNF unit :=
  match node with
  | mkNode AND cs => convertAndAssertAnd convertAndAssert' node cs negated
  | mkNode OR cs => convertAndAssertOr convertAndAssert' node cs negated
  | mkNode XOR _ => convertAndAssertXor node negated
  | mkNode IMPLIES cs => convertAndAssertImplies convertAndAssert' node cs negated
  | mkNode ITE _ => convertAndAssertIte node negated
  | mkNode NOT cs => match cs with c0 :: _ => convertAndAssert' c0 (negb negated) | [] => lift None end
  | mkNode EQUAL cs => if firstIsBoolean cs then convertAndAssertIff node negated else assertAtom node negated
  | _ => assertAtom node negated
  end.

Definition convertAndAssert (node : Node) (removable negated : bool) : CNF unit :=
  _ ← modify (withRemovable removable);
  convertAndAssert' node negated.

End stream.
