(* ===== verification/CnfSpec.v ===== *)
(** What the CNF conversion promises: the meaning of literals, clauses and
    formulas, what the stream needs of the SAT solver and of the registrar, and
    the invariant that relates the clauses of the solver to the formulas that
    were asserted, which the handlers keep. *)
From stdpp Require Import base option list gmap numbers.
From S2P Require Import Prelude Node TypeRules CnfStream.
Open Scope Z_scope.

(** ** Literals *)

Definition max_var : Z := 2 ^ 62.

Lemma literal_word var b : 0 ≤ var < max_var → mkLiteral var b = 2 * var + (if b then 1 else 0).
Proof. unfold max_var, mkLiteral. intros H. rewrite Z.mod_small by (destruct b; lia). lia. Qed.

Lemma land_1 z : Z.land z 1 = z mod 2.
Proof. change 1 with (Z.ones 1). rewrite Z.land_ones by lia. done. Qed.

Lemma literal_neg var b : 0 ≤ var < max_var → isNegated (mkLiteral var b) = b.
Proof.
  intros H. unfold isNegated. rewrite land_1, literal_word by done. rewrite Z.add_comm, Z.mul_comm, Z.mod_add by lia. by destruct b.
Qed.

Lemma literal_var var b : 0 ≤ var < max_var → getSatVariable (mkLiteral var b) = var.
Proof.
  intros H. unfold getSatVariable, int64. rewrite literal_word by done. unfold max_var in *.
  rewrite decide_True by (destruct b; lia). rewrite Z.shiftr_div_pow2 by lia. change (2 ^ 1) with 2.
  replace ((2 * var + (if b then 1 else 0)) / 2) with var; [rewrite Z.mod_small; lia|].
  apply Z.div_unique_pos with (if b then 1 else 0); destruct b; lia.
Qed.

Lemma negLit_literal var b : 0 ≤ var < max_var → negLit (mkLiteral var b) = mkLiteral var (negb b).
Proof. intros H. unfold negLit. by rewrite literal_var, literal_neg. Qed.

Definition lit_ok (l : SatLiteral) : Prop := ∃ var b, 0 ≤ var < max_var ∧ l = mkLiteral var b.

(** ** Assignments *)

Abbreviation assignment := (SatVariable → bool).

Definition lit_val (v : assignment) (l : SatLiteral) : bool := xorb (isNegated l) (v (getSatVariable l)).
Definition clause_val (v : assignment) (c : SatClause) : bool := existsb (lit_val v) c.

Lemma negLit_ok l : lit_ok l → lit_ok (negLit l) ∧ getSatVariable (negLit l) = getSatVariable l ∧ negLit (negLit l) = l.
Proof.
  intros (var&b&Hv&->). rewrite negLit_literal by done. split; [by exists var, (negb b)|].
  rewrite negLit_literal, negb_involutive, !literal_var by done. done.
Qed.

Lemma negLit_val v l : lit_ok l → lit_val v (negLit l) = negb (lit_val v l).
Proof.
  intros (var&b&Hv&->). unfold lit_val. rewrite negLit_literal, !literal_var, !literal_neg by done. by destruct b, (v var).
Qed.

Lemma lit_val_local v v' l : v (getSatVariable l) = v' (getSatVariable l) → lit_val v l = lit_val v' l.
Proof. unfold lit_val. by intros ->. Qed.

(** Removing repeated literals does not change the clause. *)
Lemma filterDuplicates_elem c : ∀ cache l, l ∈ filterDuplicates c cache ↔ l ∈ c ∧ l ∉ cache.
Proof.
  induction c as [|x c IH]; intros cache l; cbn [filterDuplicates]; [set_solver|]. case_decide as Hx.
  - rewrite IH. set_solver.
  - rewrite elem_of_cons, IH. destruct (decide (l = x)) as [->|]; set_solver.
Qed.

Lemma clause_val_true v c : clause_val v c = true ↔ ∃ l, l ∈ c ∧ lit_val v l = true.
Proof.
  unfold clause_val. rewrite existsb_exists. setoid_rewrite <- list_elem_of_In. done.
Qed.

Lemma filterDuplicates_clause v c : clause_val v (filterDuplicates c ∅) = true ↔ clause_val v c = true.
Proof. rewrite !clause_val_true. setoid_rewrite filterDuplicates_elem. set_solver. Qed.

(** ** Formulas *)

(** The truth of a formula from the truth of its atoms. *)
Fixpoint fval (A : Node → bool) (n : Node) : bool :=
  match n with
  | mkConstBool b => b
  | mkNode k cs =>
      match k, map (fval A) cs with
      | NOT, [a] => negb a
      | AND, vs => forallb id vs
      | OR, vs => existsb id vs
      | XOR, [a; b] => xorb a b
      | IMPLIES, [a; b] => implb a b
      | ITE, [c; t; e] => if c then t else e
      | EQUAL, [a; b] => if firstIsBoolean cs then Bool.eqb a b else A n
      | _, _ => A n
      end
  | _ => A n
  end.

Definition is_atom (n : Node) : bool :=
  match n with
  | mkConstBool _ => false
  | mkNode k cs => negb (connective k cs)
  | _ => true
  end.

(** Formulas the stream accepts: of Boolean type, with connectives of their
    arity, and without double negations. *)
Fixpoint formula (n : Node) : bool :=
  bool_decide (typeOf n = Some BOOLEAN_TYPE) &&
  match n with
  | mkNode k cs =>
      negb (connective k cs) ||
      (arity_ok k (length cs) && forallb formula cs && negb (bool_decide (k = NOT) && existsb isNot cs))
  | _ => true
  end.

Lemma fval_atom A n : is_atom n = true → formula n = true → fval A n = A n.
Proof.
  destruct n as [| | | |k cs]; try done. intros Ha _. cbn [is_atom] in Ha. apply negb_true_iff in Ha.
  destruct k; try done. cbn [connective] in Ha. cbn [fval]. rewrite Ha. by destruct cs as [|? [|? []]].
Qed.

(** ** The SAT solver *)

(** [models s v]: [v] satisfies what the solver was told; [sat_vars s]: the
    variables it knows; [room s n]: it can make [n] more variables.  A clause
    that is removable may be forgotten. *)
Class SatClauseSinkLaws (S : Type) `{!SatClauseSink S} := {
  models : S → assignment → Prop;
  sat_vars : S → gset Z;
  room : S → nat → Prop;
  models_local s v v' : models s v → (∀ x, x ∈ sat_vars s → v x = v' x) → models s v';
  room_less s n : room s (Datatypes.S n) → room s n;
  newVar_spec b s n : room s (Datatypes.S n) → let '(x, s') := newVar b s in
    0 ≤ x < max_var ∧ (x ∉ sat_vars s) ∧ sat_vars s' = {[ x ]} ∪ sat_vars s ∧ room s' n ∧ (∀ v, models s' v ↔ models s v);
  addClause_spec c removable s : (∀ l, l ∈ c → getSatVariable l ∈ sat_vars s) → let '(_, s') := addClause c removable s in
    sat_vars s' = sat_vars s ∧ (∀ n, room s n → room s' n) ∧
    (∀ v, models s' v → models s v) ∧ (∀ v, models s v → clause_val v c = true → models s' v) ∧
    (removable = false → ∀ v, models s' v → clause_val v c = true);
  trueVar_spec s : 0 ≤ trueVar s < max_var ∧ trueVar s ∈ sat_vars s ∧ (∀ v, models s v → v (trueVar s) = true);
  falseVar_spec s : 0 ≤ falseVar s < max_var ∧ falseVar s ∈ sat_vars s ∧ (∀ v, models s v → v (falseVar s) = false);
}.

(** ** The invariant *)
Section inv.
Context {S : Type} `{!SatClauseSink S, !SatClauseSinkLaws S}.

Abbreviation State := (CnfState S).

(** The literals have the values of their formulas. *)
Definition agree (v : assignment) (A : Node → bool) (st : State) : Prop :=
  ∀ n l, d_nodeToLiteralMap st !! n = Some l → lit_val v l = fval A n.

(** [T]: the valuations of the atoms the theories allow.  [P]: what has been
    asserted.  Every model of the clauses is a valuation of the atoms that
    satisfies the assertions, and every valuation the theories allow that
    satisfies the assertions extends to a model. *)
Record cnf_inv (T P : (Node → bool) → Prop) (st : State) : Prop := {
  inv_lits : ∀ n l, d_nodeToLiteralMap st !! n = Some l → lit_ok l ∧ getSatVariable l ∈ sat_vars (d_satSolver st);
  inv_not : ∀ n, d_nodeToLiteralMap st !! mkNode NOT [n] = (if isNot n then None else negLit <$> d_nodeToLiteralMap st !! n);
  inv_formula : ∀ n l, d_nodeToLiteralMap st !! n = Some l → is_atom n = true → formula n = true;
  inv_sound : ∀ v A, models (d_satSolver st) v →
    (∀ a l, is_atom a = true → d_nodeToLiteralMap st !! a = Some l → A a = lit_val v l) → P A ∧ agree v A st;
  inv_complete : ∀ A, T A → P A → ∃ v, models (d_satSolver st) v ∧ agree v A st;
}.

Lemma inv_same T P st st' :
  cnf_inv T P st → d_satSolver st' = d_satSolver st → d_nodeToLiteralMap st' = d_nodeToLiteralMap st → cnf_inv T P st'.
Proof. intros [? ? ? Hs Hc] Es Em. split; unfold agree in *; rewrite ?Es, ?Em; done. Qed.

(** ** Sequences of clauses *)

(** [st] is [st0] with clauses that say [C]. *)
Record adds (st0 : State) (C : assignment → Prop) (st : State) : Prop := {
  adds_same : st = withSolver (d_satSolver st) st0;
  adds_vars : sat_vars (d_satSolver st) = sat_vars (d_satSolver st0);
  adds_room : ∀ n, room (d_satSolver st0) n → room (d_satSolver st) n;
  adds_models : ∀ v, models (d_satSolver st) v ↔ models (d_satSolver st0) v ∧ C v;
}.

Lemma adds_start st : adds st (λ _, True) st.
Proof. split; [by destruct st|done|done|]. intros v. tauto. Qed.

Lemma adds_ext st0 C C' st : adds st0 C st → (∀ v, C v ↔ C' v) → adds st0 C' st.
Proof. intros [? ? ? Hm] HC. split; try done. intros v. rewrite Hm. by rewrite HC. Qed.

Lemma assertClause_adds node c st0 C st :
  adds st0 C st → d_removable st0 = false → (∀ l, l ∈ c → getSatVariable l ∈ sat_vars (d_satSolver st0)) →
  ∃ b st', assertClause node c st = Some (b, st') ∧ adds st0 (λ v, C v ∧ clause_val v c = true) st'.
Proof.
  intros [Hst Hvars Hroom Hm] Hrem Hc. unfold assertClause. rewrite (bind_eq _ _ _ st st) by done.
  pose proof (addClause_spec (filterDuplicates c ∅) (d_removable st) (d_satSolver st)) as Hspec.
  destruct (addClause _ _ _) as [b s']. destruct Hspec as (Hv&Hr&H1&H2&H3).
  { intros l Hl. rewrite Hvars. apply Hc. by apply filterDuplicates_elem in Hl as [? _]. }
  eexists b, _. split; [done|]. rewrite Hst in H3. cbn in H3. specialize (H3 Hrem). split; cbn.
  - rewrite Hst. by destruct st0.
  - congruence.
  - intros n Hn. by apply Hr, Hroom.
  - intros v. rewrite (and_assoc _ (C v)), <- Hm, <- filterDuplicates_clause. split; [intros Hs'; split; [by apply H1|by apply H3]|].
    intros [Hs Hcl]. by apply H2.
Qed.

(** ** Asserting *)

(** Clauses on mapped literals that say [F] of the atoms assert [F]. *)
Lemma assert_inv T P (F : (Node → bool) → Prop) st C st' :
  cnf_inv T P st → adds st C st' → (∀ v A, agree v A st → (C v ↔ F A)) → cnf_inv T (λ A, P A ∧ F A) st'.
Proof.
  intros [Hl Hn Hf Hs Hc] [Hst Hv Hr Hm] HF. assert (d_nodeToLiteralMap st' = d_nodeToLiteralMap st) as Em by (by rewrite Hst).
  split; unfold agree in *; rewrite ?Em, ?Hv; try done.
  - intros v A [Hmod HC]%Hm Ha. destruct (Hs v A Hmod Ha) as [HP Hag]. split; [|done]. split; [done|]. by apply (HF v A).
  - intros A HT [HP HFA]. destruct (Hc A HT HP) as (v&Hmod&Hag). exists v. split; [|done]. apply Hm. split; [done|]. by apply (HF v A).
Qed.

(** ** New literals *)

(** [st'] gives [node] the literal [mkLiteral x false] of a new variable. *)
Record fresh (st : State) (node : Node) (x : SatVariable) (st' : State) : Prop := {
  fresh_range : 0 ≤ x < max_var;
  fresh_new : x ∉ sat_vars (d_satSolver st);
  fresh_vars : sat_vars (d_satSolver st') = {[ x ]} ∪ sat_vars (d_satSolver st);
  fresh_models : ∀ v, models (d_satSolver st') v ↔ models (d_satSolver st) v;
  fresh_map : d_nodeToLiteralMap st' =
    <[notNode node := negLit (mkLiteral x false)]> (<[node := mkLiteral x false]> (d_nodeToLiteralMap st));
}.

Lemma agree_extend v A (st : State) node l m :
  lit_ok l → (∀ n l, d_nodeToLiteralMap st !! n = Some l → lit_val v l = fval A n) → lit_val v l = fval A node →
  m = <[notNode node := negLit l]> (<[node := l]> (d_nodeToLiteralMap st)) →
  ∀ n l', m !! n = Some l' → lit_val v l' = fval A n.
Proof.
  intros Hl Hag Hv -> n l'. rewrite !lookup_insert_Some. intros [[<- <-]|[_ [[<- <-]|[_ ?]]]]; [|done|by apply Hag].
  rewrite negLit_val by done. by rewrite Hv.
Qed.

(** The map with a new pair keeps negations paired. *)
Lemma not_extend (m : gmap Node SatLiteral) node l :
  isNot node = false → m !! node = None →
  (∀ n, m !! mkNode NOT [n] = if isNot n then None else negLit <$> m !! n) →
  ∀ n, <[notNode node := negLit l]> (<[node := l]> m) !! mkNode NOT [n]
    = if isNot n then None else negLit <$> <[notNode node := negLit l]> (<[node := l]> m) !! n.
Proof.
  intros Hnode Hnone Hm n. assert (∀ c, mkNode NOT [c] ≠ node) as Hne by (intros c <-; done).
  destruct (decide (n = node)) as [->|Hnn].
  - unfold notNode. rewrite Hnode, lookup_insert_eq, lookup_insert_ne, lookup_insert_eq by apply Hne. done.
  - unfold notNode. rewrite lookup_insert_ne, lookup_insert_ne by (apply Hne || congruence). rewrite Hm. destruct (isNot n) eqn:En; [done|].
    rewrite lookup_insert_ne, lookup_insert_ne by (by intros -> || by intros <-). done.
Qed.

(** A literal for [node], with clauses [C] that define it from the literals of
    the children (or none, for an atom), keeps the invariant. *)
Lemma define_inv T P st node x st1 C st2 :
  cnf_inv T P st → d_nodeToLiteralMap st !! node = None → isNot node = false → formula node = true →
  fresh st node x st1 → adds st1 C st2 →
  (∀ v A, agree v A st → C v → (is_atom node = true → A node = lit_val v (mkLiteral x false)) → lit_val v (mkLiteral x false) = fval A node) →
  (∀ v A, agree v A st → lit_val v (mkLiteral x false) = fval A node → C v) →
  cnf_inv T P st2.
Proof.
  intros [Hl Hn Hf Hs Hc] Hnone Hnot Hform [Hx Hnew Hv1 Hm1 Emap] [Hst Hv Hr Hm] Hsound Hcomplete.
  set (l := mkLiteral x false) in *. assert (lit_ok l) as Hlok by (by exists x, false).
  assert (getSatVariable l = x) as Hvar by (by apply literal_var).
  assert (d_nodeToLiteralMap st2 = d_nodeToLiteralMap st1) as Em by (by rewrite Hst).
  split; unfold agree; rewrite ?Em, ?Emap, ?Hv, ?Hv1.
  - intros n l'. rewrite !lookup_insert_Some. destruct (negLit_ok l Hlok) as (?&?&_).
    intros [[<- <-]|[_ [[<- <-]|[_ E]]]]; (split; [try done|apply elem_of_union]);
      [left; apply elem_of_singleton; congruence|left; by apply elem_of_singleton|by eapply Hl|right; by eapply Hl].
  - by apply not_extend.
  - intros n l'. rewrite !lookup_insert_Some. intros [[<- <-]|[_ [[<- <-]|[_ E]]]]; [done|done|by eapply Hf].
  - intros v A [Hmod%Hm1 HC]%Hm Ha. destruct (Hs v A Hmod) as [HP Hag].
    { intros a la Hat Hla. apply Ha; [done|]. rewrite lookup_insert_ne, lookup_insert_ne; [done|congruence|].
      intros <-. discriminate Hat. }
    split; [done|]. eapply (agree_extend v A st node l); [done|done| |done]. apply Hsound; [done|done|].
    intros Hat. apply Ha; [done|]. rewrite lookup_insert_ne, lookup_insert_eq; [done|]. intros E. rewrite <- E in Hnot. done.
  - intros A HT HP. destruct (Hc A HT HP) as (v0&Hmod&Hag).
    set (v := λ y, if decide (y = x) then fval A node else v0 y).
    assert (∀ y, y ∈ sat_vars (d_satSolver st) → v0 y = v y) as Hloc.
    { intros y Hy. unfold v. rewrite decide_False; [done|]. by intros ->. }
    assert (agree v A st) as Hagv.
    { intros n l' E. destruct (Hl _ _ E) as [_ Hin]. rewrite <- (Hag _ _ E). apply lit_val_local. by rewrite Hloc. }
    assert (lit_val v l = fval A node) as Hlv.
    { unfold lit_val. rewrite Hvar. unfold l. rewrite literal_neg by done. unfold v. by rewrite decide_True. }
    exists v. split; [|by eapply (agree_extend v A st node l)].
    apply Hm. split; [apply Hm1; by eapply models_local|]. by apply (Hcomplete v A).
Qed.
End inv.

(** * The handlers of the connectives and of the atoms keep the invariant: each
    gives its node a literal whose value is that of the node. *)

Create HintDb cnf.

Section handlers.
Context {S : Type} `{!SatClauseSink S, !SatClauseSinkLaws S}.
Context (pol : FormulaLitPolicy) (skolem : Node → bool) (notify : Node → StateM (CnfState S) unit) (T : (Node → bool) → Prop).

Abbreviation State := (CnfState S).
Abbreviation CNF := (StateM (CnfState S)).
Abbreviation sink st := (d_satSolver st).
Abbreviation lits st := (d_nodeToLiteralMap st).
Abbreviation newLiteral := (newLiteral pol notify).
Abbreviation convertAtom := (convertAtom pol skolem notify).

(** The registrar may add literals and clauses the theories imply. *)
Definition registrar_ok : Prop := ∀ n P (st : State) r, cnf_inv T P st → room (sink st) r →
  ∃ st', notify n st = Some ((), st') ∧ cnf_inv T P st' ∧ lits st ⊆ lits st' ∧ room (sink st') r.

(** Steps that touch neither the solver nor the literals of nodes. *)
Definition same (st st' : State) : Prop :=
  sink st' = sink st ∧ lits st' = lits st ∧ d_removable st' = d_removable st.

Lemma same_inv P st st' : cnf_inv T P st → same st st' → cnf_inv T P st'.
Proof. intros Hi (?&?&_). by eapply inv_same. Qed.

(** ** Sequences of clauses *)

Fixpoint assertAll (cls : list (Node * SatClause)) : CNF unit :=
  match cls with [] => mret () | (n, c) :: cls => _ ← assertClause n c; assertAll cls end.

(** A literal of a variable of the solver. *)
Definition known (s : S) (l : SatLiteral) : Prop := lit_ok l ∧ getSatVariable l ∈ sat_vars s.

Lemma known_neg s l : known s l → known s (negLit l).
Proof. intros [Hl Hv]. destruct (negLit_ok l Hl) as (?&E&_). split; [done|]. by rewrite E. Qed.

Lemma assertAll_adds cls : ∀ st0 C st,
  adds st0 C st → d_removable st0 = false → Forall (λ p, Forall (known (sink st0)) p.2) cls →
  ∃ st', assertAll cls st = Some ((), st') ∧ adds st0 (λ v, C v ∧ forallb (clause_val v) cls.*2 = true) st'.
Proof.
  induction cls as [|[n c] cls IH]; intros st0 C st Ha Hr HF; cbn [assertAll].
  - exists st. split; [done|]. eapply adds_ext; [done|]. intros v. cbn. tauto.
  - inversion HF as [|? ? Hc HF']; subst. destruct (assertClause_adds n c st0 C st) as (b&st1&E&Ha1); [done|done| |].
    { intros l Hl. rewrite list.Forall_forall in Hc. by apply Hc. }
    rewrite (bind_eq _ _ _ _ _ E). destruct (IH st0 _ st1 Ha1 Hr HF') as (st2&->&Ha2). exists st2. split; [done|].
    eapply adds_ext; [done|]. intros v. cbn [fmap list_fmap forallb snd]. rewrite andb_true_iff. tauto.
Qed.

(** ** New literals *)

Lemma fresh_same st st0 node x st1 st2 : same st st0 → same st1 st2 → fresh st0 node x st1 → fresh st node x st2.
Proof.
  intros (E1&E2&_) (F1&F2&_) [? ? Hv Hm Hmap]. split; rewrite ?F1, ?F2, ?Hv; rewrite ?E1, ?E2 in *; done.
Qed.

Lemma alloc_fresh P st node th r :
  cnf_inv T P st → lits st !! node = None → isNot node = false → (∀ b, node ≠ mkConstBool b) →
  room (sink st) (Datatypes.S r) →
  ∃ x st1, allocLiteral node th st = Some (mkLiteral x false, st1) ∧ fresh st node x st1 ∧ room (sink st1) r ∧
    d_removable st1 = d_removable st.
Proof.
  intros Hi Hnone Hnot Hconst Hroom. unfold allocLiteral. rewrite (bind_eq _ _ _ st st) by done.
  pose proof (newVar_spec th (sink st) r Hroom) as Hspec.
  assert (∀ X (a : bool → X) b, match node with mkConstBool c => a c | _ => b end = b) as Em by (intros; destruct node; try done; by destruct (Hconst b0)).
  rewrite Em. destruct (newVar th (sink st)) as [x s'] eqn:Ex. destruct Hspec as (Hx&Hnew&Hv&Hr&Hm).
  rewrite (lift_bind _ _ _ (<[node := mkLiteral x false]> (lits st))) by (unfold mapInsert; by rewrite Hnone).
  rewrite (lift_bind _ _ _ (<[notNode node := negLit (mkLiteral x false)]> (<[node := mkLiteral x false]> (lits st)))).
  2:{ unfold mapInsert, notNode. rewrite lookup_insert_ne by (intros E; by rewrite E in Hnot).
      by rewrite (inv_not _ _ _ Hi), Hnot, Hnone. }
  eexists x, _. split; [done|]. split; [by split|]. by split.
Qed.

(** What surrounds the allocation does not matter. *)
Lemma newLiteral_alloc st node th :
  lits st !! node = None → isNot node = false →
  ∃ st0 th', same st st0 ∧ ∀ l st1, allocLiteral node th' st0 = Some (l, st1) →
    ∃ st2, newLiteral node th false st = Some (l, st2) ∧ same st1 st2.
Proof.
  intros Hnone Hnot. unfold CnfStream.newLiteral.
  set (tracked := negb th && bool_decide (pol = TRACK_AND_NOTIFY)). set (th' := th || tracked).
  set (st0 := if tracked then addNotifyFormula node st else st). exists st0, th'.
  assert (same st st0) as Hs0 by (unfold st0; destruct tracked; by split_and!). split; [done|]. intros l st1 E1.
  rewrite (lift_bind _ _ _ ()) by (by rewrite Hnot).
  rewrite (bind_eq _ _ st () st0) by (unfold st0; by destruct tracked).
  rewrite (bind_eq _ _ st0 st0 st0) by done. destruct Hs0 as (F1&F2&F3).
  assert (hasLiteral node st0 = false) as -> by (unfold hasLiteral; rewrite F2, Hnone; by apply bool_decide_eq_false; intros []).
  rewrite (bind_eq _ _ _ _ _ E1).
  set (bk := th' || bool_decide (pol = TRACK) || bool_decide (pol = TRACK_AND_NOTIFY_VAR)).
  assert (∃ st2, (if bk then storeBackward l node else mret ()) st1 = Some ((), st2) ∧ same st1 st2) as (st2&E2&Hs2).
  { destruct bk; eexists; split; try done; by split_and!. }
  rewrite (bind_eq _ _ _ _ _ E2). by exists st2.
Qed.

Lemma newLiteral_fresh P st node th r :
  cnf_inv T P st → lits st !! node = None → isNot node = false → (∀ b, node ≠ mkConstBool b) →
  room (sink st) (Datatypes.S r) →
  ∃ x st1, newLiteral node th false st = Some (mkLiteral x false, st1) ∧ fresh st node x st1 ∧ room (sink st1) r ∧
    d_removable st1 = d_removable st.
Proof.
  intros Hi Hnone Hnot Hconst Hroom. destruct (newLiteral_alloc st node th Hnone Hnot) as (st0&th'&Hs0&Hnew).
  pose proof Hs0 as (F1&F2&F3).
  destruct (alloc_fresh P st0 node th' r) as (x&st1&E1&Hf&Hr1&Hrem); [by eapply same_inv|by rewrite F2|done|done|by rewrite F1|].
  destruct (Hnew _ _ E1) as (st2&E2&Hs2). exists x, st2. pose proof Hs2 as (G1&G2&G3). split; [done|].
  split; [by eapply fresh_same|]. rewrite G1, G3. split; [done|congruence].
Qed.

(** With the notification of the theories. *)
Lemma newLiteral_notify st node th l st1 :
  newLiteral node th false st = Some (l, st1) →
  newLiteral node th true st = (_ ← notify node; _ ← modify (withRemovable (d_removable st1)); mret l) st1.
Proof.
  unfold CnfStream.newLiteral. intros E. apply bind_inv in E as ([]&s0&E0&E). rewrite (bind_eq _ _ _ _ _ E0).
  apply bind_inv in E as ([]&s1&E1&E). rewrite (bind_eq _ _ _ _ _ E1). apply bind_inv in E as (s2&s2'&E2&E). rewrite (bind_eq _ _ _ _ _ E2).
  apply bind_inv in E as (l'&s3&E3&E). rewrite (bind_eq _ _ _ _ _ E3). apply bind_inv in E as ([]&s4&E4&E). rewrite (bind_eq _ _ _ _ _ E4).
  apply bind_inv in E as ([]&s5&E5&E). injection E5 as <-. injection E as -> ->.
  unfold mbind, StateM_bind, getState. destruct (notify node st1) as [[[] s]|]; done.
Qed.

(** ** Steps of the stream *)

(** The invariant is kept, literals are only added, [r] variables are left. *)
Record step (P : (Node → bool) → Prop) (r : nat) (st st' : State) : Prop := {
  step_inv : cnf_inv T P st';
  step_rem : d_removable st' = false;
  step_lits : lits st ⊆ lits st';
  step_room : room (sink st') r;
}.

Lemma fresh_lits P st node x st1 :
  cnf_inv T P st → lits st !! node = None → isNot node = false → fresh st node x st1 →
  lits st ⊆ lits st1 ∧ lits st1 !! node = Some (mkLiteral x false).
Proof.
  intros Hi Hnone Hnot Hf. rewrite (fresh_map _ _ _ _ Hf). unfold notNode. split.
  - etrans; [apply (insert_subseteq _ node (mkLiteral x false) Hnone)|]. apply insert_subseteq.
    rewrite lookup_insert_ne by (intros E; by rewrite E in Hnot). by rewrite (inv_not _ _ _ Hi), Hnot, Hnone.
  - rewrite lookup_insert_ne, lookup_insert_eq; [done|]. intros E. by rewrite <- E in Hnot.
Qed.

Lemma known_old P st node x st1 n l : cnf_inv T P st → fresh st node x st1 → lits st !! n = Some l → known (sink st1) l.
Proof.
  intros Hi Hf Hl. destruct (inv_lits _ _ _ Hi _ _ Hl) as [? ?]. split; [done|].
  rewrite (fresh_vars _ _ _ _ Hf). apply elem_of_union. by right.
Qed.

Lemma known_new st node x st1 : fresh st node x st1 → known (sink st1) (mkLiteral x false).
Proof.
  intros Hf. pose proof (fresh_range _ _ _ _ Hf). split; [by exists x, false|].
  rewrite (fresh_vars _ _ _ _ Hf), literal_var by done. apply elem_of_union. left. by apply elem_of_singleton.
Qed.

(** A node that is defined by clauses. *)
Lemma define_step P st node x st1 C st2 r :
  cnf_inv T P st → lits st !! node = None → isNot node = false → formula node = true → is_atom node = false →
  fresh st node x st1 → room (sink st1) r → d_removable st1 = false → adds st1 C st2 →
  (∀ v A, agree v A st → (C v ↔ lit_val v (mkLiteral x false) = fval A node)) →
  step P r st st2 ∧ is_Some (lits st2 !! node).
Proof.
  intros Hi Hnone Hnot Hform Hat Hf Hroom Hrem Ha HC. destruct (fresh_lits P st node x st1) as [Hsub Hnode]; [done..|].
  assert (lits st2 = lits st1) as El by (by rewrite (adds_same _ _ _ Ha)). split; [split|].
  - eapply define_inv; [done..|exact Hf|exact Ha| |].
    + intros v A Hag HCv _. by apply HC.
    + intros v A Hag Hv. by apply (HC v A).
  - by rewrite (adds_same _ _ _ Ha).
  - by rewrite El.
  - by apply (adds_room _ _ _ Ha).
  - rewrite El, Hnode. by eexists.
Qed.

Lemma getLiteral_ok (st : State) c l : lits st !! c = Some l → getLiteral c st = Some (l, st).
Proof. intros E. unfold getLiteral. rewrite (bind_eq _ _ _ st st) by done. by apply lift_eq. Qed.

Lemma checkHandler_ok (st : State) k cs ar :
  lits st !! mkNode k cs = None → ar (length cs) = true → d_removable st = false →
  checkHandler (mkNode k cs) k ar st = Some (cs, st).
Proof.
  intros Hn Har Hr. unfold checkHandler. rewrite (bind_eq _ _ _ st st) by done.
  rewrite (lift_bind _ _ _ ()).
  2:{ unfold hasLiteral. rewrite bool_decide_false; [done|]. rewrite Hn. by intros []. }
  rewrite (lift_bind _ _ _ ()) by (by rewrite bool_decide_true).
  cbn [children]. rewrite (lift_bind _ _ _ ()) by (by rewrite Har). rewrite (lift_bind _ _ _ ()) by (by rewrite Hr). done.
Qed.

(** The literals of the children. *)
Definition mapped (st : State) (cs : list Node) (ls : list SatLiteral) : Prop := Forall2 (λ c l, lits st !! c = Some l) cs ls.

(** A handler is correct at a node whose children have literals. *)
Definition handles (node : Node) (m : CNF unit) : Prop := ∀ P st r,
  cnf_inv T P st → lits st !! node = None → d_removable st = false → room (sink st) (Datatypes.S r) →
  formula node = true → Forall (λ c, is_Some (lits st !! c)) (children node) →
  ∃ st', m st = Some ((), st') ∧ step P r st st' ∧ is_Some (lits st' !! node).

Lemma formula_arity k cs : connective k cs = true → formula (mkNode k cs) = true → arity_ok k (length cs) = true.
Proof.
  cbn [formula]. intros Hk [_ Hf]%andb_true_iff. rewrite Hk in Hf. cbn [negb orb] in Hf.
  by apply andb_true_iff in Hf as [[? _]%andb_true_iff _].
Qed.

Lemma agree_lit v A (st : State) c l : agree v A st → lits st !! c = Some l → fval A c = lit_val v l.
Proof. intros Hag E. symmetry. by apply Hag. Qed.

(** The truth of a list of clauses as an equation between booleans. *)
Ltac solve_clauses :=
  cbn [fmap list_fmap forallb snd clause_val existsb fval map id];
  repeat match goal with
  | H : known _ ?l |- context [lit_val _ (negLit ?l)] => rewrite (negLit_val _ l (proj1 H))
  end;
  repeat match goal with
  | H : agree ?v ?A _, E : lits _ !! ?c = Some _ |- context [fval ?A ?c] => rewrite (agree_lit _ _ _ _ _ H E)
  end;
  repeat match goal with |- context [lit_val ?v ?l] => destruct (lit_val v l) end; cbn; intuition congruence.

(** The literals of the clauses are known. *)
Ltac known_clauses :=
  cbn [snd]; repeat first [apply Forall_nil_2 | apply Forall_cons_2; cbn [snd]]; auto using known_neg.

(** Open a handler on two children up to its clauses. *)
Tactic Notation "open_handler" ident(Hi) ident(Hnone) ident(Hrem) ident(Hroom) "as" ident(x) ident(st1) ident(Hf) ident(Hr1) ident(Hrem1) :=
  let Enew := fresh "Enew" in let Hkx := fresh "Hkx" in
  rewrite (bind_eq _ _ _ _ _ (checkHandler_ok _ _ _ _ Hnone eq_refl Hrem));
  cbn [lookup list_lookup];
  repeat (erewrite lift_bind by reflexivity);
  repeat (erewrite bind_eq by (apply getLiteral_ok; eassumption));
  match goal with |- context [CnfStream.newLiteral _ _ ?node _ _] =>
    destruct (newLiteral_fresh _ _ node false _ Hi Hnone eq_refl ltac:(done) Hroom) as (x&st1&Enew&Hf&Hr1&Hrem1)
  end;
  rewrite (bind_eq _ _ _ _ _ Enew); pose proof (known_new _ _ _ _ Hf) as Hkx;
  repeat match goal with
  | E : lits _ !! ?c = Some ?l |- _ =>
      lazymatch goal with H : known _ l |- _ => fail | _ => pose proof (known_old _ _ _ _ _ _ _ Hi Hf E) end
  end.

Lemma handleXor_ok cs : handles (mkNode XOR cs) (handleXor pol notify (mkNode XOR cs)).
Proof.
  intros P st r Hi Hnone Hrem Hroom Hform Hcs. pose proof (formula_arity XOR cs eq_refl Hform) as Har.
  apply bool_decide_eq_true in Har. cbn [children] in Hcs.
  destruct Hcs as [|c0 cs0 [a Ha] [|c1 cs1 [b Hb] [|]]]; try done. unfold handleXor.
  open_handler Hi Hnone Hrem Hroom as x st1 Hf Hr1 Hrem1.
  set (node := mkNode XOR [c0; c1]) in *. set (l := mkLiteral x false) in *.
  destruct (assertAll_adds [(negate node, [a; b; negLit l]); (negate node, [negLit a; negLit b; negLit l]);
    (node, [a; negLit b; l]); (node, [negLit a; b; l])] st1 _ st1 (adds_start st1)) as (st2&E2&Hadds).
  { congruence. }
  { known_clauses. }
  exists st2. split; [exact E2|]. eapply define_step; [done..|exact Hf|done|congruence|exact Hadds|].
  intros v A Hag. subst node. fold l. solve_clauses.
Qed.
Lemma handleImplies_ok cs : handles (mkNode IMPLIES cs) (handleImplies pol notify (mkNode IMPLIES cs)).
Proof.
  intros P st r Hi Hnone Hrem Hroom Hform Hcs. pose proof (formula_arity IMPLIES cs eq_refl Hform) as Har.
  apply bool_decide_eq_true in Har. cbn [children] in Hcs.
  destruct Hcs as [|c0 cs0 [a Ha] [|c1 cs1 [b Hb] [|]]]; try done. unfold handleImplies.
  open_handler Hi Hnone Hrem Hroom as x st1 Hf Hr1 Hrem1.
  set (node := mkNode IMPLIES [c0; c1]) in *. set (l := mkLiteral x false) in *.
  destruct (assertAll_adds [(negate node, [negLit l; negLit a; b]); (node, [a; l]); (node, [negLit b; l])] st1 _ st1 (adds_start st1))
    as (st2&E2&Hadds).
  { congruence. }
  { known_clauses. }
  exists st2. split; [exact E2|]. eapply define_step; [done..|exact Hf|done|congruence|exact Hadds|].
  intros v A Hag. subst node. fold l. solve_clauses.
Qed.

Lemma handleIff_ok cs : firstIsBoolean cs = true → handles (mkNode EQUAL cs) (handleIff pol notify (mkNode EQUAL cs)).
Proof.
  intros Hb0 P st r Hi Hnone Hrem Hroom Hform Hcs. pose proof (formula_arity EQUAL cs Hb0 Hform) as Har.
  apply bool_decide_eq_true in Har. cbn [children] in Hcs.
  destruct Hcs as [|c0 cs0 [a Ha] [|c1 cs1 [b Hb] [|]]]; try done. unfold handleIff.
  open_handler Hi Hnone Hrem Hroom as x st1 Hf Hr1 Hrem1.
  set (node := mkNode EQUAL [c0; c1]) in *. set (l := mkLiteral x false) in *.
  destruct (assertAll_adds [(negate node, [negLit a; b; negLit l]); (negate node, [a; negLit b; negLit l]);
    (node, [negLit a; negLit b; l]); (node, [a; b; l])] st1 _ st1 (adds_start st1)) as (st2&E2&Hadds).
  { congruence. }
  { known_clauses. }
  exists st2. split; [exact E2|].
  eapply define_step; [done..|unfold node; cbn [is_atom connective]; by rewrite Hb0|exact Hf|done|congruence|exact Hadds|].
  intros v A Hag. subst node. fold l. cbn [fval]. rewrite Hb0. solve_clauses.
Qed.

Lemma handleIte_ok cs : handles (mkNode ITE cs) (handleIte pol notify (mkNode ITE cs)).
Proof.
  intros P st r Hi Hnone Hrem Hroom Hform Hcs. pose proof (formula_arity ITE cs eq_refl Hform) as Har.
  apply bool_decide_eq_true in Har. cbn [children] in Hcs.
  destruct Hcs as [|c0 cs0 [a Ha] [|c1 cs1 [b Hb] [|c2 cs2 [d Hd] [|]]]]; try done. unfold handleIte.
  open_handler Hi Hnone Hrem Hroom as x st1 Hf Hr1 Hrem1.
  set (node := mkNode ITE [c0; c1; c2]) in *. set (l := mkLiteral x false) in *.
  destruct (assertAll_adds [(negate node, [negLit l; b; d]); (negate node, [negLit l; negLit a; b]); (negate node, [negLit l; a; d]);
    (node, [l; negLit b; negLit d]); (node, [l; negLit a; negLit b]); (node, [l; a; negLit d])] st1 _ st1 (adds_start st1))
    as (st2&E2&Hadds).
  { congruence. }
  { known_clauses. }
  exists st2. split; [exact E2|]. eapply define_step; [done..|exact Hf|done|congruence|exact Hadds|].
  intros v A Hag. subst node. fold l. solve_clauses.
Qed.

(** ** Disjunctions and conjunctions *)

Lemma mapped_of st cs : Forall (λ c, is_Some (lits st !! c)) cs → ∃ ls, mapped st cs ls.
Proof.
  induction 1 as [|c cs [l Hl] _ [ls Hls]]; [exists []; constructor|]. exists (l :: ls). by constructor.
Qed.

Lemma mapped_mono st st' cs ls : mapped st cs ls → lits st ⊆ lits st' → mapped st' cs ls.
Proof. intros HF Hsub. induction HF; constructor; [by eapply lookup_weaken|done]. Qed.

Lemma mapped_vals v A st cs ls : mapped st cs ls → agree v A st → map (fval A) cs = map (lit_val v) ls.
Proof. intros HF Hag. induction HF as [|c l cs ls Hc _ IH]; [done|]. cbn. by rewrite IH, (agree_lit _ _ _ _ _ Hag Hc). Qed.

Section loop.
Context (node : Node) (lit : SatLiteral) (st0 : State).
Hypothesis Hrem : d_removable st0 = false.
Hypothesis Hlit : known (sink st0) lit.

Lemma orLoop_adds cs ls : ∀ st C clause,
  mapped st0 cs ls → Forall (known (sink st0)) ls → adds st0 C st →
  ∃ st', orLoop node lit cs clause st = Some (clause ++ ls, st') ∧
    adds st0 (λ v, C v ∧ forallb (λ l, lit_val v lit || negb (lit_val v l)) ls = true) st'.
Proof using All.
  revert ls. induction cs as [|c cs IH]; intros ls st C clause HM HK Ha.
  - inversion HM; subst. exists st. rewrite app_nil_r. split; [done|]. eapply adds_ext; [done|]. intros v. cbn. tauto.
  - inversion HM as [|? l ? ls' Hc HM']; subst. inversion HK as [|? ? Hkl HK']; subst. cbn [orLoop].
    rewrite (bind_eq _ _ _ _ _ (getLiteral_ok st c l ltac:(by rewrite (adds_same _ _ _ Ha)))).
    destruct (assertClause_adds node [lit; negLit l] st0 C st Ha Hrem) as (b&st1&E1&Ha1).
    { intros l'. rewrite !elem_of_cons, elem_of_nil. intros [->|[->|[]]]; [apply Hlit|by apply known_neg]. }
    rewrite (bind_eq _ _ _ _ _ E1). destruct (IH ls' st1 _ (clause ++ [l]) HM' HK' Ha1) as (st2&->&Ha2).
    exists st2. rewrite <- app_assoc. split; [done|]. eapply adds_ext; [done|]. intros v. cbn [clause_val existsb forallb].
    rewrite negLit_val by apply Hkl. rewrite orb_false_r, andb_true_iff. tauto.
Qed.

Lemma andLoop_adds cs ls : ∀ st C clause,
  mapped st0 cs ls → Forall (known (sink st0)) ls → adds st0 C st →
  ∃ st', andLoop node lit cs clause st = Some (clause ++ map negLit ls, st') ∧
    adds st0 (λ v, C v ∧ forallb (λ l, negb (lit_val v lit) || lit_val v l) ls = true) st'.
Proof using All.
  revert ls. induction cs as [|c cs IH]; intros ls st C clause HM HK Ha.
  - inversion HM; subst. exists st. rewrite app_nil_r. split; [done|]. eapply adds_ext; [done|]. intros v. cbn. tauto.
  - inversion HM as [|? l ? ls' Hc HM']; subst. inversion HK as [|? ? Hkl HK']; subst. cbn [andLoop].
    rewrite (bind_eq _ _ _ _ _ (getLiteral_ok st c l ltac:(by rewrite (adds_same _ _ _ Ha)))).
    destruct (assertClause_adds (negate node) [negLit lit; negLit (negLit l)] st0 C st Ha Hrem) as (b&st1&E1&Ha1).
    { intros l'. rewrite !elem_of_cons, elem_of_nil. intros [->|[->|[]]]; by repeat apply known_neg. }
    rewrite (bind_eq _ _ _ _ _ E1). destruct (IH ls' st1 _ (clause ++ [negLit l]) HM' HK' Ha1) as (st2&->&Ha2).
    exists st2. rewrite <- app_assoc. split; [done|]. eapply adds_ext; [done|]. intros v. cbn [clause_val existsb forallb].
    destruct (negLit_ok l (proj1 Hkl)) as (_&_&->). rewrite negLit_val by apply Hlit. rewrite orb_false_r, andb_true_iff. tauto.
Qed.
End loop.

(** The clauses of a disjunction, of a conjunction. *)
Lemma forallb_true {A} (ls : list A) : forallb (λ _, true) ls = true.
Proof. by induction ls. Qed.

Lemma or_clauses v x ls :
  forallb (λ l, x || negb (lit_val v l)) ls = true ∧ existsb (lit_val v) ls || negb x = true ↔ x = existsb id (map (lit_val v) ls).
Proof.
  assert (existsb id (map (lit_val v) ls) = existsb (lit_val v) ls) as -> by (by induction ls as [|l ls IH]; cbn; rewrite ?IH).
  destruct x; cbn [orb negb]; rewrite ?forallb_true, ?orb_false_r, ?orb_true_r; [intuition congruence|].
  replace (forallb (λ l, negb (lit_val v l)) ls) with (negb (existsb (lit_val v) ls)).
  - destruct (existsb (lit_val v) ls); cbn; intuition congruence.
  - induction ls as [|l ls IH]; [done|]. cbn. by rewrite negb_orb, IH.
Qed.

Lemma and_clauses v x ls : Forall lit_ok ls →
  forallb (λ l, negb x || lit_val v l) ls = true ∧ existsb (lit_val v) (map negLit ls) || x = true ↔ x = forallb id (map (lit_val v) ls).
Proof.
  intros Hok. assert (forallb id (map (lit_val v) ls) = forallb (lit_val v) ls) as -> by (by clear Hok; induction ls as [|l ls IH]; cbn; rewrite ?IH).
  replace (existsb (lit_val v) (map negLit ls)) with (negb (forallb (lit_val v) ls)).
  - destruct x; cbn [orb negb]; rewrite ?forallb_true, ?orb_false_r, ?orb_true_r;
      destruct (forallb (lit_val v) ls); cbn; intuition congruence.
  - induction Hok as [|l ls Hl _ IH]; [done|]. cbn. by rewrite negb_andb, negLit_val, IH.
Qed.

Lemma known_mapped P st node x st1 cs ls :
  cnf_inv T P st → fresh st node x st1 → mapped st cs ls → Forall (known (sink st1)) ls.
Proof. intros Hi Hf HM. induction HM; constructor; [by eapply known_old|done]. Qed.

Lemma handleOr_ok cs : handles (mkNode OR cs) (handleOr pol notify (mkNode OR cs)).
Proof.
  intros P st r Hi Hnone Hrem Hroom Hform Hcs. pose proof (formula_arity OR cs eq_refl Hform) as Har.
  apply bool_decide_eq_true in Har. cbn [children] in Hcs. destruct (mapped_of st cs Hcs) as [ls HM]. unfold handleOr.
  rewrite (bind_eq _ _ _ _ _ (checkHandler_ok st OR cs (λ n, bool_decide (1 < n)%nat) Hnone ltac:(apply bool_decide_eq_true; lia) Hrem)).
  destruct (newLiteral_fresh P st (mkNode OR cs) false r) as (x&st1&E1&Hf&Hr1&Hrem1); [done..|].
  rewrite (bind_eq _ _ _ _ _ E1). pose proof (known_new _ _ _ _ Hf) as Hkx. pose proof (known_mapped _ _ _ _ _ _ _ Hi Hf HM) as HK.
  destruct (fresh_lits P st (mkNode OR cs) x st1) as [Hsub _]; [done..|].
  destruct (orLoop_adds (mkNode OR cs) _ st1 ltac:(congruence) Hkx cs ls st1 _ [] ltac:(by eapply mapped_mono) HK (adds_start st1))
    as (st2&E2&Ha2). rewrite (bind_eq _ _ _ _ _ E2).
  destruct (assertClause_adds (negate (mkNode OR cs)) (([] ++ ls) ++ [negLit (mkLiteral x false)]) st1 _ st2 Ha2) as (b&st3&E3&Ha3).
  { congruence. }
  { intros l. rewrite elem_of_app, list_elem_of_singleton, app_nil_l. intros [Hl| ->]; [|by apply known_neg].
    rewrite list.Forall_forall in HK. by apply HK. }
  rewrite (bind_eq _ _ _ _ _ E3). exists st3. split; [done|].
  eapply define_step; [done..|exact Hf|done|congruence|exact Ha3|]. intros v A Hag.
  cbn [fval]. rewrite (mapped_vals v A st cs ls HM Hag). rewrite <- (or_clauses v (lit_val v (mkLiteral x false))).
  unfold clause_val. rewrite app_nil_l, existsb_app. cbn [existsb]. rewrite orb_false_r, negLit_val by apply Hkx. tauto.
Qed.

Lemma handleAnd_ok cs : handles (mkNode AND cs) (handleAnd pol notify (mkNode AND cs)).
Proof.
  intros P st r Hi Hnone Hrem Hroom Hform Hcs. pose proof (formula_arity AND cs eq_refl Hform) as Har.
  apply bool_decide_eq_true in Har. cbn [children] in Hcs. destruct (mapped_of st cs Hcs) as [ls HM]. unfold handleAnd.
  rewrite (bind_eq _ _ _ _ _ (checkHandler_ok st AND cs (λ n, bool_decide (1 < n)%nat) Hnone ltac:(apply bool_decide_eq_true; lia) Hrem)).
  destruct (newLiteral_fresh P st (mkNode AND cs) false r) as (x&st1&E1&Hf&Hr1&Hrem1); [done..|].
  rewrite (bind_eq _ _ _ _ _ E1). pose proof (known_new _ _ _ _ Hf) as Hkx. pose proof (known_mapped _ _ _ _ _ _ _ Hi Hf HM) as HK.
  destruct (fresh_lits P st (mkNode AND cs) x st1) as [Hsub _]; [done..|].
  destruct (andLoop_adds (mkNode AND cs) _ st1 ltac:(congruence) Hkx cs ls st1 _ [] ltac:(by eapply mapped_mono) HK (adds_start st1))
    as (st2&E2&Ha2). rewrite (bind_eq _ _ _ _ _ E2).
  destruct (assertClause_adds (mkNode AND cs) (([] ++ map negLit ls) ++ [mkLiteral x false]) st1 _ st2 Ha2) as (b&st3&E3&Ha3).
  { congruence. }
  { intros l. rewrite elem_of_app, list_elem_of_singleton, app_nil_l. intros [Hl| ->]; [|by apply Hkx].
    apply list_elem_of_fmap in Hl as (l'&->&Hl'). rewrite list.Forall_forall in HK. by apply known_neg, HK. }
  rewrite (bind_eq _ _ _ _ _ E3). exists st3. split; [done|].
  eapply define_step; [done..|exact Hf|done|congruence|exact Ha3|]. intros v A Hag.
  cbn [fval]. rewrite (mapped_vals v A st cs ls HM Hag). rewrite <- (and_clauses v (lit_val v (mkLiteral x false))).
  - unfold clause_val. rewrite app_nil_l, existsb_app. cbn [existsb]. rewrite orb_false_r. tauto.
  - eapply list.Forall_impl; [exact HK|]. by intros l [? _].
Qed.
(** ** Atoms *)

Lemma atom_step P st node x st1 r :
  cnf_inv T P st → lits st !! node = None → isNot node = false → formula node = true → is_atom node = true →
  fresh st node x st1 → room (sink st1) r → d_removable st1 = false → step P r st st1 ∧ is_Some (lits st1 !! node).
Proof.
  intros Hi Hnone Hnot Hform Hat Hf Hroom Hrem. destruct (fresh_lits P st node x st1) as [Hsub Hnode]; [done..|].
  split; [split; try done|rewrite Hnode; by eexists].
  eapply define_inv; [done..|exact Hf|exact (adds_start st1)| |done].
  intros v A _ _ HA. rewrite fval_atom by done. by rewrite HA.
Qed.

(** The literal of a constant is that of a variable the solver fixes. *)
Lemma const_alloc P st b th r :
  cnf_inv T P st → lits st !! mkConstBool b = None → d_removable st = false → room (sink st) r →
  ∃ l st1, allocLiteral (mkConstBool b) th st = Some (l, st1) ∧ step P r st st1 ∧ is_Some (lits st1 !! mkConstBool b).
Proof.
  intros [Hl Hn Hform Hs Hc] Hnone Hrem Hroom. unfold allocLiteral. rewrite (bind_eq _ _ _ st st) by done.
  set (x := if b then trueVar (sink st) else falseVar (sink st)).
  assert (0 ≤ x < max_var ∧ x ∈ sat_vars (sink st) ∧ ∀ v, models (sink st) v → v x = b) as (Hx&Hin&Hfix).
  { subst x. destruct b; [apply trueVar_spec|apply falseVar_spec]. }
  set (l := mkLiteral x false). assert (lit_ok l) as Hlok by (by exists x, false).
  assert (∀ v, models (sink st) v → lit_val v l = fval (λ _, false) (mkConstBool b)) as Hval.
  { intros v Hv. unfold lit_val, l. rewrite literal_neg, literal_var by done. cbn. by rewrite Hfix. }
  set (node := mkConstBool b) in *.
  rewrite (lift_bind _ _ _ (<[node := l]> (lits st))) by (unfold mapInsert; by rewrite Hnone).
  rewrite (lift_bind _ _ _ (<[notNode node := negLit l]> (<[node := l]> (lits st)))).
  2:{ unfold mapInsert, notNode. rewrite lookup_insert_ne by done. by rewrite Hn; cbn [isNot]; rewrite Hnone. }
  eexists l, _. split; [done|]. split; [|cbn; unfold notNode; rewrite lookup_insert_ne, lookup_insert_eq by done; by eexists].
  split; [split; unfold agree; cbn|done| |done].
  - intros n l'. rewrite !lookup_insert_Some. destruct (negLit_ok l Hlok) as (?&E&_).
    assert (getSatVariable l ∈ sat_vars (sink st)) as Hlin by (unfold l; by rewrite literal_var).
    intros [[<- <-]|[_ [[<- <-]|[_ ?]]]]; [split; [done|by rewrite E]|done|by eapply Hl].
  - by apply not_extend.
  - intros n l'. rewrite !lookup_insert_Some. intros [[<- <-]|[_ [[<- <-]|[_ E]]]]; [done|done|by eapply Hform].
  - intros v A Hmod Ha. destruct (Hs v A Hmod) as [HP Hag].
    { intros a la Hat Hla. apply Ha; [done|]. rewrite lookup_insert_ne, lookup_insert_ne; [done|congruence|by intros <-]. }
    split; [done|]. eapply (agree_extend v A st node l); [done|done|by apply Hval|done].
  - intros A HT HP. destruct (Hc A HT HP) as (v&Hmod&Hag). exists v. split; [done|].
    eapply (agree_extend v A st node l); [done|done|by apply Hval|done].
  - cbn. unfold notNode. etrans; [apply (insert_subseteq _ node l Hnone)|]. apply insert_subseteq.
    rewrite lookup_insert_ne by done. by rewrite Hn; cbn [isNot]; rewrite Hnone.
Qed.

Lemma step_same P r st st0 st1 st2 : same st st0 → same st1 st2 → step P r st0 st1 → step P r st st2.
Proof.
  intros (E1&E2&E3) (F1&F2&F3) [Hi Hrem Hsub Hroom]. split; [by eapply inv_same|congruence|by rewrite F2, <- E2|by rewrite F1].
Qed.

(** A literal for an atom or a constant, without and with notification. *)
Lemma newLiteral_step P st node th r :
  cnf_inv T P st → lits st !! node = None → isNot node = false → formula node = true →
  is_atom node = true ∨ (∃ b, node = mkConstBool b) → d_removable st = false → room (sink st) (Datatypes.S r) →
  ∃ l st1, newLiteral node th false st = Some (l, st1) ∧ step P r st st1 ∧ is_Some (lits st1 !! node).
Proof.
  intros Hi Hnone Hnot Hform Hat Hrem Hroom. destruct (decide (is_atom node = true)) as [Ha|Ha].
  - destruct (newLiteral_fresh P st node th r) as (x&st1&E&Hf&Hr1&Hrem1); [done..|by intros b ->|done|].
    eexists _, st1. split; [done|]. eapply atom_step; try done. congruence.
  - destruct Hat as [?|[b ->]]; [done|]. destruct (newLiteral_alloc st (mkConstBool b) th Hnone Hnot) as (st0&th'&Hs0&Hnew).
    pose proof Hs0 as (F1&F2&F3).
    destruct (const_alloc P st0 b th' r) as (l&st1&E1&Hst1&Hsome); [by eapply same_inv|by rewrite F2|congruence|by rewrite F1; apply room_less|].
    destruct (Hnew _ _ E1) as (st2&E2&Hs2). exists l, st2. split; [done|]. split; [by eapply step_same|].
    destruct Hs2 as (_&G&_). by rewrite G.
Qed.

Lemma step_trans P r1 r2 st1 st2 st3 : step P r1 st1 st2 → step P r2 st2 st3 → step P r2 st1 st3.
Proof. intros [_ _ H12 _] [? ? H23 ?]. split; try done. by etrans. Qed.

Lemma convertAtom_ok P st node r :
  registrar_ok → cnf_inv T P st → lits st !! node = None → isNot node = false → formula node = true →
  is_atom node = true ∨ (∃ b, node = mkConstBool b) → d_removable st = false → room (sink st) (Datatypes.S r) →
  ∃ l st1, convertAtom node st = Some (l, st1) ∧ step P r st st1 ∧ is_Some (lits st1 !! node).
Proof.
  intros Hreg Hi Hnone Hnot Hform Hat Hrem Hroom. unfold CnfStream.convertAtom. rewrite (bind_eq _ _ _ st st) by done.
  rewrite (lift_bind _ _ _ ()).
  2:{ unfold hasLiteral. rewrite bool_decide_false; [done|]. rewrite Hnone. by intros []. }
  destruct (isVar node && negb (skolem node)).
  - rewrite (bind_eq _ _ _ () (addBooleanVariable node st)) by done.
    assert (same st (addBooleanVariable node st)) as Hs by (by split_and!).
    destruct (newLiteral_step P (addBooleanVariable node st) node (bool_decide (pol = TRACK_AND_NOTIFY_VAR)) r) as (l&st1&E&Hst&Hsome);
      [by eapply same_inv|done..|]. exists l, st1. split; [done|]. split; [|done]. eapply step_same; [exact Hs| |exact Hst]. by split_and!.
  - destruct (newLiteral_step P st node true r) as (l&st1&E&Hst&Hsome); [done..|].
    rewrite (newLiteral_notify _ _ _ _ _ E).
    destruct (Hreg node P st1 r (step_inv _ _ _ _ Hst) (step_room _ _ _ _ Hst)) as (st2&E2&Hi2&Hsub2&Hroom2).
    rewrite (bind_eq _ _ _ _ _ E2). eexists l, _. split; [done|]. cbn. destruct Hst as [? Hrem1 Hsub1 ?]. split.
    + split; cbn; [by eapply inv_same|done|by etrans|done].
    + destruct Hsome as [l' Hl']. exists l'. by eapply lookup_weaken.
Qed.
End handlers.
