(* ===== verification/CnfSound.v ===== *)
(** The conversion to clauses is correct: [toCNF] returns a literal with the
    value of the formula, and [convertAndAssert] makes the clauses of the solver
    satisfiable exactly when the asserted formulas are. *)
From stdpp Require Import base option list gmap numbers.
From S2P Require Import Prelude Node TypeRules CnfStream CnfSpec.
Open Scope Z_scope.

(** The children that [toCNF] pushes. *)
Definition pushed (n : Node) : list Node :=
  match n with mkNode k cs => if connective k cs then cs else [] | _ => [] end.

Definition sizes (cs : list Node) : nat := sum_list_with nsize cs.

Lemma nsize_pushed n : (1 + sizes (pushed n) ≤ nsize n)%nat.
Proof.
  destruct n as [| | | |k cs]; simpl pushed; try (simpl; lia). rewrite nsize_node. destruct (connective k cs); unfold sizes; simpl; lia.
Qed.

Lemma formula_type n : formula n = true → typeOf n = Some BOOLEAN_TYPE.
Proof. destruct n; cbn [formula]; intros [H _]%andb_true_iff; by apply bool_decide_eq_true in H. Qed.

Lemma formula_pushed n : formula n = true → Forall (λ c, formula c = true) (pushed n).
Proof.
  destruct n as [| | | |k cs]; try constructor. cbn [formula pushed]. intros [_ Hf]%andb_true_iff.
  destruct (connective k cs); [|constructor]. cbn [negb orb] in Hf. apply andb_true_iff in Hf as [[_ Hf]%andb_true_iff _].
  clear - Hf. induction cs as [|c cs IH]; [constructor|]. apply andb_true_iff in Hf as [? ?]. constructor; auto.
Qed.

(** A negation in a formula has one child, which is not a negation. *)
Lemma formula_not cs : formula (mkNode NOT cs) = true → ∃ c, cs = [c] ∧ isNot c = false.
Proof.
  cbn [formula connective negb orb]. intros [_ Hf]%andb_true_iff. apply andb_true_iff in Hf as [[Har _]%andb_true_iff Hn].
  cbn [arity_ok] in Har. apply bool_decide_eq_true in Har. destruct cs as [|c []]; try done. exists c. split; [done|].
  rewrite bool_decide_true in Hn by done. cbn in Hn. by destruct (isNot c).
Qed.

Section sound.
Context {S : Type} `{!SatClauseSink S, !SatClauseSinkLaws S}.
Context (pol : FormulaLitPolicy) (skolem : Node → bool) (notify : Node → StateM (CnfState S) unit) (T : (Node → bool) → Prop).
Hypothesis Hreg : registrar_ok notify T.

Abbreviation State := (CnfState S).
Abbreviation sink st := (d_satSolver st).
Abbreviation lits st := (d_nodeToLiteralMap st).
Abbreviation visitLoop := (visitLoop pol skolem notify).
Abbreviation toCNF := (toCNF pol skolem notify).
Abbreviation step := (step T).

Lemma room_weaken s a b : room s (a + b) → room s b.
Proof using Type. induction a as [|a IH]; [done|]. intros H. by apply IH, room_less. Qed.

Lemma room_le s a b : room s b → (a ≤ b)%nat → room s a.
Proof using Type. intros H Hle. apply (room_weaken s (b - a)). by replace (b - a + a)%nat with b by lia. Qed.

Lemma step_refl P r st : cnf_inv T P st → d_removable st = false → room (sink st) r → step P r st st.
Proof using Type. by split. Qed.

(** The second visit of a node whose children have literals. *)
Lemma handle_ok P st n r :
  cnf_inv T P st → lits st !! n = None → d_removable st = false → room (sink st) (Datatypes.S r) →
  formula n = true → isNot n = false → Forall (λ c, is_Some (lits st !! c)) (pushed n) →
  ∃ st', handle pol skolem notify n st = Some ((), st') ∧ step P r st st' ∧ is_Some (lits st' !! n).
Proof using Hreg.
  intros Hi Hnone Hrem Hroom Hform Hnot Hcs.
  assert (is_atom n = true ∨ (∃ b, n = mkConstBool b) →
    ∃ st', (_ ← convertAtom pol skolem notify n; mret ()) st = Some ((), st') ∧ step P r st st' ∧ is_Some (lits st' !! n)) as Hatom.
  { intros Hat. destruct (convertAtom_ok pol skolem notify T P st n r Hreg Hi Hnone Hnot Hform Hat Hrem Hroom) as (l&st1&E&Hst&Hs).
    rewrite (bind_eq _ _ _ _ _ E). by exists st1. }
  destruct n as [id ty|b|z|bv|k cs]; try (apply Hatom; first [by left | right; by eexists]).
  cbn [pushed] in Hcs. destruct k; cbn [handle]; cbn [connective] in Hcs; try (apply Hatom; by left); try done.
  - destruct (firstIsBoolean cs) eqn:Hb; [by eapply handleIff_ok|]. apply Hatom. left. cbn. by rewrite Hb.
  - by eapply handleAnd_ok.
  - by eapply handleOr_ok.
  - by eapply handleXor_ok.
  - by eapply handleImplies_ok.
  - by eapply handleIte_ok.
Qed.

(** What a visit of the nodes [ns] on top of the stack does. *)
Definition visits (ns : list Node) : Prop := ∀ P st cache r,
  cnf_inv T P st → d_removable st = false → room (sink st) (sizes ns + r) →
  (∀ m c, is_Some (cache !! m) → c ∈ ns → is_Some (lits st !! m) ∨ (nsize c < nsize m)%nat) →
  ∃ k st' cache', (k ≤ 2 * sizes ns)%nat ∧
    (∀ rest fuel, visitLoop (k + fuel) (ns ++ rest) cache st = visitLoop fuel rest cache' st') ∧
    step P r st st' ∧ Forall (λ n, is_Some (lits st' !! n)) ns ∧
    (∀ m b, cache !! m = Some b → is_Some (lits st' !! m) ∨ cache' !! m = Some b) ∧
    (∀ m, is_Some (cache' !! m) → is_Some (cache !! m) ∨ is_Some (lits st' !! m)).

Lemma lits_mono (st st' : State) n : lits st ⊆ lits st' → is_Some (lits st !! n) → is_Some (lits st' !! n).
Proof using Type. intros Hsub [l Hl]. exists l. by eapply lookup_weaken. Qed.

Lemma visits_list ns : Forall (λ n, visits [n]) ns → visits ns.
Proof using Type.
  induction 1 as [|n ns Hn _ IH]; intros P st cache r Hi Hrem Hroom Hcache.
  - exists 0%nat, st, cache. split_and!; [lia|done|by apply step_refl|constructor|by right|by left].
  - destruct (Hn P st cache (sizes ns + r)%nat) as (k1&st1&cache1&Hk1&E1&Hst1&HF1&Hc1&Hc1'); [done|done| | |].
    { eapply room_le; [exact Hroom|]. unfold sizes; simpl. lia. }
    { intros m c Hm Hc. apply list_elem_of_singleton in Hc as ->. apply Hcache; [done|left]. }
    destruct (IH P st1 cache1 r) as (k2&st2&cache2&Hk2&E2&Hst2&HF2&Hc2&Hc2'); [apply Hst1|apply Hst1|apply Hst1| |].
    { intros m c Hm Hc. destruct (Hc1' m Hm) as [Hm'|?]; [|by left]. destruct (Hcache m c Hm' ltac:(by right)) as [?|?]; [left|by right].
      by eapply lits_mono; [apply Hst1|]. }
    exists (k1 + k2)%nat, st2, cache2. split_and!.
    + unfold sizes in *. simpl in *. lia.
    + intros rest fuel. rewrite <- Nat.add_assoc. cbn [app]. rewrite (E1 (ns ++ rest)). apply E2.
    + by eapply step_trans.
    + constructor; [|done]. inversion HF1; subst. by eapply lits_mono; [apply Hst2|].
    + intros m b Hm. destruct (Hc1 m b Hm) as [?|Hm']; [left; by eapply lits_mono; [apply Hst2|]|by apply Hc2].
    + intros m Hm. destruct (Hc2' m Hm) as [Hm'|?]; [|by right]. destruct (Hc1' m Hm') as [?|?]; [by left|right].
      by eapply lits_mono; [apply Hst2|].
Qed.

(** One iteration of the loop. *)
Lemma visit_has fuel n rest cache st :
  typeOf n = Some BOOLEAN_TYPE → is_Some (lits st !! n) →
  visitLoop (Datatypes.S fuel) (n :: rest) cache st = visitLoop fuel rest cache st.
Proof using Type.
  intros Ht Hl. cbn [CnfStream.visitLoop]. rewrite (lift_bind _ _ _ ()) by (by rewrite bool_decide_true).
  rewrite (bind_eq _ _ _ st st) by done. unfold hasLiteral. by rewrite bool_decide_true.
Qed.

Lemma visit_first fuel n rest cache st :
  typeOf n = Some BOOLEAN_TYPE → lits st !! n = None → cache !! n = None →
  visitLoop (Datatypes.S fuel) (n :: rest) cache st = visitLoop fuel (pushed n ++ n :: rest) (<[n := false]> cache) st.
Proof using Type.
  intros Ht Hl Hc. cbn [CnfStream.visitLoop]. rewrite (lift_bind _ _ _ ()) by (by rewrite bool_decide_true).
  rewrite (bind_eq _ _ _ st st) by done. unfold hasLiteral. rewrite bool_decide_false by (rewrite Hl; by intros []). by rewrite Hc.
Qed.

Lemma visit_second fuel n rest cache st st' :
  typeOf n = Some BOOLEAN_TYPE → lits st !! n = None → cache !! n = Some false → handle pol skolem notify n st = Some ((), st') →
  visitLoop (Datatypes.S fuel) (n :: rest) cache st = visitLoop fuel rest (<[n := true]> cache) st'.
Proof using Type.
  intros Ht Hl Hc Hh. cbn [CnfStream.visitLoop]. rewrite (lift_bind _ _ _ ()) by (by rewrite bool_decide_true).
  rewrite (bind_eq _ _ _ st st) by done. unfold hasLiteral. rewrite bool_decide_false by (rewrite Hl; by intros []). rewrite Hc.
  by rewrite (bind_eq _ _ _ _ _ Hh).
Qed.

Lemma visits_node n : formula n = true → Forall (λ c, visits [c]) (pushed n) → visits [n].
Proof using Hreg.
  intros Hform Hpush P st cache r Hi Hrem Hroom Hcache. pose proof (formula_type n Hform) as Ht. pose proof (nsize_pushed n) as Hsz.
  assert (sizes [n] = nsize n) as En by (unfold sizes; simpl; lia). rewrite En in *.
  destruct (lits st !! n) as [l|] eqn:El.
  { exists 1%nat, st, cache. split_and!; [pose proof (nsize_pos n); lia| | | |by right|by left].
    - intros rest fuel. by apply visit_has.
    - apply step_refl; [done..|]. by eapply room_weaken.
    - constructor; [by eexists|constructor]. }
  assert (cache !! n = None) as Ec.
  { apply eq_None_not_Some. intros Hs. destruct (Hcache n n Hs ltac:(by left)) as [[? ?]|?]; [congruence|lia]. }
  destruct (visits_list _ Hpush P st (<[n := false]> cache) (Datatypes.S r)) as (k&st1&cache1&Hk&E1&Hst1&HF1&Hc1&Hc1').
  { done. }
  { done. }
  { eapply room_le; [exact Hroom|lia]. }
  { intros m c Hm Hc. assert (nsize c < nsize n)%nat by (pose proof (sum_list_with_elem nsize _ _ Hc); unfold sizes in Hsz; lia).
    destruct (decide (n = m)) as [<-|Hne]; [by right|]. rewrite lookup_insert_ne in Hm by done.
    destruct (Hcache m n Hm ltac:(by left)) as [?|?]; [by left|right; lia]. }
  destruct (lits st1 !! n) as [l|] eqn:El1.
  - exists (1 + k + 1)%nat, st1, cache1. split_and!.
    + lia.
    + intros rest fuel. cbn [app Nat.add]. rewrite visit_first by done. rewrite <- Nat.add_assoc, (E1 (n :: rest)). apply visit_has; [done|by eexists].
    + destruct Hst1. split; try done. by apply room_less.
    + constructor; [by eexists|constructor].
    + intros m b Hm. apply Hc1. rewrite lookup_insert_ne; [done|congruence].
    + intros m Hm. destruct (Hc1' m Hm) as [Hm'|?]; [|by right]. destruct (decide (n = m)) as [<-|?]; [right; by eexists|left].
      by rewrite lookup_insert_ne in Hm'.
  - assert (isNot n = false) as Hnot.
    { destruct n as [| | | |k' cs]; try done. destruct k'; try done. destruct (formula_not cs Hform) as (c&->&Hnc).
      inversion HF1 as [|? ? [lc Hlc] _]; subst. rewrite (inv_not _ _ _ (step_inv _ _ _ _ _ Hst1)), Hnc, Hlc in El1. done. }
    destruct (handle_ok P st1 n r) as (st2&Eh&Hst2&Hs2); [apply Hst1|done|apply Hst1|apply Hst1|done|done|done|].
    assert (cache1 !! n = Some false) as Ec1.
    { destruct (Hc1 n false) as [[? ?]|?]; [by rewrite lookup_insert_eq|congruence|done]. }
    exists (1 + k + 1)%nat, st2, (<[n := true]> cache1). split_and!.
    + lia.
    + intros rest fuel. cbn [app Nat.add]. rewrite visit_first by done. rewrite <- Nat.add_assoc, (E1 (n :: rest)). by apply visit_second.
    + by eapply step_trans.
    + by constructor.
    + intros m b Hm. assert (n ≠ m) as Hne by congruence. rewrite lookup_insert_ne by done.
      destruct (Hc1 m b) as [?|?]; [by rewrite lookup_insert_ne|left; by eapply lits_mono; [apply Hst2|]|by right].
    + intros m Hm. destruct (decide (n = m)) as [<-|Hne]; [by right|]. rewrite lookup_insert_ne in Hm by done.
      destruct (Hc1' m Hm) as [Hm'|?]; [left; by rewrite lookup_insert_ne in Hm'|right; by eapply lits_mono; [apply Hst2|]].
Qed.

Lemma visits_formula n : formula n = true → visits [n].
Proof using Hreg.
  induction n as [id ty|b|z|bv|k cs IH] using Node_ind'; intros Hf; (apply visits_node; [done|]); try constructor.
  pose proof (formula_pushed _ Hf) as HF. cbn [pushed] in *. destruct (connective k cs); [|constructor].
  clear - IH HF. induction IH as [|c cs Hc _ IHl]; [constructor|]. inversion HF; subst. constructor; auto.
Qed.

(** [toCNF] returns the literal of the formula, or its negation. *)
Lemma toCNF_ok P st n negated r :
  formula n = true → cnf_inv T P st → d_removable st = false → room (sink st) (nsize n + r) →
  ∃ l st', toCNF n negated st = Some (if negated then negLit l else l, st') ∧ step P r st st' ∧ lits st' !! n = Some l.
Proof using Hreg.
  intros Hf Hi Hrem Hroom. assert (sizes [n] = nsize n) as En by (unfold sizes; simpl; lia).
  destruct (visits_formula n Hf P st ∅ r) as (k&st'&cache'&Hk&E&Hst&HF&_&_); [done|done|by rewrite En| |].
  { intros m c [? Hm]. by rewrite lookup_empty in Hm. }
  inversion HF as [|? ? [l Hl] _]; subst. exists l, st'. split; [|done]. unfold CnfStream.toCNF.
  rewrite (bind_eq _ _ st () st').
  - rewrite (bind_eq _ _ _ _ _ (getLiteral_ok _ _ _ Hl)). by destruct negated.
  - replace (2 * nsize n)%nat with (k + (2 * nsize n - k))%nat by lia. specialize (E [] (2 * nsize n - k)%nat).
    rewrite app_nil_r in E. rewrite E. by destruct (2 * nsize n - k)%nat.
Qed.
(** ** Assertions *)

Lemma inv_ext P P' (st : State) : cnf_inv T P st → (∀ A, P A ↔ P' A) → cnf_inv T P' st.
Proof using Type.
  intros [Hl Hn Hf Hs Hc] HP. split; try done.
  - intros v A Hm Ha. destruct (Hs v A Hm Ha). split; [by apply HP|done].
  - intros A HT HA. apply Hc; [done|by apply HP].
Qed.

Lemma step_ext P P' r st st' : step P r st st' → (∀ A, P A ↔ P' A) → step P' r st st'.
Proof using Type. intros [Hi ? ? ?] HP. split; try done. by eapply inv_ext. Qed.

(** Steps that change what is asserted. *)
Lemma steps P P' r1 r2 st1 st2 st3 : step P r1 st1 st2 → step P' r2 st2 st3 → step P' r2 st1 st3.
Proof using Type. intros [_ _ H12 _] [? ? H23 ?]. split; try done. by etrans. Qed.

Lemma known_lit P (st : State) n l : cnf_inv T P st → lits st !! n = Some l → known (sink st) l.
Proof using Type. intros Hi Hl. by apply (inv_lits _ _ _ Hi n). Qed.

(** Clauses on the literals of formulas, which say [F]. *)
Lemma assert_step P st cls (F : (Node → bool) → Prop) r :
  cnf_inv T P st → d_removable st = false → room (sink st) r → Forall (λ p, Forall (known (sink st)) p.2) cls →
  (∀ v A, agree v A st → (forallb (clause_val v) cls.*2 = true ↔ F A)) →
  ∃ st', assertAll cls st = Some ((), st') ∧ step (λ A, P A ∧ F A) r st st'.
Proof using skolem notify.
  intros Hi Hrem Hroom HK HF. destruct (assertAll_adds skolem notify T cls st _ st (adds_start st) Hrem HK) as (st'&E&Ha). exists st'. split; [done|].
  pose proof (adds_same _ _ _ Ha) as Es. split.
  - eapply assert_inv; [done|exact Ha|]. intros v A Hag. rewrite <- (HF v A Hag). tauto.
  - by rewrite Es.
  - by rewrite Es.
  - by apply (adds_room _ _ _ Ha).
Qed.

Lemma signed_lit (negated : bool) P (st : State) n l : cnf_inv T P st → lits st !! n = Some l →
  known (sink st) (if negated then negLit l else l) ∧
  ∀ v A, agree v A st → lit_val v (if negated then negLit l else l) = xorb negated (fval A n).
Proof using Type.
  intros Hi Hl. pose proof (known_lit _ _ _ _ Hi Hl) as Hk. split; [destruct negated; [by apply known_neg|done]|].
  intros v A Hag. rewrite <- (Hag _ _ Hl). destruct negated; [by rewrite negLit_val by apply Hk|by destruct (lit_val v l)].
Qed.

Abbreviation convertAndAssert' := (convertAndAssert' pol skolem notify).

(** Asserting [n], or its negation, makes it so. *)
Definition asserts (n : Node) (negated : bool) (m : StateM State unit) : Prop := ∀ P st r,
  cnf_inv T P st → d_removable st = false → room (sink st) (nsize n + r) →
  ∃ st', m st = Some ((), st') ∧ step (λ A, P A ∧ fval A n = negb negated) r st st'.

Lemma assertAtom_ok n negated : formula n = true → asserts n negated (assertAtom pol skolem notify n negated).
Proof using Hreg.
  intros Hf P st r Hi Hrem Hroom. destruct (toCNF_ok P st n negated r Hf Hi Hrem Hroom) as (l&st1&E&Hst1&Hl).
  destruct (signed_lit negated P st1 n l (step_inv _ _ _ _ _ Hst1) Hl) as [Hk Hv].
  unfold assertAtom. rewrite (bind_eq _ _ _ _ _ E).
  destruct (assert_step P st1 [(if negated then negate n else n, [if negated then negLit l else l])] (λ A, fval A n = negb negated) r)
    as (st2&E2&Hst2); [apply Hst1..| | |].
  - repeat constructor; apply Hk.
  - intros v A Hag. cbn. rewrite (Hv v A Hag). destruct negated, (fval A n); cbn; intuition congruence.
  - exists st2. split; [exact E2|]. by eapply steps.
Qed.

(** The literals of several formulas. *)
Lemma clauseLoop_ok negated cs : ∀ P st r clause,
  Forall (λ c, formula c = true) cs → cnf_inv T P st → d_removable st = false → room (sink st) (sizes cs + r) →
  ∃ ls st', clauseLoop pol skolem notify cs negated clause st = Some (clause ++ ls, st') ∧ step P r st st' ∧
    Forall (known (sink st')) ls ∧ (∀ v A, agree v A st' → map (lit_val v) ls = map (λ c, xorb negated (fval A c)) cs).
Proof using Hreg.
  intros P st r clause HF. revert st r clause. induction HF as [|c cs Hc _ IH]; intros st r clause Hi Hrem Hroom; cbn [clauseLoop].
  - exists [], st. rewrite app_nil_r. split_and!; [done|by apply step_refl|constructor|done].
  - destruct (toCNF_ok P st c negated (sizes cs + r) Hc Hi Hrem) as (l&st1&E1&Hst1&Hl1).
    { eapply room_le; [exact Hroom|]. unfold sizes; simpl. lia. }
    rewrite (bind_eq _ _ _ _ _ E1).
    destruct (IH st1 r (clause ++ [if negated then negLit l else l])) as (ls&st2&E2&Hst2&HK&Hv); [apply Hst1..|].
    pose proof (lookup_weaken _ _ _ _ Hl1 (step_lits _ _ _ _ _ Hst2)) as Hl2.
    destruct (signed_lit negated P st2 c l (step_inv _ _ _ _ _ Hst2) Hl2) as [Hk Hlv].
    eexists (_ :: ls), st2. split_and!.
    + rewrite E2. rewrite <- app_assoc. done.
    + by eapply step_trans.
    + by constructor.
    + intros v A Hag. cbn [map]. by rewrite (Hlv v A Hag), (Hv v A Hag).
Qed.

Lemma existsb_lits v ls bs : map (lit_val v) ls = bs → clause_val v ls = existsb id bs.
Proof using Type. intros <-. unfold clause_val. induction ls as [|l ls IH]; [done|]. cbn. by rewrite IH. Qed.

Lemma assertDisjunction_ok n negated :
  formula n = true → pushed n = children n →
  (∀ A, existsb id (map (λ c, xorb negated (fval A c)) (children n)) = true ↔ fval A n = negb negated) →
  asserts n negated (assertDisjunction pol skolem notify n negated).
Proof using Hreg.
  intros Hf Hp HF P st r Hi Hrem Hroom. pose proof (formula_pushed n Hf) as Hcs. pose proof (nsize_pushed n) as Hsz. rewrite Hp in *.
  destruct (clauseLoop_ok negated (children n) P st r [] Hcs Hi Hrem) as (ls&st1&E1&Hst1&HK&Hv); [eapply room_le; [exact Hroom|lia]|].
  unfold assertDisjunction. rewrite (bind_eq _ _ _ _ _ E1).
  destruct (assert_step P st1 [(if negated then negate n else n, [] ++ ls)] (λ A, fval A n = negb negated) r) as (st2&E2&Hst2); [apply Hst1..| | |].
  - by repeat constructor.
  - intros v A Hag. cbn [fmap list_fmap forallb snd app]. rewrite andb_true_r. rewrite (existsb_lits _ _ _ (Hv v A Hag)). apply HF.
  - exists st2. split; [exact E2|]. by eapply steps.
Qed.
(** Two formulas and clauses on their literals. *)
Lemma two_lits P st a b na nb r :
  formula a = true → formula b = true → cnf_inv T P st → d_removable st = false → room (sink st) (nsize a + (nsize b + r)) →
  ∃ p q st1 st2, toCNF a na st = Some (p, st1) ∧ toCNF b nb st1 = Some (q, st2) ∧ step P r st st2 ∧
    known (sink st2) p ∧ known (sink st2) q ∧
    ∀ v A, agree v A st2 → lit_val v p = xorb na (fval A a) ∧ lit_val v q = xorb nb (fval A b).
Proof using Hreg.
  intros Ha Hb Hi Hrem Hroom. destruct (toCNF_ok P st a na (nsize b + r) Ha Hi Hrem Hroom) as (la&st1&E1&Hst1&Hla).
  destruct (toCNF_ok P st1 b nb r Hb) as (lb&st2&E2&Hst2&Hlb); [apply Hst1..|].
  pose proof (lookup_weaken _ _ _ _ Hla (step_lits _ _ _ _ _ Hst2)) as Hla2.
  destruct (signed_lit na P st2 a la (step_inv _ _ _ _ _ Hst2) Hla2) as [Ka Va].
  destruct (signed_lit nb P st2 b lb (step_inv _ _ _ _ _ Hst2) Hlb) as [Kb Vb].
  eexists _, _, st1, st2. split_and!; [exact E1|exact E2|by eapply step_trans|done|done|]. intros v A Hag. split; auto.
Qed.

Lemma formula_two k a b : connective k [a; b] = true → formula (mkNode k [a; b]) = true → formula a = true ∧ formula b = true.
Proof using Type.
  intros Hk Hf. apply formula_pushed in Hf. cbn [pushed] in Hf. rewrite Hk in Hf. inversion Hf as [|? ? ? Hf']; subst.
  by inversion Hf'; subst.
Qed.

(** Clauses on the literals of two formulas. *)
Lemma two_clauses P st k a b negated cls r :
  connective k [a; b] = true → formula (mkNode k [a; b]) = true → cnf_inv T P st → d_removable st = false →
  room (sink st) (nsize (mkNode k [a; b]) + r) →
  (∀ p q, Forall (λ c, Forall (λ l, l = p ∨ l = q ∨ l = negLit p ∨ l = negLit q) c.2) (cls p q)) →
  (∀ v A p q, lit_ok p → lit_ok q → lit_val v p = fval A a → lit_val v q = fval A b →
     (forallb (clause_val v) (cls p q).*2 = true ↔ fval A (mkNode k [a; b]) = negb negated)) →
  ∃ p q st1 st2 st3, toCNF a false st = Some (p, st1) ∧ toCNF b false st1 = Some (q, st2) ∧
    assertAll (cls p q) st2 = Some ((), st3) ∧ step (λ A, P A ∧ fval A (mkNode k [a; b]) = negb negated) r st st3.
Proof using Hreg.
  intros Hk Hf Hi Hrem Hroom Hcls HV. destruct (formula_two k a b Hk Hf) as [Ha Hb].
  destruct (two_lits P st a b false false r) as (p&q&st1&st2&E1&E2&Hst2&Kp&Kq&Hv); [done..| |].
  { eapply room_le; [exact Hroom|]. rewrite nsize_node. simpl. lia. }
  destruct (assert_step P st2 (cls p q) (λ A, fval A (mkNode k [a; b]) = negb negated) r) as (st3&E3&Hst3); [apply Hst2..| | |].
  - eapply list.Forall_impl; [exact (Hcls p q)|]. intros c Hc. eapply list.Forall_impl; [exact Hc|].
    intros l [->|[->|[->| ->]]]; auto using known_neg.
  - intros v A Hag. destruct (Hv v A Hag) as [Hp Hq]. apply HV; [apply Kp|apply Kq| |]; by destruct (fval A a), (fval A b).
  - exists p, q, st1, st2, st3. split_and!; [done..|]. by eapply steps.
Qed.

Ltac lits_goal := repeat first [apply Forall_nil_2 | apply Forall_cons_2]; cbn; repeat first [apply Forall_nil_2 | apply Forall_cons_2]; auto 10.

Ltac two_goal := cbn; rewrite !negLit_val by done;
  repeat match goal with H : lit_val _ _ = _ |- _ => rewrite H end;
  repeat match goal with |- context [fval ?A ?n] => destruct (fval A n) end; cbn; intuition congruence.

Lemma xor_assert cs negated : formula (mkNode XOR cs) = true →
  asserts (mkNode XOR cs) negated (convertAndAssertXor pol skolem notify (mkNode XOR cs) negated).
Proof using Hreg.
  intros Hf P st r Hi Hrem Hroom. pose proof (formula_arity XOR cs eq_refl Hf) as Har. apply bool_decide_eq_true in Har.
  destruct cs as [|a [|b []]]; try done. set (n := mkNode XOR [a; b]) in *.
  destruct (two_clauses P st XOR a b negated (λ p q, if negated then [(negate n, [negLit p; q]); (negate n, [p; negLit q])]
    else [(n, [negLit p; negLit q]); (n, [p; q])]) r) as (p&q&st1&st2&st3&E1&E2&E3&Hst3); [done..| | |].
  - intros p q. destruct negated; lits_goal.
  - intros v A p q Hp Hq Vp Vq. destruct negated; two_goal.
  - exists st3. split; [|done]. unfold convertAndAssertXor. do 2 (erewrite lift_bind by reflexivity).
    rewrite (bind_eq _ _ _ _ _ E1), (bind_eq _ _ _ _ _ E2). by destruct negated.
Qed.

Lemma iff_assert cs negated : firstIsBoolean cs = true → formula (mkNode EQUAL cs) = true →
  asserts (mkNode EQUAL cs) negated (convertAndAssertIff pol skolem notify (mkNode EQUAL cs) negated).
Proof using Hreg.
  intros Hb0 Hf P st r Hi Hrem Hroom. pose proof (formula_arity EQUAL cs Hb0 Hf) as Har. apply bool_decide_eq_true in Har.
  destruct cs as [|a [|b []]]; try done. set (n := mkNode EQUAL [a; b]) in *.
  destruct (two_clauses P st EQUAL a b negated (λ p q, if negated then [(negate n, [negLit p; negLit q]); (negate n, [p; q])]
    else [(n, [negLit p; q]); (n, [p; negLit q])]) r) as (p&q&st1&st2&st3&E1&E2&E3&Hst3); [done..| | |].
  - intros p q. destruct negated; lits_goal.
  - intros v A p q Hp Hq Vp Vq. cbn [fval map]. rewrite Hb0. destruct negated; two_goal.
  - exists st3. split; [|done]. unfold convertAndAssertIff. do 2 (erewrite lift_bind by reflexivity).
    rewrite (bind_eq _ _ _ _ _ E1), (bind_eq _ _ _ _ _ E2). by destruct negated.
Qed.

Lemma implies_assert cs : formula (mkNode IMPLIES cs) = true →
  asserts (mkNode IMPLIES cs) false (convertAndAssert' (mkNode IMPLIES cs) false).
Proof using Hreg.
  intros Hf P st r Hi Hrem Hroom. pose proof (formula_arity IMPLIES cs eq_refl Hf) as Har. apply bool_decide_eq_true in Har.
  destruct cs as [|a [|b []]]; try done. set (n := mkNode IMPLIES [a; b]) in *.
  destruct (two_clauses P st IMPLIES a b false (λ p q, [(n, [negLit p; q])]) r) as (p&q&st1&st2&st3&E1&E2&E3&Hst3); [done..| | |].
  - intros p q. lits_goal.
  - intros v A p q Hp Hq Vp Vq. two_goal.
  - exists st3. split; [|done]. unfold n. cbn [CnfStream.convertAndAssert' convertAndAssertImplies]. unfold convertAndAssertImplies. do 2 (erewrite lift_bind by reflexivity).
    by rewrite (bind_eq _ _ _ _ _ E1), (bind_eq _ _ _ _ _ E2).
Qed.
Lemma ite_assert cs negated : formula (mkNode ITE cs) = true →
  asserts (mkNode ITE cs) negated (convertAndAssertIte pol skolem notify (mkNode ITE cs) negated).
Proof using Hreg.
  intros Hf P st r Hi Hrem Hroom. pose proof (formula_arity ITE cs eq_refl Hf) as Har. apply bool_decide_eq_true in Har.
  destruct cs as [|a [|b [|c []]]]; try done. set (n := mkNode ITE [a; b; c]) in *.
  pose proof (formula_pushed n Hf) as HF. inversion HF as [|? ? Ha HF1]; subst. inversion HF1 as [|? ? Hb HF2]; subst. inversion HF2 as [|? ? Hc _]; subst.
  destruct (toCNF_ok P st a false (nsize b + (nsize c + r)) Ha Hi Hrem) as (p&st0&E0&Hst0&Hp0).
  { eapply room_le; [exact Hroom|]. unfold n. rewrite nsize_node. simpl. lia. }
  destruct (two_lits P st0 b c negated negated r) as (q&t&st1&st2&E1&E2&Hst2&Kq&Kt&Hv); [done|done|apply Hst0..|].
  pose proof (lookup_weaken _ _ _ _ Hp0 (step_lits _ _ _ _ _ Hst2)) as Hp2.
  destruct (signed_lit false P st2 a p (step_inv _ _ _ _ _ Hst2) Hp2) as [Kp Vp].
  set (nnode := if negated then negate n else n).
  destruct (assert_step P st2 [(nnode, [negLit p; q]); (nnode, [p; t])] (λ A, fval A n = negb negated) r) as (st3&E3&Hst3); [apply Hst2..| | |].
  - repeat first [apply Forall_nil_2 | apply Forall_cons_2]; cbn; repeat first [apply Forall_nil_2 | apply Forall_cons_2]; auto using known_neg.
  - intros v A Hag. destruct (Hv v A Hag) as [Hq Ht]. pose proof (Vp v A Hag) as Hp. cbn. rewrite negLit_val by apply Kp.
    cbn in Hp. rewrite Hp, Hq, Ht. destruct negated, (fval A a), (fval A b), (fval A c); cbn; intuition congruence.
  - exists st3. split; [|by eapply steps; [|exact Hst3]; eapply step_trans]. unfold convertAndAssertIte. do 3 (erewrite lift_bind by reflexivity).
    by rewrite (bind_eq _ _ _ _ _ E0), (bind_eq _ _ _ _ _ E1), (bind_eq _ _ _ _ _ E2).
Qed.

(** Every child is asserted, or its negation. *)
Abbreviation conjuncts negated cs := (conjunctLoop convertAndAssert' cs negated).

Lemma conjuncts_cons negated c cs : conjuncts negated (c :: cs) = (_ ← convertAndAssert' c negated; conjuncts negated cs).
Proof using Type. done. Qed.

Lemma conjuncts_ok negated cs : Forall (λ c, asserts c negated (convertAndAssert' c negated)) cs → ∀ P st r,
  cnf_inv T P st → d_removable st = false → room (sink st) (sizes cs + r) →
  ∃ st', conjuncts negated cs st = Some ((), st') ∧ step (λ A, P A ∧ Forall (λ c, fval A c = negb negated) cs) r st st'.
Proof using Type.
  induction 1 as [|c cs Hc _ IH]; intros P st r Hi Hrem Hroom.
  - exists st. split; [done|]. apply step_refl; [|done|done]. eapply inv_ext; [exact Hi|]. intros A. split; [|tauto]. intros. split; [done|constructor].
  - destruct (Hc P st (sizes cs + r)%nat Hi Hrem) as (st1&E1&Hst1); [eapply room_le; [exact Hroom|]; unfold sizes; simpl; lia|].
    rewrite conjuncts_cons, (bind_eq _ _ _ _ _ E1). destruct (IH _ st1 r (step_inv _ _ _ _ _ Hst1)) as (st2&E2&Hst2); [apply Hst1..|].
    exists st2. split; [exact E2|]. eapply step_ext; [by eapply steps|]. intros A. rewrite list.Forall_cons. tauto.
Qed.

Lemma forallb_id_true A cs : forallb id (map (fval A) cs) = true ↔ Forall (λ c, fval A c = true) cs.
Proof using Type.
  induction cs as [|c cs IH]; cbn [map forallb]; [split; [constructor|done]|]. rewrite andb_true_iff, list.Forall_cons, IH. done.
Qed.

Lemma existsb_id_false A cs : existsb id (map (fval A) cs) = false ↔ Forall (λ c, fval A c = false) cs.
Proof using Type.
  induction cs as [|c cs IH]; cbn [map existsb]; [split; [constructor|done]|]. rewrite orb_false_iff, list.Forall_cons, IH. done.
Qed.

Lemma not_all A cs : existsb id (map (λ c, xorb true (fval A c)) cs) = true ↔ forallb id (map (fval A) cs) = false.
Proof using Type.
  induction cs as [|c cs IH]; cbn [map existsb forallb]; [done|]. rewrite orb_true_iff, andb_false_iff, IH. unfold id.
  destruct (fval A c); cbn; split; intros [?|?]; auto; discriminate.
Qed.

Lemma some_one A cs : existsb id (map (λ c, xorb false (fval A c)) cs) = existsb id (map (fval A) cs).
Proof using Type. induction cs as [|c cs IH]; [done|]. cbn [map existsb]. rewrite IH. by destruct (fval A c). Qed.

(** [convertAndAssert] on any formula. *)
Lemma convertAndAssert_step n : ∀ negated, formula n = true → asserts n negated (convertAndAssert' n negated).
Proof using Hreg.
  induction n as [id ty|b|z|bv|k cs IH] using Node_ind'; intros negated Hf; try (by apply assertAtom_ok).
  pose proof (formula_pushed _ Hf) as HF. cbn [pushed] in HF.
  assert (connective k cs = true → ∀ neg, Forall (λ c, asserts c neg (convertAndAssert' c neg)) cs) as Hcs.
  { intros Hk neg. rewrite Hk in HF. clear - IH HF. induction IH as [|c cs Hc _ IHl]; [constructor|].
    inversion HF; subst. constructor; auto. }
  destruct k; try (by apply assertAtom_ok).
  - cbn [CnfStream.convertAndAssert']. destruct (firstIsBoolean cs) eqn:Hb; [by apply iff_assert|by apply assertAtom_ok].
  - destruct (formula_not cs Hf) as (c&->&_). intros P st r Hi Hrem Hroom. specialize (Hcs eq_refl (negb negated)).
    inversion Hcs as [|? ? Hc _]; subst. destruct (Hc P st r Hi Hrem) as (st'&E&Hst).
    { eapply room_le; [exact Hroom|]. rewrite nsize_node. simpl. lia. }
    exists st'. split; [exact E|]. eapply step_ext; [exact Hst|]. intros A. cbn. destruct negated, (fval A c); cbn; intuition congruence.
  - cbn [CnfStream.convertAndAssert']. unfold convertAndAssertAnd. destruct negated.
    + apply assertDisjunction_ok; [done|done|]. intros A. cbn [fval]. apply not_all.
    + intros P st r Hi Hrem Hroom. destruct (conjuncts_ok false cs (Hcs eq_refl false) P st r Hi Hrem) as (st'&E&Hst).
      { eapply room_le; [exact Hroom|]. rewrite nsize_node. unfold sizes. lia. }
      exists st'. split; [exact E|]. eapply step_ext; [exact Hst|]. intros A. cbn [fval negb]. by rewrite forallb_id_true.
  - cbn [CnfStream.convertAndAssert']. unfold convertAndAssertOr. destruct negated.
    + intros P st r Hi Hrem Hroom. destruct (conjuncts_ok true cs (Hcs eq_refl true) P st r Hi Hrem) as (st'&E&Hst).
      { eapply room_le; [exact Hroom|]. rewrite nsize_node. unfold sizes. lia. }
      exists st'. split; [exact E|]. eapply step_ext; [exact Hst|]. intros A. cbn [fval negb]. by rewrite existsb_id_false.
    + apply assertDisjunction_ok; [done|done|]. intros A. cbn [fval]. by rewrite some_one.
  - by apply xor_assert.
  - destruct negated; [|by apply implies_assert]. pose proof (formula_arity IMPLIES cs eq_refl Hf) as Har. apply bool_decide_eq_true in Har.
    destruct cs as [|a [|b []]]; try done. intros P st r Hi Hrem Hroom.
    pose proof (Hcs eq_refl false) as Hf'. inversion Hf' as [|? ? Ha _]; subst. pose proof (Hcs eq_refl true) as Ht'.
    inversion Ht' as [|? ? _ Hb']; subst. inversion Hb' as [|? ? Hb _]; subst.
    destruct (Ha P st (nsize b + r)%nat Hi Hrem) as (st1&E1&Hst1); [eapply room_le; [exact Hroom|]; rewrite nsize_node; simpl; lia|].
    destruct (Hb _ st1 r (step_inv _ _ _ _ _ Hst1)) as (st2&E2&Hst2); [apply Hst1..|].
    exists st2. split; [cbn [CnfStream.convertAndAssert']; unfold convertAndAssertImplies; by rewrite (bind_eq _ _ _ _ _ E1)|].
    eapply step_ext; [by eapply steps|]. intros A. cbn. destruct (fval A a), (fval A b); cbn; intuition congruence.
  - by apply ite_assert.
Qed.
End sound.
