(* ===== verification/CnfTheorems.v ===== *)
(** What the CNF conversion guarantees its users, from the invariant: the
    literal of a formula, equisatisfiability of a sequence of assertions, and
    the meaning of an unsatisfiable set of clauses for valuations of terms. *)
From stdpp Require Import base option list gmap numbers.
From S2P Require Import Prelude Node TypeRules Semantics TypeSound BvTerms BitblastCircuits CnfStream CnfSpec CnfSound.
Open Scope Z_scope.

(** ** A solver that only records *)
Module ListSink.

Definition known_var (n : nat) (l : SatLiteral) : Prop := 0 ≤ getSatVariable l < 2 + Z.of_nat n.

(** Variables 0 and 1 are the constants; the clauses are on the variables made
    so far. *)
Record ListSink := mk {
  count : nat;
  clauses : list SatClause;
  clauses_ok : Forall (Forall (known_var count)) clauses;
}.

Lemma known_mono n (c : list SatClause) : Forall (Forall (known_var n)) c → Forall (Forall (known_var (S n))) c.
Proof.
  intros H. eapply list.Forall_impl; [exact H|]. intros x Hx. eapply list.Forall_impl; [exact Hx|]. unfold known_var. lia.
Qed.

#[global] Instance sink : SatClauseSink ListSink := {
  newVar _ s := (2 + Z.of_nat (count s), mk (S (count s)) (clauses s) (known_mono _ _ (clauses_ok s)));
  addClause c _ s := match decide (Forall (known_var (count s)) c) with
                     | left H => (true, mk (count s) (c :: clauses s) (Forall_cons _ _ _ H (clauses_ok s)))
                     | right _ => (false, s)
                     end;
  trueVar _ := 0;
  falseVar _ := 1;
}.

Definition holds (s : ListSink) (v : assignment) : Prop :=
  v 0 = true ∧ v 1 = false ∧ Forall (λ c, clause_val v c = true) (clauses s).

Definition vars (s : ListSink) : gset Z := list_to_set (seqZ 0 (2 + Z.of_nat (count s))).

Lemma elem_vars s x : x ∈ vars s ↔ 0 ≤ x < 2 + Z.of_nat (count s).
Proof. unfold vars. rewrite elem_of_list_to_set, elem_of_seqZ. lia. Qed.

#[global] Program Instance sink_laws : SatClauseSinkLaws ListSink := {
  models := holds;
  sat_vars := vars;
  room s n := 2 + Z.of_nat (count s) + Z.of_nat n ≤ max_var;
}.
Next Obligation.
  intros s v v' (H0&H1&HF) Hl. assert (∀ x, 0 ≤ x < 2 + Z.of_nat (count s) → v x = v' x) as Hv by (intros; by apply Hl, elem_vars).
  split; [by rewrite <- Hv by lia|]. split; [by rewrite <- Hv by lia|]. pose proof (clauses_ok s) as Hok.
  induction HF as [|c cs Hc _ IH]; [constructor|]. inversion Hok as [|? ? Hkc Hok']; subst. constructor; [|by apply IH].
  apply clause_val_true in Hc as (l&Hl1&Hl2). apply clause_val_true. exists l. split; [done|]. rewrite <- Hl2. symmetry. apply lit_val_local, Hv.
  rewrite list.Forall_forall in Hkc. by apply Hkc.
Qed.
Next Obligation. intros s n H. simpl in *. lia. Qed.
Next Obligation.
  cbv beta. intros b s n H. cbn [newVar sink count]. rewrite Nat2Z.inj_succ in *. split_and!; [lia|lia|rewrite elem_vars; lia| |lia|done].
  apply set_eq. intros x. rewrite elem_of_union, elem_of_singleton, !elem_vars. cbn [count]. lia.
Qed.
Next Obligation.
  intros c rem s Hc. cbn [addClause sink]. destruct (decide _) as [H|H].
  - cbn [count]. split_and!; [done|done| | |].
    + intros v (?&?&HF). inversion HF; subst. by split_and!.
    + intros v (?&?&HF) Hcl. split_and!; [done|done|by constructor].
    + intros _ v (?&?&HF). by inversion HF.
  - destruct H. apply list.Forall_forall. intros l Hl. apply (elem_vars s), Hc, Hl.
Qed.
Next Obligation. intros s. cbn. split; [unfold max_var; lia|]. split; [apply elem_vars; lia|by intros v (?&_)]. Qed.
Next Obligation. intros s. cbn. split; [unfold max_var; lia|]. split; [apply elem_vars; lia|by intros v (_&?&_)]. Qed.

Definition new : ListSink := mk 0 [] (Forall_nil _).

Lemma new_sat : ∃ v, models new v.
Proof. exists (λ x, bool_decide (x = 0)). by repeat constructor. Qed.
End ListSink.

(** ** Sequences of assertions *)
Section theorems.
Context {S : Type} `{!SatClauseSink S, !SatClauseSinkLaws S}.
Context (pol : FormulaLitPolicy) (skolem : Node → bool) (notify : Node → StateM (CnfState S) unit).

Definition newStream (s : S) : CnfState S := mkCnf s [] ∅ ∅ ∅ false.

Lemma newStream_inv T s : (∃ v, models s v) → cnf_inv T (λ _, True) (newStream s).
Proof.
  intros [v Hv]. split; cbn.
  - intros n l E. by rewrite lookup_empty in E.
  - intros n. rewrite !lookup_empty. by destruct (isNot n).
  - intros n l E. by rewrite lookup_empty in E.
  - intros v' A _ _. split; [done|]. intros n l E. cbn in E. by rewrite lookup_empty in E.
  - intros A _ _. exists v. split; [done|]. intros n l E. cbn in E. by rewrite lookup_empty in E.
Qed.

(** Each formula asserted, or its negation, permanently. *)
Fixpoint assertFormulas (fs : list (Node * bool)) : StateM (CnfState S) unit :=
  match fs with
  | [] => mret ()
  | (n, negated) :: fs => _ ← convertAndAssert pol skolem notify n false negated; assertFormulas fs
  end.

Definition all_hold (A : Node → bool) (fs : list (Node * bool)) : Prop := Forall (λ f, fval A f.1 = negb f.2) fs.

Definition total_size (fs : list (Node * bool)) : nat := sum_list_with (λ f, nsize f.1) fs.

Lemma assertFormulas_step T fs : registrar_ok notify T → Forall (λ f, formula f.1 = true) fs → ∀ P st,
  cnf_inv T P st → room (d_satSolver st) (total_size fs) →
  ∃ st', assertFormulas fs st = Some ((), st') ∧ cnf_inv T (λ A, P A ∧ all_hold A fs) st'.
Proof.
  intros Hreg. induction 1 as [|[n negated] fs Hf _ IH]; intros P st Hi Hroom; cbn [assertFormulas].
  - exists st. split; [done|]. eapply inv_ext; [exact Hi|]. intros A. split; [|tauto]. intros. split; [done|constructor].
  - destruct (convertAndAssert_step pol skolem notify T Hreg n negated Hf P (withRemovable false st) (total_size fs)) as (st1&E1&Hst1).
    { by eapply inv_same. }
    { done. }
    { exact Hroom. }
    destruct (IH _ st1 (step_inv _ _ _ _ _ Hst1) (step_room _ _ _ _ _ Hst1)) as (st2&E2&Hi2). exists st2. split.
    + unfold convertAndAssert. erewrite bind_eq; [exact E2|]. erewrite bind_eq; [exact E1|done].
    + eapply inv_ext; [exact Hi2|]. intros A. unfold all_hold. rewrite list.Forall_cons. cbn [fst snd]. tauto.
Qed.

(** C22: [toCNF] terminates on every formula without double negations within its
    bound on iterations, in a state that satisfies the invariant of the stream, with
    enough variables left in the solver and a registrar that keeps the invariant; the
    literal it returns has, in every assignment that satisfies the clauses, the
    value the formula has when its atoms have the values of their literals. *)
Theorem toCNF_correct T P st n negated :
  registrar_ok notify T → formula n = true → cnf_inv T P st → d_removable st = false → room (d_satSolver st) (nsize n) →
  ∃ l st', toCNF pol skolem notify n negated st = Some (l, st') ∧ cnf_inv T P st' ∧
    d_nodeToLiteralMap st ⊆ d_nodeToLiteralMap st' ∧
    ∀ v A, models (d_satSolver st') v →
      (∀ a la, is_atom a = true → d_nodeToLiteralMap st' !! a = Some la → A a = lit_val v la) →
      lit_val v l = xorb negated (fval A n).
Proof.
  intros Hreg Hf Hi Hrem Hroom.
  destruct (toCNF_ok pol skolem notify T Hreg P st n negated 0 Hf Hi Hrem) as (l&st'&E&Hst&Hl); [by rewrite Nat.add_0_r|].
  eexists _, st'. split; [exact E|]. split; [apply Hst|]. split; [apply Hst|]. intros v A Hm Ha.
  destruct (inv_sound _ _ _ (step_inv _ _ _ _ _ Hst) v A Hm Ha) as [_ Hag].
  by apply (signed_lit T negated P st' n l (step_inv _ _ _ _ _ Hst) Hl).
Qed.

(** C1: asserting formulas without double negations, with any policy and any
    registrar that keeps the invariant, into a satisfiable solver with enough
    variables left, returns; a model of the clauses gives values of the atoms for which every assertion holds;
    and values of the atoms that the theories allow and for which every
    assertion holds extend to a model of the clauses. *)
Theorem cnf_equisatisfiable T fs s :
  registrar_ok notify T → Forall (λ f, formula f.1 = true) fs → (∃ v, models s v) → room s (total_size fs) →
  ∃ st, assertFormulas fs (newStream s) = Some ((), st) ∧
    ((∃ v, models (d_satSolver st) v) → ∃ A, all_hold A fs) ∧
    ((∃ A, T A ∧ all_hold A fs) → ∃ v, models (d_satSolver st) v).
Proof.
  intros Hreg Hfs Hs Hroom. destruct (assertFormulas_step T fs Hreg Hfs _ _ (newStream_inv T s Hs) Hroom) as (st&E&Hi).
  exists st. split; [done|]. split.
  - intros [v Hv]. set (A := λ a, match d_nodeToLiteralMap st !! a with Some l => lit_val v l | None => false end).
    exists A. apply (inv_sound _ _ _ Hi v A Hv). intros a l _ Hl. unfold A. by rewrite Hl.
  - intros (A&HT&HA). destruct (inv_complete _ _ _ Hi A HT) as (v&Hv&_); [done|by exists v].
Qed.
End theorems.

(** The registrar that does nothing. *)
Definition nullRegistrar {S} (n : Node) : StateM (CnfState S) unit := mret ().

Lemma nullRegistrar_ok {S} `{!SatClauseSink S, !SatClauseSinkLaws S} T : registrar_ok (S := S) nullRegistrar T.
Proof. intros n P st r Hi Hr. by exists st. Qed.

(** ** Valuations of terms *)

Lemma formula_concrete n : concrete n = true → Forall (λ c, concrete c = true) (pushed n).
Proof.
  destruct n as [| | | |k cs]; try constructor. intros [Hc _]%concrete_node. cbn [pushed]. destruct (connective k cs); [|constructor].
  clear - Hc. induction cs as [|c cs IH]; [constructor|]. cbn [forallb] in Hc. apply andb_true_iff in Hc as [? ?]. constructor; auto.
Qed.

(** The truth of a formula from its atoms is its value. *)
Lemma fval_eval env n : env_ok env → formula n = true → concrete n = true →
  eval env n = Some (VBool (fval (λ a, bool_of a env) n)).
Proof.
  intros Hok. induction n as [id ty|b|z|bv|k cs IH] using Node_ind'; intros Hf Hc.
  1,2,3,4: pose proof (typed_boolterm _ (formula_type _ Hf) Hc) as [_ He]; by rewrite (He env Hok).
  assert (connective k cs = true → mapM (eval env) cs = Some (VBool <$> map (fval (λ a, bool_of a env)) cs)) as Hcs.
  { intros Hk. pose proof (formula_pushed _ Hf) as HF. pose proof (formula_concrete _ Hc) as HC. cbn [pushed] in HF, HC. rewrite Hk in HF, HC.
    clear - IH HF HC. induction IH as [|c cs Hc _ IHl]; [done|]. inversion HF; subst. inversion HC; subst. cbn [mapM map].
    rewrite Hc by done. cbn [mbind option_bind]. rewrite IHl by done. done. }
  destruct (connective k cs) eqn:Hk.
  2:{ pose proof (typed_boolterm _ (formula_type _ Hf) Hc) as [_ He]. rewrite (He env Hok). do 2 f_equal. symmetry.
      apply (fval_atom (λ a, bool_of a env)); [cbn; by rewrite Hk|done]. }
  pose proof (formula_arity k cs Hk Hf) as Har. specialize (Hcs eq_refl). cbn [eval]. rewrite Hcs. cbn [mbind option_bind].
  destruct k; try done; cbn [arity_ok connective] in Har, Hk; apply bool_decide_eq_true in Har; cbn [kind_eval fval].
  - destruct cs as [|a [|b []]]; try done. cbn [map fmap list_fmap sort_of]. rewrite decide_True by done. rewrite Hk. do 2 f_equal.
    by destruct (fval _ a), (fval _ b).
  - by destruct cs as [|a []].
  - by rewrite as_bools_vbool.
  - by rewrite as_bools_vbool.
  - by destruct cs as [|a [|b []]].
  - by destruct cs as [|a [|b []]].
  - destruct cs as [|a [|b [|c []]]]; try done. cbn [map fmap list_fmap sort_of]. rewrite decide_True by done. by destruct (fval _ a).
Qed.

(** C23: A valuation of the terms in which every assertion holds gives a model of
    the clauses: when the solver finds the clauses unsatisfiable, no valuation
    satisfies the assertions. *)
Theorem cnf_unsat_sound {S} `{!SatClauseSink S, !SatClauseSinkLaws S} pol skolem (notify : Node → StateM (CnfState S) unit) fs s env :
  registrar_ok notify (λ A, ∃ env, env_ok env ∧ ∀ a, A a = bool_of a env) →
  Forall (λ f, formula f.1 = true ∧ concrete f.1 = true) fs → (∃ v, models s v) → room s (total_size fs) →
  env_ok env → Forall (λ f, eval env f.1 = Some (VBool (negb f.2))) fs →
  ∃ st, assertFormulas pol skolem notify fs (newStream s) = Some ((), st) ∧ ∃ v, models (d_satSolver st) v.
Proof.
  intros Hreg Hfs Hs Hroom Hok Hev. assert (Forall (λ f, formula f.1 = true) fs) as Hf by (eapply list.Forall_impl; [exact Hfs|]; by intros f [? _]).
  destruct (assertFormulas_step pol skolem notify _ fs Hreg Hf _ _ (newStream_inv _ s Hs) Hroom) as (st&E&Hi). exists st. split; [done|].
  destruct (inv_complete _ _ _ Hi (λ a, bool_of a env)) as (v&Hv&_); [by exists env| |by exists v]. split; [done|].
  clear - Hfs Hev Hok. induction Hev as [|f fs He _ IH]; [constructor|]. inversion Hfs as [|? ? [Hf Hc] Hfs']; subst.
  constructor; [|by apply IH]. rewrite (fval_eval env f.1 Hok Hf Hc) in He. by injection He.
Qed.

(** ** The words of literals *)

Lemma word_neg l : 0 ≤ l < 2 ^ 64 → negLit l = (if isNegated l then l - 1 else l + 1).
Proof.
  intros Hl. unfold negLit, mkLiteral, getSatVariable, isNegated, int64. rewrite land_1, Z.shiftr_div_pow2 by lia. change (2 ^ 1) with 2.
  set (i := if decide (l < 2 ^ 63) then l else l - 2 ^ 64).
  assert (∃ k, i = l + k * 2 ^ 64) as [k Ek] by (unfold i; destruct (decide _); [exists 0|exists (-1)]; lia).
  pose proof (Z.div_mod i 2 ltac:(lia)) as Di. pose proof (Z.div_mod (i / 2) (2 ^ 64) ltac:(lia)) as Dj.
  assert (i mod 2 = l mod 2) as Em by (rewrite Ek; replace (l + k * 2 ^ 64) with (l + (k * 2 ^ 63) * 2) by lia; apply Z.mod_add; lia).
  pose proof (Z.mod_pos_bound l 2 ltac:(lia)) as Hm. pose proof (Z.div_mod l 2 ltac:(lia)) as Dl.
  rewrite Em in Di. set (q := i / 2 / 2 ^ 64) in *. set (j := (i / 2) mod 2 ^ 64) in *. case_bool_decide as E; cbn [negb].
  - rewrite E in Di. symmetry. apply Z.mod_unique with (k - 2 * q); [left; lia|lia].
  - assert (l mod 2 = 1) as E1 by lia. rewrite E1 in Di. symmetry. apply Z.mod_unique with (k - 2 * q); [left; lia|lia].
Qed.

Lemma word_sign var b : isNegated (mkLiteral var b) = b.
Proof.
  unfold isNegated, mkLiteral. rewrite land_1. replace (2 ^ 64) with (2 * 2 ^ 63) by lia. rewrite Z.rem_mul_r by lia.
  rewrite (Z.mul_comm 2 ((_ / 2) mod _)), Z.mod_add, Z.mod_mod by lia.
  replace (var + var + (if b then 1 else 0)) with ((if b then 1 else 0) + var * 2) by lia. rewrite Z.mod_add by lia. by destruct b.
Qed.

(** A literal keeps its sign, and its variable exactly when the variable fits in
    63 bits as a signed integer; [operator~] flips the lowest bit of any word. *)
Theorem literal_roundtrip var b l : 0 ≤ var < 2 ^ 64 → 0 ≤ l < 2 ^ 64 →
  isNegated (mkLiteral var b) = b ∧
  (getSatVariable (mkLiteral var b) = var ↔ var < 2 ^ 62 ∨ 2 ^ 64 - 2 ^ 62 ≤ var) ∧
  negLit l = (if isNegated l then l - 1 else l + 1) ∧ negLit (negLit l) = l.
Proof.
  intros Hvar Hl. split; [apply word_sign|]. split; [|split; [by apply word_neg|]].
  - unfold getSatVariable, mkLiteral, int64. rewrite Z.shiftr_div_pow2 by lia. change (2 ^ 1) with 2.
    set (c := if b then 1 else 0). assert (0 ≤ c ≤ 1) as Hc by (unfold c; destruct b; lia).
    assert (∀ z, (2 * z + c) / 2 = z) as Hd by (intros z; symmetry; apply Z.div_unique_pos with c; lia).
    replace (var + var + c) with (2 * var + c) by lia. destruct (decide (var < 2 ^ 63)) as [H63|H63].
    + rewrite (Z.mod_small (2 * var + c)) by lia. destruct (decide _).
      * rewrite Hd, Z.mod_small by lia. lia.
      * replace (2 * var + c - 2 ^ 64) with (2 * (var - 2 ^ 63) + c) by lia. rewrite Hd.
        replace ((var - 2 ^ 63) mod 2 ^ 64) with (var + 2 ^ 63); [lia|]. apply Z.mod_unique with (-1); lia.
    + replace ((2 * var + c) mod 2 ^ 64) with (2 * (var - 2 ^ 63) + c) by (apply Z.mod_unique with 1; lia). destruct (decide _).
      * rewrite Hd, Z.mod_small by lia. lia.
      * replace (2 * (var - 2 ^ 63) + c - 2 ^ 64) with (2 * (var - 2 ^ 64) + c) by lia. rewrite Hd.
        replace ((var - 2 ^ 64) mod 2 ^ 64) with var; [lia|]. apply Z.mod_unique with (-1); lia.
  - pose proof (word_neg l Hl) as E. assert (0 ≤ negLit l < 2 ^ 64) as Hn by (unfold negLit, mkLiteral; apply Z.mod_pos_bound; lia).
    rewrite (word_neg (negLit l) Hn). unfold negLit at 1. rewrite word_sign. destruct (isNegated l); cbn [negb]; lia.
Qed.

(** ** Instances *)

(** [(x and y) xor z] and [not (x => z)], on the recording solver. *)
Definition demo_x : Node := mkVar 1 BOOLEAN_TYPE.
Definition demo_y : Node := mkVar 2 BOOLEAN_TYPE.
Definition demo_z : Node := mkVar 3 BOOLEAN_TYPE.
Definition demo : list (Node * bool) :=
  [(mkNode XOR [mkNode AND [demo_x; demo_y]; demo_z], false); (mkNode IMPLIES [demo_x; demo_z], true)].

Definition demo_env : Env := λ id ty,
  match ty with BOOLEAN_TYPE => VBool (negb (bool_decide (id = 3%positive))) | BITVECTOR_TYPE w => VBV w 0 | _ => VInt 0 end.

Lemma demo_env_ok : env_ok demo_env.
Proof. intros id ty Hok Ha. pose proof (env0_ok id ty Hok Ha) as H. by destruct ty. Qed.

Lemma toCNF_correct_witness :
  ∃ l st', toCNF INTERNAL (λ _, false) nullRegistrar (mkNode XOR [mkNode AND [demo_x; demo_y]; demo_z]) true (newStream ListSink.new)
    = Some (l, st') ∧ cnf_inv (λ _, True) (λ _, True) st' ∧
    d_nodeToLiteralMap (newStream ListSink.new) ⊆ d_nodeToLiteralMap st' ∧
    ∀ v A, models (d_satSolver st') v →
      (∀ a la, is_atom a = true → d_nodeToLiteralMap st' !! a = Some la → A a = lit_val v la) →
      lit_val v l = xorb true (fval A (mkNode XOR [mkNode AND [demo_x; demo_y]; demo_z])).
Proof.
  apply toCNF_correct.
  - apply nullRegistrar_ok.
  - vm_compute. reflexivity.
  - apply newStream_inv. exact ListSink.new_sat.
  - reflexivity.
  - vm_compute. discriminate.
Defined.

Lemma cnf_equisatisfiable_witness :
  ∃ st, assertFormulas TRACK (λ _, false) nullRegistrar demo (newStream ListSink.new) = Some ((), st) ∧
    ((∃ v, models (d_satSolver st) v) → ∃ A, all_hold A demo) ∧
    ((∃ A, True ∧ all_hold A demo) → ∃ v, models (d_satSolver st) v).
Proof.
  apply (cnf_equisatisfiable TRACK (λ _, false) nullRegistrar (λ _, True) demo ListSink.new).
  - apply nullRegistrar_ok.
  - repeat constructor.
  - exact ListSink.new_sat.
  - vm_compute. discriminate.
Defined.

Lemma cnf_unsat_sound_witness :
  ∃ st, assertFormulas TRACK (λ _, false) nullRegistrar demo (newStream ListSink.new) = Some ((), st) ∧
    ∃ v, models (d_satSolver st) v.
Proof.
  apply (cnf_unsat_sound TRACK (λ _, false) nullRegistrar demo ListSink.new demo_env).
  - apply nullRegistrar_ok.
  - repeat constructor.
  - exact ListSink.new_sat.
  - vm_compute. discriminate.
  - exact demo_env_ok.
  - repeat constructor.
Defined.

Lemma literal_roundtrip_witness :
  isNegated (mkLiteral 7 true) = true ∧ (getSatVariable (mkLiteral 7 true) = 7 ↔ 7 < 2 ^ 62 ∨ 2 ^ 64 - 2 ^ 62 ≤ 7) ∧
  negLit 12 = (if isNegated 12 then 12 - 1 else 12 + 1) ∧ negLit (negLit 12) = 12.
Proof. apply (literal_roundtrip 7 true 12); lia. Defined.
